(* ===== verification/_CoqProject ===== *)
-Q . S2P
Prelude.v
Effects.v
Text.v
Net.v
Core.v
ClusterState.v
ClusterStateProofs.v
Handoff.v
HandoffProofs.v
Lease.v
LeaseProofs.v
Fence.v
FenceProofs.v
Governor.v
GovernorProofs.v
Replication.v
ReplicationProofs.v
Reconciler.v
ReconcilerProofs.v
Driver.v
Join.v
Sql.v
ClientFence.v
ClientFenceProofs.v
Rpc.v
RpcProofs.v
Storage.v
RaftStore.v
StoreCodec.v
StorageProofs.v
RaftState.v
RaftStoreProofs.v
Utf8.v
Wire.v
WireProofs.v
SqlScan.v
SqlScanProofs.v
SqlLex.v
ClientSession.v
ClientSessionProofs.v
Gateway.v
GatewayProofs.v
GatewayMoveProofs.v
Members.v
MembersProofs.v
TransferProofs.v
MembersSystem.v
PgFiles.v
DurableWrite.v
Standby.v
StandbyLogic.v
StandbyProofs.v
PromoteProofs.v
Backup.v
BackupProofs.v
BackupRotation.v
BackupApi.v
BackupApiProofs.v
MgmtGate.v
Config.v
ConfigProofs.v
Upgrade.v
UpgradeApi.v
UpgradePreflight.v
UpgradePreflightProofs.v
UpgradeLogic.v
UpgradeProofs.v
UpgradeSites.v
UpgradeRollback.v
UpgradeCli.v
UpgradeCliProofs.v
BlueGreen.v
BlueGreenProofs.v
BlueGreenCheck.v
Seed.v
Roll.v
RollProofs.v
Cosign.v
SelfUpgrade.v
SelfUpgradeProofs.v
