(* ===== verification/Prelude.v ===== *)
(** * pgbattery: a verification library

    pgbattery (package root [src/], main crate [src/src/], library crates
    [src/crates/]) runs PostgreSQL in a replicated cluster.  Every node is one
    process that embeds:

    - a Raft node (openraft) whose replicated value is a small [ClusterState]:
      members, replica durability mode, major-upgrade record, cutover authority;
    - a governor, which turns Raft's metrics into a leader lease, an election
      gate and a fence signal;
    - a reconciler, which brings local PostgreSQL in line with the Raft role
      (promote, follow, open writes, manage the sync list and the slots);
    - a lease fence, an independent loop that closes writes when the lease ends;
    - an RPC transport, whose server also applies the WAL gate to votes;
    - a gateway, which routes clients to the primary and carries sessions over;
    - a management API: membership, leadership transfer, backups, the major
      upgrade's steps, and the cutover that moves client-write authority between
      two clusters;
    - a supervisor, which owns the PostgreSQL process, its files and its session.

    Commands of the same binary drive these from outside: the rolling upgrade, the
    self-upgrade, the major upgrade, the cutover of two clusters, the join.

    The safety story the library proves piece by piece: a vote goes only to a
    candidate that holds every acknowledged write ([Rpc]); a new leader waits
    out its predecessor's lease, as far as its own reports let it ([Lease],
    [Governor]); it opens writes only with a lease and the durability that was
    promised ([Reconciler], [Replication]); a deposed one is closed ([Fence]) and
    follows behind the write fence ([Standby]); what the log commits is kept
    ([Storage], [RaftStore]) and never goes back ([ClusterState]); and of two
    clusters at most one accepts client writes ([Handoff], [ClientFence], [BlueGreen]).
    Beside it: sessions are carried over whole ([ClientSession], [Gateway]), members
    decode the committed level ([Members]), restores and major upgrades keep
    the old data while the new is being made ([Backup], [Upgrade]), binaries are replaced
    one settled node at a time and only by a vetted release ([Roll], [SelfUpgrade]), and
    a node joins or mints only on evidence ([Join]).

    ** Conventions

    - Integers are [Z]; a width is a bound in the well-formedness predicate
      ([u64] and the like in this file) and wrap-around or saturation is written
      out where the source has it ([saturating_sub]).
    - Instants are nanoseconds on the node's monotonic clock, durations
      non-negative nanoseconds.
    - Fallible code returns [result] (this file) or [option].
    - An asynchronous function is a [prog] ([Effects]): it issues requests to the
      outside (PostgreSQL, Raft, a socket, the clock) and goes on with any answer.
      A [timeout] or a dropped future is an answer of its own.  Theorems about a
      [prog] hold for every answer, or for every answer that satisfies a stated
      [rely].
    - Code outside the repository (openraft, postcard) is a parameter with its
      documented behaviour as hypotheses; the Rust standard library is written
      out ([Text], [Net]).
    - Log lines, gauges, spec traces and message texts are left out everywhere.

    ** Files

    - [Prelude] (this file): results, machine widths, list and order lemmas,
      tactics, the hint databases.
    - [Effects]: programs, their program logic [safe], their traces; [within], the
      invariant of a state the requests act on; [asks], a bound on the requests;
      [embed], one component's programs inside another's; [replay] and [drive], which
      decide a run on closed terms and carry the witnesses; [issues_try] and the rules
      that split a run of a sequence.
    - [Text], [Net]: UTF-8 strings, trimming, splitting, integers in text, socket
      addresses, as the Rust standard library has them.
    - [Core]: [crates/pgbattery-core/src/types.rs].  WAL positions, replication
      slot names, PostgreSQL identifiers, version windows.  Theorems: the LSN and
      slot-name round trips.
    - [ClusterState], [ClusterStateProofs]: [governor/state_machine.rs].  [apply]
      is the source's [ClusterState::apply], one branch per [ClusterCommand];
      Module [Upgrade] and Module [Cutover] are the two delegated machines.
      Theorems: the state invariant, what never goes backwards, refused commands,
      re-delivery of log entries, term fencing, the rewind budget.
    - [Handoff], [HandoffProofs]: [observability/management_api/cutover.rs] with
      [commands/upgrade/client_fence.rs] and [governor/propose.rs].  One program
      per endpoint, donor and recipient; the theorems are about each handler, then
      about the system of clusters whose steps are the handlers' commands:
      at most one write authority.
    - [Lease], [LeaseProofs]: [governor/lease.rs], [wal_positions.rs],
      [promotion_watchdog.rs].  Theorems: the lease is one duration from quorum
      contact, the hold-down outlasts the deposed lease when no quorum contact it counted
      is later than the stated skew after the hold-down's anchor, the yield policy.
    - [Fence], [FenceProofs]: [governor/fence.rs] over [governor/pg_control.rs]
      and the write path of the supervisor's [session.rs].
    - [Governor], [GovernorProofs]: the metrics loop of [governor/raft.rs].
    - [Replication], [ReplicationProofs]: [governor/reconciler/replication.rs].
    - [Reconciler], [ReconcilerProofs]: [governor/reconciler/mod.rs] and
      [follow.rs]: one whole pass as a program over [PgControl].
    - [Driver]: the loop around the passes; its theorem ties every effect to a pass.
    - [Join]: [app.rs], the flow of [join] and what a starting node opens or mints.
      Its lemmas: on what evidence a join removes, clones and starts, and a bootstrap
      mints; with what that evidence does not exclude.
    - [Sql], [ClientFence], [ClientFenceProofs]: [commands/upgrade/client_fence.rs],
      [ddl_freeze.rs] and the session of [session.rs].  The statements as text, and
      read over a server's catalogs (a type class of PostgreSQL's documented effects,
      with an instance); what the fence takes, the lift gives back, a pass levels.
    - [Rpc], [RpcProofs]: [governor/network.rs]: the frame codec, the client's
      exchange, the vote gate, the dispatch of a request.
    - [Storage], [StorageProofs]: [governor/storage.rs], the log store's tables,
      records and transactions; [StoreCodec] instantiates its codec class.
    - [RaftStore], [RaftState], [RaftStoreProofs]: the openraft storage adapter and
      state machine store of [governor/raft.rs].  The abstract system (committed log,
      applied state, snapshots, crashes) is [RaftState]; the refinement to it is in
      [RaftStoreProofs].
    - [Utf8], [Wire], [WireProofs]: [gateway/protocol.rs] and the single-message
      readers of the gateway.
    - [SqlScan], [SqlScanProofs], [SqlLex]: [gateway/handlers/analysis.rs], and the
      reference lexer the scans are compared with.
    - [ClientSession], [ClientSessionProofs]: [gateway/connection.rs] and
      [session_replay.rs]; the proofs' Module [Backend] is a PostgreSQL session as
      the protocol documents it.
    - [Gateway], [GatewayProofs], [GatewayMoveProofs]: [gateway/handlers/], one client
      session from its first bytes to its end.
    - [Members], [MembersProofs], [TransferProofs], [MembersSystem]:
      [management_api/cluster.rs] with [cluster/membership.rs].  One program per
      handler with its locks and what a drop leaves; then any interleaving of them on
      the leader.
    - [PgFiles], [DurableWrite]: the text of the files of a data directory, and the
      write that installs one so that a crash leaves the old or the new.
    - [Standby], [StandbyLogic], [StandbyProofs], [PromoteProofs]:
      [crates/pgbattery-supervisor/src/process/].  The supervisor's operations over
      files, child processes and SQL; what a demotion may stop, discard and start, and
      what a promotion does before [pg_ctl promote].
    - [Backup], [BackupProofs], [BackupRotation], [BackupApi], [BackupApiProofs]:
      [crates/pgbattery-supervisor/src/backup.rs] and its endpoints.  The proofs run
      restore and recovery over directory trees with a process death anywhere; the
      endpoints' proofs say what runs under the locks and what is left running when a
      handler is dropped.
    - [MgmtGate]: [management_api/mod.rs], who reaches a handler.
    - [Config], [ConfigProofs]: [config/types.rs], what an accepted configuration
      guarantees the other parts.
    - [Upgrade], [UpgradePreflight], [UpgradeApi], [UpgradeCli] and their proofs
      ([UpgradeLogic], [UpgradeProofs], [UpgradeSites], [UpgradeRollback],
      [UpgradePreflightProofs], [UpgradeCliProofs]): [commands/upgrade/postgres.rs] and
      [management_api/upgrade.rs].  One node's apply, confirm, rollback and rejoin; what
      the preflight has seen; the endpoints; the command across the cluster.
    - [BlueGreen], [BlueGreenProofs], [BlueGreenCheck], [Seed]:
      [commands/upgrade/blue_green.rs], [seed_green.rs] and the endpoints of
      [cutover.rs] they drive.  The order of a cutover's steps, its catalog preflight,
      and how the recipient is seeded.
    - [Roll], [RollProofs]: [commands/upgrade/cluster.rs] and [management_api/lsn.rs].
    - [Cosign], [SelfUpgrade], [SelfUpgradeProofs]: [commands/upgrade/cosign.rs] and
      [mod.rs]: what replaces the running binary.

    A proofs file holds its component's main theorems, the limits that go with them
    (lemmas that show a hypothesis is needed, or what the code lets through), and a
    closed run for each theorem that has hypotheses.

    ** Bounds and fuel

    Where the source loops until something happens, the model takes fuel, and it is
    enough:
    - [Fence.set_readonly] polls at most [SETTLE_ROUNDS] (13) times: the settle
      budget over the poll interval, rounded up, plus the first look; the source's
      clock test ends it there.
    - The SEAL fence wait and the donor-quorum poll take 81 rounds;
      [HandoffProofs.polls_end_by_their_budget] proves the rounds never run out
      when the clock advances with the handler's sleeps.
    - [Rpc]'s drain, scan and take loops are bounded by the buffer's length, since
      every round consumes at least one byte; its receive loop takes the number of
      reads of the socket as an input.
    - [ClusterState]'s binary search takes the list's length.
    - [Gateway]'s message loops are bounded by the buffer's length, since a message
      takes at least five bytes; [rounds] and [turns] bound the watch changes a wait
      sees and the turns of the proxy loop, and theorems hold for all of them.
    - [Standby]'s, [Upgrade]'s, [UpgradeCli]'s and [Members]' [rounds] bound polls; a run
      they cut has a result of its own ([OutOfRounds], [StillWaiting]), theorems hold for
      every number, and those on outcomes name the cut run as a case.
    - [Roll] and [BlueGreen] poll against a deadline: 301 rounds outlast every wait of
      a roll ([RollProofs.a_roll_ends]) and 901 the drain's budget
      ([BlueGreenProofs.a_drain_wait_ends]) when the clock advances by what is slept.
    - [Backup.first_free] halves its range, 2^32 candidate names, in 32 levels: the
      source's loop over [u32].  [depth] ([Backup], [UpgradePreflight]) bounds the
      recursion over a tree; theorems hold for every depth.
    - [Upgrade.probe_rounds] is the source's 20 attempts; [Join.JOIN_CLONE_ATTEMPTS] its
      12; [Seed.settings] takes the text's length, which [Seed.settings_total] proves
      enough.
    - The governor's, the reconciler's and the driver's loops are runs of any length:
      theorems quantify over them ([Driver.run] takes the number of rounds).

    ** Limits of the systems

    - [RaftStoreProofs]: [reachable] takes the runs allowed.  What a restart keeps
      is claimed of [orderly] runs, where no build overlaps an install and every installed
      snapshot has the current layout; two lemmas show what happens otherwise.
    - [MembersSystem]: [reach false] has an unacknowledged change happen at once or
      never; [reach true] lets it happen later, and a lemma shows the claim fails there.
    - [BackupApi]: a handler dropped while it awaits blocking work frees its locks and
      the work runs on; [BackupApiProofs] says what is then left to run.
    - Clocks, PostgreSQL, the network and openraft answer anything unless a theorem's
      hypotheses say otherwise.

    ** Not modelled

    PROJECT.json lists every part with its status.  Left out are the wiring of a node's
    tasks and channels, the RPC server's and the gateway's listeners with TLS, the
    forwarding calls to openraft, the HTTP client, the commands that only print or
    forward, command-line parsing, metrics, logging and traces, and tests: plumbing
    around the modelled parts, which appears in them as requests. *)

From Stdlib Require Export ZArith Lia.
From Stdlib Require Import Strings.Byte Strings.String.
From stdpp Require Export base tactics option list gmap strings numbers sorting.

#[global] Open Scope Z_scope.
#[global] Set Default Goal Selector "!".

(** ** Results

    A Rust [Result<T, E>]. *)
Inductive result (E A : Type) : Type :=
| Ok (a : A)
| Err (e : E).
Arguments Ok {E A} a.
Arguments Err {E A} e.

Definition result_bind {E A B} (f : A → result E B) (m : result E A) : result E B :=
  match m with Ok a => f a | Err e => Err e end.

Definition ok_or {E A} (o : option A) (e : E) : result E A :=
  match o with Some a => Ok a | None => Err e end.

Definition result_ok {E A} (m : result E A) : option A :=
  match m with Ok a => Some a | Err _ => None end.

Definition is_ok {E A} (m : result E A) : bool :=
  match m with Ok _ => true | Err _ => false end.

Declare Scope result_scope.
Delimit Scope result_scope with res.
Notation "'let!' x ':=' m 'in' k" := (result_bind (fun x => k) m)
  (at level 10, x name, m at level 100, k at level 200) : result_scope.
#[global] Open Scope result_scope.

(** ** Machine integers

    Unsigned integers are [Z] with their bound stated where it matters, and the
    saturating operations of the Rust standard library written out. *)
Definition u32_max : Z := 2 ^ 32 - 1.
Definition u64_max : Z := 2 ^ 64 - 1.
Definition is_u32 (z : Z) : Prop := 0 ≤ z ≤ u32_max.
Definition is_u64 (z : Z) : Prop := 0 ≤ z ≤ u64_max.

Definition sat_add (max a b : Z) : Z := Z.min max (a + b).
Definition sat_sub (a b : Z) : Z := Z.max 0 (a - b).
Abbreviation sat_add_u64 := (sat_add u64_max).
Abbreviation sat_add_u32 := (sat_add u32_max).

Lemma sat_add_le_max max a b : sat_add max a b ≤ max.
Proof. unfold sat_add. lia. Qed.

Lemma sat_add_exact max a b : a + b ≤ max → sat_add max a b = a + b.
Proof. unfold sat_add. lia. Qed.

Lemma sat_add_u64_mono a b : is_u64 a → 0 ≤ b → a ≤ sat_add_u64 a b.
Proof. unfold is_u64, sat_add. lia. Qed.

Lemma sat_sub_nonneg a b : 0 ≤ sat_sub a b.
Proof. unfold sat_sub. lia. Qed.

(** ** Bytes and strings

    A Rust [&str]/[String]/[&[u8]]/[Bytes] is its byte sequence. *)
Abbreviation byte := Init.Byte.byte.
Abbreviation bytes := (list Init.Byte.byte).

#[export] Instance byte_eq_dec : EqDecision byte := Byte.byte_eq_dec.
(** Decided by code: slower, but the equality itself computes on closed bytes. *)
Definition byte_of_to (b : byte) : Byte.of_N (Byte.to_N b) = Some b.
Proof. by destruct b. Defined.
Definition byte_code_inj (a b : byte) (H : Byte.to_N a = Byte.to_N b) : a = b :=
  f_equal (default a) (eq_trans (eq_sym (byte_of_to a)) (eq_trans (f_equal Byte.of_N H) (byte_of_to b))).
Definition byte_code_dec : EqDecision byte := λ a b,
  match N.eq_dec (Byte.to_N a) (Byte.to_N b) with
  | left H => left (byte_code_inj a b H)
  | right H => right (λ E, H (f_equal Byte.to_N E))
  end.
#[export] Program Instance byte_countable : Countable byte :=
  inj_countable Byte.to_N Byte.of_N _.
Next Obligation. intros b. apply Byte.of_to_N. Qed.

Definition lit (s : string) : bytes := String.list_byte_of_string s.
Arguments lit s%_string.

Definition byte_z (b : byte) : Z := Z.of_N (Byte.to_N b).

Definition z_byte (z : Z) : byte :=
  match Byte.of_N (Z.to_N (z mod 256)) with Some b => b | None => x00 end.

Lemma byte_z_bounds b : 0 ≤ byte_z b < 256.
Proof. unfold byte_z. pose proof (Byte.to_N_bounded b). lia. Qed.

Lemma z_byte_z b : z_byte (byte_z b) = b.
Proof.
  unfold z_byte. rewrite Z.mod_small by apply byte_z_bounds.
  unfold byte_z. by rewrite N2Z.id, Byte.of_to_N.
Qed.

Lemma byte_z_inj a b : byte_z a = byte_z b → a = b.
Proof. intros H. by rewrite <-(z_byte_z a), <-(z_byte_z b), H. Qed.

Lemma byte_z_z z : byte_z (z_byte z) = z mod 256.
Proof.
  unfold z_byte, byte_z. pose proof (Z.mod_pos_bound z 256 ltac:(lia)) as Hb.
  destruct (Byte.of_N (Z.to_N (z mod 256))) as [b|] eqn:E.
  - apply Byte.to_of_N in E. rewrite E. lia.
  - apply Byte.of_N_None_iff in E. lia.
Qed.

Definition byte_eqb (a b : byte) : bool := bool_decide (a = b).

(** Byte classes of [core::ascii]. *)
Definition in_range (lo hi : Z) (b : byte) : bool :=
  (lo <=? byte_z b) && (byte_z b <=? hi).
Definition is_ascii_digit (b : byte) : bool := in_range 48 57 b.
Definition is_ascii_upper (b : byte) : bool := in_range 65 90 b.
Definition is_ascii_lower (b : byte) : bool := in_range 97 122 b.
Definition is_ascii_alphanumeric (b : byte) : bool :=
  is_ascii_digit b || is_ascii_upper b || is_ascii_lower b.
(** [u8::is_ascii_whitespace]: space, tab, LF, FF, CR; not VT. *)
Definition is_ascii_whitespace (b : byte) : bool :=
  in_range 9 10 b || in_range 12 13 b || in_range 32 32 b.

Definition to_ascii_lower (b : byte) : byte :=
  if is_ascii_upper b then z_byte (byte_z b + 32) else b.

(** [[u8]::eq_ignore_ascii_case]. *)
Fixpoint eq_ignore_ascii_case (a b : bytes) : bool :=
  match a, b with
  | [], [] => true
  | x :: a', y :: b' =>
      bool_decide (to_ascii_lower x = to_ascii_lower y) && eq_ignore_ascii_case a' b'
  | _, _ => false
  end.

Lemma eq_ignore_ascii_case_refl a : eq_ignore_ascii_case a a = true.
Proof.
  induction a as [|x a IH]; [done|]. simpl. by rewrite bool_decide_eq_true_2, IH.
Qed.

Lemma eq_ignore_ascii_case_length a b :
  eq_ignore_ascii_case a b = true → length a = length b.
Proof.
  revert b; induction a as [|x a IH]; intros [|y b]; simpl; try done.
  intros [_ H]%andb_prop. by rewrite (IH b).
Qed.

(** ** Big-endian integers: [to_be_bytes] and [from_be_bytes]. *)
Fixpoint be_combine (l : bytes) (acc : Z) : Z :=
  match l with [] => acc | b :: l' => be_combine l' (acc * 256 + byte_z b) end.

Definition u32_from_be (b0 b1 b2 b3 : byte) : Z := be_combine [b0; b1; b2; b3] 0.

Definition u32_to_be (z : Z) : bytes :=
  [z_byte (z / 2 ^ 24); z_byte (z / 2 ^ 16); z_byte (z / 2 ^ 8); z_byte z].

Lemma u32_from_be_bounds b0 b1 b2 b3 : is_u32 (u32_from_be b0 b1 b2 b3).
Proof.
  unfold is_u32, u32_max, u32_from_be; simpl.
  pose proof (byte_z_bounds b0). pose proof (byte_z_bounds b1).
  pose proof (byte_z_bounds b2). pose proof (byte_z_bounds b3). lia.
Qed.

Lemma u32_be_roundtrip z :
  is_u32 z →
  u32_from_be (z_byte (z / 2 ^ 24)) (z_byte (z / 2 ^ 16)) (z_byte (z / 2 ^ 8)) (z_byte z) = z.
Proof.
  unfold is_u32, u32_max, u32_from_be. intros Hz. simpl. rewrite !byte_z_z.
  change (Z.pow_pos 2 24) with 16777216; change (Z.pow_pos 2 16) with 65536;
  change (Z.pow_pos 2 8) with 256.
  rewrite (Z.mod_small (z / 16777216)) by (split; [apply Z.div_pos|apply Z.div_lt_upper_bound]; lia).
  Z.div_mod_to_equations. lia.
Qed.

Lemma u32_from_be_inj a0 a1 a2 a3 b0 b1 b2 b3 :
  u32_from_be a0 a1 a2 a3 = u32_from_be b0 b1 b2 b3 →
  [a0; a1; a2; a3] = [b0; b1; b2; b3].
Proof.
  unfold u32_from_be; simpl. intros H.
  pose proof (byte_z_bounds a0). pose proof (byte_z_bounds a1).
  pose proof (byte_z_bounds a2). pose proof (byte_z_bounds a3).
  pose proof (byte_z_bounds b0). pose proof (byte_z_bounds b1).
  pose proof (byte_z_bounds b2). pose proof (byte_z_bounds b3).
  rewrite (byte_z_inj a0 b0), (byte_z_inj a1 b1), (byte_z_inj a2 b2), (byte_z_inj a3 b3)
    by lia; reflexivity.
Qed.

(** ** Filtered lists *)
Lemma filter_ext_elem {A} (P1 P2 : A → Prop) `{∀ x, Decision (P1 x), ∀ x, Decision (P2 x)} (l : list A) :
  (∀ x, x ∈ l → P1 x ↔ P2 x) → filter P1 l = filter P2 l.
Proof.
  induction l as [|x l IH]; intros Hl; [done|]. rewrite !filter_cons.
  rewrite IH by (intros y Hy; apply Hl; by right).
  specialize (Hl x (list_elem_of_here _ _)). destruct (decide (P1 x)), (decide (P2 x)); tauto.
Qed.

Lemma filter_all {A} (P : A → Prop) `{∀ x, Decision (P x)} (l : list A) :
  (∀ x, x ∈ l → P x) → filter P l = l.
Proof.
  induction l as [|x l IH]; intros Hl; [done|]. rewrite filter_cons, decide_True by (apply Hl; by left).
  rewrite IH; [done|]. intros y Hy. apply Hl. by right.
Qed.

Lemma filter_notin_app {A} `{EqDecision A} (l1 l2 l : list A) :
  filter (λ n, n ∉ l2) (filter (λ n, n ∉ l1) l) = filter (λ n, n ∉ l1 ++ l2) l.
Proof.
  rewrite list_filter_filter. apply list_filter_iff. intros x. rewrite elem_of_app. naive_solver.
Qed.
