(* ===== verification/Effects.v ===== *)
(** * Programs that act on the outside world

    An asynchronous function of the source is a [prog]: it returns, or issues a
    request [e] and goes on with the answer.  Answers are whatever the outside
    gives; a theorem about a [prog] holds for all of them.

    [safe rely ok h p Q] is the program logic: started after the history [h], and
    while every answer satisfies [rely], every request [p] issues satisfies [ok]
    for the history before it, and [Q] holds of the final history and the result.
    [runs] and [issues] are the operational meaning (a trace of requests with
    their answers); [safe_runs] and [safe_issues] connect the two. *)


From S2P Require Import Prelude.

Create HintDb prog.

Section Prog.
Context {E : Type} {R : E → Type}.

Inductive prog (A : Type) : Type :=
| Ret (a : A)
| Do (e : E) (k : R e → prog A).
Arguments Ret {A} a.
Arguments Do {A} e k.

(** A request with its answer. *)
Definition event : Type := sigT R.
Definition answered (e : E) (r : R e) : event := existT e r.

Definition ask (e : E) : prog (R e) := Do e Ret.

Fixpoint bind {A B} (p : prog A) (f : A → prog B) : prog B :=
  match p with
  | Ret a => f a
  | Do e k => Do e (λ r, bind (k r) f)
  end.

(** [p?] on a [Result]. *)
Definition try_bind {Er A B} (p : prog (result Er A)) (f : A → prog (result Er B))
    : prog (result Er B) :=
  bind p (λ x, match x with Ok a => f a | Err e => Ret (Err e) end).

Fixpoint safe {A} (rely : list event → event → Prop) (ok : list event → E → Prop)
    (h : list event) (p : prog A) (Q : list event → A → Prop) : Prop :=
  match p with
  | Ret a => Q h a
  | Do e k =>
      ok h e ∧
      ∀ r, rely h (answered e r) → safe rely ok (h ++ [answered e r]) (k r) Q
  end.

(** Any answer, any request. *)
Definition any_answer (h : list event) (ev : event) : Prop := True.
Definition any_request (h : list event) (e : E) : Prop := True.

(** [runs p t a]: answered as in [t], the program issues exactly [t]'s requests
    and returns [a]. *)
Fixpoint runs {A} (p : prog A) (t : list event) (a : A) : Prop :=
  match p with
  | Ret a' => t = [] ∧ a = a'
  | Do e k => ∃ r t', t = answered e r :: t' ∧ runs (k r) t' a
  end.

(** Answering with an oracle that sees the history. *)
Fixpoint exec {A} (oracle : list event → ∀ e, R e) (h : list event) (p : prog A)
    : list event * A :=
  match p with
  | Ret a => (h, a)
  | Do e k => exec oracle (h ++ [answered e (oracle h e)]) (k (oracle h e))
  end.

Lemma safe_bind {A B} rely ok h (p : prog A) (f : A → prog B) Q :
  safe rely ok h p (λ h' a, safe rely ok h' (f a) Q) → safe rely ok h (bind p f) Q.
Proof.
  revert h; induction p as [a|e k IH]; intros h; simpl; [done|].
  intros [He Hk]. split; [done|]. intros r Hr. by apply IH, Hk.
Qed.

Lemma safe_mono {A} (rely : list event → event → Prop) (ok ok' : list event → E → Prop)
    h (p : prog A) (Q Q' : list event → A → Prop) :
  safe rely ok h p Q → (∀ h e, ok h e → ok' h e) → (∀ h a, Q h a → Q' h a) →
  safe rely ok' h p Q'.
Proof.
  intros Hs Hok HQ. revert h Hs; induction p as [a|e k IH]; intros h; simpl; [apply HQ|].
  intros [He Hk]. split; [by apply Hok|]. intros r Hr. by apply IH, Hk.
Qed.

Lemma safe_post {A} rely ok h (p : prog A) (Q Q' : list event → A → Prop) :
  safe rely ok h p Q → (∀ h a, Q h a → Q' h a) → safe rely ok h p Q'.
Proof. intros Hs. apply (safe_mono rely ok ok h p Q Q' Hs). done. Qed.

Lemma safe_try_bind {Er A B} rely ok h (p : prog (result Er A)) (f : A → prog (result Er B)) Q :
  safe rely ok h p
    (λ h' x, match x with Ok a => safe rely ok h' (f a) Q | Err e => Q h' (Err e) end) →
  safe rely ok h (try_bind p f) Q.
Proof. intros H. apply safe_bind. eapply safe_post; [exact H|]. by intros h' [a|e]. Qed.

(** A postcondition also knows the run that led to it. *)
Lemma safe_trace {A} rely ok h (p : prog A) Q :
  safe rely ok h p Q →
  safe rely ok h p (λ h' a, (∃ t, h' = h ++ t ∧ runs p t a) ∧ Q h' a).
Proof.
  revert h; induction p as [a|e k IH]; intros h; simpl.
  - intros HQ. split; [exists []; by rewrite app_nil_r|done].
  - intros [He Hk]. split; [done|]. intros r Hr. eapply safe_post; [by apply IH, Hk|].
    intros h' a [(t & -> & Ht) HQ]. split; [|done]. exists (answered e r :: t).
    rewrite <-app_assoc. split; [done|]. eauto.
Qed.

Lemma safe_any {A} rely h (p : prog A) :
  safe rely any_request h p (λ h' a, ∃ t, h' = h ++ t ∧ runs p t a).
Proof.
  revert h; induction p as [a|e k IH]; intros h; simpl.
  - exists []. by rewrite app_nil_r.
  - split; [done|]. intros r _. eapply safe_post; [apply IH|].
    intros h' a (t & -> & Ht). exists (answered e r :: t). rewrite <-app_assoc. eauto.
Qed.

(** A trace whose answers all satisfy [rely]. *)
Definition relies (rely : list event → event → Prop) (h t : list event) : Prop :=
  ∀ t1 ev t2, t = t1 ++ ev :: t2 → rely (h ++ t1) ev.

Lemma relies_cons rely h ev t :
  relies rely h (ev :: t) → rely h ev ∧ relies rely (h ++ [ev]) t.
Proof.
  intros H. split.
  - specialize (H [] ev t eq_refl). by rewrite app_nil_r in H.
  - intros t1 ev' t2 ->. specialize (H (ev :: t1) ev' t2 eq_refl). by rewrite <-app_assoc.
Qed.

Lemma relies_nil rely h : relies rely h [].
Proof. intros [|? ?] ev t2 H; discriminate H. Qed.

Lemma relies_cons_2 rely h ev t :
  rely h ev → relies rely (h ++ [ev]) t → relies rely h (ev :: t).
Proof.
  intros Hev Ht [|e1 t1] ev' t2 H; injection H as <- ->; [by rewrite app_nil_r|].
  specialize (Ht t1 ev' t2 eq_refl). by rewrite <-app_assoc in Ht.
Qed.

(** [issues p t e]: answered as in [t], the program's next request is [e]. *)
Fixpoint issues {A} (p : prog A) (t : list event) (e : E) : Prop :=
  match p with
  | Ret _ => False
  | Do e' k => (t = [] ∧ e = e') ∨ ∃ r t', t = answered e' r :: t' ∧ issues (k r) t' e
  end.

(** Adequacy: every request is issued after a history that satisfies [ok], and
    every run ends in the postcondition. *)
Lemma safe_issues {A} rely ok h (p : prog A) Q t e :
  safe rely ok h p Q → issues p t e → relies rely h t → ok (h ++ t) e.
Proof.
  revert h t; induction p as [a'|e0 k IH]; intros h t; simpl; [done|].
  intros [He Hk] [[-> ->]|(r & t' & -> & Hi)] Hrely; [by rewrite app_nil_r|].
  apply relies_cons in Hrely as [Hr Hrely].
  replace (h ++ answered e0 r :: t') with ((h ++ [answered e0 r]) ++ t')
    by (by rewrite <-app_assoc).
  apply (IH r); [by apply Hk|done|done].
Qed.

Lemma safe_runs {A} rely ok h (p : prog A) Q t a :
  safe rely ok h p Q → runs p t a → relies rely h t → Q (h ++ t) a.
Proof.
  revert h t; induction p as [a'|e k IH]; intros h t; simpl.
  - intros HQ [-> ->] _. by rewrite app_nil_r.
  - intros [_ Hk] (r & t' & -> & Hr) [Ha Hrely]%relies_cons.
    replace (h ++ answered e r :: t') with ((h ++ [answered e r]) ++ t')
      by (by rewrite <-app_assoc).
    apply (IH r); [by apply Hk|done|done].
Qed.

Lemma relies_any h t : relies any_answer h t.
Proof. done. Qed.

(** ** What a history has seen *)
Definition saw (h : list event) (q : E) (P : R q → Prop) : Prop :=
  ∃ r, answered q r ∈ h ∧ P r.

Lemma saw_app_l h t q P : saw h q P → saw (h ++ t) q P.
Proof. intros (r & Hr & HP). exists r. split; [|done]. apply elem_of_app. by left. Qed.

Lemma saw_app_r h t q P : saw t q P → saw (h ++ t) q P.
Proof. intros (r & Hr & HP). exists r. split; [|done]. apply elem_of_app. by right. Qed.

Lemma saw_here h q (r : R q) (P : R q → Prop) : P r → saw (h ++ [answered q r]) q P.
Proof. intros HP. exists r. split; [|done]. apply elem_of_app. right. apply list_elem_of_singleton. done. Qed.

Lemma saw_one q (r : R q) (P : R q → Prop) : P r → saw [answered q r] q P.
Proof. intros HP. exists r. by rewrite list_elem_of_singleton. Qed.

Lemma saw_mono h q (P P' : R q → Prop) : saw h q P → (∀ r, P r → P' r) → saw h q P'.
Proof. intros (r & Hr & HP) HPP. exists r. auto. Qed.

(** Every oracle gives a run: programs terminate with a result. *)
Lemma exec_runs {A} oracle h (p : prog A) :
  ∃ t, (exec oracle h p).1 = h ++ t ∧ runs p t (exec oracle h p).2.
Proof.
  revert h; induction p as [a|e k IH]; intros h; simpl.
  - exists []. by rewrite app_nil_r.
  - destruct (IH (oracle h e) (h ++ [answered e (oracle h e)])) as (t & Et & Hr).
    exists (answered e (oracle h e) :: t). rewrite Et, <-app_assoc. simpl. eauto.
Qed.

Lemma bind_ret_r {A} (p : prog A) t a : runs (bind p Ret) t a ↔ runs p t a.
Proof.
  revert t; induction p as [a'|e k IH]; intros t; simpl; [done|].
  split; intros (r & t' & -> & H); exists r, t'; (split; [done|]); by apply IH.
Qed.

Lemma runs_bind {A B} (p : prog A) (f : A → prog B) t b :
  runs (bind p f) t b ↔ ∃ t1 t2 a, t = t1 ++ t2 ∧ runs p t1 a ∧ runs (f a) t2 b.
Proof.
  revert t; induction p as [a'|e k IH]; intros t; simpl.
  - split; [intros H; by exists [], t, a'|]. by intros (t1 & t2 & a & -> & [-> ->] & H).
  - split.
    + intros (r & t' & -> & (t1 & t2 & a & -> & H1 & H2)%IH).
      exists (answered e r :: t1), t2, a. split; [done|]. eauto.
    + intros (t1 & t2 & a & -> & (r & t' & -> & H1) & H2). exists r, (t' ++ t2).
      split; [done|]. apply IH. eauto 6.
Qed.

Lemma runs_try {Er A B} (p : prog (result Er A)) (f : A → prog (result Er B)) t b :
  runs (try_bind p f) t b →
  (∃ t1 t2 a, t = t1 ++ t2 ∧ runs p t1 (Ok a) ∧ runs (f a) t2 b) ∨ (∃ e, runs p t (Err e) ∧ b = Err e).
Proof.
  intros (t1 & t2 & [a|e] & -> & H1 & H2)%runs_bind; [by left; exists t1, t2, a|].
  destruct H2 as [-> ->]. right. exists e. by rewrite app_nil_r.
Qed.

Lemma runs_try_ok {Er A B} (p : prog (result Er A)) (f : A → prog (result Er B)) t b :
  runs (try_bind p f) t (Ok b) → ∃ t1 t2 a, t = t1 ++ t2 ∧ runs p t1 (Ok a) ∧ runs (f a) t2 (Ok b).
Proof. intros [H|(e & _ & [=])]%runs_try. done. Qed.

Lemma runs_do {A} e k r t (a : A) : runs (k r) t a → runs (Do e k) (answered e r :: t) a.
Proof. intros H. exists r, t. auto. Qed.

Lemma issues_do {A} e (k : R e → prog A) r t q :
  issues (k r) t q → issues (Do e k) (answered e r :: t) q.
Proof. intros H. right. exists r, t. auto. Qed.

End Prog.

Arguments prog {E} R A.
Arguments event {E} R.
Arguments Ret {E R A} a.
Arguments Do {E R A} e k.

(** A request of a sequence is one of its parts'. *)
Lemma issues_bind {E} {R : E → Type} {A B} (p : prog R A) (f : A → prog R B) t q :
  issues (bind p f) t q → issues p t q ∨ ∃ t1 t2 a, t = t1 ++ t2 ∧ runs p t1 a ∧ issues (f a) t2 q.
Proof.
  revert t. induction p as [a|e k IH]; intros t; cbn [bind]; [intros H; right; by exists [], t, a|].
  intros [[-> ->]|(r & t' & -> & H)]; [by left; left|]. apply IH in H as [H|(t1 & t2 & a & -> & H1 & H2)].
  - left. right. by exists r, t'.
  - right. exists (answered e r :: t1), t2, a. split; [done|]. split; [by exists r, t1|done].
Qed.
Lemma issues_try {E} {R : E → Type} {Er A B} (p : prog R (result Er A)) (f : A → prog R (result Er B)) t q :
  issues (try_bind p f) t q → issues p t q ∨ ∃ t1 t2 a, t = t1 ++ t2 ∧ runs p t1 (Ok a) ∧ issues (f a) t2 q.
Proof. intros [H|(t1 & t2 & [a|e] & -> & H1 & H2)]%issues_bind; [by left| |done]. right. by exists t1, t2, a. Qed.

(** A point of a run: its history so far. *)
Definition reaches {E} {R : E → Type} {A} (p : prog R A) (t : list (@event E R)) : Prop :=
  (∃ q, issues p t q) ∨ ∃ a, runs p t a.

(** What a program may ask at all. *)
Section Asks.
Context {E : Type} {R : E → Type} (P : E → bool).
Fixpoint asks {A} (p : prog R A) : Prop :=
  match p with Ret _ => True | Do q k => P q = true ∧ ∀ r, asks (k r) end.
Lemma asks_bind {A B} (p : prog R A) (f : A → prog R B) : asks p → (∀ a, asks (f a)) → asks (bind p f).
Proof. intros Hp Hf. induction p as [a|q k IH]; cbn; [apply Hf|]. destruct Hp as [Hq Hk]. split; auto. Qed.
Lemma asks_try {Er A B} (p : prog R (result Er A)) (f : A → prog R (result Er B)) :
  asks p → (∀ a, asks (f a)) → asks (try_bind p f).
Proof. intros Hp Hf. apply asks_bind; [done|]. intros [a|e]; [apply Hf|done]. Qed.
Lemma asks_issues {A} (p : prog R A) t q : asks p → issues p t q → P q = true.
Proof.
  revert t. induction p as [a|e k IH]; intros t Hp; [done|]. destruct Hp as [He Hk].
  intros [[_ ->]|(r & t' & _ & H)]; [done|]. by eapply IH.
Qed.
End Asks.

Lemma asked_run {E} {R : E → Type} (P : E → bool) {A} rely (ok : list (@event E R) → E → Prop) h (p : prog R A) :
  asks P p → (∀ h q, P q = true → ok h q) →
  safe rely ok h p (λ h' a, ∃ t, h' = h ++ t ∧ Forall (λ e, P (projT1 e) = true) t ∧ runs p t a).
Proof.
  intros Hp Hok. revert h. induction p as [a|q k IH]; intros h.
  - exists []. by rewrite app_nil_r.
  - destruct Hp as [Hq Hk]. split; [by apply Hok|]. intros r _. eapply safe_post; [by apply IH, Hk|].
    intros h' a (t & -> & F & H). exists (answered q r :: t). rewrite <-app_assoc. split; [done|]. split; [by constructor|]. by exists r, t.
Qed.

(** A world the requests act on: [step s ev s'] is what [ev]'s answer may be in [s],
    and what it leaves.  [within]: at every point of a run [ok] holds, and at its end
    [Q]. *)
Section Stepping.
Context {E : Type} {R : E → Type} {S : Type} (step : S → @event E R → S → Prop).

Fixpoint steps (s : S) (t : list (@event E R)) (s' : S) : Prop :=
  match t with [] => s' = s | ev :: t => ∃ s1, step s ev s1 ∧ steps s1 t s' end.
Fixpoint within {A} (ok : S → Prop) (p : prog R A) (s : S) (Q : A → S → Prop) : Prop :=
  ok s ∧
  match p with
  | Ret a => Q a s
  | Do q k => ∀ r s', step s (answered q r) s' → within ok (k r) s' Q
  end.
Lemma steps_app s t1 t2 s2 : steps s (t1 ++ t2) s2 ↔ ∃ s1, steps s t1 s1 ∧ steps s1 t2 s2.
Proof.
  revert s. induction t1 as [|e t1 IH]; intros s; cbn.
  - split; [intros H; by exists s|by intros (s1 & -> & H)].
  - split; [intros (s0 & H0 & (s1 & H1 & H2)%IH); eauto|intros (s1 & (s0 & H0 & H1) & H2)].
    exists s0. split; [done|]. apply IH. eauto.
Qed.
Lemma within_issues {A} ok (p : prog R A) s Q t q s' :
  within ok p s Q → issues p t q → steps s t s' → ok s'.
Proof.
  revert s t. induction p as [a|e k IH]; intros s t [Hok Hp] Hi Hs; [done|].
  destruct Hi as [[-> _]|(r & t' & -> & Hi)]; [by cbn in Hs; subst|].
  destruct Hs as (s1 & H1 & Hs). by eapply IH; [apply Hp| |].
Qed.
Lemma within_runs {A} ok (p : prog R A) s Q t a s' :
  within ok p s Q → runs p t a → steps s t s' → ok s' ∧ Q a s'.
Proof.
  revert s t. induction p as [a'|e k IH]; intros s t [Hok Hp] Hr Hs.
  - destruct Hr as [-> ->]. cbn in Hs. by subst.
  - destruct Hr as (r & t' & -> & Hr), Hs as (s1 & H1 & Hs). by eapply IH; [apply Hp| |].
Qed.
Lemma within_ok {A} ok (p : prog R A) s Q : within ok p s Q → ok s.
Proof. by destruct p; intros [? _]. Qed.
Lemma within_bind {A B} ok (p : prog R A) (f : A → prog R B) s Q :
  within ok p s (λ a s', within ok (f a) s' Q) → within ok (bind p f) s Q.
Proof.
  revert s. induction p as [a|e k IH]; intros s; cbn [bind].
  - by intros [_ H].
  - intros [Hok H]. split; [done|]. intros r s' Hs. by apply IH, H.
Qed.
Lemma within_mono {A} (ok ok' : S → Prop) (p : prog R A) s (Q Q' : A → S → Prop) :
  within ok p s Q → (∀ s, ok s → ok' s) → (∀ a s, ok s → Q a s → Q' a s) → within ok' p s Q'.
Proof.
  intros H Hok HQ. revert s H. induction p as [a|e k IH]; intros s [Ho H]; split; auto.
Qed.
Lemma within_try {Er A B} ok (p : prog R (result Er A)) (f : A → prog R (result Er B)) s Q :
  within ok p s (λ x s', match x with Ok a => within ok (f a) s' Q | Err e => Q (Err e) s' end) →
  within ok (try_bind p f) s Q.
Proof.
  intros H. apply within_bind. eapply within_mono; [exact H|done|]. intros [a|e] s' Ho; [done|]. by split.
Qed.
Lemma within_reaches {A} ok (p : prog R A) s Q t s' :
  within ok p s Q → reaches p t → steps s t s' → ok s'.
Proof.
  intros Hw [[q Hi]|[a Hr]] Hs; [by eapply within_issues|].
  by destruct (within_runs ok p s Q t a s' Hw Hr Hs).
Qed.
Lemma within_asks {A} P (I : S → Prop) (p : prog R A) s :
  asks P p → (∀ s q r s', P q = true → I s → step s (answered q r) s' → I s') → I s →
  within I p s (λ _ s', I s').
Proof.
  intros Hp HI. revert s. induction p as [a|q k IH]; intros s Hs; [done|]. destruct Hp as [Hq Hk].
  split; [done|]. intros r s' Hst. apply IH; [apply Hk|]. by eapply HI.
Qed.
Lemma within_and {A} (ok1 ok2 : S → Prop) (p : prog R A) s (Q1 Q2 : A → S → Prop) :
  within ok1 p s Q1 → within ok2 p s Q2 → within (λ s, ok1 s ∧ ok2 s) p s (λ a s, Q1 a s ∧ Q2 a s).
Proof.
  revert s. induction p as [a|q k IH]; intros s [O1 H1] [O2 H2]; [by repeat split|]. split; [by split|].
  intros r s' Hst. apply IH; [by apply H1|by apply H2].
Qed.
End Stepping.

(** A program of one component inside a larger one: its requests are among the
    larger's, its answers the same. *)
Section Embed.
Context {E1 E2 : Type} {R1 : E1 → Type} {R2 : E2 → Type} (inj : E1 → E2).
Context (down : ∀ q, R2 (inj q) → R1 q) (up : ∀ q, R1 q → R2 (inj q)).

Fixpoint embed {A} (p : prog R1 A) : prog R2 A :=
  match p with Ret a => Ret a | Do q k => Do (inj q) (λ r, embed (k (down q r))) end.
Definition embed_event (ev : @event E1 R1) : @event E2 R2 := answered (inj (projT1 ev)) (up (projT1 ev) (projT2 ev)).

Lemma embed_runs {A} (p : prog R1 A) t a :
  (∀ q r, up q (down q r) = r) →
  runs (embed p) t a → ∃ t1, t = embed_event <$> t1 ∧ runs p t1 a.
Proof.
  intros Hud. revert t. induction p as [a'|q k IH]; intros t.
  - intros [-> ->]. by exists [].
  - intros (r & t' & -> & H). apply IH in H as (t1 & -> & H). exists (answered q (down q r) :: t1).
    split; [|by exists (down q r), t1]. cbn. unfold embed_event. cbn. by rewrite Hud.
Qed.
End Embed.

(** A part of another component: all its runs, whatever it asks. *)
Lemma safe_embedded {E1 E2} {R1 : E1 → Type} {R2 : E2 → Type} {A} (inj : E1 → E2)
    (down : ∀ q, R2 (inj q) → R1 q) (up : ∀ q, R1 q → R2 (inj q))
    rely (ok : list (@event E2 R2) → E2 → Prop) h (p : prog R1 A) (Q : list (@event E2 R2) → A → Prop) :
  (∀ q r, up q (down q r) = r) → (∀ t q, ok (h ++ t) (inj q)) →
  (∀ t a, runs p t a → Q (h ++ (embed_event inj up <$> t)) a) →
  safe rely ok h (embed inj down p) Q.
Proof.
  intros Hud. revert h. induction p as [a|q k IH]; intros h Hok HQ.
  - specialize (HQ [] a). cbn in HQ. rewrite app_nil_r in HQ. by apply HQ.
  - split; [specialize (Hok [] q); by rewrite app_nil_r in Hok|]. intros r _. apply IH; [by intros t q'; rewrite <-app_assoc|]. intros t a Hr.
    assert (runs (Do q k) (answered q (down q r) :: t) a) as Hrun by (by exists (down q r), t).
    apply HQ in Hrun. cbn in Hrun. unfold embed_event in Hrun at 1. cbn in Hrun. rewrite Hud in Hrun.
    rewrite <-app_assoc. exact Hrun.
Qed.

(** Concrete runs by computation: the program after the answers of [t], provided
    these are what it asks. *)
Section Replay.
Context {E : Type} `{EqDecision E} {R : E → Type}.

Definition answer_to (e : E) (ev : @event E R) : option (R e) :=
  match decide (projT1 ev = e) with
  | left H => Some (eq_rect _ R (projT2 ev) _ H)
  | right _ => None
  end.
Fixpoint replay {A} (p : prog R A) (t : list (@event E R)) {struct t} : option (prog R A) :=
  match t, p with
  | [], p => Some p
  | ev :: t, Do e k => r ← answer_to e ev; replay (k r) t
  | _ :: _, Ret _ => None
  end.
Definition asks_after {A} (p : prog R A) (t : list (@event E R)) (q : E) : bool :=
  match replay p t with Some (Do e _) => bool_decide (e = q) | _ => false end.

Lemma answer_to_spec e ev r : answer_to e ev = Some r → ev = answered e r.
Proof. unfold answer_to. destruct ev as [e' r']. cbn. case_decide as H; [subst; cbn; by intros [= ->]|done]. Qed.
Lemma replay_runs {A} (p : prog R A) t a : replay p t = Some (Ret a) → runs p t a.
Proof.
  revert p. induction t as [|ev t IH]; intros p; [by intros [= ->]|].
  destruct p as [a'|e k]; cbn [replay]; [done|]. destruct (answer_to e ev) as [r|] eqn:Er; cbn; [|done].
  intros H. apply answer_to_spec in Er as ->. by apply runs_do, IH.
Qed.
Lemma replay_issues {A} (p : prog R A) t q : asks_after p t q = true → issues p t q.
Proof.
  unfold asks_after. revert p. induction t as [|ev t IH]; intros p.
  - destruct p; cbn [replay]; [done|]. intros Hq%bool_decide_eq_true. by left.
  - destruct p as [a'|e k]; cbn [replay]; [done|]. destruct (answer_to e ev) as [r|] eqn:Er; cbn; [|done].
    intros H. apply answer_to_spec in Er as ->. by apply issues_do, IH.
Qed.
End Replay.

(** The same, answered by a partial oracle. *)
Section Drive.
Context {E : Type} {R : E → Type} (oracle : ∀ e, option (R e)).

Fixpoint drive {A} (p : prog R A) : option (list (@event E R) * A) :=
  match p with
  | Ret a => Some ([], a)
  | Do e k => r ← oracle e; '(t, a) ← drive (k r); Some (answered e r :: t, a)
  end.
Lemma drive_runs {A} (p : prog R A) t a : drive p = Some (t, a) → runs p t a.
Proof.
  revert t. induction p as [a'|e k IH]; intros t; cbn [drive]; [by intros [= <- <-]|].
  destruct (oracle e) as [r|]; cbn; [|done]. destruct (drive (k r)) as [[t' a']|] eqn:Ed; cbn; [|done].
  intros [= <- <-]. exists r, t'. auto.
Qed.
(** Up to the first request that [stop]s. *)
Fixpoint drive_to {A} (stop : E → bool) (p : prog R A) : option (list (@event E R) * E) :=
  match p with
  | Ret _ => None
  | Do e k =>
      if stop e then Some ([], e)
      else r ← oracle e; '(t, q) ← drive_to stop (k r); Some (answered e r :: t, q)
  end.
Lemma drive_to_issues {A} stop (p : prog R A) t q : drive_to stop p = Some (t, q) → issues p t q.
Proof.
  revert t. induction p as [a'|e k IH]; intros t; cbn [drive_to]; [done|]. destruct (stop e); [intros [= <- <-]; by left|].
  destruct (oracle e) as [r|]; cbn; [|done]. destruct (drive_to stop (k r)) as [[t' q']|] eqn:Ed; cbn; [|done].
  intros [= <- <-]. right. exists r, t'. auto.
Qed.
End Drive.

Declare Scope prog_scope.
Delimit Scope prog_scope with prog.
Notation "'let*' x ':=' p 'in' q" := (bind p (λ x, q))
  (at level 10, x pattern, p at level 100, q at level 200) : prog_scope.
Notation "'let?' x ':=' p 'in' q" := (try_bind p (λ x, q))
  (at level 10, x pattern, p at level 100, q at level 200) : prog_scope.
Notation "p ;; q" := (bind p (λ _, q)) (at level 100, q at level 200, right associativity) : prog_scope.
#[global] Open Scope prog_scope.

#[export] Hint Resolve relies_any saw_here saw_app_l : prog.

(** The first request of a [safe] goal, its answer named. *)
Tactic Notation "safe_ask" simple_intropattern(r) :=
  cbn [bind ask safe]; split; [try exact I|intros r _]; cbn [bind ask].

(** One step of a [safe] goal: a return, a request or a sequence. *)
Ltac safe_step :=
  lazymatch goal with
  | |- safe _ _ _ (Ret _) _ => cbn [safe]
  | |- safe _ _ _ (Do _ _) _ => split; [|intros ? _]
  | |- safe _ _ _ (bind (ask _) _) _ => cbn [bind ask safe]; split; [|intros ? _]
  | |- safe _ _ _ (ask _) _ => cbn [ask safe]; split; [|intros ? _]
  | |- safe _ _ _ (bind _ _) _ => apply safe_bind
  | |- safe _ _ _ (try_bind _ _) _ => apply safe_try_bind
  | |- safe _ _ _ (let _ := _ in _) _ => cbv zeta
  | |- safe _ _ _ (if ?b then _ else _) _ => destruct b eqn:?
  | |- safe _ _ _ (match ?x with _ => _ end) _ => destruct x eqn:?
  end.

(** One request of a concrete run, and its return. *)
Ltac run_step :=
  lazymatch goal with
  | |- runs ?p (answered ?e ?r :: ?t) ?a =>
      let p' := eval hnf in p in
      change (runs p' (answered e r :: t) a); apply runs_do
  | |- runs ?p ?t ?a => let t' := eval hnf in t in change (runs p t' a); run_step
  end.
Ltac run_end := split; vm_compute; reflexivity.

(** The same for [issues]: past one request, and at the one sought. *)
Ltac issue_step :=
  lazymatch goal with
  | |- issues ?p (answered ?e ?r :: ?t) ?q =>
      let p' := eval hnf in p in
      change (issues p' (answered e r :: t) q); apply issues_do
  | |- issues ?p ?t ?q => let t' := eval hnf in t in change (issues p t' q); issue_step
  end.
Ltac issue_end :=
  lazymatch goal with
  | |- issues ?p ?t ?q => let p' := eval hnf in p in change (issues p' [] q); left; split; [reflexivity|]
  end.
