(* ===== verification/Text.v ===== *)
(** * Text: what the program uses of [core::str] and integer formatting

    A string is its UTF-8 bytes ([Prelude.bytes]).  Whitespace trimming,
    splitting, integer parsing and printing follow the Rust standard library;
    the components that parse text build on these. *)

From S2P Require Import Prelude.
From Stdlib Require Import Strings.Byte.

(** ** Whitespace

    [char::is_whitespace] on UTF-8: ASCII 9-13 and 32, then the two- and
    three-byte members of the Unicode [White_Space] property. *)
Definition ws1 (a : byte) : bool := in_range 9 13 a || in_range 32 32 a.
Definition ws2 (a b : byte) : bool :=
  in_range 194 194 a && (in_range 133 133 b || in_range 160 160 b).
Definition ws3 (a b c : byte) : bool :=
  (in_range 225 225 a && in_range 154 154 b && in_range 128 128 c)
  || (in_range 226 226 a && in_range 128 128 b
      && (in_range 128 138 c || in_range 168 169 c || in_range 175 175 c))
  || (in_range 226 226 a && in_range 129 129 b && in_range 159 159 c)
  || (in_range 227 227 a && in_range 128 128 b && in_range 128 128 c).

(** [str::trim_start]. *)
Fixpoint trim_start (l : bytes) : bytes :=
  match l with
  | [] => []
  | a :: l1 =>
      if ws1 a then trim_start l1 else
      match l1 with
      | [] => l
      | b :: l2 =>
          if ws2 a b then trim_start l2 else
          match l2 with
          | [] => l
          | c :: l3 => if ws3 a b c then trim_start l3 else l
          end
      end
  end.

(** [str::trim_end], on the reversed bytes. *)
Fixpoint trim_rev (l : bytes) : bytes :=
  match l with
  | [] => []
  | a :: l1 =>
      if ws1 a then trim_rev l1 else
      match l1 with
      | [] => l
      | b :: l2 =>
          if ws2 b a then trim_rev l2 else
          match l2 with
          | [] => l
          | c :: l3 => if ws3 c b a then trim_rev l3 else l
          end
      end
  end.

Definition trim_end (l : bytes) : bytes := reverse (trim_rev (reverse l)).

(** [str::trim]. *)
Definition trim (l : bytes) : bytes := trim_end (trim_start l).

(** ** Splitting and searching *)

(** [str::split_once] on an ASCII separator. *)
Fixpoint split_once (sep : byte) (l : bytes) : option (bytes * bytes) :=
  match l with
  | [] => None
  | c :: l' =>
      if byte_eqb c sep then Some ([], l')
      else '(a, b) ← split_once sep l'; Some (c :: a, b)
  end.

(** [str::strip_prefix]. *)
Fixpoint strip_prefix (p l : bytes) : option bytes :=
  match p, l with
  | [], _ => Some l
  | x :: p', y :: l' => if byte_eqb x y then strip_prefix p' l' else None
  | _ :: _, [] => None
  end.

Definition starts_with (p l : bytes) : bool := bool_decide (is_Some (strip_prefix p l)).

(** The text after the first occurrence of [p] ([str::split(p).nth(1)] up to
    its own next occurrence is cut by the caller). *)
Fixpoint after_first (p l : bytes) : option bytes :=
  match strip_prefix p l with
  | Some r => Some r
  | None => match l with [] => None | _ :: l' => after_first p l' end
  end.

(** [str::contains]. *)
Definition str_contains (p l : bytes) : bool := bool_decide (is_Some (after_first p l)).

(** [str::split] on an ASCII separator: one piece more than separators. *)
Fixpoint split_on (sep : byte) (l : bytes) : list bytes :=
  match l with
  | [] => [[]]
  | c :: l' =>
      if byte_eqb c sep then [] :: split_on sep l'
      else match split_on sep l' with
           | p :: ps => (c :: p) :: ps
           | [] => [[c]]
           end
  end.

(** [str::splitn] on an ASCII separator: at most [n] pieces, the last unsplit. *)
Fixpoint splitn (n : nat) (sep : byte) (l : bytes) : list bytes :=
  match n with
  | O => []
  | S O => [l]
  | S n' =>
      match split_once sep l with
      | Some (a, b) => a :: splitn n' sep b
      | None => [l]
      end
  end.

(** [str::rsplit_once] on an ASCII separator. *)
Definition rsplit_once (sep : byte) (l : bytes) : option (bytes * bytes) :=
  '(b, a) ← split_once sep (reverse l); Some (reverse a, reverse b).

(** [str::lines]: pieces between line feeds, a carriage return before one
    dropped, no empty last piece, a last piece without line feed kept whole. *)
Definition strip_cr (l : bytes) : bytes :=
  match reverse l with c :: r => if byte_eqb c "013"%byte then reverse r else l | [] => l end.
Definition lines (l : bytes) : list bytes :=
  let pieces := split_on "010"%byte l in
  (strip_cr <$> removelast pieces) ++
  match last pieces with Some (c :: r) => [c :: r] | _ => [] end.

(** [str::to_ascii_lowercase]. *)
Definition to_ascii_lowercase (l : bytes) : bytes := to_ascii_lower <$> l.

(** [iter().position(|&b| b == x)], as the split around that position. *)
Fixpoint split_at_byte (x : byte) (l : bytes) : option (bytes * bytes) :=
  match l with
  | [] => None
  | c :: l' =>
      if byte_eqb c x then Some ([], l')
      else '(a, b) ← split_at_byte x l'; Some (c :: a, b)
  end.

(** ** Integers in text *)

(** [char::to_digit]. *)
Definition to_digit (radix : Z) (c : byte) : option Z :=
  let d :=
    if is_ascii_digit c then Some (byte_z c - 48)
    else if is_ascii_lower c then Some (byte_z c - 87)
    else if is_ascii_upper c then Some (byte_z c - 55)
    else None in
  match d with Some d => if d <? radix then Some d else None | None => None end.

(** The checked multiply-add loop of [from_str_radix]: [None] on a byte that
    is no digit and on overflow past [max]. *)
Fixpoint digits_checked (max radix : Z) (l : bytes) (acc : Z) : option Z :=
  match l with
  | [] => Some acc
  | c :: l' =>
      d ← to_digit radix c;
      if acc * radix + d <=? max then digits_checked max radix l' (acc * radix + d) else None
  end.

(** [uN::from_str_radix]: an optional [+], then at least one digit. *)
Definition from_str_radix (max radix : Z) (l : bytes) : option Z :=
  match l with
  | [] => None
  | [c] => if byte_eqb c "+" || byte_eqb c "-" then None else digits_checked max radix l 0
  | c :: l' => if byte_eqb c "+" then digits_checked max radix l' 0 else digits_checked max radix l 0
  end%byte.

(** [i64::from_str]: also a [-], and the magnitude 2^63 only with it. *)
Definition parse_i64 (l : bytes) : option Z :=
  match l with
  | c :: _ :: _ =>
      if byte_eqb c "-" then Z.opp <$> digits_checked (2 ^ 63) 10 (tail l) 0
      else from_str_radix (2 ^ 63 - 1) 10 l
  | _ => from_str_radix (2 ^ 63 - 1) 10 l
  end%byte.

Abbreviation parse_u64 := (from_str_radix u64_max 10).
Abbreviation parse_u32 := (from_str_radix u32_max 10).

(** [Display] ([radix] 10) and [UpperHex] ([radix] 16) of an unsigned integer;
    [fuel] bounds the digits. *)
Definition digit (d : Z) : byte := z_byte (if d <? 10 then 48 + d else 55 + d).
Fixpoint show_radix (radix : Z) (fuel : nat) (n : Z) : bytes :=
  match fuel with
  | O => []
  | S f =>
      if n <? radix then [digit n] else show_radix radix f (n / radix) ++ [digit (n mod radix)]
  end.

(** Twenty decimal digits hold every [u64]. *)
Definition show_u64 (n : Z) : bytes := show_radix 10 20 n.

(** [{:0wX}]: zero-padded on the left to [width]. *)
Definition zero_pad (width : nat) (l : bytes) : bytes :=
  replicate (width - length l) "0"%byte ++ l.

(** ** Lemmas *)

Lemma to_digit_digit radix d :
  2 ≤ radix ≤ 16 → 0 ≤ d < radix → to_digit radix (digit d) = Some d.
Proof.
  intros Hr Hd. unfold to_digit, digit, is_ascii_digit, is_ascii_lower, is_ascii_upper, in_range.
  destruct (Z.ltb_spec d 10); rewrite byte_z_z, Z.mod_small by lia.
  - replace (48 + d - 48) with d by lia.
    replace ((48 <=? 48 + d) && (48 + d <=? 57)) with true by lia.
    by rewrite (proj2 (Z.ltb_lt d radix)) by lia.
  - replace ((48 <=? 55 + d) && (55 + d <=? 57)) with false by lia.
    replace ((97 <=? 55 + d) && (55 + d <=? 122)) with false by lia.
    replace ((65 <=? 55 + d) && (55 + d <=? 90)) with true by lia.
    replace (55 + d - 55) with d by lia.
    by rewrite (proj2 (Z.ltb_lt d radix)) by lia.
Qed.

Lemma to_digit_range radix c d : to_digit radix c = Some d → 0 ≤ d < radix.
Proof.
  unfold to_digit, is_ascii_digit, is_ascii_lower, is_ascii_upper, in_range.
  intros H. repeat case_match; simplify_eq; lia.
Qed.

Lemma digits_checked_app max radix l1 l2 acc :
  digits_checked max radix (l1 ++ l2) acc =
  digits_checked max radix l1 acc ≫= digits_checked max radix l2.
Proof.
  revert acc; induction l1 as [|c l1 IH]; intros acc; simpl; [done|].
  destruct (to_digit radix c) as [d|]; simpl; [|done].
  by destruct (_ <=? _); simpl.
Qed.

Lemma digits_checked_bounds max radix l acc n :
  0 ≤ acc ≤ max → 0 < radix →
  digits_checked max radix l acc = Some n → 0 ≤ n ≤ max.
Proof.
  intros Ha Hr. revert acc Ha; induction l as [|c l IH]; intros acc Ha; simpl.
  - by intros [= <-].
  - destruct (to_digit radix c) as [d|] eqn:Ed; simpl; [|done].
    apply to_digit_range in Ed. destruct (Z.leb_spec (acc * radix + d) max); [|done].
    apply IH. nia.
Qed.

Lemma from_str_radix_bounds max radix l n :
  0 ≤ max → 0 < radix → from_str_radix max radix l = Some n → 0 ≤ n ≤ max.
Proof.
  intros Hm Hr. unfold from_str_radix.
  destruct l as [|c [|c' l]]; [done|..].
  - destruct (_ || _); [done|]. apply digits_checked_bounds; lia.
  - destruct (byte_eqb c "+"%byte); apply digits_checked_bounds; lia.
Qed.

Lemma digits_show_radix max radix fuel n :
  2 ≤ radix ≤ 16 → 0 ≤ n ≤ max → n < radix ^ Z.of_nat fuel → (0 < fuel)%nat →
  digits_checked max radix (show_radix radix fuel n) 0 = Some n.
Proof.
  intros Hr. revert n; induction fuel as [|f IH]; intros n Hn Hf Hpos; [lia|].
  cbn [show_radix]. destruct (Z.ltb_spec n radix).
  - cbn [digits_checked]. rewrite to_digit_digit by lia. cbn [mbind option_bind].
    replace (0 * radix + n) with n by lia.
    by rewrite (proj2 (Z.leb_le n max)) by lia.
  - rewrite Nat2Z.inj_succ, Z.pow_succ_r in Hf by lia.
    assert (Hf' : n / radix < radix ^ Z.of_nat f) by (apply Z.div_lt_upper_bound; lia).
    assert (Hdm := Z.div_mod n radix ltac:(lia)).
    assert (Hm := Z.mod_pos_bound n radix ltac:(lia)).
    assert (0 < n / radix) by (apply Z.div_str_pos; lia).
    destruct f as [|f]; [simpl in Hf'; lia|].
    rewrite digits_checked_app, IH; [|nia|done|lia].
    cbn [mbind option_bind digits_checked].
    rewrite to_digit_digit by lia. cbn [mbind option_bind].
    replace (n / radix * radix + n mod radix) with n by lia.
    by rewrite (proj2 (Z.leb_le n max)) by lia.
Qed.

Lemma show_radix_length radix fuel n : (length (show_radix radix fuel n) ≤ fuel)%nat.
Proof.
  revert n; induction fuel as [|f IH]; intros n; simpl; [done|].
  destruct (n <? radix); simpl; [lia|]. rewrite length_app. specialize (IH (n / radix)). simpl. lia.
Qed.

Lemma digits_checked_digit max radix c l acc n :
  digits_checked max radix (c :: l) acc = Some n → byte_eqb c "+"%byte = false ∧ byte_eqb c "-"%byte = false.
Proof.
  cbn [digits_checked]. intros H. unfold byte_eqb.
  split; apply bool_decide_eq_false_2; intros ->; discriminate H.
Qed.

(** What [digits_checked] reads from the start, [from_str_radix] reads. *)
Lemma from_str_radix_digits max radix l n :
  l ≠ [] → digits_checked max radix l 0 = Some n → from_str_radix max radix l = Some n.
Proof.
  destruct l as [|c l]; [done|]. intros _ H. unfold from_str_radix.
  destruct (digits_checked_digit _ _ _ _ _ _ H) as [-> ->]. by destruct l.
Qed.

Lemma show_radix_not_nil radix fuel n : (0 < fuel)%nat → show_radix radix fuel n ≠ [].
Proof.
  destruct fuel as [|f]; [lia|]. intros _. simpl.
  destruct (n <? radix); [done|]. by destruct (show_radix radix f (n / radix)).
Qed.

Lemma from_str_radix_show max radix fuel n :
  2 ≤ radix ≤ 16 → 0 ≤ n ≤ max → n < radix ^ Z.of_nat fuel → (0 < fuel)%nat →
  from_str_radix max radix (show_radix radix fuel n) = Some n.
Proof.
  intros. apply from_str_radix_digits; [by apply show_radix_not_nil|].
  by apply digits_show_radix.
Qed.

Lemma digits_checked_zeros max radix k l :
  2 ≤ radix → 0 ≤ max →
  digits_checked max radix (replicate k "0"%byte ++ l) 0 = digits_checked max radix l 0.
Proof.
  intros Hr Hm. induction k as [|k IH]; simpl; [done|].
  assert (to_digit radix "0"%byte = Some 0) as ->.
  { change (to_digit radix "0"%byte) with (if 0 <? radix then Some 0 else None).
    by rewrite (proj2 (Z.ltb_lt 0 radix)) by lia. }
  cbn [mbind option_bind]. replace (0 * radix + 0) with 0 by lia.
  by rewrite (proj2 (Z.leb_le 0 max)) by lia.
Qed.

(** Parsing what was printed gives the number back. *)
Lemma parse_show_u64 n : is_u64 n → parse_u64 (show_u64 n) = Some n.
Proof. unfold is_u64, u64_max. intros Hn. apply from_str_radix_show; lia. Qed.

(** A printed number holds no separator and no white space. *)
Lemma digit_graphic d : 0 ≤ d < 16 → is_ascii_alphanumeric (digit d) = true.
Proof.
  intros Hd. unfold is_ascii_alphanumeric, is_ascii_digit, is_ascii_lower, is_ascii_upper, in_range, digit.
  destruct (Z.ltb_spec d 10); rewrite byte_z_z, Z.mod_small by lia; lia.
Qed.

Lemma show_radix_graphic radix fuel n :
  2 ≤ radix ≤ 16 → 0 ≤ n →
  Forall (λ c, is_ascii_alphanumeric c = true) (show_radix radix fuel n).
Proof.
  intros Hr. revert n; induction fuel as [|f IH]; intros n Hn; simpl; [constructor|].
  destruct (Z.ltb_spec n radix).
  - constructor; [apply digit_graphic; lia|constructor].
  - apply Forall_app; split; [apply IH, Z.div_pos; lia|].
    constructor; [|constructor]. apply digit_graphic.
    pose proof (Z.mod_pos_bound n radix ltac:(lia)). lia.
Qed.

Lemma alphanumeric_not_ws c : is_ascii_alphanumeric c = true → ws1 c = false ∧ byte_z c < 128.
Proof.
  unfold is_ascii_alphanumeric, is_ascii_digit, is_ascii_lower, is_ascii_upper, ws1, in_range.
  lia.
Qed.

(** Text that starts and ends in visible ASCII is left alone by [trim]. *)
Definition visible (c : byte) : bool := negb (ws1 c) && (byte_z c <? 128).
Lemma trim_start_visible c l : visible c = true → trim_start (c :: l) = c :: l.
Proof.
  unfold visible. rewrite andb_true_iff, negb_true_iff, Z.ltb_lt. intros [H1 H2]. simpl. rewrite H1.
  destruct l as [|b l]; [done|].
  assert (ws2 c b = false) as -> by (unfold ws2, in_range; lia).
  destruct l as [|d l]; [done|].
  assert (ws3 c b d = false) as -> by (unfold ws3, in_range; lia). done.
Qed.
Lemma trim_rev_visible c l : visible c = true → trim_rev (c :: l) = c :: l.
Proof.
  unfold visible. rewrite andb_true_iff, negb_true_iff, Z.ltb_lt. intros [H1 H2]. simpl. rewrite H1.
  destruct l as [|b l]; [done|].
  assert (ws2 b c = false) as -> by (unfold ws2, in_range; lia).
  destruct l as [|d l]; [done|].
  assert (ws3 d b c = false) as -> by (unfold ws3, in_range; lia). done.
Qed.
Lemma trim_visible l : Forall (λ c, visible c = true) l → trim l = l.
Proof.
  intros F. unfold trim, trim_end. destruct l as [|c l]; [done|].
  rewrite trim_start_visible by by apply Forall_cons in F as [? _].
  apply Forall_reverse in F. destruct (reverse (c :: l)) as [|d r] eqn:E.
  - apply (f_equal reverse) in E. by rewrite reverse_involutive in E.
  - rewrite trim_rev_visible by by apply Forall_cons in F as [? _]. by rewrite <-E, reverse_involutive.
Qed.
Lemma alphanumeric_visible c : is_ascii_alphanumeric c = true → visible c = true.
Proof. intros [H1 H2]%alphanumeric_not_ws. unfold visible. rewrite H1. by apply Z.ltb_lt in H2 as ->. Qed.
Lemma trim_start_alphanumeric c l : is_ascii_alphanumeric c = true → trim_start (c :: l) = c :: l.
Proof. intros H. by apply trim_start_visible, alphanumeric_visible. Qed.
Lemma trim_rev_alphanumeric c l : is_ascii_alphanumeric c = true → trim_rev (c :: l) = c :: l.
Proof. intros H. by apply trim_rev_visible, alphanumeric_visible. Qed.

Lemma trim_alphanumeric c l d :
  is_ascii_alphanumeric c = true → is_ascii_alphanumeric d = true →
  trim (c :: l ++ [d]) = c :: l ++ [d].
Proof.
  intros Hc Hd. unfold trim, trim_end. rewrite trim_start_alphanumeric by done.
  change (c :: l ++ [d]) with ((c :: l) ++ [d]).
  rewrite reverse_snoc, trim_rev_alphanumeric by done.
  by rewrite reverse_cons, reverse_involutive.
Qed.

Lemma split_once_split sep l : split_once sep l = split_at_byte sep l.
Proof.
  induction l as [|c l IH]; simpl; [done|]. destruct (byte_eqb c sep); [done|]. by rewrite IH.
Qed.

Lemma strip_prefix_app p l : strip_prefix p (p ++ l) = Some l.
Proof.
  induction p as [|x p IH]; simpl; [done|]. unfold byte_eqb.
  by rewrite bool_decide_eq_true_2.
Qed.

Lemma strip_prefix_Some p l r : strip_prefix p l = Some r ↔ l = p ++ r.
Proof.
  split; [|intros ->; apply strip_prefix_app].
  revert l; induction p as [|x p IH]; intros l; simpl; [by intros [= ->]|].
  destruct l as [|y l]; [done|].
  unfold byte_eqb. case_bool_decide; [|done]. intros ->%IH. by subst.
Qed.

Lemma split_at_byte_Some x l a b :
  split_at_byte x l = Some (a, b) ↔ l = a ++ x :: b ∧ x ∉ a.
Proof.
  revert a b; induction l as [|c l IH]; intros a b; simpl.
  { split; [done|]. by intros [H _]; destruct a. }
  unfold byte_eqb. case_bool_decide as Hc.
  - subst. split.
    + intros [= <- <-]. split; [done|]. apply not_elem_of_nil.
    + intros [E Hn]. destruct a as [|y a]; simplify_eq/=; [done|]. set_solver.
  - split.
    + destruct (split_at_byte x l) as [[a' b']|]; simpl; [|done].
      intros [= <- <-]. destruct (IH a' b') as [IH1 _]. destruct (IH1 eq_refl) as [-> ?].
      split; [done|]. set_solver.
    + intros [E Hn]. destruct a as [|y a]; simplify_eq/=.
      assert (split_at_byte x (a ++ x :: b) = Some (a, b)) as ->; [|done].
      apply IH. split; [done|]. set_solver.
Qed.

Lemma split_at_byte_app x a b : x ∉ a → split_at_byte x (a ++ x :: b) = Some (a, b).
Proof. intros H. by apply split_at_byte_Some. Qed.
