(* ===== verification/Net.v ===== *)
(** * Socket addresses: [<SocketAddr as FromStr>::from_str] of the standard library

    The parser the source calls on configured and committed addresses, written
    out as [core::net] has it: an IPv4 or a bracketed IPv6 address and a port,
    the whole input consumed. *)

From S2P Require Import Prelude Text.
From Stdlib Require Import Strings.Byte.

(** An address is its value; an IPv6 socket address also carries a scope. *)
Inductive IpAddr := V4 (octets : Z) | V6 (segments : Z).
Record SocketAddr := SocketAddr_ { sock_ip : IpAddr; sock_scope : Z; sock_port : Z }.
#[export] Instance IpAddr_eq_dec : EqDecision IpAddr.
Proof. solve_decision. Defined.
#[export] Instance SocketAddr_eq_dec : EqDecision SocketAddr.
Proof. solve_decision. Defined.

(** A reader takes a prefix of the input or fails and takes nothing. *)
Definition reader (A : Type) : Type := bytes → option (A * bytes).

Definition read_given_char (c : byte) : reader () := λ i,
  match i with x :: r => if byte_eqb x c then Some (tt, r) else None | [] => None end.

(** The digits at the head of the input, most significant first. *)
Fixpoint take_digits (radix : Z) (i : bytes) : list Z * bytes :=
  match i with
  | c :: r =>
      match to_digit radix c with
      | Some d => let '(ds, rest) := take_digits radix r in (d :: ds, rest)
      | None => ([], i)
      end
  | [] => ([], [])
  end.

(** [read_number]: [max] is the target type's largest value. *)
Definition read_number (radix max : Z) (max_digits : option nat) (allow_zero_prefix : bool)
    : reader Z := λ i,
  let '(ds, rest) := take_digits radix i in
  let value := foldl (λ a d, a * radix + d) 0 ds in
  if bool_decide (ds = []) then None
  else if match max_digits with Some m => (m <? length ds)%nat | None => false end then None
  else if max <? value then None
  else if negb allow_zero_prefix && bool_decide (head ds = Some 0) && (1 <? length ds)%nat then None
  else Some (value, rest).

Definition read_separator {A} (sep : byte) (index : nat) (p : reader A) : reader A := λ i,
  match index with
  | O => p i
  | S _ => '(_, r) ← read_given_char sep i; p r
  end.

Definition read_octet : reader Z := read_number 10 255 (Some 3%nat) false.

Definition read_ipv4_addr : reader Z := λ i,
  '(a, i) ← read_separator "."%byte 0 read_octet i;
  '(b, i) ← read_separator "."%byte 1 read_octet i;
  '(c, i) ← read_separator "."%byte 2 read_octet i;
  '(d, i) ← read_separator "."%byte 3 read_octet i;
  Some (((a * 256 + b) * 256 + c) * 256 + d, i).

Definition read_port : reader Z := λ i,
  '(_, i) ← read_given_char ":"%byte i; read_number 10 65535 None true i.

(** [read_groups]: the groups read, and whether the last two were an IPv4 address. *)
Fixpoint read_groups (left i : nat) (input : bytes) : list Z * bool * bytes :=
  match left with
  | O => ([], false, input)
  | S left' =>
      match (if (1 <=? left')%nat then read_separator ":"%byte i read_ipv4_addr input else None) with
      | Some (v4, rest) => ([v4 / 65536; v4 mod 65536], true, rest)
      | None =>
          match read_separator ":"%byte i (read_number 16 65535 (Some 4%nat) true) input with
          | Some (g, rest) =>
              let '(gs, v4, rest') := read_groups left' (S i) rest in (g :: gs, v4, rest')
          | None => ([], false, input)
          end
      end
  end.

Definition segments_value (l : list Z) : Z := foldl (λ a g, a * 65536 + g) 0 l.

Definition read_ipv6_addr : reader Z := λ i,
  let '(head, head_ipv4, i) := read_groups 8 0 i in
  if (length head =? 8)%nat then Some (segments_value head, i)
  else if head_ipv4 then None
  else
    '(_, i) ← read_given_char ":"%byte i;
    '(_, i) ← read_given_char ":"%byte i;
    let '(tail, _, i) := read_groups (8 - (length head + 1)) 0 i in
    Some (segments_value (head ++ replicate (8 - length head - length tail) 0 ++ tail), i).

Definition read_scope_id : reader Z := λ i,
  '(_, i) ← read_given_char "%"%byte i; read_number 10 u32_max None true i.

Definition read_socket_addr_v4 : reader SocketAddr := λ i,
  '(ip, i) ← read_ipv4_addr i;
  '(port, i) ← read_port i;
  Some (SocketAddr_ (V4 ip) 0 port, i).

Definition read_socket_addr_v6 : reader SocketAddr := λ i,
  '(_, i) ← read_given_char "["%byte i;
  '(ip, i) ← read_ipv6_addr i;
  let '(scope, i) := default (0, i) (read_scope_id i) in
  '(_, i) ← read_given_char "]"%byte i;
  '(port, i) ← read_port i;
  Some (SocketAddr_ (V6 ip) scope port, i).

Definition parse_socket_addr (s : bytes) : option SocketAddr :=
  '(a, rest) ← match read_socket_addr_v4 s with
               | Some r => Some r
               | None => read_socket_addr_v6 s
               end;
  if bool_decide (rest = []) then Some a else None.

(** ** [Display for SocketAddr] *)
Definition show_ipv4 (ip : Z) : bytes :=
  show_u64 (ip / 2 ^ 24 mod 256) ++ ["."%byte] ++ show_u64 (ip / 2 ^ 16 mod 256) ++ ["."%byte] ++
  show_u64 (ip / 2 ^ 8 mod 256) ++ ["."%byte] ++ show_u64 (ip mod 256).

(** The eight 16-bit segments, most significant first. *)
Definition segments (ip : Z) : list Z :=
  (λ i : nat, ip / 2 ^ (16 * (7 - Z.of_nat i)) mod 65536) <$> seq 0 8.

(** The first longest run of zero segments: [(start, len)] so far, and the run
    being read. *)
Fixpoint longest_zeroes (i : nat) (l : list Z) (longest current : nat * nat) : nat * nat :=
  match l with
  | [] => longest
  | s :: l' =>
      if s =? 0 then
        let current := ((if (current.2 =? 0)%nat then i else current.1), S current.2) in
        longest_zeroes (S i) l' (if (longest.2 <? current.2)%nat then current else longest) current
      else longest_zeroes (S i) l' longest (O, O)
  end.

Definition fmt_subslice (l : list Z) : bytes :=
  match (λ s, to_ascii_lowercase (show_radix 16 4 s)) <$> l with
  | [] => []
  | first :: rest => first ++ concat ((λ s, ":"%byte :: s) <$> rest)
  end.

Definition show_ipv6 (ip : Z) : bytes :=
  if ip / 2 ^ 32 =? 0xffff then lit "::ffff:" ++ show_ipv4 (ip mod 2 ^ 32)
  else
    let '(start, len) := longest_zeroes 0 (segments ip) (O, O) (O, O) in
    if (1 <? len)%nat
    then fmt_subslice (take start (segments ip)) ++ lit "::" ++ fmt_subslice (drop (start + len) (segments ip))
    else fmt_subslice (segments ip).

Definition show_socket_addr (a : SocketAddr) : bytes :=
  match sock_ip a with
  | V4 ip => show_ipv4 ip ++ [":"%byte] ++ show_u64 (sock_port a)
  | V6 ip =>
      ["["%byte] ++ show_ipv6 ip ++
      (if sock_scope a =? 0 then [] else "%"%byte :: show_u64 (sock_scope a)) ++
      lit "]:" ++ show_u64 (sock_port a)
  end.

Example parse_v4 :
  parse_socket_addr (lit "10.0.0.2:5433") = Some (SocketAddr_ (V4 (10 * 2 ^ 24 + 2)) 0 5433).
Proof. reflexivity. Qed.
Example parse_v6 :
  parse_socket_addr (lit "[fe80::1%4]:5433") = Some (SocketAddr_ (V6 (0xfe80 * 2 ^ 112 + 1)) 4 5433).
Proof. vm_compute. reflexivity. Qed.
Example parse_v6_mapped :
  parse_socket_addr (lit "[::ffff:1.2.3.4]:1") = Some (SocketAddr_ (V6 (0xffff01020304)) 0 1).
Proof. vm_compute. reflexivity. Qed.
Example parse_no_octal : parse_socket_addr (lit "010.0.0.2:5433") = None.
Proof. reflexivity. Qed.
Example parse_no_port : parse_socket_addr (lit "10.0.0.2") = None.
Proof. reflexivity. Qed.
Example parse_name : parse_socket_addr (lit "green-1:5433") = None.
Proof. reflexivity. Qed.
Example show_v4 : show_socket_addr (SocketAddr_ (V4 (10 * 2 ^ 24 + 2)) 0 5433) = lit "10.0.0.2:5433".
Proof. reflexivity. Qed.
Example show_v6 : show_socket_addr (SocketAddr_ (V6 (0xfe80 * 2 ^ 112 + 1)) 4 5433) = lit "[fe80::1%4]:5433".
Proof. reflexivity. Qed.
Example show_v6_mapped : show_socket_addr (SocketAddr_ (V6 0xffff01020304) 0 1) = lit "[::ffff:1.2.3.4]:1".
Proof. reflexivity. Qed.
