(* ===== verification/Core.v ===== *)
(** * Core types: LSNs, replication slots, identifiers, version windows

    [crates/pgbattery-core/src/types.rs], the two LSN parsers
    ([governor/state_machine.rs], [process/mod.rs]) and the LSN printer of
    [commands/render.rs].  Every number here is a [u64] or [u32]: the parsers'
    shift keeps only the low 64 bits, as Rust's does. *)

From S2P Require Import Prelude Text.
From Stdlib Require Import Strings.Byte.

(** ** Write-ahead-log positions *)
Module Lsn.

(** [upper << 32] on a [u64] drops the bits shifted out. *)
Definition shl32_u64 (z : Z) : Z := Z.shiftl z 32 mod 2 ^ 64.

Definition parse_lsn (lsn_str : bytes) : option Z :=
  '(upper_hex, lower_hex) ← split_once "/"%byte (trim lsn_str);
  upper ← from_str_radix u64_max 16 upper_hex;
  lower ← from_str_radix u64_max 16 lower_hex;
  Some (Z.lor (shl32_u64 upper) lower).

(** The supervisor crate's own copy. *)
Definition parse_lsn_local (lsn_str : bytes) : option Z :=
  '(upper_hex, lower_hex) ← split_once "/"%byte (trim lsn_str);
  upper ← from_str_radix u64_max 16 upper_hex;
  lower ← from_str_radix u64_max 16 lower_hex;
  Some (Z.lor (shl32_u64 upper) lower).

(** [format!("{high:X}/{low:08X}")]: sixteen hex digits hold every [u64]. *)
Definition format_lsn (lsn : Z) : bytes :=
  let high := Z.shiftr lsn 32 in
  let low := Z.land lsn (Z.ones 32) in
  show_radix 16 16 high ++ ["/"%byte] ++ zero_pad 8 (show_radix 16 16 low).

(** *** Lemmas *)

Lemma lor_shift_bounds u l : is_u64 l → is_u64 (Z.lor (shl32_u64 u) l).
Proof.
  unfold is_u64, u64_max, shl32_u64. intros Hl.
  pose proof (Z.mod_pos_bound (Z.shiftl u 32) (2 ^ 64) ltac:(lia)) as Hm.
  set (a := Z.shiftl u 32 mod 2 ^ 64) in *. clearbody a.
  split; [apply Z.lor_nonneg; lia|].
  assert (Z.lor a l < 2 ^ 64); [|lia].
  destruct (Z.eq_dec (Z.lor a l) 0) as [->|Hne]; [lia|].
  assert (0 ≤ Z.lor a l) by (apply Z.lor_nonneg; lia).
  apply Z.log2_lt_pow2; [lia|]. rewrite Z.log2_lor by lia.
  apply Z.max_lub_lt.
  - destruct (Z.eq_dec a 0) as [->|]; [done|]. apply Z.log2_lt_pow2; lia.
  - destruct (Z.eq_dec l 0) as [->|]; [done|]. apply Z.log2_lt_pow2; lia.
Qed.

(** The two halves of a [u64] are put back together. *)
Lemma lor_halves n :
  is_u64 n → Z.lor (shl32_u64 (Z.shiftr n 32)) (Z.land n (Z.ones 32)) = n.
Proof.
  unfold is_u64, u64_max, shl32_u64. intros Hn.
  rewrite Z.mod_small.
  2:{ rewrite Z.shiftl_mul_pow2, Z.shiftr_div_pow2 by lia.
      change (2 ^ 32) with 4294967296. split; [|Z.div_mod_to_equations; lia].
      apply Z.mul_nonneg_nonneg; [apply Z.div_pos|]; lia. }
  rewrite <-Z.ldiff_ones_r by lia. apply Z.lor_ldiff_and.
Qed.

Lemma shiftr32_bounds n : is_u64 n → 0 ≤ Z.shiftr n 32 < 2 ^ 32.
Proof.
  unfold is_u64, u64_max. intros Hn. rewrite Z.shiftr_div_pow2 by lia.
  split; [apply Z.div_pos|apply Z.div_lt_upper_bound]; lia.
Qed.

Lemma land_ones32_bounds n : 0 ≤ Z.land n (Z.ones 32) < 2 ^ 32.
Proof. rewrite Z.land_ones by lia. apply Z.mod_pos_bound. lia. Qed.

Lemma hex_not_slash fuel n :
  0 ≤ n → "/"%byte ∉ show_radix 16 fuel n.
Proof.
  intros Hn Hin. pose proof (show_radix_graphic 16 fuel n ltac:(lia) Hn) as HF.
  rewrite Forall_forall in HF. by apply HF in Hin.
Qed.

Lemma zero_pad_show_digits n :
  0 ≤ n < 2 ^ 32 →
  from_str_radix u64_max 16 (zero_pad 8 (show_radix 16 16 n)) = Some n.
Proof.
  intros Hn. apply from_str_radix_digits.
  - unfold zero_pad. intros [_ H]%app_eq_nil. by apply (show_radix_not_nil 16 16 n ltac:(lia)).
  - unfold zero_pad, u64_max. rewrite digits_checked_zeros by lia.
    apply digits_show_radix; lia.
Qed.

Lemma zero_pad_graphic w l :
  Forall (λ c, is_ascii_alphanumeric c = true) l →
  Forall (λ c, is_ascii_alphanumeric c = true) (zero_pad w l).
Proof.
  intros H. unfold zero_pad. apply Forall_app; split; [|done].
  by apply Forall_replicate.
Qed.

(** A text of graphic ends is not changed by trimming. *)
Lemma trim_graphic_app a s b :
  a ≠ [] → b ≠ [] →
  Forall (λ c, is_ascii_alphanumeric c = true) a →
  Forall (λ c, is_ascii_alphanumeric c = true) b →
  trim (a ++ s ++ b) = a ++ s ++ b.
Proof.
  intros Ha Hb HFa HFb. destruct a as [|c a]; [done|].
  destruct b as [|d b _] using rev_ind; [done|].
  apply Forall_cons in HFa as [Hc _].
  apply Forall_app in HFb as [_ Hd]. apply Forall_cons in Hd as [Hd _].
  replace ((c :: a) ++ s ++ b ++ [d]) with (c :: (a ++ s ++ b) ++ [d])
    by (simpl; by rewrite !app_assoc).
  by apply trim_alphanumeric.
Qed.

Lemma parse_halves upper_hex lower_hex u l :
  upper_hex ≠ [] → lower_hex ≠ [] →
  Forall (λ c, is_ascii_alphanumeric c = true) upper_hex →
  Forall (λ c, is_ascii_alphanumeric c = true) lower_hex →
  from_str_radix u64_max 16 upper_hex = Some u →
  from_str_radix u64_max 16 lower_hex = Some l →
  parse_lsn (upper_hex ++ ["/"%byte] ++ lower_hex) = Some (Z.lor (shl32_u64 u) l).
Proof.
  intros Hu Hl HFu HFl Eu El. unfold parse_lsn.
  rewrite trim_graphic_app by done. rewrite split_once_split.
  cbn [app]. rewrite split_at_byte_app.
  - cbn [mbind option_bind]. by rewrite Eu, El.
  - intros Hin. rewrite Forall_forall in HFu. by apply HFu in Hin.
Qed.

(** every position the program prints is read back as itself. *)
Lemma parse_format_lsn (n : Z) : is_u64 n → parse_lsn (format_lsn n) = Some n.
Proof.
  intros Hn. pose proof (shiftr32_bounds n Hn). pose proof (land_ones32_bounds n).
  unfold format_lsn. rewrite <-(lor_halves n Hn) at 3.
  apply parse_halves.
  - by apply show_radix_not_nil; lia.
  - unfold zero_pad. intros [_ E]%app_eq_nil. by apply show_radix_not_nil in E; [|lia].
  - apply show_radix_graphic; lia.
  - apply zero_pad_graphic, show_radix_graphic; lia.
  - apply from_str_radix_show; unfold u64_max; lia.
  - by apply zero_pad_show_digits.
Qed.

Lemma parse_format_lsn_witness : is_u64 23808144 ∧ parse_lsn (format_lsn 23808144) = Some 23808144.
Proof. split; [unfold is_u64, u64_max; lia|]. apply parse_format_lsn. unfold is_u64, u64_max; lia. Defined.

Lemma parse_lsn_local_eq s : parse_lsn_local s = parse_lsn s.
Proof. reflexivity. Qed.

Lemma parse_lsn_u64 s n : parse_lsn s = Some n → is_u64 n.
Proof.
  unfold parse_lsn. destruct (split_once _ _) as [[u l]|]; [|done]. cbn [mbind option_bind].
  destruct (from_str_radix _ _ u) as [zu|]; [|done]. cbn [mbind option_bind].
  destruct (from_str_radix _ _ l) as [zl|] eqn:El; [|done]. cbn [mbind option_bind].
  intros [= <-]. apply lor_shift_bounds.
  eapply from_str_radix_bounds in El; unfold u64_max in *; [|lia..]. done.
Qed.

Example parse_lsn_ex : parse_lsn (lit " 0/16B3C90 ") = Some 23805072.
Proof. reflexivity. Qed.
Example format_lsn_ex : format_lsn (3 * 2 ^ 32 + 255) = lit "3/000000FF".
Proof. reflexivity. Qed.
(** The upper half wider than 32 bits loses its high bits. *)
Example parse_lsn_wide : parse_lsn (lit "100000001/0") = Some (2 ^ 32).
Proof. reflexivity. Qed.

End Lsn.

(** ** Identifiers and replication slots *)
Module Slot.

(** [ReplicationSlot] is a node id; its name is its rendering. *)
Record ReplicationSlot := ReplicationSlot_ { node_id : Z }.
Inductive ForeignSlot := ForeignSlot_.

Definition PREFIX : bytes := lit "replica_".
Definition for_node (node_id : Z) : ReplicationSlot := ReplicationSlot_ node_id.

Definition fmt (s : ReplicationSlot) : bytes := PREFIX ++ show_u64 (node_id s).

Definition from_str (name : bytes) : result ForeignSlot ReplicationSlot :=
  ok_or (id ← strip_prefix PREFIX name; n ← parse_u64 id; Some (ReplicationSlot_ n))
        ForeignSlot_.

Inductive IdentError := IdentEmpty | IdentTooLong | IdentInvalidChar.

(** Bytes of a multi-byte character are no ASCII letters, so the character
    loop of the source refuses exactly what this byte loop refuses. *)
Definition validate_pg_identifier (name : bytes) : result IdentError () :=
  if bool_decide (name = []) then Err IdentEmpty
  else if (63 <? Z.of_nat (length name)) then Err IdentTooLong
  else if forallb (λ c, is_ascii_alphanumeric c || byte_eqb c "_"%byte) name then Ok tt
  else Err IdentInvalidChar.

Definition is_sweepable_replica_slot (slot_name : bytes) : bool :=
  is_ok (from_str slot_name) && is_ok (validate_pg_identifier slot_name).

Lemma from_str_Ok name s :
  from_str name = Ok s ↔
  ∃ id, name = PREFIX ++ id ∧ parse_u64 id = Some (node_id s).
Proof.
  unfold from_str. destruct (strip_prefix PREFIX name) as [id|] eqn:E; cbn [mbind option_bind ok_or].
  - apply strip_prefix_Some in E as ->. split.
    + intros H. exists id. split; [done|]. destruct (parse_u64 id); simplify_eq/=. done.
    + intros (id' & ->%app_inv_head & Hp). rewrite Hp. by destruct s.
  - split; [done|]. intros (id & -> & _). by rewrite strip_prefix_app in E.
Qed.

Lemma from_str_fmt id : is_u64 id → from_str (fmt (for_node id)) = Ok (for_node id).
Proof. intros Hid. apply from_str_Ok. exists (show_u64 id). split; [done|]. by apply parse_show_u64. Qed.

(** a name this cluster minted is recognised as the slot it was minted
    for, is a valid identifier, and so is sweepable: rendering and recognition
    agree on every node id. *)
Lemma minted_slot_recognised (id : Z) :
  is_u64 id →
  from_str (fmt (for_node id)) = Ok (for_node id)
  ∧ validate_pg_identifier (fmt (for_node id)) = Ok tt
  ∧ is_sweepable_replica_slot (fmt (for_node id)) = true.
Proof.
  intros Hid.
  pose proof (from_str_fmt id Hid) as Hp.
  assert (Hv : validate_pg_identifier (fmt (for_node id)) = Ok tt).
  { unfold validate_pg_identifier, fmt, show_u64; simpl node_id.
    rewrite bool_decide_eq_false_2 by done.
    pose proof (show_radix_length 10 20 id) as Hlen.
    rewrite length_app. change (length PREFIX) with 8%nat.
    destruct (Z.ltb_spec 63 (Z.of_nat (8 + length (show_radix 10 20 id)))); [lia|].
    rewrite (proj2 (forallb_forall _ _)); [done|]. intros c Hc%list_elem_of_In.
    apply elem_of_app in Hc as [Hc|Hc].
    - assert (Forall (λ c, (is_ascii_alphanumeric c || byte_eqb c "_"%byte) = true) PREFIX) as HF.
      { repeat constructor. }
      rewrite Forall_forall in HF. by apply HF.
    - pose proof (show_radix_graphic 10 20 id ltac:(lia) ltac:(unfold is_u64 in *; lia)) as HF.
      rewrite Forall_forall in HF. by rewrite HF. }
  split; [done|]. split; [done|]. unfold is_sweepable_replica_slot. by rewrite Hp, Hv.
Qed.

Lemma minted_slot_recognised_witness :
  is_u64 42 ∧ from_str (fmt (for_node 42)) = Ok (for_node 42).
Proof.
  split; [unfold is_u64, u64_max; lia|].
  apply (minted_slot_recognised 42). unfold is_u64, u64_max; lia.
Defined.

Example foreign_archive : from_str (lit "replica_archive") = Err ForeignSlot_.
Proof. reflexivity. Qed.
Example foreign_past_u64 : from_str (lit "replica_18446744073709551616") = Err ForeignSlot_.
Proof. reflexivity. Qed.

(** Recognition is wider than minting: some name that no slot renders to
    (a leading zero) is recognised, and taken for sweepable. *)
Lemma unminted_name_is_swept :
  ∃ name s, from_str name = Ok s ∧ is_sweepable_replica_slot name = true
            ∧ ∀ id, fmt (for_node id) ≠ name ∨ ¬ is_u64 id.
Proof.
  exists (lit "replica_007"), (for_node 7). split; [reflexivity|]. split; [reflexivity|].
  intros id. destruct (decide (is_u64 id)) as [Hid|]; [|by right]. left. intros E.
  assert (from_str (fmt (for_node id)) = Ok (for_node 7)) as H by (rewrite E; reflexivity).
  rewrite (from_str_fmt id Hid) in H.
  injection H as ->. discriminate E.
Qed.

End Slot.

(** ** PostgreSQL version window *)
Module Version.

Inductive PgVersionSupport := BelowMinimum | Supported | AheadOfParser.

Definition MIN_SUPPORTED_PG_MAJOR : Z := 13.
Definition EMBEDDED_PARSER_PG_MAJOR : Z := 17.

Definition classify_pg_version (server_version_num min_major parser_major : Z) : PgVersionSupport :=
  let major := server_version_num / 10000 in
  if major <? min_major then BelowMinimum
  else if parser_major <? major then AheadOfParser
  else Supported.

Lemma classify_supported_iff v lo hi :
  classify_pg_version v lo hi = Supported ↔ lo * 10000 ≤ v < (hi + 1) * 10000.
Proof.
  unfold classify_pg_version.
  destruct (Z.ltb_spec (v / 10000) lo), (Z.ltb_spec hi (v / 10000));
    split; try done; Z.div_mod_to_equations; lia.
Qed.

End Version.
