(* ===== verification/ClusterState.v ===== *)
(** * The replicated cluster state machine ([src/governor/state_machine.rs])

    [ClusterState] is what Raft replicates; [apply_entry] is what a committed
    log entry does to it.  Definitions come first: data, the upgrade record
    (Module [Upgrade]), the cutover authority (Module [Cutover]), the whole
    state ([apply]), its projections.  The theorems are in
    [ClusterStateProofs.v]. *)

From S2P Require Import Prelude Text Net.

Abbreviation NodeId := Z.

(** ** Supervisor vocabulary ([process/rewind.rs], [process/follow.rs]) *)
Inductive RewindBudget := Unbounded | Bytes (limit : Z).
Inductive LineageTerm := Unenforced | Committed (lineage : option Z).
Record FollowTerms := FollowTerms_ { rewind_budget_of : RewindBudget; lineage_term : LineageTerm }.

Definition PG_REWIND_DIVERGENCE_THRESHOLD_BYTES : Z := 16 * 1024 * 1024.
Definition LSN_CATCHUP_THRESHOLD_BYTES_SYNC : Z := 8192.
Definition LSN_CATCHUP_THRESHOLD_BYTES_ASYNC : Z := 16000000.
Definition lsn_catchup_threshold_for (sync_active : bool) : Z :=
  if sync_active then LSN_CATCHUP_THRESHOLD_BYTES_SYNC else LSN_CATCHUP_THRESHOLD_BYTES_ASYNC.

(** ** Data *)
Inductive NodeRole := RoleLeader | RoleFollower.

Record NodeInfo := NodeInfo_ {
  info_id : NodeId;
  pg_addr : SocketAddr;
  raft_addr : SocketAddr;
  mgmt_addr : SocketAddr;
  metrics_addr : SocketAddr;
  role : NodeRole;
  last_seen : Z;
}.

Inductive CutoverPhase := Idle | Armed | Sealing | Sealed | Draining | Transferred | Aborted.
#[export] Instance CutoverPhase_eq_dec : EqDecision CutoverPhase.
Proof. solve_decision. Defined.

Definition phase_as_str (p : CutoverPhase) : bytes :=
  match p with
  | Idle => lit "idle"
  | Armed => lit "armed"
  | Sealing => lit "sealing"
  | Sealed => lit "sealed"
  | Draining => lit "draining"
  | Transferred => lit "transferred"
  | Aborted => lit "aborted"
  end.

Record CutoverAuthorityState := CutoverAuthorityState_ {
  epoch : Z;
  authority_cluster_id : option bytes;
  phase : CutoverPhase;
  sealed_final_lsn : option Z;
  target_cluster_id : option bytes;
  target_pg_addr : option bytes;
  transfer_forced : bool;
  fenced_app_roles : list bytes;
  cluster_id : option bytes;
}.

Definition cutover_default : CutoverAuthorityState :=
  CutoverAuthorityState_ 0 None Idle None None None false [] None.

Record PgUpgradeState := PgUpgradeState_ {
  frozen : bool;
  awaiting_rejoin : list NodeId;
}.

Definition pg_upgrade_default : PgUpgradeState := PgUpgradeState_ false [].

Record ClusterState := ClusterState_ {
  nodes : gmap NodeId NodeInfo;
  voter_ids : gset NodeId;
  learner_ids : gset NodeId;
  node_lsns : gmap NodeId (Z * Z);
  max_cluster_lsn : Z;
  sync_replication_active : option bool;
  cutover : CutoverAuthorityState;
  pg_upgrade : PgUpgradeState;
  applied_index : option Z;
  feature_level : Z;
  voter_intent : list NodeId;
  lineage : option Z;
  primary_term : option Z;
}.

(** [Default::default], which [ClusterState::new] returns. *)
Definition new : ClusterState :=
  ClusterState_ ∅ ∅ ∅ ∅ 0 None cutover_default pg_upgrade_default None 0 [] None None.

(** Field updates: Rust's [self.field = v]. *)
Definition set_nodes v s := ClusterState_ v (voter_ids s) (learner_ids s) (node_lsns s)
  (max_cluster_lsn s) (sync_replication_active s) (cutover s) (pg_upgrade s) (applied_index s)
  (feature_level s) (voter_intent s) (lineage s) (primary_term s).
Definition set_members vs ls s := ClusterState_ (nodes s) vs ls (node_lsns s)
  (max_cluster_lsn s) (sync_replication_active s) (cutover s) (pg_upgrade s) (applied_index s)
  (feature_level s) (voter_intent s) (lineage s) (primary_term s).
Definition set_sync_active v s := ClusterState_ (nodes s) (voter_ids s) (learner_ids s) (node_lsns s)
  (max_cluster_lsn s) v (cutover s) (pg_upgrade s) (applied_index s)
  (feature_level s) (voter_intent s) (lineage s) (primary_term s).
Definition set_cutover v s := ClusterState_ (nodes s) (voter_ids s) (learner_ids s) (node_lsns s)
  (max_cluster_lsn s) (sync_replication_active s) v (pg_upgrade s) (applied_index s)
  (feature_level s) (voter_intent s) (lineage s) (primary_term s).
Definition set_pg_upgrade v s := ClusterState_ (nodes s) (voter_ids s) (learner_ids s) (node_lsns s)
  (max_cluster_lsn s) (sync_replication_active s) (cutover s) v (applied_index s)
  (feature_level s) (voter_intent s) (lineage s) (primary_term s).
Definition set_applied_index v s := ClusterState_ (nodes s) (voter_ids s) (learner_ids s) (node_lsns s)
  (max_cluster_lsn s) (sync_replication_active s) (cutover s) (pg_upgrade s) v
  (feature_level s) (voter_intent s) (lineage s) (primary_term s).
Definition set_feature_level v s := ClusterState_ (nodes s) (voter_ids s) (learner_ids s) (node_lsns s)
  (max_cluster_lsn s) (sync_replication_active s) (cutover s) (pg_upgrade s) (applied_index s)
  v (voter_intent s) (lineage s) (primary_term s).
Definition set_voter_intent v s := ClusterState_ (nodes s) (voter_ids s) (learner_ids s) (node_lsns s)
  (max_cluster_lsn s) (sync_replication_active s) (cutover s) (pg_upgrade s) (applied_index s)
  (feature_level s) v (lineage s) (primary_term s).
Definition set_lineage v s := ClusterState_ (nodes s) (voter_ids s) (learner_ids s) (node_lsns s)
  (max_cluster_lsn s) (sync_replication_active s) (cutover s) (pg_upgrade s) (applied_index s)
  (feature_level s) (voter_intent s) v (primary_term s).
Definition set_primary_term v s := ClusterState_ (nodes s) (voter_ids s) (learner_ids s) (node_lsns s)
  (max_cluster_lsn s) (sync_replication_active s) (cutover s) (pg_upgrade s) (applied_index s)
  (feature_level s) (voter_intent s) (lineage s) v.

(** ** Snapshots

    The layout store schema 0 serialized, before [cutover] and [pg_upgrade]. *)
Record ClusterStateV0 := ClusterStateV0_ {
  v0_nodes : gmap NodeId NodeInfo;
  v0_voter_ids : gset NodeId;
  v0_learner_ids : gset NodeId;
  v0_node_lsns : gmap NodeId (Z * Z);
  v0_max_cluster_lsn : Z;
  v0_sync_replication_active : option bool;
}.

Definition from_v0 (v0 : ClusterStateV0) : ClusterState :=
  ClusterState_ (v0_nodes v0) (v0_voter_ids v0) (v0_learner_ids v0) (v0_node_lsns v0)
    (v0_max_cluster_lsn v0) (v0_sync_replication_active v0)
    cutover_default pg_upgrade_default None 0 [] None None.

Section Postcard.
(** [postcard::from_bytes] at the two layouts: a third-party decoder. *)
Context {DecodeError : Type}.
Variable from_bytes : bytes → result DecodeError ClusterState.
Variable from_bytes_v0 : bytes → result DecodeError ClusterStateV0.

Definition decode_snapshot (data : bytes) : result DecodeError ClusterState :=
  match from_bytes data with
  | Ok s => Ok s
  | Err current =>
      match from_bytes_v0 data with
      | Ok v0 => Ok (from_v0 v0)
      | Err _ => Err current
      end
  end.
End Postcard.

(** ** Commands *)
Inductive ClusterCommand :=
| AddNode (info : NodeInfo)
| RemoveNode (id : NodeId)
| UpdateNode (id : NodeId) (r : NodeRole)
| UpdateLsn (node_id : NodeId) (lsn_bytes timestamp : Z)
| SetSyncMode (active : bool)
| CutoverArmed (target_cluster_id local_cluster_id : bytes)
| CutoverSeal (final_lsn : Z)
| PgUpgradeFreeze (standbys : list NodeId)
| CutoverDrainObserved
| CutoverTransfer (target_cluster_id target_pg_addr : bytes) (forced : bool)
| CutoverAbortUnseal (local_cluster_id : bytes)
| CutoverAuthorityReceived (epoch : Z) (from_cluster_id local_cluster_id : bytes)
| SetFeatureLevel (level : Z)
| CutoverSealing (app_roles : list bytes)
| PgUpgradeServe (lineage : option Z)
| PgUpgradeRejoined (node_id : NodeId)
| PgUpgradeAbort
| IntendVoter (node_id : NodeId)
| SetLineage (system_identifier : Z)
| NameCluster (cluster_id : bytes) (awaits_authority_from : option bytes)
| PrimaryOpened (term : Z).

Definition FEATURE_LEVEL : Z := 1.

Definition required_feature_level (c : ClusterCommand) : Z :=
  match c with
  | AddNode _ | RemoveNode _ | UpdateNode _ _ | UpdateLsn _ _ _ | SetSyncMode _ => 0
  | CutoverArmed _ _ | CutoverSealing _ | CutoverSeal _ | PgUpgradeFreeze _
  | PgUpgradeServe _ | PgUpgradeRejoined _ | PgUpgradeAbort | IntendVoter _
  | SetLineage _ | NameCluster _ _ | PrimaryOpened _ | CutoverDrainObserved
  | CutoverTransfer _ _ _ | CutoverAbortUnseal _ | CutoverAuthorityReceived _ _ _
  | SetFeatureLevel _ => 1
  end.

Inductive CommandOutcome := Applied | OutOfOrder.
#[export] Instance CommandOutcome_eq_dec : EqDecision CommandOutcome.
Proof. solve_decision. Defined.

Definition applied (o : CommandOutcome) : bool := bool_decide (o = Applied).

(** ** Track B: the upgrade record *)
Module Upgrade.

(** [Vec::retain(|n| *n != id)]. *)
Definition retain_ne (id : NodeId) (l : list NodeId) : list NodeId := filter (λ n, n ≠ id) l.

Definition leaves_stopped (u : PgUpgradeState) (node : NodeId) : bool :=
  bool_decide (node ∈ awaiting_rejoin u).

Definition apply (u : PgUpgradeState) (cmd : ClusterCommand) : PgUpgradeState * CommandOutcome :=
  match cmd with
  | PgUpgradeFreeze standbys =>
      if frozen u && bool_decide (awaiting_rejoin u = standbys) then (u, Applied)
      else if frozen u || negb (bool_decide (awaiting_rejoin u = [])) then (u, OutOfOrder)
      else (PgUpgradeState_ true standbys, Applied)
  | PgUpgradeServe _ => (PgUpgradeState_ false (awaiting_rejoin u), Applied)
  | PgUpgradeRejoined node_id =>
      (PgUpgradeState_ (frozen u) (retain_ne node_id (awaiting_rejoin u)), Applied)
  | PgUpgradeAbort =>
      if negb (frozen u) && negb (bool_decide (awaiting_rejoin u = [])) then (u, OutOfOrder)
      else (pg_upgrade_default, Applied)
  | _ => (u, OutOfOrder)
  end.

End Upgrade.

(** ** Track C: the cutover authority *)
Module Cutover.

Definition in_transit (p : CutoverPhase) : bool :=
  match p with Sealing | Sealed | Draining => true | _ => false end.

(** [Option<&str>::is_none_or(|id| id == s)]. *)
Definition none_or_eq (o : option bytes) (s : bytes) : bool :=
  match o with None => true | Some id => bool_decide (id = s) end.

Definition holds_client_write_authority (c : CutoverAuthorityState) (local_cluster_id : bytes) : bool :=
  if match cluster_id c with Some named => bool_decide (named ≠ local_cluster_id) | None => false end
  then false
  else
    match phase c with
    | Sealing | Sealed | Draining => false
    | Idle | Armed | Transferred | Aborted => none_or_eq (authority_cluster_id c) local_cluster_id
    end.

Definition boot_fence_may_land (c : CutoverAuthorityState) : bool :=
  bool_decide (phase c = Idle) && bool_decide (authority_cluster_id c = None).

Definition needs_naming (c : CutoverAuthorityState) (id : bytes) (awaits : option bytes) : bool :=
  match cluster_id c with
  | None => true
  | Some named =>
      bool_decide (named = id) && bool_decide (awaits ≠ None) && boot_fence_may_land c
  end.

Definition with_authority (a : option bytes) (c : CutoverAuthorityState) : CutoverAuthorityState :=
  CutoverAuthorityState_ (epoch c) a (phase c) (sealed_final_lsn c) (target_cluster_id c)
    (target_pg_addr c) (transfer_forced c) (fenced_app_roles c) (cluster_id c).
Definition with_cluster_id (i : option bytes) (c : CutoverAuthorityState) : CutoverAuthorityState :=
  CutoverAuthorityState_ (epoch c) (authority_cluster_id c) (phase c) (sealed_final_lsn c)
    (target_cluster_id c) (target_pg_addr c) (transfer_forced c) (fenced_app_roles c) i.

Definition name (c : CutoverAuthorityState) (id : bytes) (awaits : option bytes)
    : CutoverAuthorityState * CommandOutcome :=
  if match cluster_id c with Some named => bool_decide (named ≠ id) | None => false end
  then (c, OutOfOrder)
  else
    let c1 :=
      match awaits with
      | Some donor => if boot_fence_may_land c then with_authority (Some donor) c else c
      | None => c
      end in
    (with_cluster_id (Some id) c1, Applied).

(** ABORT: authority back to the local cluster in a new epoch. *)
Definition unseal (c : CutoverAuthorityState) (local_cluster_id : bytes)
    : CutoverAuthorityState * CommandOutcome :=
  match phase c with
  | Armed | Sealing | Sealed | Draining =>
      (CutoverAuthorityState_ (sat_add_u64 (epoch c) 1) (Some local_cluster_id) Aborted None None
         None false [] (cluster_id c), Applied)
  | Idle | Transferred | Aborted => (c, OutOfOrder)
  end.

(** [ClusterState::apply_cutover]; it reads and writes the cutover record only. *)
Definition apply_cutover (c : CutoverAuthorityState) (cmd : ClusterCommand)
    : CutoverAuthorityState * CommandOutcome :=
  match cmd with
  | CutoverArmed target local =>
      let may_arm :=
        match phase c with
        | Idle | Aborted | Transferred => holds_client_write_authority c local
        | Armed | Sealing | Sealed | Draining => false
        end in
      if may_arm then
        (CutoverAuthorityState_ (epoch c) (Some local) Armed (sealed_final_lsn c) (Some target)
           (target_pg_addr c) false (fenced_app_roles c) (cluster_id c), Applied)
      else (c, OutOfOrder)
  | CutoverSealing app_roles =>
      if bool_decide (phase c ≠ Armed) then (c, OutOfOrder) else
      (CutoverAuthorityState_ (epoch c) (authority_cluster_id c) Sealing (sealed_final_lsn c)
         (target_cluster_id c) (target_pg_addr c) (transfer_forced c) app_roles (cluster_id c), Applied)
  | CutoverSeal final_lsn =>
      if bool_decide (phase c ≠ Sealing) then (c, OutOfOrder) else
      (CutoverAuthorityState_ (epoch c) (authority_cluster_id c) Sealed (Some final_lsn)
         (target_cluster_id c) (target_pg_addr c) (transfer_forced c) (fenced_app_roles c)
         (cluster_id c), Applied)
  | CutoverDrainObserved =>
      if bool_decide (phase c ≠ Sealed) then (c, OutOfOrder) else
      (CutoverAuthorityState_ (epoch c) (authority_cluster_id c) Draining (sealed_final_lsn c)
         (target_cluster_id c) (target_pg_addr c) (transfer_forced c) (fenced_app_roles c)
         (cluster_id c), Applied)
  | CutoverTransfer target pg_addr forced =>
      let allowed :=
        if forced then match phase c with Sealed | Draining => true | _ => false end
        else bool_decide (phase c = Draining) in
      if allowed then
        (CutoverAuthorityState_ (sat_add_u64 (epoch c) 1) (Some target) Transferred
           (sealed_final_lsn c) (Some target) (Some pg_addr) forced (fenced_app_roles c)
           (cluster_id c), Applied)
      else (c, OutOfOrder)
  | CutoverAbortUnseal local => unseal c local
  | CutoverAuthorityReceived e from local =>
      if e <=? epoch c then (c, OutOfOrder) else
      (CutoverAuthorityState_ e (Some local) Transferred None (Some from) None false []
         (cluster_id c), Applied)
  | NameCluster id awaits => name c id awaits
  | _ => (c, OutOfOrder)
  end.

End Cutover.

(** ** The whole state machine *)

(** The search loop of [slice::binary_search] in [core], over [list NodeId]:
    [size] halves until one candidate is left. [fuel] bounds the halvings; the
    length is enough. *)
Fixpoint binary_search_loop (fuel : nat) (l : list Z) (x : Z) (base size : nat) : nat :=
  match fuel with
  | O => base
  | S f =>
      if (1 <? size)%nat then
        let half := (size / 2)%nat in
        let mid := (base + half)%nat in
        let base' := match l !! mid with Some y => if x <? y then base else mid | None => base end in
        binary_search_loop f l x base' (size - half)
      else base
  end.

(** [Ok i]: found at [i]; [Err i]: where it would keep the order. *)
Definition binary_search (l : list Z) (x : Z) : result nat nat :=
  match l with
  | [] => Err O
  | _ =>
      let base := binary_search_loop (length l) l x 0 (length l) in
      match l !! base with
      | Some y => if y =? x then Ok base else Err (if y <? x then S base else base)
      | None => Err base
      end
  end.

(** [Vec::insert]. *)
Definition vec_insert (i : nat) (x : Z) (l : list Z) : list Z := take i l ++ x :: drop i l.

Definition raise_feature_level (s : ClusterState) (level : Z) : ClusterState * CommandOutcome :=
  if level <=? feature_level s then (s, OutOfOrder)
  else (set_feature_level level s, Applied).

Definition reflects (s : ClusterState) (index : Z) : bool :=
  match applied_index s with Some a => index <=? a | None => false end.

Definition note_applied (s : ClusterState) (index : Z) : ClusterState :=
  if reflects s index then s else set_applied_index (Some index) s.

(** A helper for the two arms that delegate to the upgrade record. *)
Definition apply_upgrade (s : ClusterState) (cmd : ClusterCommand) : ClusterState * CommandOutcome :=
  let '(u, o) := Upgrade.apply (pg_upgrade s) cmd in (set_pg_upgrade u s, o).

Definition apply (s : ClusterState) (cmd : ClusterCommand) : ClusterState * CommandOutcome :=
  match cmd with
  | SetFeatureLevel level => raise_feature_level s level
  | _ =>
    if feature_level s <? required_feature_level cmd then (s, OutOfOrder) else
    match cmd with
    | AddNode info => (set_nodes (<[info_id info := info]> (nodes s)) s, Applied)
    | RemoveNode id =>
        (set_voter_intent (Upgrade.retain_ne id (voter_intent s))
          (set_pg_upgrade
             (PgUpgradeState_ (frozen (pg_upgrade s))
                (Upgrade.retain_ne id (awaiting_rejoin (pg_upgrade s))))
             (set_nodes (delete id (nodes s)) s)), Applied)
    | IntendVoter node_id =>
        match binary_search (voter_intent s) node_id with
        | Err at_ => (set_voter_intent (vec_insert at_ node_id (voter_intent s)) s, Applied)
        | Ok _ => (s, Applied)
        end
    | PrimaryOpened term =>
        if match primary_term s with Some recorded => term <? recorded | None => false end
        then (s, OutOfOrder)
        else (set_primary_term (Some term) s, Applied)
    | SetLineage system_identifier =>
        match lineage s with
        | Some current =>
            if bool_decide (current ≠ system_identifier) then (s, OutOfOrder)
            else (set_lineage (Some system_identifier) s, Applied)
        | None => (set_lineage (Some system_identifier) s, Applied)
        end
    | PgUpgradeServe (Some swapped) =>
        if frozen (pg_upgrade s)
        then apply_upgrade (set_lineage (Some swapped) s) (PgUpgradeServe None)
        else apply_upgrade s cmd
    | UpdateNode id r =>
        match nodes s !! id with
        | Some n =>
            (set_nodes (<[id := NodeInfo_ (info_id n) (pg_addr n) (raft_addr n) (mgmt_addr n)
               (metrics_addr n) r (last_seen n)]> (nodes s)) s, Applied)
        | None => (s, Applied)
        end
    | UpdateLsn _ _ _ => (s, Applied)
    | SetSyncMode active => (set_sync_active (Some active) s, Applied)
    | PgUpgradeFreeze _ | PgUpgradeServe None | PgUpgradeRejoined _ | PgUpgradeAbort =>
        apply_upgrade s cmd
    | _ => let '(c, o) := Cutover.apply_cutover (cutover s) cmd in (set_cutover c s, o)
    end
  end.

Definition apply_entry (s : ClusterState) (index : Z) (cmd : ClusterCommand)
    : ClusterState * CommandOutcome :=
  if reflects s index then (s, Applied)
  else apply (set_applied_index (Some index) s) cmd.

(** ** Projections *)

Definition rewind_budget (s : ClusterState) : RewindBudget :=
  match sync_replication_active s with
  | Some true => Unbounded
  | _ => Bytes PG_REWIND_DIVERGENCE_THRESHOLD_BYTES
  end.

Definition routes_to_leader (s : ClusterState) (current_term : Z) : bool :=
  let records_opening := required_feature_level (PrimaryOpened 0) in
  if feature_level s <? records_opening then true
  else match primary_term s with Some term => term =? current_term | None => false end.

Definition follow_terms (s : ClusterState) : FollowTerms :=
  let records_lineage := required_feature_level (SetLineage 0) in
  FollowTerms_ (rewind_budget s)
    (if records_lineage <=? feature_level s then Committed (lineage s) else Unenforced).

Definition lsn_catchup_threshold_bytes (s : ClusterState) : Z :=
  let use_tight := bool_decide (sync_replication_active s ≠ Some false) in
  lsn_catchup_threshold_for use_tight.

Definition vote_lsn_threshold_bytes (s : ClusterState) : Z :=
  if bool_decide (sync_replication_active s = Some false)
  then LSN_CATCHUP_THRESHOLD_BYTES_ASYNC else 0.
