(* ===== verification/ClusterStateProofs.v ===== *)
(** * What the replicated state machine guarantees

    Theorems about the definitions of [ClusterState.v]: the search behind
    [voter_intent], the state invariant and the quantities that never go
    backwards, refused commands, re-delivered log entries, the upgrade record and
    the rewind budget.  Helper lemmas come first, the properties last. *)

From S2P Require Import Prelude Text ClusterState.

(** ** The log as a run of commands *)
Definition run (s : ClusterState) (cmds : list ClusterCommand) : ClusterState :=
  foldl (λ s c, (apply s c).1) s cmds.

(** A log with its indices, delivered to a node that may already reflect some. *)
Definition run_entries (s : ClusterState) (log : list (Z * ClusterCommand)) : ClusterState :=
  foldl (λ s e, (apply_entry s e.1 e.2).1) s log.

(** Values the wire types allow: an epoch is a [u64], a level a [u32]. *)
Definition cmd_typed (c : ClusterCommand) : Prop :=
  match c with
  | CutoverAuthorityReceived e _ _ => is_u64 e
  | SetFeatureLevel l => is_u32 l
  | _ => True
  end.

(** ** Invariant *)
Definition cutover_wf (c : CutoverAuthorityState) : Prop :=
  is_u64 (epoch c) ∧
  match phase c with
  | Idle => epoch c = 0 ∧ target_cluster_id c = None ∧ sealed_final_lsn c = None ∧
            transfer_forced c = false ∧ fenced_app_roles c = []
  | Armed | Sealing => is_Some (authority_cluster_id c) ∧ is_Some (target_cluster_id c)
  | Sealed | Draining =>
      is_Some (authority_cluster_id c) ∧ is_Some (target_cluster_id c) ∧
      is_Some (sealed_final_lsn c)
  | Transferred => is_Some (authority_cluster_id c) ∧ is_Some (target_cluster_id c)
  | Aborted => is_Some (authority_cluster_id c) ∧ target_cluster_id c = None ∧
               target_pg_addr c = None ∧ sealed_final_lsn c = None ∧
               transfer_forced c = false ∧ fenced_app_roles c = []
  end.

Record well_formed (s : ClusterState) : Prop := {
  wf_intent : StronglySorted Z.lt (voter_intent s);
  wf_nodes : map_Forall (λ id n, info_id n = id) (nodes s);
  wf_level : is_u32 (feature_level s);
  wf_cutover : cutover_wf (cutover s);
}.

(** ** Automation *)
Ltac apply_cases :=
  repeat (case_match || case_bool_decide); simplify_eq/=.

Lemma set_cutover_same s : set_cutover (cutover s) s = s.
Proof. by destruct s. Qed.
Lemma set_pg_upgrade_same s : set_pg_upgrade (pg_upgrade s) s = s.
Proof. by destruct s. Qed.

(** ** [slice::binary_search] *)
Lemma sorted_lookup_lt l i j a b :
  StronglySorted Z.lt l → (i < j)%nat → l !! i = Some a → l !! j = Some b → a < b.
Proof.
  intros Hs Hij Ha Hb. rewrite <-(take_drop (S i) l) in Hs.
  apply (StronglySorted_app_1_elem_of _ _ _ a b Hs).
  - apply list_elem_of_lookup. exists i. rewrite lookup_take_lt; [done|lia].
  - apply list_elem_of_lookup. exists (j - S i)%nat.
    rewrite lookup_drop, <-Hb. f_equal. lia.
Qed.

Lemma binary_search_loop_inv l x fuel base size :
  StronglySorted Z.lt l →
  (1 ≤ size)%nat → (base + size ≤ length l)%nat → (size ≤ S fuel)%nat →
  (base = 0%nat ∨ ∃ y, l !! base = Some y ∧ y ≤ x) →
  (∀ j y, (base + size ≤ j)%nat → l !! j = Some y → x < y) →
  let b := binary_search_loop fuel l x base size in
  (b < length l)%nat ∧ (b = 0%nat ∨ ∃ y, l !! b = Some y ∧ y ≤ x) ∧
  (∀ j y, (b < j)%nat → l !! j = Some y → x < y).
Proof.
  intros Hs. revert base size; induction fuel as [|f IH]; intros base size H1 Hlen Hf Hlo Hhi; cbn [binary_search_loop].
  - split; [lia|]. split; [done|]. intros j y Hj. apply Hhi. lia.
  - destruct (Nat.ltb_spec 1 size) as [Hsz|Hsz].
    2:{ split; [lia|]. split; [done|]. intros j y Hj. apply Hhi. lia. }
    pose proof (Nat.div_mod_eq size 2) as Hd.
    pose proof (Nat.mod_upper_bound size 2 ltac:(lia)) as Hm.
    set (half := (size / 2)%nat) in *. set (r := (size mod 2)%nat) in *.
    destruct (lookup_lt_is_Some_2 l (base + half)) as [y Hy]; [lia|]. rewrite Hy.
    destruct (Z.ltb_spec x y) as [Hxy|Hxy].
    + apply IH; try lia; [done|]. intros j z Hj Hz.
      destruct (decide (j = base + half)%nat) as [->|Hne]; [congruence|].
      enough (y < z) by lia.
      apply (sorted_lookup_lt l (base + half) j); [done|lia|done|done].
    + apply IH; try lia.
      * right. eauto.
      * intros j z Hj. apply Hhi. lia.
Qed.

Lemma binary_search_spec l x :
  StronglySorted Z.lt l →
  match binary_search l x with
  | Ok i => l !! i = Some x
  | Err i => (∀ y, y ∈ take i l → y < x) ∧ (∀ y, y ∈ drop i l → x < y)
  end.
Proof.
  intros Hs. unfold binary_search. destruct l as [|a l']; [by split; intros y Hy; inversion Hy|].
  set (l := a :: l') in *.
  destruct (binary_search_loop_inv l x (length l) 0 (length l) Hs) as (Hb & Hlo & Hhi);
    [simpl; lia|lia|lia|by left|intros j y Hj ?%lookup_lt_Some; lia|].
  set (b := binary_search_loop _ _ _ _ _) in *.
  destruct (lookup_lt_is_Some_2 l b) as [y Hy]; [done|]. rewrite Hy.
  destruct (Z.eqb_spec y x) as [->|Hne]; [done|].
  assert (Hdrop : ∀ z, z ∈ drop (S b) l → x < z).
  { intros z (j & Hj)%list_elem_of_lookup. rewrite lookup_drop in Hj.
    apply Hhi in Hj; [done|lia]. }
  destruct (Z.ltb_spec y x) as [Hyx|Hyx].
  - split; [|apply Hdrop]. intros z Hz. rewrite (take_S_r _ _ _ Hy) in Hz.
    apply elem_of_app in Hz as [Hz|Hz%list_elem_of_singleton]; [|congruence].
    apply list_elem_of_lookup in Hz as [j Hj]. apply lookup_take_Some in Hj as [Hj ?].
    assert (z < y) by (by apply (sorted_lookup_lt l j b)). lia.
  - destruct Hlo as [Hb0|(y' & Hy' & Hle)]; [|assert (y' = y) by congruence; lia].
    rewrite Hb0 in *. split; [intros z Hz; inversion Hz|]. intros z Hz. rewrite drop_0 in Hz.
    apply list_elem_of_lookup in Hz as [[|j] Hj].
    + assert (z = y) by congruence. lia.
    + apply Hhi in Hj; [done|lia].
Qed.

Lemma vec_insert_sorted l x i :
  StronglySorted Z.lt l → binary_search l x = Err i → StronglySorted Z.lt (vec_insert i x l).
Proof.
  intros Hs E. pose proof (binary_search_spec l x Hs) as Hb. rewrite E in Hb.
  destruct Hb as [Hlo Hhi]. unfold vec_insert. rewrite <-(take_drop i l) in Hs.
  pose proof Hs as (Hc & Ht & Hd)%StronglySorted_app.
  apply StronglySorted_app. split_and!; [|done|].
  - intros a b Ha [->|Hbb]%elem_of_cons; auto.
  - apply StronglySorted_cons. split; [|done]. apply Forall_forall. auto.
Qed.

Lemma elem_of_vec_insert l x i y : y ∈ vec_insert i x l ↔ y = x ∨ y ∈ l.
Proof.
  unfold vec_insert. rewrite <-(take_drop i l) at 3. rewrite !elem_of_app, elem_of_cons. naive_solver.
Qed.

Lemma retain_ne_sorted l x :
  StronglySorted Z.lt l → StronglySorted Z.lt (Upgrade.retain_ne x l).
Proof.
  unfold Upgrade.retain_ne. induction 1 as [|a l Hs IH Ha]; [constructor|].
  rewrite filter_cons. case_decide; [|done]. constructor; [done|].
  rewrite Forall_forall in *. intros y [_ Hy]%list_elem_of_filter. auto.
Qed.

Lemma elem_of_retain_ne l x y : y ∈ Upgrade.retain_ne x l ↔ y ≠ x ∧ y ∈ l.
Proof. unfold Upgrade.retain_ne. by rewrite list_elem_of_filter. Qed.

(** ** Preservation *)
Lemma upgrade_refused u cmd u' : Upgrade.apply u cmd = (u', OutOfOrder) → u' = u.
Proof. destruct cmd; simpl; intros H; repeat case_match; simplify_eq/=; done. Qed.

Lemma cutover_refused c cmd c' : Cutover.apply_cutover c cmd = (c', OutOfOrder) → c' = c.
Proof.
  destruct cmd; simpl; unfold Cutover.unseal, Cutover.name; intros H;
    repeat case_match; simplify_eq/=; done.
Qed.

Lemma apply_cutover_wf c cmd :
  cutover_wf c → cmd_typed cmd → cutover_wf (Cutover.apply_cutover c cmd).1.
Proof.
  intros Hc Ht.
  pose proof (λ a b, sat_add_le_max u64_max a b) as Hmax.
  assert (is_u64 (sat_add_u64 (epoch c) 1)) as Hsat.
  { destruct Hc as [He _]. split; [|apply Hmax].
    destruct He. pose proof (sat_add_u64_mono (epoch c) 1). unfold is_u64 in *. lia. }
  destruct Hc as [He Hp].
  destruct cmd; simpl; unfold Cutover.unseal, Cutover.name, Cutover.boot_fence_may_land;
    repeat (case_match || case_bool_decide); simplify_eq/=; unfold cutover_wf; simpl;
    try (split; [done|]); repeat match goal with H : phase _ = _ |- _ => rewrite H in * end; simpl in *;
    try naive_solver.
Qed.

(** The cutover record, the upgrade record and the voter intent of [apply]'s result. *)
Lemma apply_well_formed s cmd : well_formed s → cmd_typed cmd → well_formed (apply s cmd).1.
Proof.
  intros [Hi Hn Hl Hc] Ht.
  pose proof (apply_cutover_wf (cutover s) cmd Hc Ht) as Hc'.
  destruct cmd; unfold apply, apply_upgrade, raise_feature_level; apply_cases;
    constructor; simpl; try done.
  - by apply map_Forall_insert_2.
  - by apply retain_ne_sorted.
  - by apply map_Forall_delete.
  - apply map_Forall_insert_2; [|done]. simpl. by apply (Hn id).
  - by apply vec_insert_sorted.
Qed.

Lemma run_well_formed s cmds :
  well_formed s → Forall cmd_typed cmds → well_formed (run s cmds).
Proof.
  revert s; induction cmds as [|c cmds IH]; intros s Hs Hc; [done|].
  inversion Hc; subst. apply IH; [by apply apply_well_formed|done].
Qed.

Lemma new_well_formed : well_formed new.
Proof.
  split; [constructor|by apply map_Forall_empty|by vm_compute|].
  split; [by vm_compute|done].
Qed.

(** What one entry may do to the lineage. *)
Definition lineage_step (s : ClusterState) (cmd : ClusterCommand) (s' : ClusterState) : Prop :=
  lineage s' = lineage s ∨
  (lineage s = None ∧ ∃ l, cmd = SetLineage l ∧ lineage s' = Some l) ∨
  (∃ l, cmd = PgUpgradeServe (Some l) ∧ frozen (pg_upgrade s) = true ∧
        frozen (pg_upgrade s') = false ∧ lineage s' = Some l).

Lemma apply_cutover_epoch c cmd :
  cutover_wf c → epoch c ≤ epoch (Cutover.apply_cutover c cmd).1.
Proof.
  intros [He _]. pose proof (sat_add_u64_mono (epoch c) 1 He ltac:(lia)).
  destruct cmd; simpl; unfold Cutover.unseal, Cutover.name; apply_cases; lia.
Qed.

(** ** Properties *)

(** C35. Every log of well-typed commands keeps the replicated state well formed:
    [voter_intent] stays strictly sorted (so its binary search is sound), every
    [nodes] entry is filed under its own id, the epoch stays a [u64], and each
    cutover phase carries the data its later steps and its status report read
    (a sealed position in SEALED and DRAINING, a target and an authority from
    ARMED on, nothing left over after ABORT). *)
Theorem log_keeps_state_well_formed cmds :
  Forall cmd_typed cmds → well_formed (run new cmds).
Proof. intros H. apply run_well_formed; [apply new_well_formed|done]. Qed.

(** No entry moves the cluster backwards: the feature level, the cutover
    epoch and the recorded primary term never decrease, and the lineage changes
    only from unset to the first [SetLineage], or in the very entry that releases
    a frozen major upgrade. *)
Lemma apply_never_goes_back s cmd :
  well_formed s →
  let s' := (apply s cmd).1 in
  feature_level s ≤ feature_level s' ∧
  epoch (cutover s) ≤ epoch (cutover s') ∧
  (∀ t, primary_term s = Some t → ∃ t', primary_term s' = Some t' ∧ t ≤ t') ∧
  lineage_step s cmd s'.
Proof.
  intros Hs. pose proof (apply_cutover_epoch (cutover s) cmd (wf_cutover s Hs)) as He.
  unfold lineage_step.
  destruct cmd; unfold apply, apply_upgrade, raise_feature_level; apply_cases;
    split_and!; try done; try lia; eauto 6; try (intros t Ht; simplify_eq; eauto with lia).
  right; right. by eexists.
Qed.

Lemma log_keeps_state_well_formed_witness :
  well_formed (run new [SetFeatureLevel 1; IntendVoter 3; IntendVoter 1; CutoverArmed [] []]) ∧
  voter_intent (run new [SetFeatureLevel 1; IntendVoter 3; IntendVoter 1; CutoverArmed [] []])
    = [1; 3].
Proof.
  split; [|reflexivity]. apply log_keeps_state_well_formed.
  repeat constructor; vm_compute; congruence.
Defined.

(** A refused command is invisible: when [apply] answers [OutOfOrder] the
    state is exactly what it was, on every replica and for every command. *)
Lemma refused_command_changes_nothing (s : ClusterState) (cmd : ClusterCommand) :
  (apply s cmd).2 = OutOfOrder → run s [cmd] = s.
Proof.
  destruct cmd; unfold run, apply, apply_upgrade, raise_feature_level; simpl;
    unfold Cutover.unseal, Cutover.name; intros H;
    repeat (case_match; simplify_eq/=); auto using set_cutover_same, set_pg_upgrade_same.
Qed.

Lemma refused_command_changes_nothing_witness :
  (apply (run new [SetFeatureLevel 1]) CutoverDrainObserved).2 = OutOfOrder ∧
  run (run new [SetFeatureLevel 1]) [CutoverDrainObserved] = run new [SetFeatureLevel 1].
Proof.
  split; [reflexivity|].
  apply (refused_command_changes_nothing _ CutoverDrainObserved). reflexivity.
Defined.

(** ** Re-delivery *)
Lemma apply_applied_index s cmd : applied_index (apply s cmd).1 = applied_index s.
Proof.
  destruct cmd; unfold apply, apply_upgrade, raise_feature_level; simpl; repeat case_match; done.
Qed.

Lemma apply_entry_reflects s i cmd j :
  reflects (apply_entry s i cmd).1 j = true ↔ reflects s j = true ∨ j ≤ i.
Proof.
  unfold apply_entry. destruct (reflects s i) eqn:E; simpl.
  - unfold reflects in *. destruct (applied_index s); [|done].
    rewrite Z.leb_le in *. lia.
  - unfold reflects in *. rewrite apply_applied_index. simpl.
    destruct (applied_index s); rewrite ?Z.leb_le, ?Z.leb_gt in *; naive_solver lia.
Qed.

Lemma run_entries_app s l1 l2 : run_entries s (l1 ++ l2) = run_entries (run_entries s l1) l2.
Proof. apply foldl_app. Qed.

Lemma run_entries_reflected s log :
  Forall (λ e, reflects s e.1 = true) log → run_entries s log = s.
Proof.
  induction log as [|[i c] log IH]; intros H; [done|].
  inversion H as [|?? Hi Hrest]; subst; simpl in *. unfold run_entries. simpl.
  unfold apply_entry. rewrite Hi. by apply IH.
Qed.

Lemma run_entries_reflects s log e :
  e ∈ log → reflects (run_entries s log) e.1 = true.
Proof.
  assert (Hkeep : ∀ l s j, reflects s j = true → reflects (run_entries s l) j = true).
  { induction l as [|[i c] l IH]; intros s0 j Hj; [done|]. apply IH, apply_entry_reflects. by left. }
  revert s; induction log as [|[i c] log IH]; intros s He; [inversion He|].
  apply elem_of_cons in He as [->|He].
  - apply (Hkeep log), apply_entry_reflects. right. simpl. lia.
  - by apply IH.
Qed.

(** A re-delivered log changes nothing: a node that applied a log and is then
    handed any part of it again (a restart that replays from an older position, a
    snapshot newer than the entries that follow it) before the rest of the log
    ends in the state of a node that received every entry once. *)
Lemma redelivery_converges s prefix again rest :
  again ⊆ prefix →
  run_entries (run_entries s prefix) (again ++ rest) = run_entries s (prefix ++ rest).
Proof.
  intros Hsub. rewrite !run_entries_app. f_equal. apply run_entries_reflected.
  apply Forall_forall. intros e He. apply run_entries_reflects. by apply Hsub.
Qed.

Lemma redelivery_converges_witness :
  run_entries (run_entries new [(1, SetFeatureLevel 1); (2, SetLineage 7)])
    ([(2, SetLineage 7)] ++ [(3, PrimaryOpened 4)])
  = run_entries new ([(1, SetFeatureLevel 1); (2, SetLineage 7)] ++ [(3, PrimaryOpened 4)]).
Proof. apply redelivery_converges. set_solver. Defined.

(** ** The upgrade record over a log *)

(** The entries that may let a standby the upgrade stopped be started again. *)
Definition lets_go (s : ClusterState) (cmd : ClusterCommand) (n : NodeId) : Prop :=
  cmd = PgUpgradeRejoined n ∨ cmd = RemoveNode n ∨
  (cmd = PgUpgradeAbort ∧ frozen (pg_upgrade s) = true).

Lemma leaves_stopped_step s cmd n :
  Upgrade.leaves_stopped (pg_upgrade s) n = true →
  Upgrade.leaves_stopped (pg_upgrade (apply s cmd).1) n = true ∨ lets_go s cmd n.
Proof.
  unfold Upgrade.leaves_stopped, lets_go. rewrite !bool_decide_eq_true. intros Hn.
  destruct cmd; unfold apply, apply_upgrade, raise_feature_level; simpl; repeat case_match;
    simplify_eq/=; try (by left).
  - destruct (decide (id = n)) as [->|]; [eauto|]. left. by rewrite elem_of_retain_ne.
  - destruct (frozen _); simpl in *; [done|]. case_bool_decide as E; simpl in *; [|done].
    rewrite E in Hn. inversion Hn.
  - destruct (decide (node_id = n)) as [->|]; [eauto|]. left. by rewrite elem_of_retain_ne.
  - destruct (frozen (pg_upgrade s)); [auto|]. simpl in *.
    case_bool_decide as E; [|done]. rewrite E in Hn. inversion Hn.
Qed.

(** A standby stopped for a major upgrade stays recorded as stopped until its
    own rejoin is committed, the node is removed, or the upgrade is aborted while
    the cluster is still frozen: after any log, either it is still recorded or one
    of those three entries is in the log at the right moment. *)
Lemma stopped_standby_waits_for_its_rejoin s cmds n :
  Upgrade.leaves_stopped (pg_upgrade s) n = true →
  Upgrade.leaves_stopped (pg_upgrade (run s cmds)) n = true ∨
  ∃ before cmd after, cmds = before ++ cmd :: after ∧ lets_go (run s before) cmd n.
Proof.
  revert s; induction cmds as [|c cmds IH]; intros s Hn; [by left|].
  destruct (leaves_stopped_step s c n Hn) as [Hstill|Hgo].
  - destruct (IH _ Hstill) as [?|(b & cmd & a & -> & Hgo)]; [by left|].
    right. by exists (c :: b), cmd, a.
  - right. by exists [], c, cmds.
Qed.

Definition frozen_example : ClusterState := run new [SetFeatureLevel 1; PgUpgradeFreeze [2; 3]].
Definition after_freeze : list ClusterCommand :=
  [PgUpgradeServe (Some 9); PgUpgradeAbort; PgUpgradeRejoined 3].

Lemma stopped_standby_waits_for_its_rejoin_witness :
  Upgrade.leaves_stopped (pg_upgrade (run frozen_example after_freeze)) 2 = true ∨
  ∃ before cmd after,
    after_freeze = before ++ cmd :: after ∧ lets_go (run frozen_example before) cmd 2.
Proof. apply stopped_standby_waits_for_its_rejoin. reflexivity. Defined.

(** ** Projections over a log *)
Definition last_sync_mode (cmds : list ClusterCommand) : option bool :=
  foldl (λ o c, match c with SetSyncMode a => Some a | _ => o end) None cmds.

Lemma sync_active_step s cmd :
  sync_replication_active (apply s cmd).1 =
  match cmd with
  | SetSyncMode a => if feature_level s <? 0 then sync_replication_active s else Some a
  | _ => sync_replication_active s
  end.
Proof.
  destruct cmd; unfold apply, apply_upgrade, raise_feature_level; simpl; repeat case_match; done.
Qed.

Lemma run_snoc s cmds c : run s (cmds ++ [c]) = (apply (run s cmds) c).1.
Proof. unfold run. by rewrite foldl_app. Qed.

Lemma run_sync_active cmds :
  Forall cmd_typed cmds → sync_replication_active (run new cmds) = last_sync_mode cmds.
Proof.
  induction cmds as [|c cmds IH] using rev_ind; intros [Ht Hc]%Forall_app || intros Ht; [done|].
  rewrite run_snoc, sync_active_step. unfold last_sync_mode. rewrite foldl_app. simpl.
  fold (last_sync_mode cmds). rewrite <-(IH Ht).
  destruct c; try done.
  pose proof (wf_level _ (run_well_formed new cmds new_well_formed Ht)) as [Hl _].
  by rewrite (proj2 (Z.ltb_ge _ _) Hl).
Qed.

(** The discard allowance and the two lag thresholds follow the last committed
    [SetSyncMode] and nothing else: a rewind may discard without bound exactly when
    synchronous replication was last committed on; a cluster that has never
    committed a mode gets the bounded allowance and still compares votes exactly. *)
Lemma projections_follow_last_sync_mode cmds :
  Forall cmd_typed cmds →
  let s := run new cmds in
  (rewind_budget s = Unbounded ↔ last_sync_mode cmds = Some true) ∧
  (rewind_budget s ≠ Unbounded → rewind_budget s = Bytes PG_REWIND_DIVERGENCE_THRESHOLD_BYTES) ∧
  (vote_lsn_threshold_bytes s = 0 ↔ last_sync_mode cmds ≠ Some false) ∧
  (lsn_catchup_threshold_bytes s = LSN_CATCHUP_THRESHOLD_BYTES_ASYNC ↔
     last_sync_mode cmds = Some false).
Proof.
  intros Ht s. unfold rewind_budget, vote_lsn_threshold_bytes, lsn_catchup_threshold_bytes, s.
  rewrite (run_sync_active cmds Ht).
  destruct (last_sync_mode cmds) as [[|]|]; repeat split; try done;
    case_bool_decide; simpl; try done; congruence.
Qed.

Lemma projections_follow_last_sync_mode_witness :
  rewind_budget (run new [SetSyncMode true; SetSyncMode false; SetSyncMode true]) = Unbounded.
Proof.
  apply (projections_follow_last_sync_mode [SetSyncMode true; SetSyncMode false; SetSyncMode true]);
    [repeat constructor|reflexivity].
Defined.

(** [IntendVoter] and [RemoveNode] keep the list of intended voters a sorted
    set: in a well-formed state that reached the level, after [IntendVoter id] the
    list has exactly the old members and [id]; after [RemoveNode id] exactly the
    old members but [id]; and [Vec::binary_search] with [Vec::insert] keeps it
    strictly sorted in both. *)
Lemma voter_intent_is_a_sorted_set s id :
  well_formed s → 1 ≤ feature_level s →
  let added := (apply s (IntendVoter id)).1 in
  let removed := (apply s (RemoveNode id)).1 in
  StronglySorted Z.lt (voter_intent added) ∧ StronglySorted Z.lt (voter_intent removed) ∧
  (∀ n, n ∈ voter_intent added ↔ n = id ∨ n ∈ voter_intent s) ∧
  (∀ n, n ∈ voter_intent removed ↔ n ≠ id ∧ n ∈ voter_intent s).
Proof.
  intros Hs Hl added removed.
  assert (Hlt : feature_level s <? 1 = false) by lia.
  assert (Hlt0 : feature_level s <? 0 = false) by lia.
  split_and!.
  - by apply (wf_intent _ (apply_well_formed s (IntendVoter id) Hs I)).
  - by apply (wf_intent _ (apply_well_formed s (RemoveNode id) Hs I)).
  - intros n. unfold added, apply. simpl. rewrite Hlt.
    pose proof (binary_search_spec (voter_intent s) id (wf_intent s Hs)) as Hb.
    destruct (binary_search _ _) as [i|i]; simpl.
    + apply list_elem_of_lookup_2 in Hb. naive_solver.
    + apply elem_of_vec_insert.
  - intros n. unfold removed, apply. simpl. rewrite Hlt0. simpl. apply elem_of_retain_ne.
Qed.

Definition three_intended : ClusterState :=
  run new [SetFeatureLevel 1; IntendVoter 5; IntendVoter 2; IntendVoter 9].

Lemma voter_intent_is_a_sorted_set_witness :
  4 ∈ voter_intent (apply three_intended (IntendVoter 4)).1 ↔
  4 = 4 ∨ 4 ∈ voter_intent three_intended.
Proof.
  apply voter_intent_is_a_sorted_set; [|by vm_compute].
  apply run_well_formed; [apply new_well_formed|]. repeat constructor; vm_compute; congruence.
Defined.

Lemma run_monotone s cmds :
  well_formed s → Forall cmd_typed cmds →
  feature_level s ≤ feature_level (run s cmds) ∧
  (∀ t, primary_term s = Some t → ∃ t', primary_term (run s cmds) = Some t' ∧ t ≤ t').
Proof.
  revert s; induction cmds as [|c cmds IH]; intros s Hs Ht; [split; [done|eauto with lia]|].
  inversion Ht as [|?? Hc Hrest]; subst.
  destruct (IH _ (apply_well_formed s c Hs Hc) Hrest) as [IHl IHt].
  assert (feature_level s ≤ feature_level (apply s c).1 ∧
    ∀ t, primary_term s = Some t → ∃ t', primary_term (apply s c).1 = Some t' ∧ t ≤ t') as [Hl Hp].
  { destruct c; unfold apply, apply_upgrade, raise_feature_level; apply_cases;
      split; try lia; intros t Ht0; simplify_eq; eauto with lia. }
  split; [simpl; lia|]. intros t (t1 & Ht1 & ?)%Hp. destruct (IHt t1 Ht1) as (t2 & ? & ?).
  exists t2. split; [done|lia].
Qed.

(** Routing is fenced by the recorded opening: once [PrimaryOpened t'] has been
    applied at or above the level that records openings, no later log makes a
    gateway route to the leader of an earlier term. *)
Lemma opened_term_fences_older_leaders s t' cmds t :
  well_formed s → Forall cmd_typed cmds → 1 ≤ feature_level s →
  (apply s (PrimaryOpened t')).2 = Applied → t < t' →
  routes_to_leader (run (apply s (PrimaryOpened t')).1 cmds) t = false.
Proof.
  intros Hs Ht Hl Happ Hlt.
  destruct (run_monotone (apply s (PrimaryOpened t')).1 cmds) as [Hl' Hp];
    [by apply apply_well_formed|done|].
  assert (apply s (PrimaryOpened t') = (set_primary_term (Some t') s, Applied)) as E.
  { revert Happ. unfold apply. simpl. rewrite (proj2 (Z.ltb_ge _ _) Hl).
    by destruct (match primary_term s with Some _ => _ | None => _ end). }
  rewrite E in *. simpl in *. destruct (Hp t' eq_refl) as (t1 & Ht1 & Hle).
  unfold routes_to_leader. simpl. rewrite (proj2 (Z.ltb_ge _ _)) by lia.
  rewrite Ht1. lia.
Qed.

