(* ===== verification/Handoff.v ===== *)
(** * Moving client-write authority between two clusters: the handlers

    [src/observability/management_api/cutover.rs] with the parts of
    [src/commands/upgrade/client_fence.rs], [src/governor/propose.rs] and
    [src/governor/raft.rs] it uses.  Each handler is a program over the node it
    runs on ([Req]); a reply keeps its status code and success flag, not its
    message text.  The SQL text of a query is not modelled, its reply and the
    parsing of that reply are.  Theorems: [HandoffProofs.v]. *)

From S2P Require Import Prelude Effects Text Net ClusterState.
From Stdlib Require Import Strings.Byte.

(** ** What a handler asks of its node and of the donor *)
Inductive SqlError := SqlError_.
Inductive RaftError := RaftError_.

(** [CutoverStatusResponse]; [cutover_client_hold] is read off the fence channel. *)
Record CutoverStatusResponse := CutoverStatusResponse_ {
  st_epoch : Z;
  st_cluster_id : bytes;
  st_authority_cluster_id : option bytes;
  st_phase : bytes;
  st_holds_client_write_authority : bool;
  st_sealed_final_lsn : option Z;
  st_target_cluster_id : option bytes;
  st_transfer_forced : bool;
  st_cutover_client_hold : bool;
}.

Inductive MemberRole := Voter | Learner.
#[export] Instance MemberRole_eq_dec : EqDecision MemberRole.
Proof. solve_decision. Defined.

(** The catalog queries, by what they read; their reply is text. *)
Inductive SqlQuery :=
| FenceFactsSql (roles : list bytes)             (* client_fence::observe *)
| SnapshotRowsSql (cluster_id : bytes)
| TerminateBackendsSql (roles : list bytes)
| SurvivingBackendsSql (pids : list Z)
| SealedPositionSql (roles : list bytes)
| DonorRetentionSql                              (* DONOR_RETENTION_SQL *)
| SequenceValuesSql.                             (* DONOR_SEQUENCE_VALUES_SQL *)

Inductive Req :=
| CurrentLeader                                  (* raft.metrics().current_leader *)
| FenceHasQuorum                                 (* fence_tx.borrow().has_quorum *)
| ReadState                                      (* cluster_state.read() *)
| ClientWrite (c : ClusterCommand)               (* raft.client_write *)
| CoversRoles (roles accepted : list bytes)      (* require_fence_covers_roles *)
| ExecuteSql (q : SqlQuery)                      (* Supervisor::execute_sql *)
| EnsureReverse (publication slot : bytes)       (* ensure_reverse_replication *)
| DonorStatus (addr : bytes)                     (* GET /cutover/status; None is silence *)
| DonorMembers (addr : bytes)                    (* GET /cluster/members *)
| ElapsedMs                                      (* started.elapsed() *)
| Sleep (ms : Z).

Definition Answer (q : Req) : Type :=
  match q with
  | CurrentLeader => option NodeId
  | FenceHasQuorum => bool
  | ReadState => ClusterState
  | ClientWrite _ => result RaftError CommandOutcome
  | CoversRoles _ _ => result SqlError ()
  | ExecuteSql _ => result SqlError bytes
  | EnsureReverse _ _ => result SqlError ()
  | DonorStatus _ => option CutoverStatusResponse
  | DonorMembers _ => option (list MemberRole)
  | ElapsedMs => Z
  | Sleep _ => ()
  end.

Abbreviation io := (prog Answer).
Abbreviation ask := (@Effects.ask Req Answer).

(** The fields of [ManagementApiState] the handlers read from configuration. *)
Record Server := Server_ {
  srv_node_id : NodeId;
  srv_cluster_id : bytes;
  awaits_write_authority_from : option bytes;
  postgres_manager : bool;                       (* a supervisor runs on this node *)
}.

Inductive StatusCode := OK | BAD_REQUEST | CONFLICT | SERVICE_UNAVAILABLE.
#[export] Instance StatusCode_eq_dec : EqDecision StatusCode.
Proof. solve_decision. Defined.
Record Reply := Reply_ { code : StatusCode; success : bool }.
Definition refuse (c : StatusCode) : Reply := Reply_ c false.

(** ** The authority read ([Governor::cutover_authority_projection]) *)
Definition cutover_authority_projection (cutover : CutoverAuthorityState)
    (local_cluster_id : bytes) (awaits_authority_from : option bytes) : bool * option SocketAddr :=
  if bool_decide (is_Some awaits_authority_from) &&
     bool_decide (authority_cluster_id cutover = None) then (false, None)
  else if Cutover.holds_client_write_authority cutover local_cluster_id then (true, None)
  else (false, target_pg_addr cutover ≫= parse_socket_addr).

Definition holds_authority (srv : Server) (s : ClusterState) : bool :=
  (cutover_authority_projection (cutover s) (srv_cluster_id srv)
     (awaits_write_authority_from srv)).1.

Definition status_from (srv : Server) (s : ClusterState) (client_hold : bool)
    : CutoverStatusResponse :=
  let c := cutover s in
  CutoverStatusResponse_ (epoch c) (srv_cluster_id srv) (authority_cluster_id c)
    (phase_as_str (phase c)) (holds_authority srv s) (sealed_final_lsn c)
    (target_cluster_id c) (transfer_forced c) client_hold.

(** ** Proposing *)
Inductive ProposeError := NotAdmitted (required committed : Z) | RaisesLevel | Raft (e : RaftError).

Definition admit_command (s : ClusterState) (cmd : ClusterCommand) : result ProposeError () :=
  match cmd with
  | SetFeatureLevel _ => Err RaisesLevel
  | _ =>
      let required := required_feature_level cmd in
      if feature_level s <? required then Err (NotAdmitted required (feature_level s)) else Ok tt
  end.

Definition propose (cmd : ClusterCommand) : io (result ProposeError CommandOutcome) :=
  let* s := ask ReadState in
  match admit_command s cmd with
  | Err e => Ret (Err e)
  | Ok _ =>
      let* w := ask (ClientWrite cmd) in
      Ret (match w with Ok o => Ok o | Err e => Err (Raft e) end)
  end.

Inductive CommitRefusal := NotLeader | NoQuorum.
Definition commit_precondition (is_leader has_quorum : bool) : result CommitRefusal () :=
  if negb is_leader then Err NotLeader
  else if negb has_quorum then Err NoQuorum
  else Ok tt.

Definition can_commit_locally (srv : Server) : io (result CommitRefusal ()) :=
  let* leader := ask CurrentLeader in
  let* has_quorum := ask FenceHasQuorum in
  Ret (commit_precondition (bool_decide (leader = Some (srv_node_id srv))) has_quorum).

Definition apply_cutover (srv : Server) (cmd : ClusterCommand) : io Reply :=
  let* ready := can_commit_locally srv in
  match ready with
  | Err _ => Ret (refuse SERVICE_UNAVAILABLE)
  | Ok _ =>
      let* resp := propose cmd in
      Ret (match resp with
           | Ok Applied => Reply_ OK true
           | Ok OutOfOrder => refuse CONFLICT
           | Err _ => refuse BAD_REQUEST
           end)
  end.

(** ** Donor side *)
Definition validate_target (srv : Server) (target : bytes) : option Reply :=
  if bool_decide (target = []) then Some (refuse BAD_REQUEST)
  else if bool_decide (target = srv_cluster_id srv) then Some (refuse BAD_REQUEST)
  else None.

Definition cutover_arm (srv : Server) (target_cluster_id : bytes) : io Reply :=
  let target := trim target_cluster_id in
  match validate_target srv target with
  | Some rejection => Ret rejection
  | None =>
      let* s := ask ReadState in
      if negb (holds_authority srv s) then Ret (refuse CONFLICT)
      else apply_cutover srv (CutoverArmed target (srv_cluster_id srv))
  end.

Definition cutover_transfer (srv : Server) (target_cluster_id target_pg_addr : bytes) : io Reply :=
  let target := trim target_cluster_id in
  match validate_target srv target with
  | Some rejection => Ret rejection
  | None =>
      match parse_socket_addr target_pg_addr with
      | None => Ret (refuse BAD_REQUEST)
      | Some _ => apply_cutover srv (CutoverTransfer target target_pg_addr false)
      end
  end.

Definition cutover_abort (srv : Server) : io Reply :=
  apply_cutover srv (CutoverAbortUnseal (srv_cluster_id srv)).

Definition cutover_force_transfer (srv : Server) (target_cluster_id target_pg_addr : bytes)
    (accept_write_loss : bool) : io Reply :=
  if negb accept_write_loss then Ret (refuse BAD_REQUEST)
  else
    let target := trim target_cluster_id in
    match validate_target srv target with
    | Some rejection => Ret rejection
    | None =>
        match parse_socket_addr target_pg_addr with
        | None => Ret (refuse BAD_REQUEST)
        | Some _ => apply_cutover srv (CutoverTransfer target target_pg_addr true)
        end
    end.

(** *** Reading the catalog ([client_fence.rs]) *)
Inductive FenceError :=
| BadRoleName (role : bytes)
| Sql (e : SqlError)
| BadReply (raw : bytes)
| GrantsReturned
| BackendsSurvived
| FenceNotInForce
| NoBudgetLeft.

Definition is_ascii_alphabetic (b : byte) : bool := is_ascii_upper b || is_ascii_lower b.

(** [config::is_valid_pg_role_name]. *)
Definition is_valid_pg_role_name (name : bytes) : bool :=
  match name with
  | [] => false
  | first :: rest =>
      (is_ascii_alphabetic first || byte_eqb first "_"%byte) &&
      forallb (λ c, is_ascii_alphanumeric c || byte_eqb c "_"%byte || byte_eqb c "$"%byte) rest
  end.

(** [quoted_role_list], as far as it can fail: every role is validated. *)
Fixpoint quoted_role_list (app_roles : list bytes) : result FenceError () :=
  match app_roles with
  | [] => Ok tt
  | role :: rest =>
      if is_valid_pg_role_name role then quoted_role_list rest else Err (BadRoleName role)
  end.

Definition parse_pg_bool (raw : bytes) : result FenceError bool :=
  let t := trim raw in
  if bool_decide (t = lit "t") || bool_decide (t = lit "true") then Ok true
  else if bool_decide (t = lit "f") || bool_decide (t = lit "false") then Ok false
  else Err (BadReply raw).

Record FenceGrants := FenceGrants_ { revocable : bool; recorded : bool }.
Record FenceObservation := FenceObservation_ {
  is_primary : bool;
  freeze_installed : bool;
  grants : FenceGrants;
  prepared : bool;
}.

Definition sealable (o : FenceObservation) : bool :=
  is_primary o && freeze_installed o && negb (revocable (grants o)) && negb (prepared o).

Inductive FenceAction := FenceApply | FenceLift | FenceNone.
Definition fence_action (want_fenced : bool) (g : FenceGrants) : FenceAction :=
  match want_fenced, revocable g, recorded g with
  | true, true, _ => FenceApply
  | false, _, true => FenceLift
  | _, _, _ => FenceNone
  end.

Definition sql (q : SqlQuery) : io (result FenceError bytes) :=
  let* r := ask (ExecuteSql q) in
  Ret (match r with Ok raw => Ok raw | Err e => Err (Sql e) end).

Definition lift_pure {A} (r : result FenceError A) : io (result FenceError A) := Ret r.

Definition observe (app_roles : list bytes) (cluster_id : bytes) : io (result FenceError FenceObservation) :=
  let? _ := lift_pure (quoted_role_list app_roles) in
  let? raw := sql (FenceFactsSql app_roles) in
  match split_on "|"%byte (trim raw) with
  | [primary; freeze; table; grants; prepared] =>
      let? t := lift_pure (parse_pg_bool table) in
      let? recorded :=
        (if t then
           let? rows := sql (SnapshotRowsSql cluster_id) in
           lift_pure (parse_pg_bool rows)
         else Ret (Ok false)) in
      lift_pure (let! p := parse_pg_bool primary in
                 let! f := parse_pg_bool freeze in
                 let! g := parse_pg_bool grants in
                 let! x := parse_pg_bool prepared in
                 Ok (FenceObservation_ p f (FenceGrants_ g recorded) x))
  | _ => Ret (Err (BadReply raw))
  end.

(** [parse_pid_list]: empty pieces are skipped, a bad one refuses the reply. *)
Fixpoint parse_pids (pieces : list bytes) : option (list Z) :=
  match pieces with
  | [] => Some []
  | [] :: rest => parse_pids rest
  | p :: rest => n ← parse_u32 (trim p); ns ← parse_pids rest; Some (n :: ns)
  end.
Definition parse_pid_list (raw : bytes) : result FenceError (list Z) :=
  ok_or (parse_pids (split_on ","%byte (trim raw))) (BadReply raw).

Definition BACKEND_DRAIN_ATTEMPTS : nat := 40.
Definition BACKEND_DRAIN_PAUSE_MS : Z := 250.

Fixpoint await_no_backends (attempts : nat) (pids : list Z) : io (result FenceError ()) :=
  match attempts with
  | O => Ret (Err BackendsSurvived)
  | S n =>
      let? raw := sql (SurvivingBackendsSql pids) in
      match parse_u64 (trim raw) with
      | None => Ret (Err (BadReply raw))
      | Some remaining =>
          if remaining =? 0 then Ret (Ok tt)
          else ask (Sleep BACKEND_DRAIN_PAUSE_MS) ;; await_no_backends n pids
      end
  end.

Definition drain_fenced_sessions (app_roles : list bytes) : io (result FenceError ()) :=
  let? _ := lift_pure (quoted_role_list app_roles) in
  let? raw := sql (TerminateBackendsSql app_roles) in
  let? pids := lift_pure (parse_pid_list raw) in
  if bool_decide (pids = []) then Ret (Ok tt)
  else await_no_backends BACKEND_DRAIN_ATTEMPTS pids.

(** [hi << 32 | lo] from [X/Y] hex, the halves trimmed; the crate has this
    parser twice ([client_fence::parse_lsn_bytes], [cutover::parse_lsn_strict]). *)
Definition lsn_halves (text : bytes) : option Z :=
  '(hi, lo) ← split_once "/"%byte text;
  h ← from_str_radix u64_max 16 (trim hi);
  l ← from_str_radix u64_max 16 (trim lo);
  Some (Z.lor (Z.shiftl h 32 mod 2 ^ 64) l).
Definition parse_lsn_bytes (text : bytes) : result FenceError Z :=
  ok_or (lsn_halves text) (BadReply text).
Definition parse_lsn_strict (text : bytes) : option Z := lsn_halves (trim text).

Definition sealed_position (app_roles : list bytes) : io (result FenceError Z) :=
  let? _ := lift_pure (quoted_role_list app_roles) in
  let? raw := sql (SealedPositionSql app_roles) in
  match split_once "|"%byte (trim raw) with
  | None => Ret (Err (BadReply raw))
  | Some (grants, lsn) =>
      let? held := lift_pure (parse_pg_bool grants) in
      if held then Ret (Err GrantsReturned) else lift_pure (parse_lsn_bytes lsn)
  end.

(** *** SEAL *)
Definition SEAL_FENCE_BUDGET_MS : Z := 20000.
Definition SEAL_FENCE_POLL_MS : Z := 250.

(** The wait for the fence.  [rounds] bounds the loop; [None] is a loop that ran
    out of rounds, which a clock that advances with the sleeps rules out. *)
Fixpoint sealed_position_once_fenced (rounds : nat) (srv : Server) (roles : list bytes)
    : io (option (result FenceError Z)) :=
  match rounds with
  | O => Ret None
  | S n =>
      let* seen := observe roles (srv_cluster_id srv) in
      if match seen with Ok o => sealable o | Err _ => false end then
        let* r := (let? _ := drain_fenced_sessions roles in sealed_position roles) in Ret (Some r)
      else
        let* elapsed := ask ElapsedMs in
        if SEAL_FENCE_BUDGET_MS <=? elapsed then
          Ret (Some (Err (match seen with Ok _ => FenceNotInForce | Err e => e end)))
        else ask (Sleep SEAL_FENCE_POLL_MS) ;; sealed_position_once_fenced n srv roles
  end.

Definition SEAL_ROUNDS : nat := 81.

(** [Vec<String>::sort] orders by bytes. *)
Fixpoint bytes_leb (a b : bytes) : bool :=
  match a, b with
  | [], _ => true
  | _ :: _, [] => false
  | x :: a', y :: b' =>
      (byte_z x <? byte_z y) || ((byte_z x =? byte_z y) && bytes_leb a' b')
  end.
Definition bytes_le (a b : bytes) : Prop := bytes_leb a b = true.
#[export] Instance bytes_le_dec : RelDecision bytes_le.
Proof. intros a b. unfold bytes_le. apply _. Defined.
Definition sort (l : list bytes) : list bytes := merge_sort bytes_le l.
Definition same_roles (committed asked : list bytes) : bool :=
  bool_decide (sort committed = sort asked).

(** The second half of SEAL: the fence in force, sessions gone, position read. *)
Definition finish_seal (srv : Server) (roles : list bytes) : io (option Reply) :=
  let* sealed := sealed_position_once_fenced SEAL_ROUNDS srv roles in
  match sealed with
  | None => Ret None
  | Some (Ok final_lsn) =>
      let* reply := apply_cutover srv (CutoverSeal final_lsn) in Ret (Some reply)
  | Some (Err _) => Ret (Some (refuse SERVICE_UNAVAILABLE))
  end.

Definition cutover_seal (srv : Server) (app_roles accepted_security_definer : list bytes)
    : io (option Reply) :=
  if bool_decide (app_roles = []) then Ret (Some (refuse BAD_REQUEST))
  else if negb (postgres_manager srv) then Ret (Some (refuse BAD_REQUEST))
  else
    let* s := ask ReadState in
    match phase (cutover s) with
    | Armed =>
        let* covered := ask (CoversRoles app_roles accepted_security_definer) in
        match covered with
        | Err _ => Ret (Some (refuse BAD_REQUEST))
        | Ok _ =>
            let* reply := apply_cutover srv (CutoverSealing app_roles) in
            if bool_decide (code reply = OK) then finish_seal srv app_roles else Ret (Some reply)
        end
    | Sealing =>
        if same_roles (fenced_app_roles (cutover s)) app_roles then finish_seal srv app_roles
        else Ret (Some (refuse CONFLICT))
    | Idle | Sealed | Draining | Transferred | Aborted => Ret (Some (refuse CONFLICT))
    end.

(** *** DRAIN_OBSERVED *)
Definition drain_proven (confirmed sealed : option Z) : bool :=
  match confirmed, sealed with Some c, Some s => s <=? c | _, _ => false end.

Record DonorRetentionResponse := DonorRetentionResponse_ {
  retained_bytes : Z;
  slot_count : Z;
  min_confirmed_flush_lsn : option Z;
  slot_names : list bytes;
}.

Definition parse_donor_retention_line (raw : bytes) : option DonorRetentionResponse :=
  match splitn 5 "|"%byte (trim raw) with
  | count :: retained :: unconfirmed :: min_text :: names :: _ =>
      slot_count ← parse_u64 (trim count);
      retained ← parse_i64 (trim retained);
      unconfirmed ← parse_u64 (trim unconfirmed);
      let min_confirmed_text := trim min_text in
      let names := trim names in
      min_confirmed ←
        (if (slot_count =? 0) || (0 <? unconfirmed) then Some None
         else Some <$> parse_lsn_strict min_confirmed_text);
      Some (DonorRetentionResponse_ (Z.max retained 0) slot_count min_confirmed
              (if bool_decide (names = []) then [] else split_on ","%byte names))
  | _ => None
  end.

Definition cutover_drain_observed (srv : Server) : io Reply :=
  let* s := ask ReadState in
  let sealed := sealed_final_lsn (cutover s) in
  if negb (postgres_manager srv) then Ret (refuse BAD_REQUEST)
  else
    let* raw := ask (ExecuteSql DonorRetentionSql) in
    let confirmed :=
      r ← result_ok raw; line ← parse_donor_retention_line r; min_confirmed_flush_lsn line in
    if negb (drain_proven confirmed sealed) then Ret (refuse CONFLICT)
    else apply_cutover srv CutoverDrainObserved.

(** ** Recipient side *)
Record SequenceValue := SequenceValue_ { schema : bytes; seq_name : bytes; last_value : Z }.

Definition parse_sequence_value_line (line : bytes) : option SequenceValue :=
  '(rest, value) ← rsplit_once "|"%byte line;
  '(schema, name) ← split_once "|"%byte rest;
  if bool_decide ("|"%byte ∈ schema) || bool_decide ("|"%byte ∈ name) then None
  else v ← parse_i64 (trim value); Some (SequenceValue_ schema name v).

(** [sequence_gaps], as the sequences it names. *)
Definition sequence_gap (donor : list SequenceValue) (mine : SequenceValue) : bool :=
  match list_find (λ d, schema d = schema mine ∧ seq_name d = seq_name mine) donor with
  | None => true
  | Some (_, d) => last_value mine <=? last_value d
  end.
Definition sequence_gaps (local donor : list SequenceValue) : list SequenceValue :=
  filter (λ mine, sequence_gap donor mine = true) local.

Definition i64_max : Z := 2 ^ 63 - 1.
Definition i64_min : Z := - 2 ^ 63.
Definition sequence_advance_target (last_value margin : Z) : Z :=
  Z.max (Z.max i64_min (Z.min i64_max (last_value + margin))) 1.

Inductive DonorClaim := Confirms | Contradicts | Silent.
#[export] Instance DonorClaim_eq_dec : EqDecision DonorClaim.
Proof. solve_decision. Defined.
Record DonorAnswer := DonorAnswer_ { claim : DonorClaim; voter_count : option Z }.

Definition donor_list_covers_majority (listed reported_voters : Z) : bool :=
  reported_voters / 2 <? listed.

Definition confirming (claims : list DonorClaim) : nat :=
  length (filter (λ c, c = Confirms) claims).

Definition donor_quorum_confirms (claims : list DonorClaim) (donor_node_count : nat) : bool :=
  if (donor_node_count =? 0)%nat then false
  else (donor_node_count <? confirming claims * 2)%nat.

Inductive DonorPollVerdict := Confirmed | Retry | Expired.
Definition donor_poll_verdict (claims : list DonorClaim) (donor_node_count : nat)
    (elapsed budget : Z) : DonorPollVerdict :=
  if donor_quorum_confirms claims donor_node_count then Confirmed
  else if budget <=? elapsed then Expired
  else Retry.

Definition voters (members : list MemberRole) : Z :=
  Z.of_nat (length (filter (λ r, r = Voter) members)).

(** What makes one node's status a confirmation. *)
Definition confirms (st : CutoverStatusResponse) (epoch : Z) (donor_cluster_id recipient : bytes)
    : bool :=
  bool_decide (st_cluster_id st = donor_cluster_id)
  && bool_decide (st_phase st = phase_as_str Transferred)
  && (st_epoch st =? epoch)
  && bool_decide (st_authority_cluster_id st = Some recipient)
  && negb (st_holds_client_write_authority st).

Definition donor_claim (addr : bytes) (epoch : Z) (donor_cluster_id recipient : bytes)
    : io DonorAnswer :=
  let* status := ask (DonorStatus addr) in
  match status with
  | None => Ret (DonorAnswer_ Silent None)
  | Some st =>
      if confirms st epoch donor_cluster_id recipient then
        let* members := ask (DonorMembers addr) in
        Ret (DonorAnswer_ Confirms (voters <$> members))
      else Ret (DonorAnswer_ Contradicts None)
  end.

Record ReceiveRequest := ReceiveRequest_ {
  req_epoch : Z;
  from_cluster_id : bytes;
  donor_mgmt_addrs : list bytes;
  accept_unverified_provenance : bool;
  reverse_publication : bytes;
  reverse_slot : bytes;
  donor_sequences : list SequenceValue;
}.

(** One polling round; the source asks the nodes concurrently. *)
Fixpoint poll_round (srv : Server) (body : ReceiveRequest) (addrs : list bytes)
    : io (list DonorAnswer) :=
  match addrs with
  | [] => Ret []
  | addr :: rest =>
      let* a := donor_claim addr (req_epoch body) (from_cluster_id body) (srv_cluster_id srv) in
      let* answers := poll_round srv body rest in
      Ret (a :: answers)
  end.

(** A confirming donor that reports more voters than the list can outvote. *)
Definition list_too_short (listed : Z) (a : DonorAnswer) : bool :=
  match voter_count a with
  | None => false
  | Some voters =>
      bool_decide (claim a = Confirms) && negb (donor_list_covers_majority listed voters)
  end.

Definition DONOR_QUORUM_BUDGET_MS : Z := 20000.
Definition DONOR_POLL_INTERVAL_MS : Z := 250.

Fixpoint await_donor_quorum (rounds : nat) (srv : Server) (body : ReceiveRequest)
    : io (option (result Reply nat)) :=
  match rounds with
  | O => Ret None
  | S n =>
      let* answers := poll_round srv body (donor_mgmt_addrs body) in
      let claims := claim <$> answers in
      let* elapsed := ask ElapsedMs in
      match donor_poll_verdict claims (length (donor_mgmt_addrs body)) elapsed
              DONOR_QUORUM_BUDGET_MS with
      | Confirmed =>
          if existsb (list_too_short (Z.of_nat (length (donor_mgmt_addrs body)))) answers
          then Ret (Some (Err (refuse CONFLICT)))
          else Ret (Some (Ok (confirming claims)))
      | Retry => ask (Sleep DONOR_POLL_INTERVAL_MS) ;; await_donor_quorum n srv body
      | Expired => Ret (Some (Err (refuse CONFLICT)))
      end
  end.

Definition QUORUM_ROUNDS : nat := 81.

Inductive NotReady := NoSupervisor | ReverseFailed | SequencesUnread | BadSequenceRow | SequenceGaps.

Fixpoint parse_sequence_lines (ls : list bytes) : option (list SequenceValue) :=
  match ls with
  | [] => Some []
  | l :: rest => v ← parse_sequence_value_line l; vs ← parse_sequence_lines rest; Some (v :: vs)
  end.

Definition ready_to_accept_writes (srv : Server) (body : ReceiveRequest) : io (result NotReady ()) :=
  if negb (postgres_manager srv) then Ret (Err NoSupervisor)
  else
    let* reverse := ask (EnsureReverse (reverse_publication body) (reverse_slot body)) in
    match reverse with
    | Err _ => Ret (Err ReverseFailed)
    | Ok _ =>
        let* raw := ask (ExecuteSql SequenceValuesSql) in
        match raw with
        | Err _ => Ret (Err SequencesUnread)
        | Ok raw =>
            match parse_sequence_lines (filter (λ l, l ≠ []) (trim <$> lines raw)) with
            | None => Ret (Err BadSequenceRow)
            | Some local =>
                if bool_decide (sequence_gaps local (donor_sequences body) = []) then Ret (Ok tt)
                else Ret (Err SequenceGaps)
            end
        end
    end.

Definition take_authority (srv : Server) (body : ReceiveRequest) : io (option Reply) :=
  let* ready := ready_to_accept_writes srv body in
  match ready with
  | Err _ => Ret (Some (refuse CONFLICT))
  | Ok _ =>
      let* reply :=
        apply_cutover srv
          (CutoverAuthorityReceived (req_epoch body) (from_cluster_id body) (srv_cluster_id srv)) in
      Ret (Some reply)
  end.

Definition cutover_receive_authority (srv : Server) (body : ReceiveRequest) : io (option Reply) :=
  if bool_decide (trim (from_cluster_id body) = []) ||
     bool_decide (from_cluster_id body = srv_cluster_id srv)
  then Ret (Some (refuse BAD_REQUEST))
  else if bool_decide (donor_mgmt_addrs body = []) then
    if negb (accept_unverified_provenance body) then Ret (Some (refuse BAD_REQUEST))
    else take_authority srv body
  else if accept_unverified_provenance body then Ret (Some (refuse BAD_REQUEST))
  else
    let* quorum := await_donor_quorum QUORUM_ROUNDS srv body in
    match quorum with
    | None => Ret None
    | Some (Err refusal) => Ret (Some refusal)
    | Some (Ok _) => take_authority srv body
    end.
