(* ===== verification/HandoffProofs.v ===== *)
(** * Moving write authority: what the handlers and the two logs guarantee

    First each handler: what it has seen when it commits (Section [Handlers]).
    Then the system of clusters with separate logs (Section [System]), whose
    steps are exactly the commands the handlers issue, with the interleavings of
    concurrent handlers and with lying donor nodes.  The properties refine
    [tla/cutover_authority.tla]. *)

From S2P Require Import Prelude Effects Text Net ClusterState Handoff.

Abbreviation hist := (list (event Answer)).

(** ** Requests, one constructor per endpoint *)
Inductive Request :=
| Arm (target : bytes)
| Seal (roles accepted : list bytes)
| DrainObserved
| Transfer (target pg_addr : bytes)
| ForceTransfer (target pg_addr : bytes) (accept_write_loss : bool)
| AbortCutover
| ReceiveAuthority (body : ReceiveRequest).

(** ** When a cutover command may be committed *)

(** What each authority-moving command needs to have been seen.  A sealed
    position is read after a sealable observation and a complete drain of the
    fenced sessions, in that order. *)
Definition authorised (rq : Request) (srv : Server) (h : hist) (cmd : ClusterCommand) : Prop :=
  match cmd with
  | CutoverArmed target local =>
      local = srv_cluster_id srv ∧ target ≠ local ∧ target ≠ [] ∧
      saw h ReadState (λ s, holds_authority srv s = true)
  | CutoverSealing roles =>
      roles ≠ [] ∧ saw h ReadState (λ s, phase (cutover s) = Armed) ∧
      ∃ accepted, saw h (CoversRoles roles accepted) (λ r, is_ok r = true)
  | CutoverSeal final_lsn =>
      ∃ roles h0 t1 t2 t3 h4 o,
        roles ≠ [] ∧ h = h0 ++ t1 ++ t2 ++ t3 ++ h4 ∧
        runs (observe roles (srv_cluster_id srv)) t1 (Ok o) ∧ sealable o = true ∧
        runs (drain_fenced_sessions roles) t2 (Ok tt) ∧
        runs (sealed_position roles) t3 (Ok final_lsn)
  | CutoverDrainObserved =>
      ∃ sealed raw line confirmed,
        saw h ReadState (λ s, sealed_final_lsn (cutover s) = Some sealed) ∧
        saw h (ExecuteSql DonorRetentionSql) (λ r, r = Ok raw) ∧
        parse_donor_retention_line raw = Some line ∧
        min_confirmed_flush_lsn line = Some confirmed ∧ sealed ≤ confirmed
  | CutoverTransfer target pg_addr _ =>
      target ≠ srv_cluster_id srv ∧ target ≠ [] ∧ is_Some (parse_socket_addr pg_addr)
  | CutoverAbortUnseal local => local = srv_cluster_id srv
  | CutoverAuthorityReceived e from local =>
      local = srv_cluster_id srv ∧ from ≠ local ∧
      ∃ body, rq = ReceiveAuthority body ∧ req_epoch body = e ∧ from_cluster_id body = from ∧
        saw h (EnsureReverse (reverse_publication body) (reverse_slot body)) (λ r, is_ok r = true) ∧
        (∃ raw vs, saw h (ExecuteSql SequenceValuesSql) (λ r, r = Ok raw) ∧
           parse_sequence_lines (filter (λ l, l ≠ []) (trim <$> lines raw)) = Some vs ∧
           sequence_gaps vs (donor_sequences body) = []) ∧
        ((accept_unverified_provenance body = true ∧ donor_mgmt_addrs body = []) ∨
         (accept_unverified_provenance body = false ∧
          ∃ h0 t answers h1, h = h0 ++ t ++ h1 ∧
            runs (poll_round srv body (donor_mgmt_addrs body)) t answers ∧
            donor_quorum_confirms (claim <$> answers) (length (donor_mgmt_addrs body)) = true ∧
            existsb (list_too_short (Z.of_nat (length (donor_mgmt_addrs body)))) answers = false))
  | _ => False
  end.

(** Every commit: authorised, on the leader, with quorum, admitted by the level. *)
Definition commit_ok (rq : Request) (srv : Server) (h : hist) (q : Req) : Prop :=
  match q with
  | ClientWrite cmd =>
      authorised rq srv h cmd ∧
      saw h CurrentLeader (λ l, l = Some (srv_node_id srv)) ∧
      saw h FenceHasQuorum (λ b, b = true) ∧
      saw h ReadState (λ s, admit_command s cmd = Ok tt)
  | _ => True
  end.

(** A program that commits nothing. *)
Definition no_commit (h : hist) (q : Req) : Prop :=
  match q with ClientWrite _ => False | _ => True end.

Section Handlers.
Context (rq : Request).

Lemma authorised_app srv h t cmd : authorised rq srv h cmd → authorised rq srv (h ++ t) cmd.
Proof.
  destruct cmd; simpl; try done.
  - intros (? & ? & ? & ?). eauto using saw_app_l.
  - intros (roles & h0 & t1 & t2 & t3 & h4 & o & ? & -> & ? & ? & ? & ?).
    exists roles, h0, t1, t2, t3, (h4 ++ t), o. split; [done|].
    rewrite <-!app_assoc. eauto.
  - intros (sealed & raw & line & c & ? & ? & ? & ? & ?). exists sealed, raw, line, c.
    eauto 7 using saw_app_l.
  - intros (? & ? & body & ? & ? & ? & ? & (raw & vs & ? & ? & ?) & Hq).
    split; [done|]. split; [done|]. exists body. do 3 (split; [done|]).
    split; [by apply saw_app_l|]. split; [exists raw, vs; eauto using saw_app_l|].
    destruct Hq as [?|(? & h0 & t0 & ans & h1 & -> & ? & ? & ?)]; [by left|].
    right. split; [done|]. exists h0, t0, ans, (h1 ++ t). rewrite <-!app_assoc. eauto.
  - intros (? & ? & acc & ?). eauto 6 using saw_app_l.
Qed.

Lemma apply_cutover_safe srv cmd h :
  authorised rq srv h cmd → safe any_answer (commit_ok rq srv) h (apply_cutover srv cmd) (λ _ _, True).
Proof.
  intros Hauth. unfold apply_cutover, can_commit_locally. simpl.
  split; [done|]. intros leader _. split; [done|]. intros quorum _.
  unfold commit_precondition. case_bool_decide as Hl; simpl; [|done].
  destruct quorum; simpl; [|done]. split; [done|]. intros s _.
  destruct (admit_command s cmd) as [[]|e] eqn:Ea; simpl; [|done].
  split; [|done]. rewrite <-!app_assoc. split_and!.
  - by apply authorised_app.
  - apply saw_app_r. exists leader. split; [apply elem_of_cons; by left|done].
  - apply saw_app_r. exists true. split; [set_solver|done].
  - apply saw_app_r. exists s. split; [set_solver|done].
Qed.

(** ** The programs that only look *)
Ltac quiet :=
  repeat first
    [ exact I | progress cbv beta | safe_step | progress intros
    | match goal with |- match ?x with _ => _ end => destruct x eqn:? end ].

Lemma sql_quiet q h (Q : hist → result FenceError bytes → Prop) :
  (∀ h' r, Q h' r) → safe any_answer no_commit h (sql q) Q.
Proof. intros HQ. unfold sql. safe_step; [done|]. apply HQ. Qed.

Lemma observe_quiet roles cid h : safe any_answer no_commit h (observe roles cid) (λ _ _, True).
Proof. unfold observe, lift_pure, sql. quiet. Qed.

Lemma await_no_backends_quiet n pids h :
  safe any_answer no_commit h (await_no_backends n pids) (λ _ _, True).
Proof.
  revert h; induction n as [|n IH]; intros h; simpl; [done|].
  split; [done|]. intros [raw|e] ?; simpl; [|done].
  destruct (parse_u64 (trim raw)) as [r|]; simpl; [|done].
  destruct (r =? 0); simpl; [done|]. split; [done|]. intros ? ?. apply IH.
Qed.

Lemma drain_quiet roles h : safe any_answer no_commit h (drain_fenced_sessions roles) (λ _ _, True).
Proof.
  unfold drain_fenced_sessions, lift_pure, sql. quiet. apply await_no_backends_quiet.
Qed.

Lemma sealed_position_quiet roles h :
  safe any_answer no_commit h (sealed_position roles) (λ _ _, True).
Proof. unfold sealed_position, lift_pure, sql. quiet. Qed.

Lemma poll_round_quiet srv body addrs h :
  safe any_answer no_commit h (poll_round srv body addrs) (λ _ _, True).
Proof.
  revert h; induction addrs as [|a addrs IH]; intros h; simpl; [done|].
  split; [done|]. intros [st|] ?; simpl.
  - destruct (confirms st _ _ _); simpl.
    + split; [done|]. intros m _. apply safe_bind. eapply safe_post; [apply IH|done].
    + apply safe_bind. eapply safe_post; [apply IH|done].
  - apply safe_bind. eapply safe_post; [apply IH|done].
Qed.

(** A quiet program commits nothing, whatever the commit condition; its run is
    known afterwards. *)
Lemma quiet_traced {A} srv h (p : io A) :
  safe any_answer no_commit h p (λ _ _, True) →
  safe any_answer (commit_ok rq srv) h p (λ h' a, ∃ t, h' = h ++ t ∧ runs p t a).
Proof.
  intros Hq. eapply (safe_mono _ no_commit); [by apply safe_trace|by intros ? []|].
  intros h' a [Ht _]. done.
Qed.

(** Sequencing after a quiet program. *)
Lemma safe_after_quiet {A B} srv h (p : io A) (f : A → io B) Q :
  safe any_answer no_commit h p (λ _ _, True) →
  (∀ t a, runs p t a → safe any_answer (commit_ok rq srv) (h ++ t) (f a) Q) →
  safe any_answer (commit_ok rq srv) h (bind p f) Q.
Proof.
  intros Hq Hf. apply safe_bind. eapply safe_post; [by apply quiet_traced|].
  intros h' a (t & -> & Ht). by apply Hf.
Qed.

(** What the SEAL loop returns: a position read behind the fence. *)
Lemma seal_loop_safe n srv roles h :
  safe any_answer (commit_ok rq srv) h (sealed_position_once_fenced n srv roles)
    (λ h' r, ∀ lsn, r = Some (Ok lsn) → ∃ h0 t1 t2 t3 o,
       h' = h0 ++ t1 ++ t2 ++ t3 ∧ runs (observe roles (srv_cluster_id srv)) t1 (Ok o) ∧
       sealable o = true ∧ runs (drain_fenced_sessions roles) t2 (Ok tt) ∧
       runs (sealed_position roles) t3 (Ok lsn)).
Proof.
  revert h; induction n as [|n IH]; intros h; cbn [sealed_position_once_fenced]; [done|].
  apply safe_after_quiet; [apply observe_quiet|]. intros t1 seen H1.
  destruct (match seen with Ok o => sealable o | Err _ => false end) eqn:Es.
  - destruct seen as [o|]; [|done]. apply safe_bind.
    unfold try_bind. apply safe_after_quiet; [apply drain_quiet|]. intros t2 [[]|e] H2; [|done].
    eapply safe_post; [apply quiet_traced, sealed_position_quiet|].
    intros h' r (t3 & -> & H3) lsn [= ->]. exists h, t1, t2, t3, o.
    rewrite <-!app_assoc. eauto.
  - simpl. split; [done|]. intros elapsed _.
    destruct (SEAL_FENCE_BUDGET_MS <=? elapsed); [by destruct seen|].
    simpl. split; [done|]. intros ? ?. apply IH.
Qed.

Lemma finish_seal_safe srv roles h :
  roles ≠ [] → safe any_answer (commit_ok rq srv) h (finish_seal srv roles) (λ _ _, True).
Proof.
  intros Hr. unfold finish_seal. apply safe_bind. eapply safe_post; [apply seal_loop_safe|].
  intros h' r Hseal. destruct r as [[lsn|e]|]; [|done|done].
  apply safe_bind. eapply safe_post; [apply apply_cutover_safe|done].
  destruct (Hseal lsn eq_refl) as (h0 & t1 & t2 & t3 & o & -> & ? & ? & ? & ?).
  exists roles, h0, t1, t2, t3, [], o. rewrite app_nil_r. split_and!; done.
Qed.

(** *** Each handler *)
Lemma validate_target_None srv t :
  validate_target srv t = None → t ≠ srv_cluster_id srv ∧ t ≠ [].
Proof. unfold validate_target. repeat case_bool_decide; done. Qed.

Lemma arm_safe srv target :
  safe any_answer (commit_ok rq srv) [] (cutover_arm srv target) (λ _ _, True).
Proof.
  unfold cutover_arm. destruct (validate_target _ _) eqn:Ev; [done|].
  apply validate_target_None in Ev as [Hne Hnil].
  safe_ask s. destruct (holds_authority srv s) eqn:Eh; [|exact I].
  apply apply_cutover_safe. split_and!; [done|done|done|].
  exists s. split; [set_solver|done].
Qed.

Lemma transfer_safe srv target pg :
  safe any_answer (commit_ok rq srv) [] (cutover_transfer srv target pg) (λ _ _, True).
Proof.
  unfold cutover_transfer. destruct (validate_target _ _) eqn:Ev; [done|].
  apply validate_target_None in Ev as [Hne Hnil].
  destruct (parse_socket_addr pg) eqn:Ep; [|done].
  apply apply_cutover_safe. split_and!; [done|done|]. rewrite Ep. eauto.
Qed.

Lemma force_transfer_safe srv target pg accept :
  safe any_answer (commit_ok rq srv) [] (cutover_force_transfer srv target pg accept) (λ _ _, True).
Proof.
  unfold cutover_force_transfer. destruct accept; [|exact I]. cbv zeta.
  destruct (validate_target _ _) eqn:Ev; [done|].
  apply validate_target_None in Ev as [Hne Hnil].
  destruct (parse_socket_addr pg) eqn:Ep; [|done].
  apply apply_cutover_safe. split_and!; [done|done|]. rewrite Ep. eauto.
Qed.

Lemma abort_safe srv : safe any_answer (commit_ok rq srv) [] (cutover_abort srv) (λ _ _, True).
Proof. by apply apply_cutover_safe. Qed.

Lemma seal_safe srv roles accepted :
  safe any_answer (commit_ok rq srv) [] (cutover_seal srv roles accepted) (λ _ _, True).
Proof.
  unfold cutover_seal. case_bool_decide as Hr; [done|].
  destruct (postgres_manager srv); [|exact I].
  safe_ask s.
  destruct (phase (cutover s)) eqn:Ep; try done.
  - safe_ask c. destruct c as [u|e]; [|exact I].
    apply safe_bind. eapply safe_post.
    { apply apply_cutover_safe. split; [done|]. split.
      - exists s. split; [set_solver|done].
      - exists accepted, (Ok u). split; [set_solver|done]. }
    intros h' reply _. case_bool_decide; [|done]. by apply finish_seal_safe.
  - destruct (same_roles _ _); [|done]. by apply finish_seal_safe.
Qed.

Lemma drain_observed_safe srv :
  safe any_answer (commit_ok rq srv) [] (cutover_drain_observed srv) (λ _ _, True).
Proof.
  unfold cutover_drain_observed. safe_ask s.
  destruct (postgres_manager srv); [|exact I]. safe_ask raw.
  destruct (drain_proven _ _) eqn:Ed; [|exact I]. apply apply_cutover_safe.
  unfold drain_proven in Ed. destruct raw as [raw|e]; simpl in Ed; [|done].
  destruct (parse_donor_retention_line raw) as [line|] eqn:El; simpl in Ed; [|done].
  destruct (min_confirmed_flush_lsn line) as [c|] eqn:Ec; [|done].
  destruct (sealed_final_lsn (cutover s)) as [l|] eqn:Es; [|done].
  exists l, raw, line, c. split_and!; [|exists (Ok raw); split; [set_solver|done]|done|done|lia].
  exists s. split; [set_solver|done].
Qed.

Lemma quorum_safe n srv body h :
  safe any_answer (commit_ok rq srv) h (await_donor_quorum n srv body)
    (λ h' r, ∀ m, r = Some (Ok m) → ∃ h0 t answers h1, h' = h0 ++ t ++ h1 ∧
       runs (poll_round srv body (donor_mgmt_addrs body)) t answers ∧
       donor_quorum_confirms (claim <$> answers) (length (donor_mgmt_addrs body)) = true ∧
       existsb (list_too_short (Z.of_nat (length (donor_mgmt_addrs body)))) answers = false).
Proof.
  revert h; induction n as [|n IH]; intros h; cbn [await_donor_quorum]; [done|].
  apply safe_after_quiet; [apply poll_round_quiet|]. intros t answers Ht. cbv zeta.
  safe_ask elapsed. unfold donor_poll_verdict.
  destruct (donor_quorum_confirms _ _) eqn:Eq.
  - destruct (existsb _ _) eqn:Ee; [done|]. intros m [= <-].
    exists h, t, answers, [answered ElapsedMs elapsed]. rewrite <-app_assoc. eauto.
  - destruct (_ <=? elapsed); [done|]. safe_ask u. apply IH.
Qed.

Lemma take_authority_safe srv body h :
  rq = ReceiveAuthority body →
  from_cluster_id body ≠ srv_cluster_id srv →
  ((accept_unverified_provenance body = true ∧ donor_mgmt_addrs body = []) ∨
   (accept_unverified_provenance body = false ∧
    ∃ h0 t answers h1, h = h0 ++ t ++ h1 ∧
      runs (poll_round srv body (donor_mgmt_addrs body)) t answers ∧
      donor_quorum_confirms (claim <$> answers) (length (donor_mgmt_addrs body)) = true ∧
      existsb (list_too_short (Z.of_nat (length (donor_mgmt_addrs body)))) answers = false)) →
  safe any_answer (commit_ok rq srv) h (take_authority srv body) (λ _ _, True).
Proof.
  intros Hrq Hfrom Hq. unfold take_authority, ready_to_accept_writes.
  destruct (postgres_manager srv); [|exact I].
  safe_ask rev. destruct rev as [u|e]; [|exact I].
  safe_ask raw. destruct raw as [raw|e]; [|exact I].
  destruct (parse_sequence_lines _) as [vs|] eqn:Ev; [|exact I].
  case_bool_decide as Hg; [|exact I]. cbn [bind].
  apply safe_bind. eapply safe_post; [apply apply_cutover_safe|done].
  split_and!; [done|done|]. exists body. split_and!; [done|done|done| | |].
  - exists (Ok u). split; [set_solver|done].
  - exists raw, vs. split_and!; [|done|done]. exists (Ok raw). split; [set_solver|done].
  - destruct Hq as [?|(? & h0 & t & ans & h1 & -> & ? & ? & ?)]; [by left|]. right.
    split; [done|]. eexists h0, t, ans, (h1 ++ _). rewrite <-!app_assoc. eauto.
Qed.

Lemma receive_safe srv body :
  rq = ReceiveAuthority body →
  safe any_answer (commit_ok rq srv) [] (cutover_receive_authority srv body) (λ _ _, True).
Proof.
  intros Hrq. unfold cutover_receive_authority.
  case_bool_decide as Hblank; [exact I|]. case_bool_decide as Hfrom; [exact I|]. cbn [orb].
  case_bool_decide as Ha.
  - destruct (accept_unverified_provenance body) eqn:Eacc; [|exact I].
    apply take_authority_safe; [done|done|]. by left.
  - destruct (accept_unverified_provenance body) eqn:Eacc; [exact I|].
    apply safe_bind. eapply safe_post; [apply quorum_safe|].
    intros h' r Hr. destruct r as [[m|e]|]; [|exact I|exact I].
    apply take_authority_safe; [done|done|]. right. split; [done|]. by apply (Hr m).
Qed.

End Handlers.

(** The router: [None] is a poll loop out of rounds ([polls_end_by_their_budget]
    shows it does not happen). *)
Definition handle (srv : Server) (r : Request) : io (option Reply) :=
  match r with
  | Arm target => let* reply := cutover_arm srv target in Ret (Some reply)
  | Seal roles accepted => cutover_seal srv roles accepted
  | DrainObserved => let* reply := cutover_drain_observed srv in Ret (Some reply)
  | Transfer target pg => let* reply := cutover_transfer srv target pg in Ret (Some reply)
  | ForceTransfer target pg a =>
      let* reply := cutover_force_transfer srv target pg a in Ret (Some reply)
  | AbortCutover => let* reply := cutover_abort srv in Ret (Some reply)
  | ReceiveAuthority body => cutover_receive_authority srv body
  end.

Lemma safe_reply rq srv (p : io Reply) :
  safe any_answer (commit_ok rq srv) [] p (λ _ _, True) →
  safe any_answer (commit_ok rq srv) [] (let* reply := p in Ret (Some reply)) (λ _ _, True).
Proof. intros H. apply safe_bind. by eapply safe_post. Qed.

Lemma handle_safe srv r : safe any_answer (commit_ok r srv) [] (handle srv r) (λ _ _, True).
Proof.
  destruct r.
  - apply safe_reply, arm_safe.
  - apply seal_safe.
  - apply safe_reply, drain_observed_safe.
  - apply safe_reply, transfer_safe.
  - apply safe_reply, force_transfer_safe.
  - apply safe_reply, abort_safe.
  - by apply receive_safe.
Qed.

(** C10. Whatever its node, its catalog and the donor answer, a cutover handler
    commits only with proof in hand: it has read that this node leads with quorum and
    that the level admits the command, and: it arms only where the authority read said
    this cluster holds it; commits SEAL only with a position read after a sealable
    observation and a completed drain of the fenced sessions, in that order;
    DRAIN_OBSERVED only with every slot confirmed through the sealed position it read;
    TRANSFER only to another cluster at an address that parses; and takes authority
    only with the reverse slot ensured, every sequence past the donor's, and either a
    donor majority or the request's explicit break-glass acceptance with no donor
    listed. *)
Theorem handlers_commit_only_with_proof srv r t cmd :
  issues (handle srv r) t (ClientWrite cmd) →
  authorised r srv t cmd ∧
  saw t CurrentLeader (λ l, l = Some (srv_node_id srv)) ∧
  saw t FenceHasQuorum (λ b, b = true) ∧
  saw t ReadState (λ s, admit_command s cmd = Ok tt).
Proof.
  intros Hi. apply (safe_issues _ _ [] _ _ t _ (handle_safe srv r) Hi). apply relies_any.
Qed.

Definition blue : Server := Server_ 1 (lit "blue") None true.
Definition blue_start : ClusterState := set_feature_level 1 new.
Definition arming : hist :=
  [answered ReadState blue_start; answered CurrentLeader (Some 1);
   answered FenceHasQuorum true; answered ReadState blue_start].

Lemma handlers_commit_only_with_proof_witness :
  issues (handle blue (Arm (lit " green "))) arming
    (ClientWrite (CutoverArmed (lit "green") (lit "blue"))) ∧
  authorised (Arm (lit " green ")) blue arming (CutoverArmed (lit "green") (lit "blue")).
Proof.
  assert (issues (handle blue (Arm (lit " green "))) arming
    (ClientWrite (CutoverArmed (lit "green") (lit "blue")))) as Hi.
  { right. exists blue_start, (tail arming). split; [reflexivity|].
    right. exists (Some 1), (tail (tail arming)). split; [reflexivity|].
    right. exists true, (tail (tail (tail arming))). split; [reflexivity|].
    right. exists blue_start, []. split; [reflexivity|]. left. split; reflexivity. }
  split; [exact Hi|]. by apply (handlers_commit_only_with_proof blue (Arm (lit " green "))).
Defined.

(** ** The poll loops end *)
Fixpoint slept (h : hist) : Z :=
  match h with
  | [] => 0
  | existT (Sleep ms) _ :: h' => Z.max 0 ms + slept h'
  | _ :: h' => slept h'
  end.

(** A clock that runs at least as fast as the sleeps say. *)
Definition clock_advances (h : hist) (ev : event Answer) : Prop :=
  match ev with existT ElapsedMs r => slept h ≤ r | _ => True end.

Lemma slept_nonneg h : 0 ≤ slept h.
Proof. induction h as [|[[] r] h IH]; simpl; lia. Qed.
Lemma slept_app h t : slept (h ++ t) = slept h + slept t.
Proof. induction h as [|[[] r] h IH]; simpl; lia. Qed.

Lemma after_any {A B} h (p : io A) (f : A → io B) Q :
  (∀ t a, 0 ≤ slept t → safe clock_advances any_request (h ++ t) (f a) Q) →
  safe clock_advances any_request h (bind p f) Q.
Proof.
  intros Hf. apply safe_bind. eapply safe_post; [apply safe_any|].
  intros h' a (t & -> & _). apply Hf, slept_nonneg.
Qed.

Lemma seal_loop_ends n srv roles h :
  (1 ≤ n ≤ 81)%nat → 250 * (81 - Z.of_nat n) ≤ slept h →
  safe clock_advances any_request h (sealed_position_once_fenced n srv roles)
    (λ _ r, is_Some r).
Proof.
  revert h; induction n as [|n IH]; intros h Hn Hs; [lia|]. cbn [sealed_position_once_fenced].
  apply after_any. intros t seen Ht.
  destruct (match seen with Ok _ => _ | Err _ => _ end).
  - apply after_any. intros t' r _. simpl. eauto.
  - cbn [bind Effects.ask safe]. split; [done|]. intros e He. simpl in He.
    rewrite slept_app in He. unfold SEAL_FENCE_BUDGET_MS.
    destruct (Z.leb_spec 20000 e); [simpl; eauto|].
    cbn [bind Effects.ask safe]. split; [done|]. intros u _.
    apply IH; [lia|]. rewrite !slept_app. simpl. unfold SEAL_FENCE_POLL_MS. lia.
Qed.

Lemma quorum_loop_ends n srv body h :
  (1 ≤ n ≤ 81)%nat → 250 * (81 - Z.of_nat n) ≤ slept h →
  safe clock_advances any_request h (await_donor_quorum n srv body) (λ _ r, is_Some r).
Proof.
  revert h; induction n as [|n IH]; intros h Hn Hs; [lia|]. cbn [await_donor_quorum].
  apply after_any. intros t answers Ht. cbv zeta.
  cbn [bind Effects.ask safe]. split; [done|]. intros e He. simpl in He.
  rewrite slept_app in He. unfold donor_poll_verdict, DONOR_QUORUM_BUDGET_MS.
  destruct (donor_quorum_confirms _ _); [destruct (existsb _ _); simpl; eauto|].
  destruct (Z.leb_spec 20000 e); [simpl; eauto|].
  cbn [bind Effects.ask safe]. split; [done|]. intros u _.
  apply IH; [lia|]. rewrite !slept_app. simpl. unfold DONOR_POLL_INTERVAL_MS. lia.
Qed.

Lemma take_authority_ends srv body h :
  safe clock_advances any_request h (take_authority srv body) (λ _ r, is_Some r).
Proof.
  unfold take_authority. apply after_any. intros t [[]|e] _; [|simpl; eauto].
  apply after_any. intros t' r _. simpl. eauto.
Qed.

Lemma finish_seal_ends srv roles h :
  0 ≤ slept h → safe clock_advances any_request h (finish_seal srv roles) (λ _ r, is_Some r).
Proof.
  intros Hs. unfold finish_seal. apply safe_bind. eapply safe_post.
  { apply seal_loop_ends; unfold SEAL_ROUNDS; [lia|]. simpl. lia. }
  intros h' r [[lsn|e] ->]; [|simpl; eauto]. apply after_any. intros t' r _. simpl. eauto.
Qed.

(** C40. The handlers answer: with a clock that advances with their sleeps, the SEAL
    fence wait and the donor-quorum poll end within their budgets, so 81 rounds
    are never exhausted and every request gets a reply. *)
Theorem polls_end_by_their_budget srv r t a :
  runs (handle srv r) t a → relies clock_advances [] t → is_Some a.
Proof.
  intros Hr Ht. refine (safe_runs clock_advances any_request [] _ (λ _ a, is_Some a) t a _ Hr Ht).
  destruct r; cbn [handle]; try (apply after_any; intros t' reply _; simpl; eauto).
  - unfold cutover_seal. case_bool_decide; [simpl; eauto|].
    destruct (postgres_manager srv); [|simpl; eauto]. cbn [negb].
    apply after_any. intros t1 s Ht1.
    destruct (phase (cutover s)); try (simpl; by eauto).
    + apply after_any. intros t2 [u|e] Ht2; [|simpl; eauto].
      apply after_any. intros t3 reply Ht3. case_bool_decide; [|simpl; eauto].
      apply finish_seal_ends, slept_nonneg.
    + destruct (same_roles _ _); [|simpl; eauto]. apply finish_seal_ends, slept_nonneg.
  - unfold cutover_receive_authority. destruct (_ || _); [simpl; eauto|].
    case_bool_decide.
    + destruct (accept_unverified_provenance body); [apply take_authority_ends|simpl; eauto].
    + destruct (accept_unverified_provenance body); [simpl; eauto|].
      apply safe_bind. eapply safe_post.
      { apply quorum_loop_ends; unfold QUORUM_ROUNDS; [lia|]. simpl. lia. }
      intros h' r [[m|e] ->]; [apply take_authority_ends|simpl; eauto].
Qed.

Definition trusting : ReceiveRequest :=
  ReceiveRequest_ 3 (lit "blue") [lit "10.0.0.1:9091"] false (lit "p") (lit "s") [].
Definition green : Server := Server_ 4 (lit "green") (Some (lit "blue")) true.
Definition silent_donor : hist :=
  [answered (DonorStatus (lit "10.0.0.1:9091")) None; answered ElapsedMs 20000].

Lemma polls_end_by_their_budget_witness :
  runs (handle green (ReceiveAuthority trusting)) silent_donor (Some (refuse CONFLICT)) ∧
  is_Some (Some (refuse CONFLICT)).
Proof.
  assert (runs (handle green (ReceiveAuthority trusting)) silent_donor (Some (refuse CONFLICT)))
    as Hr.
  { exists None, (tail silent_donor). split; [reflexivity|].
    exists 20000, []. split; [reflexivity|]. split; reflexivity. }
  split; [exact Hr|].
  apply (polls_end_by_their_budget green (ReceiveAuthority trusting) silent_donor); [exact Hr|].
  apply relies_cons_2; [exact I|]. apply relies_cons_2; [by vm_compute|]. apply relies_nil.
Defined.

(** ** Clusters with separate logs *)
Section System.
(** Each cluster's [awaits_write_authority_from]; one cluster awaits nobody. *)
Context (awaits : bytes → option bytes) (origin : bytes).
Context (Horigin : ∀ i, awaits i = None → i = origin).
Context (Hself : ∀ i, awaits i ≠ Some i).
(** Donor addresses whose answers are arbitrary. *)
Context (lying : bytes → bool).

(** The states each cluster's log has been through, newest first. *)
Definition system : Type := bytes → list ClusterState.
Definition start : system := λ _, [new].
Definition current (σ : system) (i : bytes) : ClusterState := default new (head (σ i)).
Definition commit (σ : system) (i : bytes) (cmd : ClusterCommand) : system :=
  λ j, if bool_decide (j = i) then (apply (current σ i) cmd).1 :: σ i else σ j.

Definition node_of (i : bytes) (srv : Server) : Prop :=
  srv_cluster_id srv = i ∧ awaits_write_authority_from srv = awaits i.
Definition site (i : bytes) : Server := Server_ 0 i (awaits i) true.
Definition holds (σ : system) (i : bytes) : bool := holds_authority (site i) (current σ i).

(** Answers come from some state the log has been through (a node may lag); a
    donor node that does not lie reports such a state of its own cluster. *)
Definition consistent (σ : system) (i : bytes) (h : hist) (ev : event Answer) : Prop :=
  match ev with
  | existT ReadState s => s ∈ σ i
  | existT (DonorStatus addr) r =>
      match r with
      | Some st => lying addr = true ∨
          ∃ s hold, s ∈ σ (st_cluster_id st) ∧ st = status_from (site (st_cluster_id st)) s hold
      | None => True
      end
  | _ => True
  end.

(** No break-glass, and at most half of the listed donor nodes lie. *)
Definition honest_request (r : Request) : Prop :=
  match r with
  | ReceiveAuthority body =>
      accept_unverified_provenance body = false ∧
      (2 * length (filter (λ a, lying a = true) (donor_mgmt_addrs body))
         ≤ length (donor_mgmt_addrs body))%nat
  | _ => True
  end.

(** The commands that move or claim authority; only their handlers issue them. *)
Definition moves_authority (cmd : ClusterCommand) : bool :=
  match cmd with
  | CutoverArmed _ _ | CutoverTransfer _ _ _ | CutoverAbortUnseal _
  | CutoverAuthorityReceived _ _ _ => true
  | _ => false
  end.

(** The reconciler names its cluster from configuration
    ([Worker::command_for]). *)
Definition named_from_config (i : bytes) (cmd : ClusterCommand) : Prop :=
  match cmd with NameCluster id aw => id = i ∧ aw = awaits i | _ => True end.

Inductive step (σ : system) : system → Prop :=
| handler_step i srv r t cmd :
    node_of i srv → honest_request r → relies (consistent σ i) [] t →
    issues (handle srv r) t (ClientWrite cmd) →
    step σ (commit σ i cmd)
| other_step i cmd :
    moves_authority cmd = false → named_from_config i cmd →
    step σ (commit σ i cmd).

Inductive reachable : system → Prop :=
| reach_start : reachable start
| reach_step σ σ' : reachable σ → step σ σ' → reachable σ'.

(** *** The token *)
Definition cut (σ : system) (i : bytes) : CutoverAuthorityState := cutover (current σ i).
Definition owns (σ : system) (i : bytes) : Prop :=
  authority_cluster_id (cut σ i) = Some i ∨
  (authority_cluster_id (cut σ i) = None ∧ awaits i = None).

(** [d] committed a handoff to [r] in epoch [k]. *)
Definition gave (σ : system) (d r : bytes) (k : Z) : Prop :=
  r ≠ d ∧ ∃ s, s ∈ σ d ∧ phase (cutover s) = Transferred ∧
    authority_cluster_id (cutover s) = Some r ∧ epoch (cutover s) = k.
(** ... which [r] could still take. *)
Definition pending (σ : system) (r : bytes) (k : Z) : Prop :=
  epoch (cut σ r) < k ∧ ∃ d, gave σ d r k.

Record token_invariant (σ : system) : Prop := {
  ti_some : ∀ i, ∃ s l, σ i = s :: l;
  ti_named : ∀ i s, s ∈ σ i → cluster_id (cutover s) = None ∨ cluster_id (cutover s) = Some i;
  ti_mid : ∀ i, match phase (cut σ i) with
                | Armed | Sealing | Sealed | Draining => authority_cluster_id (cut σ i) = Some i
                | _ => True end;
  ti_keeps : ∀ i s, s ∈ σ i → is_Some (authority_cluster_id (cutover s)) →
               is_Some (authority_cluster_id (cut σ i));
  ti_level : ∀ i s, s ∈ σ i → is_u64 (epoch (cutover s));
  ti_owner : ∀ i j, owns σ i → owns σ j → i = j;
  ti_owner_pending : ∀ i r k, owns σ i → pending σ r k → False;
  ti_pending : ∀ r k r' k', pending σ r k → pending σ r' k' → r = r' ∧ k = k';
  ti_earned : ∀ i, owns σ i → awaits i = None ∨ ∃ d k, gave σ d i k ∧ k ≤ epoch (cut σ i);
}.

Lemma current_in σ i : token_invariant σ → current σ i ∈ σ i.
Proof. intros HI. destruct (ti_some σ HI i) as (s & l & E). unfold current. rewrite E. by left. Qed.

(** *** What a step's command may be *)
Definition legit (σ : system) (i : bytes) (cmd : ClusterCommand) : Prop :=
  match cmd with
  | CutoverArmed _ local =>
      local = i ∧ (awaits i = None ∨ is_Some (authority_cluster_id (cut σ i)))
  | CutoverTransfer target _ _ => target ≠ i
  | CutoverAbortUnseal local => local = i
  | CutoverAuthorityReceived e from local => local = i ∧ gave σ from i e
  | NameCluster id aw => id = i ∧ aw = awaits i
  | _ => True
  end.

Lemma relies_consistent σ i t ev : relies (consistent σ i) [] t → ev ∈ t → consistent σ i [] ev.
Proof.
  intros H (t1 & t2 & ->)%list_elem_of_split. by apply (H t1 ev t2).
Qed.

Lemma holds_authority_some srv s :
  holds_authority srv s = true →
  awaits_write_authority_from srv = None ∨ is_Some (authority_cluster_id (cutover s)).
Proof.
  unfold holds_authority, cutover_authority_projection.
  destruct (awaits_write_authority_from srv); [|by left].
  destruct (authority_cluster_id (cutover s)); [right; eauto|done].
Qed.

(** More confirmations than liars: some honest node confirmed. *)
Lemma some_honest_confirms srv body addrs t answers :
  runs (poll_round srv body addrs) t answers →
  (∃ addr st, lying addr = false ∧ answered (DonorStatus addr) (Some st) ∈ t ∧
     confirms st (req_epoch body) (from_cluster_id body) (srv_cluster_id srv) = true) ∨
  (confirming (claim <$> answers) ≤ length (filter (λ a, lying a = true) addrs))%nat.
Proof.
  revert t answers; induction addrs as [|addr addrs IH]; intros t answers.
  { intros [-> ->]. right. apply Nat.le_refl. }
  cbn [poll_round]. intros (t1 & t2 & a & -> & Ha & Hrest)%runs_bind.
  apply runs_bind in Hrest as (t3 & t4 & rest & -> & Hrest & -> & ->).
  destruct (IH t3 rest Hrest) as [(ad & st & ? & Hin & ?)|Hle].
  { left. exists ad, st. split_and!; [done| |done]. rewrite !elem_of_app. auto. }
  destruct Ha as (r & t' & -> & Ha). destruct r as [st|].
  2:{ destruct Ha as [-> ->]. right. unfold confirming in *. rewrite fmap_cons, !filter_cons.
      repeat case_decide; simpl in *; try done; lia. }
  cbn [bind Effects.ask] in Ha. destruct (confirms st _ _ _) eqn:Ec.
  - destruct Ha as (m & t5 & -> & -> & ->).
    destruct (lying addr) eqn:El.
    + right. unfold confirming in *. rewrite fmap_cons, !filter_cons.
      repeat case_decide; simpl in *; try done; lia.
    + left. exists addr, st. split_and!; [done|by left|done].
  - destruct Ha as [-> ->]. right. unfold confirming in *. rewrite fmap_cons, !filter_cons.
    repeat case_decide; simpl in *; try done; lia.
Qed.

Lemma confirms_gave σ i s hold e from :
  token_invariant σ → s ∈ σ from → from ≠ i →
  confirms (status_from (site from) s hold) e from i = true → gave σ from i e.
Proof.
  intros HI Hs Hne. unfold confirms, status_from. cbn -[phase_as_str].
  rewrite !andb_true_iff, !bool_decide_eq_true. intros ((((_ & Hp) & He) & Ha) & _).
  split; [congruence|]. exists s. split_and!; [done| |done|lia].
  by destruct (phase (cutover s)).
Qed.

Lemma handler_legit σ i srv r t cmd :
  token_invariant σ → node_of i srv → honest_request r → relies (consistent σ i) [] t →
  issues (handle srv r) t (ClientWrite cmd) → legit σ i cmd.
Proof.
  intros HI [Hid Haw] Hhon Hrel Hi.
  pose proof (safe_issues any_answer (commit_ok r srv) [] (handle srv r) (λ _ _, True) t
    (ClientWrite cmd) (handle_safe srv r) Hi (relies_any [] t)) as [Hauth _].
  cbn [app] in Hauth. destruct cmd; cbn [authorised legit] in *; try done.
  - destruct Hauth as (-> & _ & _ & s & Hs & Hh). split; [done|].
    apply holds_authority_some in Hh. rewrite Haw in Hh.
    destruct Hh as [?|Hsome]; [by left|right].
    apply (ti_keeps σ HI i s); [|done]. by apply (relies_consistent σ i t _ Hrel) in Hs.
  - destruct Hauth as (? & ?). by rewrite <-Hid.
  - by rewrite Hauth.
  - destruct Hauth as (Hlocal & Hfrom & body & Hr & He & Hf & _ & _ & Hq).
    rewrite Hid in Hlocal. subst local_cluster_id. split; [done|].
    subst r. destruct Hhon as [Hacc Hliars].
    destruct Hq as [[Hacc' _]|(_ & h0 & tp & answers & h1 & -> & Hrun & Hquorum & _)]; [congruence|].
    destruct (some_honest_confirms _ _ _ _ _ Hrun) as [(addr & st & Hl & Hin & Hc)|Hle].
    + assert (answered (DonorStatus addr) (Some st) ∈ h0 ++ tp ++ h1) as Hev
        by (rewrite !elem_of_app; auto).
      apply (relies_consistent σ i _ _ Hrel) in Hev. cbn in Hev.
      destruct Hev as [Hev|(s & hold & Hs & Hst)]; [congruence|].
      rewrite He, Hf, Hid in Hc.
      match type of Hf with _ = ?f => assert (st_cluster_id st = f) as Hcl end.
      { unfold confirms in Hc. rewrite !andb_true_iff, bool_decide_eq_true in Hc. apply Hc. }
      rewrite Hcl in Hs, Hst. rewrite Hst in Hc. by apply (confirms_gave σ i s hold).
    + exfalso. unfold donor_quorum_confirms in Hquorum.
      destruct (_ =? 0)%nat; [done|]. apply Nat.ltb_lt in Hquorum. lia.
Qed.

(** *** What a legitimate command does to its cluster's record *)
Definition mid (p : CutoverPhase) : bool :=
  match p with Armed | Sealing | Sealed | Draining => true | _ => false end.

Inductive record_step (i : bytes) (c c' : CutoverAuthorityState) : Prop :=
| rs_quiet :
    authority_cluster_id c' = authority_cluster_id c →
    epoch c' = epoch c → phase c' ≠ Transferred ∨ phase c' = phase c →
    (mid (phase c') = true → mid (phase c) = true) → record_step i c c'
| rs_boot_fence :
    authority_cluster_id c = None → authority_cluster_id c' = awaits i →
    epoch c' = epoch c → phase c' = Idle → record_step i c c'
| rs_hold :
    (authority_cluster_id c = Some i ∨ (authority_cluster_id c = None ∧ awaits i = None)) →
    authority_cluster_id c' = Some i → epoch c ≤ epoch c' → phase c' ≠ Transferred →
    record_step i c c'
| rs_transfer target :
    authority_cluster_id c = Some i → target ≠ i → authority_cluster_id c' = Some target →
    epoch c ≤ epoch c' → phase c' = Transferred → record_step i c c'
| rs_receive :
    epoch c < epoch c' → authority_cluster_id c' = Some i → phase c' = Transferred →
    record_step i c c'.

Lemma cutover_of_apply s cmd :
  cutover (apply s cmd).1 = cutover s ∨
  cutover (apply s cmd).1 = (Cutover.apply_cutover (cutover s) cmd).1.
Proof.
  destruct cmd; unfold apply, apply_upgrade, raise_feature_level; simpl;
    repeat (case_match; simplify_eq/=); auto.
Qed.

Lemma apply_cutover_named c cmd i :
  named_from_config i cmd → cluster_id c = None ∨ cluster_id c = Some i →
  cluster_id (Cutover.apply_cutover c cmd).1 = None ∨
  cluster_id (Cutover.apply_cutover c cmd).1 = Some i.
Proof.
  destruct cmd; simpl; unfold Cutover.unseal, Cutover.name; intros Hn Hc;
    repeat (case_match; simplify_eq/=); auto.
  all: destruct Hn as [-> _]; auto.
Qed.

Lemma record_step_refl i c : record_step i c c.
Proof. by apply rs_quiet; [| |right|]. Qed.

Lemma holds_authority_id c i :
  Cutover.holds_client_write_authority c i = true →
  authority_cluster_id c = None ∨ authority_cluster_id c = Some i.
Proof.
  unfold Cutover.holds_client_write_authority.
  destruct (match cluster_id c with Some _ => _ | None => _ end); [done|].
  destruct (authority_cluster_id c) as [a|]; [|auto].
  destruct (phase c); simpl; try done; case_bool_decide; naive_solver.
Qed.

Lemma apply_cutover_record σ i cmd :
  token_invariant σ → legit σ i cmd →
  record_step i (cut σ i) (Cutover.apply_cutover (cut σ i) cmd).1.
Proof.
  intros HI Hl. pose proof (ti_mid σ HI i) as Hmid.
  pose proof (sat_add_u64_mono (epoch (cut σ i)) 1 (ti_level σ HI i _ (current_in σ i HI)) ltac:(lia)) as He.
  set (c := cut σ i) in *.
  destruct cmd; simpl; try apply record_step_refl.
  - (* Armed *)
    match goal with |- record_step _ _ (if ?b then _ else _).1 => destruct b eqn:Hmay end;
      [|apply record_step_refl].
    destruct Hl as [-> Hsome]. apply rs_hold; simpl; [|done|lia|done].
    assert (Cutover.holds_client_write_authority c i = true) as Hh by (by destruct (phase c)).
    apply holds_authority_id in Hh as [Ea|Ea]; [|by left].
    right. split; [done|]. destruct Hsome as [?|[? Hs]]; [done|]. unfold c in *. congruence.
  - case_bool_decide as Hp; simpl; [apply record_step_refl|].
    apply rs_quiet; simpl; auto. by rewrite Hp.
  - case_bool_decide as Hp; simpl; [apply record_step_refl|].
    apply rs_quiet; simpl; auto. by rewrite Hp.
  - (* Transfer *)
    match goal with |- record_step _ _ (if ?b then _ else _).1 => destruct b eqn:Ha end;
      [|apply record_step_refl].
    assert (authority_cluster_id c = Some i) as Hown.
    { destruct forced; [destruct (phase c); done|].
      apply bool_decide_eq_true in Ha. by rewrite Ha in Hmid. }
    by apply (rs_transfer i c _ target_cluster_id).
  - (* Abort *)
    simpl in Hl. subst. unfold Cutover.unseal.
    destruct (phase c) eqn:Hp; try apply record_step_refl; apply rs_hold; simpl; auto.
  - (* Received *)
    destruct Hl as [-> _]. destruct (Z.leb_spec epoch (ClusterState.epoch c)); [apply record_step_refl|].
    by apply rs_receive.
  - case_bool_decide as Hp; simpl; [apply record_step_refl|].
    apply rs_quiet; simpl; auto. by rewrite Hp.
  - (* NameCluster *)
    destruct Hl as [-> ->]. unfold Cutover.name.
    destruct (match cluster_id c with Some _ => _ | None => _ end); [apply record_step_refl|].
    unfold Cutover.boot_fence_may_land.
    destruct (awaits i) as [d|] eqn:Ed; simpl; [|apply rs_quiet; simpl; auto].
    case_bool_decide as Hp; simpl; [|apply rs_quiet; simpl; auto].
    case_bool_decide as Ha; simpl; [|apply rs_quiet; simpl; auto].
    by apply rs_boot_fence.
Qed.

(** *** The token is kept *)
Lemma current_commit σ i cmd j :
  current (commit σ i cmd) j = if bool_decide (j = i) then (apply (current σ i) cmd).1 else current σ j.
Proof. unfold current at 1, commit. by case_bool_decide. Qed.

Lemma elem_of_commit σ i cmd j s :
  s ∈ commit σ i cmd j ↔ (j = i ∧ s = (apply (current σ i) cmd).1) ∨ s ∈ σ j.
Proof.
  unfold commit. case_bool_decide as E; [subst j|naive_solver].
  rewrite elem_of_cons. naive_solver.
Qed.

Section Step.
Context (σ : system) (i : bytes) (cmd : ClusterCommand) (HI : token_invariant σ).
Context (Hstep : record_step i (cut σ i) (cut (commit σ i cmd) i)).
Context (Hnamed : cluster_id (cut (commit σ i cmd) i) = None ∨
                  cluster_id (cut (commit σ i cmd) i) = Some i).
Context (Hu64 : is_u64 (epoch (cut (commit σ i cmd) i))).
Let σ' := commit σ i cmd.

Lemma cut_other j : j ≠ i → cut σ' j = cut σ j.
Proof. intros Hj. unfold cut, σ'. rewrite current_commit. by case_bool_decide. Qed.

Lemma step_epoch j : epoch (cut σ j) ≤ epoch (cut σ' j).
Proof.
  destruct (decide (j = i)) as [->|Hj]; [|by rewrite cut_other].
  fold σ' in Hstep. inversion Hstep; lia.
Qed.

Lemma gave_mono d r k : gave σ d r k → gave σ' d r k.
Proof.
  intros (Hne & s & Hs & Hp). split; [done|]. exists s. split; [|done].
  apply elem_of_commit. by right.
Qed.

(** New handoffs are the new record's. *)
Lemma gave_step d r k :
  gave σ' d r k → gave σ d r k ∨
  (d = i ∧ r ≠ i ∧ phase (cut σ' i) = Transferred ∧
   authority_cluster_id (cut σ' i) = Some r ∧ epoch (cut σ' i) = k).
Proof.
  intros (Hne & s & [[-> ->]|Hs]%elem_of_commit & Hp & Ha & Hk).
  - right. unfold cut, σ'. rewrite current_commit, bool_decide_eq_true_2 by done. done.
  - left. split; [done|]. exists s. auto.
Qed.

Lemma owns_other j : j ≠ i → owns σ' j ↔ owns σ j.
Proof. intros Hj. unfold owns. by rewrite cut_other. Qed.

(** A step that neither gives nor takes. *)
Lemma token_kept :
  (owns σ' i → owns σ i) → (∀ r k, gave σ' i r k → gave σ i r k) →
  (∀ x y, owns σ' x → owns σ' y → x = y) ∧
  (∀ x r k, owns σ' x → pending σ' r k → False) ∧
  (∀ r k r' k', pending σ' r k → pending σ' r' k' → r = r' ∧ k = k') ∧
  (∀ x, owns σ' x → awaits x = None ∨ ∃ d k, gave σ' d x k ∧ k ≤ epoch (cut σ' x)).
Proof.
  intros Howns Hgave.
  assert (Ho : ∀ x, owns σ' x → owns σ x).
  { intros x Hx. destruct (decide (x = i)) as [->|]; [auto|by apply owns_other]. }
  assert (Hp : ∀ r k, pending σ' r k → pending σ r k).
  { intros r k [Hlt [d Hd]]. pose proof (step_epoch r). split; [lia|]. exists d.
    destruct (gave_step d r k Hd) as [?|(-> & _)]; auto. }
  split_and!.
  - intros x y Hx Hy. by apply (ti_owner σ HI); apply Ho.
  - intros x r k Hx Hr. by apply (ti_owner_pending σ HI x r k); [apply Ho|apply Hp].
  - intros r k r' k' H1 H2. by apply (ti_pending σ HI); apply Hp.
  - intros x Hx. destruct (ti_earned σ HI x (Ho x Hx)) as [?|(d & k & ? & ?)]; [by left|].
    right. exists d, k. pose proof (step_epoch x). split; [by apply gave_mono|lia].
Qed.

(** The giver had the token; nobody else can be waiting for one. *)
Lemma token_given target :
  authority_cluster_id (cut σ i) = Some i → target ≠ i →
  authority_cluster_id (cut σ' i) = Some target →
  (∀ x, owns σ' x → False) ∧
  (∀ r k r' k', pending σ' r k → pending σ' r' k' → r = r' ∧ k = k').
Proof.
  intros Ha Ht Ha'.
  assert (Hi : owns σ i) by (by left).
  assert (Hp : ∀ r k, pending σ' r k → r = target ∧ k = epoch (cut σ' i)).
  { intros r k [Hlt [d Hd]]. destruct (gave_step d r k Hd) as [Hold|(-> & Hr & _ & Hau & He)].
    - exfalso. apply (ti_owner_pending σ HI i r k Hi). pose proof (step_epoch r).
      split; [lia|]. by exists d.
    - split; congruence. }
  split.
  - intros x Hx. destruct (decide (x = i)) as [->|Hne].
    + destruct Hx as [Hx|[Hx _]]; congruence.
    + apply owns_other in Hx; [|done]. apply Hne. by apply (ti_owner σ HI).
  - intros r k r' k' [-> ->]%Hp [-> ->]%Hp. done.
Qed.

(** The taker was the only one that could take. *)
Lemma token_taken d :
  epoch (cut σ i) < epoch (cut σ' i) → authority_cluster_id (cut σ' i) = Some i →
  gave σ d i (epoch (cut σ' i)) →
  (∀ x, owns σ' x → x = i) ∧ (∀ r k, pending σ' r k → False).
Proof.
  intros He Ha Hg.
  assert (Hpi : pending σ i (epoch (cut σ' i))) by (split; [done|by exists d]).
  split.
  - intros x Hx. destruct (decide (x = i)) as [->|Hne]; [done|]. exfalso.
    apply owns_other in Hx; [|done]. by apply (ti_owner_pending σ HI x _ _ Hx Hpi).
  - intros r k [Hlt [d' Hd]]. destruct (gave_step d' r k Hd) as [Hold|(-> & Hr & _ & Hau & _)];
      [|congruence].
    assert (pending σ r k) as Hpr.
    { pose proof (step_epoch r). split; [lia|]. by exists d'. }
    destruct (ti_pending σ HI _ _ _ _ Hpi Hpr) as [<- <-]. lia.
Qed.

(** A state of [i] that is no fresh handoff gives nothing new. *)
Lemma gives_nothing :
  phase (cut σ' i) ≠ Transferred ∨
  (phase (cut σ' i) = phase (cut σ i) ∧ epoch (cut σ' i) = epoch (cut σ i) ∧
   authority_cluster_id (cut σ' i) = authority_cluster_id (cut σ i)) →
  ∀ r k, gave σ' i r k → gave σ i r k.
Proof.
  intros Hc r k Hd. destruct (gave_step i r k Hd) as [?|(_ & Hr & Hp & Ha & He)]; [done|].
  destruct Hc as [?|(Ep & Ee & Ea)]; [done|]. split; [done|]. exists (current σ i).
  split; [by apply current_in|]. unfold cut in *. split_and!; congruence.
Qed.

Lemma step_keeps_token (Hgave : ∀ e from local,
    cmd = CutoverAuthorityReceived e from local → gave σ from i e)
    (Hrecv : authority_cluster_id (cut σ' i) = Some i → phase (cut σ' i) = Transferred →
       epoch (cut σ i) < epoch (cut σ' i) →
       ∃ from local, cmd = CutoverAuthorityReceived (epoch (cut σ' i)) from local) :
  (∀ x y, owns σ' x → owns σ' y → x = y) ∧
  (∀ x r k, owns σ' x → pending σ' r k → False) ∧
  (∀ r k r' k', pending σ' r k → pending σ' r' k' → r = r' ∧ k = k') ∧
  (∀ x, owns σ' x → awaits x = None ∨ ∃ d k, gave σ' d x k ∧ k ≤ epoch (cut σ' x)).
Proof.
  fold σ' in Hstep. inversion Hstep as [Ha He Hp _|Hn Ha He Hp|Ho Ha He Hp|t Ho Ht Ha He Hp|He Ha Hp].
  - apply token_kept.
    + unfold owns. by rewrite Ha.
    + apply gives_nothing. destruct Hp; auto.
  - apply token_kept.
    + unfold owns. rewrite Ha. intros [H|[H ?]]; [by apply Hself in H|]. auto.
    + apply gives_nothing. left. by rewrite Hp.
  - apply token_kept.
    + intros _. unfold owns. naive_solver.
    + apply gives_nothing. by left.
  - destruct (token_given t Ho Ht Ha) as [Hno Hpend].
    split_and!; [| |done|]; intros; exfalso; eauto.
  - destruct (Hrecv Ha Hp He) as (from & local & Hcmd).
    pose proof (Hgave _ _ _ Hcmd) as Hg. destruct (token_taken from He Ha Hg) as [Hown Hno].
    split_and!.
    + intros x y Hx Hy. by rewrite (Hown x Hx), (Hown y Hy).
    + intros x r k _ Hpend. by apply (Hno r k).
    + intros r k r' k' Hpend. exfalso. by apply (Hno r k).
    + intros x Hx. rewrite (Hown x Hx). right. exists from, (epoch (cut σ' i)).
      split; [by apply gave_mono|lia].
Qed.
End Step.

Lemma only_receive_raises σ i cmd c' :
  legit σ i cmd → c' = (Cutover.apply_cutover (cut σ i) cmd).1 →
  authority_cluster_id c' = Some i → phase c' = Transferred → epoch (cut σ i) < epoch c' →
  ∃ from local, cmd = CutoverAuthorityReceived (epoch c') from local.
Proof.
  intros Hl -> Ha Hp He.
  destruct cmd; simpl in *; unfold Cutover.unseal, Cutover.name in *;
    repeat (case_match; simplify_eq/=); try lia; eauto.
Qed.

Lemma apply_cutover_some c cmd :
  is_Some (authority_cluster_id c) →
  is_Some (authority_cluster_id (Cutover.apply_cutover c cmd).1).
Proof.
  destruct cmd; simpl; unfold Cutover.unseal, Cutover.name; repeat (case_match; simplify_eq/=); eauto.
Qed.

Lemma apply_cutover_u64 c cmd :
  is_u64 (epoch c) → (∀ e f l, cmd = CutoverAuthorityReceived e f l → is_u64 e) →
  is_u64 (epoch (Cutover.apply_cutover c cmd).1).
Proof.
  intros Hc He. pose proof (sat_add_le_max u64_max (epoch c) 1).
  pose proof (sat_add_u64_mono (epoch c) 1 Hc ltac:(lia)).
  assert (is_u64 (sat_add_u64 (epoch c) 1)) by (unfold is_u64 in *; lia).
  destruct cmd; simpl; unfold Cutover.unseal, Cutover.name; repeat (case_match; simplify_eq/=); eauto.
Qed.

Lemma commit_invariant σ i cmd :
  token_invariant σ → legit σ i cmd → named_from_config i cmd →
  token_invariant (commit σ i cmd).
Proof.
  intros HI Hl Hn.
  assert (Hcut : cut (commit σ i cmd) i = cut σ i ∨
    cut (commit σ i cmd) i = (Cutover.apply_cutover (cut σ i) cmd).1).
  { unfold cut at 1 3. rewrite !current_commit, !bool_decide_eq_true_2 by done.
    apply cutover_of_apply. }
  assert (Hgave : ∀ e from local, cmd = CutoverAuthorityReceived e from local → gave σ from i e).
  { intros e from local ->. apply Hl. }
  assert (Hstep : record_step i (cut σ i) (cut (commit σ i cmd) i)).
  { destruct Hcut as [->| ->]; [apply record_step_refl|by apply apply_cutover_record]. }
  assert (Hnamed : cluster_id (cut (commit σ i cmd) i) = None ∨
                   cluster_id (cut (commit σ i cmd) i) = Some i).
  { pose proof (ti_named σ HI i _ (current_in σ i HI)) as H0.
    destruct Hcut as [->| ->]; [done|by apply apply_cutover_named]. }
  destruct (step_keeps_token σ i cmd HI Hstep Hgave) as (H1 & H2 & H3 & H4).
  { intros Ha Hp He. destruct Hcut as [Hc|Hc]; [rewrite Hc in He; lia|].
    by apply (only_receive_raises σ i cmd). }
  assert (Hthis : ∀ s, s = (apply (current σ i) cmd).1 → cutover s = cut (commit σ i cmd) i).
  { intros s ->. unfold cut. by rewrite current_commit, bool_decide_eq_true_2. }
  assert (Hsome : is_Some (authority_cluster_id (cut σ i)) →
                  is_Some (authority_cluster_id (cut (commit σ i cmd) i))).
  { destruct Hcut as [->| ->]; [done|apply apply_cutover_some]. }
  split; [| | | | |exact H1|exact H2|exact H3|exact H4].
  - intros j. unfold commit. case_bool_decide; [by eauto|apply (ti_some σ HI)].
  - intros j s [[-> Hs]|Hs]%elem_of_commit; [|by apply (ti_named σ HI)].
    by rewrite (Hthis s Hs).
  - intros j. destruct (decide (j = i)) as [->|Hj].
    + pose proof (ti_mid σ HI i) as Hm.
      inversion Hstep as [Ha He Hp Hmid|Hn' Ha He Hp|Ho Ha He Hp|t Ho Ht Ha He Hp|He Ha Hp].
      * unfold mid in Hmid. rewrite Ha. destruct (phase (cut (commit σ i cmd) i)); try done;
          specialize (Hmid eq_refl); by destruct (phase (cut σ i)).
      * by rewrite Hp.
      * rewrite Ha. by destruct (phase (cut (commit σ i cmd) i)).
      * by rewrite Hp.
      * by rewrite Hp.
    + rewrite cut_other by done. apply (ti_mid σ HI).
  - intros j s [[-> Hs]|Hs]%elem_of_commit; [by rewrite (Hthis s Hs)|].
    intros Hsm. pose proof (ti_keeps σ HI j s Hs Hsm).
    destruct (decide (j = i)) as [->|Hj]; [auto|by rewrite cut_other].
  - intros j s [[-> Hs]|Hs]%elem_of_commit; [|by apply (ti_level σ HI j)].
    rewrite (Hthis s Hs). pose proof (ti_level σ HI i _ (current_in σ i HI)) as Hc.
    destruct Hcut as [->| ->]; [done|]. apply apply_cutover_u64; [done|].
    intros e f l E. destruct (Hgave e f l E) as (_ & s' & Hs' & _ & _ & <-).
    by apply (ti_level σ HI f).
Qed.

Lemma start_invariant : token_invariant start.
Proof.
  assert (Hnone : ∀ i, cut start i = cutover_default) by done.
  assert (Hgave : ∀ d r k, gave start d r k → False).
  { intros d r k (_ & s & ->%list_elem_of_singleton & Hp & _). done. }
  split.
  - intros i. by exists new, [].
  - intros i s ->%list_elem_of_singleton. by left.
  - done.
  - by intros i s ->%list_elem_of_singleton [? ?].
  - intros i s ->%list_elem_of_singleton. by vm_compute.
  - intros i j [Hi|[_ Hi]] [Hj|[_ Hj]]; try (rewrite Hnone in *; discriminate).
    by rewrite (Horigin i Hi), (Horigin j Hj).
  - intros i r k _ [_ [d Hd]]. by apply Hgave in Hd.
  - intros r k r' k' [_ [d Hd]]. by apply Hgave in Hd.
  - intros i [Hi|[_ Hi]]; [rewrite Hnone in Hi; discriminate|by left].
Qed.

Lemma reachable_invariant σ : reachable σ → token_invariant σ.
Proof.
  induction 1 as [|σ σ' _ IH Hs]; [apply start_invariant|].
  destruct Hs as [i srv r t cmd Hnode Hhon Hrel Hi|i cmd Hm Hn].
  - pose proof (handler_legit σ i srv r t cmd IH Hnode Hhon Hrel Hi) as Hl.
    apply commit_invariant; [done|done|]. destruct cmd; try done. 
  - apply commit_invariant; [done| |done]. by destruct cmd.
Qed.

Lemma holds_owns σ i : token_invariant σ → holds σ i = true → owns σ i.
Proof.
  intros HI Hh. pose proof (holds_authority_some _ _ Hh) as Hs. simpl in Hs.
  unfold holds, holds_authority, cutover_authority_projection in Hh.
  destruct (_ && _); [done|].
  destruct (Cutover.holds_client_write_authority _ _) eqn:Eh; [|done].
  apply holds_authority_id in Eh as [Ea|Ea]; [|by left].
  right. split; [done|]. destruct Hs as [?|[? Hs]]; [done|congruence].
Qed.

(** C1. At most one cluster accepts client writes (U1 of [tla/cutover_authority.tla]),
    for any number of clusters with separate logs, when only one of them is configured
    to await nobody ([Horigin]) and none awaits itself: in every state reached by
    commands the handlers issue, from nodes that may lag and with handlers interleaved
    at will, where no receive request uses the break-glass
    [accept_unverified_provenance] and at most half of each request's listed donor
    nodes lie ([honest_request]), two clusters whose authority read says they hold
    write authority are the same cluster. *)
Theorem at_most_one_write_authority σ i j :
  reachable σ → holds σ i = true → holds σ j = true → i = j.
Proof.
  intros HI%reachable_invariant Hi Hj. by apply (ti_owner σ HI); apply holds_owns.
Qed.

(** Authority is earned: a cluster configured to await it holds it only if some
    other cluster's log committed AUTHORITY_TRANSFERRED to it, in an epoch its own
    log has reached; and no other cluster holds it while it does. *)
Lemma awaited_authority_was_given σ i :
  reachable σ → is_Some (awaits i) → holds σ i = true →
  ∃ d k, d ≠ i ∧ k ≤ epoch (cutover (current σ i)) ∧
    ∃ s, s ∈ σ d ∧ phase (cutover s) = Transferred ∧
      authority_cluster_id (cutover s) = Some i ∧ epoch (cutover s) = k.
Proof.
  intros HI%reachable_invariant [donor Hd] Hi.
  destruct (ti_earned σ HI i (holds_owns σ i HI Hi)) as [?|(d & k & (Hne & Hs) & Hk)]; [congruence|].
  exists d, k. auto.
Qed.

End System.

(** ** A whole handoff, from blue to green *)
Definition recipient_awaits (i : bytes) : option bytes :=
  if bool_decide (i = lit "blue") then None else Some (lit "blue").
Definition nobody_lies (addr : bytes) : bool := false.

Lemma recipient_origin i : recipient_awaits i = None → i = lit "blue".
Proof. unfold recipient_awaits. by case_bool_decide. Qed.
Lemma recipient_self i : recipient_awaits i ≠ Some i.
Proof. unfold recipient_awaits. case_bool_decide as H; [done|]. intros [= E]. by subst. Qed.

Definition pg : bytes := lit "10.0.0.4:5433".
Definition armed_up : system :=
  commit (commit (commit start (lit "blue") (SetFeatureLevel 1)) (lit "green") (SetFeatureLevel 1))
    (lit "blue") (CutoverArmed (lit "green") (lit "blue")).
Definition drained : system :=
  commit (commit (commit armed_up (lit "blue") (CutoverSealing [lit "app"]))
    (lit "blue") (CutoverSeal 100)) (lit "blue") CutoverDrainObserved.
Definition given : system :=
  commit drained (lit "blue") (CutoverTransfer (lit "green") pg false).
Definition taken : system :=
  commit given (lit "green") (CutoverAuthorityReceived 1 (lit "blue") (lit "green")).

Definition receive_green : ReceiveRequest :=
  ReceiveRequest_ 1 (lit "blue") [lit "10.0.0.1:9091"] false (lit "p") (lit "s") [].
Definition level_one : ClusterState := (apply new (SetFeatureLevel 1)).1.

Ltac next_answer r := right; exists r; eexists; split; [reflexivity|].
Ltac consistent_trace :=
  repeat (apply relies_cons_2;
          [cbn; first [exact I | apply list_elem_of_In; vm_compute; tauto | idtac]|]);
  try apply relies_nil.

Lemma drained_reachable : reachable recipient_awaits nobody_lies drained.
Proof.
  unfold drained, armed_up.
  do 3 (eapply reach_step; [|by apply other_step]).
  eapply reach_step.
  2:{ eapply (handler_step _ _ _ _ blue (Arm (lit "green"))
        [answered ReadState level_one; answered CurrentLeader (Some 1);
         answered FenceHasQuorum true; answered ReadState level_one]);
        [by split|done| |].
      - consistent_trace.
      - next_answer level_one. next_answer (Some 1). next_answer true. next_answer level_one.
        left. split; reflexivity. }
  do 2 (eapply reach_step; [|by apply other_step]). apply reach_start.
Qed.

Definition blue_drained : ClusterState := current drained (lit "blue").
Definition blue_given : ClusterState := current given (lit "blue").

Lemma given_reachable : reachable recipient_awaits nobody_lies given.
Proof.
  eapply reach_step; [apply drained_reachable|].
  eapply (handler_step _ _ _ _ blue (Transfer (lit "green") pg)
    [answered CurrentLeader (Some 1); answered FenceHasQuorum true;
     answered ReadState blue_drained]); [by split|done| |].
  - consistent_trace.
  - next_answer (Some 1). next_answer true. next_answer blue_drained. left. split; reflexivity.
Qed.

Definition blue_status : CutoverStatusResponse :=
  status_from (site recipient_awaits (lit "blue")) blue_given true.

Lemma taken_reachable : reachable recipient_awaits nobody_lies taken.
Proof.
  eapply reach_step; [apply given_reachable|].
  eapply (handler_step _ _ _ _ green (ReceiveAuthority receive_green)
    [answered (DonorStatus (lit "10.0.0.1:9091")) (Some blue_status);
     answered (DonorMembers (lit "10.0.0.1:9091")) None; answered ElapsedMs 0;
     answered (EnsureReverse (lit "p") (lit "s")) (Ok tt);
     answered (ExecuteSql SequenceValuesSql) (Ok []);
     answered CurrentLeader (Some 4); answered FenceHasQuorum true;
     answered ReadState level_one]); [by split| | |].
  - split; [done|]. vm_compute. lia.
  - consistent_trace. right. exists blue_given, true. split; [|reflexivity].
    apply list_elem_of_In. vm_compute. tauto.
  - next_answer (Some blue_status). next_answer (@None (list MemberRole)). next_answer 0.
    next_answer (@Ok SqlError () tt). next_answer (@Ok SqlError bytes []).
    next_answer (Some 4). next_answer true. next_answer level_one. left. split; reflexivity.
Qed.

(** In the middle of the handoff nobody holds it; at its end green does, and only
    green. *)
Lemma at_most_one_write_authority_witness :
  holds recipient_awaits given (lit "blue") = false ∧
  holds recipient_awaits given (lit "green") = false ∧
  holds recipient_awaits taken (lit "green") = true ∧
  (holds recipient_awaits taken (lit "blue") = true → lit "green" = lit "blue").
Proof.
  split; [by vm_compute|]. split; [by vm_compute|]. split; [by vm_compute|]. intros Hb.
  apply (at_most_one_write_authority recipient_awaits (lit "blue") recipient_origin recipient_self
    nobody_lies taken); [apply taken_reachable|by vm_compute|exact Hb].
Defined.

Lemma awaited_authority_was_given_witness :
  ∃ d k, d ≠ lit "green" ∧ k ≤ epoch (cutover (current taken (lit "green"))) ∧
    ∃ s, s ∈ taken d ∧ phase (cutover s) = Transferred ∧
      authority_cluster_id (cutover s) = Some (lit "green") ∧ epoch (cutover s) = k.
Proof.
  apply (awaited_authority_was_given recipient_awaits (lit "blue") recipient_origin recipient_self
    nobody_lies taken (lit "green")); [apply taken_reachable|by eexists|by vm_compute].
Defined.

(** ** The drain proof names no seal *)
Definition sealed_once : system :=
  commit (commit armed_up (lit "blue") (CutoverSealing [lit "app"])) (lit "blue") (CutoverSeal 16).
Definition unsealed : system := commit sealed_once (lit "blue") (CutoverAbortUnseal (lit "blue")).
Definition armed_again : system :=
  commit unsealed (lit "blue") (CutoverArmed (lit "green") (lit "blue")).
Definition sealed_twice : system :=
  commit (commit armed_again (lit "blue") (CutoverSealing [lit "app"])) (lit "blue") (CutoverSeal 256).
Definition first_seal : ClusterState := current sealed_once (lit "blue").
Definition after_abort : ClusterState := current unsealed (lit "blue").
Definition second_seal : ClusterState := current sealed_twice (lit "blue").

Lemma armed_reachable : reachable recipient_awaits nobody_lies armed_up.
Proof.
  eapply reach_step.
  2:{ eapply (handler_step _ _ _ _ blue (Arm (lit "green"))
        [answered ReadState level_one; answered CurrentLeader (Some 1);
         answered FenceHasQuorum true; answered ReadState level_one]);
        [by split|done| |].
      - consistent_trace.
      - next_answer level_one. next_answer (Some 1). next_answer true. next_answer level_one.
        left. split; reflexivity. }
  do 2 (eapply reach_step; [|by apply other_step]). apply reach_start.
Qed.

Lemma sealed_twice_reachable : reachable recipient_awaits nobody_lies sealed_twice.
Proof.
  do 2 (eapply reach_step; [|by apply other_step]).
  eapply reach_step.
  2:{ eapply (handler_step _ _ _ _ blue (Arm (lit "green"))
        [answered ReadState after_abort; answered CurrentLeader (Some 1);
         answered FenceHasQuorum true; answered ReadState after_abort]); [by split|done| |].
      - consistent_trace.
      - next_answer after_abort. next_answer (Some 1). next_answer true. next_answer after_abort.
        left. split; reflexivity. }
  eapply reach_step.
  2:{ eapply (handler_step _ _ _ _ blue AbortCutover
        [answered CurrentLeader (Some 1); answered FenceHasQuorum true;
         answered ReadState first_seal]); [by split|done| |].
      - consistent_trace.
      - next_answer (Some 1). next_answer true. next_answer first_seal. left. split; reflexivity. }
  do 2 (eapply reach_step; [|by apply other_step]). apply armed_reachable.
Qed.

Definition stale_drain : hist :=
  [answered ReadState first_seal; answered (ExecuteSql DonorRetentionSql) (Ok (lit "1|0|0|0/10|s"));
   answered CurrentLeader (Some 1); answered FenceHasQuorum true; answered ReadState second_seal].

(** The drain handler's proof is not tied to the seal it was made for:
    [CutoverDrainObserved] carries no position, so a handler that read the first
    seal, and was overtaken by an abort and a second seal while it queried the
    slots, commits DRAINING for the second seal (at 256) with slots confirmed only
    to 16. *)
Lemma drain_proof_may_be_stale :
  ∃ σ t, reachable recipient_awaits nobody_lies σ ∧
    relies (consistent recipient_awaits nobody_lies σ (lit "blue")) [] t ∧
    issues (handle blue DrainObserved) t (ClientWrite CutoverDrainObserved) ∧
    saw t (ExecuteSql DonorRetentionSql) (λ r, ∃ raw line, r = Ok raw ∧
      parse_donor_retention_line raw = Some line ∧ min_confirmed_flush_lsn line = Some 16) ∧
    phase (cutover (current (commit σ (lit "blue") CutoverDrainObserved) (lit "blue"))) = Draining ∧
    sealed_final_lsn
      (cutover (current (commit σ (lit "blue") CutoverDrainObserved) (lit "blue"))) = Some 256.
Proof.
  exists sealed_twice, stale_drain. split; [apply sealed_twice_reachable|]. split_and!.
  - unfold stale_drain. consistent_trace.
  - unfold stale_drain. next_answer first_seal.
    next_answer (@Ok SqlError bytes (lit "1|0|0|0/10|s")).
    next_answer (Some 1). next_answer true. next_answer second_seal.
    vm_compute. left. split; reflexivity.
  - exists (Ok (lit "1|0|0|0/10|s")). split.
    { apply list_elem_of_lookup. exists 1%nat. reflexivity. }
    eexists _, _. split; [reflexivity|]. split; vm_compute; reflexivity.
  - by vm_compute.
  - by vm_compute.
Qed.
