(* ===== verification/Lease.v ===== *)
(** * The leader lease, its hold-down anchor, WAL positions and the promotion watchdog

    [src/governor/lease.rs], [src/governor/wal_positions.rs],
    [src/governor/promotion_watchdog.rs] and [promotion_lease_holddown] of
    [src/governor/reconciler/follow.rs].  An [Instant] is its nanoseconds on the
    node's monotonic clock; a [Duration] is non-negative nanoseconds.  A method
    that reads the injected clock takes the reading as [now]. *)

From S2P Require Import Prelude ClusterState.

Abbreviation Instant := Z.
Abbreviation Duration := Z.

Definition ms : Z := 1000000.
Definition secs : Z := 1000 * ms.

(** [Instant::checked_sub]: [None] below the clock's own range (64-bit seconds). *)
Definition instant_min : Z := - (2 ^ 63) * secs.
Definition checked_sub (t : Instant) (d : Duration) : option Instant :=
  if instant_min <=? t - d then Some (t - d) else None.
(** [Instant::checked_duration_since] and its saturating form. *)
Definition checked_duration_since (t earlier : Instant) : option Duration :=
  if earlier <=? t then Some (t - earlier) else None.
Definition saturating_duration_since (t earlier : Instant) : Duration := Z.max 0 (t - earlier).

Definition DEFAULT_LEASE_DURATION : Duration := 2 * secs.
Definition LEASE_CHECK_INTERVAL : Duration := 100 * ms.

(** ** The lease *)
Module Lease.

Record LeaseState := LeaseState_ {
  expires_at : Instant;
  duration : Duration;
  is_leader : bool;
  failover_anchor : option Instant;
}.

Definition with_clock (now : Instant) : LeaseState :=
  LeaseState_ (default now (checked_sub now secs)) DEFAULT_LEASE_DURATION false None.

Definition with_clock_and_duration (now : Instant) (d : Duration) : LeaseState :=
  let s := with_clock now in LeaseState_ (expires_at s) d (is_leader s) (failover_anchor s).

Definition is_valid (s : LeaseState) (now : Instant) : bool := is_leader s && (now <? expires_at s).

Definition renew (s : LeaseState) (now : Instant) (quorum_ack_age : Duration) : LeaseState :=
  let anchor := default now (checked_sub now quorum_ack_age) in
  LeaseState_ (anchor + duration s) (duration s) (is_leader s) (failover_anchor s).

Definition expire (s : LeaseState) (now : Instant) : LeaseState :=
  LeaseState_ (default now (checked_sub now 1)) (duration s) (is_leader s) (failover_anchor s).

Definition update_from_raft (s : LeaseState) (now : Instant) (leads has_quorum : bool)
    (quorum_ack_age : Duration) : LeaseState :=
  let s1 := LeaseState_ (expires_at s) (duration s) leads (failover_anchor s) in
  if leads && has_quorum then renew s1 now quorum_ack_age else expire s1 now.

Definition remaining (s : LeaseState) (now : Instant) : Duration :=
  if now <? expires_at s then expires_at s - now else 0.

Definition valid_until (s : LeaseState) : Instant := expires_at s.

Definition set_failover_anchor (s : LeaseState) (at_ : option Instant) : LeaseState :=
  LeaseState_ (expires_at s) (duration s) (is_leader s) at_.

Definition promotion_anchor (s : LeaseState) (now : Instant) : LeaseState * Instant :=
  match failover_anchor s with
  | Some anchor => (s, anchor)
  | None => (set_failover_anchor s (Some now), now)
  end.

Definition spend_failover_anchor (s : LeaseState) (seen : option Instant) : LeaseState :=
  if bool_decide (failover_anchor s = seen) then set_failover_anchor s None else s.

End Lease.

(** [promotion_lease_holddown]: [None] once the deposed lease has provably expired. *)
Definition promotion_lease_holddown (failover_started_at : option Instant) (now : Instant)
    (lease : Duration) : option Duration :=
  started ← failover_started_at;
  let elapsed := default 0 (checked_duration_since now started) in
  if elapsed <? lease then Some elapsed else None.

(** ** WAL positions: soft state *)
Module Wal.

Definition POSITION_FRESHNESS : Duration := 10 * secs.
Definition WalPositions : Type := gmap NodeId (Z * Instant).

Definition record (w : WalPositions) (node : NodeId) (lsn : Z) (at_ : Instant) : WalPositions :=
  <[node := (lsn, at_)]> w.

Definition is_fresh (now : Instant) (r : Z * Instant) : bool :=
  saturating_duration_since now r.2 <? POSITION_FRESHNESS.

Definition fresh (w : WalPositions) (node : NodeId) (now : Instant) : option Z :=
  r ← w !! node; if is_fresh now r then Some r.1 else None.

(** [Iterator::max] of the fresh positions. *)
Definition max_fresh (w : WalPositions) (now : Instant) : option Z :=
  map_fold (λ _ r acc, if is_fresh now r
                       then Some (match acc with Some m => Z.max m r.1 | None => r.1 end)
                       else acc) None w.

Definition caught_up (w : WalPositions) (candidate : NodeId) (threshold : Z) (now : Instant) : bool :=
  match fresh w candidate now with
  | None => false
  | Some at_ =>
      let max := default at_ (max_fresh w now) in
      max <=? sat_add_u64 at_ threshold
  end.

End Wal.

(** ** The promotion watchdog *)
Module Watchdog.

Record LeadershipObservation := LeadershipObservation_ {
  is_raft_leader : bool;
  pg_primary : option bool;
}.
Definition not_leading : LeadershipObservation := LeadershipObservation_ false None.

Inductive WedgeVerdict := Hold | Yield.
#[global] Instance WedgeVerdict_eq_dec : EqDecision WedgeVerdict.
Proof. solve_decision. Defined.

Definition LEADER_WITHOUT_PRIMARY_YIELD_MS : Z := 60000.
Definition LEADER_YIELD_COOLDOWN_MS : Z := 15000.

Definition wedge_verdict (leader_for : option Duration) (pg_primary : option bool) (bound : Duration)
    (since_last_yield : option Duration) (cooldown : Duration) : WedgeVerdict :=
  match leader_for with
  | None => Hold
  | Some leader_for =>
      if bool_decide (pg_primary = Some true) then Hold
      else if leader_for <? bound then Hold
      else if match since_last_yield with Some since => since <? cooldown | None => false end then Hold
      else Yield
  end.

Record YieldCandidate := YieldCandidate_ { cand_id : NodeId; cand_lsn : Z; acceptable : bool }.

(** The key [(Reverse(lsn), node_id)], compared lexicographically. *)
Definition better (a b : YieldCandidate) : bool :=
  (cand_lsn b <? cand_lsn a) || ((cand_lsn a =? cand_lsn b) && (cand_id a <? cand_id b)).

(** [min_by_key] keeps the first of equal keys. *)
Fixpoint min_by_key (best : YieldCandidate) (l : list YieldCandidate) : YieldCandidate :=
  match l with
  | [] => best
  | c :: rest => min_by_key (if better c best then c else best) rest
  end.

Definition choose_yield_target (candidates : list YieldCandidate) : option NodeId :=
  match filter (λ c, acceptable c = true) candidates with
  | [] => None
  | c :: rest => Some (cand_id (min_by_key c rest))
  end.

Record PromotionWatchdog := PromotionWatchdog_ {
  leader_since : option Instant;
  last_yield : option Instant;
}.
Definition watchdog_default : PromotionWatchdog := PromotionWatchdog_ None None.

Definition observe (w : PromotionWatchdog) (obs : LeadershipObservation) (now : Instant)
    : PromotionWatchdog * WedgeVerdict :=
  if negb (is_raft_leader obs) then (PromotionWatchdog_ None (last_yield w), Hold)
  else
    let since := default now (leader_since w) in
    let verdict :=
      wedge_verdict (Some (saturating_duration_since now since)) (pg_primary obs)
        (LEADER_WITHOUT_PRIMARY_YIELD_MS * ms)
        ((λ last, saturating_duration_since now last) <$> last_yield w)
        (LEADER_YIELD_COOLDOWN_MS * ms) in
    (PromotionWatchdog_ (Some since)
       (if bool_decide (verdict = Yield) then Some now else last_yield w), verdict).

Definition leader_for (w : PromotionWatchdog) (now : Instant) : option Duration :=
  (λ since, saturating_duration_since now since) <$> leader_since w.

End Watchdog.
