(* ===== verification/LeaseProofs.v ===== *)
(** * Lease, hold-down and watchdog: the timing guarantees

    The lease is refined by "one duration from the last quorum contact"; with the
    hold-down this separates a deposed leader from its successor.  Then who may
    lead next, and when a leader without a primary gives up leadership. *)

From S2P Require Import Prelude ClusterState Lease.

(** ** The lease over a run of updates *)
Record Update := Update_ { u_at : Instant; u_leads : bool; u_quorum : bool; u_ack_age : Duration }.

Definition update (s : Lease.LeaseState) (u : Update) : Lease.LeaseState :=
  Lease.update_from_raft s (u_at u) (u_leads u) (u_quorum u) (u_ack_age u).
Definition run_updates (s : Lease.LeaseState) (us : list Update) : Lease.LeaseState :=
  foldl update s us.

(** The instant of the quorum contact an update reports. *)
Definition contact (u : Update) : Instant := u_at u - u_ack_age u.

(** Readings a real clock gives: ages are not negative and do not reach below it. *)
Definition sane (u : Update) : Prop := 0 ≤ u_ack_age u ∧ instant_min ≤ contact u.

(** The abstract lease: nothing but the last update counts. *)
Definition authority (d : Duration) (us : list Update) (now : Instant) : bool :=
  match last us with
  | Some u => u_leads u && u_quorum u && (now <? contact u + d)
  | None => false
  end.

Lemma update_duration s u : Lease.duration (update s u) = Lease.duration s.
Proof. unfold update, Lease.update_from_raft. by destruct (_ && _). Qed.

Lemma run_updates_duration s us : Lease.duration (run_updates s us) = Lease.duration s.
Proof.
  unfold run_updates. revert s; induction us as [|u us IH]; intros s; simpl; [done|].
  by rewrite IH, update_duration.
Qed.

Lemma update_valid s u now :
  sane u → u_at u ≤ now →
  Lease.is_valid (update s u) now =
    u_leads u && u_quorum u && (now <? contact u + Lease.duration s).
Proof.
  intros [Hage Hmin] Hnow. unfold update, Lease.update_from_raft, Lease.is_valid.
  destruct (u_leads u), (u_quorum u); simpl; try done.
  - unfold Lease.renew, checked_sub; simpl. unfold contact in *.
    destruct (Z.leb_spec instant_min (u_at u - u_ack_age u)); simpl; [done|lia].
  - unfold checked_sub. destruct (Z.leb_spec instant_min (u_at u - 1)); simpl; [lia|].
    (* below the clock's range the fallback is [now] itself *) lia.
Qed.

(** The lease is exactly "one duration from the last quorum contact": after any
    run of governor updates, it is valid at a later reading precisely when the last
    update saw leadership with quorum and the reading is less than one lease
    duration after the quorum contact that update reported, however late the update
    itself was processed. *)
Lemma lease_is_one_duration_from_quorum_contact d start us now :
  Forall sane us → Forall (λ u, u_at u ≤ now) us →
  Lease.is_valid (run_updates (Lease.with_clock_and_duration start d) us) now =
    authority d us now.
Proof.
  intros Hs Hnow. destruct us as [|u us _] using rev_ind; [done|].
  apply Forall_app in Hs as [_ Hs]. apply Forall_app in Hnow as [_ Hn].
  rewrite Forall_singleton in Hs, Hn. unfold authority, run_updates. rewrite foldl_app, last_snoc.
  simpl. rewrite update_valid by done. f_equal. fold (run_updates (Lease.with_clock_and_duration start d) us).
  by rewrite run_updates_duration.
Qed.

Definition led_then_stalled : list Update :=
  [Update_ (10 * secs) true true 0; Update_ (11 * secs) true true (900 * ms)].

Lemma lease_is_one_duration_from_quorum_contact_witness :
  Lease.is_valid (run_updates (Lease.with_clock_and_duration 0 DEFAULT_LEASE_DURATION)
    led_then_stalled) (12 * secs + 99 * ms) = true ∧
  Lease.is_valid (run_updates (Lease.with_clock_and_duration 0 DEFAULT_LEASE_DURATION)
    led_then_stalled) (12 * secs + 100 * ms) = false.
Proof.
  split; rewrite lease_is_one_duration_from_quorum_contact;
    first [reflexivity
          | repeat constructor; unfold sane, contact; vm_compute; split; congruence
          | repeat constructor; vm_compute; congruence].
Defined.

(** ** A deposed leader and its successor *)
Lemma holddown_passed anchor now d :
  0 < d → promotion_lease_holddown (Some anchor) now d = None → anchor + d ≤ now.
Proof.
  unfold promotion_lease_holddown, checked_duration_since. simpl.
  destruct (Z.leb_spec anchor now); simpl; [|destruct (Z.ltb_spec 0 d); [done|lia]].
  destruct (Z.ltb_spec (now - anchor) d); [done|lia].
Qed.

(** C24. The hold-down outlasts the deposed lease: let [deposed_clock] and
    [winner_clock] be the offsets of two nodes' clocks from a common time.  If every
    quorum contact the deposed leader ever counted happened no later than [skew]
    after the instant the winner's hold-down is anchored at (Raft: a majority had
    moved past the deposed term), then by the time the winner's hold-down lets it
    promote, the deposed lease is over, up to [skew]; with no skew they never
    overlap. *)
Theorem holddown_outlasts_the_deposed_lease deposed_clock winner_clock skew
    start us anchor promoted t :
  Forall sane us → Forall (λ u, u_at u ≤ t + deposed_clock) us →
  Forall (λ u, contact u - deposed_clock ≤ anchor - winner_clock + skew) us →
  Lease.is_valid
    (run_updates (Lease.with_clock_and_duration start DEFAULT_LEASE_DURATION) us)
    (t + deposed_clock) = true →
  promotion_lease_holddown (Some anchor) (promoted + winner_clock) DEFAULT_LEASE_DURATION = None →
  t < promoted + skew.
Proof.
  intros Hs Hnow Hraft Hvalid Hheld.
  apply holddown_passed in Hheld; [|by vm_compute].
  destruct us as [|u us _] using rev_ind; [done|].
  unfold run_updates in Hvalid. rewrite foldl_app in Hvalid. simpl in Hvalid.
  apply Forall_app in Hs as [_ Hs]. apply Forall_app in Hnow as [_ Hn].
  apply Forall_app in Hraft as [_ Hr]. rewrite Forall_singleton in Hs, Hn, Hr.
  rewrite update_valid in Hvalid by done. fold (run_updates
    (Lease.with_clock_and_duration start DEFAULT_LEASE_DURATION) us) in Hvalid.
  rewrite run_updates_duration in Hvalid. cbn [Lease.duration Lease.with_clock_and_duration] in Hvalid.
  rewrite !andb_true_iff, Z.ltb_lt in Hvalid. lia.
Qed.

(** The deposed leader last heard its quorum at 11 s; the winner, whose clock is 5 s
    behind, anchors at the same moment and promotes two seconds later. *)
Lemma holddown_outlasts_the_deposed_lease_witness :
  Lease.is_valid (run_updates (Lease.with_clock_and_duration 0 DEFAULT_LEASE_DURATION)
    [Update_ (11 * secs) true true 0]) (12 * secs + 0) = true ∧
  12 * secs < 13 * secs + 0.
Proof.
  assert (Lease.is_valid (run_updates (Lease.with_clock_and_duration 0 DEFAULT_LEASE_DURATION)
    [Update_ (11 * secs) true true 0]) (12 * secs + 0) = true) as Hv by reflexivity.
  split; [exact Hv|].
  apply (holddown_outlasts_the_deposed_lease 0 (- 5 * secs) 0 0
    [Update_ (11 * secs) true true 0] (6 * secs) (13 * secs) (12 * secs));
    [| | |exact Hv|by vm_compute]; repeat constructor; vm_compute; congruence.
Defined.

(** ** Who holds enough WAL, and who is asked to lead *)
Section MaxFresh.
Context (now : Instant).

Lemma max_fresh_spec w :
  (∀ n r, w !! n = Some r → Wal.is_fresh now r = true →
     ∃ m, Wal.max_fresh w now = Some m ∧ r.1 ≤ m) ∧
  (∀ m, Wal.max_fresh w now = Some m →
     ∃ n r, w !! n = Some r ∧ Wal.is_fresh now r = true ∧ r.1 = m).
Proof.
  unfold Wal.max_fresh.
  apply (map_fold_weak_ind (λ acc w,
    (∀ n r, w !! n = Some r → Wal.is_fresh now r = true → ∃ m, acc = Some m ∧ r.1 ≤ m) ∧
    (∀ m, acc = Some m → ∃ n r, w !! n = Some r ∧ Wal.is_fresh now r = true ∧ r.1 = m))).
  { split; [intros n r Hn; by rewrite lookup_empty in Hn|done]. }
  intros i x w' acc Hi [IHle IHin]. split.
  - intros n r [[-> ->]|[Hne Hn]]%lookup_insert_Some Hf.
    + rewrite Hf. eexists. split; [done|]. destruct acc; lia.
    + destruct (IHle n r Hn Hf) as (m & -> & Hle). destruct (Wal.is_fresh now x); eauto with lia.
  - intros m Hm. destruct (Wal.is_fresh now x) eqn:Ex.
    + simplify_eq/=. destruct acc as [a|].
      * destruct (Z.max_spec a x.1) as [[_ ->]|[_ ->]].
        -- exists i, x. by rewrite lookup_insert_eq.
        -- destruct (IHin a eq_refl) as (n & r & Hn & Hf & Hr). exists n, r.
           rewrite lookup_insert_ne by congruence. done.
      * exists i, x. by rewrite lookup_insert_eq.
    + destruct (IHin m Hm) as (n & r & Hn & Hf & Hr). exists n, r.
      rewrite lookup_insert_ne by congruence. done.
Qed.
End MaxFresh.

(** [caught_up] says what it means: a node counts as caught up exactly when it
    reported within the freshness window and no fresh report of any member is more
    than [threshold] bytes ahead of it (positions being [u64]); a node with no
    fresh report never does. *)
Lemma caught_up_iff_within_threshold_of_every_fresh_report w candidate threshold now :
  0 ≤ threshold → map_Forall (λ _ r, is_u64 r.1) w →
  Wal.caught_up w candidate threshold now = true ↔
  ∃ r, w !! candidate = Some r ∧ Wal.is_fresh now r = true ∧
    ∀ n r', w !! n = Some r' → Wal.is_fresh now r' = true → r'.1 ≤ r.1 + threshold.
Proof.
  intros Ht Hu. destruct (max_fresh_spec now w) as [Hle Hin].
  unfold Wal.caught_up, Wal.fresh. destruct (w !! candidate) as [r|] eqn:Hr; simpl.
  2:{ split; [done|]. by intros (r & ? & _). }
  destruct (Wal.is_fresh now r) eqn:Hf.
  2:{ split; [done|]. intros (r' & [= <-] & ? & _). congruence. }
  destruct (Hle candidate r Hr Hf) as (m & Em & Hrm). rewrite Em. simpl.
  destruct (Hin m Em) as (nm & rm & Hnm & Hfm & <-).
  pose proof (Hu _ _ Hnm) as Hum. simpl in Hum. unfold is_u64 in Hum. unfold sat_add. rewrite Z.leb_le.
  split.
  - intros Hm. exists r. split_and!; [done|done|]. intros n r' Hn Hf'.
    destruct (Hle n r' Hn Hf') as (m' & E & ?). rewrite Em in E. simplify_eq. lia.
  - intros (r' & [= <-] & _ & Hall). pose proof (Hall _ _ Hnm Hfm). lia.
Qed.

Lemma caught_up_iff_within_threshold_of_every_fresh_report_witness :
  Wal.caught_up {[ 1 := (1000, 0); 2 := (400, 1); 3 := (900000, - 20 * secs) ]} 2 600 (5 * secs)
    = true.
Proof.
  apply caught_up_iff_within_threshold_of_every_fresh_report; [lia| |].
  - intros n r Hr. apply lookup_insert_Some in Hr as [[_ <-]|[_ Hr]]; [by vm_compute|].
    apply lookup_insert_Some in Hr as [[_ <-]|[_ Hr]]; [by vm_compute|].
    apply lookup_singleton_Some in Hr as [_ <-]. by vm_compute.
  - exists (400, 1). split; [reflexivity|]. split; [reflexivity|]. intros n r Hr.
    apply lookup_insert_Some in Hr as [[_ <-]|[_ Hr]]; [simpl; lia|].
    apply lookup_insert_Some in Hr as [[_ <-]|[_ Hr]]; [simpl; lia|].
    apply lookup_singleton_Some in Hr as [_ <-]. by vm_compute.
Defined.

Lemma better_trans a b c : Watchdog.better a b = false → Watchdog.better b c = false →
  Watchdog.better a c = false.
Proof. unfold Watchdog.better. lia. Qed.

Lemma better_asym a b : Watchdog.better a b = true → Watchdog.better b a = false.
Proof. unfold Watchdog.better. lia. Qed.

Lemma better_irrefl a : Watchdog.better a a = false.
Proof. unfold Watchdog.better. lia. Qed.

Lemma min_by_key_spec best l :
  Watchdog.min_by_key best l ∈ best :: l ∧
  ∀ c, c ∈ best :: l → Watchdog.better c (Watchdog.min_by_key best l) = false.
Proof.
  revert best; induction l as [|x l IH]; intros best; simpl.
  - split; [by left|]. intros c ->%list_elem_of_singleton. apply better_irrefl.
  - destruct (Watchdog.better x best) eqn:E.
    + destruct (IH x) as [Hin Hmin]. split; [set_solver|]. intros c [->|Hc]%elem_of_cons; [|by apply Hmin].
      eapply better_trans; [by apply better_asym|]. apply Hmin. by left.
    + destruct (IH best) as [Hin Hmin]. split; [set_solver|].
      intros c [->|[->|Hc]%elem_of_cons]%elem_of_cons.
      * apply Hmin. by left.
      * eapply better_trans; [exact E|]. apply Hmin. by left.
      * apply Hmin. by right.
Qed.

(** A yield asks the best peer: [choose_yield_target] answers exactly when some
    candidate is acceptable, with an acceptable candidate such that no acceptable
    one holds more WAL, and none with the same WAL has a lower node id. *)
Lemma yield_target_is_the_furthest_acceptable candidates :
  match Watchdog.choose_yield_target candidates with
  | None => ∀ c, c ∈ candidates → Watchdog.acceptable c = false
  | Some n => ∃ best, best ∈ candidates ∧ Watchdog.acceptable best = true ∧
      Watchdog.cand_id best = n ∧
      ∀ c, c ∈ candidates → Watchdog.acceptable c = true →
        Watchdog.cand_lsn c < Watchdog.cand_lsn best ∨
        (Watchdog.cand_lsn c = Watchdog.cand_lsn best ∧ n ≤ Watchdog.cand_id c)
  end.
Proof.
  unfold Watchdog.choose_yield_target.
  destruct (filter _ candidates) as [|c0 rest] eqn:Ef.
  - intros c Hc. destruct (Watchdog.acceptable c) eqn:Ea; [|done].
    assert (c ∈ filter (λ c, Watchdog.acceptable c = true) candidates) as Hin
      by (by apply list_elem_of_filter).
    rewrite Ef in Hin. inversion Hin.
  - destruct (min_by_key_spec c0 rest) as [Hin Hmin]. rewrite <-Ef in Hin, Hmin.
    apply list_elem_of_filter in Hin as [Ha Hc]. eexists. split_and!; [exact Hc|exact Ha|done|].
    intros c Hcc Hac. assert (Hb := Hmin c ltac:(by apply list_elem_of_filter)).
    unfold Watchdog.better in Hb. lia.
Qed.

(** ** The watchdog over a run of passes *)
Definition pass : Type := Watchdog.LeadershipObservation * Instant.
Definition watch (w : Watchdog.PromotionWatchdog) (h : list pass) : Watchdog.PromotionWatchdog :=
  foldl (λ w p, (Watchdog.observe w p.1 p.2).1) w h.
Definition leading (p : pass) : Prop := Watchdog.is_raft_leader p.1 = true.

Definition nondecreasing (h : list pass) : Prop := StronglySorted Z.le (h.*2).

(** [leader_since] is the first pass of the current unbroken tenure. *)
Lemma watch_leader_since h since :
  Watchdog.leader_since (watch Watchdog.watchdog_default h) = Some since →
  ∃ pre p mid, h = pre ++ p :: mid ∧ p.2 = since ∧ Forall leading (p :: mid).
Proof.
  revert since; induction h as [|[o t] h IH] using rev_ind; intros since; [done|].
  unfold watch. rewrite foldl_app. simpl. fold (watch Watchdog.watchdog_default h).
  unfold Watchdog.observe. destruct (Watchdog.is_raft_leader o) eqn:Eo; simpl; [|done].
  intros [= <-]. destruct (Watchdog.leader_since (watch Watchdog.watchdog_default h)) as [s|]; simpl.
  - destruct (IH s eq_refl) as (pre & p & mid & -> & <- & HF). exists pre, p, (mid ++ [(o, t)]).
    rewrite <-app_assoc. split; [done|]. split; [done|].
    apply Forall_cons in HF as [??]. apply Forall_cons. split; [done|].
    apply Forall_app. split; [done|]. by apply Forall_singleton.
  - exists h, (o, t), []. split_and!; [done|done|]. by apply Forall_singleton.
Qed.

(** The times at which the run yielded. *)
Fixpoint yields (w : Watchdog.PromotionWatchdog) (h : list pass) : list Instant :=
  match h with
  | [] => []
  | p :: rest =>
      let '(w', v) := Watchdog.observe w p.1 p.2 in
      (if bool_decide (v = Watchdog.Yield) then [p.2] else []) ++ yields w' rest
  end.

Lemma yields_snoc w h p :
  yields w (h ++ [p]) = yields w h ++
    (if bool_decide ((Watchdog.observe (watch w h) p.1 p.2).2 = Watchdog.Yield) then [p.2] else []).
Proof.
  revert w; induction h as [|q h IH]; intros w; simpl.
  - destruct (Watchdog.observe w p.1 p.2). simpl. by rewrite app_nil_r.
  - change (watch w (q :: h)) with (watch (Watchdog.observe w q.1 q.2).1 h).
    destruct (Watchdog.observe w q.1 q.2) as [w' v]. by rewrite IH, app_assoc.
Qed.

Lemma watch_snoc w h p : watch w (h ++ [p]) = (Watchdog.observe (watch w h) p.1 p.2).1.
Proof. unfold watch. by rewrite foldl_app. Qed.

(** [last_yield] is the last of them. *)
Lemma watch_last_yield h :
  Watchdog.last_yield (watch Watchdog.watchdog_default h) = last (yields Watchdog.watchdog_default h).
Proof.
  induction h as [|[o t] h IH] using rev_ind; [done|].
  rewrite watch_snoc, yields_snoc. simpl. unfold Watchdog.observe.
  destruct (Watchdog.is_raft_leader o); simpl; [|by rewrite app_nil_r].
  case_bool_decide; [by rewrite last_snoc|by rewrite app_nil_r].
Qed.

Lemma yields_times h y : y ∈ yields Watchdog.watchdog_default h → y ∈ h.*2.
Proof.
  generalize Watchdog.watchdog_default. induction h as [|p h IH]; intros w; simpl; [done|].
  destruct (Watchdog.observe w p.1 p.2) as [w' v]. intros [Hy|Hy]%elem_of_app.
  - case_bool_decide; [|by inversion Hy]. apply list_elem_of_singleton in Hy as ->. by left.
  - right. by eapply IH.
Qed.

Lemma yields_sorted h :
  nondecreasing h → StronglySorted Z.le (yields Watchdog.watchdog_default h).
Proof.
  unfold nondecreasing. induction h as [|p h IH] using rev_ind; intros Hs; [constructor|].
  rewrite fmap_app in Hs. apply StronglySorted_app in Hs as (Hall & Hh & _).
  rewrite yields_snoc. apply StronglySorted_app. split_and!; [|by apply IH|].
  - intros a b Ha Hb. case_bool_decide; [|by inversion Hb].
    apply list_elem_of_singleton in Hb as ->. apply Hall; [by apply yields_times|]. simpl. by left.
  - case_bool_decide; [|constructor]. repeat constructor.
Qed.

(** Leadership is given up only by a leader that cannot serve, and not in a
    storm: in any run of passes on a clock that does not go back, a pass that
    yields leads, sees no primary, ends an unbroken tenure of at least
    [LEADER_WITHOUT_PRIMARY_YIELD_MS], and comes at least
    [LEADER_YIELD_COOLDOWN_MS] after every earlier yield. *)
Lemma yields_only_from_a_long_unserving_tenure h o t :
  nondecreasing (h ++ [(o, t)]) →
  (Watchdog.observe (watch Watchdog.watchdog_default h) o t).2 = Watchdog.Yield →
  Watchdog.is_raft_leader o = true ∧ Watchdog.pg_primary o ≠ Some true ∧
  (∃ pre p mid, h ++ [(o, t)] = pre ++ p :: mid ∧ Forall leading (p :: mid) ∧
     Watchdog.LEADER_WITHOUT_PRIMARY_YIELD_MS * ms ≤ t - p.2) ∧
  ∀ y, y ∈ yields Watchdog.watchdog_default h → Watchdog.LEADER_YIELD_COOLDOWN_MS * ms ≤ t - y.
Proof.
  intros Hmono Hy.
  pose proof (watch_leader_since (h ++ [(o, t)])) as Hsince. rewrite watch_snoc in Hsince.
  pose proof (watch_last_yield h) as Hlast.
  unfold Watchdog.observe in *. destruct (Watchdog.is_raft_leader o) eqn:Eo; simpl in *; [|done].
  rewrite Eo in Hsince. cbn in Hsince. unfold Watchdog.wedge_verdict in Hy.
  destruct (decide (Watchdog.pg_primary o = Some true)) as [Hp|Hp];
    [rewrite bool_decide_eq_true_2 in Hy by done; done|
     rewrite (bool_decide_eq_false_2 (Watchdog.pg_primary o = Some true)) in Hy by done].
  destruct (Z.ltb_spec (saturating_duration_since t (default t (Watchdog.leader_since
    (watch Watchdog.watchdog_default h)))) (Watchdog.LEADER_WITHOUT_PRIMARY_YIELD_MS * ms))
    as [|Hlong]; [done|].
  split; [done|]. split; [done|]. split.
  - destruct (Hsince _ eq_refl) as (pre & p & mid & E & Ep & HF). exists pre, p, mid.
    split_and!; [done|done|]. rewrite <-Ep in Hlong. unfold saturating_duration_since in Hlong.
    unfold Watchdog.LEADER_WITHOUT_PRIMARY_YIELD_MS, ms in *. lia.
  - intros y Hin.
    assert (StronglySorted Z.le (yields Watchdog.watchdog_default h)) as Hsorted.
    { apply yields_sorted. unfold nondecreasing in *. rewrite fmap_app in Hmono.
      by apply StronglySorted_app in Hmono as (_ & ? & _). }
    rewrite Hlast in Hy.
    destruct (yields Watchdog.watchdog_default h) as [|l ys _] using rev_ind; [by inversion Hin|].
    rewrite last_snoc in Hy. simpl in Hy.
    destruct (Z.ltb_spec (saturating_duration_since t l) (Watchdog.LEADER_YIELD_COOLDOWN_MS * ms))
      as [|Hcool]; [done|].
    assert (y ≤ l).
    { apply StronglySorted_app in Hsorted as (Hall & _). apply elem_of_app in Hin as [Hin|Hin].
      - apply Hall; [done|by left].
      - apply list_elem_of_singleton in Hin as ->. lia. }
    unfold saturating_duration_since, Watchdog.LEADER_YIELD_COOLDOWN_MS, ms in *. lia.
Qed.

Definition wedged : Watchdog.LeadershipObservation := Watchdog.LeadershipObservation_ true None.

Lemma yields_only_from_a_long_unserving_tenure_witness :
  (Watchdog.observe (watch Watchdog.watchdog_default [(wedged, 5 * secs)]) wedged (70 * secs)).2
    = Watchdog.Yield ∧
  Watchdog.pg_primary wedged ≠ Some true.
Proof.
  assert ((Watchdog.observe (watch Watchdog.watchdog_default [(wedged, 5 * secs)]) wedged
    (70 * secs)).2 = Watchdog.Yield) as Hy by reflexivity.
  split; [exact Hy|].
  apply (yields_only_from_a_long_unserving_tenure [(wedged, 5 * secs)] wedged (70 * secs));
    [|exact Hy].
  repeat constructor; vm_compute; congruence.
Defined.
