(* ===== verification/Fence.v ===== *)
(** * The lease fence and the SQL session it closes writes through

    [src/governor/fence.rs] over the [PgFence] seam of
    [src/governor/pg_control.rs], and the write-path part of
    [crates/pgbattery-supervisor/src/session.rs] that implements the seam.
    A [timeout] is an answer of its own; log lines and metrics are left out. *)

From S2P Require Import Prelude Effects Text ClusterState Lease.
From Stdlib Require Import Strings.Byte.

(** The variants of [pgbattery_core::Error] the fence and the reconciler tell
    apart; the rest are [Other]. *)
Inductive PgError := Postgres | PostgresNotReady | PostgresRefusedToOpen | Other.
#[global] Instance PgError_eq_dec : EqDecision PgError.
Proof. solve_decision. Defined.

(** ** The session *)
Module Session.

Definition CANNOT_CONNECT_NOW : bytes := lit "57P03".

Definition server_answered (sqlstate : option bytes) : bool :=
  match sqlstate with Some code => bool_decide (code ≠ CANNOT_CONNECT_NOW) | None => false end.

(** [classify]: the driver error's SQLSTATE decides. *)
Definition classify (sqlstate : option bytes) : PgError :=
  match sqlstate with
  | None => PostgresNotReady
  | Some code => if server_answered (Some code) then Postgres else PostgresNotReady
  end.

(** Rows in the shape every caller parses. *)
Fixpoint join_fields (fields : list (option bytes)) : bytes :=
  match fields with
  | [] => []
  | [f] => default [] f
  | f :: rest => default [] f ++ ["|"%byte] ++ join_fields rest
  end.
Fixpoint render (rows : list (list (option bytes))) : bytes :=
  match rows with
  | [] => []
  | [r] => join_fields r
  | r :: rest => join_fields r ++ ["010"%byte] ++ render rest
  end.

Record ReadOnlyGuc := ReadOnlyGuc_ { live : bool; on_reload : bool }.
Definition settled (g : ReadOnlyGuc) (read_only : bool) : bool :=
  Bool.eqb (live g) read_only && Bool.eqb (on_reload g) read_only.

Record PgWriteState := PgWriteState_ {
  in_recovery : bool;
  read_only : ReadOnlyGuc;
  sync_list_empty : bool;
  sync_standbys : Z;
}.

Definition client_writable (s : PgWriteState) : bool :=
  negb (in_recovery s) && negb (settled (read_only s) true).

Definition word (yes no : bytes) (text : bytes) : result PgError bool :=
  if bool_decide (text = yes) then Ok true
  else if bool_decide (text = no) then Ok false
  else Err Postgres.

Definition parse_read_only_guc (live on_reload : bytes) : result PgError ReadOnlyGuc :=
  let! l := word (lit "on") (lit "off") (trim live) in
  let! r := word (lit "true") (lit "false") (trim on_reload) in
  Ok (ReadOnlyGuc_ l r).

Definition parse_role_readonly (raw : bytes) : result PgError PgWriteState :=
  match split_on ","%byte (trim raw) with
  | [recovery; readonly; on_reload; sync_list; sync_count] =>
      let! in_recovery := word (lit "true") (lit "false") (trim recovery) in
      let! sync_list_empty := word (lit "empty") (lit "set") (trim sync_list) in
      let! sync_standbys := ok_or (parse_u64 (trim sync_count)) Postgres in
      let! guc := parse_read_only_guc readonly on_reload in
      Ok (PgWriteState_ in_recovery guc sync_list_empty sync_standbys)
  | _ => Err Postgres
  end.

(** What the session sends and waits on; a query past its budget is an error. *)
Inductive Req :=
| RecoverySql                       (* SELECT pg_is_in_recovery() *)
| ReadOnlyGucSql
| ReadOnlyStatusSql
| RoleReadOnlySql
| AlterSystemSql                    (* ALTER SYSTEM SET default_transaction_read_only *)
    (value : bytes)
| ReloadConfSql                     (* SELECT pg_reload_conf() *)
| Now
| SleepPoll.                        (* sleep(READONLY_RELOAD_POLL) *)
Definition Answer (q : Req) : Type :=
  match q with
  | Now => Instant
  | SleepPoll => ()
  | _ => result PgError bytes
  end.
Abbreviation io := (prog Answer).
Abbreviation ask := (@Effects.ask Req Answer).

Definition READONLY_RELOAD_SETTLE : Duration := 300 * ms.
Definition READONLY_RELOAD_POLL : Duration := 25 * ms.

Definition is_in_recovery : io (result PgError bool) :=
  let* r := ask RecoverySql in
  Ret (match r with Ok raw => Ok (bool_decide (trim raw = lit "t")) | Err e => Err e end).

Definition read_only_guc : io (result PgError ReadOnlyGuc) :=
  let* r := ask ReadOnlyGucSql in
  Ret (let! raw := r in
       match split_once ","%byte (trim raw) with
       | Some (live, on_reload) => parse_read_only_guc live on_reload
       | None => Err Postgres
       end).

Definition query_readonly_status : io (result PgError bool) :=
  let* r := ask ReadOnlyStatusSql in
  Ret (match r with Ok raw => Ok (eq_ignore_ascii_case (trim raw) (lit "on")) | Err e => Err e end).

Definition alter_system (value : bytes) : io (result PgError ()) :=
  let? _ := ask (AlterSystemSql value) in
  let* r := ask ReloadConfSql in
  Ret (match r with Ok _ => Ok tt | Err e => Err e end).

(** The settle loop; [None] is a loop out of rounds. *)
Fixpoint await_readonly (rounds : nat) (deadline : Instant) (readonly actual : bool)
    : io (option (result PgError bool)) :=
  if Bool.eqb actual readonly then Ret (Some (Ok actual))
  else
    match rounds with
    | O => Ret None
    | S n =>
        let* now := ask Now in
        if deadline <=? now then Ret (Some (Ok actual))
        else
          ask SleepPoll ;;
          let* again := query_readonly_status in
          match again with
          | Err e => Ret (Some (Err e))
          | Ok actual' => await_readonly n deadline readonly actual'
          end
    end.

(** Enough rounds for a clock that advances by the poll each round. *)
Definition SETTLE_ROUNDS : nat := 13.

Definition write_readonly_guc (readonly : bool) : io (option (result PgError ())) :=
  let* guc := read_only_guc in
  if match guc with Ok g => settled g readonly | Err _ => false end then Ret (Some (Ok tt))
  else
    let* altered := alter_system (if readonly then lit "on" else lit "off") in
    match altered with
    | Err e => Ret (Some (Err e))
    | Ok _ =>
        let* start := ask Now in
        let* actual := query_readonly_status in
        match actual with
        | Err e => Ret (Some (Err e))
        | Ok actual =>
            let* final := await_readonly SETTLE_ROUNDS (start + READONLY_RELOAD_SETTLE) readonly actual in
            Ret (match final with
                 | None => None
                 | Some (Err e) => Some (Err e)
                 | Some (Ok actual) =>
                     if Bool.eqb actual readonly then Some (Ok tt) else Some (Err Postgres)
                 end)
        end
    end.

Definition set_readonly (readonly : bool) : io (option (result PgError ())) :=
  let* recovery := is_in_recovery in
  match recovery with
  | Err e => Ret (Some (Err e))
  | Ok true => Ret (Some (Ok tt))
  | Ok false => write_readonly_guc readonly
  end.

Definition probe_role_and_readonly : io (result PgError PgWriteState) :=
  let* r := ask RoleReadOnlySql in
  Ret (let! raw := r in parse_role_readonly raw).

End Session.

(** ** The fence *)
Module Fence.

Inductive FenceAction := Close | TerminateBypassers | FNone.

Definition FENCE_FAILURE_SHUTDOWN_THRESHOLD : Z := 5.

Definition action (lease_valid writable : bool) (in_recovery : option bool) : FenceAction :=
  if lease_valid then FNone
  else if writable then Close
  else if bool_decide (in_recovery = Some false) then TerminateBypassers
  else FNone.

(** The seam: each call under [TICK_SQL_BUDGET], [None] when it is exceeded. *)
Inductive Req :=
| Probe
| ReadLease                                     (* is_valid, is_leader *)
| CloseWrites
| TerminateBackends
| Shutdown                                      (* shutdown_tx.send(true) *)
| Trace (writable : option bool) (lease_valid lease_leader : bool).
Definition Answer (q : Req) : Type :=
  match q with
  | Probe => option (result PgError Session.PgWriteState)
  | ReadLease => bool * bool
  | CloseWrites => option (result PgError ())
  | TerminateBackends => option (result PgError bytes)
  | Shutdown | Trace _ _ _ => ()
  end.
Abbreviation io := (prog Answer).
Abbreviation ask := (@Effects.ask Req Answer).

Definition probe : io (option bool * option bool) :=
  let* r := ask Probe in
  Ret (match r with
       | Some (Ok state) => (Some (Session.in_recovery state), Some (Session.client_writable state))
       | Some (Err PostgresNotReady) => (None, Some false)
       | Some (Err _) | None => (None, None)
       end).

Definition failure_is_split_brain_risk (e : PgError) : bool :=
  bool_decide (e ≠ PostgresNotReady).

Inductive Closed := Fenced | Failed (stop : bool).

Definition close (failures : Z) : io (Z * Closed) :=
  let* result := ask CloseWrites in
  match result with
  | Some (Ok _) => let* _ := ask TerminateBackends in Ret (0, Fenced)
  | Some (Err PostgresNotReady) => Ret (failures, Fenced)
  | _ =>
      let failures := sat_add_u32 failures 1 in
      let stop := FENCE_FAILURE_SHUTDOWN_THRESHOLD <=? failures in
      if stop then let* _ := ask Shutdown in Ret (failures, Failed stop)
      else Ret (failures, Failed stop)
  end.

(** The traced write state: [SpecEvent::Writes]. *)
Definition Writes : Type := option bool * bool * bool.

Record TickState := TickState_ { failures : Z; traced : option Writes }.

Definition tick (st : TickState) : io (TickState * bool) :=
  let* (in_recovery, writable) := probe in
  let* (lease_valid, lease_leader) := ask ReadLease in
  let* (failures', stop, writable_after) :=
    (match action lease_valid (default true writable) in_recovery with
     | Close =>
         let* (n, closed) := close (failures st) in
         Ret (match closed with
              | Fenced => (n, false, Some false)
              | Failed stop => (n, stop, writable)
              end)
     | TerminateBypassers => let* _ := ask TerminateBackends in Ret (0, false, writable)
     | FNone => Ret (0, false, writable)
     end) in
  let event := (writable_after, lease_valid, lease_leader) in
  if bool_decide (traced st = Some event) then Ret (TickState_ failures' (traced st), stop)
  else
    let* _ := ask (Trace writable_after lease_valid lease_leader) in
    Ret (TickState_ failures' (Some event), stop).

(** [ticks] iterations of the loop of [spawn]: [true] once a tick stopped it. *)
Fixpoint fence_loop (ticks : nat) (st : TickState) : io (TickState * bool) :=
  match ticks with
  | O => Ret (st, false)
  | S n =>
      let* (st', stop) := tick st in
      if stop then Ret (st', true) else fence_loop n st'
  end.

End Fence.
