(* ===== verification/FenceProofs.v ===== *)
(** * What the fence guarantees

    A lapsed lease leaves the local server fenced, seen unwritable or not serving,
    or counts a failure; five counted in a row stop the process.  A successful
    close really set the read-only default. *)

From S2P Require Import Prelude Effects Text ClusterState Lease Fence.
From Stdlib Require Import Strings.Byte.

Import Fence.

Abbreviation hist := (list (event Fence.Answer)).

(** ** What a tick's trace shows *)
Definition close_failed (ev : event Fence.Answer) : Prop :=
  match ev with
  | existT CloseWrites r =>
      match r with Some (Ok _) | Some (Err PostgresNotReady) => False | _ => True end
  | _ => False
  end.
Definition close_done (ev : event Fence.Answer) : Prop :=
  match ev with existT CloseWrites r => r = Some (Ok tt) | _ => False end.
Definition close_not_serving (ev : event Fence.Answer) : Prop :=
  match ev with existT CloseWrites r => r = Some (Err PostgresNotReady) | _ => False end.
Definition terminated (ev : event Fence.Answer) : Prop :=
  match ev with existT TerminateBackends _ => True | _ => False end.
Definition seen_unwritable (ev : event Fence.Answer) : Prop :=
  match ev with
  | existT Probe r => r = Some (Err PostgresNotReady) ∨
      ∃ s, r = Some (Ok s) ∧ Session.client_writable s = false
  | _ => False
  end.
Definition lease_seen_valid (ev : event Fence.Answer) : Prop :=
  match ev with existT ReadLease r => r.1 = true | _ => False end.
Definition shut_down (ev : event Fence.Answer) : Prop :=
  match ev with existT Shutdown _ => True | _ => False end.

(** The tick could not close writes it had to assume open. *)
Definition tick_open (t : hist) : Prop := Exists close_failed t.

(** The tick closed writes, or saw that nothing could take one. *)
Definition tick_fenced (t : hist) : Prop :=
  (Exists close_done t ∧ Exists terminated t) ∨ Exists close_not_serving t ∨
  Exists seen_unwritable t.

Definition tick_outcome (st : TickState) (t : hist) (st' : TickState) (stop : bool) : Prop :=
  (tick_open t ∧ failures st' = sat_add_u32 (failures st) 1 ∧
     stop = (FENCE_FAILURE_SHUTDOWN_THRESHOLD <=? failures st') ∧
     (stop = true → Exists shut_down t)) ∨
  (¬ tick_open t ∧ stop = false ∧ (failures st' = 0 ∨ failures st' = failures st) ∧
     (tick_fenced t ∨ Exists lease_seen_valid t)).

(** ** One tick *)
Ltac trace_facts :=
  unfold tick_open, tick_fenced;
  rewrite ?Exists_app, ?Exists_cons, ?Exists_nil; cbn; try tauto; eauto 8.

(** The trace step at a tick's end. *)
Lemma trace_step (st : TickState) (n : Z) (w : option bool) v l (stop : bool) t st' stop' :
  runs (if bool_decide (traced st = Some (w, v, l)) then Ret (TickState_ n (traced st), stop)
        else let* _ := ask (Trace w v l) in Ret (TickState_ n (Some (w, v, l)), stop)) t (st', stop') →
  failures st' = n ∧ stop' = stop ∧ (t = [] ∨ ∃ u, t = [answered (Trace w v l) u]).
Proof.
  case_bool_decide.
  - intros [-> [= -> ->]]. eauto.
  - intros (u & t' & -> & -> & [= -> ->]). eauto.
Qed.

Lemma close_spec n t n' c :
  runs (close n) t (n', c) →
  match c with
  | Fenced => ¬ Exists close_failed t ∧
      ((Exists close_done t ∧ Exists terminated t ∧ n' = 0) ∨ (Exists close_not_serving t ∧ n' = n))
  | Failed stop => Exists close_failed t ∧ n' = sat_add_u32 n 1 ∧
      stop = (FENCE_FAILURE_SHUTDOWN_THRESHOLD <=? n') ∧ (stop = true → Exists shut_down t)
  end.
Proof.
  intros (r & t' & -> & H). cbn [bind Effects.ask] in H.
  assert (Hfail : close_failed (answered CloseWrites r) →
    runs (if FENCE_FAILURE_SHUTDOWN_THRESHOLD <=? sat_add_u32 n 1
          then let* _ := ask Shutdown in
               Ret (sat_add_u32 n 1, Failed (FENCE_FAILURE_SHUTDOWN_THRESHOLD <=? sat_add_u32 n 1))
          else Ret (sat_add_u32 n 1, Failed (FENCE_FAILURE_SHUTDOWN_THRESHOLD <=? sat_add_u32 n 1)))
      t' (n', c) →
    match c with
    | Fenced => False
    | Failed stop => Exists close_failed (answered CloseWrites r :: t') ∧ n' = sat_add_u32 n 1 ∧
        stop = (FENCE_FAILURE_SHUTDOWN_THRESHOLD <=? n') ∧
        (stop = true → Exists shut_down (answered CloseWrites r :: t'))
    end).
  { intros Hf. destruct (FENCE_FAILURE_SHUTDOWN_THRESHOLD <=? sat_add_u32 n 1) eqn:E.
    - intros (u & t'' & -> & -> & [= -> ->]). rewrite E. split_and!; trace_facts.
    - intros [-> [= -> ->]]. rewrite E. split_and!; trace_facts. done. }
  destruct r as [[[]|[]]|]; try (specialize (Hfail I H); by destruct c).
  - destruct H as (x & t1 & -> & -> & [= -> ->]). split; [trace_facts|]. left. split_and!; trace_facts.
  - destruct H as [-> [= -> ->]]. split; [trace_facts|]. right. split; trace_facts.
Qed.

Lemma tick_spec st t st' stop :
  runs (tick st) t (st', stop) → tick_outcome st t st' stop.
Proof.
  unfold tick. intros (t1 & t2 & [rec w] & -> & Hp & H)%runs_bind.
  assert (Hiw : ¬ Exists close_failed t1 ∧ (default true w = false → Exists seen_unwritable t1)).
  { destruct Hp as (r & t' & -> & -> & Hr). split; [trace_facts|].
    destruct r as [[s|[]]|]; simplify_eq/=; intros Hw; try done; apply Exists_cons; left; cbn; eauto. }
  destruct Hiw as [Hnf Hw]. clear Hp.
  destruct H as ([valid leader] & t3 & -> & H). cbn [bind Effects.ask] in H.
  apply runs_bind in H as (t4 & t5 & [[n stop0] wa] & -> & Ha & H).
  apply trace_step in H as (En & -> & Ht5).
  assert (Hnt5 : ¬ Exists close_failed t5) by (destruct Ht5 as [->|[u ->]]; trace_facts).
  assert (Hcat : ∀ P, Exists P t4 → Exists P (t1 ++ answered ReadLease (valid, leader) :: t4 ++ t5)).
  { intros P HP. rewrite Exists_app, Exists_cons, Exists_app. tauto. }
  assert (Hcat1 : ∀ P, Exists P t1 → Exists P (t1 ++ answered ReadLease (valid, leader) :: t4 ++ t5)).
  { intros P HP. rewrite Exists_app. tauto. }
  assert (Hopen : ¬ Exists close_failed t4 →
    ¬ tick_open (t1 ++ answered ReadLease (valid, leader) :: t4 ++ t5)).
  { intros Hn. unfold tick_open. rewrite Exists_app, Exists_cons, Exists_app. cbn. tauto. }
  unfold action in Ha. destruct valid.
  { destruct Ha as [-> [= -> -> ->]]. right.
    split_and!; [apply Hopen; trace_facts|done|by left|].
    right. rewrite Exists_app, Exists_cons. by right; left. }
  destruct (default true w) eqn:Ew.
  - apply runs_bind in Ha as (t6 & t7 & [m c] & -> & Hc & [-> Heq]). rewrite app_nil_r in *.
    apply close_spec in Hc. destruct c as [|s]; injection Heq as -> -> ->.
    + destruct Hc as [Hn Hc]. right. split_and!; [by apply Hopen|done| |left].
      * destruct Hc as [(_ & _ & ->)|[_ ->]]; auto.
      * destruct Hc as [(? & ? & _)|[? _]]; [left|right; left]; auto.
    + destruct Hc as (Hf & -> & -> & Hs). left. rewrite En. split_and!; auto. by apply Hcat.
  - specialize (Hw eq_refl). right. case_bool_decide.
    + destruct Ha as (x & t6 & -> & -> & [= -> -> ->]).
      split_and!; [apply Hopen; trace_facts|done|by left|left; right; right; auto].
    + destruct Ha as [-> [= -> -> ->]].
      split_and!; [apply Hopen; trace_facts|done|by left|left; right; right; auto].
Qed.

(** ** The loop *)

(** The traces of the loop's ticks, in order. *)
Inductive tick_runs : TickState → list hist → TickState → bool → Prop :=
| tr_end st : tick_runs st [] st false
| tr_stop st t st' : runs (tick st) t (st', true) → tick_runs st [t] st' true
| tr_tick st t st' ts st'' stop :
    runs (tick st) t (st', false) → tick_runs st' ts st'' stop →
    tick_runs st (t :: ts) st'' stop.

Lemma fence_loop_ticks n st t st' stop :
  runs (fence_loop n st) t (st', stop) → ∃ ts, t = concat ts ∧ tick_runs st ts st' stop.
Proof.
  revert st t; induction n as [|n IH]; intros st t; cbn [fence_loop].
  - intros [-> [= -> ->]]. exists []. split; [done|constructor].
  - intros (t1 & t2 & [st1 stop1] & -> & H1 & H2)%runs_bind. destruct stop1.
    + destruct H2 as [-> [= -> ->]]. exists [t1]. split; [done|by constructor].
    + apply IH in H2 as (ts & -> & Hts). exists (t1 :: ts). split; [done|by econstructor].
Qed.

(** While the loop runs fewer than five failures are counted; it stops at five;
    and every open tick at the end of the run is among them. *)
Lemma loop_counts st ts st' stop :
  0 ≤ failures st < 5 → tick_runs st ts st' stop →
  (if stop then failures st' = 5 else 0 ≤ failures st' < 5) ∧
  (stop = true → ∃ t, last ts = Some t ∧ Exists shut_down t) ∧
  ∀ pre opens, ts = pre ++ opens → Forall tick_open opens →
    Z.of_nat (length opens) + (if bool_decide (pre = []) then failures st else 0) ≤ failures st'.
Proof.
  intros Hf H; induction H as [st|st t st' Ht|st t st' ts st'' stop Ht Hrest IH].
  - split_and!; [lia|lia|done|]. intros [] [] E _; try discriminate E. simpl. lia.
  - apply tick_spec in Ht as [(Ho & Hn & Hstop & Hs)|(_ & ? & _)]; [|done].
    rewrite sat_add_exact in Hn by (unfold u32_max; lia).
    symmetry in Hstop. apply Z.leb_le in Hstop. unfold FENCE_FAILURE_SHUTDOWN_THRESHOLD in Hstop.
    split_and!; [lia|intros _; exists t; auto|].
    intros [|x [|y pre]] opens E HF; simplify_eq/=; lia.
  - assert (Hnext : 0 ≤ failures st' < 5 ∧ (tick_open t → failures st' = failures st + 1)).
    { apply tick_spec in Ht as [(Ho & Hn & Hstop & _)|(Ho & _ & Hn & _)].
      - rewrite sat_add_exact in Hn by (unfold u32_max; lia).
        symmetry in Hstop. apply Z.leb_gt in Hstop. unfold FENCE_FAILURE_SHUTDOWN_THRESHOLD in Hstop.
        split; [lia|done].
      - split; [lia|done]. }
    destruct Hnext as [Hlt Hone]. destruct (IH Hlt) as (Hstop & Hlast & Hcount).
    split_and!; [done| |].
    + intros E. destruct (Hlast E) as (t' & Hl & Hs). exists t'. split; [|done].
      rewrite last_cons, Hl. done.
    + intros [|x pre] opens E HF; simplify_eq/=.
      * inversion HF as [|?? Ho Hrest']; subst.
        specialize (Hcount [] ts eq_refl Hrest'). simpl in Hcount. rewrite Hone in Hcount by done. lia.
      * specialize (Hcount pre opens eq_refl HF). case_bool_decide; lia.
Qed.

(** A prefix of a run of ticks is a run, and only the whole run can stop. *)
Lemma tick_runs_prefix l post st st' stop :
  tick_runs st (l ++ post) st' stop →
  ∃ st1 stop1, tick_runs st l st1 stop1 ∧ (stop1 = true → post = [] ∧ stop = true).
Proof.
  revert st; induction l as [|x l IH]; intros st H.
  - exists st, false. split; [constructor|done].
  - simpl in H. remember (x :: l ++ post) as ts eqn:E.
    destruct H as [st|st t st' Ht|st t st' ts st'' stop Ht Hrest]; [done| |].
    + injection E as -> E. symmetry in E. apply app_eq_nil in E as [-> ->].
      exists st', true. split; [by constructor|done].
    + injection E as -> ->. destruct (IH _ Hrest) as (st2 & stop2 & H2 & Hs).
      exists st2, stop2. split; [by econstructor|done].
Qed.

(** ** Properties *)

(** C21. A lapsed lease never leaves this node silently writable (contract L1, as the
    only thing this node controls): run the fence loop any number of ticks, whatever
    the server answers.  Every tick either saw a valid lease, or closed writes and
    evicted clients, or saw a server that takes no client write, or is a counted
    failure; at most five ticks in a row are counted failures, and the fifth shuts
    the process down. *)
Theorem fence_closes_or_stops n t st' stop :
  runs (fence_loop n (TickState_ 0 None)) t (st', stop) →
  ∃ ts, t = concat ts ∧
    (∀ tk, tk ∈ ts → tick_open tk ∨ tick_fenced tk ∨ Exists lease_seen_valid tk) ∧
    (∀ pre opens post, ts = pre ++ opens ++ post → Forall tick_open opens →
       (length opens ≤ 5)%nat ∧
       (length opens = 5%nat → post = [] ∧ stop = true ∧ Exists shut_down t)).
Proof.
  intros Hr. apply fence_loop_ticks in Hr as (ts & -> & Hts). exists ts. split; [done|]. split.
  - clear n. induction Hts as [|st t st' Ht|st t st' ts st'' stop Ht _ IH]; intros tk Htk.
    + inversion Htk.
    + apply list_elem_of_singleton in Htk as ->. apply tick_spec in Ht. unfold tick_outcome in Ht. tauto.
    + apply elem_of_cons in Htk as [->|Htk]; [|by apply IH].
      apply tick_spec in Ht. unfold tick_outcome in Ht. tauto.
  - intros pre opens post E HF.
    rewrite app_assoc in E. subst ts.
    destruct (tick_runs_prefix _ _ _ _ _ Hts) as (st1 & stop1 & H1 & Hpost).
    destruct (loop_counts (TickState_ 0 None) _ _ _ ltac:(simpl; lia) H1) as (Hstop & Hlast & Hcount).
    specialize (Hcount pre opens eq_refl HF). cbn [failures] in Hcount.
    assert (Z.of_nat (length opens) ≤ failures st1) as Hle by (case_bool_decide; lia).
    split; [destruct stop1; simpl in *; lia|]. intros H5. destruct stop1; [|lia].
    destruct (Hpost eq_refl) as [-> ->]. split_and!; [done|done|].
    destruct (Hlast eq_refl) as (t' & Hl & Hs). rewrite app_nil_r.
    apply last_Some in Hl as [l' Hl]. rewrite Hl, concat_app, Exists_app. right.
    simpl. by rewrite app_nil_r.
Qed.

(** Five ticks of a primary that answers neither the probe nor the close. *)
Definition stuck_tick (traces : hist) : hist :=
  [answered (E:=Fence.Req) (R:=Fence.Answer) Probe None; answered ReadLease (false, false);
   answered CloseWrites None] ++ traces.
Definition stuck_traced : hist := [answered (Trace None false false) tt].
Definition stuck_run : hist :=
  stuck_tick stuck_traced ++ stuck_tick [] ++ stuck_tick [] ++ stuck_tick [] ++
  stuck_tick [answered Shutdown tt].

Lemma fence_closes_or_stops_witness :
  runs (fence_loop 9 (TickState_ 0 None)) stuck_run
    (TickState_ 5 (Some (None, false, false)), true) ∧
  ∃ ts, stuck_run = concat ts ∧
    (∀ tk, tk ∈ ts → tick_open tk ∨ tick_fenced tk ∨ Exists lease_seen_valid tk) ∧
    (∀ pre opens post, ts = pre ++ opens ++ post → Forall tick_open opens →
       (length opens ≤ 5)%nat ∧
       (length opens = 5%nat → post = [] ∧ true = true ∧ Exists shut_down stuck_run)).
Proof.
  assert (runs (fence_loop 9 (TickState_ 0 None)) stuck_run
    (TickState_ 5 (Some (None, false, false)), true)) as Hr.
  { unfold stuck_run, stuck_tick, stuck_traced. cbn. repeat (eexists _, _; split; [reflexivity|]; cbn). done. }
  split; [exact Hr|]. exact (fence_closes_or_stops 9 stuck_run _ true Hr).
Defined.

(** A close answered by "not serving" is fenced and leaves the count alone: the
    failure is never counted. *)
Lemma unserving_close_is_not_counted n r :
  r = Some (Err PostgresNotReady) →
  runs (close n) [answered CloseWrites r] (n, Fenced).
Proof. intros ->. eexists _, _. split; [reflexivity|]. done. Qed.

(** ** The close behind the fence *)
Section SetReadonly.
Import Session.
Abbreviation shist := (list (event Session.Answer)).

(** What a successful [set_readonly] must have read. *)
Definition seen_in_recovery (ev : event Session.Answer) : Prop :=
  match ev with existT RecoverySql (Ok raw) => trim raw = lit "t" | _ => False end.
Definition seen_settled (readonly : bool) (ev : event Session.Answer) : Prop :=
  match ev with
  | existT ReadOnlyGucSql (Ok raw) =>
      ∃ live on_reload g, split_once ","%byte (trim raw) = Some (live, on_reload) ∧
        parse_read_only_guc live on_reload = Ok g ∧ settled g readonly = true
  | _ => False
  end.
Definition seen_status (readonly : bool) (ev : event Session.Answer) : Prop :=
  match ev with
  | existT ReadOnlyStatusSql (Ok raw) => eq_ignore_ascii_case (trim raw) (lit "on") = readonly
  | _ => False
  end.
Definition altered (value : bytes) (ev : event Session.Answer) : Prop :=
  match ev with existT (AlterSystemSql v) (Ok _) => v = value | _ => False end.
Definition reloaded (ev : event Session.Answer) : Prop :=
  match ev with existT ReloadConfSql (Ok _) => True | _ => False end.

(** Written, reloaded, and the last thing read is the new live value. *)
Definition written (readonly : bool) (h : shist) : Prop :=
  ∃ h1 ev, h = h1 ++ [ev] ∧ seen_status readonly ev ∧
    Exists (altered (if readonly then lit "on" else lit "off")) h1 ∧ Exists reloaded h1.
Definition took_hold (readonly : bool) (h : shist) : Prop :=
  Exists seen_in_recovery h ∨ Exists (seen_settled readonly) h ∨ written readonly h.

Ltac exists_here := rewrite ?Exists_app, ?Exists_cons, ?Exists_nil; cbn; eauto 8.

Lemma await_readonly_spec n deadline (readonly actual : bool) (h : shist) :
  let P := λ h : shist,
    Exists (altered (if readonly then lit "on" else lit "off")) h ∧ Exists reloaded h in
  P h → (actual = readonly → written readonly h) →
  safe any_answer any_request h (await_readonly n deadline readonly actual)
    (λ h' res, res = Some (Ok readonly) → written readonly h').
Proof.
  intros P. revert actual h; induction n as [|n IH]; intros actual h HP Hw; cbn [await_readonly].
  - destruct (Bool.eqb actual readonly) eqn:E; cbn [safe]; [|done].
    intros [= ->]. by apply Hw.
  - destruct (Bool.eqb actual readonly) eqn:E; [cbn [safe]; intros [= ->]; by apply Hw|].
    assert (actual ≠ readonly) as Hne by (intros ->; by rewrite Bool.eqb_reflx in E).
    safe_ask now. destruct (deadline <=? now); [cbn [safe]; intros [= ->]; done|].
    safe_ask u. unfold query_readonly_status. safe_ask r. destruct r as [raw|e]; cbn [safe bind]; [|done].
    destruct HP as [Ha Hr].
    assert (∀ l, P (h ++ l)) as HP by (intros l; split; rewrite Exists_app; tauto).
    rewrite <-!app_assoc. apply IH; [apply HP|]. intros Heq.
    exists (h ++ [answered Now now; answered SleepPoll u]), (answered ReadOnlyStatusSql (Ok raw)).
    rewrite <-app_assoc. split_and!; [done|exact Heq| |]; apply HP.
Qed.

Lemma set_readonly_spec readonly (h : shist) :
  safe any_answer any_request h (set_readonly readonly)
    (λ h' res, res = Some (Ok tt) → took_hold readonly h').
Proof.
  unfold set_readonly, is_in_recovery. safe_ask r. destruct r as [raw|e]; cbn [safe bind]; [|done].
  case_bool_decide as Hrec; cbn [safe].
  { intros _. left. exists_here. }
  unfold write_readonly_guc, read_only_guc. safe_ask g.
  match goal with |- context [if ?b then _ else _] => destruct b eqn:Eg end; cbn [safe].
  { intros _. right; left. destruct g as [graw|]; [|done]. cbn in Eg.
    destruct (split_once _ _) as [[l o]|] eqn:Esp; [|done].
    destruct (parse_read_only_guc l o) as [guc|] eqn:Eguc; [|done].
    rewrite Exists_app, Exists_cons. right; left. cbn. eauto 6. }
  clear Eg. unfold alter_system, try_bind. safe_ask a. destruct a as [a|e]; cbn [safe bind]; [|done].
  safe_ask l. destruct l as [l|e]; cbn [safe bind]; [|done].
  safe_ask start. unfold query_readonly_status. safe_ask s.
  destruct s as [sraw|e]; cbn [safe bind]; [|done].
  apply safe_bind. eapply safe_post.
  - apply await_readonly_spec.
    + split; exists_here.
    + intros Heq. eexists _, (answered ReadOnlyStatusSql (Ok sraw)).
      split_and!; [done|exact Heq| |]; exists_here.
  - intros h' [[final|e]|] Hf; cbn [safe]; [|done|done].
    destruct (Bool.eqb final readonly) eqn:E; [|done]. apply Bool.eqb_prop in E as ->.
    intros _. right; right. by apply Hf.
Qed.

(** A clock that runs at least as fast as the polls sleep. *)
Definition clock_step (c : Instant) (ev : event Session.Answer) : Instant :=
  match ev with
  | existT Now r => r
  | existT SleepPoll _ => c + READONLY_RELOAD_POLL
  | _ => c
  end.
Definition clock (h : shist) : Instant := foldl clock_step 0 h.
Definition time_passes (h : shist) (ev : event Session.Answer) : Prop :=
  match ev with existT Now r => clock h ≤ r | _ => True end.

Lemma clock_snoc h ev : clock (h ++ [ev]) = clock_step (clock h) ev.
Proof. unfold clock. by rewrite foldl_app. Qed.

Lemma await_readonly_returns n deadline (readonly actual : bool) (h : shist) :
  deadline ≤ clock h + Z.of_nat n * READONLY_RELOAD_POLL →
  safe time_passes any_request h (await_readonly (S n) deadline readonly actual)
    (λ _ res, is_Some res).
Proof.
  revert actual h; induction n as [|n IH]; intros actual h Hd; cbn [await_readonly];
    destruct (Bool.eqb actual readonly); try (cbn [safe]; by eauto).
  all: cbn [bind Effects.ask safe]; split; [exact I|intros now Hnow]; cbn in Hnow.
  all: destruct (Z.leb_spec deadline now) as [|Hlt]; [cbn [safe]; by eauto|].
  { lia. }
  cbn [bind Effects.ask safe query_readonly_status]; split; [exact I|intros u _]; cbn [bind Effects.ask].
  split; [exact I|intros r _]. destruct r as [raw|e]; cbn [bind safe]; [|by eauto].
  apply IH. rewrite !clock_snoc. cbn [clock_step answered]. unfold READONLY_RELOAD_POLL in *. lia.
Qed.

Lemma settle_rounds_suffice : READONLY_RELOAD_SETTLE ≤ Z.of_nat 12 * READONLY_RELOAD_POLL.
Proof. by vm_compute. Qed.

Lemma set_readonly_total readonly (h : shist) :
  safe time_passes any_request h (set_readonly readonly) (λ _ res, is_Some res).
Proof.
  unfold set_readonly, is_in_recovery, write_readonly_guc, read_only_guc, alter_system,
    query_readonly_status, try_bind.
  cbn [bind Effects.ask safe]. split; [exact I|intros r _].
  destruct r as [raw|e]; cbn [safe bind]; [|by eauto].
  destruct (bool_decide (trim raw = lit "t")); cbn [safe bind Effects.ask]; [by eauto|].
  split; [exact I|intros g _].
  match goal with |- context [if ?b then _ else _] => destruct b end; cbn [safe]; [by eauto|].
  cbn [bind Effects.ask safe]. split; [exact I|intros a _].
  destruct a as [a|e]; cbn [safe bind Effects.ask]; [|by eauto].
  split; [exact I|intros l _]. destruct l as [l|e]; cbn [safe bind Effects.ask]; [|by eauto].
  split; [exact I|intros start Hstart]. split; [exact I|intros s _].
  destruct s as [s|e]; cbn [safe bind Effects.ask]; [|by eauto].
  apply safe_bind. eapply safe_post.
  - apply (await_readonly_returns 12). rewrite !clock_snoc. cbn [clock_step answered].
    pose proof settle_rounds_suffice. lia.
  - intros h' [[final|e]|] Hf; cbn [safe]; [|by eauto|by destruct Hf].
    destruct (Bool.eqb final readonly); by eauto.
Qed.
End SetReadonly.

(** Writing [default_transaction_read_only] reports success only on proof
    (contract L1): whenever [set_readonly] returns [Ok], it saw the server in
    recovery, or read the live value and the one on reload already settled, or wrote
    the value, reloaded the configuration and last of all re-read it live. *)
Lemma set_readonly_took_hold (readonly : bool) t :
  runs (Session.set_readonly readonly) t (Some (Ok tt)) → took_hold readonly t.
Proof.
  intros Hr. pose proof (safe_runs _ _ _ _ _ _ _ (set_readonly_spec readonly []) Hr) as H.
  by apply H; [apply relies_any|].
Qed.

(** A writable primary taken read-only: the GUC is off, is written and reloaded, and
    the second read finds it on. *)
Definition closing_run : list (event Session.Answer) :=
  [answered (E:=Session.Req) (R:=Session.Answer) Session.RecoverySql (Ok (lit "f"));
   answered Session.ReadOnlyGucSql (Ok (lit "off,false"));
   answered (Session.AlterSystemSql (lit "on")) (Ok []);
   answered Session.ReloadConfSql (Ok (lit "t"));
   answered Session.Now 0;
   answered Session.ReadOnlyStatusSql (Ok (lit "off"));
   answered Session.Now 1; answered Session.SleepPoll tt;
   answered Session.ReadOnlyStatusSql (Ok (lit "on"))].

Lemma closing_run_runs : runs (Session.set_readonly true) closing_run (Some (Ok tt)).
Proof. do 9 run_step. run_end. Qed.

Lemma set_readonly_took_hold_witness :
  runs (Session.set_readonly true) closing_run (Some (Ok tt)) ∧ took_hold true closing_run.
Proof. split; [exact closing_run_runs|]. exact (set_readonly_took_hold true _ closing_run_runs). Defined.

(** [set_readonly] returns, in the thirteen rounds the model gives its settle
    loop, on any server and any clock that runs at least as fast as its polls
    sleep. *)
Lemma set_readonly_returns (readonly : bool) t res :
  runs (Session.set_readonly readonly) t res → relies time_passes [] t → is_Some res.
Proof. exact (safe_runs _ _ _ _ _ _ _ (set_readonly_total readonly [])). Qed.
