(* ===== verification/Governor.v ===== *)
(** * The governor's metrics loop ([src/governor/raft.rs])

    What one Raft metrics update and one tick do to the lease, the fence channel,
    the election gate and the loop's own memory.  The shared state the loop writes
    is [Shared]; the clock readings of one pass are a [Readings], in the order the
    code takes them; openraft is its metrics (an input) and the two calls made to
    it (outputs).  Gauges and log lines are left out. *)

From S2P Require Import Prelude Net ClusterState Handoff Lease.

Definition QUORUM_TIMEOUT_MS : Z := 1000.
Definition METRICS_WATCHDOG_TIMEOUT_MS : Z := 1500.
Definition LEADERLESS_RECOVERY_BASE_TIMEOUTS : Z := 5.
Definition LEADERLESS_RECOVERY_STAGGER_TIMEOUTS : Z := 8.

Record FenceState := FenceState_ {
  fenced : bool;
  has_quorum : bool;
  upgrade_frozen : bool;
  client_write_authority : bool;
  authority_pg_addr : option SocketAddr;
  primary_open : bool;
}.

Definition unfenced : FenceState := FenceState_ false true false true None true.

Definition cutover_client_hold (f : FenceState) : bool :=
  negb (client_write_authority f) && bool_decide (authority_pg_addr f = None).

Definition local_client_writes_fenced (f : FenceState) : bool := negb (client_write_authority f).

(** [MetricsView]; the membership is its voter ids in order.  The log indexes feed
    gauges only. *)
Record MetricsView := MetricsView_ {
  current_leader : option NodeId;
  current_term : Z;
  millis_since_quorum_ack : option Z;
  membership_voters : list NodeId;
}.

Record GovernorRunState := GovernorRunState_ {
  prev_leader_id : option NodeId;
  prev_is_leader : bool;
  prev_should_fence : option bool;
  last_metrics_update : Instant;
  leader_lost_at : option Instant;
  prev_term : Z;
  leaderless_recovery_last_fired_at : option Instant;
  leaderless_since : option Instant;
}.

(** The node's identity and configuration. *)
Record Governor := Governor_ {
  node_id : NodeId;
  election_timeout_ms : Z;
  cluster_id : bytes;
  awaits_authority_from : option bytes;
}.

(** What the loop shares with the rest of the node.  [elections] is the last value
    given to [runtime_config().elect]. *)
Record Shared := Shared_ {
  state : ClusterState;
  leader : option SocketAddr;
  fence : FenceState;
  lease : Lease.LeaseState;
  elections : option bool;
}.

(** The readings of the lease clock in one [process_metrics_update]. *)
Record Readings := Readings_ {
  at_lost : Instant;
  at_observe : Instant;
  at_anchor : Instant;
  at_lease : Instant;
}.

(** ** Pure decisions *)
Definition at_boot (now : Instant) (term : Z) (has_leader : bool) : GovernorRunState :=
  GovernorRunState_ None false None now None term None (if has_leader then None else Some now).

Definition has_quorum_decision (is_leader leader_known : bool) (voter_count : nat)
    (millis : option Z) : bool :=
  if negb is_leader then leader_known
  else if (voter_count =? 1)%nat then true
  else match millis with Some ms => ms <? QUORUM_TIMEOUT_MS | None => false end.

Definition metrics_has_quorum (m : MetricsView) (is_leader : bool) : bool :=
  has_quorum_decision is_leader (bool_decide (is_Some (current_leader m)))
    (length (membership_voters m)) (millis_since_quorum_ack m).

Definition quorum_ack_age (m : MetricsView) (is_leader : bool) : Duration :=
  if negb is_leader then 0
  else if (length (membership_voters m) =? 1)%nat then 0
  else match millis_since_quorum_ack m with Some millis => millis * ms | None => 0 end.

Definition fence_gate_needs_apply (prev : option bool) (should_fence : bool) : bool :=
  match prev with None => true | Some p => negb (Bool.eqb p should_fence) end.

Definition should_anchor_term_advance (prev_term current_term : Z) (leader_id : option NodeId)
    (is_leader : bool) : bool :=
  if bool_decide (is_Some leader_id) && negb is_leader then false
  else (0 <? prev_term) && (prev_term <? current_term).

Definition should_clear_stale_failover_anchor (leader_id : option NodeId) (is_leader : bool) : bool :=
  bool_decide (is_Some leader_id) && negb is_leader.

Definition sat_mul (max a b : Z) : Z := Z.min max (a * b).

Definition leaderless_threshold (rank election_timeout_ms : Z) : Duration :=
  let timeouts :=
    sat_add u32_max LEADERLESS_RECOVERY_BASE_TIMEOUTS
      (sat_mul u32_max rank LEADERLESS_RECOVERY_STAGGER_TIMEOUTS) in
  sat_mul u64_max timeouts election_timeout_ms * ms.

Definition leaderless_cooldown (voters election_timeout_ms : Z) : Duration :=
  let timeouts := sat_mul u32_max (Z.max voters 1) LEADERLESS_RECOVERY_STAGGER_TIMEOUTS in
  sat_mul u64_max timeouts election_timeout_ms * ms.

(** [voter_set_matches]: every id is a member, and the count is the set's. *)
Fixpoint all_members (current : gset NodeId) (ids : list NodeId) (count : nat) : option nat :=
  match ids with
  | [] => Some count
  | id :: rest => if bool_decide (id ∈ current) then all_members current rest (S count) else None
  end.
Definition voter_set_matches (current : gset NodeId) (ids : list NodeId) : bool :=
  match all_members current ids 0 with
  | Some count => (count =? size current)%nat
  | None => false
  end.

(** ** One metrics update *)
Definition observe_leader (has_leader : bool) (now : Instant) (rt : GovernorRunState)
    : GovernorRunState :=
  GovernorRunState_ (prev_leader_id rt) (prev_is_leader rt) (prev_should_fence rt)
    (last_metrics_update rt) (leader_lost_at rt) (prev_term rt)
    (leaderless_recovery_last_fired_at rt)
    (if has_leader then None else Some (default now (leaderless_since rt))).

Definition set_leader_lost_at (v : option Instant) (rt : GovernorRunState) : GovernorRunState :=
  GovernorRunState_ (prev_leader_id rt) (prev_is_leader rt) (prev_should_fence rt)
    (last_metrics_update rt) v (prev_term rt)
    (leaderless_recovery_last_fired_at rt) (leaderless_since rt).
Definition set_last_metrics_update (v : Instant) (rt : GovernorRunState) : GovernorRunState :=
  GovernorRunState_ (prev_leader_id rt) (prev_is_leader rt) (prev_should_fence rt)
    v (leader_lost_at rt) (prev_term rt)
    (leaderless_recovery_last_fired_at rt) (leaderless_since rt).
Definition set_prev_term (v : Z) (rt : GovernorRunState) : GovernorRunState :=
  GovernorRunState_ (prev_leader_id rt) (prev_is_leader rt) (prev_should_fence rt)
    (last_metrics_update rt) (leader_lost_at rt) v
    (leaderless_recovery_last_fired_at rt) (leaderless_since rt).
Definition set_prev_should_fence (v : option bool) (rt : GovernorRunState) : GovernorRunState :=
  GovernorRunState_ (prev_leader_id rt) (prev_is_leader rt) v
    (last_metrics_update rt) (leader_lost_at rt) (prev_term rt)
    (leaderless_recovery_last_fired_at rt) (leaderless_since rt).
Definition set_last_fired (v : option Instant) (rt : GovernorRunState) : GovernorRunState :=
  GovernorRunState_ (prev_leader_id rt) (prev_is_leader rt) (prev_should_fence rt)
    (last_metrics_update rt) (leader_lost_at rt) (prev_term rt) v (leaderless_since rt).

Definition with_lease (f : Lease.LeaseState → Lease.LeaseState) (s : Shared) : Shared :=
  Shared_ (state s) (leader s) (fence s) (f (lease s)) (elections s).
Definition with_leader (a : option SocketAddr) (s : Shared) : Shared :=
  Shared_ (state s) a (fence s) (lease s) (elections s).
Definition with_fence (f : FenceState) (s : Shared) : Shared :=
  Shared_ (state s) (leader s) f (lease s) (elections s).

(** The election-phase edges of [process_metrics_update]. *)
Definition track_election (leader_id : option NodeId) (at_lost : Instant)
    (s : Shared) (rt : GovernorRunState) : Shared * GovernorRunState :=
  let tracking_election := bool_decide (is_Some (leader_lost_at rt)) in
  if bool_decide (is_Some (prev_leader_id rt)) && bool_decide (leader_id = None) &&
     negb tracking_election
  then (with_lease (λ l, Lease.set_failover_anchor l (Some at_lost)) s,
        set_leader_lost_at (Some at_lost) rt)
  else if bool_decide (is_Some leader_id) && tracking_election
  then (s, set_leader_lost_at None rt)
  else (s, rt).

Definition log_leadership_changes (leader_id : option NodeId) (is_leader : bool)
    (rt : GovernorRunState) : GovernorRunState :=
  GovernorRunState_ leader_id is_leader (prev_should_fence rt) (last_metrics_update rt)
    (leader_lost_at rt) (prev_term rt) (leaderless_recovery_last_fired_at rt)
    (leaderless_since rt).

Definition update_lease_state (is_leader has_quorum : bool) (age : Duration) (now : Instant)
    (s : Shared) : Shared :=
  with_lease (λ l, Lease.update_from_raft l now is_leader has_quorum age) s.

(** [send_if_modified] stores the new value either way. *)
Definition update_fencing_state (g : Governor) (has_quorum : bool) (term : Z)
    (s : Shared) (rt : GovernorRunState) : Shared * GovernorRunState :=
  let should_fence := negb has_quorum in
  let '(s, rt) :=
    if fence_gate_needs_apply (prev_should_fence rt) should_fence
    then (Shared_ (state s) (leader s) (fence s) (lease s) (Some has_quorum),
          set_prev_should_fence (Some should_fence) rt)
    else (s, rt) in
  let '(authority, relay) :=
    cutover_authority_projection (cutover (state s)) (cluster_id g) (awaits_authority_from g) in
  (with_fence (FenceState_ should_fence has_quorum (frozen (pg_upgrade (state s))) authority relay
                 (routes_to_leader (state s) term)) s, rt).

Definition sync_voter_ids (m : MetricsView) (s : Shared) : Shared :=
  let voters := membership_voters m in
  if bool_decide (voters = []) then s
  else if voter_set_matches (voter_ids (state s)) voters then s
  else Shared_ (set_members (list_to_set voters) (learner_ids (state s)) (state s))
         (leader s) (fence s) (lease s) (elections s).

Definition process_metrics_update (g : Governor) (m : MetricsView) (r : Readings)
    (s : Shared) (rt : GovernorRunState) : Shared * GovernorRunState :=
  let leader_id := current_leader m in
  let s := with_leader (id ← leader_id; pg_addr <$> nodes (state s) !! id) s in
  let '(s, rt) := track_election leader_id (at_lost r) s rt in
  let rt := observe_leader (bool_decide (is_Some leader_id)) (at_observe r) rt in
  let is_leader := bool_decide (leader_id = Some (node_id g)) in
  let s :=
    if should_clear_stale_failover_anchor leader_id is_leader
    then with_lease (λ l, Lease.set_failover_anchor l None) s else s in
  let s :=
    if should_anchor_term_advance (prev_term rt) (current_term m) leader_id is_leader
    then with_lease (λ l, Lease.set_failover_anchor l (Some (at_anchor r))) s else s in
  let rt := set_prev_term (current_term m) rt in
  let has_quorum := metrics_has_quorum m is_leader in
  let s := update_lease_state is_leader has_quorum (quorum_ack_age m is_leader) (at_lease r) s in
  let '(s, rt) := update_fencing_state g has_quorum (current_term m) s rt in
  let rt := log_leadership_changes leader_id is_leader rt in
  (sync_voter_ids m s, rt).

(** ** The watchdogs *)

(** [metrics_leader] is [current_leader] in the metrics as borrowed now. *)
Definition run_metrics_watchdog (g : Governor) (metrics_leader : option NodeId)
    (now expire after : Instant) (s : Shared) (rt : GovernorRunState) : Shared * GovernorRunState :=
  let timeout := METRICS_WATCHDOG_TIMEOUT_MS * ms in
  if saturating_duration_since now (last_metrics_update rt) <=? timeout then (s, rt)
  else if bool_decide (metrics_leader ≠ Some (node_id g)) then (s, set_last_metrics_update after rt)
  else
    let s := with_lease (λ l, Lease.expire l expire) s in
    let f := fence s in
    (with_fence (FenceState_ true false (upgrade_frozen f) (client_write_authority f)
                   (authority_pg_addr f) (primary_open f)) s,
     set_last_metrics_update after rt).

(** [(is_voter, rank, voters)] of one pass over the voter ids. *)
Definition voter_rank (self : NodeId) (ids : list NodeId) : bool * Z * Z :=
  foldl (λ '(is_voter, rank, voters) id,
           let voters := sat_add_u32 voters 1 in
           if id =? self then (true, rank, voters)
           else if id <? self then (is_voter, sat_add_u32 rank 1, voters)
           else (is_voter, rank, voters))
    (false, 0, 0) ids.

(** Returns whether [raft.trigger().elect()] was called; its error is only logged. *)
Definition run_leaderless_watchdog (g : Governor) (m : MetricsView) (now after : Instant)
    (rt : GovernorRunState) : GovernorRunState * bool :=
  let '(is_voter, rank, voters) := voter_rank (node_id g) (membership_voters m) in
  if bool_decide (is_Some (current_leader m)) then (set_last_fired None rt, false)
  else if negb is_voter then (rt, false)
  else
    match leaderless_since rt with
    | None => (rt, false)
    | Some since =>
        if saturating_duration_since now since <? leaderless_threshold rank (election_timeout_ms g)
        then (rt, false)
        else if match leaderless_recovery_last_fired_at rt with
                | Some last => saturating_duration_since now last <?
                                 leaderless_cooldown voters (election_timeout_ms g)
                | None => false
                end
        then (rt, false)
        else (set_last_fired (Some after) rt, true)
    end.

(** ** The loop *)

(** One turn of [run]: a metrics update or a bare tick, then both watchdogs on the
    metrics as they are then. *)
Record Turn := Turn_ {
  update : option (MetricsView * Instant * Readings);
  seen : MetricsView;
  at_watchdog : Instant;
  at_expire : Instant;
  after_watchdog : Instant;
  at_leaderless : Instant;
  after_leaderless : Instant;
}.

Definition turn (g : Governor) (t : Turn) (s : Shared) (rt : GovernorRunState)
    : Shared * GovernorRunState * bool :=
  let '(s, rt) :=
    match update t with
    | Some (m, at_, r) => process_metrics_update g m r s (set_last_metrics_update at_ rt)
    | None => (s, rt)
    end in
  let '(s, rt) :=
    run_metrics_watchdog g (current_leader (seen t)) (at_watchdog t) (at_expire t)
      (after_watchdog t) s rt in
  let '(rt, elect) :=
    run_leaderless_watchdog g (seen t) (at_leaderless t) (after_leaderless t) rt in
  (s, rt, elect).
