(* ===== verification/GovernorProofs.v ===== *)
(** * The governor: elections, fence and lease follow quorum; the hold-down holds

    Theorems over runs of the governor's loop interleaved with everything else that
    touches the state it shares: committed log entries and the reconciler's reads,
    stamps and spends of the failover anchor. *)

From S2P Require Import Prelude Net ClusterState Handoff Lease LeaseProofs Governor.

(** ** The loop and its neighbours

    [released] holds every anchor a hold-down check has let through: what a later
    [spend_failover_anchor] may name. *)
Inductive Ev :=
| Loop (t : Turn)
| LogMoved (s : ClusterState)
| PromoteCheck (at_stamp now : Instant)   (* promote_local_postgres *)
| OpenCheck (now : Instant)               (* open_writes, the lease re-read *)
| Spend (seen : option Instant).          (* open_writes, after the open *)

Record World := World_ {
  shared : Shared;
  runtime : GovernorRunState;
  released : list (option Instant);
}.

Definition check (anchor : option Instant) (now : Instant) (w : World) : World * bool :=
  let free := bool_decide (promotion_lease_holddown anchor now DEFAULT_LEASE_DURATION = None) in
  (World_ (shared w) (runtime w) (if free then anchor :: released w else released w), free).

(** Returns whether a hold-down check passed. *)
Definition ev_step (g : Governor) (w : World) (e : Ev) : World * bool :=
  match e with
  | Loop t => let '(s, rt, _) := turn g t (shared w) (runtime w) in (World_ s rt (released w), false)
  | LogMoved cs =>
      let s := shared w in
      (World_ (Shared_ cs (leader s) (fence s) (lease s) (elections s)) (runtime w) (released w), false)
  | PromoteCheck at_stamp now =>
      let '(l, anchor) := Lease.promotion_anchor (lease (shared w)) at_stamp in
      check (Some anchor) now
        (World_ (with_lease (λ _, l) (shared w)) (runtime w) (released w))
  | OpenCheck now => check (Lease.failover_anchor (lease (shared w))) now w
  | Spend seen =>
      if bool_decide (seen ∈ released w)
      then (World_ (with_lease (λ l, Lease.spend_failover_anchor l seen) (shared w)) (runtime w)
              (released w), false)
      else (w, false)
  end.

Definition ev_run (g : Governor) (w : World) (evs : list Ev) : World :=
  foldl (λ w e, (ev_step g w e).1) w evs.

Lemma ev_run_app g w a b : ev_run g w (a ++ b) = ev_run g (ev_run g w a) b.
Proof. apply foldl_app. Qed.

Definition turn_times (t : Turn) : list Instant :=
  match update t with
  | Some (_, at_, r) => [at_; at_lost r; at_observe r; at_anchor r; at_lease r]
  | None => []
  end ++ [at_watchdog t; at_expire t; after_watchdog t; at_leaderless t; after_leaderless t].

Definition ev_times (e : Ev) : list Instant :=
  match e with
  | Loop t => turn_times t
  | LogMoved _ | Spend _ => []
  | PromoteCheck at_stamp now => [at_stamp; now]
  | OpenCheck now => [now]
  end.

(** A clock that does not go back. *)
Fixpoint forward (t : Instant) (l : list Instant) : Prop :=
  match l with [] => True | x :: l' => t ≤ x ∧ forward x l' end.
Definition ends (t : Instant) (l : list Instant) : Instant := default t (last l).

Lemma ends_cons t x l : ends t (x :: l) = ends x l.
Proof. unfold ends. rewrite last_cons. by destruct (last l). Qed.

Lemma forward_ends t l : forward t l → t ≤ ends t l ∧ ∀ x, x ∈ l → x ≤ ends t l.
Proof.
  revert t; induction l as [|x l IH]; intros t; simpl.
  - intros _. split; [unfold ends; simpl; lia|]. intros x Hx. inversion Hx.
  - intros [Hx Hl]. rewrite ends_cons. destruct (IH x Hl) as [H1 H2]. split; [lia|].
    intros y [->|Hy]%elem_of_cons; [lia|by apply H2].
Qed.

Lemma forward_app t l1 l2 : forward t (l1 ++ l2) ↔ forward t l1 ∧ forward (ends t l1) l2.
Proof.
  revert t; induction l1 as [|x l1 IH]; intros t; simpl; [unfold ends; simpl; tauto|].
  rewrite IH, ends_cons. tauto.
Qed.

Definition times (evs : list Ev) : list Instant := concat (ev_times <$> evs).

(** The update a turn processed, if any. *)
Definition processed (e : Ev) : option (MetricsView * Readings) :=
  match e with Loop t => (λ '(m, _, r), (m, r)) <$> update t | _ => None end.
Definition last_update (evs : list Ev) : option (MetricsView * Readings) :=
  last (omap processed evs).

Definition leads (g : Governor) (m : MetricsView) : bool :=
  bool_decide (current_leader m = Some (node_id g)).
Definition quorum (g : Governor) (m : MetricsView) : bool := metrics_has_quorum m (leads g m).

(** ** What one update leaves *)
Definition anchor (s : Shared) : option Instant := Lease.failover_anchor (lease s).

(** The anchor after an update's three stamps and clears. *)
Definition anchor_after (g : Governor) (m : MetricsView) (r : Readings) (rt : GovernorRunState)
    (a : option Instant) : option Instant :=
  let a1 :=
    if bool_decide (is_Some (prev_leader_id rt)) && bool_decide (current_leader m = None) &&
       negb (bool_decide (is_Some (leader_lost_at rt)))
    then Some (at_lost r) else a in
  let a2 := if should_clear_stale_failover_anchor (current_leader m) (leads g m) then None else a1 in
  if should_anchor_term_advance (prev_term rt) (current_term m) (current_leader m) (leads g m)
  then Some (at_anchor r) else a2.

Record updated (g : Governor) (m : MetricsView) (r : Readings) (s : Shared) (rt : GovernorRunState)
    (s' : Shared) (rt' : GovernorRunState) : Prop := Updated {
  upd_elections : elections s' =
    if fence_gate_needs_apply (prev_should_fence rt) (negb (quorum g m))
    then Some (quorum g m) else elections s;
  upd_prev_fence : prev_should_fence rt' = Some (negb (quorum g m));
  upd_prev_term : prev_term rt' = current_term m;
  upd_fence : fenced (fence s') = negb (quorum g m) ∧ has_quorum (fence s') = quorum g m;
  upd_lease : ∃ l, Lease.duration l = Lease.duration (lease s) ∧
    lease s' = Lease.update_from_raft l (at_lease r) (leads g m) (quorum g m)
                 (quorum_ack_age m (leads g m));
  upd_anchor : anchor s' = anchor_after g m r rt (anchor s);
  upd_since : leaderless_since rt' =
    if bool_decide (is_Some (current_leader m)) then None
    else Some (default (at_observe r) (leaderless_since rt));
  upd_fired : leaderless_recovery_last_fired_at rt' = leaderless_recovery_last_fired_at rt;
  upd_last_metrics : last_metrics_update rt' = last_metrics_update rt;
}.

Lemma update_from_raft_anchor l now b q age :
  Lease.failover_anchor (Lease.update_from_raft l now b q age) = Lease.failover_anchor l.
Proof. unfold Lease.update_from_raft. by destruct (b && q). Qed.

Lemma update_from_raft_duration l now b q age :
  Lease.duration (Lease.update_from_raft l now b q age) = Lease.duration l.
Proof. unfold Lease.update_from_raft. by destruct (b && q). Qed.

Lemma sync_voter_ids_frame m s :
  let s' := sync_voter_ids m s in
  elections s' = elections s ∧ fence s' = fence s ∧ lease s' = lease s ∧ leader s' = leader s.
Proof. unfold sync_voter_ids. destruct (bool_decide _); [done|]. by destruct (voter_set_matches _ _). Qed.

Lemma process_updated g m r s rt s' rt' :
  process_metrics_update g m r s rt = (s', rt') → updated g m r s rt s' rt'.
Proof.
  unfold process_metrics_update, track_election, update_fencing_state.
  set (s0 := with_leader _ s).
  fold (leads g m). fold (quorum g m).
  intros H.
  assert (Hgate : fence_gate_needs_apply (prev_should_fence rt) (negb (quorum g m)) = false →
    prev_should_fence rt = Some (negb (quorum g m))).
  { unfold fence_gate_needs_apply. destruct (prev_should_fence rt) as [p|]; [|done].
    by destruct p, (quorum g m). }
  destruct (bool_decide (is_Some (prev_leader_id rt)) && bool_decide (current_leader m = None) &&
            negb (bool_decide (is_Some (leader_lost_at rt)))) eqn:Elost;
  destruct (should_clear_stale_failover_anchor (current_leader m) (leads g m)) eqn:Eclear;
  destruct (bool_decide (is_Some (current_leader m)) && bool_decide (is_Some (leader_lost_at rt)));
  destruct (should_anchor_term_advance (prev_term rt) (current_term m) (current_leader m) (leads g m))
    eqn:Eanchor;
  cbn in H; rewrite ?Eanchor in H; cbn in H;
  destruct (fence_gate_needs_apply (prev_should_fence rt) (negb (quorum g m))) eqn:Eg; cbn in H;
  destruct (cutover_authority_projection _ _ _) as [auth relay];
  injection H as <- <-; constructor; cbn;
  unfold anchor; rewrite ?(proj1 (sync_voter_ids_frame _ _)),
    ?(proj1 (proj2 (sync_voter_ids_frame _ _))), ?(proj1 (proj2 (proj2 (sync_voter_ids_frame _ _))));
  cbn; rewrite ?Eg, ?update_from_raft_anchor;
  try (unfold anchor_after; rewrite Elost, Eclear, Eanchor); try done; eauto;
  eexists; (split; [|reflexivity]); done.
Qed.

(** The watchdogs leave the gate, the term and the anchor alone. *)
Lemma metrics_watchdog_frame g ld now expire after s rt s' rt' :
  run_metrics_watchdog g ld now expire after s rt = (s', rt') →
  elections s' = elections s ∧ anchor s' = anchor s ∧ prev_term rt' = prev_term rt ∧
  prev_should_fence rt' = prev_should_fence rt ∧
  leaderless_since rt' = leaderless_since rt ∧
  leaderless_recovery_last_fired_at rt' = leaderless_recovery_last_fired_at rt ∧
  (fence s' = fence s ∧ lease s' = lease s ∨
   fenced (fence s') = true ∧ has_quorum (fence s') = false ∧
   lease s' = Lease.expire (lease s) expire).
Proof.
  unfold run_metrics_watchdog. destruct (_ <=? _); [by intros [= <- <-]; split_and!; auto|].
  destruct (bool_decide _); intros [= <- <-]; split_and!; auto.
Qed.

Lemma leaderless_watchdog_frame g m now after rt rt' elect :
  run_leaderless_watchdog g m now after rt = (rt', elect) →
  prev_term rt' = prev_term rt ∧ prev_should_fence rt' = prev_should_fence rt ∧
  leaderless_since rt' = leaderless_since rt.
Proof.
  unfold run_leaderless_watchdog. destruct (voter_rank _ _) as [[v rk] n].
  destruct (bool_decide _); [by intros [= <- <-]|]. destruct v; cbn; [|by intros [= <- <-]].
  destruct (leaderless_since rt) as [since|] eqn:E; [|by intros [= <- <-]].
  destruct (_ <? _); [by intros [= <- <-]|].
  match goal with |- context [if ?b then _ else _] => destruct b end; by intros [= <- <-].
Qed.

(** ** Elections and the fence follow quorum *)
Definition gate_inv (g : Governor) (evs : list Ev) (w : World) : Prop :=
  fenced (fence (shared w)) = negb (has_quorum (fence (shared w))) ∧
  match last_update evs with
  | None => True
  | Some (m, _) =>
      elections (shared w) = Some (quorum g m) ∧
      (fenced (fence (shared w)) = false → quorum g m = true)
  end ∧
  (∀ p, prev_should_fence (runtime w) = Some p →
     elections (shared w) = Some (negb p)).

Lemma last_update_snoc evs e :
  last_update (evs ++ [e]) = match processed e with Some u => Some u | None => last_update evs end.
Proof.
  unfold last_update. rewrite omap_app. simpl.
  destruct (processed e) as [u|]; simpl; [by rewrite last_snoc|by rewrite app_nil_r].
Qed.

Lemma check_frame a now w : shared (check a now w).1 = shared w ∧ runtime (check a now w).1 = runtime w.
Proof. done. Qed.

(** Outside the loop only the state and the anchor move. *)
Lemma neighbour_frame g w e :
  processed e = None → (∀ t, e ≠ Loop t) →
  let w' := (ev_step g w e).1 in
  fence (shared w') = fence (shared w) ∧ elections (shared w') = elections (shared w) ∧
  runtime w' = runtime w ∧
  Lease.expires_at (lease (shared w')) = Lease.expires_at (lease (shared w)) ∧
  Lease.duration (lease (shared w')) = Lease.duration (lease (shared w)) ∧
  Lease.is_leader (lease (shared w')) = Lease.is_leader (lease (shared w)).
Proof.
  intros _ Hl. destruct e as [t|cs|a n|n|seen]; simpl; try done.
  - by destruct (Hl t).
  - unfold Lease.promotion_anchor. by destruct (Lease.failover_anchor _).
  - destruct (bool_decide _); [|done]. simpl. unfold Lease.spend_failover_anchor.
    by destruct (bool_decide _).
Qed.

Lemma gate_inv_step g evs w e :
  gate_inv g evs w → gate_inv g (evs ++ [e]) (ev_step g w e).1.
Proof.
  intros (Hf & Hu & Hp). unfold gate_inv. rewrite last_update_snoc.
  destruct (processed e) as [[m r]|] eqn:Epr; [|destruct e as [t|cs|a n|n|seen]].
  2: destruct (update t) as [[[? ?] ?]|] eqn:Eu; [by unfold processed in Epr; rewrite Eu in Epr|].
  3-6: pose proof (neighbour_frame g w _ Epr ltac:(done)) as (-> & -> & -> & _); done.
  - destruct e as [t|cs|a n|n|seen]; try done. simpl in Epr.
    destruct (update t) as [[[m' at_] r']|] eqn:Eu; [|done]. injection Epr as -> ->.
    simpl. unfold turn. rewrite Eu.
    destruct (process_metrics_update _ _ _ _ _) as [s1 rt1] eqn:E1.
    apply process_updated in E1 as [Hel Hpf _ [Hfe Hq] _ _ _ _ _].
    destruct (run_metrics_watchdog _ _ _ _ _ s1 rt1) as [s2 rt2] eqn:E2.
    apply metrics_watchdog_frame in E2 as (He2 & _ & _ & Hp2 & _ & _ & Hfence).
    destruct (run_leaderless_watchdog _ _ _ _ rt2) as [rt3 el] eqn:E3.
    apply leaderless_watchdog_frame in E3 as (_ & Hp3 & _). simpl.
    assert (elections s1 = Some (quorum g m)) as Hels.
    { rewrite Hel. destruct (fence_gate_needs_apply _ _) eqn:Eg; [done|].
      cbn in Eg. unfold fence_gate_needs_apply in Eg.
      destruct (prev_should_fence (runtime w)) as [p|] eqn:Epp; [|done].
      rewrite (Hp p eq_refl). by destruct p, (quorum g m). }
    split_and!.
    + destruct Hfence as [[-> _]|(-> & -> & _)]; [by rewrite Hfe, Hq|done].
    + by rewrite He2.
    + destruct Hfence as [[-> _]|(-> & _ & _)]; [|done]. rewrite Hfe. by destruct (quorum g m).
    + intros p. rewrite Hp3, Hp2, Hpf. intros [= <-]. by rewrite He2, Hels, negb_involutive.
  - simpl. unfold turn. rewrite Eu.
    destruct (run_metrics_watchdog _ _ _ _ _ _ _) as [s2 rt2] eqn:E2.
    apply metrics_watchdog_frame in E2 as (He2 & _ & _ & Hp2 & _ & _ & Hfence).
    destruct (run_leaderless_watchdog _ _ _ _ rt2) as [rt3 el] eqn:E3.
    apply leaderless_watchdog_frame in E3 as (_ & Hp3 & _). simpl.
    rewrite He2, Hp3, Hp2. split_and!; [| |exact Hp].
    + destruct Hfence as [[-> _]|(-> & -> & _)]; done.
    + destruct (last_update evs) as [[m r]|]; [|done]. destruct Hu as [Hu1 Hu2].
      split; [done|]. destruct Hfence as [[-> _]|(-> & _ & _)]; done.
Qed.

(** ** The lease needs a recent quorum *)
Definition sane_ev (e : Ev) : Prop :=
  match processed e with
  | Some (m, r) => ∀ b, 0 ≤ quorum_ack_age m b ∧ instant_min ≤ at_lease r - quorum_ack_age m b
  | None => True
  end.

(** The last update led with quorum, and [t] is less than a lease after the quorum
    contact it reported. *)
Definition backed (g : Governor) (evs : list Ev) (t : Instant) : Prop :=
  ∃ m r, last_update evs = Some (m, r) ∧ leads g m = true ∧ quorum g m = true ∧
    t < at_lease r - quorum_ack_age m true + DEFAULT_LEASE_DURATION.

Definition lease_inv (g : Governor) (t : Instant) (evs : list Ev) (w : World) : Prop :=
  Lease.duration (lease (shared w)) = DEFAULT_LEASE_DURATION ∧
  (Lease.is_valid (lease (shared w)) t = true → backed g evs t).

Lemma expire_invalid l x t : x ≤ t → Lease.is_valid (Lease.expire l x) t = false.
Proof.
  intros Hx. unfold Lease.is_valid, Lease.expire, checked_sub; cbn.
  destruct (instant_min <=? x - 1); cbn; apply andb_false_intro2, Z.ltb_ge; lia.
Qed.

Lemma watchdog_lease g ld now expire after s rt s' rt' t :
  run_metrics_watchdog g ld now expire after s rt = (s', rt') → expire ≤ t →
  Lease.duration (lease s') = Lease.duration (lease s) ∧
  (Lease.is_valid (lease s') t = true → lease s' = lease s).
Proof.
  intros H Hx. apply metrics_watchdog_frame in H as (_ & _ & _ & _ & _ & _ & [[_ ->]|(_ & _ & ->)]).
  - done.
  - split; [done|]. by rewrite expire_invalid.
Qed.

Lemma lease_inv_step g t evs w e :
  sane_ev e → Forall (λ x, x ≤ t) (ev_times e) →
  lease_inv g t evs w → lease_inv g t (evs ++ [e]) (ev_step g w e).1.
Proof.
  intros Hs Ht [Hd Hv]. unfold lease_inv, backed. rewrite last_update_snoc.
  destruct e as [u|cs|a n|n|seen].
  2-5: match goal with |- context [ev_step ?g ?w ?e] =>
      pose proof (neighbour_frame g w e eq_refl ltac:(done)) as (_ & _ & _ & He & Hd' & Hl) end;
    unfold Lease.is_valid in *; cbv zeta in *; rewrite Hd', He, Hl; done.
  cbn [processed]. simpl. unfold turn. cbn [ev_times] in Ht. unfold turn_times in Ht.
  apply Forall_app in Ht as [Hup Hdog].
  assert (at_expire u ≤ t) as Hex by (rewrite !Forall_cons in Hdog; tauto).
  destruct (update u) as [[[m at_] r]|] eqn:Eu; simpl.
  - destruct (process_metrics_update _ _ _ _ _) as [s1 rt1] eqn:E1.
    apply process_updated in E1 as [_ _ _ _ (l & Hl & Hle) _ _ _ _].
    destruct (run_metrics_watchdog _ _ _ _ _ s1 rt1) as [s2 rt2] eqn:E2.
    eapply watchdog_lease in E2 as [Hd2 Hv2]; [|exact Hex].
    destruct (run_leaderless_watchdog _ _ _ _ rt2) as [rt3 el]. simpl.
    rewrite Hd2. rewrite Hle, update_from_raft_duration, Hl. split; [done|].
    intros Hval. rewrite (Hv2 Hval), Hle in Hval.
    pose proof (update_valid l (Update_ (at_lease r) (leads g m) (quorum g m)
      (quorum_ack_age m (leads g m))) t) as Huv.
    unfold sane_ev in Hs. cbn [processed] in Hs. rewrite Eu in Hs. cbn in Hs.
    rewrite !Forall_cons in Hup.
    unfold LeaseProofs.update, sane, contact in Huv; cbn in Huv.
    rewrite Huv in Hval by (try apply Hs; tauto).
    apply andb_true_iff in Hval as [[Hlead Hq]%andb_true_iff Hlt]. rewrite Hlead in Hlt.
    apply Z.ltb_lt in Hlt. exists m, r. split_and!; [done|done|done|]. lia.
  - destruct (run_metrics_watchdog _ _ _ _ _ _ _) as [s2 rt2] eqn:E2.
    eapply watchdog_lease in E2 as [Hd2 Hv2]; [|exact Hex].
    destruct (run_leaderless_watchdog _ _ _ _ rt2) as [rt3 el]. simpl.
    rewrite Hd2. split; [done|]. intros Hval. rewrite (Hv2 Hval) in Hval. by apply Hv.
Qed.

(** ** The hold-down outlives the term advance *)
Lemma holddown_released b p :
  promotion_lease_holddown (Some b) p DEFAULT_LEASE_DURATION = None → b + DEFAULT_LEASE_DURATION ≤ p.
Proof.
  unfold promotion_lease_holddown, checked_duration_since. cbn -[DEFAULT_LEASE_DURATION].
  assert (0 < DEFAULT_LEASE_DURATION) by done.
  destruct (Z.leb_spec b p); cbn -[DEFAULT_LEASE_DURATION];
    match goal with |- context [?x <? ?y] => destruct (Z.ltb_spec x y) end; try done; lia.
Qed.

Definition no_other_leader (g : Governor) (e : Ev) : Prop :=
  match processed e with
  | Some (m, _) => current_leader m = None ∨ current_leader m = Some (node_id g)
  | None => True
  end.

(** Every anchor let through is a lease old; the anchor now is no older than [a],
    or was spent a lease after it. *)
Definition passed (T : Instant) (w : World) : Prop :=
  ∀ b, Some b ∈ released w → b + DEFAULT_LEASE_DURATION ≤ T.
Definition held_since (a T : Instant) (w : World) : Prop :=
  match anchor (shared w) with
  | Some b => a ≤ b
  | None => a + DEFAULT_LEASE_DURATION ≤ T
  end.

Lemma turn_anchor g u w :
  anchor (shared (ev_step g w (Loop u)).1) =
    match update u with
    | Some (m, at_, r) => anchor_after g m r (set_last_metrics_update at_ (runtime w)) (anchor (shared w))
    | None => anchor (shared w)
    end ∧ released (ev_step g w (Loop u)).1 = released w.
Proof.
  simpl. unfold turn. destruct (update u) as [[[m at_] r]|].
  - destruct (process_metrics_update _ _ _ _ _) as [s1 rt1] eqn:E1.
    apply process_updated in E1 as [_ _ _ _ _ Ha _ _ _].
    destruct (run_metrics_watchdog _ _ _ _ _ s1 rt1) as [s2 rt2] eqn:E2.
    apply metrics_watchdog_frame in E2 as (_ & Ha2 & _).
    destruct (run_leaderless_watchdog _ _ _ _ rt2) as [rt3 el]. simpl. by rewrite Ha2, Ha.
  - destruct (run_metrics_watchdog _ _ _ _ _ _ _) as [s2 rt2] eqn:E2.
    apply metrics_watchdog_frame in E2 as (_ & Ha2 & _).
    destruct (run_leaderless_watchdog _ _ _ _ rt2) as [rt3 el]. simpl. by rewrite Ha2.
Qed.

Lemma check_passed a now T w :
  passed T w → T ≤ now → passed now (check a now w).1.
Proof.
  intros Hp HT b. unfold check. cbn [released].
  destruct (bool_decide _) eqn:E; cbn [fst released]; intros Hb.
  - apply bool_decide_eq_true in E. apply elem_of_cons in Hb as [<-|Hb].
    + by apply holddown_released.
    + specialize (Hp b Hb). lia.
  - specialize (Hp b Hb). lia.
Qed.

Lemma passed_step g T w e :
  forward T (ev_times e) → passed T w → passed (ends T (ev_times e)) (ev_step g w e).1.
Proof.
  intros Hf Hp. destruct e as [u|cs|a n|n|seen].
  - unfold passed. rewrite (proj2 (turn_anchor g u w)). intros b Hb. specialize (Hp b Hb).
    apply forward_ends in Hf as [? _]. lia.
  - exact Hp.
  - cbn [ev_step]. destruct (Lease.promotion_anchor _ _) as [l a'].
    cbn in Hf. change (ends T (ev_times (PromoteCheck a n))) with n. eapply check_passed; [exact Hp|lia].
  - cbn in Hf. change (ends T (ev_times (OpenCheck n))) with n. eapply check_passed; [exact Hp|lia].
  - cbn [ev_step]. by destruct (bool_decide _).
Qed.

Lemma held_step g a T w e :
  a ≤ T → forward T (ev_times e) → no_other_leader g e → passed T w →
  held_since a T w → held_since a (ends T (ev_times e)) (ev_step g w e).1.
Proof.
  intros Ha Hf Hno Hp Hh. pose proof (forward_ends _ _ Hf) as [HT Hin].
  assert (∀ x, x ∈ ev_times e → T ≤ x) as Hge.
  { clear -Hf. revert T Hf; induction (ev_times e) as [|y l IH]; intros T Hf x Hx; [inversion Hx|].
    destruct Hf as [Hy Hf]. apply elem_of_cons in Hx as [->|Hx]; [done|].
    specialize (IH y Hf x Hx). lia. }
  destruct e as [u|cs|at_ n|n|seen].
  - unfold held_since. rewrite (proj1 (turn_anchor g u w)). unfold held_since in Hh.
    assert (match anchor (shared w) with
            | Some b => a ≤ b | None => a + DEFAULT_LEASE_DURATION ≤ ends T (ev_times (Loop u)) end) as Hh'
      by (destruct (anchor (shared w)); lia).
    destruct (update u) as [[[m at_] r]|] eqn:Eu; [|exact Hh'].
    unfold no_other_leader, processed in Hno. rewrite Eu in Hno. cbn in Hno.
    assert (should_clear_stale_failover_anchor (current_leader m) (leads g m) = false) as Hc.
    { unfold should_clear_stale_failover_anchor, leads. destruct Hno as [->| ->]; [done|].
      by rewrite !bool_decide_eq_true_2 by eauto. }
    unfold anchor_after. rewrite Hc.
    assert (T ≤ at_lost r ∧ T ≤ at_anchor r) as [Hl Han].
    { split; apply Hge; cbn [ev_times]; unfold turn_times; rewrite Eu; set_solver. }
    destruct (should_anchor_term_advance _ _ _ _); [lia|].
    destruct (_ && _); [lia|exact Hh'].
  - exact Hh.
  - cbn [ev_step ev_times] in *. unfold held_since, Lease.promotion_anchor in *.
    fold (anchor (shared w)) in *. unfold anchor in *.
    destruct (Lease.failover_anchor (lease (shared w))) as [b|] eqn:Eb; cbn; rewrite ?Eb; [lia|].
    specialize (Hge at_ ltac:(set_solver)). lia.
  - cbn [ev_step ev_times] in *. unfold held_since in *. cbn in *.
    destruct (anchor (shared w)); lia.
  - cbn [ev_step ev_times] in *. destruct (bool_decide (seen ∈ released w)) eqn:E; [|exact Hh].
    apply bool_decide_eq_true in E. unfold held_since, anchor, Lease.spend_failover_anchor in *. cbn.
    destruct (bool_decide (Lease.failover_anchor (lease (shared w)) = seen)) eqn:E2; [|exact Hh].
    apply bool_decide_eq_true in E2. cbn. rewrite E2 in Hh. destruct seen as [b|]; [|exact Hh].
    specialize (Hp b E). unfold ends. cbn. lia.
Qed.

(** Running a list of events with both invariants. *)
Lemma times_app a b : times (a ++ b) = times a ++ times b.
Proof. unfold times. by rewrite fmap_app, concat_app. Qed.

Lemma times_snoc a e : times (a ++ [e]) = times a ++ ev_times e.
Proof. rewrite times_app. unfold times at 2. cbn. by rewrite app_nil_r. Qed.

Lemma ends_app t a b : ends t (a ++ b) = ends (ends t a) b.
Proof. unfold ends. rewrite last_app. by destruct (last b). Qed.

Lemma run_passed g T w evs :
  forward T (times evs) → passed T w → passed (ends T (times evs)) (ev_run g w evs).
Proof.
  induction evs as [|e evs IH] using rev_ind; intros Hf Hp; [exact Hp|].
  rewrite times_snoc in *. apply forward_app in Hf as [Hf He].
  rewrite ev_run_app, ends_app. cbn. apply passed_step; [done|by apply IH].
Qed.

Lemma run_held g a T w evs :
  a ≤ T → forward T (times evs) → Forall (no_other_leader g) evs → passed T w →
  held_since a T w → held_since a (ends T (times evs)) (ev_run g w evs).
Proof.
  intros Ha. induction evs as [|e evs IH] using rev_ind; intros Hf Hno Hp Hh; [exact Hh|].
  rewrite times_snoc in *. apply forward_app in Hf as [Hf He].
  apply Forall_app in Hno as [Hno Hne]. rewrite Forall_singleton in Hne.
  rewrite ev_run_app, ends_app. cbn. pose proof (forward_ends _ _ Hf) as [? _].
  apply held_step; [lia|exact He|exact Hne|by apply run_passed|by apply IH].
Qed.

(** ** The leaderless schedule *)
Definition slot (rank k voters timeout_ms : Z) : Duration :=
  leaderless_threshold rank timeout_ms + k * leaderless_cooldown voters timeout_ms.

(** Below the saturation bounds the windows are plain products. *)
Lemma threshold_exact rank timeout_ms :
  0 ≤ rank → rank * 8 + 5 ≤ u32_max → 0 ≤ timeout_ms ≤ u32_max →
  leaderless_threshold rank timeout_ms = (5 + rank * 8) * timeout_ms * ms.
Proof.
  intros Hr Hb Ht. unfold leaderless_threshold, sat_mul, sat_add,
    LEADERLESS_RECOVERY_BASE_TIMEOUTS, LEADERLESS_RECOVERY_STAGGER_TIMEOUTS.
  rewrite (Z.min_r u32_max (rank * 8)), (Z.min_r u32_max (5 + rank * 8)) by lia.
  rewrite Z.min_r; [done|]. assert (u32_max * u32_max ≤ u64_max) by done. nia.
Qed.

Lemma cooldown_exact voters timeout_ms :
  1 ≤ voters → voters * 8 ≤ u32_max → 0 ≤ timeout_ms ≤ u32_max →
  leaderless_cooldown voters timeout_ms = voters * 8 * timeout_ms * ms.
Proof.
  intros Hr Hb Ht. unfold leaderless_cooldown, sat_mul, LEADERLESS_RECOVERY_STAGGER_TIMEOUTS.
  rewrite (Z.max_l voters 1), (Z.min_r u32_max (voters * 8)) by lia.
  rewrite Z.min_r; [done|]. assert (u32_max * u32_max ≤ u64_max) by done. nia.
Qed.

(** When a turn forces an election. *)
Lemma leaderless_watchdog_fires g m now after rt rt' :
  run_leaderless_watchdog g m now after rt = (rt', true) →
  current_leader m = None ∧ leaderless_recovery_last_fired_at rt' = Some after ∧
  let '(is_voter, rank, voters) := voter_rank (node_id g) (membership_voters m) in
  is_voter = true ∧
  (∃ since, leaderless_since rt = Some since ∧
     leaderless_threshold rank (election_timeout_ms g) ≤ saturating_duration_since now since) ∧
  (∀ fired, leaderless_recovery_last_fired_at rt = Some fired →
     leaderless_cooldown voters (election_timeout_ms g) ≤ saturating_duration_since now fired).
Proof.
  unfold run_leaderless_watchdog. destruct (voter_rank _ _) as [[v rk] n].
  destruct (bool_decide _) eqn:El; [done|]. apply bool_decide_eq_false in El.
  destruct v; cbn; [|by intros [= <-]].
  destruct (leaderless_since rt) as [since|] eqn:E; [|by intros [= <-]].
  destruct (Z.ltb_spec (saturating_duration_since now since)
    (leaderless_threshold rk (election_timeout_ms g))); [done|].
  destruct (leaderless_recovery_last_fired_at rt) as [fired|] eqn:Ef.
  - destruct (Z.ltb_spec (saturating_duration_since now fired)
      (leaderless_cooldown n (election_timeout_ms g))); [done|].
    intros [= <-]. split_and!; [by destruct (current_leader m); [destruct El|]|done|done|eauto|].
    by intros ? [= <-].
  - intros [= <-]. split_and!; [by destruct (current_leader m); [destruct El|]|done|done|eauto|done].
Qed.

Definition fires (g : Governor) (w : World) (t : Turn) : Prop :=
  (turn g t (shared w) (runtime w)).2 = true.

(** The runtime a turn's leaderless watchdog runs on, and what it leaves. *)
Lemma turn_leaderless g t w :
  ∃ rt, leaderless_recovery_last_fired_at rt = leaderless_recovery_last_fired_at (runtime w) ∧
    (turn g t (shared w) (runtime w)).2 =
      (run_leaderless_watchdog g (seen t) (at_leaderless t) (after_leaderless t) rt).2 ∧
    runtime (ev_step g w (Loop t)).1 =
      (run_leaderless_watchdog g (seen t) (at_leaderless t) (after_leaderless t) rt).1.
Proof.
  simpl. unfold turn. destruct (update t) as [[[m at_] r]|].
  - destruct (process_metrics_update _ _ _ _ _) as [s1 rt1] eqn:E1.
    apply process_updated in E1 as [_ _ _ _ _ _ _ Hf _].
    destruct (run_metrics_watchdog _ _ _ _ _ s1 rt1) as [s2 rt2] eqn:E2.
    apply metrics_watchdog_frame in E2 as (_ & _ & _ & _ & _ & Hf2 & _).
    exists rt2. destruct (run_leaderless_watchdog _ _ _ _ rt2) as [rt3 el]. simpl.
    split_and!; [by rewrite Hf2, Hf|done|done].
  - destruct (run_metrics_watchdog _ _ _ _ _ _ _) as [s2 rt2] eqn:E2.
    apply metrics_watchdog_frame in E2 as (_ & _ & _ & _ & _ & Hf2 & _).
    exists rt2. destruct (run_leaderless_watchdog _ _ _ _ rt2) as [rt3 el]. simpl.
    split_and!; [by rewrite Hf2|done|done].
Qed.

(** The last forced election is remembered until a leader is seen. *)
Definition fired_since (f : Instant) (w : World) : Prop :=
  ∃ f', leaderless_recovery_last_fired_at (runtime w) = Some f' ∧ f ≤ f'.
Definition sees_no_leader (e : Ev) : Prop :=
  match e with Loop t => current_leader (seen t) = None | _ => True end.

Lemma leaderless_watchdog_keeps g m now after rt f :
  current_leader m = None → leaderless_recovery_last_fired_at rt = Some f → f ≤ after →
  ∃ f', leaderless_recovery_last_fired_at (run_leaderless_watchdog g m now after rt).1 = Some f' ∧
    f ≤ f'.
Proof.
  intros Hm Hf Ha. unfold run_leaderless_watchdog. rewrite Hm. cbn.
  destruct (voter_rank _ _) as [[v rk] n]. destruct v; cbn; [|eauto with lia].
  destruct (leaderless_since rt); [|eauto with lia].
  destruct (_ <? _); [eauto with lia|]. rewrite Hf. destruct (_ <? _); cbn; eauto with lia.
Qed.

Lemma ends_after_leaderless T t : ends T (turn_times t) = after_leaderless t.
Proof. unfold turn_times. rewrite ends_app. done. Qed.

Lemma fired_since_step g f T w e :
  f ≤ T → forward T (ev_times e) → sees_no_leader e → fired_since f w →
  fired_since f (ev_step g w e).1.
Proof.
  intros Hf Ht Hs (f' & Hf' & Hle). destruct e as [t|cs|a n|n|seen'].
  2-5: match goal with |- fired_since _ (ev_step ?g ?w ?e).1 =>
      pose proof (neighbour_frame g w e eq_refl ltac:(done)) as (_ & _ & Hr & _) end;
    unfold fired_since; rewrite Hr; eauto.
  destruct (turn_leaderless g t w) as (rt & Hrt & _ & Hr). unfold fired_since. rewrite Hr.
  rewrite Hf' in Hrt. apply forward_ends in Ht as [HT _]. cbn [ev_times] in HT.
  rewrite ends_after_leaderless in HT.
  destruct (Z.leb_spec f' (after_leaderless t)).
  - destruct (leaderless_watchdog_keeps g (seen t) (at_leaderless t) (after_leaderless t) rt f' Hs Hrt)
      as (f2 & ? & ?); [done|]. exists f2. split; [done|lia].
  - (* a fire later than the clock says: it is kept or replaced by this turn's *)
    unfold run_leaderless_watchdog. cbn in Hs. rewrite Hs. cbn.
    destruct (voter_rank _ _) as [[v rk] n]. destruct v; cbn; [|eauto].
    destruct (leaderless_since rt); [|eauto]. destruct (_ <? _); [eauto|]. rewrite Hrt.
    destruct (_ <? _); cbn; [eauto|]. exists (after_leaderless t). split; [done|lia].
Qed.

Lemma run_fired_since g f T w evs :
  f ≤ T → forward T (times evs) → Forall sees_no_leader evs → fired_since f w →
  fired_since f (ev_run g w evs).
Proof.
  intros Hf. induction evs as [|e evs IH] using rev_ind; intros Ht Hs Hw; [exact Hw|].
  rewrite times_snoc in Ht. apply forward_app in Ht as [Ht He].
  apply Forall_app in Hs as [Hs Hse]. rewrite Forall_singleton in Hse.
  rewrite ev_run_app. cbn. pose proof (forward_ends _ _ Ht) as [? _].
  eapply fired_since_step; [|exact He|exact Hse|by apply IH]. lia.
Qed.

(** ** Properties *)

(** The node as it starts: no update processed, no lease, no hold-down passed. *)
Definition booted (w : World) : Prop :=
  prev_should_fence (runtime w) = None ∧
  fenced (fence (shared w)) = negb (has_quorum (fence (shared w))) ∧
  Lease.duration (lease (shared w)) = DEFAULT_LEASE_DURATION ∧
  Lease.is_leader (lease (shared w)) = false ∧
  released w = [].

(** CheckQuorum: from boot, whatever the log, the reconciler and the watchdogs do
    in between, elections are enabled exactly when the last metrics update processed
    held quorum, from the first update on; and the fence channel is lifted only then,
    its [fenced] and [has_quorum] always opposite. *)
Lemma quorum_gates_elections_and_fence g w evs m r :
  booted w → last_update evs = Some (m, r) →
  elections (shared (ev_run g w evs)) = Some (quorum g m) ∧
  fenced (fence (shared (ev_run g w evs))) = negb (has_quorum (fence (shared (ev_run g w evs)))) ∧
  (fenced (fence (shared (ev_run g w evs))) = false → quorum g m = true).
Proof.
  intros (Hp & Hf & _) Hl.
  assert (gate_inv g evs (ev_run g w evs)) as (H1 & H2 & _).
  { clear Hl. induction evs as [|e evs IH] using rev_ind.
    - split_and!; [exact Hf|done|]. intros p. unfold ev_run. cbn. by rewrite Hp.
    - rewrite ev_run_app. by apply gate_inv_step. }
  rewrite Hl in H2. tauto.
Qed.

(** Write authority needs a quorum that answered lately: from boot, the lease is
    valid at [t] only if the last metrics update processed named this node the leader
    with quorum, and [t] is less than one lease duration after the quorum
    acknowledgement that update reported. *)
Lemma valid_lease_needs_recent_quorum g w evs t :
  booted w → Forall sane_ev evs → Forall (λ x, x ≤ t) (times evs) →
  Lease.is_valid (lease (shared (ev_run g w evs))) t = true → backed g evs t.
Proof.
  intros (_ & _ & Hd & Hl & _) Hs Ht.
  assert (lease_inv g t evs (ev_run g w evs)) as [_ H]; [|exact H].
  induction evs as [|e evs IH] using rev_ind.
  - split; [exact Hd|]. unfold Lease.is_valid, ev_run. cbn. by rewrite Hl.
  - rewrite times_snoc in Ht. apply Forall_app in Hs as [Hs Hse], Ht as [Ht Hte].
    rewrite Forall_singleton in Hse. rewrite ev_run_app. apply lease_inv_step; auto.
Qed.

(** No premature takeover: once an update shows the term advancing while no other
    node leads, every promotion or opening this node's hold-down lets through comes at
    least one lease duration after that update's reading, until another leader is seen.
    Log entries, later updates and stale spends of the anchor may fall anywhere. *)
Lemma no_opening_within_a_lease_of_a_term_advance g w evs1 t m at_ r evs2 e p :
  booted w →
  forward 0 (times (evs1 ++ Loop t :: evs2 ++ [e])) →
  update t = Some (m, at_, r) →
  0 < prev_term (runtime (ev_run g w evs1)) < current_term m →
  Forall (no_other_leader g) (Loop t :: evs2) →
  e = OpenCheck p ∨ (∃ at_stamp, e = PromoteCheck at_stamp p) →
  (ev_step g (ev_run g w (evs1 ++ Loop t :: evs2)) e).2 = true →
  at_anchor r + DEFAULT_LEASE_DURATION ≤ p.
Proof.
  intros (_ & _ & _ & _ & Hrel) Hf Hu Hterm Hno He.
  assert (times (evs1 ++ Loop t :: evs2 ++ [e]) =
    times evs1 ++ ev_times (Loop t) ++ times evs2 ++ ev_times e) as Et.
  { rewrite times_app. change (Loop t :: evs2 ++ [e]) with ([Loop t] ++ evs2 ++ [e]).
    rewrite times_app, times_snoc. unfold times at 2. cbn [fmap list_fmap concat].
    by rewrite app_nil_r. }
  rewrite Et in Hf. clear Et.
  apply forward_app in Hf as [Hf1 Hf]. apply forward_app in Hf as [Hft Hf].
  apply forward_app in Hf as [Hf2 Hfe].
  apply Forall_cons in Hno as [Hnot Hno].
  assert (passed 0 w) as Hp0 by (intros b; rewrite Hrel; intros H; inversion H).
  pose proof (run_passed g 0 w evs1 Hf1 Hp0) as Hp1.
  set (T1 := ends 0 (times evs1)) in *. set (w1 := ev_run g w evs1) in *.
  assert (held_since (at_anchor r) (ends T1 (ev_times (Loop t))) (ev_step g w1 (Loop t)).1) as Hh.
  { unfold held_since. rewrite (proj1 (turn_anchor g t w1)), Hu. unfold anchor_after.
    replace (should_anchor_term_advance _ _ _ _) with true; [lia|]. symmetry.
    unfold no_other_leader, processed in Hnot. rewrite Hu in Hnot. cbn in Hnot.
    unfold should_anchor_term_advance, leads. cbn [prev_term set_last_metrics_update].
    destruct Hnot as [-> | ->].
    - cbn. lia.
    - rewrite !bool_decide_eq_true_2 by eauto. cbn. lia. }
  assert (at_anchor r ≤ ends T1 (ev_times (Loop t))) as Hle.
  { pose proof (forward_ends _ _ Hft) as [_ Hin]. apply Hin. cbn [ev_times]. unfold turn_times.
    rewrite Hu. set_solver. }
  pose proof (passed_step g T1 w1 (Loop t) Hft Hp1) as Hp2.
  pose proof (run_held g _ _ _ evs2 Hle Hf2 Hno Hp2 Hh) as Hend.
  rewrite ev_run_app. fold w1. change (ev_run g w1 (Loop t :: evs2))
    with (ev_run g (ev_step g w1 (Loop t)).1 evs2).
  set (w2 := ev_run g _ evs2) in *. unfold held_since in Hend.
  pose proof (forward_ends _ _ Hf2) as [Hle2 _].
  destruct He as [->|[at_stamp ->]]; cbn [ev_step ev_times forward] in *.
  - unfold check. cbn [snd]. rewrite bool_decide_eq_true. unfold anchor in Hend.
    destruct (Lease.failover_anchor (lease (shared w2))) as [b|]; [|intros _; lia].
    intros Hr%holddown_released. lia.
  - unfold Lease.promotion_anchor. unfold anchor in Hend.
    destruct (Lease.failover_anchor (lease (shared w2))) as [b|]; unfold check; cbn [snd];
      rewrite bool_decide_eq_true; intros Hr%holddown_released; lia.
Qed.

(** The leaderless schedule never puts two forced elections on top of each other:
    the slots of every voter and every round ([slot rank k]: its threshold and [k]
    cooldowns) are pairwise at least one full stagger of election timeouts apart. *)
Lemma leaderless_slots_are_a_stagger_apart voters timeout_ms rank1 k1 rank2 k2 :
  0 ≤ timeout_ms ≤ u32_max → voters * 8 + 5 ≤ u32_max →
  0 ≤ rank1 < voters → 0 ≤ rank2 < voters → 0 ≤ k1 → 0 ≤ k2 → (rank1, k1) ≠ (rank2, k2) →
  LEADERLESS_RECOVERY_STAGGER_TIMEOUTS * timeout_ms * ms ≤
    Z.abs (slot rank1 k1 voters timeout_ms - slot rank2 k2 voters timeout_ms).
Proof.
  intros Ht Hv H1 H2 Hk1 Hk2 Hne. unfold slot.
  rewrite !threshold_exact, !cooldown_exact by lia. unfold LEADERLESS_RECOVERY_STAGGER_TIMEOUTS.
  assert (1 ≤ Z.abs ((rank1 + k1 * voters) - (rank2 + k2 * voters))) as Hd.
  { assert (rank1 + k1 * voters ≠ rank2 + k2 * voters) as Hx; [|lia].
    intros Heq. destruct (Z.lt_trichotomy k1 k2) as [|[->|]]; [nia| |nia].
    apply Hne. f_equal; lia. }
  replace ((5 + rank1 * 8) * timeout_ms * ms + k1 * (voters * 8 * timeout_ms * ms) -
           ((5 + rank2 * 8) * timeout_ms * ms + k2 * (voters * 8 * timeout_ms * ms)))
    with (((rank1 + k1 * voters) - (rank2 + k2 * voters)) * (8 * timeout_ms * ms)) by ring.
  rewrite Z.abs_mul, (Z.abs_eq (8 * timeout_ms * ms)) by (unfold ms; lia).
  assert (0 ≤ 8 * timeout_ms * ms) by (unfold ms; lia). nia.
Qed.

(** C39. A voter that forced an election waits a whole pass over the rank schedule
    before it forces another, however many turns run and whatever else happens, as
    long as it saw no leader in between; and it forces none before its rank's
    threshold of leaderless time has passed. *)
Theorem forced_elections_wait_their_turn g w evs1 t1 evs2 t2 :
  0 < election_timeout_ms g ≤ u32_max →
  forward 0 (times (evs1 ++ Loop t1 :: evs2 ++ [Loop t2])) →
  Forall sees_no_leader evs2 →
  fires g (ev_run g w evs1) t1 → fires g (ev_run g w (evs1 ++ Loop t1 :: evs2)) t2 →
  let '(is_voter, rank, voters) := voter_rank (node_id g) (membership_voters (seen t2)) in
  is_voter = true ∧
  after_leaderless t1 + leaderless_cooldown voters (election_timeout_ms g) ≤ at_leaderless t2.
Proof.
  intros Hg Hf Hs Hfire1 Hfire2.
  assert (times (evs1 ++ Loop t1 :: evs2 ++ [Loop t2]) =
    times evs1 ++ ev_times (Loop t1) ++ times evs2 ++ ev_times (Loop t2)) as Et.
  { rewrite times_app. change (Loop t1 :: evs2 ++ [Loop t2]) with ([Loop t1] ++ evs2 ++ [Loop t2]).
    rewrite times_app, times_snoc. unfold times at 2. cbn [fmap list_fmap concat].
    by rewrite app_nil_r. }
  rewrite Et in Hf. clear Et. apply forward_app in Hf as [Hf1 Hf]. apply forward_app in Hf as [Hft Hf].
  apply forward_app in Hf as [Hf2 Hfe]. set (T1 := ends 0 (times evs1)) in *.
  cbn [ev_times] in Hf2, Hfe. rewrite ends_after_leaderless in Hf2, Hfe.
  rewrite ev_run_app in Hfire2. set (w1 := ev_run g w evs1) in *.
  change (ev_run g w1 (Loop t1 :: evs2)) with (ev_run g (ev_step g w1 (Loop t1)).1 evs2) in Hfire2.
  assert (fired_since (after_leaderless t1) (ev_step g w1 (Loop t1)).1) as Hfs.
  { destruct (turn_leaderless g t1 w1) as (rt & _ & He & Hr). unfold fires in Hfire1.
    rewrite He in Hfire1. unfold fired_since. rewrite Hr.
    destruct (run_leaderless_watchdog _ _ _ _ rt) as [rt' el] eqn:E. cbn in *. subst el.
    apply leaderless_watchdog_fires in E as (_ & -> & _). exists (after_leaderless t1). split; [done|lia]. }
  assert (after_leaderless t1 ≤ ends (after_leaderless t1) (times evs2)) as Hle
    by (by apply forward_ends in Hf2 as [? _]).
  pose proof (run_fired_since g (after_leaderless t1) (after_leaderless t1) _ evs2
    ltac:(lia) Hf2 Hs Hfs) as (f' & Hf' & Hff).
  set (w2 := ev_run g _ evs2) in *.
  destruct (turn_leaderless g t2 w2) as (rt & Hrt & He & _). unfold fires in Hfire2.
  rewrite He in Hfire2. destruct (run_leaderless_watchdog _ _ _ _ rt) as [rt' el] eqn:E.
  cbn in Hfire2. subst el. apply leaderless_watchdog_fires in E as (_ & _ & E).
  destruct (voter_rank _ _) as [[v rk] n]. destruct E as (-> & _ & Hc). split; [done|].
  rewrite Hf' in Hrt. specialize (Hc f' Hrt).
  assert (0 < leaderless_cooldown n (election_timeout_ms g)).
  { unfold leaderless_cooldown, sat_mul, LEADERLESS_RECOVERY_STAGGER_TIMEOUTS, ms.
    assert (0 < u32_max ∧ 0 < u64_max) by done. nia. }
  unfold saturating_duration_since in Hc. lia.
Qed.

(** ** Witnesses *)

(** Node 1 of three sees term 1 under node 2, then node 2's silence and a new term,
    then wins it. *)
Definition node1 : Governor := Governor_ 1 1000 (lit "blue") None.
Definition world0 : World :=
  World_ (Shared_ new None unfenced (Lease.with_clock 0) None) (at_boot 0 1 true) [].
Definition metrics (leader : option NodeId) (term : Z) (ack : option Z) : MetricsView :=
  MetricsView_ leader term ack [1; 2; 3].
Definition reads (at_ : Instant) : Readings := Readings_ at_ at_ at_ at_.
Definition tick_at (m : MetricsView) (at_ : Instant) : Turn :=
  Turn_ (Some (m, at_, reads at_)) m at_ at_ at_ at_ at_.

Definition following : Turn := tick_at (metrics (Some 2) 1 None) (1 * secs).
Definition campaign : Turn := tick_at (metrics None 2 None) (3 * secs).
Definition elected : Turn := tick_at (metrics (Some 1) 2 (Some 10)) (4 * secs).

Lemma world0_booted : booted world0.
Proof. done. Qed.

Lemma quorum_gates_elections_and_fence_witness :
  elections (shared (ev_run node1 world0 [Loop following; Loop campaign])) = Some false ∧
  fenced (fence (shared (ev_run node1 world0 [Loop following; Loop campaign]))) = true.
Proof.
  pose proof (quorum_gates_elections_and_fence node1 world0 [Loop following; Loop campaign]
    (metrics None 2 None) (reads (3 * secs)) world0_booted eq_refl) as (H1 & H2 & _).
  split; [exact H1|]. rewrite H2. by vm_compute.
Defined.

Lemma valid_lease_needs_recent_quorum_witness :
  Lease.is_valid
    (lease (shared (ev_run node1 world0 [Loop following; Loop campaign; Loop elected]))) (5 * secs)
    = true ∧
  backed node1 [Loop following; Loop campaign; Loop elected] (5 * secs).
Proof.
  assert (Lease.is_valid
    (lease (shared (ev_run node1 world0 [Loop following; Loop campaign; Loop elected]))) (5 * secs)
    = true) as Hv by (by vm_compute).
  split; [exact Hv|].
  refine (valid_lease_needs_recent_quorum node1 world0 _ _ world0_booted _ _ Hv).
  - do 3 (constructor; [intros b; split; destruct b; vm_compute; discriminate|]). constructor.
  - repeat (constructor; [vm_compute; discriminate|]). constructor.
Defined.

Lemma no_opening_within_a_lease_of_a_term_advance_witness :
  (ev_step node1 (ev_run node1 world0 [Loop following; Loop campaign; Loop elected])
     (PromoteCheck (6 * secs) (6 * secs))).2 = true ∧
  3 * secs + DEFAULT_LEASE_DURATION ≤ 6 * secs.
Proof.
  assert ((ev_step node1 (ev_run node1 world0 [Loop following; Loop campaign; Loop elected])
     (PromoteCheck (6 * secs) (6 * secs))).2 = true) as Hp by (by vm_compute).
  split; [exact Hp|].
  refine (no_opening_within_a_lease_of_a_term_advance node1 world0 [Loop following] campaign
    (metrics None 2 None) (3 * secs) (reads (3 * secs)) [Loop elected]
    (PromoteCheck (6 * secs) (6 * secs)) (6 * secs) world0_booted _ eq_refl _ _ _ Hp).
  - vm_compute. repeat (split; [discriminate|]). exact I.
  - vm_compute. split; reflexivity.
  - constructor; [by left|]. constructor; [by right|constructor].
  - right. by exists (6 * secs).
Defined.

Lemma leaderless_slots_are_a_stagger_apart_witness :
  8 * 1000 * ms ≤ Z.abs (slot 0 1 3 1000 - slot 2 0 3 1000).
Proof. apply (leaderless_slots_are_a_stagger_apart 3 1000 0 1 2 0); done. Defined.

(** Leaderless from boot: node 1, rank 0, fires at 5 s and again a pass later. *)
Definition silent_at (at_ : Instant) : Turn :=
  Turn_ None (metrics None 1 None) at_ at_ at_ at_ at_.
Definition world1 : World :=
  World_ (Shared_ new None unfenced (Lease.with_clock 0) None) (at_boot 0 1 false) [].

Lemma forced_elections_wait_their_turn_witness :
  fires node1 (ev_run node1 world1 []) (silent_at (5 * secs)) ∧
  fires node1 (ev_run node1 world1 [Loop (silent_at (5 * secs))]) (silent_at (29 * secs)) ∧
  5 * secs + leaderless_cooldown 3 1000 ≤ 29 * secs.
Proof.
  assert (fires node1 (ev_run node1 world1 []) (silent_at (5 * secs))) as H1 by (by vm_compute).
  assert (fires node1 (ev_run node1 world1 [Loop (silent_at (5 * secs))]) (silent_at (29 * secs)))
    as H2 by (by vm_compute).
  split; [exact H1|]. split; [exact H2|].
  refine (proj2 (forced_elections_wait_their_turn node1 world1 [] (silent_at (5 * secs)) []
    (silent_at (29 * secs)) _ _ _ H1 H2)); [done| |constructor].
  vm_compute. repeat (split; [discriminate|]). exact I.
Defined.
