(* ===== verification/Replication.v ===== *)
(** * The leader's replication plan ([src/governor/reconciler/replication.rs])

    The sync list, the write gate, the slot plan and the replica memory, as pure
    functions; the types of [pg_stat_replication] are those of
    [crates/pgbattery-supervisor/src/process/replication.rs].  A [f64] is a
    [spec_float], the standard library's IEEE numbers.  Gauges are left out. *)

From S2P Require Import Prelude Text Core ClusterState Lease.
From Stdlib Require Import Floats.SpecFloat.

Definition MAX_REPLICATION_LAG_BYTES : Z := 16 * 1024 * 1024.
(** [5.0]. *)
Definition MAX_REPLICATION_LAG_SECONDS : spec_float := S754_finite false 5629499534213120 (-50).
Definition REPLICATION_SLOT_ENSURE_INTERVAL_SECS : Z := 30.

(** ** What PostgreSQL reports *)
Inductive ReplicationState := Streaming | Startup | Catchup | Backup | Unknown.
#[global] Instance ReplicationState_eq_dec : EqDecision ReplicationState.
Proof. solve_decision. Defined.

Definition replication_state_from_str (s : bytes) : ReplicationState :=
  let t := trim s in
  if bool_decide (t = lit "streaming") then Streaming
  else if bool_decide (t = lit "startup") then Startup
  else if bool_decide (t = lit "catchup") then Catchup
  else if bool_decide (t = lit "backup") then Backup
  else Unknown.

Inductive SyncState := Sync | Potential | Async.
#[global] Instance SyncState_eq_dec : EqDecision SyncState.
Proof. solve_decision. Defined.

Definition sync_state_from_str (s : bytes) : SyncState :=
  let t := trim s in
  if bool_decide (t = lit "sync") then Sync
  else if bool_decide (t = lit "potential") then Potential
  else Async.

Definition is_sync (s : SyncState) : bool := bool_decide (s = Sync).
Definition is_sync_capable (s : SyncState) : bool := bool_decide (s = Sync ∨ s = Potential).

Record ReplicationStat := ReplicationStat_ {
  application_name : bytes;
  stat_state : ReplicationState;
  stat_lag_bytes : Z;
  stat_lag_seconds : spec_float;
  stat_sync_state : SyncState;
}.

(** ** The sync list *)
Definition required_sync_standbys (other_voter_count : nat) : nat := (other_voter_count / 2)%nat.

(** [[String]::join(", ")]. *)
Fixpoint join (sep : bytes) (l : list bytes) : bytes :=
  match l with
  | [] => []
  | [x] => x
  | x :: rest => x ++ sep ++ join sep rest
  end.

Definition sync_standby_list (peer_names : list bytes) : bytes :=
  let required := required_sync_standbys (length peer_names) in
  if (required =? 0)%nat then []
  else lit "FIRST " ++ show_u64 (Z.of_nat required) ++ lit " (" ++
       join (lit ", ") peer_names ++ lit ")".

Definition STANDBY_PREFIX : bytes := lit "pgbattery_node_".
Definition standby_name (id : NodeId) : bytes := STANDBY_PREFIX ++ show_u64 id.

(** The order of Rust's [str]: lexicographic on bytes. *)
Fixpoint str_leb (a b : bytes) : bool :=
  match a, b with
  | [], _ => true
  | _, [] => false
  | x :: a', y :: b' =>
      (byte_z x <? byte_z y) || ((byte_z x =? byte_z y) && str_leb a' b')
  end.
Definition str_le (a b : bytes) : Prop := str_leb a b = true.
#[global] Instance str_le_dec : RelDecision str_le.
Proof. intros a b. unfold str_le. apply _. Defined.

Definition peer_voter_names (voter_ids : gset NodeId) (self_id : NodeId) : list bytes :=
  merge_sort str_le (standby_name <$> filter (λ id, id ≠ self_id) (elements voter_ids)).

Inductive SyncPlan := FullList | AsyncFallback.

Definition plan_sync_replication (peer_count healthy_voter_count : nat) (has_quorum in_leader_grace : bool)
    : SyncPlan * bool :=
  if (healthy_voter_count =? 0)%nat && has_quorum && negb in_leader_grace
  then (AsyncFallback, (0 <? peer_count)%nat)
  else (FullList, false).

Definition writes_may_open (sync_list_empty : bool) (sync_standbys : Z) (required : nat)
    (committed_async : bool) : bool :=
  if sync_list_empty then (required =? 0)%nat || committed_async
  else Z.of_nat required <=? sync_standbys.

Definition parse_replica_node_id (application_name : bytes) : option NodeId :=
  id ← strip_prefix STANDBY_PREFIX application_name; parse_u64 id.

(** ** The slot plan: ids to create and to drop, each sorted *)
Definition slot_node (name : bytes) : option NodeId :=
  match Slot.from_str name with Ok s => Some (Slot.node_id s) | Err _ => None end.

Definition existing_ids (existing_slots : gset bytes) : gset NodeId :=
  list_to_set (omap slot_node (elements existing_slots)).

Definition plan_slot_reconciliation (target_ids : list NodeId) (existing_slots : gset bytes)
    : list NodeId * list NodeId :=
  let existing := existing_ids existing_slots in
  let desired : gset NodeId := list_to_set target_ids in
  (merge_sort Z.le (elements (desired ∖ existing)),
   merge_sort Z.le (elements (existing ∖ desired))).

(** ** The replica memory *)
Inductive ReplicaHealth := Healthy | Lagging | Unhealthy.
#[global] Instance ReplicaHealth_eq_dec : EqDecision ReplicaHealth.
Proof. solve_decision. Defined.

Record ReplicaStatus := ReplicaStatus_ {
  state : ReplicationState;
  health : ReplicaHealth;
  lag_bytes : Z;
  lag_seconds : spec_float;
  last_seen : Instant;
  sync_state : SyncState;
}.

Record Replicas := Replicas_ {
  status : gmap NodeId ReplicaStatus;
  slot_drop_failures : gmap NodeId Z;
  last_slot_sweep : option Instant;
  async_fallback : bool;
}.

Definition replicas_default : Replicas := Replicas_ ∅ ∅ None false.

Definition reset (r : Replicas) : Replicas := Replicas_ ∅ (slot_drop_failures r) None false.

Definition stat_health (stat : ReplicationStat) : ReplicaHealth :=
  if (MAX_REPLICATION_LAG_BYTES <? stat_lag_bytes stat) ||
     SFltb MAX_REPLICATION_LAG_SECONDS (stat_lag_seconds stat)
  then Lagging else Healthy.

(** The sample's rows in order; a later row of the same node replaces an earlier. *)
Fixpoint fold_stats (stats : list ReplicationStat) (now : Instant)
    (m : gmap NodeId ReplicaStatus) (seen : gset NodeId)
    : gmap NodeId ReplicaStatus * gset NodeId :=
  match stats with
  | [] => (m, seen)
  | stat :: rest =>
      match parse_replica_node_id (application_name stat) with
      | None => fold_stats rest now m seen
      | Some node_id =>
          fold_stats rest now
            (<[node_id := ReplicaStatus_ (stat_state stat) (stat_health stat) (stat_lag_bytes stat)
                            (stat_lag_seconds stat) now (stat_sync_state stat)]> m)
            ({[node_id]} ∪ seen)
      end
  end.

(** A replica the sample did not list. *)
Definition age (now : Instant) (disconnect_timeout : Duration) (s : ReplicaStatus) : ReplicaStatus :=
  if saturating_duration_since now (last_seen s) <? disconnect_timeout
  then ReplicaStatus_ (state s) (health s) (lag_bytes s) (lag_seconds s) (last_seen s) Async
  else ReplicaStatus_ Unknown Unhealthy (lag_bytes s) (lag_seconds s) (last_seen s) Async.

Definition counts (voters : gset NodeId) (id : NodeId) (s : ReplicaStatus) : bool :=
  bool_decide (id ∈ voters) && bool_decide (health s = Healthy) && bool_decide (state s = Streaming).

Definition observed_status (r : Replicas) (stats : list ReplicationStat)
    (members : gset NodeId) (now : Instant) (disconnect_timeout : Duration)
    : gmap NodeId ReplicaStatus :=
  let kept := filter (λ '(id, _), id ∈ members) (status r) in
  let '(m, seen) := fold_stats stats now kept ∅ in
  map_imap (λ id s, Some (if bool_decide (id ∈ seen) then s else age now disconnect_timeout s)) m.

Definition observe (r : Replicas) (stats : list ReplicationStat) (members voters : gset NodeId)
    (now : Instant) (disconnect_timeout : Duration) : Replicas * nat :=
  let m := observed_status r stats members now disconnect_timeout in
  (Replicas_ m (slot_drop_failures r) (last_slot_sweep r) (async_fallback r),
   size (filter (λ '(id, s), counts voters id s = true) m)).

Definition record_rpo (r : Replicas) (v : bool) : Replicas :=
  Replicas_ (status r) (slot_drop_failures r) (last_slot_sweep r) v.

Definition record_slot_drop {E} (r : Replicas) (node_id : NodeId) (res : result E ()) : Replicas :=
  let failures :=
    match res with
    | Ok _ => delete node_id (slot_drop_failures r)
    | Err _ => <[node_id := sat_add_u32 (default 0 (slot_drop_failures r !! node_id)) 1]>
                 (slot_drop_failures r)
    end in
  Replicas_ (status r) failures (last_slot_sweep r) (async_fallback r).
