(* ===== verification/ReplicationProofs.v ===== *)
(** * The replication plan: what it guarantees

    The write set of an open primary meets every Raft majority, the sync list names
    exactly the other voters, the slot plan leaves exactly the members' slots, and
    the replica memory counts what it should. *)

From S2P Require Import Prelude Text Core ClusterState Lease Replication.
From Stdlib Require Import Floats.SpecFloat.

(** ** The sync list *)
Lemma peer_voter_names_perm vs self :
  peer_voter_names vs self ≡ₚ standby_name <$> elements (vs ∖ {[self]}).
Proof.
  unfold peer_voter_names. rewrite merge_sort_Permutation. apply fmap_Permutation.
  apply NoDup_Permutation.
  - apply NoDup_filter, NoDup_elements.
  - apply NoDup_elements.
  - intros id. rewrite list_elem_of_filter, !elem_of_elements. set_solver.
Qed.

Lemma peer_voter_names_length vs self :
  length (peer_voter_names vs self) = size (vs ∖ {[self]}).
Proof. rewrite peer_voter_names_perm, length_fmap. done. Qed.

Lemma parse_standby_name id : is_u64 id → parse_replica_node_id (standby_name id) = Some id.
Proof.
  intros Hid. unfold parse_replica_node_id, standby_name. rewrite strip_prefix_app. simpl.
  by apply parse_show_u64.
Qed.

(** ** The write set *)
Lemma required_of_voters vs self :
  self ∈ vs →
  required_sync_standbys (length (peer_voter_names vs self)) = ((size vs - 1) / 2)%nat.
Proof.
  intros Hs. rewrite peer_voter_names_length. unfold required_sync_standbys.
  rewrite size_difference by set_solver. by rewrite size_singleton.
Qed.

(** Any majority meets the leader or its acknowledgers. *)
Lemma write_set_intersects (vs acks majority : gset NodeId) (self : NodeId) :
  self ∈ vs → acks ⊆ vs ∖ {[self]} →
  (required_sync_standbys (length (peer_voter_names vs self)) ≤ size acks)%nat →
  majority ⊆ vs → (size vs < 2 * size majority)%nat →
  ∃ node, node ∈ majority ∧ (node = self ∨ node ∈ acks).
Proof.
  intros Hs Ha Hr Hm Hmaj. rewrite required_of_voters in Hr by done.
  destruct (decide (majority ∩ ({[self]} ∪ acks) = ∅)) as [He|Hne].
  2:{ apply set_choose_L in Hne as [n Hn]. exists n. set_solver. }
  exfalso.
  assert (size (majority ∪ ({[self]} ∪ acks)) ≤ size vs)%nat as Hle by (apply subseteq_size; set_solver).
  rewrite size_union in Hle by set_solver. rewrite size_union, size_singleton in Hle by set_solver.
  assert (size vs < 2 * S ((size vs - 1) / 2) + 1)%nat; [|lia].
  pose proof (Nat.div_mod_eq (size vs - 1) 2). pose proof (Nat.mod_upper_bound (size vs - 1) 2).
  assert (size vs ≠ 0)%nat; [|lia]. intros Hz. apply size_empty_inv in Hz. set_solver.
Qed.

(** C19. An acknowledged write survives any failover: take a voter set with this leader
    in it, and any set of other voters that acknowledged, at least as many as
    [required_sync_standbys] asks of the list of peers.  Every Raft majority of the
    voters contains the leader or one of them. *)
Theorem write_set_meets_every_majority (vs acks majority : gset NodeId) (self : NodeId) :
  self ∈ vs → acks ⊆ vs ∖ {[self]} →
  (required_sync_standbys (length (peer_voter_names vs self)) ≤ size acks)%nat →
  majority ⊆ vs → (size vs < 2 * size majority)%nat →
  ∃ node, node ∈ majority ∧ (node = self ∨ node ∈ acks).
Proof. apply write_set_intersects. Qed.

Lemma write_set_meets_every_majority_witness :
  ∃ node : NodeId, node ∈ ({[2; 3; 4]} : gset NodeId) ∧
    (node = 1 ∨ node ∈ ({[3; 5]} : gset NodeId)).
Proof.
  apply (write_set_meets_every_majority {[1; 2; 3; 4; 5]} {[3; 5]} {[2; 3; 4]} 1);
    [set_solver|set_solver|vm_compute; lia|set_solver|vm_compute; lia].
Defined.

(** Promotion and steady state name exactly the other voters: the names of the
    list, as [pg_stat_replication] reports them back, parse to every voter but this
    node, each once; and the list is empty exactly when no acknowledgement is
    required. *)
Lemma sync_list_names_the_other_voters (vs : gset NodeId) (self : NodeId) :
  set_Forall is_u64 vs →
  omap parse_replica_node_id (peer_voter_names vs self) ≡ₚ elements (vs ∖ {[self]}) ∧
  (sync_standby_list (peer_voter_names vs self) = [] ↔
     required_sync_standbys (length (peer_voter_names vs self)) = 0%nat).
Proof.
  intros Hu. split.
  - rewrite peer_voter_names_perm.
    assert (∀ l : list NodeId, Forall is_u64 l → omap parse_replica_node_id (standby_name <$> l) = l) as H.
    { induction 1 as [|id l Hid _ IH]; [done|]. cbn [fmap list_fmap omap list_omap].
      by rewrite (parse_standby_name id Hid), IH. }
    rewrite H; [done|]. apply Forall_forall. intros id Hid%elem_of_elements. apply Hu. set_solver.
  - unfold sync_standby_list. destruct (Nat.eqb_spec (required_sync_standbys (length (peer_voter_names vs self))) 0).
    + by rewrite e.
    + split; [|done]. intros H. discriminate H.
Qed.

Lemma sync_list_names_the_other_voters_witness :
  set_Forall is_u64 ({[1; 2; 10]} : gset NodeId) ∧
  omap parse_replica_node_id (peer_voter_names {[1; 2; 10]} 1)
    ≡ₚ elements (({[1; 2; 10]} : gset NodeId) ∖ {[1]}).
Proof.
  assert (set_Forall is_u64 ({[1; 2; 10]} : gset NodeId)) as Hu
    by (apply set_Forall_union; [apply set_Forall_union|]; apply set_Forall_singleton; done).
  split; [exact Hu|]. exact (proj1 (sync_list_names_the_other_voters {[1; 2; 10]} 1 Hu)).
Defined.

(** ** Slots *)
Lemma slot_node_Some name id :
  slot_node name = Some id ↔ Slot.from_str name = Ok (Slot.for_node id).
Proof.
  unfold slot_node. destruct (Slot.from_str name) as [[n]|e]; [|done].
  simpl. split; [by intros [= ->]|by intros [= ->]].
Qed.

Lemma elem_of_existing_ids id existing :
  id ∈ existing_ids existing ↔ ∃ name, name ∈ existing ∧ slot_node name = Some id.
Proof.
  unfold existing_ids. rewrite elem_of_list_to_set, list_elem_of_omap.
  by setoid_rewrite elem_of_elements.
Qed.

Lemma slot_fmt_inj a b :
  is_u64 a → Slot.fmt (Slot.for_node a) = Slot.fmt (Slot.for_node b) → is_u64 b → a = b.
Proof.
  intros Ha E Hb. pose proof (Slot.from_str_fmt a Ha) as H1.
  rewrite E, (Slot.from_str_fmt b Hb) in H1. by injection H1 as ->.
Qed.

(** What executing a plan leaves. *)
Definition after_plan (existing : gset bytes) (plan : list NodeId * list NodeId) : gset bytes :=
  (existing ∪ list_to_set ((λ id, Slot.fmt (Slot.for_node id)) <$> plan.1))
    ∖ list_to_set ((λ id, Slot.fmt (Slot.for_node id)) <$> plan.2).

Lemma elem_of_create id targets existing :
  id ∈ (plan_slot_reconciliation targets existing).1 ↔ id ∈ targets ∧ id ∉ existing_ids existing.
Proof.
  unfold plan_slot_reconciliation. simpl. rewrite merge_sort_Permutation, elem_of_elements.
  by rewrite elem_of_difference, elem_of_list_to_set.
Qed.

Lemma elem_of_drop id targets existing :
  id ∈ (plan_slot_reconciliation targets existing).2 ↔ id ∈ existing_ids existing ∧ id ∉ targets.
Proof.
  unfold plan_slot_reconciliation. simpl. rewrite merge_sort_Permutation, elem_of_elements.
  by rewrite elem_of_difference, elem_of_list_to_set.
Qed.

(** A slot sweep whose every create and drop succeeds leaves exactly one slot for
    each target and none for a node that left, provided every slot with a recognised
    name is spelled as this cluster mints it; and it never touches a slot whose name
    this cluster does not own. *)
Lemma slot_sweep_leaves_exactly_the_members targets existing :
  Forall is_u64 targets →
  (∀ name id, name ∈ existing → slot_node name = Some id →
     is_u64 id ∧ name = Slot.fmt (Slot.for_node id)) →
  (∀ name id, slot_node name = Some id →
     (name ∈ after_plan existing (plan_slot_reconciliation targets existing) ↔
      id ∈ targets ∧ name = Slot.fmt (Slot.for_node id))) ∧
  (∀ name, slot_node name = None →
     (name ∈ after_plan existing (plan_slot_reconciliation targets existing) ↔ name ∈ existing)).
Proof.
  intros Ht Hminted. rewrite Forall_forall in Ht.
  assert (∀ id, id ∈ existing_ids existing → is_u64 id ∧ Slot.fmt (Slot.for_node id) ∈ existing) as Hex.
  { intros id (name & Hn & Hs)%elem_of_existing_ids.
    destruct (Hminted name id Hn Hs) as [? ->]. done. }
  assert (∀ name, name ∈ after_plan existing (plan_slot_reconciliation targets existing) ↔
    (name ∈ existing ∨ ∃ id, name = Slot.fmt (Slot.for_node id) ∧ id ∈ targets ∧ id ∉ existing_ids existing) ∧
    ∀ id, name = Slot.fmt (Slot.for_node id) → id ∈ existing_ids existing → id ∈ targets) as Hafter.
  { intros name. unfold after_plan.
    rewrite elem_of_difference, elem_of_union, !elem_of_list_to_set, !list_elem_of_fmap.
    setoid_rewrite elem_of_create. setoid_rewrite elem_of_drop. split.
    - intros [H Hd]. split; [naive_solver|]. intros id -> He.
      destruct (decide (id ∈ targets)); [done|]. destruct Hd. eauto.
    - intros [H Hd]. split; [naive_solver|]. intros (id & -> & He & Hnt). naive_solver. }
  split; intros name.
  - intros id Hs. rewrite Hafter. split.
    + intros [[He|(id' & -> & Hin & Hni)] Hd].
      * destruct (Hminted name id He Hs) as [Hu ->]. split; [|done].
        apply Hd; [done|]. apply elem_of_existing_ids. eauto.
      * apply slot_node_Some in Hs. rewrite Slot.from_str_fmt in Hs by auto.
        by injection Hs as ->.
    + intros [Hin ->]. split.
      * destruct (decide (id ∈ existing_ids existing)) as [He|He]; [left; by apply Hex|right; eauto].
      * intros id' E He. destruct (Hex id' He) as [Hu _].
        by rewrite <-(slot_fmt_inj id id' (Ht id Hin) E Hu).
  - intros Hs. rewrite Hafter. split.
    + intros [[He|(id & -> & Hin & _)] _]; [done|]. exfalso.
      unfold slot_node in Hs. by rewrite Slot.from_str_fmt in Hs by auto.
    + intros He. split; [by left|]. intros id -> Hid. destruct (Hex id Hid) as [Hu _].
      unfold slot_node in Hs. by rewrite Slot.from_str_fmt in Hs.
Qed.

Definition example_slots : gset bytes := {[lit "replica_2"; lit "replica_9"; lit "logical_cdc"]}.
Lemma slot_sweep_leaves_exactly_the_members_witness :
  plan_slot_reconciliation [2; 3] example_slots = ([3], [9]) ∧
  (lit "replica_9" ∈ after_plan example_slots (plan_slot_reconciliation [2; 3] example_slots) ↔
     9 ∈ [2; 3] ∧ lit "replica_9" = Slot.fmt (Slot.for_node 9)).
Proof.
  split; [by vm_compute|].
  refine (proj1 (slot_sweep_leaves_exactly_the_members [2; 3] example_slots _ _) _ 9 _);
    [by repeat constructor| |reflexivity].
  intros name id Hn Hs. unfold example_slots in Hn.
  rewrite !elem_of_union, !elem_of_singleton in Hn.
  destruct Hn as [[-> | ->]| ->]; vm_compute in Hs; simplify_eq; split; try done.
Defined.

(** ** The replica memory *)
Definition latest_row (id : NodeId) (stats : list ReplicationStat) : option ReplicationStat :=
  last (filter (λ st, parse_replica_node_id (application_name st) = Some id) stats).

Definition row_status (now : Instant) (st : ReplicationStat) : ReplicaStatus :=
  ReplicaStatus_ (stat_state st) (stat_health st) (stat_lag_bytes st) (stat_lag_seconds st) now
    (stat_sync_state st).

Lemma fold_stats_spec stats now m seen m' seen' :
  fold_stats stats now m seen = (m', seen') → ∀ id,
  m' !! id = match latest_row id stats with Some st => Some (row_status now st) | None => m !! id end ∧
  (id ∈ seen' ↔ id ∈ seen ∨ is_Some (latest_row id stats)).
Proof.
  revert m seen; induction stats as [|st stats IH]; intros m seen; simpl.
  - intros [= <- <-] id. unfold latest_row. simpl. split; [done|]. split; [auto|]. by intros [?|[? ?]].
  - unfold latest_row. cbn [filter list_filter].
    destruct (parse_replica_node_id (application_name st)) as [node|] eqn:Ep; intros H id;
      destruct (IH _ _ H id) as [Hl Hs]; unfold latest_row in Hl, Hs.
    + destruct (decide (node = id)) as [->|Hne].
      * rewrite decide_True by done. rewrite last_cons.
        rewrite Hl, Hs. destruct (last _) as [st'|]; [split; [done|set_solver]|].
        rewrite lookup_insert_eq. split; [done|]. set_solver.
      * rewrite decide_False by congruence. rewrite Hl, Hs, lookup_insert_ne by done.
        split; [done|]. set_solver.
    + by rewrite decide_False.
Qed.

(** The abstract view: a replica streams if its latest row says so, or if it has none
    and was last seen streaming less than a timeout ago. *)
Definition streams (r : Replicas) (stats : list ReplicationStat) (members : gset NodeId)
    (now : Instant) (timeout : Duration) (id : NodeId) : bool :=
  match latest_row id stats with
  | Some st => bool_decide (stat_state st = Streaming) && bool_decide (stat_health st = Healthy)
  | None =>
      bool_decide (id ∈ members) &&
      match status r !! id with
      | Some s => bool_decide (state s = Streaming) && bool_decide (health s = Healthy) &&
                  (saturating_duration_since now (last_seen s) <? timeout)
      | None => false
      end
  end.

Lemma observed_lookup r stats members now timeout id :
  observed_status r stats members now timeout !! id =
    match latest_row id stats with
    | Some st => Some (row_status now st)
    | None => if decide (id ∈ members) then age now timeout <$> status r !! id else None
    end.
Proof.
  unfold observed_status. destruct (fold_stats _ _ _ _) as [m seen] eqn:E.
  destruct (fold_stats_spec _ _ _ _ _ _ E id) as [Hl Hs].
  rewrite map_lookup_imap, Hl.
  destruct (latest_row id stats) as [st|] eqn:Er; cbn.
  - rewrite bool_decide_eq_true_2; [done|]. apply Hs. by right.
  - assert (id ∉ seen) as Hns by (intros H; apply Hs in H as [H|[? H]]; [set_solver|done]).
    rewrite bool_decide_eq_false_2 by done.
    destruct (status r !! id) as [s|] eqn:Es.
    + destruct (decide (id ∈ members)) as [Hm|Hm].
      * rewrite (proj2 (map_lookup_filter_Some _ _ id s)) by done. done.
      * replace (filter _ _ !! id) with (@None ReplicaStatus); [done|].
        symmetry. apply map_lookup_filter_None. right. intros ? ?. by simplify_eq.
    + replace (filter _ _ !! id) with (@None ReplicaStatus); [by destruct (decide _)|].
      symmetry. apply map_lookup_filter_None. by left.
Qed.

(** The count the sync plan is made from is right: [observe] returns the number of
    voters that stream, a replica being held to its latest row if the sample lists it,
    and otherwise, as a member, to its memory for less than the disconnect timeout;
    a blip therefore does not change the count and a longer silence does. *)
Lemma observe_counts_the_streaming_voters r stats members voters now timeout :
  (observe r stats members voters now timeout).2 =
    size (filter (λ id, streams r stats members now timeout id = true) voters).
Proof.
  unfold observe. cbn [snd]. rewrite <-(size_dom (D:=gset NodeId)). f_equal. apply set_eq. intros id.
  rewrite elem_of_dom, elem_of_filter. unfold is_Some.
  setoid_rewrite map_lookup_filter_Some. rewrite observed_lookup. unfold counts, streams.
  destruct (latest_row id stats) as [st|].
  - split.
    + intros (s & [= <-] & Hc). cbn in Hc. rewrite !andb_true_iff, !bool_decide_eq_true in Hc.
      rewrite andb_true_iff, !bool_decide_eq_true. tauto.
    + intros [Hc Hv]. exists (row_status now st). split; [done|]. cbn.
      rewrite andb_true_iff, !bool_decide_eq_true in Hc.
      rewrite !andb_true_iff, !bool_decide_eq_true. tauto.
  - destruct (decide (id ∈ members)) as [Hm|Hm].
    2:{ rewrite (bool_decide_eq_false_2 (id ∈ members)) by done. cbn. naive_solver. }
    rewrite (bool_decide_eq_true_2 (id ∈ members)) by done.
    destruct (status r !! id) as [s|]; cbn; [|naive_solver]. unfold age.
    destruct (saturating_duration_since now (last_seen s) <? timeout); cbn.
    + split.
      * intros (? & [= <-] & Hc). cbn in Hc. rewrite !andb_true_iff, !bool_decide_eq_true in *. tauto.
      * intros [Hc Hv]. eexists. split; [done|]. cbn.
        rewrite !andb_true_iff, !bool_decide_eq_true in *. tauto.
    + rewrite andb_false_r. split; [|naive_solver]. intros (? & [= <-] & Hc).
      cbn in Hc. rewrite !andb_true_iff, !bool_decide_eq_true in Hc. naive_solver.
Qed.
