(* ===== verification/Reconciler.v ===== *)
(** * The node reconciler ([src/governor/reconciler/mod.rs], [follow.rs])

    One pass brings local PostgreSQL in line with the Raft role and the committed
    log.  PostgreSQL ([PgControl] of [src/governor/pg_control.rs]), the lease, the
    WAL book and the shared cluster state are requests of the pass: their answers
    are whatever they are then.  A call under [TICK_SQL_BUDGET] answers [None] when
    it exceeds it.  Gauges, log lines and the spec trace are left out. *)

From S2P Require Import Prelude Effects Text Net Core ClusterState Handoff Lease Fence Governor Replication.

(** ** The seam *)
Inductive PostmasterState := Running | Exited (code : option Z) | NotRunning.

Record WantedClientFence := WantedClientFence_ {
  wanted_fenced : bool;
  wanted_phase : CutoverPhase;
  wanted_roles : list bytes;
}.

Inductive Req :=
(* PgControl *)
| HasPostmaster
| PostmasterStateReq
| Start
| IsInRecovery
| VerifyPromotionSafe
| Promote (sync_standby_names : bytes)
| Demote (leader_addr : SocketAddr) (terms : FollowTerms)
| SetReadonly (readonly : bool)
| SetReadonlyBudgeted (readonly : bool)
| GetReportableLsn
| SystemIdentifier
| ProbeRoleAndReadonly
| TerminateClientBackends
| GetReplicationStats
| SetSyncStandbyNames (names : bytes)
| CreateReplicationSlot (node_id : NodeId)
| DropReplicationSlot (node_id : NodeId)
| ListPhysicalReplicationSlots
| LevelClientFence (wanted : WantedClientFence) (cluster_id : bytes)
(* the lease, under its lock *)
| LeaseNow
| PromotionAnchor                          (* promotion_anchor, now *)
| ReadLease                                (* is_valid, failover_anchor, now *)
| SpendFailoverAnchor (seen : option Instant)
(* the shared cluster state and the WAL book, under theirs *)
| VoterIds
| LsnCatchupThreshold
| ReadWalPositions
| RecordWalPosition (node : NodeId) (lsn : Z) (at_ : Instant).
Definition Answer (q : Req) : Type :=
  match q with
  | HasPostmaster => bool
  | PostmasterStateReq => result PgError PostmasterState
  | Start | Promote _ | Demote _ _ | SetReadonly _ | LevelClientFence _ _ => result PgError ()
  | IsInRecovery => result PgError bool
  | VerifyPromotionSafe => result PgError Z
  | SetReadonlyBudgeted _ | SetSyncStandbyNames _ | CreateReplicationSlot _
  | DropReplicationSlot _ => option (result PgError ())
  | GetReportableLsn | TerminateClientBackends => option (result PgError bytes)
  | SystemIdentifier => result PgError (option Z)
  | ProbeRoleAndReadonly => option (result PgError Session.PgWriteState)
  | GetReplicationStats => option (result PgError (list ReplicationStat))
  | ListPhysicalReplicationSlots => option (result PgError (gset bytes))
  | LeaseNow => Instant
  | PromotionAnchor => Instant * Instant
  | ReadLease => bool * option Instant * Instant
  | SpendFailoverAnchor _ | RecordWalPosition _ _ _ => ()
  | VoterIds => gset NodeId
  | LsnCatchupThreshold => Z
  | ReadWalPositions => Wal.WalPositions
  end.
Abbreviation io := (prog Answer).
Abbreviation ask := (@Effects.ask Req Answer).

(** ** Promote and follow *)
Module Follow.

Definition observe_pg_primary : io (option bool) :=
  let* r := ask IsInRecovery in
  Ret (match r with Ok false => Some true | Ok true => Some false | Err _ => None end).

Definition promote_local_postgres (node_id : NodeId) : io (option bool) :=
  let* observed := observe_pg_primary in
  if bool_decide (observed = Some true) then Ret observed
  else if bool_decide (observed = None) then Ret observed
  else
    let* safe := ask VerifyPromotionSafe in
    match safe with
    | Err _ => Ret observed
    | Ok _ =>
        let* (anchor, now) := ask PromotionAnchor in
        match promotion_lease_holddown (Some anchor) now DEFAULT_LEASE_DURATION with
        | Some _ => Ret observed
        | None =>
            let* voters := ask VoterIds in
            let* r := ask (Promote (sync_standby_list (peer_voter_names voters node_id))) in
            Ret (match r with Ok _ => Some true | Err _ => observed end)
        end
    end.

Definition should_fence_before_demote (has_postmaster : bool) (in_recovery : option bool) : bool :=
  has_postmaster && negb (bool_decide (in_recovery = Some true)).

Definition leaves_stopped_standby (awaits_rejoin has_postmaster : bool) : bool :=
  awaits_rejoin && negb has_postmaster.

Definition demote_to_leader (leader_addr : SocketAddr) (awaits_rejoin : bool) (terms : FollowTerms)
    : io () :=
  let* has_postmaster := ask HasPostmaster in
  if leaves_stopped_standby awaits_rejoin has_postmaster then Ret tt
  else
    let* has_postmaster := ask HasPostmaster in
    let* recovery := ask IsInRecovery in
    let demote := let* _ := ask (Demote leader_addr terms) in Ret tt in
    if should_fence_before_demote has_postmaster (result_ok recovery) then
      let* r := ask (SetReadonly true) in
      match r with
      | Err _ => Ret tt
      | Ok _ => let* _ := ask TerminateClientBackends in demote
      end
    else demote.

End Follow.

(** ** What a pass decides from *)
Inductive Naming := Settled | Due | Misnamed.
#[global] Instance Naming_eq_dec : EqDecision Naming.
Proof. solve_decision. Defined.

Inductive Role :=
| NoLeader
| Leader
| Follower (leader : NodeId) (pg_addr mgmt_addr : option SocketAddr).
#[global] Instance Role_eq_dec : EqDecision Role.
Proof. solve_decision. Defined.

(** [ClientFenceConfig]. *)
Record ClientFenceConfig := ClientFenceConfig_ {
  config_roles : list bytes;
  config_cluster_id : bytes;
  config_awaits : option bytes;
}.

Definition derive (state : ClusterState) (config : ClientFenceConfig) : WantedClientFence :=
  let holds :=
    (cutover_authority_projection (cutover state) (config_cluster_id config)
       (config_awaits config)).1 in
  let roles :=
    if bool_decide (fenced_app_roles (cutover state) = []) then config_roles config
    else fenced_app_roles (cutover state) in
  WantedClientFence_ (negb holds) (phase (cutover state)) roles.

Definition needs_reconcile (w : WantedClientFence) : bool :=
  bool_decide (wanted_phase w ≠ Idle) ||
  (wanted_fenced w && negb (bool_decide (wanted_roles w = []))).

Definition read_naming (state : ClusterState) (config : ClientFenceConfig) : Naming :=
  let admitted := required_feature_level (NameCluster [] None) <=? feature_level state in
  if match ClusterState.cluster_id (cutover state) with
     | Some named => bool_decide (named ≠ config_cluster_id config)
     | None => false
     end
  then Misnamed
  else if admitted && Cutover.needs_naming (cutover state) (config_cluster_id config)
                        (config_awaits config)
  then Due
  else Settled.

Record View := View_ {
  role : Role;
  has_quorum : bool;
  raft_voters : list NodeId;
  voters : gset NodeId;
  members : gset NodeId;
  view_terms : FollowTerms;
  view_upgrade : PgUpgradeState;
  lineage_unrecorded : bool;
  naming : Naming;
  term : Z;
  primary_opened : bool;
  committed_sync : option bool;
  client_fence : WantedClientFence;
}.

Definition read_view (node_id : NodeId) (m : MetricsView) (state : ClusterState)
    (config : ClientFenceConfig) : View :=
  let leader := current_leader m in
  let quorum :=
    has_quorum_decision (bool_decide (leader = Some node_id)) (bool_decide (is_Some leader))
      (length (membership_voters m)) (millis_since_quorum_ack m) in
  let role :=
    match leader with
    | None => NoLeader
    | Some id =>
        if id =? node_id then Leader
        else Follower id (pg_addr <$> nodes state !! id) (mgmt_addr <$> nodes state !! id)
    end in
  View_ role quorum (membership_voters m) (voter_ids state) (dom (nodes state))
    (follow_terms state) (pg_upgrade state)
    (match lineage_term (follow_terms state) with Committed None => true | _ => false end)
    (read_naming state config) (current_term m) (routes_to_leader state (current_term m))
    (sync_replication_active state) (derive state config).

Definition is_leader (v : View) : bool := bool_decide (role v = Leader).

Inductive WriteGate := Open | Opening | GateUnknown.
#[global] Instance WriteGate_eq_dec : EqDecision WriteGate.
Proof. solve_decision. Defined.

Inductive Effect :=
| CommitSyncMode (active : bool)
| CommitLineage (id : Z)
| NameClusterEffect
| PrimaryOpenedEffect (term : Z)
| ReportLsn (lsn : Z) (to : SocketAddr)
| YieldTo (target : NodeId).

Record Outcome := Outcome_ { died : bool; running : bool; opening : bool; effects : list Effect }.
Definition outcome_default : Outcome := Outcome_ false false false [].

Definition push (e : Effect) (out : Outcome) : Outcome :=
  Outcome_ (died out) (running out) (opening out) (effects out ++ [e]).
Definition propose (v : View) (e : Effect) (out : Outcome) : Outcome :=
  if has_quorum v then push e out else out.

(** ** The LSN cadence *)
Definition PROBE_INTERVAL : Duration := 1000 * ms.
Definition LSN_HEARTBEAT : Duration := 5 * secs.

Record LsnCadence := LsnCadence_ {
  probed_at : option Instant;
  reported : option (Z * SocketAddr);
  reported_at : option Instant;
}.

(** [Option::is_none_or(|at| now.duration_since(at) >= d)]. *)
Definition none_or_elapsed (at_ : option Instant) (now : Instant) (d : Duration) : bool :=
  match at_ with None => true | Some t => d <=? saturating_duration_since now t end.

Definition probe_due (c : LsnCadence) (now : Instant) : LsnCadence * bool :=
  let due := none_or_elapsed (probed_at c) now PROBE_INTERVAL in
  (if due then LsnCadence_ (Some now) (reported c) (reported_at c) else c, due).

Definition report_due (c : LsnCadence) (lsn : Z) (to : SocketAddr) (now : Instant) : bool :=
  bool_decide (reported c ≠ Some (lsn, to)) || none_or_elapsed (reported_at c) now LSN_HEARTBEAT.

Definition set_reported (c : LsnCadence) (lsn : Z) (to : SocketAddr) (now : Instant) : LsnCadence :=
  LsnCadence_ (probed_at c) (Some (lsn, to)) (Some now).

(** ** The pass *)

(** The reconciler: its configuration, and its memory between passes. *)
Record Config := Config_ {
  self : NodeId;
  self_pg_addr : SocketAddr;
  fence_config : ClientFenceConfig;
  disconnect_timeout : Duration;
}.

Record Memory := Memory_ {
  replicas : Replicas;
  watchdog : Watchdog.PromotionWatchdog;
  lsn_cadence : LsnCadence;
}.

Definition set_replicas (r : Replicas) (m : Memory) : Memory :=
  Memory_ r (watchdog m) (lsn_cadence m).
Definition set_lsn (c : LsnCadence) (m : Memory) : Memory :=
  Memory_ (replicas m) (watchdog m) c.

Section Pass.
Context (cfg : Config).

(** The yield candidates: one read of the book for the position, one for the test. *)
Fixpoint yield_candidates (ids : list NodeId) (threshold : Z) (now : Instant)
    : io (list Watchdog.YieldCandidate) :=
  match ids with
  | [] => Ret []
  | id :: rest =>
      let* book := ask ReadWalPositions in
      let* book' := ask ReadWalPositions in
      let* cs := yield_candidates rest threshold now in
      Ret (Watchdog.YieldCandidate_ id (default 0 (Wal.fresh book id now))
             (Wal.caught_up book' id threshold now) :: cs)
  end.

Definition watch_leadership (v : View) (pg_primary : option bool) (now : Instant)
    (mem : Memory) (out : Outcome) : io (Memory * Outcome) :=
  let '(wd, verdict) :=
    Watchdog.observe (watchdog mem) (Watchdog.LeadershipObservation_ (is_leader v) pg_primary) now in
  let mem := Memory_ (replicas mem) wd (lsn_cadence mem) in
  if bool_decide (verdict ≠ Watchdog.Yield) then Ret (mem, out)
  else
    let* threshold := ask LsnCatchupThreshold in
    let* candidates := yield_candidates (filter (λ id, id ≠ self cfg) (raft_voters v)) threshold now in
    Ret (mem, match Watchdog.choose_yield_target candidates with
              | None => out
              | Some target => push (YieldTo target) out
              end).

(** *** Slots *)
Fixpoint create_slots (ids : list NodeId) : io () :=
  match ids with
  | [] => Ret tt
  | id :: rest => let* _ := ask (CreateReplicationSlot id) in create_slots rest
  end.
Fixpoint drop_slots (ids : list NodeId) (r : Replicas) : io Replicas :=
  match ids with
  | [] => Ret r
  | id :: rest =>
      let* res := ask (DropReplicationSlot id) in
      drop_slots rest
        (record_slot_drop r id
           (match res with Some (Ok _) => Ok tt | Some (Err e) => Err (Some e) | None => Err None end))
  end.

Definition sweep_slots_if_due (targets : list NodeId) (now : Instant) (r : Replicas) : io Replicas :=
  if match last_slot_sweep r with
     | Some last => saturating_duration_since now last <? REPLICATION_SLOT_ENSURE_INTERVAL_SECS * secs
     | None => false
     end
  then Ret r
  else
    let r := Replicas_ (status r) (slot_drop_failures r) (Some now) (async_fallback r) in
    let* listed := ask ListPhysicalReplicationSlots in
    match listed with
    | Some (Ok existing) =>
        let '(create, drop) := plan_slot_reconciliation targets existing in
        create_slots create ;;
        let* r := drop_slots drop r in
        Ret (Replicas_ (status r) (filter (λ '(id, _), id ∈ drop) (slot_drop_failures r))
               (last_slot_sweep r) (async_fallback r))
    | _ => Ret r
    end.

(** *** Opening writes *)
Definition open_writes (v : View) (required : nat) : io WriteGate :=
  let waiting := if has_quorum v then Opening else GateUnknown in
  let* probed := ask ProbeRoleAndReadonly in
  match probed with
  | Some (Ok state) =>
      if Session.in_recovery state then Ret GateUnknown
      else
        let* (lease_valid, anchor, now) := ask ReadLease in
        let held := bool_decide (is_Some (promotion_lease_holddown anchor now DEFAULT_LEASE_DURATION)) in
        if Session.settled (Session.read_only state) false then
          if held then Ret Open
          else let* _ := ask (SpendFailoverAnchor anchor) in Ret Open
        else
          let committed_async := bool_decide (committed_sync v = Some false) in
          if negb (writes_may_open (Session.sync_list_empty state) (Session.sync_standbys state)
                     required committed_async)
             || negb lease_valid || held
          then Ret waiting
          else
            let* opened := ask (SetReadonlyBudgeted false) in
            match opened with
            | Some (Ok _) => let* _ := ask (SpendFailoverAnchor anchor) in Ret Open
            | _ => Ret waiting
            end
  | _ => Ret GateUnknown
  end.

(** *** The leader's duties *)
Definition lead (v : View) (now : Instant) (mem : Memory) (out : Outcome)
    : io (Memory * Outcome * WriteGate) :=
  let targets := filter (λ id, id ≠ self cfg) (elements (members v)) in
  let* r := sweep_slots_if_due targets now (replicas mem) in
  let mem := set_replicas r mem in
  let peers := peer_voter_names (voters v) (self cfg) in
  let required := required_sync_standbys (length peers) in
  let* stats := ask GetReplicationStats in
  match stats with
  | Some (Ok stats) =>
      let '(r, healthy) := observe r stats (members v) (voters v) now (disconnect_timeout cfg) in
      let in_grace :=
        match Watchdog.leader_for (watchdog mem) now with
        | Some tenure => tenure <? disconnect_timeout cfg
        | None => false
        end in
      let '(plan, degraded) := plan_sync_replication (length peers) healthy (has_quorum v) in_grace in
      let mem := set_replicas (record_rpo r degraded) mem in
      let list := match plan with FullList => sync_standby_list peers | AsyncFallback => [] end in
      let active := negb (bool_decide (list = [])) in
      let installs := active || bool_decide (committed_sync v = Some false) in
      (if installs then let* _ := ask (SetSyncStandbyNames list) in Ret tt else Ret tt) ;;
      let out :=
        if bool_decide (committed_sync v ≠ Some active) then propose v (CommitSyncMode active) out
        else out in
      let* gate := open_writes v required in
      Ret (mem, out, gate)
  | _ => Ret (mem, out, GateUnknown)
  end.

(** *** The LSN report *)
Definition report_lsn (v : View) (now : Instant) (mem : Memory) (out : Outcome)
    : io (Memory * Outcome) :=
  let '(c, due) := probe_due (lsn_cadence mem) now in
  let mem := set_lsn c mem in
  if negb due then Ret (mem, out)
  else
    let* text := ask GetReportableLsn in
    match text with
    | Some (Ok text) =>
        match Lsn.parse_lsn text with
        | None => Ret (mem, out)
        | Some lsn =>
            ask (RecordWalPosition (self cfg) lsn now) ;;
            Ret (mem, match role v with
                      | Follower _ _ (Some to) =>
                          if report_due c lsn to now then push (ReportLsn lsn to) out else out
                      | _ => out
                      end)
        end
    | _ => Ret (mem, out)
    end.

(** *** Leading and following: whether PostgreSQL is primary after it *)
Definition lead_role (v : View) (out : Outcome) : io (option bool * Outcome) :=
  let* has_postmaster := ask HasPostmaster in
  (if negb has_postmaster && negb (frozen (view_upgrade v))
   then let* _ := ask Start in Ret tt else Ret tt) ;;
  let out := if bool_decide (naming v = Due) then propose v NameClusterEffect out else out in
  let* primary := Follow.promote_local_postgres (self cfg) in
  if bool_decide (primary = Some true) && lineage_unrecorded v then
    let* id := ask SystemIdentifier in
    Ret (primary, match id with Ok (Some id) => propose v (CommitLineage id) out | _ => out end)
  else Ret (primary, out).

Definition follow_role (v : View) (addr : option SocketAddr) : io () :=
  match addr with
  | None => Ret tt
  | Some addr =>
      if bool_decide (addr = self_pg_addr cfg) then Ret tt
      else Follow.demote_to_leader addr (Upgrade.leaves_stopped (view_upgrade v) (self cfg))
             (view_terms v)
  end.

Definition take_role (v : View) (out : Outcome) : io (option bool * Outcome) :=
  match role v with
  | NoLeader => Ret (None, out)
  | Leader => lead_role v out
  | Follower _ addr _ => follow_role v addr ;; Ret (None, out)
  end.

Definition pass (v : View) (mem : Memory) : io (Memory * Outcome) :=
  let* now := ask LeaseNow in
  let* pm := ask PostmasterStateReq in
  match pm with
  | Ok (Exited _) => Ret (mem, Outcome_ true false false [])
  | _ =>
      let running := match pm with Ok Running => true | _ => false end in
      let* (primary, out) := take_role v (Outcome_ false running false []) in
      let* (mem, out) := watch_leadership v primary now mem out in
      let* (mem, out) :=
        (if is_leader v && bool_decide (primary = Some true) then
           let* (mem, out, gate) := lead v now mem out in
           let out := Outcome_ (died out) (Reconciler.running out) (bool_decide (gate = Opening)) (effects out) in
           Ret (mem, if bool_decide (gate = Open) && negb (primary_opened v)
                     then propose v (PrimaryOpenedEffect (term v)) out else out)
         else Ret (set_replicas (reset (replicas mem)) mem, out)) in
      (if needs_reconcile (client_fence v)
       then let* _ := ask (LevelClientFence (client_fence v) (config_cluster_id (fence_config cfg))) in Ret tt
       else Ret tt) ;;
      report_lsn v now mem out
  end.

(** The command a commit effect proposes ([Driver::command_for]). *)
Definition command_for (e : Effect) : option ClusterCommand :=
  match e with
  | CommitSyncMode active => Some (SetSyncMode active)
  | CommitLineage id => Some (SetLineage id)
  | PrimaryOpenedEffect t => Some (PrimaryOpened t)
  | NameClusterEffect =>
      Some (NameCluster (config_cluster_id (fence_config cfg)) (config_awaits (fence_config cfg)))
  | ReportLsn _ _ | YieldTo _ => None
  end.

End Pass.

(** ** The liveness probe around the passes ([Driver::probe_liveness])

    [answered] is whether [SELECT 1] came back in its budget; the result is the new
    failure count, whether the probe succeeded, and whether it shut the node down. *)
Definition PG_PROBE_FAILURE_THRESHOLD : Z := 5.

Definition probe_liveness (answered : bool) (failures : Z) : Z * bool * bool :=
  if answered then (0, true, false)
  else
    let failures := sat_add_u32 failures 1 in
    (failures, false, PG_PROBE_FAILURE_THRESHOLD <=? failures).
