(* ===== verification/ReconcilerProofs.v ===== *)
(** * What a pass of the reconciler may do, and on what evidence

    [may_issue] says, for each dangerous request of a pass, what the pass has seen
    just before it; [effect_ok] says the same of the effects it asks for.  Every
    pass satisfies both, whatever PostgreSQL, the lease and the book answer. *)

From S2P Require Import Prelude Effects Text Net Core ClusterState ClusterStateProofs Handoff Lease LeaseProofs Fence Governor Replication ReplicationProofs Reconciler.

Import Reconciler.

Abbreviation hist := (list (event Reconciler.Answer)).
Local Notation "e ▷ r" := (answered (E:=Req) (R:=Reconciler.Answer) e r) (at level 60).

Section Matrix.
Context (cfg : Config) (v : View).

Definition required : nat := required_sync_standbys (length (peer_voter_names (voters v) (self cfg))).

(** ** Evidence *)
Definition primary_ev (ev : event Reconciler.Answer) : Prop :=
  match ev with
  | existT IsInRecovery r => r = Ok false
  | existT (Promote _) r => r = Ok tt
  | _ => False
  end.
Definition seen_primary (h : hist) : Prop := Exists primary_ev h.

Definition has_postmaster_ev (ev : event Reconciler.Answer) : Prop :=
  match ev with existT HasPostmaster r => r = true | _ => False end.

(** An anchor a hold-down check let through. *)
Definition released_ev (seen : option Instant) (ev : event Reconciler.Answer) : Prop :=
  match ev with
  | existT ReadLease r =>
      r.1.2 = seen ∧ promotion_lease_holddown seen r.2 DEFAULT_LEASE_DURATION = None
  | _ => False
  end.

(** Writes seen open, or opened. *)
Definition open_ev (ev : event Reconciler.Answer) : Prop :=
  match ev with
  | existT ProbeRoleAndReadonly r =>
      ∃ st, r = Some (Ok st) ∧ Session.in_recovery st = false ∧
        Session.settled (Session.read_only st) false = true
  | existT (SetReadonlyBudgeted ro) r => ro = false ∧ r = Some (Ok tt)
  | _ => False
  end.

(** ** The matrix *)
Definition opening_ok (h : hist) : Prop :=
  role v = Leader ∧ seen_primary h ∧
  ∃ h0 st anchor now,
    h = h0 ++ [ProbeRoleAndReadonly ▷ Some (Ok st); ReadLease ▷ (true, anchor, now)] ∧
    Session.in_recovery st = false ∧
    promotion_lease_holddown anchor now DEFAULT_LEASE_DURATION = None ∧
    writes_may_open (Session.sync_list_empty st) (Session.sync_standbys st) required
      (bool_decide (committed_sync v = Some false)) = true.

Definition promotion_ok (h : hist) (names : bytes) : Prop :=
  role v = Leader ∧
  ∃ h0 timeline anchor now vs,
    h = h0 ++ [IsInRecovery ▷ Ok true; VerifyPromotionSafe ▷ Ok timeline;
               PromotionAnchor ▷ (anchor, now); VoterIds ▷ vs] ∧
    promotion_lease_holddown (Some anchor) now DEFAULT_LEASE_DURATION = None ∧
    names = sync_standby_list (peer_voter_names vs (self cfg)).

(** Nothing to fence, or fenced and its clients evicted, just before. *)
Definition fenced_first (h : hist) : Prop :=
  (∃ h0 hp r, h = h0 ++ [HasPostmaster ▷ hp; IsInRecovery ▷ r] ∧ (hp = false ∨ r = Ok true)) ∨
  (∃ h0 r, h = h0 ++ [SetReadonly true ▷ Ok tt; TerminateClientBackends ▷ r]).

Definition demotion_ok (h : hist) (addr : SocketAddr) (terms : FollowTerms) : Prop :=
  terms = view_terms v ∧ (∃ l mgmt, role v = Follower l (Some addr) mgmt) ∧
  addr ≠ self_pg_addr cfg ∧ fenced_first h ∧
  (Upgrade.leaves_stopped (view_upgrade v) (self cfg) = true → Exists has_postmaster_ev h).

Definition may_issue (h : hist) (e : Req) : Prop :=
  match e with
  | SetReadonlyBudgeted readonly => readonly = false ∧ opening_ok h
  | SetReadonly readonly => readonly = true ∧ ∃ l a mgmt, role v = Follower l a mgmt
  | Promote names => promotion_ok h names
  | Demote addr terms => demotion_ok h addr terms
  | SetSyncStandbyNames names =>
      role v = Leader ∧ seen_primary h ∧ (names = [] → committed_sync v = Some false)
  | Start => role v = Leader ∧ frozen (view_upgrade v) = false ∧
             ∃ h0, h = h0 ++ [HasPostmaster ▷ false]
  | DropReplicationSlot id =>
      role v = Leader ∧ seen_primary h ∧ (id ∈ members v → id = self cfg)
  | SpendFailoverAnchor seen => Exists (released_ev seen) h
  | _ => True
  end.

(** ** Effects *)
Definition effect_ok (h : hist) (e : Effect) : Prop :=
  match e with
  | CommitSyncMode active =>
      has_quorum v = true ∧ role v = Leader ∧ committed_sync v ≠ Some active
  | CommitLineage _ =>
      has_quorum v = true ∧ role v = Leader ∧ lineage_unrecorded v = true ∧ seen_primary h
  | NameClusterEffect => has_quorum v = true ∧ role v = Leader ∧ naming v = Due
  | PrimaryOpenedEffect t =>
      has_quorum v = true ∧ role v = Leader ∧ t = term v ∧ primary_opened v = false ∧
      Exists open_ev h
  | ReportLsn _ to => ∃ l a, role v = Follower l a (Some to)
  | YieldTo target => role v = Leader ∧ target ∈ raft_voters v ∧ target ≠ self cfg
  end.

Lemma seen_primary_app h t : seen_primary h → seen_primary (h ++ t).
Proof. unfold seen_primary. rewrite Exists_app. tauto. Qed.

Lemma effect_ok_app h t e : effect_ok h e → effect_ok (h ++ t) e.
Proof.
  destruct e; simpl; try tauto; unfold seen_primary; rewrite Exists_app; tauto.
Qed.

Definition effects_ok (h : hist) (out : Outcome) : Prop := Forall (effect_ok h) (effects out).

Lemma effects_ok_app h t out : effects_ok h out → effects_ok (h ++ t) out.
Proof. intros H. eapply Forall_impl; [exact H|]. intros e. apply effect_ok_app. Qed.

Lemma effects_ok_push h out e : effects_ok h out → effect_ok h e → effects_ok h (push e out).
Proof. intros H He. unfold effects_ok, push. cbn. apply Forall_app. split; [done|by constructor]. Qed.

Lemma effects_ok_propose h out e :
  effects_ok h out → (has_quorum v = true → effect_ok h e) → effects_ok h (propose v e out).
Proof.
  intros H He. unfold propose. destruct (has_quorum v) eqn:E; [|done]. apply effects_ok_push; auto.
Qed.

(** A request the matrix says nothing of, or allows by the goal's hypotheses. *)
Ltac step r := cbn [bind Effects.ask safe]; split; [|intros r _; cbn [bind Effects.ask]].
Ltac free r := step r; [exact I|].

(** ** Promote and follow *)
Lemma promote_safe h :
  role v = Leader →
  safe any_answer may_issue h (Follow.promote_local_postgres (self cfg))
    (λ h' primary, (∃ t, h' = h ++ t) ∧ (primary = Some true → seen_primary h')).
Proof.
  intros Hr. unfold Follow.promote_local_postgres, Follow.observe_pg_primary.
  free r. destruct r as [[]|e]; cbn [bind Effects.ask].
  2:{ cbn. split; [eauto|]. intros _. apply Exists_app. right. by constructor. }
  2:{ cbn. split; [eauto|done]. }
  rewrite !bool_decide_eq_false_2 by done. free ver. destruct ver as [tl|e].
  2:{ cbn. split; [rewrite <-app_assoc; eauto|done]. }
  free an. destruct an as [anchor now]. cbn [bind].
  destruct (promotion_lease_holddown (Some anchor) now DEFAULT_LEASE_DURATION) eqn:Eh.
  { cbn. split; [rewrite <-!app_assoc; eauto|done]. }
  free vs. step p.
  { split; [done|]. rewrite <-!app_assoc. eauto 10. }
  cbn [safe]. split; [rewrite <-!app_assoc; eauto|].
  destruct p as [[]|e]; [|done]. intros _. apply Exists_app. right. by constructor.
Qed.

Lemma demote_safe h addr l mgmt :
  role v = Follower l (Some addr) mgmt → addr ≠ self_pg_addr cfg →
  safe any_answer may_issue h
    (Follow.demote_to_leader addr (Upgrade.leaves_stopped (view_upgrade v) (self cfg)) (view_terms v))
    (λ h' _, ∃ t, h' = h ++ t).
Proof.
  intros Hr Ha. unfold Follow.demote_to_leader. free hp0.
  set (stopped := Upgrade.leaves_stopped _ _). unfold Follow.leaves_stopped_standby.
  destruct (stopped && negb hp0) eqn:Est; [cbn; eauto|].
  free hp. free rec. unfold Follow.should_fence_before_demote.
  assert (∀ t, stopped = true → Exists has_postmaster_ev ((h ++ [HasPostmaster ▷ hp0]) ++ t)) as Hpm.
  { intros t Hs. rewrite Hs in Est. destruct hp0; [|done].
    apply Exists_app. left. apply Exists_app. right. by constructor. }
  destruct (hp && negb (bool_decide (result_ok rec = Some true))) eqn:Ef.
  - step r; [split; [done|eauto]|]. destruct r as [[]|e].
    2:{ cbn. rewrite <-!app_assoc. eauto. }
    free tb. step d.
    { split_and!; [done|eauto|done| |].
      - right. rewrite <-!app_assoc. exists (h ++ [HasPostmaster ▷ hp0; HasPostmaster ▷ hp; IsInRecovery ▷ rec]), tb.
        by rewrite <-!app_assoc.
      - intros Hs. rewrite <-!(app_assoc (h ++ [HasPostmaster ▷ hp0])). by apply Hpm. }
    cbn [safe]. rewrite <-!app_assoc. eauto.
  - step d.
    { split_and!; [done|eauto|done| |].
      - left. rewrite <-!app_assoc. exists (h ++ [HasPostmaster ▷ hp0]), hp, rec.
        rewrite <-!app_assoc. split; [done|]. destruct hp; [right|by left].
        destruct rec as [[]|]; done.
      - intros Hs. rewrite <-!(app_assoc (h ++ [HasPostmaster ▷ hp0])). by apply Hpm. }
    cbn [safe]. rewrite <-!app_assoc. eauto.
Qed.

(** ** The watchdog's yield *)
Lemma yield_target_acceptable cs n :
  Watchdog.choose_yield_target cs = Some n → n ∈ Watchdog.cand_id <$> cs.
Proof.
  unfold Watchdog.choose_yield_target. destruct (filter _ cs) as [|c rest] eqn:E; [done|].
  intros [= <-]. destruct (min_by_key_spec c rest) as [Hin _]. rewrite <-E in Hin.
  apply list_elem_of_filter in Hin as [_ Hin]. by apply list_elem_of_fmap_2.
Qed.

Lemma yield_candidates_safe ids threshold now (h : hist) :
  safe any_answer may_issue h (yield_candidates ids threshold now)
    (λ h' cs, (∃ t, h' = h ++ t) ∧ Watchdog.cand_id <$> cs = ids).
Proof.
  revert h; induction ids as [|id ids IH]; intros h; cbn [yield_candidates].
  - cbn. split; [|done]. exists []. by rewrite app_nil_r.
  - free b. free b'. apply safe_bind. eapply safe_post; [apply IH|].
    intros h' cs [[t ->] Hcs]. cbn. split; [rewrite <-!app_assoc; eauto|by rewrite Hcs].
Qed.

Lemma watch_leadership_safe h primary now mem out :
  effects_ok h out →
  safe any_answer may_issue h (watch_leadership cfg v primary now mem out)
    (λ h' r, (∃ t, h' = h ++ t) ∧ effects_ok h' r.2).
Proof.
  intros Hout. unfold watch_leadership.
  destruct (Watchdog.observe (watchdog mem) _ now) as [wd verdict] eqn:Ew.
  destruct (bool_decide (verdict ≠ Watchdog.Yield)) eqn:Ev.
  { cbn. split; [exists []; by rewrite app_nil_r|done]. }
  apply bool_decide_eq_false, dec_stable in Ev as ->.
  assert (role v = Leader) as Hlead.
  { unfold Watchdog.observe, is_leader in Ew. cbn in Ew.
    destruct (bool_decide (role v = Leader)) eqn:E; [by apply bool_decide_eq_true in E|done]. }
  free th. apply safe_bind. eapply safe_post; [apply yield_candidates_safe|].
  intros h' cs [[t ->] Hcs]. cbn [safe]. split; [rewrite <-app_assoc; eauto|].
  assert (effects_ok ((h ++ [LsnCatchupThreshold ▷ th]) ++ t) out) as Hout'
    by (rewrite <-app_assoc; by apply effects_ok_app).
  destruct (Watchdog.choose_yield_target cs) as [n|] eqn:Ec; [|exact Hout'].
  apply effects_ok_push; [exact Hout'|].
  apply yield_target_acceptable in Ec. rewrite Hcs in Ec.
  apply list_elem_of_filter in Ec as [Hne Hin]. cbn. auto.
Qed.

(** ** Slots *)
Lemma create_slots_safe ids (h : hist) :
  safe any_answer may_issue h (create_slots ids) (λ h' _, ∃ t, h' = h ++ t).
Proof.
  revert h; induction ids as [|id ids IH]; intros h; cbn [create_slots].
  - exists []. by rewrite app_nil_r.
  - free r. eapply safe_post; [apply IH|]. intros h' [] [t ->]. rewrite <-app_assoc. eauto.
Qed.

Lemma drop_slots_safe ids r (h : hist) :
  role v = Leader → seen_primary h → (∀ id, id ∈ ids → id ∈ members v → id = self cfg) →
  safe any_answer may_issue h (drop_slots ids r) (λ h' _, ∃ t, h' = h ++ t).
Proof.
  intros Hr. revert h r; induction ids as [|id ids IH]; intros h r Hp Hids; cbn [drop_slots].
  - exists []. by rewrite app_nil_r.
  - step d; [split_and!; [done|done|apply Hids; left]|].
    eapply safe_post; [apply IH|].
    + by apply seen_primary_app.
    + intros id' Hid'. apply Hids. by right.
    + intros h' r' [t ->]. rewrite <-app_assoc. eauto.
Qed.

Lemma sweep_safe now r (h : hist) :
  role v = Leader → seen_primary h →
  safe any_answer may_issue h
    (sweep_slots_if_due (filter (λ id, id ≠ self cfg) (elements (members v))) now r)
    (λ h' _, ∃ t, h' = h ++ t).
Proof.
  intros Hr Hp. unfold sweep_slots_if_due.
  match goal with |- safe _ _ _ (if ?b then _ else _) _ => destruct b end.
  { exists []. by rewrite app_nil_r. }
  free l. destruct l as [[existing|e]|]; cbn [safe]; eauto.
  destruct (plan_slot_reconciliation _ existing) as [create drop] eqn:Ep.
  apply safe_bind. eapply safe_post; [apply create_slots_safe|]. intros h1 [] [t1 ->].
  apply safe_bind. eapply safe_post; [apply drop_slots_safe; [done|by apply seen_primary_app, seen_primary_app|]|].
  - intros id Hid Hm. destruct (decide (id = self cfg)) as [|Hne]; [done|].
    replace drop with (plan_slot_reconciliation
      (filter (λ id, id ≠ self cfg) (elements (members v))) existing).2 in Hid by (by rewrite Ep).
    apply elem_of_drop in Hid as [_ Hn]. destruct Hn. apply list_elem_of_filter.
    split; [done|]. by apply elem_of_elements.
  - intros h2 r2 [t2 ->]. cbn [safe]. rewrite <-!app_assoc. eauto.
Qed.

(** ** Opening *)
Lemma open_writes_safe (h : hist) :
  role v = Leader → seen_primary h →
  safe any_answer may_issue h (open_writes v required)
    (λ h' gate, (∃ t, h' = h ++ t) ∧ (gate = Open → Exists open_ev h')).
Proof.
  intros Hr Hp. unfold open_writes.
  assert (∀ t gate, gate = (if has_quorum v then Opening else GateUnknown) →
    (∃ t', h ++ t = h ++ t') ∧ (gate = Open → Exists open_ev (h ++ t))) as Hwait.
  { intros t gate ->. split; [eauto|]. by destruct (has_quorum v). }
  free pr. destruct pr as [[st|e]|]; try (cbn; split; [eauto|done]).
  destruct (Session.in_recovery st) eqn:Erec; [cbn; split; [eauto|done]|].
  free rl. destruct rl as [[valid an] now]. cbn [bind].
  destruct (Session.settled (Session.read_only st) false) eqn:Eset.
  - assert (∀ t, Exists open_ev ((h ++ [ProbeRoleAndReadonly ▷ Some (Ok st)]) ++ t)) as Ho.
    { intros t. apply Exists_app. left. apply Exists_app. right. constructor. cbn. eauto. }
    destruct (bool_decide _) eqn:Eh.
    + cbn. split; [rewrite <-app_assoc; eauto|auto].
    + step sp.
      { apply Exists_app. right. constructor. cbn. split; [done|].
        apply bool_decide_eq_false in Eh. by apply eq_None_not_Some. }
      cbn. rewrite <-app_assoc. split; [rewrite <-app_assoc; eauto|auto].
  - destruct (bool_decide (is_Some _)) eqn:Eh.
    { rewrite orb_true_r. cbn [safe]. rewrite <-app_assoc. by apply Hwait. }
    apply bool_decide_eq_false, eq_None_not_Some in Eh.
    destruct (negb (writes_may_open _ _ _ _)) eqn:Ew; cbn [orb].
    { cbn [safe]. rewrite <-app_assoc. by apply Hwait. }
    destruct valid; cbn [negb orb]; [|cbn [safe]; rewrite <-app_assoc; by apply Hwait].
    apply negb_false_iff in Ew. step op.
    { split; [done|]. split; [done|]. split; [by rewrite <-app_assoc; apply seen_primary_app|].
      exists h, st, an, now. by rewrite <-app_assoc. }
    destruct op as [[[]|e]|]; [|cbn [safe]; rewrite <-!app_assoc; by apply Hwait..].
    step sp.
    { cbn [may_issue]. rewrite !Exists_app. left. right. constructor. cbn. done. }
    cbn [safe]. split; [rewrite <-!app_assoc; eauto|]. intros _.
    rewrite !Exists_app. left. right. constructor. cbn. done.
Qed.

(** ** The leader's duties *)
Lemma lead_safe h now mem out :
  role v = Leader → seen_primary h → effects_ok h out →
  safe any_answer may_issue h (lead cfg v now mem out)
    (λ h' r, (∃ t, h' = h ++ t) ∧ effects_ok h' r.1.2 ∧ (r.2 = Open → Exists open_ev h')).
Proof.
  intros Hr Hp Hout. unfold lead. apply safe_bind.
  eapply safe_post; [by apply sweep_safe|]. intros h1 r [t1 ->].
  free st. destruct st as [[stats|e]|]; cbn [safe];
    [|split_and!; [rewrite <-app_assoc; eauto|rewrite <-app_assoc; by apply effects_ok_app|done]..].
  destruct (observe r stats _ _ now _) as [r' healthy].
  destruct (plan_sync_replication _ healthy (has_quorum v) _) as [plan degraded].
  set (list := match plan with FullList => _ | AsyncFallback => _ end).
  set (active := negb (bool_decide (list = []))).
  apply safe_bind.
  eapply (safe_post _ _ _ _ (λ h' _, ∃ t, h' = h ++ t)).
  { destruct (active || bool_decide (committed_sync v = Some false)) eqn:Ei.
    - step s; [|cbn; rewrite <-!app_assoc; eauto]. split; [done|]. split.
      + rewrite <-app_assoc. by apply seen_primary_app.
      + intros Hnil. unfold active in Ei. rewrite bool_decide_eq_true_2 in Ei by done. cbn in Ei.
        by apply bool_decide_eq_true in Ei.
    - cbn. rewrite <-app_assoc. eauto. }
  intros h2 [] [t2 ->]. apply safe_bind. fold required.
  eapply safe_post; [apply open_writes_safe; [done|by apply seen_primary_app]|].
  intros h3 gate [[t3 ->] Ho]. cbn [safe]. split_and!; [rewrite <-app_assoc; eauto| |done].
  assert (effects_ok ((h ++ t2) ++ t3) out) as Hout' by (rewrite <-app_assoc; by apply effects_ok_app).
  cbn [fst snd]. destruct (bool_decide (committed_sync v ≠ Some active)) eqn:Ec; [|exact Hout'].
  apply effects_ok_propose; [exact Hout'|]. intros Hq. cbn. by apply bool_decide_eq_true in Ec.
Qed.

Lemma report_lsn_safe h now mem out :
  effects_ok h out →
  safe any_answer may_issue h (report_lsn cfg v now mem out)
    (λ h' r, effects_ok h' r.2).
Proof.
  intros Hout. unfold report_lsn. destruct (probe_due (lsn_cadence mem) now) as [c due].
  destruct due; cbn [negb]; [|exact Hout].
  free tx. assert (∀ t, effects_ok (h ++ t) out) as Hout' by (intros; by apply effects_ok_app).
  destruct tx as [[text|e]|]; try apply Hout'. destruct (Lsn.parse_lsn text) as [lsn|]; [|apply Hout'].
  free u. cbn [safe snd]. rewrite <-app_assoc. destruct (role v) as [| |l a [to|]] eqn:Er; try apply Hout'.
  destruct (report_due c lsn to now); [|apply Hout'].
  apply effects_ok_push; [apply Hout'|]. cbn. eauto.
Qed.

Lemma take_role_safe h out :
  effects_ok h out →
  safe any_answer may_issue h (take_role cfg v out)
    (λ h' r, (∃ t, h' = h ++ t) ∧ effects_ok h' r.2 ∧ (r.1 = Some true → role v = Leader ∧ seen_primary h')).
Proof.
  intros Hout. unfold take_role. destruct (role v) as [| |l a mgmt] eqn:Er.
  - cbn. split_and!; [exists []; by rewrite app_nil_r|done|done].
  - unfold lead_role. free hp. apply safe_bind.
    eapply (safe_post _ _ _ _ (λ h' _, ∃ t, h' = h ++ t)).
    { destruct (negb hp && negb (frozen (view_upgrade v))) eqn:Es; [|cbn; eauto].
      apply andb_true_iff in Es as [->%negb_true_iff Hf%negb_true_iff].
      step s; [cbn; split_and!; [done|done|by eauto]|]. cbn. rewrite <-app_assoc. eauto. }
    intros h1 [] [t1 ->].
    set (out1 := if bool_decide (naming v = Due) then _ else out).
    assert (∀ t, effects_ok (h ++ t) out1) as Hout1.
    { intros t. unfold out1. destruct (bool_decide _) eqn:En; [|by apply effects_ok_app].
      apply effects_ok_propose; [by apply effects_ok_app|]. apply bool_decide_eq_true in En. cbn. auto. }
    apply safe_bind. eapply safe_post; [by apply promote_safe|]. intros h2 primary [[t2 ->] Hp].
    destruct (bool_decide (primary = Some true) && lineage_unrecorded v) eqn:El.
    + apply andb_true_iff in El as [->%bool_decide_eq_true Hl]. free sid. cbn [safe fst snd].
      rewrite <-!app_assoc. split_and!; [eauto| |].
      * destruct sid as [[id|]|e]; try apply Hout1.
        apply effects_ok_propose; [apply Hout1|]. intros Hq. cbn. split_and!; try done.
        rewrite !app_assoc. apply seen_primary_app. by apply Hp.
      * intros _. split; [done|]. rewrite !app_assoc. apply seen_primary_app. by apply Hp.
    + cbn [safe fst snd]. rewrite <-app_assoc in *. split_and!; [eauto|apply Hout1|auto].
  - apply safe_bind. eapply (safe_post _ _ _ _ (λ h' _, ∃ t, h' = h ++ t)).
    + unfold follow_role. destruct a as [addr|]; [|exists []; by rewrite app_nil_r].
      destruct (bool_decide (addr = self_pg_addr cfg)) eqn:Ea; [exists []; by rewrite app_nil_r|].
      apply bool_decide_eq_false in Ea. by eapply demote_safe.
    + intros h1 [] [t1 ->]. cbn. split_and!; [eauto|by apply effects_ok_app|done].
Qed.

(** ** A whole pass *)
Lemma pass_safe mem :
  safe any_answer may_issue [] (pass cfg v mem) (λ h r, effects_ok h r.2).
Proof.
  unfold pass. free now. free pm.
  set (h0 := _ ++ [PostmasterStateReq ▷ pm]).
  assert (∀ out, effects out = [] → effects_ok h0 out) as Hnil
    by (intros out E; unfold effects_ok; by rewrite E).
  assert (∀ running, safe any_answer may_issue h0
    (let* (primary, out) := take_role cfg v (Outcome_ false running false []) in
      let* (mem, out) := watch_leadership cfg v primary now mem out in
      let* (mem, out) :=
        (if is_leader v && bool_decide (primary = Some true) then
           let* (mem, out, gate) := lead cfg v now mem out in
           let out := Outcome_ (died out) (Reconciler.running out) (bool_decide (gate = Opening)) (effects out) in
           Ret (mem, if bool_decide (gate = Open) && negb (primary_opened v)
                     then propose v (PrimaryOpenedEffect (term v)) out else out)
         else Ret (set_replicas (reset (replicas mem)) mem, out)) in
      (if needs_reconcile (client_fence v)
       then let* _ := ask (LevelClientFence (client_fence v) (config_cluster_id (fence_config cfg))) in Ret tt
       else Ret tt) ;;
      report_lsn cfg v now mem out)%prog (λ h r, effects_ok h r.2)) as Hbody.
  { intros running. clearbody h0. apply safe_bind. eapply safe_post; [by apply take_role_safe, Hnil|].
    intros h1 [primary out] ([t1 ->] & Hout & Hp). cbn [fst snd] in *.
    apply safe_bind. eapply safe_post; [by apply watch_leadership_safe|].
    intros h2 [mem1 out1] ([t2 ->] & Hout1). cbn [fst snd] in *. apply safe_bind.
    eapply (safe_post _ _ _ _ (λ h' r, effects_ok h' r.2)).
    - destruct (is_leader v && bool_decide (primary = Some true)) eqn:El; [|exact Hout1].
      apply andb_true_iff in El as [_ ->%bool_decide_eq_true]. destruct (Hp eq_refl) as [Hr Hseen].
      apply safe_bind. eapply safe_post; [apply lead_safe; [done|by apply seen_primary_app|done]|].
      intros h3 [[mem2 out2] gate] ([t3 ->] & Hout2 & Ho). cbn [safe fst snd] in *.
      destruct (bool_decide (gate = Open) && negb (primary_opened v)) eqn:Eo; [|exact Hout2].
      apply andb_true_iff in Eo as [->%bool_decide_eq_true Hopened%negb_true_iff].
      apply effects_ok_propose; [exact Hout2|]. intros Hq. cbn. auto 6.
    - intros h3 [mem2 out2] Hout2. cbn [fst snd] in *. apply safe_bind.
      eapply (safe_post _ _ _ _ (λ h' _, ∃ t, h' = h3 ++ t)).
      + destruct (needs_reconcile (client_fence v)).
        * free lv. cbn. eauto.
        * cbn. exists []. by rewrite app_nil_r.
      + intros h4 [] [t4 ->]. apply report_lsn_safe. by apply effects_ok_app. }
  destruct pm as [[|code|]|e]; [exact (Hbody true)| |exact (Hbody false)|exact (Hbody false)].
  cbn [safe]. by apply Hnil.
Qed.
End Matrix.

(** ** Properties *)

(** C13. Writes open only on proof (contract L1 and RPO): a pass asks PostgreSQL to open
    writes only as a leader whose server this pass saw out of recovery or promoted,
    right after a probe that reads it a primary and then a read of the lease that
    finds it valid with the hold-down over; and the probe shows the sync durability
    the list promises: enough standbys designated sync, or, with an empty list, none
    required or the async fallback committed. *)
Theorem writes_open_only_with_lease_and_durability cfg v mem t readonly :
  issues (pass cfg v mem) t (SetReadonlyBudgeted readonly) →
  readonly = false ∧ role v = Leader ∧ seen_primary t ∧
  ∃ h0 st anchor now,
    t = h0 ++ [ProbeRoleAndReadonly ▷ Some (Ok st); ReadLease ▷ (true, anchor, now)] ∧
    Session.in_recovery st = false ∧
    promotion_lease_holddown anchor now DEFAULT_LEASE_DURATION = None ∧
    (if Session.sync_list_empty st
     then required cfg v = 0%nat ∨ committed_sync v = Some false
     else Z.of_nat (required cfg v) ≤ Session.sync_standbys st).
Proof.
  intros Hi.
  destruct (safe_issues _ _ _ _ _ _ _ (pass_safe cfg v mem) Hi (relies_any _ _))
    as (Hro & Hr & Hp & h0 & st & an & now & Ht & Hrec & Hh & Hw).
  split_and!; [done|done|exact Hp|]. exists h0, st, an, now. split_and!; [exact Ht|done|done|].
  unfold writes_may_open in Hw. destruct (Session.sync_list_empty st).
  - apply orb_true_iff in Hw as [Hw%Nat.eqb_eq|Hw%bool_decide_eq_true]; auto.
  - by apply Z.leb_le in Hw.
Qed.

(** C17. A promotion needs everything: a pass promotes only as the Raft leader, right
    after its server said it is in recovery and its timeline check passed, with the
    failover hold-down over at the reading that follows, and under the sync list of
    the voters committed then. *)
Theorem promotes_only_past_every_gate cfg v mem t names :
  issues (pass cfg v mem) t (Promote names) →
  role v = Leader ∧
  ∃ h0 timeline anchor now vs,
    t = h0 ++ [IsInRecovery ▷ Ok true; VerifyPromotionSafe ▷ Ok timeline;
               PromotionAnchor ▷ (anchor, now); VoterIds ▷ vs] ∧
    promotion_lease_holddown (Some anchor) now DEFAULT_LEASE_DURATION = None ∧
    names = sync_standby_list (peer_voter_names vs (self cfg)).
Proof.
  intros Hi. exact (safe_issues _ _ _ _ _ _ _ (pass_safe cfg v mem) Hi (relies_any _ _)).
Qed.

(** C18. Following comes after fencing: a pass re-points its server only at the
    address membership gives another leader, never its own, on the committed terms;
    either the server runs no postmaster or is known to be in recovery, or it was set
    read-only, with success, and the termination of its clients asked for just before,
    whatever came of that (it may have timed out with clients left); and a standby an
    upgrade awaits is not touched while it is down. *)
Theorem follows_only_after_fencing cfg v mem t addr terms :
  issues (pass cfg v mem) t (Demote addr terms) →
  terms = view_terms v ∧ (∃ l mgmt, role v = Follower l (Some addr) mgmt) ∧
  addr ≠ self_pg_addr cfg ∧ fenced_first t ∧
  (Upgrade.leaves_stopped (view_upgrade v) (self cfg) = true → Exists has_postmaster_ev t).
Proof.
  intros Hi. exact (safe_issues _ _ _ _ _ _ _ (pass_safe cfg v mem) Hi (relies_any _ _)).
Qed.

(** The sync list loosens only after the log says so: a pass installs an empty
    [synchronous_standby_names] only once async is committed, so a rewind never
    budgets on sync while commits go out unacknowledged; and it drops a slot of no
    member but itself. *)
Lemma sync_list_empties_only_when_async_is_committed cfg v mem t e :
  issues (pass cfg v mem) t e →
  match e with
  | SetSyncStandbyNames names =>
      role v = Leader ∧ seen_primary t ∧ (names = [] → committed_sync v = Some false)
  | DropReplicationSlot id => role v = Leader ∧ seen_primary t ∧ (id ∈ members v → id = self cfg)
  | _ => True
  end.
Proof.
  intros Hi. pose proof (safe_issues _ _ _ _ _ _ _ (pass_safe cfg v mem) Hi (relies_any _ _)) as H.
  by destruct e.
Qed.

(** A pass asks the network only for what holds: it proposes only as a leader with
    quorum and only what the log lacks, [PrimaryOpened] only in its own term after it
    saw or made writes open, a lineage only of a primary; it reports its WAL only to
    the leader it follows, and yields only to another voter. *)
Lemma effects_are_warranted cfg v mem t mem' out :
  runs (pass cfg v mem) t (mem', out) → Forall (effect_ok cfg v t) (effects out).
Proof.
  intros Hr. exact (safe_runs _ _ _ _ _ _ _ (pass_safe cfg v mem) Hr (relies_any _ _)).
Qed.

(** ** Witnesses *)
Definition addr_of (port : Z) : SocketAddr := SocketAddr_ (V4 (10 * 2 ^ 24 + 2)) 0 port.
Definition node1_cfg : Config :=
  Config_ 1 (addr_of 5431) (ClientFenceConfig_ [] (lit "blue") None) (15 * secs).
Definition view_of (r : Role) : View :=
  View_ r true [1; 2; 3] {[1; 2; 3]} {[1; 2; 3]} (FollowTerms_ Unbounded Unenforced)
    pg_upgrade_default false Settled 4 false (Some true) (WantedClientFence_ false Idle []).
Definition fresh_memory : Memory :=
  Memory_ replicas_default Watchdog.watchdog_default (LsnCadence_ None None None).
Definition closed_primary : Session.PgWriteState :=
  Session.PgWriteState_ false (Session.ReadOnlyGuc_ true true) false 1.
Definition three_voters : bytes := lit "FIRST 1 (pgbattery_node_2, pgbattery_node_3)".

(** A pass of a leading primary up to the opening of writes. *)
Definition leading_pass : hist :=
  [LeaseNow ▷ 10 * secs; PostmasterStateReq ▷ Ok Running; HasPostmaster ▷ true;
   IsInRecovery ▷ Ok false; ListPhysicalReplicationSlots ▷ None; GetReplicationStats ▷ Some (Ok []);
   SetSyncStandbyNames three_voters ▷ Some (Ok tt); ProbeRoleAndReadonly ▷ Some (Ok closed_primary);
   ReadLease ▷ (true, None, 10 * secs)].

Lemma writes_open_only_with_lease_and_durability_witness :
  issues (pass node1_cfg (view_of Leader) fresh_memory) leading_pass (SetReadonlyBudgeted false) ∧
  seen_primary leading_pass.
Proof.
  assert (issues (pass node1_cfg (view_of Leader) fresh_memory) leading_pass (SetReadonlyBudgeted false))
    as Hi by (do 9 issue_step; issue_end; reflexivity).
  split; [exact Hi|].
  destruct (writes_open_only_with_lease_and_durability _ _ _ _ _ Hi) as (_ & _ & Hp & _). exact Hp.
Defined.

(** A pass of a leader whose server is still a standby, up to the promotion. *)
Definition promoting_pass : hist :=
  [LeaseNow ▷ 10 * secs; PostmasterStateReq ▷ Ok Running; HasPostmaster ▷ true;
   IsInRecovery ▷ Ok true; VerifyPromotionSafe ▷ Ok 3; PromotionAnchor ▷ (1 * secs, 10 * secs);
   VoterIds ▷ {[1; 2; 3]}].
Lemma promotes_only_past_every_gate_witness :
  issues (pass node1_cfg (view_of Leader) fresh_memory) promoting_pass (Promote three_voters) ∧
  role (view_of Leader) = Leader.
Proof.
  assert (issues (pass node1_cfg (view_of Leader) fresh_memory) promoting_pass (Promote three_voters))
    as Hi by (do 7 issue_step; issue_end; vm_compute; reflexivity).
  split; [exact Hi|]. exact (proj1 (promotes_only_past_every_gate _ _ _ _ _ Hi)).
Defined.

(** A pass of a deposed primary up to its demotion. *)
Definition deposed_view : View := view_of (Follower 2 (Some (addr_of 5432)) None).
Definition deposed_pass : hist :=
  [LeaseNow ▷ 10 * secs; PostmasterStateReq ▷ Ok Running; HasPostmaster ▷ true; HasPostmaster ▷ true;
   IsInRecovery ▷ Ok false; SetReadonly true ▷ Ok tt; TerminateClientBackends ▷ None].
Lemma follows_only_after_fencing_witness :
  issues (pass node1_cfg deposed_view fresh_memory) deposed_pass
    (Demote (addr_of 5432) (FollowTerms_ Unbounded Unenforced)) ∧
  fenced_first deposed_pass.
Proof.
  assert (issues (pass node1_cfg deposed_view fresh_memory) deposed_pass
    (Demote (addr_of 5432) (FollowTerms_ Unbounded Unenforced))) as Hi
    by (do 7 issue_step; issue_end; reflexivity).
  split; [exact Hi|].
  destruct (follows_only_after_fencing _ _ _ _ _ _ Hi) as (_ & _ & _ & Hf & _). exact Hf.
Defined.

Lemma sync_list_empties_only_when_async_is_committed_witness :
  issues (pass node1_cfg (view_of Leader) fresh_memory) (take 6 leading_pass)
    (SetSyncStandbyNames three_voters) ∧
  seen_primary (take 6 leading_pass).
Proof.
  assert (issues (pass node1_cfg (view_of Leader) fresh_memory) (take 6 leading_pass)
    (SetSyncStandbyNames three_voters)) as Hi
    by (do 6 issue_step; issue_end; vm_compute; reflexivity).
  split; [exact Hi|].
  exact (proj1 (proj2 (sync_list_empties_only_when_async_is_committed _ _ _ _ _ Hi))).
Defined.

(** The pass that opens writes ends in asking for [PrimaryOpened]. *)
Definition whole_pass : hist :=
  leading_pass ++ [SetReadonlyBudgeted false ▷ Some (Ok tt); SpendFailoverAnchor None ▷ tt;
    GetReportableLsn ▷ None].
Lemma whole_pass_runs : ∃ mem' out,
  runs (pass node1_cfg (view_of Leader) fresh_memory) whole_pass (mem', out) ∧
  effects out = [PrimaryOpenedEffect 4].
Proof.
  eexists _, _. split; [unfold whole_pass; cbn [app leading_pass]; do 12 run_step; by split|].
  vm_compute. reflexivity.
Qed.

Lemma effects_are_warranted_witness : ∃ mem' out,
  runs (pass node1_cfg (view_of Leader) fresh_memory) whole_pass (mem', out) ∧
  effect_ok node1_cfg (view_of Leader) whole_pass (PrimaryOpenedEffect 4).
Proof.
  destruct whole_pass_runs as (mem' & out & Hr & He). exists mem', out. split; [exact Hr|].
  pose proof (effects_are_warranted _ _ _ _ _ _ Hr) as H. rewrite He in H.
  apply Forall_cons in H as [H _]. exact H.
Defined.
