(* ===== verification/Driver.v ===== *)
(** * The loop around the reconciler's passes ([Driver] of [src/governor/reconciler/mod.rs])

    A round waits for a timer, a leader or fence change or the shutdown channel, runs
    one pass over a fresh view, probes PostgreSQL, and executes what the pass asked
    for.  Gauges, counters and log lines are left out, so the server's version is read
    and its verdict is not; [select!]'s choice among ready branches is the answer to
    [Select].

    The theorems: [driver_ok] says, for each request that leaves the node or ends it,
    what the history before it shows; every run of the loop satisfies it, whatever wakes
    it and whatever PostgreSQL, the log and the network answer. *)

From S2P Require Import Prelude Effects Text Net Core ClusterState ClusterStateProofs Handoff Lease Fence Governor Replication Reconciler ReconcilerProofs.

(** Which branch of the [select!] ran; [ChannelClosed] is an error of the leader or
    the fence channel. *)
Inductive Wake := Slept | LeaderChanged | FenceChanged | ChannelClosed | ShutdownChanged (down : bool).

Inductive DriverReq :=
| Select (wait : Duration)
| OfPass (q : Reconciler.Req)                    (* under the supervisor and its locks *)
| RaftMetrics                                    (* raft.metrics() *)
| SharedState                                    (* cluster_state.read() *)
| ProbeAnswers (timeout : Duration)              (* LivenessProbe::answers *)
| ServerVersionNum
| Propose (c : ClusterCommand) (deadline : Duration)    (* propose, under [timeout] *)
| PostReport (node : NodeId) (lsn : Z) (to : SocketAddr) (* POST report-lsn, its status *)
| SpawnYield (target : NodeId)                   (* tokio::spawn of the POST *)
| SendShutdown                                   (* shutdown_tx.send(true) *)
| StopPg (limit : Duration).
Definition DriverAnswer (q : DriverReq) : Type :=
  match q with
  | Select _ => Wake
  | OfPass q => Reconciler.Answer q
  | RaftMetrics => MetricsView
  | SharedState => ClusterState
  | ProbeAnswers _ => bool
  | ServerVersionNum => result PgError Z
  | Propose _ _ => option (result ProposeError CommandOutcome)
  | PostReport _ _ _ => option Z
  | SpawnYield _ | SendShutdown => ()
  | StopPg _ => option (result PgError ())
  end.
Abbreviation dio := (prog DriverAnswer).
Abbreviation dask := (@Effects.ask DriverReq DriverAnswer).
Definition in_pass {A} (p : prog Reconciler.Answer A) : dio A := embed OfPass (λ _ r, r) p.

Definition PASS_INTERVAL : Duration := 1 * secs.
Definition OPENING_INTERVAL : Duration := 100 * ms.
Definition EFFECT_DEADLINE : Duration := 2 * secs.
Definition PG_PROBE_TIMEOUT : Duration := 2 * secs.
Definition STOP_LIMIT : Duration := 5 * secs.

(** What the loop keeps between rounds. *)
Record Loop := Loop_ {
  wait : Duration;
  probe_failures : Z;
  last_probe : option Instant;
  version_reported : bool;
  memory : Memory;
}.
Definition loop_start (mem : Memory) : Loop := Loop_ 0 0 None false mem.

Section Driver.
Context (cfg : Config).

Definition commit (c : ClusterCommand) : dio () :=
  let* _ := dask (Propose c EFFECT_DEADLINE) in Ret tt.

(** [StatusCode::is_success]. *)
Definition is_success (status : Z) : bool := (200 <=? status) && (status <? 300).

Definition report_lsn_to_leader (to : SocketAddr) (lsn : Z) : dio bool :=
  let* r := dask (PostReport (self cfg) lsn to) in
  Ret (match r with Some status => is_success status | None => false end).

Definition execute (e : Effect) (mem : Memory) : dio Memory :=
  match command_for cfg e with
  | Some c => commit c ;; Ret mem
  | None =>
      match e with
      | ReportLsn lsn to =>
          let* sent := report_lsn_to_leader to lsn in
          if sent then
            let* now := in_pass (Effects.ask LeaseNow) in
            Ret (set_lsn (set_reported (lsn_cadence mem) lsn to now) mem)
          else Ret mem
      | YieldTo target => dask (SpawnYield target) ;; Ret mem
      | CommitSyncMode _ | CommitLineage _ | PrimaryOpenedEffect _ | NameClusterEffect => Ret mem
      end
  end.

Fixpoint execute_all (es : list Effect) (mem : Memory) : dio Memory :=
  match es with
  | [] => Ret mem
  | e :: es => let* mem := execute e mem in execute_all es mem
  end.

Definition probe (failures : Z) : dio (Z * bool) :=
  let* answered := dask (ProbeAnswers PG_PROBE_TIMEOUT) in
  let '(failures, ok, gives_up) := probe_liveness answered failures in
  (if gives_up then dask SendShutdown else Ret tt) ;; Ret (failures, ok).

Definition report_server_version : dio bool :=
  let* v := dask ServerVersionNum in
  Ret (match v with Ok _ => true | Err _ => false end).

Definition stop_postgres : dio () := let* _ := dask (StopPg STOP_LIMIT) in Ret tt.

(** The pass over the view read now, under the supervisor lock. *)
Definition one_pass (mem : Memory) : dio (Memory * Outcome) :=
  let* m := dask RaftMetrics in
  let* state := dask SharedState in
  in_pass (pass cfg (read_view (self cfg) m state (fence_config cfg)) mem).

(** The liveness probe of a running server, at its own cadence. *)
Definition probe_when_due (running : bool) (l : Loop) : dio Loop :=
  let* now := in_pass (Effects.ask LeaseNow) in
  if running && none_or_elapsed (last_probe l) now PROBE_INTERVAL then
    let* (failures, answered) := probe (probe_failures l) in
    let* reported :=
      (if answered && negb (version_reported l) then report_server_version
       else Ret (version_reported l)) in
    Ret (Loop_ (wait l) failures (Some now) reported (memory l))
  else Ret l.

(** After the wake-up. *)
Definition turn (l : Loop) : dio Loop :=
  let* (mem, out) := one_pass (memory l) in
  let l := Loop_ (wait l) (probe_failures l) (last_probe l) (version_reported l) mem in
  if died out then
    dask SendShutdown ;;
    Ret (Loop_ PASS_INTERVAL (probe_failures l) (last_probe l) (version_reported l) mem)
  else
    let* l := probe_when_due (running out) l in
    let* mem := execute_all (effects out) (memory l) in
    Ret (Loop_ (if opening out then OPENING_INTERVAL else PASS_INTERVAL)
           (probe_failures l) (last_probe l) (version_reported l) mem).

(** One round; [None] leaves the loop. *)
Definition round (l : Loop) : dio (option Loop) :=
  let* w := dask (Select (wait l)) in
  match w with
  | ChannelClosed => Ret None
  | ShutdownChanged true => stop_postgres ;; Ret None
  | ShutdownChanged false => Ret (Some l)
  | Slept | LeaderChanged | FenceChanged => let* l := turn l in Ret (Some l)
  end.

(** [n] rounds, or fewer if the loop is left; [None] is a loop that has ended. *)
Fixpoint run (n : nat) (l : Loop) : dio (option Loop) :=
  match n with
  | O => Ret (Some l)
  | S n =>
      let* next := round l in
      match next with Some l => run n l | None => Ret None end
  end.

End Driver.

Abbreviation dhist := (list (event DriverAnswer)).
Local Notation "e ▷ r" := (answered (E:=DriverReq) (R:=DriverAnswer) e r) (at level 60).

(** ** The outcome of a pass says [died] only of a dead postmaster *)
Section Died.
Context (cfg : Config) (v : View).
Abbreviation alive p h := (safe any_answer any_request h p (λ _ r, died r.2 = false)).

Lemma safe_true {E} {R : E → Type} {A} (h : list (@event E R)) (p : prog R A) :
  safe any_answer any_request h p (λ _ _, True).
Proof. revert h. induction p as [a|q k IH]; intros h; cbn; [done|]. split; [done|]. auto. Qed.
Lemma died_propose e out : died (propose v e out) = died out.
Proof. unfold propose. by destruct (has_quorum v). Qed.

Ltac past := apply safe_bind; eapply safe_post; [apply safe_true|intros ? ? _].

Lemma take_role_alive h out : died out = false → alive (take_role cfg v out) h.
Proof.
  intros Ho. unfold take_role, lead_role. destruct (role v); [done| |past; done].
  past. past. set (out' := if bool_decide (naming v = Due) then _ else _).
  assert (died out' = false) as Ho' by (unfold out'; case_match; by rewrite ?died_propose).
  clearbody out'. past. case_match; [|done]. past. cbn. by repeat case_match; rewrite ?died_propose.
Qed.
Lemma watch_alive h primary now mem out : died out = false → alive (watch_leadership cfg v primary now mem out) h.
Proof.
  intros Ho. unfold watch_leadership. destruct (Watchdog.observe _ _ _) as [wd verdict].
  case_match; [done|]. past. past. cbn. by case_match.
Qed.
Lemma lead_alive h now mem out :
  died out = false → safe any_answer any_request h (lead cfg v now mem out) (λ _ r, died r.1.2 = false).
Proof.
  intros Ho. unfold lead. past. past.
  match goal with |- safe _ _ _ (match ?r with _ => _ end) _ => destruct r as [[stats|e]|]; [|done|done] end.
  destruct (observe _ _ _ _ _ _) as [r healthy]. destruct (plan_sync_replication _ _ _ _) as [plan degraded].
  past. past. cbn. by case_match; rewrite ?died_propose.
Qed.
Lemma report_alive h now mem out : died out = false → alive (report_lsn cfg v now mem out) h.
Proof.
  intros Ho. unfold report_lsn. destruct (probe_due _ _) as [c due]. case_match; [done|]. past.
  match goal with |- safe _ _ _ (match ?r with _ => _ end) _ => destruct r as [[text|e]|]; [|done|done] end.
  destruct (Lsn.parse_lsn text) as [lsn|]; [|done]. past. cbn. by repeat case_match.
Qed.

Lemma pass_died mem t mem' out :
  runs (pass cfg v mem) t (mem', out) → died out = true →
  ∃ now c, t = [answered LeaseNow now; answered PostmasterStateReq (Ok (Exited c))].
Proof.
  intros (now & t1 & -> & pm & t2 & -> & Hr) Hd.
  assert (∀ running, runs
    (let* (primary, out) := take_role cfg v (Outcome_ false running false []) in
      let* (mem, out) := watch_leadership cfg v primary now mem out in
      let* (mem, out) :=
        (if is_leader v && bool_decide (primary = Some true) then
           let* (mem, out, gate) := lead cfg v now mem out in
           let out := Outcome_ (died out) (Reconciler.running out) (bool_decide (gate = Opening)) (effects out) in
           Ret (mem, if bool_decide (gate = Open) && negb (primary_opened v)
                     then propose v (PrimaryOpenedEffect (term v)) out else out)
         else Ret (set_replicas (reset (replicas mem)) mem, out)) in
      (if needs_reconcile (client_fence v)
       then let* _ := Effects.ask (LevelClientFence (client_fence v) (config_cluster_id (fence_config cfg))) in Ret tt
       else Ret tt) ;;
      report_lsn cfg v now mem out)%prog t2 (mem', out) → False) as Hbody.
  { intros running Hb. enough (died out = false) by congruence.
    refine (safe_runs any_answer any_request [] _ (λ _ r, died r.2 = false) _ _ _ Hb (relies_any _ _)).
    apply safe_bind. eapply safe_post; [by apply take_role_alive|]. intros h1 [primary out1] Ho1.
    apply safe_bind. eapply safe_post; [by apply watch_alive|]. intros h2 [mem1 out2] Ho2.
    apply safe_bind. eapply (safe_post _ _ _ _ (λ _ r, died r.2 = false)).
    - destruct (is_leader v && bool_decide (primary = Some true)); [|exact Ho2].
      apply safe_bind. eapply safe_post; [by apply lead_alive|].
      intros h3 [[mem2 out3] gate] Ho3. cbn [fst snd safe] in *. destruct (bool_decide (gate = Open) && _); rewrite ?died_propose; exact Ho3.
    - intros h3 [mem2 out3] Ho3. past. by apply report_alive. }
  destruct pm as [[|code|]|e]; [by destruct (Hbody true)| |by destruct (Hbody false)..].
  destruct Hr as [-> _]. by exists now, code.
Qed.
End Died.

(** ** The matrix *)
Section Matrix.
Context (cfg : Config).

(** This round's pass: over the view read last, answered as in [t]; what came after
    it is neither a wake-up nor another view. *)
Definition of_round (ev : event DriverAnswer) : bool :=
  match projT1 ev with Select _ | RaftMetrics | SharedState => false | _ => true end.
Definition this_pass (h : dhist) (v : View) (t : list (event Reconciler.Answer)) (out : Outcome) : Prop :=
  ∃ h0 m s h1 mem mem',
    h = h0 ++ RaftMetrics ▷ m :: SharedState ▷ s :: (embed_event OfPass (λ _ r, r) <$> t) ++ h1 ∧
    Forall of_round h1 ∧ v = read_view (self cfg) m s (fence_config cfg) ∧
    runs (pass cfg v mem) t (mem', out).

(** An effect of this round's pass, whose postmaster was not dead. *)
Definition asked_for (h : dhist) (e : Effect) : Prop :=
  ∃ v t out, this_pass h v t out ∧ died out = false ∧ e ∈ effects out ∧ effect_ok cfg v t e.

(** Failed liveness probes since the last one answered. *)
Definition count_probe (n : Z) (ev : event DriverAnswer) : Z :=
  match ev with existT (ProbeAnswers _) r => if r then 0 else n + 1 | _ => n end.
Definition failed_probes (h : dhist) : Z := foldl count_probe 0 h.

Definition just_died (h : dhist) : Prop :=
  ∃ h0 c, h = h0 ++ [OfPass PostmasterStateReq ▷ Ok (Exited c)].
Definition just_failed (h : dhist) : Prop :=
  (∃ h0 d, h = h0 ++ [ProbeAnswers d ▷ false]) ∧ PG_PROBE_FAILURE_THRESHOLD ≤ failed_probes h.

Definition driver_ok (h : dhist) (q : DriverReq) : Prop :=
  match q with
  | SendShutdown => just_died h ∨ just_failed h
  | StopPg _ => ∃ h0 w, h = h0 ++ [Select w ▷ ShutdownChanged true]
  | Propose c _ => ∃ e, command_for cfg e = Some c ∧ asked_for h e
  | PostReport node lsn to => node = self cfg ∧ asked_for h (ReportLsn lsn to)
  | SpawnYield target => asked_for h (YieldTo target)
  | _ => True
  end.

Lemma this_pass_app h t v tr out :
  this_pass h v tr out → Forall of_round t → this_pass (h ++ t) v tr out.
Proof.
  intros (h0 & m & s & h1 & mem & mem' & -> & Hh & Hv & Hr) Ht.
  exists h0, m, s, (h1 ++ t), mem, mem'. split; [|split_and!; [by apply Forall_app|done..]].
  rewrite <-!app_assoc. cbn. by rewrite <-!app_assoc.
Qed.
Lemma asked_for_app h t e : asked_for h e → Forall of_round t → asked_for (h ++ t) e.
Proof. intros (v & tr & out & Hp & H) Ht. exists v, tr, out. split; [by apply this_pass_app|done]. Qed.
Lemma failed_probes_app h t : failed_probes (h ++ t) = foldl count_probe (failed_probes h) t.
Proof. apply foldl_app. Qed.
Lemma failed_probes_pass h t : failed_probes (h ++ (embed_event OfPass (λ _ r, r) <$> t)) = failed_probes h.
Proof.
  rewrite failed_probes_app. generalize (failed_probes h). induction t as [|[q r] t IH]; intros n; [done|].
  cbn [fmap list_fmap foldl]. apply IH.
Qed.

(** The count the loop keeps is the history's, saturated. *)
Definition counts (l : Loop) (h : dhist) : Prop := probe_failures l = Z.min u32_max (failed_probes h) ∧ 0 ≤ failed_probes h.
(** What a step leaves of it: a part of the round, which probes nothing. *)
Definition quietly (h h' : dhist) : Prop :=
  ∃ t, h' = h ++ t ∧ Forall of_round t ∧ failed_probes h' = failed_probes h.

Lemma quietly_refl h : quietly h h.
Proof. exists []. by rewrite app_nil_r. Qed.
Lemma quietly_one h q r :
  of_round (q ▷ r) → (∀ d, q ≠ ProbeAnswers d) → quietly h (h ++ [q ▷ r]).
Proof.
  intros Hq Hp. exists [q ▷ r]. split_and!; [done|by constructor|]. rewrite failed_probes_app.
  destruct q; cbn; try done. by destruct (Hp timeout).
Qed.
Lemma quietly_trans h h1 h2 : quietly h h1 → quietly h1 h2 → quietly h h2.
Proof.
  intros (t1 & -> & H1 & E1) (t2 & -> & H2 & E2). exists (t1 ++ t2).
  split_and!; [by rewrite app_assoc|by apply Forall_app|by rewrite E2].
Qed.
Lemma asked_for_quietly h h' e : asked_for h e → quietly h h' → asked_for h' e.
Proof. intros H (t & -> & Ht & _). by apply asked_for_app. Qed.

Abbreviation okd h p Q := (safe any_answer driver_ok h p Q).

Lemma now_safe h : okd h (in_pass (Effects.ask LeaseNow)) (λ h' _, quietly h h').
Proof. split; [done|]. intros r _. by apply quietly_one. Qed.

Lemma execute_safe h e mem : asked_for h e → okd h (execute cfg e mem) (λ h' _, quietly h h').
Proof.
  intros He. unfold execute. destruct (command_for cfg e) as [c|] eqn:Ec.
  - apply safe_bind. split; [by exists e|]. intros r _. by apply quietly_one.
  - destruct e; try discriminate Ec.
    + apply safe_bind. split; [split; [done|exact He]|]. intros r _. cbn [bind safe].
      destruct (match r with Some status => is_success status | None => false end); [|by apply quietly_one].
      apply safe_bind. eapply safe_post; [apply now_safe|]. intros h' now Hq. cbn [safe].
      eapply quietly_trans; [|exact Hq]. by apply quietly_one.
    + split; [exact He|]. intros r _. by apply quietly_one.
Qed.
Lemma execute_all_safe h es mem :
  Forall (asked_for h) es → okd h (execute_all cfg es mem) (λ h' _, quietly h h').
Proof.
  revert h mem. induction es as [|e es IH]; intros h mem Hes; [apply quietly_refl|].
  apply Forall_cons in Hes as [He Hes]. apply safe_bind. eapply safe_post; [by apply execute_safe|].
  intros h1 mem1 Hq. eapply safe_post; [apply IH; eapply Forall_impl; [exact Hes|]; intros ? ?; by eapply asked_for_quietly|].
  intros h2 mem2 Hq2. exact (quietly_trans _ _ _ Hq Hq2).
Qed.

Lemma probe_safe h failures :
  failures = Z.min u32_max (failed_probes h) → 0 ≤ failed_probes h →
  okd h (probe failures) (λ h' r, (∃ t, h' = h ++ t ∧ Forall of_round t) ∧
    r.1 = Z.min u32_max (failed_probes h') ∧ 0 ≤ failed_probes h').
Proof.
  intros Hf H0. unfold probe. split; [done|]. intros answered _. cbn [bind].
  assert (failed_probes (h ++ [ProbeAnswers PG_PROBE_TIMEOUT ▷ answered]) = if answered then 0 else failed_probes h + 1) as Ep
    by (by rewrite failed_probes_app).
  unfold probe_liveness. destruct answered; cbn [bind safe fst snd].
  - rewrite Ep. split_and!; [eexists; split; [done|by repeat constructor]|done|done].
  - set (n := sat_add_u32 failures 1). assert (n = Z.min u32_max (failed_probes h + 1)) as En
      by (unfold n, sat_add; lia).
    destruct (PG_PROBE_FAILURE_THRESHOLD <=? n) eqn:Eg; cbn [bind safe Effects.ask].
    + apply Z.leb_le in Eg. split.
      * right. split; [eexists _, _; done|]. rewrite Ep. lia.
      * intros [] _. cbn [fst]. rewrite failed_probes_app, Ep. cbn. split_and!; [|done|lia].
        rewrite <-app_assoc. eexists. split; [done|]. by repeat constructor.
    + rewrite Ep. split_and!; [eexists; split; [done|by repeat constructor]|done|lia].
Qed.

Lemma one_pass_safe h mem :
  okd h (one_pass cfg mem) (λ h' r,
    failed_probes h' = failed_probes h ∧ (died r.2 = true → just_died h') ∧
    (died r.2 = false → Forall (asked_for h') (effects r.2))).
Proof.
  unfold one_pass. split; [done|]. intros m _. cbn [bind]. split; [done|]. intros s _. cbn [bind].
  apply (safe_embedded OfPass (λ _ r, r) (λ _ r, r)); [done..|].
  intros t [mem' out] Hr. cbn [snd]. split_and!.
  - by rewrite failed_probes_pass, !failed_probes_app.
  - intros Hd. apply pass_died in Hr as (now & c & ->); [|done].
    exists (((h ++ [RaftMetrics ▷ m]) ++ [SharedState ▷ s]) ++ [OfPass LeaseNow ▷ now]), c.
    by rewrite <-(app_assoc _ [OfPass LeaseNow ▷ now]).
  - intros Hd. pose proof (effects_are_warranted _ _ _ _ _ _ Hr) as Hw. apply Forall_forall. intros e He.
    rewrite Forall_forall in Hw. eexists _, t, out. split_and!; [|done|done|by apply Hw].
    exists h, m, s, [], mem, mem'. split_and!; [by rewrite app_nil_r, <-!app_assoc|by constructor|done|done].
Qed.

(** A step that may probe. *)
Definition roundly (h h' : dhist) : Prop := ∃ t, h' = h ++ t ∧ Forall of_round t.

Lemma probe_when_due_safe h running l :
  counts l h → okd h (probe_when_due running l) (λ h' l', roundly h h' ∧ counts l' h' ∧ memory l' = memory l).
Proof.
  intros [Hf H0]. unfold probe_when_due. apply safe_bind. eapply safe_post; [apply now_safe|].
  intros h1 now (t1 & -> & Ht1 & Ep).
  destruct (running && _); [|by split; [exists t1|split; [split; rewrite Ep|]]].
  apply safe_bind. eapply safe_post; [apply probe_safe; by rewrite Ep|].
  intros h2 [failures answered] ([t2 [-> Ht2]] & Hf2 & H2). cbn [fst] in Hf2. apply safe_bind.
  eapply (safe_post _ _ _ _ (λ h' _, quietly ((h ++ t1) ++ t2) h')).
  - destruct (answered && _); [|apply quietly_refl]. split; [done|]. intros r _. by apply quietly_one.
  - intros h3 reported (t3 & -> & Ht3 & Ep3). cbn [safe]. split_and!; [|split; by rewrite Ep3|done].
    exists (t1 ++ t2 ++ t3). split; [by rewrite !app_assoc|]. by rewrite !Forall_app.
Qed.

Lemma turn_safe h l : counts l h → okd h (turn cfg l) (λ h' l', counts l' h').
Proof.
  intros [Hf H0]. unfold turn. apply safe_bind. eapply safe_post; [apply one_pass_safe|].
  intros h1 [mem out] (Ep & Hd & Ha). cbn [fst snd] in *.
  destruct (died out) eqn:Ed.
  - split; [by left; apply Hd|]. intros [] _. cbn [bind safe].
    unfold counts. rewrite failed_probes_app. cbn [foldl count_probe]. by rewrite Ep.
  - apply safe_bind. eapply safe_post; [apply probe_when_due_safe; split; by rewrite Ep|].
    intros h2 l2 ([t2 [-> Ht2]] & [Hf2 H2] & _). apply safe_bind.
    eapply safe_post; [apply execute_all_safe|].
    + eapply Forall_impl; [by apply Ha|]. intros e He. by apply asked_for_app.
    + intros h3 mem3 (t3 & -> & _ & Ep3). cbn [safe]. unfold counts. by rewrite Ep3.
Qed.

Lemma run_safe n h l : counts l h → okd h (run cfg n l) (λ _ _, True).
Proof.
  revert h l. induction n as [|n IH]; intros h l Hl; [done|]. cbn [run]. apply safe_bind.
  eapply (safe_post _ _ _ _ (λ h' next, ∀ l', next = Some l' → counts l' h')).
  - split; [done|]. intros w _.
    assert (counts l (h ++ [Select (wait l) ▷ w])) as Hl' by (unfold counts; by rewrite failed_probes_app).
    assert (okd (h ++ [Select (wait l) ▷ w]) (bind (turn cfg l) (λ l, Ret (Some l)))
      (λ h' next, ∀ l', next = Some l' → counts l' h')) as Hturn.
    { apply safe_bind. eapply safe_post; [by apply turn_safe|]. intros h' l' Hc l'' [= <-]. exact Hc. }
    destruct w as [| | | |[]]; cbn [bind]; [exact Hturn..|done| |by intros l' [= <-]].
    split; [by exists h, (wait l)|]. intros r _. done.
  - intros h' [l'|] Hn; [|done]. apply IH, Hn. done.
Qed.
End Matrix.

(** C20. The driver commits, reports, yields and stops only on its passes' word: every
    command it proposes, every WAL report and every yield is an effect of the pass this
    round ran over the view it had just read, warranted by what that pass saw and never
    of a dead server; it shuts the node down only right after its pass found the
    postmaster exited, or right after the fifth liveness probe in a row that failed; and
    it stops PostgreSQL only on the shutdown signal. *)
Theorem the_driver_acts_on_its_passes cfg n mem t q :
  issues (run cfg n (loop_start mem)) t q → driver_ok cfg t q.
Proof.
  intros Hi. refine (safe_issues any_answer _ [] _ _ _ _ (run_safe cfg n [] _ _) Hi (relies_any _ _)).
  by split.
Qed.

(** A server that stops answering is given up: whatever the count was, five failed
    probes in a row shut the node down, and one answer starts the count again. *)
Lemma five_failed_probes_give_up failures :
  0 ≤ failures →
  (foldl (λ a (_ : ()), probe_liveness false a.1.1) (failures, false, false) (replicate 5 tt)).2 = true ∧
  (probe_liveness true failures).1.1 = 0.
Proof.
  intros H. split; [|done]. cbn [replicate foldl fst]. unfold probe_liveness. cbn [fst snd].
  apply Z.leb_le. unfold sat_add, PG_PROBE_FAILURE_THRESHOLD, u32_max. lia.
Qed.

(** The shutdown signal ends the loop, through the stop of PostgreSQL. *)
Lemma a_shutdown_stops_postgres cfg n l :
  ∃ k, run cfg (S n) l = Do (Select (wait l)) k ∧
  ∀ t next, runs (k (ShutdownChanged true)) t next → next = None ∧ ∃ r, t = [StopPg STOP_LIMIT ▷ r].
Proof.
  eexists. split; [reflexivity|]. intros t next (r & t' & -> & H). cbn in H. destruct H as [-> ->]. eauto.
Qed.

(** ** Witness: a leader whose pass opened writes commits [PrimaryOpened] *)
Definition leading_metrics : MetricsView := MetricsView_ (Some 1) 4 (Some 0) [1; 2; 3].
Definition leading_state : ClusterState := three_intended.
Definition answers_leading (q : DriverReq) : option (DriverAnswer q) :=
  match q with
  | Select _ => Some Slept
  | RaftMetrics => Some leading_metrics
  | SharedState => Some leading_state
  | OfPass q => match q with
      | LeaseNow => Some (10 * secs)
      | PostmasterStateReq => Some (Ok Running)
      | HasPostmaster => Some true
      | IsInRecovery => Some (Ok false)
      | SystemIdentifier => Some (Ok (Some 7))
      | ListPhysicalReplicationSlots => Some None
      | GetReplicationStats => Some (Some (Ok []))
      | SetSyncStandbyNames _ | SetReadonlyBudgeted _ => Some (Some (Ok tt))
      | ProbeRoleAndReadonly => Some (Some (Ok closed_primary))
      | ReadLease => Some (true, None, 10 * secs)
      | GetReportableLsn => Some None
      | SpendFailoverAnchor _ => Some tt
      | _ => None
      end
  | ProbeAnswers _ => Some true
  | ServerVersionNum => Some (Ok 170004)
  | _ => None
  end.
Definition is_propose (q : DriverReq) : bool := match q with Propose _ _ => true | _ => false end.
Lemma leading_round_reached :
  (λ '(t, q), (length t, q)) <$>
    drive_to answers_leading is_propose (run node1_cfg 1 (loop_start fresh_memory)) =
  Some (18%nat, Propose (NameCluster (lit "blue") None) EFFECT_DEADLINE).
Proof. vm_compute. reflexivity. Qed.

Lemma the_driver_acts_on_its_passes_witness : ∃ t e,
  length t = 18%nat ∧ command_for node1_cfg e = Some (NameCluster (lit "blue") None) ∧ asked_for node1_cfg t e.
Proof.
  pose proof leading_round_reached as Hr.
  destruct (drive_to answers_leading is_propose _) as [[t q]|] eqn:Ed; [|discriminate Hr].
  injection Hr as Hl ->. exists t.
  destruct (the_driver_acts_on_its_passes _ _ _ _ _ (drive_to_issues _ _ _ _ _ Ed)) as (e & Hc & He).
  exists e. split; [exact Hl|]. split; [exact Hc|exact He].
Defined.
