(* ===== verification/Join.v ===== *)
(** * Starting a node, and joining it to a cluster ([src/app.rs])

    [App::run_join_flow]: whether a node resumes, wipes its Raft state or clones the
    leader, and what it may delete on the way; and the start of a data node: which role
    PostgreSQL opens in, and when a bootstrap mints a cluster.  The network, the two
    directories and the processes are requests.  The theorems: [join_ok] says on what
    evidence a join removes anything, clones and starts; [mint_ok] on what evidence a
    start mints a lineage or a Raft cluster. *)

From S2P Require Import Prelude Effects Text Net Core Handoff.
From Stdlib Require Import Strings.Byte.

(** ** What is asked *)
Inductive Dir := RaftDir | DataDir.
Inductive File := RaftDb | PgVersion | StandbySignal | AutoConf.
#[local] Instance Dir_eq_dec : EqDecision Dir.
Proof. solve_decision. Defined.
#[local] Instance File_eq_dec : EqDecision File.
Proof. solve_decision. Defined.
(** [LeaderResponse], what a join reads of it. *)
Record LeaderResponse := LeaderResponse_ { leader_addr : option bytes; leader_pg_addr : option bytes; leader_mgmt_addr : option bytes }.
Inductive JoinReq :=
| HttpClient (timeout_secs : Z) (token : option bytes)
| FileExists (f : File)
| DirExists (d : Dir)
| ReadDir (d : Dir)                              (* entries, each with its [is_dir] *)
| RemoveDirAll (d : Dir) (name : bytes)
| RemoveFile (d : Dir) (name : bytes)
| CreateDirAll (d : Dir)
| ReadSystemIdentifier
| GetMembers (addr : bytes)
| GetIdentity (addr : bytes)
| GetLeader (addr : bytes)
| PostJoin (addr : bytes) (voter : bool)
| PostRemove (addr : bytes) (node_id : Z)
| PgBasebackup (host : bytes) (port : Z) (slot : bytes)
| WriteStandbySignal
| ReadAutoConf
| WriteAutoConf (content : bytes)
| Pause (d : Z)
| InitMetrics
| Run                                            (* [App::run(false)] *)
| RunDataNode                                    (* [App::run_data_node(false)] *)
| RecoverInterruptedRestore
| SupervisorStart
| SupervisorInitialize
| HasMembership                                  (* of the Raft store *)
| RaftInitialize.
Section Decisions.
#[local] Existing Instance byte_code_dec | 0.
(** [option_eq_dec] proves [None = None] opaquely; this one computes. *)
#[local] Instance token_eq_dec : EqDecision (option bytes) | 0.
Proof.
  intros [a|] [b|]; [|by right|by right|by left].
  destruct (decide (a = b)) as [->|H]; [by left|right; congruence].
Defined.
#[global] Instance JoinReq_eq_dec : EqDecision JoinReq.
Proof. solve_decision. Defined.
End Decisions.
Abbreviation Members := (list (Z * MemberRole)).
Definition JoinAnswer (q : JoinReq) : Type :=
  match q with
  | HttpClient _ _ | FileExists _ | DirExists _ | RemoveDirAll _ _ | RemoveFile _ _ | CreateDirAll _
  | WriteStandbySignal | WriteAutoConf _ | InitMetrics | Run | RunDataNode
  | RecoverInterruptedRestore | SupervisorStart | SupervisorInitialize => bool
  | ReadDir _ => option (list (option (bytes * bool)))
  | ReadSystemIdentifier => option (option Z)
  | GetMembers _ => option Members
  | GetIdentity _ => option (option Z)
  | GetLeader _ => option LeaderResponse
  | PostJoin _ _ => option (Z * option Members)   (* the status, and a body that parsed *)
  | PostRemove _ _ | Pause _ => unit
  | PgBasebackup _ _ _ => option bool
  | ReadAutoConf => option bytes
  | HasMembership => option bool
  | RaftInitialize => bool
  end.
Inductive JoinFailed := Failing.
Abbreviation jio A := (prog JoinAnswer (result JoinFailed A)).
Abbreviation jask := (@Effects.ask JoinReq JoinAnswer).
Definition good {A} (a : A) : jio A := Ret (Ok a).
Definition bad {A} : jio A := Ret (Err Failing).
Definition have {A} (r : option A) : jio A := match r with Some a => good a | None => bad end.
Definition ensure (b : bool) : jio () := if b then good tt else bad.
Definition tell (q : JoinReq) : jio (JoinAnswer q) := let* r := jask q in good r.
(** A request that answers whether it worked. *)
Definition act (q : JoinReq) (worked : JoinAnswer q → bool) : jio () := let* r := jask q in ensure (worked r).

(** ** Decisions *)
Definition peer_speaks_for_lineage (local peer : option Z) : bool :=
  match local, peer with Some l, Some p => l =? p | _, _ => true end.
Definition clone_supersedes_local_data (local leader : option Z) : bool :=
  match local, leader with Some l, Some d => l =? d | _, _ => false end.
Inductive JoinDataDir := Usable | ClearInterruptedClone | ClearSupersededData | Refuse.
Definition join_data_dir_disposition (is_empty holds_pg_data : bool) (local_lineage leader_lineage : option Z) : JoinDataDir :=
  if is_empty then Usable
  else if negb holds_pg_data then ClearInterruptedClone
  else if clone_supersedes_local_data local_lineage leader_lineage then ClearSupersededData
  else Refuse.
Definition JOIN_CLONE_ATTEMPTS : nat := 12.
Definition JOIN_CLONE_RETRY : Z := 2 * 1000000000.

(** ** Directories *)
Fixpoint remove_entries (d : Dir) (entries : list (option (bytes * bool))) : jio () :=
  match entries with
  | [] => good tt
  | None :: _ => bad
  | Some (name, is_dir) :: rest =>
      let? _ := (if is_dir : bool then act (RemoveDirAll d name) id else act (RemoveFile d name) id) in
      remove_entries d rest
  end.
Definition clear_dir_contents (d : Dir) : jio () :=
  let? there := tell (DirExists d) in
  if negb there then good tt
  else
    let? entries := tell (ReadDir d) in
    let? entries := have entries in
    remove_entries d entries.
Definition dir_is_empty (d : Dir) : jio bool :=
  let? there := tell (DirExists d) in
  if negb there then good true
  else
    let? entries := tell (ReadDir d) in
    let? entries := have entries in
    good (bool_decide (length entries = 0%nat)).
Definition ensure_data_dir_ready : jio () :=
  let? there := tell (DirExists DataDir) in
  if there then
    let? entries := tell (ReadDir DataDir) in
    let? entries := have entries in
    ensure (bool_decide (length entries = 0%nat))
  else act (CreateDirAll DataDir) id.
Definition wipe_raft_state : jio () := clear_dir_contents RaftDir.
Definition discard_partial_join_data : prog JoinAnswer () := let* _ := clear_dir_contents DataDir in Ret tt.

Section Node.
(** The configuration: [node_id], [pg_user], [management_api_token]. *)
Context (node_id : Z) (pg_user : bytes) (token : option bytes).

Definition lists_this_node (members : Members) : bool := existsb (λ m, m.1 =? node_id) members.
Definition is_in_committed_membership (peer : bytes) : prog JoinAnswer (option bool) :=
  let* r := jask (GetMembers peer) in Ret (lists_this_node <$> r).
(** An unreadable control file is an unknown lineage. *)
Definition local_cluster_lineage : prog JoinAnswer (option Z) :=
  let* r := jask ReadSystemIdentifier in Ret (default None r).
Definition peer_cluster_lineage (addr : bytes) : prog JoinAnswer (option Z) :=
  let* r := jask (GetIdentity addr) in Ret (default None r).
Definition peer_speaks_for_our_cluster (peer : bytes) : prog JoinAnswer bool :=
  let* local := local_cluster_lineage in
  let* theirs := peer_cluster_lineage peer in
  Ret (peer_speaks_for_lineage local theirs).

Record JoinLeaderInfo := JoinLeaderInfo_ { addr : bytes; pg_addr : bytes; mgmt_addr : bytes; host : bytes; pg_port : Z }.
Definition show_ip (ip : IpAddr) : bytes := match ip with V4 o => show_ipv4 o | V6 s => show_ipv6 s end.
Definition discover_join_leader (peer : bytes) : jio JoinLeaderInfo :=
  let? r := tell (GetLeader peer) in
  let? r := have r in
  let? a := have (leader_addr r) in
  let? pg := have (leader_pg_addr r) in
  let? mgmt := have (leader_mgmt_addr r) in
  let? socket := have (parse_socket_addr pg) in
  good (JoinLeaderInfo_ a pg mgmt (show_ip (sock_ip socket)) (sock_port socket)).

Definition ensure_join_data_dir_ready (leader_lineage : option Z) : jio () :=
  let? holds_pg_data := tell (FileExists PgVersion) in
  let* local_lineage := (if holds_pg_data : bool then local_cluster_lineage else Ret None) in
  let? empty := dir_is_empty DataDir in
  let? _ :=
    match join_data_dir_disposition empty holds_pg_data local_lineage leader_lineage with
    | Usable | Refuse => good tt
    | ClearInterruptedClone | ClearSupersededData => clear_dir_contents DataDir
    end in
  ensure_data_dir_ready.

Definition register_as_learner (leader_mgmt : bytes) (voter : bool) : jio () :=
  let? r := tell (PostJoin leader_mgmt voter) in
  let? r := have r in
  if (200 <=? r.1) && (r.1 <? 300) then good tt
  else
    ensure ((r.1 =? 409) && match r.2 with Some members => lists_this_node members | None => false end).

Definition primary_conninfo (leader : JoinLeaderInfo) : bytes :=
  lit "primary_conninfo = 'host=" ++ host leader ++ lit " port=" ++ show_u64 (pg_port leader) ++ lit " user=" ++ pg_user ++
  lit " application_name=pgbattery_node_" ++ show_u64 node_id ++ lit "'".
Fixpoint join_lines (ls : list bytes) : bytes :=
  match ls with [] => [] | [l] => l | l :: rest => l ++ [x0a] ++ join_lines rest end.
Definition with_primary_conninfo (auto_conf : bytes) (leader : JoinLeaderInfo) : bytes :=
  join_lines (filter (λ l, starts_with (lit "primary_conninfo") l = false) (lines auto_conf)) ++
  [x0a] ++ primary_conninfo leader ++ [x0a].
Definition update_primary_conninfo (leader : JoinLeaderInfo) : jio () :=
  let? there := tell (FileExists AutoConf) in
  let? auto_conf := (if there : bool then let? c := tell ReadAutoConf in have c else good []) in
  act (WriteAutoConf (with_primary_conninfo auto_conf leader)) id.
Definition ensure_standby_signal : jio () :=
  let? there := tell (FileExists StandbySignal) in
  if there : bool then good tt else act WriteStandbySignal id.
Definition run_pg_basebackup (leader : JoinLeaderInfo) : jio () :=
  act (PgBasebackup (host leader) (pg_port leader) (Slot.fmt (Slot.for_node node_id))) (λ r, default false r).
Definition prepare_join_data (leader : JoinLeaderInfo) : jio () :=
  let? _ := run_pg_basebackup leader in
  let? _ := ensure_standby_signal in
  update_primary_conninfo leader.
(** [retry_join_step]: [n] attempts are left. *)
Fixpoint clone_attempts (n : nat) (leader : JoinLeaderInfo) : jio () :=
  let* outcome := prepare_join_data leader in
  match outcome with
  | Ok _ => good tt
  | Err _ =>
      let* _ := discard_partial_join_data in
      match n with
      | O => bad
      | S n => let* _ := jask (Pause JOIN_CLONE_RETRY) in clone_attempts n leader
      end
  end.
Definition clone_from_leader (leader : JoinLeaderInfo) : jio () := clone_attempts (JOIN_CLONE_ATTEMPTS - 1) leader.

(** ** Joining *)
(** What there is to resume: [Some] ends the flow, [None] joins as new. *)
Definition resume_or_wipe (peer : bytes) : jio (option ()) :=
  let? has_raft_state := tell (FileExists RaftDb) in
  if negb has_raft_state then good None
  else
    let* listed := is_in_committed_membership peer in
    match listed with
    | Some true =>
        let? has_pg_data := tell (FileExists PgVersion) in
        if has_pg_data : bool then let? _ := act Run id in good (Some tt)
        else
          let? leader := discover_join_leader peer in
          let? _ := ensure_join_data_dir_ready None in
          let* prepared := prepare_join_data leader in
          match prepared with
          | Err _ => let* _ := discard_partial_join_data in bad
          | Ok _ => let? _ := act Run id in good (Some tt)
          end
    | Some false =>
        let* speaks := peer_speaks_for_our_cluster peer in
        if negb speaks then let? _ := act Run id in good (Some tt)
        else let? _ := wipe_raft_state in good None
    | None => let? _ := act Run id in good (Some tt)
    end.
Definition join_as_new (peer : bytes) (auto_promote : bool) : jio () :=
  let? _ := act InitMetrics id in
  let? leader := discover_join_leader peer in
  let* leader_lineage := peer_cluster_lineage (mgmt_addr leader) in
  let? _ := ensure_join_data_dir_ready leader_lineage in
  let? _ := register_as_learner (mgmt_addr leader) auto_promote in
  let* cloned := clone_from_leader leader in
  match cloned with
  | Err _ => let* _ := jask (PostRemove (mgmt_addr leader) node_id) in bad
  | Ok _ => act RunDataNode id
  end.
Definition run_join_flow (peer : bytes) (auto_promote : bool) : jio () :=
  let? _ := act (HttpClient 30 token) id in
  let? resumed := resume_or_wipe peer in
  match resumed with Some _ => good tt | None => join_as_new peer auto_promote end.

(** ** Starting *)
(** [config.peers], by their management address. *)
Context (peers : list bytes).
Fixpoint first_listing (peers : list bytes) : prog JoinAnswer (option bytes) :=
  match peers with
  | [] => Ret None
  | p :: rest =>
      let* listed := is_in_committed_membership p in
      match listed with Some true => Ret (Some p) | _ => first_listing rest end
  end.
Definition peer_listing_this_node : prog JoinAnswer (option bytes) :=
  let* built := jask (HttpClient 3 None) in
  if negb built then Ret None else first_listing peers.
Definition start_standby_or_defer_repair : prog JoinAnswer () := let* _ := jask SupervisorStart in Ret tt.
Definition start_supervisor_for_mode (bootstrap : bool) : jio () :=
  let? _ := act RecoverInterruptedRestore id in
  let? has_existing_data := tell (FileExists PgVersion) in
  let? is_standby := tell (FileExists StandbySignal) in
  if has_existing_data && is_standby then let* _ := start_standby_or_defer_repair in good tt
  else if bootstrap then
    if has_existing_data : bool then act SupervisorStart id
    else
      let* listing := peer_listing_this_node in
      match listing with
      | Some _ => good tt
      | None =>
          let? _ := act SupervisorInitialize id in
          act SupervisorStart id
      end
  else if has_existing_data : bool then act SupervisorStart id
  else bad.
Definition initialize_membership (bootstrap : bool) : jio () :=
  let? has_membership := tell HasMembership in
  let? has_membership := have has_membership in
  if bootstrap && negb has_membership then
    let* listing := peer_listing_this_node in
    match listing with
    | Some _ => good tt
    | None => act RaftInitialize id
    end
  else good tt.
(** [run_data_node] as far as it decides what to open and what to mint: the Raft store,
    TLS and the governor between the two are left out. *)
Definition open_node (bootstrap : bool) : jio () :=
  let? _ := start_supervisor_for_mode bootstrap in
  initialize_membership bootstrap.
End Node.

(** ** What a join has on its side when it acts *)
Abbreviation hist := (list (@event JoinReq JoinAnswer)).
Abbreviation ev q r := (answered (R := JoinAnswer) q r).
Abbreviation saw := (@Effects.saw JoinReq JoinAnswer).

Section Evidence.
Context (node_id : Z) (pg_user : bytes) (token : option bytes).
Abbreviation lists := (lists_this_node node_id).

(** [peer] answered a membership without this node, and nothing known of the two
    lineages says it answers for another cluster. *)
Definition was_removed (peer : bytes) (h : hist) : Prop :=
  saw h (GetMembers peer) (λ r, ∃ ms, r = Some ms ∧ lists ms = false) ∧
  ∃ l, saw h ReadSystemIdentifier (λ r, default None r = l) ∧
       saw h (GetIdentity peer) (λ r, peer_speaks_for_lineage l (default None r) = true).
(** No cluster in the data directory; one its leader's lineage covers; nothing in it. *)
Definition no_data (h : hist) : Prop := saw h (FileExists PgVersion) (λ b, b = false).
Definition superseded (h : hist) : Prop :=
  ∃ a l, saw h ReadSystemIdentifier (λ r, r = Some (Some l)) ∧ saw h (GetIdentity a) (λ r, r = Some (Some l)).
Definition emptied (h : hist) : Prop :=
  saw h (ReadDir DataDir) (λ r, r = Some []) ∨ saw h (CreateDirAll DataDir) (λ r, r = true).
Definition registered (a : bytes) (h : hist) : Prop :=
  ∃ voter, saw h (PostJoin a voter) (λ r, ∃ status body, r = Some (status, body) ∧
    (200 <= status < 300 ∨ status = 409 ∧ ∃ ms, body = Some ms ∧ lists ms = true)).
Definition cloned (h : hist) : Prop :=
  ∃ host port slot, saw h (PgBasebackup host port slot) (λ r, r = Some true).

Definition join_ok (peer : bytes) (h : hist) (q : JoinReq) : Prop :=
  match q with
  | RemoveDirAll RaftDir _ | RemoveFile RaftDir _ => was_removed peer h
  | RemoveDirAll DataDir _ | RemoveFile DataDir _ => no_data h ∨ superseded h ∨ emptied h
  | PgBasebackup _ _ slot => emptied h ∧ slot = Slot.fmt (Slot.for_node node_id)
  | PostRemove a id => id = node_id ∧ registered a h
  | Run => saw h (FileExists RaftDb) (λ b, b = true)
  | RunDataNode => (∃ a, registered a h) ∧ cloned h
  | SupervisorStart | SupervisorInitialize | RaftInitialize => False
  | _ => True
  end.

Section Peer.
Context (peer : bytes).
Abbreviation runs_ok h p Q := (safe any_answer (join_ok peer) h p Q).

Lemma s_tell {B} h q (f : JoinAnswer q → jio B) (Q : hist → result JoinFailed B → Prop) :
  join_ok peer h q → (∀ r, runs_ok (h ++ [ev q r]) (f r) Q) → runs_ok h (let? r := tell q in f r) Q.
Proof. intros Hq Hf. split; [done|]. intros r _. apply Hf. Qed.
Lemma s_ask {B} h q (f : JoinAnswer q → prog JoinAnswer B) (Q : hist → B → Prop) :
  join_ok peer h q → (∀ r, runs_ok (h ++ [ev q r]) (f r) Q) → runs_ok h (let* r := jask q in f r) Q.
Proof. intros Hq Hf. split; [done|]. intros r _. apply Hf. Qed.
Lemma s_act {B} h q (worked : JoinAnswer q → bool) (f : () → jio B) (Q : hist → result JoinFailed B → Prop) :
  join_ok peer h q → (∀ r, worked r = false → Q (h ++ [ev q r]) (Err Failing)) →
  (∀ r, worked r = true → runs_ok (h ++ [ev q r]) (f tt) Q) → runs_ok h (let? u := act q worked in f u) Q.
Proof.
  intros Hq Hn Hf. split; [done|]. intros r _. cbn. unfold ensure.
  destruct (worked r) eqn:E; [by apply Hf|by apply Hn].
Qed.
Lemma s_end h q (worked : JoinAnswer q → bool) (Q : hist → result JoinFailed () → Prop) :
  join_ok peer h q → (∀ r, Q (h ++ [ev q r]) (if worked r then Ok tt else Err Failing)) → runs_ok h (act q worked) Q.
Proof. intros Hq HQ. split; [done|]. intros r _. specialize (HQ r). cbn. unfold ensure. by destruct (worked r). Qed.
Lemma s_have {A B} h (o : option A) (f : A → jio B) (Q : hist → result JoinFailed B → Prop) :
  Q h (Err Failing) → (∀ a, o = Some a → runs_ok h (f a) Q) → runs_ok h (let? a := have o in f a) Q.
Proof. intros Hn Hf. destruct o as [a|]; [by apply Hf|exact Hn]. Qed.

(** What is known stays known. *)
Definition lasting (P : hist → Prop) : Prop := ∀ h t, P h → P (h ++ t).
Lemma lasting_saw q P : lasting (λ h, saw h q P).
Proof. intros h t. apply saw_app_l. Qed.
Lemma lasting_emptied : lasting emptied.
Proof. intros h t [H|H]; [left|right]; by apply saw_app_l. Qed.
Lemma lasting_superseded : lasting superseded.
Proof. intros h t (a & l & H1 & H2). exists a, l. split; by apply saw_app_l. Qed.
Lemma lasting_removed : lasting (was_removed peer).
Proof. intros h t (H1 & l & H2 & H3). split; [by apply saw_app_l|]. exists l. split; by apply saw_app_l. Qed.
Lemma lasting_registered a : lasting (registered a).
Proof. intros h t (v & H). exists v. by apply saw_app_l. Qed.
Lemma lasting_and (P P' : hist → Prop) : lasting P → lasting P' → lasting (λ h, P h ∧ P' h).
Proof. intros H1 H2 h t [? ?]. split; auto. Qed.
Lemma lasting_or (P P' : hist → Prop) : lasting P → lasting P' → lasting (λ h, P h ∨ P' h).
Proof. intros H1 H2 h t [?|?]; [left|right]; auto. Qed.

(** Clearing a directory, where what allows it lasts. *)
Lemma dir_cleared d (P : hist → Prop) h :
  lasting P → (∀ h name, P h → join_ok peer h (RemoveDirAll d name) ∧ join_ok peer h (RemoveFile d name)) → P h →
  runs_ok h (clear_dir_contents d) (λ h' _, P h').
Proof.
  intros HP Hok Hh. unfold clear_dir_contents. apply s_tell; [done|]. intros there.
  destruct (negb there); [by apply HP|]. apply s_tell; [done|]. intros entries.
  apply s_have; [by apply HP, HP|]. intros l _. set (h1 := (h ++ _) ++ _). assert (P h1) as H1 by (by apply HP, HP).
  clearbody h1. clear Hh there entries. revert h1 H1. induction l as [|[[name []]|] l IH]; intros h1 H1; cbn [remove_entries]; try done.
  - apply s_act; [by apply Hok|intros; by apply HP|]. intros r _. by apply IH, HP.
  - apply s_act; [by apply Hok|intros; by apply HP|]. intros r _. by apply IH, HP.
Qed.
(** Nothing a membership question asks needs a reason. *)
Lemma own_lineage {B} h (f : option Z → prog JoinAnswer B) (Q : hist → B → Prop) :
  (∀ r, runs_ok (h ++ [ev ReadSystemIdentifier r]) (f (default None r)) Q) → runs_ok h (let* l := local_cluster_lineage in f l) Q.
Proof. intros Hf. split; [done|]. intros r _. apply Hf. Qed.
Lemma their_lineage {B} h a (f : option Z → prog JoinAnswer B) (Q : hist → B → Prop) :
  (∀ r, runs_ok (h ++ [ev (GetIdentity a) r]) (f (default None r)) Q) → runs_ok h (let* l := peer_cluster_lineage a in f l) Q.
Proof. intros Hf. split; [done|]. intros r _. apply Hf. Qed.

(** What allows the data directory to be cleared, beside what else is known. *)
Definition may_clear (P : hist → Prop) (holds : bool) (local lineage : option Z) (h : hist) : Prop :=
  P h ∧ (holds = false → no_data h) ∧ (∀ l, holds = true → local = Some l → lineage = Some l → superseded h).
Lemma lasting_may_clear P holds local lineage : lasting P → lasting (may_clear P holds local lineage).
Proof.
  intros HP h t (? & Hn & Hs). split; [by apply HP|]. split; [intros E; by apply saw_app_l, Hn|].
  intros l E1 E2 E3. by eapply lasting_superseded, Hs.
Qed.
Lemma ready_asks h lineage (P : hist → Prop) :
  lasting P → P h →
  (∀ l, lineage = Some l → ∃ a, saw h (GetIdentity a) (λ r, r = Some (Some l))) →
  runs_ok h (ensure_join_data_dir_ready lineage) (λ h' r, P h' ∧ (r = Ok tt → emptied h')).
Proof.
  intros HP Hh Hl. unfold ensure_join_data_dir_ready. apply s_tell; [done|]. intros holds. set (h1 := h ++ _).
  assert (P h1) as H1 by by apply HP. assert (holds = false → no_data h1) as Hno by (intros ->; by apply saw_here).
  apply safe_bind.
  assert (Hrest : ∀ h2 local, P h2 → (holds = false → no_data h2) →
    (∀ l, holds = true → local = Some l → lineage = Some l → superseded h2) →
    runs_ok h2 (let? empty := dir_is_empty DataDir in
      let? _ := match join_data_dir_disposition empty holds local lineage with
                | Usable | Refuse => good tt
                | ClearInterruptedClone | ClearSupersededData => clear_dir_contents DataDir
                end in
      ensure_data_dir_ready) (λ h' r, P h' ∧ (r = Ok tt → emptied h'))).
  { intros h2 local H2 Hn Hs. apply safe_try_bind. unfold dir_is_empty.
    pose (K := may_clear P holds local lineage). assert (lasting K) as HK by by apply lasting_may_clear.
    assert (K h2) as Hk by done.
    assert (Hend : ∀ h3 empty, K h3 → runs_ok h3 (let? _ := match join_data_dir_disposition empty holds local lineage with
                | Usable | Refuse => good tt
                | ClearInterruptedClone | ClearSupersededData => clear_dir_contents DataDir
                end in ensure_data_dir_ready) (λ h' r, P h' ∧ (r = Ok tt → emptied h'))).
    { intros h3 empty H3. apply safe_try_bind. eapply (safe_post _ _ _ _ (λ h' _, K h')).
      - unfold join_data_dir_disposition, clone_supersedes_local_data. destruct empty; [exact H3|].
        destruct holds; cbn [negb].
        + destruct local as [l|], lineage as [l'|]; try exact H3. destruct (Z.eqb_spec l l') as [<-|]; [|exact H3].
          apply dir_cleared; [done| |exact H3]. intros h4 name (_ & _ & Hs4). split; right; left; by eapply Hs4.
        + apply dir_cleared; [done| |exact H3]. intros h4 name (_ & Hn4 & _). split; left; by apply Hn4.
      - intros h4 [[]|e] H4; [|by split; [apply H4|]]. unfold ensure_data_dir_ready. apply s_tell; [done|]. intros there.
        destruct there.
        + apply s_tell; [done|]. intros entries. unfold have, ensure. destruct entries as [es|]; cbn [try_bind bind good bad].
          * case_bool_decide as E.
            -- destruct es; [|done]. split; [by apply HP, HP, H4|]. intros _. left. by apply saw_here.
            -- split; [by apply HP, HP, H4|done].
          * split; [by apply HP, HP, H4|done].
        + apply s_end; [done|]. intros r. split; [by apply HP, HP, H4|]. destruct r; [|done]. intros _. right. by apply saw_here. }
    apply s_tell; [done|]. intros there. destruct (negb there); [by apply Hend, HK|].
    apply s_tell; [done|]. intros entries. apply s_have; [by split; [apply HP, HP, H2|]|]. intros es _. by apply Hend, HK, HK. }
  destruct holds.
  - split; [done|]. intros r _. cbn. apply Hrest; [by apply HP|done|]. intros l _ Hr El.
    destruct (Hl l El) as [a Ha]. exists a, l. split.
    + apply saw_here. destruct r as [r|]; cbn in Hr; congruence.
    + by apply saw_app_l, saw_app_l.
  - cbn. by apply Hrest.
Qed.

(** *** Cloning *)
Abbreviation clone leader := (prepare_join_data node_id pg_user leader).
Lemma prepared leader (P : hist → Prop) h :
  lasting P → P h → emptied h →
  runs_ok h (clone leader) (λ h' r, (P h' ∧ emptied h') ∧ (r = Ok tt → cloned h')).
Proof.
  intros HP Hh He. unfold prepare_join_data. apply safe_try_bind, s_end; [done|]. intros r.
  set (h1 := h ++ _). assert ((λ h, P h ∧ emptied h) h1) as H1 by (split; [by apply HP|by apply lasting_emptied]).
  destruct r as [[]|]; [|by split|by split].
  change (runs_ok h1 (let? _ := ensure_standby_signal in update_primary_conninfo node_id pg_user leader)
    (λ h' r, (P h' ∧ emptied h') ∧ (r = Ok tt → cloned h'))).
  assert (cloned h1) as Hc by (eexists _, _, _; by apply saw_here).
  assert (Hall : lasting (λ h, (P h ∧ emptied h) ∧ cloned h)).
  { apply lasting_and; [by apply lasting_and, lasting_emptied|]. intros h0 t (a & b & c & H). exists a, b, c. by apply saw_app_l. }
  assert ((λ h, (P h ∧ emptied h) ∧ cloned h) h1) as K by by split.
  assert (∀ h2 (r : result JoinFailed ()), ((P h2 ∧ emptied h2) ∧ cloned h2) → (P h2 ∧ emptied h2) ∧ (r = Ok tt → cloned h2)) as Hdone
    by (by intros ? ? [? ?]).
  clearbody h1. clear H1 Hc Hh He. apply safe_try_bind. unfold ensure_standby_signal. apply s_tell; [done|]. intros there.
  assert (Hupd : ∀ h2, (P h2 ∧ emptied h2) ∧ cloned h2 → runs_ok h2 (update_primary_conninfo node_id pg_user leader)
    (λ h' r, (P h' ∧ emptied h') ∧ (r = Ok tt → cloned h'))).
  { intros h2 H2. unfold update_primary_conninfo. apply s_tell; [done|]. intros have_conf. apply safe_try_bind.
    assert (Hw : ∀ h3 c, (P h3 ∧ emptied h3) ∧ cloned h3 → runs_ok h3 (act (WriteAutoConf (with_primary_conninfo node_id pg_user c leader)) id)
      (λ h' r, (P h' ∧ emptied h') ∧ (r = Ok tt → cloned h'))).
    { intros h3 c H3. apply s_end; [done|]. intros w. apply Hdone. by apply Hall. }
    destruct have_conf; [|by apply Hw, Hall]. apply s_tell; [done|]. intros c. destruct c as [c|]; cbn.
    - apply Hw. by apply Hall, Hall.
    - apply Hdone. by apply Hall, Hall. }
  destruct there; [exact (Hupd _ (Hall _ _ K))|].
  apply s_end; [done|]. intros w. destruct w; [exact (Hupd _ (Hall _ _ (Hall _ _ K)))|].
  apply Hdone. by apply Hall, Hall.
Qed.
Lemma discarded (P : hist → Prop) {B} h (f : () → prog JoinAnswer B) (Q : hist → B → Prop) :
  lasting P → P h → emptied h → (∀ h', P h' → emptied h' → runs_ok h' (f tt) Q) →
  runs_ok h (let* u := discard_partial_join_data in f u) Q.
Proof.
  intros HP Hh He Hf. apply safe_bind. unfold discard_partial_join_data. apply safe_bind.
  eapply safe_post; [apply (dir_cleared DataDir (λ h, P h ∧ emptied h)); [by apply lasting_and, lasting_emptied| |done]|].
  - intros h' name [_ H']. by split; right; right.
  - intros h' _ [? ?]. by apply Hf.
Qed.
Lemma attempts n leader (P : hist → Prop) h :
  lasting P → P h → emptied h →
  runs_ok h (clone_attempts node_id pg_user n leader) (λ h' r, P h' ∧ (r = Ok tt → cloned h')).
Proof.
  intros HP. revert h. induction n as [|n IH]; intros h Hh He; cbn [clone_attempts]; apply safe_bind;
    (eapply safe_post; [by apply (prepared leader P)|]); intros h1 [[]|e] [[H1 E1] Hc]; try (by split; [|auto]);
    apply (discarded P); [done..| |done|done|done|]; intros h2 H2 E2; [by split|].
  apply s_ask; [done|]. intros []. apply IH; [by apply HP|by apply lasting_emptied].
Qed.

(** *** The flow *)
Lemma leader_asks (P : hist → Prop) {B} h a (f : JoinLeaderInfo → jio B) (Q : hist → result JoinFailed B → Prop) :
  lasting P → P h → (∀ h', P h' → Q h' (Err Failing)) → (∀ h' l, P h' → runs_ok h' (f l) Q) →
  runs_ok h (let? l := discover_join_leader a in f l) Q.
Proof.
  intros HP Hh Hn Hf. apply safe_try_bind. unfold discover_join_leader. apply s_tell; [done|]. intros r.
  set (h1 := h ++ _). assert (P h1) as H1 by by apply HP. clearbody h1.
  repeat (apply s_have; [by apply Hn|intros ? _]). by apply Hf.
Qed.
Lemma asked_members {B} h a (f : option bool → prog JoinAnswer B) (Q : hist → B → Prop) :
  (∀ r, runs_ok (h ++ [ev (GetMembers a) r]) (f (lists <$> r)) Q) →
  runs_ok h (let* l := is_in_committed_membership node_id a in f l) Q.
Proof. intros Hf. split; [done|]. intros r _. apply Hf. Qed.
Definition RAFT_FOUND (h : hist) : Prop := saw h (FileExists RaftDb) (λ b, b = true).
Lemma resumed h :
  runs_ok h (resume_or_wipe node_id pg_user peer) (λ _ _, True).
Proof.
  unfold resume_or_wipe. apply s_tell; [done|]. intros found. destruct found; cbn [negb]; [|done].
  set (h1 := h ++ _). assert (RAFT_FOUND h1) as H1 by by apply saw_here. clearbody h1.
  assert (HL : lasting RAFT_FOUND) by apply lasting_saw.
  assert (Hrun : ∀ h', RAFT_FOUND h' → runs_ok h' (let? _ := act Run id in good (Some tt)) (λ _ _, True)) by (intros; by apply s_act).
  apply asked_members. intros ms. destruct ms as [ms|]; [|exact (Hrun _ (HL _ _ H1))].
  change (lists <$> Some ms) with (Some (lists ms)). set (h2 := h1 ++ _). assert (RAFT_FOUND h2) as H2 by by apply HL.
  destruct (lists ms) eqn:El.
  - apply s_tell; [done|]. intros pg. destruct pg; [exact (Hrun _ (HL _ _ H2))|].
    apply (leader_asks RAFT_FOUND); [done|by apply HL|done|]. intros h3 l H3. apply safe_try_bind.
    eapply safe_post; [by apply (ready_asks _ None RAFT_FOUND)|]. intros h4 [[]|e] [H4 He]; [|done].
    apply safe_bind. eapply safe_post; [apply (prepared l RAFT_FOUND); [done..|by apply He]|].
    intros h5 [[]|e] [[H5 E5] _]; [by apply Hrun|]. by apply (discarded RAFT_FOUND).
  - apply safe_bind. unfold peer_speaks_for_our_cluster. apply own_lineage. intros l. apply their_lineage. intros i.
    cbn [safe].
    set (h3 := (h2 ++ _) ++ _). assert (RAFT_FOUND h3) as H3 by by apply HL, HL.
    destruct (peer_speaks_for_lineage _ _) eqn:Es; cbn [negb]; [|by apply Hrun].
    apply safe_try_bind. eapply safe_post; [apply (dir_cleared RaftDir (was_removed peer)); [apply lasting_removed|done|]|].
    + split; [apply saw_app_l, saw_app_l, saw_here; by exists ms|]. exists (default None l). split.
      * by apply saw_app_l, saw_here.
      * by apply saw_here.
    + by intros h4 [[]|e] _.
Qed.
Lemma flow voter :
  runs_ok [] (run_join_flow node_id pg_user token peer voter) (λ _ _, True).
Proof.
  unfold run_join_flow. apply s_act; [done|done|]. intros b _. apply safe_try_bind.
  eapply safe_post; [apply resumed|]. intros h1 [[[]|]|e] _; [done| |done].
  unfold join_as_new. apply s_act; [done|done|]. intros m _. set (h2 := h1 ++ _).
  apply (leader_asks (λ _, True)); [done..|]. intros h3 l _. apply their_lineage. intros i. set (h4 := h3 ++ _).
  apply safe_try_bind. eapply safe_post; [apply (ready_asks _ _ (λ _, True)); [done..|]|].
  { intros x Hx. exists (mgmt_addr l). apply saw_here. destruct i as [[]|]; cbn in Hx; congruence. }
  intros h5 [[]|e] [_ He]; [|done]. specialize (He eq_refl). apply safe_try_bind.
  unfold register_as_learner. apply s_tell; [done|]. intros r. destruct r as [[status body]|]; [|done]. cbn [have try_bind bind good fst snd].
  set (h6 := h5 ++ _). assert (emptied h6) as E6 by by apply lasting_emptied.
  assert (Hrest : registered (mgmt_addr l) h6 → runs_ok h6 (let* cloned := clone_from_leader node_id pg_user l in
    match cloned with
    | Ok _ => act RunDataNode id
    | Err _ => let* _ := jask (PostRemove (mgmt_addr l) node_id) in bad
    end) (λ _ _, True)).
  { intros H6. apply safe_bind. eapply safe_post; [apply (attempts _ l (registered (mgmt_addr l))); [apply lasting_registered|done|done]|].
    intros h7 [[]|e] [H7 Hc].
    - apply s_end; [|done]. split; [by exists (mgmt_addr l)|by apply Hc].
    - by apply s_ask. }
  destruct ((200 <=? status) && (status <? 300)) eqn:Eok; cbn.
  - apply andb_true_iff in Eok as [?%Z.leb_le ?%Z.ltb_lt]. apply Hrest. exists voter. apply saw_here. exists status, body. split; [done|]. by left.
  - unfold ensure. destruct ((status =? 409) && _) eqn:E409; cbn; [|done]. apply andb_true_iff in E409 as [->%Z.eqb_eq Em].
    apply Hrest. exists voter. apply saw_here. exists 409, body. split; [done|]. right. split; [done|].
    destruct body as [ms|]; [by exists ms|done].
Qed.

(** A join destroys only on evidence.  It removes Raft state only after its peer
    answered a membership without this node and no two known lineages differ; it
    removes something of the data directory only when that holds no [PG_VERSION], or
    this node's lineage is the leader's, or it was empty before this run's own clone;
    it clones only into a directory it found or made empty; it takes its registration
    back only where one was answered; it starts as a new node only after a clone and a
    registration, and resumes only over a Raft store. *)
Lemma a_join_destroys_only_on_evidence voter t q :
  issues (run_join_flow node_id pg_user token peer voter) t q → join_ok peer t q.
Proof. intros Hi. change t with ([] ++ t). exact (safe_issues _ _ _ _ _ _ _ (flow voter) Hi (relies_any _ _)). Qed.
End Peer.

(** ** What a bootstrap has on its side when it mints *)
Context (peers : list bytes).
(** Every configured peer was asked and none listed this node, or nobody could be. *)
Definition unlisted (h : hist) : Prop :=
  saw h (HttpClient 3 None) (λ b, b = false) ∨
  ∀ p, p ∈ peers → saw h (GetMembers p) (λ r, ∀ ms, r = Some ms → lists ms = false).
Definition mint_ok (bootstrap : bool) (h : hist) (q : JoinReq) : Prop :=
  match q with
  | SupervisorInitialize => bootstrap = true ∧ no_data h ∧ unlisted h
  | RaftInitialize => bootstrap = true ∧ saw h HasMembership (λ r, r = Some false) ∧ unlisted h
  | RemoveDirAll _ _ | RemoveFile _ _ | PgBasebackup _ _ _ | PostJoin _ _ | PostRemove _ _ => False
  | _ => True
  end.
Section Mint.
Context (bootstrap : bool).
Abbreviation mints h p Q := (safe any_answer (mint_ok bootstrap) h p Q).
Lemma listing_asked (P : hist → Prop) {B} h (f : option bytes → prog JoinAnswer B) (Q : hist → B → Prop) :
  lasting P → P h → (∀ h' r, P h' → (r = None → unlisted h') → mints h' (f r) Q) →
  mints h (let* r := peer_listing_this_node node_id peers in f r) Q.
Proof.
  intros HP Hh Hf. unfold peer_listing_this_node. apply safe_bind. split; [done|]. intros built _.
  destruct built; cbn [negb]; [|apply Hf; [by apply HP|]; intros _; left; by apply saw_here].
  set (h1 := h ++ _). assert (P h1) as H1 by by apply HP. clearbody h1.
  assert (Hl : ∀ ps h2 seen, P h2 → peers = seen ++ ps →
    (∀ p, p ∈ seen → saw h2 (GetMembers p) (λ r, ∀ ms, r = Some ms → lists ms = false)) →
    mints h2 (first_listing node_id ps) (λ h' a, mints h' (f a) Q)).
  { induction ps as [|p ps IH]; intros h2 seen H2 E Hs; cbn [first_listing].
    - apply Hf; [done|]. intros _. right. by rewrite E, app_nil_r.
    - apply safe_bind. split; [done|]. intros ms _.
      assert (Hgo : (∀ m, ms = Some m → lists m = false) → mints (h2 ++ [ev (GetMembers p) ms]) (first_listing node_id ps) (λ h' a, mints h' (f a) Q)).
      { intros Hms. apply (IH _ (seen ++ [p])); [by apply HP|by rewrite <-app_assoc|].
        intros p' [Hin|Hin]%elem_of_app; [by apply saw_app_l, Hs|]. apply list_elem_of_singleton in Hin as ->. by apply saw_here. }
      destruct ms as [ms|]; [|by apply Hgo]. cbn [safe bind fmap option_fmap option_map].
      destruct (lists ms) eqn:El; [apply Hf; [by apply HP|done]|]. apply Hgo. by intros m [= <-]. }
  apply (Hl peers h1 []); [done..|]. by intros p Hp%elem_of_nil.
Qed.
Lemma if_is {A} (b c : bool) (x y : A) : b = c → (if b then x else y) = (if c then x else y).
Proof. by intros ->. Qed.
Lemma opening : mints [] (open_node node_id peers bootstrap) (λ _ _, True).
Proof.
  unfold open_node. apply safe_try_bind.
  assert (Hmember : ∀ h, mints h (initialize_membership node_id peers bootstrap) (λ _ _, True)).
  { intros h. unfold initialize_membership. split; [done|]. intros [m|] _; [|done]. cbn [try_bind bind safe have good].
    destruct (bootstrap && negb m) eqn:E; [|done]. apply andb_true_iff in E as [Eb Em%negb_true_iff]. subst m.
    apply (listing_asked (λ h, saw h HasMembership (λ r, r = Some false))); [apply lasting_saw|by apply saw_here|].
    intros h' [p|] H' Hu; [done|]. split; [|by intros [] _]. split_and!; [done..|by apply Hu]. }
  unfold start_supervisor_for_mode. split; [done|]. intros [] _; [|done]. split; [done|]. intros data _. split; [done|]. intros standby _.
  set (h := (_ ++ _) ++ _). assert (data = false → no_data h) as Hno by (intros ->; by apply saw_app_l, saw_here). clearbody h.
  unfold good; cbn [try_bind bind good]. destruct (data && standby); [split; [done|]; intros r _; apply Hmember|].
  assert (Hstart : ∀ h', mints h' (act SupervisorStart id) (λ h' r, match r with Ok _ => mints h' (initialize_membership node_id peers bootstrap) (λ _ _, True) | Err _ => True end)).
  { intros h'. split; [done|]. intros [] _; [apply Hmember|done]. }
  destruct data; [destruct bootstrap; apply Hstart|].
  assert (bootstrap = true ∨ bootstrap = false) as [Eb|Eb] by (destruct bootstrap; auto).
  2: { rewrite (if_is bootstrap false) by done. done. }
  rewrite (if_is bootstrap true) by done.
  apply (listing_asked no_data); [apply lasting_saw|by apply Hno|]. intros h' [p|] H' Hu; [apply Hmember|].
  split; [split_and!; [done..|by apply Hu]|]. intros [] _; [apply Hstart|done].
Qed.
(** A start mints only as a bootstrap of a node that nobody lists.  It runs initdb
    only without a [PG_VERSION], and initializes a Raft cluster only without a stored
    membership, each after asking every configured peer, where none answered that its
    cluster lists this node; and it removes, clones and registers nothing. *)
Lemma a_start_mints_only_unlisted t q : issues (open_node node_id peers bootstrap) t q → mint_ok bootstrap t q.
Proof. intros Hi. change t with ([] ++ t). exact (safe_issues _ _ _ _ _ _ _ opening Hi (relies_any _ _)). Qed.
End Mint.
End Evidence.

(** ** What the evidence does not exclude *)
(** A refused join that names this node is taken for a registration: so is the refusal
    of a node the leader knows as a voter, whose Raft store is empty. *)
Lemma a_voter_refused_joins_as_a_learner a voter :
  runs (register_as_learner 2 a voter) [ev (PostJoin a voter) (Some (409, Some [(2, Voter)]))] (Ok tt).
Proof. apply runs_do. by split. Qed.

(** The peers are asked twice, and may answer twice: a wiped node whose first answer
    kept it from initdb initializes a Raft cluster of its own on the second. *)
Module Twice.
Definition peer : bytes := lit "10.0.0.1:9090".
Definition trace : hist :=
  [ev RecoverInterruptedRestore true; ev (FileExists PgVersion) false; ev (FileExists StandbySignal) false;
   ev (HttpClient 3 None) true; ev (GetMembers peer) (Some [(1, Voter); (2, Voter)]);
   ev HasMembership (Some false); ev (HttpClient 3 None) true; ev (GetMembers peer) None].
End Twice.
Lemma a_node_with_no_data_may_mint_a_raft_cluster : issues (open_node 2 [Twice.peer] true) Twice.trace RaftInitialize.
Proof. apply replay_issues. vm_compute. reflexivity. Qed.

(** A removed node with a data directory of the leader's lineage: wiped and cloned. *)
Module Removed.
Definition peer : bytes := lit "10.0.0.1:9090".
Definition leader : LeaderResponse := LeaderResponse_ (Some (lit "10.0.0.1:9091")) (Some (lit "10.0.0.1:5432")) (Some peer).
Definition wiping : hist :=
  [ev (HttpClient 30 None) true; ev (FileExists RaftDb) true; ev (GetMembers peer) (Some [(1, Voter)]);
   ev ReadSystemIdentifier (Some (Some 7)); ev (GetIdentity peer) (Some (Some 7)); ev (DirExists RaftDir) true;
   ev (ReadDir RaftDir) (Some [Some (lit "raft.db", false)])].
Definition clearing : hist :=
  wiping ++ [ev (RemoveFile RaftDir (lit "raft.db")) true; ev InitMetrics true; ev (GetLeader peer) (Some leader);
   ev (GetIdentity peer) (Some (Some 7)); ev (FileExists PgVersion) true; ev ReadSystemIdentifier (Some (Some 7));
   ev (DirExists DataDir) true; ev (ReadDir DataDir) (Some [Some (lit "base", true)]); ev (DirExists DataDir) true;
   ev (ReadDir DataDir) (Some [Some (lit "base", true)])].
End Removed.
Lemma a_join_destroys_only_on_evidence_witness :
  was_removed 2 Removed.peer Removed.wiping ∧ (no_data Removed.clearing ∨ superseded Removed.clearing ∨ emptied Removed.clearing).
Proof.
  split.
  - apply (a_join_destroys_only_on_evidence 2 (lit "postgres") None Removed.peer true Removed.wiping (RemoveFile RaftDir (lit "raft.db"))).
    apply replay_issues. vm_compute. reflexivity.
  - apply (a_join_destroys_only_on_evidence 2 (lit "postgres") None Removed.peer true Removed.clearing (RemoveDirAll DataDir (lit "base"))).
    apply replay_issues. vm_compute. reflexivity.
Defined.
