(* ===== verification/Sql.v ===== *)
(** * The SQL the node sends, and the session it sends it over

    [FenceSql]: the statements [src/commands/upgrade/client_fence.rs] and
    [ddl_freeze.rs] send, as the text their format strings build; what they do to a
    server is in [ClientFence.v].  [SqlSession]: the connection of
    [pgbattery-supervisor/src/session.rs], with its one retry, its transactions and the
    check that a text is one statement. *)

From S2P Require Import Prelude Effects Text Fence Handoff.
From Stdlib Require Import Strings.Byte.

Module FenceSql.

(** ** Templates *)
Definition FENCED_PRIVILEGES : bytes :=
  lit "'INSERT','UPDATE','DELETE','TRUNCATE','USAGE'".
Definition FENCE_SCHEMA : bytes :=
  lit "pgbattery".
Definition FENCE_TABLE : bytes :=
  lit "pgbattery.client_fence_revoked".
Definition USER_SCHEMAS : bytes :=
  lit "n.nspname NOT IN ('pg_catalog','information_schema','pgbattery') AND n.nspname NOT " ++
  lit "LIKE 'pg_toast%' AND n.nspname NOT LIKE 'pg_temp%'".
Definition DDL_FREEZE_EXEMPT_GUC : bytes :=
  lit "pgbattery.ddl_freeze_exempt".
Definition DDL_TRIGGER : bytes :=
  lit "pgbattery_ddl_freeze".
Definition snapshot_insert_sql (escaped_cluster escaped_role : bytes) : bytes :=
  lit "INSERT INTO " ++ FENCE_TABLE ++
  lit " (cluster_id, role_name, schema_name, rel_name, rel_kind, privilege, grant_kind) " ++
  lit "SELECT '" ++ escaped_cluster ++ lit "', '" ++ escaped_role ++
  lit "', n.nspname, c.relname, c.relkind, a.privilege_type, 'r' FROM pg_class c JOIN " ++
  lit "pg_namespace n ON n.oid = c.relnamespace CROSS JOIN LATERAL aclexplode(c.relacl) a " ++
  lit "JOIN pg_roles g ON g.oid = a.grantee WHERE g.rolname = '" ++ escaped_role ++
  lit "' AND c.relkind IN ('r','p','v','f','S') AND a.privilege_type IN (" ++ FENCED_PRIVILEGES ++
  lit ") AND " ++ USER_SCHEMAS ++ lit " ON CONFLICT DO NOTHING;".
Definition default_snapshot_insert_sql (escaped_cluster escaped_role : bytes) : bytes :=
  lit "INSERT INTO " ++ FENCE_TABLE ++
  lit " (cluster_id, role_name, schema_name, rel_name, rel_kind, privilege, grant_kind) " ++
  lit "SELECT '" ++ escaped_cluster ++ lit "', '" ++ escaped_role ++
  lit "', COALESCE(n.nspname, ''), dr.rolname, d.defaclobjtype, a.privilege_type, 'd' FROM " ++
  lit "pg_default_acl d JOIN pg_roles dr ON dr.oid = d.defaclrole LEFT JOIN pg_namespace n " ++
  lit "ON n.oid = d.defaclnamespace CROSS JOIN LATERAL aclexplode(d.defaclacl) a JOIN " ++
  lit "pg_roles g ON g.oid = a.grantee WHERE g.rolname = '" ++ escaped_role ++
  lit "' AND d.defaclobjtype IN ('r','S') AND a.privilege_type IN (" ++ FENCED_PRIVILEGES ++
  lit ") ON CONFLICT DO NOTHING;".
Definition default_revoke_sql (escaped_role : bytes) : bytes :=
  lit "DO $$ DECLARE r record; BEGIN FOR r IN SELECT DISTINCT dr.rolname AS owner, " ++
  lit "n.nspname AS schema, d.defaclobjtype AS objtype FROM pg_default_acl d JOIN pg_roles " ++
  lit "dr ON dr.oid = d.defaclrole LEFT JOIN pg_namespace n ON n.oid = d.defaclnamespace " ++
  lit "CROSS JOIN LATERAL aclexplode(d.defaclacl) a JOIN pg_roles g ON g.oid = a.grantee " ++
  lit "WHERE g.rolname = '" ++ escaped_role ++
  lit "' AND d.defaclobjtype IN ('r','S') LOOP EXECUTE format( 'ALTER DEFAULT PRIVILEGES " ++
  lit "FOR ROLE %I %s REVOKE %s ON %s FROM %I', r.owner, CASE WHEN r.schema IS NULL THEN " ++
  lit "'' ELSE format('IN SCHEMA %I', r.schema) END, CASE WHEN r.objtype = 'S' THEN " ++
  lit "'USAGE, UPDATE' ELSE 'INSERT, UPDATE, DELETE, TRUNCATE' END, CASE WHEN r.objtype = " ++
  lit "'S' THEN 'SEQUENCES' ELSE 'TABLES' END, '" ++ escaped_role ++ lit "' ); END LOOP; END $$;".
Definition revoke_sql (escaped_role : bytes) : bytes :=
  lit "DO $$ DECLARE r record; BEGIN FOR r IN SELECT n.nspname AS schema FROM pg_namespace " ++
  lit "n WHERE " ++ USER_SCHEMAS ++
  lit " LOOP EXECUTE format( 'REVOKE INSERT, UPDATE, DELETE, TRUNCATE ON ALL TABLES IN " ++
  lit "SCHEMA %I FROM %I', r.schema, '" ++ escaped_role ++
  lit "' ); EXECUTE format( 'REVOKE USAGE, UPDATE ON ALL SEQUENCES IN SCHEMA %I FROM %I', " ++
  lit "r.schema, '" ++ escaped_role ++ lit "' ); END LOOP; END $$;".
Definition fence_schema_ddl : bytes :=
  lit "CREATE SCHEMA IF NOT EXISTS " ++ FENCE_SCHEMA.
Definition fence_table_ddl : bytes :=
  lit "CREATE TABLE IF NOT EXISTS " ++ FENCE_TABLE ++
  lit " ( cluster_id text NOT NULL, role_name text NOT NULL, schema_name text NOT NULL, " ++
  lit "rel_name text NOT NULL, rel_kind " ++ [x22] ++ lit "char" ++ [x22] ++
  lit " NOT NULL, privilege text NOT NULL, grant_kind " ++ [x22] ++ lit "char" ++ [x22] ++
  lit " NOT NULL DEFAULT 'r', PRIMARY KEY (cluster_id, role_name, schema_name, rel_name, " ++
  lit "privilege, grant_kind) )".
Definition lift_sql (escaped_cluster : bytes) : bytes :=
  lit "DO $$ DECLARE r record; BEGIN FOR r IN SELECT role_name, schema_name, rel_name, " ++
  lit "rel_kind, privilege, grant_kind FROM " ++ FENCE_TABLE ++ lit " WHERE cluster_id = '" ++
  escaped_cluster ++ lit "' LOOP IF NOT EXISTS (SELECT 1 FROM pg_roles WHERE rolname = r.role_name) THEN " ++
  lit "RAISE NOTICE 'client fence lift: role % no longer exists; skipping', r.role_name; " ++
  lit "ELSIF r.grant_kind = 'd' THEN IF EXISTS (SELECT 1 FROM pg_roles WHERE rolname = " ++
  lit "r.rel_name) THEN EXECUTE format( 'ALTER DEFAULT PRIVILEGES FOR ROLE %I %s GRANT %s " ++
  lit "ON %s TO %I', r.rel_name, CASE WHEN r.schema_name = '' THEN '' ELSE format('IN " ++
  lit "SCHEMA %I', r.schema_name) END, r.privilege, CASE WHEN r.rel_kind = 'S' THEN " ++
  lit "'SEQUENCES' ELSE 'TABLES' END, r.role_name ); ELSE RAISE NOTICE 'client fence lift: " ++
  lit "defacl owner % no longer exists; skipping', r.rel_name; END IF; ELSIF " ++
  lit "to_regclass(format('%I.%I', r.schema_name, r.rel_name)) IS NOT NULL THEN EXECUTE " ++
  lit "format( 'GRANT %s ON %s %I.%I TO %I', r.privilege, CASE WHEN r.rel_kind = 'S' THEN " ++
  lit "'SEQUENCE' ELSE 'TABLE' END, r.schema_name, r.rel_name, r.role_name ); ELSE RAISE " ++
  lit "NOTICE 'client fence lift: %.% no longer exists; skipping its % grant', " ++
  lit "r.schema_name, r.rel_name, r.privilege; END IF; END LOOP; DELETE FROM " ++ FENCE_TABLE ++
  lit " WHERE cluster_id = '" ++ escaped_cluster ++ lit "'; END $$;".
Definition terminate_backends_sql (quoted_roles : bytes) : bytes :=
  lit "WITH RECURSIVE fenced AS ( SELECT oid FROM pg_roles WHERE rolname IN (" ++ quoted_roles ++
  lit ") UNION SELECT m.member FROM pg_auth_members m JOIN fenced f ON m.roleid = f.oid ) " ++
  lit "SELECT COALESCE(string_agg(CASE WHEN pg_terminate_backend(pid) THEN pid::text END, " ++
  lit "','), '') FROM pg_stat_activity WHERE usesysid IN (SELECT oid FROM fenced) AND pid " ++
  lit "<> pg_backend_pid();".
Definition surviving_backends_sql (pids : bytes) : bytes :=
  lit "SELECT count(*)::text FROM pg_stat_activity WHERE pid IN (" ++ pids ++ lit ");".
Definition revocable_grants_sql (quoted_roles : bytes) : bytes :=
  lit "(EXISTS (SELECT 1 FROM pg_class c JOIN pg_namespace n ON n.oid = c.relnamespace " ++
  lit "CROSS JOIN LATERAL aclexplode(c.relacl) a JOIN pg_roles g ON g.oid = a.grantee " ++
  lit "WHERE g.rolname IN (" ++ quoted_roles ++
  lit ") AND c.relkind IN ('r','p','v','f','S') AND a.privilege_type IN (" ++ FENCED_PRIVILEGES ++
  lit ") AND " ++ USER_SCHEMAS ++ lit ") OR EXISTS (SELECT 1 FROM pg_default_acl d CROSS JOIN LATERAL " ++
  lit "aclexplode(d.defaclacl) a JOIN pg_roles g ON g.oid = a.grantee WHERE g.rolname IN (" ++
  quoted_roles ++ lit ") AND d.defaclobjtype IN ('r','S') AND a.privilege_type IN (" ++ FENCED_PRIVILEGES ++
  lit ")))".
Definition refuse_ddl_sql : bytes :=
  lit "CREATE OR REPLACE FUNCTION " ++ FENCE_SCHEMA ++
  lit ".refuse_ddl() RETURNS event_trigger LANGUAGE plpgsql AS $pgb$ BEGIN IF " ++ lit "current_setting('" ++
  DDL_FREEZE_EXEMPT_GUC ++
  lit "', true) = 'on' AND (SELECT rolsuper FROM pg_roles WHERE rolname = session_user) " ++
  lit "THEN RETURN; END IF; RAISE EXCEPTION 'DDL is frozen: a pgbattery cutover is in " ++
  lit "progress'; END $pgb$".
Definition create_trigger_sql : bytes :=
  lit "DO $pgb$ BEGIN CREATE EVENT TRIGGER " ++ DDL_TRIGGER ++
  lit " ON ddl_command_start EXECUTE FUNCTION " ++ FENCE_SCHEMA ++
  lit ".refuse_ddl(); EXCEPTION WHEN duplicate_object THEN NULL; END $pgb$".
Definition SCHEMA_DIGEST_SQL : bytes :=
  lit "SELECT COALESCE(md5(string_agg(sig, E'\n' ORDER BY sig)), '') FROM ( SELECT " ++
  lit "n.nspname || '.' || c.relname || ':' || (row_number() OVER (PARTITION BY c.oid " ++
  lit "ORDER BY a.attnum)) || ':' || a.attname || ':' || t.typname || ':' || a.attnotnull " ++
  lit "AS sig FROM pg_class c JOIN pg_namespace n ON n.oid = c.relnamespace JOIN " ++
  lit "pg_attribute a ON a.attrelid = c.oid AND a.attnum > 0 AND NOT a.attisdropped JOIN " ++
  lit "pg_type t ON t.oid = a.atttypid WHERE c.relkind IN ('r','p') AND n.nspname NOT IN " ++
  lit "('pg_catalog','information_schema','pgbattery') AND n.nspname NOT LIKE 'pg_toast%' " ++
  lit "AND n.nspname NOT LIKE 'pg_temp%' ) s;".

(** ** Statement lists *)

(** [value.replace('\'', "''")]. *)
Definition escape (text : bytes) : bytes := concat ((λ b, if byte_eqb b x27 then [x27; x27] else [b]) <$> text).
Definition quote (text : bytes) : bytes := [x27] ++ escape text ++ [x27].
Fixpoint join (sep : bytes) (parts : list bytes) : bytes :=
  match parts with
  | [] => []
  | [p] => p
  | p :: rest => p ++ sep ++ join sep rest
  end.
Definition quoted_roles (app_roles : list bytes) : bytes := join (lit ",") (quote <$> app_roles).
Definition revocable_grants_expr (quoted_roles : bytes) : bytes :=
  if bool_decide (quoted_roles = []) then lit "false" else revocable_grants_sql quoted_roles.

Definition set_exempt_sql : bytes := lit "SET LOCAL " ++ DDL_FREEZE_EXEMPT_GUC ++ lit " = 'on'".
Definition exempt (statements : list bytes) : list bytes := set_exempt_sql :: statements.

Definition apply_sql (escaped_cluster : bytes) (escaped_roles : list bytes) : list bytes :=
  exempt ([fence_schema_ddl; fence_table_ddl] ++
    concat ((λ role, [snapshot_insert_sql escaped_cluster role; default_snapshot_insert_sql escaped_cluster role;
                      revoke_sql role; default_revoke_sql role]) <$> escaped_roles)).

Fixpoint escaped_list (app_roles : list bytes) : result FenceError (list bytes) :=
  match app_roles with
  | [] => Ok []
  | role :: rest =>
      if is_valid_pg_role_name role
      then let! escaped := escaped_list rest in Ok (escape role :: escaped)
      else Err (BadRoleName role)
  end.
(** [fence_statements]; [None] is its refusal of an empty role list. *)
Definition fence_statements (app_roles : list bytes) (cluster_id : bytes) : option (result FenceError (list bytes)) :=
  if bool_decide (app_roles = []) then None
  else Some (let! escaped := escaped_list app_roles in Ok (apply_sql (escape cluster_id) escaped)).

Definition install_sql : list bytes := [fence_schema_ddl; refuse_ddl_sql; create_trigger_sql].
Definition remove_sql : bytes := lit "DROP EVENT TRIGGER IF EXISTS " ++ DDL_TRIGGER ++ lit ";".

Definition observe_sql (app_roles : list bytes) : bytes :=
  lit "SELECT (NOT pg_is_in_recovery())::text || '|' || EXISTS(SELECT 1 FROM pg_event_trigger WHERE evtname = '" ++
  DDL_TRIGGER ++ lit "')::text || '|' || (to_regclass('" ++ FENCE_TABLE ++ lit "') IS NOT NULL)::text || '|' || " ++
  revocable_grants_expr (quoted_roles app_roles) ++
  lit "::text || '|' || EXISTS(SELECT 1 FROM pg_prepared_xacts WHERE database = current_database())::text;".
Definition snapshot_rows_sql (cluster_id : bytes) : bytes :=
  lit "SELECT EXISTS(SELECT 1 FROM " ++ FENCE_TABLE ++ lit " WHERE cluster_id = '" ++ escape cluster_id ++ lit "')::text;".
Definition sealed_position_sql (quoted_roles : bytes) : bytes :=
  lit "SELECT " ++ revocable_grants_expr quoted_roles ++ lit "::text || '|' || pg_current_wal_insert_lsn()::text;".

(** ** What the texts are *)

(** A role name the fence accepts needs no escape. *)
Lemma escape_valid role : is_valid_pg_role_name role = true → escape role = role.
Proof.
  assert (∀ l, forallb (λ c, is_ascii_alphanumeric c || byte_eqb c "_"%byte || byte_eqb c "$"%byte) l = true →
    escape l = l) as Hrest.
  { induction l as [|b l IH]; [done|]. cbn [forallb]. intros [Hb Hl]%andb_true_iff. unfold escape. cbn [fmap list_fmap concat].
    fold (escape l). rewrite IH by done. destruct (byte_eqb b x27) eqn:E; [|done].
    apply bool_decide_eq_true in E as ->. vm_compute in Hb. discriminate Hb. }
  destruct role as [|b l]; [done|]. cbn [is_valid_pg_role_name]. intros [Hb Hl]%andb_true_iff.
  unfold escape. cbn [fmap list_fmap concat]. fold (escape l). rewrite Hrest by done.
  destruct (byte_eqb b x27) eqn:E; [|done]. apply bool_decide_eq_true in E as ->. vm_compute in Hb. discriminate Hb.
Qed.

(** A dollar-quoted block ends at the next [$$]; what follows it in [text]. *)
Definition after_block (text : bytes) : option bytes := after_first (lit "$$") text ≫= after_first (lit "$$").

(** A role name may hold [$$]; the block that revokes its grants then ends inside the
    name, and the rest of the block is read as SQL. *)
Lemma a_dollar_role_ends_its_block :
  is_valid_pg_role_name (lit "app$$rw") = true ∧
  after_block (revoke_sql (lit "app_rw")) = Some (lit ";") ∧
  ∃ rest, after_block (revoke_sql (lit "app$$rw")) = Some (lit "rw' ); EXECUTE" ++ rest).
Proof. split; [done|]. split; [vm_compute; reflexivity|]. eexists. vm_compute. reflexivity. Qed.

End FenceSql.

Module SqlSession.

Inductive DriverError := DriverError_ (as_db_error : option bytes).  (* its SQLSTATE *)
Inductive Message := Row (fields : list (option bytes)) | OtherMessage.
Inductive Sent := Rows (messages : list Message) | Failed (e : DriverError) | TimedOut.

Inductive Req :=
| Connect                            (* config.connect, under CONNECT_TIMEOUT *)
| IsClosed                           (* of the connection taken out *)
| SimpleQuery (sql : bytes).         (* under SQL_TIMEOUT *)
Definition Answer (q : Req) : Type :=
  match q with
  | Connect => option (result DriverError ())
  | IsClosed => bool
  | SimpleQuery _ => Sent
  end.
Abbreviation io := (prog Answer).
Abbreviation ask := (@Effects.ask Req Answer).

Definition sqlstate (e : DriverError) : option bytes := match e with DriverError_ code => code end.

(** [SessionTarget::connect]. *)
Definition connect : io (result PgError ()) :=
  let* r := ask Connect in
  Ret (match r with
       | None => Err PostgresNotReady
       | Some (Err e) => Err (Session.classify (sqlstate e))
       | Some (Ok _) => Ok tt
       end).

Definition render_messages (ms : list Message) : bytes :=
  Session.render (omap (λ m, match m with Row fields => Some fields | OtherMessage => None end) ms).

(** [run]: [held] is whether the lock holds a connection; the result says whether it
    does again.  Between the two the lock is empty, so a caller that stops waiting
    leaves nothing behind. *)
Definition open_client (held : bool) : io (result PgError ()) :=
  if held then
    let* closed := ask IsClosed in
    if closed then connect else Ret (Ok tt)
  else connect.

Fixpoint attempts (left : nat) (held : bool) (sql : bytes) : io (bool * result PgError bytes) :=
  match left with
  | O => Ret (false, Err PostgresNotReady)
  | S more =>
      let* client := open_client held in
      match client with
      | Err e => Ret (false, Err e)
      | Ok _ =>
          let* sent := ask (SimpleQuery sql) in
          match sent with
          | Rows ms => Ret (true, Ok (render_messages ms))
          | Failed e =>
              if bool_decide (1 < left)%nat && bool_decide (sqlstate e = None) then attempts more false sql
              else Ret (false, Err (Session.classify (sqlstate e)))
          | TimedOut => Ret (false, Err Postgres)
          end
      end
  end.
Definition run (held : bool) (sql : bytes) : io (bool * result PgError bytes) := attempts 2 held sql.

(** [LivenessProbe::answers], within its budget. *)
Definition answers : io bool :=
  let* client := connect in
  match client with
  | Err _ => Ret false
  | Ok _ =>
      let* sent := ask (SimpleQuery (lit "SELECT 1")) in
      Ret (match sent with Rows _ => true | _ => false end)
  end.

Section Split.
(** [pg_query::split_with_scanner]: the statements of a text, if it reads. *)
Context (split : bytes → option (list bytes)).

Definition one_statement (sql : bytes) : bool :=
  match split sql with
  | Some statements => bool_decide (length (filter (λ s, trim s ≠ []) statements) = 1%nat)
  | None => false
  end.

Definition execute_sql (held : bool) (sql : bytes) : io (bool * result PgError bytes) :=
  if one_statement sql then run held sql else Ret (held, Err Other).

Fixpoint trim_semicolons (rev_sql : bytes) : bytes :=
  match rev_sql with
  | b :: rest => if byte_eqb b ";"%byte then trim_semicolons rest else rev_sql
  | [] => []
  end.
(** [statement.trim().trim_end_matches(';')]. *)
Definition bare (statement : bytes) : bytes := reverse (trim_semicolons (reverse (trim statement))).

Fixpoint script_of (statements : list bytes) (script : bytes) : option bytes :=
  match statements with
  | [] => Some (script ++ lit " COMMIT;")
  | s :: rest => if one_statement s then script_of rest (script ++ lit " " ++ bare s ++ lit ";") else None
  end.

Definition execute_transaction (held : bool) (statements : list bytes) : io (bool * result PgError bytes) :=
  match script_of statements (lit "BEGIN;") with
  | Some script => run held script
  | None => Ret (held, Err Other)
  end.

End Split.

(** ** What a query does to the connection, and how often it is sent *)

Definition is_query (ev : event Answer) : bool := match projT1 ev with SimpleQuery _ => true | _ => false end.
Definition queries (t : list (event Answer)) : nat := length (filter is_query t).

Lemma opened held t r : runs (open_client held) t r → queries t = 0%nat.
Proof.
  unfold open_client, connect. destruct held.
  - intros (c & t' & -> & H). destruct c; cbn in H; [|by destruct H as [-> _]].
    destruct H as (r' & t'' & -> & H). by destruct H as [-> _].
  - intros (r' & t' & -> & H). by destruct H as [-> _].
Qed.
Lemma queries_app t1 t2 : queries (t1 ++ t2) = (queries t1 + queries t2)%nat.
Proof. unfold queries. by rewrite filter_app, length_app. Qed.

(** A session keeps its connection exactly when the query was answered with rows; what
    it sends, it sends at most once per attempt. *)
Lemma attempts_bounded n held sql t held' r :
  runs (attempts n held sql) t (held', r) → held' = is_ok r ∧ (queries t ≤ n)%nat.
Proof.
  revert held t. induction n as [|n IH]; intros held t; cbn [attempts]; [by intros [-> [= -> ->]]|].
  intros (t1 & t2 & client & -> & H1 & H2)%runs_bind. apply opened in H1. rewrite queries_app, H1.
  destruct client as [[]|e]; [|destruct H2 as [-> [= -> ->]]; split; [done|cbn; lia]].
  destruct H2 as (sent & t3 & -> & H2). change (queries (answered (SimpleQuery sql) sent :: t3)) with (S (queries t3)).
  assert (∀ b x, t3 = [] ∧ (held', r) = (b, x) → b = is_ok x → held' = is_ok r ∧ (0 + S (queries t3) ≤ S n)%nat) as Hend.
  { intros b x [-> [= -> ->]] ->. cbn. split; [done|lia]. }
  destruct sent as [ms|e|]; [exact (Hend _ _ H2 eq_refl)| |exact (Hend _ _ H2 eq_refl)].
  cbn [bind] in H2. destruct (bool_decide (1 < S n)%nat && _); [|exact (Hend _ _ H2 eq_refl)]. apply IH in H2 as [-> H2]. split; [done|lia].
Qed.

Lemma a_query_is_sent_at_most_twice held sql t held' r :
  runs (run held sql) t (held', r) → held' = is_ok r ∧ (queries t ≤ 2)%nat.
Proof. apply attempts_bounded. Qed.

(** A server's error is its answer: no retry follows it. *)
Lemma a_server_error_is_not_retried n sql code :
  runs (attempts (S n) false sql)
    [answered Connect (Some (Ok tt)); answered (SimpleQuery sql) (Failed (DriverError_ (Some code)))]
    (false, Err (Session.classify (Some code))).
Proof.
  eexists _, _. split; [reflexivity|]. eexists _, _. split; [reflexivity|].
  cbn [bind sqlstate]. by destruct (bool_decide (1 < S n)%nat).
Qed.

(** A transaction whose connection broke may run twice, so what it does must
    be idempotent; one whose answer was an error ran at most as far as its commit. *)
Lemma a_broken_transaction_is_sent_again split statements script :
  script_of split statements (lit "BEGIN;") = Some script →
  ∃ t, runs (execute_transaction split true statements) t (true, Ok []) ∧ queries t = 2%nat.
Proof.
  intros Hs. unfold execute_transaction. rewrite Hs.
  exists [answered IsClosed false; answered (SimpleQuery script) (Failed (DriverError_ None));
    answered Connect (Some (Ok tt)); answered (SimpleQuery script) (Rows [])].
  split; [|done]. do 4 (eexists _, _; split; [reflexivity|]; cbn). done.
Qed.

End SqlSession.
