(* ===== verification/ClientFence.v ===== *)
(** * The client-write fence and the DDL freeze, and their leveller

    [src/commands/upgrade/client_fence.rs], [ddl_freeze.rs] and [level_client_fence] of
    [src/governor/reconciler/mod.rs].  The statements are data with the text
    [FenceSql.v] builds for them; what one does is its reading over a server's
    catalogs, [Server]: the catalogs the statements name, and the documented effect of
    [GRANT], [REVOKE], [ALTER DEFAULT PRIVILEGES] and the rest on them. *)

From S2P Require Import Prelude Effects Text ClusterState Fence Handoff Reconciler Sql.
From Stdlib Require Import Strings.Byte.

(** ** The catalogs the statements read *)

(** One item of [aclexplode(relacl)], with its relation and its grantee's name;
    [g_by_owner]: granted by the relation's owner, which is whose grants a superuser's
    [GRANT] and [REVOKE] act on. *)
Record RelGrant := RelGrant_ {
  g_schema : bytes; g_rel : bytes; g_kind : byte;
  g_grantee : bytes; g_priv : bytes; g_by_owner : bool; g_grantable : bool;
}.
#[export] Instance RelGrant_eq_dec : EqDecision RelGrant.
Proof. solve_decision. Defined.

(** One item of [aclexplode(attacl)]: a privilege on one column. *)
Record ColumnGrant := ColumnGrant_ { c_schema : bytes; c_rel : bytes; c_grantee : bytes; c_priv : bytes }.
#[export] Instance ColumnGrant_eq_dec : EqDecision ColumnGrant.
Proof. solve_decision. Defined.

(** One item of [aclexplode(defaclacl)]; no schema is a default for every schema. *)
Record DefGrant := DefGrant_ {
  d_owner : bytes; d_schema : option bytes; d_objtype : byte;
  d_grantee : bytes; d_priv : bytes; d_grantable : bool;
}.
#[export] Instance DefGrant_eq_dec : EqDecision DefGrant.
Proof. solve_decision. Defined.

(** A row of [client_fence_revoked]. *)
Record Row := Row_ {
  r_cluster : bytes; r_role : bytes; r_schema : bytes; r_rel : bytes;
  r_kind : byte; r_priv : bytes; r_grant_kind : byte;
}.
#[export] Instance Row_eq_dec : EqDecision Row.
Proof. solve_decision. Defined.
(** Its primary key leaves [rel_kind] out. *)
Definition key (r : Row) : bytes * bytes * bytes * bytes * bytes * byte :=
  (r_cluster r, r_role r, r_schema r, r_rel r, r_priv r, r_grant_kind r).

Record Catalog := Catalog_ {
  schemas : list bytes;
  relations : list (bytes * bytes * byte);       (* schema, name, relkind *)
  pg_roles : list bytes;
  rel_acl : list RelGrant;
  column_acl : list ColumnGrant;
  default_acl : list DefGrant;
  fence_table : option (list Row);
  ddl_trigger : bool;
}.
Definition set_rel_acl (a : list RelGrant) (ca : list ColumnGrant) (c : Catalog) : Catalog :=
  Catalog_ (schemas c) (relations c) (pg_roles c) a ca (default_acl c) (fence_table c) (ddl_trigger c).
Definition set_default_acl (a : list DefGrant) (c : Catalog) : Catalog :=
  Catalog_ (schemas c) (relations c) (pg_roles c) (rel_acl c) (column_acl c) a (fence_table c) (ddl_trigger c).
Definition set_fence_table (t : option (list Row)) (c : Catalog) : Catalog :=
  Catalog_ (schemas c) (relations c) (pg_roles c) (rel_acl c) (column_acl c) (default_acl c) t (ddl_trigger c).
Definition set_ddl_trigger (b : bool) (c : Catalog) : Catalog :=
  Catalog_ (schemas c) (relations c) (pg_roles c) (rel_acl c) (column_acl c) (default_acl c) (fence_table c) b.

(** *** What the SQL commands do to them *)
Inductive ObjClass := Tables | Sequences.
#[export] Instance ObjClass_eq_dec : EqDecision ObjClass.
Proof. solve_decision. Defined.

(** [ALL TABLES IN SCHEMA]: tables, partitioned tables, views, foreign tables and
    materialized views. *)
Definition in_class (cls : ObjClass) (kind : byte) : bool :=
  match cls with
  | Tables => bool_decide (kind ∈ [x72; x70; x76; x66; x6d])
  | Sequences => bool_decide (kind = x53)
  end.
Definition kind_class (kind : byte) : ObjClass := if bool_decide (kind = x53) then Sequences else Tables.

(** [REVOKE privs ON ALL .. IN SCHEMA schema FROM role]: the owner's grants go, and
    the same privileges on columns with them. *)
Definition hit (cls : ObjClass) (privs : list bytes) (schema role : bytes) (g : RelGrant) : bool :=
  bool_decide (g_schema g = schema) && bool_decide (g_grantee g = role) && g_by_owner g &&
  in_class cls (g_kind g) && bool_decide (g_priv g ∈ privs).
Definition column_hit (cls : ObjClass) (privs : list bytes) (schema role : bytes) (g : ColumnGrant) : bool :=
  bool_decide (cls = Tables) && bool_decide (c_schema g = schema) && bool_decide (c_grantee g = role) &&
  bool_decide (c_priv g ∈ privs).
Definition revoked_all (cls : ObjClass) (privs : list bytes) (schema role : bytes) (c : Catalog) : Catalog :=
  set_rel_acl (filter (λ g, ¬ hit cls privs schema role g) (rel_acl c))
    (filter (λ g, ¬ column_hit cls privs schema role g) (column_acl c)) c.

Fixpoint kind_in (rels : list (bytes * bytes * byte)) (schema rel : bytes) : option byte :=
  match rels with
  | [] => None
  | (s, r, k) :: rest => if bool_decide (s = schema ∧ r = rel) then Some k else kind_in rest schema rel
  end.
Definition kind_of (c : Catalog) (schema rel : bytes) : option byte := kind_in (relations c) schema rel.
(** [GRANT priv ON TABLE|SEQUENCE schema.rel TO role]. *)
Definition granted (priv schema rel role : bytes) (c : Catalog) : Catalog :=
  match kind_of c schema rel with
  | None => c
  | Some kind =>
      if existsb (λ g, bool_decide (RelGrant_ (g_schema g) (g_rel g) (g_kind g) (g_grantee g) (g_priv g) (g_by_owner g) false
                       = RelGrant_ schema rel kind role priv true false)) (rel_acl c)
      then c
      else set_rel_acl (rel_acl c ++ [RelGrant_ schema rel kind role priv true false]) (column_acl c) c
  end.

Definition objtype_of (cls : ObjClass) : byte := match cls with Tables => x72 | Sequences => x53 end.
(** [ALTER DEFAULT PRIVILEGES FOR ROLE owner .. REVOKE privs ON .. FROM role]. *)
Definition default_hit (owner : bytes) (schema : option bytes) (cls : ObjClass) (privs : list bytes) (role : bytes)
    (g : DefGrant) : bool :=
  bool_decide (d_owner g = owner) && bool_decide (d_schema g = schema) && bool_decide (d_objtype g = objtype_of cls) &&
  bool_decide (d_grantee g = role) && bool_decide (d_priv g ∈ privs).
Definition default_revoked (owner : bytes) (schema : option bytes) (cls : ObjClass) (privs : list bytes) (role : bytes)
    (c : Catalog) : Catalog :=
  set_default_acl (filter (λ g, ¬ default_hit owner schema cls privs role g) (default_acl c)) c.
(** [ALTER DEFAULT PRIVILEGES FOR ROLE owner .. GRANT priv ON .. TO role]. *)
Definition default_granted (owner : bytes) (schema : option bytes) (cls : ObjClass) (priv role : bytes)
    (c : Catalog) : Catalog :=
  let g := DefGrant_ owner schema (objtype_of cls) role priv false in
  if existsb (λ g', bool_decide (DefGrant_ (d_owner g') (d_schema g') (d_objtype g') (d_grantee g') (d_priv g') false = g))
       (default_acl c)
  then c else set_default_acl (default_acl c ++ [g]) c.

(** [INSERT .. ON CONFLICT DO NOTHING], row by row. *)
Fixpoint inserted (rows : list Row) (t : list Row) : list Row :=
  match rows with
  | [] => t
  | r :: rest => inserted rest (if bool_decide (key r ∈ key <$> t) then t else t ++ [r])
  end.

(** ** A server with these catalogs *)
Class Server (Cat : Type) := {
  view : Cat → Catalog;
  create_table : Cat → Cat;
  insert_rows : list Row → Cat → Cat;
  delete_rows : bytes → Cat → Cat;
  revoke_all : ObjClass → list bytes → bytes → bytes → Cat → Cat;
  grant : bytes → bytes → bytes → bytes → Cat → Cat;
  default_revoke : bytes → option bytes → ObjClass → list bytes → bytes → Cat → Cat;
  default_grant : bytes → option bytes → ObjClass → bytes → bytes → Cat → Cat;
  create_trigger : Cat → Cat;
  drop_trigger : Cat → Cat;
  view_create_table c : view (create_table c) = set_fence_table (Some (default [] (fence_table (view c)))) (view c);
  view_insert_rows rows c : view (insert_rows rows c) = set_fence_table (inserted rows <$> fence_table (view c)) (view c);
  view_delete_rows cluster c :
    view (delete_rows cluster c) = set_fence_table (filter (λ r, r_cluster r ≠ cluster) <$> fence_table (view c)) (view c);
  view_revoke_all cls privs schema role c : view (revoke_all cls privs schema role c) = revoked_all cls privs schema role (view c);
  view_grant priv schema rel role c : view (grant priv schema rel role c) = granted priv schema rel role (view c);
  view_default_revoke owner schema cls privs role c :
    view (default_revoke owner schema cls privs role c) = default_revoked owner schema cls privs role (view c);
  view_default_grant owner schema cls priv role c :
    view (default_grant owner schema cls priv role c) = default_granted owner schema cls priv role (view c);
  view_create_trigger c : view (create_trigger c) = set_ddl_trigger true (view c);
  view_drop_trigger c : view (drop_trigger c) = set_ddl_trigger false (view c);
}.

(** ** The statements *)
Definition WRITES : list bytes := [lit "INSERT"; lit "UPDATE"; lit "DELETE"; lit "TRUNCATE"].
Definition SEQUENCE_USE : list bytes := [lit "USAGE"; lit "UPDATE"].
Definition fenced_privilege (priv : bytes) : bool := bool_decide (priv ∈ WRITES ++ [lit "USAGE"]).

(** [LIKE] against a prefix followed by [%]; an underscore matches any character. *)
Fixpoint skip_continuation (l : bytes) : bytes :=
  match l with b :: l' => if in_range 128 191 b then skip_continuation l' else l | [] => [] end.
Fixpoint like_prefix (pattern text : bytes) : bool :=
  match pattern, text with
  | [], _ => true
  | _ :: _, [] => false
  | p :: ps, b :: bs =>
      if byte_eqb p x5f then like_prefix ps (skip_continuation bs)
      else byte_eqb p b && like_prefix ps bs
  end.
(** [USER_SCHEMAS]. *)
Definition user_schema (s : bytes) : bool :=
  bool_decide (s ∉ [lit "pg_catalog"; lit "information_schema"; lit "pgbattery"]) &&
  negb (like_prefix (lit "pg_toast") s) && negb (like_prefix (lit "pg_temp") s).
Definition snapshot_kind (kind : byte) : bool := bool_decide (kind ∈ [x72; x70; x76; x66; x53]).
Definition default_kind (objtype : byte) : bool := bool_decide (objtype ∈ [x72; x53]).

Inductive Statement :=
| SetExempt
| CreateSchema
| CreateTable
| Snapshot (cluster role : bytes)
| DefaultSnapshot (cluster role : bytes)
| Revoke (role : bytes)
| DefaultRevoke (role : bytes)
| Lift (cluster : bytes)
| CreateFunction
| CreateTrigger.

(** What is sent for it. *)
Definition text (s : Statement) : bytes :=
  match s with
  | SetExempt => FenceSql.set_exempt_sql
  | CreateSchema => FenceSql.fence_schema_ddl
  | CreateTable => FenceSql.fence_table_ddl
  | Snapshot cluster role => FenceSql.snapshot_insert_sql (FenceSql.escape cluster) (FenceSql.escape role)
  | DefaultSnapshot cluster role => FenceSql.default_snapshot_insert_sql (FenceSql.escape cluster) (FenceSql.escape role)
  | Revoke role => FenceSql.revoke_sql (FenceSql.escape role)
  | DefaultRevoke role => FenceSql.default_revoke_sql (FenceSql.escape role)
  | Lift cluster => FenceSql.lift_sql (FenceSql.escape cluster)
  | CreateFunction => FenceSql.refuse_ddl_sql
  | CreateTrigger => FenceSql.create_trigger_sql
  end.

(** [snapshot_insert_sql] and [default_snapshot_insert_sql]: the rows selected. *)
Definition snapshotted (role : bytes) (g : RelGrant) : bool :=
  bool_decide (g_grantee g = role) && snapshot_kind (g_kind g) && fenced_privilege (g_priv g) && user_schema (g_schema g).
Definition row_of (cluster role : bytes) (g : RelGrant) : Row :=
  Row_ cluster role (g_schema g) (g_rel g) (g_kind g) (g_priv g) x72.
Definition default_snapshotted (role : bytes) (g : DefGrant) : bool :=
  bool_decide (d_grantee g = role) && default_kind (d_objtype g) && fenced_privilege (d_priv g).
Definition default_row_of (cluster role : bytes) (g : DefGrant) : Row :=
  Row_ cluster role (default [] (d_schema g)) (d_owner g) (d_objtype g) (d_priv g) x64.

Section Exec.
Context {Cat : Type} `{Server Cat}.

(** The loop of [revoke_sql], over [pg_namespace]. *)
Definition revoke_loop (role : bytes) (ss : list bytes) (c : Cat) : Cat :=
  foldl (λ c s, revoke_all Sequences SEQUENCE_USE s role (revoke_all Tables WRITES s role c)) c ss.
(** The loop of [default_revoke_sql], over the distinct targets. *)
Definition revoke_target (role : bytes) (c : Cat) (t : bytes * option bytes * byte) : Cat :=
  let cls := kind_class t.2 in
  default_revoke t.1.1 t.1.2 cls (match cls with Sequences => SEQUENCE_USE | Tables => WRITES end) role c.
Definition default_targets (role : bytes) (acl : list DefGrant) : list (bytes * option bytes * byte) :=
  remove_dups ((λ g, (d_owner g, d_schema g, d_objtype g)) <$>
    filter (λ g, bool_decide (d_grantee g = role) && default_kind (d_objtype g)) acl).
(** One row of the loop of [lift_sql]. *)
Definition lift_row (c : Cat) (r : Row) : Cat :=
  if negb (bool_decide (r_role r ∈ pg_roles (view c))) then c
  else if bool_decide (r_grant_kind r = x64) then
    if bool_decide (r_rel r ∈ pg_roles (view c)) then
      default_grant (r_rel r) (if bool_decide (r_schema r = []) then None else Some (r_schema r))
        (kind_class (r_kind r)) (r_priv r) (r_role r) c
    else c
  else if bool_decide (is_Some (kind_of (view c) (r_schema r) (r_rel r))) then
    grant (r_priv r) (r_schema r) (r_rel r) (r_role r) c
  else c.

Definition exec (s : Statement) (c : Cat) : Cat :=
  match s with
  | SetExempt | CreateSchema | CreateFunction => c
  | CreateTable => create_table c
  | Snapshot cluster role => insert_rows (row_of cluster role <$> filter (snapshotted role) (rel_acl (view c))) c
  | DefaultSnapshot cluster role =>
      insert_rows (default_row_of cluster role <$> filter (default_snapshotted role) (default_acl (view c))) c
  | Revoke role => revoke_loop role (filter user_schema (schemas (view c))) c
  | DefaultRevoke role => foldl (revoke_target role) c (default_targets role (default_acl (view c)))
  | Lift cluster =>
      delete_rows cluster
        (foldl lift_row c (filter (λ r, r_cluster r = cluster) (default [] (fence_table (view c)))))
  | CreateTrigger => create_trigger c
  end.
Definition exec_all (ss : list Statement) (c : Cat) : Cat := foldl (λ c s, exec s c) c ss.

(** The facts [observe] selects. *)
Definition has_revocable (roles : list bytes) (k : Catalog) : bool :=
  negb (bool_decide (roles = [])) &&
  (existsb (λ g, bool_decide (g_grantee g ∈ roles) && snapshot_kind (g_kind g) && fenced_privilege (g_priv g) &&
                 user_schema (g_schema g)) (rel_acl k) ||
   existsb (λ g, bool_decide (d_grantee g ∈ roles) && default_kind (d_objtype g) && fenced_privilege (d_priv g)) (default_acl k)).
Definition has_recorded (cluster : bytes) (k : Catalog) : bool :=
  existsb (λ r, bool_decide (r_cluster r = cluster)) (default [] (fence_table k)).

End Exec.

(** ** The leveller *)
Definition apply_statements (cluster : bytes) (roles : list bytes) : list Statement :=
  [SetExempt; CreateSchema; CreateTable] ++
  concat ((λ role, [Snapshot cluster role; DefaultSnapshot cluster role; Revoke role; DefaultRevoke role]) <$> roles).
Definition lift_statements (cluster : bytes) : list Statement := [SetExempt; Lift cluster].
Definition install_statements : list Statement := [CreateSchema; CreateFunction; CreateTrigger].

Inductive LevelReq :=
| OfHandoff (q : Handoff.Req)                    (* the catalog reads *)
| Transaction (statements : list Statement)      (* Supervisor::execute_transaction *)
| DropTrigger.                                   (* DROP EVENT TRIGGER IF EXISTS *)
Definition LevelAnswer (q : LevelReq) : Type :=
  match q with
  | OfHandoff q => Handoff.Answer q
  | Transaction _ | DropTrigger => result PgError ()
  end.
Abbreviation lio := (prog LevelAnswer).
Abbreviation lask := (@Effects.ask LevelReq LevelAnswer).

Inductive LevelError := Observing (e : FenceError) | NoRoles | BadRole | Writing (e : PgError).

Definition ddl_should_freeze (phase : CutoverPhase) : bool :=
  match phase with Sealing | Sealed | Draining => true | _ => false end.

Definition transaction (ss : list Statement) : lio (result LevelError ()) :=
  let* r := lask (Transaction ss) in
  Ret (match r with Ok _ => Ok tt | Err e => Err (Writing e) end).
Definition install_ddl_freeze : lio (result LevelError ()) := transaction install_statements.
Definition remove_ddl_freeze : lio (result LevelError ()) :=
  let* r := lask DropTrigger in
  Ret (match r with Ok _ => Ok tt | Err e => Err (Writing e) end).
Definition apply_client_write_fence (app_roles : list bytes) (cluster_id : bytes) : lio (result LevelError ()) :=
  if bool_decide (app_roles = []) then Ret (Err NoRoles)
  else if negb (forallb is_valid_pg_role_name app_roles) then Ret (Err BadRole)
  else transaction (apply_statements cluster_id app_roles).
Definition lift_client_write_fence (cluster_id : bytes) : lio (result LevelError ()) :=
  transaction (lift_statements cluster_id).

Definition level_client_fence (wanted : WantedClientFence) (cluster_id : bytes) : lio (result LevelError ()) :=
  let* seen := embed OfHandoff (λ _ r, r) (observe (wanted_roles wanted) cluster_id) in
  match seen with
  | Err e => Ret (Err (Observing e))
  | Ok seen =>
      if negb (is_primary seen) then Ret (Ok tt)
      else
        let want_freeze := ddl_should_freeze (wanted_phase wanted) in
        let? _ :=
          (if want_freeze && negb (freeze_installed seen) then install_ddl_freeze
           else if negb want_freeze && freeze_installed seen then remove_ddl_freeze
           else Ret (Ok tt)) in
        match fence_action (wanted_fenced wanted) (grants seen) with
        | FenceApply => apply_client_write_fence (wanted_roles wanted) cluster_id
        | FenceLift => lift_client_write_fence cluster_id
        | FenceNone => Ret (Ok tt)
        end
  end.

(** The statements are the texts the source builds. *)
Lemma apply_statements_text cluster roles :
  text <$> apply_statements cluster roles = FenceSql.apply_sql (FenceSql.escape cluster) (FenceSql.escape <$> roles).
Proof.
  unfold apply_statements, FenceSql.apply_sql, FenceSql.exempt. cbn [fmap list_fmap app]. do 3 f_equal.
  induction roles as [|r roles IH]; [done|]. cbn. do 4 f_equal. exact IH.
Qed.
