(* ===== verification/ClientFenceProofs.v ===== *)
(** * What the client-write fence takes, what lifting gives back, and the leveller

    The statements are read over the catalogs of any [Server]; [catalog_server] is the
    one that is nothing else, and what a statement does anywhere is what it does there. *)

From S2P Require Import Prelude Effects Text ClusterState Fence Handoff Reconciler Sql ClientFence.
From Stdlib Require Import Strings.Byte.

#[export] Program Instance catalog_server : Server Catalog := {|
  view c := c;
  create_table c := set_fence_table (Some (default [] (fence_table c))) c;
  insert_rows rows c := set_fence_table (inserted rows <$> fence_table c) c;
  delete_rows cluster c := set_fence_table (filter (λ r, r_cluster r ≠ cluster) <$> fence_table c) c;
  revoke_all := revoked_all; grant := granted;
  default_revoke := default_revoked; default_grant := default_granted;
  create_trigger := set_ddl_trigger true; drop_trigger := set_ddl_trigger false
|}.
Solve Obligations with done.

(** ** One reading for every server *)
Section View.
Context {Cat : Type} `{Server Cat}.

Lemma view_foldl {A} (f : Cat → A → Cat) (g : Catalog → A → Catalog) l c :
  (∀ c a, view (f c a) = g (view c) a) → view (foldl f c l) = foldl g (view c) l.
Proof. intros Hf. revert c. induction l as [|a l IH]; intros c; [done|]. cbn. by rewrite IH, Hf. Qed.

Lemma view_lift_row c r : view (lift_row c r) = lift_row (view c) r.
Proof. unfold lift_row. cbn [view catalog_server]. repeat case_match; try done; (apply view_default_grant || apply view_grant). Qed.

Lemma view_exec s c : view (exec s c) = exec s (view c).
Proof.
  destruct s; cbn [exec]; try done.
  - apply view_create_table.
  - apply view_insert_rows.
  - apply view_insert_rows.
  - apply view_foldl. intros c' s. by rewrite !view_revoke_all.
  - apply view_foldl. intros c' t. unfold revoke_target. by rewrite view_default_revoke.
  - rewrite view_delete_rows. by rewrite (view_foldl _ lift_row) by apply view_lift_row.
  - apply view_create_trigger.
Qed.
Lemma view_exec_all ss c : view (exec_all ss c) = exec_all ss (view c).
Proof. apply view_foldl. intros c' s. apply view_exec. Qed.
End View.

(** ** What revoking takes *)
Definition revokes (ss : list bytes) (role : bytes) (g : RelGrant) : bool :=
  bool_decide (g_grantee g = role) && g_by_owner g && user_schema (g_schema g) && bool_decide (g_schema g ∈ ss) &&
  (in_class Tables (g_kind g) && bool_decide (g_priv g ∈ WRITES) ||
   in_class Sequences (g_kind g) && bool_decide (g_priv g ∈ SEQUENCE_USE)).
Definition default_revokes (role : bytes) (g : DefGrant) : bool :=
  bool_decide (d_grantee g = role) && default_kind (d_objtype g) &&
  bool_decide (d_priv g ∈ match kind_class (d_objtype g) with Sequences => SEQUENCE_USE | Tables => WRITES end).

(** The catalogs a loop leaves alone. *)
Record same_but_acl (k k' : Catalog) : Prop := {
  same_schemas : schemas k' = schemas k;
  same_relations : relations k' = relations k;
  same_roles_ : pg_roles k' = pg_roles k;
  same_trigger : ddl_trigger k' = ddl_trigger k;
}.
#[local] Hint Constructors same_but_acl : core.
Lemma same_but_acl_refl k : same_but_acl k k.
Proof. by split. Qed.
Lemma same_but_acl_trans k1 k2 k3 : same_but_acl k1 k2 → same_but_acl k2 k3 → same_but_acl k1 k3.
Proof. intros [] []. split; congruence. Qed.

Lemma revoke_loop_spec role ss k :
  let k' := revoke_loop role ss k in
  same_but_acl k k' ∧ default_acl k' = default_acl k ∧ fence_table k' = fence_table k ∧
  ∀ g, g ∈ rel_acl k' ↔ g ∈ rel_acl k ∧
    ∀ s, s ∈ ss → ¬ hit Tables WRITES s role g ∧ ¬ hit Sequences SEQUENCE_USE s role g.
Proof.
  cbn. unfold revoke_loop. revert k. induction ss as [|s ss IH]; intros k; cbn [foldl].
  - split_and!; [apply same_but_acl_refl|done|done|]. intros g. split; [|tauto]. intros Hg. split; [done|]. intros s Hs. by apply not_elem_of_nil in Hs.
  - destruct (IH (revoke_all Sequences SEQUENCE_USE s role (revoke_all Tables WRITES s role k))) as (S1 & D1 & F1 & G1).
    split_and!; [by eapply same_but_acl_trans; [|exact S1]|by rewrite D1|by rewrite F1|].
    intros g. rewrite G1. cbn. rewrite !list_elem_of_filter. split.
    + intros ((Hs & Ht & Hg) & Hr). split; [done|]. intros s' [->|Hs']%elem_of_cons; [done|by apply Hr].
    + intros [Hg Hr]. split; [|intros s' Hs'; apply Hr; by right]. destruct (Hr s) as [H1 H2]; [by left|]. done.
Qed.

Lemma exec_revoke_spec role k :
  let k' := exec (Revoke role) k in
  same_but_acl k k' ∧ default_acl k' = default_acl k ∧ fence_table k' = fence_table k ∧
  ∀ g, g ∈ rel_acl k' ↔ g ∈ rel_acl k ∧ revokes (schemas k) role g = false.
Proof.
  cbn. destruct (revoke_loop_spec role (filter user_schema (schemas k)) k) as (S1 & D1 & F1 & G1).
  split_and!; [done..|]. intros g. rewrite G1. f_equiv. unfold revokes, hit. split.
  - intros Hr. destruct (bool_decide (g_grantee g = role)) eqn:E1, (g_by_owner g), (user_schema (g_schema g)) eqn:E3,
      (bool_decide (g_schema g ∈ schemas k)) eqn:E4; cbn [andb]; try done.
    apply bool_decide_eq_true in E4. destruct (Hr (g_schema g)) as [H1 H2].
    { apply list_elem_of_filter. by rewrite E3. }
    rewrite bool_decide_true in H1, H2 by done. cbn [andb] in *. apply orb_false_iff.
    split; apply not_true_iff_false; intros E; [apply H1|apply H2]; by rewrite E.
  - intros Hr s [Hu Hs]%list_elem_of_filter.
    split; intros Hh; apply Is_true_true in Hh; rewrite !andb_true_iff in Hh; destruct Hh as [[[[<-%bool_decide_eq_true ?] ?] ?] ?]; apply Is_true_true in Hu;
      rewrite Hu, (bool_decide_true (g_schema g ∈ schemas k)) in Hr by done;
      repeat match goal with H : _ = true |- _ => rewrite H in Hr; clear H end; cbn in Hr; rewrite ?orb_true_r in Hr; discriminate.
Qed.

Lemma default_loop_spec role ts k :
  let k' := foldl (revoke_target role) k ts in
  same_but_acl k k' ∧ rel_acl k' = rel_acl k ∧ fence_table k' = fence_table k ∧
  ∀ g, g ∈ default_acl k' ↔ g ∈ default_acl k ∧ ∀ t, t ∈ ts →
    ¬ default_hit t.1.1 t.1.2 (kind_class t.2)
        (match kind_class t.2 with Sequences => SEQUENCE_USE | Tables => WRITES end) role g.
Proof.
  cbn. revert k. induction ts as [|t ts IH]; intros k; cbn [foldl].
  - split_and!; [apply same_but_acl_refl|done|done|]. intros g. split; [|tauto]. intros Hg. split; [done|]. intros t Ht. by apply not_elem_of_nil in Ht.
  - destruct (IH (revoke_target role k t)) as (S1 & D1 & F1 & G1).
    split_and!; [by eapply same_but_acl_trans; [|exact S1]|by rewrite D1|by rewrite F1|].
    intros g. rewrite G1. cbn. rewrite list_elem_of_filter. split.
    + intros ((Ht & Hg) & Hr). split; [done|]. intros t' [->|Ht']%elem_of_cons; [done|by apply Hr].
    + intros [Hg Hr]. split; [split; [apply Hr; by left|done]|]. intros t' Ht'. apply Hr. by right.
Qed.

Lemma default_kind_class o : default_kind o = true → objtype_of (kind_class o) = o.
Proof.
  intros H%bool_decide_eq_true. unfold kind_class.
  repeat (apply elem_of_cons in H as [->|H]; [done|]). by apply not_elem_of_nil in H.
Qed.

Lemma exec_default_revoke_spec role k :
  let k' := exec (DefaultRevoke role) k in
  same_but_acl k k' ∧ rel_acl k' = rel_acl k ∧ fence_table k' = fence_table k ∧
  ∀ g, g ∈ default_acl k' ↔ g ∈ default_acl k ∧ default_revokes role g = false.
Proof.
  cbn. destruct (default_loop_spec role (default_targets role (default_acl k)) k) as (S1 & D1 & F1 & G1).
  split_and!; [done..|]. intros g. rewrite G1. unfold default_revokes, default_hit. split.
  - intros [Hg Hr]. split; [done|]. apply not_true_iff_false. intros [[E1 E2]%andb_true_iff E3]%andb_true_iff.
    apply (Hr (d_owner g, d_schema g, d_objtype g)).
    + unfold default_targets. apply elem_of_remove_dups, list_elem_of_fmap. exists g. split; [done|].
      apply list_elem_of_filter. by rewrite E1, E2.
    + cbn [fst snd]. rewrite !bool_decide_true by (try done; symmetry; by apply default_kind_class).
      apply bool_decide_eq_true in E1. rewrite (bool_decide_true _ E1), E3. done.
  - intros [Hg Hr]. split; [done|]. intros [[o s] ty] Ht Hh. cbn [fst snd] in Hh. apply Is_true_true in Hh.
    rewrite !andb_true_iff in Hh. destruct Hh as [[[[Ho Hs] Hty] Hrole] Hp].
    unfold default_targets in Ht. apply elem_of_remove_dups, list_elem_of_fmap in Ht as (g' & [= -> -> ->] & Hg').
    apply list_elem_of_filter in Hg' as [Hk _]. apply Is_true_true, andb_true_iff in Hk as [_ Hk].
    apply bool_decide_eq_true in Hty. rewrite (default_kind_class _ Hk) in Hty. rewrite Hty, Hk, Hrole, Hp in Hr. discriminate.
Qed.

(** ** What the snapshot keeps *)
Lemma inserted_from rows t r : r ∈ inserted rows t → r ∈ t ∨ r ∈ rows.
Proof.
  revert t. induction rows as [|x rows IH]; intros t; cbn; [by left|]. intros [H|H]%IH; [|right; by right].
  case_bool_decide; [by left|]. apply elem_of_app in H as [H|H%list_elem_of_singleton]; [by left|]. right. subst. by left.
Qed.
Lemma inserted_keeps rows t r : r ∈ t → r ∈ inserted rows t.
Proof.
  revert t. induction rows as [|x rows IH]; intros t Hr; cbn; [done|]. apply IH. case_bool_decide; [done|]. apply elem_of_app. by left.
Qed.
Lemma inserted_key rows t r : r ∈ rows → key r ∈ key <$> inserted rows t.
Proof.
  revert t. induction rows as [|x rows IH]; intros t; [by intros ?%not_elem_of_nil|]. cbn [inserted].
  intros [->|H]%elem_of_cons; [|by apply IH]. case_bool_decide as E.
  - apply list_elem_of_fmap in E as (y & Hk & Hy). apply list_elem_of_fmap. exists y. split; [done|]. by apply inserted_keeps.
  - apply list_elem_of_fmap. exists x. split; [done|]. apply inserted_keeps, elem_of_app. right. by apply list_elem_of_singleton.
Qed.

(** A row the fence wrote, and what it wrote it of. *)
Definition origin (cluster : bytes) (roles : list bytes) (k : Catalog) (r : Row) : Prop :=
  (∃ role g, role ∈ roles ∧ g ∈ rel_acl k ∧ snapshotted role g ∧ r = row_of cluster role g) ∨
  (∃ role d, role ∈ roles ∧ d ∈ default_acl k ∧ default_snapshotted role d ∧ r = default_row_of cluster role d).

Record applied (cluster : bytes) (roles : list bytes) (k k' : Catalog) (t t' : list Row) : Prop := {
  ap_same : same_but_acl k k';
  ap_table : fence_table k' = Some t';
  ap_rel g : g ∈ rel_acl k' ↔ g ∈ rel_acl k ∧ ∀ role, role ∈ roles → revokes (schemas k) role g = false;
  ap_def d : d ∈ default_acl k' ↔ d ∈ default_acl k ∧ ∀ role, role ∈ roles → default_revokes role d = false;
  ap_rows r : r ∈ t' → r ∈ t ∨ origin cluster roles k r;
  ap_kept r : r ∈ t → r ∈ t';
  ap_rel_key role g : role ∈ roles → g ∈ rel_acl k → snapshotted role g → key (row_of cluster role g) ∈ key <$> t';
  ap_def_key role d : role ∈ roles → d ∈ default_acl k → default_snapshotted role d →
    key (default_row_of cluster role d) ∈ key <$> t';
}.

Definition block (cluster role : bytes) : list Statement :=
  [Snapshot cluster role; DefaultSnapshot cluster role; Revoke role; DefaultRevoke role].

Lemma block_spec cluster role k t :
  fence_table k = Some t → ∃ t', applied cluster [role] k (exec_all (block cluster role) k) t t'.
Proof.
  intros Ht. cbn [block exec_all foldl].
  set (k1 := exec (Snapshot cluster role) k). set (k2 := exec (DefaultSnapshot cluster role) k1).
  set (k3 := exec (Revoke role) k2).
  set (t1 := inserted (row_of cluster role <$> filter (snapshotted role) (rel_acl k)) t).
  set (t2 := inserted (default_row_of cluster role <$> filter (default_snapshotted role) (default_acl k)) t1).
  assert (fence_table k2 = Some t2) as E2 by (cbn; by rewrite Ht).
  destruct (exec_revoke_spec role k2) as (S3 & D3 & F3 & G3).
  destruct (exec_default_revoke_spec role k3) as (S4 & D4 & F4 & G4). fold k3 in S3, D3, F3, G3.
  change (rel_acl k2) with (rel_acl k) in G3. change (schemas k2) with (schemas k) in G3.
  change (default_acl k2) with (default_acl k) in D3.
  exists t2. split.
  - eapply same_but_acl_trans; [|exact S4]. eapply same_but_acl_trans; [|exact S3]. by split.
  - by rewrite F4, F3.
  - intros g. rewrite D4, G3. f_equiv. split; [by intros H r ->%list_elem_of_singleton|]. intros H. apply H. by apply list_elem_of_singleton.
  - intros d. rewrite G4, D3. f_equiv. split; [by intros H r ->%list_elem_of_singleton|]. intros H. apply H. by apply list_elem_of_singleton.
  - intros r [[Hr|Hr]%inserted_from|Hr]%inserted_from; [by left|right; left|right; right];
      apply list_elem_of_fmap in Hr as (g & -> & [Hs Hg]%list_elem_of_filter); exists role, g;
      by rewrite list_elem_of_singleton.
  - intros r Hr. by apply inserted_keeps, inserted_keeps.
  - intros r g ->%list_elem_of_singleton Hg Hs.
    assert (key (row_of cluster role g) ∈ key <$> t1) as (y & Hk & Hy)%list_elem_of_fmap.
    { apply inserted_key, list_elem_of_fmap. exists g. split; [done|]. by apply list_elem_of_filter. }
    apply list_elem_of_fmap. exists y. split; [done|]. by apply inserted_keeps.
  - intros r d ->%list_elem_of_singleton Hd Hs. apply inserted_key, list_elem_of_fmap. exists d.
    split; [done|]. by apply list_elem_of_filter.
Qed.

Lemma origin_mono cluster roles roles' k k' r :
  origin cluster roles k' r → (∀ x, x ∈ roles → x ∈ roles') →
  (∀ g, g ∈ rel_acl k' → g ∈ rel_acl k) → (∀ d, d ∈ default_acl k' → d ∈ default_acl k) → origin cluster roles' k r.
Proof.
  intros [(role & g & Hr & Hg & H)|(role & d & Hr & Hd & H)] H1 H2 H3; [left; exists role, g|right; exists role, d]; auto.
Qed.
Lemma key_kept (t t' : list Row) x : x ∈ key <$> t → (∀ r, r ∈ t → r ∈ t') → x ∈ key <$> t'.
Proof. intros (r & -> & Hr)%list_elem_of_fmap H. apply list_elem_of_fmap. eauto. Qed.
Lemma revokes_grantee ss role g : revokes ss role g = true → g_grantee g = role.
Proof. unfold revokes. rewrite !andb_true_iff. by intros [[[[H%bool_decide_eq_true _] _] _] _]. Qed.
Lemma default_revokes_grantee role d : default_revokes role d = true → d_grantee d = role.
Proof. unfold default_revokes. rewrite !andb_true_iff. by intros [[H%bool_decide_eq_true _] _]. Qed.
Lemma snapshotted_grantee role g : snapshotted role g → g_grantee g = role.
Proof. intros H%Is_true_true. unfold snapshotted in H. rewrite !andb_true_iff in H. destruct H as [[[H _] _] _]. by apply bool_decide_eq_true in H. Qed.
Lemma default_snapshotted_grantee role d : default_snapshotted role d → d_grantee d = role.
Proof. intros H%Is_true_true. unfold default_snapshotted in H. rewrite !andb_true_iff in H. destruct H as [[H _] _]. by apply bool_decide_eq_true in H. Qed.

Lemma blocks_spec cluster roles k t :
  fence_table k = Some t → ∃ t', applied cluster roles k (exec_all (concat (block cluster <$> roles)) k) t t'.
Proof.
  revert k t. induction roles as [|role roles IH]; intros k t Ht.
  - exists t. split; [apply same_but_acl_refl|done|..].
    + intros g. split; [|tauto]. intros Hg. split; [done|]. by intros r ?%not_elem_of_nil.
    + intros d. split; [|tauto]. intros Hg. split; [done|]. by intros r ?%not_elem_of_nil.
    + by left.
    + done.
    + by intros r g ?%not_elem_of_nil.
    + by intros r d ?%not_elem_of_nil.
  - destruct (block_spec cluster role k t Ht) as [t1 A1].
    set (k1 := exec_all (block cluster role) k) in *.
    destruct (IH k1 t1 (ap_table _ _ _ _ _ _ A1)) as [t2 A2]. exists t2.
    cbn [fmap list_fmap concat]. unfold exec_all. rewrite foldl_app. fold (exec_all (block cluster role) k). fold k1.
    fold (exec_all (concat (block cluster <$> roles)) k1).
    assert (schemas k1 = schemas k) as Es by apply (same_schemas _ _ (ap_same _ _ _ _ _ _ A1)).
    assert (∀ g, g ∈ rel_acl k1 → g ∈ rel_acl k) as Hrel by (intros g Hg; by apply (ap_rel _ _ _ _ _ _ A1) in Hg as [? _]).
    assert (∀ d, d ∈ default_acl k1 → d ∈ default_acl k) as Hdef by (intros d Hd; by apply (ap_def _ _ _ _ _ _ A1) in Hd as [? _]).
    split.
    + eapply same_but_acl_trans; [apply (ap_same _ _ _ _ _ _ A1)|apply (ap_same _ _ _ _ _ _ A2)].
    + apply (ap_table _ _ _ _ _ _ A2).
    + intros g. rewrite (ap_rel _ _ _ _ _ _ A2), (ap_rel _ _ _ _ _ _ A1), Es. split.
      * intros [[Hg H1] H2]. split; [done|]. intros r [->|Hr]%elem_of_cons; [apply H1; by apply list_elem_of_singleton|by apply H2].
      * intros [Hg H]. split; [split; [done|]|]; intros r Hr; apply H; [apply list_elem_of_singleton in Hr as ->; by left|by right].
    + intros d. rewrite (ap_def _ _ _ _ _ _ A2), (ap_def _ _ _ _ _ _ A1). split.
      * intros [[Hg H1] H2]. split; [done|]. intros r [->|Hr]%elem_of_cons; [apply H1; by apply list_elem_of_singleton|by apply H2].
      * intros [Hg H]. split; [split; [done|]|]; intros r Hr; apply H; [apply list_elem_of_singleton in Hr as ->; by left|by right].
    + intros r [Hr|Ho]%(ap_rows _ _ _ _ _ _ A2).
      * apply (ap_rows _ _ _ _ _ _ A1) in Hr as [Hr|Ho]; [by left|]. right. eapply origin_mono; [exact Ho| |done|done].
        intros x ->%list_elem_of_singleton. by left.
      * right. eapply origin_mono; [exact Ho| |done|done]. intros x Hx. by right.
    + intros r Hr. by apply (ap_kept _ _ _ _ _ _ A2), (ap_kept _ _ _ _ _ _ A1).
    + intros r g Hr Hg Hs. destruct (revokes (schemas k) role g) eqn:Er.
      * pose proof (revokes_grantee _ _ _ Er) as E. rewrite (snapshotted_grantee _ _ Hs) in E. subst r.
        eapply key_kept; [|apply (ap_kept _ _ _ _ _ _ A2)]. apply (ap_rel_key _ _ _ _ _ _ A1); [by apply list_elem_of_singleton|done..].
      * apply elem_of_cons in Hr as [->|Hr].
        -- eapply key_kept; [|apply (ap_kept _ _ _ _ _ _ A2)]. apply (ap_rel_key _ _ _ _ _ _ A1); [by apply list_elem_of_singleton|done..].
        -- apply (ap_rel_key _ _ _ _ _ _ A2); [done| |done]. apply (ap_rel _ _ _ _ _ _ A1). split; [done|]. by intros x ->%list_elem_of_singleton.
    + intros r d Hr Hd Hs. destruct (default_revokes role d) eqn:Er.
      * pose proof (default_revokes_grantee _ _ Er) as E. rewrite (default_snapshotted_grantee _ _ Hs) in E. subst r.
        eapply key_kept; [|apply (ap_kept _ _ _ _ _ _ A2)]. apply (ap_def_key _ _ _ _ _ _ A1); [by apply list_elem_of_singleton|done..].
      * apply elem_of_cons in Hr as [->|Hr].
        -- eapply key_kept; [|apply (ap_kept _ _ _ _ _ _ A2)]. apply (ap_def_key _ _ _ _ _ _ A1); [by apply list_elem_of_singleton|done..].
        -- apply (ap_def_key _ _ _ _ _ _ A2); [done| |done]. apply (ap_def _ _ _ _ _ _ A1). split; [done|]. by intros x ->%list_elem_of_singleton.
Qed.

(** The whole of [apply_sql]: it starts by making the table. *)
Lemma apply_spec cluster roles k :
  ∃ t', applied cluster roles k (exec_all (apply_statements cluster roles) k) (default [] (fence_table k)) t'.
Proof.
  unfold apply_statements. change (λ role : bytes, _) with (block cluster).
  unfold exec_all. rewrite foldl_app. cbn [foldl exec create_table catalog_server].
  set (k0 := set_fence_table (Some (default [] (fence_table k))) k).
  destruct (blocks_spec cluster roles k0 (default [] (fence_table k)) eq_refl) as [t' A]. exists t'.
  destruct A as [[] ? ? ? ? ? ? ?]. by split; [split|..].
Qed.

(** ** What lifting gives back *)
Definition gives (k : Catalog) (r : Row) (g : RelGrant) : Prop :=
  r_grant_kind r ≠ x64 ∧ r_role r ∈ pg_roles k ∧
  ∃ kind, kind_of k (r_schema r) (r_rel r) = Some kind ∧
    g = RelGrant_ (r_schema r) (r_rel r) kind (r_role r) (r_priv r) true false.
Definition default_gives (k : Catalog) (r : Row) (d : DefGrant) : Prop :=
  r_grant_kind r = x64 ∧ r_role r ∈ pg_roles k ∧ r_rel r ∈ pg_roles k ∧
  d = DefGrant_ (r_rel r) (if bool_decide (r_schema r = []) then None else Some (r_schema r))
        (objtype_of (kind_class (r_kind r))) (r_role r) (r_priv r) false.
Definition regrantable (b : bool) (g : RelGrant) : RelGrant :=
  RelGrant_ (g_schema g) (g_rel g) (g_kind g) (g_grantee g) (g_priv g) (g_by_owner g) b.
Definition default_regrantable (b : bool) (d : DefGrant) : DefGrant :=
  DefGrant_ (d_owner d) (d_schema d) (d_objtype d) (d_grantee d) (d_priv d) b.

Record lifted (L : list Row) (k k' : Catalog) : Prop := {
  li_same : same_but_acl k k';
  li_table : fence_table k' = fence_table k;
  li_rel_keep g : g ∈ rel_acl k → g ∈ rel_acl k';
  li_def_keep d : d ∈ default_acl k → d ∈ default_acl k';
  li_rel_from g : g ∈ rel_acl k' → g ∈ rel_acl k ∨ ∃ r, r ∈ L ∧ gives k r g;
  li_def_from d : d ∈ default_acl k' → d ∈ default_acl k ∨ ∃ r, r ∈ L ∧ default_gives k r d;
  li_rel_to r g : r ∈ L → gives k r g → ∃ b, regrantable b g ∈ rel_acl k';
  li_def_to r d : r ∈ L → default_gives k r d → ∃ b, default_regrantable b d ∈ default_acl k';
}.

Lemma granted_spec k r kind :
  kind_of k (r_schema r) (r_rel r) = Some kind →
  let g := RelGrant_ (r_schema r) (r_rel r) kind (r_role r) (r_priv r) true false in
  let k' := granted (r_priv r) (r_schema r) (r_rel r) (r_role r) k in
  same_but_acl k k' ∧ fence_table k' = fence_table k ∧ default_acl k' = default_acl k ∧
  (∀ x, x ∈ rel_acl k → x ∈ rel_acl k') ∧ (∀ x, x ∈ rel_acl k' → x ∈ rel_acl k ∨ x = g) ∧
  ∃ b, regrantable b g ∈ rel_acl k'.
Proof.
  intros Hk g k'. unfold k', granted. rewrite Hk. destruct (existsb _ _) eqn:Ee.
  - apply existsb_exists in Ee as (x & Hx & E%bool_decide_eq_true). split_and!; [done..|by left|].
    exists (g_grantable x). apply list_elem_of_In in Hx. destruct x. cbn in *. injection E as -> -> -> -> -> ->. done.
  - cbn. split_and!; [by split|done|done|intros x Hx; apply elem_of_app; by left| |].
    + intros x [Hx|Hx%list_elem_of_singleton]%elem_of_app; [by left|by right].
    + exists false. apply elem_of_app. right. by apply list_elem_of_singleton.
Qed.
Lemma default_granted_spec k owner schema cls priv role :
  let d := DefGrant_ owner schema (objtype_of cls) role priv false in
  let k' := default_granted owner schema cls priv role k in
  same_but_acl k k' ∧ fence_table k' = fence_table k ∧ rel_acl k' = rel_acl k ∧
  (∀ x, x ∈ default_acl k → x ∈ default_acl k') ∧ (∀ x, x ∈ default_acl k' → x ∈ default_acl k ∨ x = d) ∧
  ∃ b, default_regrantable b d ∈ default_acl k'.
Proof.
  intros d k'. unfold k', default_granted. cbv zeta. fold d. destruct (existsb _ _) eqn:Ee.
  - apply existsb_exists in Ee as (x & Hx & E%bool_decide_eq_true). split_and!; [done..|by left|].
    exists (d_grantable x). apply list_elem_of_In in Hx. destruct x. cbn in *. injection E as -> -> -> -> ->. done.
  - cbn. split_and!; [by split|done|done|intros x Hx; apply elem_of_app; by left| |].
    + intros x [Hx|Hx%list_elem_of_singleton]%elem_of_app; [by left|by right].
    + exists false. apply elem_of_app. right. by apply list_elem_of_singleton.
Qed.

Lemma lift_row_spec k r : lifted [r] k (lift_row k r).
Proof.
  unfold lift_row. cbn [view catalog_server].
  assert (∀ P : Row → Prop, (∃ x, x ∈ [r] ∧ P x) ↔ P r) as Hone
    by (intros P; split; [by intros (x & ->%list_elem_of_singleton & Hx)|intros Hr; exists r; split; [by apply list_elem_of_singleton|done]]).
  destruct (bool_decide (r_role r ∈ pg_roles k)) eqn:Er; cbn [negb]; [apply bool_decide_eq_true in Er|apply bool_decide_eq_false in Er].
  2: { split; try done; try (by left).
       - by intros x g ->%list_elem_of_singleton (_ & ? & _).
       - by intros x d ->%list_elem_of_singleton (_ & ? & _). }
  destruct (bool_decide (r_grant_kind r = x64)) eqn:Eg; [apply bool_decide_eq_true in Eg|apply bool_decide_eq_false in Eg].
  - assert (∀ g, ¬ gives k r g) as Hng by (intros g (? & _); done).
    destruct (bool_decide (r_rel r ∈ pg_roles k)) eqn:Eo; [apply bool_decide_eq_true in Eo|apply bool_decide_eq_false in Eo].
    + destruct (default_granted_spec k (r_rel r) (if bool_decide (r_schema r = []) then None else Some (r_schema r))
        (kind_class (r_kind r)) (r_priv r) (r_role r)) as (S1 & F1 & R1 & K1 & O1 & T1).
      split; cbn [default_grant catalog_server]; [done|done|by rewrite R1|done|rewrite R1; by left|..].
      * intros d [Hd| ->]%O1; [by left|]. right. by apply Hone.
      * intros x g ->%list_elem_of_singleton Hg. by destruct (Hng g).
      * intros x d ->%list_elem_of_singleton (_ & _ & _ & ->). exact T1.
    + split; try done; try (by left).
      * intros x g ->%list_elem_of_singleton Hg. by destruct (Hng g).
      * by intros x d ->%list_elem_of_singleton (_ & _ & ? & _).
  - assert (∀ d, ¬ default_gives k r d) as Hnd by (intros d (? & _); done).
    destruct (kind_of k (r_schema r) (r_rel r)) as [kind|] eqn:Ek; cbn [bool_decide].
    + rewrite bool_decide_true by by eexists.
      destruct (granted_spec k r kind Ek) as (S1 & F1 & D1 & K1 & O1 & T1).
      split; cbn [grant catalog_server]; [done|done|done|by rewrite D1| |rewrite D1; by left|..].
      * intros g [Hg| ->]%O1; [by left|]. right. apply Hone. split_and!; [done|done|]. by exists kind.
      * intros x g ->%list_elem_of_singleton (_ & _ & kind' & E & ->). rewrite Ek in E. injection E as <-. exact T1.
      * intros x d ->%list_elem_of_singleton Hd. by destruct (Hnd d).
    + rewrite bool_decide_false by by intros [? ?].
      split; try done; try (by left).
      * intros x g ->%list_elem_of_singleton (_ & _ & kind' & E & _). by rewrite Ek in E.
      * intros x d ->%list_elem_of_singleton Hd. by destruct (Hnd d).
Qed.

Lemma gives_same k k' r g : same_but_acl k k' → gives k r g → gives k' r g.
Proof.
  intros [_ Hr Hp _] (H1 & H2 & kind & H3 & ->). split_and!; [done|by rewrite Hp|]. exists kind. unfold kind_of in *. by rewrite Hr.
Qed.
Lemma default_gives_same k k' r d : same_but_acl k k' → default_gives k r d → default_gives k' r d.
Proof. intros [_ _ Hp _] (H1 & H2 & H3 & ->). split_and!; [done|by rewrite Hp|by rewrite Hp|done]. Qed.
Lemma same_but_acl_sym k k' : same_but_acl k k' → same_but_acl k' k.
Proof. intros []. by split. Qed.

Lemma lift_loop_spec L k : lifted L k (foldl lift_row k L).
Proof.
  revert k. induction L as [|r L IH]; intros k; cbn [foldl].
  - split; try done; try (by left); by intros ? ? ?%not_elem_of_nil.
  - pose proof (lift_row_spec k r) as A. pose proof (IH (lift_row k r)) as B.
    pose proof (li_same _ _ _ A) as SA. pose proof (same_but_acl_sym _ _ SA) as SA'. split.
    + eapply same_but_acl_trans; [exact SA|apply (li_same _ _ _ B)].
    + by rewrite (li_table _ _ _ B), (li_table _ _ _ A).
    + intros g Hg. by apply (li_rel_keep _ _ _ B), (li_rel_keep _ _ _ A).
    + intros d Hd. by apply (li_def_keep _ _ _ B), (li_def_keep _ _ _ A).
    + intros g [Hg|(x & Hx & Hg)]%(li_rel_from _ _ _ B).
      * apply (li_rel_from _ _ _ A) in Hg as [Hg|(x & ->%list_elem_of_singleton & Hg)]; [by left|]. right. exists r. split; [by left|done].
      * right. exists x. split; [by right|]. by eapply gives_same.
    + intros d [Hd|(x & Hx & Hd)]%(li_def_from _ _ _ B).
      * apply (li_def_from _ _ _ A) in Hd as [Hd|(x & ->%list_elem_of_singleton & Hd)]; [by left|]. right. exists r. split; [by left|done].
      * right. exists x. split; [by right|]. by eapply default_gives_same.
    + intros x g [->|Hx]%elem_of_cons Hg.
      * destruct (li_rel_to _ _ _ A r g) as [b Hb]; [by apply list_elem_of_singleton|done|]. exists b. by apply (li_rel_keep _ _ _ B).
      * apply (li_rel_to _ _ _ B x g Hx). by eapply gives_same.
    + intros x d [->|Hx]%elem_of_cons Hd.
      * destruct (li_def_to _ _ _ A r d) as [b Hb]; [by apply list_elem_of_singleton|done|]. exists b. by apply (li_def_keep _ _ _ B).
      * apply (li_def_to _ _ _ B x d Hx). by eapply default_gives_same.
Qed.

(** ** The round trip *)

(** What PostgreSQL keeps of its catalogs: grants name roles, schemas and relations
    that exist, and privileges their kind of object has. *)
Definition fits (kind : byte) (priv : bytes) : Prop :=
  if bool_decide (kind = x53) then priv ∉ [lit "INSERT"; lit "DELETE"; lit "TRUNCATE"] else priv ≠ lit "USAGE".
Record sound (k : Catalog) : Prop := {
  so_rel g : g ∈ rel_acl k → g_grantee g ∈ pg_roles k ∧ g_schema g ∈ schemas k ∧
    kind_of k (g_schema g) (g_rel g) = Some (g_kind g) ∧ fits (g_kind g) (g_priv g);
  so_def d : d ∈ default_acl k → d_grantee d ∈ pg_roles k ∧ d_owner d ∈ pg_roles k ∧ d_schema d ≠ Some [] ∧
    fits (d_objtype d) (d_priv d);
}.
(** What the fence can give back of the roles' write grants: the owners' own, without
    grant option, none on a materialized view, and no default privilege held on both
    tables and sequences. *)
Record liftable (roles : list bytes) (k : Catalog) : Prop := {
  lf_rel g : g ∈ rel_acl k → g_grantee g ∈ roles → fenced_privilege (g_priv g) = true →
    g_by_owner g = true ∧ g_grantable g = false ∧ g_kind g ≠ x6d;
  lf_def d : d ∈ default_acl k → d_grantee d ∈ roles → fenced_privilege (d_priv d) = true → d_grantable d = false;
  lf_one d1 d2 : d1 ∈ default_acl k → d2 ∈ default_acl k → d_grantee d1 ∈ roles → d_grantee d2 = d_grantee d1 →
    d_owner d2 = d_owner d1 → d_schema d2 = d_schema d1 → d_priv d2 = d_priv d1 →
    default_kind (d_objtype d1) = true → default_kind (d_objtype d2) = true → d_objtype d2 = d_objtype d1;
}.

Lemma fenced_of priv l : l = WRITES ∨ l = SEQUENCE_USE → bool_decide (priv ∈ l) = true → fenced_privilege priv = true.
Proof.
  intros Hl H%bool_decide_eq_true. unfold fenced_privilege. apply bool_decide_eq_true.
  destruct Hl as [-> | ->]; unfold WRITES, SEQUENCE_USE in *; set_solver.
Qed.
Lemma revoked_is_snapshotted ss role g :
  revokes ss role g = true → g_kind g ≠ x6d → snapshotted role g.
Proof.
  unfold revokes, snapshotted. rewrite !andb_true_iff. intros [[[[H1 _] H3] _] H5] Hm. apply Is_true_true.
  rewrite H1, H3. apply orb_true_iff in H5 as [[Hk Hp]%andb_true_iff|[Hk Hp]%andb_true_iff].
  - rewrite (fenced_of _ WRITES) by auto. cbn. apply bool_decide_eq_true in Hk. rewrite !andb_true_r. apply bool_decide_eq_true. set_solver.
  - rewrite (fenced_of _ SEQUENCE_USE) by auto. cbn. apply bool_decide_eq_true in Hk. rewrite !andb_true_r. apply bool_decide_eq_true. set_solver.
Qed.
Lemma default_revoked_is_snapshotted role d : default_revokes role d = true → default_snapshotted role d.
Proof.
  unfold default_revokes, default_snapshotted. rewrite !andb_true_iff. intros [[H1 H2] H3]. apply Is_true_true. rewrite H1, H2. cbn.
  destruct (kind_class (d_objtype d)); [apply (fenced_of _ WRITES)|apply (fenced_of _ SEQUENCE_USE)]; auto.
Qed.
Lemma snapshotted_fenced role g : snapshotted role g → fenced_privilege (g_priv g) = true.
Proof. intros H%Is_true_true. unfold snapshotted in H. rewrite !andb_true_iff in H. tauto. Qed.
Lemma default_snapshotted_fenced role d : default_snapshotted role d → fenced_privilege (d_priv d) = true ∧ default_kind (d_objtype d) = true.
Proof. intros H%Is_true_true. unfold default_snapshotted in H. rewrite !andb_true_iff in H. tauto. Qed.

Section RoundTrip.
Context (cluster : bytes) (roles : list bytes) (k0 k1 k2 : Catalog) (t t' : list Row).
Context (Hsound : sound k0) (Hlift : liftable roles k0) (Hfresh : ∀ r, r ∈ t → r_cluster r ≠ cluster).
Context (A : applied cluster roles k0 k1 t t') (L : lifted (filter (λ r, r_cluster r = cluster) t') k1 k2).

Lemma recorded_origin r : r ∈ filter (λ r, r_cluster r = cluster) t' → origin cluster roles k0 r.
Proof. intros [Hc [Hr|Ho]%(ap_rows _ _ _ _ _ _ A)]%list_elem_of_filter; [|done]. by destruct (Hfresh r). Qed.
Lemma with_key x : x ∈ key <$> t' → x.1.1.1.1.1 = cluster → ∃ r, key r = x ∧ r ∈ filter (λ r, r_cluster r = cluster) t'.
Proof. intros (r & -> & Hr)%list_elem_of_fmap Hc. exists r. split; [done|]. by apply list_elem_of_filter. Qed.

(** A row gives back only what it was written of. *)
Lemma gives_origin r g : r ∈ filter (λ r, r_cluster r = cluster) t' → gives k1 r g → g ∈ rel_acl k0.
Proof.
  intros Hr (Hd & _ & kind & Hk & ->). apply recorded_origin in Hr as [(role & g & Hrole & Hg & Hs & ->)|(role & d & _ & _ & _ & ->)]; [|done].
  cbn in *. destruct (so_rel _ Hsound g Hg) as (_ & _ & Hkind & _).
  unfold kind_of in Hk, Hkind. rewrite (same_relations _ _ (ap_same _ _ _ _ _ _ A)), Hkind in Hk. injection Hk as <-.
  pose proof (snapshotted_grantee _ _ Hs) as <-.
  destruct (lf_rel _ _ Hlift g Hg Hrole (snapshotted_fenced _ _ Hs)) as (Ho & Hgr & _). destruct g. cbn in *. by subst.
Qed.
Lemma default_gives_origin r d : r ∈ filter (λ r, r_cluster r = cluster) t' → default_gives k1 r d → d ∈ default_acl k0.
Proof.
  intros Hr (Hd & _ & _ & ->). apply recorded_origin in Hr as [(role & g & _ & _ & _ & ->)|(role & d & Hrole & Hdd & Hs & ->)]; [done|].
  cbn in *. destruct (so_def _ Hsound d Hdd) as (_ & _ & Hne & _). pose proof (default_snapshotted_grantee _ _ Hs) as <-.
  destruct (default_snapshotted_fenced _ _ Hs) as [Hf Hk]. rewrite (default_kind_class _ Hk).
  pose proof (lf_def _ _ Hlift d Hdd Hrole Hf) as Hg.
  assert ((if bool_decide (default [] (d_schema d) = []) then None else Some (default [] (d_schema d))) = d_schema d) as ->
    by (destruct (d_schema d) as [[|b s]|]; done).
  destruct d. cbn in *. by subst.
Qed.

Lemma restored_rel g : g ∈ rel_acl k2 ↔ g ∈ rel_acl k0.
Proof.
  split.
  - intros [[Hg _]%(ap_rel _ _ _ _ _ _ A)|(r & Hr & Hg)]%(li_rel_from _ _ _ L); [done|]. by eapply gives_origin.
  - intros Hg. destruct (so_rel _ Hsound g Hg) as (Hrole & Hsch & Hkind & _).
    destruct (decide (Exists (λ role, revokes (schemas k0) role g = true) roles)) as [(role & Hin & Hrev)%Exists_exists|Hno].
    2: { apply (li_rel_keep _ _ _ L), (ap_rel _ _ _ _ _ _ A). split; [done|]. intros role Hin. apply not_true_iff_false. intros E. apply Hno, Exists_exists. eauto. }
    pose proof (revokes_grantee _ _ _ Hrev) as Eg. subst role.
    assert (fenced_privilege (g_priv g) = true) as Hf.
    { unfold revokes in Hrev. rewrite !andb_true_iff, orb_true_iff, !andb_true_iff in Hrev.
      destruct Hrev as [_ [[_ Hp]|[_ Hp]]]; [apply (fenced_of _ WRITES)|apply (fenced_of _ SEQUENCE_USE)]; auto. }
    destruct (lf_rel _ _ Hlift g Hg Hin Hf) as (Ho & Hgr & Hm).
    pose proof (ap_rel_key _ _ _ _ _ _ A (g_grantee g) g Hin Hg (revoked_is_snapshotted _ _ _ Hrev Hm)) as Hkey.
    apply with_key in Hkey as (r & Er & Hr); [|done]. injection Er as E1 E2 E3 E4 E5 E6. cbn in *.
    destruct (li_rel_to _ _ _ L r g Hr) as [b Hb].
    { split_and!; [by rewrite E6|by rewrite E2, (same_roles_ _ _ (ap_same _ _ _ _ _ _ A))|].
      exists (g_kind g). unfold kind_of in *. rewrite E3, E4, E5, E2, (same_relations _ _ (ap_same _ _ _ _ _ _ A)). split; [done|].
      destruct g. cbn in *. by subst. }
    destruct b; [|destruct g; cbn in *; by subst].
    exfalso. assert (regrantable true g ∈ rel_acl k0) as Hb0.
    { apply (li_rel_from _ _ _ L) in Hb as [[Hb _]%(ap_rel _ _ _ _ _ _ A)|(r' & Hr' & Hb)]; [done|]. by eapply gives_origin. }
    by destruct (lf_rel _ _ Hlift _ Hb0 Hin Hf) as (_ & E & _).
Qed.

Lemma restored_def d : d ∈ default_acl k2 ↔ d ∈ default_acl k0.
Proof.
  split.
  - intros [[Hd _]%(ap_def _ _ _ _ _ _ A)|(r & Hr & Hd)]%(li_def_from _ _ _ L); [done|]. by eapply default_gives_origin.
  - intros Hd. destruct (so_def _ Hsound d Hd) as (Hrole & Hown & Hne & _).
    destruct (decide (Exists (λ role, default_revokes role d = true) roles)) as [(role & Hin & Hrev)%Exists_exists|Hno].
    2: { apply (li_def_keep _ _ _ L), (ap_def _ _ _ _ _ _ A). split; [done|]. intros role Hin. apply not_true_iff_false. intros E. apply Hno, Exists_exists. eauto. }
    pose proof (default_revokes_grantee _ _ Hrev) as Eg. subst role. pose proof (default_revoked_is_snapshotted _ _ Hrev) as Hs.
    destruct (default_snapshotted_fenced _ _ Hs) as [Hf Hk].
    pose proof (ap_def_key _ _ _ _ _ _ A (d_grantee d) d Hin Hd Hs) as Hkey.
    apply with_key in Hkey as (r & Er & Hr); [|done]. pose proof (recorded_origin r Hr) as [(role & g & _ & _ & _ & ->)|(role & d' & Hin' & Hd' & Hs' & ->)]; [discriminate Er|].
    pose proof (default_snapshotted_grantee _ _ Hs') as <-. destruct (so_def _ Hsound d' Hd') as (_ & _ & Hne' & _).
    injection Er as E2 E3 E4 E5. destruct (default_snapshotted_fenced _ _ Hs') as [_ Hk'].
    assert (d_schema d' = d_schema d) as Esch by (destruct (d_schema d') as [[|]|], (d_schema d) as [[|]|]; cbn in E3; congruence).
    pose proof (lf_one _ _ Hlift d d' Hd Hd' Hin E2 E4 Esch E5 Hk Hk') as Eo.
    destruct (li_def_to _ _ _ L _ d Hr) as [b Hb].
    { split_and!; cbn; [done|by rewrite E2, (same_roles_ _ _ (ap_same _ _ _ _ _ _ A))|by rewrite E4, (same_roles_ _ _ (ap_same _ _ _ _ _ _ A))|].
      rewrite Esch, E2, E4, E5, Eo, (default_kind_class _ Hk). pose proof (lf_def _ _ Hlift d Hd Hin Hf) as Hg.
      destruct d as [ow [[|b s]|] ? ? ? ?]; cbn in *; by subst. }
    destruct b; [|pose proof (lf_def _ _ Hlift d Hd Hin Hf) as Hg; destruct d; cbn in *; by subst].
    exfalso. assert (default_regrantable true d ∈ default_acl k0) as Hb0.
    { apply (li_def_from _ _ _ L) in Hb as [[Hb _]%(ap_def _ _ _ _ _ _ A)|(r' & Hr' & Hb)]; [done|]. by eapply default_gives_origin. }
    by pose proof (lf_def _ _ Hlift _ Hb0 Hin Hf).
Qed.
End RoundTrip.

(** ** Properties *)
Definition rows_of (k : Catalog) : list Row := default [] (fence_table k).

Lemma has_recorded_false cluster k : has_recorded cluster k = false ↔ ∀ r, r ∈ rows_of k → r_cluster r ≠ cluster.
Proof.
  unfold has_recorded. rewrite <-not_true_iff_false, existsb_exists. split.
  - intros H r Hr E. apply H. exists r. split; [by apply list_elem_of_In|by apply bool_decide_eq_true].
  - intros H (r & Hr%list_elem_of_In & E%bool_decide_eq_true). by apply (H r).
Qed.

(** C4. Lifting the fence gives back what fencing took: fence any roles, then lift, and
    the server's grants and default grants are the same set again and this cluster's
    record is empty; for a catalog PostgreSQL keeps sound, a cluster with no record yet,
    and roles whose write grants the record can hold: the owners' own, without grant
    option, none on a materialized view, and no default privilege held on both tables
    and sequences. *)
Theorem lifting_restores_what_the_fence_revoked {Cat} `{Server Cat} cluster roles (c : Cat) :
  sound (view c) → liftable roles (view c) → has_recorded cluster (view c) = false →
  let k := view (exec_all (lift_statements cluster) (exec_all (apply_statements cluster roles) c)) in
  (∀ g, g ∈ rel_acl k ↔ g ∈ rel_acl (view c)) ∧
  (∀ d, d ∈ default_acl k ↔ d ∈ default_acl (view c)) ∧
  has_recorded cluster k = false.
Proof.
  intros Hs Hl Hr. cbv zeta. rewrite !view_exec_all. set (k0 := view c) in *.
  destruct (apply_spec cluster roles k0) as [t' A]. set (k1 := exec_all (apply_statements cluster roles) k0) in *.
  cbn [lift_statements exec_all foldl exec view catalog_server]. rewrite (ap_table _ _ _ _ _ _ A).
  pose proof (lift_loop_spec (filter (λ r, r_cluster r = cluster) t') k1) as L. cbn [default].
  set (k2 := foldl lift_row k1 _) in *. rewrite has_recorded_false in Hr.
  split_and!.
  - intros g. exact (restored_rel _ _ _ _ _ _ _ Hs Hl Hr A L g).
  - intros d. exact (restored_def _ _ _ _ _ _ _ Hs Hl Hr A L d).
  - apply has_recorded_false. unfold rows_of. cbn. intros r. rewrite (li_table _ _ _ L), (ap_table _ _ _ _ _ _ A). cbn.
    by intros [? _]%list_elem_of_filter.
Qed.

(** ** What the record cannot hold *)

(** The key of a row leaves its kind out, so of a default privilege held on tables and
    on sequences only one is recorded: both are revoked and one comes back. *)
Definition app : bytes := lit "app".
Definition defaults_catalog (kinds : list byte) : Catalog :=
  Catalog_ [lit "public"] [] [app; lit "owner"] [] []
    ((λ kind, DefGrant_ (lit "owner") None kind app (lit "UPDATE") false) <$> kinds) None false.
Definition fenced_and_lifted (k : Catalog) : Catalog :=
  exec_all (lift_statements (lit "blue")) (exec_all (apply_statements (lit "blue") [app]) k).
Lemma a_default_on_both_kinds_comes_back_on_one :
  default_acl (fenced_and_lifted (defaults_catalog [x72; x53])) =
    [DefGrant_ (lit "owner") None x72 app (lit "UPDATE") false] ∧
  default_acl (fenced_and_lifted (defaults_catalog [x72])) = default_acl (defaults_catalog [x72]).
Proof. split; vm_compute; reflexivity. Qed.

(** A privilege on a column is not seen, recorded or given back: a role that writes
    through one alone stays unfenced, and one fenced for another grant loses it. *)
Definition column_catalog (acl : list RelGrant) : Catalog :=
  Catalog_ [lit "public"] [(lit "public", lit "t", x72)] [app; lit "owner"] acl
    [ColumnGrant_ (lit "public") (lit "t") app (lit "UPDATE")] [] None false.
Lemma a_column_grant_escapes_the_fence :
  has_revocable [app] (column_catalog []) = false ∧ column_acl (column_catalog []) ≠ [] ∧
  column_acl (fenced_and_lifted (column_catalog [])) = [].
Proof. split; [by vm_compute|]. split; [done|by vm_compute]. Qed.

(** A grant made by another role is not the owner's to revoke: it stays, and keeps the
    fence from ever reading as in force. *)
Definition foreign_grant : RelGrant :=
  RelGrant_ (lit "public") (lit "t") x72 app (lit "INSERT") false false.
Lemma a_foreign_grant_survives_the_fence :
  has_revocable [app] (exec_all (apply_statements (lit "blue") [app])
    (Catalog_ [lit "public"] [(lit "public", lit "t", x72)] [app] [foreign_grant] [] [] None false)) = true.
Proof. by vm_compute. Qed.

(** [LIKE 'pg_temp%'] takes its underscore for any character: a schema of that shape is
    no user schema, and its grants are left standing. *)
Lemma a_schema_may_pass_for_temporary :
  user_schema (lit "pgatemplates") = false ∧ user_schema (lit "pg_temp_3") = false ∧ user_schema (lit "public") = true.
Proof. by vm_compute. Qed.

(** Witness: a table and a sequence grant, and a default. *)
Definition granted_catalog : Catalog :=
  Catalog_ [lit "public"; lit "pg_catalog"] [(lit "public", lit "t", x72); (lit "public", lit "s", x53)]
    [app; lit "owner"]
    [RelGrant_ (lit "public") (lit "t") x72 app (lit "INSERT") true false;
     RelGrant_ (lit "public") (lit "s") x53 app (lit "USAGE") true false;
     RelGrant_ (lit "public") (lit "t") x72 app (lit "SELECT") true false] []
    [DefGrant_ (lit "owner") (Some (lit "public")) x72 app (lit "INSERT") false] None false.
Lemma granted_catalog_sound : sound granted_catalog.
Proof.
  split.
  - intros g Hg. repeat (apply elem_of_cons in Hg as [->|Hg]; [by repeat split; try (apply (bool_decide_unpack _); vm_compute)|]).
    by apply not_elem_of_nil in Hg.
  - intros d Hd. repeat (apply elem_of_cons in Hd as [->|Hd]; [by repeat split; try (apply (bool_decide_unpack _); vm_compute)|]).
    by apply not_elem_of_nil in Hd.
Qed.
Lemma granted_catalog_liftable : liftable [app] granted_catalog.
Proof.
  split.
  - intros g Hg _ Hf. repeat (apply elem_of_cons in Hg as [->|Hg]; [by vm_compute in Hf || by repeat split|]).
    by apply not_elem_of_nil in Hg.
  - intros d Hd%list_elem_of_singleton _ _. by subst.
  - by intros d1 d2 ->%list_elem_of_singleton ->%list_elem_of_singleton.
Qed.
Lemma lifting_restores_what_the_fence_revoked_witness :
  has_revocable [app] granted_catalog = true ∧
  has_revocable [app] (exec_all (apply_statements (lit "blue") [app]) granted_catalog) = false ∧
  ∀ g, g ∈ rel_acl (fenced_and_lifted granted_catalog) ↔ g ∈ rel_acl granted_catalog.
Proof.
  split; [vm_compute; reflexivity|]. split; [vm_compute; reflexivity|].
  exact (proj1 (lifting_restores_what_the_fence_revoked (lit "blue") [app] granted_catalog
    granted_catalog_sound granted_catalog_liftable eq_refl)).
Defined.

(** ** The leveller *)

(** Every write grant of the roles is its owner's. *)
Definition owners_own (roles : list bytes) (k : Catalog) : Prop :=
  ∀ g, g ∈ rel_acl k → g_grantee g ∈ roles → fenced_privilege (g_priv g) = true → g_by_owner g = true.

Lemma snapshot_hits kind priv :
  snapshot_kind kind = true → fenced_privilege priv = true → fits kind priv →
  in_class Tables kind && bool_decide (priv ∈ WRITES) || in_class Sequences kind && bool_decide (priv ∈ SEQUENCE_USE) = true.
Proof.
  unfold snapshot_kind, fenced_privilege, fits, in_class, WRITES, SEQUENCE_USE.
  intros Hk%bool_decide_eq_true Hp%bool_decide_eq_true Hf. apply orb_true_iff. rewrite !andb_true_iff, !bool_decide_eq_true.
  case_bool_decide as E; [right|left]; set_solver.
Qed.
Lemma default_hits kind priv :
  default_kind kind = true → fenced_privilege priv = true → fits kind priv →
  bool_decide (priv ∈ match kind_class kind with Sequences => SEQUENCE_USE | Tables => WRITES end) = true.
Proof.
  unfold fenced_privilege, fits, kind_class, WRITES, SEQUENCE_USE.
  intros _ Hp%bool_decide_eq_true Hf. apply bool_decide_eq_true. case_bool_decide; set_solver.
Qed.

(** Fencing settles: whatever it found, no write grant of the roles is left. *)
Lemma applied_leaves_nothing cluster roles k k' t t' :
  sound k → owners_own roles k → applied cluster roles k k' t t' → has_revocable roles k' = false.
Proof.
  intros Hs Ho A. unfold has_revocable. apply andb_false_iff. right. apply orb_false_iff.
  split; apply not_true_iff_false; intros (x & Hx%list_elem_of_In & E)%existsb_exists; rewrite !andb_true_iff in E.
  - destruct E as [[[Hr%bool_decide_eq_true Hk] Hp] Hu]. apply (ap_rel _ _ _ _ _ _ A) in Hx as [Hx Hn].
    destruct (so_rel _ Hs x Hx) as (_ & Hsch & _ & Hf). specialize (Hn _ Hr). unfold revokes in Hn.
    rewrite !bool_decide_true, (Ho x Hx Hr Hp), Hu in Hn by done. cbn [andb] in Hn.
    by rewrite snapshot_hits in Hn.
  - destruct E as [[Hr%bool_decide_eq_true Hk] Hp]. apply (ap_def _ _ _ _ _ _ A) in Hx as [Hx Hn].
    destruct (so_def _ Hs x Hx) as (_ & _ & _ & Hf). specialize (Hn _ Hr). unfold default_revokes in Hn.
    rewrite bool_decide_true, Hk in Hn by done. cbn [andb] in Hn. by rewrite default_hits in Hn.
Qed.
Lemma applied_sound cluster roles k k' t t' : sound k → applied cluster roles k k' t t' → sound k'.
Proof.
  intros [H1 H2] A. destruct (ap_same _ _ _ _ _ _ A) as [E1 E2 E3 _]. split.
  - intros g [Hg _]%(ap_rel _ _ _ _ _ _ A). unfold kind_of. rewrite E1, E2, E3. by apply H1.
  - intros d [Hd _]%(ap_def _ _ _ _ _ _ A). rewrite E3. by apply H2.
Qed.

Section Level.
Context {Cat : Type} `{Server Cat} (primary : bool).

Definition bool_text (b : bool) : bytes := if b then lit "true" else lit "false".
(** The row [observe] selects, from what holds. *)
Definition facts (roles : list bytes) (prepared : bool) (k : Catalog) : bytes :=
  bool_text primary ++ lit "|" ++ bool_text (ddl_trigger k) ++ lit "|" ++
  bool_text (bool_decide (is_Some (fence_table k))) ++ lit "|" ++ bool_text (has_revocable roles k) ++
  lit "|" ++ bool_text prepared.

(** What a request may leave and answer: a read tells the truth or fails; a
    transaction's success is its effect, once or, retried, twice; its failure leaves
    any of these. *)
Definition fence_step (c : Cat) (ev : event LevelAnswer) (c' : Cat) : Prop :=
  match ev with
  | existT (OfHandoff (ExecuteSql (FenceFactsSql roles))) r =>
      c' = c ∧ ∀ raw, r = Ok raw → ∃ prepared, raw = facts roles prepared (view c)
  | existT (OfHandoff (ExecuteSql (SnapshotRowsSql cluster))) r =>
      c' = c ∧ ∀ raw, r = Ok raw → raw = bool_text (has_recorded cluster (view c))
  | existT (OfHandoff _) _ => c' = c
  | existT (Transaction ss) r =>
      c' = exec_all ss c ∨ c' = exec_all ss (exec_all ss c) ∨ (r ≠ Ok tt ∧ c' = c)
  | existT DropTrigger r => c' = drop_trigger c ∨ (r ≠ Ok tt ∧ c' = c)
  end.

Lemma split_facts roles prepared k :
  split_on "|"%byte (trim (facts roles prepared k)) =
    [bool_text primary; bool_text (ddl_trigger k); bool_text (bool_decide (is_Some (fence_table k)));
     bool_text (has_revocable roles k); bool_text prepared].
Proof.
  unfold facts. generalize (ddl_trigger k), (bool_decide (is_Some (fence_table k))), (has_revocable roles k).
  intros f t g. by destruct primary, f, t, g, prepared; vm_compute.
Qed.
Lemma parse_bool_text b : parse_pg_bool (bool_text b) = Ok b.
Proof. by destruct b; vm_compute. Qed.

(** [observe] reports the catalog and changes nothing. *)
Lemma observe_true roles cluster c t r c' :
  runs (embed OfHandoff (λ _ r, r) (observe roles cluster)) t r → steps fence_step c t c' →
  c' = c ∧ ∀ o, r = Ok o → is_primary o = primary ∧ freeze_installed o = ddl_trigger (view c) ∧
    revocable (grants o) = has_revocable roles (view c) ∧ recorded (grants o) = has_recorded cluster (view c).
Proof.
  unfold observe, sql. destruct (quoted_role_list roles) as [[]|e]; cbn [lift_pure try_bind bind embed Effects.ask].
  2: { intros [-> ->] ->. done. }
  intros (raw & t1 & -> & Hr) (c1 & [-> Hraw] & Hs). destruct raw as [raw|e]; cbn [bind try_bind embed] in Hr.
  2: { destruct Hr as [-> ->]. cbn in Hs. by subst. }
  destruct (Hraw raw eq_refl) as [prepared ->]. rewrite split_facts in Hr. cbn [lift_pure try_bind bind] in Hr.
  rewrite parse_bool_text in Hr.
  assert (bool_decide (is_Some (fence_table (view c))) = false → has_recorded cluster (view c) = false) as Htab.
  { intros Et%bool_decide_eq_false. unfold has_recorded. destruct (fence_table (view c)); [|done]. destruct Et. by eexists. }
  destruct (bool_decide (is_Some (fence_table (view c)))); cbn [bind try_bind embed Effects.ask lift_pure] in Hr.
  - destruct Hr as (raw & t2 & -> & Hr), Hs as (c2 & [-> Hraw2] & Hs).
    destruct raw as [raw|e]; cbn [bind try_bind embed lift_pure] in Hr.
    2: { destruct Hr as [-> ->]. cbn in Hs. by subst. }
    rewrite (Hraw2 raw eq_refl), parse_bool_text in Hr. cbn [bind try_bind embed lift_pure] in Hr.
    rewrite !parse_bool_text in Hr. destruct Hr as [-> ->]. cbn in Hs. subst. split; [done|]. by intros o [= <-].
  - rewrite !parse_bool_text in Hr. destruct Hr as [-> ->]. cbn in Hs. subst. split; [done|]. intros o [= <-].
    split_and!; [done..|]. cbn. by rewrite Htab.
Qed.

Lemma lift_settles cluster k :
  let k' := exec_all (lift_statements cluster) k in
  has_recorded cluster k' = false ∧ ddl_trigger k' = ddl_trigger k.
Proof.
  pose proof (lift_loop_spec (filter (λ r, r_cluster r = cluster) (rows_of k)) k) as L.
  unfold lift_statements, exec_all. cbn [foldl exec view delete_rows catalog_server].
  fold (rows_of k). set (k1 := foldl lift_row k _) in *. split; [|apply (same_trigger _ _ (li_same _ _ _ L))].
  apply has_recorded_false. unfold rows_of. cbn. intros r. destruct (fence_table k1); cbn; [|by intros ?%not_elem_of_nil].
  by intros [? _]%list_elem_of_filter.
Qed.
Lemma apply_settles cluster roles k :
  sound k → owners_own roles k →
  let k' := exec_all (apply_statements cluster roles) k in
  has_revocable roles k' = false ∧ ddl_trigger k' = ddl_trigger k ∧ sound k' ∧ owners_own roles k'.
Proof.
  intros Hs Ho. cbv zeta. destruct (apply_spec cluster roles k) as [t' A]. split_and!.
  - by eapply applied_leaves_nothing.
  - apply (same_trigger _ _ (ap_same _ _ _ _ _ _ A)).
  - by eapply applied_sound.
  - intros g [Hg _]%(ap_rel _ _ _ _ _ _ A). by apply Ho.
Qed.

(** A transaction that succeeded has run, once or twice. *)
Lemma ran_once_or_twice c ss r t c' :
  steps fence_step c (answered (Transaction ss) r :: t) c' → r = Ok tt → t = [] →
  c' = exec_all ss c ∨ c' = exec_all ss (exec_all ss c).
Proof. intros (c1 & [->|[->|[? ->]]] & Hs) -> ->; cbn in Hs; subst; auto. done. Qed.

(** The freeze step leaves the trigger as wanted and nothing else changed. *)
Lemma freeze_levels want c t c' :
  runs (if want && negb (ddl_trigger (view c)) then install_ddl_freeze
        else if negb want && ddl_trigger (view c) then remove_ddl_freeze else Ret (Ok tt)) t (Ok tt) →
  steps fence_step c t c' → view c' = set_ddl_trigger want (view c).
Proof.
  assert (∀ b, ddl_trigger (view c) = b → view c = set_ddl_trigger b (view c)) as Heta by (intros b <-; by destruct (view c)).
  destruct want, (ddl_trigger (view c)) eqn:Et; cbn [andb negb].
  - intros [-> _] ->. by apply Heta.
  - intros (r & t' & -> & Hr) Hs. destruct r as [[]|e]; destruct Hr as [-> Hr]; [|discriminate Hr].
    destruct (ran_once_or_twice _ _ _ _ _ Hs) as [-> | ->]; try done; by rewrite !view_exec_all.
  - intros (r & t' & -> & Hr) (c1 & Hst & Hs). destruct r as [[]|e]; destruct Hr as [-> Hr]; [|discriminate Hr].
    cbn in Hs. subst. destruct Hst as [->|[? _]]; [|done]. apply view_drop_trigger.
  - intros [-> _] ->. by apply Heta.
Qed.

(** The state the leveller aims at. *)
Definition settled_for (wanted : WantedClientFence) (cluster : bytes) (k : Catalog) : Prop :=
  ddl_trigger k = ddl_should_freeze (wanted_phase wanted) ∧
  fence_action (wanted_fenced wanted)
    (FenceGrants_ (has_revocable (wanted_roles wanted) k) (has_recorded cluster k)) = FenceNone.
Definition reads_only (t : list (event LevelAnswer)) : Prop :=
  Forall (λ ev, match projT1 ev with OfHandoff _ => True | _ => False end) t.

Lemma observing_reads {A} (p : prog Handoff.Answer A) t a :
  runs (embed OfHandoff (λ _ r, r) p) t a → reads_only t.
Proof.
  intros Hr. destruct (embed_runs (R2 := LevelAnswer) OfHandoff (λ _ r, r) (λ _ r, r) p t a) as (t1 & -> & _); [done..|].
  apply Forall_forall. intros ev (x & -> & _)%list_elem_of_fmap. done.
Qed.
End Level.

(** C5. One pass of the leveller that succeeds is enough, against a sound catalog
    whose write grants to the wanted roles are the owners' own (a grant another role
    made is not revoked: [a_foreign_grant_survives_the_fence]): on a primary it leaves
    the DDL trigger exactly as the committed phase wants it and nothing more for the
    fence to do, though a transaction may have run twice; on a standby it writes
    nothing; and where nothing was to do it writes nothing. *)
Theorem a_pass_levels_the_fence {Cat} `{Server Cat} primary wanted cluster t (c c' : Cat) :
  sound (view c) → owners_own (wanted_roles wanted) (view c) →
  runs (level_client_fence wanted cluster) t (Ok tt) → steps (fence_step primary) c t c' →
  (primary = true → settled_for wanted cluster (view c')) ∧
  (primary = false ∨ settled_for wanted cluster (view c) → c' = c ∧ reads_only t).
Proof.
  intros Hs Ho (t1 & t2 & seen & -> & Hr1 & Hr2)%runs_bind (c1 & Hs1 & Hs2)%steps_app.
  pose proof (observing_reads _ _ _ Hr1) as Hro.
  destruct (observe_true primary _ _ _ _ _ _ Hr1 Hs1) as [-> Hobs]. destruct seen as [o|e]; [|by destruct Hr2 as [_ [=]]].
  destruct (Hobs o eq_refl) as (Ep & Ef & Eg & Ec). rewrite Ep in Hr2. destruct primary; cbn [negb] in Hr2.
  2: { destruct Hr2 as [-> _]. cbn in Hs2. subst. split; [done|]. intros _. split; [done|]. by rewrite app_nil_r. }
  rewrite Ef in Hr2. apply runs_try_ok in Hr2 as (t3 & t4 & [] & -> & Hr3 & Hr4).
  apply steps_app in Hs2 as (c2 & Hs3 & Hs4). pose proof (freeze_levels true _ _ _ _ Hr3 Hs3) as Ev.
  destruct o as [p f [g x] pr]. cbn in Ep, Ef, Eg, Ec. subst g x.
  set (want := ddl_should_freeze (wanted_phase wanted)) in *.
  assert (sound (view c2)) as Hsd by (rewrite Ev; destruct Hs; by split).
  assert (owners_own (wanted_roles wanted) (view c2)) as Hod by (rewrite Ev; exact Ho).
  assert (has_revocable (wanted_roles wanted) (view c2) = has_revocable (wanted_roles wanted) (view c)) as Er by (by rewrite Ev).
  assert (has_recorded cluster (view c2) = has_recorded cluster (view c)) as Ed by (by rewrite Ev).
  assert (ddl_trigger (view c2) = want) as Ew by (by rewrite Ev).
  split.
  - intros _. unfold settled_for. fold want. cbn [grants] in Hr4.
    destruct (fence_action _ _) eqn:Ea in Hr4.
    + unfold apply_client_write_fence in Hr4. destruct (bool_decide (wanted_roles wanted = [])); [by destruct Hr4 as [_ [=]]|].
      destruct (forallb is_valid_pg_role_name _); cbn [negb] in Hr4; [|by destruct Hr4 as [_ [=]]]. destruct Hr4 as (r & t5 & -> & Hr4).
      destruct r as [[]|e]; destruct Hr4 as [-> Hr4]; [|discriminate Hr4].
      assert (wanted_fenced wanted = true) as Ewf by (revert Ea; unfold fence_action; cbn; by repeat case_match).
      rewrite Ewf. unfold fence_action. cbn [revocable recorded].
      destruct (apply_settles cluster _ _ Hsd Hod) as (A1 & A2 & A3 & A4).
      destruct (ran_once_or_twice true _ _ _ _ _ Hs4) as [-> | ->]; try done; rewrite !view_exec_all; [by rewrite A1, A2|].
      destruct (apply_settles cluster _ _ A3 A4) as (B1 & B2 & _). by rewrite B1, B2, A2.
    + destruct Hr4 as (r & t5 & -> & Hr4). destruct r as [[]|e]; destruct Hr4 as [-> Hr4]; [|discriminate Hr4].
      assert (wanted_fenced wanted = false) as Ewf by (revert Ea; unfold fence_action; cbn; by repeat case_match).
      rewrite Ewf. unfold fence_action. cbn [revocable recorded].
      destruct (lift_settles cluster (view c2)) as [L1 L2].
      destruct (ran_once_or_twice true _ _ _ _ _ Hs4) as [-> | ->]; try done; rewrite !view_exec_all; [by rewrite L1, L2|].
      destruct (lift_settles cluster (exec_all (lift_statements cluster) (view c2))) as [M1 M2]. by rewrite M1, M2, L2.
    + destruct Hr4 as [-> _]. cbn in Hs4. subst. by rewrite Er, Ed.
  - intros [?|[Et Ea]]; [done|]. fold want in Et. rewrite Et in Hr3. cbn [grants] in Hr4. rewrite Ea in Hr4.
    destruct Hr4 as [-> _]. destruct want; cbn [andb negb] in Hr3; destruct Hr3 as [-> _]; cbn in Hs3, Hs4; subst; by rewrite !app_nil_r.
Qed.

(** Witness: the donor seals; the trigger and the fence go in. *)
Definition sealing : WantedClientFence := WantedClientFence_ true Sealing [app].
Definition sealing_pass : list (event LevelAnswer) :=
  [answered (OfHandoff (ExecuteSql (FenceFactsSql [app]))) (Ok (lit "true|false|false|true|false"));
   answered (Transaction install_statements) (Ok tt);
   answered (Transaction (apply_statements (lit "blue") [app])) (Ok tt)].
Definition sealed_catalog : Catalog :=
  exec_all (apply_statements (lit "blue") [app]) (exec_all install_statements granted_catalog).
Lemma sealing_pass_runs : runs (level_client_fence sealing (lit "blue")) sealing_pass (Ok tt).
Proof. unfold sealing_pass. do 3 run_step. run_end. Qed.
Lemma sealing_pass_steps : steps (fence_step true) granted_catalog sealing_pass sealed_catalog.
Proof.
  exists granted_catalog. split; [split; [done|]; intros raw [= <-]; exists false; vm_compute; reflexivity|].
  exists (exec_all install_statements granted_catalog). split; [by left|].
  exists sealed_catalog. split; [by left|done].
Qed.
Lemma a_pass_levels_the_fence_witness :
  has_revocable [app] granted_catalog = true ∧ settled_for sealing (lit "blue") (view sealed_catalog).
Proof.
  split; [vm_compute; reflexivity|].
  refine (proj1 (a_pass_levels_the_fence true sealing (lit "blue") sealing_pass granted_catalog sealed_catalog
    granted_catalog_sound _ sealing_pass_runs sealing_pass_steps) eq_refl).
  intros g Hg Hr Hf. exact (proj1 (lf_rel _ _ granted_catalog_liftable g Hg Hr Hf)).
Defined.
