(* ===== verification/Rpc.v ===== *)
(** * Raft RPC transport and the vote gate ([src/governor/network.rs])

    The frame codec, the client's cancellable exchange over a persistent connection,
    the voter's WAL gate and the server's dispatch of one request.  Postcard and
    openraft are parameters; sockets are requests.  Capacity management and log lines
    are left out. *)

From S2P Require Import Prelude Effects Text Core ClusterState Lease Fence.

Inductive RpcError := Protocol | Io | ConnectionTimeout | RaftErr | Decode.
#[global] Instance RpcError_eq_dec : EqDecision RpcError.
Proof. solve_decision. Defined.

(** ** Frames *)
Definition MAX_RPC_FRAME_LEN : Z := 4 * 1024 * 1024.
Definition RAFT_RPC_FRAME_VERSION : Z := 0.
Definition FRAME_OVERHEAD_AFTER_LEN : Z := 1 + 1 + 8.

Definition validate_rpc_frame_len (len : Z) : result RpcError Z :=
  if len <? FRAME_OVERHEAD_AFTER_LEN then Err Protocol
  else if MAX_RPC_FRAME_LEN <? len then Err Protocol
  else Ok (len - FRAME_OVERHEAD_AFTER_LEN).

Definition frame_version_accepted (version : Z) : bool :=
  let min := sat_sub RAFT_RPC_FRAME_VERSION 1 in
  (min <=? version) && (version <=? RAFT_RPC_FRAME_VERSION).

(** [put_u64]. *)
Definition u64_to_be (z : Z) : bytes := u32_to_be (z / 2 ^ 32) ++ u32_to_be z.

(** [start_frame]: the header with its length still zero, and where it starts. *)
Definition start_frame (buf : bytes) (type_byte corr_id : Z) : bytes * nat :=
  (buf ++ u32_to_be 0 ++ [z_byte RAFT_RPC_FRAME_VERSION] ++ [z_byte type_byte] ++ u64_to_be corr_id,
   length buf).

Definition finish_frame (buf : bytes) (len_pos : nat) : bytes * result RpcError () :=
  let total_len := Z.of_nat (length buf - (len_pos + 4)) in
  if u32_max <? total_len then (take len_pos buf, Err Protocol)
  else if (length buf <? len_pos + 4)%nat then (take len_pos buf, Err Protocol)
  else (take len_pos buf ++ u32_to_be total_len ++ drop (len_pos + 4) buf, Ok tt).

Definition append_frame_bytes (buf : bytes) (type_byte corr_id : Z) (body : bytes)
    : bytes * result RpcError () :=
  let '(buf, len_pos) := start_frame buf type_byte corr_id in
  finish_frame (buf ++ body) len_pos.

(** [append_frame_serialize] with [postcard::to_extend]'s outcome: on an encoding
    error what was staged is lost. *)
Definition append_frame_serialize (buf : bytes) (type_byte corr_id : Z)
    (msg : result RpcError bytes) : bytes * result RpcError () :=
  let '(buf, len_pos) := start_frame buf type_byte corr_id in
  match msg with
  | Ok body => finish_frame (buf ++ body) len_pos
  | Err e => ([], Err e)
  end.

Record Frame := Frame_ { type_byte : Z; corr_id : Z; body : bytes }.

(** [take_frame]: [Ok None] leaves the buffer as it is; a frame comes with the rest. *)
Definition take_frame (buf : bytes) : result RpcError (option (Frame * bytes)) :=
  match buf with
  | b0 :: b1 :: b2 :: b3 :: after =>
      let len := u32_from_be b0 b1 b2 b3 in
      let! _ := validate_rpc_frame_len len in
      if Z.of_nat (length buf) <? 4 + len then Ok None
      else
        match after with
        | [] => Err Protocol
        | version :: rest =>
            if negb (frame_version_accepted (byte_z version)) then Err Protocol
            else
              match take (Z.to_nat len - 1) rest with
              | t :: c0 :: c1 :: c2 :: c3 :: c4 :: c5 :: c6 :: c7 :: body =>
                  Ok (Some (Frame_ (byte_z t) (be_combine [c0; c1; c2; c3; c4; c5; c6; c7] 0) body,
                            drop (Z.to_nat len - 1) rest))
              | _ => Err Protocol
              end
        end
  | _ => Ok None
  end.

(** [peek_frame_header]: version and correlation id, without consuming. *)
Definition peek_frame_header (buf : bytes) : option (Z * Z) :=
  version ← buf !! 4%nat;
  if (length buf <? 14)%nat then None
  else Some (byte_z version, be_combine (take 8 (drop 6 buf)) 0).

Inductive RpcType :=
| AppendEntries | AppendEntriesResponse | Vote | VoteResponse
| InstallSnapshot | InstallSnapshotResponse | VersionNotAccepted.
#[global] Instance RpcType_eq_dec : EqDecision RpcType.
Proof. solve_decision. Defined.

Definition rpc_byte (t : RpcType) : Z :=
  match t with
  | AppendEntries => 1 | AppendEntriesResponse => 2 | Vote => 3 | VoteResponse => 4
  | InstallSnapshot => 5 | InstallSnapshotResponse => 6 | VersionNotAccepted => 7
  end.

Definition rpc_try_from (value : Z) : result RpcError RpcType :=
  if value =? 1 then Ok AppendEntries
  else if value =? 2 then Ok AppendEntriesResponse
  else if value =? 3 then Ok Vote
  else if value =? 4 then Ok VoteResponse
  else if value =? 5 then Ok InstallSnapshot
  else if value =? 6 then Ok InstallSnapshotResponse
  else if value =? 7 then Ok VersionNotAccepted
  else Err Protocol.

(** ** The client's exchange *)
Module Client.

(** [Dropped]: the future is dropped at this await and runs no further. *)
Inductive SockAnswer (A : Type) := Got (a : A) | Failed | TimedOut | Dropped.
Arguments Got {A} a.
Arguments Failed {A}.
Arguments TimedOut {A}.
Arguments Dropped {A}.

Inductive Req :=
| Write (buf : bytes)           (* how many bytes the socket took *)
| Flush
| Read.                         (* the bytes received; none at end of stream *)
Definition Answer (q : Req) : Type :=
  match q with
  | Write _ => SockAnswer nat
  | Flush => SockAnswer ()
  | Read => SockAnswer bytes
  end.
Abbreviation io := (prog Answer).
Abbreviation ask := (@Effects.ask Req Answer).

Record FramedIo := FramedIo_ { read_buf : bytes; write_buf : bytes }.

(** How an exchange ends: it returns, or was dropped; the buffers stay either way. *)
Inductive End := Returned (r : result RpcError bytes) | Cancelled.

Definition MAX_STALE_FRAMES_PER_EXCHANGE : nat := 64.

(** The write loop; [None] is a loop out of rounds. *)
Fixpoint drain (rounds : nat) (write_buf : bytes) : io (option (bytes * option End)) :=
  match write_buf with
  | [] => Ret (Some ([], None))
  | _ =>
      match rounds with
      | O => Ret None
      | S rounds =>
          let* r := ask (Write write_buf) in
          match r with
          | Got O => Ret (Some (write_buf, Some (Returned (Err Io))))
          | Got n => drain rounds (drop n write_buf)
          | Failed => Ret (Some (write_buf, Some (Returned (Err Io))))
          | TimedOut => Ret (Some (write_buf, Some (Returned (Err ConnectionTimeout))))
          | Dropped => Ret (Some (write_buf, Some Cancelled))
          end
      end
  end.

Inductive Scan := NeedMore | Found (body : bytes) | Broken (e : RpcError).

(** The frames staged in the read buffer: what is left, how many were skipped, and
    whether the response is among them. A round takes a frame. *)
Fixpoint scan (rounds : nat) (expected : RpcType) (corr : Z) (buf : bytes) (skipped : nat)
    : bytes * nat * Scan :=
  match take_frame buf with
  | Err e => (buf, skipped, Broken e)
  | Ok None => (buf, skipped, NeedMore)
  | Ok (Some (f, rest)) =>
      if corr_id f <? corr then
        if (MAX_STALE_FRAMES_PER_EXCHANGE <? S skipped)%nat then (rest, S skipped, Broken Protocol)
        else match rounds with
             | O => (rest, S skipped, NeedMore)
             | S rounds => scan rounds expected corr rest (S skipped)
             end
      else if corr <? corr_id f then (rest, skipped, Broken Protocol)
      else match rpc_try_from (type_byte f) with
           | Err e => (rest, skipped, Broken e)
           | Ok VersionNotAccepted => (rest, skipped, Broken Protocol)
           | Ok resp_type =>
               if bool_decide (resp_type ≠ expected) then (rest, skipped, Broken Protocol)
               else (rest, skipped, Found (body f))
           end
  end.

(** The read loop, at most [reads] reads; [None] is a loop out of reads. *)
Fixpoint receive (reads : nat) (expected : RpcType) (corr : Z) (buf : bytes) (skipped : nat)
    : io (bytes * option End) :=
  let '(buf, skipped, s) := scan (length buf) expected corr buf skipped in
  match s with
  | Found body => Ret (buf, Some (Returned (Ok body)))
  | Broken e => Ret (buf, Some (Returned (Err e)))
  | NeedMore =>
      match reads with
      | O => Ret (buf, None)
      | S reads =>
          let* r := ask Read in
          match r with
          | Got [] => Ret (buf, Some (Returned (Err Protocol)))
          | Got chunk => receive reads expected corr (buf ++ chunk) skipped
          | Failed => Ret (buf, Some (Returned (Err Io)))
          | TimedOut => Ret (buf, Some (Returned (Err ConnectionTimeout)))
          | Dropped => Ret (buf, Some Cancelled)
          end
      end
  end.

Definition exchange_frames (reads : nat) (io_ : FramedIo) (rpc_type : RpcType) (corr : Z)
    (msg : result RpcError bytes) (expected : RpcType) : io (FramedIo * option End) :=
  let '(wb, staged) := append_frame_serialize (write_buf io_) (rpc_byte rpc_type) corr msg in
  match staged with
  | Err e => Ret (FramedIo_ (read_buf io_) wb, Some (Returned (Err e)))
  | Ok _ =>
      let* drained := drain (length wb) wb in
      match drained with
      | None => Ret (FramedIo_ (read_buf io_) wb, None)
      | Some (wb, Some e) => Ret (FramedIo_ (read_buf io_) wb, Some e)
      | Some (wb, None) =>
          let* flushed := ask Flush in
          match flushed with
          | Failed => Ret (FramedIo_ (read_buf io_) wb, Some (Returned (Err Io)))
          | TimedOut => Ret (FramedIo_ (read_buf io_) wb, Some (Returned (Err ConnectionTimeout)))
          | Dropped => Ret (FramedIo_ (read_buf io_) wb, Some Cancelled)
          | Got _ =>
              let* (rb, e) := receive reads expected corr (read_buf io_) 0 in
              Ret (FramedIo_ rb wb, e)
          end
      end
  end.

Record PeerConnection := PeerConnection_ { next_corr_id : Z; framed : FramedIo }.
Definition fresh_connection : PeerConnection := PeerConnection_ 0 (FramedIo_ [] []).

Definition response_type (t : RpcType) : result RpcError RpcType :=
  match t with
  | AppendEntries => Ok AppendEntriesResponse
  | Vote => Ok VoteResponse
  | InstallSnapshot => Ok InstallSnapshotResponse
  | _ => Err Protocol
  end.

Definition exchange (reads : nat) (c : PeerConnection) (rpc_type : RpcType)
    (msg : result RpcError bytes) : io (PeerConnection * option End) :=
  match response_type rpc_type with
  | Err e => Ret (c, Some (Returned (Err e)))
  | Ok expected =>
      let corr := next_corr_id c in
      let* (f, e) := exchange_frames reads (framed c) rpc_type corr msg expected in
      Ret (PeerConnection_ (corr + 1) f, e)
  end.

End Client.

(** ** The vote gate *)
Module VoteGate.

Inductive OwnWal := At (lsn : Z) | Empty | Unknown.

(** [vote_lsn_gate]; the three refusals' texts are told apart. *)
Inductive Refusal := OwnUnreadable | CandidateSilent | CandidateBehind.

Definition vote_lsn_gate (candidate : option Z) (voter : OwnWal) (threshold : Z) : result Refusal () :=
  match voter, candidate with
  | Empty, _ => Ok tt
  | Unknown, _ => Err OwnUnreadable
  | At _, None => Err CandidateSilent
  | At own, Some lsn =>
      if own <=? sat_add_u64 lsn threshold then Ok tt else Err CandidateBehind
  end.

Definition position (w : OwnWal) : option Z :=
  match w with At lsn => Some lsn | Empty | Unknown => None end.

(** *** This node's WAL, read live

    [BudgetSpent]: [LocalWal::BUDGET] ran out at this await. *)
Inductive Timed (A : Type) := Answered (a : A) | QueryTimedOut | BudgetSpent.
Arguments Answered {A} a.
Arguments QueryTimedOut {A}.
Arguments BudgetSpent {A}.

Section Server.
(** openraft's messages and postcard's codecs at them. *)
Context {AppendReq AppendResp SnapshotReq SnapshotResp VoteRequest RaftVote LogId : Type}.

Record VoteFrame := VoteFrame_ { request : VoteRequest; candidate_lsn : option Z }.
Record VoteResponse := VoteResponse_ {
  vote : RaftVote;
  vote_granted : bool;
  last_log_id : option LogId;
}.

Variable decode_append : bytes → result RpcError AppendReq.
Variable decode_vote : bytes → result RpcError VoteFrame.
Variable decode_snapshot : bytes → result RpcError SnapshotReq.
Variable encode_append : AppendResp → result RpcError bytes.
Variable encode_vote : VoteResponse → result RpcError bytes.
Variable encode_snapshot : SnapshotResp → result RpcError bytes.

Inductive Req :=
| ReportableLsn
| HasDataDirectory
| StoppedWalEnd
| VoteThreshold                       (* cluster_state.read().vote_lsn_threshold_bytes() *)
| RaftAppend (req : AppendReq)
| RaftVoteReq (req : VoteRequest)
| RaftInstall (req : SnapshotReq)
| RaftMetricsVote.                    (* raft.metrics().borrow().vote *)
Definition Answer (q : Req) : Type :=
  match q with
  | ReportableLsn => Timed (result PgError bytes)
  | HasDataDirectory => bool
  | StoppedWalEnd => Timed (result PgError (option Z))
  | VoteThreshold => Z
  | RaftAppend _ => result RpcError AppendResp
  | RaftVoteReq _ => result RpcError VoteResponse
  | RaftInstall _ => result RpcError SnapshotResp
  | RaftMetricsVote => RaftVote
  end.
Abbreviation io := (prog Answer).
Abbreviation ask := (@Effects.ask Req Answer).

(** [LocalWal::read]. *)
Definition read_local_wal : io OwnWal :=
  let* r := ask ReportableLsn in
  match r with
  | Answered (Ok text) =>
      Ret (match Core.Lsn.parse_lsn text with Some lsn => At lsn | None => Unknown end)
  | BudgetSpent => Ret Unknown
  | Answered (Err _) | QueryTimedOut =>
      let* has := ask HasDataDirectory in
      if negb has then Ret Empty
      else
        let* stopped := ask StoppedWalEnd in
        Ret (match stopped with Answered (Ok (Some lsn)) => At lsn | _ => Unknown end)
  end.

(** [process_request]: what it leaves in the response buffer. *)
Definition respond (response_buf : bytes) (t : RpcType) (corr_id : Z) (msg : result RpcError bytes)
    : bytes * result RpcError () :=
  append_frame_serialize response_buf (rpc_byte t) corr_id msg.

Definition process_request (rpc_type : RpcType) (body : bytes) (corr_id : Z) (response_buf : bytes)
    : io (bytes * result RpcError ()) :=
  match rpc_type with
  | AppendEntries =>
      match decode_append body with
      | Err e => Ret (response_buf, Err e)
      | Ok req =>
          let* r := ask (RaftAppend req) in
          Ret (match r with
               | Err e => (response_buf, Err e)
               | Ok resp => respond response_buf AppendEntriesResponse corr_id (encode_append resp)
               end)
      end
  | Rpc.Vote =>
      match decode_vote body with
      | Err e => Ret (response_buf, Err e)
      | Ok frame =>
          let* own := read_local_wal in
          let* threshold := ask VoteThreshold in
          if is_ok (vote_lsn_gate (candidate_lsn frame) own threshold) then
            let* r := ask (RaftVoteReq (request frame)) in
            Ret (match r with
                 | Err e => (response_buf, Err e)
                 | Ok resp => respond response_buf Rpc.VoteResponse corr_id (encode_vote resp)
                 end)
          else
            let* v := ask RaftMetricsVote in
            Ret (respond response_buf Rpc.VoteResponse corr_id
                   (encode_vote (VoteResponse_ v false None)))
      end
  | InstallSnapshot =>
      match decode_snapshot body with
      | Err e => Ret (response_buf, Err e)
      | Ok req =>
          let* r := ask (RaftInstall req) in
          Ret (match r with
               | Err e => (response_buf, Err e)
               | Ok resp => respond response_buf InstallSnapshotResponse corr_id (encode_snapshot resp)
               end)
      end
  | _ => Ret (response_buf, Err Protocol)
  end.
End Server.

End VoteGate.
