(* ===== verification/RpcProofs.v ===== *)
(** * The RPC transport keeps its stream, and a vote keeps the writes

    The frame codec is exact, a connection survives any cancellation without losing
    byte alignment or pairing a response with the wrong request, and the WAL gate
    carries acknowledged writes across an election. *)

From S2P Require Import Prelude Effects Text Core ClusterState Lease Fence Replication ReplicationProofs Rpc.

(** ** Big-endian words *)
Lemma be_combine_u32 z acc l :
  be_combine (u32_to_be z ++ l) acc = be_combine l (acc * 2 ^ 32 + z mod 2 ^ 32).
Proof.
  unfold u32_to_be. simpl. f_equal. rewrite !byte_z_z.
  change (Z.pow_pos 2 24) with 16777216; change (Z.pow_pos 2 16) with 65536;
  change (Z.pow_pos 2 8) with 256; change (Z.pow_pos 2 32) with 4294967296.
  Z.div_mod_to_equations. lia.
Qed.

Lemma be_combine_u64 z : is_u64 z → be_combine (u64_to_be z) 0 = z.
Proof.
  unfold is_u64, u64_max, u64_to_be. intros Hz. rewrite be_combine_u32.
  rewrite <-(app_nil_r (u32_to_be z)), be_combine_u32. cbn [be_combine].
  change (2 ^ 64 - 1) with 18446744073709551615 in Hz. change (2 ^ 32) with 4294967296.
  Z.div_mod_to_equations. lia.
Qed.

Lemma u32_to_be_combine acc b0 b1 b2 b3 :
  u32_to_be (acc * 2 ^ 32 + u32_from_be b0 b1 b2 b3) = [b0; b1; b2; b3].
Proof.
  unfold u32_to_be, u32_from_be. simpl.
  pose proof (byte_z_bounds b0). pose proof (byte_z_bounds b1).
  pose proof (byte_z_bounds b2). pose proof (byte_z_bounds b3).
  change (Z.pow_pos 2 24) with 16777216; change (Z.pow_pos 2 16) with 65536;
  change (Z.pow_pos 2 8) with 256; change (Z.pow_pos 2 32) with 4294967296.
  repeat f_equal; apply byte_z_inj; rewrite byte_z_z; Z.div_mod_to_equations; lia.
Qed.

Lemma be_combine_app l1 l2 acc : be_combine (l1 ++ l2) acc = be_combine l2 (be_combine l1 acc).
Proof. revert acc; induction l1 as [|b l1 IH]; intros acc; simpl; [done|]. apply IH. Qed.

Lemma be_combine_acc l acc : be_combine l acc = acc * 256 ^ Z.of_nat (length l) + be_combine l 0.
Proof.
  revert acc; induction l as [|b l IH]; intros acc; [simpl; lia|].
  cbn [be_combine length]. rewrite IH, (IH (0 * 256 + byte_z b)), Nat2Z.inj_succ, Z.pow_succ_r by lia.
  ring.
Qed.

Lemma u64_to_be_combine c0 c1 c2 c3 c4 c5 c6 c7 :
  u64_to_be (be_combine [c0; c1; c2; c3; c4; c5; c6; c7] 0) = [c0; c1; c2; c3; c4; c5; c6; c7].
Proof.
  change [c0; c1; c2; c3; c4; c5; c6; c7] with ([c0; c1; c2; c3] ++ [c4; c5; c6; c7]).
  rewrite be_combine_app, (be_combine_acc [c4; c5; c6; c7]). unfold u64_to_be.
  change (256 ^ Z.of_nat (length [c4; c5; c6; c7])) with (2 ^ 32).
  fold (u32_from_be c0 c1 c2 c3). fold (u32_from_be c4 c5 c6 c7).
  rewrite Z.div_add_l by lia. pose proof (u32_from_be_bounds c4 c5 c6 c7) as Hb.
  unfold is_u32, u32_max in Hb. rewrite (Z.div_small (u32_from_be c4 c5 c6 c7)) by lia.
  rewrite Z.add_0_r. f_equal; [exact (u32_to_be_combine 0 c0 c1 c2 c3)|apply u32_to_be_combine].
Qed.

(** ** The codec *)
Definition frame_ok (f : Frame) : Prop :=
  0 ≤ type_byte f < 256 ∧ is_u64 (corr_id f) ∧
  Z.of_nat (length (body f)) ≤ MAX_RPC_FRAME_LEN - FRAME_OVERHEAD_AFTER_LEN.

Definition encode (f : Frame) : bytes :=
  u32_to_be (FRAME_OVERHEAD_AFTER_LEN + Z.of_nat (length (body f))) ++
  [z_byte RAFT_RPC_FRAME_VERSION; z_byte (type_byte f)] ++ u64_to_be (corr_id f) ++ body f.

Lemma length_encode f : length (encode f) = (14 + length (body f))%nat.
Proof. done. Qed.

Lemma append_frame_bytes_ok buf t c b :
  Z.of_nat (length b) ≤ MAX_RPC_FRAME_LEN - FRAME_OVERHEAD_AFTER_LEN →
  append_frame_bytes buf t c b = (buf ++ encode (Frame_ t c b), Ok tt).
Proof.
  intros Hb. unfold MAX_RPC_FRAME_LEN, FRAME_OVERHEAD_AFTER_LEN in Hb.
  unfold append_frame_bytes, start_frame, finish_frame.
  set (h := u32_to_be 0 ++ _). rewrite <-app_assoc.
  assert (length (h ++ b) = 14 + length b)%nat as Hl by done. rewrite length_app, Hl.
  replace (length buf + (14 + length b) - (length buf + 4))%nat with (10 + length b)%nat by lia.
  destruct (Z.ltb_spec u32_max (Z.of_nat (10 + length b))) as [Hx|_]; [unfold u32_max in Hx; lia|].
  rewrite (proj2 (Nat.ltb_ge _ _)) by lia.
  rewrite take_app_length, drop_app_add. f_equal. f_equal.
  unfold encode, FRAME_OVERHEAD_AFTER_LEN. cbn [body type_byte corr_id].
  rewrite Nat2Z.inj_add. f_equal.
Qed.

Lemma append_frame_serialize_ok buf t c b :
  append_frame_serialize buf t c (Ok b) = append_frame_bytes buf t c b.
Proof. done. Qed.

Lemma version_zero v : frame_version_accepted (byte_z v) = true → v = z_byte RAFT_RPC_FRAME_VERSION.
Proof.
  unfold frame_version_accepted, RAFT_RPC_FRAME_VERSION. pose proof (byte_z_bounds v).
  cbn. rewrite andb_true_iff, !Z.leb_le. intros [_ Hv]. rewrite <-(z_byte_z v). f_equal. lia.
Qed.

(** Only the bytes of a frame parse as it. *)
Lemma take_frame_inv buf f rest :
  take_frame buf = Ok (Some (f, rest)) → buf = encode f ++ rest ∧ frame_ok f.
Proof.
  unfold take_frame. destruct buf as [|b0 [|b1 [|b2 [|b3 after]]]]; try done.
  unfold validate_rpc_frame_len. set (len := u32_from_be b0 b1 b2 b3).
  destruct (Z.ltb_spec len FRAME_OVERHEAD_AFTER_LEN); [done|].
  destruct (Z.ltb_spec MAX_RPC_FRAME_LEN len); [done|]. cbn [result_bind].
  destruct (Z.ltb_spec (Z.of_nat (length (b0 :: b1 :: b2 :: b3 :: after))) (4 + len)); [done|].
  destruct after as [|v after]; [done|].
  destruct (frame_version_accepted (byte_z v)) eqn:Ev; cbn [negb]; [|done]. apply version_zero in Ev as ->.
  destruct (take (Z.to_nat len - 1) after) as [|t [|c0 [|c1 [|c2 [|c3 [|c4 [|c5 [|c6 [|c7 bd]]]]]]]]] eqn:Et;
    try done.
  intros [= <- <-]. unfold FRAME_OVERHEAD_AFTER_LEN, MAX_RPC_FRAME_LEN in *.
  assert (length (take (Z.to_nat len - 1) after) = Z.to_nat len - 1)%nat as Hlt.
  { rewrite length_take. simpl in *. lia. }
  rewrite Et in Hlt. cbn [length] in Hlt.
  split.
  - unfold encode. cbn [body type_byte corr_id].
    replace (FRAME_OVERHEAD_AFTER_LEN + Z.of_nat (length bd)) with (0 * 2 ^ 32 + len)
      by (unfold FRAME_OVERHEAD_AFTER_LEN; lia).
    unfold len at 1. rewrite u32_to_be_combine, z_byte_z.
    pose proof (u64_to_be_combine c0 c1 c2 c3 c4 c5 c6 c7) as E8. cbn [be_combine] in E8. rewrite E8.
    rewrite <-(take_drop (Z.to_nat len - 1) after) at 1. rewrite Et. done.
  - unfold frame_ok. cbn [body type_byte corr_id]. split_and!.
    + apply byte_z_bounds.
    + apply byte_z_bounds.
    + match goal with |- is_u64 ?x => change x with (be_combine [c0; c1; c2; c3; c4; c5; c6; c7] 0) end.
      change [c0; c1; c2; c3; c4; c5; c6; c7] with ([c0; c1; c2; c3] ++ [c4; c5; c6; c7]).
      rewrite be_combine_app, (be_combine_acc [c4; c5; c6; c7]).
      change (256 ^ Z.of_nat (length [c4; c5; c6; c7])) with (2 ^ 32).
      pose proof (u32_from_be_bounds c0 c1 c2 c3) as Hw1.
      pose proof (u32_from_be_bounds c4 c5 c6 c7) as Hw2.
      unfold u32_from_be, is_u32, u32_max in Hw1, Hw2. unfold is_u64, u64_max. lia.
    + unfold MAX_RPC_FRAME_LEN, FRAME_OVERHEAD_AFTER_LEN. lia.
Qed.

Lemma take_frame_encode f rest : frame_ok f → take_frame (encode f ++ rest) = Ok (Some (f, rest)).
Proof.
  intros (Ht & Hc & Hb). unfold FRAME_OVERHEAD_AFTER_LEN, MAX_RPC_FRAME_LEN in Hb.
  unfold take_frame, encode, u32_to_be. cbn [app].
  set (n := FRAME_OVERHEAD_AFTER_LEN + Z.of_nat (length (body f))).
  assert (n = 10 + Z.of_nat (length (body f))) as En by done.
  rewrite u32_be_roundtrip by (unfold is_u32, u32_max; lia).
  unfold validate_rpc_frame_len. change FRAME_OVERHEAD_AFTER_LEN with 10. change MAX_RPC_FRAME_LEN with 4194304.
  rewrite (proj2 (Z.ltb_ge n 10)) by lia. rewrite (proj2 (Z.ltb_ge 4194304 n)) by lia. cbn [result_bind].
  rewrite (proj2 (Z.ltb_ge _ (4 + n))).
  2:{ cbn [length]. rewrite !length_app. unfold u64_to_be. cbn [length app u32_to_be]. lia. }
  replace (frame_version_accepted _) with true by (by vm_compute). cbn [negb].
  replace (Z.to_nat n - 1)%nat with (S (8 + length (body f)))%nat by lia.
  cbn [take]. rewrite byte_z_z, Z.mod_small by lia.
  rewrite take_app_le by (rewrite length_app; done).
  rewrite take_ge by (rewrite length_app; done).
  change (match u64_to_be (corr_id f) ++ body f with
          | c0 :: c1 :: c2 :: c3 :: c4 :: c5 :: c6 :: c7 :: bd =>
              Ok (Some (Frame_ (type_byte f) (be_combine [c0; c1; c2; c3; c4; c5; c6; c7] 0) bd,
                        drop (8 + length (body f)) ((u64_to_be (corr_id f) ++ body f) ++ rest)))
          | _ => Err Protocol
          end = Ok (Some (f, rest))).
  rewrite drop_app_le, drop_ge by (rewrite length_app; done). cbn [app].
  pose proof (be_combine_u64 (corr_id f) Hc) as E. unfold u64_to_be, u32_to_be in *. cbn [app be_combine] in *.
  rewrite E. by destruct f.
Qed.

Lemma take_frame_torn f p q : frame_ok f → encode f = p ++ q → q ≠ [] → take_frame p = Ok None.
Proof.
  intros (Ht & Hc & Hb) E Hq. pose proof (f_equal length E) as Hl.
  rewrite length_encode, length_app in Hl. assert (length q ≠ 0)%nat by (by destruct q).
  unfold FRAME_OVERHEAD_AFTER_LEN, MAX_RPC_FRAME_LEN in Hb.
  destruct p as [|b0 [|b1 [|b2 [|b3 after]]]]; try done.
  unfold encode in E. set (n := FRAME_OVERHEAD_AFTER_LEN + Z.of_nat (length (body f))) in E.
  assert (n = 10 + Z.of_nat (length (body f))) as En by done.
  unfold u32_to_be in E. cbn [app] in E. injection E as <- <- <- <- _.
  unfold take_frame. rewrite u32_be_roundtrip by (unfold is_u32, u32_max; lia).
  unfold validate_rpc_frame_len. change FRAME_OVERHEAD_AFTER_LEN with 10.
  change MAX_RPC_FRAME_LEN with 4194304.
  rewrite (proj2 (Z.ltb_ge n 10)) by lia. rewrite (proj2 (Z.ltb_ge 4194304 n)) by lia. cbn [result_bind].
  rewrite (proj2 (Z.ltb_lt _ (4 + n))); [done|]. cbn [length] in *. lia.
Qed.

(** The frame codec is exact: every frame of a byte type, a 64-bit correlation id
    and a body within the bound is appended as its encoding; a buffer that starts
    with the encoding yields the frame and what follows it; a torn frame, any proper
    prefix, yields nothing and stays; and whatever buffer yields a frame starts with
    that frame's encoding. *)
Lemma frame_codec_is_exact f :
  frame_ok f →
  (∀ buf, append_frame_bytes buf (type_byte f) (corr_id f) (body f) = (buf ++ encode f, Ok tt)) ∧
  (∀ rest, take_frame (encode f ++ rest) = Ok (Some (f, rest))) ∧
  (∀ p q, encode f = p ++ q → q ≠ [] → take_frame p = Ok None) ∧
  (∀ buf rest, take_frame buf = Ok (Some (f, rest)) → buf = encode f ++ rest).
Proof.
  intros Hf. split_and!.
  - intros buf. rewrite append_frame_bytes_ok by apply Hf. by destruct f.
  - intros rest. by apply take_frame_encode.
  - intros p q. by apply take_frame_torn.
  - intros buf rest H. by apply take_frame_inv in H as [-> _].
Qed.

Lemma frame_codec_is_exact_witness :
  frame_ok (Frame_ 3 7 (lit "vote")) ∧
  take_frame (encode (Frame_ 3 7 (lit "vote")) ++ lit "next") =
    Ok (Some (Frame_ 3 7 (lit "vote"), lit "next")).
Proof.
  assert (frame_ok (Frame_ 3 7 (lit "vote"))) as Hf by (split_and!; by vm_compute).
  split; [exact Hf|]. apply (frame_codec_is_exact _ Hf).
Defined.

(** ** A connection through any number of exchanges *)
Section Connection.
Import Rpc.Client.
Abbreviation trace := (list (event Client.Answer)).

Fixpoint sent (t : trace) : bytes :=
  match t with
  | [] => []
  | existT (Write buf) (Got n) :: t => take n buf ++ sent t
  | _ :: t => sent t
  end.
Fixpoint received (t : trace) : bytes :=
  match t with
  | [] => []
  | existT Read (Got chunk) :: t => chunk ++ received t
  | _ :: t => received t
  end.

Lemma sent_app a b : sent (a ++ b) = sent a ++ sent b.
Proof.
  induction a as [|[[buf| |] r] a IH]; simpl; [done| |done|done].
  destruct r; try done. by rewrite IH, app_assoc.
Qed.
Lemma received_app a b : received (a ++ b) = received a ++ received b.
Proof.
  induction a as [|[[buf| |] r] a IH]; simpl; [done|done|done|].
  destruct r; try done. by rewrite IH, app_assoc.
Qed.

Lemma drain_spec rounds wb t r :
  runs (drain rounds wb) t r →
  received t = [] ∧ (length wb ≤ rounds → is_Some r)%nat ∧
  ∀ wb' e, r = Some (wb', e) → sent t ++ wb' = wb ∧ ∀ b, e ≠ Some (Returned (Ok b)).
Proof.
  revert wb t r; induction rounds as [|rounds IH]; intros wb t r; cbn [drain];
    destruct wb as [|b wb].
  - intros [-> ->]. split_and!; [done|by eauto|by intros ? ? [= <- <-]].
  - intros [-> ->]. split_and!; [done|simpl; lia|done].
  - intros [-> ->]. split_and!; [done|by eauto|by intros ? ? [= <- <-]].
  - intros (a & t' & -> & Ht). destruct a as [n| | |]; cbn [bind] in Ht.
    2-4: destruct Ht as [-> ->]; split_and!; [done|by eauto|by intros ? ? [= <- <-]].
    destruct n as [|n].
    { destruct Ht as [-> ->]. split_and!; [done|by eauto|by intros ? ? [= <- <-]]. }
    apply IH in Ht as (Hr & Hs & Hw). split_and!.
    + exact Hr.
    + intros Hl. apply Hs. rewrite length_drop. simpl in *. lia.
    + intros wb' e E. apply Hw in E as [E Hne]. cbn [sent answered].
      rewrite <-app_assoc, E, take_drop. done.
Qed.

(** The frames [fs] were consumed from [whole], leaving [rest]. *)
Definition consumed (fs : list Frame) (whole rest : bytes) : Prop :=
  whole = concat (encode <$> fs) ++ rest ∧ Forall frame_ok fs.
Definition answers (corr : Z) (expected : RpcType) (b : bytes) (f : Frame) : Prop :=
  corr_id f = corr ∧ rpc_try_from (type_byte f) = Ok expected ∧ body f = b.

Lemma consumed_cons f fs buf mid rest :
  take_frame buf = Ok (Some (f, mid)) → consumed fs mid rest → consumed (f :: fs) buf rest.
Proof.
  intros [-> Hf]%take_frame_inv [-> Hfs]. split; [|by constructor].
  cbn. by rewrite app_assoc.
Qed.

Lemma scan_spec rounds expected corr buf skipped buf' skipped' s :
  scan rounds expected corr buf skipped = (buf', skipped', s) →
  ∃ fs, consumed fs buf buf' ∧
    ∀ b, s = Found b → ∃ f, f ∈ fs ∧ answers corr expected b f.
Proof.
  assert (∀ whole, consumed [] whole whole) as Hnil by (intros; by split).
  revert buf skipped; induction rounds as [|rounds IH]; intros buf skipped; cbn [scan];
    destruct (take_frame buf) as [[[f rest]|]|e] eqn:Et;
    try (intros [= <- <- <-]; exists []; split; [apply Hnil|done]).
  all: pose proof (consumed_cons _ _ _ _ _ Et (Hnil rest)) as Hone.
  all: destruct (corr_id f <? corr) eqn:Elt.
  1,3: destruct (_ <? _)%nat;
    [intros [= <- <- <-]; exists [f]; split; [exact Hone|done]|].
  1: intros [= <- <- <-]; exists [f]; split; [exact Hone|done].
  1: intros H; apply IH in H as (fs & Hc & Hfound); exists (f :: fs);
     split; [by eapply consumed_cons|]; intros b Hb;
     destruct (Hfound b Hb) as (f' & Hin & Ha); exists f'; split; [by right|done].
  all: destruct (corr <? corr_id f) eqn:Egt;
    [intros [= <- <- <-]; exists [f]; split; [exact Hone|done]|].
  all: destruct (rpc_try_from (type_byte f)) as [ty|e] eqn:Er;
    [|intros [= <- <- <-]; exists [f]; split; [exact Hone|done]].
  all: apply Z.ltb_ge in Elt, Egt.
  all: destruct ty;
    try (intros [= <- <- <-]; exists [f]; split; [exact Hone|done]);
    (destruct (bool_decide _) eqn:Eb;
      [intros [= <- <- <-]; exists [f]; split; [exact Hone|done]|]);
    apply bool_decide_eq_false, dec_stable in Eb as <-;
    intros [= <- <- <-]; exists [f]; (split; [exact Hone|]);
    intros b [= <-]; exists f; (split; [by left|]); (split_and!; [lia|done|done]).
Qed.

Lemma receive_spec reads expected corr buf skipped t buf' e :
  runs (receive reads expected corr buf skipped) t (buf', e) →
  sent t = [] ∧ ∃ fs, consumed fs (buf ++ received t) buf' ∧
    ∀ b, e = Some (Returned (Ok b)) → ∃ f, f ∈ fs ∧ answers corr expected b f.
Proof.
  revert buf skipped t; induction reads as [|reads IH]; intros buf skipped t; cbn [receive];
    destruct (scan (length buf) expected corr buf skipped) as [[b1 sk1] s] eqn:Es;
    apply scan_spec in Es as (fs & Hc & Hf).
  - destruct s; intros [-> [= -> ->]]; (split; [done|]); exists fs; cbn [received];
      rewrite app_nil_r; (split; [exact Hc|]); intros b Hb; try done.
    injection Hb as <-. by apply Hf.
  - destruct s as [|bd|er].
    2,3: intros [-> [= -> ->]]; (split; [done|]); exists fs; cbn [received];
      rewrite app_nil_r; (split; [exact Hc|]); intros b Hb; try done; injection Hb as <-; by apply Hf.
    intros (a & t' & -> & Ht). cbn [bind] in Ht.
    assert (∀ e', received t' = [] → runs (Ret (A:=bytes * option End) (b1, Some e')) t' (buf', e) →
      (∀ b, e' ≠ Returned (Ok b)) → sent (answered Read a :: t') = [] ∧
      ∃ fs0, consumed fs0 (buf ++ received t') buf' ∧
        ∀ b, e = Some (Returned (Ok b)) → ∃ f, f ∈ fs0 ∧ answers corr expected b f) as Hend.
    { intros e' Hr [-> [= -> ->]] Hne. split; [done|]. exists fs. rewrite Hr, app_nil_r.
      split; [exact Hc|]. intros b [= ->]. by destruct (Hne b). }
    destruct a as [[|c chunk]| | |].
    + cbn [received app]. apply (Hend (Returned (Err Protocol))); [by destruct Ht as [-> _]|exact Ht|done].
    + apply IH in Ht as (Hs & fs2 & [E2 Hok2] & Hf2). split; [exact Hs|]. exists (fs ++ fs2).
      destruct Hc as [E1 Hok1]. split.
      * split; [|by apply Forall_app]. cbn [received answered]. rewrite E1, fmap_app, concat_app.
        rewrite <-!app_assoc. f_equal. rewrite <-E2. by rewrite <-app_assoc.
      * intros b Hb. destruct (Hf2 b Hb) as (f & Hin & Ha). exists f. split; [|done].
        apply elem_of_app. by right.
    + cbn [received]. apply (Hend (Returned (Err Io))); [by destruct Ht as [-> _]|exact Ht|done].
    + cbn [received]. apply (Hend (Returned (Err ConnectionTimeout))); [by destruct Ht as [-> _]|exact Ht|done].
    + cbn [received]. apply (Hend Cancelled); [by destruct Ht as [-> _]|exact Ht|done].
Qed.

Definition fits (msg : bytes) : Prop :=
  Z.of_nat (length msg) ≤ MAX_RPC_FRAME_LEN - FRAME_OVERHEAD_AFTER_LEN.

Lemma exchange_spec reads c rpc_type msg expected t c' e :
  response_type rpc_type = Ok expected → fits msg →
  runs (exchange reads c rpc_type (Ok msg)) t (c', e) →
  next_corr_id c' = next_corr_id c + 1 ∧
  sent t ++ write_buf (framed c') =
    write_buf (framed c) ++ encode (Frame_ (rpc_byte rpc_type) (next_corr_id c) msg) ∧
  ∃ fs, consumed fs (read_buf (framed c) ++ received t) (read_buf (framed c')) ∧
    ∀ b, e = Some (Returned (Ok b)) → ∃ f, f ∈ fs ∧ answers (next_corr_id c) expected b f.
Proof.
  intros He Hm. unfold exchange. rewrite He.
  intros (t0 & t3 & [f e0] & -> & Hx & [-> [= -> ->]])%runs_bind. rewrite app_nil_r.
  cbn [next_corr_id framed]. split; [done|].
  unfold exchange_frames in Hx.
  rewrite append_frame_serialize_ok, append_frame_bytes_ok in Hx by done.
  set (wb := write_buf (framed c) ++ _) in *.
  apply runs_bind in Hx as (t1 & t2 & r & -> & Hd & Hx).
  apply drain_spec in Hd as (Hr1 & Hsome & Hw).
  destruct (Hsome ltac:(done)) as [[wb' d] ->]. destruct (Hw wb' d eq_refl) as [Hsent Hne].
  rewrite sent_app, received_app, Hr1. cbn [app].
  assert (∀ e', sent t2 = [] → received t2 = [] →
    (f, e0) = (FramedIo_ (read_buf (framed c)) wb', Some e') → (∀ b, Some e' ≠ Some (Returned (Ok b))) →
    (sent t1 ++ sent t2) ++ write_buf f = wb ∧
    ∃ fs, consumed fs (read_buf (framed c) ++ received t2) (read_buf f) ∧
      ∀ b, e0 = Some (Returned (Ok b)) → ∃ f0, f0 ∈ fs ∧ answers (next_corr_id c) expected b f0) as Hend.
  { intros e' Hs2 Hr2 [= -> ->] Hne'. rewrite Hs2, Hr2, !app_nil_r. cbn. split; [done|].
    exists []. split; [by split|]. intros b [= ->]. by destruct (Hne' b). }
  destruct d as [e'|]; [by destruct Hx as [-> Heq]; apply (Hend e')|].
  destruct Hx as (fl & t4 & -> & Hx). cbn [bind] in Hx.
  destruct fl as [[]| | |]; try (destruct Hx as [-> Heq]; by eapply Hend).
  apply runs_bind in Hx as (t5 & t6 & [rb e'] & -> & Hrecv & [-> [= -> ->]]). rewrite app_nil_r.
  apply receive_spec in Hrecv as (Hs5 & fs & Hc & Hf). cbn [sent received answered read_buf write_buf].
  rewrite Hs5, app_nil_r. split; [done|]. by exists fs.
Qed.

(** *** Any number of exchanges, each returned or cancelled *)
Record Call := Call_ { c_type : RpcType; c_msg : bytes; c_trace : trace; c_end : option End }.

Inductive conn_run (reads : nat) : PeerConnection → list Call → PeerConnection → Prop :=
| run_nil c : conn_run reads c [] c
| run_cons c call c1 calls c2 :
    runs (exchange reads c (c_type call) (Ok (c_msg call))) (c_trace call) (c1, c_end call) →
    conn_run reads c1 calls c2 → conn_run reads c (call :: calls) c2.

Definition call_ok (call : Call) : Prop := is_ok (response_type (c_type call)) = true ∧ fits (c_msg call).

(** The frames the calls stage, numbered from [k]. *)
Fixpoint staged (k : Z) (calls : list Call) : bytes :=
  match calls with
  | [] => []
  | call :: calls => encode (Frame_ (rpc_byte (c_type call)) k (c_msg call)) ++ staged (k + 1) calls
  end.
Definition all_sent (calls : list Call) : bytes := concat ((λ c, sent (c_trace c)) <$> calls).
Definition all_received (calls : list Call) : bytes := concat ((λ c, received (c_trace c)) <$> calls).

Lemma conn_run_spec reads c calls c' :
  conn_run reads c calls c' → Forall call_ok calls →
  all_sent calls ++ write_buf (framed c') = write_buf (framed c) ++ staged (next_corr_id c) calls ∧
  ∃ fs, consumed fs (read_buf (framed c) ++ all_received calls) (read_buf (framed c')) ∧
    ∀ i call b, calls !! i = Some call → c_end call = Some (Returned (Ok b)) →
      ∃ f expected, f ∈ fs ∧ response_type (c_type call) = Ok expected ∧
        answers (next_corr_id c + Z.of_nat i) expected b f.
Proof.
  intros H; induction H as [c|c call c1 calls c2 Hx Hrun IH]; intros Hok.
  - cbn. rewrite app_nil_r. split; [done|]. exists []. split; [|done].
    split; [by rewrite app_nil_r|done].
  - apply Forall_cons in Hok as [[Hty Hfit] Hok].
    destruct (response_type (c_type call)) as [expected|] eqn:Er; [|done].
    apply (exchange_spec reads c _ _ expected) in Hx as (Hn & Hs & fs1 & [E1 Hok1] & Hf1); [|done|done].
    destruct (IH Hok) as (Hs2 & fs2 & [E2 Hok2] & Hf2). cbn [staged]. split.
    + unfold all_sent in *. cbn [fmap list_fmap concat]. rewrite <-app_assoc, Hs2, app_assoc, Hs, Hn.
      by rewrite <-app_assoc.
    + exists (fs1 ++ fs2). split.
      * split; [|by apply Forall_app]. unfold all_received in *. cbn [fmap list_fmap concat].
        rewrite app_assoc, E1, fmap_app, concat_app, <-!app_assoc. by rewrite <-E2.
      * intros [|i] cl b Hi Hb.
        -- injection Hi as <-. destruct (Hf1 b Hb) as (f & Hin & Ha). exists f, expected.
           split_and!; [apply elem_of_app; by left|done|]. by rewrite Z.add_0_r.
        -- destruct (Hf2 i cl b Hi Hb) as (f & ex & Hin & Hex & Ha). exists f, ex.
           split_and!; [apply elem_of_app; by right|done|].
           replace (next_corr_id c + Z.of_nat (S i)) with (next_corr_id c1 + Z.of_nat i) by lia. done.
Qed.
End Connection.

(** C33. A connection survives cancellation: after any sequence of exchanges on a fresh
    connection, each returned, failed or dropped at any await, what the socket took
    and what is still staged make up exactly the requests' frames in order; the
    bytes received are whole frames and the staged rest; and every body an exchange
    returned is that of a received frame with its own correlation id and response
    type, never another request's answer. *)
Theorem connection_survives_cancellation reads calls c :
  conn_run reads Client.fresh_connection calls c → Forall call_ok calls →
  all_sent calls ++ Client.write_buf (Client.framed c) = staged 0 calls ∧
  ∃ fs, consumed fs (all_received calls) (Client.read_buf (Client.framed c)) ∧
    ∀ i call b, calls !! i = Some call → c_end call = Some (Client.Returned (Ok b)) →
      ∃ f expected, f ∈ fs ∧ Client.response_type (c_type call) = Ok expected ∧
        answers (Z.of_nat i) expected b f.
Proof. intros Hr Hok. exact (conn_run_spec reads _ calls c Hr Hok). Qed.

(** A vote dropped while its frame is torn, then a heartbeat whose answer follows the
    straggler to the vote. *)
Definition vote_frame : bytes := encode (Frame_ 3 0 (lit "v")).
Definition beat_frame : bytes := encode (Frame_ 1 1 (lit "hb")).
Definition torn_call : Call :=
  Call_ Rpc.Vote (lit "v")
    [answered (E:=Client.Req) (R:=Client.Answer) (Client.Write vote_frame) (Client.Got 5%nat);
     answered (Client.Write (drop 5 vote_frame)) Client.Dropped] (Some Client.Cancelled).
Definition resumed_call : Call :=
  Call_ AppendEntries (lit "hb")
    [answered (E:=Client.Req) (R:=Client.Answer) (Client.Write (drop 5 vote_frame ++ beat_frame))
       (Client.Got 26%nat);
     answered Client.Flush (Client.Got tt);
     answered Client.Read (Client.Got (encode (Frame_ 4 0 (lit "no")) ++ encode (Frame_ 2 1 (lit "ack"))))]
    (Some (Client.Returned (Ok (lit "ack")))).

Lemma connection_survives_cancellation_witness :
  conn_run 1 Client.fresh_connection [torn_call; resumed_call]
    (Client.PeerConnection_ 2 (Client.FramedIo_ [] [])) ∧
  all_sent [torn_call; resumed_call] = vote_frame ++ beat_frame.
Proof.
  assert (conn_run 1 Client.fresh_connection [torn_call; resumed_call]
    (Client.PeerConnection_ 2 (Client.FramedIo_ [] []))) as Hr.
  { eapply (run_cons _ _ _ (Client.PeerConnection_ 1 (Client.FramedIo_ [] (drop 5 vote_frame)))).
    { cbn [c_trace torn_call]. do 2 run_step. run_end. }
    eapply (run_cons _ _ _ (Client.PeerConnection_ 2 (Client.FramedIo_ [] []))); [|constructor].
    cbn [c_trace resumed_call]. do 3 run_step. run_end. }
  split; [exact Hr|].
  pose proof (proj1 (connection_survives_cancellation 1 _ _ Hr
    ltac:(repeat constructor; by vm_compute))) as H.
  cbn [Client.write_buf Client.framed] in H. rewrite app_nil_r in H. exact H.
Defined.

(** ** Votes *)
Import Rpc.VoteGate.

(** C11. An elected leader holds every acknowledged write: let the write at [w] be held
    by its leader and by as many acknowledging voters as the sync list requires, each
    with its own WAL read at or past [w]; let a candidate win any Raft majority, every
    other voter of which let its vote through the gate on the position the candidate
    sent.  The candidate sent a position, and it is within the committed threshold of
    [w]: at or past it under committed sync, whose threshold is zero. *)
Theorem elected_leader_holds_acknowledged_writes
    (vs acks majority : gset NodeId) (old candidate : NodeId) (own : NodeId → OwnWal)
    (state : ClusterState) (w : Z) :
  is_u64 w →
  old ∈ vs → acks ⊆ vs ∖ {[old]} →
  (required_sync_standbys (length (peer_voter_names vs old)) ≤ size acks)%nat →
  (∀ n, n = old ∨ n ∈ acks → ∃ p, own n = At p ∧ w ≤ p) →
  majority ⊆ vs → (size vs < 2 * size majority)%nat →
  (∀ n, n ∈ majority → n = candidate ∨
     vote_lsn_gate (position (own candidate)) (own n) (vote_lsn_threshold_bytes state) = Ok tt) →
  ∃ p, position (own candidate) = Some p ∧ w ≤ p + vote_lsn_threshold_bytes state ∧
    (sync_replication_active state ≠ Some false → w ≤ p).
Proof.
  intros Hw Hold Ha Hr Hheld Hm Hmaj Hgate.
  destruct (write_set_intersects vs acks majority old) as (n & Hn & Hset); try done.
  destruct (Hheld n Hset) as (q & Hq & Hle).
  assert (0 ≤ vote_lsn_threshold_bytes state) as Ht.
  { unfold vote_lsn_threshold_bytes. destruct (bool_decide _); by vm_compute. }
  assert (∃ p, position (own candidate) = Some p ∧ w ≤ p + vote_lsn_threshold_bytes state)
    as (p & Hp & Hpw).
  { destruct (Hgate n Hn) as [->|Hg].
    - rewrite Hq. exists q. split; [done|lia].
    - rewrite Hq in Hg. unfold vote_lsn_gate in Hg.
      destruct (position (own candidate)) as [p|]; [|done]. exists p. split; [done|].
      destruct (Z.leb_spec q (sat_add_u64 p (vote_lsn_threshold_bytes state))) as [Hx|]; [|done].
      unfold sat_add in Hx. lia. }
  exists p. split_and!; [done|done|]. intros Hs. unfold vote_lsn_threshold_bytes in Hpw.
  rewrite bool_decide_eq_false_2 in Hpw by done. lia.
Qed.

Definition wal_of (n : NodeId) : OwnWal := if n =? 3 then At 50 else At 100.
Lemma elected_leader_holds_acknowledged_writes_witness :
  ∃ p, position (wal_of 2) = Some p ∧ 100 ≤ p.
Proof.
  destruct (elected_leader_holds_acknowledged_writes {[1; 2; 3]} {[2]} {[2; 3]} 1 2 wal_of
    (set_sync_active (Some true) new) 100) as (p & Hp & _ & Hw).
  - by vm_compute.
  - set_solver.
  - set_solver.
  - vm_compute. lia.
  - intros n [->|Hn]; [by exists 100|]. apply elem_of_singleton in Hn as ->. by exists 100.
  - set_solver.
  - vm_compute. lia.
  - intros n Hn. apply elem_of_union in Hn as [Hn|Hn]; apply elem_of_singleton in Hn as ->.
    + by left.
    + right. reflexivity.
  - exists p. split; [exact Hp|]. apply Hw. done.
Defined.

Section Dispatch.
Context {AppendReq AppendResp SnapshotReq SnapshotResp VoteRequest RaftVote LogId : Type}.
Variable decode_append : bytes → result RpcError AppendReq.
Variable decode_vote : bytes → result RpcError (@VoteFrame VoteRequest).
Variable decode_snapshot : bytes → result RpcError SnapshotReq.
Variable encode_append : AppendResp → result RpcError bytes.
Variable encode_vote : @VoteResponse RaftVote LogId → result RpcError bytes.
Variable encode_snapshot : SnapshotResp → result RpcError bytes.
Abbreviation ans := (@VoteGate.Answer AppendReq AppendResp SnapshotReq SnapshotResp VoteRequest RaftVote LogId).
Abbreviation hist := (list (event ans)).
Abbreviation dispatch := (process_request decode_append decode_vote decode_snapshot
  encode_append encode_vote encode_snapshot).

(** The evidence a vote reaches openraft on: this node's own WAL as read just now, the
    committed threshold read after it, and the gate open for the position it carries. *)
Definition vote_evidence (frame : @VoteFrame VoteRequest) (h : hist) : Prop :=
  ∃ h1 own threshold,
    h = h1 ++ [answered (R:=ans) VoteThreshold threshold] ∧
    runs read_local_wal h1 own ∧
    vote_lsn_gate (candidate_lsn frame) own threshold = Ok tt.

Definition dispatch_ok (rpc_type : RpcType) (body : bytes) (h : hist)
    (e : @VoteGate.Req AppendReq SnapshotReq VoteRequest) : Prop :=
  match e with
  | RaftVoteReq req => rpc_type = Rpc.Vote ∧
      ∃ frame, decode_vote body = Ok frame ∧ req = request frame ∧ vote_evidence frame h
  | RaftAppend req => rpc_type = AppendEntries ∧ decode_append body = Ok req
  | RaftInstall req => rpc_type = InstallSnapshot ∧ decode_snapshot body = Ok req
  | _ => True
  end.

(** A response on the wire: the request's response type under its correlation id. *)
Definition response_frame (rpc_type : RpcType) (corr_id : Z) (buf buf' : bytes) : Prop :=
  ∃ msg expected, Client.response_type rpc_type = Ok expected ∧
    append_frame_serialize buf (rpc_byte expected) corr_id (Ok msg) = (buf', Ok tt).

Lemma local_wal_safe rpc_type body (h : hist) :
  safe any_answer (dispatch_ok rpc_type body) h read_local_wal (λ h' own, True).
Proof.
  unfold read_local_wal. safe_ask r.
  assert (safe any_answer (dispatch_ok rpc_type body) (h ++ [answered ReportableLsn r])
    (let* has := ask HasDataDirectory in
     if negb has then Ret Empty
     else let* stopped := ask StoppedWalEnd in
          Ret (match stopped with Answered (Ok (Some lsn)) => At lsn | _ => Unknown end))%prog
    (λ _ _, True)) as Hrest.
  { safe_ask has. destruct has; cbn [negb]; [|done]. by safe_ask st. }
  by destruct r as [[t|e]| |].
Qed.

Lemma respond_frame rpc_type expected corr_id buf msg buf' :
  Client.response_type rpc_type = Ok expected →
  respond buf expected corr_id msg = (buf', Ok tt) → response_frame rpc_type corr_id buf buf'.
Proof.
  intros He. unfold respond. destruct msg as [m|e]; [|by intros [=]]. intros H. by exists m, expected.
Qed.

Lemma dispatch_safe rpc_type body corr_id buf :
  safe any_answer (dispatch_ok rpc_type body) [] (dispatch rpc_type body corr_id buf)
    (λ _ r, r.2 = Ok tt → response_frame rpc_type corr_id buf r.1).
Proof.
  unfold process_request. destruct rpc_type; try done.
  - destruct (decode_append body) as [req|e] eqn:Ed; [|done].
    cbn [bind Effects.ask safe]. split; [done|intros r _].
    destruct r as [resp|e]; [|done]. intros H.
    destruct (respond _ _ _ _) as [b' r'] eqn:Er. cbn [fst snd] in *. subst r'. refine (respond_frame _ _ _ _ _ _ _ Er); reflexivity.
  - destruct (decode_vote body) as [frame|e] eqn:Ed; [|done].
    apply safe_bind. eapply safe_post; [apply safe_trace, local_wal_safe|].
    intros h own [(t1 & -> & Ht1) _]. cbn [app]. safe_ask th.
    destruct (vote_lsn_gate (candidate_lsn frame) own th) as [[]|ref] eqn:Eg; cbn [is_ok].
    + cbn [bind Effects.ask safe]. split.
      { split; [done|]. exists frame. split_and!; [done|done|]. by exists t1, own, th. }
      intros r _. destruct r as [resp|e]; [|done]. cbn [safe]. intros H.
      destruct (respond _ _ _ _) as [b' r'] eqn:Er. cbn [fst snd] in *. subst r'. refine (respond_frame _ _ _ _ _ _ _ Er); reflexivity.
    + safe_ask v. cbn [safe]. intros H.
      destruct (respond _ _ _ _) as [b' r'] eqn:Er. cbn [fst snd] in *. subst r'. refine (respond_frame _ _ _ _ _ _ _ Er); reflexivity.
  - destruct (decode_snapshot body) as [req|e] eqn:Ed; [|done].
    cbn [bind Effects.ask safe]. split; [done|intros r _].
    destruct r as [resp|e]; [|done]. intros H.
    destruct (respond _ _ _ _) as [b' r'] eqn:Er. cbn [fst snd] in *. subst r'. refine (respond_frame _ _ _ _ _ _ _ Er); reflexivity.
Qed.

(** C12. A vote reaches openraft only past the gate, and every answer is the request's:
    [process_request] hands openraft a vote only for a vote request it decoded, after
    it read this node's own WAL and then the committed threshold, with the gate open
    for the position the frame carries; it hands over nothing of another request's
    type; and when it succeeds the buffer gained exactly one frame, of the request's
    response type under its correlation id. *)
Theorem votes_reach_raft_only_past_the_gate rpc_type body corr_id buf t :
  (∀ e, issues (dispatch rpc_type body corr_id buf) t e → dispatch_ok rpc_type body t e) ∧
  (∀ buf', runs (dispatch rpc_type body corr_id buf) t (buf', Ok tt) →
     response_frame rpc_type corr_id buf buf').
Proof.
  split.
  - intros e Hi. exact (safe_issues _ _ _ _ _ _ _ (dispatch_safe rpc_type body corr_id buf) Hi (relies_any _ _)).
  - intros buf' Hr.
    exact (safe_runs _ _ _ _ _ _ _ (dispatch_safe rpc_type body corr_id buf) Hr (relies_any _ _) eq_refl).
Qed.
End Dispatch.

(** Codecs that are the identity, and a voter at 100 asked by a candidate at 100. *)
Definition plain : bytes → result RpcError bytes := Ok.
Definition plain_vote (b : bytes) : result RpcError (@VoteFrame bytes) :=
  Ok (VoteFrame_ b (Some 100)).
Definition plain_answer (r : @VoteResponse () ()) : result RpcError bytes :=
  Ok (if vote_granted r then lit "yes" else lit "no").
Abbreviation plain_ans := (@VoteGate.Answer bytes bytes bytes bytes bytes () ()).
Definition plain_request : prog plain_ans (bytes * result RpcError ()) :=
  process_request plain plain_vote plain plain plain_answer plain Rpc.Vote (lit "v") 7 [].
Definition voting : list (event plain_ans) :=
  [answered (R:=plain_ans) ReportableLsn (Answered (Ok (lit "0/64"))); answered VoteThreshold 0].

Lemma votes_reach_raft_only_past_the_gate_witness :
  issues plain_request voting (RaftVoteReq (lit "v")) ∧
  dispatch_ok plain plain_vote plain Rpc.Vote (lit "v") voting (RaftVoteReq (lit "v")).
Proof.
  assert (issues plain_request voting (RaftVoteReq (lit "v"))) as Hi
    by (do 2 issue_step; issue_end; reflexivity).
  split; [exact Hi|].
  exact (proj1 (votes_reach_raft_only_past_the_gate plain plain_vote plain plain plain_answer plain
    Rpc.Vote (lit "v") 7 [] voting) _ Hi).
Defined.
