(* ===== verification/Storage.v ===== *)
(** * The Raft log store ([src/governor/storage.rs])

    [Store] is the content of [raft.db]: redb's three tables, as they are after the
    last committed write transaction.  Each method is one transaction: a function
    from the store to the store it commits, or an error.  postcard is the class
    [Postcard], SHA-256 a parameter; redb is the three maps, and what a failing or
    torn transaction leaves is decided where the transactions are run
    ([RaftStore.exec]).  Theorems: [StorageProofs.v]. *)

From S2P Require Import Prelude Text Net ClusterState.

(** [Error::Storage] and [Error::Serialization], messages left out. *)
Inductive Error := EStorage | ESerialization.

(** postcard at one type: [to_allocvec] and [from_bytes].  Decoding inverts
    encoding; nothing is assumed of bytes nobody encoded. *)
Class Postcard (A : Type) := {
  to_allocvec : A → result Error bytes;
  from_bytes : bytes → result Error A;
}.
Class PostcardLaws (A : Type) `{Postcard A} :=
  from_to : ∀ a b, to_allocvec a = Ok b → from_bytes b = Ok a.

(** ** Records *)
Record LocalStoredMembership := LocalStoredMembership_ {
  log_id_index : option Z;
  log_id_term : option Z;
  log_id_leader_node_id : NodeId;
  configs : list (list NodeId);
  mem_nodes : list (NodeId * bytes);
}.

Inductive LogEntryPayload :=
| PBlank
| PNormal (command : ClusterCommand)
| PMembership (membership : LocalStoredMembership).

Record LogEntry := LogEntry_ {
  index : Z;
  term : Z;
  leader_node_id : NodeId;
  payload : LogEntryPayload;
}.

Record Vote := Vote_ { vote_term : Z; voted_for : option NodeId; committed : bool }.
Definition vote_default : Vote := Vote_ 0 None false.

Record LastAppliedState := LastAppliedState_ {
  last_applied_term : option Z;
  last_applied_index : option Z;
  last_applied_leader_node_id : NodeId;
}.
Definition last_applied_default : LastAppliedState := LastAppliedState_ None None 0.

Record SnapshotMeta := SnapshotMeta_ {
  last_applied : LastAppliedState;
  snap_membership : LocalStoredMembership;
}.

Record PurgedLogId := PurgedLogId_ { purged_term : Z; purged_leader_node_id : NodeId; purged_index : Z }.

(** Every record postcard stores here, and both [ClusterState] layouts. *)
Class StoreCodecs := {
  codec_entry :: Postcard LogEntry;
  codec_vote :: Postcard Vote;
  codec_applied :: Postcard LastAppliedState;
  codec_membership :: Postcard LocalStoredMembership;
  codec_meta :: Postcard SnapshotMeta;
  codec_purged :: Postcard PurgedLogId;
  codec_state :: Postcard ClusterState;
  codec_state_v0 :: Postcard ClusterStateV0;
}.
Class StoreCodecLaws `{StoreCodecs} := {
  laws_entry :: PostcardLaws LogEntry;
  laws_vote :: PostcardLaws Vote;
  laws_applied :: PostcardLaws LastAppliedState;
  laws_membership :: PostcardLaws LocalStoredMembership;
  laws_meta :: PostcardLaws SnapshotMeta;
  laws_purged :: PostcardLaws PurgedLogId;
  laws_state :: PostcardLaws ClusterState;
  laws_state_v0 :: PostcardLaws ClusterStateV0;
}.

(** ** The three tables *)
Record Store := Store_ {
  LOGS_TABLE : gmap Z bytes;
  META_TABLE : gmap bytes bytes;
  SNAPSHOT_TABLE : gmap bytes bytes;
}.
Definition empty_store : Store := Store_ ∅ ∅ ∅.

Definition set_logs v st := Store_ v (META_TABLE st) (SNAPSHOT_TABLE st).
Definition put_meta k v st := Store_ (LOGS_TABLE st) (<[k := v]> (META_TABLE st)) (SNAPSHOT_TABLE st).
Definition put_snapshot k v st := Store_ (LOGS_TABLE st) (META_TABLE st) (<[k := v]> (SNAPSHOT_TABLE st)).

(** The keys, as the source spells them. *)
Definition SCHEMA_VERSION_KEY : bytes := lit "schema_version".
Definition VOTE_KEY : bytes := lit "vote".
Definition LAST_PURGED_KEY : bytes := lit "last_purged".
Definition LAST_APPLIED_KEY : bytes := lit "last_applied".
Definition APPLIED_MEMBERSHIP_KEY : bytes := lit "applied_membership".
Definition DATA_KEY : bytes := lit "data".
Definition META_KEY : bytes := lit "meta".
Definition DIGEST_KEY : bytes := lit "data_sha256".

Definition STORE_SCHEMA_VERSION : Z := 1.

(** [u32::from_le_bytes] and [to_le_bytes]. *)
Fixpoint from_le (b : bytes) : Z :=
  match b with [] => 0 | x :: b' => byte_z x + 256 * from_le b' end.
Fixpoint to_le (n : nat) (v : Z) : bytes :=
  match n with O => [] | S n' => z_byte v :: to_le n' (v / 256) end.

Definition decode_schema_version (b : bytes) : result Error Z :=
  if (length b =? 4)%nat then Ok (from_le b) else Err EStorage.

(** Why redb did not open a file. *)
Inductive DatabaseError :=
| RepairAborted
| StorageCorrupted
| StorageIo (invalid_data : bool)
| OtherDatabaseError.

Definition is_corruption (e : DatabaseError) : bool :=
  match e with
  | RepairAborted | StorageCorrupted => true
  | StorageIo invalid_data => invalid_data
  | OtherDatabaseError => false
  end.

(** Which error [RedbLogStorage::new] answers: the one that tells an operator to
    discard the store, or a plain one. *)
Inductive OpenError := Corrupted | Plain (e : Error).

(** What [redb::Builder::create] did with the file. *)
Inductive Created := Opened (st : Store) | CreateFailed (e : DatabaseError) | Panicked.

Section Store.
Context `{StoreCodecs}.
Variable sha256 : bytes → bytes.

Definition decode {A} `{Postcard A} (b : bytes) : result Error A :=
  match from_bytes b with Ok a => Ok a | Err _ => Err EStorage end.

(** [table.get(key)?], decoded when present. *)
Definition get_decoded {A} `{Postcard A} (o : option bytes) : result Error (option A) :=
  match o with
  | Some v => let! a := decode v in Ok (Some a)
  | None => Ok None
  end.

(** ** Opening *)
Definition migrate_snapshot_v0_to_v1 (st : Store) : result Error Store :=
  match SNAPSHOT_TABLE st !! DATA_KEY with
  | None => Ok st
  | Some data =>
      if is_ok (from_bytes (A := ClusterState) data) then Ok st else
      match decode_snapshot from_bytes from_bytes data with
      | Err _ => Err EStorage
      | Ok state =>
          let! migrated := to_allocvec state in
          Ok (put_snapshot DIGEST_KEY (sha256 migrated) (put_snapshot DATA_KEY migrated st))
      end
  end.

Definition ensure_schema_version (st : Store) : result Error Store :=
  let! found :=
    match META_TABLE st !! SCHEMA_VERSION_KEY with
    | Some value => let! v := decode_schema_version value in Ok (v, true)
    | None => Ok (0, false)
    end in
  let '(on_disk, key_present) := found in
  if STORE_SCHEMA_VERSION <? on_disk then Err EStorage else
  let! st1 := if on_disk <? 1 then migrate_snapshot_v0_to_v1 st else Ok st in
  if negb key_present || negb (on_disk =? STORE_SCHEMA_VERSION)
  then Ok (put_meta SCHEMA_VERSION_KEY (to_le 4 STORE_SCHEMA_VERSION) st1)
  else Ok st1.

Definition open_and_init (created : Created) : result OpenError Store :=
  match created with
  | Opened st => match ensure_schema_version st with Ok st' => Ok st' | Err e => Err (Plain e) end
  | CreateFailed e => Err (if is_corruption e then Corrupted else Plain EStorage)
  | Panicked => Err Corrupted
  end.

(** [RedbLogStorage::new]; [file_len] is the length of a file already there. *)
Definition new (file_len : option Z) (created : Created) : result OpenError Store :=
  if match file_len with Some n => n <? 4096 | None => false end then Err Corrupted
  else open_and_init created.

(** ** The log *)
Fixpoint insert_entries (entries : list LogEntry) (t : gmap Z bytes) : result Error (gmap Z bytes) :=
  match entries with
  | [] => Ok t
  | e :: rest => let! b := to_allocvec e in insert_entries rest (<[index e := b]> t)
  end.

Definition append_entries (entries : list LogEntry) (st : Store) : result Error Store :=
  match entries with
  | [] => Ok st
  | _ => let! t := insert_entries entries (LOGS_TABLE st) in Ok (set_logs t st)
  end.

(** [retain_in(from.., |_, _| false)]: only keys below [from] stay. *)
Definition delete_from (from_index : Z) (st : Store) : result Error Store :=
  Ok (set_logs (filter (λ kv, kv.1 < from_index) (LOGS_TABLE st)) st).

Definition delete_up_to (purge : PurgedLogId) (st : Store) : result Error Store :=
  let st1 := set_logs (filter (λ kv, purged_index purge < kv.1) (LOGS_TABLE st)) st in
  let! b := to_allocvec purge in
  Ok (put_meta LAST_PURGED_KEY b st1).

Definition load_last_purged (st : Store) : result Error (option PurgedLogId) :=
  get_decoded (META_TABLE st !! LAST_PURGED_KEY).

Definition get_entry (i : Z) (st : Store) : result Error (option LogEntry) :=
  get_decoded (LOGS_TABLE st !! i).

(** The keys of [table.range(start..end)], ascending as a B-tree yields them. *)
Definition sorted_keys (t : gmap Z bytes) : list Z := merge_sort Z.le (elements (dom t)).
Definition range_keys (start end_ : Z) (t : gmap Z bytes) : list Z :=
  filter (λ k, start ≤ k < end_) (sorted_keys t).

Fixpoint decode_keys (ks : list Z) (t : gmap Z bytes) : result Error (list LogEntry) :=
  match ks with
  | [] => Ok []
  | k :: ks' =>
      match t !! k with
      | Some v => let! e := decode v in let! es := decode_keys ks' t in Ok (e :: es)
      | None => decode_keys ks' t
      end
  end.

Definition get_entries (start end_ : Z) (st : Store) : result Error (list LogEntry) :=
  decode_keys (range_keys start end_ (LOGS_TABLE st)) (LOGS_TABLE st).

Definition last_entry (st : Store) : result Error (option LogEntry) :=
  match list.last (sorted_keys (LOGS_TABLE st)) with
  | Some k => get_decoded (LOGS_TABLE st !! k)
  | None => Ok None
  end.

(** ** Vote, snapshot, applied position *)
Definition save_vote (vote : Vote) (st : Store) : result Error Store :=
  let! b := to_allocvec vote in Ok (put_meta VOTE_KEY b st).

Definition load_vote (st : Store) : result Error Vote :=
  match META_TABLE st !! VOTE_KEY with Some v => decode v | None => Ok vote_default end.

Definition write_snapshot (meta : SnapshotMeta) (data : bytes) (update_applied : bool) (st : Store)
    : result Error Store :=
  let digest := sha256 data in
  let! meta_bytes := to_allocvec meta in
  let st1 := put_snapshot DIGEST_KEY digest
    (put_snapshot META_KEY meta_bytes (put_snapshot DATA_KEY data st)) in
  if update_applied then
    let! applied_bytes := to_allocvec (last_applied meta) in
    let! membership_bytes := to_allocvec (snap_membership meta) in
    Ok (put_meta APPLIED_MEMBERSHIP_KEY membership_bytes (put_meta LAST_APPLIED_KEY applied_bytes st1))
  else Ok st1.

Definition save_snapshot (meta : SnapshotMeta) (data : bytes) : Store → result Error Store :=
  write_snapshot meta data false.
Definition save_installed_snapshot (meta : SnapshotMeta) (data : bytes) : Store → result Error Store :=
  write_snapshot meta data true.

Definition load_snapshot_verified (st : Store) : result Error (option bytes) :=
  match SNAPSHOT_TABLE st !! DATA_KEY with
  | None => Ok None
  | Some data =>
      match SNAPSHOT_TABLE st !! DIGEST_KEY with
      | Some expected => if bool_decide (expected ≠ sha256 data) then Err EStorage else Ok (Some data)
      | None => Err EStorage
      end
  end.

Definition load_snapshot_meta (st : Store) : result Error (option SnapshotMeta) :=
  get_decoded (SNAPSHOT_TABLE st !! META_KEY).

Definition has_membership (st : Store) : bool :=
  bool_decide (is_Some (META_TABLE st !! APPLIED_MEMBERSHIP_KEY)).

Definition save_applied_membership_and_last_applied (membership : LocalStoredMembership)
    (state : LastAppliedState) (st : Store) : result Error Store :=
  let! membership_bytes := to_allocvec membership in
  let! state_bytes := to_allocvec state in
  Ok (put_meta LAST_APPLIED_KEY state_bytes (put_meta APPLIED_MEMBERSHIP_KEY membership_bytes st)).

Definition load_applied_membership (st : Store) : result Error (option LocalStoredMembership) :=
  get_decoded (META_TABLE st !! APPLIED_MEMBERSHIP_KEY).

Definition save_last_applied (state : LastAppliedState) (st : Store) : result Error Store :=
  let! b := to_allocvec state in Ok (put_meta LAST_APPLIED_KEY b st).

Definition load_last_applied (st : Store) : result Error LastAppliedState :=
  match META_TABLE st !! LAST_APPLIED_KEY with Some v => decode v | None => Ok last_applied_default end.

Definition load_applied_position (st : Store)
    : result Error (LastAppliedState * option LocalStoredMembership) :=
  let! last := load_last_applied st in
  let! membership := load_applied_membership st in
  Ok (last, membership).

End Store.
