(* ===== verification/RaftStore.v ===== *)
(** * openraft's storage traits over the log store ([src/governor/raft.rs])

    [LogStorageAdapter] (log and vote) and [StateMachineStore] (the replicated state
    with its durable position and snapshots), and the rebuild of the state at boot.
    A trait method is a program over [Req]: one redb transaction, one critical section
    of the state's lock, one access of [applied_end].  [exec] says what a request does,
    redb's failures included.  openraft's data types are written out; its
    [Membership::new] is a parameter.  Theorems: [RaftStoreProofs.v]. *)

From S2P Require Import Prelude Effects Text Net ClusterState Storage.

(** ** openraft's data *)
Record LogId := LogId_ { id_term : Z; id_node : NodeId; id_index : Z }.
(** Joint configs, each an ascending [BTreeSet], and the ascending node map. *)
Record Membership := Membership_ {
  joint_config : list (list NodeId);
  node_map : list (NodeId * bytes);
}.
Inductive EntryPayload := EBlank | ENormal (command : ClusterCommand) | EMembership (m : Membership).
Record Entry := Entry_ { log_id : LogId; entry_payload : EntryPayload }.
Record StoredMembership := StoredMembership_ { stored_log_id : option LogId; membership : Membership }.
Record OpenRaftVote := OpenRaftVote_ { leader_term : Z; leader_node : NodeId; is_committed : bool }.
Record LogState := LogState_ { last_purged_log_id : option LogId; last_log_id : option LogId }.
Record RaftSnapshotMeta := RaftSnapshotMeta_ {
  meta_last_log_id : option LogId;
  meta_last_membership : StoredMembership;
  snapshot_id : bytes;
}.
Definition membership_default : StoredMembership := StoredMembership_ None (Membership_ [] []).

(** [BTreeSet] and [BTreeMap] built from an iterator: ascending, a later key wins. *)
Fixpoint set_insert (x : Z) (l : list Z) : list Z :=
  match l with
  | [] => [x]
  | y :: l' => if x <? y then x :: l else if x =? y then l else y :: set_insert x l'
  end.
Definition btree_set (l : list Z) : list Z := foldl (λ s x, set_insert x s) [] l.
Fixpoint map_insert (k : Z) (v : bytes) (l : list (Z * bytes)) : list (Z * bytes) :=
  match l with
  | [] => [(k, v)]
  | (k', v') :: l' =>
      if k <? k' then (k, v) :: l else if k =? k' then (k, v) :: l' else (k', v') :: map_insert k v l'
  end.
Definition btree_map (l : list (Z * bytes)) : list (Z * bytes) := foldl (λ s kv, map_insert kv.1 kv.2 s) [] l.

(** A [RangeBounds<u64>]. *)
Inductive Bound := Included (n : Z) | Excluded (n : Z) | UnboundedB.

Record ClusterResponse := ClusterResponse_ { success : bool; outcome : CommandOutcome }.
Definition response_applied : ClusterResponse := ClusterResponse_ true Applied.

(** ** Conversions *)
Definition make_log_id (term : Z) (node_id : NodeId) (index : Z) : LogId := LogId_ term node_id index.

Definition last_applied_log_id (s : LastAppliedState) : option LogId :=
  match last_applied_term s, last_applied_index s with
  | Some t, Some i => Some (make_log_id t (last_applied_leader_node_id s) i)
  | _, _ => None
  end.

Definition log_id_to_last_applied (l : option LogId) : LastAppliedState :=
  LastAppliedState_ (id_term <$> l) (id_index <$> l) (match l with Some i => id_node i | None => 0 end).

Definition snapshot_id_of (s : LastAppliedState) : bytes :=
  show_u64 (default 0 (last_applied_term s)) ++ lit "-" ++ show_u64 (default 0 (last_applied_index s)).

Definition membership_to_local (l : option LogId) (m : Membership) : LocalStoredMembership :=
  LocalStoredMembership_ (id_index <$> l) (id_term <$> l)
    (match l with Some i => id_node i | None => 0 end) (joint_config m) (node_map m).

(** The voters and the learners of a stored membership, by config membership. *)
Definition split_membership_nodes (local : LocalStoredMembership)
    : list (NodeId * bytes) * list (NodeId * bytes) :=
  let voter_ids : gset NodeId := list_to_set (concat (configs local)) in
  (filter (λ n, n.1 ∈ voter_ids) (mem_nodes local), filter (λ n, n.1 ∉ voter_ids) (mem_nodes local)).

Definition openraft_to_log_entry (entry : Entry) : LogEntry :=
  let id := log_id entry in
  LogEntry_ (id_index id) (id_term id) (id_node id)
    (match entry_payload entry with
     | EBlank => PBlank
     | ENormal command => PNormal command
     | EMembership m =>
         PMembership (LocalStoredMembership_ (Some (id_index id)) (Some (id_term id)) (id_node id)
           (joint_config m) (node_map m))
     end).

(** The members in a list, as [track_membership_nodes] collects them (it only logs
    an error about one the state does not know). *)
Definition track_membership_nodes (members : list (NodeId * bytes)) (ids : gset NodeId) : gset NodeId :=
  foldl (λ s m, {[ m.1 ]} ∪ s) ids members.

(** [state.apply(RemoveNode(id))] for every node the membership no longer has; the
    order is the hash map's. *)
Definition sync_membership_into (voters learners : list (NodeId * bytes)) (state : ClusterState)
    : ClusterState :=
  let ids := track_membership_nodes learners (track_membership_nodes voters ∅) in
  let nodes_to_remove := filter (λ id, id ∉ ids) (map_to_list (nodes state)).*1 in
  let state := foldl (λ s id, (apply s (RemoveNode id)).1) state nodes_to_remove in
  set_members (list_to_set voters.*1) (list_to_set learners.*1) state.

(** Snapshot data against the position its metadata records. *)
Definition state_at_snapshot_position (state : ClusterState) (position : option Z)
    : result Error ClusterState :=
  match position with
  | None => Ok state
  | Some position =>
      match applied_index state with
      | None => Ok (set_applied_index (Some position) state)
      | Some applied => if applied <? position then Err EStorage else Ok state
      end
  end.

(** [applied_end]: the exclusive end of the applied range. *)
Definition end_of (index : option Z) : Z :=
  match index with Some i => sat_add_u64 i 1 | None => 0 end.

Section RaftStore.
Context `{StoreCodecs}.
Variable sha256 : bytes → bytes.
Variable membership_new : list (list NodeId) → list (NodeId * bytes) → Membership.

Definition local_to_stored_membership (local : LocalStoredMembership) : StoredMembership :=
  let log_id :=
    match log_id_term local, log_id_index local with
    | Some t, Some i => Some (make_log_id t (log_id_leader_node_id local) i)
    | _, _ => None
    end in
  StoredMembership_ log_id
    (membership_new (btree_set <$> configs local) (btree_map (mem_nodes local))).

Definition log_entry_to_openraft (entry : LogEntry) : Entry :=
  Entry_ (make_log_id (term entry) (leader_node_id entry) (index entry))
    (match payload entry with
     | PBlank => EBlank
     | PNormal command => ENormal command
     | PMembership stored =>
         EMembership (membership_new (btree_set <$> configs stored) (btree_map (mem_nodes stored)))
     end).

(** ** Boot *)
Definition load_snapshot_state (st : Store) : result Error (ClusterState * Z) :=
  let! found := load_snapshot_meta st in
  match found with
  | None => Ok (ClusterState.new, 0)
  | Some meta =>
      let! found := load_snapshot_verified sha256 st in
      let! data := ok_or found EStorage in
      let! state := from_bytes data in
      let position := last_applied_index (last_applied meta) in
      let! state := state_at_snapshot_position state position in
      Ok (state, end_of position)
  end.

Definition replay_entry (state : ClusterState) (entry : LogEntry) : ClusterState :=
  match payload entry with
  | PNormal cmd => (apply_entry state (index entry) cmd).1
  | PMembership membership =>
      if reflects state (index entry) then state
      else
        let '(voters, learners) := split_membership_nodes membership in
        note_applied (sync_membership_into voters learners state) (index entry)
  | PBlank => note_applied state (index entry)
  end.

Definition replay_applied_entries (st : Store) (state : ClusterState) (from : Z)
    : result Error ClusterState :=
  let! last_applied := load_last_applied st in
  match last_applied_index last_applied with
  | None => Ok state
  | Some last =>
      if last <? from then Ok state else
      let! entries := get_entries from (sat_add_u64 last 1) st in
      Ok (foldl replay_entry state entries)
  end.

(** What [Governor::new_with_tls] does to the state: the snapshot, this node's and its
    configured peers' records over it, then the log. *)
Definition restore (configured : list NodeInfo) (st : Store) : result Error ClusterState :=
  let! base := load_snapshot_state st in
  let '(restored, replay_from) := base in
  let restored := foldl (λ s info, (apply s (AddNode info)).1) restored configured in
  replay_applied_entries st restored replay_from.

(** ** Requests *)
Inductive Req : Type :=
| Io {A : Type} (op : Store → result Error (Store * A))      (* a transaction, on the blocking pool *)
| WithState {A : Type} (f : ClusterState → ClusterState * A) (* one hold of the state's lock *)
| LoadEnd
| StoreEnd (e : Z)
| Flushed (ok : bool).                                       (* [callback.log_io_completed] *)

Definition Answer (r : Req) : Type :=
  match r with
  | @Io A _ => result Error A
  | @WithState A _ => A
  | LoadEnd => Z
  | StoreEnd _ | Flushed _ => unit
  end.
Abbreviation io := (prog Answer).
Abbreviation ask := (@Effects.ask Req Answer).

Definition reading {A} (op : Store → result Error A) : io (result Error A) :=
  ask (Io (λ st, let! a := op st in Ok (st, a))).
Definition storage_io (op : Store → result Error Store) : io (result Error ()) :=
  ask (Io (λ st, let! st' := op st in Ok (st', tt))).

(** ** [LogStorageAdapter] *)
Definition entries_in (start_bound end_bound : Bound) : io (result Error (list Entry)) :=
  let start := match start_bound with
    Included n => n | Excluded n => sat_add_u64 n 1 | UnboundedB => 0 end in
  let end_ := match end_bound with
    Included n => sat_add_u64 n 1 | Excluded n => n | UnboundedB => u64_max end in
  let? entries := reading (get_entries start end_) in
  Ret (Ok (log_entry_to_openraft <$> entries)).

Definition log_state : io (result Error LogState) :=
  let? last := reading last_entry in
  let? purged := reading load_last_purged in
  let last_purged :=
    (λ p, make_log_id (purged_term p) (purged_leader_node_id p) (purged_index p)) <$> purged in
  let last_log_id :=
    match (λ e, make_log_id (term e) (leader_node_id e) (index e)) <$> last with
    | Some id => Some id
    | None => last_purged
    end in
  Ret (Ok (LogState_ last_purged last_log_id)).

Definition stored_vote : io (result Error (option OpenRaftVote)) :=
  let? vote := reading load_vote in
  if (vote_term vote =? 0) && bool_decide (voted_for vote = None) then Ret (Ok None)
  else Ret (Ok (Some (OpenRaftVote_ (vote_term vote) (default 0 (voted_for vote)) (committed vote)))).

Definition save_vote (vote : OpenRaftVote) : io (result Error ()) :=
  storage_io (Storage.save_vote (Vote_ (leader_term vote) (Some (leader_node vote)) (is_committed vote))).

Definition append (entries : list Entry) : io (result Error ()) :=
  match openraft_to_log_entry <$> entries with
  | [] => ask (Flushed true);; Ret (Ok tt)
  | log_entries =>
      let* r := storage_io (append_entries log_entries) in
      match r with
      | Err e => ask (Flushed false);; Ret (Err e)
      | Ok _ => ask (Flushed true);; Ret (Ok tt)
      end
  end.

Definition truncate (log_id : LogId) : io (result Error ()) :=
  storage_io (delete_from (id_index log_id)).

Definition purge (log_id : LogId) : io (result Error ()) :=
  storage_io (delete_up_to (PurgedLogId_ (id_term log_id) (id_node log_id) (id_index log_id))).

(** ** [StateMachineStore] *)
Definition load_applied_state : io (result Error (option LogId * StoredMembership)) :=
  let? last_applied := reading load_last_applied in
  ask (StoreEnd (end_of (last_applied_index last_applied)));;
  let log_id := last_applied_log_id last_applied in
  let? persisted := reading load_applied_membership in
  match persisted with
  | Some local_mem => Ret (Ok (log_id, local_to_stored_membership local_mem))
  | None =>
      let? meta := reading load_snapshot_meta in
      match meta with
      | Some meta => Ret (Ok (log_id, local_to_stored_membership (snap_membership meta)))
      | None => Ret (Ok (log_id, membership_default))
      end
  end.

Definition is_duplicate_entry (entry : Entry) (applied_end : Z) : bool :=
  id_index (log_id entry) <? applied_end.

Definition apply_normal_entry (index : Z) (req : ClusterCommand) : io CommandOutcome :=
  ask (WithState (λ state, apply_entry state index req)).

Definition ensure_state_reflects (index : Z) : io (result Error ()) :=
  let* b := ask (WithState (λ state, (state, reflects state index))) in
  Ret (if b then Ok tt else Err EStorage).

Definition apply_membership_entry_atomic (log_id : LogId) (m : Membership) : io (result Error ()) :=
  let local_membership := membership_to_local (Some log_id) m in
  let '(voters, learners) := split_membership_nodes local_membership in
  let last_applied_state := log_id_to_last_applied (Some log_id) in
  ask (WithState (λ state,
    (if reflects state (id_index log_id) then state
     else note_applied (sync_membership_into voters learners state) (id_index log_id), tt)));;
  let? _ := ensure_state_reflects (id_index log_id) in
  let? _ := storage_io (save_applied_membership_and_last_applied local_membership last_applied_state) in
  ask (StoreEnd (sat_add_u64 (id_index log_id) 1));;
  Ret (Ok tt).

Definition persist_last_applied (log_id : LogId) : io (result Error ()) :=
  let* applied_end := ask LoadEnd in
  if sat_add_u64 (id_index log_id) 1 <=? applied_end then Ret (Ok tt) else
  let? _ := ensure_state_reflects (id_index log_id) in
  let? _ := storage_io (save_last_applied (log_id_to_last_applied (Some log_id))) in
  ask (StoreEnd (sat_add_u64 (id_index log_id) 1));;
  Ret (Ok tt).

(** The loop of [apply]: the responses so far and the last entry it did not skip. *)
Fixpoint apply_loop (entries : list Entry) (applied_end : Z) (responses : list ClusterResponse)
    (last_applied_log_id : option LogId) : io (result Error (list ClusterResponse * option LogId)) :=
  match entries with
  | [] => Ret (Ok (responses, last_applied_log_id))
  | entry :: rest =>
      if is_duplicate_entry entry applied_end
      then apply_loop rest applied_end (responses ++ [response_applied]) last_applied_log_id
      else
        let id := log_id entry in
        match entry_payload entry with
        | ENormal req =>
            let* outcome := apply_normal_entry (id_index id) req in
            apply_loop rest applied_end (responses ++ [ClusterResponse_ true outcome]) (Some id)
        | EMembership m =>
            let? _ := apply_membership_entry_atomic id m in
            apply_loop rest applied_end (responses ++ [response_applied]) (Some id)
        | EBlank =>
            ask (WithState (λ state, (note_applied state (id_index id), tt)));;
            apply_loop rest applied_end (responses ++ [response_applied]) (Some id)
        end
  end.

Definition apply (entries : list Entry) : io (result Error (list ClusterResponse)) :=
  let* applied_end := ask LoadEnd in
  let? done := apply_loop entries applied_end [] None in
  let '(responses, last) := done in
  match last with
  | Some log_id =>
      let? _ := persist_last_applied log_id in
      Ret (Ok responses)
  | None => Ret (Ok responses)
  end.

Definition install_snapshot (meta : RaftSnapshotMeta) (data : bytes) : io (result Error ()) :=
  match decode_snapshot from_bytes from_bytes data with
  | Err _ => Ret (Err ESerialization)
  | Ok state =>
      match state_at_snapshot_position state (id_index <$> meta_last_log_id meta) with
      | Err e => Ret (Err e)
      | Ok state =>
          let snapshot_meta :=
            SnapshotMeta_ (log_id_to_last_applied (meta_last_log_id meta))
              (membership_to_local (stored_log_id (meta_last_membership meta))
                 (membership (meta_last_membership meta))) in
          let installed_end := end_of (id_index <$> meta_last_log_id meta) in
          ask (WithState (λ _, (state, tt)));;
          let? _ := storage_io (save_installed_snapshot sha256 snapshot_meta data) in
          ask (StoreEnd installed_end);;
          Ret (Ok tt)
      end
  end.

Definition to_snapshot_meta (meta : SnapshotMeta) : RaftSnapshotMeta :=
  RaftSnapshotMeta_ (last_applied_log_id (last_applied meta))
    (local_to_stored_membership (snap_membership meta)) (snapshot_id_of (last_applied meta)).

Definition get_current_snapshot : io (result Error (option (RaftSnapshotMeta * bytes))) :=
  let? both := reading (λ st,
    let! meta := load_snapshot_meta st in
    let! data := load_snapshot_verified sha256 st in
    Ok (meta, data)) in
  match both with
  | (Some meta, Some data) => Ret (Ok (Some (to_snapshot_meta meta, data)))
  | _ => Ret (Ok None)
  end.

Definition build_snapshot : io (result Error (RaftSnapshotMeta * bytes)) :=
  let? position := reading load_applied_position in
  let '(last_applied, persisted_membership) := position in
  let* state_snapshot := ask (WithState (λ state, (state, state))) in
  if match last_applied_index last_applied with
     | Some index => negb (reflects state_snapshot index)
     | None => false
     end
  then Ret (Err EStorage)
  else
    match to_allocvec state_snapshot with
    | Err e => Ret (Err e)
    | Ok data =>
        let membership :=
          match persisted_membership with
          | Some m => m
          | None =>
              LocalStoredMembership_ None None 0 [elements (voter_ids state_snapshot)]
                ((λ n, (n.1, show_socket_addr (raft_addr n.2))) <$> map_to_list (nodes state_snapshot))
          end in
        let meta := SnapshotMeta_ last_applied membership in
        let? _ := storage_io (save_snapshot sha256 meta data) in
        Ret (Ok (to_snapshot_meta meta, data))
    end.

(** ** What a request does

    The node's shared state: the store, the locked [ClusterState] and [applied_end]. *)
Record Node := Node_ { disk : Store; mem : ClusterState; applied_end : Z }.
Definition set_disk v n := Node_ v (mem n) (applied_end n).
Definition set_mem v n := Node_ (disk n) v (applied_end n).
Definition set_end v n := Node_ (disk n) (mem n) v.

(** A transaction commits in full or not at all.  redb may fail, before or after
    the commit took hold. *)
Definition exec (n : Node) (r : Req) : Answer r → Node → Prop :=
  match r with
  | @Io A op => λ a n',
      match op (disk n) with
      | Ok (st, v) =>
          (a = Ok v ∧ n' = set_disk st n) ∨
          (∃ e, a = Err e) ∧ (n' = n ∨ n' = set_disk st n)
      | Err _ => (∃ e, a = Err e) ∧ n' = n
      end
  | @WithState A f => λ a n', a = (f (mem n)).2 ∧ n' = set_mem (f (mem n)).1 n
  | LoadEnd => λ a n', a = applied_end n ∧ n' = n
  | StoreEnd e => λ _ n', n' = set_end e n
  | Flushed _ => λ _ n', n' = n
  end.

End RaftStore.
