(* ===== verification/StoreCodec.v ===== *)
(** * A concrete codec for the store's records

    postcard is a parameter of the store; this is one function it may be, for the
    witnesses: an encoder that encodes only what its decoder gives back, so the law
    [from_to] holds by construction.  It covers small entries, positions, one
    membership and states without node records. *)

From S2P Require Import Prelude Text Net ClusterState Storage.
From Stdlib Require Import Strings.Byte.

#[export] Instance NodeRole_eq_dec : EqDecision NodeRole.
Proof. solve_decision. Defined.
#[export] Instance NodeInfo_eq_dec : EqDecision NodeInfo.
Proof. solve_decision. Defined.
#[export] Instance CutoverAuthorityState_eq_dec : EqDecision CutoverAuthorityState.
Proof. solve_decision. Defined.
#[export] Instance PgUpgradeState_eq_dec : EqDecision PgUpgradeState.
Proof. solve_decision. Defined.
#[export] Instance ClusterState_eq_dec : EqDecision ClusterState.
Proof. solve_decision. Defined.
#[export] Instance ClusterStateV0_eq_dec : EqDecision ClusterStateV0.
Proof. solve_decision. Defined.
#[export] Instance ClusterCommand_eq_dec : EqDecision ClusterCommand.
Proof. solve_decision. Defined.
#[export] Instance LocalStoredMembership_eq_dec : EqDecision LocalStoredMembership.
Proof. solve_decision. Defined.
#[export] Instance LogEntryPayload_eq_dec : EqDecision LogEntryPayload.
Proof. solve_decision. Defined.
#[export] Instance LogEntry_eq_dec : EqDecision LogEntry.
Proof. solve_decision. Defined.
#[export] Instance Vote_eq_dec : EqDecision Vote.
Proof. solve_decision. Defined.
#[export] Instance LastAppliedState_eq_dec : EqDecision LastAppliedState.
Proof. solve_decision. Defined.
#[export] Instance SnapshotMeta_eq_dec : EqDecision SnapshotMeta.
Proof. solve_decision. Defined.
#[export] Instance PurgedLogId_eq_dec : EqDecision PurgedLogId.
Proof. solve_decision. Defined.

(** An encoder that checks itself against the decoder. *)
Definition checked {A} `{EqDecision A} (enc : A → bytes) (dec : bytes → option A) : Postcard A := {|
  to_allocvec a := if bool_decide (dec (enc a) = Some a) then Ok (enc a) else Err ESerialization;
  from_bytes b := match dec b with Some a => Ok a | None => Err ESerialization end;
|}.

Lemma checked_laws {A} `{EqDecision A} (enc : A → bytes) (dec : bytes → option A) :
  @PostcardLaws A (checked enc dec).
Proof.
  intros a b. unfold to_allocvec, from_bytes, checked. case_bool_decide as Hd; [|done].
  intros [= <-]. by rewrite Hd.
Qed.

(** The one membership: node 1, alone. *)
Definition sole (i t n : Z) : LocalStoredMembership :=
  LocalStoredMembership_ (Some i) (Some t) n [[1]] [(1, [])].
Definition nobody : LocalStoredMembership := LocalStoredMembership_ None None 0 [[]] [].

Definition enc_entry (e : LogEntry) : bytes :=
  let id := [z_byte (index e); z_byte (term e); z_byte (leader_node_id e)] in
  match payload e with
  | PBlank => id
  | PNormal (SetFeatureLevel l) => id ++ [z_byte l]
  | _ => id ++ [x00; x00]
  end.
Definition dec_entry (b : bytes) : option LogEntry :=
  match b with
  | [i; t; n] => Some (LogEntry_ (byte_z i) (byte_z t) (byte_z n) PBlank)
  | [i; t; n; l] => Some (LogEntry_ (byte_z i) (byte_z t) (byte_z n) (PNormal (SetFeatureLevel (byte_z l))))
  | [i; t; n; _; _] =>
      Some (LogEntry_ (byte_z i) (byte_z t) (byte_z n)
              (PMembership (sole (byte_z i) (byte_z t) (byte_z n))))
  | _ => None
  end.

Definition enc_vote (v : Vote) : bytes :=
  [z_byte (vote_term v); z_byte (default 0 (voted_for v)); if committed v then x01 else x00].
Definition dec_vote (b : bytes) : option Vote :=
  match b with [t; n; c] => Some (Vote_ (byte_z t) (Some (byte_z n)) (bool_decide (c = x01))) | _ => None end.

Definition enc_applied (s : LastAppliedState) : bytes :=
  match last_applied_term s, last_applied_index s with
  | Some t, Some i => [z_byte t; z_byte i; z_byte (last_applied_leader_node_id s)]
  | _, _ => []
  end.
Definition dec_applied (b : bytes) : option LastAppliedState :=
  match b with
  | [] => Some last_applied_default
  | [t; i; n] => Some (LastAppliedState_ (Some (byte_z t)) (Some (byte_z i)) (byte_z n))
  | _ => None
  end.

Definition enc_membership (m : LocalStoredMembership) : bytes :=
  match log_id_index m, log_id_term m with
  | Some i, Some t => [z_byte i; z_byte t; z_byte (log_id_leader_node_id m)]
  | _, _ => []
  end.
Definition dec_membership (b : bytes) : option LocalStoredMembership :=
  match b with
  | [] => Some nobody
  | [i; t; n] => Some (sole (byte_z i) (byte_z t) (byte_z n))
  | _ => None
  end.

Definition enc_meta (m : SnapshotMeta) : bytes :=
  let a := enc_applied (last_applied m) in z_byte (Z.of_nat (length a)) :: a ++ enc_membership (snap_membership m).
Definition dec_meta (b : bytes) : option SnapshotMeta :=
  match b with
  | k :: rest =>
      a ← dec_applied (take (Z.to_nat (byte_z k)) rest);
      m ← dec_membership (drop (Z.to_nat (byte_z k)) rest);
      Some (SnapshotMeta_ a m)
  | [] => None
  end.

Definition enc_purged (p : PurgedLogId) : bytes :=
  [z_byte (purged_term p); z_byte (purged_leader_node_id p); z_byte (purged_index p)].
Definition dec_purged (b : bytes) : option PurgedLogId :=
  match b with [t; n; i] => Some (PurgedLogId_ (byte_z t) (byte_z n) (byte_z i)) | _ => None end.

(** A state of blank entries only, or nothing applied yet. *)
Definition enc_state (s : ClusterState) : bytes :=
  match applied_index s with Some i => [z_byte i] | None => [] end.
Definition dec_state (b : bytes) : option ClusterState :=
  match b with
  | [] => Some ClusterState.new
  | [i] => Some (set_applied_index (Some (byte_z i)) ClusterState.new)
  | _ => None
  end.

Definition v0_empty : ClusterStateV0 := ClusterStateV0_ ∅ ∅ ∅ ∅ 0 None.
Definition enc_v0 (s : ClusterStateV0) : bytes := [x00; x00].
Definition dec_v0 (b : bytes) : option ClusterStateV0 :=
  match b with [_; _] => Some v0_empty | _ => None end.

Definition small_codecs : StoreCodecs := {|
  codec_entry := checked enc_entry dec_entry;
  codec_vote := checked enc_vote dec_vote;
  codec_applied := checked enc_applied dec_applied;
  codec_membership := checked enc_membership dec_membership;
  codec_meta := checked enc_meta dec_meta;
  codec_purged := checked enc_purged dec_purged;
  codec_state := checked enc_state dec_state;
  codec_state_v0 := checked enc_v0 dec_v0;
|}.

Lemma small_laws : @StoreCodecLaws small_codecs.
Proof. split; apply checked_laws. Qed.

(** A digest of one byte, the length. *)
Definition small_digest (b : bytes) : bytes := [z_byte (Z.of_nat (length b))].
