(* ===== verification/StorageProofs.v ===== *)
(** * The log store: what each transaction leaves, and opening a store

    Lemmas on the three tables for the proofs of [RaftStoreProofs.v]: a range of the
    log reads back in order, a record reads back as written, and each write touches
    its own keys only. *)

From S2P Require Import Prelude Text Net ClusterState Storage StoreCodec.

(** ** Ascending keys *)
Lemma seqZ_app m n k : 0 ≤ n → 0 ≤ k → seqZ m (n + k) = seqZ m n ++ seqZ (m + n) k.
Proof.
  intros Hn Hk. unfold seqZ. rewrite Z2Nat.inj_add by lia. rewrite seq_app, fmap_app. f_equal.
  rewrite <-(Nat.add_0_r (0 + Z.to_nat n)), <-fmap_add_seq, <-list_fmap_compose.
  apply list_fmap_ext. intros i x _. simpl. lia.
Qed.

Lemma seqZ_one m : seqZ m 1 = [m].
Proof. rewrite seqZ_cons by lia. by rewrite seqZ_nil by lia. Qed.

#[export] Instance Zle_trans' : Transitive Z.le := Z.le_trans.
#[export] Instance Zle_total' : Total Z.le.
Proof. intros x y. lia. Qed.

Lemma sorted_keys_sorted t : StronglySorted Z.le (sorted_keys t).
Proof. apply StronglySorted_merge_sort; apply _. Qed.

Lemma sorted_keys_perm t : sorted_keys t ≡ₚ elements (dom t).
Proof. apply merge_sort_Permutation. Qed.

Lemma elem_of_sorted_keys t k : k ∈ sorted_keys t ↔ k ∈ dom t.
Proof. by rewrite sorted_keys_perm, elem_of_elements. Qed.

Lemma sorted_keys_nodup t : NoDup (sorted_keys t).
Proof. rewrite sorted_keys_perm. apply NoDup_elements. Qed.

Lemma StronglySorted_filter {A} (R : A → A → Prop) (P : A → Prop) `{∀ x, Decision (P x)} l :
  StronglySorted R l → StronglySorted R (filter P l).
Proof.
  induction 1 as [|x l Hl IH Hx]; [constructor|]. rewrite filter_cons.
  destruct (decide (P x)); [|done]. constructor; [done|].
  apply Forall_forall. intros y [_ Hy]%list_elem_of_filter.
  rewrite Forall_forall in Hx. by apply Hx.
Qed.

(** An ascending list without repetitions is determined by its elements. *)
Lemma ascending_unique (l1 l2 : list Z) :
  StronglySorted Z.le l1 → StronglySorted Z.le l2 → l1 ≡ₚ l2 → l1 = l2.
Proof. intros H1 H2 Hp. by apply (StronglySorted_unique Z.le). Qed.

Lemma seqZ_sorted m n : StronglySorted Z.le (seqZ m n).
Proof.
  destruct (Z_le_gt_dec 0 n) as [Hn|Hn]; [|rewrite seqZ_nil by lia; constructor].
  revert m. pattern n. apply natlike_ind; [intros m; constructor| |done].
  clear n Hn. intros n Hn IH m. rewrite seqZ_cons by lia. rewrite Z.pred_succ. constructor; [apply IH|].
  apply Forall_forall. intros x Hx. apply elem_of_seqZ in Hx. lia.
Qed.

(** When the table has every key of the range, the range is exactly those keys. *)
Lemma range_keys_full (start end_ : Z) (t : gmap Z bytes) :
  (∀ i, start ≤ i < end_ → is_Some (t !! i)) →
  range_keys start end_ t = seqZ start (end_ - start).
Proof.
  intros Hfull. apply ascending_unique.
  - apply StronglySorted_filter, sorted_keys_sorted.
  - apply seqZ_sorted.
  - apply NoDup_Permutation.
    + apply NoDup_filter, sorted_keys_nodup.
    + apply NoDup_seqZ.
    + intros x. unfold range_keys.
      rewrite list_elem_of_filter, elem_of_sorted_keys, elem_of_dom, elem_of_seqZ.
      split; [intros [? _]; lia|]. intros Hx. split; [lia|apply Hfull; lia].
Qed.

(** Outside what it contains, a range does not depend on the table. *)
Lemma elem_of_range_keys start end_ t k :
  k ∈ range_keys start end_ t ↔ start ≤ k < end_ ∧ is_Some (t !! k).
Proof. unfold range_keys. by rewrite list_elem_of_filter, elem_of_sorted_keys, elem_of_dom. Qed.

Lemma range_keys_sorted start end_ t : StronglySorted Z.le (range_keys start end_ t).
Proof. apply StronglySorted_filter, sorted_keys_sorted. Qed.

(** A table filtered by key. *)
Lemma lookup_filter_key {A} (P : Z → Prop) (Q : Z * A → Prop) `{∀ i, Decision (P i), ∀ kv, Decision (Q kv)}
    (m : gmap Z A) i :
  (∀ k v, Q (k, v) ↔ P k) → filter Q m !! i = (if decide (P i) then m !! i else None).
Proof.
  intros HPQ. apply option_eq. intros x. rewrite map_lookup_filter_Some, HPQ.
  case_decide; [tauto|]. split; [tauto|done].
Qed.

Section Store.
Context `{!StoreCodecs, !StoreCodecLaws}.
Variable sha256 : bytes → bytes.

Lemma decode_encoded {A} `{PostcardLaws A} (a : A) b : to_allocvec a = Ok b → decode b = Ok a.
Proof. intros Hb. unfold decode. by rewrite (from_to _ _ Hb). Qed.

Lemma decode_keys_spec (t : gmap Z bytes) (f : Z → LogEntry) ks :
  (∀ k, k ∈ ks → ∃ b, t !! k = Some b ∧ decode b = Ok (f k)) →
  decode_keys ks t = Ok (f <$> ks).
Proof.
  induction ks as [|k ks IH]; intros Hks; [done|]. simpl.
  destruct (Hks k) as (b & -> & Hb); [apply list_elem_of_here|]. rewrite Hb. simpl.
  rewrite IH; [done|]. intros k' Hk'. apply Hks. by apply list_elem_of_further.
Qed.

(** A full range of the log reads back as its entries, in order. *)
Lemma get_entries_full (st : Store) (f : Z → LogEntry) start end_ :
  (∀ i, start ≤ i < end_ → ∃ b, LOGS_TABLE st !! i = Some b ∧ decode b = Ok (f i)) →
  get_entries start end_ st = Ok (f <$> seqZ start (end_ - start)).
Proof.
  intros Hf. unfold get_entries. rewrite range_keys_full.
  - apply decode_keys_spec. intros k Hk%elem_of_seqZ. apply Hf. lia.
  - intros i Hi. destruct (Hf i Hi) as (b & -> & _). eauto.
Qed.

(** ** Writes *)
Lemma lookup_put_meta_ne k k' v st : k ≠ k' → META_TABLE (put_meta k v st) !! k' = META_TABLE st !! k'.
Proof. intros Hne. simpl. by rewrite lookup_insert_ne. Qed.

Lemma insert_entries_lookup entries t t' i :
  insert_entries entries t = Ok t' →
  match list.last (filter (λ e, index e = i) entries) with
  | Some e => ∃ b, to_allocvec e = Ok b ∧ t' !! i = Some b
  | None => t' !! i = t !! i
  end.
Proof.
  revert t. induction entries as [|e rest IH]; intros t; simpl; [by intros [= ->]|].
  destruct (to_allocvec e) as [b|] eqn:Eb; [|done]. simpl. intros Hi. specialize (IH _ Hi).
  rewrite filter_cons. destruct (decide (index e = i)) as [<-|Hne].
  - rewrite last_cons. destruct (list.last _) as [e'|]; [done|]. rewrite lookup_insert_eq in IH. eauto.
  - destruct (list.last _) as [e'|]; [done|]. by rewrite lookup_insert_ne in IH.
Qed.

Lemma append_entries_other entries st st' :
  append_entries entries st = Ok st' →
  META_TABLE st' = META_TABLE st ∧ SNAPSHOT_TABLE st' = SNAPSHOT_TABLE st.
Proof.
  unfold append_entries. destruct entries as [|e es]; [by intros [= ->]|].
  destruct (insert_entries _ _); [|done]. by intros [= <-].
Qed.

Lemma append_entries_lookup entries st st' i :
  append_entries entries st = Ok st' →
  match list.last (filter (λ e, index e = i) entries) with
  | Some e => ∃ b, to_allocvec e = Ok b ∧ LOGS_TABLE st' !! i = Some b
  | None => LOGS_TABLE st' !! i = LOGS_TABLE st !! i
  end.
Proof.
  intros Hap. destruct entries as [|e es].
  - simpl in Hap. by injection Hap as ->.
  - assert (∃ t, insert_entries (e :: es) (LOGS_TABLE st) = Ok t ∧ st' = set_logs t st) as (t & Ht & ->).
    { revert Hap. unfold append_entries. destruct (insert_entries (e :: es) (LOGS_TABLE st)) as [t|] eqn:Et; [|done].
      intros [= <-]. eauto. }
    exact (insert_entries_lookup _ _ _ i Ht).
Qed.

Lemma delete_from_lookup f st st' i :
  delete_from f st = Ok st' →
  LOGS_TABLE st' !! i = (if decide (i < f) then LOGS_TABLE st !! i else None).
Proof. intros [= <-]. cbn [LOGS_TABLE set_logs]. by rewrite (lookup_filter_key (λ i, i < f) (λ kv, kv.1 < f) (LOGS_TABLE st) i). Qed.

Lemma delete_up_to_lookup p st st' i :
  delete_up_to p st = Ok st' →
  LOGS_TABLE st' !! i = (if decide (purged_index p < i) then LOGS_TABLE st !! i else None).
Proof.
  unfold delete_up_to. destruct (to_allocvec p); [|done]. intros [= <-].
  cbn [LOGS_TABLE set_logs put_meta]. 
  by rewrite (lookup_filter_key (λ i, purged_index p < i) (λ kv, purged_index p < kv.1) (LOGS_TABLE st) i).
Qed.

Lemma write_snapshot_tables meta data upd st st' :
  write_snapshot sha256 meta data upd st = Ok st' →
  LOGS_TABLE st' = LOGS_TABLE st ∧
  load_snapshot_meta st' = Ok (Some meta) ∧
  load_snapshot_verified sha256 st' = Ok (Some data).
Proof.
  unfold write_snapshot. destruct (to_allocvec meta) as [mb|] eqn:Em; [|done]. cbn [result_bind].
  assert (Hread : ∀ st1, SNAPSHOT_TABLE st1 =
      <[DIGEST_KEY := sha256 data]> (<[META_KEY := mb]> (<[DATA_KEY := data]> (SNAPSHOT_TABLE st))) →
      load_snapshot_meta st1 = Ok (Some meta) ∧ load_snapshot_verified sha256 st1 = Ok (Some data)).
  { intros st1 E. unfold load_snapshot_meta, load_snapshot_verified. rewrite E. split.
    - rewrite lookup_insert_ne, lookup_insert_eq by done. simpl. by rewrite (decode_encoded _ _ Em).
    - rewrite !lookup_insert_ne, lookup_insert_eq by done. rewrite lookup_insert_eq.
      by rewrite bool_decide_eq_false_2 by (intros []; done). }
  destruct upd.
  - destruct (to_allocvec (last_applied meta)) as [ab|]; [|done].
    destruct (to_allocvec (snap_membership meta)) as [sb|]; [|done].
    cbn [result_bind]. intros [= <-]. split; [done|]. by apply Hread.
  - intros [= <-]. split; [done|]. by apply Hread.
Qed.

Lemma save_snapshot_meta_table meta data st st' :
  save_snapshot sha256 meta data st = Ok st' → META_TABLE st' = META_TABLE st.
Proof.
  unfold save_snapshot, write_snapshot. destruct (to_allocvec meta); [|done]. by intros [= <-].
Qed.

(** The applied position and its membership, wherever they were written. *)
Lemma applied_position_written (meta_table : gmap bytes bytes) la lb (om : option LocalStoredMembership) st' :
  to_allocvec la = Ok lb →
  META_TABLE st' !! LAST_APPLIED_KEY = Some lb →
  (match om with
   | Some m => ∃ b, to_allocvec m = Ok b ∧ META_TABLE st' !! APPLIED_MEMBERSHIP_KEY = Some b
   | None => META_TABLE st' !! APPLIED_MEMBERSHIP_KEY = meta_table !! APPLIED_MEMBERSHIP_KEY
   end) →
  load_last_applied st' = Ok la ∧
  match om with
  | Some m => load_applied_membership st' = Ok (Some m)
  | None => load_applied_membership st' = get_decoded (meta_table !! APPLIED_MEMBERSHIP_KEY)
  end.
Proof.
  intros Hl Hla Hm. unfold load_last_applied, load_applied_membership. rewrite Hla. split.
  - exact (decode_encoded _ _ Hl).
  - destruct om as [m|]; [|by rewrite Hm]. destruct Hm as (b & Hb & ->). simpl.
    by rewrite (decode_encoded _ _ Hb).
Qed.

Lemma save_installed_position meta data st st' :
  save_installed_snapshot sha256 meta data st = Ok st' →
  load_last_applied st' = Ok (last_applied meta) ∧
  load_applied_membership st' = Ok (Some (snap_membership meta)).
Proof.
  unfold save_installed_snapshot, write_snapshot. destruct (to_allocvec meta); [|done]. cbn [result_bind].
  destruct (to_allocvec (last_applied meta)) as [ab|] eqn:Ea; [|done].
  destruct (to_allocvec (snap_membership meta)) as [sb|] eqn:Es; [|done].
  cbn [result_bind]. intros [= <-].
  apply (applied_position_written ∅ _ ab (Some (snap_membership meta)) _ Ea); cbn.
  - by rewrite lookup_insert_ne, lookup_insert_eq by done.
  - exists sb. split; [done|]. by rewrite lookup_insert_eq.
Qed.

Lemma save_membership_position m la st st' :
  save_applied_membership_and_last_applied m la st = Ok st' →
  load_last_applied st' = Ok la ∧ load_applied_membership st' = Ok (Some m) ∧
  LOGS_TABLE st' = LOGS_TABLE st ∧ SNAPSHOT_TABLE st' = SNAPSHOT_TABLE st.
Proof.
  unfold save_applied_membership_and_last_applied.
  destruct (to_allocvec m) as [mb|] eqn:Em; [|done]. destruct (to_allocvec la) as [lb|] eqn:El; [|done].
  cbn [result_bind]. intros [= <-].
  destruct (applied_position_written ∅ la lb (Some m)
    (put_meta LAST_APPLIED_KEY lb (put_meta APPLIED_MEMBERSHIP_KEY mb st)) El) as [H1 H2]; cbn.
  - by rewrite lookup_insert_eq.
  - exists mb. split; [done|]. by rewrite lookup_insert_ne, lookup_insert_eq by done.
  - done.
Qed.

Lemma save_last_applied_position la st st' :
  save_last_applied la st = Ok st' →
  load_last_applied st' = Ok la ∧ load_applied_membership st' = load_applied_membership st ∧
  LOGS_TABLE st' = LOGS_TABLE st ∧ SNAPSHOT_TABLE st' = SNAPSHOT_TABLE st.
Proof.
  unfold save_last_applied. destruct (to_allocvec la) as [lb|] eqn:El; [|done].
  cbn [result_bind]. intros [= <-].
  destruct (applied_position_written (META_TABLE st) la lb None (put_meta LAST_APPLIED_KEY lb st) El)
    as [H1 H2]; cbn; [by rewrite lookup_insert_eq|by rewrite lookup_insert_ne by done|done].
Qed.


(** ** Opening *)
Lemma from_le_nonneg b : 0 ≤ from_le b.
Proof. induction b as [|x b IH]; simpl; [lia|]. pose proof (byte_z_bounds x). lia. Qed.

Lemma new_opened file_len st st' :
  Storage.new sha256 file_len (Opened st) = Ok st' → ensure_schema_version sha256 st = Ok st'.
Proof.
  unfold Storage.new, open_and_init. destruct (match file_len with Some n => n <? 4096 | None => false end); [done|].
  destruct (ensure_schema_version sha256 st); [|done]. by intros [= ->].
Qed.

Lemma migrated_tables st st' :
  migrate_snapshot_v0_to_v1 sha256 st = Ok st' →
  LOGS_TABLE st' = LOGS_TABLE st ∧ META_TABLE st' = META_TABLE st.
Proof.
  unfold migrate_snapshot_v0_to_v1. destruct (SNAPSHOT_TABLE st !! DATA_KEY) as [data|]; [|by intros [= ->]].
  destruct (is_ok _); [by intros [= ->]|]. destruct (decode_snapshot _ _ _) as [s|]; [|done].
  destruct (to_allocvec s) as [b|]; [|done]. by intros [= <-].
Qed.

Lemma opened_empty st :
  Storage.new sha256 None (Opened empty_store) = Ok st →
  st = put_meta SCHEMA_VERSION_KEY (to_le 4 STORE_SCHEMA_VERSION) empty_store.
Proof.
  assert (Storage.new sha256 None (Opened empty_store)
          = Ok (put_meta SCHEMA_VERSION_KEY (to_le 4 STORE_SCHEMA_VERSION) empty_store)) as E by reflexivity.
  rewrite E. intros Hst. by injection Hst as <-.
Qed.

(** What opening does, by the schema found. *)
Lemma opened_cases st st' :
  ensure_schema_version sha256 st = Ok st' →
  (∃ b, META_TABLE st !! SCHEMA_VERSION_KEY = Some b ∧ decode_schema_version b = Ok 1 ∧ st' = st) ∨
  (∃ st1, migrate_snapshot_v0_to_v1 sha256 st = Ok st1 ∧
    st' = put_meta SCHEMA_VERSION_KEY (to_le 4 STORE_SCHEMA_VERSION) st1).
Proof.
  unfold ensure_schema_version. destruct (META_TABLE st !! SCHEMA_VERSION_KEY) as [b|] eqn:Ek.
  - destruct (decode_schema_version b) as [v|e] eqn:Ev; [|done]. cbn [result_bind].
    assert (0 ≤ v) as Hv.
    { revert Ev. unfold decode_schema_version. destruct (length b =? 4)%nat; [|done].
      intros [= <-]. apply from_le_nonneg. }
    unfold STORE_SCHEMA_VERSION. destruct (Z.ltb_spec 1 v); [done|].
    destruct (Z.ltb_spec v 1) as [Hlt|Hge].
    + assert (v = 0) as -> by lia. destruct (migrate_snapshot_v0_to_v1 _ _) as [st1|]; [|done].
      intros [= <-]. right. by exists st1.
    + assert (v = 1) as -> by lia. intros [= <-]. left. eauto.
  - cbn [result_bind]. simpl. destruct (migrate_snapshot_v0_to_v1 _ _) as [st1|]; [|done].
    intros [= <-]. right. by exists st1.
Qed.

Lemma stamped_stays st :
  META_TABLE st !! SCHEMA_VERSION_KEY = Some (to_le 4 STORE_SCHEMA_VERSION) →
  ensure_schema_version sha256 st = Ok st.
Proof. intros Ek. unfold ensure_schema_version. by rewrite Ek. Qed.
End Store.

(** Opening a store brings it to this binary's schema once: a second open changes
    nothing; the log and every record but the stamp are untouched; a snapshot that
    already decodes in the current layout is left as it is; and a snapshot of the
    schema-0 layout comes out as the same state in the current layout, with a digest
    that verifies. *)
Lemma opening_migrates_once `{!StoreCodecs, !StoreCodecLaws} sha256 file_len st st' :
  Storage.new sha256 file_len (Opened st) = Ok st' →
  Storage.new sha256 file_len (Opened st') = Ok st' ∧
  LOGS_TABLE st' = LOGS_TABLE st ∧
  (∀ k, k ≠ SCHEMA_VERSION_KEY → META_TABLE st' !! k = META_TABLE st !! k) ∧
  (∀ data (s : ClusterState), SNAPSHOT_TABLE st !! DATA_KEY = Some data → from_bytes data = Ok s →
     SNAPSHOT_TABLE st' = SNAPSHOT_TABLE st) ∧
  (∀ data v0 e, META_TABLE st !! SCHEMA_VERSION_KEY = None →
     SNAPSHOT_TABLE st !! DATA_KEY = Some data →
     from_bytes data = @Err _ ClusterState e → from_bytes data = Ok v0 →
     ∃ b, load_snapshot_verified sha256 st' = Ok (Some b) ∧ from_bytes b = Ok (from_v0 v0)).
Proof.
  intros Hnew. pose proof (new_opened _ _ _ _ Hnew) as Hopen.
  assert (Hagain : ensure_schema_version sha256 st' = Ok st' → Storage.new sha256 file_len (Opened st') = Ok st').
  { intros E. revert Hnew. unfold Storage.new. destruct (match file_len with Some n => n <? 4096 | None => false end); [done|].
    intros _. unfold open_and_init. by rewrite E. }
  destruct (opened_cases _ _ _ Hopen) as [(b & Ek & Hb & ->)|(st1 & Hm & ->)].
  - split_and!; [by apply Hagain|done|done|done|]. intros data v0 e Hk. congruence.
  - destruct (migrated_tables _ _ _ Hm) as [El Em]. split_and!.
    + apply Hagain, stamped_stays. simpl. by rewrite lookup_insert_eq.
    + done.
    + intros k Hk. rewrite lookup_put_meta_ne by done. by rewrite Em.
    + intros data s Hd Hs. simpl. revert Hm. unfold migrate_snapshot_v0_to_v1. rewrite Hd, Hs. by intros [= ->].
    + intros data v0 e _ Hd He Hv0. revert Hm. unfold migrate_snapshot_v0_to_v1, decode_snapshot.
      rewrite Hd, He, Hv0. cbn [is_ok]. destruct (to_allocvec (from_v0 v0)) as [b|] eqn:Eb; [|done].
      intros [= <-]. exists b. split; [|by apply (from_to _ _ Eb)].
      unfold load_snapshot_verified. cbn.
      rewrite lookup_insert_ne, !lookup_insert_eq by done. by rewrite bool_decide_eq_false_2 by (intros []; done).
Qed.

(** A schema-0 store with a v0 snapshot, opened. *)
Definition v0_store : Store := put_snapshot DATA_KEY (enc_v0 v0_empty) empty_store.
Definition opened_v0 : Store :=
  match @Storage.new small_codecs small_digest (Some 8192) (Opened v0_store) with
  | Ok st => st
  | Err _ => empty_store
  end.

Lemma opening_migrates_once_witness :
  @Storage.new small_codecs small_digest (Some 8192) (Opened v0_store) = Ok opened_v0 ∧
  ∃ b, load_snapshot_verified small_digest opened_v0 = Ok (Some b) ∧
       @from_bytes _ (@codec_state small_codecs) b = Ok (from_v0 v0_empty).
Proof.
  assert (@Storage.new small_codecs small_digest (Some 8192) (Opened v0_store) = Ok opened_v0) as E
    by (vm_compute; reflexivity).
  split; [exact E|].
  destruct (@opening_migrates_once small_codecs small_laws small_digest (Some 8192) v0_store opened_v0 E)
    as (_ & _ & _ & _ & Hv0).
  apply (Hv0 (enc_v0 v0_empty) v0_empty ESerialization); reflexivity.
Defined.
