(* ===== verification/RaftState.v ===== *)
(** * The replicated state against its log, and threads over one node

    [spec n] is the state after the log's first [n] entries; [agrees] is equality of
    all but the node records (which a node's own configuration overlays), and every
    entry keeps it.  Then the conversions to and from openraft's types, fault-free
    runs, and a small rely-guarantee logic for the programs of [RaftStore.v]. *)

From S2P Require Import Prelude Effects Text Net ClusterState ClusterStateProofs Storage StorageProofs RaftStore.

Abbreviation io := (prog Answer).

(** ** Node records apart *)
Definition same_but_nodes (s1 s2 : ClusterState) : Prop := set_nodes ∅ s1 = set_nodes ∅ s2.

(** What one command does to the node records of a state at [level]. *)
Definition nodes_effect (level : Z) (cmd : ClusterCommand) (m : gmap NodeId NodeInfo)
    : gmap NodeId NodeInfo :=
  if level <? 0 then m else
  match cmd with
  | AddNode info => <[info_id info := info]> m
  | RemoveNode id => delete id m
  | UpdateNode id r =>
      match m !! id with
      | Some n => <[id := NodeInfo_ (info_id n) (pg_addr n) (raft_addr n) (mgmt_addr n)
                     (metrics_addr n) r (last_seen n)]> m
      | None => m
      end
  | _ => m
  end.

Lemma apply_set_nodes s m cmd :
  (ClusterState.apply (set_nodes m s) cmd).1
  = set_nodes (nodes_effect (feature_level s) cmd m) (ClusterState.apply s cmd).1.
Proof.
  destruct cmd; unfold ClusterState.apply, nodes_effect, apply_upgrade, raise_feature_level; simpl;
    repeat case_match; simplify_eq/=; try done; by case_match.
Qed.

Lemma set_nodes_same s : set_nodes (nodes s) s = s.
Proof. by destruct s. Qed.

Lemma same_but_nodes_eq s1 s2 : same_but_nodes s1 s2 → s2 = set_nodes (nodes s2) s1.
Proof.
  intros E. rewrite <-(set_nodes_same s2) at 1.
  change (set_nodes (nodes s2) (set_nodes ∅ s2) = set_nodes (nodes s2) (set_nodes ∅ s1)).
  by rewrite E.
Qed.

Lemma apply_nodes s cmd :
  nodes (ClusterState.apply s cmd).1 = nodes_effect (feature_level s) cmd (nodes s).
Proof. by rewrite <-(set_nodes_same s) at 1; rewrite apply_set_nodes. Qed.

Lemma same_but_nodes_apply s1 s2 cmd :
  same_but_nodes s1 s2 → same_but_nodes (ClusterState.apply s1 cmd).1 (ClusterState.apply s2 cmd).1.
Proof. intros ->%same_but_nodes_eq. by rewrite apply_set_nodes. Qed.

Lemma nodes_effect_dom level cmd m1 m2 :
  dom m1 ⊆ dom m2 → dom (nodes_effect level cmd m1) ⊆ dom (nodes_effect level cmd m2).
Proof.
  intros Hd. unfold nodes_effect. destruct (level <? 0); [done|]. destruct cmd; try done.
  - rewrite !dom_insert. set_solver.
  - rewrite !dom_delete. set_solver.
  - destruct (m1 !! id) eqn:E1; destruct (m2 !! id) eqn:E2; rewrite ?dom_insert;
      try apply elem_of_dom_2 in E1; try apply elem_of_dom_2 in E2; set_solver.
Qed.

Lemma same_but_nodes_fields s1 s2 :
  same_but_nodes s1 s2 →
  applied_index s1 = applied_index s2 ∧ voter_intent s1 = voter_intent s2 ∧
  pg_upgrade s1 = pg_upgrade s2 ∧ feature_level s1 = feature_level s2.
Proof. intros ->%same_but_nodes_eq. by destruct s1. Qed.

(** [agrees sp s]: [s] is [sp] up to node records, and knows every node [sp] knows. *)
Definition agrees (sp s : ClusterState) : Prop :=
  same_but_nodes sp s ∧ dom (nodes sp) ⊆ dom (nodes s).

Lemma agrees_refl s : agrees s s.
Proof. done. Qed.

Lemma agrees_apply sp s cmd :
  agrees sp s → agrees (ClusterState.apply sp cmd).1 (ClusterState.apply s cmd).1.
Proof.
  intros [Hs Hd]. split; [by apply same_but_nodes_apply|].
  rewrite !apply_nodes. destruct (same_but_nodes_fields _ _ Hs) as (_ & _ & _ & ->).
  by apply nodes_effect_dom.
Qed.

Lemma agrees_set_applied_index sp s o :
  agrees sp s → agrees (set_applied_index o sp) (set_applied_index o s).
Proof.
  intros [Hs Hd]. split; [|done]. rewrite (same_but_nodes_eq _ _ Hs). by destruct sp.
Qed.

Lemma add_node_eq s info :
  0 ≤ feature_level s →
  (ClusterState.apply s (AddNode info)).1 = set_nodes (<[info_id info := info]> (nodes s)) s.
Proof. intros Hf. unfold ClusterState.apply. simpl. by rewrite (proj2 (Z.ltb_ge _ _) Hf). Qed.

(** Every node named by the voter intent or by an upgrade has a record. *)
Definition closed (s : ClusterState) : Prop :=
  0 ≤ feature_level s ∧
  ∀ id, id ∈ voter_intent s ∨ id ∈ awaiting_rejoin (pg_upgrade s) → id ∈ dom (nodes s).

(** A command that names members names known ones. *)
Definition names_known (s : ClusterState) (cmd : ClusterCommand) : Prop :=
  match cmd with
  | IntendVoter n => n ∈ dom (nodes s)
  | PgUpgradeFreeze standbys => ∀ n, n ∈ standbys → n ∈ dom (nodes s)
  | _ => True
  end.

Lemma closed_apply s cmd : closed s → names_known s cmd → closed (ClusterState.apply s cmd).1.
Proof.
  intros [Hf Hc] Hk.
  assert (Hlevel : (feature_level s <? 0) = false) by (apply Z.ltb_ge; lia).
  split.
  - destruct cmd; unfold ClusterState.apply, apply_upgrade, raise_feature_level; simpl;
      repeat case_match; simpl; lia.
  - intros id. rewrite apply_nodes. unfold nodes_effect. rewrite Hlevel.
    specialize (Hc id).
    destruct cmd; unfold ClusterState.apply, apply_upgrade, raise_feature_level, Upgrade.apply in *;
      simpl in *; repeat case_match; simplify_eq/=;
      rewrite ?dom_insert, ?dom_delete, ?elem_of_union, ?elem_of_difference, ?elem_of_singleton,
        ?elem_of_vec_insert, ?elem_of_retain_ne in *;
      try solve [set_solver | naive_solver].
Qed.

(** ** Removing the nodes a membership no longer has *)
Lemma retain_ne_filter id l : Upgrade.retain_ne id l = filter (λ n, n ∉ [id]) l.
Proof. unfold Upgrade.retain_ne. apply list_filter_iff. intros x. rewrite list_elem_of_singleton. done. Qed.

Definition remove_all (s : ClusterState) (l : list NodeId) : ClusterState :=
  foldl (λ s id, (ClusterState.apply s (RemoveNode id)).1) s l.

Lemma remove_all_eq s l :
  0 ≤ feature_level s →
  remove_all s l =
  set_voter_intent (filter (λ n, n ∉ l) (voter_intent s))
    (set_pg_upgrade (PgUpgradeState_ (frozen (pg_upgrade s))
                       (filter (λ n, n ∉ l) (awaiting_rejoin (pg_upgrade s))))
      (set_nodes (filter (λ kv, kv.1 ∉ l) (nodes s)) s)).
Proof.
  intros Hf. induction l as [|id l IH] using rev_ind.
  - simpl. rewrite !filter_all, map_filter_id by (intros; apply not_elem_of_nil).
    destruct s as [? ? ? ? ? ? ? [? ?] ? ? ? ? ?]. done.
  - unfold remove_all in *. rewrite foldl_app, IH. simpl.
    unfold ClusterState.apply. simpl. rewrite (proj2 (Z.ltb_ge _ _) Hf).
    rewrite !retain_ne_filter, !filter_notin_app.
    assert (delete id (filter (λ kv, kv.1 ∉ l) (nodes s))
            = filter (λ kv : NodeId * NodeInfo, kv.1 ∉ l ++ [id]) (nodes s)) as ->; [|done].
    apply map_eq. intros k. apply option_eq. intros x.
    rewrite lookup_delete_Some, !map_lookup_filter_Some. simpl.
    rewrite not_elem_of_app, list_elem_of_singleton. naive_solver.
Qed.

(** The members of a stored membership. *)
Definition member_ids (l : list (NodeId * bytes)) : gset NodeId := list_to_set l.*1.

Lemma track_membership_nodes_ids l ids : track_membership_nodes l ids = member_ids l ∪ ids.
Proof.
  revert ids. unfold track_membership_nodes, member_ids.
  induction l as [|m l IH]; intros ids; simpl; [set_solver|]. rewrite IH. set_solver.
Qed.

Definition departed (voters learners : list (NodeId * bytes)) (s : ClusterState) : list NodeId :=
  filter (λ id, id ∉ member_ids learners ∪ member_ids voters) (map_to_list (nodes s)).*1.

Lemma elem_of_departed voters learners s id :
  id ∈ departed voters learners s ↔
  id ∉ member_ids learners ∪ member_ids voters ∧ id ∈ dom (nodes s).
Proof.
  unfold departed. rewrite list_elem_of_filter, list_elem_of_fmap, elem_of_dom.
  split; (intros [? H]; split; [done|]).
  - destruct H as ([k n] & -> & Hn%elem_of_map_to_list). eauto.
  - destruct H as [n Hn]. exists (id, n). by rewrite elem_of_map_to_list.
Qed.

Lemma sync_membership_eq voters learners s :
  sync_membership_into voters learners s =
  set_members (list_to_set voters.*1) (list_to_set learners.*1)
    (remove_all s (departed voters learners s)).
Proof.
  unfold sync_membership_into, departed, remove_all.
  by rewrite !track_membership_nodes_ids, (right_id_L ∅ (∪)).
Qed.

(** For a closed state the membership alone decides which names stay. *)
Lemma filter_departed voters learners s (l : list NodeId) :
  (∀ id, id ∈ l → id ∈ dom (nodes s)) →
  filter (λ n, n ∉ departed voters learners s) l
  = filter (λ n, n ∈ member_ids learners ∪ member_ids voters) l.
Proof.
  intros Hl. apply filter_ext_elem. intros x Hx. rewrite elem_of_departed.
  specialize (Hl x Hx). destruct (decide (x ∈ member_ids learners ∪ member_ids voters)); naive_solver.
Qed.

Lemma elem_of_dom_remaining voters learners s id :
  id ∈ dom (filter (λ kv, kv.1 ∉ departed voters learners s) (nodes s)) ↔
  id ∈ dom (nodes s) ∧ id ∈ member_ids learners ∪ member_ids voters.
Proof.
  rewrite !elem_of_dom. split.
  - intros [n [Hn Hd]%map_lookup_filter_Some]. simpl in Hd. split; [eauto|].
    destruct (decide (id ∈ member_ids learners ∪ member_ids voters)); [done|].
    exfalso. apply Hd, elem_of_departed. split; [done|]. by apply elem_of_dom_2 in Hn.
  - intros [[n Hn] Hm]. exists n. apply map_lookup_filter_Some. split; [done|]. simpl.
    rewrite elem_of_departed. tauto.
Qed.

Lemma agrees_sync voters learners sp s :
  agrees sp s → closed sp →
  agrees (sync_membership_into voters learners sp) (sync_membership_into voters learners s).
Proof.
  intros [Hs Hd] [Hf Hc]. destruct (same_but_nodes_fields _ _ Hs) as (_ & Hvi & Hpu & Hfl).
  rewrite !sync_membership_eq, !remove_all_eq by (rewrite <-?Hfl; done).
  assert (∀ l : list NodeId, (∀ id, id ∈ l → id ∈ dom (nodes sp)) →
    filter (λ n, n ∉ departed voters learners sp) l = filter (λ n, n ∉ departed voters learners s) l) as Hfil.
  { intros l Hl. rewrite !filter_departed; [done| |done]. set_solver. }
  split.
  - rewrite <-Hvi, <-Hpu, !Hfil by (intros id Hid; apply Hc; auto).
    rewrite (same_but_nodes_eq _ _ Hs). by destruct sp.
  - simpl. intros id. rewrite !elem_of_dom_remaining. set_solver.
Qed.

Lemma closed_sync voters learners s : closed s → closed (sync_membership_into voters learners s).
Proof.
  intros [Hf Hc]. rewrite sync_membership_eq, remove_all_eq by done. split; [done|].
  intros id. simpl. rewrite elem_of_dom_remaining.
  rewrite !filter_departed by (intros x Hx; apply Hc; auto).
  rewrite !list_elem_of_filter. specialize (Hc id). tauto.
Qed.

Lemma sync_applied_index voters learners s :
  0 ≤ feature_level s → applied_index (sync_membership_into voters learners s) = applied_index s.
Proof. intros Hf. by rewrite sync_membership_eq, remove_all_eq. Qed.

(** ** One log entry, live and at boot *)
Lemma reflects_end s i : 0 ≤ i < u64_max → (∀ j, applied_index s = Some j → 0 ≤ j < u64_max) →
  reflects s i = (i <? end_of (applied_index s)).
Proof.
  intros Hi Hs. unfold reflects, end_of. destruct (applied_index s) as [j|].
  - specialize (Hs j eq_refl). rewrite sat_add_exact by lia.
    destruct (Z.leb_spec i j), (Z.ltb_spec i (j + 1)); lia || done.
  - symmetry. apply Z.ltb_ge. lia.
Qed.

Lemma note_applied_agrees sp s i : agrees sp s → agrees (note_applied sp i) (note_applied s i).
Proof.
  intros Ha. unfold note_applied, reflects. destruct Ha as [Hs Hd].
  destruct (same_but_nodes_fields _ _ Hs) as (<- & _). case_match; [done|].
  by apply agrees_set_applied_index.
Qed.

Lemma replay_agrees sp s e :
  agrees sp s → closed sp → agrees (replay_entry sp e) (replay_entry s e).
Proof.
  intros Ha Hc. pose proof Ha as [Hs _].
  destruct (same_but_nodes_fields _ _ Hs) as (Hi & _).
  assert (Hr : reflects sp (index e) = reflects s (index e)) by (unfold reflects; by rewrite Hi).
  unfold replay_entry. destruct (payload e) as [|cmd|m].
  - by apply note_applied_agrees.
  - unfold apply_entry. rewrite <-Hr. destruct (reflects sp (index e)); [done|].
    by apply agrees_apply, agrees_set_applied_index.
  - rewrite <-Hr. destruct (reflects sp (index e)); [done|].
    destruct (split_membership_nodes m) as [voters learners].
    by apply note_applied_agrees, agrees_sync.
Qed.

Lemma closed_replay s e :
  closed s → match payload e with PNormal cmd => names_known s cmd | _ => True end →
  closed (replay_entry s e).
Proof.
  intros Hc Hk. unfold replay_entry.
  assert (Hset : ∀ s' o, closed s' → closed (set_applied_index o s')) by (by intros s' o [? ?]).
  assert (Hnote : ∀ s' i, closed s' → closed (note_applied s' i)).
  { intros s' i Hs'. unfold note_applied. destruct (reflects s' i); [exact Hs'|]. by apply Hset. }
  destruct (payload e) as [|cmd|m]; [by apply Hnote| |].
  - unfold apply_entry. destruct (reflects s (index e)); [exact Hc|]. apply closed_apply; [by apply Hset|destruct cmd; exact Hk].
  - destruct (reflects s (index e)); [exact Hc|].
    destruct (split_membership_nodes m). by apply Hnote, closed_sync.
Qed.

(** An entry the state reflects changes nothing; the next one is noted. *)
Lemma replay_reflected s e : reflects s (index e) = true → replay_entry s e = s.
Proof. intros Hr. unfold replay_entry, apply_entry, note_applied. rewrite Hr. by destruct (payload e). Qed.

Lemma replay_applied_index s e :
  0 ≤ feature_level s → reflects s (index e) = false →
  applied_index (replay_entry s e) = Some (index e).
Proof.
  intros Hf Hr. unfold replay_entry, apply_entry, note_applied. rewrite Hr. destruct (payload e); [done| |].
  - by rewrite apply_applied_index.
  - destruct (split_membership_nodes _) as [v l].
    assert (reflects (sync_membership_into v l s) (index e) = false) as ->; [|done].
    unfold reflects. by rewrite sync_applied_index.
Qed.

(** ** The log and its states *)
Section Log.
(** The committed log, from index 0, and the records every configuration lists. *)
Variable L : Z → Entry.
Variable founders : gmap NodeId NodeInfo.

Definition stored (i : Z) : LogEntry := openraft_to_log_entry (L i).
Definition spec (n : Z) : ClusterState :=
  foldl replay_entry (set_nodes founders ClusterState.new) (stored <$> seqZ 0 n).

(** The log's shape: entries carry their index, and commands name known members. *)
Record log_ok : Prop := {
  log_index : ∀ i, id_index (log_id (L i)) = i;
  log_names : ∀ i, 0 ≤ i →
    match entry_payload (L i) with ENormal cmd => names_known (spec i) cmd | _ => True end;
}.

Lemma spec_succ n : 0 ≤ n → spec (n + 1) = replay_entry (spec n) (stored n).
Proof.
  intros Hn. unfold spec. rewrite seqZ_app by lia. rewrite fmap_app, foldl_app. simpl.
  by rewrite Z.add_0_l.
Qed.

Definition at_ (n : Z) (s : ClusterState) : Prop := 0 ≤ n ≤ u64_max ∧ agrees (spec n) s.

Context (Hlog : log_ok).

Lemma stored_index i : index (stored i) = i.
Proof. apply (log_index Hlog). Qed.

Lemma stored_payload i : 0 ≤ i →
  match payload (stored i) with PNormal cmd => names_known (spec i) cmd | _ => True end.
Proof.
  intros Hi. pose proof (log_names Hlog i Hi) as H. unfold stored, openraft_to_log_entry. simpl.
  by destruct (entry_payload (L i)).
Qed.

Lemma spec_closed n : 0 ≤ n → closed (spec n) ∧ (n ≤ u64_max → end_of (applied_index (spec n)) = n).
Proof.
  revert n. apply natlike_ind.
  - split; [split; [done|]|done]. intros id [H|H]; by apply elem_of_nil in H.
  - intros n Hn [IHc IHi]. rewrite <-Z.add_1_r, spec_succ by done. split.
    + apply closed_replay; [done|]. by apply stored_payload.
    + intros Hmax. specialize (IHi ltac:(lia)). rewrite replay_applied_index.
      * rewrite stored_index. unfold end_of. rewrite sat_add_exact; lia.
      * apply IHc.
      * rewrite stored_index. revert IHi. unfold reflects, end_of.
        destruct (applied_index (spec n)) as [j|]; [|done]. unfold sat_add. intros.
        apply Z.leb_gt. lia.
Qed.

Lemma spec_is_closed n : 0 ≤ n → closed (spec n).
Proof. intros Hn. exact (proj1 (spec_closed n Hn)). Qed.

Lemma at_end n s : at_ n s → end_of (applied_index s) = n.
Proof.
  intros [Hn [Hs _]]. destruct (same_but_nodes_fields _ _ Hs) as (<- & _).
  apply (proj2 (spec_closed n ltac:(lia))). lia.
Qed.

Lemma at_reflects n s i : at_ n s → 0 ≤ i < u64_max → reflects s i = (i <? n).
Proof.
  intros Hat Hi. pose proof (at_end n s Hat) as He. revert He. unfold reflects, end_of.
  destruct (applied_index s) as [j|].
  - unfold sat_add. intros <-. destruct (Z.leb_spec i j), (Z.ltb_spec i (Z.min u64_max (j + 1))); lia || done.
  - intros <-. symmetry. apply Z.ltb_ge. lia.
Qed.

Lemma at_replay n s i :
  at_ n s → 0 ≤ i ≤ n → i < u64_max → at_ (Z.max n (i + 1)) (replay_entry s (stored i)).
Proof.
  intros Hat Hi Hmax. destruct (decide (i = n)) as [->|].
  - destruct Hat as [Hn Ha]. rewrite Z.max_r by lia. split; [lia|]. rewrite spec_succ by lia.
    apply replay_agrees; [done|]. apply spec_is_closed. lia.
  - rewrite Z.max_l by lia. rewrite replay_reflected; [done|].
    rewrite stored_index, (at_reflects n) by (done || lia). apply Z.ltb_lt. lia.
Qed.

Lemma at_replay_range n s i k :
  at_ n s → 0 ≤ i ≤ n → 0 ≤ k → i + k ≤ u64_max →
  at_ (Z.max n (i + k)) (foldl replay_entry s (stored <$> seqZ i k)).
Proof.
  intros Hat Hi Hk Hmax. revert Hmax. revert k Hk. apply (natlike_ind (λ k, i + k ≤ u64_max → _)).
  - intros _. simpl. by rewrite Z.max_l by lia.
  - intros k Hk IH Hmax. rewrite <-Z.add_1_r. rewrite seqZ_app by lia.
    rewrite fmap_app, foldl_app, seqZ_one. specialize (IH ltac:(lia)).
    replace (Z.max n (i + (k + 1))) with (Z.max (Z.max n (i + k)) (i + k + 1)) by lia.
    apply at_replay; [done|lia|lia].
Qed.

(** Recording a position the data was captured without. *)
Lemma agrees_add_nodes sp s info :
  agrees sp s → closed sp → agrees sp (ClusterState.apply s (AddNode info)).1.
Proof.
  intros [Hs Hd] [Hf _]. destruct (same_but_nodes_fields _ _ Hs) as (_ & _ & _ & Hfl).
  rewrite add_node_eq by lia. split.
  - rewrite (same_but_nodes_eq _ _ Hs). by destruct sp.
  - simpl. rewrite dom_insert. set_solver.
Qed.

Lemma at_configured n s configured :
  at_ n s → at_ n (foldl (λ s info, (ClusterState.apply s (AddNode info)).1) s configured).
Proof.
  intros [Hn Ha]. split; [done|]. revert s Ha.
  induction configured as [|info cs IH]; intros s Ha; [done|]. simpl. apply IH.
  apply agrees_add_nodes; [done|]. apply spec_is_closed. lia.
Qed.

(** A store without a snapshot starts from the configured nodes. *)
Lemma at_fresh configured :
  dom founders ⊆ list_to_set (info_id <$> configured) →
  at_ 0 (foldl (λ s info, (ClusterState.apply s (AddNode info)).1) ClusterState.new configured).
Proof.
  intros Hf. split; [unfold u64_max; lia|].
  assert (∀ s, same_but_nodes ClusterState.new s →
    let s' := foldl (λ s info, (ClusterState.apply s (AddNode info)).1) s configured in
    same_but_nodes ClusterState.new s' ∧
    dom (nodes s') = list_to_set (info_id <$> configured) ∪ dom (nodes s)) as Hcfg.
  { clear Hf. induction configured as [|info cs IH]; intros s Hs; [split; [done|simpl; set_solver]|].
    cbn [foldl]. destruct (same_but_nodes_fields _ _ Hs) as (_ & _ & _ & Hfl).
    rewrite add_node_eq by (rewrite <-Hfl; done).
    destruct (IH (set_nodes (<[info_id info:=info]> (nodes s)) s)) as [IH1 IH2].
    { unfold same_but_nodes in *. rewrite Hs. by destruct s. }
    split; [exact IH1|]. rewrite IH2. simpl. rewrite dom_insert_L. set_solver. }
  destruct (Hcfg ClusterState.new eq_refl) as [Hs Hd]. split; [exact Hs|].
  rewrite Hd. unfold spec. simpl. set_solver.
Qed.
End Log.

(** ** Ascending collections rebuilt from their own elements *)
Definition ascending (l : list Z) : Prop := StronglySorted Z.lt l.

Lemma set_insert_last x l : (∀ y, y ∈ l → y < x) → set_insert x l = l ++ [x].
Proof.
  induction l as [|y l IH]; intros Hl; [done|]. simpl.
  pose proof (Hl y (list_elem_of_here _ _)). rewrite (proj2 (Z.ltb_ge _ _)) by lia.
  rewrite (proj2 (Z.eqb_neq _ _)) by lia. rewrite IH; [done|]. intros z Hz. apply Hl. by right.
Qed.

Lemma map_insert_last k v l : (∀ p, p ∈ l → p.1 < k) → map_insert k v l = l ++ [(k, v)].
Proof.
  induction l as [|[k' v'] l IH]; intros Hl; [done|]. simpl.
  pose proof (Hl _ (list_elem_of_here _ _)) as Hk. simpl in Hk. rewrite (proj2 (Z.ltb_ge _ _)) by lia.
  rewrite (proj2 (Z.eqb_neq _ _)) by lia. rewrite IH; [done|]. intros z Hz. apply Hl. by right.
Qed.

Lemma ascending_snoc l x : ascending (l ++ [x]) → ascending l ∧ ∀ y, y ∈ l → y < x.
Proof.
  unfold ascending. induction l as [|y l IH]; intros Hs; [split; [constructor|intros y Hy; by apply elem_of_nil in Hy]|].
  simpl in Hs. inversion Hs as [|? ? Hs' Hf]; subst. destruct (IH Hs') as [IH1 IH2].
  rewrite Forall_app in Hf. destruct Hf as [Hf1 Hf2]. split; [by constructor|].
  intros z [->|Hz]%elem_of_cons; [by inversion Hf2|by apply IH2].
Qed.

Lemma btree_set_ascending l : ascending l → btree_set l = l.
Proof.
  unfold btree_set. induction l as [|x l IH] using rev_ind; intros Hs; [done|].
  apply ascending_snoc in Hs as [Hs Hx]. rewrite foldl_app. simpl. rewrite IH by done.
  by apply set_insert_last.
Qed.

Lemma btree_map_ascending l : ascending l.*1 → btree_map l = l.
Proof.
  unfold btree_map. induction l as [|[k v] l IH] using rev_ind; intros Hs; [done|].
  rewrite fmap_app in Hs. apply ascending_snoc in Hs as [Hs Hx]. rewrite foldl_app. simpl.
  rewrite IH by done. apply map_insert_last. intros p Hp. apply Hx. by apply list_elem_of_fmap_2.
Qed.

(** What openraft guarantees of a membership: ascending sets and map, every voter
    with a node; and that [Membership::new] of such parts is the membership. *)
Definition canonical (m : Membership) : Prop :=
  Forall ascending (joint_config m) ∧ ascending (node_map m).*1 ∧
  ∀ id, id ∈ concat (joint_config m) → id ∈ (node_map m).*1.

Definition keeps_canonical (membership_new : list (list NodeId) → list (NodeId * bytes) → Membership) : Prop :=
  ∀ m, canonical m → membership_new (joint_config m) (node_map m) = m.

Section Conversions.
Variable membership_new : list (list NodeId) → list (NodeId * bytes) → Membership.
Hypothesis Hnew : keeps_canonical membership_new.

Lemma rebuilt m :
  canonical m → membership_new (btree_set <$> joint_config m) (btree_map (node_map m)) = m.
Proof.
  intros Hm. pose proof Hm as (Hc & Hn & _). rewrite btree_map_ascending by done.
  assert (btree_set <$> joint_config m = joint_config m) as ->; [|by apply Hnew].
  clear - Hc. induction Hc as [|l ls Hl _ IH]; [done|]. by rewrite fmap_cons, btree_set_ascending, IH.
Qed.

Definition entry_canonical (e : Entry) : Prop :=
  match entry_payload e with EMembership m => canonical m | _ => True end.

Lemma entry_round_trip e :
  entry_canonical e → log_entry_to_openraft membership_new (openraft_to_log_entry e) = e.
Proof.
  destruct e as [[t n i] p]. unfold entry_canonical, openraft_to_log_entry, log_entry_to_openraft. simpl.
  intros Hc. f_equal. destruct p as [|c|m]; [done|done|]. simpl. by rewrite rebuilt.
Qed.

Lemma stored_membership_round_trip log_id m :
  canonical m →
  local_to_stored_membership membership_new (membership_to_local log_id m) = StoredMembership_ log_id m.
Proof.
  intros Hm. unfold local_to_stored_membership, membership_to_local. simpl. rewrite rebuilt by done.
  by destruct log_id as [[t n i]|].
Qed.
End Conversions.

Lemma set_mem_same n : set_mem (mem n) n = n.
Proof. by destruct n. Qed.

(** ** Threads over one node

    [rg p Q x]: from [x], and whatever the other threads do within [Rl] between its
    requests, every request of [p] keeps [Inv] and stays within [G], and [p] ends in
    [Q].  The state is a node and how far the cluster's log is committed there. *)
Section RelyGuarantee.
Abbreviation state := (Z * Node)%type.
Context (Inv : state → Prop) (Rl G : state → state → Prop).
Context (Rl_refl : ∀ x, Rl x x) (Rl_trans : ∀ x y z, Rl x y → Rl y z → Rl x z).

Fixpoint rg {A} (p : io A) (Q : A → state → Prop) (x : state) : Prop :=
  match p with
  | Ret a => ∀ y, Rl x y → Inv y → Q a y
  | Do e k => ∀ y, Rl x y → Inv y → ∀ r n', exec y.2 e r n' →
      Inv (y.1, n') ∧ G y (y.1, n') ∧ rg (k r) Q (y.1, n')
  end.

Lemma rg_stable {A} (p : io A) Q x y : rg p Q x → Rl x y → rg p Q y.
Proof. destruct p as [a|e k]; simpl; eauto. Qed.

Lemma rg_bind {A B} (p : io A) (f : A → io B) Q x :
  rg p (λ a y, rg (f a) Q y) x → rg (bind p f) Q x.
Proof.
  revert x. induction p as [a|e k IH]; intros x; simpl.
  - intros Hf. destruct (f a) as [b|e k] eqn:Ef; simpl.
    + intros y Hxy Hy. specialize (Hf y Hxy Hy). simpl in Hf. by apply Hf.
    + intros y Hxy Hy r n' Hex. specialize (Hf y Hxy Hy). simpl in Hf. by apply Hf.
  - intros Hk y Hxy Hy r n' Hex. destruct (Hk y Hxy Hy r n' Hex) as (? & ? & ?).
    split_and!; [done|done|]. by apply IH.
Qed.

Lemma rg_mono {A} (p : io A) (Q Q' : A → state → Prop) x :
  rg p Q x → (∀ a y, Inv y → Q a y → Q' a y) → rg p Q' x.
Proof.
  intros Hp HQ. revert x Hp. induction p as [a|e k IH]; intros x; simpl; [eauto|].
  intros Hk y Hxy Hy r n' Hex. destruct (Hk y Hxy Hy r n' Hex) as (? & ? & ?).
  split_and!; [done|done|]. by apply IH.
Qed.

(** What has been committed stays committed. *)
Lemma rg_grows {A} (p : io A) Q x :
  (∀ x y, Rl x y → x.1 ≤ y.1) → rg p Q x → rg p (λ a y, Q a y ∧ x.1 ≤ y.1) x.
Proof.
  intros HR. revert x. induction p as [a|e k IH]; intros x; simpl; [eauto|].
  intros Hk y Hxy Hy r n' Hex. destruct (Hk y Hxy Hy r n' Hex) as (? & ? & Hr).
  split_and!; [done|done|]. eapply rg_mono; [by apply IH|]. intros a z _ [HQ Hz].
  specialize (HR _ _ Hxy). simpl in *. split; [done|lia].
Qed.

Lemma rg_try {Er A B} (p : io (result Er A)) (f : A → io (result Er B)) Q x :
  rg p (λ a y, match a with Ok a => rg (f a) Q y | Err e => ∀ z, Rl y z → Inv z → Q (Err e) z end) x →
  rg (try_bind p f) Q x.
Proof. intros Hp. apply rg_bind. eapply rg_mono; [exact Hp|]. by intros [a|e] y Hy. Qed.

(** One transaction: it may refuse or fail, before or after it took hold. *)
Lemma rg_io {A} (op : Store → result Error (Store * A)) Q x :
  (∀ y, Inv y → G y y) →
  (∀ y st a, Rl x y → Inv y → op (disk y.2) = Ok (st, a) →
     let z := (y.1, set_disk st y.2) in Inv z ∧ G y z ∧ ∀ w, Rl z w → Inv w → Q (Ok a) w) →
  (∀ e y, Inv y → Q (Err e) y) →
  rg (Effects.ask (Io op)) Q x.
Proof.
  intros HG Hok Herr y Hxy Hy r n' Hex. destruct y as [c n]. simpl in Hex.
  specialize (Hok (c, n)). simpl in Hok. destruct (op (disk n)) as [[st a]|e] eqn:Eop.
  - destruct (Hok st a Hxy Hy eq_refl) as (Hi & Hg & Hq).
    destruct Hex as [[-> ->]|[[e ->] [-> | ->]]]; simpl; eauto 8.
  - destruct Hex as [[e' ->] ->]. simpl. eauto 8.
Qed.

Lemma rg_state {A} (f : ClusterState → ClusterState * A) Q x :
  (∀ y, Rl x y → Inv y →
     let z := (y.1, set_mem (f (mem y.2)).1 y.2) in
     Inv z ∧ G y z ∧ ∀ w, Rl z w → Inv w → Q (f (mem y.2)).2 w) →
  rg (Effects.ask (WithState f)) Q x.
Proof.
  intros H y Hxy Hy r n' Hex. destruct (H y Hxy Hy) as (? & ? & ?). destruct y as [c n].
  simpl in Hex. destruct Hex as [-> ->]. eauto.
Qed.

Lemma rg_load (Q : Z → state → Prop) x :
  (∀ y, Inv y → G y y) →
  (∀ y z, Rl x y → Inv y → Rl y z → Inv z → Q (applied_end y.2) z) →
  rg (Effects.ask LoadEnd) Q x.
Proof.
  intros HG H y Hxy Hy r n' Hex. destruct y as [c n]. simpl in Hex. destruct Hex as [-> ->].
  split_and!; [done|by apply HG|]. intros z Hz Hiz. by apply (H (c, n)).
Qed.

Lemma rg_store (e : Z) (Q : () → state → Prop) x :
  (∀ y, Rl x y → Inv y →
     let z := (y.1, set_end e y.2) in Inv z ∧ G y z ∧ ∀ w, Rl z w → Inv w → Q tt w) →
  rg (Effects.ask (StoreEnd e)) Q x.
Proof.
  intros H y Hxy Hy r n' Hex. destruct (H y Hxy Hy) as (? & ? & ?). destruct y as [c n].
  simpl in Hex. subst n'. destruct r. eauto.
Qed.

End RelyGuarantee.

(** ** Fault-free runs *)
Definition answer (n : Node) (r : Req) : Answer r * Node :=
  match r with
  | @Io A op =>
      match op (disk n) with Ok (st, v) => (Ok v, set_disk st n) | Err e => (Err e, n) end
  | @WithState A f => ((f (mem n)).2, set_mem (f (mem n)).1 n)
  | LoadEnd => (applied_end n, n)
  | StoreEnd e => (tt, set_end e n)
  | Flushed _ => (tt, n)
  end.

Lemma answer_exec n r : exec n r (answer n r).1 (answer n r).2.
Proof.
  destruct r as [A op|A f| |e|ok]; simpl; try done.
  destruct (op (disk n)) as [[st v]|e]; simpl; eauto.
Qed.

Fixpoint run {A} (n : Node) (p : io A) : Node * A :=
  match p with
  | Ret a => (n, a)
  | Do e k => run (answer n e).2 (k (answer n e).1)
  end.

(** At most [fuel] requests, and what is left of the program. *)
Fixpoint run_for {A} (fuel : nat) (n : Node) (p : io A) : Node * io A :=
  match fuel, p with
  | S f, Do e k => run_for f (answer n e).2 (k (answer n e).1)
  | _, _ => (n, p)
  end.

Lemma run_bind {A B} n (p : io A) (f : A → io B) :
  run n (bind p f) = run (run n p).1 (f (run n p).2).
Proof. revert n. induction p as [a|e k IH]; intros n; simpl; [done|apply IH]. Qed.
