(* ===== verification/RaftStoreProofs.v ===== *)
(** * What a restart finds: the durable state machine

    The invariant of a node's store and state, the guarantee of each thread (apply,
    install, build), the node as a system of threads over its store, and what every
    crash and restart finds.  Then the log store as an abstract log, and two things a
    restart does not survive. *)

From S2P Require Import Prelude Effects Text Net ClusterState Storage StoreCodec StorageProofs RaftStore RaftState.

Abbreviation io := (prog Answer).

(** ** The node's invariant *)
Section Recovery.
Context `{!StoreCodecs, !StoreCodecLaws}.
Variable sha256 : bytes → bytes.
Variable membership_new : list (list NodeId) → list (NodeId * bytes) → Membership.
Variable L : Z → Entry.
Variable founders : gmap NodeId NodeInfo.
Context (Hlog : log_ok L founders) (Hcanon : ∀ i, entry_canonical (L i)).
Context (Hnew : keeps_canonical membership_new).

Local Abbreviation stored := (stored L).
Local Abbreviation at_ := (at_ L founders).

(** The log id of the last of the first [n] entries, and the record of it. *)
Definition last_of (n : Z) : option LogId := if n =? 0 then None else Some (log_id (L (n - 1))).
Definition position_of (n : Z) : LastAppliedState := log_id_to_last_applied (last_of n).

(** The membership the first [n] entries leave in force, as the store keeps it. *)
Definition membership_of (e : LogEntry) : option LocalStoredMembership :=
  match payload e with PMembership m => Some m | _ => None end.
Definition spec_membership (n : Z) : option LocalStoredMembership :=
  list.last (omap membership_of (stored <$> seqZ 0 n)).
Definition membership_ok (n : Z) (om : option LocalStoredMembership) : Prop :=
  ∀ m, spec_membership n = Some m → om = Some m.

(** Snapshot data [d] recorded under the first [p] entries holds at least them. *)
Definition holds_at (p : Z) (d : ClusterState) : Prop :=
  ∃ d' j, state_at_snapshot_position d (last_applied_index (position_of p)) = Ok d' ∧ at_ j d' ∧ p ≤ j.

Definition durable_at (st : Store) (n : Z) : Prop :=
  load_last_applied st = Ok (position_of n) ∧
  ∃ om, load_applied_membership st = Ok om ∧ membership_ok n om.

Definition snapshot_at (st : Store) (p : Z) : Prop :=
  (load_snapshot_meta st = Ok None ∧ p = 0) ∨
  ∃ meta data d,
    load_snapshot_meta st = Ok (Some meta) ∧ load_snapshot_verified sha256 st = Ok (Some data) ∧
    from_bytes data = Ok d ∧ last_applied meta = position_of p ∧ holds_at p d ∧
    membership_ok p (Some (snap_membership meta)).

Definition logged (st : Store) (i : Z) : Prop :=
  ∃ b, LOGS_TABLE st !! i = Some b ∧ decode b = Ok (stored i).

(** Committed up to [c]: the state reflects [j] entries, the durable position [dp],
    the snapshot [pp], and the log has what boot must replay. *)
Record good (c : Z) (n : Node) (dp pp j : Z) : Prop := {
  good_mem : at_ j (mem n);
  good_durable : durable_at (disk n) dp;
  good_snapshot : snapshot_at (disk n) pp;
  good_logged : ∀ i, pp ≤ i < c → logged (disk n) i;
  good_order : 0 ≤ pp ≤ dp ∧ dp ≤ j ∧ dp ≤ Z.max c pp ∧ c ≤ u64_max;
}.
Definition Inv (x : Z * Node) : Prop := ∃ dp pp j, good x.1 x.2 dp pp j.

Definition durable_end (st : Store) : Z :=
  match load_last_applied st with Ok la => end_of (last_applied_index la) | Err _ => 0 end.
Definition snapshot_end (st : Store) : Z :=
  match load_snapshot_meta st with
  | Ok (Some meta) => end_of (last_applied_index (last_applied meta))
  | _ => 0
  end.

Lemma end_of_position n : 0 ≤ n ≤ u64_max → end_of (last_applied_index (position_of n)) = n.
Proof.
  intros Hn. unfold position_of, last_of. destruct (Z.eqb_spec n 0) as [->|Hne]; [done|]. simpl.
  rewrite (log_index _ _ Hlog). unfold sat_add. lia.
Qed.

Lemma durable_at_end st n : durable_at st n → 0 ≤ n ≤ u64_max → durable_end st = n.
Proof. intros [Hl _] Hn. unfold durable_end. rewrite Hl. by apply end_of_position. Qed.

Lemma snapshot_at_end st p : snapshot_at st p → 0 ≤ p ≤ u64_max → snapshot_end st = p.
Proof.
  intros Hs Hp. unfold snapshot_end. destruct Hs as [[-> ->]|(meta & data & d & -> & _ & _ & -> & _)]; [done|].
  by apply end_of_position.
Qed.

Lemma good_bounds c n dp pp j : good c n dp pp j → 0 ≤ pp ≤ u64_max ∧ 0 ≤ dp ≤ u64_max ∧ 0 ≤ j ≤ u64_max.
Proof. intros [[Hj _] _ _ _ Ho]. lia. Qed.

Lemma Inv_durable x : Inv x → ∃ pp j, good x.1 x.2 (durable_end (disk x.2)) pp j.
Proof.
  intros (dp & pp & j & Hg). exists pp, j. pose proof (good_bounds _ _ _ _ _ Hg).
  by rewrite (durable_at_end _ dp) by (apply Hg || lia).
Qed.

(** ** Boot *)
Lemma seqZ_Sn i k : seqZ i (i + k - i) = seqZ i k.
Proof. f_equal. lia. Qed.

Lemma replay_from st j s from dp c :
  at_ j s → durable_at st dp → 0 ≤ from ≤ j → from ≤ dp → (from < dp → dp ≤ c) → dp ≤ u64_max →
  (∀ i, from ≤ i < c → logged st i) →
  ∃ s', replay_applied_entries st s from = Ok s' ∧ at_ (Z.max j dp) s'.
Proof.
  intros Hat [Hl _] Hfj Hfd Hdc Hmax Hlogged. unfold replay_applied_entries. rewrite Hl. cbn [result_bind].
  unfold position_of, last_of. destruct (Z.eqb_spec dp 0) as [->|Hne]; simpl.
  - exists s. rewrite Z.max_l by lia. done.
  - rewrite (log_index _ _ Hlog). destruct (Z.ltb_spec (dp - 1) from) as [Hlt|Hge].
    + exists s. rewrite Z.max_l by lia. done.
    + rewrite sat_add_exact, Z.sub_add by lia.
      rewrite (get_entries_full _ stored) by (intros i Hi; apply Hlogged; lia).
      cbn [result_bind]. eexists. split; [done|].
      replace (Z.max j dp) with (Z.max j (from + (dp - from))) by lia.
      apply at_replay_range; [done|done|lia|lia|lia].
Qed.

Lemma restore_good c n dp pp j configured :
  good c n dp pp j → dom founders ⊆ list_to_set (info_id <$> configured) →
  ∃ s j', restore sha256 configured (disk n) = Ok s ∧ at_ j' s ∧ dp ≤ j'.
Proof.
  intros Hg Hcfg. pose proof (good_bounds _ _ _ _ _ Hg) as Hb. destruct Hg as [_ Hd Hs Hl Ho].
  unfold restore, load_snapshot_state.
  destruct Hs as [[-> ->]|(meta & data & d & -> & -> & Hdata & Hpos & (d' & j' & Hd' & Hat & Hj') & _)].
  - cbn [result_bind]. lazymatch goal with |- context [replay_applied_entries _ ?s 0] =>
      destruct (replay_from (disk n) 0 s 0 dp c) as (s' & -> & Hat) end;
      [by apply at_fresh|done|lia|lia|lia|lia|done|].
    exists s', (Z.max 0 dp). split_and!; [done|done|lia].
  - cbn [result_bind ok_or]. rewrite Hdata. cbn [result_bind]. rewrite Hpos, Hd'. cbn [result_bind].
    rewrite end_of_position by lia.
    lazymatch goal with |- context [replay_applied_entries _ ?s pp] =>
      destruct (replay_from (disk n) j' s pp dp c) as (s' & -> & Hat') end;
      [by apply at_configured|done|lia|lia|lia|lia|done|].
    exists s', (Z.max j' dp). split_and!; [done|done|lia].
Qed.

Lemma spec_membership_succ n :
  0 ≤ n →
  spec_membership (n + 1) =
  match membership_of (stored n) with Some m => Some m | None => spec_membership n end.
Proof.
  intros Hn. unfold spec_membership. rewrite seqZ_app by lia. rewrite Z.add_0_l, seqZ_one.
  rewrite fmap_app, omap_app. simpl. destruct (membership_of (stored n)) as [m|].
  - by rewrite last_snoc.
  - by rewrite app_nil_r.
Qed.

(** No membership between two positions: the earlier one's membership stands. *)
Lemma spec_membership_stands a b :
  0 ≤ a ≤ b → (∀ q, a ≤ q < b → membership_of (stored q) = None) →
  spec_membership b = spec_membership a.
Proof.
  intros Hab. assert (∀ k, 0 ≤ k → (∀ q, a ≤ q < a + k → membership_of (stored q) = None) →
    spec_membership (a + k) = spec_membership a) as Hk.
  { apply (natlike_ind (λ k, _ → spec_membership (a + k) = _)); [by rewrite Z.add_0_r|].
    intros k Hk IH Hq. rewrite Z.add_succ_r, <-Z.add_1_r, spec_membership_succ by lia.
    rewrite Hq by lia. apply IH. intros q Hq'. apply Hq. lia. }
  intros Hq. rewrite <-(Hk (b - a)); [f_equal; lia|lia|]. intros q Hq'. apply Hq. lia.
Qed.

(** ** What the threads rely on *)
Definition same_durable (st st' : Store) : Prop :=
  load_last_applied st' = load_last_applied st ∧
  load_applied_membership st' = load_applied_membership st.

(** The state-machine task owns the state, the durable position and [applied_end]; *)
Definition R_sm (x y : Z * Node) : Prop :=
  x.1 ≤ y.1 ∧ mem y.2 = mem x.2 ∧ applied_end y.2 = applied_end x.2 ∧
  same_durable (disk x.2) (disk y.2).
(** a snapshot builder owns the snapshot table, and sees the position only grow. *)
Definition R_build (x y : Z * Node) : Prop :=
  x.1 ≤ y.1 ∧ SNAPSHOT_TABLE (disk y.2) = SNAPSHOT_TABLE (disk x.2) ∧
  durable_end (disk x.2) ≤ durable_end (disk y.2).

Lemma R_sm_refl x : R_sm x x.
Proof. by split_and!. Qed.
Lemma R_sm_trans x y z : R_sm x y → R_sm y z → R_sm x z.
Proof.
  intros (? & E1 & E2 & E3 & E4) (? & F1 & F2 & F3 & F4).
  split_and!; [lia|by rewrite F1|by rewrite F2|]. by split; rewrite ?F3, ?F4.
Qed.
Lemma R_build_refl x : R_build x x.
Proof. by split_and!. Qed.
Lemma R_build_trans x y z : R_build x y → R_build y z → R_build x z.
Proof. intros (? & E & ?) (? & F & ?). split_and!; [lia|by rewrite F|lia]. Qed.

Lemma good_stable x y dp pp j :
  good x.1 x.2 dp pp j → R_sm x y → Inv y → ∃ pp', good y.1 y.2 dp pp' j.
Proof.
  intros Hg (_ & Hm & _ & Hl & Ham) (dp' & pp' & j' & Hg'). exists pp'.
  pose proof (good_bounds _ _ _ _ _ Hg). pose proof (good_bounds _ _ _ _ _ Hg').
  assert (dp' = dp) as ->.
  { rewrite <-(durable_at_end (disk y.2) dp') by (apply Hg' || lia).
    rewrite <-(durable_at_end (disk x.2) dp) by (apply Hg || lia). unfold durable_end. by rewrite Hl. }
  assert (j' = j) as ->.
  { pose proof (at_end _ _ Hlog _ _ (good_mem _ _ _ _ _ Hg')) as E1.
    pose proof (at_end _ _ Hlog _ _ (good_mem _ _ _ _ _ Hg)) as E2. rewrite Hm in E1. congruence. }
  done.
Qed.

Lemma good_set_mem c n dp pp j s j' :
  good c n dp pp j → at_ j' s → j ≤ j' → good c (set_mem s n) dp pp j'.
Proof. intros [? ? ? ? ?] Hat Hj. split; try done. lia. Qed.

Lemma good_set_end c n dp pp j e : good c n dp pp j → good c (set_end e n) dp pp j.
Proof. by intros [? ? ? ? ?]. Qed.

(** Moving the durable position forward, over the same log and snapshot. *)
Lemma good_set_disk c n dp pp j st dp' :
  good c n dp pp j → durable_at st dp' → dp ≤ dp' ≤ j → dp' ≤ c →
  LOGS_TABLE st = LOGS_TABLE (disk n) → SNAPSHOT_TABLE st = SNAPSHOT_TABLE (disk n) →
  good c (set_disk st n) dp' pp j.
Proof.
  intros [? ? Hs Hl ?] Hd Hdp Hc El Es. split; [done|done| | |lia].
  - unfold snapshot_at, load_snapshot_meta, load_snapshot_verified in *. simpl. by rewrite Es.
  - intros i Hi. unfold logged. simpl. rewrite El. by apply Hl.
Qed.

Lemma good_Inv c n dp pp j : good c n dp pp j → Inv (c, n).
Proof. intros Hg. by exists dp, pp, j. Qed.

Lemma good_durable_end c n dp pp j : good c n dp pp j → durable_end (disk n) = dp.
Proof.
  intros Hg. pose proof (good_bounds _ _ _ _ _ Hg). apply durable_at_end; [apply Hg|lia].
Qed.

(** ** Applying a batch *)
Definition progress (e0 : Z) (last : option LogId) (i : Z) (x : Z * Node) : Prop :=
  ∃ dp pp j, good x.1 x.2 dp pp j ∧ i ≤ j ∧ e0 ≤ dp ≤ Z.max e0 i ∧ applied_end x.2 = dp ∧
    (∀ q, dp ≤ q < i → membership_of (stored q) = None) ∧
    match last with None => i ≤ e0 | Some id => e0 < i ∧ id = log_id (L (i - 1)) end.

Lemma progress_stable e0 last i x y : progress e0 last i x → R_sm x y → Inv y → progress e0 last i y.
Proof.
  intros (dp & pp & j & Hg & ? & ? & He & ? & ?) HR HI.
  destruct (good_stable _ _ _ _ _ Hg HR HI) as [pp' Hg']. exists dp, pp', j.
  destruct HR as (_ & _ & Hend & _). rewrite Hend. done.
Qed.

Local Abbreviation rg_sm := (rg Inv R_sm R_build).

Lemma stored_payload_of i : payload (stored i) =
  match entry_payload (L i) with
  | EBlank => PBlank
  | ENormal cmd => PNormal cmd
  | EMembership m => PMembership (membership_to_local (Some (log_id (L i))) m)
  end.
Proof. unfold RaftState.stored, openraft_to_log_entry. simpl. by destruct (entry_payload (L i)). Qed.

(** The state's step for entry [i], in the thread that applies it. *)
Lemma progress_step e0 last i x s :
  progress e0 last i x → 0 ≤ i → i < x.1 → e0 ≤ i → s = replay_entry (mem x.2) (stored i) →
  let z := (x.1, set_mem s x.2) in
  Inv z ∧ R_build x z ∧
  (membership_of (stored i) = None → progress e0 (Some (log_id (L i))) (i + 1) z).
Proof.
  intros (dp & pp & j & Hg & Hij & Hdp & He & Hq & Hlast) Hi Hc Hei ->.
  pose proof (good_bounds _ _ _ _ _ Hg). pose proof (good_order _ _ _ _ _ Hg).
  assert (good x.1 (set_mem (replay_entry (mem x.2) (stored i)) x.2) dp pp (Z.max j (i + 1))) as Hg'.
  { eapply good_set_mem; [exact Hg| |lia]. apply at_replay; [done|apply Hg|lia|lia]. }
  split_and!; [by eapply good_Inv|done..|]. intros Hno. exists dp, pp, (Z.max j (i + 1)).
  split_and!; [done|lia|lia|lia|done| |lia|by rewrite Z.add_simpl_r].
  intros q Hq'. destruct (decide (q = i)) as [->|]; [done|]. apply Hq. lia.
Qed.

Lemma ensure_reflects_rg i x (P : Z * Node → Prop) :
  (∀ y, R_sm x y → Inv y → reflects (mem y.2) i = true) → (∀ y z, P y → R_sm y z → Inv z → P z) → P x →
  rg_sm (ensure_state_reflects i) (λ r y, r = Ok tt ∧ P y) x.
Proof.
  intros Hr HP Hx. unfold ensure_state_reflects. apply (rg_bind _ _ _ R_sm_refl), rg_state.
  intros [c n] Hxy Hy. simpl. rewrite set_mem_same. split_and!; [done|apply R_build_refl|].
  pose proof (Hr (c, n) Hxy Hy) as Hrn. simpl in Hrn. rewrite Hrn.
  intros w Hw Hiw v Hv Hiv. split; [done|].
  eapply HP; [|exact Hv|done]. eapply HP; [|exact Hw|done]. by eapply HP.
Qed.

Lemma progress_reflects e0 last i k x y :
  progress e0 last i x → R_sm x y → Inv y → 0 ≤ k < i → i ≤ u64_max → reflects (mem y.2) k = true.
Proof.
  intros Hp HR HI Hk Hi. destruct (progress_stable _ _ _ _ _ Hp HR HI) as (dp & pp & j & Hg & ? & _).
  rewrite (at_reflects _ _ Hlog j) by (apply Hg || lia). apply Z.ltb_lt. lia.
Qed.

(** The durable record the thread writes for the first [i] entries. *)
Lemma good_persist c n dp pp j i st :
  good c n dp pp j → dp ≤ i ≤ j → i ≤ c → durable_at st i →
  LOGS_TABLE st = LOGS_TABLE (disk n) → SNAPSHOT_TABLE st = SNAPSHOT_TABLE (disk n) →
  good c (set_disk st n) i pp j ∧ R_build (c, n) (c, set_disk st n).
Proof.
  intros Hg Hi Hc Hd El Es.
  assert (good c (set_disk st n) i pp j) as Hg' by (by eapply good_set_disk).
  split; [done|]. split_and!; [done|done|].
  pose proof (good_durable_end _ _ _ _ _ Hg') as E'. simpl in *. rewrite E'.
  rewrite (good_durable_end _ _ _ _ _ Hg). lia.
Qed.

Lemma durable_at_next i st :
  0 ≤ i → load_last_applied st = Ok (log_id_to_last_applied (Some (log_id (L i)))) →
  (∃ om, load_applied_membership st = Ok om ∧ membership_ok (i + 1) om) → durable_at st (i + 1).
Proof.
  intros Hi Hl Hm. split; [|done]. rewrite Hl. unfold position_of, last_of.
  rewrite (proj2 (Z.eqb_neq _ _)) by lia. by rewrite Z.add_simpl_r.
Qed.

(** The end of a persist: the new position is durable, [applied_end] follows it. *)
Lemma store_end_rg e0 i j x (Q : () → Z * Node → Prop) :
  (∃ pp, good x.1 x.2 (i + 1) pp j) → 0 ≤ i → i < u64_max → e0 ≤ i → i + 1 ≤ j →
  (∀ y, progress e0 (Some (log_id (L i))) (i + 1) y → applied_end y.2 = i + 1 → Q tt y) →
  rg_sm (ask (StoreEnd (sat_add_u64 i 1))) Q x.
Proof.
  intros [pp Hg] Hi Hmax Hei Hij HQ. apply rg_store. intros y Hxy Hy.
  destruct (good_stable _ _ _ _ _ Hg Hxy Hy) as [pp' Hg'].
  rewrite sat_add_exact by lia.
  split_and!; [eapply good_Inv, good_set_end, Hg'|by split_and!|].
  intros w Hw Hiw. apply HQ; [|by destruct Hw as (_ & _ & -> & _)].
  apply (progress_stable _ _ _ (y.1, set_end (i + 1) y.2)); [|done|done]. exists (i + 1), pp', j. split_and!; [by apply good_set_end|done|lia|lia|done| |lia|by rewrite Z.add_simpl_r].
  intros q Hq. lia.
Qed.

(** [apply_membership_entry_atomic]: the state, then membership and position at once. *)
Lemma membership_rg i m e0 last x :
  entry_payload (L i) = EMembership m → 0 ≤ i → i < x.1 → e0 ≤ i → progress e0 last i x →
  rg_sm (apply_membership_entry_atomic (log_id (L i)) m)
    (λ r y, match r with Ok _ => progress e0 (Some (log_id (L i))) (i + 1) y | Err _ => True end) x.
Proof.
  intros Hm Hi Hc Hei Hp. unfold apply_membership_entry_atomic.
  set (local := membership_to_local (Some (log_id (L i))) m).
  destruct (split_membership_nodes local) as [voters learners] eqn:Esplit.
  rewrite (log_index _ _ Hlog). apply (rg_bind _ _ _ R_sm_refl), rg_state. intros y Hxy Hy.
  pose proof (progress_stable _ _ _ _ _ Hp Hxy Hy) as Hpy.
  assert (i < y.1) as Hcy by (destruct Hxy as [? _]; lia).
  cbn [fst snd].
  destruct (progress_step _ _ _ _ (replay_entry (mem y.2) (stored i)) Hpy Hi Hcy Hei eq_refl) as (HI & HG & _).
  assert (Er : replay_entry (mem y.2) (stored i) =
    if reflects (mem y.2) i then mem y.2
    else note_applied (sync_membership_into voters learners (mem y.2)) i).
  { unfold replay_entry. rewrite stored_payload_of, Hm, (stored_index L founders Hlog). fold local.
    by rewrite Esplit. }
  rewrite <-Er. split_and!; [done|done|].
  set (z := (y.1, set_mem (replay_entry (mem y.2) (stored i)) y.2)) in *.
  (* from here on entry [i] is in the state *)
  destruct Hpy as (dp & pp & j & Hg & Hij & Hdp & He & Hq & _).
  pose proof (good_bounds _ _ _ _ _ Hg). pose proof (good_order _ _ _ _ _ Hg).
  assert (Hz : good z.1 z.2 dp pp (Z.max j (i + 1))).
  { eapply good_set_mem; [exact Hg| |lia]. apply at_replay; [done|apply Hg|lia|lia]. }
  assert (Hstab : ∀ w, R_sm z w → Inv w → ∃ pp, good w.1 w.2 dp pp (Z.max j (i + 1))).
  { intros v Hv Hiv. by eapply good_stable. }
  intros w Hw Hiw. apply (rg_try _ _ _ R_sm_refl).
  eapply rg_mono; [apply (ensure_reflects_rg i w (R_sm z)); [|by intros; eapply R_sm_trans|done]|].
  { intros v Hv Hiv. destruct (Hstab v) as [ppv Hgv]; [by eapply R_sm_trans|done|].
    rewrite (at_reflects _ _ Hlog (Z.max j (i + 1))) by (apply Hgv || lia). apply Z.ltb_lt. lia. }
  intros r v Hiv [-> Hv]. apply (rg_try _ _ _ R_sm_refl). apply rg_io.
  { intros; apply R_build_refl. } 2: { intros e v' _ v'' _ _. exact I. }
  intros [cv nv] st [] Hvv Hivv Hop. cbn [fst snd].
  pose proof (R_sm_trans _ _ _ Hv Hvv) as Hzv.
  destruct (Hstab _ Hzv Hivv) as [ppv Hgv]. cbn [fst snd] in *.
  destruct (save_applied_membership_and_last_applied _ _ _) as [st'|] eqn:Esave; [|done].
  cbn [result_bind] in Hop. injection Hop as ->.
  destruct (save_membership_position _ _ _ _ Esave) as (Hla & Ham & El & Es).
  assert (durable_at st (i + 1)) as Hd.
  { apply durable_at_next; [done|done|]. exists (Some local). split; [done|]. intros m' Hm'.
    rewrite spec_membership_succ in Hm' by done. unfold membership_of in Hm'.
    by rewrite stored_payload_of, Hm in Hm'. }
  destruct Hzv as [Hcv _]. unfold z in Hcv. cbn [fst snd] in *.
  destruct (good_persist _ _ _ _ _ (i + 1) st Hgv) as [Hg' HG']; [lia|lia|done|done|done|].
  split_and!; [by eapply good_Inv|done|]. intros u Hu Hiu.
  apply (rg_bind _ _ _ R_sm_refl). apply (store_end_rg e0 i (Z.max j (i + 1))); [|done|lia|done|lia|].
  { by eapply (good_stable (cv, set_disk st nv)). }
  intros u' Hu' _ u'' Hu'' Hiu''. by eapply progress_stable.
Qed.

(** The batch is durable: [applied_end] is the durable position, past the batch. *)
Definition settled (i : Z) (y : Z * Node) : Prop :=
  applied_end y.2 = durable_end (disk y.2) ∧ i ≤ durable_end (disk y.2).

Lemma progress_settled e0 last i x :
  progress e0 last i x → i ≤ applied_end x.2 → settled i x.
Proof.
  intros (dp & pp & j & Hg & _ & _ & He & _) Hi. unfold settled.
  rewrite (good_durable_end _ _ _ _ _ Hg). lia.
Qed.

Lemma persist_rg e0 i x :
  progress e0 (Some (log_id (L (i - 1)))) i x → i ≤ x.1 → 1 ≤ i →
  rg_sm (persist_last_applied (log_id (L (i - 1))))
    (λ r y, match r with Ok _ => settled i y | Err _ => True end) x.
Proof.
  intros Hp Hic Hi1. unfold persist_last_applied. rewrite (log_index _ _ Hlog).
  assert (i ≤ u64_max) as Hmax.
  { destruct Hp as (dp & pp & j & Hg & _). pose proof (good_order _ _ _ _ _ Hg). lia. }
  rewrite sat_add_exact, Z.sub_add by lia.
  apply (rg_bind _ _ _ R_sm_refl), rg_load; [intros; apply R_build_refl|]. intros y z Hxy Hy Hyz Hz.
  pose proof (progress_stable _ _ _ _ _ Hp Hxy Hy) as Hpy.
  pose proof (progress_stable _ _ _ _ _ Hpy Hyz Hz) as Hpz.
  destruct (Z.leb_spec i (applied_end y.2)) as [Hle|Hgt].
  { intros w Hw Hiw. apply (progress_settled e0 (Some (log_id (L (i - 1))))); [by eapply progress_stable|].
    destruct Hyz as (_ & _ & E1 & _), Hw as (_ & _ & E2 & _). congruence. }
  assert (applied_end z.2 < i) as Hgt' by (destruct Hyz as (_ & _ & -> & _); lia).
  assert (i ≤ z.1) as Hiz by (destruct Hxy, Hyz; lia).
  destruct Hpz as (dp & pp & j & Hg & Hij & Hdp & He & Hq & Hlast & _).
  assert (Hstab : ∀ w, R_sm z w → Inv w → ∃ pp, good w.1 w.2 dp pp j).
  { intros w Hw Hiw. by eapply good_stable. }
  apply (rg_try _ _ _ R_sm_refl).
  eapply rg_mono; [apply (ensure_reflects_rg (i - 1) z (R_sm z)); [|by intros; eapply R_sm_trans|apply R_sm_refl]|].
  { intros v Hv Hiv. destruct (Hstab v Hv Hiv) as [ppv Hgv].
    rewrite (at_reflects _ _ Hlog j) by (apply Hgv || lia). apply Z.ltb_lt. lia. }
  intros r v Hiv [-> Hv]. apply (rg_try _ _ _ R_sm_refl). apply rg_io.
  { intros; apply R_build_refl. } 2: { intros e v' _ v'' _ _. exact I. }
  intros [cv nv] st [] Hvv Hivv Hop. cbn [fst snd].
  pose proof (R_sm_trans _ _ _ Hv Hvv) as Hzv.
  destruct (Hstab _ Hzv Hivv) as [ppv Hgv]. cbn [fst snd] in *.
  destruct (save_last_applied _ _) as [st'|] eqn:Esave; [|done].
  cbn [result_bind] in Hop. injection Hop as ->.
  destruct (save_last_applied_position _ _ _ Esave) as (Hla & Ham & El & Es).
  pose proof (good_bounds _ _ _ _ _ Hgv) as Hb.
  assert (durable_at st i) as Hd.
  { rewrite <-(Z.sub_add 1 i). apply durable_at_next; [lia|done|].
    destruct (good_durable _ _ _ _ _ Hgv) as [_ (om & Hom & Hok)]. exists om. rewrite Ham.
    split; [done|]. rewrite Z.sub_add. unfold membership_ok in *.
    rewrite (spec_membership_stands dp i) by (done || lia). done. }
  destruct Hzv as [Hcv _]. cbn [fst snd] in *.
  destruct (good_persist _ _ _ _ _ i st Hgv) as [Hg' HG']; [lia|lia|done|done|done|].
  split_and!; [by eapply good_Inv|done|]. intros u Hu Hiu.
  apply (rg_bind _ _ _ R_sm_refl).
  pose proof (store_end_rg e0 (i - 1) j u (λ r y, rg_sm (Ret (Ok r)) (λ r y,
    match r with Ok _ => settled i y | @Err _ _ e => let _ : Error := e in True end) y)) as Hstore.
  rewrite sat_add_exact, Z.sub_add in Hstore by lia.
  apply Hstore; [by eapply (good_stable (cv, set_disk st nv))|lia|lia|lia|lia|].
  intros y' Hpy' Hey' w Hw Hiw. eapply progress_settled; [by eapply progress_stable|].
  destruct Hw as (_ & _ & -> & _). lia.
Qed.

(** The loop of [apply] over entries [i .. i + n). *)
Lemma apply_loop_rg (n : nat) i e0 responses last x :
  0 ≤ i → i + Z.of_nat n ≤ x.1 → progress e0 last i x →
  rg_sm (apply_loop (L <$> seqZ i (Z.of_nat n)) e0 responses last)
    (λ r y, match r with
            | Ok (_, last') => progress e0 last' (i + Z.of_nat n) y
            | Err _ => True
            end) x.
Proof.
  revert i responses last x. induction n as [|n IH]; intros i responses last x Hi Hc Hp.
  { intros y Hxy Hy. rewrite Z.add_0_r. by eapply progress_stable. }
  rewrite seqZ_cons by lia. replace (Z.pred (Z.of_nat (S n))) with (Z.of_nat n) by lia.
  replace (i + Z.of_nat (S n)) with (Z.succ i + Z.of_nat n) by lia.
  cbn [fmap list_fmap apply_loop]. unfold is_duplicate_entry. rewrite (log_index _ _ Hlog).
  destruct (Z.ltb_spec i e0) as [Hdup|Hei].
  { apply IH; [lia|lia|]. destruct Hp as (dp & pp & j & Hg & ? & ? & ? & Hq & Hl).
    pose proof (good_order _ _ _ _ _ Hg).
    exists dp, pp, j. destruct last as [id|]; [lia|]. split_and!; [done|lia|lia|lia|done| |lia].
    intros q Hq'. lia. }
  (* one entry that changes the state and nothing else *)
  assert (Hstep : ∀ A (f : ClusterState → ClusterState * A)
      (k : A → io (result Error (list ClusterResponse * option LogId))) Q,
    (∀ s, (f s).1 = replay_entry s (stored i)) → membership_of (stored i) = None →
    (∀ a y, progress e0 (Some (log_id (L i))) (Z.succ i) y → x.1 ≤ y.1 → rg_sm (k a) Q y) →
    rg_sm (bind (Effects.ask (WithState f)) k) Q x).
  { intros A f k Q Hf Hno Hk. apply (rg_bind _ _ _ R_sm_refl), rg_state. intros y Hxy Hy.
    pose proof (progress_stable _ _ _ _ _ Hp Hxy Hy) as Hpy.
    assert (x.1 ≤ y.1) by (by destruct Hxy).
    destruct (progress_step _ _ _ _ (f (mem y.2)).1 Hpy Hi ltac:(lia) Hei (Hf _)) as (HI & HG & Hpz).
    split_and!; [done|done|]. intros w Hw Hiw. apply Hk.
    - eapply progress_stable; [by apply Hpz|done|done].
    - destruct Hw as [? _]. simpl in *. lia. }
  destruct (entry_payload (L i)) as [|cmd|m] eqn:Ep.
  - apply Hstep; [| |intros [] y Hpy Hxy; apply IH; [lia|lia|done]].
    + intros s. unfold replay_entry. by rewrite stored_payload_of, Ep, (stored_index L founders Hlog).
    + unfold membership_of. by rewrite stored_payload_of, Ep.
  - apply Hstep; [| |intros a y Hpy Hxy; apply IH; [lia|lia|done]].
    + intros s. unfold replay_entry. by rewrite stored_payload_of, Ep, (stored_index L founders Hlog).
    + unfold membership_of. by rewrite stored_payload_of, Ep.
  - apply (rg_try _ _ _ R_sm_refl).
    eapply rg_mono; [apply rg_grows, (membership_rg i m e0 last); [by intros ? ? []|done|done|lia|done|done]|].
    intros [[]|e] y Hy [Hpy Hxy]; [|done]. apply IH; [lia|lia|done].
Qed.

(** A delivered batch: it starts at or before the durable position, it is committed. *)
Lemma apply_rg (n : nat) i x :
  0 ≤ i → settled i x → i + Z.of_nat n ≤ x.1 → Inv x →
  rg_sm (apply (L <$> seqZ i (Z.of_nat n)))
    (λ r y, match r with Ok _ => settled (i + Z.of_nat n) y | Err _ => True end) x.
Proof.
  intros Hi [He Hd] Hc Hx. unfold apply. apply (rg_bind _ _ _ R_sm_refl), rg_load; [intros; apply R_build_refl|].
  intros y z Hxy Hy Hyz Hz.
  assert (Hpx : progress (applied_end x.2) None i x).
  { destruct (Inv_durable x Hx) as (pp & j & Hg). pose proof (good_order _ _ _ _ _ Hg).
    exists (durable_end (disk x.2)), pp, j. split_and!; [done|lia|lia|lia|done| |lia]. intros q Hq. lia. }
  assert (applied_end y.2 = applied_end x.2) as -> by (by destruct Hxy as (_ & _ & -> & _)).
  pose proof (progress_stable _ _ _ _ _ (progress_stable _ _ _ _ _ Hpx Hxy Hy) Hyz Hz) as Hpz.
  apply (rg_try _ _ _ R_sm_refl).
  eapply rg_mono; [eapply rg_grows; [by intros ? ? []|]; apply (apply_loop_rg n i _ _ None);
    [done|destruct Hxy, Hyz; lia|exact Hpz]|].
  intros [[responses [id|]]|e] w Hw [Hp Hzw]; [| |done].
  - pose proof Hp as (dp & pp & j & _ & _ & _ & _ & _ & Hlt & ->).
    apply (rg_try _ _ _ R_sm_refl).
    assert (1 ≤ i + Z.of_nat n) as Hpos.
    { destruct (Inv_durable x Hx) as (pp' & j' & Hg). pose proof (good_order _ _ _ _ _ Hg). lia. }
    eapply rg_mono; [eapply persist_rg; [exact Hp|destruct Hxy, Hyz; lia|done]|].
    intros [[]|e] v Hv Hs; [|done]. intros u Hvu Hu. destruct Hs as [E1 E2].
    destruct Hvu as (_ & _ & Eend & El & _). unfold settled, durable_end in *. by rewrite Eend, El.
  - intros v Hwv Hv. destruct (progress_stable _ _ _ _ _ Hp Hwv Hv) as (dp & pp & j & Hg & _ & ? & Hend & _ & ?).
    unfold settled. rewrite (good_durable_end _ _ _ _ _ Hg). lia.
Qed.

(** ** Snapshots, built here and installed elsewhere

    A leader's snapshot of the first [p] entries, its data in the layout of either
    version: it decodes to a state that holds at least them, its metadata names the
    last of them and the membership in force there. *)
Definition offered_snapshot (p : Z) (meta : RaftSnapshotMeta) (data : bytes) : Prop :=
  0 ≤ p ≤ u64_max ∧ meta_last_log_id meta = last_of p ∧
  membership_ok p (Some (membership_to_local (stored_log_id (meta_last_membership meta))
                           (membership (meta_last_membership meta)))) ∧
  ∃ d, decode_snapshot from_bytes from_bytes data = Ok d ∧ holds_at p d.

(** Data the boot can read: it has the layout of this version. *)
Definition current_layout (data : bytes) : Prop := is_ok (from_bytes (A := ClusterState) data) = true.

Definition faithful_snapshot (p : Z) (meta : RaftSnapshotMeta) (data : bytes) : Prop :=
  0 ≤ p ≤ u64_max ∧ meta_last_log_id meta = last_of p ∧
  membership_ok p (Some (membership_to_local (stored_log_id (meta_last_membership meta))
                           (membership (meta_last_membership meta)))) ∧
  ∃ d, from_bytes data = Ok d ∧ holds_at p d.

Lemma offered_faithful p meta data :
  offered_snapshot p meta data → current_layout data → faithful_snapshot p meta data.
Proof.
  intros (Hp & Hid & Hm & d & Hd & Hh) Hc. split_and!; [lia|lia|done|done|].
  unfold current_layout, decode_snapshot in *. destruct (from_bytes (A := ClusterState) data) as [d'|]; [|done].
  injection Hd as ->. by exists d.
Qed.

Lemma spec_membership_entry n m :
  0 ≤ n → spec_membership n = Some m →
  ∃ i mm, entry_payload (L i) = EMembership mm ∧ m = membership_to_local (Some (log_id (L i))) mm.
Proof.
  revert n. apply (natlike_ind (λ n, spec_membership n = Some m → _)); [done|].
  intros n Hn IH. rewrite <-Z.add_1_r, spec_membership_succ by done.
  unfold membership_of. rewrite stored_payload_of.
  destruct (entry_payload (L n)) as [|cmd|mm] eqn:Ep; [done|done|]. intros [= <-]. eauto.
Qed.

Lemma last_applied_log_id_position n : last_applied_log_id (position_of n) = last_of n.
Proof.
  unfold position_of, last_of. destruct (n =? 0); [done|]. simpl. by destruct (log_id (L (n - 1))).
Qed.

(** A state at [j] entries, recorded under an earlier position. *)
Lemma at_holds p j s : at_ j s → 0 ≤ p ≤ j → holds_at p s.
Proof.
  intros Hat Hp. exists s, j. split_and!; [|done|lia].
  unfold state_at_snapshot_position, position_of, last_of.
  destruct (Z.eqb_spec p 0) as [->|Hne]; [done|]. simpl. rewrite (log_index _ _ Hlog).
  pose proof (at_end _ _ Hlog _ _ Hat) as He. destruct Hat as [Hj _]. revert He. unfold end_of.
  destruct (applied_index s) as [a|]; [|lia]. unfold sat_add. intros He.
  rewrite (proj2 (Z.ltb_ge _ _)); [done|lia].
Qed.

Lemma to_snapshot_meta_good p m data d :
  0 ≤ p ≤ u64_max → membership_ok p (Some m) → from_bytes data = Ok d → holds_at p d →
  faithful_snapshot p (to_snapshot_meta membership_new (SnapshotMeta_ (position_of p) m)) data.
Proof.
  intros Hp Hm Hd Hh. split_and!; [lia|lia|by apply last_applied_log_id_position| |by exists d].
  intros m' Hm'. pose proof (Hm m' Hm') as [= ->].
  destruct (spec_membership_entry p m' ltac:(lia) Hm') as (i & mm & Hi & ->).
  cbn [to_snapshot_meta meta_last_membership snap_membership]. pose proof (Hcanon i) as Hc. unfold entry_canonical in Hc. rewrite Hi in Hc.
  by rewrite (stored_membership_round_trip _ Hnew).
Qed.

(** The builder's write: the snapshot moves up to a position already durable. *)
Lemma good_set_snapshot c n dp pp j p d data m st :
  good c n dp pp j → pp ≤ p ≤ dp → from_bytes data = Ok d → holds_at p d → membership_ok p (Some m) →
  save_snapshot sha256 (SnapshotMeta_ (position_of p) m) data (disk n) = Ok st →
  good c (set_disk st n) dp p j ∧ R_sm (c, n) (c, set_disk st n).
Proof.
  intros [? [Hl (om & Ham & Hok)] Hs Hlg ?] Hp Hd Hh Hm Hsave.
  pose proof (save_snapshot_meta_table _ _ _ _ _ Hsave) as Emeta.
  destruct (write_snapshot_tables sha256 _ _ false _ _ Hsave) as (El & Hsm & Hsd).
  assert (same_durable (disk n) st) as [E1 E2].
  { split; unfold load_last_applied, load_applied_membership; by rewrite Emeta. }
  split; [|by split_and!]. split; [done| | | |lia].
  - split; [by simpl; rewrite E1|]. exists om. simpl. by rewrite E2.
  - right. exists (SnapshotMeta_ (position_of p) m), data, d. done.
  - intros i Hi. unfold logged. simpl. rewrite El. apply Hlg. lia.
Qed.

Lemma build_rg x :
  Inv x →
  rg Inv R_build R_sm (build_snapshot sha256 membership_new)
    (λ r _, match r with Ok (meta, data) => ∃ p, faithful_snapshot p meta data | Err _ => True end) x.
Proof.
  intros Hx. unfold build_snapshot. apply (rg_try _ _ _ R_build_refl). apply rg_io.
  { intros; apply R_sm_refl. } 2: { intros e v' _ v'' _ _. exact I. }
  intros [c n] st [la om] Hxy Hy Hop. cbn [fst snd].
  destruct (Inv_durable _ Hy) as (pp & j & Hg). cbn [fst snd] in Hg.
  set (dp := durable_end (disk n)) in *. pose proof (good_bounds _ _ _ _ _ Hg). pose proof (good_order _ _ _ _ _ Hg).
  destruct (good_durable _ _ _ _ _ Hg) as [Hl (om' & Hom & Hok)].
  unfold load_applied_position in Hop. cbn [fst snd] in Hop. rewrite Hl, Hom in Hop. cbn [result_bind] in Hop.
  injection Hop as <- <- <-. replace (set_disk (disk n) n) with n by (by destruct n).
  split_and!; [done|apply R_sm_refl|]. intros w Hw Hiw.
  apply (rg_bind _ _ _ R_build_refl), rg_state. intros [cv nv] Hv Hiv. cbn [fst snd]. rewrite set_mem_same.
  split_and!; [done|apply R_sm_refl|]. intros u Hu Hiu.
  pose proof (R_build_trans _ _ _ Hw Hv) as Hnv.
  destruct (Inv_durable _ Hiv) as (ppv & jv & Hgv). cbn [fst snd] in Hgv.
  assert (holds_at dp (mem nv)) as Hholds.
  { apply (at_holds dp jv); [apply Hgv|]. pose proof (good_order _ _ _ _ _ Hgv).
    destruct Hnv as (_ & _ & Hle). simpl in Hle. fold dp in Hle. lia. }
  cbv beta. match goal with |- rg _ _ _ (if ?b then _ else _) _ _ => destruct b end.
  { by intros ? ?. }
  lazymatch goal with |- rg _ _ _ (match ?enc with Ok _ => _ | Err _ => _ end) _ _ =>
    destruct enc as [data|e] eqn:Edata end; [|by intros ? ?].
  pose proof (from_to _ _ Edata) as Hdata.
  set (m := match om' with Some m => m | None => _ end).
  assert (membership_ok dp (Some m)) as Hm.
  { intros m' Hm'. pose proof (Hok m' Hm') as ->. done. }
  apply (rg_try _ _ _ R_build_refl). apply rg_io.
  { intros; apply R_sm_refl. } 2: { intros e v' _ v'' _ _. exact I. }
  intros [cz nz] st [] Huz Hiz Hop. cbn [fst snd].
  destruct (save_snapshot _ _ _ _) as [st'|] eqn:Esave; [|done].
  cbn [fst snd result_bind] in *. injection Hop as ->.
  pose proof (R_build_trans _ _ _ Hnv (R_build_trans _ _ _ Hu Huz)) as (_ & Esnap & Hle).
  cbn [fst snd] in *. fold dp in Hle.
  destruct (Inv_durable _ Hiz) as (ppz & jz & Hgz). cbn [fst snd] in Hgz.
  pose proof (good_bounds _ _ _ _ _ Hgz). pose proof (good_order _ _ _ _ _ Hgz).
  assert (ppz = pp) as ->.
  { rewrite <-(snapshot_at_end (disk nz) ppz) by (apply Hgz || lia).
    rewrite <-(snapshot_at_end (disk n) pp) by (apply Hg || lia).
    unfold snapshot_end, load_snapshot_meta. by rewrite Esnap. }
  destruct (good_set_snapshot _ _ _ _ _ dp _ _ _ _ Hgz ltac:(lia) Hdata Hholds Hm Esave) as [Hg' HG'].
  split_and!; [by eapply good_Inv|done|]. intros t Ht Hit t' Ht' Hit'. exists dp.
  apply (to_snapshot_meta_good dp m data (mem nv)); [lia|done|done|done].
Qed.

(** An install only moves the durable position forward. *)
Definition R_install (x y : Z * Node) : Prop := durable_end (disk x.2) ≤ durable_end (disk y.2).

(** Installing a good snapshot that is not behind what this node applied. *)
Lemma install_rg p meta data x :
  faithful_snapshot p meta data → durable_end (disk x.2) ≤ p → Inv x →
  rg Inv R_sm R_install (install_snapshot sha256 meta data)
    (λ r y, match r with Ok _ => settled p y | Err _ => True end) x.
Proof.
  intros (Hp & Hid & Hm & d & Hd & (d' & j' & Hd' & Hat & Hpj)) Hdp Hx. unfold install_snapshot, decode_snapshot.
  rewrite Hd. replace (id_index <$> meta_last_log_id meta) with (last_applied_index (position_of p))
    by (by rewrite Hid). rewrite Hd', end_of_position by lia.
  apply (rg_bind _ _ _ R_sm_refl), rg_state. intros [c n] Hxy Hy. cbn [fst snd].
  destruct (Inv_durable _ Hx) as (pp0 & j0 & Hg0). destruct (good_stable _ _ _ _ _ Hg0 Hxy Hy) as [pp Hg].
  cbn [fst snd] in Hg. set (dp := durable_end (disk x.2)) in *.
  pose proof (good_order _ _ _ _ _ Hg) as Ho.
  assert (good c (set_mem d' n) dp pp j') as Hg1.
  { destruct Hg as [? ? ? ? ?]. split; try done. lia. }
  split_and!; [by eapply good_Inv|by unfold R_install|]. intros w Hw Hiw.
  apply (rg_try _ _ _ R_sm_refl). apply rg_io; [unfold R_install; lia| |intros e v' _ v'' _ _; exact I].
  intros [cv nv] st [] Hwv Hiv Hop. cbn [fst snd].
  destruct (good_stable (c, set_mem d' n) (cv, nv) _ _ _ Hg1 (R_sm_trans _ _ _ Hw Hwv) Hiv) as [ppv Hgv].
  cbn [fst snd] in *. destruct (save_installed_snapshot _ _ _ _) as [st'|] eqn:Esave; [|done].
  cbn [result_bind] in Hop. injection Hop as ->.
  destruct (save_installed_position _ _ _ _ _ Esave) as [Hl Ham].
  destruct (write_snapshot_tables sha256 _ _ true _ _ Esave) as (El & Hsm & Hsd). simpl in Hl, Ham.
  pose proof (good_order _ _ _ _ _ Hgv) as Hov.
  assert (good cv (set_disk st nv) p p j') as Hg2.
  { split; [apply Hgv| | | |lia].
    - cbn [disk set_disk]. split; [by rewrite Hl, Hid|]. eexists. split; [exact Ham|done].
    - right. eexists _, data, d. split_and!; [exact Hsm|done|done|by simpl; rewrite Hid| |done].
      by exists d', j'.
    - intros i Hi. unfold logged. simpl. rewrite El. apply Hgv. lia. }
  assert (durable_end (disk nv) = dp) as Edp by by eapply good_durable_end.
  pose proof (good_durable_end _ _ _ _ _ Hg2) as Ep. simpl in Ep.
  split_and!; [by eapply good_Inv|unfold R_install; simpl; lia|]. intros u Hu Hiu.
  destruct (good_stable (cv, set_disk st nv) u _ _ _ Hg2 Hu Hiu) as [ppu Hgu].
  apply (rg_bind _ _ _ R_sm_refl), rg_store. intros [ct nt] Ht Hit. cbn [fst snd].
  destruct (good_stable _ _ _ _ _ Hgu Ht Hit) as [ppt Hgt]. cbn [fst snd] in Hgt.
  split_and!; [by eapply good_Inv, good_set_end|unfold R_install; simpl; lia|]. intros q Hq Hiq q' Hq' Hiq'.
  destruct (good_stable (ct, set_end p nt) q' _ _ _ (good_set_end _ _ _ _ _ p Hgt)
    (R_sm_trans _ _ _ Hq Hq') Hiq') as [ppq Hgq].
  pose proof (R_sm_trans _ _ _ Hq Hq') as (_ & _ & Hend & _). cbn [fst snd] in *.
  unfold settled. rewrite (good_durable_end _ _ _ _ _ Hgq), Hend. simpl. lia.
Qed.

(** ** The node as a system

    The state-machine task, at most one builder beside it, the log's writer, commits
    and crashes.  What openraft promises of each is the step's premise: it appends
    nothing that contradicts a committed entry, truncates only past the commit, purges
    only what the stored snapshot covers, delivers committed entries from the applied
    position on, and installs no snapshot behind it.  A builder may be in flight
    across an install, and a leader may offer a snapshot of the older layout. *)
Inductive Task :=
| Applying (upto : Z) (p : io (result Error (list ClusterResponse)))
| Installing (upto : Z) (data : bytes) (p : io (result Error ())).

Record Sys := Sys_ {
  commit_to : Z;
  node : Node;
  task : option Task;
  builder : option (io (result Error (RaftSnapshotMeta * bytes)));
  acknowledged : Z;   (* how far a finished apply or install has answered Ok *)
}.

Inductive core_op (c : Z) (st : Store) : (Store → result Error Store) → Prop :=
| core_append es :
    (∀ e, e ∈ es → id_index (log_id e) < c → e = L (id_index (log_id e))) →
    core_op c st (append_entries (openraft_to_log_entry <$> es))
| core_truncate id : c ≤ id_index id → core_op c st (delete_from (id_index id))
| core_purge p : purged_index p < snapshot_end st → core_op c st (delete_up_to p)
| core_vote v : core_op c st (Storage.save_vote v).

Inductive step : Sys → Sys → Prop :=
| step_apply c n u e k r n' b a : exec n e r n' →
    step (Sys_ c n (Some (Applying u (Do e k))) b a) (Sys_ c n' (Some (Applying u (k r))) b a)
| step_applied c n u rs b a :
    step (Sys_ c n (Some (Applying u (Ret (Ok rs)))) b a) (Sys_ c n None b (Z.max a u))
| step_install c n u data e k r n' b a : exec n e r n' →
    step (Sys_ c n (Some (Installing u data (Do e k))) b a)
         (Sys_ c n' (Some (Installing u data (k r))) b a)
| step_installed c n u data b a :
    step (Sys_ c n (Some (Installing u data (Ret (Ok tt)))) b a) (Sys_ c n None b (Z.max a u))
| step_build c n t e k r n' a : exec n e r n' →
    step (Sys_ c n t (Some (Do e k)) a) (Sys_ c n' t (Some (k r)) a)
| step_built c n t r a : step (Sys_ c n t (Some (Ret r)) a) (Sys_ c n t None a)
| start_apply c n b a i (k : nat) : 0 ≤ i ≤ durable_end (disk n) → i + Z.of_nat k ≤ c →
    step (Sys_ c n None b a)
         (Sys_ c n (Some (Applying (i + Z.of_nat k) (apply (L <$> seqZ i (Z.of_nat k))))) b a)
| start_install c n b a p meta data : offered_snapshot p meta data → durable_end (disk n) ≤ p →
    step (Sys_ c n None b a)
         (Sys_ c n (Some (Installing p data (install_snapshot sha256 meta data))) b a)
| start_build c n t a :
    step (Sys_ c n t None a) (Sys_ c n t (Some (build_snapshot sha256 membership_new)) a)
| step_core c n t b a op st : core_op c (disk n) op → op (disk n) = Ok st →
    step (Sys_ c n t b a) (Sys_ c (set_disk st n) t b a)
| step_commit c c' n t b a : c ≤ c' ≤ u64_max →
    (∀ i, c ≤ i < c' → snapshot_end (disk n) ≤ i → logged (disk n) i) →
    step (Sys_ c n t b a) (Sys_ c' n t b a)
| step_crash c n t b a configured s :
    dom founders ⊆ list_to_set (info_id <$> configured) →
    restore sha256 configured (disk n) = Ok s →
    step (Sys_ c n t b a) (Sys_ c (Node_ (disk n) s (durable_end (disk n))) None None a).

(** A new node: a store just created, and the state its configuration gives. *)
Definition initial (s : Sys) : Prop :=
  ∃ st configured m,
    Storage.new sha256 None (Opened empty_store) = Ok st ∧
    dom founders ⊆ list_to_set (info_id <$> configured) ∧
    restore sha256 configured st = Ok m ∧
    s = Sys_ 0 (Node_ st m 0) None None 0.

(** The states reached by runs that stay within [allowed]. *)
Inductive reachable (allowed : Sys → Prop) : Sys → Prop :=
| reachable_init s : initial s → reachable allowed s
| reachable_step s s' : reachable allowed s → step s s' → allowed s' → reachable allowed s'.

(** No snapshot is being built while one is installed, and the one installed has the
    current layout: the code orders and checks neither, so a theorem that needs them
    says so. *)
Definition orderly (s : Sys) : Prop :=
  match task s with
  | Some (Installing _ data _) => builder s = None ∧ current_layout data
  | _ => True
  end.

Definition task_ok (s : Sys) : Prop :=
  match task s with
  | None => settled (durable_end (disk (node s))) (commit_to s, node s)
  | Some (Applying u p) =>
      rg Inv R_sm R_build p (λ r y, match r with Ok _ => settled u y | Err _ => True end) (commit_to s, node s)
  | Some (Installing u _ p) =>
      rg Inv R_sm R_install p (λ r y, match r with Ok _ => settled u y | Err _ => True end)
        (commit_to s, node s) ∧ builder s = None
  end.
Definition builder_ok (s : Sys) : Prop :=
  match builder s with
  | None => True
  | Some p =>
      rg Inv R_build R_sm p
        (λ r _, match r with Ok (meta, data) => ∃ p, faithful_snapshot p meta data | Err _ => True end)
        (commit_to s, node s)
  end.
Definition SysInv (s : Sys) : Prop :=
  Inv (commit_to s, node s) ∧ task_ok s ∧ builder_ok s ∧ acknowledged s ≤ durable_end (disk (node s)).

Lemma settled_stable u x y : settled u x → R_sm x y → settled u y.
Proof.
  intros [E1 E2] (_ & _ & Hend & Hl & _). unfold settled, durable_end in *. by rewrite Hend, Hl.
Qed.

(** A step of another thread keeps a thread's guarantee. *)
Lemma task_ok_stable s c' n' :
  task_ok s → R_sm (commit_to s, node s) (c', n') →
  task_ok (Sys_ c' n' (task s) (builder s) (acknowledged s)).
Proof.
  unfold task_ok. destruct s as [c n [[u p|u data p]|] b a]; simpl.
  - intros Hp HR. eapply rg_stable; [exact R_sm_trans|exact Hp|exact HR].
  - intros [Hp Hb] HR. split; [|done]. eapply rg_stable; [exact R_sm_trans|exact Hp|exact HR].
  - intros Hs HR. pose proof (settled_stable _ _ _ Hs HR) as [E1 E2]. by split.
Qed.

Lemma builder_ok_stable s c' n' t a :
  builder_ok s → R_build (commit_to s, node s) (c', n') → builder_ok (Sys_ c' n' t (builder s) a).
Proof.
  unfold builder_ok. destruct (builder s) as [p|]; [|done]. simpl.
  intros Hp HR. eapply rg_stable; [exact R_build_trans|exact Hp|exact HR].
Qed.

Lemma core_tables c st op st' :
  core_op c st op → op st = Ok st' →
  SNAPSHOT_TABLE st' = SNAPSHOT_TABLE st ∧ same_durable st st' ∧
  ∀ i, snapshot_end st ≤ i < c → logged st i → logged st' i.
Proof.
  intros Hop Hst. destruct Hop as [es Hes|id Hid|p Hp|v].
  - destruct (append_entries_other _ _ _ Hst) as [Em Es]. split_and!; [done| |].
    { split; unfold load_last_applied, load_applied_membership; by rewrite Em. }
    intros i Hi (b & Hb & Hdec). pose proof (append_entries_lookup _ _ _ i Hst) as Hl.
    destruct (list.last _) as [e|] eqn:El; [|exists b; by rewrite Hl].
    destruct Hl as (b' & Hb' & Hl). exists b'. split; [done|].
    apply last_Some_elem_of, list_elem_of_filter in El as [Hei He].
    apply list_elem_of_fmap in He as (e' & -> & He'). simpl in Hei.
    assert (openraft_to_log_entry e' = stored i) as <-; [|by apply decode_encoded].
    unfold RaftState.stored. by rewrite (Hes e' He'), Hei by lia.
  - pose proof Hst as [= <-]. split_and!; [done|by split|]. intros i Hi (b & Hb & Hdec). exists b.
    rewrite (delete_from_lookup _ _ _ _ Hst), decide_True by lia. done.
  - assert (SNAPSHOT_TABLE st' = SNAPSHOT_TABLE st ∧ same_durable st st') as [Es Ed].
    { revert Hst. unfold delete_up_to. destruct (to_allocvec p); [|done]. intros [= <-].
      split; [done|]. split; unfold load_last_applied, load_applied_membership; cbn;
        by rewrite lookup_insert_ne by done. }
    split_and!; [done|done|]. intros i Hi (b & Hb & Hdec). exists b.
    rewrite (delete_up_to_lookup _ _ _ _ Hst), decide_True by lia. done.
  - revert Hst. unfold Storage.save_vote. destruct (to_allocvec v); [|done]. intros [= <-].
    split_and!; [done| |done]. split; unfold load_last_applied, load_applied_membership; cbn;
      by rewrite lookup_insert_ne by done.
Qed.

Lemma core_good c n dp pp j op st :
  good c n dp pp j → core_op c (disk n) op → op (disk n) = Ok st →
  good c (set_disk st n) dp pp j ∧ R_sm (c, n) (c, set_disk st n) ∧ R_build (c, n) (c, set_disk st n).
Proof.
  intros Hg Hop Hst. destruct (core_tables _ _ _ _ Hop Hst) as (Es & [E1 E2] & Hlogged).
  pose proof (good_bounds _ _ _ _ _ Hg).
  rewrite (snapshot_at_end _ pp) in Hlogged by (apply Hg || lia).
  split_and!; [|by split_and!|].
  - destruct Hg as [? [Hl Hm] Hs Hlg ?]. split; [done| | | |done].
    + split; simpl; [by rewrite E1|by rewrite E2].
    + unfold snapshot_at, load_snapshot_meta, load_snapshot_verified in *. simpl. by rewrite Es.
    + intros i Hi. simpl. apply Hlogged; [done|by apply Hlg].
  - split_and!; [done|done|]. unfold durable_end. simpl. by rewrite E1.
Qed.

Lemma R_install_of x y : R_build x y → durable_end (disk x.2) ≤ durable_end (disk y.2).
Proof. by intros (_ & _ & ?). Qed.

Lemma SysInv_initial s : initial s → SysInv s.
Proof.
  intros (st & configured & m & Hst & Hcfg & Hm & ->).
  apply opened_empty in Hst as ->.
  assert (durable_at (put_meta SCHEMA_VERSION_KEY (to_le 4 STORE_SCHEMA_VERSION) empty_store) 0) as Hd.
  { split; [done|]. exists None. split; [done|]. by intros ? [=]. }
  assert (Hg : good 0 (Node_ (put_meta SCHEMA_VERSION_KEY (to_le 4 STORE_SCHEMA_VERSION) empty_store)
                         (spec L founders 0) 0) 0 0 0).
  { split; simpl.
    - split; [unfold u64_max; lia|done].
    - done.
    - left. done.
    - lia.
    - unfold u64_max. lia. }
  destruct (restore_good _ _ _ _ _ _ Hg Hcfg) as (m' & j & Hm' & Hat & Hj). cbn [disk] in Hm'.
  rewrite Hm in Hm'. injection Hm' as <-.
  assert (good 0 (Node_ (disk (Node_ (put_meta SCHEMA_VERSION_KEY (to_le 4 STORE_SCHEMA_VERSION) empty_store)
      m 0)) m 0) 0 0 j) as Hg'.
  { destruct Hg as [? ? ? ? ?]. by split. }
  pose proof (good_durable_end _ _ _ _ _ Hg') as Ed. cbn [disk] in Ed.
  unfold SysInv, task_ok, settled, builder_ok. cbn [disk node commit_to task builder acknowledged fst snd applied_end].
  rewrite Ed. split_and!; [by eapply good_Inv|done|lia|done|done].
Qed.

(** The four parts of [SysInv]. *)
Ltac inv_parts := refine (conj _ (conj _ (conj _ _))).

Lemma SysInv_step s s' : SysInv s → step s s' → orderly s' → SysInv s'.
Proof.
  intros (HI & Ht & Hb & Ha) Hstep Hord. unfold SysInv, task_ok, builder_ok, orderly in *.
  destruct Hstep as [c n u e k r n' b a Hex|c n u rs b a|c n u data e k r n' b a Hex|c n u data b a|c n t e k r n' a Hex
    |c n t r a|c n b a i k Hi Hk|c n b a p meta data Hs Hp|c n t a|c n t b a op st Hop Hst
    |c c' n t b a Hc Hlg|c n t b a configured m Hcfg Hm];
    cbn [commit_to node task builder acknowledged] in *.
  - destruct (Ht (c, n) (R_sm_refl _) HI r n' Hex) as (HI' & HG & Hr). inv_parts; [done|done| |].
    + destruct b as [p|]; [|done]. eapply rg_stable; [exact R_build_trans|exact Hb|exact HG].
    + pose proof (R_install_of _ _ HG). simpl in *. lia.
  - destruct (Ht (c, n) (R_sm_refl _) HI) as [E1 E2]. simpl in *. inv_parts; [done|by split|done|lia].
  - destruct Ht as [Ht ->]. destruct (Ht (c, n) (R_sm_refl _) HI r n' Hex) as (HI' & HG & Hr).
    unfold R_install in HG. simpl in HG. inv_parts; [done|by split|done|lia].
  - destruct Ht as [Ht ->]. destruct (Ht (c, n) (R_sm_refl _) HI) as [E1 E2]. simpl in *.
    inv_parts; [done|by split|done|lia].
  - destruct (Hb (c, n) (R_build_refl _) HI r n' Hex) as (HI' & HG & Hr). cbn [fst snd] in *.
    assert (durable_end (disk n') = durable_end (disk n)) as Ed.
    { destruct HG as (_ & _ & _ & El & _). simpl in El. unfold durable_end. by rewrite El. }
    inv_parts; [done| |done|by rewrite Ed].
    destruct t as [[u p|u data p]|].
    + eapply rg_stable; [exact R_sm_trans|exact Ht|exact HG].
    + by destruct Ht as [_ [=]].
    + rewrite Ed. by eapply settled_stable.
  - inv_parts; [done| |done|done]. destruct t as [[u p|u data p]|]; [done|by destruct Ht as [_ [=]]|done].
  - inv_parts; [done| |done|done]. destruct Ht as [E1 E2].
    apply apply_rg; [lia| |done|done]. split; simpl in *; [done|lia].
  - destruct Hord as [-> Hcur]. inv_parts; [done| |done|done]. split; [|done].
    apply install_rg; [by apply offered_faithful|done|done].
  - inv_parts; [done| |by apply build_rg|done].
    destruct t as [[u p|u data p]|]; [done|by destruct Hord|done].
  - destruct HI as (dp & pp & j & Hg). cbn [fst snd] in Hg.
    destruct (core_good _ _ _ _ _ _ _ Hg Hop Hst) as (Hg' & HRs & HRb).
    assert (durable_end st = durable_end (disk n)) as Ed.
    { destruct HRs as (_ & _ & _ & El & _). simpl in El. unfold durable_end. by rewrite El. }
    inv_parts; [by eapply good_Inv| | |by cbn [disk set_disk]; rewrite Ed].
    + exact (task_ok_stable (Sys_ c n t b a) c (set_disk st n) Ht HRs).
    + exact (builder_ok_stable (Sys_ c n t b a) c (set_disk st n) t a Hb HRb).
  - assert (HRs : R_sm (c, n) (c', n)) by (split; [simpl; lia|done]).
    assert (HRb : R_build (c, n) (c', n)) by (split; [simpl; lia|done]).
    inv_parts; [|exact (task_ok_stable (Sys_ c n t b a) c' n Ht HRs)
                 |exact (builder_ok_stable (Sys_ c n t b a) c' n t a Hb HRb)|done].
    destruct HI as (dp & pp & j & Hg). cbn [fst snd] in Hg. exists dp, pp, j. cbn [fst snd].
    pose proof (good_bounds _ _ _ _ _ Hg). rewrite (snapshot_at_end _ pp) in Hlg by (apply Hg || lia).
    destruct Hg as [? ? ? Hl ?]. split; [done|done|done| |lia]. intros i Hi.
    destruct (decide (i < c)); [apply Hl; lia|apply Hlg; lia].
  - destruct (Inv_durable _ HI) as (pp & j & Hg). cbn [fst snd] in Hg.
    destruct (restore_good _ _ _ _ _ _ Hg Hcfg) as (m' & j' & Hm' & Hat & Hj). rewrite Hm in Hm'.
    injection Hm' as <-. inv_parts; [|by split|done|done].
    exists (durable_end (disk n)), pp, j'. destruct Hg as [? ? ? ? ?]. split; [done|done|done|done|].
    cbn [fst snd]. lia.
Qed.

Lemma reachable_inv s : reachable orderly s → SysInv s.
Proof. induction 1 as [s Hs|s s' _ IH Hstep Ho]; [by apply SysInv_initial|by eapply SysInv_step]. Qed.

End Recovery.

(** ** The log store as a log

    What openraft sees of the store: entries by index, the purge point, the vote. *)
Record ALog := ALog_ {
  a_entries : gmap Z Entry;
  a_purged : option LogId;
  a_vote : option OpenRaftVote;
}.
Definition a_empty : ALog := ALog_ ∅ None None.

Inductive LogOp := OAppend (es : list Entry) | OTruncate (id : LogId) | OPurge (id : LogId) | OVote (v : OpenRaftVote).

Definition spec_op (a : ALog) (o : LogOp) : ALog :=
  match o with
  | OAppend es => ALog_ (foldl (λ m e, <[id_index (log_id e) := e]> m) (a_entries a) es) (a_purged a) (a_vote a)
  | OTruncate id => ALog_ (filter (λ kv, kv.1 < id_index id) (a_entries a)) (a_purged a) (a_vote a)
  | OPurge id => ALog_ (filter (λ kv, id_index id < kv.1) (a_entries a)) (Some id) (a_vote a)
  | OVote v => ALog_ (a_entries a) (a_purged a) (Some v)
  end.

(** The entries of a range, ascending. *)
Definition a_range (a : ALog) (start end_ : Z) : list Entry :=
  omap (λ i, a_entries a !! i) (seqZ start (end_ - start)).
Definition a_last (a : ALog) : option LogId :=
  match list.last (sorted_keys ((λ _, []) <$> a_entries a)) with
  | Some k => log_id <$> a_entries a !! k
  | None => a_purged a
  end.

Section LogStore.
Context `{!StoreCodecs, !StoreCodecLaws}.
Variable membership_new : list (list NodeId) → list (NodeId * bytes) → Membership.
Context (Hnew : keeps_canonical membership_new).

Definition op_prog (o : LogOp) : io (result Error ()) :=
  match o with
  | OAppend es => append es
  | OTruncate id => truncate id
  | OPurge id => purge id
  | OVote v => save_vote v
  end.

(** Operations that all answered Ok; between them the state machine may write its own
    records, which are none of the log's. *)
Inductive performs : Store → list LogOp → Store → Prop :=
| performs_nil st : performs st [] st
| performs_cons st o n n' ops st' :
    disk n = st → run n (op_prog o) = (n', Ok tt) → performs (disk n') ops st' →
    performs st (o :: ops) st'
| performs_other st st1 ops st' :
    LOGS_TABLE st1 = LOGS_TABLE st → load_last_purged st1 = load_last_purged st →
    load_vote st1 = load_vote st → performs st1 ops st' → performs st ops st'.

Definition op_canonical (o : LogOp) : Prop :=
  match o with OAppend es => Forall entry_canonical es | _ => True end.

Record represents (a : ALog) (st : Store) : Prop := {
  rep_entries : ∀ i,
    match a_entries a !! i with
    | Some e => id_index (log_id e) = i ∧ entry_canonical e ∧
        ∃ b, LOGS_TABLE st !! i = Some b ∧ decode b = Ok (openraft_to_log_entry e)
    | None => LOGS_TABLE st !! i = None
    end;
  rep_purged : load_last_purged st =
    Ok ((λ id, PurgedLogId_ (id_term id) (id_node id) (id_index id)) <$> a_purged a);
  rep_vote : load_vote st =
    Ok (match a_vote a with
        | Some v => Vote_ (leader_term v) (Some (leader_node v)) (is_committed v)
        | None => vote_default
        end);
}.

Lemma inserted_lookup es (m : gmap Z Entry) i :
  foldl (λ m e, <[id_index (log_id e) := e]> m) m es !! i =
  match list.last (filter (λ e, id_index (log_id e) = i) es) with Some e => Some e | None => m !! i end.
Proof.
  revert m. induction es as [|e es IH]; intros m; [done|]. cbn [foldl]. rewrite IH, filter_cons.
  destruct (decide (id_index (log_id e) = i)) as [<-|Hne].
  - rewrite last_cons. destruct (list.last _); [done|]. by rewrite lookup_insert_eq.
  - destruct (list.last _); [done|]. by rewrite lookup_insert_ne.
Qed.

Lemma filter_stored (es : list Entry) i :
  filter (λ e, index e = i) (openraft_to_log_entry <$> es)
  = openraft_to_log_entry <$> filter (λ e, id_index (log_id e) = i) es.
Proof.
  induction es as [|e es IH]; [done|]. rewrite fmap_cons, !filter_cons, IH. cbn [openraft_to_log_entry index].
  by case_decide.
Qed.

Lemma represents_append a st es st' :
  represents a st → Forall entry_canonical es → append_entries (openraft_to_log_entry <$> es) st = Ok st' →
  represents (spec_op a (OAppend es)) st'.
Proof.
  intros [He Hp Hv] Hc Hap. destruct (append_entries_other _ _ _ Hap) as [Em Es]. split; cbn [spec_op a_entries a_purged a_vote].
  - intros i. rewrite inserted_lookup. pose proof (append_entries_lookup _ _ _ i Hap) as Hl.
    rewrite filter_stored, fmap_last in Hl.
    destruct (list.last (filter _ es)) as [e|] eqn:El; simpl in Hl.
    + apply last_Some_elem_of, list_elem_of_filter in El as [Hi He'].
      destruct Hl as (b & Hb & Hl). rewrite Forall_forall in Hc.
      split_and!; [done|by apply Hc|]. exists b. split; [done|]. by apply decode_encoded.
    + rewrite Hl. apply He.
  - unfold load_last_purged in *. by rewrite Em.
  - unfold load_vote in *. by rewrite Em.
Qed.

Lemma represents_filtered a st st' (P : Z → Prop) `{∀ i, Decision (P i)} m purged :
  represents a st →
  (∀ i, m !! i = if decide (P i) then a_entries a !! i else None) →
  (∀ i, LOGS_TABLE st' !! i = if decide (P i) then LOGS_TABLE st !! i else None) →
  load_last_purged st' = Ok ((λ id, PurgedLogId_ (id_term id) (id_node id) (id_index id)) <$> purged) →
  load_vote st' = load_vote st →
  represents (ALog_ m purged (a_vote a)) st'.
Proof.
  intros [He Hp Hv] Hm Hl Hp' Hv'. split; [|done|by rewrite Hv'; destruct a].
  intros i. specialize (He i). cbn [a_entries]. rewrite Hm, Hl. by case_decide.
Qed.

Lemma run_storage_io n op n' :
  run n (storage_io op) = (n', Ok tt) → ∃ st, op (disk n) = Ok st ∧ n' = set_disk st n.
Proof.
  unfold storage_io, Effects.ask. cbn [run answer]. destruct (op (disk n)) as [st|e]; simpl; [|done].
  intros [= <-]. eauto.
Qed.

Lemma represents_op a st o n n' :
  represents a st → op_canonical o → disk n = st → run n (op_prog o) = (n', Ok tt) →
  represents (spec_op a o) (disk n').
Proof.
  intros Hr Hc <- Hrun. destruct o as [es|id|id|v].
  - cbn [op_prog] in Hrun. unfold append in Hrun. destruct es as [|e es].
    + simpl in Hrun. injection Hrun as <-. by destruct a.
    + cbn [fmap list_fmap] in Hrun. rewrite run_bind in Hrun.
      destruct (run n (storage_io _)) as [n1 [[]|er]] eqn:Eio; simpl in Hrun; [|done].
      injection Hrun as <-. apply run_storage_io in Eio as (st & Hst & ->).
      by apply (represents_append a (disk n)).
  - apply run_storage_io in Hrun as (st & Hst & ->). cbn [disk set_disk spec_op].
    apply (represents_filtered a (disk n) st (λ i, i < id_index id)); [done| | | |].
    + intros i. by rewrite (lookup_filter_key (λ i, i < id_index id) (λ kv, kv.1 < id_index id) (a_entries a) i).
    + intros i. by apply delete_from_lookup.
    + destruct Hr as [_ Hp _]. by injection Hst as <-.
    + by injection Hst as <-.
  - apply run_storage_io in Hrun as (st & Hst & ->). cbn [disk set_disk spec_op].
    apply (represents_filtered a (disk n) st (λ i, id_index id < i)); [done| | | |].
    + intros i. by rewrite (lookup_filter_key (λ i, id_index id < i) (λ kv, id_index id < kv.1) (a_entries a) i).
    + intros i. by apply (delete_up_to_lookup _ _ _ _ Hst).
    + revert Hst. unfold delete_up_to. destruct (to_allocvec _) as [b|] eqn:Eb; [|done].
      intros [= <-]. unfold load_last_purged. cbn. rewrite lookup_insert_eq. simpl.
      by rewrite (decode_encoded _ _ Eb).
    + revert Hst. unfold delete_up_to. destruct (to_allocvec _) as [b|]; [|done]. intros [= <-].
      unfold load_vote. cbn. by rewrite lookup_insert_ne by done.
  - apply run_storage_io in Hrun as (st & Hst & ->). cbn [disk set_disk spec_op].
    destruct Hr as [He Hp Hv]. revert Hst. unfold Storage.save_vote.
    destruct (to_allocvec _) as [b|] eqn:Eb; [|done]. intros [= <-]. split; cbn [a_entries a_purged a_vote].
    + exact He.
    + unfold load_last_purged in *. cbn. by rewrite lookup_insert_ne by done.
    + unfold load_vote. cbn. rewrite lookup_insert_eq. by rewrite (decode_encoded _ _ Eb).
Qed.

Lemma represents_opened sha256 st :
  Storage.new sha256 None (Opened empty_store) = Ok st → represents a_empty st.
Proof.
  intros ->%opened_empty.
  split; [|done|done]. intros i. simpl. by rewrite lookup_empty.
Qed.

Lemma performs_represents a st ops st' :
  performs st ops st' → represents a st → Forall op_canonical ops →
  represents (foldl spec_op a ops) st'.
Proof.
  intros Hp. revert a.
  induction Hp as [st|st o n n' ops st' Hd Hrun _ IH|st st1 ops st' El Ep Ev _ IH]; intros a Hr Hc; [done| |].
  - inversion Hc; subst. cbn [foldl]. apply IH; [|done]. by eapply represents_op.
  - apply IH; [|done]. destruct Hr as [He Hp Hv]. split; [by rewrite El|by rewrite Ep|by rewrite Ev].
Qed.

(** ** Reading it back *)
Lemma range_keys_filter start end_ t :
  range_keys start end_ t = filter (λ k, is_Some (t !! k)) (seqZ start (end_ - start)).
Proof.
  apply ascending_unique.
  - apply range_keys_sorted.
  - apply StronglySorted_filter, seqZ_sorted.
  - apply NoDup_Permutation; [apply NoDup_filter, sorted_keys_nodup|apply NoDup_filter, NoDup_seqZ|].
    intros k. rewrite elem_of_range_keys, list_elem_of_filter, elem_of_seqZ. intuition lia.
Qed.

Lemma represents_some a st i :
  represents a st → is_Some (LOGS_TABLE st !! i) ↔ is_Some (a_entries a !! i).
Proof.
  intros [He _ _]. specialize (He i). destruct (a_entries a !! i) as [e|].
  - destruct He as (_ & _ & b & -> & _). split; eauto.
  - rewrite He. done.
Qed.

Lemma represents_decode a st ks :
  represents a st →
  decode_keys (filter (λ k, is_Some (LOGS_TABLE st !! k)) ks) (LOGS_TABLE st)
  = Ok (openraft_to_log_entry <$> omap (λ i, a_entries a !! i) ks).
Proof.
  intros Hr. induction ks as [|k ks IH]; [done|]. rewrite filter_cons. cbn [omap list_omap].
  pose proof (rep_entries _ _ Hr k) as Hk. pose proof (represents_some _ _ k Hr) as Hs.
  destruct (a_entries a !! k) as [e|].
  - destruct Hk as (_ & _ & b & Hb & Hd). rewrite decide_True by eauto.
    cbn [decode_keys]. by rewrite Hb, Hd, IH.
  - rewrite decide_False by (rewrite Hk; by intros [? [=]]). exact IH.
Qed.

Lemma represents_last a st :
  represents a st →
  last_entry st = Ok (match list.last (sorted_keys ((λ _, []) <$> a_entries a)) with
                      | Some k => openraft_to_log_entry <$> a_entries a !! k
                      | None => None
                      end).
Proof.
  intros Hr. assert (sorted_keys ((λ _, []) <$> a_entries a) = sorted_keys (LOGS_TABLE st)) as Ek.
  { unfold sorted_keys. f_equal. f_equal. apply set_eq. intros k. rewrite dom_fmap, !elem_of_dom.
    symmetry. by apply represents_some. }
  unfold last_entry. rewrite Ek. destruct (list.last (sorted_keys (LOGS_TABLE st))) as [k|]; [|done].
  pose proof (rep_entries _ _ Hr k) as Hk. destruct (a_entries a !! k) as [e|].
  - destruct Hk as (_ & _ & b & -> & Hd). simpl. by rewrite Hd.
  - by rewrite Hk.
Qed.

Lemma run_reading {A} n (op : Store → result Error A) a :
  op (disk n) = Ok a → run n (reading op) = (n, Ok a).
Proof.
  intros Hop. unfold reading, Effects.ask. cbn [run answer]. rewrite Hop. simpl. by destruct n.
Qed.

Lemma run_try {A B} n (p : io (result Error A)) (f : A → io (result Error B)) a :
  run n p = (n, Ok a) → run n (try_bind p f) = run n (f a).
Proof. intros Hp. unfold try_bind. rewrite run_bind, Hp. done. Qed.

(** C36. The store is the log openraft wrote: from a store just created, after any sequence of appends, truncations,
    purges and votes that each answered Ok, and any restarts between them, the entries
    of every range are exactly those appended and since neither truncated, purged nor
    overwritten, in index order, with memberships restored in full; the log state is
    the last of them (or the purge point of an empty log) and the recorded purge
    point; and the vote is the last one saved. *)
Theorem log_store_is_the_log sha256 st0 ops n :
  Storage.new sha256 None (Opened empty_store) = Ok st0 → performs st0 ops (disk n) → Forall op_canonical ops →
  let a := foldl spec_op a_empty ops in
  (∀ start end_, (run n (entries_in membership_new (Included start) (Excluded end_))).2
                 = Ok (a_range a start end_)) ∧
  (run n log_state).2 = Ok (LogState_ (a_purged a) (a_last a)) ∧
  (run n stored_vote).2 = Ok (a_vote a).
Proof.
  intros Hst Hp Hc a.
  pose proof (performs_represents a_empty _ _ _ Hp (represents_opened _ _ Hst) Hc) as Hr. fold a in Hr.
  split_and!.
  - intros start end_. unfold entries_in.
    erewrite run_try by (apply run_reading; unfold get_entries; rewrite range_keys_filter;
                         by apply represents_decode).
    simpl. f_equal. unfold a_range. rewrite <-list_fmap_compose. transitivity (id <$> omap (λ i, a_entries a !! i) (seqZ start (end_ - start))).
    + apply list_fmap_ext. intros i e He. apply list_elem_of_lookup_2, list_elem_of_omap in He as (k & _ & He).
      pose proof (rep_entries _ _ Hr k) as Hk. rewrite He in Hk. apply entry_round_trip; [done|by apply Hk].
    + by rewrite list_fmap_id.
  - unfold log_state. erewrite run_try by (apply run_reading; by apply represents_last).
    erewrite run_try by (apply run_reading; apply (rep_purged _ _ Hr)). simpl. f_equal.
    assert (Hid : ∀ o : option LogId, (λ p, make_log_id (purged_term p) (purged_leader_node_id p) (purged_index p))
      <$> ((λ id, PurgedLogId_ (id_term id) (id_node id) (id_index id)) <$> o) = o) by (by intros [[? ? ?]|]).
    rewrite Hid. f_equal. unfold a_last. destruct (list.last _) as [k|] eqn:Elast; [|done].
    apply last_Some_elem_of, elem_of_sorted_keys in Elast. rewrite dom_fmap in Elast.
    apply elem_of_dom in Elast as [e He]. rewrite He. destruct e as [[? ? ?] ?]. done.
  - unfold stored_vote. erewrite run_try by (apply run_reading; apply (rep_vote _ _ Hr)).
    destruct (a_vote a) as [[t nd c]|]; simpl; [|done].
    by rewrite andb_false_r.
Qed.
End LogStore.

(** ** A concrete node *)
Section Running.
Context `{!StoreCodecs}.
Variable sha256 : bytes → bytes.
Variable membership_new : list (list NodeId) → list (NodeId * bytes) → Membership.
Variable L : Z → Entry.
Variable founders : gmap NodeId NodeInfo.

(** A batch applied with no failure in between. *)
Lemma reachable_applied c n u p b a n' rs :
  reachable sha256 membership_new L founders orderly (Sys_ c n (Some (Applying u p)) b a) →
  run n p = (n', Ok rs) →
  reachable sha256 membership_new L founders orderly (Sys_ c n' None b (Z.max a u)).
Proof.
  revert n. induction p as [r|e k IH]; intros n Hr Hrun; simpl in Hrun.
  - injection Hrun as <- ->. eapply reachable_step; [exact Hr|apply step_applied|done].
  - eapply (IH (answer n e).1); [|exact Hrun].
    eapply reachable_step; [exact Hr| |done]. apply step_apply, answer_exec.
Qed.
End Running.

(** openraft's [Membership::new], as far as canonical memberships go. *)
Definition plain_membership (cs : list (list NodeId)) (ns : list (NodeId * bytes)) : Membership :=
  Membership_ cs ns.
Lemma plain_keeps_canonical : keeps_canonical plain_membership.
Proof. by intros [cs ns]. Qed.

(** Node 1 alone: its membership, then blank entries. *)
Definition sole_log (i : Z) : Entry :=
  Entry_ (LogId_ 1 1 i) (if i =? 0 then EMembership (Membership_ [[1]] [(1, [])]) else EBlank).

Lemma sole_log_ok : log_ok sole_log ∅.
Proof. split; [done|]. intros i _. simpl. by destruct (i =? 0). Qed.
Lemma sole_log_canonical i : entry_canonical (sole_log i).
Proof.
  unfold entry_canonical, sole_log. simpl. destruct (i =? 0); [|done]. split_and!.
  - repeat constructor.
  - repeat constructor.
  - intros id. set_solver.
Qed.

Definition ok_or_else {E A} (d : A) (r : result E A) : A := match r with Ok a => a | Err _ => d end.

Definition sole_store : Store :=
  ok_or_else empty_store (@Storage.new small_codecs small_digest None (Opened empty_store)).
Definition sole_logged : Store :=
  ok_or_else empty_store
    (@append_entries small_codecs (openraft_to_log_entry <$> [sole_log 0; sole_log 1]) sole_store).
Definition sole_applied : Node :=
  (run (Node_ sole_logged ClusterState.new 0)
     (@apply small_codecs (sole_log <$> seqZ 0 (Z.of_nat 2)))).1.

Lemma sole_reachable :
  @reachable small_codecs small_digest plain_membership sole_log ∅ (@orderly small_codecs) (Sys_ 2 sole_applied None None 2).
Proof.
  eapply (reachable_applied _ _ _ _ 2 (Node_ sole_logged ClusterState.new 0) 2
    (@apply small_codecs (sole_log <$> seqZ 0 (Z.of_nat 2))) None 0).
  - eapply reachable_step; [|apply (start_apply _ _ _ _ 2 _ None 0 0 2); vm_compute; intuition congruence|exact I].
    eapply reachable_step; [|apply (step_commit _ _ _ _ 0 2); [vm_compute; intuition congruence|]|exact I].
    + eapply reachable_step; [apply reachable_init| |exact I].
      * exists sole_store, [], ClusterState.new. split_and!; [by vm_compute|done| |done]. { vm_compute. reflexivity. }
      * eapply (step_core _ _ _ _ 0 (Node_ sole_store ClusterState.new 0)).
        -- apply (core_append _ 0 sole_store [sole_log 0; sole_log 1]).
           intros e He Hlt. exfalso. revert He Hlt. rewrite !elem_of_cons.
           intros [->|[->|He]]; [done|done|]. by apply elem_of_nil in He.
        -- vm_compute. reflexivity.
    + intros i Hi _. assert (i = 0 ∨ i = 1) as [-> | ->] by lia; eexists; by vm_compute.
  - by vm_compute.
Qed.


(** ** What a restart does not survive *)
Section Install.
Context `{!StoreCodecs, !StoreCodecLaws}.
Variable sha256 : bytes → bytes.

(** A follower that installs a schema-0 snapshot keeps the leader's bytes as they
    came: the install answers Ok, but the store, already stamped with the current
    schema, is not migrated when it is next opened, and the boot that reads it fails
    to decode it, whatever the node's configuration. *)
Lemma installed_v0_snapshot_stops_the_next_boot meta data v0 e n :
  from_bytes data = @Err _ ClusterState e → from_bytes data = Ok v0 →
  META_TABLE (disk n) !! SCHEMA_VERSION_KEY = Some (to_le 4 STORE_SCHEMA_VERSION) →
  ∀ n', run n (install_snapshot sha256 meta data) = (n', Ok tt) →
  Storage.new sha256 (Some 4096) (Opened (disk n')) = Ok (disk n') ∧
  ∀ configured, restore sha256 configured (disk n') = Err e.
Proof.
  intros He Hv0 Hstamp n'. unfold install_snapshot, decode_snapshot. rewrite He, Hv0.
  destruct (state_at_snapshot_position _ _) as [s|er]; [|done].
  set (sm := SnapshotMeta_ _ _).
  match goal with |- run n (bind _ ?k) = _ → _ => set (rest := k) end.
  rewrite run_bind. cbn [Effects.ask run answer fst snd]. unfold rest, try_bind. rewrite run_bind.
  destruct (run (set_mem s n) (storage_io (save_installed_snapshot sha256 sm data))) as [n1 [[]|er]] eqn:Eio; [|done].
  apply run_storage_io in Eio as (st & Hst & ->). cbn [fst snd].
  intros Hrun. simpl in Hrun. injection Hrun as <-. cbn [disk set_disk set_end].
  cbn [disk set_mem] in Hst. pose proof (write_snapshot_tables sha256 _ _ true _ _ Hst) as (_ & Hsm & Hsd).
  split.
  - assert (META_TABLE st !! SCHEMA_VERSION_KEY = Some (to_le 4 STORE_SCHEMA_VERSION)) as Hs.
    { revert Hst. unfold save_installed_snapshot, write_snapshot.
      destruct (to_allocvec sm); [|done]. cbn [result_bind].
      destruct (to_allocvec (last_applied sm)); [|done]. cbn [result_bind].
      destruct (to_allocvec (snap_membership sm)); [|done]. intros [= <-]. cbn.
      by rewrite !lookup_insert_ne by done. }
    unfold Storage.new, open_and_init. simpl. by rewrite stamped_stays.
  - intros configured. unfold restore, load_snapshot_state. rewrite Hsm, Hsd. cbn [result_bind ok_or].
    by rewrite He.
Qed.
End Install.

Definition offered_v0 : RaftSnapshotMeta :=
  RaftSnapshotMeta_ (Some (LogId_ 1 1 4)) (StoredMembership_ (Some (LogId_ 1 1 0)) (Membership_ [[1]] [(1, [])])) [].

(** Node 1 alone with blank entries only: states the small codec can write. *)
Definition blank_log (i : Z) : Entry := Entry_ (LogId_ 1 1 i) EBlank.
Definition blank_applied : Node :=
  (run (Node_ (ok_or_else empty_store
                 (@append_entries small_codecs (openraft_to_log_entry <$> [blank_log 0; blank_log 1]) sole_store))
          ClusterState.new 0)
     (@apply small_codecs [blank_log 0; blank_log 1])).1.

(** A builder stopped before its write, and the node after an install overtook it. *)
Definition late_build : Node * io (result Error (RaftSnapshotMeta * bytes)) :=
  run_for 2 blank_applied (@build_snapshot small_codecs small_digest plain_membership).
Definition newer_snapshot : bytes :=
  enc_state (set_applied_index (Some 4) ClusterState.new).
Definition overtaken : Node * result Error () :=
  run late_build.1 (@install_snapshot small_codecs small_digest offered_v0 newer_snapshot).
Definition overwritten : Node * result Error (RaftSnapshotMeta * bytes) := run overtaken.1 late_build.2.
Definition then_purged : Node * result Error () :=
  run overwritten.1 (@purge small_codecs (LogId_ 1 1 4)).

(** Nothing in the code orders a snapshot build against an install: a builder that
    read its position before an install and writes after it overwrites the installed
    snapshot with the older state.  Every call answers Ok and the durable position
    stays the installed one; once the log is purged up to it, the rebuild at boot
    succeeds with a state that lacks the entries the install brought. *)
Lemma a_late_build_undoes_an_install :
  overtaken.2 = Ok tt ∧ is_ok overwritten.2 = true ∧ then_purged.2 = Ok tt ∧
  durable_end (H := small_codecs) (disk then_purged.1) = 5 ∧
  ∃ m, @restore small_codecs small_digest [] (disk then_purged.1) = Ok m ∧
       reflects m 1 = true ∧ reflects m 2 = false.
Proof.
  split_and!; [vm_compute; reflexivity..|].
  exists (set_applied_index (Some 1) ClusterState.new). by vm_compute.
Qed.

(** The same node, its log appended, voted on, truncated and purged. *)
Definition voted : Node :=
  (run (Node_ (ok_or_else empty_store
                 (@append_entries small_codecs (openraft_to_log_entry <$> [blank_log 0; blank_log 1; blank_log 2]) sole_store))
          ClusterState.new 0)
     (@save_vote small_codecs (OpenRaftVote_ 3 1 true))).1.
Definition cut : Node := (run voted (@truncate (LogId_ 1 1 2))).1.
Definition purged : Node := (run cut (@purge small_codecs (LogId_ 1 1 0))).1.

Lemma log_store_is_the_log_witness :
  (run purged (@entries_in small_codecs plain_membership (Included 0) (Excluded 9))).2 = Ok [blank_log 1] ∧
  (run purged (@stored_vote small_codecs)).2 = Ok (Some (OpenRaftVote_ 3 1 true)).
Proof.
  assert (@performs small_codecs sole_store
    [OAppend [blank_log 0; blank_log 1; blank_log 2]; OVote (OpenRaftVote_ 3 1 true);
     OTruncate (LogId_ 1 1 2); OPurge (LogId_ 1 1 0)] (disk purged)) as Hp.
  { eapply (performs_cons _ _ (Node_ sole_store ClusterState.new 0)); [done|vm_compute; reflexivity|].
    eapply (performs_cons _ _ _ voted); [reflexivity|vm_compute; reflexivity|].
    eapply (performs_cons _ _ voted cut); [reflexivity|vm_compute; reflexivity|].
    eapply (performs_cons _ _ cut purged); [reflexivity|vm_compute; reflexivity|constructor]. }
  destruct (@log_store_is_the_log small_codecs small_laws plain_membership plain_keeps_canonical small_digest
    sole_store _ purged ltac:(vm_compute; reflexivity) Hp ltac:(repeat constructor)) as (Hr & _ & Hv).
  split.
  - rewrite (Hr 0 9). vm_compute. reflexivity.
  - rewrite Hv. vm_compute. reflexivity.
Defined.
