(* ===== verification/Utf8.v ===== *)
(** * UTF-8, slices and C strings, as the Rust standard library has them

    What the gateway uses of [core::str] and [core::slice] to read protocol
    messages: validation, lossy decoding, character boundaries, checked
    subslices, NUL-terminated strings. *)

From S2P Require Import Prelude Text.
From Stdlib Require Import Strings.Byte.

(** ** Subslices

    [slice::get(a..b)] and [slice::get(a..)]. *)
Definition get_range (a b : nat) (l : bytes) : option bytes :=
  if bool_decide (a ≤ b ≤ length l)%nat then Some (take (b - a) (drop a l)) else None.
Definition get_from (a : nat) (l : bytes) : option bytes :=
  if bool_decide (a ≤ length l)%nat then Some (drop a l) else None.

(** ** Validation *)

(** A continuation byte comes next. *)
Definition cont (l : bytes) : bool :=
  match l with b :: _ => in_range 128 191 b | [] => false end.

(** The second byte a three- or four-byte character admits. *)
Definition second3 (a : byte) (l : bytes) : bool :=
  match l with
  | [] => false
  | b :: _ =>
      in_range 224 224 a && in_range 160 191 b
      || (in_range 225 236 a || in_range 238 239 a) && in_range 128 191 b
      || in_range 237 237 a && in_range 128 159 b
  end.
Definition second4 (a : byte) (l : bytes) : bool :=
  match l with
  | [] => false
  | b :: _ =>
      in_range 240 240 a && in_range 144 191 b
      || in_range 241 243 a && in_range 128 191 b
      || in_range 244 244 a && in_range 128 143 b
  end.

(** The bytes [core::str::lossy] takes off the front, and whether they are a
    character. *)
Definition utf8_head (l : bytes) : nat * bool :=
  match l with
  | [] => (0%nat, true)
  | a :: l1 =>
      if byte_z a <? 128 then (1%nat, true)
      else if in_range 194 223 a then if cont l1 then (2%nat, true) else (1%nat, false)
      else if in_range 224 239 a then
        if negb (second3 a l1) then (1%nat, false)
        else if cont (drop 1 l1) then (3%nat, true) else (2%nat, false)
      else if in_range 240 244 a then
        if negb (second4 a l1) then (1%nat, false)
        else if negb (cont (drop 1 l1)) then (2%nat, false)
        else if cont (drop 2 l1) then (4%nat, true) else (3%nat, false)
      else (1%nat, false)
  end.

(** [str::from_utf8(l).is_ok()]; [skip] bytes of the current character remain. *)
Fixpoint utf8_from (skip : nat) (l : bytes) : bool :=
  match l with
  | [] => true
  | _ :: l' =>
      match skip with
      | S s => utf8_from s l'
      | O => let '(n, ok) := utf8_head l in ok && utf8_from (n - 1) l'
      end
  end.
Definition utf8_valid (l : bytes) : bool := utf8_from 0 l.

(** [str::from_utf8(l).ok()]. *)
Definition from_utf8 (l : bytes) : option bytes := if utf8_valid l then Some l else None.

(** [String::from_utf8_lossy]: U+FFFD for each maximal invalid piece. *)
Definition REPLACEMENT : bytes := [xef; xbf; xbd].
Fixpoint lossy_from (keep : bool) (skip : nat) (l : bytes) : bytes :=
  match l with
  | [] => []
  | a :: l' =>
      match skip with
      | S s => if keep then a :: lossy_from keep s l' else lossy_from keep s l'
      | O =>
          let '(n, ok) := utf8_head l in
          if ok then a :: lossy_from true (n - 1) l'
          else REPLACEMENT ++ lossy_from false (n - 1) l'
      end
  end.
Definition from_utf8_lossy (l : bytes) : bytes := lossy_from true 0 l.

(** [str::is_char_boundary]. *)
Definition is_char_boundary (l : bytes) (i : nat) : bool :=
  bool_decide (i = 0)%nat ||
  match l !! i with
  | Some b => negb (in_range 128 191 b)
  | None => bool_decide (i = length l)
  end.

(** ** C strings *)

(** Text up to the first NUL, if it is UTF-8, and the bytes after it. *)
Definition read_cstring (data : bytes) : option (bytes * bytes) :=
  '(s, rest) ← split_at_byte x00 data;
  s ← from_utf8 s;
  Some (s, rest).

(** ** Lemmas *)

Lemma get_from_app a b : get_from (length a) (a ++ b) = Some b.
Proof.
  unfold get_from. rewrite bool_decide_eq_true_2 by (rewrite length_app; lia).
  by rewrite drop_app_length.
Qed.

Lemma get_from_Some n l r : get_from n l = Some r → ∃ p, l = p ++ r ∧ length p = n.
Proof.
  unfold get_from. case_bool_decide; [|done]. intros [= <-].
  exists (take n l). rewrite take_drop, length_take. split; [done|lia].
Qed.

Lemma utf8_head_len l n ok :
  utf8_head l = (n, ok) → l ≠ [] → (1 ≤ n)%nat ∧ (ok = true → (n ≤ length l)%nat).
Proof.
  destruct l as [|a [|b [|c [|d l]]]]; [done|..]; intros H _; revert H;
    unfold utf8_head; cbn [cont second3 second4 negb drop];
    repeat case_match; intros; simplify_eq/=; split; try done; try lia.
Qed.

(** Inside a character every byte after the first is a continuation byte. *)
Lemma utf8_head_cont l n i b :
  utf8_head l = (n, true) → (0 < i < n)%nat → l !! i = Some b → in_range 128 191 b = true.
Proof.
  assert (Hr : ∀ lo hi x, in_range lo hi x = true → 128 ≤ lo → hi ≤ 191 → in_range 128 191 x = true)
    by (unfold in_range; intros; lia).
  destruct l as [|a l]; [cbn; intros [= <-]; lia|]. unfold utf8_head.
  destruct (byte_z a <? 128); [intros [= <-]; lia|].
  destruct (in_range 194 223 a).
  { destruct l as [|x l]; cbn [cont]; [done|]. destruct (in_range _ _ x) eqn:E; [|done].
    intros [= <-] Hi. assert (i = 1%nat) as -> by lia. by intros [= <-]. }
  destruct (in_range 224 239 a).
  { destruct l as [|x l]; cbn [second3 negb]; [done|].
    destruct (negb _) eqn:E; [done|]. apply negb_false_iff in E.
    destruct l as [|y l]; cbn [cont drop]; [done|]. destruct (in_range _ _ y) eqn:Ey; [|done].
    intros [= <-] Hi. assert (i = 1 ∨ i = 2)%nat as [-> | ->] by lia; intros [= <-]; [|done].
    unfold in_range in *. lia. }
  destruct (in_range 240 244 a); [|done].
  destruct l as [|x l]; cbn [second4 negb]; [done|].
  destruct (negb _) eqn:E; [done|]. apply negb_false_iff in E.
  destruct l as [|y l]; cbn [cont drop negb]; [done|]. destruct (in_range _ _ y) eqn:Ey; [|done].
  destruct l as [|z l]; cbn [cont drop negb]; [done|]. destruct (in_range _ _ z) eqn:Ez; [|done].
  intros [= <-] Hi. assert (i = 1 ∨ i = 2 ∨ i = 3)%nat as [-> | [-> | ->]] by lia; intros [= <-]; try done.
  unfold in_range in *. lia.
Qed.

Lemma utf8_from_drop s l : utf8_from s l = utf8_from 0 (drop s l).
Proof.
  revert l; induction s as [|s IH]; intros l; [by rewrite drop_0|].
  destruct l as [|a l]; [done|]. simpl. apply IH.
Qed.

Lemma utf8_valid_cons a l n ok :
  utf8_head (a :: l) = (n, ok) →
  utf8_valid (a :: l) = ok && utf8_valid (drop n (a :: l)).
Proof.
  intros H. pose proof (utf8_head_len _ _ _ H ltac:(done)) as [Hn _].
  unfold utf8_valid. cbn [utf8_from]. rewrite H, utf8_from_drop. destruct n; [lia|]. simpl. by rewrite Nat.sub_0_r.
Qed.

(** The front character depends on nothing after it. *)
Lemma utf8_head_take l n i :
  utf8_head l = (n, true) → (n ≤ i)%nat → utf8_head (take i l) = (n, true).
Proof.
  destruct l as [|a l]; [by rewrite take_nil|].
  intros H Hi. pose proof (utf8_head_len _ _ _ H ltac:(done)) as [Hn Hl]. specialize (Hl eq_refl).
  destruct i as [|i]; [lia|]. revert H. cbn [take]. unfold utf8_head.
  destruct (byte_z a <? 128); [done|].
  destruct (in_range 194 223 a); [|destruct (in_range 224 239 a); [|destruct (in_range 240 244 a); [|done]]];
    destruct l as [|x [|y [|z l]]], i as [|[|[|i]]]; cbn [cont second3 second4 take drop negb];
    repeat case_match; intros; simplify_eq; try done; lia.
Qed.

(** A valid text cut at a character boundary is valid. *)
Lemma utf8_valid_take l i :
  utf8_valid l = true → is_char_boundary l i = true → utf8_valid (take i l) = true.
Proof.
  remember (length l) as m eqn:Hm. revert l i Hm.
  induction m as [m IH] using lt_wf_ind; intros l i -> Hv Hb.
  destruct l as [|a l]; [by rewrite take_nil|]. destruct i as [|i]; [done|].
  destruct (utf8_head (a :: l)) as [n ok] eqn:H.
  pose proof (utf8_head_len _ _ _ H ltac:(done)) as [Hn Hl].
  rewrite (utf8_valid_cons _ _ _ _ H) in Hv. apply andb_prop in Hv as [-> Hv].
  specialize (Hl eq_refl).
  assert (n ≤ S i)%nat as Hni.
  { destruct (decide (S i < n)%nat) as [Hlt|]; [|lia]. exfalso.
    unfold is_char_boundary in Hb. rewrite bool_decide_eq_false_2, orb_false_l in Hb by done.
    destruct ((a :: l) !! S i) as [b|] eqn:E.
    - rewrite (utf8_head_cont _ _ (S i) b H) in Hb by (done || lia). done.
    - apply lookup_ge_None in E. simpl in *. lia. }
  cbn [take]. rewrite (utf8_valid_cons a (take i l) n true) by (apply (utf8_head_take _ _ (S i) H Hni)).
  simpl andb. change (a :: take i l) with (take (S i) (a :: l)).
  rewrite skipn_firstn_comm.
  apply (IH (length (drop n (a :: l)))); [rewrite length_drop; simpl in *; lia|done|done|].
  revert Hb. unfold is_char_boundary. rewrite lookup_drop, length_drop.
  replace (n + (S i - n))%nat with (S i) by lia.
  rewrite (bool_decide_eq_false_2 (S i = 0)%nat), orb_false_l by done.
  destruct (decide (S i - n = 0)%nat) as [Ed|]; [by rewrite Ed|].
  rewrite (bool_decide_eq_false_2 (S i - n = 0)%nat), orb_false_l by done.
  destruct ((a :: l) !! S i); [done|]. rewrite !bool_decide_eq_true. lia.
Qed.

Definition ascii (l : bytes) : Prop := Forall (λ b, byte_z b < 128) l.

Lemma utf8_valid_ascii l : ascii l → utf8_valid l = true.
Proof.
  induction 1 as [|a l Ha _ IH]; [done|].
  rewrite (utf8_valid_cons a l 1 true); [done|]. cbn [utf8_head]. by rewrite (proj2 (Z.ltb_lt _ _) Ha).
Qed.

Lemma from_utf8_Some l s : from_utf8 l = Some s ↔ s = l ∧ utf8_valid l = true.
Proof. unfold from_utf8. destruct (utf8_valid l); naive_solver. Qed.

(** Valid text is decoded as it is. *)
Lemma lossy_keep s l : lossy_from true s l = take s l ++ lossy_from true 0 (drop s l).
Proof.
  revert l; induction s as [|s IH]; intros l; [by rewrite take_0, drop_0|].
  destruct l as [|a l]; [done|]. simpl. by rewrite IH.
Qed.

Lemma from_utf8_lossy_valid l : utf8_valid l = true → from_utf8_lossy l = l.
Proof.
  remember (length l) as m eqn:Hm. revert l Hm.
  induction m as [m IH] using lt_wf_ind; intros l -> Hv.
  destruct l as [|a l]; [done|]. unfold from_utf8_lossy.
  destruct (utf8_head (a :: l)) as [n ok] eqn:H.
  pose proof (utf8_head_len _ _ _ H ltac:(done)) as [Hn Hl].
  rewrite (utf8_valid_cons _ _ _ _ H) in Hv. apply andb_prop in Hv as [-> Hv].
  destruct n as [|n]; [lia|]. simpl drop in Hv.
  cbn [lossy_from]. rewrite H. replace (S n - 1)%nat with n by lia.
  rewrite lossy_keep. fold (from_utf8_lossy (drop n l)).
  rewrite (IH (length (drop n l))); [by rewrite take_drop|rewrite length_drop; simpl; lia|done|done].
Qed.

Lemma read_cstring_app s rest :
  x00 ∉ s → utf8_valid s = true → read_cstring (s ++ x00 :: rest) = Some (s, rest).
Proof.
  intros Hn Hv. unfold read_cstring. rewrite split_at_byte_app by done. simpl.
  unfold from_utf8. by rewrite Hv.
Qed.
