(* ===== verification/Wire.v ===== *)
(** * The PostgreSQL wire format the gateway reads ([src/gateway/protocol.rs])

    Message types, packet headers, the startup-phase requests, error responses;
    and from [gateway/session_replay.rs] and [handlers/analysis.rs] the readers and
    writers of single messages.  A message is its bytes. *)

From S2P Require Import Prelude Text Utf8.
From Stdlib Require Import Strings.Byte.

Inductive MessageType : Type :=
| Query | Parse | Bind | Sync | Terminate | CopyData | CopyDone | CopyFail
| ReadyForQuery | ParseComplete | CloseComplete
| CopyInResponse | CopyOutResponse | CopyBothResponse | NotificationResponse
| DataRow | ErrorResponse | CommandComplete | RowDescription | BackendKeyData
| Authentication | Unknown (b : byte).
#[global] Instance MessageType_eq_dec : EqDecision MessageType.
Proof. solve_decision. Defined.

Definition MessageType_from_byte (b : byte) : MessageType :=
  match b with
  | "Q" => Query | "P" => Parse | "B" => Bind | "S" => Sync | "X" => Terminate
  | "d" => CopyData | "c" => CopyDone | "f" => CopyFail
  | "Z" => ReadyForQuery | "1" => ParseComplete | "3" => CloseComplete
  | "G" => CopyInResponse | "H" => CopyOutResponse | "W" => CopyBothResponse
  | "A" => NotificationResponse | "D" => DataRow | "E" => ErrorResponse
  | "C" => CommandComplete | "T" => RowDescription | "K" => BackendKeyData
  | "R" => Authentication
  | _ => Unknown b
  end%byte.

Inductive TransactionStatus : Type := Idle | InTransaction | Failed.
#[global] Instance TransactionStatus_eq_dec : EqDecision TransactionStatus.
Proof. solve_decision. Defined.

Definition TransactionStatus_from_byte (b : byte) : TransactionStatus :=
  match b with "T" => InTransaction | "E" => Failed | _ => Idle end%byte.

Definition TransactionStatus_is_migratable (t : TransactionStatus) : bool :=
  match t with Idle => true | _ => false end.

(** ** Packet headers *)
Record PacketHeader := PacketHeader_ { msg_type : MessageType; length_field : Z }.

Definition HEADER_SIZE : nat := 5.

Definition PacketHeader_parse (buf : bytes) : option PacketHeader :=
  match buf with
  | t :: b0 :: b1 :: b2 :: b3 :: _ =>
      Some (PacketHeader_ (MessageType_from_byte t) (u32_from_be b0 b1 b2 b3))
  | _ => None
  end.

(** [usize] is 64 bits wide. *)
Definition total_length (h : PacketHeader) : Z := sat_add_u64 1 (length_field h).

Definition is_length_valid (h : PacketHeader) (max_size : Z) : bool :=
  (4 <=? length_field h) && (length_field h <=? sat_sub max_size 1).

(** ** Startup-phase requests *)
Definition SSL_REQUEST_CODE : bytes := [x04; xd2; x16; x2f].
Definition CANCEL_REQUEST_CODE : bytes := [x04; xd2; x16; x2e].
Definition GSSENC_REQUEST_CODE : bytes := [x04; xd2; x16; x30].

Definition has_code (code buf : bytes) : bool := bool_decide (get_range 4 8 buf = Some code).
Definition is_ssl_request (buf : bytes) : bool := has_code SSL_REQUEST_CODE buf.
Definition is_gssenc_request (buf : bytes) : bool := has_code GSSENC_REQUEST_CODE buf.
Definition is_cancel_request (buf : bytes) : bool := has_code CANCEL_REQUEST_CODE buf.

Definition MAX_CANCEL_REQUEST_LEN : Z := 12 + 256.

(** [i32::from_be_bytes] and [to_be_bytes]. *)
Definition i32_from_be (b0 b1 b2 b3 : byte) : Z :=
  let u := u32_from_be b0 b1 b2 b3 in if u <? 2 ^ 31 then u else u - 2 ^ 32.
Definition i32_to_be (z : Z) : bytes := u32_to_be (z mod 2 ^ 32).
Definition is_i32 (z : Z) : Prop := - 2 ^ 31 ≤ z < 2 ^ 31.

(** [<[u8; 4]>::try_from(l).ok().map(i32::from_be_bytes)]. *)
Definition i32_of (l : bytes) : option Z :=
  match l with [b0; b1; b2; b3] => Some (i32_from_be b0 b1 b2 b3) | _ => None end.

Definition cancel_request_key (buf : bytes) : option (Z * bytes) :=
  pid ← get_range 8 12 buf ≫= i32_of;
  secret ← get_from 12 buf;
  match secret with [] => None | _ => Some (pid, secret) end.

(** The name and value pieces of a startup body, two at a time. *)
Fixpoint has_replication (pairs : list bytes) : bool :=
  match pairs with
  | name :: value :: pairs' =>
      match name with
      | [] => false
      | _ =>
          eq_ignore_ascii_case name (lit "replication") && bool_decide (value ≠ [])
          || has_replication pairs'
      end
  | _ => false
  end.
Definition startup_has_replication_option (buf : bytes) : bool :=
  match get_from 8 buf with
  | None => false
  | Some body => has_replication (split_on x00 body)
  end.

Definition extract_transaction_status (payload : bytes) : option TransactionStatus :=
  TransactionStatus_from_byte <$> head payload.

(** [u32::try_from(n).unwrap_or(u32::MAX)]. *)
Definition u32_or_max (n : nat) : Z := Z.min u32_max (Z.of_nat n).

Definition build_cancel_request (pid : Z) (secret : bytes) : bytes :=
  u32_to_be (u32_or_max (12 + length secret)) ++ CANCEL_REQUEST_CODE ++ i32_to_be pid ++ secret.

(** ** Error responses *)
Definition SQLSTATE_CONNECTION_FAILURE : bytes := lit "08006".
Definition SQLSTATE_IDLE_SESSION_TIMEOUT : bytes := lit "57P05".
Definition FAILOVER_ERROR_MESSAGE_MAX : nat := 512.

(** The field scan; every round takes at least two bytes. *)
Fixpoint sqlstate_loop (fuel : nat) (fields : bytes) : option bytes :=
  match fuel, fields with
  | S f, code :: rest =>
      if byte_eqb code x00 then None
      else
        '(field, rest) ← split_at_byte x00 rest;
        if byte_eqb code "C" then from_utf8 field else sqlstate_loop f rest
  | _, _ => None
  end%byte.
Definition error_sqlstate (msg : bytes) : option bytes :=
  fields ← get_from 5 msg; sqlstate_loop (length fields) fields.

Definition refusal_is_transient (sqlstate : bytes) : bool :=
  starts_with (lit "08") sqlstate || starts_with (lit "57P") sqlstate
  || bool_decide (sqlstate = lit "25006") || bool_decide (sqlstate = lit "53300").

(** The longest prefix of at most [n] bytes that ends at a character boundary. *)
Fixpoint boundary_at_most (n : nat) (message : bytes) : nat :=
  match n with
  | O => O
  | S m => if is_char_boundary message n then n else boundary_at_most m message
  end.
Definition truncated (message : bytes) : bytes :=
  if (length message <=? FAILOVER_ERROR_MESSAGE_MAX)%nat then message
  else take (boundary_at_most FAILOVER_ERROR_MESSAGE_MAX message) message.

Definition SEVERITY : bytes := lit "FATAL".
Definition build_fatal_error_response (sqlstate message : bytes) : bytes :=
  let msg := truncated message in
  let body_len :=
    (2 * (1 + length SEVERITY + 1) + (1 + length sqlstate + 1) + (1 + length msg + 1) + 1)%nat in
  ["E"%byte] ++ u32_to_be (u32_or_max (4 + body_len))
  ++ ["S"%byte] ++ SEVERITY ++ [x00]
  ++ ["V"%byte] ++ SEVERITY ++ [x00]
  ++ ["C"%byte] ++ sqlstate ++ [x00]
  ++ ["M"%byte] ++ msg ++ [x00]
  ++ [x00].
Definition build_failover_error_response (message : bytes) : bytes :=
  build_fatal_error_response SQLSTATE_CONNECTION_FAILURE message.

(** ** Single client messages *)

(** [session_replay.rs]: the name a Parse gives its statement; the unnamed one
    gives none. *)
Definition parse_statement_name (msg : bytes) : option bytes :=
  payload ← get_from 5 msg;
  '(name, _) ← split_at_byte x00 payload;
  match name with [] => None | _ => from_utf8 name end.

Inductive CloseTarget := Statement | Portal.
#[global] Instance CloseTarget_eq_dec : EqDecision CloseTarget.
Proof. solve_decision. Defined.

Definition close_target (msg : bytes) : option (CloseTarget * bytes) :=
  marker ← msg !! 5%nat;
  target ← match marker with "S" => Some Statement | "P" => Some Portal | _ => None end%byte;
  tail ← get_from 6 msg;
  '(name, _) ← split_at_byte x00 tail;
  name ← from_utf8 name;
  Some (target, name).

Definition build_sync : bytes := ["S"%byte; x00; x00; x00; x04].

(** [analysis.rs]: the query text of a Parse. *)
Definition parse_message_query (msg : bytes) : option bytes :=
  payload ← get_from 5 msg;
  '(_, rest) ← read_cstring payload;
  fst <$> read_cstring rest.

(** [ConnectionHandler::build_query_message]. *)
Definition build_query_message (sql : bytes) : bytes :=
  ["Q"%byte] ++ u32_to_be (u32_or_max (4 + length sql + 1)) ++ sql ++ [x00].

(** [failover.rs], in [restore_listen_subscriptions]: [LISTEN "channel";], quotes
    doubled. *)
Definition escape_identifier (channel : bytes) : bytes :=
  channel ≫= λ b, if byte_eqb b x22 then [x22; x22] else [b].
Definition build_listen_message (channel : bytes) : bytes :=
  ["Q"%byte] ++ u32_to_be (u32_or_max (15 + length (escape_identifier channel)))
  ++ lit "LISTEN " ++ [x22] ++ escape_identifier channel ++ [x22] ++ lit ";" ++ [x00].
