(* ===== verification/WireProofs.v ===== *)
(** * What the gateway writes is what a PostgreSQL peer reads back *)

From S2P Require Import Prelude Text Utf8 Wire.
From Stdlib Require Import Strings.Byte.

(** A message that is one whole frame: its header reads back and covers it. *)
Definition frame (t : MessageType) (msg : bytes) : Prop :=
  ∃ h, PacketHeader_parse msg = Some h ∧ msg_type h = t ∧ total_length h = Z.of_nat (length msg).

Lemma frame_build t b body :
  MessageType_from_byte b = t → Z.of_nat (length body) + 4 ≤ u32_max →
  frame t ([b] ++ u32_to_be (u32_or_max (4 + length body)) ++ body).
Proof.
  intros Ht Hl. eexists. split; [reflexivity|]. cbn [msg_type]. split; [done|].
  unfold total_length, sat_add_u64. cbn [length_field].
  assert (u32_or_max (4 + length body) = Z.of_nat (4 + length body)) as ->
    by (unfold u32_or_max; lia).
  rewrite u32_be_roundtrip by (unfold is_u32; lia).
  unfold u32_max in Hl. unfold u64_max. rewrite !length_app. cbn [length u32_to_be]. lia.
Qed.

Lemma boundary_at_most_spec n message :
  (boundary_at_most n message ≤ n)%nat ∧ is_char_boundary message (boundary_at_most n message) = true.
Proof.
  induction n as [|n [IH1 IH2]]; [done|]. cbn [boundary_at_most].
  destruct (is_char_boundary message (S n)) eqn:E; [done|]. split; [lia|done].
Qed.

Lemma truncated_spec message :
  truncated message `prefix_of` message ∧ (length (truncated message) ≤ FAILOVER_ERROR_MESSAGE_MAX)%nat ∧
  (utf8_valid message = true → utf8_valid (truncated message) = true).
Proof.
  unfold truncated. destruct (Nat.leb_spec (length message) FAILOVER_ERROR_MESSAGE_MAX); [done|].
  destruct (boundary_at_most_spec FAILOVER_ERROR_MESSAGE_MAX message) as [H1 H2].
  split_and!.
  - exists (drop (boundary_at_most FAILOVER_ERROR_MESSAGE_MAX message) message). by rewrite take_drop.
  - rewrite length_take. lia.
  - intros Hv. by apply utf8_valid_take.
Qed.

Lemma sqlstate_loop_skip code field rest fuel :
  code ≠ x00 → code ≠ "C"%byte → x00 ∉ field →
  sqlstate_loop (S fuel) (code :: field ++ x00 :: rest) = sqlstate_loop fuel rest.
Proof.
  intros H0 HC Hf. cbn [sqlstate_loop]. unfold byte_eqb. rewrite !bool_decide_eq_false_2 by done.
  by rewrite split_at_byte_app.
Qed.
Lemma sqlstate_loop_here field rest fuel :
  x00 ∉ field → utf8_valid field = true →
  sqlstate_loop (S fuel) ("C"%byte :: field ++ x00 :: rest) = Some field.
Proof.
  intros Hf Hv. cbn [sqlstate_loop]. rewrite split_at_byte_app by done. simpl.
  unfold from_utf8. by rewrite Hv.
Qed.

Lemma error_sqlstate_fields t n fields :
  error_sqlstate ([t] ++ u32_to_be n ++ fields) = sqlstate_loop (length fields) fields.
Proof.
  unfold error_sqlstate. rewrite (assoc_L (++)).
  change 5%nat with (length ([t] ++ u32_to_be n)). by rewrite get_from_app.
Qed.

(** The fields of a FATAL, and where its SQLSTATE is. *)
Lemma sqlstate_of_fields severity sqlstate rest :
  x00 ∉ severity → x00 ∉ sqlstate → utf8_valid sqlstate = true →
  let fields := ["S"%byte] ++ severity ++ [x00] ++ ["V"%byte] ++ severity ++ [x00] ++
                ["C"%byte] ++ sqlstate ++ [x00] ++ rest in
  sqlstate_loop (length fields) fields = Some sqlstate.
Proof.
  intros Hs Hn Hv. cbn [app].
  match goal with |- context [length ?f] =>
    destruct (length f) as [|[|[|k]]] eqn:E;
      [rewrite ?length_cons, ?length_app in E; cbn [length] in E; rewrite ?length_app in E; cbn [length] in E; lia..|] end.
  rewrite sqlstate_loop_skip, sqlstate_loop_skip by done. by rewrite sqlstate_loop_here.
Qed.

(** The FATAL a session ends with is well formed whatever it says: for every
    SQLSTATE and message it is one complete ErrorResponse frame, the SQLSTATE reads
    back from it, and the text in it is a prefix of at most 512 bytes of the message,
    cut between characters. *)
Lemma fatal_response_reads_back (sqlstate message : bytes) :
  x00 ∉ sqlstate → utf8_valid sqlstate = true → (length sqlstate ≤ 4096)%nat →
  frame ErrorResponse (build_fatal_error_response sqlstate message) ∧
  error_sqlstate (build_fatal_error_response sqlstate message) = Some sqlstate ∧
  ∃ text fields, build_fatal_error_response sqlstate message = fields ++ ["M"%byte] ++ text ++ [x00; x00] ∧
    text `prefix_of` message ∧ (length text ≤ 512)%nat ∧
    (utf8_valid message = true → utf8_valid text = true).
Proof.
  intros Hn Hv Hlen. destruct (truncated_spec message) as (Hp & Hl & Hu). unfold build_fatal_error_response.
  set (text := truncated message) in *. cbv zeta.
  assert (HS : x00 ∉ SEVERITY) by (apply (bool_decide_unpack _); vm_compute; exact I).
  split_and!.
  - match goal with |- frame _ (_ ++ u32_to_be (u32_or_max (4 + ?n)) ++ ?b) =>
      assert (n = length b) as -> end.
    { rewrite !length_app. cbn [length]. lia. }
    apply frame_build; [done|]. rewrite !length_app. unfold FAILOVER_ERROR_MESSAGE_MAX in Hl.
    cbn [length]. change (length SEVERITY) with 5%nat. unfold u32_max. lia.
  - rewrite error_sqlstate_fields. by apply sqlstate_of_fields.
  - match goal with |- context [?a ++ ?b ++ ["S"%byte] ++ ?s1 ++ ?z ++ ["V"%byte] ++ ?s2 ++ ?z2 ++ ["C"%byte] ++ ?c ++ ?z3 ++ ?m] =>
      exists text, (a ++ b ++ ["S"%byte] ++ s1 ++ z ++ ["V"%byte] ++ s2 ++ z2 ++ ["C"%byte] ++ c ++ z3) end.
    split; [|done]. by rewrite <-!(assoc_L (++)).
Qed.

(** ** Cancel requests *)
Lemma i32_roundtrip z : is_i32 z → i32_of (i32_to_be z) = Some z.
Proof.
  unfold is_i32, i32_of, i32_to_be, u32_to_be, i32_from_be. intros Hz.
  rewrite u32_be_roundtrip by (unfold is_u32, u32_max; pose proof (Z.mod_pos_bound z (2 ^ 32)); lia).
  f_equal. destruct (Z.ltb_spec (z mod 2 ^ 32) (2 ^ 31)) as [H|H].
  - destruct (Z.leb_spec 0 z); [by rewrite Z.mod_small by lia|].
    rewrite <-(Z.mod_add z 1), Z.mod_small in H by lia. lia.
  - destruct (Z.leb_spec 0 z); [rewrite Z.mod_small in H by lia; lia|].
    rewrite <-(Z.mod_add z 1), Z.mod_small by lia. lia.
Qed.

(** The cancel request the gateway forwards names the backend process it looked
    up: for every process id and secret a backend may issue it is recognised as a
    cancel request and no other, its length field is its length, within what the
    gateway itself accepts, and its key reads back. *)
Lemma cancel_request_reads_back (pid : Z) (secret : bytes) :
  is_i32 pid → secret ≠ [] → (length secret ≤ 256)%nat →
  let msg := build_cancel_request pid secret in
  is_cancel_request msg = true ∧ is_ssl_request msg = false ∧ is_gssenc_request msg = false ∧
  cancel_request_key msg = Some (pid, secret) ∧
  (∃ b0 b1 b2 b3, take 4 msg = [b0; b1; b2; b3] ∧ u32_from_be b0 b1 b2 b3 = Z.of_nat (length msg)) ∧
  Z.of_nat (length msg) ≤ MAX_CANCEL_REQUEST_LEN.
Proof.
  intros Hp Hs Hl msg.
  assert (Hlen : length msg = (12 + length secret)%nat)
    by (unfold msg, build_cancel_request; rewrite !length_app; done).
  assert (Hcode : get_range 4 8 msg = Some CANCEL_REQUEST_CODE).
  { unfold get_range. rewrite bool_decide_eq_true_2 by lia. done. }
  unfold is_cancel_request, is_ssl_request, is_gssenc_request, has_code. rewrite Hcode.
  split_and!; [by apply bool_decide_eq_true_2|by apply bool_decide_eq_false_2..| | |].
  - unfold cancel_request_key.
    assert (get_range 8 12 msg ≫= i32_of = Some pid) as ->.
    { rewrite <-(i32_roundtrip pid) by done. unfold get_range. by rewrite bool_decide_eq_true_2 by lia. }
    assert (get_from 12 msg = Some secret) as ->.
    { unfold get_from. rewrite bool_decide_eq_true_2 by lia. done. }
    by destruct secret.
  - do 4 eexists. split; [reflexivity|]. rewrite u32_be_roundtrip.
    + rewrite Hlen. unfold u32_or_max, u32_max. lia.
    + unfold is_u32, u32_or_max, u32_max. lia.
  - rewrite Hlen. unfold MAX_CANCEL_REQUEST_LEN. lia.
Qed.

Lemma cancel_request_reads_back_witness :
  is_i32 (-2) ∧ cancel_request_key (build_cancel_request (-2) (lit "key")) = Some (-2, lit "key").
Proof.
  split; [unfold is_i32; lia|].
  apply (cancel_request_reads_back (-2) (lit "key")); [unfold is_i32; lia|done|cbn; lia].
Defined.

(** ** What is replayed is whole *)

(** A quoted identifier, as PostgreSQL's lexer reads it after the opening quote: up
    to a quote that no quote follows, a doubled one standing for one. *)
Fixpoint quoted_identifier (l : bytes) : option (bytes * bytes) :=
  match l with
  | [] => None
  | b :: l' =>
      if byte_eqb b x22 then
        match l' with
        | c :: l'' =>
            if byte_eqb c x22 then '(name, rest) ← quoted_identifier l''; Some (b :: name, rest)
            else Some ([], l')
        | [] => Some ([], [])
        end
      else '(name, rest) ← quoted_identifier l'; Some (b :: name, rest)
  end.

Lemma quoted_identifier_escape channel rest :
  head rest ≠ Some x22 → quoted_identifier (escape_identifier channel ++ x22 :: rest) = Some (channel, rest).
Proof.
  intros Hr. induction channel as [|b channel IH].
  - destruct rest as [|c rest]; [done|]. cbn [escape_identifier mbind list_bind app quoted_identifier].
    change (byte_eqb x22 x22) with true. cbv iota.
    assert (byte_eqb c x22 = false) as -> by (apply bool_decide_eq_false_2; intros ->; by apply Hr). done.
  - unfold escape_identifier in *. cbn [mbind list_bind]. unfold byte_eqb at 1.
    case_bool_decide as Hb; [subst b|]; cbn [app quoted_identifier].
    + change (byte_eqb x22 x22) with true. cbv iota. by rewrite IH.
    + unfold byte_eqb at 1. rewrite bool_decide_eq_false_2 by done. by rewrite IH.
Qed.

(** The LISTEN a migrated session replays is one complete Query frame whose
    statement names the channel exactly, whatever characters the name has, and holds
    nothing else. *)
Lemma listen_names_its_channel (channel : bytes) :
  Z.of_nat (length (escape_identifier channel)) + 15 ≤ u32_max →
  frame Query (build_listen_message channel) ∧
  ∃ quoted, drop 5 (build_listen_message channel) = lit "LISTEN " ++ [x22] ++ quoted ∧
    quoted_identifier quoted = Some (channel, lit ";" ++ [x00]).
Proof.
  intros Hl. unfold build_listen_message. split.
  - match goal with |- frame _ (_ ++ u32_to_be (u32_or_max ?n) ++ ?b) => assert (n = (4 + length b)%nat) as -> end.
    { rewrite !length_app. change (length (lit "LISTEN ")) with 7%nat.
      change (length (lit ";")) with 1%nat. cbn [length]. lia. }
    apply frame_build; [done|]. rewrite !length_app. change (length (lit "LISTEN ")) with 7%nat.
    change (length (lit ";")) with 1%nat. cbn [length]. lia.
  - eexists. split; [done|]. by apply quoted_identifier_escape.
Qed.

Lemma listen_names_its_channel_witness :
  Z.of_nat (length (escape_identifier [x61; x22])) + 15 ≤ u32_max ∧
  frame Query (build_listen_message [x61; x22]%byte).
Proof. split; [vm_compute; discriminate|]. apply listen_names_its_channel. vm_compute. discriminate. Defined.
