(* ===== verification/SqlScan.v ===== *)
(** * What a client's SQL text does to its session
    ([src/gateway/handlers/analysis.rs])

    The byte-level prefilters (keyword tokens, leading keywords, top-level
    semicolons), the statement classifier over pg_query's parse nodes, and the
    analysis of one query text.

    pg_query is a parameter: [parse] and [split_with_scanner] are its entry points,
    [Node] has the node types the classifier names with the fields it reads, and
    [OtherNode] for the rest.  Metric labels ([node_type_name]) are left out. *)

From S2P Require Import Prelude Text Utf8.
From Stdlib Require Import Strings.Byte.

(** ** Byte classes *)
Definition word (c : byte) : bool := is_ascii_alphanumeric c || byte_eqb c "_"%byte.

(** No identifier byte stands here. *)
Definition boundary (o : option byte) : bool :=
  match o with None => true | Some c => negb (word c) end.

Definition continues_identifier (c : byte) : bool :=
  is_ascii_alphanumeric c || byte_eqb c "_"%byte || byte_eqb c "$"%byte || (128 <=? byte_z c).

(** ** Leading keyword *)
Fixpoint drop_while (p : byte → bool) (l : bytes) : bytes :=
  match l with c :: l' => if p c then drop_while p l' else l | [] => [] end.
Fixpoint take_while (p : byte → bool) (l : bytes) : bytes :=
  match l with c :: l' => if p c then c :: take_while p l' else [] | [] => [] end.

Definition to_line_end (l : bytes) : bytes := drop_while (λ c, negb (byte_eqb c x0a)) l.

(** Past the [depth] block comments open here; [None] at the end of the text. *)
Fixpoint close_comment (depth : nat) (l : bytes) : option bytes :=
  match depth with
  | O => Some l
  | S d =>
      match l with
      | [] => None
      | c :: l1 =>
          match l1 with
          | [] => None
          | c' :: l2 =>
              if byte_eqb c "/" && byte_eqb c' "*" then close_comment (S depth) l2
              else if byte_eqb c "*" && byte_eqb c' "/" then close_comment d l2
              else close_comment depth l1
          end
      end
  end%byte.

(** The text after the leading white space and comments; every round of the loop
    takes at least one byte. *)
Fixpoint skip_blank (fuel : nat) (l : bytes) : option bytes :=
  match fuel with
  | O => None
  | S f =>
      let l := drop_while is_ascii_whitespace l in
      match l with
      | c :: c' :: l2 =>
          if byte_eqb c "-" && byte_eqb c' "-" then skip_blank f (to_line_end l)
          else if byte_eqb c "/" && byte_eqb c' "*" then
            l ← close_comment 1 l2; skip_blank f l
          else Some l
      | _ => Some l
      end
  end%byte.

Definition first_statement_keyword (query : bytes) : option bytes :=
  l ← skip_blank (S (length query)) query;
  match take_while word l with [] => None | k => Some k end.

(** ** Top-level semicolons *)

(** Past a single-quoted literal's body; [None] at a backslash. *)
Fixpoint skip_literal (l : bytes) : option bytes :=
  match l with
  | [] => Some []
  | c :: l1 =>
      if byte_eqb c "\" then None
      else if byte_eqb c "'" then
        match l1 with
        | c' :: l2 => if byte_eqb c' "'" then skip_literal l2 else Some l1
        | [] => Some []
        end
      else skip_literal l1
  end%byte.

(** Past a quoted identifier's body. *)
Fixpoint skip_quoted (l : bytes) : bytes :=
  match l with
  | [] => []
  | c :: l1 =>
      if byte_eqb c x22 then
        match l1 with
        | c' :: l2 => if byte_eqb c' x22 then skip_quoted l2 else l1
        | [] => []
        end
      else skip_quoted l1
  end.

(** After a [$]: the tag and what follows its closing [$], if it opens a dollar
    quote. *)
Definition dollar_tag (l : bytes) : option (bytes * bytes) :=
  let name := take_while (λ c, negb (byte_eqb c "$") && continues_identifier c) l in
  match drop (length name) l with
  | c :: r =>
      if byte_eqb c "$"
         && negb match l with d :: _ => is_ascii_digit d | [] => false end
      then Some (["$"] ++ name ++ ["$"], r) else None
  | [] => None
  end%byte.

(** The scan; [prev] is the byte before. *)
Fixpoint semicolon_from (fuel : nat) (prev : option byte) (l : bytes) : bool :=
  match fuel, l with
  | S f, c :: l1 =>
      if byte_eqb c ";" then true
      else if byte_eqb c "'" then
        match skip_literal l1 with None => true | Some r => semicolon_from f (Some c) r end
      else if byte_eqb c x22 then semicolon_from f (Some c) (skip_quoted l1)
      else if byte_eqb c "$" then
        if match prev with Some p => continues_identifier p | None => false end
        then semicolon_from f (Some c) l1
        else
          match dollar_tag l1 with
          | None => semicolon_from f (Some c) l1
          | Some (tag, body) =>
              match after_first tag body with
              | None => false
              | Some r => semicolon_from f (Some "$") r
              end
          end
      else if byte_eqb c "-" && bool_decide (head l1 = Some "-") then
        semicolon_from f (Some "-") (to_line_end l)
      else if byte_eqb c "/" && bool_decide (head l1 = Some "*") then
        match close_comment 1 (drop 1 l1) with
        | None => false
        | Some r => semicolon_from f (Some "/") r
        end
      else semicolon_from f (Some c) l1
  | _, _ => false
  end%byte.
Definition has_top_level_semicolon (text : bytes) : bool :=
  semicolon_from (length text) None text.

(** ** Keyword tokens *)

(** [token] stands here as a whole word, in any case. *)
Definition matches_at (prev : option byte) (l token : bytes) : bool :=
  eq_ignore_ascii_case (take (length token) l) token
  && boundary prev && boundary (l !! length token).

Fixpoint contains_from (prev : option byte) (l token : bytes) : bool :=
  match l with
  | [] => false
  | c :: l' => matches_at prev l token || contains_from (Some c) l' token
  end.
Definition contains_token_ci (query token : bytes) : bool :=
  match token with [] => false | _ => contains_from None query token end.

(** [str::trim_end_matches] for semicolons and white space. *)
Definition trim_end_statement (query : bytes) : bytes :=
  reverse (drop_while (λ c, byte_eqb c ";"%byte || is_ascii_whitespace c) (reverse query)).

Definition leading_statement_keyword_matches (query : bytes) (keywords : list bytes) : bool :=
  match first_statement_keyword query with
  | Some first => existsb (λ k, eq_ignore_ascii_case first k) keywords
  | None => false
  end
  || has_top_level_semicolon (trim_end_statement query)
     && existsb (λ k, contains_token_ci query k) keywords.

Definition SESSION_KEYWORDS : list bytes :=
  lit <$> ["set"; "reset"; "deallocate"; "discard"; "create"; "prepare"; "declare"; "do";
           "load"; "call"]%string.
Definition might_contain_session_state_command (query : bytes) : bool :=
  leading_statement_keyword_matches query SESSION_KEYWORDS.

Record QueryKeywordFlags := QueryKeywordFlags_ {
  subscription : bool;
  function_state : bool;
  temp_object : bool
}.

Inductive Flag := Subscription | FunctionState | TempObject.
Definition raise (f : Flag) (q : QueryKeywordFlags) : QueryKeywordFlags :=
  match f with
  | Subscription => QueryKeywordFlags_ true (function_state q) (temp_object q)
  | FunctionState => QueryKeywordFlags_ (subscription q) true (temp_object q)
  | TempObject => QueryKeywordFlags_ (subscription q) (function_state q) true
  end.

(** The tokens in the order they are tried: longest first. *)
Definition TOKENS : list (bytes * Flag) :=
  [ (lit "pg_try_advisory_lock_shared", FunctionState);
    (lit "pg_advisory_lock_shared", FunctionState);
    (lit "pg_try_advisory_lock", FunctionState);
    (lit "pg_advisory_lock", FunctionState);
    (lit "set_config", FunctionState);
    (lit "temporary", TempObject);
    (lit "unlisten", Subscription);
    (lit "pg_temp", TempObject);
    (lit "listen", Subscription);
    (lit "temp", TempObject) ].

Definition token_at (prev : option byte) (l : bytes) : option (bytes * Flag) :=
  List.find (λ t, matches_at prev l t.1) TOKENS.

(** The single pass; [skip] bytes of the token just matched remain. *)
Fixpoint flags_from (skip : nat) (prev : option byte) (l : bytes) (q : QueryKeywordFlags)
    : QueryKeywordFlags :=
  match l with
  | [] => q
  | c :: l' =>
      match skip with
      | S s => flags_from s (Some c) l' q
      | O =>
          match token_at prev l with
          | Some (token, f) => flags_from (length token - 1) (Some c) l' (raise f q)
          | None => flags_from 0 (Some c) l' q
          end
      end
  end.
Definition query_keyword_flags (query : bytes) : QueryKeywordFlags :=
  flags_from 0 None query (QueryKeywordFlags_ false false false).

(** ** Statements *)
Inductive SessionChange : Type :=
| Listen (channel : bytes)
| Unlisten (channel : bytes)
| UnlistenAll
| SetSessionVar
| Deallocate (name : bytes)
| DeallocateAll
| DiscardAll
| NonMigratable.
#[global] Instance SessionChange_eq_dec : EqDecision SessionChange.
Proof. solve_decision. Defined.

(** [pg_query::protobuf]: a relation by its [relpersistence]; a discard's target by
    what [DiscardMode::try_from] makes of it. *)
Record RangeVar := RangeVar_ { relpersistence : bytes }.
Record IntoClause := IntoClause_ { rel : option RangeVar }.
Inductive DiscardMode := DiscardAllMode | OtherMode.

Inductive Node : Type :=
| ListenStmt (conditionname : bytes)
| UnlistenStmt (conditionname : bytes)
| VariableSetStmt (is_local : bool)
| DeallocateStmt (isall : bool) (name : bytes)
| DiscardStmt (target : option DiscardMode)
| CreateStmt (relation : option RangeVar)
| CreateTableAsStmt (into : option IntoClause)
| ViewStmt (view : option RangeVar)
| CreateSeqStmt (sequence : option RangeVar)
| SelectStmt (into_clause : option IntoClause)
| PrepareStmt | DoStmt | CallStmt | LoadStmt
| DeclareCursorStmt (options : Z)
| InsertStmt | UpdateStmt | DeleteStmt | MergeStmt | CopyStmt | TransactionStmt
| FetchStmt | ClosePortalStmt | LockStmt | ExecuteStmt | VariableShowStmt
| OtherNode (tag : Z).
#[global] Instance RangeVar_eq_dec : EqDecision RangeVar.
Proof. solve_decision. Defined.
#[global] Instance IntoClause_eq_dec : EqDecision IntoClause.
Proof. solve_decision. Defined.
#[global] Instance DiscardMode_eq_dec : EqDecision DiscardMode.
Proof. solve_decision. Defined.
#[global] Instance Node_eq_dec : EqDecision Node.
Proof. solve_decision. Defined.

Inductive StatementClass : Type :=
| Modeled (change : option SessionChange)
| Unmodeled.

Definition temp (r : option RangeVar) : bool :=
  match r with Some r => bool_decide (relpersistence r = lit "t") | None => false end.
Definition then_some {A} (b : bool) (a : A) : option A := if b then Some a else None.

Definition CURSOR_OPT_HOLD : Z := 0x20.

Definition normalize_condition_name (name : bytes) : option bytes :=
  match trim name with [] => None | t => Some t end.

Definition leaves_no_session_state (stmt : Node) : bool :=
  match stmt with
  | InsertStmt | UpdateStmt | DeleteStmt | MergeStmt | CopyStmt | TransactionStmt
  | FetchStmt | ClosePortalStmt | LockStmt | ExecuteStmt | VariableShowStmt => true
  | _ => false
  end.

Definition classify_statement (stmt : Node) : StatementClass :=
  match stmt with
  | ListenStmt conditionname => Modeled (Listen <$> normalize_condition_name conditionname)
  | UnlistenStmt conditionname =>
      let condition := trim conditionname in
      Modeled (Some (if bool_decide (condition = []) || bool_decide (condition = lit "*")
                     then UnlistenAll else Unlisten condition))
  | VariableSetStmt is_local => Modeled (then_some (negb is_local) SetSessionVar)
  | DeallocateStmt isall name =>
      Modeled (if isall then Some DeallocateAll
               else match name with [] => None | _ => Some (Deallocate name) end)
  | DiscardStmt target => Modeled (then_some (bool_decide (target = Some DiscardAllMode)) DiscardAll)
  | CreateStmt relation => Modeled (then_some (temp relation) NonMigratable)
  | CreateTableAsStmt into => Modeled (then_some (temp (into ≫= rel)) NonMigratable)
  | ViewStmt view => Modeled (then_some (temp view) NonMigratable)
  | CreateSeqStmt sequence => Modeled (then_some (temp sequence) NonMigratable)
  | SelectStmt into_clause => Modeled (then_some (temp (into_clause ≫= rel)) NonMigratable)
  | PrepareStmt | DoStmt | CallStmt | LoadStmt => Modeled (Some NonMigratable)
  | DeclareCursorStmt options =>
      Modeled (then_some (negb (Z.land options CURSOR_OPT_HOLD =? 0)) NonMigratable)
  | _ => if leaves_no_session_state stmt then Modeled None else Unmodeled
  end.

Record QueryAnalysis := QueryAnalysis_ {
  session_changes : list SessionChange;
  controls_transaction : bool
}.
Definition no_analysis : QueryAnalysis := QueryAnalysis_ [] false.

(** One raw statement; [None] where the tree has no node. *)
Definition accumulate_statement (names_temp_object : bool) (analysis : QueryAnalysis)
    (stmt : option Node) : QueryAnalysis :=
  match stmt with
  | None => analysis
  | Some stmt =>
      let controls := controls_transaction analysis || bool_decide (stmt = TransactionStmt) in
      let changes :=
        match classify_statement stmt with
        | Modeled (Some change) => [change]
        | Unmodeled => if names_temp_object then [NonMigratable] else []
        | Modeled None => []
        end in
      QueryAnalysis_ (session_changes analysis ++ changes) controls
  end.
Definition accumulate_query_analysis (analysis : QueryAnalysis) (stmts : list (option Node))
    (names_temp_object : bool) : QueryAnalysis :=
  foldl (accumulate_statement names_temp_object) analysis stmts.

Section Analyzer.
(** [pg_query::parse] and [pg_query::split_with_scanner]; [None] is an error. *)
Context (parse : bytes → option (list (option Node)))
        (split_with_scanner : bytes → option (list bytes)).

(** What can be read of a text the parser rejects. *)
Definition salvage (analysis : QueryAnalysis) (statement : bytes) : QueryAnalysis :=
  match parse statement with
  | Some stmts =>
      accumulate_query_analysis analysis stmts (temp_object (query_keyword_flags statement))
  | None => analysis
  end.

Definition analyze_query (query : bytes) : QueryAnalysis :=
  match parse query with
  | Some stmts =>
      accumulate_query_analysis no_analysis stmts (temp_object (query_keyword_flags query))
  | None =>
      let analysis :=
        match split_with_scanner query with
        | Some statements => foldl salvage no_analysis statements
        | None => no_analysis
        end in
      QueryAnalysis_ (session_changes analysis ++ [NonMigratable]) (controls_transaction analysis)
  end.

Definition analyzer_finds_session_state (query : bytes) : bool :=
  negb (bool_decide (session_changes (analyze_query query) = [])).
End Analyzer.

(** ** Examples, from the source's tests *)
Example first_keyword_past_comments :
  first_statement_keyword (lit "  -- x
 /* a /* b */ c */ SELECT 1") = Some (lit "SELECT").
Proof. reflexivity. Qed.
Example semicolon_in_literal : has_top_level_semicolon (lit "SELECT 'a;b''c;'") = false.
Proof. reflexivity. Qed.
Example semicolon_in_dollar_quote : has_top_level_semicolon (lit "SELECT $x$ a;b $x$, a$b$c;") = true.
Proof. reflexivity. Qed.
Example flags_of_temp :
  query_keyword_flags (lit "select x into TEMP t, temp_c; unlisten") = QueryKeywordFlags_ true false true.
Proof. reflexivity. Qed.
