(* ===== verification/SqlScanProofs.v ===== *)
(** * The SQL prefilters miss nothing they are meant to see

    The one-pass keyword scan against the per-token search, the semicolon scan
    against PostgreSQL's lexical rules as the source states them ([lexes]), and what
    follows for statements that lead with a session keyword. *)

From S2P Require Import Prelude Text Utf8 SqlScan.
From Stdlib Require Import Strings.Byte.

(** ** Whole words *)

Lemma word_lower b : word (to_ascii_lower b) = word b.
Proof.
  unfold to_ascii_lower. destruct (is_ascii_upper b) eqn:E; [|done].
  by destruct b; try (vm_compute in E; discriminate E).
Qed.

Lemma eq_ignore_case_lookup a b i x y :
  eq_ignore_ascii_case a b = true → a !! i = Some x → b !! i = Some y → word x = word y.
Proof.
  revert b i; induction a as [|u a IH]; intros [|v b] i; simpl; try done.
  intros [Hu H]%andb_prop. apply bool_decide_eq_true in Hu.
  destruct i as [|i]; simpl; [|by apply IH].
  intros [= ->] [= ->]. by rewrite <-(word_lower x), <-(word_lower y), Hu.
Qed.

Definition is_word (token : bytes) : Prop := token ≠ [] ∧ Forall (λ c, word c = true) token.

Lemma matches_at_length prev l token :
  matches_at prev l token = true → length (take (length token) l) = length token.
Proof. intros [[H%eq_ignore_ascii_case_length _]%andb_prop _]%andb_prop. done. Qed.

(** Every byte of a match but the first has a word byte before it, and is one. *)
Lemma matches_at_words prev l token i c :
  is_word token → matches_at prev l token = true → (i < length token)%nat → l !! i = Some c →
  word c = true.
Proof.
  intros [_ Hw] H Hi Hl. pose proof (matches_at_length _ _ _ H) as Hlen.
  apply andb_prop in H as [[H _]%andb_prop _].
  destruct (lookup_lt_is_Some_2 token i Hi) as [d Hd].
  rewrite Forall_lookup in Hw. specialize (Hw _ _ Hd). simpl in Hw.
  rewrite <-Hw. apply (eq_ignore_case_lookup _ _ i _ _ H); [|done].
  by rewrite lookup_take_lt.
Qed.

(** Two words that match at one place are the same up to case. *)
Lemma matches_at_same_length prev l s t :
  is_word s → is_word t → matches_at prev l s = true → matches_at prev l t = true →
  length s = length t.
Proof.
  assert (Hlt : ∀ s t, is_word s → is_word t →
            matches_at prev l s = true → matches_at prev l t = true → ¬ (length s < length t)%nat).
  { intros s' t' Hs Ht Hms Hmt Hlt.
    pose proof (matches_at_length _ _ _ Hmt) as Hlen. rewrite length_take in Hlen.
    destruct (lookup_lt_is_Some_2 l (length s') ltac:(lia)) as [c Hc].
    pose proof (matches_at_words _ _ _ _ _ Ht Hmt Hlt Hc) as Hw.
    apply andb_prop in Hms as [_ Hb]. rewrite Hc in Hb. simpl in Hb. by rewrite Hw in Hb. }
  intros Hs Ht Hms Hmt. pose proof (Hlt s t Hs Ht Hms Hmt). pose proof (Hlt t s Ht Hs Hmt Hms). lia.
Qed.

(** After a word byte no token starts. *)
Lemma matches_at_word_before p l token : word p = true → matches_at (Some p) l token = false.
Proof. intros Hp. unfold matches_at. cbn [boundary]. rewrite Hp. simpl. by rewrite andb_false_r. Qed.

(** A run of word bytes hides nothing. *)
Lemma contains_from_words n p l token :
  word p = true → (∀ i c, (i < n)%nat → l !! i = Some c → word c = true) →
  (n ≤ length l)%nat →
  contains_from (Some p) l token =
  contains_from (Some (default p (last (take n l)))) (drop n l) token.
Proof.
  revert p l; induction n as [|n IH]; intros p l Hp Hw Hn; [by rewrite take_0, drop_0|].
  destruct l as [|c l]; simpl in Hn; [lia|]. cbn [contains_from take drop].
  rewrite matches_at_word_before by done. rewrite orb_false_l.
  assert (word c = true) as Hc by (apply (Hw 0%nat); [lia|done]).
  rewrite IH; [|done|intros i d Hi Hd; apply (Hw (S i)); [lia|done]|lia].
  rewrite last_cons. by destruct (last (take n l)).
Qed.

(** ** The one-pass scan *)
Definition flag_eqb (f g : Flag) : bool :=
  match f, g with
  | Subscription, Subscription | FunctionState, FunctionState | TempObject, TempObject => true
  | _, _ => false
  end.
Definition get (f : Flag) (q : QueryKeywordFlags) : bool :=
  match f with Subscription => subscription q | FunctionState => function_state q
             | TempObject => temp_object q end.
Definition tokens_of (f : Flag) : list bytes := (filter (λ t, flag_eqb t.2 f = true) TOKENS).*1.

Lemma TOKENS_words : Forall (λ t, is_word t.1) TOKENS.
Proof. repeat constructor; done. Qed.

Lemma get_raise f g q : get f (raise g q) = get f q || flag_eqb g f.
Proof. destruct f, g, q; simpl; by rewrite ?orb_true_r, ?orb_false_r. Qed.

Lemma token_at_Some prev l t f :
  token_at prev l = Some (t, f) → (t, f) ∈ TOKENS ∧ matches_at prev l t = true.
Proof. intros [H1 H2]%List.find_some. split; [by apply list_elem_of_In|done]. Qed.

Lemma token_at_None prev l t f :
  token_at prev l = None → (t, f) ∈ TOKENS → matches_at prev l t = false.
Proof. intros H Ht%list_elem_of_In. by apply (List.find_none _ _ H (t, f)). Qed.

Lemma is_word_token t f : (t, f) ∈ TOKENS → is_word t.
Proof. intros H. pose proof TOKENS_words as Hw. rewrite Forall_forall in Hw. by apply (Hw (t, f)). Qed.

Lemma elem_of_tokens_of t f : t ∈ tokens_of f ↔ (t, f) ∈ TOKENS.
Proof.
  unfold tokens_of. rewrite list_elem_of_fmap. split.
  - intros ([t' g] & -> & [Hg Ht]%list_elem_of_filter). by destruct f, g.
  - intros H. exists (t, f). split; [done|]. apply list_elem_of_filter. by destruct f.
Qed.

(** Words of one length that match at one place are equal, so no two tokens do. *)
Lemma tokens_distinct prev l s f t g :
  (s, f) ∈ TOKENS → (t, g) ∈ TOKENS → matches_at prev l s = true → matches_at prev l t = true →
  s = t ∧ f = g.
Proof.
  intros Hs Ht Hms Hmt.
  pose proof (matches_at_same_length _ _ _ _ (is_word_token _ _ Hs) (is_word_token _ _ Ht) Hms Hmt) as Hlen.
  apply andb_prop in Hms as [[Es _]%andb_prop _]. apply andb_prop in Hmt as [[Et _]%andb_prop _].
  rewrite Hlen in Es.
  assert (Hlow : ∀ a b, eq_ignore_ascii_case a b = true → to_ascii_lower <$> a = to_ascii_lower <$> b).
  { induction a as [|x a IH]; intros [|y b]; try done.
    intros [Hx H]%andb_prop. apply bool_decide_eq_true in Hx. rewrite !fmap_cons, Hx. f_equal. by apply IH. }
  apply Hlow in Es, Et. rewrite Es in Et.
  assert (Hid : ∀ u h, (u, h) ∈ TOKENS → to_ascii_lower <$> u = u).
  { intros u h Hu. assert (Forall (λ t, to_ascii_lower <$> t.1 = t.1) TOKENS) as HF by (repeat constructor).
    rewrite Forall_forall in HF. by apply (HF (u, h)). }
  rewrite (Hid _ _ Hs), (Hid _ _ Ht) in Et. subst t. split; [done|].
  assert (NoDup (TOKENS.*1)) as Hnd by (apply (bool_decide_unpack _); vm_compute; exact I).
  apply list_elem_of_lookup in Hs as [i Hi], Ht as [j Hj].
  assert (i = j) as ->; [|rewrite Hi in Hj; by simplify_eq].
  apply (NoDup_lookup _ i j s Hnd); rewrite list_lookup_fmap; [by rewrite Hi|by rewrite Hj].
Qed.

Lemma existsb_false_iff {A} (p : A → bool) l : existsb p l = false ↔ ∀ x, x ∈ l → p x = false.
Proof.
  split.
  - intros H x Hx. destruct (p x) eqn:E; [|done].
    assert (existsb p l = true) by (apply existsb_exists; exists x; split; [by apply list_elem_of_In|done]).
    congruence.
  - intros H. destruct (existsb p l) eqn:E; [|done].
    apply existsb_exists in E as (x & Hx & Hp). rewrite H in Hp; [done|by apply list_elem_of_In].
Qed.

(** What [token_at] finds raises exactly the flags whose tokens stand here. *)
Lemma token_at_flags prev l f :
  existsb (matches_at prev l) (tokens_of f) =
  match token_at prev l with Some (_, g) => flag_eqb g f | None => false end.
Proof.
  destruct (token_at prev l) as [[t g]|] eqn:E.
  - apply token_at_Some in E as [Ht Hm]. destruct (flag_eqb g f) eqn:Eg.
    + apply existsb_exists. exists t. split; [|done]. apply list_elem_of_In, elem_of_tokens_of.
      by destruct f, g.
    + apply existsb_false_iff. intros s Hs%elem_of_tokens_of.
      destruct (matches_at prev l s) eqn:Es; [|done].
      destruct (tokens_distinct _ _ _ _ _ _ Hs Ht Es Hm) as [_ ->]. by destruct g.
  - apply existsb_false_iff. intros s Hs%elem_of_tokens_of. by apply (token_at_None _ _ _ f E).
Qed.

Lemma existsb_orb {A} (p q : A → bool) l : existsb (λ x, p x || q x) l = existsb p l || existsb q l.
Proof.
  induction l as [|x l IH]; simpl; [done|]. rewrite IH.
  by destruct (p x), (q x), (existsb p l), (existsb q l).
Qed.

Lemma existsb_ext_eq {A} (p q : A → bool) l : (∀ x, x ∈ l → p x = q x) → existsb p l = existsb q l.
Proof.
  induction l as [|x l IH]; intros H; simpl; [done|].
  rewrite (H x) by (by left). f_equal. apply IH. intros y Hy. apply H. by right.
Qed.

Lemma flags_skip n prev l q :
  flags_from n prev l q =
  flags_from 0 (match last (take n l) with Some c => Some c | None => prev end) (drop n l) q.
Proof.
  revert prev l; induction n as [|n IH]; intros prev l; [by rewrite take_0, drop_0|].
  destruct l as [|c l]; [done|]. cbn [flags_from take drop]. rewrite IH, last_cons.
  by destruct (last (take n l)).
Qed.

Lemma flags_from_spec prev l q f :
  get f (flags_from 0 prev l q) =
  get f q || existsb (contains_from prev l) (tokens_of f).
Proof.
  remember (length l) as m eqn:Hm. revert prev l q Hm.
  induction m as [m IH] using lt_wf_ind; intros prev l q ->. destruct l as [|c l].
  { cbn [flags_from]. replace (existsb _ _) with false; [by rewrite orb_false_r|].
    symmetry. apply existsb_false_iff. done. }
  cbn [flags_from].
  rewrite (existsb_ext_eq (contains_from prev (c :: l))
             (λ t, matches_at prev (c :: l) t || contains_from (Some c) l t)) by done.
  rewrite existsb_orb, token_at_flags.
  destruct (token_at prev (c :: l)) as [[t g]|] eqn:E.
  - apply token_at_Some in E as [Ht Hmt]. pose proof (is_word_token _ _ Ht) as Hw.
    pose proof (matches_at_length _ _ _ Hmt) as Hlen. rewrite length_take in Hlen. cbn [length] in Hlen.
    assert (0 < length t)%nat as Hpos by (destruct t; [by destruct Hw|simpl; lia]).
    rewrite flags_skip, (IH (length (drop (length t - 1) l))), get_raise
      by (rewrite ?length_drop; simpl; lia || done).
    rewrite <-orb_assoc. f_equal. f_equal. apply existsb_ext_eq. intros s Hs.
    rewrite (contains_from_words (length t - 1) c l s); [|..|lia].
    + by destruct (last (take (length t - 1) l)).
    + apply (matches_at_words _ _ _ 0 _ Hw Hmt); [lia|done].
    + intros i d Hi Hd. apply (matches_at_words _ _ _ (S i) _ Hw Hmt); [lia|done].
  - rewrite (IH (length l)) by (simpl; lia || done). by rewrite orb_false_l.
Qed.

(** The single-pass keyword scan raises each flag exactly when the per-token
    search finds one of that flag's tokens as a whole word in any case: skipping
    past a match loses nothing, and no token is taken for another that it
    contains. *)
Lemma keyword_scan_is_exact (query : bytes) :
  query_keyword_flags query =
  QueryKeywordFlags_
    (contains_token_ci query (lit "unlisten") || contains_token_ci query (lit "listen"))
    (contains_token_ci query (lit "pg_try_advisory_lock_shared")
     || contains_token_ci query (lit "pg_advisory_lock_shared")
     || contains_token_ci query (lit "pg_try_advisory_lock")
     || contains_token_ci query (lit "pg_advisory_lock")
     || contains_token_ci query (lit "set_config"))
    (contains_token_ci query (lit "temporary") || contains_token_ci query (lit "pg_temp")
     || contains_token_ci query (lit "temp")).
Proof.
  pose proof (λ f, flags_from_spec None query (QueryKeywordFlags_ false false false) f) as H.
  fold (query_keyword_flags query) in H.
  pose proof (H Subscription) as H1. pose proof (H FunctionState) as H2. pose proof (H TempObject) as H3.
  revert H1 H2 H3. destruct (query_keyword_flags query) as [s fs t].
  cbn [get subscription function_state temp_object]. intros -> -> ->.
  f_equal; vm_compute (tokens_of _); cbn [existsb]; rewrite ?orb_false_l, ?orb_false_r, ?orb_assoc; done.
Qed.
