(* ===== verification/SqlLex.v ===== *)
(** * Semicolons and leading keywords, against PostgreSQL's lexical rules

    [lexes prev l its] cuts a text into lexical items by the rules the doc comment of
    [has_top_level_semicolon] names: literals and quoted identifiers with doubled
    quotes, dollar quotes, line comments, nested block comments, anything else a byte
    at a time.  Every text has such a cut; the scan answers whether it holds a
    semicolon or a literal with a backslash; and a statement that leads with a session
    keyword, first or after a semicolon, passes the prefilter. *)

From S2P Require Import Prelude Text Utf8 SqlScan SqlScanProofs.
From Stdlib Require Import Strings.Byte.

(** ** Lexical items *)
Inductive kind := Semi | Str | Ident | Dollar | Comment | Plain.
Definition item : Type := kind * bytes.
Definition text (its : list item) : bytes := its ≫= snd.
#[global] Arguments text : simpl never.

(** A body in which the quote appears only doubled. *)
Inductive doubled (q : byte) : bytes → Prop :=
| doubled_nil : doubled q []
| doubled_byte c l : c ≠ q → doubled q l → doubled q (c :: l)
| doubled_pair l : doubled q l → doubled q (q :: q :: l).

(** What closes [depth] open block comments, and no less. *)
Inductive nested : nat → bytes → Prop :=
| nested_done : nested 0 []
| nested_close d l : nested d l → nested (S d) ("*" :: "/" :: l)%byte
| nested_open d l : nested (S (S d)) l → nested (S d) ("/" :: "*" :: l)%byte
| nested_byte d c l :
    ¬ (c = "/"%byte ∧ head l = Some "*"%byte) → ¬ (c = "*"%byte ∧ head l = Some "/"%byte) →
    nested (S d) l → nested (S d) (c :: l).

Definition tag_byte (c : byte) : bool := negb (byte_eqb c "$"%byte) && continues_identifier c.
Definition tag_name (name : bytes) : Prop :=
  Forall (λ c, tag_byte c = true) name ∧ ¬ ∃ d, head name = Some d ∧ is_ascii_digit d = true.
Definition tag (name : bytes) : bytes := (["$"] ++ name ++ ["$"])%byte.
Definition opens_tag (l : bytes) : Prop := ∃ name r, l = name ++ "$"%byte :: r ∧ tag_name name.
Definition in_identifier (prev : option byte) : bool :=
  match prev with Some p => continues_identifier p | None => false end.

Inductive lexes : option byte → bytes → list item → Prop :=
| lex_end prev : lexes prev [] []
| lex_semi prev l its :
    lexes (Some ";"%byte) l its → lexes prev (";"%byte :: l) ((Semi, [";"%byte]) :: its)
| lex_string prev body l its :
    doubled "'" body → head l ≠ Some "'"%byte → lexes (Some "'"%byte) l its →
    lexes prev ("'" :: body ++ "'" :: l)%byte ((Str, "'" :: body ++ ["'"])%byte :: its)
| lex_string_open prev body :
    doubled "'" body → lexes prev ("'" :: body)%byte [(Str, "'" :: body)%byte]
| lex_ident prev body l its :
    doubled x22 body → head l ≠ Some x22 → lexes (Some x22) l its →
    lexes prev (x22 :: body ++ x22 :: l) ((Ident, x22 :: body ++ [x22]) :: its)
| lex_ident_open prev body :
    doubled x22 body → lexes prev (x22 :: body) [(Ident, x22 :: body)]
| lex_dollar prev name body l its :
    in_identifier prev = false → tag_name name →
    (∀ k, (k < length body)%nat → ¬ tag name `prefix_of` drop k (body ++ tag name)) →
    lexes (Some "$"%byte) l its →
    lexes prev (tag name ++ body ++ tag name ++ l) ((Dollar, tag name ++ body ++ tag name) :: its)
| lex_dollar_open prev name body :
    in_identifier prev = false → tag_name name →
    (∀ k, ¬ tag name `prefix_of` drop k body) →
    lexes prev (tag name ++ body) [(Dollar, tag name ++ body)]
| lex_line prev body l its :
    x0a ∉ body → (l = [] ∨ head l = Some x0a) → lexes (Some "-"%byte) l its →
    lexes prev ("-" :: "-" :: body ++ l)%byte ((Comment, "-" :: "-" :: body)%byte :: its)
| lex_block prev body l its :
    nested 1 body → lexes (Some "/"%byte) l its →
    lexes prev ("/" :: "*" :: body ++ l)%byte ((Comment, "/" :: "*" :: body)%byte :: its)
| lex_block_open prev body :
    (∀ k, ¬ nested 1 (take k body)) →
    lexes prev ("/" :: "*" :: body)%byte [(Comment, "/" :: "*" :: body)%byte]
| lex_plain prev c l its :
    c ∉ [";"; "'"; x22]%byte →
    ¬ (c = "-"%byte ∧ head l = Some "-"%byte) → ¬ (c = "/"%byte ∧ head l = Some "*"%byte) →
    (c = "$"%byte → in_identifier prev = true ∨ ¬ opens_tag l) →
    lexes (Some c) l its → lexes prev (c :: l) ((Plain, [c]) :: its).

(** What makes the scan answer true. *)
Definition risky (i : item) : bool :=
  match i.1 with Semi => true | Str => bool_decide ("\"%byte ∈ i.2) | _ => false end.

(** ** The skipping functions, on their constructs *)

Lemma byte_eqb_refl c : byte_eqb c c = true.
Proof. unfold byte_eqb. by apply bool_decide_eq_true_2. Qed.
Lemma byte_eqb_ne c d : c ≠ d → byte_eqb c d = false.
Proof. apply bool_decide_eq_false_2. Qed.
Lemma byte_eqb_true c d : byte_eqb c d = true ↔ c = d.
Proof. apply bool_decide_eq_true. Qed.
Lemma byte_eqb_false c d : byte_eqb c d = false ↔ c ≠ d.
Proof. apply bool_decide_eq_false. Qed.

Ltac byte_case c d :=
  let E := fresh "E" in
  destruct (byte_eqb c d) eqn:E; [apply byte_eqb_true in E | apply byte_eqb_false in E].

Lemma skip_literal_ne c l : c ≠ "\"%byte → c ≠ "'"%byte → skip_literal (c :: l) = skip_literal l.
Proof. intros H1 H2. cbn [skip_literal]. by rewrite !byte_eqb_ne. Qed.

Lemma skip_literal_closed body l :
  doubled "'" body → head l ≠ Some "'"%byte →
  skip_literal (body ++ "'"%byte :: l) = if bool_decide ("\"%byte ∈ body) then None else Some l.
Proof.
  intros Hb Hl. induction Hb as [|c b Hc Hb IH|b Hb IH]; simpl app.
  - cbn [skip_literal]. destruct l as [|d l]; [done|].
    rewrite (byte_eqb_ne d) by (intros ->; by apply Hl). done.
  - destruct (decide (c = "\"%byte)) as [->|Hne].
    { cbn. symmetry. rewrite bool_decide_eq_true_2; [done|set_solver]. }
    rewrite skip_literal_ne, IH by done. by rewrite (bool_decide_ext _ ("\"%byte ∈ c :: b)) by set_solver.
  - cbn [skip_literal]. rewrite IH. cbn.
    rewrite (bool_decide_ext ("\"%byte ∈ "'"%byte :: "'"%byte :: b) ("\"%byte ∈ b)); [done|set_solver].
Qed.

Lemma skip_literal_open body :
  doubled "'" body → skip_literal body = if bool_decide ("\"%byte ∈ body) then None else Some [].
Proof.
  induction 1 as [|c b Hc Hb IH|b Hb IH].
  - done.
  - destruct (decide (c = "\"%byte)) as [->|Hne].
    { cbn. symmetry. rewrite bool_decide_eq_true_2; [done|set_solver]. }
    rewrite skip_literal_ne, IH by done. by rewrite (bool_decide_ext _ ("\"%byte ∈ c :: b)) by set_solver.
  - cbn [skip_literal]. rewrite IH. cbn.
    rewrite (bool_decide_ext ("\"%byte ∈ "'"%byte :: "'"%byte :: b) ("\"%byte ∈ b)); [done|set_solver].
Qed.

Lemma skip_quoted_closed body l :
  doubled x22 body → head l ≠ Some x22 → skip_quoted (body ++ x22 :: l) = l.
Proof.
  intros Hb Hl. induction Hb as [|c b Hc Hb IH|b Hb IH]; simpl app; cbn [skip_quoted].
  - destruct l as [|d l]; [done|]. rewrite (byte_eqb_ne d) by (intros ->; by apply Hl). done.
  - by rewrite byte_eqb_ne.
  - done.
Qed.

Lemma skip_quoted_open body : doubled x22 body → skip_quoted body = [].
Proof. induction 1; cbn; rewrite ?byte_eqb_ne by done; done. Qed.

Lemma close_comment_nested d body l : nested d body → close_comment d (body ++ l) = Some l.
Proof.
  induction 1 as [|d b _ IH|d b _ IH|d c b H1 H2 Hb IH]; [by destruct l|cbn; done..|].
  cbn [app close_comment]. destruct b as [|c' b]; [inversion Hb|]. cbn [app] in *.
  assert (byte_eqb c "/" && byte_eqb c' "*" = false)%byte as ->.
  { byte_case c "/"%byte; [|done]. subst. apply byte_eqb_ne. intros ->. by apply H1. }
  assert (byte_eqb c "*" && byte_eqb c' "/" = false)%byte as ->.
  { byte_case c "*"%byte; [|done]. subst. apply byte_eqb_ne. intros ->. by apply H2. }
  done.
Qed.

Lemma byte_pair_decide {A} (a b c d : byte) (x y : A) :
  (if byte_eqb a b && byte_eqb c d then x else y) = if decide (a = b ∧ c = d) then x else y.
Proof.
  byte_case a b; byte_case c d; cbn [andb]; destruct (decide _) as [H|H]; try done; by destruct H.
Qed.

Lemma close_comment_step d c c' l :
  close_comment (S d) (c :: c' :: l) =
  if decide (c = "/" ∧ c' = "*")%byte then close_comment (S (S d)) l
  else if decide (c = "*" ∧ c' = "/")%byte then close_comment d l
  else close_comment (S d) (c' :: l).
Proof. cbn [close_comment]. by rewrite !byte_pair_decide. Qed.

Lemma close_comment_Some d l r : close_comment d l = Some r → ∃ body, l = body ++ r ∧ nested d body.
Proof.
  remember (length l) as m eqn:Hm. revert d l Hm.
  induction m as [m IH] using lt_wf_ind; intros d l ->. destruct d as [|d].
  { destruct l; intros [= <-]; exists []; (split; [done|constructor]). }
  destruct l as [|c [|c' l]]; [done..|]. rewrite close_comment_step.
  destruct (decide _) as [[-> ->]|H1]; [|destruct (decide _) as [[-> ->]|H2]];
    intros H; eapply IH in H as (b & Hl & Hb); try reflexivity; try (simpl; lia).
  - exists ("/" :: "*" :: b)%byte. subst. split; [done|by constructor].
  - exists ("*" :: "/" :: b)%byte. subst. split; [done|by constructor].
  - exists (c :: b). split; [by rewrite Hl|].
    assert (Hh : head b = Some c') by (destruct b; [by inversion Hb|by simplify_eq/=]).
    constructor; [| |done]; rewrite Hh; naive_solver.
Qed.

Lemma drop_while_app p a l :
  Forall (λ c, p c = true) a → (∀ c, head l = Some c → p c = false) → drop_while p (a ++ l) = l.
Proof.
  induction 1 as [|c a Hc _ IH]; intros Hl; simpl; [|by rewrite Hc; apply IH].
  destruct l as [|c l]; [done|]. simpl. by rewrite (Hl c).
Qed.

Lemma take_while_app p a l :
  Forall (λ c, p c = true) a → (∀ c, head l = Some c → p c = false) → take_while p (a ++ l) = a.
Proof.
  induction 1 as [|c a Hc _ IH]; intros Hl; simpl; [|by rewrite Hc, IH].
  destruct l as [|c l]; [done|]. simpl. by rewrite (Hl c).
Qed.

Lemma take_while_spec p l :
  ∃ r, l = take_while p l ++ r ∧ Forall (λ c, p c = true) (take_while p l) ∧
       (∀ c, head r = Some c → p c = false).
Proof.
  induction l as [|c l (r & H1 & H2 & H3)]; simpl; [by exists []|].
  destruct (p c) eqn:E.
  - exists r. split; [by rewrite <-app_comm_cons, <-H1|]. split; [by constructor|done].
  - exists (c :: l). split; [done|]. split; [done|]. by intros ? [= <-].
Qed.

Lemma to_line_end_app body l :
  x0a ∉ body → l = [] ∨ head l = Some x0a → to_line_end (body ++ l) = l.
Proof.
  intros Hb Hl. apply drop_while_app.
  - apply Forall_forall. intros c Hc. apply negb_true_iff, byte_eqb_ne. by intros ->.
  - intros c Hc. destruct Hl as [->|Hl]; [done|]. by simplify_eq.
Qed.

(** ** Dollar tags *)
Lemma dollar_tag_opens name l :
  tag_name name → dollar_tag (name ++ "$"%byte :: l) = Some (tag name, l).
Proof.
  intros [Hn Hd]. unfold dollar_tag.
  change (λ c, negb (byte_eqb c "$"%byte) && continues_identifier c) with tag_byte.
  rewrite take_while_app; [|done|by intros ? [= <-]].
  rewrite drop_app_length, byte_eqb_refl. destruct name as [|d name]; [done|].
  cbn [app andb]. destruct (is_ascii_digit d) eqn:E; [|done]. exfalso. apply Hd. by exists d.
Qed.

Lemma dollar_tag_Some l t r :
  dollar_tag l = Some (t, r) → ∃ name, l = name ++ "$"%byte :: r ∧ t = tag name ∧ tag_name name.
Proof.
  unfold dollar_tag.
  change (λ c, negb (byte_eqb c "$"%byte) && continues_identifier c) with tag_byte.
  destruct (take_while_spec tag_byte l) as (r' & Hl & Hn & _).
  set (name := take_while tag_byte l) in *. clearbody name. subst l. rewrite drop_app_length.
  destruct r' as [|c r']; [done|]. byte_case c "$"%byte; [|done]. subst c.
  destruct (negb _) eqn:Hd; [|done]. intros [= <- <-]. exists name. split_and!; try done.
  split; [done|]. intros (d & Hh & Hdig). destruct name as [|x name]; [done|]. simplify_eq/=.
  by rewrite Hdig in Hd.
Qed.

Lemma dollar_tag_None l : ¬ opens_tag l → dollar_tag l = None.
Proof.
  intros H. destruct (dollar_tag l) as [[t r]|] eqn:E; [|done]. exfalso. apply H.
  apply dollar_tag_Some in E as (name & -> & _ & ?). by exists name, r.
Qed.

Lemma strip_prefix_None p l : strip_prefix p l = None ↔ ¬ p `prefix_of` l.
Proof.
  split.
  - intros H [r ->]. by rewrite strip_prefix_app in H.
  - intros H. destruct (strip_prefix p l) as [r|] eqn:E; [|done].
    apply strip_prefix_Some in E as ->. exfalso. apply H. by exists r.
Qed.

Lemma after_first_none p l :
  p ≠ [] → (∀ k, ¬ p `prefix_of` drop k l) → after_first p l = None.
Proof.
  intros Hp. induction l as [|c l IH]; intros H; cbn [after_first].
  - by destruct p.
  - rewrite (proj2 (strip_prefix_None p (c :: l)) (H 0%nat)). apply IH. intros k. apply (H (S k)).
Qed.

Lemma prefix_app_long (p a b : bytes) :
  (length p ≤ length a)%nat → p `prefix_of` a ++ b → p `prefix_of` a.
Proof.
  intros Hl [r Hr]. exists (drop (length p) a).
  assert (take (length p) (a ++ b) = p) as H by (by rewrite Hr, take_app_length).
  rewrite take_app_le in H by done. rewrite <-H at 1. by rewrite take_drop.
Qed.

Lemma after_first_at p body l :
  p ≠ [] → (∀ k, (k < length body)%nat → ¬ p `prefix_of` drop k (body ++ p)) →
  after_first p (body ++ p ++ l) = Some l.
Proof.
  intros Hp. induction body as [|c body IH]; intros H; simpl app.
  - destruct p as [|c p]; [done|]. cbn [app after_first].
    change (c :: p ++ l) with ((c :: p) ++ l). by rewrite strip_prefix_app.
  - cbn [after_first]. destruct (strip_prefix p (c :: body ++ p ++ l)) as [r|] eqn:E.
    + exfalso. apply strip_prefix_Some in E. apply (H 0%nat); [simpl; lia|]. simpl drop.
      apply (prefix_app_long _ _ l); [simpl; rewrite length_app; lia|].
      exists r. rewrite <-app_comm_cons, <-app_assoc. done.
    + apply IH. intros k Hk. apply (H (S k)). simpl. lia.
Qed.

Lemma after_first_Some p l r :
  after_first p l = Some r →
  ∃ body, l = body ++ p ++ r ∧ ∀ k, (k < length body)%nat → ¬ p `prefix_of` drop k (body ++ p).
Proof.
  induction l as [|c l IH]; cbn [after_first].
  - destruct p; [|done]. intros [= <-]. exists []. split; [done|]. simpl. lia.
  - destruct (strip_prefix p (c :: l)) as [r'|] eqn:E.
    + intros [= <-]. apply strip_prefix_Some in E. exists []. split; [done|]. simpl. lia.
    + intros (body & -> & Hk)%IH. exists (c :: body). split; [done|].
      apply strip_prefix_None in E. intros [|k] Hlt Hpre; simpl in Hlt, Hpre; [|apply (Hk k); [lia|done]].
      apply E. destruct Hpre as [x Hx]. exists (x ++ r).
      by rewrite (app_assoc p x r), <-Hx, <-app_comm_cons, <-app_assoc.
Qed.

(** ** The scan *)
Lemma semicolon_plain f prev c l :
  c ∉ [";"; "'"; x22]%byte →
  ¬ (c = "-"%byte ∧ head l = Some "-"%byte) → ¬ (c = "/"%byte ∧ head l = Some "*"%byte) →
  (c = "$"%byte → in_identifier prev = true ∨ ¬ opens_tag l) →
  semicolon_from (S f) prev (c :: l) = semicolon_from f (Some c) l.
Proof.
  intros Hc H1 H2 H3. cbn [semicolon_from]. rewrite !byte_eqb_ne by set_solver.
  byte_case c "$"%byte.
  - destruct (H3 E) as [H|H]; unfold in_identifier in H; [by rewrite H|].
    rewrite dollar_tag_None by done. by destruct (match prev with Some p => _ | None => _ end).
  - replace (byte_eqb c "-" && _)%byte with false; [replace (byte_eqb c "/" && _)%byte with false; [done|]|];
      symmetry; apply andb_false_iff;
      [byte_case c "/"%byte|byte_case c "-"%byte]; try (by left); right; apply bool_decide_eq_false; naive_solver.
Qed.

Lemma length_tag name : length (tag name) = (2 + length name)%nat.
Proof. unfold tag. rewrite !length_app. simpl. lia. Qed.

Lemma semicolon_dollar f prev name l :
  in_identifier prev = false → tag_name name →
  semicolon_from (S f) prev (tag name ++ l) =
  match after_first (tag name) l with None => false | Some r => semicolon_from f (Some "$"%byte) r end.
Proof.
  intros Hp Hn. unfold tag at 1. rewrite <-!app_assoc. cbn [app semicolon_from].
  rewrite (byte_eqb_ne "$" ";")%byte, (byte_eqb_ne "$" "'")%byte, (byte_eqb_ne "$" x22)%byte,
    byte_eqb_refl by done.
  unfold in_identifier in Hp. by rewrite Hp, dollar_tag_opens.
Qed.

Lemma semicolon_line f prev l :
  semicolon_from (S f) prev ("-" :: "-" :: l)%byte
  = semicolon_from f (Some "-"%byte) (to_line_end ("-" :: "-" :: l)%byte).
Proof. done. Qed.

Lemma semicolon_block f prev l :
  semicolon_from (S f) prev ("/" :: "*" :: l)%byte =
  match close_comment 1 l with None => false | Some r => semicolon_from f (Some "/"%byte) r end.
Proof. done. Qed.

(** The scan's verdict on a text cut as [its]. *)
Lemma semicolon_lexes prev l its f :
  lexes prev l its → (length l ≤ f)%nat → semicolon_from f prev l = existsb risky its.
Proof.
  intros H. revert f. induction H as
    [prev|prev l its _ IH|prev body l its Hb Hl _ IH|prev body Hb|prev body l its Hb Hl _ IH
    |prev body Hb|prev name body l its Hp Hn Hk _ IH|prev name body Hp Hn Hk
    |prev body l its Hb Hl _ IH|prev body l its Hb _ IH|prev body Hb
    |prev c l its Hc H1 H2 H3 _ IH];
    intros [|f] Hf; rewrite ?length_cons, ?length_app, ?length_tag in Hf; try (simpl in Hf; lia); try done.
  - cbn [semicolon_from]. rewrite skip_literal_closed by done. cbn [existsb risky fst snd].
    rewrite (bool_decide_ext ("\"%byte ∈ "'"%byte :: body ++ ["'"%byte]) ("\"%byte ∈ body)) by set_solver.
    case_bool_decide; [done|]. rewrite IH by (simpl in Hf; lia). done.
  - cbn [semicolon_from]. rewrite skip_literal_open by done. cbn [existsb risky fst snd].
    rewrite (bool_decide_ext ("\"%byte ∈ "'"%byte :: body) ("\"%byte ∈ body)) by set_solver.
    case_bool_decide; [done|]. by destruct f.
  - cbn [semicolon_from]. rewrite skip_quoted_closed by done. apply IH. simpl in Hf; lia.
  - cbn [semicolon_from]. rewrite skip_quoted_open by done. by destruct f.
  - rewrite semicolon_dollar, after_first_at by (done || by destruct name). apply IH. simpl in Hf; lia.
  - rewrite semicolon_dollar, after_first_none by (done || by destruct name). done.
  - rewrite semicolon_line. change ("-" :: "-" :: body ++ l)%byte with (("-" :: "-" :: body)%byte ++ l).
    rewrite to_line_end_app by (done || set_solver). apply IH. simpl in Hf; lia.
  - rewrite semicolon_block.
    rewrite close_comment_nested by done. apply IH. simpl in Hf; lia.
  - rewrite semicolon_block.
    destruct (close_comment 1 body) as [r|] eqn:E; [|done]. exfalso.
    apply close_comment_Some in E as (b & -> & Hn). apply (Hb (length b)). by rewrite take_app_length.
  - rewrite semicolon_plain by done. apply IH. simpl in Hf; lia.
Qed.

(** ** Every text has a cut *)
Lemma doubled_split q l :
  doubled q l ∨ ∃ body r, l = body ++ q :: r ∧ doubled q body ∧ head r ≠ Some q.
Proof.
  remember (length l) as m eqn:Hm. revert l Hm.
  induction m as [m IH] using lt_wf_ind; intros l ->. destruct l as [|c l]; [left; constructor|].
  destruct (decide (c = q)) as [->|Hc].
  - destruct l as [|d l]; [right; exists [], []; split_and!; by try constructor|].
    destruct (decide (d = q)) as [->|Hd].
    + destruct (IH (length l) ltac:(simpl; lia) l eq_refl) as [H|(b & r & -> & Hb & Hr)];
        [left; by constructor|]. right. exists (q :: q :: b), r. split_and!; [done|by constructor|done].
    + right. exists [], (d :: l). split_and!; [done|constructor|]. by intros [= ->].
  - destruct (IH (length l) ltac:(simpl; lia) l eq_refl) as [H|(b & r & -> & Hb & Hr)];
      [left; by constructor|]. right. exists (c :: b), r. split_and!; [done|by constructor|done].
Qed.

Lemma after_first_None p l : p ≠ [] → after_first p l = None → ∀ k, ¬ p `prefix_of` drop k l.
Proof.
  intros Hp. induction l as [|c l IH]; cbn [after_first].
  - intros _ k. rewrite drop_nil. intros [r Hr]. by destruct p.
  - destruct (strip_prefix p (c :: l)) as [r|] eqn:E; [done|]. apply strip_prefix_None in E.
    intros H [|k]; [done|]. by apply IH.
Qed.

Lemma opens_tag_dec l : opens_tag l ∨ ¬ opens_tag l.
Proof.
  destruct (dollar_tag l) as [[t r]|] eqn:E.
  - apply dollar_tag_Some in E as (name & -> & _ & ?). left. by exists name, r.
  - right. intros (name & r & -> & Hn). by rewrite dollar_tag_opens in E.
Qed.

Lemma lexes_total prev l : ∃ its, lexes prev l its.
Proof.
  remember (length l) as m eqn:Hm. revert prev l Hm.
  induction m as [m IH] using lt_wf_ind; intros prev l ->. destruct l as [|c l]; [by exists []; constructor|].
  assert (Hgo : ∀ p r, (length r ≤ length l)%nat → ∃ its, lexes p r its)
    by (intros p r Hr; apply (IH (length r)); [simpl; lia|done]).
  destruct (decide (c = ";"%byte)) as [->|]; [destruct (Hgo (Some ";"%byte) l) as [its ?]; [lia|];
    eexists; by constructor|].
  destruct (decide (c = "'"%byte)) as [->|].
  { destruct (doubled_split "'"%byte l) as [H|(b & r & -> & Hb & Hr)]; [eexists; by apply lex_string_open|].
    destruct (Hgo (Some "'"%byte) r) as [its ?]; [rewrite length_app; simpl; lia|].
    eexists. by apply lex_string. }
  destruct (decide (c = x22)) as [->|].
  { destruct (doubled_split x22 l) as [H|(b & r & -> & Hb & Hr)]; [eexists; by apply lex_ident_open|].
    destruct (Hgo (Some x22) r) as [its ?]; [rewrite length_app; simpl; lia|].
    eexists. by apply lex_ident. }
  destruct (decide (c = "-" ∧ head l = Some "-")%byte) as [[-> Hl]|H1].
  { destruct l as [|d l]; [done|]. injection Hl as ->.
    destruct (take_while_spec (λ c, negb (byte_eqb c x0a)) l) as (r & Hl & Hw & Hr).
    destruct (Hgo (Some "-"%byte) r) as [its Hits]; [rewrite Hl; simpl; rewrite length_app; lia|].
    rewrite Hl. eexists. apply lex_line; [| |exact Hits].
    - intros Hin. rewrite Forall_forall in Hw. by specialize (Hw _ Hin).
    - destruct r as [|x r]; [by left|right]. specialize (Hr x eq_refl).
      apply negb_false_iff, byte_eqb_true in Hr. by subst. }
  destruct (decide (c = "/" ∧ head l = Some "*")%byte) as [[-> Hl]|H2].
  { destruct l as [|d l]; [done|]. injection Hl as ->.
    destruct (close_comment 1 l) as [r|] eqn:E.
    - apply close_comment_Some in E as (b & -> & Hb).
      destruct (Hgo (Some "/"%byte) r) as [its ?]; [simpl; rewrite length_app; lia|].
      eexists. by apply lex_block.
    - eexists. apply lex_block_open. intros k Hk. apply (close_comment_nested _ _ (drop k l)) in Hk.
      rewrite take_drop in Hk. congruence. }
  destruct (Hgo (Some c) l) as [its Hits]; [done|].
  destruct (decide (c = "$"%byte ∧ in_identifier prev = false)) as [[-> Hp]|Hc].
  - destruct (opens_tag_dec l) as [(name & r & -> & Hn)|Hno];
      [|eexists; apply lex_plain; [set_solver|done..|by right|done]].
    assert (He : ("$" :: name ++ "$" :: r)%byte = tag name ++ r)
      by (unfold tag; by rewrite <-!app_assoc).
    rewrite He. destruct (after_first (tag name) r) as [r'|] eqn:E.
    + apply after_first_Some in E as (b & -> & Hb).
      destruct (Hgo (Some "$"%byte) r') as [its' ?];
        [rewrite ?length_app, ?length_cons, ?length_app; lia|].
      eexists. by apply lex_dollar.
    + eexists. apply lex_dollar_open; [done..|]. apply after_first_None; [by destruct name|done].
  - eexists. apply lex_plain; [set_solver|done..| |done].
    intros ->. left. destruct (in_identifier prev) eqn:E; [done|]. exfalso. by apply Hc.
Qed.

Lemma text_cons i its : text (i :: its) = i.2 ++ text its.
Proof. done. Qed.

Lemma lexes_text prev l its : lexes prev l its → text its = l.
Proof.
  induction 1; rewrite ?text_cons; cbn [snd]; rewrite ?IHlexes; try done;
    try (unfold text; simpl; rewrite ?app_nil_r; done).
  all: rewrite <-?app_comm_cons, <-?app_assoc; done.
Qed.

(** The semicolon scan agrees with PostgreSQL's lexical rules: every text has a
    cut into literals, quoted identifiers, dollar quotes, comments and plain bytes,
    and the scan answers true exactly when the cut holds a separating semicolon or
    (its one deliberate excess) a literal with a backslash. *)
Lemma semicolon_scan_follows_the_lexer (query : bytes) :
  (∃ its, lexes None query its) ∧
  ∀ its, lexes None query its →
         text its = query ∧ has_top_level_semicolon query = existsb risky its.
Proof.
  split; [apply lexes_total|]. intros its H. split; [by apply (lexes_text _ _ _ H)|].
  by apply (semicolon_lexes _ _ _ _ H).
Qed.

(** ** Statements that lead with a session keyword *)

(** White space and comments. *)
Inductive blank : bytes → Prop :=
| blank_nil : blank []
| blank_space c b : is_ascii_whitespace c = true → blank b → blank (c :: b)
| blank_line body b : x0a ∉ body → blank b → blank ("-" :: "-" :: body ++ x0a :: b)%byte
| blank_block body b : nested 1 body → blank b → blank ("/" :: "*" :: body ++ b)%byte.

(** A cut up to a semicolon does not depend on what follows it. *)
Lemma opens_tag_semicolon a x y : opens_tag (a ++ ";"%byte :: x) → opens_tag (a ++ ";"%byte :: y).
Proof.
  intros (name & r & E & Hn).
  assert (∃ r', a = name ++ "$"%byte :: r') as [r' ->].
  { revert a E. destruct Hn as [Hn _]. induction Hn as [|c name Hc _ IH]; intros [|d a] E;
      try discriminate E; injection E; [intros _ ->; by exists a|intros -> <-; discriminate Hc|].
    intros E' <-. destruct (IH a E') as [r' ->]. by exists r'. }
  exists name, (r' ++ ";"%byte :: y). split; [|done]. by rewrite <-app_assoc.
Qed.

Lemma text_app its1 its2 : text (its1 ++ its2) = text its1 ++ text its2.
Proof. apply bind_app. Qed.

Definition semi : item := (Semi, [";"%byte]).

Lemma head_app_semicolon (a x y : bytes) : head (a ++ ";"%byte :: x) = head (a ++ ";"%byte :: y).
Proof. by destruct a. Qed.

Lemma lexes_before_semicolon prev l its its1 its2 :
  lexes prev l its → its = its1 ++ semi :: its2 →
  ∀ y, ∃ its', lexes prev (text its1 ++ ";"%byte :: y) (its1 ++ semi :: its').
Proof.
  intros H. revert its1. induction H as
    [prev|prev l its H IH|prev body l its Hb Hl H IH|prev body Hb|prev body l its Hb Hl H IH
    |prev body Hb|prev name body l its Hp Hn Hk H IH|prev name body Hp Hn Hk
    |prev body l its Hb Hl H IH|prev body l its Hb H IH|prev body Hb
    |prev c l its Hc H1 H2 H3 H IH];
    intros [|i its1] E y; simplify_eq/=; try (by destruct its1);
    try (destruct (lexes_total (Some ";"%byte) y) as [its' Hy]; exists its'; exact (lex_semi prev y its' Hy));
    destruct (IH its1 eq_refl y) as [its' Hits]; exists its';
    assert (El : l = text its1 ++ ";"%byte :: text its2)
      by (by rewrite <-(lexes_text _ _ _ H), text_app, text_cons);
    rewrite ?text_cons; cbn [snd]; rewrite <-?app_assoc; cbn [app];
    try rewrite El in Hl; try rewrite El in H1, H2, H3;
    try rewrite (head_app_semicolon _ _ y) in Hl; try rewrite (head_app_semicolon _ _ y) in H1, H2.
  - by apply lex_semi.
  - rewrite <-?app_assoc. by apply lex_string.
  - rewrite <-?app_assoc. by apply lex_ident.
  - pose proof (lex_dollar prev name body _ _ Hp Hn Hk Hits) as R. revert R.
    unfold tag. by rewrite <-!app_assoc.
  - apply lex_line; [done| |done]. right. destruct Hl as [Hl|Hl]; [by destruct (text its1)|done].
  - by apply lex_block.
  - apply lex_plain; [done..| |done]. intros Hd. destruct (H3 Hd) as [?|Hno]; [by left|right].
    intros Ho. apply Hno. by apply (opens_tag_semicolon _ y).
Qed.

Lemma existsb_semi its1 its2 : existsb risky (its1 ++ semi :: its2) = true.
Proof. rewrite existsb_app. simpl. apply orb_true_r. Qed.

(** A semicolon the lexer sees is found whatever follows. *)
Lemma semicolon_found l its1 its2 y :
  lexes None l (its1 ++ semi :: its2) →
  has_top_level_semicolon (text its1 ++ ";"%byte :: y) = true.
Proof.
  intros H. destruct (lexes_before_semicolon _ _ _ _ _ H eq_refl y) as [its' Hits].
  unfold has_top_level_semicolon. by rewrite (semicolon_lexes _ _ _ _ Hits), existsb_semi.
Qed.

(** *** Leading keyword *)
Lemma drop_while_stop p l : (∀ c, head l = Some c → p c = false) → drop_while p l = l.
Proof. intros H. by apply (drop_while_app p [] l). Qed.

Lemma word_not_ws c : word c = true → is_ascii_whitespace c = false.
Proof. by destruct c. Qed.

Lemma skip_blank_word f l c : word c = true → head l = Some c → skip_blank (S f) l = Some l.
Proof.
  intros Hc Hl. destruct l as [|d l]; [done|]. injection Hl as ->. cbn [skip_blank].
  rewrite drop_while_stop by (intros ? [= <-]; by apply word_not_ws).
  destruct l as [|e l]; [done|].
  rewrite (byte_eqb_ne c "-"%byte), (byte_eqb_ne c "/"%byte) by (intros ->; done). done.
Qed.

Lemma skip_blank_app b l c f :
  blank b → word c = true → head l = Some c → (length b < f)%nat → skip_blank f (b ++ l) = Some l.
Proof.
  intros Hb Hc Hl. revert f. induction Hb as [|d b Hd Hb IH|body b Hbody Hb IH|body b Hbody Hb IH];
    intros [|f] Hf; simpl in Hf; try lia.
  - by apply (skip_blank_word _ _ c).
  - specialize (IH (S f) ltac:(lia)). revert IH. cbn [app skip_blank drop_while]. by rewrite Hd.
  - rewrite length_app in Hf. simpl in Hf. cbn [app skip_blank].
    rewrite drop_while_stop by (by intros ? [= <-]). cbn [byte_eqb]. simpl bool_decide. cbn [andb].
    rewrite <-app_assoc. change ("-" :: "-" :: body ++ (x0a :: b) ++ l)%byte
      with (("-" :: "-" :: body)%byte ++ (x0a :: b) ++ l).
    rewrite to_line_end_app by (by right || set_solver).
    specialize (IH f ltac:(lia)). revert IH. destruct f as [|f]; [lia|]. done.
  - rewrite length_app in Hf. cbn [app skip_blank].
    rewrite drop_while_stop by (by intros ? [= <-]). simpl bool_decide. cbn [andb byte_eqb].
    rewrite <-app_assoc, close_comment_nested by done. apply IH. lia.
Qed.

Lemma first_keyword_after_blank b kw rest :
  blank b → is_word kw → boundary (head rest) = true →
  first_statement_keyword (b ++ kw ++ rest) = Some kw.
Proof.
  intros Hb [Hne Hw] Hr. unfold first_statement_keyword. destruct kw as [|c kw]; [done|].
  rewrite (skip_blank_app b _ c) by
    (done || (by inversion Hw) || (rewrite length_app; lia)).
  cbn [mbind option_bind]. rewrite take_while_app; [done|done|].
  intros d Hd. rewrite Hd in Hr. simpl in Hr. by apply negb_true_iff.
Qed.

(** *** Tokens inside a text *)
Lemma contains_from_app prev a l token :
  matches_at (match last a with Some c => Some c | None => prev end) l token = true → l ≠ [] →
  contains_from prev (a ++ l) token = true.
Proof.
  intros Hm Hl. revert prev Hm. induction a as [|c a IH]; intros prev Hm; simpl.
  - destruct l as [|d l]; [done|]. cbn [last] in Hm. cbn [contains_from]. by rewrite Hm.
  - rewrite IH; [by rewrite orb_true_r|]. rewrite last_cons in Hm. by destruct (last a).
Qed.

Lemma nested_last d b : nested d b → ∀ c, last b = Some c → c = "/"%byte ∨ d = O.
Proof.
  induction 1 as [|d b H IH|d b H IH|d c b _ _ H IH]; intros x Hx.
  - by right.
  - left. rewrite !last_cons in Hx. destruct (last b) eqn:E; simplify_eq; [|done].
    destruct (IH _ eq_refl) as [->| ->]; [done|]. inversion H; subst. done.
  - left. rewrite !last_cons in Hx. destruct (last b) eqn:E; simplify_eq.
    + by destruct (IH _ eq_refl).
    + apply last_None in E as ->. inversion H.
  - left. rewrite last_cons in Hx. destruct (last b) eqn:E; simplify_eq.
    + by destruct (IH _ eq_refl).
    + apply last_None in E as ->. inversion H.
Qed.

Lemma blank_last b c : blank b → last b = Some c → word c = false.
Proof.
  intros Hb. revert c. induction Hb as [|d b Hd Hb IH|body b Hbody Hb IH|body b Hbody Hb IH]; intros c Hl.
  - done.
  - rewrite last_cons in Hl. destruct (last b) eqn:E; simplify_eq; [by apply IH|].
    destruct (word c) eqn:Ew; [|done]. apply word_not_ws in Ew. congruence.
  - change ("-" :: "-" :: body ++ x0a :: b)%byte with (("-" :: "-" :: body)%byte ++ x0a :: b) in Hl.
    rewrite last_app, last_cons in Hl. destruct (last b) eqn:E; simplify_eq; [by apply IH|done].
  - change ("/" :: "*" :: body ++ b)%byte with (("/" :: "*" :: body)%byte ++ b) in Hl.
    rewrite last_app in Hl. destruct (last b) eqn:E; simplify_eq; [by apply IH|].
    rewrite !last_cons in Hl. destruct (last body) eqn:E'; simplify_eq; [|done].
    by destruct (nested_last _ _ Hbody _ E') as [->|].
Qed.

(** *** Trimming *)
Lemma drop_while_suffix p l : ∃ a, l = a ++ drop_while p l ∧ Forall (λ c, p c = true) a.
Proof.
  induction l as [|c l (a & Ha & Hp)]; simpl; [by exists []|]. destruct (p c) eqn:E.
  - exists (c :: a). split; [by rewrite <-app_comm_cons, <-Ha|by constructor].
  - by exists [].
Qed.

Lemma trim_end_keeps a c r :
  byte_eqb c ";"%byte || is_ascii_whitespace c = false →
  ∃ r', trim_end_statement (a ++ c :: r) = a ++ c :: r'.
Proof.
  intros Hc. unfold trim_end_statement. rewrite reverse_app, reverse_cons, <-app_assoc. cbn [app].
  set (p := λ c, byte_eqb c ";"%byte || is_ascii_whitespace c).
  destruct (drop_while_suffix p (reverse r)) as (s & Hs & Hp).
  assert (drop_while p (reverse r ++ c :: reverse a) =
          drop_while p (reverse r) ++ c :: reverse a) as ->.
  { assert (∀ u, drop_while p (u ++ c :: reverse a) = drop_while p u ++ c :: reverse a) as ->; [|done].
    induction u as [|x u IH]; simpl; [by unfold p at 1; rewrite Hc|]. by destruct (p x). }
  exists (reverse (drop_while p (reverse r))).
  by rewrite reverse_app, reverse_cons, reverse_involutive, <-app_assoc.
Qed.

(** No statement that leads with a session keyword escapes the prefilter: after
    white space and comments, at the start of the text or after a separating
    semicolon, a keyword in any case as a whole word sends the text to the
    analyzer, whatever surrounds it. *)
Lemma prefilter_sees_every_statement (before b kw after key : bytes) :
  blank b → key ∈ SESSION_KEYWORDS → eq_ignore_ascii_case kw key = true →
  boundary (head after) = true →
  (before = [] ∨
   ∃ its1 its2, before = text its1 ++ [";"%byte] ∧
     lexes None (before ++ b ++ kw ++ after) (its1 ++ semi :: its2)) →
  might_contain_session_state_command (before ++ b ++ kw ++ after) = true.
Proof.
  intros Hb Hkey Heq Hafter Hbefore.
  unfold might_contain_session_state_command, leading_statement_keyword_matches.
  assert (Hword : is_word key).
  { assert (Forall is_word SESSION_KEYWORDS) as HF by (repeat constructor; done).
    rewrite Forall_forall in HF. by apply HF. }
  assert (Hlen := eq_ignore_ascii_case_length _ _ Heq).
  assert (Hkw : is_word kw).
  { destruct Hword as [Hne Hw]. split; [intros ->; by destruct key|].
    apply Forall_lookup. intros i c Hc. rewrite Forall_lookup in Hw.
    destruct (lookup_lt_is_Some_2 key i) as [d Hd]; [apply lookup_lt_Some in Hc; lia|].
    rewrite (eq_ignore_case_lookup _ _ _ _ _ Heq Hc Hd). by apply (Hw i). }
  destruct Hbefore as [->|(its1 & its2 & -> & Hlex)].
  { cbn [app]. rewrite first_keyword_after_blank by done. apply orb_true_iff. left.
    apply existsb_exists. exists key. split; [by apply list_elem_of_In|done]. }
  apply orb_true_iff. right. apply andb_true_iff. split.
  - destruct kw as [|c kw]; [by destruct Hkw|].
    destruct (trim_end_keeps ((text its1 ++ [";"%byte]) ++ b) c (kw ++ after)) as [r' Hr].
    { destruct Hkw as [_ Hw]. apply Forall_cons in Hw as [Hc _].
      rewrite (word_not_ws _ Hc), byte_eqb_ne; [done|]. by intros ->. }
    rewrite <-app_assoc in Hr. cbn [app] in *. rewrite Hr, <-!app_assoc. cbn [app].
    by apply (semicolon_found _ _ _ _ Hlex).
  - apply existsb_exists. exists key. split; [by apply list_elem_of_In|].
    unfold contains_token_ci. destruct key as [|k0 key]; [by destruct Hword|].
    rewrite app_assoc. apply contains_from_app; [|destruct kw; [by destruct Hkw|done]].
    unfold matches_at. rewrite <-Hlen, take_app_length, Heq, lookup_app_r, Nat.sub_diag by lia.
    rewrite <-head_lookup, Hafter. cbn [andb]. rewrite andb_true_r.
    destruct (last _) as [c|] eqn:E; [|done]. cbn [boundary]. apply negb_true_iff.
    rewrite last_app in E. destruct (last b) eqn:Eb; simplify_eq; [by apply (blank_last b)|].
    rewrite last_snoc in E. by simplify_eq.
Qed.

Lemma prefilter_sees_every_statement_witness :
  might_contain_session_state_command (lit "SELECT 'a;b';" ++ lit " /* x */ " ++ lit "Set" ++ lit " x = 1") = true.
Proof.
  apply (prefilter_sees_every_statement _ _ _ _ (lit "set")).
  - apply blank_space; [done|]. apply (blank_block (lit " x */") (lit " ")).
    + repeat first [apply nested_close | apply nested_done | apply nested_byte; [by intros [? ?]..|]].
    + apply blank_space; [done|constructor].
  - apply list_elem_of_here.
  - done.
  - done.
  - right. destruct (lexes_total None (lit "SELECT 'a;b'; /* x */ Set x = 1")) as [its H].
    exists (map (λ c, (Plain, [c])) (lit "SELECT ") ++ [(Str, lit "'a;b'")]).
    destruct (lexes_total (Some ";"%byte) (lit " /* x */ Set x = 1")) as [its2 H2]. exists its2.
    split; [done|]. simpl.
    do 7 (apply lex_plain; [set_solver|by intros [? ?]..|done|]).
    apply (lex_string _ (lit "a;b")); [by repeat constructor|done|]. by constructor.
Defined.

(** ** Where the rules above are not PostgreSQL's

    PostgreSQL's scanner ends a line comment at a carriage return too, and counts a
    vertical tab as white space; the prefilter does neither, so a session [SET] behind
    one is never analyzed. *)
Lemma carriage_return_hides_a_set :
  ∀ query, query ∈ [lit "-- c" ++ [x0d] ++ lit "SET search_path = x";
                    [x0b] ++ lit "SET search_path = x"] →
  might_contain_session_state_command query = false ∧
  query_keyword_flags query = QueryKeywordFlags_ false false false.
Proof. intros query Hq. repeat (apply elem_of_cons in Hq as [->|Hq]; [by vm_compute|]). by apply not_elem_of_nil in Hq. Qed.
