(* ===== verification/ClientSession.v ===== *)
(** * One client session's tracked state ([src/gateway/connection.rs],
    [src/gateway/session_replay.rs])

    What the gateway knows of a session ([ConnectionState]), how a backend's answers
    settle the requests it is owed ([acknowledge]), and the registry of connections
    with its cancel routes and gauges.

    Hash maps and sets are [gmap] and [gset].  A lock section is one function.  The
    registry's counters are [usize] atomics: 64 bits, wrapping.  Cache-line padding,
    metrics and log lines are left out. *)

From S2P Require Import Prelude Text Net Wire.

Inductive ProxyMode := Normal | CopyStreaming | SslPassthrough.
#[global] Instance ProxyMode_eq_dec : EqDecision ProxyMode.
Proof. solve_decision. Defined.
Definition ProxyMode_is_migratable (m : ProxyMode) : bool :=
  match m with Normal => true | _ => false end.

Inductive SslMode := Disabled | Terminated | Passthrough.

Module ReplayChange.
Inductive t : Type :=
| Listen (channel : bytes)
| Unlisten (channel : bytes)
| UnlistenAll
| Deallocate (name : bytes)
| DeallocateAll
| DiscardAll.
#[global] Instance eq_dec : EqDecision t.
Proof. solve_decision. Defined.
End ReplayChange.

Module Awaited.
Inductive t : Type :=
| Parse (capture : option (bytes * bytes))
| Close (name : option bytes)
| Ready (changes : list ReplayChange.t) (controls_transaction : bool).
Definition ready : t := Ready [] false.
End Awaited.

Module Ack.
Inductive t : Type :=
| ParseComplete
| CloseComplete
| Error
| Ready (status : TransactionStatus).
#[global] Instance eq_dec : EqDecision t.
Proof. solve_decision. Defined.
End Ack.

Record BackendKey := BackendKey_ { pid : Z; secret : bytes }.
#[global] Instance BackendKey_eq_dec : EqDecision BackendKey.
Proof. solve_decision. Defined.
#[global] Program Instance BackendKey_countable : Countable BackendKey :=
  inj_countable' (λ k, (pid k, secret k)) (λ p, BackendKey_ p.1 p.2) _.
Next Obligation. by intros []. Qed.

Record CancelRoute := CancelRoute_ { addr : SocketAddr; key : BackendKey }.

(** [subscriptions.channels] and [replay.prepared] are fields of their own. *)
Record ConnectionState := ConnectionState_ {
  id : Z;
  bytes_sent : Z;
  bytes_received : Z;
  queries_processed : Z;
  tx_status : TransactionStatus;
  proxy_mode : ProxyMode;
  ssl_mode : SslMode;
  backend_addr : option SocketAddr;
  created_at : Z;
  channels : gset bytes;
  prepared : gmap bytes bytes;
  backend_key : option BackendKey;
  awaiting : list Awaited.t;
  extended_unsynced : bool;
  not_migratable : bool
}.

Definition ConnectionState_new (id now : Z) : ConnectionState :=
  ConnectionState_ id 0 0 0 Idle Normal Disabled None now ∅ ∅ None [] false false.

(** Field updates. *)
Definition with_counts (sent received queries : Z) (s : ConnectionState) : ConnectionState :=
  ConnectionState_ (id s) sent received queries (tx_status s) (proxy_mode s) (ssl_mode s)
    (backend_addr s) (created_at s) (channels s) (prepared s) (backend_key s) (awaiting s)
    (extended_unsynced s) (not_migratable s).
Definition with_tx_status (t : TransactionStatus) (s : ConnectionState) : ConnectionState :=
  ConnectionState_ (id s) (bytes_sent s) (bytes_received s) (queries_processed s) t (proxy_mode s)
    (ssl_mode s) (backend_addr s) (created_at s) (channels s) (prepared s) (backend_key s) (awaiting s)
    (extended_unsynced s) (not_migratable s).
Definition with_proxy_mode (m : ProxyMode) (s : ConnectionState) : ConnectionState :=
  ConnectionState_ (id s) (bytes_sent s) (bytes_received s) (queries_processed s) (tx_status s) m
    (ssl_mode s) (backend_addr s) (created_at s) (channels s) (prepared s) (backend_key s) (awaiting s)
    (extended_unsynced s) (not_migratable s).
Definition with_ssl_mode (m : SslMode) (s : ConnectionState) : ConnectionState :=
  ConnectionState_ (id s) (bytes_sent s) (bytes_received s) (queries_processed s) (tx_status s)
    (proxy_mode s) m (backend_addr s) (created_at s) (channels s) (prepared s) (backend_key s)
    (awaiting s) (extended_unsynced s) (not_migratable s).
Definition with_backend_addr (a : option SocketAddr) (s : ConnectionState) : ConnectionState :=
  ConnectionState_ (id s) (bytes_sent s) (bytes_received s) (queries_processed s) (tx_status s)
    (proxy_mode s) (ssl_mode s) a (created_at s) (channels s) (prepared s) (backend_key s) (awaiting s)
    (extended_unsynced s) (not_migratable s).
Definition with_backend_key (k : option BackendKey) (s : ConnectionState) : ConnectionState :=
  ConnectionState_ (id s) (bytes_sent s) (bytes_received s) (queries_processed s) (tx_status s)
    (proxy_mode s) (ssl_mode s) (backend_addr s) (created_at s) (channels s) (prepared s) k (awaiting s)
    (extended_unsynced s) (not_migratable s).
Definition with_replay (c : gset bytes) (p : gmap bytes bytes) (s : ConnectionState) : ConnectionState :=
  ConnectionState_ (id s) (bytes_sent s) (bytes_received s) (queries_processed s) (tx_status s)
    (proxy_mode s) (ssl_mode s) (backend_addr s) (created_at s) c p (backend_key s) (awaiting s)
    (extended_unsynced s) (not_migratable s).
Definition with_awaiting (a : list Awaited.t) (s : ConnectionState) : ConnectionState :=
  ConnectionState_ (id s) (bytes_sent s) (bytes_received s) (queries_processed s) (tx_status s)
    (proxy_mode s) (ssl_mode s) (backend_addr s) (created_at s) (channels s) (prepared s) (backend_key s)
    a (extended_unsynced s) (not_migratable s).
Definition with_unsynced (u : bool) (s : ConnectionState) : ConnectionState :=
  ConnectionState_ (id s) (bytes_sent s) (bytes_received s) (queries_processed s) (tx_status s)
    (proxy_mode s) (ssl_mode s) (backend_addr s) (created_at s) (channels s) (prepared s) (backend_key s)
    (awaiting s) u (not_migratable s).
Definition ratchet (s : ConnectionState) : ConnectionState :=
  ConnectionState_ (id s) (bytes_sent s) (bytes_received s) (queries_processed s) (tx_status s)
    (proxy_mode s) (ssl_mode s) (backend_addr s) (created_at s) (channels s) (prepared s) (backend_key s)
    (awaiting s) (extended_unsynced s) true.

Definition response_pending (s : ConnectionState) : bool :=
  negb (bool_decide (length (awaiting s) = 0%nat)) || extended_unsynced s.

Definition is_migratable (s : ConnectionState) : bool :=
  TransactionStatus_is_migratable (tx_status s) && ProxyMode_is_migratable (proxy_mode s)
  && negb (response_pending s) && negb (not_migratable s).

(** ** Answers *)
Definition MAX_TRACKED_PREPARED_STATEMENTS : Z := 1024.
Definition MAX_TRACKED_PREPARED_BYTES : Z := 4 * 1024 * 1024.

Definition mark_unknowable (s : ConnectionState) : ConnectionState := ratchet s.

Definition out_of_step (s : ConnectionState) : ConnectionState := mark_unknowable (with_awaiting [] s).

(** The bytes of the tracked statements. *)
Definition total_bytes (p : gmap bytes bytes) : Z :=
  map_fold (λ _ held sum, sum + Z.of_nat (length held)) 0 p.

Definition commit_capture (s : ConnectionState) (name msg : bytes) : ConnectionState :=
  let kept := total_bytes (delete name (prepared s)) in
  let over_count :=
    bool_decide (prepared s !! name = None)
    && (MAX_TRACKED_PREPARED_STATEMENTS <=? Z.of_nat (size (prepared s))) in
  if over_count || (MAX_TRACKED_PREPARED_BYTES <? kept + Z.of_nat (length msg)) then mark_unknowable s
  else with_replay (channels s) (<[name := msg]> (prepared s)) s.

Definition apply_change (r : gset bytes * gmap bytes bytes) (change : ReplayChange.t)
    : gset bytes * gmap bytes bytes :=
  let '(channels, prepared) := r in
  match change with
  | ReplayChange.Listen channel => ({[channel]} ∪ channels, prepared)
  | ReplayChange.Unlisten channel => (channels ∖ {[channel]}, prepared)
  | ReplayChange.UnlistenAll => (∅, prepared)
  | ReplayChange.Deallocate name => (channels, delete name prepared)
  | ReplayChange.DeallocateAll => (channels, ∅)
  | ReplayChange.DiscardAll => (∅, ∅)
  end.
Definition apply_changes (s : ConnectionState) (changes : list ReplayChange.t) : ConnectionState :=
  let '(c, p) := foldl apply_change (channels s, prepared s) changes in with_replay c p s.

(** The awaited requests after those the backend skips up to its Sync. *)
Fixpoint strip (a : list Awaited.t) : list Awaited.t :=
  match a with (Awaited.Parse _ | Awaited.Close _) :: a' => strip a' | _ => a end.

Definition acknowledge (s : ConnectionState) (ack : Ack.t) : ConnectionState :=
  match ack with
  | Ack.ParseComplete =>
      match awaiting s with
      | Awaited.Parse capture :: a =>
          let s := with_awaiting a s in
          match capture with Some (name, msg) => commit_capture s name msg | None => s end
      | _ => out_of_step s
      end
  | Ack.CloseComplete =>
      match awaiting s with
      | Awaited.Close name :: a =>
          let s := with_awaiting a s in
          match name with
          | Some name => with_replay (channels s) (delete name (prepared s)) s
          | None => s
          end
      | _ => out_of_step s
      end
  | Ack.Error =>
      match strip (awaiting s) with
      | Awaited.Ready ((_ :: _) as changes) controls :: a =>
          mark_unknowable (with_awaiting (Awaited.Ready [] controls :: a) s)
      | a => with_awaiting a s
      end
  | Ack.Ready status =>
      match awaiting s with
      | Awaited.Ready ((_ :: _) as changes) controls :: a =>
          let s := with_awaiting a s in
          if bool_decide (status = Idle) && negb controls then apply_changes s changes
          else mark_unknowable s
      | Awaited.Ready [] _ :: a => with_awaiting a s
      | [] => s
      | _ => out_of_step s
      end
  end.

(** ** The registry

    [connections] holds each registered connection's shared state. *)
Record ConnectionRegistry := ConnectionRegistry_ {
  connections : gmap Z ConnectionState;
  backend_keys : gmap BackendKey CancelRoute;
  next_conn_id : Z;
  idle_count : Z;
  in_transaction_count : Z;
  copy_streaming_count : Z
}.

Definition ConnectionRegistry_new : ConnectionRegistry := ConnectionRegistry_ ∅ ∅ 1 0 0 0.

Definition with_keys (k : gmap BackendKey CancelRoute) (r : ConnectionRegistry) : ConnectionRegistry :=
  ConnectionRegistry_ (connections r) k (next_conn_id r) (idle_count r) (in_transaction_count r)
    (copy_streaming_count r).
Definition with_connections (c : gmap Z ConnectionState) (r : ConnectionRegistry) : ConnectionRegistry :=
  ConnectionRegistry_ c (backend_keys r) (next_conn_id r) (idle_count r) (in_transaction_count r)
    (copy_streaming_count r).
Definition with_gauges (idle busy copy : Z) (r : ConnectionRegistry) : ConnectionRegistry :=
  ConnectionRegistry_ (connections r) (backend_keys r) (next_conn_id r) idle busy copy.

Definition register_backend_key (k : BackendKey) (route : CancelRoute) (r : ConnectionRegistry)
    : ConnectionRegistry := with_keys (<[k := route]> (backend_keys r)) r.
Definition unregister_backend_key (k : BackendKey) (r : ConnectionRegistry) : ConnectionRegistry :=
  with_keys (delete k (backend_keys r)) r.
Definition lookup_backend_for_cancel (pid : Z) (secret : bytes) (r : ConnectionRegistry)
    : option CancelRoute := backend_keys r !! BackendKey_ pid secret.

(** [fetch_add] and [fetch_sub]. *)
Definition usize_add (a b : Z) : Z := (a + b) mod 2 ^ 64.
Definition usize_sub (a b : Z) : Z := (a - b) mod 2 ^ 64.

Definition next_id (r : ConnectionRegistry) : ConnectionRegistry * Z :=
  (ConnectionRegistry_ (connections r) (backend_keys r) (usize_add (next_conn_id r) 1) (idle_count r)
     (in_transaction_count r) (copy_streaming_count r), next_conn_id r).

Definition register (s : ConnectionState) (r : ConnectionRegistry) : ConnectionRegistry :=
  with_gauges (usize_add (idle_count r) 1) (in_transaction_count r) (copy_streaming_count r)
    (with_connections (<[id s := s]> (connections r)) r).

(** The idle and in-transaction gauges, one connection less at [old], one more at [new]. *)
Definition leave (old : TransactionStatus) (idle busy : Z) : Z * Z :=
  match old with Idle => (usize_sub idle 1, busy) | _ => (idle, usize_sub busy 1) end.
Definition enter (new : TransactionStatus) (idle busy : Z) : Z * Z :=
  match new with Idle => (usize_add idle 1, busy) | _ => (idle, usize_add busy 1) end.
Definition leave_copy (old : ProxyMode) (copy : Z) : Z :=
  if bool_decide (old = CopyStreaming) && (0 <? copy) then usize_sub copy 1 else copy.

Definition unregister (cid : Z) (r : ConnectionRegistry) : ConnectionRegistry :=
  match connections r !! cid with
  | None => r
  | Some s =>
      let '(idle, busy) := leave (tx_status s) (idle_count r) (in_transaction_count r) in
      with_gauges idle busy (leave_copy (proxy_mode s) (copy_streaming_count r))
        (with_connections (delete cid (connections r)) r)
  end.

(** On the shared state of a connection the caller holds. *)
Definition update_tx_status_on (s : ConnectionState) (new : TransactionStatus) (r : ConnectionRegistry)
    : ConnectionRegistry * ConnectionState :=
  if bool_decide (tx_status s = new) then (r, s)
  else
    let '(idle, busy) := leave (tx_status s) (idle_count r) (in_transaction_count r) in
    let '(idle, busy) := enter new idle busy in
    (with_gauges idle busy (copy_streaming_count r) r, with_tx_status new s).

Definition update_proxy_mode_on (s : ConnectionState) (new : ProxyMode) (r : ConnectionRegistry)
    : ConnectionRegistry * ConnectionState :=
  if bool_decide (proxy_mode s = new) then (r, s)
  else
    let copy := leave_copy (proxy_mode s) (copy_streaming_count r) in
    let copy := if bool_decide (new = CopyStreaming) then usize_add copy 1 else copy in
    (with_gauges (idle_count r) (in_transaction_count r) copy r, with_proxy_mode new s).

(** By connection id. *)
Definition update_tx_status_fast (cid : Z) (new : TransactionStatus) (r : ConnectionRegistry)
    : ConnectionRegistry :=
  match connections r !! cid with
  | None => r
  | Some s =>
      let '(r, s) := update_tx_status_on s new r in with_connections (<[cid := s]> (connections r)) r
  end.
Definition update_proxy_mode_fast (cid : Z) (new : ProxyMode) (r : ConnectionRegistry)
    : ConnectionRegistry :=
  match connections r !! cid with
  | None => r
  | Some s =>
      let '(r, s) := update_proxy_mode_on s new r in with_connections (<[cid := s]> (connections r)) r
  end.
Definition connection_count (r : ConnectionRegistry) : nat := size (connections r).
