(* ===== verification/ClientSessionProofs.v ===== *)
(** * What the gateway replays is what the backend had

    [Backend] specifies a PostgreSQL session as the frontend/backend protocol
    documents it: requests are served in order, each answered by the messages the
    gateway counts; an error in an extended batch skips to its Sync.  [Sys] is that
    session with the gateway's view of it and the answers in flight between them.
    The refinement: whenever the gateway may migrate the session, the statements and
    channels it would replay are exactly the backend's.

    The simulation is [instep]: played on the gateway's state, the answers in flight
    lead to a state that matches the backend's queue.  Two ways out of step are
    covered: the gateway awaits an answer that will never come ([Sys_inv]'s second
    case), or it still awaits a request the backend skips ([doomed]); in both the
    session stays unmigratable. *)

From S2P Require Import Prelude Text Net Wire ClientSession.
From Stdlib Require Import Setoid Morphisms.

(** ** The backend *)
Module Backend.
Inductive request : Type :=
| Parse (name msg : bytes)
| Close (name : option bytes)
| Query (changes : list ReplayChange.t) (controls : bool)
| Sync
| FunctionCall
| Work.

(** [loose]: a statement the gateway does not model ran, or may have; what the
    session holds can change at any time from then on. *)
Record t : Type := t_ {
  prepared : gmap bytes bytes;
  channels : gset bytes;
  tx : TransactionStatus;
  skipping : bool;
  loose : bool;
  queue : list request
}.
Definition start : t := t_ ∅ ∅ Idle false false [].

Definition is_sync (r : request) : bool := match r with Sync => true | _ => false end.

(** Serving the oldest request: the answers, and the state after.  The unnamed
    statement (empty name) is not part of what a replay restores. *)
Inductive serve : t → list Ack.t → t → Prop :=
| serve_skip p c tx l r q :
    is_sync r = false → serve (t_ p c tx true l (r :: q)) [] (t_ p c tx true l q)
| serve_parse p c tx l name msg q :
    p !! name = None →
    serve (t_ p c tx false l (Parse name msg :: q)) [Ack.ParseComplete]
      (t_ (if bool_decide (name = []) then p else <[name := msg]> p) c tx false l q)
| serve_close p c tx l name q :
    serve (t_ p c tx false l (Close name :: q)) [Ack.CloseComplete]
      (t_ (match name with Some n => delete n p | None => p end) c tx false l q)
| serve_work p c tx tx' l q :
    serve (t_ p c tx false l (Work :: q)) [] (t_ p c tx' false l q)
| serve_extended_error p c tx tx' l r q :
    (r = Work ∨ (∃ name msg, r = Parse name msg) ∨ ∃ name, r = Close name) →
    serve (t_ p c tx false l (r :: q)) [Ack.Error] (t_ p c tx' true l q)
| serve_query p c l changes q :
    let pc := foldl apply_change (c, p) changes in
    serve (t_ p c Idle false l (Query changes false :: q)) [Ack.Ready Idle]
      (t_ pc.2 pc.1 Idle false l q)
| serve_query_in_block p c tx tx' l changes controls q :
    tx ≠ Idle ∨ controls = true → (controls = false → tx' ≠ Idle) →
    serve (t_ p c tx false l (Query changes controls :: q)) [Ack.Ready tx']
      (t_ p c tx' false (l || negb (bool_decide (changes = []))) q)
| serve_query_error p c tx tx' l changes controls q :
    serve (t_ p c tx false l (Query changes controls :: q)) [Ack.Error; Ack.Ready tx']
      (t_ p c tx' false (l || negb (bool_decide (changes = []))) q)
| serve_sync p c tx tx' skipping l q :
    serve (t_ p c tx skipping l (Sync :: q)) [Ack.Ready tx'] (t_ p c tx' false l q)
| serve_sync_error p c tx tx' l q :
    serve (t_ p c tx false l (Sync :: q)) [Ack.Error; Ack.Ready tx'] (t_ p c tx' false l q)
| serve_sync_in_copy p c tx l q :
    serve (t_ p c tx false l (Sync :: q)) [] (t_ p c tx false l q)
| serve_call p c tx tx' l q :
    serve (t_ p c tx false l (FunctionCall :: q)) [Ack.Ready tx'] (t_ p c tx' false l q)
| serve_call_error p c tx tx' l q :
    serve (t_ p c tx false l (FunctionCall :: q)) [Ack.Error; Ack.Ready tx'] (t_ p c tx' false l q)
| serve_drift p c p' c' tx sk q : serve (t_ p c tx sk true q) [] (t_ p' c' tx sk true q).

Definition receive (r : request) (ratcheting : bool) (b : t) : t :=
  t_ (prepared b) (channels b) (tx b) (skipping b) (loose b || ratcheting) (queue b ++ [r]).
End Backend.

(** ** The gateway's side of a request *)

Definition named (name msg : bytes) : option (bytes * bytes) :=
  if bool_decide (name = []) then None else Some (name, msg).

(** What a forwarded request adds to [awaiting]. *)
Definition entry (r : Backend.request) : option Awaited.t :=
  match r with
  | Backend.Parse name msg => Some (Awaited.Parse (named name msg))
  | Backend.Close name => Some (Awaited.Close name)
  | Backend.Query changes controls => Some (Awaited.Ready changes controls)
  | Backend.Sync | Backend.FunctionCall => Some Awaited.ready
  | Backend.Work => None
  end.
(** A session already severed on failover captures nothing. *)
Definition entry_at (s : ConnectionState) (r : Backend.request) : option Awaited.t :=
  match r with
  | Backend.Parse name msg => if not_migratable s then Some (Awaited.Parse None) else entry r
  | _ => entry r
  end.
Definition unsynced_after (r : Backend.request) (u : bool) : bool :=
  match r with
  | Backend.Parse _ _ | Backend.Close _ => true
  | Backend.Sync => false
  | _ => u
  end.

Definition await (e : option Awaited.t) (s : ConnectionState) : ConnectionState :=
  with_awaiting (awaiting s ++ option_list e) s.

Definition forward (r : Backend.request) (ratcheting : bool) (s : ConnectionState) : ConnectionState :=
  let s := if ratcheting then ratchet s else s in
  with_unsynced (unsynced_after r (extended_unsynced s)) (await (entry_at s r) s).

(** ** States that track the same *)
Definition same (s s' : ConnectionState) : Prop :=
  awaiting s = awaiting s' ∧ prepared s = prepared s' ∧ channels s = channels s' ∧
  not_migratable s = not_migratable s'.
#[global] Instance same_equivalence : Equivalence same.
Proof.
  split; [done|by intros ? ? (? & ? & ? & ?)|].
  intros s1 s2 s3 (? & ? & ? & ?) (? & ? & ? & ?). split_and!; congruence.
Qed.

Lemma same_with_awaiting a s s' : same s s' → same (with_awaiting a s) (with_awaiting a s').
Proof. by intros (? & ? & ? & ?). Qed.
Lemma same_ratchet s s' : same s s' → same (ratchet s) (ratchet s').
Proof. by intros (? & ? & ? & ?). Qed.
Lemma same_with_replay c p s s' : same s s' → same (with_replay c p s) (with_replay c p s').
Proof. by intros (? & ? & ? & ?). Qed.
#[global] Hint Resolve same_with_awaiting same_ratchet same_with_replay : core.

#[global] Instance commit_capture_same : Proper (same ==> eq ==> eq ==> same) commit_capture.
Proof.
  intros s s' H n _ <- m _ <-. unfold commit_capture, mark_unknowable. pose proof H as (_ & Hp & Hc & _).
  rewrite Hp, Hc. destruct (_ || _); auto.
Qed.

(** Either way of the condition in the goal. *)
Ltac branch := match goal with |- context [if ?b then _ else _] => destruct b end.

#[global] Instance acknowledge_same : Proper (same ==> eq ==> same) acknowledge.
Proof.
  intros s s' H a _ <-. pose proof H as (Ha & Hp & Hc & _).
  assert (Hout : same (out_of_step s) (out_of_step s')) by (unfold out_of_step, mark_unknowable; auto).
  unfold acknowledge, mark_unknowable, apply_changes. rewrite <-Ha. destruct a.
  - destruct (awaiting s) as [|[[[n m]|]|?|? ?] l]; auto. apply commit_capture_same; auto.
  - destruct (awaiting s) as [|[?|[n|]|? ?] l]; auto. cbn. rewrite Hp, Hc. auto.
  - destruct (strip (awaiting s)) as [|[?|?|[|? ?] ?] l]; auto.
  - destruct (awaiting s) as [|[?|?|[|? ?] ?] l]; auto.
    branch; [|auto].
    cbn. rewrite Hp, Hc. destruct (foldl _ _ _). auto.
Qed.

(** ** Counting answers *)
Definition completion (e : Awaited.t) : bool :=
  match e with Awaited.Ready _ _ => false | _ => true end.
Fixpoint readies (a : list Awaited.t) : nat :=
  match a with [] => 0 | e :: a' => (if completion e then 0 else 1) + readies a' end.
Fixpoint ready_acks (l : list Ack.t) : nat :=
  match l with [] => 0 | a :: l' => (match a with Ack.Ready _ => 1 | _ => 0 end) + ready_acks l' end.
Definition owes (r : Backend.request) : nat :=
  match r with Backend.Query _ _ | Backend.Sync | Backend.FunctionCall => 1 | _ => 0 end.
Fixpoint owed (q : list Backend.request) : nat :=
  match q with [] => 0 | r :: q' => owes r + owed q' end.

Lemma readies_app a b : readies (a ++ b) = (readies a + readies b)%nat.
Proof. induction a as [|e a IH]; simpl; [done|]. rewrite IH. lia. Qed.
Lemma ready_acks_app a b : ready_acks (a ++ b) = (ready_acks a + ready_acks b)%nat.
Proof. induction a as [|e a IH]; simpl; [done|]. rewrite IH. lia. Qed.
Lemma owed_app a b : owed (a ++ b) = (owed a + owed b)%nat.
Proof. induction a as [|e a IH]; simpl; [done|]. rewrite IH. lia. Qed.

Lemma readies_entry r : readies (option_list (entry r)) = owes r.
Proof. by destruct r. Qed.
Lemma readies_entry_at s r : readies (option_list (entry_at s r)) = owes r.
Proof. destruct r; cbn; try done. by destruct (not_migratable s). Qed.

Lemma readies_strip a : readies (strip a) = readies a.
Proof. induction a as [|[?|?|? ?] a IH]; simpl; auto. Qed.
Lemma strip_split a : ∃ d, a = d ++ strip a ∧ Forall (λ e, completion e = true) d.
Proof.
  induction a as [|[c|n|ch co] a (d & Hd & Hf)]; simpl; [by exists []|..].
  - exists (Awaited.Parse c :: d). split; [by rewrite <-app_comm_cons, <-Hd|by constructor].
  - exists (Awaited.Close n :: d). split; [by rewrite <-app_comm_cons, <-Hd|by constructor].
  - by exists [].
Qed.
Lemma strip_head a e a' : strip a = e :: a' → completion e = false.
Proof. induction a as [|[?|?|? ?] a IH]; simpl; [done|auto|auto|]. by intros [= <- <-]. Qed.
Lemma strip_app a b : strip (a ++ b) = match strip a with [] => strip b | s => s ++ b end.
Proof. induction a as [|[?|?|? ?] a IH]; simpl; auto. Qed.
Lemma strip_nil a : strip a = [] ↔ readies a = 0%nat.
Proof.
  rewrite <-readies_strip. destruct (strip a) as [|e l] eqn:E; [done|].
  apply strip_head in E. simpl. rewrite E. split; [done|lia].
Qed.

(** ** Acknowledging, field by field *)
Lemma acknowledge_ratcheted s a : not_migratable s = true → not_migratable (acknowledge s a) = true.
Proof.
  intros H. destruct a; simpl.
  - destruct (awaiting s) as [|[[[n m]|]|?|? ?] l]; try done. unfold commit_capture. by destruct (_ || _).
  - by destruct (awaiting s) as [|[?|[n|]|? ?] l].
  - by destruct (strip (awaiting s)) as [|[?|?|[|? ?] ?] l].
  - destruct (awaiting s) as [|[?|?|[|? ?] ?] l]; try done. branch; [|done].
    unfold apply_changes. by destruct (foldl _ _ _).
Qed.

Lemma acknowledge_readies s a :
  not_migratable (acknowledge s a) = false →
  (readies (awaiting s) ≤ (match a with Ack.Ready _ => 1 | _ => 0 end)
                          + readies (awaiting (acknowledge s a)))%nat.
Proof.
  destruct a; simpl.
  - destruct (awaiting s) as [|[[[n m]|]|?|? ?] l]; try done.
    unfold commit_capture. destruct (_ || _); done || (intros _; simpl; lia).
  - destruct (awaiting s) as [|[?|[n|]|? ?] l]; done || (intros _; simpl; lia).
  - intros _. rewrite <-readies_strip. destruct (strip (awaiting s)) as [|[?|?|[|? ?] ?] l]; simpl; lia.
  - destruct (awaiting s) as [|[?|?|[|? ?] ?] l] eqn:E; try done; try (intros _; simpl; rewrite ?E; simpl; lia).
    branch; [|done]. unfold apply_changes. destruct (foldl _ _ _). intros _. simpl. lia.
Qed.

Lemma acknowledge_readies_eq s a :
  not_migratable (acknowledge s a) = false → awaiting s ≠ [] →
  readies (awaiting s) = ((match a with Ack.Ready _ => 1 | _ => 0 end)
                          + readies (awaiting (acknowledge s a)))%nat.
Proof.
  destruct a; simpl.
  - destruct (awaiting s) as [|[[[n m]|]|?|? ?] l]; try done.
    unfold commit_capture. by destruct (_ || _).
  - by destruct (awaiting s) as [|[?|[n|]|? ?] l].
  - intros _ _. rewrite <-readies_strip. by destruct (strip (awaiting s)) as [|[?|?|[|? ?] ?] l].
  - destruct (awaiting s) as [|[?|?|[|? ?] ?] l] eqn:E; try done.
    branch; [|done]. unfold apply_changes. by destruct (foldl _ _ _).
Qed.

Lemma awaiting_nil_noop s a :
  awaiting s = [] → not_migratable (acknowledge s a) = false → same (acknowledge s a) s.
Proof. intros H. destruct a; simpl; rewrite H; done. Qed.

(** ** In step *)

(** With nothing in flight the awaited requests are the backend's queue, but for the
    leading ones an error made it skip. *)
Definition exact (s : ConnectionState) (b : Backend.t) : Prop :=
  Backend.loose b = false ∧ prepared s = Backend.prepared b ∧ channels s = Backend.channels b ∧
  ∃ d, omap entry (Backend.queue b) = d ++ awaiting s ∧ Forall (λ e, completion e = true) d ∧
       (d ≠ [] → Backend.skipping b = true).

(** A request the backend skips is still awaited in front: the next answer is out of
    step. *)
Definition doomed (s : ConnectionState) (b : Backend.t) : Prop :=
  Backend.skipping b = true ∧ ∃ e a, awaiting s = e :: a ∧ completion e = true.

Definition expected (s : ConnectionState) (a : Ack.t) (b : Backend.t) : Prop :=
  match a with
  | Ack.ParseComplete | Ack.CloseComplete => ∃ e l, awaiting s = e :: l ∧ completion e = true
  | Ack.Ready _ => awaiting s ≠ []
  | Ack.Error => strip (awaiting s) = [] → Backend.skipping b = true
  end.

Fixpoint instep (acks : list Ack.t) (s : ConnectionState) (b : Backend.t) : Prop :=
  readies (awaiting s) = (ready_acks acks + owed (Backend.queue b))%nat ∧
  match acks with
  | [] => exact s b ∨ doomed s b
  | a :: acks =>
      expected s a b ∧
      (not_migratable (acknowledge s a) = false → instep acks (acknowledge s a) b)
  end.

Lemma instep_count acks s b :
  instep acks s b → readies (awaiting s) = (ready_acks acks + owed (Backend.queue b))%nat.
Proof. by destruct acks; intros [? _]. Qed.

#[global] Instance instep_same : Proper (eq ==> same ==> eq ==> iff) instep.
Proof.
  assert (Himp : ∀ acks s s' b, same s s' → instep acks s b → instep acks s' b).
  { induction acks as [|a acks IH]; intros s s' b H; pose proof H as (Ha & Hp & Hc & Hn); cbn [instep].
    - unfold exact, doomed. rewrite Ha, Hp, Hc. done.
    - unfold expected. rewrite Ha. intros (Hcount & Hexp & Hgo). split_and!; [done|done|].
      pose proof (acknowledge_same _ _ H a a eq_refl) as Hs. destruct (Hs) as (_ & _ & _ & Hn').
      rewrite <-Hn'. intros Hf. apply (IH _ _ _ Hs), Hgo, Hf. }
  intros acks _ <- s s' Hs b _ <-. split; apply Himp; [done|by symmetry].
Qed.

(** *** A request is forwarded *)
Lemma await_acknowledge s e a :
  a ≠ Ack.Error ∨ strip (awaiting s) ≠ [] → awaiting s ≠ [] →
  not_migratable (acknowledge (await e s) a) = false →
  not_migratable (acknowledge s a) = false ∧
  acknowledge (await e s) a = await e (acknowledge s a).
Proof.
  intros Ha Hne. destruct a; cbn [acknowledge awaiting await with_awaiting].
  - destruct (awaiting s) as [|[[[n m]|]|?|? ?] l]; cbn [app]; try done.
    unfold commit_capture. cbn. by destruct (_ || _).
  - destruct (awaiting s) as [|[?|[n|]|? ?] l]; cbn [app]; done.
  - destruct Ha as [?|Ha]; [done|]. rewrite strip_app.
    by destruct (strip (awaiting s)) as [|[?|?|[|? ?] ?] l].
  - destruct (awaiting s) as [|[?|?|[|? ?] ?] l]; cbn [app]; try done.
    branch; [|done]. unfold apply_changes. cbn. by destruct (foldl _ _ _).
Qed.

Lemma omap_entry_snoc q r : omap entry (q ++ [r]) = omap entry q ++ option_list (entry r).
Proof. rewrite omap_app. by destruct r. Qed.

(** Nothing awaited and the backend skipping: a further Parse or Close changes
    nothing. *)
Lemma instep_skipped acks s b r :
  instep acks s b → awaiting s = [] → Backend.skipping b = true → owes r = 0%nat →
  instep acks s (Backend.receive r false b).
Proof.
  intros H Ha Hs Hr. revert s Ha H. induction acks as [|a acks IH]; intros s Ha; cbn [instep].
  - intros [Hcount [(Hl & Hp & Hc & d & Hq & Hd & _)|(_ & e & l & He & _)]]; [|congruence].
    split; [cbn in *; rewrite owed_app; simpl; lia|left].
    split_and!; [cbn; by rewrite orb_false_r|done|done|].
    exists (d ++ option_list (entry r)). cbn. rewrite omap_entry_snoc, Hq, Ha, !app_nil_r.
    split_and!; [done| |done]. apply Forall_app. split; [done|].
    destruct r; simpl in *; try lia; by repeat constructor.
  - intros (Hcount & Hexp & Hgo). split_and!; [cbn in *; rewrite owed_app; simpl; lia| |].
    + destruct a; cbn in *; try done.
    + intros Hf. pose proof (awaiting_nil_noop _ _ Ha Hf) as Hsame.
      rewrite Hsame. apply IH; [done|]. rewrite <-Hsame. by apply Hgo.
Qed.

Lemma instep_forward acks s b r :
  instep acks s b → instep acks (await (entry r) s) (Backend.receive r false b).
Proof.
  revert s. induction acks as [|a acks IH]; intros s; cbn [instep].
  - intros [Hcount H]. split.
    { cbn in *. rewrite readies_app, owed_app, readies_entry. simpl. lia. }
    destruct H as [(Hl & Hp & Hc & d & Hq & Hd & Hskip)|(Hs & e & l & He & Hcomp)]; [left|right].
    + split_and!; [cbn; by rewrite orb_false_r|done|done|]. exists d. cbn.
      rewrite omap_entry_snoc, Hq, <-app_assoc. done.
    + split; [done|]. exists e, (l ++ option_list (entry r)). cbn. by rewrite He.
  - intros (Hcount & Hexp & Hgo). split_and!.
    { cbn in *. rewrite readies_app, owed_app, readies_entry. simpl. lia. }
    { destruct a; cbn in *.
      - destruct Hexp as (e & l & He & ?). exists e, (l ++ option_list (entry r)). by rewrite He.
      - destruct Hexp as (e & l & He & ?). exists e, (l ++ option_list (entry r)). by rewrite He.
      - rewrite strip_app. destruct (strip (awaiting s)) eqn:E; [auto|done].
      - by destruct (awaiting s). }
    intros Hf. destruct (decide (strip (awaiting s) = [])) as [Hstrip|Hstrip].
    + destruct (decide (a = Ack.Error)) as [->|Hne].
      * cbn in Hexp. specialize (Hexp Hstrip).
        assert (Hack : acknowledge s Ack.Error = with_awaiting [] s) by (cbn; by rewrite Hstrip).
        destruct (decide (owes r = 0%nat)) as [Hr|Hr].
        -- assert (acknowledge (await (entry r) s) Ack.Error = with_awaiting [] s) as ->.
           { cbn. rewrite strip_app, Hstrip. by destruct r. }
           apply instep_skipped; try done. rewrite <-Hack. apply Hgo. rewrite Hack.
           revert Hf. cbn. rewrite strip_app, Hstrip. by destruct r.
        -- assert (not_migratable (acknowledge s Ack.Error) = false ∧
                   acknowledge (await (entry r) s) Ack.Error = await (entry r) (acknowledge s Ack.Error))
             as [Hf' ->].
           { revert Hf. rewrite Hack. cbn. rewrite strip_app, Hstrip.
             destruct r as [| |[|] ?| | |]; cbn in *; done || lia. }
           apply IH, Hgo, Hf'.
      * assert (awaiting s ≠ []) as Hna.
        { destruct a; cbn in Hexp; try done; destruct Hexp as (? & ? & -> & _); done. }
        destruct (await_acknowledge s (entry r) a (or_introl Hne) Hna Hf) as [Hf' ->]. apply IH, Hgo, Hf'.
    + assert (awaiting s ≠ []) as Hna by (intros Hna; by rewrite Hna in Hstrip).
      destruct (await_acknowledge s (entry r) a (or_intror Hstrip) Hna Hf) as [Hf' ->]. apply IH, Hgo, Hf'.
Qed.

(** *** The backend serves a request *)

(** Of the requests it takes, the backend answers as many as it owes, or fewer. *)
Lemma serve_owes b acks b' :
  Backend.serve b acks b' → (ready_acks acks + owed (Backend.queue b') ≤ owed (Backend.queue b))%nat.
Proof. destruct 1; simpl; lia. Qed.

Lemma serve_keeps_skipping b acks b' :
  Backend.serve b acks b' → Backend.skipping b = true → owed (Backend.queue b) = 0%nat →
  Backend.skipping b' = true.
Proof. destruct 1; simpl; try done; lia. Qed.

Lemma not_skipping_exact s b :
  exact s b → Backend.skipping b = false → omap entry (Backend.queue b) = awaiting s.
Proof. intros (_ & _ & _ & d & Hq & _ & Hd) Hs. destruct d; [done|]. rewrite Hd in Hs; done. Qed.

Lemma exact_intro s p c tx sk q :
  prepared s = p → channels s = c → omap entry q = awaiting s →
  exact s (Backend.t_ p c tx sk false q).
Proof. intros. split_and!; try done. by exists []. Qed.

Lemma strip_completions d a : Forall (λ e, completion e = true) d → strip (d ++ a) = strip a.
Proof. induction 1 as [|[?|?|? ?] d He _ IH]; done. Qed.

(** After an error in an extended batch the backend skips what was popped. *)
Lemma exact_error s p c tx q d0 :
  prepared s = p → channels s = c → awaiting s = d0 ++ omap entry q →
  Forall (λ e, completion e = true) d0 → readies (awaiting s) = owed q →
  instep [Ack.Error] s (Backend.t_ p c tx true false q).
Proof.
  intros Hp Hc Hq Hd0 Hcount. cbn [instep]. split_and!; [done|done|]. intros Hf.
  assert (same (acknowledge s Ack.Error) (with_awaiting (strip (awaiting s)) s)) as Hs.
  { revert Hf. cbn. by destruct (strip (awaiting s)) as [|[?|?|[|? ?] ?] l]. }
  change (instep [] (acknowledge s Ack.Error) (Backend.t_ p c tx true false q)). rewrite Hs.
  split; [cbn; by rewrite readies_strip|left]. split_and!; try done.
  destruct (strip_split (omap entry q)) as (d & Hd & Hcomp). exists d. cbn.
  rewrite Hq, strip_completions by done. done.
Qed.

Lemma doomed_ready s b status :
  doomed s b → not_migratable (acknowledge s (Ack.Ready status)) = true.
Proof. intros (_ & e & l & He & Hc). cbn. rewrite He. by destruct e. Qed.

Lemma instep_ready s b changes controls l status :
  awaiting s = Awaited.Ready changes controls :: l →
  readies l = owed (Backend.queue b) →
  (not_migratable (acknowledge s (Ack.Ready status)) = false →
   exact (acknowledge s (Ack.Ready status)) b) →
  instep [Ack.Ready status] s b.
Proof.
  intros He Hcount Hex. cbn [instep ready_acks]. split_and!.
  - rewrite He. simpl. lia.
  - cbn. by rewrite He.
  - intros Hf. split; [|left; by apply Hex].
    pose proof (acknowledge_readies_eq s _ Hf) as Hr. rewrite He in Hr. specialize (Hr ltac:(done)).
    cbn [readies completion] in Hr. cbn [ready_acks]. lia.
Qed.

(** An error of a request that ends its own batch, then its ReadyForQuery. *)
Lemma instep_error_ready s b changes controls l status :
  awaiting s = Awaited.Ready changes controls :: l →
  readies l = owed (Backend.queue b) →
  (changes = [] → not_migratable s = false → exact (with_awaiting l s) b) →
  instep [Ack.Error; Ack.Ready status] s b.
Proof.
  intros He Hcount Hex. cbn [instep]. split_and!.
  - rewrite He. simpl. lia.
  - cbn. by rewrite He.
  - cbn [acknowledge]. rewrite He. cbn [strip]. destruct changes as [|ch chs]; [|done]. intros Hf.
    apply (instep_ready _ _ [] controls l); [done|done|]. intros _. apply Hex; [done|]. exact Hf.
Qed.

Ltac serve_cases H :=
  inversion H; subst;
  cbn [Backend.prepared Backend.channels Backend.tx Backend.skipping Backend.loose Backend.queue
       owed owes ready_acks Nat.add omap list_omap entry] in *; subst; try done.

Lemma serve_doomed s b acks b' :
  Backend.serve b acks b' → readies (awaiting s) = owed (Backend.queue b) → doomed s b →
  (ready_acks acks + owed (Backend.queue b') < owed (Backend.queue b))%nat ∨ instep acks s b'.
Proof.
  intros Hserve Hcount Hd. pose proof Hd as (Hs & e & l & He & Hcomp).
  assert (Hstay : ∀ b', Backend.skipping b' = true → doomed s b') by (intros; split; [done|]; by exists e, l).
  serve_cases Hserve.
  - destruct r; cbn in *; try (left; lia); right; (split; [cbn; lia|right; by apply Hstay]).
  - right. cbn [instep]. split_and!; [cbn; lia|cbn; by rewrite He|].
    intros Hf. change (not_migratable (acknowledge s (Ack.Ready tx')) = false) in Hf.
    by rewrite (doomed_ready _ _ _ Hd) in Hf.
  - right. split; [done|right]. by apply Hstay.
Qed.

Lemma serve_exact_skipping s b acks b' :
  Backend.serve b acks b' → readies (awaiting s) = owed (Backend.queue b) → exact s b →
  Backend.skipping b = true →
  (ready_acks acks + owed (Backend.queue b') < owed (Backend.queue b))%nat ∨ instep acks s b'.
Proof.
  intros Hserve Hcount Hex Hs. pose proof Hex as (Hl & Hp & Hc & d & Hq & Hd & _).
  serve_cases Hserve.
  - assert (Hgo : ∀ e, entry r = Some e → completion e = true → owes r = 0%nat →
              instep [] s (Backend.t_ (prepared s) (channels s) tx true false q)).
    { intros e He Hcomp H0. rewrite He in Hq. split; [cbn; lia|].
      destruct d as [|e' d]; simplify_eq/=.
      - right. split; [done|]. by eexists _, _.
      - left. apply Forall_cons in Hd as [_ Hd]. split_and!; try done. by exists d. }
    destruct r; cbn in *; try (left; lia); right; try by eapply Hgo.
    split; [done|left]. split_and!; try done. by exists d.
  - right. destruct d as [|e d]; cbn [app] in Hq; simplify_eq.
    + rewrite <-Hq in Hcount. cbn in Hcount.
      apply (instep_ready _ _ [] false (omap entry q)); [done|cbn; lia|].
      intros _. cbn. rewrite <-Hq. by apply exact_intro.
    + apply Forall_cons in Hd as [He _]. done.
Qed.

Lemma serve_exact_serving s b acks b' :
  Backend.serve b acks b' → readies (awaiting s) = owed (Backend.queue b) → exact s b →
  Backend.skipping b = false →
  (ready_acks acks + owed (Backend.queue b') < owed (Backend.queue b))%nat ∨ instep acks s b'.
Proof.
  intros Hserve Hcount Hex Hs. pose proof (not_skipping_exact _ _ Hex Hs) as Hq.
  destruct Hex as (Hl & Hp & Hc & _).
  serve_cases Hserve.
  - right. rewrite <-Hq in Hcount. cbn in Hcount. cbn [instep expected acknowledge]. split_and!; [rewrite <-Hq; cbn; lia|rewrite <-Hq; eauto|].
    rewrite <-Hq. unfold named. case_bool_decide.
    + intros _. split; [cbn; lia|left]. by apply exact_intro.
    + unfold commit_capture. destruct (_ || _); [done|]. intros _. split; [cbn; lia|left].
      by apply exact_intro.
  - right. rewrite <-Hq in Hcount. cbn in Hcount. cbn [instep expected acknowledge]. split_and!; [rewrite <-Hq; cbn; lia|rewrite <-Hq; eauto|].
    rewrite <-Hq. intros _. destruct name; (split; [cbn; lia|left]; by apply exact_intro).
  - right. split; [done|left]. by apply exact_intro.
  - right. destruct H as [->|[(n & m & ->)|(n & ->)]]; cbn in *.
    + by apply (exact_error _ _ _ _ _ []).
    + by apply (exact_error _ _ _ _ _ [Awaited.Parse (named n m)]); [| |rewrite <-Hq|repeat constructor|].
    + by apply (exact_error _ _ _ _ _ [Awaited.Close n]); [| |rewrite <-Hq|repeat constructor|].
  - right. rewrite <-Hq in Hcount. cbn in Hcount.
    apply (instep_ready _ _ changes false (omap entry q)); [done|cbn; lia|]. intros _.
    cbn. rewrite <-Hq. destruct changes as [|ch chs]; [by apply exact_intro|].
    cbn [bool_decide andb negb]. unfold apply_changes. cbn [channels prepared with_awaiting].
    rewrite bool_decide_eq_true_2 by done. cbn [andb].
    subst pc. destruct (foldl apply_change _ _) as [c' p']. by apply exact_intro.
  - right. rewrite <-Hq in Hcount. cbn in Hcount.
    apply (instep_ready _ _ changes controls (omap entry q)); [done|cbn; lia|].
    cbn. rewrite <-Hq. destruct changes as [|ch chs]; [intros _; by apply exact_intro|].
    replace (bool_decide (tx' = Idle) && negb controls) with false; [done|].
    symmetry. apply andb_false_iff. destruct controls; [by right|left].
    by apply bool_decide_eq_false, H0.
  - right. rewrite <-Hq in Hcount. cbn in Hcount.
    apply (instep_error_ready _ _ changes controls (omap entry q)); [done|cbn; lia|].
    intros -> _. by apply exact_intro.
  - right. rewrite <-Hq in Hcount. cbn in Hcount.
    apply (instep_ready _ _ [] false (omap entry q)); [done|cbn; lia|]. intros _.
    cbn. rewrite <-Hq. by apply exact_intro.
  - right. rewrite <-Hq in Hcount. cbn in Hcount.
    apply (instep_error_ready _ _ [] false (omap entry q)); [done|cbn; lia|].
    intros _ _. by apply exact_intro.
  - left. lia.
  - right. rewrite <-Hq in Hcount. cbn in Hcount.
    apply (instep_ready _ _ [] false (omap entry q)); [done|cbn; lia|]. intros _.
    cbn. rewrite <-Hq. by apply exact_intro.
  - right. rewrite <-Hq in Hcount. cbn in Hcount.
    apply (instep_error_ready _ _ [] false (omap entry q)); [done|cbn; lia|].
    intros _ _. by apply exact_intro.
Qed.

Lemma instep_serve acks s b new b' :
  Backend.serve b new b' → instep acks s b →
  (ready_acks new + owed (Backend.queue b') < owed (Backend.queue b))%nat ∨ instep (acks ++ new) s b'.
Proof.
  intros Hserve. pose proof (serve_owes _ _ _ Hserve) as Howes.
  destruct (decide (ready_acks new + owed (Backend.queue b') < owed (Backend.queue b))%nat) as [|Hn];
    [by left|].
  intros H. right. revert s H. induction acks as [|a acks IH]; intros s.
  - intros [Hcount [Hex|Hd]]; cbn in Hcount.
    + destruct (Backend.skipping b) eqn:Hs.
      * by destruct (serve_exact_skipping _ _ _ _ Hserve Hcount Hex Hs).
      * by destruct (serve_exact_serving _ _ _ _ Hserve Hcount Hex Hs).
    + by destruct (serve_doomed _ _ _ _ Hserve Hcount Hd).
  - cbn [instep app]. intros (Hcount & Hexp & Hgo). split_and!.
    + cbn [ready_acks] in *. rewrite ready_acks_app. lia.
    + destruct a; cbn in *; try done. intros Hstrip. apply (serve_keeps_skipping _ _ _ Hserve); [auto|].
      apply strip_nil in Hstrip. lia.
    + intros Hf. apply IH, Hgo, Hf.
Qed.

(** ** The system *)
Record Sys := Sys_ {
  gateway : ConnectionState;
  in_flight : list Ack.t;
  backend : Backend.t
}.

Inductive step : Sys → Sys → Prop :=
| step_forward s acks b r ratcheting :
    step (Sys_ s acks b) (Sys_ (forward r ratcheting s) acks (Backend.receive r ratcheting b))
| step_serve s acks b new b' :
    Backend.serve b new b' → step (Sys_ s acks b) (Sys_ s (acks ++ new) b')
| step_acknowledge s a acks b : step (Sys_ s (a :: acks) b) (Sys_ (acknowledge s a) acks b)
| step_bookkeeping s s' acks b : same s s' → step (Sys_ s acks b) (Sys_ s' acks b).

(** From the ReadyForQuery that ends a startup. *)
Definition start (conn_id now : Z) : Sys := Sys_ (ConnectionState_new conn_id now) [] Backend.start.

Inductive reachable (conn_id now : Z) : Sys → Prop :=
| reachable_start : reachable conn_id now (start conn_id now)
| reachable_step σ σ' : reachable conn_id now σ → step σ σ' → reachable conn_id now σ'.

Definition Sys_inv (σ : Sys) : Prop :=
  not_migratable (gateway σ) = true ∨
  (ready_acks (in_flight σ) + owed (Backend.queue (backend σ)) < readies (awaiting (gateway σ)))%nat ∨
  instep (in_flight σ) (gateway σ) (backend σ).

Lemma forward_ratcheted r ratcheting s :
  ratcheting = true ∨ not_migratable s = true → not_migratable (forward r ratcheting s) = true.
Proof. intros [-> | H]; [done|]. unfold forward. by destruct ratcheting. Qed.

Lemma step_inv σ σ' : step σ σ' → Sys_inv σ → Sys_inv σ'.
Proof.
  unfold Sys_inv. intros [s acks b r rat|s acks b new b' Hserve|s a acks b|s s' acks b Hsame];
    cbn [gateway in_flight backend]; intros H.
  - destruct (decide (rat = true ∨ not_migratable s = true)) as [Hn|Hn].
    { left. by apply forward_ratcheted. }
    assert (rat = false) as -> by (destruct rat; [exfalso; apply Hn; by left|done]).
    assert (not_migratable s = false) as Hf by (destruct (not_migratable s); [exfalso; apply Hn; by right|done]).
    assert (same (await (entry r) s) (forward r false s)) as Hs.
    { unfold forward. replace (entry_at s r) with (entry r); [done|]. destruct r; cbn; try done. by rewrite Hf. }
    right. destruct H as [H|[H|H]]; [congruence|left|right].
    + destruct Hs as [<- _]. cbn. rewrite readies_app, owed_app, readies_entry. simpl. lia.
    + rewrite <-Hs. by apply instep_forward.
  - destruct H as [H|[H|H]]; [by left|right; left|right].
    + pose proof (serve_owes _ _ _ Hserve). rewrite ready_acks_app. lia.
    + destruct (instep_serve _ _ _ _ _ Hserve H) as [Hlt|]; [left|by right].
      rewrite (instep_count _ _ _ H), ready_acks_app. lia.
  - destruct (not_migratable (acknowledge s a)) eqn:Hf; [by left|right].
    destruct H as [H|[H|H]].
    + rewrite acknowledge_ratcheted in Hf by done. done.
    + left. pose proof (acknowledge_readies s a Hf). cbn [ready_acks] in H. lia.
    + right. destruct H as (_ & _ & H). by apply H.
  - pose proof Hsame as (Ha & _ & _ & Hn). rewrite <-Ha, <-Hn.
    destruct H as [H|[H|H]]; [by left|by right; left|right; right]. by rewrite <-Hsame.
Qed.

Lemma session_reachable_inv conn_id now σ : reachable conn_id now σ → Sys_inv σ.
Proof.
  induction 1 as [|σ σ' _ IH Hstep]; [|by apply (step_inv _ _ Hstep)].
  right. right. split; [done|left]. by apply exact_intro.
Qed.

(** Nothing awaited and in step: what is in flight changes nothing. *)
Lemma instep_idle acks s b :
  instep acks s b → awaiting s = [] → not_migratable s = false → exact s b.
Proof.
  revert s. induction acks as [|a acks IH]; intros s; cbn [instep].
  - intros [_ [H|(_ & e & l & He & _)]] Ha; [done|congruence].
  - intros (Hcount & Hexp & Hgo) Ha Hn. destruct a; cbn in Hexp; rewrite Ha in *; try done.
    + by destruct Hexp as (? & ? & ? & _).
    + by destruct Hexp as (? & ? & ? & _).
    + assert (Hs : same (acknowledge s Ack.Error) s) by (cbn; by rewrite Ha).
      pose proof Hs as (_ & Hp & Hc & Hn'). rewrite Hn' in Hgo.
      destruct (IH _ (Hgo Hn)) as (Hl & Hp' & Hc' & Hd); [by destruct Hs as [-> _]|congruence|].
      split_and!; [done|congruence|congruence|]. destruct Hs as [Ha' _]. by rewrite <-Ha'.
Qed.

Lemma is_migratable_inv s :
  is_migratable s = true →
  tx_status s = Idle ∧ proxy_mode s = Normal ∧ awaiting s = [] ∧ extended_unsynced s = false ∧
  not_migratable s = false.
Proof.
  unfold is_migratable, response_pending. intros H.
  repeat (apply andb_prop in H as [H ?]). apply negb_true_iff in H0, H1.
  apply orb_false_iff in H1 as [H1 ?]. apply negb_false_iff, bool_decide_eq_true in H1.
  destruct (tx_status s), (proxy_mode s), (awaiting s); done.
Qed.

(** C28. Whenever the gateway may migrate a session, the statements and channels it
    would replay are exactly those the backend holds, and the backend owes no
    answer: over every interleaving of pipelined requests, errors that skip to a
    Sync, answers in flight, transaction blocks and statements that make the session
    non-migratable. *)
Theorem replay_set_is_the_session (conn_id now : Z) (σ : Sys) :
  reachable conn_id now σ → is_migratable (gateway σ) = true →
  prepared (gateway σ) = Backend.prepared (backend σ) ∧
  channels (gateway σ) = Backend.channels (backend σ) ∧
  ready_acks (in_flight σ) = 0%nat ∧ owed (Backend.queue (backend σ)) = 0%nat.
Proof.
  intros Hr%session_reachable_inv (_ & _ & Ha & _ & Hn)%is_migratable_inv.
  destruct Hr as [H|[H|H]]; [congruence|rewrite Ha in H; simpl in H; lia|].
  pose proof (instep_count _ _ _ H) as Hcount. rewrite Ha in Hcount. simpl in Hcount.
  destruct (instep_idle _ _ _ H Ha Hn) as (_ & Hp & Hc & _). split_and!; [done|done|lia|lia].
Qed.

(** Runs, by what moves. *)
Lemma reachable_forward conn_id now s acks p c tx sk q rs :
  reachable conn_id now (Sys_ s acks (Backend.t_ p c tx sk false q)) →
  reachable conn_id now (Sys_ (foldl (λ s r, forward r false s) s rs) acks
                           (Backend.t_ p c tx sk false (q ++ rs))).
Proof.
  revert s q. induction rs as [|r rs IH]; intros s q H; [by rewrite app_nil_r|].
  replace (q ++ r :: rs) with ((q ++ [r]) ++ rs) by (by rewrite <-app_assoc).
  apply IH. eapply reachable_step; [exact H|]. apply step_forward.
Qed.

Lemma reachable_serve conn_id now s acks b new b' :
  reachable conn_id now (Sys_ s acks b) → Backend.serve b new b' →
  reachable conn_id now (Sys_ s (acks ++ new) b').
Proof. intros H Hs. eapply reachable_step; [exact H|]. by apply step_serve. Qed.

Lemma reachable_acknowledge conn_id now s acks b :
  reachable conn_id now (Sys_ s acks b) → reachable conn_id now (Sys_ (foldl acknowledge s acks) [] b).
Proof.
  revert s. induction acks as [|a acks IH]; intros s H; [done|].
  apply IH. eapply reachable_step; [exact H|]. apply step_acknowledge.
Qed.

Definition batch : list Backend.request :=
  [Backend.Parse (lit "a") (lit "PA"); Backend.Parse (lit "b") (lit "PB"); Backend.Sync].

Lemma batch_served :
  reachable 7 0
    (Sys_ (foldl acknowledge (foldl (λ s r, forward r false s) (ConnectionState_new 7 0) batch)
             [Ack.ParseComplete; Ack.Error; Ack.Ready Idle]) []
       (Backend.t_ {[lit "a" := lit "PA"]} ∅ Idle false false [])).
Proof.
  apply reachable_acknowledge.
  pose proof (reachable_forward 7 0 _ _ _ _ _ _ _ batch (reachable_start 7 0)) as H.
  apply (reachable_serve 7 0 _ _ _ [Ack.ParseComplete]
           (Backend.t_ {[lit "a" := lit "PA"]} ∅ Idle false false (tail batch))) in H;
    [|exact (Backend.serve_parse ∅ ∅ Idle false (lit "a") (lit "PA") (tail batch) eq_refl)].
  apply (reachable_serve 7 0 _ _ _ [Ack.Error]
           (Backend.t_ {[lit "a" := lit "PA"]} ∅ Failed true false [Backend.Sync])) in H;
    [|apply Backend.serve_extended_error; right; left; by eauto].
  apply (reachable_serve 7 0 _ _ _ [Ack.Ready Idle]
           (Backend.t_ {[lit "a" := lit "PA"]} ∅ Idle false false [])) in H; [|apply Backend.serve_sync].
  exact H.
Qed.

Lemma replay_set_is_the_session_witness :
  ∃ σ, reachable 7 0 σ ∧ is_migratable (gateway σ) = true ∧
       Backend.prepared (backend σ) = {[lit "a" := lit "PA"]} ∧
       prepared (gateway σ) = Backend.prepared (backend σ).
Proof.
  eexists. split; [exact batch_served|]. split; [vm_compute; reflexivity|]. split; [reflexivity|].
  apply (replay_set_is_the_session 7 0 _ batch_served). vm_compute. reflexivity.
Defined.

(** ** Bounds *)

Lemma total_bytes_insert (p : gmap bytes bytes) n m :
  total_bytes (<[n := m]> p) = total_bytes (delete n p) + Z.of_nat (length m).
Proof.
  unfold total_bytes. rewrite <-insert_delete_eq.
  apply (map_fold_insert_L (λ _ held sum, sum + Z.of_nat (length held))%Z); [intros; lia|].
  apply lookup_delete_eq.
Qed.

Lemma total_bytes_nonneg p : 0 ≤ total_bytes p.
Proof. unfold total_bytes. apply (map_fold_weak_ind (λ r _, 0 ≤ r)%Z); intros; lia. Qed.

Lemma total_bytes_delete (p : gmap bytes bytes) n : total_bytes (delete n p) ≤ total_bytes p.
Proof.
  destruct (p !! n) as [m|] eqn:E; [|rewrite delete_id by done; lia].
  rewrite <-(insert_delete_id p n m E) at 2. rewrite total_bytes_insert, delete_delete_eq. lia.
Qed.

Definition bounded (p : gmap bytes bytes) : Prop :=
  Z.of_nat (size p) ≤ MAX_TRACKED_PREPARED_STATEMENTS ∧ total_bytes p ≤ MAX_TRACKED_PREPARED_BYTES.

Lemma bounded_empty : bounded ∅.
Proof. by vm_compute. Qed.

Lemma bounded_delete p n : bounded p → bounded (delete n p).
Proof.
  intros [Hs Hb]. split; [|pose proof (total_bytes_delete p n); lia].
  pose proof (map_size_delete n p). destruct (p !! n); simpl in *; lia.
Qed.

Lemma bounded_commit s n m : bounded (prepared s) → bounded (prepared (commit_capture s n m)).
Proof.
  intros [Hs Hb]. unfold commit_capture. destruct (_ || _) eqn:E; [done|].
  apply orb_false_iff in E as [Hcount Hbytes]. split; cbn.
  - destruct (prepared s !! n) as [m'|] eqn:En.
    + rewrite map_size_insert_Some by eauto. done.
    + rewrite map_size_insert_None by done.
      rewrite bool_decide_eq_true_2 in Hcount by done. simpl in Hcount. lia.
  - rewrite total_bytes_insert. lia.
Qed.

Lemma bounded_apply_change c p ch : bounded p → bounded (apply_change (c, p) ch).2.
Proof. intros H. destruct ch; simpl; auto using bounded_delete, bounded_empty. Qed.

Lemma bounded_apply_changes s l : bounded (prepared s) → bounded (prepared (apply_changes s l)).
Proof.
  unfold apply_changes. assert (∀ r, bounded r.2 → bounded (foldl apply_change r l).2) as Hf.
  { induction l as [|ch l IH]; intros [c p] H; [done|]. apply IH. by apply bounded_apply_change. }
  intros H. specialize (Hf (channels s, prepared s) H). by destruct (foldl _ _ _).
Qed.

Lemma bounded_acknowledge s a : bounded (prepared s) → bounded (prepared (acknowledge s a)).
Proof.
  intros H. destruct a; simpl.
  - destruct (awaiting s) as [|[[[n m]|]|?|? ?] l]; try done. by apply bounded_commit.
  - destruct (awaiting s) as [|[?|[n|]|? ?] l]; try done. by apply bounded_delete.
  - by destruct (strip (awaiting s)) as [|[?|?|[|? ?] ?] l].
  - destruct (awaiting s) as [|[?|?|[|? ?] ?] l]; try done. branch; [|done].
    by apply bounded_apply_changes.
Qed.

(** C38. The replay set never exceeds 1024 statements nor 4 MiB, whatever a client
    prepares and however its backend answers. *)
Theorem replay_set_is_bounded (conn_id now : Z) (σ : Sys) :
  reachable conn_id now σ →
  Z.of_nat (size (prepared (gateway σ))) ≤ 1024 ∧ total_bytes (prepared (gateway σ)) ≤ 4194304.
Proof.
  change (reachable conn_id now σ → bounded (prepared (gateway σ))).
  induction 1 as [|σ σ' _ IH Hstep]; [apply bounded_empty|].
  destruct Hstep as [s acks b r rat|s acks b new b' _|s a acks b|s s' acks b (_ & Hp & _)]; cbn in *.
  - unfold forward. by destruct rat.
  - done.
  - by apply bounded_acknowledge.
  - by rewrite <-Hp.
Qed.

Lemma replay_set_is_bounded_witness :
  ∃ σ, reachable 7 0 σ ∧ Z.of_nat (size (prepared (gateway σ))) ≤ 1024.
Proof.
  exists (start 7 0). split; [apply reachable_start|].
  apply (replay_set_is_bounded 7 0 (start 7 0) (reachable_start 7 0)).
Defined.

(** ** Two streams the protocol allows that the gateway loses step with *)

Lemma lag_step σ σ' :
  step σ σ' →
  not_migratable (gateway σ) = true ∨
  (ready_acks (in_flight σ) + owed (Backend.queue (backend σ)) < readies (awaiting (gateway σ)))%nat →
  not_migratable (gateway σ') = true ∨
  (ready_acks (in_flight σ') + owed (Backend.queue (backend σ')) < readies (awaiting (gateway σ')))%nat.
Proof.
  intros [s acks b r rat|s acks b new b' Hserve|s a acks b|s s' acks b (Ha & _ & _ & Hn)];
    cbn [gateway in_flight backend]; intros H.
  - destruct H as [H|H]; [left; by apply forward_ratcheted; right|].
    right. unfold forward. cbn. rewrite readies_app, owed_app.
    rewrite readies_entry_at. simpl. destruct rat; cbn; lia.
  - destruct H as [H|H]; [by left|right]. pose proof (serve_owes _ _ _ Hserve). rewrite ready_acks_app. lia.
  - destruct (not_migratable (acknowledge s a)) eqn:Hf; [by left|right].
    destruct H as [H|H]; [rewrite acknowledge_ratcheted in Hf by done; done|].
    pose proof (acknowledge_readies s a Hf). cbn [ready_acks] in H. lia.
  - by rewrite <-Ha, <-Hn.
Qed.

(** The Sync a client sends with its extended-protocol [COPY ... FROM STDIN] is
    ignored by the backend, and the one after the data is answered: the session then
    awaits an answer that never comes, and is never migratable again. *)
Definition copy_requests : list Backend.request :=
  [Backend.Parse [] (lit "COPY"); Backend.Work; Backend.Sync; Backend.Work; Backend.Sync].
Definition after_copy : ConnectionState :=
  foldl acknowledge (foldl (λ s r, forward r false s) (ConnectionState_new 7 0) copy_requests)
    [Ack.ParseComplete; Ack.Ready Idle].

Lemma a_sync_ignored_in_copy_is_awaited_for_ever :
  reachable 7 0 (Sys_ after_copy [] Backend.start) ∧
  awaiting after_copy = [Awaited.ready] ∧
  ∀ σ, rtc step (Sys_ after_copy [] Backend.start) σ → is_migratable (gateway σ) = false.
Proof.
  split_and!.
  - apply reachable_acknowledge.
    pose proof (reachable_forward 7 0 _ _ _ _ _ _ _ copy_requests (reachable_start 7 0)) as H.
    apply (reachable_serve 7 0 _ _ _ [Ack.ParseComplete]
             (Backend.t_ ∅ ∅ Idle false false (tail copy_requests))) in H;
      [|exact (Backend.serve_parse ∅ ∅ Idle false [] (lit "COPY") (tail copy_requests) eq_refl)].
    apply (reachable_serve 7 0 _ _ _ []
             (Backend.t_ ∅ ∅ Idle false false [Backend.Sync; Backend.Work; Backend.Sync])) in H;
      [|apply Backend.serve_work].
    apply (reachable_serve 7 0 _ _ _ []
             (Backend.t_ ∅ ∅ Idle false false [Backend.Work; Backend.Sync])) in H;
      [|apply Backend.serve_sync_in_copy].
    apply (reachable_serve 7 0 _ _ _ [] (Backend.t_ ∅ ∅ Idle false false [Backend.Sync])) in H;
      [|apply Backend.serve_work].
    apply (reachable_serve 7 0 _ _ _ [Ack.Ready Idle] Backend.start) in H; [|apply Backend.serve_sync].
    exact H.
  - done.
  - intros σ Hrun.
    assert (not_migratable (gateway σ) = true ∨
      (ready_acks (in_flight σ) + owed (Backend.queue (backend σ)) < readies (awaiting (gateway σ)))%nat)
      as Hlag.
    { assert (Hlast : not_migratable after_copy = true ∨
        (ready_acks [] + owed (Backend.queue Backend.start) < readies (awaiting after_copy))%nat)
        by (right; vm_compute; lia).
      remember (Sys_ after_copy [] Backend.start) as σ0 eqn:E.
      assert (not_migratable (gateway σ0) = true ∨ (ready_acks (in_flight σ0)
        + owed (Backend.queue (backend σ0)) < readies (awaiting (gateway σ0)))%nat) as H0 by (by subst).
      clear E Hlast. induction Hrun as [|σ1 σ2 σ3 Hs _ IH]; [done|]. by apply IH, (lag_step _ _ Hs). }
    destruct (is_migratable (gateway σ)) eqn:E; [|done].
    apply is_migratable_inv in E as (_ & _ & Ha & _ & Hn).
    destruct Hlag as [H|H]; [congruence|]. rewrite Ha in H. simpl in H. lia.
Qed.

(** A Parse forwarded after the error that makes the backend skip it, and before the
    Sync that ends the batch, puts the answers out of step. *)
Lemma a_parse_sent_after_the_error_is_out_of_step :
  let s := forward Backend.Work false (ConnectionState_new 7 0) in
  let s := acknowledge s Ack.Error in
  let s := forward Backend.Sync false (forward (Backend.Parse (lit "b") (lit "PB")) false s) in
  not_migratable s = false ∧ not_migratable (acknowledge s (Ack.Ready Idle)) = true.
Proof. by vm_compute. Qed.
