(* ===== verification/Gateway.v ===== *)
(** * The gateway's connection handler ([src/gateway/handlers/])

    [mod.rs], [stream.rs] and [failover.rs]: one client session from its startup
    message to its end.  A handler's method is a function of type [M]: it acts on the
    handler's own fields ([Handler]: only its task writes them), issues requests
    ([Req]) and ends in a value or an [Error].  Requests are what the outside
    answers: the watches, the lease, the clock, the sockets, the registry.  A timeout
    is an answer.  The two streams' buffers and the backend connection are part of
    the handler; a write is labelled by what it writes.

    The loops that wait for a watch to change take [rounds], a bound on the changes
    seen; [StillWaiting] stands for a run cut there.  Message texts, metrics, log
    lines and buffer capacities are left out. *)

From S2P Require Import Prelude Effects Text Net Utf8 Wire Lease Governor ClientSession.
From S2P Require SqlScan.
From Stdlib Require Import Strings.Byte.

(** ** Constants *)
Definition FENCE_WAIT_TIMEOUT_SECS : Z := 30.
Definition FENCE_WAIT_NO_LEADER_TIMEOUT_SECS : Z := 5.
Definition RECONNECT_BACKOFF : Z := 500 * ms.
Definition MAX_GATEWAY_BUFFER_SIZE : Z := 16 * 1024 * 1024.
Definition MAX_PRE_AUTH_MESSAGE : Z := 65535 + 1024.
Definition MAX_STARTUP_PACKET_LEN : Z := 10000.
Definition UNKNOWN_SOCKET_ADDR : SocketAddr := SocketAddr_ (V4 0) 0 0.

Record GatewayConfig := GatewayConfig_ {
  connection_timeout_ms : Z;
  idle_timeout_ms : Z;
  upgrade_hold_timeout_ms : Z
}.

Inductive Error :=
| NoLeader | Connect | ConnectionTimeout | BackendDisconnected | PostgresNotReady | Io
| Protocol | ChannelClosed | ConnectionSevered | IdleTimeout | Fenced
| StillWaiting.
#[global] Instance Error_eq_dec : EqDecision Error.
Proof. solve_decision. Defined.

Definition ending_sqlstate (e : Error) : bytes :=
  match e with
  | Protocol => lit "08P01"
  | ChannelClosed => lit "57P01"
  | _ => SQLSTATE_CONNECTION_FAILURE
  end.

Definition idle_remaining (since_activity idle_timeout : Z) (response_pending : bool) : option Z :=
  if response_pending then None else Some (sat_sub idle_timeout since_activity).

(** ** Routing *)
Definition route (fence : FenceState) (leader : option SocketAddr) : option SocketAddr :=
  match authority_pg_addr fence with
  | Some addr => Some addr
  | None => if local_client_writes_fenced fence || negb (primary_open fence) then None else leader
  end.

Definition backend_stale (fence : FenceState) (leader backend : option SocketAddr) : bool :=
  negb (bool_decide (route fence leader = backend)).

Definition needs_migration (current : option SocketAddr) (target : SocketAddr) (backend_lost : bool) : bool :=
  backend_lost || negb (bool_decide (current = Some target)).

Definition reconnect_may_recover (e : Error) : bool :=
  match e with
  | NoLeader | Connect | ConnectionTimeout | BackendDisconnected | PostgresNotReady | Io => true
  | _ => false
  end.

Definition hold_exit_resumes (fence : FenceState) : bool := client_write_authority fence.

(** [hold_reason().is_some()]. *)
Definition held (fence : FenceState) : bool := upgrade_frozen fence || cutover_client_hold fence.

(** ** Requests *)
Inductive Wake : Type :=
| IdleElapsed
| LeaderMoved (open : bool)
| FenceMoved (open : bool)
| ClientRead (r : option bytes)
| BackendRead (r : option bytes).
Inductive Change := Moved | Closed | Backoff | Deadline.
Inductive Connecting := Connected | Refused | TimedOut | NoDelayFailed.
Inductive Writing := Written | WriteFailed | WriteStalled.

Inductive Req : Type :=
| ReadLeader
| ReadFence
| ReadLease
| Now
| Select (idle : option Z)
| AwaitRoute (deadline : Z)
| AwaitFence (deadline : Z)
| AwaitRetry (backoff deadline : Z)
| ConnectTo (addr : SocketAddr)
| Shutdown
| Forward (data : bytes)
| Replay (data : bytes)
| ToClient (data : bytes)
| Fatal (sqlstate : bytes)
| ReadReady (timeout : Z)
| Analyze (query : bytes)
| RegisterKey (key : BackendKey) (route : CancelRoute)
| UnregisterKey (key : BackendKey)
| MoveTxStatus (old new : TransactionStatus)
| MoveProxyMode (old new : ProxyMode)
| LookupCancel (pid : Z) (secret : bytes)
| CancelConnect (addr : SocketAddr)
| CancelWrite (addr : SocketAddr) (data : bytes)
| ReadExact (n : Z).

(** A lease is read as whether this node leads and until when; a read as its bytes
    (none at the end of the stream), an error or, bounded, a timeout ([None] outside). *)
Definition Reply (q : Req) : Type :=
  match q with
  | ReadLeader => option SocketAddr
  | ReadFence => FenceState
  | ReadLease => bool * Z
  | Now => Z
  | Select _ => Wake
  | AwaitRoute _ | AwaitFence _ | AwaitRetry _ _ => Change
  | ConnectTo _ | CancelConnect _ => Connecting
  | Forward _ | Replay _ | ToClient _ => Writing
  | ReadReady _ | ReadExact _ => option (option bytes)
  | Analyze _ | CancelWrite _ _ => bool
  | LookupCancel _ _ => option CancelRoute
  | Shutdown | Fatal _ | RegisterKey _ _ | UnregisterKey _ | MoveTxStatus _ _ | MoveProxyMode _ _ => unit
  end.

(** ** The handler *)
Record Handler := Handler_ {
  conn : ConnectionState;
  config : GatewayConfig;
  startup_params : option bytes;
  extended_protocol_seen : bool;
  preread : option bytes;
  client_told : bool;
  client_buf : bytes;
  backend_buf : bytes;
  last_activity : Z
}.

Definition with_conn (f : ConnectionState → ConnectionState) (s : Handler) : Handler :=
  Handler_ (f (conn s)) (config s) (startup_params s) (extended_protocol_seen s) (preread s)
    (client_told s) (client_buf s) (backend_buf s) (last_activity s).
Definition with_startup (p : option bytes) (s : Handler) : Handler :=
  Handler_ (conn s) (config s) p (extended_protocol_seen s) (preread s)
    (client_told s) (client_buf s) (backend_buf s) (last_activity s).
Definition with_extended_seen (s : Handler) : Handler :=
  Handler_ (conn s) (config s) (startup_params s) true (preread s)
    (client_told s) (client_buf s) (backend_buf s) (last_activity s).
Definition with_preread (p : option bytes) (s : Handler) : Handler :=
  Handler_ (conn s) (config s) (startup_params s) (extended_protocol_seen s) p
    (client_told s) (client_buf s) (backend_buf s) (last_activity s).
Definition with_told (s : Handler) : Handler :=
  Handler_ (conn s) (config s) (startup_params s) (extended_protocol_seen s) (preread s)
    true (client_buf s) (backend_buf s) (last_activity s).
Definition with_client_buf (b : bytes) (s : Handler) : Handler :=
  Handler_ (conn s) (config s) (startup_params s) (extended_protocol_seen s) (preread s)
    (client_told s) b (backend_buf s) (last_activity s).
Definition with_backend_buf (b : bytes) (s : Handler) : Handler :=
  Handler_ (conn s) (config s) (startup_params s) (extended_protocol_seen s) (preread s)
    (client_told s) (client_buf s) b (last_activity s).
Definition with_last_activity (t : Z) (s : Handler) : Handler :=
  Handler_ (conn s) (config s) (startup_params s) (extended_protocol_seen s) (preread s)
    (client_told s) (client_buf s) (backend_buf s) t.

(** *** Methods *)
Definition M (A : Type) : Type := Handler → @prog Req Reply (Handler * result Error A).

Definition ret {A} (a : A) : M A := λ s, Ret (s, Ok a).
Definition throw {A} (e : Error) : M A := λ s, Ret (s, Err e).
Definition mbnd {A B} (m : M A) (f : A → M B) : M B := λ s,
  let* (s, r) := m s in match r with Ok a => f a s | Err e => Ret (s, Err e) end.
(** A [match] on the result of a call. *)
Definition attempt {A} (m : M A) : M (result Error A) := λ s,
  let* (s, r) := m s in Ret (s, Ok r).
Definition of_result {A} (r : result Error A) : M A := λ s, Ret (s, r).
Definition self : M Handler := λ s, Ret (s, Ok s).
Definition modify (f : Handler → Handler) : M () := λ s, Ret (f s, Ok tt).
Definition request (q : Req) : M (Reply q) := λ s, Do q (λ r, Ret (s, Ok r)).

Declare Scope method_scope.
Delimit Scope method_scope with method.
Notation "x ← m ; k" := (mbnd m (λ x, k))
  (at level 20, m at level 100, k at level 200, right associativity) : method_scope.
Notation "' p ← m ; k" := (mbnd m (λ x, match x with p => k end))
  (at level 20, p pattern, m at level 100, k at level 200, right associativity) : method_scope.
Notation "m ;; k" := (mbnd m (λ _, k)) (at level 100, k at level 200, right associativity) : method_scope.
#[local] Open Scope method_scope.

Definition when (b : bool) (m : M ()) : M () := if b then m else ret tt.
Definition writing (w : Writing) : M () :=
  match w with
  | Written => ret tt
  | WriteFailed => throw Io
  | WriteStalled => throw ConnectionSevered
  end.

(** ** Endings *)
Definition send_fatal (sqlstate : bytes) : M () := modify with_told;; request (Fatal sqlstate).
Definition send_failover_error_response : M () := send_fatal SQLSTATE_CONNECTION_FAILURE.
(** Tell the client, then end the session with [e]. *)
Definition sever {A} (e : Error) : M A := send_failover_error_response;; throw e.
Definition sever_idle {A} : M A := send_fatal SQLSTATE_IDLE_SESSION_TIMEOUT;; throw IdleTimeout.

Definition get_leader : M (option SocketAddr) :=
  fence ← request ReadFence; leader ← request ReadLeader; ret (route fence leader).

Definition connect_to_backend (addr : SocketAddr) : M () :=
  o ← request (ConnectTo addr);
  match o with
  | TimedOut => throw ConnectionTimeout
  | Refused => throw Connect
  | NoDelayFailed => throw Io
  | Connected => modify (with_conn (with_backend_addr (Some addr)))
  end.

Definition unregister_backend_key : M () :=
  s ← self;
  match backend_key (conn s) with Some key => request (UnregisterKey key) | None => ret tt end.
Definition cleanup_backend_key : M () := unregister_backend_key.

(** ** Holding a session *)
Section Rounds.
(** How many watch changes each wait may see. *)
Context (rounds : nat).

Fixpoint await_route_until (n : nat) (deadline : Z) : M SocketAddr :=
  match n with
  | O => throw StillWaiting
  | S n =>
      leader ← get_leader;
      match leader with
      | Some addr => ret addr
      | None =>
          c ← request (AwaitRoute deadline);
          match c with
          | Closed => throw ChannelClosed
          | Deadline => throw NoLeader
          | _ => await_route_until n deadline
          end
      end
  end.
Definition await_route : M SocketAddr :=
  now ← request Now; await_route_until rounds (now + FENCE_WAIT_TIMEOUT_SECS * secs).

(** Wait on [fence_rx] while [waits] holds of it. *)
Fixpoint await_fence_until (n : nat) (waits : FenceState → bool) (deadline : Z) : M () :=
  match n with
  | O => throw StillWaiting
  | S n =>
      fence ← request ReadFence;
      if negb (waits fence) then ret tt
      else
        c ← request (AwaitFence deadline);
        match c with
        | Moved => await_fence_until n waits deadline
        | _ => sever Fenced
        end
  end.

Definition wait_for_upgrade_hold_if_needed : M () :=
  fence ← request ReadFence;
  if negb (held fence) then ret tt
  else
    s ← self;
    if negb (bool_decide (tx_status (conn s) = Idle)) then sever Fenced
    else
      now ← request Now;
      await_fence_until rounds held (now + upgrade_hold_timeout_ms (config s) * ms);;
      after ← request ReadFence;
      if hold_exit_resumes after then ret tt else sever Fenced.

Definition wait_for_fence_if_needed : M () :=
  fence ← request ReadFence;
  if negb (fenced fence) then ret tt
  else
    s ← self;
    if negb (bool_decide (tx_status (conn s) = Idle)) then sever Fenced
    else
      quorum ← request ReadFence;
      let timeout_secs :=
        if has_quorum quorum then FENCE_WAIT_TIMEOUT_SECS else FENCE_WAIT_NO_LEADER_TIMEOUT_SECS in
      now ← request Now;
      await_fence_until rounds fenced (now + timeout_secs * secs).

Definition hold_for_upgrade_freeze_after_disconnect : M () :=
  s ← self;
  now ← request Now;
  await_fence_until rounds upgrade_frozen (now + upgrade_hold_timeout_ms (config s) * ms).

(** ** The backend's messages *)
Definition validate_backend_header (h : PacketHeader) : M () :=
  if is_length_valid h MAX_GATEWAY_BUFFER_SIZE then ret tt else throw Protocol.

Definition handle_backend_key_data_message (msg : bytes) (forwarded : bool) : M () :=
  match get_range 5 9 msg ≫= i32_of, get_from 9 msg with
  | Some pid, Some ((_ :: _) as secret) =>
      let issued := BackendKey_ pid secret in
      (if forwarded then modify (with_conn (with_backend_key (Some issued))) else ret tt);;
      s ← self;
      match backend_key (conn s), backend_addr (conn s) with
      | Some client_key, Some addr => request (RegisterKey client_key (CancelRoute_ addr issued))
      | _, _ => ret tt
      end
  | _, _ => ret tt
  end.

Inductive WaitOutcome := Ready | AuthChallenge (code : Z) | SessionRefused (sqlstate : bytes).

Definition auth_code (msg : bytes) : Z := default (-1) (get_range 5 9 msg ≫= i32_of).

(** The messages of one buffer: an outcome, or what is known with the rest.  Every
    message takes at least five bytes. *)
Fixpoint scan_until_ready (fuel : nat) (refused : option bytes)
    : M (option WaitOutcome * option bytes) :=
  s ← self;
  match fuel, PacketHeader_parse (backend_buf s) with
  | S fuel, Some header =>
      validate_backend_header header;;
      let total_len := Z.to_nat (total_length header) in
      if (length (backend_buf s) <? total_len)%nat then ret (None, refused)
      else
        let msg := take total_len (backend_buf s) in
        modify (with_backend_buf (drop total_len (backend_buf s)));;
        match msg_type header with
        | Authentication =>
            if auth_code msg =? 0 then scan_until_ready fuel refused
            else ret (Some (AuthChallenge (auth_code msg)), refused)
        | BackendKeyData =>
            handle_backend_key_data_message msg false;; scan_until_ready fuel refused
        | ErrorResponse =>
            let refused :=
              match refused with
              | Some r => Some r
              | None => Some (default (lit "XX000") (error_sqlstate msg))
              end in
            scan_until_ready fuel refused
        | ReadyForQuery =>
            ret (Some (match refused with None => Ready | Some r => SessionRefused r end), refused)
        | _ => scan_until_ready fuel refused
        end
  | _, _ => ret (None, refused)
  end.

(** [timeout(read_until_ready)]: [None] when it expired. *)
Fixpoint read_until_ready (n : nat) (timeout : Z) (refused : option bytes) : M (option WaitOutcome) :=
  match n with
  | O => throw StillWaiting
  | S n =>
      s ← self;
      ' (outcome, refused) ← scan_until_ready (length (backend_buf s)) refused;
      match outcome with
      | Some o => ret (Some o)
      | None =>
          r ← request (ReadReady timeout);
          match r with
          | None => ret None
          | Some None => throw Io
          | Some (Some []) =>
              match refused with Some r => ret (Some (SessionRefused r)) | None => throw BackendDisconnected end
          | Some (Some data) =>
              s ← self;
              modify (with_backend_buf (backend_buf s ++ data));; read_until_ready n timeout refused
          end
      end
  end.

Definition wait_for_ready : M () :=
  s ← self;
  o ← read_until_ready rounds (connection_timeout_ms (config s) * ms) None;
  match o with
  | Some Ready => ret tt
  | Some (SessionRefused sqlstate) =>
      if refusal_is_transient sqlstate then throw PostgresNotReady else sever ConnectionSevered
  | Some (AuthChallenge _) => sever ConnectionSevered
  | None => throw ConnectionTimeout
  end.

(** ** Migration *)
Definition replay (data : bytes) : M () := w ← request (Replay data); writing w.

Fixpoint restore_listen (queries : list bytes) : M () :=
  match queries with
  | [] => ret tt
  | msg :: queries => replay msg;; wait_for_ready;; restore_listen queries
  end.
Definition restore_listen_subscriptions : M () :=
  s ← self; restore_listen (build_listen_message <$> elements (channels (conn s))).

Fixpoint restore_prepared (parses : list bytes) : M () :=
  match parses with
  | [] => ret tt
  | parse :: parses => replay parse;; replay build_sync;; wait_for_ready;; restore_prepared parses
  end.
Definition restore_prepared_statements : M () :=
  s ← self; restore_prepared ((map_to_list (prepared (conn s))).*2).

Definition has_unknown_commit_outcome (extended_protocol_seen : bool) (tx : TransactionStatus) : bool :=
  extended_protocol_seen && negb (bool_decide (tx = Idle)).

(** The migration itself, of an idle migratable session. *)
Definition migrate (new_leader : SocketAddr) : M () :=
  unregister_backend_key;;
  request Shutdown;;
  connect_to_backend new_leader;;
  modify (with_backend_buf []);;
  s ← self;
  match startup_params s with
  | Some startup => replay startup;; wait_for_ready
  | None => ret tt
  end;;
  restore_listen_subscriptions;;
  restore_prepared_statements.

Definition handle_leader_change (backend_lost : bool) : M () :=
  leader ← get_leader;
  s ← self;
  when (bool_decide (leader = None) && is_migratable (conn s))
    (wait_for_upgrade_hold_if_needed;; wait_for_fence_if_needed);;
  leader ← get_leader;
  match leader with
  | None => if backend_lost then throw NoLeader else ret tt
  | Some new_leader =>
      s ← self;
      let tx := tx_status (conn s) in
      if negb (needs_migration (backend_addr (conn s)) new_leader backend_lost) then ret tt
      else
        match proxy_mode (conn s) with
        | CopyStreaming => sever ConnectionSevered
        | SslPassthrough => throw ConnectionSevered
        | Normal =>
            if has_unknown_commit_outcome (extended_protocol_seen s) tx then sever ConnectionSevered
            else
              match tx with
              | Idle => if is_migratable (conn s) then migrate new_leader else sever ConnectionSevered
              | _ => sever ConnectionSevered
              end
        end
  end.

Fixpoint recover_lost_backend_until (n : nat) (deadline : Z) : M () :=
  match n with
  | O => throw StillWaiting
  | S n =>
      fence ← request ReadFence;
      when (upgrade_frozen fence) hold_for_upgrade_freeze_after_disconnect;;
      r ← attempt (handle_leader_change true);
      match r with
      | Ok _ => ret tt
      | Err e =>
          if reconnect_may_recover e then
            c ← request (AwaitRetry RECONNECT_BACKOFF deadline);
            match c with
            | Closed => throw ChannelClosed
            | Deadline => throw BackendDisconnected
            | _ => recover_lost_backend_until n deadline
            end
          else throw e
      end
  end.
Definition recover_lost_backend : M () :=
  now ← request Now; recover_lost_backend_until rounds (now + FENCE_WAIT_TIMEOUT_SECS * secs).

Definition reroute_lost_backend : M () :=
  r ← attempt recover_lost_backend;
  match r with
  | Ok _ => ret tt
  | Err BackendDisconnected => sever BackendDisconnected
  | Err e => throw e
  end.

Definition handle_backend_disconnect : M () :=
  s ← self;
  if is_migratable (conn s) then reroute_lost_backend else sever BackendDisconnected.

Definition follow_route : M () :=
  s ← self;
  let current := backend_addr (conn s) in
  let settled := bool_decide (tx_status (conn s) = Idle) && negb (response_pending (conn s)) in
  route ← get_leader;
  let follow : M () :=
    r ← attempt (handle_leader_change false);
    match r with
    | Err e => if reconnect_may_recover e then reroute_lost_backend else throw e
    | Ok _ => ret tt
    end in
  if bool_decide (route = current) then ret tt
  else
    match route with
    | Some _ => follow
    | None =>
        if negb settled then ret tt
        else
          r ← attempt await_route;
          match r with
          | Err StillWaiting => throw StillWaiting
          | Err e => sever e
          | Ok _ => follow
          end
    end.

(** ** Client messages *)
Section Analysis.
(** pg_query, as in [SqlScan]. *)
Context (parse : bytes → option (list (option SqlScan.Node)))
        (split_with_scanner : bytes → option (list bytes)).

Definition mark_session_non_migratable : M () := modify (with_conn ratchet).

(** The replay change a session change becomes, and whether it ratchets. *)
Definition replay_change (change : SqlScan.SessionChange) : bool * list ReplayChange.t :=
  match change with
  | SqlScan.Listen channel =>
      (bool_decide (channel = lit "*"), [ReplayChange.Listen channel])
  | SqlScan.UnlistenAll => (false, [ReplayChange.UnlistenAll])
  | SqlScan.Unlisten channel => (false, [ReplayChange.Unlisten channel])
  | SqlScan.SetSessionVar => (true, [])
  | SqlScan.Deallocate name => (false, [ReplayChange.Deallocate name])
  | SqlScan.DeallocateAll => (false, [ReplayChange.DeallocateAll])
  | SqlScan.DiscardAll => (false, [ReplayChange.DiscardAll])
  | SqlScan.NonMigratable => (true, [])
  end.
Fixpoint apply_session_changes (changes : list SqlScan.SessionChange) : M (list ReplayChange.t) :=
  match changes with
  | [] => ret []
  | change :: changes =>
      when (replay_change change).1 mark_session_non_migratable;;
      replayed ← apply_session_changes changes;
      ret ((replay_change change).2 ++ replayed)
  end.

(** The analysis runs on a blocking thread, which may fail to be joined. *)
Definition analyzed {A} (query : bytes) (f : bytes → A) : M A :=
  joined ← request (Analyze query);
  if joined : bool then ret (f query) else throw Protocol.

Definition needs_analysis (query : bytes) : bool :=
  SqlScan.might_contain_session_state_command query
  || SqlScan.subscription (SqlScan.query_keyword_flags query)
  || SqlScan.temp_object (SqlScan.query_keyword_flags query).

Definition observe_parse_message (msg : bytes) : M () :=
  match parse_message_query msg with
  | None => ret tt
  | Some query =>
      when (SqlScan.function_state (SqlScan.query_keyword_flags query)) mark_session_non_migratable;;
      if needs_analysis query then
        finds ← analyzed query (SqlScan.analyzer_finds_session_state parse split_with_scanner);
        when finds mark_session_non_migratable
      else ret tt
  end.

Definition capture_parse_for_replay (msg : bytes) : M (option (bytes * bytes)) :=
  match parse_statement_name msg with
  | None => ret None
  | Some name => s ← self; ret (if not_migratable (conn s) then None else Some (name, msg))
  end.

Definition closed_statement (msg : bytes) : option bytes :=
  match close_target msg with
  | Some (Statement, (_ :: _) as name) => Some name
  | _ => None
  end.

Definition handle_query_message (msg_type : MessageType) (msg : bytes) : M (option Awaited.t) :=
  match msg_type with
  | Query =>
      if (length msg <=? 5)%nat then ret (Some Awaited.ready)
      else
        let query := from_utf8_lossy (default [] (get_range 5 (length msg - 1) msg)) in
        when (SqlScan.function_state (SqlScan.query_keyword_flags query)) mark_session_non_migratable;;
        if needs_analysis query then
          analysis ← analyzed query (SqlScan.analyze_query parse split_with_scanner);
          changes ← apply_session_changes (SqlScan.session_changes analysis);
          ret (Some (Awaited.Ready changes (SqlScan.controls_transaction analysis)))
        else ret (Some Awaited.ready)
  | Parse =>
      observe_parse_message msg;;
      capture ← capture_parse_for_replay msg;
      ret (Some (Awaited.Parse capture))
  | CommandComplete => ret (Some (Awaited.Close (closed_statement msg)))
  | Sync | Unknown "F"%byte => ret (Some Awaited.ready)
  | _ => ret None
  end.

Definition is_extended_frontend_message (t : MessageType) : bool :=
  match t with Parse | Bind | ErrorResponse => true | _ => false end.
Definition track_extended_protocol_usage (t : MessageType) : M () :=
  when (is_extended_frontend_message t) (modify with_extended_seen).

Definition account_forwarded_message (t : MessageType) (unsynced : option bool) : option bool :=
  match t with
  | Sync => Some false
  | Parse | Bind | DataRow | ErrorResponse | CommandComplete => Some true
  | _ => unsynced
  end.

Record BatchFenceSnapshot := BatchFenceSnapshot_ {
  snap_is_leader : bool;
  snap_valid_until : Z;
  snap_now : Z;
  snap_backend_stale : bool
}.
Definition batch_fence_snapshot : M BatchFenceSnapshot :=
  lease ← request ReadLease;
  fence ← request ReadFence;
  leader ← request ReadLeader;
  s ← self;
  now ← request Now;
  ret (BatchFenceSnapshot_ lease.1 lease.2 now (backend_stale fence leader (backend_addr (conn s)))).

Definition validate_client_header (h : PacketHeader) (max_size : Z) : M () :=
  if is_length_valid h max_size then ret tt else throw Protocol.

(** What one read's messages leave to send and to record. *)
Record ClientBatch := ClientBatch_ {
  sent : Z;
  answers : list Awaited.t;
  unsynced : option bool;
  pending : bytes;
  lease_deadline : option Z
}.
Definition empty_batch : ClientBatch := ClientBatch_ 0 [] None [] None.

(** The barrier every message but Terminate passes. *)
Definition fence_message (snap : BatchFenceSnapshot) (t : MessageType) (deadline : option Z)
    : M (option Z) :=
  if bool_decide (t = Terminate) then ret deadline
  else
    when (snap_backend_stale snap) (sever Fenced);;
    if snap_is_leader snap then
      if snap_valid_until snap <=? snap_now snap then sever Fenced
      else ret (Some (snap_valid_until snap))
    else ret deadline.

Definition commit_client_batch (b : ClientBatch) : M () :=
  if bool_decide (sent b = 0) && bool_decide (length (answers b) = 0%nat)
     && bool_decide (unsynced b = None)
  then ret tt
  else
    modify (with_conn (λ c,
      with_unsynced (default (extended_unsynced c) (unsynced b))
        (with_awaiting (awaiting c ++ answers b)
           (with_counts (bytes_sent c + sent b) (bytes_received c) (queries_processed c) c)))).

Definition forward (data : bytes) : M () := w ← request (Forward data); writing w.

(** The complete messages of the client's buffer; [true] after a Terminate. *)
Fixpoint client_messages (fuel : nat) (max_message : Z) (snap : BatchFenceSnapshot) (b : ClientBatch)
    : M (ClientBatch * bool) :=
  s ← self;
  match fuel, PacketHeader_parse (client_buf s) with
  | S fuel, Some header =>
      validate_client_header header max_message;;
      let total_len := Z.to_nat (total_length header) in
      if (length (client_buf s) <? total_len)%nat then ret (b, false)
      else
        let msg := take total_len (client_buf s) in
        modify (with_client_buf (drop total_len (client_buf s)));;
        track_extended_protocol_usage (msg_type header);;
        deadline ← fence_message snap (msg_type header) (lease_deadline b);
        answer ← handle_query_message (msg_type header) msg;
        if bool_decide (msg_type header = Terminate) then ret (b, true)
        else
          client_messages fuel max_message snap
            (ClientBatch_ (sent b + Z.of_nat (length msg)) (answers b ++ option_list answer)
               (account_forwarded_message (msg_type header) (unsynced b))
               (pending b ++ msg) deadline)
  | _, _ => ret (b, false)
  end.

Definition process_client_data : M () :=
  s ← self;
  let max_message :=
    if 0 <? queries_processed (conn s) then MAX_GATEWAY_BUFFER_SIZE else MAX_PRE_AUTH_MESSAGE in
  if bool_decide (proxy_mode (conn s) = SslPassthrough) then
    forward (client_buf s);;
    modify (with_client_buf []);;
    modify (with_conn (λ c, with_counts (bytes_sent c + Z.of_nat (length (client_buf s)))
                              (bytes_received c) (queries_processed c) c))
  else
    snap ← batch_fence_snapshot;
    ' (b, terminated) ← client_messages (length (client_buf s)) max_message snap empty_batch;
    (if bool_decide (pending b = []) then ret tt else forward (pending b));;
    if terminated : bool then commit_client_batch b
    else
      match lease_deadline b with
      | Some deadline =>
          now ← request Now;
          if deadline <=? now then sever Fenced else ret tt
      | None => ret tt
      end;;
      commit_client_batch b.

(** ** Backend data *)
Record BackendDataBatch := BackendDataBatch_ {
  batch_bytes_received : Z;
  final_tx_status : option TransactionStatus;
  queries_completed : Z;
  acks : list Ack.t;
  mode_transition : option ProxyMode
}.
Definition empty_backend_batch : BackendDataBatch := BackendDataBatch_ 0 None 0 [] None.

Definition handle_ready_for_query_message (msg : bytes) (b : BackendDataBatch) : BackendDataBatch :=
  if (length msg <=? 5)%nat then b
  else
    let status := get_from 5 msg ≫= extract_transaction_status in
    BackendDataBatch_ (batch_bytes_received b) status (queries_completed b + 1)
      (acks b ++ [Ack.Ready (default Idle status)]) (Some Normal).

Definition push_ack (a : Ack.t) (b : BackendDataBatch) : BackendDataBatch :=
  BackendDataBatch_ (batch_bytes_received b) (final_tx_status b) (queries_completed b) (acks b ++ [a])
    (mode_transition b).
Definition enter_copy (b : BackendDataBatch) : BackendDataBatch :=
  BackendDataBatch_ (batch_bytes_received b) (final_tx_status b) (queries_completed b) (acks b)
    (Some CopyStreaming).
Definition add_bytes (n : nat) (b : BackendDataBatch) : BackendDataBatch :=
  BackendDataBatch_ (batch_bytes_received b + Z.of_nat n) (final_tx_status b) (queries_completed b)
    (acks b) (mode_transition b).

(** What a message adds to the batch. *)
Definition observed (t : MessageType) (msg : bytes) (b : BackendDataBatch) : BackendDataBatch :=
  add_bytes (length msg)
    match t with
    | ReadyForQuery => handle_ready_for_query_message msg b
    | ParseComplete => push_ack Ack.ParseComplete b
    | CloseComplete => push_ack Ack.CloseComplete b
    | ErrorResponse => push_ack Ack.Error b
    | CopyInResponse | CopyOutResponse | CopyBothResponse => enter_copy b
    | _ => b
    end.
Definition observe_backend_message (t : MessageType) (msg : bytes) (b : BackendDataBatch)
    : M BackendDataBatch :=
  (if bool_decide (t = BackendKeyData) then handle_backend_key_data_message msg true else ret tt);;
  ret (observed t msg b).

(** The complete messages of the backend's buffer, from [consumed] on. *)
Fixpoint backend_messages (fuel consumed : nat) (b : BackendDataBatch) : M (nat * BackendDataBatch) :=
  s ← self;
  match fuel, get_from consumed (backend_buf s) ≫= PacketHeader_parse with
  | S fuel, Some header =>
      validate_backend_header header;;
      let total_len := Z.to_nat (total_length header) in
      match get_range consumed (consumed + total_len) (backend_buf s) with
      | None => ret (consumed, b)
      | Some msg =>
          b ← observe_backend_message (msg_type header) msg b;
          backend_messages fuel (consumed + total_len) b
      end
  | _, _ => ret (consumed, b)
  end.

Definition update_proxy_mode (mode : ProxyMode) : M () :=
  s ← self;
  if bool_decide (proxy_mode (conn s) = mode) then ret tt
  else modify (with_conn (with_proxy_mode mode));; request (MoveProxyMode (proxy_mode (conn s)) mode).
Definition update_tx_status (status : TransactionStatus) : M () :=
  s ← self;
  if bool_decide (tx_status (conn s) = status) then ret tt
  else modify (with_conn (with_tx_status status));; request (MoveTxStatus (tx_status (conn s)) status).

Definition apply_backend_data_batch (b : BackendDataBatch) : M () :=
  (if (0 <? batch_bytes_received b) || negb (bool_decide (acks b = []))
   then modify (with_conn (λ c,
          foldl acknowledge
            (with_counts (bytes_sent c) (bytes_received c + batch_bytes_received b)
               (queries_processed c + queries_completed b) c) (acks b)))
   else ret tt);;
  match mode_transition b with Some mode => update_proxy_mode mode | None => ret tt end;;
  match final_tx_status b with Some status => update_tx_status status | None => ret tt end.

Definition to_client (data : bytes) : M () := w ← request (ToClient data); writing w.

Definition forward_passthrough_backend_data : M () :=
  s ← self;
  to_client (backend_buf s);;
  modify (with_backend_buf []);;
  modify (with_conn (λ c, with_counts (bytes_sent c)
            (bytes_received c + Z.of_nat (length (backend_buf s))) (queries_processed c) c)).

Definition process_backend_data : M () :=
  s ← self;
  if bool_decide (proxy_mode (conn s) = SslPassthrough) then forward_passthrough_backend_data
  else
    ' (consumed, b) ← backend_messages (length (backend_buf s)) 0 empty_backend_batch;
    (if (consumed =? 0)%nat then ret tt
     else
       modify (with_backend_buf (drop consumed (backend_buf s)));;
       to_client (take consumed (backend_buf s)));;
    apply_backend_data_batch b.

(** ** The proxy loop *)
Definition handle_client_read_result (data : bytes) : M bool :=
  match data with
  | [] => ret true
  | _ =>
      s ← self;
      if MAX_GATEWAY_BUFFER_SIZE <? Z.of_nat (length (client_buf s)) then throw Protocol
      else
        now ← request Now;
        modify (with_last_activity now);;
        process_client_data;;
        ret false
  end.

Definition handle_backend_read_result (data : bytes) : M () :=
  match data with
  | [] => handle_backend_disconnect
  | _ =>
      s ← self;
      if MAX_GATEWAY_BUFFER_SIZE <? Z.of_nat (length (backend_buf s)) then throw Protocol
      else
        now ← request Now;
        modify (with_last_activity now);;
        process_backend_data
  end.

(** One turn; [true] when the client left. *)
Definition proxy_turn : M bool :=
  wait_for_upgrade_hold_if_needed;;
  wait_for_fence_if_needed;;
  follow_route;;
  s ← self;
  now ← request Now;
  let idle := idle_remaining (sat_sub now (last_activity s)) (idle_timeout_ms (config s) * ms)
                (response_pending (conn s)) in
  if bool_decide (idle = Some 0) then sever_idle
  else
    w ← request (Select idle);
    match w with
    | IdleElapsed => sever_idle
    | LeaderMoved open | FenceMoved open => if open : bool then ret false else throw ChannelClosed
    | ClientRead None => throw Io
    | ClientRead (Some data) =>
        s ← self;
        modify (with_client_buf (client_buf s ++ data));; handle_client_read_result data
    | BackendRead r =>
        let data := default [] r in
        s ← self;
        modify (with_backend_buf (backend_buf s ++ data));; handle_backend_read_result data;; ret false
    end.

Fixpoint proxy_turns (n : nat) : M () :=
  match n with
  | O => throw StillWaiting
  | S n => left ← proxy_turn; if left : bool then ret tt else proxy_turns n
  end.
Definition proxy_loop (turns : nat) : M () :=
  now ← request Now; modify (with_last_activity now);; proxy_turns turns.

Definition serve (turns : nat) (startup : bytes) : M () :=
  leader ← await_route;
  connect_to_backend leader;;
  replay startup;;
  proxy_loop turns.

(** ** From the first bytes *)
Inductive StartupOrCancel := Startup (msg : bytes) | Cancel (msg : bytes).

(** A bounded [read_exact]: [None] when the startup timeout expired. *)
Definition read_exact (n : Z) : M (option bytes) :=
  r ← request (ReadExact n);
  match r with
  | None => ret None
  | Some None => throw Io
  | Some (Some data) => ret (Some data)
  end.

Definition read_startup_or_cancel : M (option StartupOrCancel) :=
  s ← self;
  header ← match preread s with
           | Some header => modify (with_preread None);; ret (Some header)
           | None => read_exact 8
           end;
  match header with
  | None => ret None
  | Some header =>
      if is_ssl_request header || is_gssenc_request header then throw Protocol
      else
        let length := match header with b0 :: b1 :: b2 :: b3 :: _ => u32_from_be b0 b1 b2 b3 | _ => 0 end in
        if is_cancel_request header then
          if negb ((16 <=? length) && (length <=? MAX_CANCEL_REQUEST_LEN)) then throw Protocol
          else
            rest ← read_exact (length - 8);
            ret (match rest with Some rest => Some (Cancel (header ++ rest)) | None => None end)
        else if negb ((8 <=? length) && (length <=? MAX_STARTUP_PACKET_LEN)) then throw Protocol
        else if 8 <? length then
          rest ← read_exact (length - 8);
          ret (match rest with Some rest => Some (Startup (header ++ rest)) | None => None end)
        else ret (Some (Startup header))
  end.

Definition forward_cancel_request (cancel_msg : bytes) : M () :=
  match cancel_request_key cancel_msg with
  | None => throw Protocol
  | Some (pid, secret) =>
      target ← request (LookupCancel pid secret);
      match target with
      | None => ret tt
      | Some target =>
          if bool_decide (addr target = UNKNOWN_SOCKET_ADDR) then throw NoLeader
          else
            c ← request (CancelConnect (addr target));
            match c with
            | TimedOut => throw ConnectionTimeout
            | Refused | NoDelayFailed => throw Connect
            | Connected =>
                ok ← request (CancelWrite (addr target)
                               (build_cancel_request (ClientSession.pid (key target))
                                  (ClientSession.secret (key target))));
                if ok : bool then ret tt else throw Io
            end
      end
  end.

(** The session a startup message begins. *)
Definition run_session (turns : nat) (startup : bytes) : M () :=
  if startup_has_replication_option startup then send_fatal (lit "0A000")
  else
    modify (with_startup (Some startup));;
    result ← attempt (serve turns startup);
    cleanup_backend_key;;
    s ← self;
    match result with
    | Err StillWaiting => ret tt
    | Err e => when (negb (client_told s)) (send_fatal (ending_sqlstate e))
    | Ok _ => ret tt
    end;;
    of_result result.

Definition run (turns : nat) : M () :=
  initial ← read_startup_or_cancel;
  match initial with
  | None => throw ConnectionTimeout
  | Some (Startup startup) => run_session turns startup
  | Some (Cancel cancel_msg) => forward_cancel_request cancel_msg
  end.
End Analysis.
End Rounds.

(** A handler as [ConnectionHandler::new] makes it. *)
Definition new (conn : ConnectionState) (config : GatewayConfig) (preread : option bytes) : Handler :=
  Handler_ conn config None false preread false [] [] 0.
