(* ===== verification/GatewayProofs.v ===== *)
(** * What the connection handler guarantees, whatever the outside answers

    Client data goes only to the backend the session's route names, under an unexpired
    lease; a session moves only when it is migratable and then carries over its whole
    replay set; and every ending is told to the client exactly once. *)

From S2P Require Import Prelude Effects Text Net Utf8 Wire Lease Governor ClientSession Gateway.
From S2P Require SqlScan.
From Stdlib Require Import Strings.Byte.
#[local] Open Scope method_scope.

Abbreviation hist := (list (@event Req Reply)).

(** ** The logic of methods *)
Definition spec {A} (ok : hist → Req → Prop) (h : hist) (s : Handler) (m : M A)
    (Q : hist → Handler → result Error A → Prop) : Prop :=
  safe any_answer ok h (m s) (λ h' p, Q h' p.1 p.2).

Lemma spec_ret {A} ok h s (a : A) Q : Q h s (Ok a) → spec ok h s (ret a) Q.
Proof. done. Qed.
Lemma spec_throw {A} ok h s e (Q : _ → _ → result Error A → Prop) : Q h s (Err e) → spec ok h s (throw e) Q.
Proof. done. Qed.
Lemma spec_self ok h s Q : Q h s (Ok s) → spec ok h s self Q.
Proof. done. Qed.
Lemma spec_modify ok h s f Q : Q h (f s) (Ok tt) → spec ok h s (modify f) Q.
Proof. done. Qed.
Lemma spec_of_result {A} ok h s (r : result Error A) Q : Q h s r → spec ok h s (of_result r) Q.
Proof. done. Qed.
Lemma spec_request ok h s q Q :
  ok h q → (∀ r, Q (h ++ [answered q r]) s (Ok r)) → spec ok h s (request q) Q.
Proof. intros Hq HQ. split; [done|]. intros r _. apply HQ. Qed.

Lemma spec_mono {A} ok h s (m : M A) Q Q' :
  spec ok h s m Q → (∀ h' s' r, Q h' s' r → Q' h' s' r) → spec ok h s m Q'.
Proof. intros H HQ. eapply safe_post; [exact H|]. intros h' [s' r]. apply HQ. Qed.

Lemma spec_bind {A B} ok h s (m : M A) (f : A → M B) Q :
  spec ok h s m (λ h' s' r, match r with Ok a => spec ok h' s' (f a) Q | Err e => Q h' s' (Err e) end) →
  spec ok h s (mbnd m f) Q.
Proof.
  intros H. apply safe_bind. eapply safe_post; [exact H|]. by intros h' [s' [a|e]].
Qed.

Lemma spec_attempt {A} ok h s (m : M A) Q :
  spec ok h s m (λ h' s' r, Q h' s' (Ok r)) → spec ok h s (attempt m) Q.
Proof. intros H. apply safe_bind. eapply safe_post; [exact H|]. by intros h' [s' r]. Qed.

(** A run and its requests, from a [spec]. *)
Lemma spec_runs {A} ok h s (m : M A) Q t s' r :
  spec ok h s m Q → runs (m s) t (s', r) → Q (h ++ t) s' r.
Proof. intros H Hr. by apply (safe_runs any_answer ok h (m s) _ t (s', r) H Hr). Qed.

Lemma spec_issues {A} ok h s (m : M A) Q t q :
  spec ok h s m Q → issues (m s) t q → ok (h ++ t) q.
Proof. intros H Hi. by apply (safe_issues any_answer ok h (m s) _ t q H Hi). Qed.

(** ** Every ending is told once *)
Fixpoint fatals (h : hist) : nat :=
  match h with
  | [] => 0
  | existT (Fatal _) _ :: h' => S (fatals h')
  | _ :: h' => fatals h'
  end.
Lemma fatals_app h t : fatals (h ++ t) = (fatals h + fatals t)%nat.
Proof. induction h as [|[[] r] h IH]; simpl; auto. Qed.

(** What a method that starts with nothing told leaves: nothing told on success; on
    an error that [silent] lists, nothing either; on any other, at most one telling. *)
Definition told_as {A} (silent : Error → bool) (n : nat) (h : hist) (s : Handler) (r : result Error A)
    : Prop :=
  fatals h = (n + if client_told s then 1 else 0)%nat ∧
  match r with Ok _ => client_told s = false | Err e => silent e = true → client_told s = false end.

Definition tells {A} (silent : Error → bool) (m : M A) : Prop :=
  ∀ h s, client_told s = false →
  spec any_request h s m (told_as silent (fatals h)).

Definition is_fatal (q : Req) : bool := match q with Fatal _ => true | _ => false end.
Lemma fatals_snoc h q r : fatals (h ++ [answered q r]) = (fatals h + if is_fatal q then 1 else 0)%nat.
Proof. rewrite fatals_app. by destruct q. Qed.

Section Tells.
Context (silent : Error → bool).
Local Notation tells := (tells silent).

Lemma told_start {A} h s (a : A) : client_told s = false → told_as silent (fatals h) h s (Ok a).
Proof. intros H. split; [|done]. rewrite H. lia. Qed.

Lemma tells_ret {A} (a : A) : tells (ret a).
Proof. intros h s H. by apply (told_start h s a). Qed.
Lemma tells_throw {A} e : tells (@throw A e).
Proof. intros h s H. split; [cbn; rewrite H; lia|]. by intros _. Qed.
Lemma tells_self : tells self.
Proof. intros h s H. by apply (told_start h s s). Qed.
Lemma tells_modify f : (∀ s, client_told (f s) = client_told s) → tells (modify f).
Proof. intros Hf h s H. apply spec_modify. split; cbn; rewrite Hf, H; [lia|done]. Qed.
Lemma tells_bind {A B} (m : M A) (f : A → M B) : tells m → (∀ a, tells (f a)) → tells (mbnd m f).
Proof.
  intros Hm Hf h s H. apply spec_bind. eapply spec_mono; [by apply Hm|].
  intros h' s' [a|e] [Hn Ht]; [|split; [done|apply Ht]].
  eapply spec_mono; [by apply Hf|]. intros h'' s'' r [Hn' Ht']. split; [|done].
  rewrite Ht in Hn. lia.
Qed.
Lemma tells_request q : is_fatal q = false → tells (request q).
Proof.
  intros Hq h s H. apply spec_request; [done|]. intros r. split; [|done].
  rewrite fatals_snoc, Hq, H. lia.
Qed.
Lemma tells_when b m : tells m → tells (when b m).
Proof. intros H. destruct b; [done|]. apply tells_ret. Qed.
Lemma tells_fatal {A} sqlstate e :
  silent e = false → tells (send_fatal sqlstate;; @throw A e).
Proof.
  intros He h s H. apply spec_bind. unfold send_fatal. apply spec_bind, spec_modify.
  apply spec_request; [done|]. intros r. apply spec_throw. split; [|by rewrite He].
  rewrite fatals_snoc. cbn. lia.
Qed.
Lemma tells_sever {A} e : silent e = false → tells (@sever A e).
Proof. apply tells_fatal. Qed.
(** A caller that looks at the result of a call whose errors are silent where it goes
    on. *)
Lemma tells_attempt {A B} (m : M A) (f : result Error A → M B) (quiet : Error → bool) :
  GatewayProofs.tells quiet m → (∀ a, tells (f (Ok a))) →
  (∀ e, (quiet e = true ∧ tells (f (Err e))) ∨ (f (Err e) = throw e ∧ (silent e = true → quiet e = true))) →
  tells (mbnd (attempt m) f).
Proof.
  intros Hm Hok Herr h s H. apply spec_bind, spec_attempt. eapply spec_mono; [by apply Hm|].
  intros h' s' r [Hn Ht].
  assert (Hgo : ∀ g : M B, client_told s' = false → tells g → spec any_request h' s' g (told_as silent (fatals h))).
  { intros g Ht' Hg. eapply spec_mono; [by apply Hg|]. intros h'' s'' r' [Hn' Ht'']. split; [|done].
    rewrite Ht' in Hn. lia. }
  destruct r as [a|e]; [by apply Hgo|]. destruct (Herr e) as [[He Hg]|[-> He]]; [by apply Hgo; [apply Ht|]|].
  apply spec_throw. split; [done|]. auto.
Qed.
End Tells.

Create HintDb tells.
#[export] Hint Resolve tells_ret tells_throw tells_self tells_when : tells.
#[export] Hint Extern 1 (tells _ (modify _)) => (apply tells_modify; by intros ?) : tells.
#[export] Hint Extern 1 (tells _ (request _)) => (by apply tells_request) : tells.
#[export] Hint Extern 1 (tells _ (sever _)) => (by apply tells_sever) : tells.

(** Through a method, branch by branch. *)
Ltac tells :=
  repeat (intros;
    first
      [ solve [auto with tells]
      | lazymatch goal with
        | |- tells _ (mbnd _ _) => apply tells_bind
        | |- tells _ (when _ _) => apply tells_when
        | |- tells _ (if ?b then _ else _) => destruct b
        | |- tells _ (match ?x with _ => _ end) => destruct x
        | |- tells _ (let _ := _ in _) => cbv zeta
        end ]).

Section Handlers.
Context (rounds : nat).

(** *** Errors that a retry may recover from are never told *)
Local Notation quiet := (tells reconnect_may_recover).

Lemma tells_weaken {A} (p q : Error → bool) (m : M A) :
  (∀ e, q e = true → p e = true) → tells p m → tells q m.
Proof.
  intros Hpq Hm h s H. eapply spec_mono; [by apply Hm|]. intros h' s' [a|e] [Hn Ht]; split; auto.
Qed.

Lemma tells_get_leader p : tells p get_leader.
Proof. unfold get_leader. tells. Qed.
#[local] Hint Resolve tells_get_leader : tells.

Lemma tells_await_fence p waits n deadline :
  p Fenced = false → tells p (await_fence_until n waits deadline).
Proof. intros Hp. induction n as [|n IH]; cbn [await_fence_until]; tells. Qed.
#[local] Hint Extern 1 (tells _ (await_fence_until _ _ _)) => (by apply tells_await_fence) : tells.

Lemma tells_upgrade_hold p : p Fenced = false → tells p (wait_for_upgrade_hold_if_needed rounds).
Proof. intros Hp. unfold wait_for_upgrade_hold_if_needed. tells. Qed.
Lemma tells_fence_wait p : p Fenced = false → tells p (wait_for_fence_if_needed rounds).
Proof. intros Hp. unfold wait_for_fence_if_needed. tells. Qed.
#[local] Hint Extern 1 (tells _ (wait_for_upgrade_hold_if_needed _)) => (by apply tells_upgrade_hold) : tells.
#[local] Hint Extern 1 (tells _ (wait_for_fence_if_needed _)) => (by apply tells_fence_wait) : tells.

Lemma tells_key_data p msg b : tells p (handle_backend_key_data_message msg b).
Proof. unfold handle_backend_key_data_message. tells. Qed.
#[local] Hint Resolve tells_key_data : tells.

Lemma tells_scan p fuel refused : tells p (scan_until_ready fuel refused).
Proof.
  revert refused. induction fuel as [|f IH]; intros refused; cbn [scan_until_ready]; tells.
  unfold validate_backend_header. tells.
Qed.
#[local] Hint Resolve tells_scan : tells.

Lemma tells_read_ready p n timeout refused : tells p (read_until_ready n timeout refused).
Proof. revert refused. induction n as [|n IH]; intros refused; cbn [read_until_ready]; tells. Qed.
#[local] Hint Resolve tells_read_ready : tells.

Lemma tells_wait_for_ready : quiet (wait_for_ready rounds).
Proof. unfold wait_for_ready. tells. Qed.
#[local] Hint Resolve tells_wait_for_ready : tells.

Lemma tells_replay p data : tells p (replay data).
Proof. unfold replay, writing. tells. Qed.
#[local] Hint Resolve tells_replay : tells.

Lemma tells_restore_listen l : quiet (restore_listen rounds l).
Proof. induction l as [|m l IH]; cbn [restore_listen]; tells. Qed.
Lemma tells_restore_prepared l : quiet (restore_prepared rounds l).
Proof. induction l as [|m l IH]; cbn [restore_prepared]; tells. Qed.
#[local] Hint Resolve tells_restore_listen tells_restore_prepared : tells.

Lemma tells_unregister p : tells p unregister_backend_key.
Proof. unfold unregister_backend_key. tells. Qed.
#[local] Hint Resolve tells_unregister : tells.

Lemma tells_connect p a : tells p (connect_to_backend a).
Proof. unfold connect_to_backend. tells. Qed.
#[local] Hint Resolve tells_connect : tells.

Lemma tells_migrate a : quiet (migrate rounds a).
Proof. unfold migrate, restore_listen_subscriptions, restore_prepared_statements. tells. Qed.
#[local] Hint Resolve tells_migrate : tells.

Lemma tells_leader_change b : quiet (handle_leader_change rounds b).
Proof. unfold handle_leader_change. tells. Qed.

(** *** The rest *)
Definition no_errors (e : Error) : bool := false.
Local Notation plain := (tells no_errors).

Lemma tells_freeze_hold : plain (hold_for_upgrade_freeze_after_disconnect rounds).
Proof. unfold hold_for_upgrade_freeze_after_disconnect. tells. Qed.
#[local] Hint Resolve tells_freeze_hold : tells.

(** Only a deadline ends the recovery with [BackendDisconnected], and says nothing. *)
Definition lost (e : Error) : bool := bool_decide (e = BackendDisconnected).

Lemma tells_recover n deadline : tells lost (recover_lost_backend_until rounds n deadline).
Proof.
  induction n as [|n IH]; cbn [recover_lost_backend_until]; [tells|].
  apply tells_bind; [tells|intros f]. apply tells_bind.
  { apply tells_when. unfold hold_for_upgrade_freeze_after_disconnect. tells. }
  intros _. eapply tells_attempt; [apply tells_leader_change|tells|]. intros e.
  destruct (reconnect_may_recover e) eqn:E; [left; split; [done|tells]|right]. split; [done|].
  intros He. unfold lost in He. by apply bool_decide_eq_true in He as ->.
Qed.

Lemma tells_reroute : plain (reroute_lost_backend rounds).
Proof.
  unfold reroute_lost_backend. eapply tells_attempt.
  - unfold recover_lost_backend. apply tells_bind; [tells|]. intros now. apply tells_recover.
  - tells.
  - intros e. destruct (decide (e = BackendDisconnected)) as [->|He]; [left; split; [done|tells]|right].
    split; [by destruct e|done].
Qed.
#[local] Hint Resolve tells_reroute : tells.

Lemma tells_disconnect : plain (handle_backend_disconnect rounds).
Proof. unfold handle_backend_disconnect. tells. Qed.
#[local] Hint Resolve tells_disconnect : tells.

Lemma tells_await_route p : tells p (await_route rounds).
Proof.
  unfold await_route. apply tells_bind; [tells|]. intros now.
  generalize (now + FENCE_WAIT_TIMEOUT_SECS * secs). intros d.
  generalize rounds at 1. intros n. induction n as [|n IH]; cbn [await_route_until]; tells.
Qed.

Lemma tells_follow_route : plain (follow_route rounds).
Proof.
  unfold follow_route. apply tells_bind; [tells|intros s]. apply tells_bind; [tells|intros r]. cbv zeta.
  match goal with |- context [mbnd (attempt (handle_leader_change _ _)) ?f] =>
    assert (Hfollow : plain (mbnd (attempt (handle_leader_change rounds false)) f)) end.
  { eapply tells_attempt; [apply tells_leader_change|tells|]. intros e.
    destruct (reconnect_may_recover e) eqn:E; [left; split; [done|tells]|right; done]. }
  destruct (bool_decide _); [tells|]. destruct r; [done|]. destruct (negb _); [tells|].
  apply (tells_attempt _ _ _ (λ _, true)); [apply tells_await_route|done|].
  intros e. left. split; [done|]. destruct e; tells.
Qed.
#[local] Hint Resolve tells_follow_route : tells.

Section Parser.
Context (parse : bytes → option (list (option SqlScan.Node)))
        (split_with_scanner : bytes → option (list bytes)).

Lemma tells_session_changes p l : tells p (apply_session_changes l).
Proof. induction l as [|c l IH]; cbn [apply_session_changes]; [tells|].
  apply tells_bind; [unfold mark_session_non_migratable; tells|]. tells. Qed.
#[local] Hint Resolve tells_session_changes : tells.

Lemma tells_query_message p t msg : tells p (handle_query_message parse split_with_scanner t msg).
Proof.
  unfold handle_query_message, observe_parse_message, capture_parse_for_replay, analyzed,
    mark_session_non_migratable. destruct t; tells.
Qed.
#[local] Hint Resolve tells_query_message : tells.

Lemma tells_client_messages fuel max snap b :
  plain (client_messages parse split_with_scanner fuel max snap b).
Proof.
  revert b. induction fuel as [|f IH]; intros b; cbn [client_messages]; [tells|].
  unfold validate_client_header, track_extended_protocol_usage, fence_message. tells.
Qed.
#[local] Hint Resolve tells_client_messages : tells.

Lemma tells_commit p b : tells p (commit_client_batch b).
Proof. unfold commit_client_batch. tells. Qed.
#[local] Hint Resolve tells_commit : tells.

Lemma tells_process_client : plain (process_client_data parse split_with_scanner).
Proof. unfold process_client_data, batch_fence_snapshot, forward, writing. tells. Qed.
#[local] Hint Resolve tells_process_client : tells.

Lemma tells_backend_messages p fuel consumed b : tells p (backend_messages fuel consumed b).
Proof.
  revert consumed b. induction fuel as [|f IH]; intros consumed b; cbn [backend_messages]; [tells|].
  unfold validate_backend_header, observe_backend_message. tells.
Qed.
#[local] Hint Resolve tells_backend_messages : tells.

Lemma tells_process_backend p : tells p process_backend_data.
Proof.
  unfold process_backend_data, forward_passthrough_backend_data, apply_backend_data_batch,
    update_proxy_mode, update_tx_status, to_client, writing. tells.
Qed.
#[local] Hint Resolve tells_process_backend : tells.

Lemma tells_sever_idle {A} : plain (@sever_idle A).
Proof. by apply tells_fatal. Qed.
#[local] Hint Resolve tells_sever_idle : tells.

Lemma tells_turn : plain (proxy_turn rounds parse split_with_scanner).
Proof.
  unfold proxy_turn, handle_client_read_result, handle_backend_read_result.
  tells.
Qed.
#[local] Hint Resolve tells_turn : tells.

Lemma tells_serve turns startup : plain (serve rounds parse split_with_scanner turns startup).
Proof.
  unfold serve, proxy_loop. apply tells_bind; [apply tells_await_route|]. intros leader. tells.
  induction turns as [|n IH]; cbn [proxy_turns]; tells.
Qed.
End Parser.
End Handlers.

(** Every ending of a session is told to the client exactly once: whatever the
    watches, the backends and the sockets do, a session that ends in an error has
    had one FATAL sent, and one that the client ended has had none. *)
Lemma every_ending_is_told_once (rounds turns : nat) parse split_with_scanner
    (startup : bytes) (s s' : Handler) (t : hist) (r : result Error ()) :
  client_told s = false → startup_has_replication_option startup = false →
  runs (run_session rounds parse split_with_scanner turns startup s) t (s', r) →
  r ≠ Err StillWaiting →
  fatals t = if is_ok r then 0%nat else 1%nat.
Proof.
  intros Hs Hrep Hrun Hr.
  enough (spec any_request [] s (run_session rounds parse split_with_scanner turns startup)
            (λ h _ r, r ≠ Err StillWaiting → fatals h = if is_ok r then 0%nat else 1%nat)) as H
    by (by apply (spec_runs _ [] s _ _ t s' r H)).
  unfold run_session. rewrite Hrep. apply spec_bind, spec_modify, spec_bind, spec_attempt.
  eapply spec_mono; [by apply tells_serve|].
  intros h1 s1 r1 [Hn Ht]. cbn [fatals Nat.add] in Hn.
  apply spec_bind. eapply spec_mono.
  { unfold cleanup_backend_key, unregister_backend_key. apply spec_bind, spec_self.
    instantiate (1 := λ h2 s2 r2, fatals h2 = fatals h1 ∧ s2 = s1 ∧ is_ok r2 = true).
    destruct (backend_key _); [apply spec_request; [done|]; intros u|done].
    rewrite fatals_snoc. split; [cbn; lia|done]. }
  intros h2 s2 [a|e] (Hn2 & -> & Hok); [|done]. apply spec_bind, spec_self.
  destruct r1 as [u|e].
  { apply spec_bind, spec_ret, spec_of_result. intros _. rewrite Hn2, Hn. by rewrite Ht. }
  destruct (decide (e = StillWaiting)) as [->|He].
  { by apply spec_bind, spec_ret, spec_of_result. }
  assert (Hend : spec any_request h2 s1 (when (negb (client_told s1)) (send_fatal (ending_sqlstate e)))
            (λ h _ r, fatals h = 1%nat ∧ is_ok r = true)).
  { destruct (client_told s1); cbn [negb when].
    - apply spec_ret. split; [lia|done].
    - unfold send_fatal. apply spec_bind, spec_modify, spec_request; [done|]. intros v.
      rewrite fatals_snoc. cbn. split; [lia|done]. }
  apply spec_bind. destruct e; try done;
    (eapply spec_mono; [exact Hend|]; intros h3 s3 [v|e'] [H3 Hok3]; [|done];
     apply spec_of_result; intros _; exact H3).
Qed.

(** ** Client data goes to the route, under the lease *)

(** The backend a session is connected to: its last successful connect. *)
Definition connect_event (c : option SocketAddr) (ev : @event Req Reply) : option SocketAddr :=
  match ev with existT (ConnectTo a) Connected => Some a | _ => c end.
Definition connected (h : hist) : option SocketAddr := foldl connect_event None h.

Lemma connected_snoc h ev : connected (h ++ [ev]) = connect_event (connected h) ev.
Proof. apply foldl_snoc. Qed.

Definition is_analysis (ev : @event Req Reply) : Prop :=
  match ev with existT (Analyze _) _ => True | _ => False end.

Lemma connected_analyses h an : Forall is_analysis an → connected (h ++ an) = connected h.
Proof.
  induction an as [|ev an IH] using rev_ind; intros Han; [by rewrite app_nil_r|].
  apply Forall_app in Han as [Han Hev]. rewrite app_assoc, connected_snoc, IH by done.
  apply Forall_cons in Hev as [Hev _]. by destruct ev as [[] ?].
Qed.

(** The session's backend is its route by the watches, and the lease, if this node
    leads, has not run out: all read after the batch came in, with nothing but the
    analysis of its messages since. *)
Definition guarded (h : hist) : Prop :=
  ∃ h0 (lease : bool * Z) f l t an backend,
    h = (h0 ++ [answered (R := Reply) ReadLease lease; answered (R := Reply) ReadFence f;
                answered (R := Reply) ReadLeader l; answered (R := Reply) Now t]) ++ an ∧
    Forall is_analysis an ∧
    connected h = Some backend ∧ route f l = Some backend ∧ (lease.1 = true → t < lease.2).

Definition forwards_guarded (h : hist) (q : Req) : Prop :=
  match q with Forward _ => guarded h | _ => True end.

Definition keeps {A} (I : hist → Handler → Prop) (ok : hist → Req → Prop) (m : M A) : Prop :=
  ∀ h s, I h s → spec ok h s m (λ h' s' _, I h' s').

Section Keeps.
Context {I : hist → Handler → Prop} {ok : hist → Req → Prop}.
Local Notation keeps := (keeps I ok).

Lemma keeps_ret {A} (a : A) : keeps (ret a).
Proof. by intros h s H. Qed.
Lemma keeps_throw {A} e : keeps (@throw A e).
Proof. by intros h s H. Qed.
Lemma keeps_self : keeps self.
Proof. by intros h s H. Qed.
Lemma keeps_of_result {A} (r : result Error A) : keeps (of_result r).
Proof. by intros h s H. Qed.
Lemma keeps_bind {A B} (m : M A) (f : A → M B) : keeps m → (∀ a, keeps (f a)) → keeps (mbnd m f).
Proof.
  intros Hm Hf h s H. apply spec_bind. eapply spec_mono; [by apply Hm|].
  intros h' s' [a|e] H'; [by apply Hf|done].
Qed.
Lemma keeps_attempt {A} (m : M A) : keeps m → keeps (attempt m).
Proof. intros Hm h s H. apply spec_attempt. by apply Hm. Qed.
Lemma keeps_when b m : keeps m → keeps (when b m).
Proof. intros H. destruct b; [done|apply keeps_ret]. Qed.
Lemma keeps_modify f : (∀ h s, I h s → I h (f s)) → keeps (modify f).
Proof. intros Hf h s H. apply spec_modify. by apply Hf. Qed.
Lemma keeps_request q :
  (∀ h s, I h s → ok h q) → (∀ h s r, I h s → I (h ++ [answered q r]) s) → keeps (request q).
Proof. intros Hok HI h s H. apply spec_request; [by eapply Hok|]. intros r. by apply HI. Qed.
End Keeps.

Create HintDb keeps.
#[export] Hint Resolve keeps_ret keeps_throw keeps_self keeps_of_result : keeps.

(** Branch by branch; [leaf] closes requests and modifications. *)
Ltac keeps_with leaf :=
  repeat (intros;
    first
      [ solve [auto with keeps]
      | leaf
      | lazymatch goal with
        | |- keeps _ _ (mbnd _ _) => apply keeps_bind
        | |- keeps _ _ (when _ _) => apply keeps_when
        | |- keeps _ _ (attempt _) => apply keeps_attempt
        | |- keeps _ _ (sever _) => unfold sever, send_failover_error_response
        | |- keeps _ _ (send_fatal _) => unfold send_fatal
        | |- keeps _ _ (if ?b then _ else _) => destruct b
        | |- keeps _ _ (match ?x with _ => _ end) => destruct x
        | |- keeps _ _ (let _ := _ in _) => cbv zeta
        end ]).

Definition on_backend (h : hist) (s : Handler) : Prop :=
  is_Some (connected h) ∧ connected h = backend_addr (conn s) ∧ proxy_mode (conn s) ≠ SslPassthrough.

Lemma on_backend_same h s s' :
  backend_addr (conn s') = backend_addr (conn s) → proxy_mode (conn s') = proxy_mode (conn s) →
  on_backend h s → on_backend h s'.
Proof. unfold on_backend. by intros -> ->. Qed.

Lemma on_backend_snoc h s ev :
  (∀ c, connect_event c ev = c) → on_backend h s → on_backend (h ++ [ev]) s.
Proof. unfold on_backend. by intros Hev; rewrite connected_snoc, Hev. Qed.

Local Notation gated := (keeps on_backend forwards_guarded).

Lemma gated_request q :
  match q with ConnectTo _ | Forward _ => False | _ => True end → gated (request q).
Proof. intros Hq. apply keeps_request; [by destruct q|]. intros h s r. apply on_backend_snoc. by destruct q. Qed.
Lemma gated_modify f :
  (∀ s, backend_addr (conn (f s)) = backend_addr (conn s)) →
  (∀ s, proxy_mode (conn (f s)) = proxy_mode (conn s)) → gated (modify f).
Proof. intros H1 H2. apply keeps_modify. intros h s. by apply on_backend_same. Qed.

Ltac gated :=
  keeps_with ltac:(first
    [ by apply gated_request
    | apply gated_modify; by intros ?
    | lazymatch goal with H : keeps _ _ ?m |- keeps _ _ ?m => exact H end ]).

Section Gated.
Context (rounds : nat).

Lemma gated_connect a : gated (connect_to_backend a).
Proof.
  unfold connect_to_backend. intros h s (Hc & Hb & Hp). apply spec_bind, spec_request; [done|].
  intros r. destruct r.
  - apply spec_modify. split_and!; rewrite ?connected_snoc; cbn; by eauto.
  - apply spec_throw. apply on_backend_snoc; done.
  - apply spec_throw. apply on_backend_snoc; done.
  - apply spec_throw. apply on_backend_snoc; done.
Qed.
#[local] Hint Resolve gated_connect : keeps.

Lemma gated_get_leader : gated get_leader.
Proof. unfold get_leader. gated. Qed.
#[local] Hint Resolve gated_get_leader : keeps.

Lemma gated_await_fence waits n deadline : gated (await_fence_until n waits deadline).
Proof. induction n as [|n IH]; cbn [await_fence_until]; gated. Qed.
#[local] Hint Resolve gated_await_fence : keeps.

Lemma gated_upgrade_hold : gated (wait_for_upgrade_hold_if_needed rounds).
Proof. unfold wait_for_upgrade_hold_if_needed. gated. Qed.
Lemma gated_fence_wait : gated (wait_for_fence_if_needed rounds).
Proof. unfold wait_for_fence_if_needed. gated. Qed.
Lemma gated_freeze_hold : gated (hold_for_upgrade_freeze_after_disconnect rounds).
Proof. unfold hold_for_upgrade_freeze_after_disconnect. gated. Qed.
#[local] Hint Resolve gated_upgrade_hold gated_fence_wait gated_freeze_hold : keeps.

Lemma gated_key_data msg b : gated (handle_backend_key_data_message msg b).
Proof. unfold handle_backend_key_data_message. gated. Qed.
#[local] Hint Resolve gated_key_data : keeps.

Lemma gated_scan fuel refused : gated (scan_until_ready fuel refused).
Proof.
  revert refused. induction fuel as [|f IH]; intros refused; cbn [scan_until_ready];
    unfold validate_backend_header; gated; apply IH.
Qed.
#[local] Hint Resolve gated_scan : keeps.

Lemma gated_read_ready n timeout refused : gated (read_until_ready n timeout refused).
Proof. revert refused. induction n as [|n IH]; intros refused; cbn [read_until_ready]; gated. Qed.
#[local] Hint Resolve gated_read_ready : keeps.

Lemma gated_wait_for_ready : gated (wait_for_ready rounds).
Proof. unfold wait_for_ready. gated. Qed.
#[local] Hint Resolve gated_wait_for_ready : keeps.

Lemma gated_replay data : gated (replay data).
Proof. unfold replay, writing. gated. Qed.
#[local] Hint Resolve gated_replay : keeps.

Lemma gated_restore_listen l : gated (restore_listen rounds l).
Proof. induction l as [|m l IH]; cbn [restore_listen]; gated. Qed.
Lemma gated_restore_prepared l : gated (restore_prepared rounds l).
Proof. induction l as [|m l IH]; cbn [restore_prepared]; gated. Qed.
#[local] Hint Resolve gated_restore_listen gated_restore_prepared : keeps.

Lemma gated_migrate a : gated (migrate rounds a).
Proof.
  unfold migrate, restore_listen_subscriptions, restore_prepared_statements, unregister_backend_key. gated.
Qed.
#[local] Hint Resolve gated_migrate : keeps.

Lemma gated_leader_change b : gated (handle_leader_change rounds b).
Proof. unfold handle_leader_change. gated. Qed.
#[local] Hint Resolve gated_leader_change : keeps.

Lemma gated_recover n deadline : gated (recover_lost_backend_until rounds n deadline).
Proof. induction n as [|n IH]; cbn [recover_lost_backend_until]; gated. Qed.
#[local] Hint Resolve gated_recover : keeps.

Lemma gated_reroute : gated (reroute_lost_backend rounds).
Proof. unfold reroute_lost_backend, recover_lost_backend. gated. Qed.
#[local] Hint Resolve gated_reroute : keeps.

Lemma gated_disconnect : gated (handle_backend_disconnect rounds).
Proof. unfold handle_backend_disconnect. gated. Qed.
#[local] Hint Resolve gated_disconnect : keeps.

Lemma gated_await_route n deadline : gated (await_route_until n deadline).
Proof. induction n as [|n IH]; cbn [await_route_until]; gated. Qed.
#[local] Hint Resolve gated_await_route : keeps.

Lemma gated_follow_route : gated (follow_route rounds).
Proof. unfold follow_route, await_route. gated. Qed.
#[local] Hint Resolve gated_follow_route : keeps.
End Gated.

#[export] Hint Resolve gated_follow_route gated_disconnect gated_upgrade_hold gated_fence_wait
  gated_key_data : keeps.

Lemma acknowledge_where s a :
  backend_addr (acknowledge s a) = backend_addr s ∧ proxy_mode (acknowledge s a) = proxy_mode s ∧
  tx_status (acknowledge s a) = tx_status s.
Proof.
  destruct a; simpl.
  - destruct (awaiting s) as [|[[[n m]|]|?|? ?] l]; try done. unfold commit_capture. by destruct (_ || _).
  - by destruct (awaiting s) as [|[?|[n|]|? ?] l].
  - by destruct (strip (awaiting s)) as [|[?|?|[|? ?] ?] l].
  - destruct (awaiting s) as [|[?|?|[|? ?] ?] l]; try done. destruct (_ && _); [|done].
    unfold apply_changes. by destruct (foldl _ _ _).
Qed.

Lemma acknowledge_all_where l s :
  backend_addr (foldl acknowledge s l) = backend_addr s ∧ proxy_mode (foldl acknowledge s l) = proxy_mode s.
Proof.
  revert s. induction l as [|a l IH]; intros s; [done|]. simpl.
  destruct (IH (acknowledge s a)) as [-> ->]. by destruct (acknowledge_where s a) as (-> & -> & _).
Qed.

(** A chunk of backend messages never enters passthrough. *)
Definition no_passthrough (b : BackendDataBatch) : Prop := mode_transition b ≠ Some SslPassthrough.

Lemma observed_no_passthrough t msg b : no_passthrough b → no_passthrough (observed t msg b).
Proof.
  unfold no_passthrough, observed, handle_ready_for_query_message. intros H.
  destruct t; cbn; try done. by destruct (_ <=? _)%nat.
Qed.

Section GatedData.
Context (rounds : nat).
Context (parse : bytes → option (list (option SqlScan.Node)))
        (split_with_scanner : bytes → option (list bytes)).

Lemma spec_backend_messages fuel consumed b h s :
  on_backend h s → no_passthrough b →
  spec forwards_guarded h s (backend_messages fuel consumed b)
    (λ h' s' r, on_backend h' s' ∧ match r with Ok p => no_passthrough p.2 | Err _ => True end).
Proof.
  revert consumed b h s. induction fuel as [|f IH]; intros consumed b h s Hon Hb; cbn [backend_messages];
    apply spec_bind, spec_self; [done|].
  destruct (_ ≫= _) as [header|]; [|done].
  apply spec_bind. unfold validate_backend_header. destruct (is_length_valid _ _); [|done].
  apply spec_ret. cbv zeta. destruct (get_range _ _ _) as [msg|]; [|done].
  apply spec_bind. unfold observe_backend_message. apply spec_bind.
  assert (Hkey : gated (if bool_decide (msg_type header = BackendKeyData)
                        then handle_backend_key_data_message msg true else ret tt)) by gated.
  eapply spec_mono; [by apply Hkey|]. intros h' s' [u|e] Hon'; [|done].
  apply spec_ret. apply IH; [done|]. by apply observed_no_passthrough.
Qed.

Lemma gated_tx_status t : gated (update_tx_status t).
Proof. unfold update_tx_status. gated. Qed.
#[local] Hint Resolve gated_tx_status : keeps.

Lemma gated_proxy_mode m : m ≠ SslPassthrough → gated (update_proxy_mode m).
Proof.
  intros Hm. unfold update_proxy_mode. apply keeps_bind; [gated|intros s0]. destruct (bool_decide _); [gated|].
  apply keeps_bind; [|gated]. apply keeps_modify. intros h s (H1 & H2 & _). split_and!; done.
Qed.

Lemma gated_apply_batch b : no_passthrough b → gated (apply_backend_data_batch b).
Proof.
  intros Hb. unfold apply_backend_data_batch. apply keeps_bind.
  { destruct (_ || _); [|gated]. apply gated_modify; intros s; cbn [conn with_conn];
      by destruct (acknowledge_all_where (acks b)
        (with_counts (bytes_sent (conn s)) (bytes_received (conn s) + batch_bytes_received b)
           (queries_processed (conn s) + queries_completed b) (conn s))) as [? ?]. }
  intros _. apply keeps_bind; [|gated].
  destruct (mode_transition b) as [m|] eqn:E; [|gated]. apply gated_proxy_mode. intros ->. by apply Hb.
Qed.

Lemma gated_process_backend : gated process_backend_data.
Proof.
  intros h s Hon. unfold process_backend_data. apply spec_bind, spec_self.
  pose proof Hon as (_ & _ & Hmode). rewrite bool_decide_eq_false_2 by done.
  apply spec_bind. eapply spec_mono; [by apply spec_backend_messages|].
  intros h' s' [[consumed b]|e] [Hon' Hb]; [|done]. cbn in Hb.
  revert h' s' Hon'. change (gated ((if (consumed =? 0)%nat then ret tt
     else modify (with_backend_buf (drop consumed (backend_buf s)));;
       to_client (take consumed (backend_buf s)));; apply_backend_data_batch b)).
  pose proof (gated_apply_batch b Hb). unfold to_client, writing. gated.
Qed.
#[local] Hint Resolve gated_process_backend : keeps.

(** What the messages of one batch may have done. *)
Definition clear (snap : BatchFenceSnapshot) : Prop :=
  snap_backend_stale snap = false ∧ (snap_is_leader snap = true → snap_now snap < snap_valid_until snap).

Definition analyzed_since (h0 : hist) (s0 : Handler) (h : hist) (s : Handler) : Prop :=
  (∃ an, h = h0 ++ an ∧ Forall is_analysis an) ∧
  backend_addr (conn s) = backend_addr (conn s0) ∧ proxy_mode (conn s) = proxy_mode (conn s0).

Lemma keeps_query_message h0 s0 t msg :
  keeps (analyzed_since h0 s0) forwards_guarded (handle_query_message parse split_with_scanner t msg).
Proof.
  assert (Hreq : ∀ q, keeps (analyzed_since h0 s0) forwards_guarded (request (Analyze q))).
  { intros q. apply keeps_request; [done|]. intros h s r [(an & -> & Han) Hs]. split; [|done].
    exists (an ++ [answered (R := Reply) (Analyze q) r]). rewrite app_assoc. split; [done|].
    apply Forall_app. split; [done|]. by repeat constructor. }
  assert (Hrat : keeps (analyzed_since h0 s0) forwards_guarded mark_session_non_migratable)
    by (apply keeps_modify; done).
  assert (Hch : ∀ l, keeps (analyzed_since h0 s0) forwards_guarded (apply_session_changes l)).
  { induction l as [|c l IH]; cbn [apply_session_changes]; keeps_with ltac:(first [exact Hrat|exact IH]). }
  unfold handle_query_message, observe_parse_message, capture_parse_for_replay, analyzed.
  destruct t; keeps_with ltac:(first [exact Hrat|apply Hreq|apply Hch]).
Qed.

Lemma analyzed_since_refl h s : analyzed_since h s h s.
Proof. split; [|done]. exists []. by rewrite app_nil_r. Qed.

Lemma analyzed_since_on_backend h0 s0 h s :
  analyzed_since h0 s0 h s → on_backend h0 s0 → on_backend h s.
Proof.
  intros [(an & -> & Han) [Hb Hp]]. unfold on_backend. by rewrite Hb, Hp, connected_analyses.
Qed.

Lemma spec_fence_message h0 s0 h s snap t d :
  analyzed_since h0 s0 h s → on_backend h0 s0 →
  spec forwards_guarded h s (fence_message snap t d)
    (λ h' s' r, match r with
                | Ok _ => h' = h ∧ s' = s ∧ (t ≠ Terminate → clear snap)
                | Err _ => on_backend h' s' end).
Proof.
  intros Hs Hon. pose proof (analyzed_since_on_backend _ _ _ _ Hs Hon) as Hon'.
  assert (Hsever : spec forwards_guarded h s (@sever (option Z) Fenced) (λ h' s' r,
    match r with Ok _ => False | Err _ => on_backend h' s' end)).
  { unfold sever, send_failover_error_response, send_fatal. apply spec_bind, spec_bind, spec_modify,
      spec_request; [done|]. intros r. apply spec_throw. by apply on_backend_snoc. }
  unfold fence_message. case_bool_decide as Ht; [by apply spec_ret|].
  apply spec_bind. destruct (snap_backend_stale snap) eqn:Hst.
  { unfold when, sever, send_failover_error_response, send_fatal. apply spec_bind, spec_bind, spec_modify,
      spec_request; [done|]. intros r. apply spec_throw. by apply on_backend_snoc. }
  apply spec_ret. destruct (snap_is_leader snap) eqn:Hl.
  - destruct (Z.leb_spec (snap_valid_until snap) (snap_now snap)).
    + eapply spec_mono; [exact Hsever|]. by intros h' s' [a|e].
    + apply spec_ret. split_and!; [done..|]. intros _. by split.
  - apply spec_ret. split_and!; [done..|]. intros _. split; [done|congruence].
Qed.

Lemma spec_client_messages fuel max snap b h0 s0 h s :
  analyzed_since h0 s0 h s → on_backend h0 s0 → (pending b ≠ [] → clear snap) →
  spec forwards_guarded h s (client_messages parse split_with_scanner fuel max snap b)
    (λ h' s' r, match r with
                | Ok p => analyzed_since h0 s0 h' s' ∧ (pending p.1 ≠ [] → clear snap)
                | Err _ => on_backend h' s' end).
Proof.
  revert b h s. induction fuel as [|f IH]; intros b h s Hs Hon Hb; cbn [client_messages];
    apply spec_bind, spec_self; [done|].
  destruct (PacketHeader_parse _) as [header|]; [|done]. apply spec_bind.
  unfold validate_client_header. destruct (is_length_valid _ _);
    [|by apply spec_throw, (analyzed_since_on_backend _ _ _ _ Hs)].
  apply spec_ret. cbv zeta. destruct (_ <? _)%nat; [done|].
  apply spec_bind, spec_modify, spec_bind.
  set (s1 := with_client_buf _ s). assert (Hs1 : analyzed_since h0 s0 h s1) by done.
  clearbody s1. clear Hs. unfold track_extended_protocol_usage.
  assert (Htrack : spec forwards_guarded h s1
    (when (is_extended_frontend_message (msg_type header)) (modify with_extended_seen))
    (λ h' s' r, h' = h ∧ analyzed_since h0 s0 h s' ∧ is_ok r = true)).
  { destruct (is_extended_frontend_message _); [by apply spec_modify|by apply spec_ret]. }
  eapply spec_mono; [exact Htrack|]. intros h2 s2 [u|e] (-> & Hs2 & Hok); [|done].
  apply spec_bind. eapply spec_mono; [by apply (spec_fence_message h0 s0)|].
  intros h3 s3 [d|e] H3; [|done]. destruct H3 as (-> & -> & Hclear).
  apply spec_bind. eapply spec_mono; [by apply (keeps_query_message h0 s0)|].
  intros h4 s4 [answer|e] H4; [|by apply (analyzed_since_on_backend _ _ _ _ H4)].
  case_bool_decide as Ht; [by apply spec_ret|].
  apply IH; [done|done|]. intros _. by apply Hclear.
Qed.

(** The batch's snapshot, still true of the session, guards what is sent under it. *)
Lemma spec_batch_fence_snapshot h s :
  on_backend h s →
  spec forwards_guarded h s batch_fence_snapshot (λ h' s' r, s' = s ∧ on_backend h' s ∧
    match r with
    | Ok snap => clear snap → ∀ an, Forall is_analysis an → guarded (h' ++ an)
    | Err _ => False
    end).
Proof.
  intros Hon. unfold batch_fence_snapshot.
  apply spec_bind, spec_request; [done|]; intros lease.
  apply spec_bind, spec_request; [done|]; intros fence.
  apply spec_bind, spec_request; [done|]; intros leader.
  apply spec_bind, spec_self.
  apply spec_bind, spec_request; [done|]; intros now. apply spec_ret.
  rewrite <-!app_assoc. cbn [app].
  match goal with |- context [h ++ ?l] => set (h1 := h ++ l) end.
  assert (Hc : connected h1 = connected h) by (unfold h1, connected; by rewrite foldl_app).
  assert (Hon1 : on_backend h1 s) by (unfold on_backend; by rewrite Hc).
  split_and!; [done|done|]. intros [Hst Hl] an Han. destruct Hon as ([a Ha] & Hb & _).
  exists h, lease, fence, leader, now, an, a. split_and!; [done|done| | |done].
  - by rewrite connected_analyses, Hc.
  - cbn in Hst. apply negb_false_iff, bool_decide_eq_true in Hst. by rewrite Hst, <-Hb.
Qed.

Lemma gated_process_client : gated (process_client_data parse split_with_scanner).
Proof.
  intros h s Hon. unfold process_client_data. apply spec_bind, spec_self.
  pose proof Hon as (_ & _ & Hmode). cbv zeta. rewrite bool_decide_eq_false_2 by done.
  apply spec_bind. eapply spec_mono; [by apply spec_batch_fence_snapshot|].
  intros h1 s1 [snap|e] (-> & Hon1 & Hsnap); [|done].
  apply spec_bind. eapply spec_mono;
    [apply (spec_client_messages _ _ _ _ h1 s); [apply analyzed_since_refl|done|done]|].
  intros h2 s2 [[b terminated]|e] H2; [|done]. destruct H2 as [H2 Hclear]. cbn [fst] in Hclear.
  pose proof (analyzed_since_on_backend _ _ _ _ H2 Hon1) as Hon2.
  apply spec_bind. apply (spec_mono _ _ _ _ (λ h' s' _, on_backend h' s')).
  { case_bool_decide as Hp; [by apply spec_ret|]. unfold Gateway.forward. apply spec_bind, spec_request.
    - destruct H2 as [(an & -> & Han) _]. by apply Hsnap; [apply Hclear|].
    - intros r. assert (on_backend (h2 ++ [answered (R := Reply) (Forward (pending b)) r]) s2) as H
        by (by apply on_backend_snoc). by destruct r. }
  intros h3 s3 [u|e] Hon3; [|done].
  assert (Hcommit : gated (commit_client_batch b)) by (unfold commit_client_batch; gated).
  destruct terminated; [by apply Hcommit|].
  assert (Hlast : gated (match lease_deadline b with
    | Some deadline => now ← request Now; if deadline <=? now then sever Fenced else ret tt
    | None => ret tt
    end;; commit_client_batch b)) by gated.
  by apply Hlast.
Qed.
#[local] Hint Resolve gated_process_client : keeps.

Lemma gated_turn : gated (proxy_turn rounds parse split_with_scanner).
Proof. unfold proxy_turn, handle_client_read_result, handle_backend_read_result, sever_idle. gated. Qed.
#[local] Hint Resolve gated_turn : keeps.

Lemma gated_loop turns : gated (proxy_loop rounds parse split_with_scanner turns).
Proof.
  assert (Ht : gated (proxy_turns rounds parse split_with_scanner turns))
    by (induction turns as [|n IH]; cbn [proxy_turns]; gated).
  unfold proxy_loop. gated.
Qed.

(** Before there is a backend, nothing is forwarded. *)
Definition never_passthrough (h : hist) (s : Handler) : Prop := proxy_mode (conn s) ≠ SslPassthrough.

Lemma not_passthrough_await_route : keeps never_passthrough forwards_guarded (await_route rounds).
Proof.
  unfold await_route. apply keeps_bind; [by apply keeps_request|]. intros now.
  generalize (now + FENCE_WAIT_TIMEOUT_SECS * secs). intros d. generalize rounds at 1. intros n.
  induction n as [|n IH]; cbn [await_route_until]; unfold get_leader;
    keeps_with ltac:(first [by apply keeps_request|exact IH]).
Qed.

Lemma spec_serve turns startup h s :
  never_passthrough h s →
  spec forwards_guarded h s (serve rounds parse split_with_scanner turns startup) (λ _ _ _, True).
Proof.
  intros Hs. unfold serve. apply spec_bind. eapply spec_mono; [by apply not_passthrough_await_route|].
  intros h1 s1 [leader|e] H1; [|done]. apply spec_bind. unfold connect_to_backend.
  apply spec_bind, spec_request; [done|]. intros []; [|done..]. apply spec_modify.
  assert (Hrest : gated (replay startup;; proxy_loop rounds parse split_with_scanner turns)).
  { pose proof (gated_replay startup). pose proof (gated_loop turns). gated. }
  eapply spec_mono; [apply Hrest|done].
  split_and!; rewrite ?connected_snoc; cbn; by eauto.
Qed.
End GatedData.

(** C14. Whatever the client sends and however the watches move, a message of it
    is forwarded only to the backend the watches name as the session's route, and on
    the node that leads only before the lease runs out: route, lease and clock are
    read after the batch came in, and nothing but the analysis of its messages lies
    between. *)
Theorem forwards_only_to_its_route_under_the_lease (rounds turns : nat) parse split_with_scanner
    (startup data : bytes) (s : Handler) (t : hist) :
  proxy_mode (conn s) ≠ SslPassthrough →
  issues (run_session rounds parse split_with_scanner turns startup s) t (Forward data) →
  guarded t.
Proof.
  intros Hs Hi.
  enough (spec forwards_guarded [] s (run_session rounds parse split_with_scanner turns startup)
            (λ _ _ _, True)) as H by exact (spec_issues _ _ _ _ _ _ _ H Hi).
  unfold run_session. destruct (startup_has_replication_option _).
  { unfold send_fatal. by apply spec_bind, spec_modify, spec_request. }
  apply spec_bind, spec_modify, spec_bind, spec_attempt. eapply spec_mono; [by apply spec_serve|].
  intros h1 s1 r _.
  match goal with |- spec _ _ _ ?m _ => assert (Hend : keeps (λ _ _, True) forwards_guarded m) end.
  { unfold cleanup_backend_key, unregister_backend_key, send_fatal.
    keeps_with ltac:(first [by apply keeps_request|by apply keeps_modify]). }
  by apply Hend.
Qed.

(** ** Sessions played out *)
Lemma exec_is_a_run {A} oracle (p : @prog Req Reply A) : runs p (exec oracle [] p).1 (exec oracle [] p).2.
Proof. by destruct (exec_runs oracle [] p) as (t & -> & H). Qed.
Lemma exec_is_a_run_eta {A B} oracle (p : @prog Req Reply (A * B)) :
  runs p (exec oracle [] p).1 ((exec oracle [] p).2.1, (exec oracle [] p).2.2).
Proof. rewrite <-surjective_pairing. apply exec_is_a_run. Qed.

Lemma run_issues {A} (p : @prog Req Reply A) a : ∀ t q r t',
  runs p (t ++ answered q r :: t') a → issues p t q.
Proof.
  induction p as [a'|e k IH]; intros t q r t'; [by intros [? _]; destruct t|].
  intros (r1 & t1 & Et & Hr). destruct t as [|ev t]; injection Et as Eq Et.
  - left. by simplify_eq.
  - right. exists r1, t. split; [by rewrite Eq|]. apply (IH r1 t q r t'). by rewrite Et.
Qed.

Module Example.
Definition here : SocketAddr := SocketAddr_ (V4 2130706433) 0 5433.
Definition session : Handler :=
  new (ConnectionState_new 1 0) (GatewayConfig_ 5000 60000 30000) None.
(** The client sends an empty extended batch, a Sync. *)
Definition sync : bytes := build_sync.
(** This node leads with a lease until 1000; the client leaves after its batch. *)
Definition answers (h : hist) (q : Req) : Reply q :=
  match q as q return Reply q with
  | ReadLeader => Some here
  | ReadFence => unfenced
  | ReadLease => (true, 1000)
  | Now => Z.of_nat (length h)
  | Select _ => ClientRead (Some (if (length h <? 20)%nat then sync else []))
  | AwaitRoute _ | AwaitFence _ | AwaitRetry _ _ => Closed
  | ConnectTo _ | CancelConnect _ => Connected
  | Forward _ | Replay _ | ToClient _ => Written
  | ReadReady _ | ReadExact _ => None
  | Analyze _ | CancelWrite _ _ => true
  | LookupCancel _ _ => None
  | Shutdown | Fatal _ | RegisterKey _ _ | UnregisterKey _ | MoveTxStatus _ _ | MoveProxyMode _ _ => tt
  end.
(** The same, with the backend refusing the first connection. *)
Definition refused (h : hist) (q : Req) : Reply q :=
  match q as q return Reply q with ConnectTo _ => Refused | q => answers h q end.
Definition startup : bytes := [x00; x00; x00; x08; x00; x03; x00; x00]%byte.
Definition no_parser (b : bytes) : option (list (option SqlScan.Node)) := None.
Definition no_scanner (b : bytes) : option (list bytes) := None.
Definition played (oracle : hist → ∀ q, Reply q) : hist * (Handler * result Error ()) :=
  exec oracle [] (run_session 3 no_parser no_scanner 3 startup session).
Lemma played_runs oracle :
  runs (run_session 3 no_parser no_scanner 3 startup session)
    (played oracle).1 ((played oracle).2.1, (played oracle).2.2).
Proof. apply exec_is_a_run_eta. Qed.
End Example.

Lemma every_ending_is_told_once_witness :
  is_ok (Example.played Example.refused).2.2 = false ∧ fatals (Example.played Example.refused).1 = 1%nat.
Proof.
  split; [vm_compute; reflexivity|].
  refine (eq_trans (every_ending_is_told_once 3 3 Example.no_parser Example.no_scanner Example.startup
    Example.session (Example.played Example.refused).2.1 (Example.played Example.refused).1
    (Example.played Example.refused).2.2 _ _ (Example.played_runs Example.refused) _) _);
    vm_compute; done.
Defined.

Lemma forwards_only_to_its_route_under_the_lease_witness :
  proxy_mode (conn Example.session) ≠ SslPassthrough ∧ guarded (take 17 (Example.played Example.answers).1).
Proof.
  split; [vm_compute; discriminate|].
  apply (forwards_only_to_its_route_under_the_lease 3 3 Example.no_parser Example.no_scanner
    Example.startup Example.sync Example.session); [vm_compute; discriminate|].
  apply (run_issues _ ((Example.played Example.answers).2.1, (Example.played Example.answers).2.2)
    _ (Forward Example.sync) Written (drop 18 (Example.played Example.answers).1)).
  assert (take 17 (Example.played Example.answers).1 ++ answered (R := Reply) (Forward Example.sync) Written
    :: drop 18 (Example.played Example.answers).1 = (Example.played Example.answers).1) as ->
    by (vm_compute; reflexivity).
  apply Example.played_runs.
Defined.
