(* ===== verification/GatewayMoveProofs.v ===== *)
(** * Moving a session to another backend

    [follow_route] and [handle_backend_disconnect], the two ways the proxy loop moves
    a session: only a migratable one moves, and it takes along its startup message,
    its LISTENs and its prepared statements, all of them and nothing else. *)

From S2P Require Import Prelude Effects Text Net Utf8 Wire Lease Governor ClientSession Gateway GatewayProofs.
From Stdlib Require Import Strings.Byte.
#[local] Open Scope method_scope.

(** What was written to the backend a session is on, on the handler's own account. *)
Definition replay_event (l : list bytes) (ev : @event Req Reply) : list bytes :=
  match ev with
  | existT (ConnectTo _) Connected => []
  | existT (Replay data) Written => l ++ [data]
  | _ => l
  end.
Definition replayed (h : hist) : list bytes := foldl replay_event [] h.

Lemma replayed_snoc h ev : replayed (h ++ [ev]) = replay_event (replayed h) ev.
Proof. apply foldl_snoc. Qed.

(** What makes a new backend the session the client knows. *)
Definition listens (c : ConnectionState) : list bytes := build_listen_message <$> elements (channels c).
Definition prepares (parses : list bytes) : list bytes := parses ≫= λ parse, [parse; build_sync].
Definition replay_plan (s : Handler) : list bytes :=
  option_list (startup_params s) ++ listens (conn s) ++ prepares ((map_to_list (prepared (conn s))).*2).

Section Moves.
Context (rounds : nat) (s0 : Handler).

(** Only the backend's address moves. *)
Definition same_session (s : Handler) : Prop :=
  (∃ a, conn s = with_backend_addr a (conn s0)) ∧ startup_params s = startup_params s0.

Lemma same_session_migratable s : same_session s → is_migratable (conn s) = is_migratable (conn s0).
Proof. by intros [[a ->] _]. Qed.
Lemma same_session_plan s : same_session s → replay_plan s = replay_plan s0.
Proof. unfold replay_plan. by intros [[a ->] ->]. Qed.

Definition moves_migratable (h : hist) (q : Req) : Prop :=
  match q with
  | ConnectTo _ | Replay _ => is_migratable (conn s0) = true
  | Forward _ => False
  | _ => True
  end.

(** On the same backend, with [l] replayed to it. *)
Definition stays (c : ConnectionState) (a : option SocketAddr) (l : list bytes) (h : hist) (s : Handler) : Prop :=
  same_session s ∧ conn s = c ∧ connected h = a ∧ replayed h = l.

Local Notation quiet m := (∀ c a l, keeps (stays c a l) moves_migratable m) (only parsing).

Lemma quiet_request c a l q :
  match q with ConnectTo _ | Replay _ | Forward _ => False | _ => True end →
  keeps (stays c a l) moves_migratable (request q).
Proof.
  intros Hq. apply keeps_request; [by destruct q|]. intros h s r (H1 & H2 & <- & <-).
  split_and!; [done..| |]; rewrite ?connected_snoc, ?replayed_snoc; by destruct q.
Qed.
Lemma quiet_modify c a l f :
  (∀ s, conn (f s) = conn s) → (∀ s, startup_params (f s) = startup_params s) →
  keeps (stays c a l) moves_migratable (modify f).
Proof.
  intros Hc Hs. apply keeps_modify. intros h s ([Hs1 Hs2] & H2 & H3 & H4).
  split_and!; [|by rewrite Hc|done..]. split; [by rewrite Hc|by rewrite Hs].
Qed.

Ltac quiet :=
  keeps_with ltac:(first
    [ by apply quiet_request
    | apply quiet_modify; by intros ?
    | lazymatch goal with H : context [keeps _ _ ?m] |- keeps _ _ ?m => apply H end ]).

Lemma quiet_get_leader : quiet get_leader.
Proof. unfold get_leader. quiet. Qed.
#[local] Hint Resolve quiet_get_leader : keeps.
Lemma quiet_await_fence waits n deadline : quiet (await_fence_until n waits deadline).
Proof. induction n as [|n IH]; cbn [await_fence_until]; quiet. Qed.
#[local] Hint Resolve quiet_await_fence : keeps.
Lemma quiet_upgrade_hold : quiet (wait_for_upgrade_hold_if_needed rounds).
Proof. unfold wait_for_upgrade_hold_if_needed. quiet. Qed.
Lemma quiet_fence_wait : quiet (wait_for_fence_if_needed rounds).
Proof. unfold wait_for_fence_if_needed. quiet. Qed.
Lemma quiet_freeze_hold : quiet (hold_for_upgrade_freeze_after_disconnect rounds).
Proof. unfold hold_for_upgrade_freeze_after_disconnect. quiet. Qed.
#[local] Hint Resolve quiet_upgrade_hold quiet_fence_wait quiet_freeze_hold : keeps.
Lemma quiet_key_data msg : quiet (handle_backend_key_data_message msg false).
Proof. unfold handle_backend_key_data_message. quiet. Qed.
#[local] Hint Resolve quiet_key_data : keeps.
Lemma quiet_scan fuel : ∀ refused, quiet (scan_until_ready fuel refused).
Proof.
  induction fuel as [|f IH]; intros refused; cbn [scan_until_ready];
    unfold validate_backend_header; quiet.
Qed.
#[local] Hint Resolve quiet_scan : keeps.
Lemma quiet_read_ready n timeout : ∀ refused, quiet (read_until_ready n timeout refused).
Proof. induction n as [|n IH]; intros refused; cbn [read_until_ready]; quiet. Qed.
#[local] Hint Resolve quiet_read_ready : keeps.
Lemma quiet_wait_for_ready : quiet (wait_for_ready rounds).
Proof. unfold wait_for_ready. quiet. Qed.
#[local] Hint Resolve quiet_wait_for_ready : keeps.
Lemma quiet_await_route n deadline : quiet (await_route_until n deadline).
Proof. induction n as [|n IH]; cbn [await_route_until]; quiet. Qed.
#[local] Hint Resolve quiet_await_route : keeps.

(** *** Replaying *)

(** [m] leaves the session the same and, when it succeeds, [l] replayed to it. *)
Definition replays {A} (c : ConnectionState) (a : option SocketAddr) (l l' : list bytes) (m : M A) : Prop :=
  ∀ h s, stays c a l h s →
  spec moves_migratable h s m (λ h s r, same_session s ∧ (is_ok r = true → stays c a (l ++ l') h s)).

Lemma replays_quiet {A} c a l (m : M A) : keeps (stays c a l) moves_migratable m → replays c a l [] m.
Proof.
  intros Hm h s H. eapply spec_mono; [by apply Hm|]. intros h' s' r H'. rewrite app_nil_r.
  split; [apply H'|done].
Qed.
Lemma replays_bind {A B} c a l l1 l2 (m : M A) (f : A → M B) :
  replays c a l l1 m → (∀ x, replays c a (l ++ l1) l2 (f x)) → replays c a l (l1 ++ l2) (mbnd m f).
Proof.
  intros Hm Hf h s H. apply spec_bind. eapply spec_mono; [by apply Hm|].
  intros h' s' [x|e] [Hs H']; [|by split]. rewrite (assoc_L (++)). apply Hf. by apply H'.
Qed.
Lemma replays_replay c a l data :
  is_migratable (conn s0) = true → replays c a l [data] (replay data).
Proof.
  intros Hmig h s (H1 & H2 & H3 & H4). apply spec_bind, spec_request; [done|]. intros []; split; try done.
  intros _. split_and!; [done..| |]; rewrite ?connected_snoc, ?replayed_snoc; simpl; by subst.
Qed.

Lemma replays_listen c a l qs :
  is_migratable (conn s0) = true → replays c a l qs (restore_listen rounds qs).
Proof.
  intros Hmig. revert l. induction qs as [|q qs IH]; intros l; cbn [restore_listen].
  { apply replays_quiet, keeps_ret. }
  apply (replays_bind _ _ _ [q] qs); [by apply replays_replay|]. intros _.
  apply (replays_bind _ _ _ [] qs); [apply replays_quiet; auto with keeps|]. intros _. apply IH.
Qed.
Lemma replays_prepared c a l ps :
  is_migratable (conn s0) = true → replays c a l (prepares ps) (restore_prepared rounds ps).
Proof.
  intros Hmig. revert l. induction ps as [|p ps IH]; intros l; cbn [restore_prepared].
  { apply replays_quiet, keeps_ret. }
  apply (replays_bind _ _ _ [p] (build_sync :: prepares ps)); [by apply replays_replay|]. intros _.
  apply (replays_bind _ _ _ [build_sync] (prepares ps)); [by apply replays_replay|]. intros _.
  apply (replays_bind _ _ _ [] (prepares ps)); [apply replays_quiet; auto with keeps|]. intros _. apply IH.
Qed.
(** *** Moving *)

(** On [a], with the whole plan replayed to it. *)
Definition moved (h : hist) (s : Handler) : Prop :=
  ∃ a, is_migratable (conn s0) = true ∧
    stays (with_backend_addr (Some a) (conn s0)) (Some a) (replay_plan s0) h s.

Definition to_move {A} (h : hist) (s : Handler) (r : result Error A) : Prop :=
  same_session s ∧ (is_ok r = true → moved h s).

Lemma spec_migrate a h s :
  is_migratable (conn s0) = true → same_session s → spec moves_migratable h s (migrate rounds a) to_move.
Proof.
  intros Hmig Hs. unfold migrate. apply spec_bind.
  apply (spec_mono _ _ _ _ (λ h' s' r, stays (conn s) (connected h) (replayed h) h' s')).
  { assert (keeps (stays (conn s) (connected h) (replayed h)) moves_migratable unregister_backend_key) as H
      by (unfold unregister_backend_key; quiet). by apply H. }
  intros h1 s1 [u|e] (Hs1 & _); [|by split]. apply spec_bind, spec_request; [done|]. intros v.
  apply spec_bind. unfold connect_to_backend. apply spec_bind, spec_request; [done|].
  intros []; [|by split..]. apply spec_modify, spec_bind, spec_modify, spec_bind, spec_self.
  set (c := with_backend_addr (Some a) (conn s0)).
  match goal with |- spec _ ?h' ?s' _ _ => assert (Hst : stays c (Some a) [] h' s') end.
  { destruct Hs1 as [[x Hx] Hp]. split_and!; rewrite ?connected_snoc, ?replayed_snoc; try done;
      [split; [|done]; exists (Some a)|]; cbn; by rewrite Hx. }
  assert (Hplan : ∀ l, replays c (Some a) l (listens (conn s0) ++ prepares ((map_to_list (prepared (conn s0))).*2))
    (restore_listen_subscriptions rounds;; restore_prepared_statements rounds)).
  { intros l. unfold restore_listen_subscriptions, restore_prepared_statements.
    apply replays_bind; [|intros u2]; intros h2 s2 H2; apply spec_bind, spec_self;
      destruct H2 as (Hs2 & Hc & H2); rewrite Hc.
    - by apply replays_listen.
    - by apply replays_prepared. }
  apply (spec_mono _ _ _ _ (λ h s r, same_session s ∧ (is_ok r = true → stays c (Some a) (replay_plan s0) h s)));
    [|intros h' s' r [H1 H2]; split; [done|]; intros Hr; exists a; auto].
  revert Hst. match goal with |- context [startup_params ?x] => generalize x end. intros s2 Hst.
  assert (startup_params s2 = startup_params s0) as -> by apply Hst.
  refine (replays_bind c (Some a) [] (option_list (startup_params s0)) _ _ _ _ (λ _, Hplan _) _ _ Hst).
  destruct (startup_params s0) as [startup|]; [|apply replays_quiet, keeps_ret].
  apply (replays_bind _ _ _ [startup] []); [by apply replays_replay|].
  intros _. apply replays_quiet. auto with keeps.
Qed.

(** A change of leader either finds the session where it belongs, or moves it. *)
Definition stayed (h0 : hist) (s0' : Handler) (h : hist) (s : Handler) : Prop :=
  stays (conn s0') (connected h0) (replayed h0) h s.

Lemma spec_leader_change lost h s :
  same_session s →
  spec moves_migratable h s (handle_leader_change rounds lost) (λ h' s' r,
    same_session s' ∧ (is_ok r = true → moved h' s' ∨ (lost = false ∧ stayed h s h' s'))).
Proof.
  intros Hs. unfold handle_leader_change.
  assert (Hq : ∀ A (m : M A), keeps (stays (conn s) (connected h) (replayed h)) moves_migratable m →
    ∀ h1 s1, stayed h s h1 s1 → spec moves_migratable h1 s1 m (λ h' s' _, stayed h s h' s'))
    by (intros A m Hm h1 s1; apply Hm).
  assert (H0 : stayed h s h s) by (by split_and!).
  apply spec_bind. eapply spec_mono; [apply Hq, H0; auto with keeps|].
  intros h1 s1 [leader|e] H1; [|by split; [apply H1|]]. apply spec_bind, spec_self, spec_bind.
  eapply spec_mono; [apply Hq, H1; quiet|].
  intros h2 s2 [u|e] H2; [|by split; [apply H2|]]. apply spec_bind.
  eapply spec_mono; [apply Hq, H2; auto with keeps|].
  intros h3 s3 [leader'|e] H3; [|by split; [apply H3|]].
  pose proof H3 as (Hs3 & _). destruct leader' as [a|].
  2: { by destruct lost; split; auto. }
  apply spec_bind, spec_self. cbv zeta. destruct (needs_migration _ _ _) eqn:En; cbn [negb].
  2: { apply spec_ret. split; [done|]. intros _. right. split; [|done].
       by destruct lost. }
  assert (Hsev : ∀ Q : hist → Handler → result Error () → Prop,
    (∀ h s e, same_session s → Q h s (Err e)) → spec moves_migratable h3 s3 (sever ConnectionSevered) Q).
  { intros Q HQ. unfold sever, send_failover_error_response, send_fatal.
    apply spec_bind, spec_bind, spec_modify, spec_request; [done|]. intros v. by apply spec_throw, HQ. }
  destruct (proxy_mode _); [|by apply Hsev|by split].
  destruct (has_unknown_commit_outcome _ _); [by apply Hsev|].
  destruct (tx_status _); [|by apply Hsev..].
  destruct (is_migratable (conn s3)) eqn:Em; [|by apply Hsev].
  rewrite (same_session_migratable s3 Hs3) in Em.
  eapply spec_mono; [by apply spec_migrate|]. intros h' s' r [H4 H5]. auto.
Qed.

Lemma spec_recover n deadline h s :
  same_session s → spec moves_migratable h s (recover_lost_backend_until rounds n deadline) to_move.
Proof.
  revert h s. induction n as [|n IH]; intros h s Hs; cbn [recover_lost_backend_until]; [by split|].
  apply spec_bind, spec_request; [done|]. intros f. apply spec_bind.
  eapply spec_mono.
  { assert (keeps (stays (conn s) (connected (h ++ [answered ReadFence f])) (replayed (h ++ [answered ReadFence f])))
      moves_migratable (when (upgrade_frozen f) (hold_for_upgrade_freeze_after_disconnect rounds))) as H
      by quiet. by apply H. }
  intros h1 s1 [u|e] (Hs1 & _); [|by split]. apply spec_bind, spec_attempt.
  eapply spec_mono; [by apply spec_leader_change|]. intros h2 s2 [u2|e] [Hs2 Hm]; cbn in Hm.
  { split; [done|]. intros _. by destruct (Hm eq_refl) as [|[]]. }
  destruct (reconnect_may_recover e); [|by split]. apply spec_bind, spec_request; [done|].
  intros []; (by apply IH) || by split.
Qed.

Lemma spec_reroute h s : same_session s → spec moves_migratable h s (reroute_lost_backend rounds) to_move.
Proof.
  intros Hs. unfold reroute_lost_backend, recover_lost_backend.
  apply spec_bind, spec_attempt, spec_bind, spec_request; [done|]. intros now.
  eapply spec_mono; [by apply spec_recover|]. intros h' s' [u|e] H; [done|].
  destruct e; try (split; [apply H|done]).
  unfold sever, send_failover_error_response, send_fatal.
  apply spec_bind, spec_bind, spec_modify, spec_request; [done|]. intros v. split; [|done].
  apply H.
Qed.

Lemma spec_follow_route h s :
  same_session s → spec moves_migratable h s (follow_route rounds) (λ h' s' r,
    same_session s' ∧ (is_ok r = true → moved h' s' ∨ stayed h s h' s')).
Proof.
  intros Hs. unfold follow_route. apply spec_bind, spec_self. cbv zeta.
  assert (Hq : ∀ A (m : M A), keeps (stays (conn s) (connected h) (replayed h)) moves_migratable m →
    ∀ h1 s1, stayed h s h1 s1 → spec moves_migratable h1 s1 m (λ h' s' _, stayed h s h' s'))
    by (intros A m Hm h1 s1; apply Hm).
  assert (H0 : stayed h s h s) by (by split_and!).
  apply spec_bind. eapply spec_mono; [apply Hq, H0; auto with keeps|].
  intros h1 s1 [r|e] H1; [|by split; [apply H1|]].
  case_bool_decide; [split; [apply H1|by right]|].
  match goal with |- context [mbnd (attempt (handle_leader_change _ _)) ?f] =>
    assert (Hfollow : ∀ h1 s1, stayed h s h1 s1 → spec moves_migratable h1 s1
      (mbnd (attempt (handle_leader_change rounds false)) f) (λ h' s' r,
        same_session s' ∧ (is_ok r = true → moved h' s' ∨ stayed h s h' s'))) end.
  { intros h2 s2 H2. apply spec_bind, spec_attempt. eapply spec_mono; [apply spec_leader_change, H2|].
    intros h3 s3 [u|e] [Hs3 H3]; cbn in H3.
    - split; [done|]. intros _. destruct (H3 eq_refl) as [|[_ H4]]; [by left|right].
      destruct H2 as (_ & Hc & Ha & Hl). revert H4. unfold stayed. by rewrite Hc, Ha, Hl.
    - destruct (reconnect_may_recover e); [|by split].
      eapply spec_mono; [by apply spec_reroute|]. intros h4 s4 r4 [Hs4 H4]. auto. }
  destruct r as [a|]; [by apply Hfollow|].
  destruct (negb _); [split; [apply H1|by right]|].
  apply spec_bind, spec_attempt. unfold await_route.
  eapply spec_mono; [apply Hq, H1; quiet|].
  intros h2 s2 [u|e] H2; [by apply Hfollow|]. pose proof H2 as [Hs2 _].
  destruct e; try (by split); unfold sever, send_failover_error_response, send_fatal;
    (apply spec_bind, spec_bind, spec_modify, spec_request; [done|]; intros v; by split).
Qed.
End Moves.

(** [m], on a session in state [s], connects anywhere or writes to a backend on its
    own account only when the session is migratable; and when it succeeds either the
    session is where it was, or it is on the last backend connected to, which was
    told the session's startup message, its LISTENs and its prepared statements
    since, and nothing else. *)
Definition moves_whole (m : M ()) (s : Handler) : Prop :=
  (∀ t q, issues (m s) t q →
     match q with
     | ConnectTo _ | Replay _ => is_migratable (conn s) = true
     | Forward _ => False
     | _ => True
     end) ∧
  (∀ t s', runs (m s) t (s', Ok tt) →
     (conn s' = conn s ∧ connected t = None) ∨
     ∃ a, is_migratable (conn s) = true ∧ conn s' = with_backend_addr (Some a) (conn s) ∧
       connected t = Some a ∧ replayed t = replay_plan s).

Lemma moves_whole_intro (m : M ()) s :
  spec (moves_migratable s) [] s m (λ h' s' r,
    same_session s s' ∧ (is_ok r = true → moved s h' s' ∨ stayed s [] s h' s')) →
  moves_whole m s.
Proof.
  intros H. split.
  - intros t q Hi. pose proof (spec_issues _ [] s m _ t q H Hi) as Hq. by destruct q.
  - intros t s' Hr. destruct (spec_runs _ [] s m _ t s' (Ok tt) H Hr) as [_ Hm].
    destruct (Hm eq_refl) as [(a & Hmig & _ & Hc & Ha & Hl)|(_ & Hc & Ha & _)]; [right|by left].
    by exists a.
Qed.

(** C26. A session moves to another backend only when it is migratable, and moves whole:
    whichever of the two ways the proxy loop moves a session, and however many
    attempts it takes, a connection is opened for it and something replayed only
    if it is idle, answered and without unreplayable state; and if the loop goes
    on then the new backend has been told exactly its replay set. *)
Theorem a_session_moves_only_migratable_and_whole (rounds : nat) (s : Handler) :
  moves_whole (follow_route rounds) s ∧ moves_whole (handle_backend_disconnect rounds) s.
Proof.
  assert (Hs : same_session s s).
  { split; [|done]. exists (backend_addr (conn s)). by destruct s as [[] ? ? ? ? ? ? ? ?]. }
  split; apply moves_whole_intro.
  - by apply spec_follow_route.
  - unfold handle_backend_disconnect. apply spec_bind, spec_self.
    destruct (is_migratable (conn s)) eqn:Em.
    + eapply spec_mono; [by apply spec_reroute|]. intros h' s' r [H1 H2]. auto.
    + unfold sever, send_failover_error_response, send_fatal.
      apply spec_bind, spec_bind, spec_modify, spec_request; [done|]. intros v. by split.
Qed.
