(* ===== verification/Members.v ===== *)
(** * Membership, feature level and leadership transfer: the handlers
    ([src/observability/management_api/cluster.rs])

    Joining, promoting, removing, finalizing a feature level and transferring
    leadership, each a program over its node ([Req]); with [JoinRequest] of
    [src/cluster/membership.rs] and [finalize_feature_level] of
    [src/governor/propose.rs].

    An awaited request may be answered by [None]: the request's timeout or a client
    that went away drops the handler there.  What its guards do then is part of the
    program ([with_lock], [silent]).  A reply keeps its status and success flag.
    [rounds] bounds the wake-ups a wait sees; [StillWaiting] stands for a run cut
    there.  The listing of members in replies, message texts and metrics are left
    out. *)

From S2P Require Import Prelude Effects Text Net ClusterState Lease.
From S2P Require Handoff.

Definition MGMT_API_JOIN_MAX_RETRIES : Z := 10.
Definition MGMT_API_JOIN_RETRY_DELAY_MS : Z := 100.
Definition MEMBERSHIP_APPLY_TIMEOUT_SECS : Z := 5.
Definition LEADERSHIP_TRANSFER_LEASE_SAFETY_MS : Z := 100.
Definition LEADERSHIP_TRANSFER_CATCHUP_TOLERANCE : Z := 5.
Definition ELECT_READINESS_SUPERVISOR_WAIT_SECS : Z := 10.
Definition ELECT_READINESS_CLIENT_TIMEOUT_SECS : Z := 12.
Definition TRIGGER_ELECT_SUPERVISOR_WAIT_MS : Z := 250.
Definition TRIGGER_ELECT_CLIENT_TIMEOUT_MS : Z := 400.
Definition LEADERSHIP_TRANSFER_OBSERVE_MS : Z := 200.
Definition lame_duck_budget_after_drain_ms : Z :=
  LEADERSHIP_TRANSFER_LEASE_SAFETY_MS + TRIGGER_ELECT_CLIENT_TIMEOUT_MS + LEADERSHIP_TRANSFER_OBSERVE_MS.

(** ** What a handler asks of its node *)

(** [RaftMetrics], as far as the handlers read it: the effective membership with each
    node's address, and each replication target's matched index. *)
Record Metrics := Metrics_ {
  current_leader : option NodeId;
  voters : gset NodeId;
  learners : gset NodeId;
  node_addrs : gmap NodeId bytes;
  last_log_index : option Z;
  replication : option (gmap NodeId (option Z));
}.

Inductive ExpectedRole := Voter | Learner | Removed.
#[export] Instance ExpectedRole_eq_dec : EqDecision ExpectedRole.
Proof. solve_decision. Defined.

Inductive ChangeMembers := ReplaceAllVoters (v : gset NodeId) | RemoveNodes (ids : gset NodeId).
Inductive RaftFailure := InProgress | OtherFailure.
Inductive Change := Moved | Closed | Expired.
Inductive TriggerElectError := Transport | Refused.
Inductive InternalPath := ElectReadiness | TriggerElect.

(** Answered at once. *)
Inductive SyncReq :=
| ReadMetrics
| ReadState
| ReadPositions                                   (* wal_positions, lease.now() *)
| Now
| TryTransferLock
| EndTransfer
| Unlock                                          (* membership_lock *)
| Heartbeat (on : bool)
| IsAlive.
(** Awaited. *)
Inductive AsyncReq :=
| Lock                                            (* membership_lock *)
| AwaitMetrics (deadline : Z)
| Sleep (ns : Z)
| ClientWrite (c : ClusterCommand)
| AddLearner (id : NodeId) (addr : bytes)
| ChangeMembership (c : ChangeMembers)            (* retain = false *)
| CreateSlot (id : NodeId)
| DropSlot (id : NodeId)
| LockSupervisor (wait : Z)
| MemberVersion (addr : SocketAddr)
| PostInternal (addr : SocketAddr) (path : InternalPath) (timeout : Z)
| Elect.
Inductive Req := Sync (q : SyncReq) | Async (q : AsyncReq).

Definition SyncAnswer (q : SyncReq) : Type :=
  match q with
  | ReadMetrics => Metrics
  | ReadState => ClusterState
  | ReadPositions => Wal.WalPositions * Instant
  | Now => Z
  | TryTransferLock => bool
  | IsAlive => option bool
  | EndTransfer | Unlock | Heartbeat _ => unit
  end.
Definition AsyncAnswer (q : AsyncReq) : Type :=
  match q with
  | Lock | Sleep _ => unit
  | AwaitMetrics _ => Change
  | ClientWrite _ => result RaftFailure CommandOutcome
  | AddLearner _ _ | ChangeMembership _ => result RaftFailure unit
  | CreateSlot _ | DropSlot _ | LockSupervisor _ | Elect => bool
  | MemberVersion _ => option Z
  | PostInternal _ _ _ => result TriggerElectError unit
  end.
Definition Answer (q : Req) : Type :=
  match q with Sync q => SyncAnswer q | Async q => option (AsyncAnswer q) end.

Record Server := Server_ { srv_node_id : NodeId; postgres_manager : bool }.

Inductive StatusCode :=
| OK | BAD_REQUEST | NOT_FOUND | CONFLICT | MISDIRECTED_REQUEST | INTERNAL_SERVER_ERROR | BAD_GATEWAY
| SERVICE_UNAVAILABLE | GATEWAY_TIMEOUT.
Record Reply := Reply_ { code : StatusCode; success : bool }.
Definition refuse (c : StatusCode) : Reply := Reply_ c false.

(** A handler ends with a value, a reply sent early, or dropped. *)
Inductive exit := Replied (r : Reply) | Dropped | StillWaiting.
Definition io (A : Type) : Type := @prog Req Answer A.
Definition M (A : Type) : Type := io (result exit A).
Definition ret {A} (a : A) : M A := Ret (Ok a).
Definition leave {A} (e : exit) : M A := Ret (Err e).
Definition reply {A} (r : Reply) : M A := leave (Replied r).
Definition read (q : SyncReq) : M (SyncAnswer q) := let* r := ask (Sync q) in Ret (Ok r).
Definition await (q : AsyncReq) : M (AsyncAnswer q) :=
  let* r := ask (Async q) in Ret (match r with Some a => Ok a | None => Err Dropped end).
Definition or_reply {A} (r : result Reply A) : M A :=
  Ret (match r with Ok a => Ok a | Err e => Err (Replied e) end).

(** A guard runs its release however the body ends. *)
Definition guarded {A} (release : SyncReq) (body : M A) : M A :=
  let* r := body in ask (Sync release);; Ret r.
Definition with_lock {A} (body : M A) : M A := let? _ := await Lock in guarded Unlock body.
(** [HeartbeatGuard]: heartbeats are off in the body. *)
Definition silent {A} (body : M A) : M A :=
  let? _ := read (Heartbeat false) in guarded (Heartbeat true) body.

(** ** Proposing ([propose.rs]) *)
Inductive ProposeError := Refusal (e : Handoff.ProposeError) | MembersNotReady | Raft (e : RaftFailure).

Definition propose (cmd : ClusterCommand) : M (result ProposeError CommandOutcome) :=
  let? s := read ReadState in
  match Handoff.admit_command s cmd with
  | Err e => ret (Err (Refusal e))
  | Ok _ =>
      let? w := await (ClientWrite cmd) in
      ret (match w with Ok o => Ok o | Err e => Err (Raft e) end)
  end.

(** The levels reported, least first; [None] when no member is listed. *)
Definition common_level (members : list (NodeId * option Z)) : option Z :=
  foldr (λ m acc, match m.2 with
                  | Some l => Some (match acc with Some a => Z.min l a | None => l end)
                  | None => acc end) None members.
Definition finalize_target (committed : Z) (members : list (NodeId * option Z))
    : result ProposeError (option Z) :=
  if existsb (λ m, bool_decide (m.2 = None)) members then Err MembersNotReady
  else Ok (l ← common_level members; if committed <? l then Some l else None).

Inductive Finalized := AlreadyAt (level : Z) | Raised (level : Z).
Definition finalize_feature_level (members : list (NodeId * option Z))
    : M (result ProposeError Finalized) :=
  let? s := read ReadState in
  match finalize_target (feature_level s) members with
  | Err e => ret (Err e)
  | Ok None => ret (Ok (AlreadyAt (feature_level s)))
  | Ok (Some level) =>
      let? w := await (ClientWrite (SetFeatureLevel level)) in
      match w with
      | Err e => ret (Err (Raft e))
      | Ok Applied => ret (Ok (Raised level))
      | Ok OutOfOrder => let? s := read ReadState in ret (Ok (AlreadyAt (feature_level s)))
      end
  end.

(** ** Joining *)
Record JoinRequest := JoinRequest_ {
  req_node_id : NodeId;
  req_raft_addr : bytes;
  req_pg_addr : bytes;
  req_mgmt_addr : bytes;
  req_metrics_addr : bytes;
  req_feature_level : Z;
  req_voter : bool;
}.
Record AdvertisedAddresses := AdvertisedAddresses_ {
  adv_pg : SocketAddr;
  adv_raft : SocketAddr;
  adv_mgmt : SocketAddr;
  adv_metrics : SocketAddr;
}.

Definition is_unspecified (ip : IpAddr) : bool := match ip with V4 a | V6 a => a =? 0 end.
Definition advertisable (a : SocketAddr) : bool :=
  negb (is_unspecified (sock_ip a) || (sock_port a =? 0)).
Definition to_advertised (r : JoinRequest) : option AdvertisedAddresses :=
  pg ← parse_socket_addr (req_pg_addr r);
  raft ← parse_socket_addr (req_raft_addr r);
  mgmt ← parse_socket_addr (req_mgmt_addr r);
  metrics ← parse_socket_addr (req_metrics_addr r);
  if forallb advertisable [pg; raft; mgmt; metrics]
  then Some (AdvertisedAddresses_ pg raft mgmt metrics) else None.
Definition feature_level_refusal (r : JoinRequest) (committed : Z) : bool :=
  req_feature_level r <? committed.

Inductive JoinDisposition := New | ResumeLearner | AlreadyVoter | LearnerAddrMismatch (registered : bytes).
Definition classify_join (m : Metrics) (node_id : NodeId) (raft_addr : bytes) : JoinDisposition :=
  if bool_decide (node_id ∈ voters m) then AlreadyVoter
  else if negb (bool_decide (node_id ∈ learners m)) then New
  else
    let registered := default [] (node_addrs m !! node_id) in
    if bool_decide (registered = raft_addr) then ResumeLearner else LearnerAddrMismatch registered.

(** Joined roles and waits. *)
Definition current_role (m : Metrics) (id : NodeId) : ExpectedRole :=
  if bool_decide (id ∈ voters m) then Voter
  else if bool_decide (id ∈ learners m) then Learner
  else Removed.

Section Handlers.
Context (rounds : nat) (srv : Server).

Fixpoint wait_until_applied (n : nat) (id : NodeId) (expected : ExpectedRole) (deadline : Z) : M bool :=
  match n with
  | O => leave StillWaiting
  | S n =>
      let? m := read ReadMetrics in
      if bool_decide (current_role m id = expected) then ret true
      else
        let? c := await (AwaitMetrics deadline) in
        match c with Moved => wait_until_applied n id expected deadline | _ => ret false end
  end.
Definition wait_for_membership_applied (id : NodeId) (expected : ExpectedRole) (timeout : Z) : M bool :=
  let? now := read Now in wait_until_applied rounds id expected (now + timeout).
Definition applied_or_timeout (id : NodeId) (expected : ExpectedRole) : M () :=
  let? done := wait_for_membership_applied id expected (MEMBERSHIP_APPLY_TIMEOUT_SECS * secs) in
  if done : bool then ret tt else reply (refuse GATEWAY_TIMEOUT).

Definition validate_join_request (req : JoinRequest) : M (AdvertisedAddresses * bool) :=
  let? m := read ReadMetrics in
  if negb (bool_decide (current_leader m = Some (srv_node_id srv))) then reply (refuse MISDIRECTED_REQUEST)
  else
    match to_advertised req with
    | None => reply (refuse BAD_REQUEST)
    | Some addrs =>
        let? s := read ReadState in
        if feature_level_refusal req (feature_level s) then reply (refuse CONFLICT)
        else
          match classify_join m (req_node_id req) (req_raft_addr req) with
          | New => ret (addrs, false)
          | ResumeLearner => ret (addrs, true)
          | AlreadyVoter | LearnerAddrMismatch _ => reply (refuse CONFLICT)
          end
    end.

(** [retries] are left of the [MGMT_API_JOIN_MAX_RETRIES]. *)
Fixpoint add_learner_retrying (retries : nat) (id : NodeId) (addr : bytes) : M (result RaftFailure ()) :=
  let? r := await (AddLearner id addr) in
  match r, retries with
  | Err InProgress, S retries =>
      let? _ := await (Sleep (MGMT_API_JOIN_RETRY_DELAY_MS * ms)) in
      add_learner_retrying retries id addr
  | r, _ => ret r
  end.
Definition add_learner_with_retry (req : JoinRequest) : M (result RaftFailure ()) :=
  add_learner_retrying (Z.to_nat MGMT_API_JOIN_MAX_RETRIES) (req_node_id req) (req_raft_addr req).

(** [last_seen] is the wall clock's seconds. *)
Definition node_info (req : JoinRequest) (addrs : AdvertisedAddresses) (last_seen : Z) : NodeInfo :=
  NodeInfo_ (req_node_id req) (adv_pg addrs) (adv_raft addrs) (adv_mgmt addrs) (adv_metrics addrs)
    RoleFollower last_seen.
Definition replicate_node_info (req : JoinRequest) (addrs : AdvertisedAddresses)
    : M (result ProposeError CommandOutcome) :=
  let? last_seen := read Now in propose (AddNode (node_info req addrs last_seen)).

Definition create_replication_slot_for_joined_node (id : NodeId) : M () :=
  if postgres_manager srv then let? _ := await (CreateSlot id) in ret tt else ret tt.

Definition join_cluster (req : JoinRequest) : M Reply :=
  let? _ := with_lock (
    let? v := validate_join_request req in
    let '(addrs, resume) := v in
    let? r := replicate_node_info req addrs in
    match r with
    | Err _ => reply (refuse INTERNAL_SERVER_ERROR)
    | Ok _ =>
        if resume : bool then ret tt
        else
          let? added := add_learner_with_retry req in
          match added with Err _ => reply (refuse INTERNAL_SERVER_ERROR) | Ok _ => ret tt end
    end) in
  let? _ := applied_or_timeout (req_node_id req) Learner in
  let? _ := create_replication_slot_for_joined_node (req_node_id req) in
  if req_voter req then
    let? r := propose (IntendVoter (req_node_id req)) in
    ret (match r with Ok _ => Reply_ OK true | Err _ => refuse INTERNAL_SERVER_ERROR end)
  else ret (Reply_ OK true).

(** ** Promoting and removing *)
Definition wal_caught_up (node : NodeId) : M bool :=
  let? s := read ReadState in
  let? p := read ReadPositions in
  ret (Wal.caught_up p.1 node (lsn_catchup_threshold_bytes s) p.2).

Definition validate_promote_membership (m : Metrics) (id : NodeId) : M (gset NodeId) :=
  if negb (bool_decide (current_leader m = Some (srv_node_id srv))) then reply (refuse MISDIRECTED_REQUEST)
  else
    let? lsn_ok := wal_caught_up id in
    if negb lsn_ok then reply (refuse CONFLICT)
    else if negb (bool_decide (id ∈ voters m)) && negb (bool_decide (id ∈ learners m))
    then reply (refuse CONFLICT)
    else ret ({[id]} ∪ voters m).

Definition promote (id : NodeId) : M Reply :=
  with_lock (
    let? m := read ReadMetrics in
    let? new_voters := validate_promote_membership m id in
    let? r := await (ChangeMembership (ReplaceAllVoters new_voters)) in
    match r with
    | Err _ => ret (refuse INTERNAL_SERVER_ERROR)
    | Ok _ => let? _ := applied_or_timeout id Voter in ret (Reply_ OK true)
    end).
Definition promote_node (id : NodeId) : M Reply := promote id.

Definition intended_learners (intent : list NodeId) (learners : gset NodeId) : list NodeId :=
  List.filter (λ id, bool_decide (id ∈ learners)) intent.
(** The outcome of one promotion does not stop the next. *)
Fixpoint promote_each (ids : list NodeId) : M () :=
  match ids with
  | [] => ret tt
  | id :: ids => let* _ := promote id in promote_each ids
  end.
(** One pass of [promote_intended_voters]. *)
Definition promote_intended_pass : M () :=
  let? m := read ReadMetrics in
  if bool_decide (current_leader m = Some (srv_node_id srv)) then
    let? s := read ReadState in
    promote_each (intended_learners (voter_intent s) (learners m))
  else ret tt.

Definition validate_remove_membership (m : Metrics) (id : NodeId) : result Reply (gset NodeId) :=
  let new_voters := voters m ∖ {[id]} in
  if bool_decide (size new_voters = 0%nat) then Err (refuse BAD_REQUEST)
  else if (2 <=? size (voters m))%nat && (size new_voters <? 2)%nat then Err (refuse BAD_REQUEST)
  else Ok new_voters.

Definition drop_replication_slot_for_removed (id : NodeId) : M () :=
  if postgres_manager srv then let? _ := await (DropSlot id) in ret tt else ret tt.
Definition forget_removed_node (id : NodeId) : M () := let? _ := propose (RemoveNode id) in ret tt.

Definition remove_node (id : NodeId) : M Reply :=
  with_lock (
    let? m := read ReadMetrics in
    if negb (bool_decide (current_leader m = Some (srv_node_id srv))) then reply (refuse MISDIRECTED_REQUEST)
    else if bool_decide (id = srv_node_id srv) then reply (refuse BAD_REQUEST)
    else if negb (bool_decide (id ∈ voters m)) && negb (bool_decide (id ∈ learners m))
    then reply (refuse NOT_FOUND)
    else
      let? change :=
        or_reply (if bool_decide (id ∈ voters m) then
                    match validate_remove_membership m id with
                    | Ok new_voters => Ok (ReplaceAllVoters new_voters)
                    | Err e => Err e
                    end
                  else Ok (RemoveNodes {[id]})) in
      let? r := await (ChangeMembership change) in
      match r with
      | Err _ => ret (refuse INTERNAL_SERVER_ERROR)
      | Ok _ =>
          let? _ := applied_or_timeout id Removed in
          let? _ := drop_replication_slot_for_removed id in
          let? _ := forget_removed_node id in
          ret (Reply_ OK true)
      end).

(** ** The feature level *)
Definition FEATURE_SURVEY_TIMEOUT : Z := 3 * secs.

(** Each member's level: this node's own, or what it answers at its recorded address. *)
Fixpoint survey_feature_levels (s : ClusterState) (ids : list NodeId) : M (list (NodeId * option Z)) :=
  match ids with
  | [] => ret []
  | id :: ids =>
      let? level :=
        (if bool_decide (id = srv_node_id srv) then ret (Some FEATURE_LEVEL)
         else match nodes s !! id with
              | Some n => await (MemberVersion (mgmt_addr n))
              | None => ret None
              end) in
      let? rest := survey_feature_levels s ids in
      ret ((id, level) :: rest)
  end.

Definition finalize_upgrade : M Reply :=
  with_lock (
    let? m := read ReadMetrics in
    if negb (bool_decide (current_leader m = Some (srv_node_id srv))) then ret (refuse MISDIRECTED_REQUEST)
    else
      let? s := read ReadState in
      let? members := survey_feature_levels s (elements (voters m ∪ learners m)) in
      let? r := finalize_feature_level members in
      ret (match r with
           | Ok _ => Reply_ OK true
           | Err MembersNotReady => refuse CONFLICT
           | Err _ => refuse SERVICE_UNAVAILABLE
           end)).

(** ** Taking leadership *)
Definition elect_blocker (lock_wait : Z) : M bool :=
  if negb (postgres_manager srv) then ret true
  else
    let? locked := await (LockSupervisor lock_wait) in
    if negb locked then ret true
    else
      let? alive := read IsAlive in
      ret (negb (bool_decide (alive = Some true))).

Definition elect_readiness : M Reply :=
  let? blocked := elect_blocker (ELECT_READINESS_SUPERVISOR_WAIT_SECS * secs) in
  ret (if blocked : bool then refuse SERVICE_UNAVAILABLE else Reply_ OK true).

Definition trigger_elect : M Reply :=
  let? blocked := elect_blocker (TRIGGER_ELECT_SUPERVISOR_WAIT_MS * ms) in
  if blocked : bool then ret (refuse SERVICE_UNAVAILABLE)
  else
    let? elected := await Elect in
    ret (if elected : bool then Reply_ OK true else refuse INTERNAL_SERVER_ERROR).

(** ** Transferring leadership *)
Definition transfer_refusal_status (e : TriggerElectError) : StatusCode :=
  match e with Refused => CONFLICT | Transport => BAD_GATEWAY end.

Definition resolve_transfer_target (m : Metrics) (target : NodeId) : M SocketAddr :=
  if negb (bool_decide (current_leader m = Some (srv_node_id srv))) then reply (refuse MISDIRECTED_REQUEST)
  else if bool_decide (target = srv_node_id srv) then reply (Reply_ OK true)
  else if negb (bool_decide (target ∈ voters m)) then reply (refuse BAD_REQUEST)
  else
    let? s := read ReadState in
    match nodes s !! target with
    | Some n => ret (mgmt_addr n)
    | None => reply (refuse BAD_REQUEST)
    end.

Definition target_caught_up (m : Metrics) (target : NodeId) : bool :=
  match (replication m ≫= λ r, r !! target) ≫= id with
  | Some matched => sat_sub (default 0 (last_log_index m)) matched <=? LEADERSHIP_TRANSFER_CATCHUP_TOLERANCE
  | None => false
  end.

(** Only an expired wait ends the poll. *)
Fixpoint catchup_poll (n : nat) (target : NodeId) (deadline : Z) : M bool :=
  match n with
  | O => leave StillWaiting
  | S n =>
      let? m := read ReadMetrics in
      if target_caught_up m target then ret true
      else
        let? c := await (AwaitMetrics deadline) in
        match c with Expired => ret false | _ => catchup_poll n target deadline end
  end.
Definition wait_for_target_catchup (target : NodeId) : M () :=
  let? now := read Now in
  let? ok := catchup_poll rounds target (now + 2 * secs) in
  if ok : bool then ret tt else reply (refuse BAD_REQUEST).

Definition confirm_target_ready (addr : SocketAddr) : M (result TriggerElectError ()) :=
  await (PostInternal addr ElectReadiness (ELECT_READINESS_CLIENT_TIMEOUT_SECS * secs)).
Definition trigger_election_on_node (addr : SocketAddr) : M (result TriggerElectError ()) :=
  await (PostInternal addr TriggerElect (TRIGGER_ELECT_CLIENT_TIMEOUT_MS * ms)).

Fixpoint observe_handover (n : nat) (deadline : Z) : M () :=
  match n with
  | O => leave StillWaiting
  | S n =>
      let? m := read ReadMetrics in
      if negb (bool_decide (current_leader m = Some (srv_node_id srv))) then ret tt
      else
        let? now := read Now in
        if deadline <=? now then ret tt
        else let? _ := await (Sleep (25 * ms)) in observe_handover n deadline
  end.

Fixpoint leader_change_poll (n : nat) (deadline : Z) : M (option NodeId) :=
  match n with
  | O => leave StillWaiting
  | S n =>
      let? m := read ReadMetrics in
      if bool_decide (is_Some (current_leader m))
         && negb (bool_decide (current_leader m = Some (srv_node_id srv)))
      then ret (current_leader m)
      else
        let? c := await (AwaitMetrics deadline) in
        match c with Expired => ret None | _ => leader_change_poll n deadline end
  end.
Definition poll_for_leader_change : M (option NodeId) :=
  let? now := read Now in leader_change_poll rounds (now + 10 * secs).

Definition transfer_outcome_response (target : NodeId) (new_leader : option NodeId) : Reply :=
  match new_leader with
  | None => Reply_ OK false
  | Some l => Reply_ OK (bool_decide (l = target))
  end.

(** The lame-duck window: heartbeats are off. *)
Definition lame_duck (addr : SocketAddr) : M () :=
  let? _ := await (Sleep (DEFAULT_LEASE_DURATION + LEADERSHIP_TRANSFER_LEASE_SAFETY_MS * ms)) in
  let? m := read ReadMetrics in
  if negb (bool_decide (current_leader m = Some (srv_node_id srv))) then reply (refuse CONFLICT)
  else
    let? r := trigger_election_on_node addr in
    match r with
    | Err e => reply (refuse (transfer_refusal_status e))
    | Ok _ =>
        let? now := read Now in
        observe_handover rounds (now + LEADERSHIP_TRANSFER_OBSERVE_MS * ms)
    end.

Definition transfer_leadership (target : NodeId) : M Reply :=
  let? free := read TryTransferLock in
  if negb free then ret (refuse CONFLICT)
  else
    guarded EndTransfer (with_lock (
      let? m := read ReadMetrics in
      let? addr := resolve_transfer_target m target in
      let? _ := wait_for_target_catchup target in
      let? lsn_ok := wal_caught_up target in
      if negb lsn_ok then reply (refuse CONFLICT)
      else
        let? ready := confirm_target_ready addr in
        match ready with
        | Err e => reply (refuse (transfer_refusal_status e))
        | Ok _ =>
            let? _ := silent (lame_duck addr) in
            let? new_leader := poll_for_leader_change in
            ret (transfer_outcome_response target new_leader)
        end)).
End Handlers.
