(* ===== verification/MembersProofs.v ===== *)
(** * What the membership handlers guarantee

    Per handler: each change of the membership or of the feature level is justified by
    what the handler read inside one hold of the membership lock ([justified]), and a
    leadership transfer is silent only when it may be.  Then the system: any number
    of handlers interleaved on the leader that share its lock ([reach]). *)

From S2P Require Import Prelude Effects Text Net ClusterState Lease Members.
From S2P Require Handoff.

Abbreviation hist := (list (@event Req Answer)).

(** ** What a handler has read in the current hold of the lock *)
Record Critical := Critical_ {
  seen : Metrics;
  states : list ClusterState;
  positions : list (Wal.WalPositions * Instant);
  probes : list (SocketAddr * Z);
  recorded : list NodeInfo;
  grown : bool;
  changed : bool;
}.
Inductive Phase := Outside | Entered | Section_ (c : Critical).

Definition critical_step (c : Critical) (ev : @event Req Answer) : Critical :=
  let 'Critical_ m ss ps bs rs g ch := c in
  match ev with
  | existT (Sync ReadState) s => Critical_ m (s :: ss) ps bs rs g ch
  | existT (Sync ReadPositions) p => Critical_ m ss (p :: ps) bs rs g ch
  | existT (Async (MemberVersion a)) (Some (Some l)) => Critical_ m ss ps ((a, l) :: bs) rs g ch
  | existT (Async (ClientWrite (AddNode n))) (Some (Ok _)) => Critical_ m ss ps bs (n :: rs) g ch
  | existT (Async (ClientWrite (SetFeatureLevel _))) _ => Critical_ m [] ps bs rs g ch
  | existT (Async (AddLearner _ _)) _ => Critical_ m ss ps bs rs true ch
  | existT (Async (ChangeMembership _)) _ => Critical_ m ss ps bs rs true true
  | _ => c
  end.
Definition phase_step (p : Phase) (ev : @event Req Answer) : Phase :=
  match ev with
  | existT (Async Lock) (Some _) => Entered
  | existT (Sync Unlock) _ => Outside
  | existT (Sync ReadMetrics) m =>
      match p with Entered => Section_ (Critical_ m [] [] [] [] false false) | _ => p end
  | _ => match p with Section_ c => Section_ (critical_step c ev) | _ => p end
  end.
Definition phase (h : hist) : Phase := foldl phase_step Outside h.
Lemma phase_snoc h ev : phase (h ++ [ev]) = phase_step (phase h) ev.
Proof. apply foldl_snoc. Qed.

Section Justified.
Context (srv : Server).
Local Notation self := (srv_node_id srv).

Definition member (m : Metrics) (id : NodeId) : Prop := id ∈ voters m ∨ id ∈ learners m.

Definition replicated_enough (c : Critical) (id : NodeId) : Prop :=
  ∃ s p, s ∈ states c ∧ p ∈ positions c ∧
         Wal.caught_up p.1 id (lsn_catchup_threshold_bytes s) p.2 = true.

(** A change of the voter set, from the set read under the lock. *)
Definition voters_justified (c : Critical) (v : gset NodeId) : Prop :=
  changed c = false ∧ grown c = false ∧
  ((∃ id, member (seen c) id ∧ replicated_enough c id ∧ v = {[id]} ∪ voters (seen c)) ∨
   (∃ id, id ∈ voters (seen c) ∧ id ≠ self ∧ v = voters (seen c) ∖ {[id]} ∧ v ≠ ∅ ∧
          ((2 ≤ size (voters (seen c)))%nat → (2 ≤ size v)%nat))).

(** A member decodes [l]: this node's own binary, or by its answer. *)
Definition decodes (c : Critical) (s : ClusterState) (l : Z) (id : NodeId) : Prop :=
  (id = self ∧ l ≤ FEATURE_LEVEL) ∨
  (∃ n lv, nodes s !! id = Some n ∧ (mgmt_addr n, lv) ∈ probes c ∧ l ≤ lv).
Definition level_justified (c : Critical) (l : Z) : Prop :=
  changed c = false ∧ grown c = false ∧
  ∃ s s', s ∈ states c ∧ s' ∈ states c ∧ feature_level s' < l ∧
          ∀ id, member (seen c) id → decodes c s l id.

Definition learner_justified (claim : NodeId * Z) (c : Critical) (id : NodeId) (addr : bytes) : Prop :=
  id = claim.1 ∧ ¬ member (seen c) id ∧
  (∃ s, s ∈ states c ∧ feature_level s ≤ claim.2) ∧
  ∃ n, n ∈ recorded c ∧ info_id n = id ∧ parse_socket_addr addr = Some (raft_addr n).

(** [claim] is the joiner and the level it claims to decode. *)
Definition justified (claim : NodeId * Z) (h : hist) (q : Req) : Prop :=
  match q with
  | Async (ChangeMembership (ReplaceAllVoters v)) =>
      ∃ c, phase h = Section_ c ∧ current_leader (seen c) = Some self ∧ voters_justified c v
  | Async (ChangeMembership (RemoveNodes ids)) =>
      ∃ c id, phase h = Section_ c ∧ current_leader (seen c) = Some self ∧ changed c = false ∧
        grown c = false ∧ ids = {[id]} ∧ id ∈ learners (seen c) ∧ id ∉ voters (seen c) ∧ id ≠ self
  | Async (AddLearner id addr) =>
      ∃ c, phase h = Section_ c ∧ current_leader (seen c) = Some self ∧ learner_justified claim c id addr
  | Async (ClientWrite (SetFeatureLevel l)) =>
      ∃ c, phase h = Section_ c ∧ current_leader (seen c) = Some self ∧ level_justified c l
  | _ => True
  end.

Context (claim : NodeId * Z).
Local Notation ok := (justified claim).

(** *** Programs that change nothing *)
Definition harmless (q : Req) : bool :=
  match q with
  | Async (ChangeMembership _) | Async (AddLearner _ _) | Async (ClientWrite (SetFeatureLevel _)) => false
  | _ => true
  end.
Lemma harmless_ok h q : harmless q = true → ok h q.
Proof. by destruct q as [|[]]; try destruct c. Qed.

Definition free {A} (m : M A) : Prop := ∀ h, safe any_answer ok h m (λ _ _, True).

Lemma free_ret {A} (a : A) : free (ret a).
Proof. done. Qed.
Lemma free_leave {A} e : free (@leave A e).
Proof. done. Qed.
Lemma free_read q : free (read q).
Proof. intros h. by split. Qed.
Lemma free_await q : harmless (Async q) = true → free (await q).
Proof. intros Hq h. split; [by apply harmless_ok|]. by intros [a|] _. Qed.
Lemma free_bind {A B} (m : M A) (f : A → M B) : free m → (∀ a, free (f a)) → free (try_bind m f).
Proof.
  intros Hm Hf h. apply safe_try_bind. eapply safe_post; [apply Hm|]. intros h' [a|e] _; [apply Hf|done].
Qed.
Lemma free_bind_any {A B} (m : M A) (f : result exit A → M B) : free m → (∀ a, free (f a)) → free (bind m f).
Proof. intros Hm Hf h. apply safe_bind. eapply safe_post; [apply Hm|]. intros h' r _. apply Hf. Qed.
Lemma free_guarded {A} release (m : M A) : free m → free (guarded release m).
Proof. intros Hm h. apply safe_bind. eapply safe_post; [apply Hm|]. intros h' r _. by split. Qed.

(** *** Inside a hold *)
Definition grows (c c' : Critical) : Prop :=
  seen c' = seen c ∧ changed c' = changed c ∧ grown c' = grown c ∧
  states c ⊆ states c' ∧ positions c ⊆ positions c' ∧ probes c ⊆ probes c' ∧ recorded c ⊆ recorded c'.
Definition in_section (c0 : Critical) (h : hist) : Prop := ∃ c, phase h = Section_ c ∧ grows c0 c.

Lemma grows_refl c : grows c c.
Proof. by split_and!. Qed.
Lemma grows_trans c1 c2 c3 : grows c1 c2 → grows c2 c3 → grows c1 c3.
Proof.
  intros (H1 & H2 & H3 & H4 & H5 & H6 & H7) (G1 & G2 & G3 & G4 & G5 & G6 & G7).
  split_and!; try congruence; by etrans.
Qed.

Definition calm (q : Req) : bool :=
  harmless q && match q with Async Lock | Sync Unlock => false | _ => true end.

Lemma calm_step c q r : calm q = true → ∃ c', phase_step (Section_ c) (answered q r) = Section_ c' ∧ grows c c'.
Proof.
  destruct c as [m ss ps bs rs g ch]. unfold grows. intros Hq.
  destruct q as [[]|[]]; try discriminate Hq; cbn in r |- *; try (eexists; split; [done|]; split_and!; cbn; set_solver).
  - destruct c; try discriminate Hq; destruct r as [[|]|]; eexists; (split; [done|]; split_and!; cbn; set_solver).
  - destruct r as [[|]|]; eexists; (split; [done|]; split_and!; cbn; set_solver).
Qed.
Lemma in_section_calm c0 h q r : calm q = true → in_section c0 h → in_section c0 (h ++ [answered q r]).
Proof.
  intros Hq (c & Hp & Hg). destruct (calm_step c q r Hq) as (c' & Hc' & Hg').
  exists c'. rewrite phase_snoc, Hp. split; [done|]. by eapply grows_trans.
Qed.

Definition keeps {A} (m : M A) : Prop :=
  ∀ c0 h, in_section c0 h → safe any_answer ok h m (λ h' _, in_section c0 h').

Lemma section_ret {A} (a : A) : keeps (ret a).
Proof. by intros c0 h H. Qed.
Lemma section_leave {A} e : keeps (@leave A e).
Proof. by intros c0 h H. Qed.
Lemma calm_ok h q : calm q = true → ok h q.
Proof. intros [Hq _]%andb_prop. by apply harmless_ok. Qed.
Lemma section_read q : calm (Sync q) = true → keeps (read q).
Proof. intros Hq c0 h H. split; [by apply calm_ok|]. intros r _. by apply in_section_calm. Qed.
Lemma section_await q : calm (Async q) = true → keeps (await q).
Proof. intros Hq c0 h H. split; [by apply calm_ok|]. intros r _. by destruct r; apply in_section_calm. Qed.
Lemma section_bind {A B} (m : M A) (f : A → M B) : keeps m → (∀ a, keeps (f a)) → keeps (try_bind m f).
Proof.
  intros Hm Hf c0 h H. apply safe_try_bind. eapply safe_post; [by apply Hm|].
  intros h' [a|e] H'; [by apply Hf|done].
Qed.
End Justified.

Create HintDb members.
#[export] Hint Resolve free_ret free_leave free_read section_ret section_leave : members.
#[export] Hint Extern 1 (free _ _ (await _)) => (by apply free_await) : members.
#[export] Hint Extern 1 (keeps _ _ (await _)) => (by apply section_await) : members.
#[export] Hint Extern 1 (keeps _ _ (read _)) => (by apply section_read) : members.

(** Through a handler, branch by branch. *)
Ltac through :=
  repeat (intros;
    first
      [ solve [auto with members]
      | lazymatch goal with
        | |- free _ _ (try_bind _ _) => apply free_bind
        | |- free _ _ (bind _ _) => apply free_bind_any
        | |- free _ _ (guarded _ _) => apply free_guarded
        | |- free _ _ (Ret (Ok ?a)) => apply (free_ret _ _ a)
        | |- free _ _ (Ret (Err ?e)) => apply (free_leave _ _ e)
        | |- keeps _ _ (try_bind _ _) => apply section_bind
        | |- keeps _ _ (reply _) => apply section_leave
        | |- free _ _ (reply _) => apply free_leave
        | |- _ _ _ (if ?b then _ else _) => destruct b
        | |- _ _ _ (match ?x with _ => _ end) => destruct x
        end ]).

Section Handlers.
Context (rounds : nat) (srv : Server) (claim : NodeId * Z).
Local Notation self := (srv_node_id srv).
Local Notation ok := (justified srv claim).
Local Notation free := (free srv claim).
Local Notation keeps := (keeps srv claim).

(** ** The parts *)
Lemma free_propose cmd : harmless (Async (ClientWrite cmd)) = true → free (propose cmd).
Proof. intros Hc. unfold propose. through. Qed.
Lemma free_wait n id e d : free (wait_until_applied n id e d).
Proof. induction n as [|n IH]; cbn [wait_until_applied]; through; apply IH. Qed.
#[local] Hint Resolve free_wait : members.
Lemma free_applied id e : free (applied_or_timeout rounds id e).
Proof. unfold applied_or_timeout, wait_for_membership_applied. through. Qed.
#[local] Hint Resolve free_applied : members.

Lemma safe_read {A} q (f : SyncAnswer q → M A) h Q :
  ok h (Sync q) →
  (∀ r, safe any_answer ok (h ++ [answered (R := Answer) (Sync q) r]) (f r) Q) →
  safe any_answer ok h (try_bind (read q) f) Q.
Proof. intros Hq Hf. split; [done|]. intros r _. apply Hf. Qed.
Lemma safe_await {A} q (f : AsyncAnswer q → M A) h (Q : hist → result exit A → Prop) :
  ok h (Async q) → Q (h ++ [answered (R := Answer) (Async q) None]) (Err Dropped) →
  (∀ r, safe any_answer ok (h ++ [answered (R := Answer) (Async q) (Some r)]) (f r) Q) →
  safe any_answer ok h (try_bind (await q) f) Q.
Proof. intros Hq Hd Hf. split; [done|]. intros [r|] _; [apply Hf|done]. Qed.

(** The first read under the lock. *)
Definition fresh (m : Metrics) : Critical := Critical_ m [] [] [] [] false false.
Lemma enter {A} (f : Metrics → M A) h Q :
  phase h = Entered →
  (∀ m h', phase h' = Section_ (fresh m) → safe any_answer ok h' (f m) Q) →
  safe any_answer ok h (let? m := read ReadMetrics in f m) Q.
Proof. intros Hp Hf. apply safe_read; [done|]. intros m. apply Hf. by rewrite phase_snoc, Hp. Qed.

Lemma free_with_lock {A} (body : M A) :
  (∀ h, phase h = Entered → safe any_answer ok h body (λ _ _, True)) → free (with_lock body).
Proof.
  intros Hb h. apply safe_await; [done..|]. intros []. apply safe_bind. eapply safe_post; [apply Hb; by rewrite phase_snoc|]. intros h' r _. by split.
Qed.

Lemma in_section_fresh m h : phase h = Section_ (fresh m) → in_section (fresh m) h.
Proof. intros Hp. exists (fresh m). split; [done|apply grows_refl]. Qed.

Lemma section_propose cmd : harmless (Async (ClientWrite cmd)) = true → keeps (propose cmd).
Proof. intros Hc. unfold propose. through. apply section_await. unfold calm. by rewrite Hc. Qed.

(** A read is in the section from then on. *)
Lemma section_state c0 h s : in_section c0 h → ∃ c, phase (h ++ [answered (R := Answer) (Sync ReadState) s]) = Section_ c ∧ grows c0 c ∧ s ∈ states c.
Proof.
  intros (c & Hp & Hg). rewrite phase_snoc, Hp. destruct c as [m ss ps bs rs g ch]. eexists. split; [done|].
  split; [|set_solver]. eapply grows_trans; [exact Hg|]. unfold grows. split_and!; set_solver.
Qed.

Lemma wal_caught_up_safe c0 h id :
  in_section c0 h →
  safe any_answer ok h (wal_caught_up id) (λ h' r, in_section c0 h' ∧
    (r = Ok true → ∃ c, phase h' = Section_ c ∧ grows c0 c ∧ replicated_enough c id)).
Proof.
  intros H. apply safe_read; [done|]. intros s.
  destruct (section_state c0 h s H) as (c1 & Hp1 & Hg1 & Hs).
  apply safe_read; [done|]. intros p.
  set (ev := answered (R := Answer) (Sync ReadPositions) p).
  assert (Hend : ∃ c, phase ((h ++ [answered (R := Answer) (Sync ReadState) s]) ++ [ev]) = Section_ c ∧
    grows c0 c ∧ s ∈ states c ∧ p ∈ positions c).
  { rewrite phase_snoc, Hp1. destruct c1 as [m ss ps bs rs g ch]. eexists. split; [done|].
    split; [|split; set_solver]. eapply grows_trans; [exact Hg1|]. unfold grows. split_and!; set_solver. }
  destruct Hend as (c & Hp & Hg & Hs' & Hpos). split; [by exists c|]. intros [= Hok].
  exists c. split_and!; [done|done|]. by exists s, p.
Qed.

Lemma member_test m id :
  negb (bool_decide (id ∈ voters m)) && negb (bool_decide (id ∈ learners m)) = false → member m id.
Proof.
  unfold member. destruct (decide (id ∈ voters m)); [by left|]. destruct (decide (id ∈ learners m)); [by right|].
  by rewrite !bool_decide_eq_false_2 by done.
Qed.

Lemma promote_free id : free (promote rounds srv id).
Proof.
  apply free_with_lock. intros h Hh. apply enter; [done|]. intros m h1 Hp.
  pose proof (in_section_fresh m h1 Hp) as H1. apply safe_try_bind. unfold validate_promote_membership.
  destruct (negb (bool_decide (current_leader m = Some self))) eqn:El; [done|].
  apply negb_false_iff, bool_decide_eq_true in El. apply safe_try_bind.
  eapply safe_post; [by apply wal_caught_up_safe|]. intros h2 [ok2|e] [H2 Hw]; [|done].
  destruct ok2; [|done]. cbn [negb]. destruct (Hw eq_refl) as (c & Hc & Hg & Hrep).
  destruct (negb _ && negb _) eqn:Em; [done|].
  apply member_test in Em as Hmem. clear Em. cbn [safe]. apply safe_await; [|done|].
  - destruct Hg as (Hs & Hch & Hgr & _). exists c. rewrite Hs. split_and!; [done|done|]. split_and!; [done|done|].
    left. exists id. rewrite Hs. by split_and!.
  - intros [u|e]; [|done]. apply (free_bind srv claim (applied_or_timeout rounds id Voter)); through.
Qed.

Lemma size_remove_one (v : gset NodeId) id :
  size (v ∖ {[id]}) ≠ 0%nat → ¬ ((2 ≤ size v)%nat ∧ (size (v ∖ {[id]}) < 2)%nat) →
  v ∖ {[id]} ≠ ∅ ∧ ((2 ≤ size v)%nat → (2 ≤ size (v ∖ {[id]}))%nat).
Proof. intros H0 H2. split; [intros E; by rewrite E in H0|]. lia. Qed.

Lemma remove_safe id : free (remove_node rounds srv id).
Proof.
  apply free_with_lock. intros h Hh. apply enter; [done|]. intros m h1 Hp.
  destruct (negb (bool_decide (current_leader m = Some self))) eqn:El; [done|].
  apply negb_false_iff, bool_decide_eq_true in El.
  case_bool_decide as Hself; [done|]. destruct (negb _ && negb _) eqn:Em; [done|].
  apply member_test in Em as Hmem. clear Em.
  assert (Hrest : free (let? _ := applied_or_timeout rounds id Removed in
      let? _ := drop_replication_slot_for_removed srv id in
      let? _ := forget_removed_node id in ret (Reply_ OK true))).
  { unfold drop_replication_slot_for_removed, forget_removed_node. through; by apply free_propose. }
  apply safe_try_bind. case_bool_decide as Hv.
  - unfold validate_remove_membership. case_bool_decide as H0; [done|].
    destruct (_ && _)%bool eqn:H2; [done|]. cbn [or_reply safe]. apply safe_await; [|done|].
    + destruct (size_remove_one (voters m) id) as [Hne H2'];
        [done|rewrite andb_false_iff, Nat.leb_gt, Nat.ltb_ge in H2; lia|].
      exists (fresh m). split_and!; [done|done|]. split_and!; [done|done|]. right. exists id. by split_and!.
    + intros [u|e]; [apply Hrest|done].
  - cbn [or_reply safe]. apply safe_await; [|done|].
    + exists (fresh m), id. split_and!; try done. by destruct Hmem.
    + intros [u|e]; [apply Hrest|done].
Qed.

(** ** The level *)
Definition surveyed (c : Critical) (s : ClusterState) (r : NodeId * option Z) : Prop :=
  ∀ l lv, r.2 = Some lv → l ≤ lv → decodes srv c s l r.1.

Lemma decodes_grows c c' s l id : grows c c' → decodes srv c s l id → decodes srv c' s l id.
Proof.
  intros (_ & _ & _ & _ & _ & Hb & _) [H|(n & lv & Hn & Hp & Hl)]; [by left|right].
  exists n, lv. split_and!; [done|by apply Hb|done].
Qed.

Lemma section_probe c0 h a lv :
  in_section c0 h →
  ∃ c, phase (h ++ [answered (R := Answer) (Async (MemberVersion a)) (Some (Some lv))]) = Section_ c ∧
       grows c0 c ∧ (a, lv) ∈ probes c.
Proof.
  intros (c & Hp & Hg). rewrite phase_snoc, Hp. destruct c as [m ss ps bs rs g ch]. eexists. split; [done|].
  split; [|set_solver]. eapply grows_trans; [exact Hg|]. unfold grows. split_and!; set_solver.
Qed.

Lemma survey_safe s ids : ∀ c0 h,
  in_section c0 h →
  safe any_answer ok h (survey_feature_levels srv s ids) (λ h' r, in_section c0 h' ∧
    ∀ l, r = Ok l → l.*1 = ids ∧ ∃ c, phase h' = Section_ c ∧ grows c0 c ∧ Forall (surveyed c s) l).
Proof.
  induction ids as [|id ids IH]; intros c0 h H; cbn [survey_feature_levels].
  { split; [done|]. intros l [= <-]. split; [done|]. destruct H as (c & Hp & Hg). exists c.
    split_and!; [done|done|constructor]. }
  apply safe_try_bind.
  apply (safe_post _ _ _ _ (λ h' r, in_section c0 h' ∧ ∀ lv, r = Ok lv →
    ∃ c, phase h' = Section_ c ∧ grows c0 c ∧ surveyed c s (id, lv))).
  { assert (Hsec : ∃ c, phase h = Section_ c ∧ grows c0 c) by (by destruct H as (c & ? & ?); exists c).
    destruct Hsec as (c & Hp & Hg). case_bool_decide as Hid.
    - split; [done|]. intros lv [= <-]. exists c. split_and!; [done|done|].
      intros l lv [= <-] Hl. by left.
    - destruct (nodes s !! id) as [n|] eqn:En.
      2: { split; [done|]. intros lv [= <-]. exists c. split_and!; [done|done|]. by intros l lv [=]. }
      split; [done|]. intros r _.
      pose proof (in_section_calm c0 h (Async (MemberVersion (mgmt_addr n))) r eq_refl H) as H'.
      destruct r as [[lv|]|]; [..|by split]; (split; [done|]); intros lv' [= <-].
      + destruct (section_probe c0 h (mgmt_addr n) lv H) as (c' & Hp' & Hg' & Hb). exists c'.
        split_and!; [done|done|]. intros l lv' [= <-] Hl. right. by exists n, lv.
      + destruct H' as (c' & Hp' & Hg'). exists c'. split_and!; [done|done|]. by intros l lv [=]. }
  intros h1 [lv|e] [H1 Hlv]; [|by split]. destruct (Hlv lv eq_refl) as (c1 & Hp1 & Hg1 & Hs1).
  apply safe_try_bind. eapply safe_post; [apply (IH c1); exists c1; split; [done|apply grows_refl]|].
  intros h2 [rest|e] [H2 Hr]; cbn.
  - destruct (Hr rest eq_refl) as (Hids & c2 & Hp2 & Hg2 & Hs2).
    assert (Hg : grows c0 c2) by (by eapply grows_trans).
    split; [by exists c2|]. intros l [= <-]. split; [by rewrite <-Hids|]. exists c2.
    split_and!; [done|done|]. constructor; [|done]. intros l lv' E Hl. eapply decodes_grows; [exact Hg2|].
    by apply (Hs1 l lv').
  - split; [|done]. destruct H2 as (c2 & Hp2 & Hg2). exists c2. split; [done|]. by eapply grows_trans.
Qed.

Lemma common_level_cons id lv members :
  common_level ((id, lv) :: members) =
  match lv with
  | Some l => Some (match common_level members with Some a => Z.min l a | None => l end)
  | None => common_level members
  end.
Proof. done. Qed.

Lemma common_level_none members r : common_level members = None → r ∈ members → r.2 = None.
Proof.
  induction members as [|[id [a|]] members IH]; rewrite ?common_level_cons; [by intros _ ?%elem_of_nil|done|].
  intros H [->|Hr]%elem_of_cons; [done|by apply IH].
Qed.

Lemma common_level_le members l r lv :
  common_level members = Some l → r ∈ members → r.2 = Some lv → l ≤ lv.
Proof.
  revert l. induction members as [|[id [a|]] members IH]; intros l; rewrite ?common_level_cons; [done|..];
    intros Hl [->|Hr]%elem_of_cons Hlv; cbn in Hlv; [..|done|by eapply IH].
  - injection Hl as <-. injection Hlv as <-. destruct (common_level members); lia.
  - injection Hl as <-. destruct (common_level members) as [b|] eqn:Eb.
    + pose proof (IH b eq_refl Hr Hlv). lia.
    + by rewrite (common_level_none members r Eb Hr) in Hlv.
Qed.

Lemma finalize_target_spec committed members l :
  finalize_target committed members = Ok (Some l) →
  committed < l ∧ ∀ r, r ∈ members → ∃ lv, r.2 = Some lv ∧ l ≤ lv.
Proof.
  unfold finalize_target. destruct (existsb _ _) eqn:Ex; [done|]. intros [= H].
  destruct (common_level members) as [l'|] eqn:El; [|done]. cbn in H.
  destruct (Z.ltb_spec committed l'); simplify_eq. split; [done|]. intros r Hr.
  destruct r.2 as [lv|] eqn:Er.
  - exists lv. split; [done|]. by eapply common_level_le.
  - exfalso. revert Ex. apply not_false_iff_true. apply existsb_exists. exists r.
    split; [by apply list_elem_of_In|]. by apply bool_decide_eq_true.
Qed.

Lemma finalize_safe : free (finalize_upgrade srv).
Proof.
  apply free_with_lock. intros h Hh. apply enter; [done|]. intros m h1 Hp.
  destruct (negb (bool_decide (current_leader m = Some self))) eqn:El; [done|].
  apply negb_false_iff, bool_decide_eq_true in El. apply safe_read; [done|]. intros s.
  destruct (section_state (fresh m) h1 s (in_section_fresh m h1 Hp)) as (c1 & Hp1 & Hg1 & Hs1).
  apply safe_try_bind. eapply safe_post;
    [apply (survey_safe s _ c1); exists c1; split; [done|apply grows_refl]|].
  intros h2 [ms|e] [H2 Hms]; [|done]. destruct (Hms ms eq_refl) as (Hids & c2 & Hp2 & Hg2 & Hsur).
  apply safe_try_bind. apply safe_read; [done|]. intros s'.
  destruct (section_state c2 _ s' (ex_intro _ c2 (conj Hp2 (grows_refl c2)))) as (c3 & Hp3 & Hg3 & Hs3).
  destruct (finalize_target (feature_level s') ms) as [[l|]|e] eqn:Ef; [|done..].
  apply finalize_target_spec in Ef as [Hlt Hall].
  assert (Hg13 : grows c1 c3) by (by eapply grows_trans).
  assert (Hseen : seen c3 = m ∧ changed c3 = false ∧ grown c3 = false).
  { destruct (grows_trans _ _ _ Hg1 Hg13) as (? & ? & ? & _). done. }
  destruct Hseen as (Hseen & Hch & Hgr). apply safe_await; [|done|].
  - exists c3. rewrite Hseen. split_and!; [done|done|]. split_and!; [done|done|].
    exists s, s'. split_and!; [by apply Hg13|done|done|]. rewrite Hseen. intros id Hid.
    assert (id ∈ ms.*1) as Hin.
    { rewrite Hids. apply elem_of_elements. destruct Hid; set_solver. }
    apply list_elem_of_fmap in Hin as (r & -> & Hr). destruct (Hall r Hr) as (lv & Hlv & Hle).
    rewrite Forall_forall in Hsur. eapply decodes_grows; [exact Hg3|]. by apply (Hsur r Hr l lv).
  - by intros [[]|e].
Qed.
(** ** Joining *)
Lemma to_advertised_raft req addrs :
  to_advertised req = Some addrs → parse_socket_addr (req_raft_addr req) = Some (adv_raft addrs).
Proof.
  unfold to_advertised. intros H. simplify_option_eq. destruct (_ && _); [by injection H as <-|done].
Qed.

Definition may_add (id : NodeId) (addr : bytes) (h : hist) : Prop :=
  ∃ c, phase h = Section_ c ∧ current_leader (seen c) = Some self ∧ learner_justified claim c id addr.

Lemma may_add_again id addr h q r :
  match q with Async (AddLearner _ _) | Async (Sleep _) => True | _ => False end →
  may_add id addr h → may_add id addr (h ++ [answered q r]).
Proof.
  intros Hq (c & Hp & Hl & Hj). destruct q as [|[]]; try done; destruct c as [m ss ps bs rs g ch];
    eexists; rewrite phase_snoc, Hp; by split.
Qed.

Lemma add_learner_safe n id addr h :
  may_add id addr h → safe any_answer ok h (add_learner_retrying n id addr) (λ _ _, True).
Proof.
  revert h. induction n as [|n IH]; intros h H; cbn [add_learner_retrying];
    (apply safe_await; [exact H|done|]; intros r).
  - by destruct r as [|[]].
  - destruct r as [u|[]]; try done. apply safe_await; [done..|]. intros u.
    by apply IH, may_add_again, may_add_again.
Qed.

(** The node info commits: it is recorded, and the rest of the section as before. *)
Lemma replicate_safe c0 h req addrs :
  in_section c0 h →
  safe any_answer ok h (replicate_node_info req addrs) (λ h' r,
    match r with
    | Ok (Ok _) => ∃ c ls, phase h' = Section_ c ∧ grows c0 c ∧ node_info req addrs ls ∈ recorded c
    | _ => True
    end).
Proof.
  intros H. apply safe_read; [done|]. intros ls. apply safe_read; [done|]. intros s.
  pose proof (in_section_calm _ _ (Sync Now) ls eq_refl H) as H1.
  destruct (section_state c0 _ s H1) as (c & Hp & Hg & _).
  destruct (Handoff.admit_command _ _) as [u|e]; [|done].
  apply safe_await; [done..|]. intros [o|e]; [|done]. cbn [safe].
  destruct c as [m ss ps bs rs g ch]. eexists _, ls. rewrite phase_snoc, Hp. split; [done|].
  split; [|set_solver]. eapply grows_trans; [exact Hg|]. unfold grows. split_and!; set_solver.
Qed.

(** Validation passed: the metrics, and a state whose level the joiner decodes. *)
Lemma validate_join_safe req h :
  phase h = Entered →
  safe any_answer ok h (validate_join_request srv req) (λ h' r,
    ∀ addrs resume, r = Ok (addrs, resume) →
    ∃ c s, phase h' = Section_ c ∧ current_leader (seen c) = Some self ∧ s ∈ states c ∧
      feature_level s ≤ req_feature_level req ∧ to_advertised req = Some addrs ∧
      (resume = false → ¬ member (seen c) (req_node_id req))).
Proof.
  intros Hh. apply enter; [done|]. intros m h1 Hp.
  destruct (negb (bool_decide (current_leader m = Some self))) eqn:El; [done|].
  apply negb_false_iff, bool_decide_eq_true in El.
  destruct (to_advertised req) as [addrs|] eqn:Ea; [|done]. apply safe_read; [done|]. intros s.
  destruct (section_state (fresh m) h1 s (in_section_fresh m h1 Hp)) as (c & Hc & Hg & Hs).
  unfold feature_level_refusal. destruct (Z.ltb_spec (req_feature_level req) (feature_level s)); [done|].
  assert (Hseen : seen c = m) by apply Hg. unfold classify_join.
  case_bool_decide as Hv; [done|]. destruct (bool_decide (req_node_id req ∈ learners m)) eqn:Eml; cbn [negb].
  - destruct (bool_decide (default [] _ = _)); [|done]. intros ? ? [= <- <-]. exists c, s. rewrite Hseen. by split_and!.
  - unfold ret; cbn [safe]. intros addrs' resume [= <- <-]. exists c, s. rewrite Hseen. split_and!; [done..|].
    intros _ [?|Hlr]; [done|]. by rewrite bool_decide_eq_true_2 in Eml.
Qed.

Lemma join_safe req : claim = (req_node_id req, req_feature_level req) → free (join_cluster rounds srv req).
Proof.
  intros Hclaim. unfold join_cluster. apply free_bind.
  2: { intros u. unfold create_replication_slot_for_joined_node. through; by apply free_propose. }
  apply free_with_lock. intros h Hh. apply safe_try_bind.
  eapply safe_post; [by apply validate_join_safe|]. intros h1 [[addrs resume]|e] H1; [|done].
  destruct (H1 addrs resume eq_refl) as (c & s & Hp & Hl & Hs & Hle & Ha & Hnew).
  apply safe_try_bind. eapply safe_post;
    [apply (replicate_safe c); exists c; split; [done|apply grows_refl]|].
  intros h2 [[o|e]|e] H2; [|done..]. destruct H2 as (c2 & ls & Hp2 & Hg2 & Hr).
  destruct resume; [done|]. apply safe_try_bind. eapply safe_post.
  - apply add_learner_safe. destruct Hg2 as (Hseen & _ & _ & Hss & _).
    exists c2. rewrite Hseen. rewrite Hclaim.
    split_and!; [done|done|]. split_and!; [done| | |].
    + rewrite Hseen. by apply Hnew.
    + exists s. split; [by apply Hss|done].
    + exists (node_info req addrs ls). split_and!; [done|done|]. by apply to_advertised_raft.
  - by intros h3 [[u|e]|e] _.
Qed.

(** ** The rest change nothing *)
Lemma intended_safe : free (promote_intended_pass rounds srv).
Proof.
  unfold promote_intended_pass. apply free_bind; [through|]. intros m. destruct (bool_decide _); [|through].
  apply free_bind; [through|]. intros s. generalize (intended_learners (voter_intent s) (learners m)).
  intros ids. induction ids as [|id ids IH]; cbn [promote_each]; [through|].
  apply free_bind_any; [apply promote_free|]. intros _. exact IH.
Qed.
Lemma transfer_free target : free (transfer_leadership rounds srv target).
Proof.
  assert (Hobs : ∀ n d, free (observe_handover srv n d))
    by (intros n; induction n as [|n IH]; intros d; cbn [observe_handover]; through; apply IH).
  assert (Hcatch : ∀ n d, free (catchup_poll n target d))
    by (intros n; induction n as [|n IH]; intros d; cbn [catchup_poll]; through; apply IH).
  assert (Hpoll : ∀ n d, free (leader_change_poll srv n d))
    by (intros n; induction n as [|n IH]; intros d; cbn [leader_change_poll]; through; apply IH).
  assert (Hduck : ∀ a, free (lame_duck rounds srv a))
    by (intros a; unfold lame_duck, trigger_election_on_node; through; apply Hobs).
  unfold transfer_leadership. apply free_bind; [through|]. intros b. destruct (negb b); [through|].
  apply free_guarded. apply free_with_lock. intros h _.
  match goal with |- safe _ _ _ ?m _ => assert (H : free m); [|apply H] end.
  unfold resolve_transfer_target, wait_for_target_catchup, wal_caught_up, confirm_target_ready,
    poll_for_leader_change, silent. through.
Qed.
End Handlers.
