(* ===== verification/TransferProofs.v ===== *)
(** * Leadership transfer: when a leader may go silent, and that it never stays so *)

From S2P Require Import Prelude Effects Text Net ClusterState Lease Members MembersProofs.
From S2P Require Handoff.

(** Whether heartbeats are on, as the handler left them. *)
Definition heartbeats (h : hist) : bool :=
  foldl (λ b ev, match ev with existT (Sync (Heartbeat b')) _ => b' | _ => b end) true h.
Lemma heartbeats_snoc h ev :
  heartbeats (h ++ [ev]) = match ev with existT (Sync (Heartbeat b)) _ => b | _ => heartbeats h end.
Proof. unfold heartbeats. rewrite foldl_snoc. by destruct ev as [[[]|] ?]. Qed.

Section Transfer.
Context (rounds : nat) (srv : Server) (target : NodeId).
Local Notation self := (srv_node_id srv).
Local Notation saw := (saw (R := Answer)).

(** The target was a voter of the membership this leader read, caught up on the Raft
    log and on WAL, and answered that it can take leadership. *)
Definition ready_to_go (h : hist) : Prop :=
  target ≠ self ∧
  saw h (Sync ReadMetrics) (λ m, current_leader m = Some self ∧ target ∈ voters m) ∧
  saw h (Sync ReadMetrics) (λ m, target_caught_up m target = true) ∧
  (∃ s, saw h (Sync ReadState) (λ s', s' = s) ∧
        saw h (Sync ReadPositions) (λ p, Wal.caught_up p.1 target (lsn_catchup_threshold_bytes s) p.2 = true)) ∧
  ∃ a timeout, saw h (Async (PostInternal a ElectReadiness timeout)) (λ r, r = Some (Ok tt)).

(** A full lease and its margin have passed in silence, and this node still led. *)
Definition drained (h : hist) : Prop :=
  ∃ h1 (m : Metrics),
    h = h1 ++ [answered (R := Answer) (Sync (Heartbeat false)) tt;
               answered (R := Answer) (Async (Sleep (DEFAULT_LEASE_DURATION + 100 * ms))) (Some tt);
               answered (R := Answer) (Sync ReadMetrics) m] ∧
    current_leader m = Some self.

Definition transfer_ok (h : hist) (q : Req) : Prop :=
  match q with
  | Sync (Heartbeat false) => ready_to_go h
  | Async (PostInternal _ TriggerElect _) => drained h
  | _ => True
  end.

Definition neutral (q : Req) : bool :=
  match q with
  | Sync (Heartbeat _) => false
  | Async (PostInternal _ TriggerElect _) => false
  | _ => true
  end.
(** Facts that no neutral request ends. *)
Class Lasting (I : hist → Prop) : Prop :=
  lasting h q r : neutral q = true → I h → I (h ++ [answered q r]).

#[local] Instance lasting_heartbeats b : Lasting (λ h, heartbeats h = b).
Proof. intros h q r Hq H. rewrite heartbeats_snoc. by destruct q as [[]|]. Qed.
#[local] Instance lasting_saw q P : Lasting (λ h, saw h q P).
Proof. intros h q' r _ H. by apply saw_app_l. Qed.
#[local] Instance lasting_and I J : Lasting I → Lasting J → Lasting (λ h, I h ∧ J h).
Proof. intros HI HJ h q r Hq [? ?]. split; by apply lasting. Qed.
#[local] Instance lasting_pure P : Lasting (λ _, P).
Proof. by intros h q r _ H. Qed.

Definition passes {A} (m : M A) : Prop :=
  ∀ I h, Lasting I → I h → safe any_answer transfer_ok h m (λ h' _, I h').

Lemma neutral_ok h q : neutral q = true → transfer_ok h q.
Proof. by destruct q as [[]|[]]; try destruct path. Qed.
Lemma passes_ret {A} (a : A) : passes (ret a).
Proof. by intros I h HI H. Qed.
Lemma passes_leave {A} e : passes (@leave A e).
Proof. by intros I h HI H. Qed.
Lemma passes_read q : neutral (Sync q) = true → passes (read q).
Proof. intros Hq I h HI H. split; [by apply neutral_ok|]. intros r _. by apply lasting. Qed.
Lemma passes_await q : neutral (Async q) = true → passes (await q).
Proof. intros Hq I h HI H. split; [by apply neutral_ok|]. intros r _. by destruct r; apply lasting. Qed.
Lemma passes_bind {A B} (m : M A) (f : A → M B) : passes m → (∀ a, passes (f a)) → passes (try_bind m f).
Proof.
  intros Hm Hf I h HI H. apply safe_try_bind. eapply safe_post; [by apply Hm|].
  intros h' [a|e] H'; [by apply Hf|done].
Qed.

(** A read and an awaited answer, with what they show. *)
Lemma transfer_read {A} q (f : SyncAnswer q → M A) h Q :
  transfer_ok h (Sync q) →
  (∀ r, safe any_answer transfer_ok (h ++ [answered (R := Answer) (Sync q) r]) (f r) Q) →
  safe any_answer transfer_ok h (try_bind (read q) f) Q.
Proof. intros Hq Hf. split; [done|]. intros r _. apply Hf. Qed.
Lemma transfer_await {A} q (f : AsyncAnswer q → M A) h (Q : hist → result exit A → Prop) :
  transfer_ok h (Async q) → Q (h ++ [answered (R := Answer) (Async q) None]) (Err Dropped) →
  (∀ r, safe any_answer transfer_ok (h ++ [answered (R := Answer) (Async q) (Some r)]) (f r) Q) →
  safe any_answer transfer_ok h (try_bind (await q) f) Q.
Proof. intros Hq Hd Hf. split; [done|]. intros [r|] _; [apply Hf|done]. Qed.

Hint Resolve passes_ret passes_leave : members.
Hint Extern 1 (passes (await _)) => (by apply passes_await) : members.
Hint Extern 1 (passes (read _)) => (by apply passes_read) : members.
Ltac pass :=
  repeat (intros;
    first
      [ solve [auto with members]
      | lazymatch goal with
        | |- passes (try_bind _ _) => apply passes_bind
        | |- passes (reply _) => apply passes_leave
        | |- passes (if ?b then _ else _) => destruct b
        | |- passes (match ?x with _ => _ end) => destruct x
        end ]).

Lemma passes_observe n d : passes (observe_handover srv n d).
Proof. induction n as [|n IH]; cbn [observe_handover]; pass; apply IH. Qed.
Lemma passes_poll n d : passes (leader_change_poll srv n d).
Proof. induction n as [|n IH]; cbn [leader_change_poll]; pass; apply IH. Qed.

(** ** The gates, each with what it shows *)
Lemma catchup_gate I h n d :
  Lasting I → I h →
  safe any_answer transfer_ok h (catchup_poll n target d) (λ h' r,
    I h' ∧ (r = Ok true → saw h' (Sync ReadMetrics) (λ m, target_caught_up m target = true))).
Proof.
  intros HI. revert h. induction n as [|n IH]; intros h H; cbn [catchup_poll]; [by split|].
  apply transfer_read; [done|]. intros m.
  assert (H1 : I (h ++ [answered (R := Answer) (Sync ReadMetrics) m])) by (by apply lasting).
  destruct (target_caught_up m target) eqn:Ec.
  - split; [done|]. intros _. by apply saw_here.
  - apply transfer_await; [done| |].
    + split; [by apply lasting|done].
    + intros []; try (by apply IH, lasting). split; [by apply lasting|done].
Qed.

Lemma wal_gate I h :
  Lasting I → I h →
  safe any_answer transfer_ok h (wal_caught_up target) (λ h' r, I h' ∧
    (r = Ok true → ∃ s, saw h' (Sync ReadState) (λ s', s' = s) ∧
       saw h' (Sync ReadPositions) (λ p, Wal.caught_up p.1 target (lsn_catchup_threshold_bytes s) p.2 = true))).
Proof.
  intros HI H. apply transfer_read; [done|]. intros s. apply transfer_read; [done|]. intros p.
  split; [by apply lasting, lasting|]. intros [= Hok]. exists s. split.
  - apply saw_app_l. by apply saw_here.
  - by apply saw_here.
Qed.

(** The lame-duck window leaves heartbeats on, however it ends. *)
Lemma silent_safe h a :
  ready_to_go h →
  safe any_answer transfer_ok h (silent (lame_duck rounds srv a)) (λ h' _, heartbeats h' = true).
Proof.
  intros Hready. apply transfer_read; [done|]. intros []. apply safe_bind.
  apply (safe_post _ _ _ _ (λ _ _, True));
    [|intros h' r _; split; [done|]; intros [] _; cbn [bind safe]; by rewrite heartbeats_snoc].
  apply transfer_await; [done..|]. intros [].
  apply transfer_read; [done|]. intros m. destruct (negb (bool_decide _)) eqn:El; [done|].
  apply negb_false_iff, bool_decide_eq_true in El. apply transfer_await; [|done|].
  - exists h, m. split; [|done]. by rewrite <-!(assoc_L (++)).
  - intros [u|e]; [|done]. apply transfer_read; [done|]. intros now.
    by apply (passes_observe rounds _ (λ _, True)).
Qed.

(** The facts so far, heartbeats on among them. *)
Definition I0 (h : hist) : Prop := heartbeats h = true.
#[local] Instance lasting_I0 : Lasting I0.
Proof. apply lasting_heartbeats. Qed.

Lemma guarded_I0 {A} release (m : M A) h :
  neutral (Sync release) = true →
  safe any_answer transfer_ok h m (λ h' _, I0 h') →
  safe any_answer transfer_ok h (guarded release m) (λ h' _, I0 h').
Proof.
  intros Hr Hm. apply safe_bind. eapply safe_post; [exact Hm|]. intros h' r H'.
  split; [by apply neutral_ok|]. intros u _. by apply lasting.
Qed.

Definition led (h : hist) : Prop :=
  target ≠ self ∧ saw h (Sync ReadMetrics) (λ m, current_leader m = Some self ∧ target ∈ voters m).
#[local] Instance lasting_led : Lasting led.
Proof. apply _. Qed.

Lemma resolve_gate m h :
  I0 h → saw h (Sync ReadMetrics) (λ m', m' = m) →
  safe any_answer transfer_ok h (resolve_transfer_target srv m target) (λ h' r,
    I0 h' ∧ (is_ok r = true → led h')).
Proof.
  intros H Hm. unfold resolve_transfer_target.
  destruct (negb (bool_decide (current_leader m = Some self))) eqn:El; [by split|].
  apply negb_false_iff, bool_decide_eq_true in El.
  destruct (bool_decide (target = self)) eqn:Et; [by split|]. apply bool_decide_eq_false in Et.
  destruct (negb (bool_decide (target ∈ voters m))) eqn:Ev; [by split|].
  apply negb_false_iff, bool_decide_eq_true in Ev.
  apply transfer_read; [done|]. intros s.
  assert (Hled : led (h ++ [answered (R := Answer) (Sync ReadState) s])).
  { apply lasting; [done|]. split; [done|]. eapply saw_mono; [exact Hm|]. by intros m' ->. }
  destruct (nodes s !! target); (split; [by apply lasting|]); done.
Qed.

Lemma handover_safe :
  safe any_answer transfer_ok [] (transfer_leadership rounds srv target) (λ h _, I0 h).
Proof.
  unfold transfer_leadership. apply transfer_read; [done|]. intros b. destruct (negb b); [done|].
  apply guarded_I0; [done|]. unfold with_lock. apply transfer_await; [done..|]. intros [].
  apply guarded_I0; [done|]. apply transfer_read; [done|]. intros m. apply safe_try_bind.
  eapply safe_post; [by apply (resolve_gate m); [done|apply saw_here]|].
  intros h1 [a|e] [H1 L1]; [|done]. specialize (L1 eq_refl). apply safe_try_bind.
  apply (safe_post _ _ _ _ (λ h' r, (I0 h' ∧ led h') ∧ (is_ok r = true →
    saw h' (Sync ReadMetrics) (λ m, target_caught_up m target = true)))).
  { unfold wait_for_target_catchup. apply transfer_read; [done|]. intros now. apply safe_try_bind.
    eapply safe_post; [apply (catchup_gate (λ h, I0 h ∧ led h)); [apply _|split; by apply lasting]|].
    intros h2 [[]|e] [H2 C2]; (split; [done|]); try done. intros _. by apply C2. }
  intros h2 [u|e] [[H2 L2] C2]; [|done]. specialize (C2 eq_refl). apply safe_try_bind.
  eapply safe_post; [apply (wal_gate (λ h, (I0 h ∧ led h) ∧ saw h (Sync ReadMetrics) (λ m, target_caught_up m target = true))); [apply _|done]|].
  intros h3 [[]|e] [[[H3 L3] C3] W3]; [|done..]. specialize (W3 eq_refl) as (s & Ws & Wp). cbn [negb].
  unfold confirm_target_ready. apply transfer_await; [done|by apply lasting|].
  intros [[]|e]; [|by apply lasting]. cbn [safe].
  apply safe_try_bind. eapply safe_post.
  - apply silent_safe. destruct L3 as [Ht L3]. split_and!; [done|by apply saw_app_l|by apply saw_app_l| |].
    + exists s. split; by apply saw_app_l.
    + exists a, (ELECT_READINESS_CLIENT_TIMEOUT_SECS * secs). by apply saw_here.
  - intros h4 [u'|e] H4; [|done]. apply transfer_read; [done|]. intros now. apply safe_try_bind.
    eapply safe_post; [apply (passes_poll _ _ I0); [apply _|by apply lasting]|]. by intros h5 [l|e] H5.
Qed.

(** A leadership transfer goes silent only for a target that can take over, and
    never stays silent: heartbeats stop only after the target was seen to be another
    voter, caught up on the Raft log and on WAL, and itself answered ready; the
    target is told to elect only after a full lease and its margin have passed in
    silence and this node still leads; and however the handler ends, dropped at any
    await included, heartbeats are on. *)
Lemma transfer_never_stays_silent :
  (∀ t q, issues (transfer_leadership rounds srv target) t q →
     match q with
     | Sync (Heartbeat false) => ready_to_go t
     | Async (PostInternal _ TriggerElect _) => drained t
     | _ => True
     end) ∧
  (∀ t r, runs (transfer_leadership rounds srv target) t r → heartbeats t = true).
Proof.
  split; [intros t q Hi|intros t r Hr].
  - pose proof (safe_issues any_answer transfer_ok [] _ _ t q handover_safe Hi (relies_any _ _)) as H.
    by destruct q as [[]|[]].
  - by apply (safe_runs any_answer transfer_ok [] _ _ t r handover_safe Hr).
Qed.
End Transfer.
