(* ===== verification/MembersSystem.v ===== *)
(** * The membership handlers together

    Any number of handlers of one node, the leader, interleaved request by request.
    They share the membership lock and the cluster: its voters, its learners and the
    committed feature level ([World]).  [reach] says which histories they can have;
    [inside] is what a handler still knows of the cluster while it holds the lock.

    [support] is the level each node's binary decodes and [addr_of] where it answers.
    A change that was not acknowledged stays in flight ([w_pending]): nothing bounds
    when Raft commits it, or whether.  [reach true] lets it take effect at any later
    moment; in [reach false] it never does, or did at once. *)

From S2P Require Import Prelude Effects Text Net ClusterState StoreCodec Lease Members MembersProofs.

Inductive Op :=
| Join (req : JoinRequest) | Promote (id : NodeId) | Intended | Remove (id : NodeId) | Finalize
| Transfer (target : NodeId).

(** A change of the cluster. *)
Inductive Move := Reconfigure (c : ChangeMembers) | Joined (id : NodeId) | Raised (level : Z).
Record World := World_ {
  w_voters : gset NodeId;
  w_learners : gset NodeId;
  w_level : Z;
  w_holder : option nat;
  w_pending : list Move;   (* proposed, and not known to have been committed *)
}.
Definition w_member (w : World) (id : NodeId) : Prop := id ∈ w_voters w ∨ id ∈ w_learners w.
Definition held_by (o : option nat) (w : World) : World :=
  World_ (w_voters w) (w_learners w) (w_level w) o (w_pending w).
Definition reconfigured (c : ChangeMembers) (w : World) : World :=
  match c with
  | ReplaceAllVoters v => World_ v (w_learners w ∖ v) (w_level w) (w_holder w) (w_pending w)
  | RemoveNodes ids => World_ (w_voters w) (w_learners w ∖ ids) (w_level w) (w_holder w) (w_pending w)
  end.
Definition joined (id : NodeId) (w : World) : World :=
  World_ (w_voters w) (w_learners w ∪ ({[id]} ∖ w_voters w)) (w_level w) (w_holder w) (w_pending w).
Definition raised (l : Z) (w : World) : World :=
  World_ (w_voters w) (w_learners w) (Z.max (w_level w) l) (w_holder w) (w_pending w).
Definition moved (m : Move) : World → World :=
  match m with Reconfigure c => reconfigured c | Joined id => joined id | Raised l => raised l end.
Definition pending (ms : list Move) (w : World) : World :=
  World_ (w_voters w) (w_learners w) (w_level w) (w_holder w) ms.

Section System.
Context (rounds : nat) (srv : Server) (support : NodeId → Z) (addr_of : NodeId → SocketAddr).
Local Notation self := (srv_node_id srv).

Definition silently {A} (m : M A) : M () := let* _ := m in ret tt.
Definition program (o : Op) : M () :=
  match o with
  | Join req => silently (join_cluster rounds srv req)
  | Promote id => silently (promote_node rounds srv id)
  | Intended => promote_intended_pass rounds srv
  | Remove id => silently (remove_node rounds srv id)
  | Finalize => silently (finalize_upgrade srv)
  | Transfer target => silently (transfer_leadership rounds srv target)
  end.

(** A change is made when acknowledged; otherwise it was made, or is in flight. *)
Definition made (ok : bool) (m : Move) (w w' : World) : Prop :=
  w' = moved m w ∨ (ok = false ∧ w' = pending (m :: w_pending w) w).
Definition acked {A} (r : option (result RaftFailure A)) : bool :=
  match r with Some (Ok _) => true | _ => false end.

Definition effect (i : nat) (w : World) (ev : @event Req Answer) (w' : World) : Prop :=
  match ev with
  | existT (Async Lock) (Some _) => w_holder w = None ∧ w' = held_by (Some i) w
  | existT (Sync Unlock) _ => w' = if decide (w_holder w = Some i) then held_by None w else w
  | existT (Sync ReadMetrics) m => voters m = w_voters w ∧ learners m = w_learners w ∧ w' = w
  | existT (Sync ReadState) s =>
      feature_level s = w_level w ∧
      (∀ id n, nodes s !! id = Some n → mgmt_addr n = addr_of id) ∧ w' = w
  | existT (Async (MemberVersion a)) r =>
      (∀ l id, r = Some (Some l) → addr_of id = a → support id = l) ∧ w' = w
  | existT (Async (ChangeMembership c)) r => made (acked r) (Reconfigure c) w w'
  | existT (Async (AddLearner id _)) r => made (acked r) (Joined id) w w'
  | existT (Async (ClientWrite (SetFeatureLevel l))) r => made (acked r) (Raised l) w w'
  | _ => w' = w
  end.

Context (ops : nat → Op) (w0 : World) (late : bool).

Definition proj (i : nat) (g : list (nat * @event Req Answer)) : list (@event Req Answer) :=
  omap (λ e, if decide (e.1 = i) then Some e.2 else None) g.

Inductive reach : list (nat * @event Req Answer) → World → Prop :=
| reach_start : reach [] w0
| reach_step g w i q r w' :
    reach g w → issues (program (ops i)) (proj i g) q → effect i w (answered q r) w' →
    reach (g ++ [(i, answered q r)]) w'
| reach_late g w m l1 l2 :
    reach g w → late = true → w_pending w = l1 ++ m :: l2 → reach g (moved m (pending (l1 ++ l2) w)).

Lemma proj_snoc i j ev g : proj i (g ++ [(j, ev)]) = if decide (j = i) then proj i g ++ [ev] else proj i g.
Proof.
  unfold proj. rewrite omap_app. cbn. destruct (decide (j = i)); [done|]. by rewrite app_nil_r.
Qed.

(** ** Each handler changes the cluster only under the lock *)
Definition claim_of (o : Op) : NodeId * Z :=
  match o with Join req => (req_node_id req, req_feature_level req) | _ => (self, FEATURE_LEVEL) end.

Lemma free_silently {A} claim (m : M A) : free srv claim m → free srv claim (silently m).
Proof. intros Hm. apply free_bind_any; [done|]. through. Qed.
Lemma program_free o : free srv (claim_of o) (program o).
Proof.
  destruct o; cbn [program];
    eauto using free_silently, join_safe, promote_free, intended_safe, remove_safe, finalize_safe, transfer_free.
Qed.
Lemma issued_justified o h q : issues (program o) h q → justified srv (claim_of o) h q.
Proof.
  intros Hi. apply (safe_issues any_answer _ [] _ _ h q (program_free o []) Hi), relies_any.
Qed.

(** ** What the holder knows *)
Definition current (c : Critical) (w : World) : Prop :=
  (changed c = false → voters (seen c) = w_voters w) ∧
  (grown c = false → learners (seen c) = w_learners w) ∧
  (∀ s, s ∈ states c → feature_level s = w_level w ∧
     ∀ id n, nodes s !! id = Some n → mgmt_addr n = addr_of id) ∧
  (∀ a l id, (a, l) ∈ probes c → addr_of id = a → support id = l).
Definition inside (w : World) (p : Phase) : Prop :=
  match p with Section_ c => current c w | _ => True end.
Definition known (i : nat) (w : World) (h : hist) : Prop :=
  (phase h = Outside ∨ w_holder w = Some i) ∧ inside w (phase h).
Definition coherent (g : list (nat * @event Req Answer)) (w : World) : Prop :=
  ∀ i, known i w (proj i g).

(** A request that is not a change of the cluster. *)
Lemma harmless_world i w q r w' :
  harmless q = true → effect i w (answered q r) w' →
  w_voters w' = w_voters w ∧ w_learners w' = w_learners w ∧ w_level w' = w_level w.
Proof.
  intros Hq He.
  destruct q as [[]|[]]; try discriminate Hq; try (destruct c; try discriminate Hq); cbn in r, He;
    try destruct r; destruct_and?; subst w'; try done; by case_decide.
Qed.
Lemma inside_same w w' p :
  w_voters w' = w_voters w → w_learners w' = w_learners w → w_level w' = w_level w →
  inside w p → inside w' p.
Proof. intros Hv Hl Hf. destruct p; [done..|]. cbn. unfold current. by rewrite Hv, Hl, Hf. Qed.

(** A change is issued in the critical section. *)
Lemma change_in_section claim h q :
  harmless q = false → justified srv claim h q → ∃ c, phase h = Section_ c.
Proof.
  intros Hq Hj. destruct q as [[]|[]]; try discriminate Hq; try (destruct c; try discriminate Hq);
    destruct Hj as (c & ?); exists c; naive_solver.
Qed.

(** The holder's own step. *)
Lemma own_inside i w h q r w' :
  effect i w (answered q r) w' → inside w (phase h) → inside w' (phase_step (phase h) (answered q r)).
Proof.
  intros He Hin.
  assert (Hsame : harmless q = true → inside w' (phase h)).
  { intros Hq. destruct (harmless_world i w q r w' Hq He) as (Hv & Hl & Hf). by apply (inside_same w). }
  destruct (phase h) as [| |[m ss ps bs rs g ch]];
    [by destruct q as [[]|[]]; try done; destruct r| |].
  - destruct q as [[]|[]]; try done; [|by destruct r].
    destruct He as (Hv & Hl & ->). cbn. unfold current. cbn. split_and!; [done..| |]; set_solver.
  - destruct q as [[]|[]]; try done; try (by apply Hsame).
    all: cbn in r, He.
    + destruct He as (Hf & Ha & ->), Hin as (Hv & Hl & Hs & Hb). split_and!; [done|done| |done].
      intros s' [->|Hs']%elem_of_cons; [done|by apply Hs].
    + destruct r; [done|]. by apply Hsame.
    + destruct c; try (by apply Hsame); [destruct r as [[]|]; by apply Hsame|].
      destruct Hin as (Hv & Hl & Hs & Hb). destruct He as [->|[_ ->]]; split_and!; try done; set_solver.
    + destruct Hin as (Hv & Hl & Hs & Hb). by destruct He as [->|[_ ->]].
    + destruct Hin as (Hv & Hl & Hs & Hb).
      split_and!; [done..| |done]. intros s' Hs'.
      destruct He as [->|[_ ->]]; [destruct c|]; by apply Hs.
    + destruct Hin as (Hv & Hl & Hs & Hb), He as [Hprobe ->].
      destruct r as [[l|]|]; try (by split_and!).
      split_and!; [done..|]. intros a l' id [[= -> ->]|Hin']%elem_of_cons; [by apply Hprobe|by apply Hb].
Qed.

(** Only the lock moves its holder. *)
Definition locking (q : Req) : bool :=
  match q with Async Lock | Sync Unlock => true | _ => false end.
Lemma holder_same i w q r w' :
  locking q = false → effect i w (answered q r) w' → w_holder w' = w_holder w.
Proof.
  intros Hq He. destruct q as [[]|[]]; try discriminate Hq; cbn in r, He; try destruct c;
    destruct_and?; subst; try done; by destruct He as [->|[_ ->]].
Qed.
Lemma outside_same q r : locking q = false → phase_step Outside (answered q r) = Outside.
Proof. by destruct q as [[]|[]]. Qed.

Lemma own_step i w h q r w' :
  effect i w (answered q r) w' → known i w h → known i w' (h ++ [answered q r]).
Proof.
  intros He [Hh Hin]. split; rewrite phase_snoc; [|by eapply own_inside].
  destruct (locking q) eqn:Hq.
  - destruct q as [[]|[]]; try discriminate Hq; [by left|]. cbn in r, He.
    destruct r; [right; by destruct He as [_ ->]|]. subst w'. by destruct Hh as [->|]; [left|right].
  - rewrite (holder_same _ _ _ _ _ Hq He). destruct Hh as [->|]; [left; by apply outside_same|by right].
Qed.

(** Another handler's step: it changes the cluster only as the holder. *)
Lemma other_step claim i j w h h' q r w' :
  i ≠ j → effect j w (answered q r) w' → justified srv claim h' q →
  known j w h' → known i w h → known i w' h.
Proof.
  intros Hne He Hj [Hhj _] [Hhi Hin]. destruct (harmless q) eqn:Hq.
  - destruct (harmless_world j w q r w' Hq He) as (Hv & Hl & Hf).
    split; [|by apply (inside_same w)]. destruct Hhi as [Ho|Ho]; [by left|right].
    destruct (locking q) eqn:Hlk; [|by rewrite (holder_same _ _ _ _ _ Hlk He)].
    destruct q as [[]|[]]; try discriminate Hlk; cbn in r, He.
    + subst w'. rewrite decide_False; [done|]. rewrite Ho. congruence.
    + destruct r; [destruct He; congruence|]. by subst.
  - destruct (change_in_section claim h' q Hq Hj) as [c Hc].
    destruct Hhj as [Ho|Ho]; [congruence|]. destruct Hhi as [Hi|Hi]; [|congruence].
    split; [by left|]. by rewrite Hi.
Qed.

(** From here on no change takes effect late. *)
Context (Hprompt : late = false).
Lemma reach_coherent g w : w_holder w0 = None → reach g w → coherent g w.
Proof.
  intros H0 Hr. induction Hr as [|g w j q r w' Hr IH Hi He|g w m l1 l2 Hr IH Hl]; intros i; [| |congruence].
  - split; [by left|done].
  - apply issued_justified in Hi. rewrite proj_snoc. destruct (decide (j = i)) as [->|Hne].
    + by apply (own_step i w).
    + eapply (other_step _ i j); eauto.
Qed.

(** What a change's justification says of the cluster itself. *)
Lemma section_current g w i c :
  w_holder w0 = None → reach g w → phase (proj i g) = Section_ c → current c w.
Proof.
  intros H0 Hr Hc. destruct (reach_coherent g w H0 Hr i) as [_ Hin]. by rewrite Hc in Hin.
Qed.

(** One step of the voter set. *)
Definition one_node_move (w : World) (v : gset NodeId) : Prop :=
  v = w_voters w ∨
  (∃ id, w_member w id ∧ v = {[id]} ∪ w_voters w) ∨
  (∃ id, id ∈ w_voters w ∧ id ≠ self ∧ v = w_voters w ∖ {[id]} ∧ v ≠ ∅ ∧
     ((2 ≤ size (w_voters w))%nat → (2 ≤ size v)%nat)).
Lemma change_moves_one c v w : current c w → voters_justified srv c v → one_node_move w v.
Proof.
  intros (Hv & Hl & _) (Hch & Hgr & Hj). specialize (Hv Hch). specialize (Hl Hgr). right.
  destruct Hj as [(id & Hm & _ & ->)|(id & Hid & Hns & -> & Hne & Hsz)]; rewrite Hv in *.
  - left. exists id. split; [|done]. destruct Hm as [Hm|Hm]; [left; by rewrite <-Hv|right; by rewrite <-Hl].
  - right. by exists id.
Qed.

Lemma voters_step g w i q r w' :
  w_holder w0 = None → reach g w → issues (program (ops i)) (proj i g) q →
  effect i w (answered q r) w' → one_node_move w (w_voters w').
Proof.
  intros H0 Hr Hi He. apply issued_justified in Hi. destruct (harmless q) eqn:Hq.
  { left. by apply (harmless_world i w q r w'). }
  destruct q as [[]|[]]; try discriminate Hq; cbn in r, He; [destruct c; try discriminate Hq|..];
    (destruct He as [->|[_ ->]]; [|by left]); [by left..|].
  destruct c as [v|ids]; [|by left]. destruct Hi as (c & Hc & _ & Hj).
  eapply change_moves_one; [by eapply section_current|done].
Qed.

(** ** The feature level *)
Definition supported (w : World) : Prop := ∀ id, w_member w id → w_level w ≤ support id.

Context (support_self : FEATURE_LEVEL ≤ support self)
  (honest : ∀ i req, ops i = Join req → req_feature_level req ≤ support (req_node_id req)).

Lemma claim_supported i : (claim_of (ops i)).2 ≤ support (claim_of (ops i)).1.
Proof. destruct (ops i) eqn:E; try done. by apply (honest i). Qed.

Lemma level_step w c l : current c w → level_justified srv c l → supported w → supported (raised l w).
Proof.
  intros (Hv & Hl & Hs & Hb) (Hch & Hgr & s & s' & Hin & _ & _ & Hdec) Hw id Hm.
  specialize (Hw id Hm). cbn. apply Z.max_lub; [done|].
  destruct (Hdec id) as [[-> ?]|(n & lv & Hn & Hp & ?)].
  - destruct Hm as [Hm|Hm]; [left; by rewrite Hv|right; by rewrite Hl].
  - lia.
  - destruct (Hs s Hin) as [_ Ha]. rewrite (Hb _ lv id Hp); [done|]. symmetry. by apply (Ha id).
Qed.
Lemma learner_step i w c id addr :
  current c w → learner_justified (claim_of (ops i)) c id addr → supported w → supported (joined id w).
Proof.
  intros (_ & _ & Hs & _) (-> & _ & (s & Hin & Hle) & _) Hw id' [Hm|Hm]; [by apply Hw; left|].
  cbn in Hm |- *. apply elem_of_union in Hm as [Hm|Hm]; [by apply Hw; right|].
  apply elem_of_difference in Hm as [->%elem_of_singleton _].
  destruct (Hs s Hin) as [<- _]. pose proof (claim_supported i). lia.
Qed.
Lemma move_supported w v l' :
  one_node_move w v → supported w → (∀ id, id ∈ l' → id ∈ w_learners w) →
  supported (World_ v l' (w_level w) (w_holder w) (w_pending w)).
Proof.
  intros Hmove Hw Hl id [Hm|Hm]; cbn in *; apply Hw; [|right; by apply Hl].
  destruct Hmove as [->|[(id' & Hm' & ->)|(id' & _ & _ & -> & _)]]; [by left| |left; set_solver].
  apply elem_of_union in Hm as [->%elem_of_singleton|Hm]; [done|by left].
Qed.

Lemma supported_step g w i q r w' :
  w_holder w0 = None → reach g w → issues (program (ops i)) (proj i g) q →
  effect i w (answered q r) w' → supported w → supported w'.
Proof.
  intros H0 Hr Hi He Hw. destruct (harmless q) eqn:Hq.
  { destruct (harmless_world i w q r w' Hq He) as (Hv & Hl & Hf). unfold supported, w_member. by rewrite Hv, Hl, Hf. }
  pose proof (voters_step g w i q r w' H0 Hr Hi He) as Hmove. apply issued_justified in Hi.
  destruct q as [[]|[]]; try discriminate Hq; cbn in r, He; [destruct c; try discriminate Hq|..];
    (destruct He as [->|[_ ->]]; [|done]).
  - destruct Hi as (c & Hc & _ & Hj). eapply level_step; [by eapply section_current|done|done].
  - destruct Hi as (c & Hc & _ & Hj). eapply learner_step; [by eapply section_current|done|done].
  - destruct c; apply move_supported; try done; set_solver.
Qed.
Lemma reach_supported g w : w_holder w0 = None → supported w0 → reach g w → supported w.
Proof.
  intros H0 Hs Hr. induction Hr as [|g w i q r w' Hr IH Hi He|g w m l1 l2 Hr IH Hl]; [done| |congruence]. by eapply supported_step.
Qed.
End System.

(** Membership moves one node at a time, however the handlers of the leader
    interleave, while no change takes effect late: in every step of every reachable history the voter set stays as it
    is, gains one node that is already a member, or loses one voter that is not the
    leader, is never emptied and keeps two voters when it had two; so the leader
    stays a voter. *)
Lemma membership_moves_one_node_at_a_time rounds srv support addr_of ops w0 g w :
  w_holder w0 = None → srv_node_id srv ∈ w_voters w0 →
  reach rounds srv support addr_of ops w0 false g w →
  srv_node_id srv ∈ w_voters w ∧
  ∀ i q r w', issues (program rounds srv (ops i)) (proj i g) q →
    effect support addr_of i w (answered q r) w' → one_node_move srv w (w_voters w').
Proof.
  intros H0 Hself Hr. split; [|intros i q r w' Hi He; by eapply voters_step].
  induction Hr as [|g w i q r w' Hr IH Hi He|]; [done| |done].
  pose proof (voters_step rounds srv support addr_of ops w0 false eq_refl g w i q r w' H0 Hr Hi He) as Hm.
  destruct Hm as [->|[(id & _ & ->)|(id & _ & Hne & -> & _)]]; set_solver.
Qed.

(** C16. No member of the cluster is below the committed feature level, as long as no
    change takes effect late, that is after a request that follows it without its
    acknowledgement ([reach false]; [a_late_raise_strands_a_learner] shows why): when
    this node's binary decodes its own level and every joiner decodes the level it
    claims, every member of every reachable cluster decodes the committed level,
    through joins, promotions, removals and finalizations of this node's handlers
    interleaved in any way, each of which may be dropped at any await. *)
Theorem no_member_below_the_committed_level rounds srv support addr_of ops w0 g w :
  w_holder w0 = None → FEATURE_LEVEL ≤ support (srv_node_id srv) →
  (∀ i req, ops i = Join req → req_feature_level req ≤ support (req_node_id req)) →
  supported support w0 →
  reach rounds srv support addr_of ops w0 false g w →
  ∀ id, w_member w id → w_level w ≤ support id.
Proof. intros H0 Hself Hhonest Hs Hr. exact (reach_supported _ _ _ _ _ _ _ eq_refl Hself Hhonest g w H0 Hs Hr). Qed.

(** ** Runs: a finalize, then a join *)
#[local] Instance ChangeMembers_eq_dec : EqDecision ChangeMembers.
Proof. solve_decision. Defined.
#[local] Instance InternalPath_eq_dec : EqDecision InternalPath.
Proof. solve_decision. Defined.
#[local] Instance SyncReq_eq_dec : EqDecision SyncReq.
Proof. solve_decision. Defined.
#[local] Instance AsyncReq_eq_dec : EqDecision AsyncReq.
Proof. solve_decision. Defined.
#[local] Instance Req_eq_dec : EqDecision Req.
Proof. solve_decision. Defined.

Module Demo.
Definition srv : Server := Server_ 1 true.
Definition addr_of (id : NodeId) : SocketAddr := SocketAddr_ (V4 id) 9090 0.
Definition w0 : World := World_ {[1]} ∅ 0 None [].
Definition metrics : Metrics := Metrics_ (Some 1) {[1]} ∅ ∅ (Some 7) None.
Definition joiner (level : Z) : JoinRequest :=
  JoinRequest_ 2 (lit "10.0.0.2:9091") (lit "10.0.0.2:5432") (lit "10.0.0.2:9090") (lit "10.0.0.2:9092") level false.
Definition ops (level : Z) (i : nat) : Op := if bool_decide (i = 0%nat) then Finalize else Join (joiner level).
Abbreviation ev q r := (answered (R := Answer) q r).
Definition finalizing (r : option (result RaftFailure CommandOutcome)) : list (@event Req Answer) :=
  [ev (Async Lock) (Some tt); ev (Sync ReadMetrics) metrics; ev (Sync ReadState) new; ev (Sync ReadState) new;
   ev (Async (ClientWrite (SetFeatureLevel FEATURE_LEVEL))) r; ev (Sync Unlock) tt].
Definition added (level : Z) : option NodeInfo := (λ addrs, node_info (joiner level) addrs 0) <$> to_advertised (joiner level).
Definition joining (level : Z) (s : ClusterState) : list (@event Req Answer) :=
  [ev (Async Lock) (Some tt); ev (Sync ReadMetrics) metrics; ev (Sync ReadState) s; ev (Sync Now) 0; ev (Sync ReadState) s] ++
  match added level with Some n => [ev (Async (ClientWrite (AddNode n))) (Some (Ok Applied))] | None => [] end ++
  [ev (Async (AddLearner 2 (lit "10.0.0.2:9091"))) (Some (Ok tt))].
Definition as_ (i : nat) (t : list (@event Req Answer)) : list (nat * @event Req Answer) := (λ e, (i, e)) <$> t.
End Demo.

(** A history whose requests are the handlers' own, and whose answers the world allows. *)
Inductive plays (rounds : nat) (srv : Server) support addr_of ops : list (nat * @event Req Answer) → World →
    list (nat * @event Req Answer) → World → Prop :=
| plays_nil g w : plays rounds srv support addr_of ops g w [] w
| plays_cons g w i q r w1 t w2 :
    asks_after (program rounds srv (ops i)) (proj i g) q = true → effect support addr_of i w (answered q r) w1 →
    plays rounds srv support addr_of ops (g ++ [(i, answered q r)]) w1 t w2 →
    plays rounds srv support addr_of ops g w ((i, answered q r) :: t) w2.
Lemma plays_reach rounds srv support addr_of ops w0 late g w t w' :
  reach rounds srv support addr_of ops w0 late g w → plays rounds srv support addr_of ops g w t w' →
  reach rounds srv support addr_of ops w0 late (g ++ t) w'.
Proof.
  intros Hr Hp. induction Hp as [g w|g w i q r w1 t w2 Hq He _ IH]; [by rewrite app_nil_r|].
  rewrite cons_middle, app_assoc. apply IH. eapply reach_step; [exact Hr|by apply replay_issues|exact He].
Qed.
(** Plays the next event; what its answer says of the world is left. *)
Ltac play := eapply plays_cons; [vm_compute; reflexivity|cbn|].
Ltac allowed :=
  first
    [ done | by left | by split_and!
    | split_and!; [done| |done]; intros id n Hn; exfalso; exact (lookup_empty_Some id n Hn) ].

(** Node 1, alone, raises the level and then adds a learner that decodes it. *)
Definition ended : World := World_ {[1]} (∅ ∪ ({[2]} ∖ {[1]})) FEATURE_LEVEL (Some 1%nat) [].
Lemma finalized_then_joined :
  ∃ g, reach 0 Demo.srv (λ _, FEATURE_LEVEL) Demo.addr_of (Demo.ops FEATURE_LEVEL) Demo.w0 false g ended.
Proof.
  eexists ([] ++ Demo.as_ 0 (Demo.finalizing (Some (Ok Applied))) ++
           Demo.as_ 1 (Demo.joining FEATURE_LEVEL (set_feature_level FEATURE_LEVEL new))).
  eapply plays_reach; [apply reach_start|]. cbn. do 13 (play; [allowed|]). apply plays_nil.
Qed.
Lemma no_member_below_the_committed_level_witness :
  w_level ended = 1 ∧ w_member ended 2 ∧ w_level ended ≤ FEATURE_LEVEL.
Proof.
  assert (w_member ended 2) as Hm by (right; vm_compute; reflexivity).
  split_and!; [done|exact Hm|]. destruct finalized_then_joined as [g Hr].
  apply (no_member_below_the_committed_level 0 Demo.srv (λ _, FEATURE_LEVEL) Demo.addr_of
           (Demo.ops FEATURE_LEVEL) Demo.w0 g ended eq_refl) with (id := 2); [done| |done|exact Hr|exact Hm].
  intros [|i] req; [done|]. by intros [= <-].
Defined.

(** The same two handlers when the raise's answer is lost and the raise takes effect
    late: the join reads the level before it, adds its node, does not read the level
    again, and the learner it adds decodes less than what is committed. *)
Lemma a_late_raise_strands_a_learner :
  ∃ g support,
    reach 0 Demo.srv support Demo.addr_of (Demo.ops 0) Demo.w0 true g ended ∧
    FEATURE_LEVEL ≤ support (srv_node_id Demo.srv) ∧ req_feature_level (Demo.joiner 0) ≤ support 2 ∧
    w_member ended 2 ∧ support 2 < w_level ended.
Proof.
  set (support := λ id : NodeId, if id =? 1 then FEATURE_LEVEL else 0).
  eexists (([] ++ Demo.as_ 0 (Demo.finalizing None) ++ Demo.as_ 1 (take 6 (Demo.joining 0 new))) ++
           Demo.as_ 1 (drop 6 (Demo.joining 0 new))), support.
  split_and!; [|done|done|right; vm_compute; reflexivity|done].
  set (before := World_ {[1]} ∅ 0 (Some 1%nat) [Raised FEATURE_LEVEL]).
  eapply plays_reach.
  - apply (reach_late _ _ _ _ _ _ _ _ before (Raised FEATURE_LEVEL) [] []); [|done|done].
    eapply plays_reach; [apply reach_start|]. cbn.
    do 4 (play; [allowed|]). play; [by right|]. do 7 (play; [allowed|]). apply plays_nil.
  - cbn. play; [allowed|]. apply plays_nil.
Qed.
