(* ===== verification/PgFiles.v ===== *)
(** * What pgbattery reads and writes as text around a PostgreSQL server
    ([crates/pgbattery-supervisor/src/process]: config_files.rs, controldata.rs, and
    the text of postmaster.rs, rewind.rs and follow.rs)

    The settings of [postgresql.auto.conf], the managed blocks of [postgresql.conf]
    and [pg_hba.conf], the control file's report, what a postmaster wrote before it
    exited, and what [pg_rewind] said.  [Module AutoConf] proves what the writers of
    [postgresql.auto.conf] leave of each other's settings. *)

From S2P Require Import Prelude Text Net Core.
From Stdlib Require Import Strings.Byte.

(** ** More of [core::str] *)

(** [str::find] of a pattern: the text before it, and the text from it. *)
Fixpoint find_str (p l : bytes) : option (bytes * bytes) :=
  if starts_with p l then Some ([], l)
  else match l with [] => None | c :: l' => '(a, b) ← find_str p l'; Some (c :: a, b) end.
(** [haystack.to_ascii_lowercase().contains(p)]. *)
Definition contains_lower (p l : bytes) : bool := str_contains p (to_ascii_lowercase l).
Definition starts_with_ci (s prefix : bytes) : bool :=
  eq_ignore_ascii_case (take (length prefix) s) prefix.
(** [join("\n")]. *)
Fixpoint join_lines (ls : list bytes) : bytes :=
  match ls with [] => [] | [l] => l | l :: ls => l ++ "010"%byte :: join_lines ls end.
(** [trim_start_matches('\n')]. *)
Fixpoint skip_newlines (l : bytes) : bytes :=
  match l with c :: l' => if byte_eqb c "010"%byte then skip_newlines l' else l | [] => [] end.
(** Bytes of the whitespace character at the head, if there is one. *)
Definition ws_len (l : bytes) : nat :=
  match l with
  | a :: r =>
      if ws1 a then 1%nat
      else match r with
           | b :: r => if ws2 a b then 2%nat
                       else match r with c :: _ => if ws3 a b c then 3%nat else 0%nat | [] => 0%nat end
           | [] => 0%nat
           end
  | [] => 0%nat
  end.
(** [str::split_whitespace]; [skip] bytes belong to the whitespace before. *)
Definition flush (word : bytes) (ws : list bytes) : list bytes := if bool_decide (word = []) then ws else word :: ws.
Fixpoint words_from (skip : nat) (word l : bytes) : list bytes :=
  match l with
  | [] => flush word []
  | c :: r =>
      match skip, ws_len l with
      | S skip, _ => words_from skip [] r
      | O, O => words_from 0 (word ++ [c]) r
      | O, S more => flush word (words_from more [] r)
      end
  end.
Definition split_whitespace (l : bytes) : list bytes := words_from 0 [] l.
Definition first_word (l : bytes) : option bytes := head (split_whitespace l).
(** [replace('\'', "''")]. *)
Definition double_quotes (l : bytes) : bytes :=
  flat_map (λ c, if byte_eqb c "'"%byte then ["'"; "'"]%byte else [c]) l.

(** ** [postgresql.auto.conf] *)
Definition names_key (key line : bytes) : bool :=
  let trimmed := trim_start line in
  starts_with_ci trimmed key
  && match trim_start (drop (length key) trimmed) with c :: _ => byte_eqb c "="%byte | [] => false end.
Definition setting_line (key value : bytes) : bytes := key ++ lit " = " ++ value.

(** [placed]: the key's line is already out. *)
Fixpoint set_lines (key : bytes) (value : option bytes) (placed : bool) (ls : list bytes) : list bytes :=
  match ls with
  | [] => match value, placed with Some v, false => [setting_line key v] | _, _ => [] end
  | line :: ls =>
      if negb (names_key key line) then line :: set_lines key value placed ls
      else match value, placed with
           | Some v, false => setting_line key v :: set_lines key value true ls
           | _, _ => set_lines key value placed ls
           end
  end.
Definition unlines (ls : list bytes) : bytes :=
  match join_lines ls with [] => [] | text => text ++ ["010"%byte] end.
Definition with_auto_conf_setting (existing key : bytes) (value : option bytes) : bytes :=
  unlines (set_lines key value false (lines existing)).

Definition READ_ONLY_KEY : bytes := lit "default_transaction_read_only".
Definition with_writes_fenced (existing : bytes) : bytes :=
  with_auto_conf_setting existing READ_ONLY_KEY (Some (lit "'on'")).

(** ** Managed blocks *)
Definition push_newline_ended (suffix : bytes) : bytes :=
  match last suffix with Some c => if byte_eqb c "010"%byte then suffix else suffix ++ ["010"%byte] | None => suffix end.
Definition upsert_managed_block (existing start_marker end_marker block : bytes) : bytes :=
  match
    '(before, from_start) ← find_str start_marker existing;
    '(_, from_end) ← find_str end_marker from_start;
    Some (trim_end before, skip_newlines (drop (length end_marker) from_end))
  with
  | Some (prefix, suffix) =>
      (if bool_decide (prefix = []) then [] else prefix ++ ["010"; "010"]%byte)
      ++ trim block ++ ["010"%byte]
      ++ (if bool_decide (suffix = []) then [] else "010"%byte :: push_newline_ended suffix)
  | None =>
      let out := trim_end existing in
      (if bool_decide (out = []) then [] else out ++ ["010"; "010"]%byte) ++ trim block ++ ["010"%byte]
  end.

(** ** The control file *)

(** Later lines of a field replace earlier ones. *)
Definition parse_controldata_fields (output : bytes) : gmap bytes bytes :=
  foldl (λ fields line,
    match split_once ":"%byte line with
    | Some (key, value) => <[trim key := trim value]> fields
    | None => fields
    end) ∅ (lines output).
Definition CONTROLDATA_SYSTEM_IDENTIFIER : bytes := lit "Database system identifier".
Definition TIMELINE_FIELD : bytes := lit "Latest checkpoint's TimeLineID".
Definition CHECKPOINT_FIELD : bytes := lit "Latest checkpoint location".

Definition stopped_wal_end (fields : gmap bytes bytes) : option Z :=
  state ← fields !! lit "Database cluster state";
  if negb (bool_decide (state = lit "shut down") || bool_decide (state = lit "shut down in recovery"))
  then None
  else
    checkpoint ← fields !! CHECKPOINT_FIELD ≫= Lsn.parse_lsn_local;
    let replayed := default 0 (fields !! lit "Minimum recovery ending location" ≫= Lsn.parse_lsn_local) in
    Some (Z.max checkpoint replayed).

(** [TimelineInfo]. *)
Record TimelineInfo := TimelineInfo_ { timeline_id : Z; redo_lsn : bytes; checkpoint_lsn : bytes }.

(** ** What the postmaster wrote *)
Definition FAULTS : list bytes :=
  [lit "is not a child of this server's history"; lit "does not contain minimum recovery point";
   lit "could not locate a valid checkpoint record"; lit "could not locate required checkpoint record";
   lit "could not find redo location"; lit "invalid checkpoint record";
   lit "invalid primary checkpoint record"; lit "database files are incompatible with server";
   lit "incorrect checksum in control file"; lit "WAL file is from different database system";
   lit "is not a valid data directory"].
Definition data_directory_fault (line : bytes) : bool :=
  (str_contains (lit "FATAL:  ") line || str_contains (lit "PANIC:  ") line)
  && existsb (λ fault, str_contains fault line) FAULTS.

(** [code] is [None] when a signal ended it. *)
Definition exit_was_a_refusal (code : option Z) (fault : option bytes) : bool :=
  match code with Some code => negb (code =? 0) | None => false end && bool_decide (is_Some fault).

Inductive Level := ERROR | WARN | INFO | DEBUG.
Definition TAGS : list (bytes * option Level) :=
  [(lit "PANIC:  ", Some ERROR); (lit "FATAL:  ", Some WARN); (lit "ERROR:  ", Some WARN);
   (lit "WARNING:  ", Some WARN); (lit "LOG:  ", Some INFO); (lit "INFO:  ", Some INFO);
   (lit "NOTICE:  ", Some INFO); (lit "DEBUG1:  ", Some DEBUG); (lit "DEBUG2:  ", Some DEBUG);
   (lit "DEBUG3:  ", Some DEBUG); (lit "DEBUG4:  ", Some DEBUG); (lit "DEBUG5:  ", Some DEBUG);
   (lit "DETAIL:  ", None); (lit "HINT:  ", None); (lit "CONTEXT:  ", None);
   (lit "STATEMENT:  ", None); (lit "QUERY:  ", None); (lit "LOCATION:  ", None)].
(** The tag found first on the line; of equal places, the first listed. *)
Definition first_tag (line : bytes) : option (nat * option Level) :=
  foldl (λ best tag,
    match find_str tag.1 line, best with
    | None, _ => best
    | Some (a, _), Some (at_, _) => if (length a <? at_)%nat then Some (length a, tag.2) else best
    | Some (a, _), None => Some (length a, tag.2)
    end) None TAGS.
Definition pg_line_level (line : bytes) (previous : Level) : Level :=
  default previous (first_tag line ≫= snd).

(** [relay_postgres_log]: each line at its level, and the last fault named. *)
Fixpoint relay (ls : list bytes) (level : Level) (fault : option bytes) : list (Level * bytes) * option bytes :=
  match ls with
  | [] => ([], fault)
  | line :: ls =>
      let level := pg_line_level line level in
      let '(out, fault) := relay ls level (if data_directory_fault line then Some line else fault) in
      ((level, line) :: out, fault)
  end.
Definition relay_postgres_log (ls : list bytes) : list (Level * bytes) * option bytes := relay ls INFO None.

(** ** A recorded pid *)
Definition postmaster_pid_is_stale (proc_dir_exists : bool) (proc_status cmdline : option bytes)
    (recorded_pid our_pid : Z) : bool :=
  if negb proc_dir_exists then true
  else if
    match proc_status with
    | Some s =>
        match List.find (starts_with (lit "State:")) (lines s) with
        | Some l => existsb (byte_eqb "Z"%byte) l || existsb (byte_eqb "X"%byte) l
        | None => false
        end
    | None => false
    end then true
  else if recorded_pid =? our_pid then true
  else
    match cmdline with
    | Some cmd => negb (bool_decide (trim cmd = [])) && negb (str_contains (lit "postgres") cmd)
    | None => false
    end.

(** ** Rewinding *)
Inductive RewindBudget := Unbounded | Bytes (limit : Z).
Inductive RewindPlan := Diverged (fork : Z) | NothingToDiscard.
Definition DIVERGED_MARKER : bytes := lit "servers diverged at WAL location ".
(** [split(marker).nth(1)] ends where the marker comes again. *)
Definition parse_rewind_plan (output : bytes) : option RewindPlan :=
  match after_first DIVERGED_MARKER output with
  | Some rest =>
      let piece := match find_str DIVERGED_MARKER rest with Some (a, _) => a | None => rest end in
      lsn ← first_word piece; Diverged <$> Lsn.parse_lsn_local lsn
  | None => if str_contains (lit "no rewind required") output then Some NothingToDiscard else None
  end.

Inductive RewindDecision :=
| Safe | WithinTolerance (divergence_bytes : Z) | Refuse (divergence_bytes : Z).
Definition rewind_divergence_decision (local_end fork : Z) (budget : RewindBudget) : RewindDecision :=
  if local_end <=? fork then Safe
  else
    let divergence_bytes := local_end - fork in
    match budget with
    | Bytes limit => if limit <? divergence_bytes then Refuse divergence_bytes else WithinTolerance divergence_bytes
    | Unbounded => WithinTolerance divergence_bytes
    end.

Definition REWIND_SAME_TIMELINE_MARKER : bytes := lit "source and target cluster are on the same timeline".
Definition REWIND_FOREIGN_LINEAGE_MARKER : bytes := lit "are from different systems".
Definition RETRYABLE_MARKERS : list bytes :=
  [lit "could not connect"; lit "connection to server"; lit "fe_sendauth";
   lit "password authentication failed"; lit "no pg_hba.conf entry";
   lit "target server must be shut down cleanly"; lit "could not fetch file list"].
Inductive PreCopyOutcome := Retryable | Terminal | Touched.
#[export] Instance PreCopyOutcome_eq_dec : EqDecision PreCopyOutcome.
Proof. solve_decision. Defined.
Definition classify_pg_rewind_failure (stderr : bytes) : PreCopyOutcome :=
  if contains_lower REWIND_SAME_TIMELINE_MARKER stderr || contains_lower REWIND_FOREIGN_LINEAGE_MARKER stderr
  then Terminal
  else if existsb (λ m, contains_lower m stderr) RETRYABLE_MARKERS then Retryable else Touched.
Definition pg_rewind_failure_is_pre_copy (stderr : bytes) : bool :=
  negb (bool_decide (classify_pg_rewind_failure stderr = Touched)).

(** ** Following *)

(** [<walfile>|<system identifier>]; the walfile's first 8 digits are the timeline. *)
Definition parse_leader_probe (reply : bytes) : option (Z * Z) :=
  '(walfile, lineage) ← split_once "|"%byte (trim reply);
  if (length walfile <? 8)%nat then None
  else
    timeline ← from_str_radix u64_max 16 (take 8 walfile);
    lineage ← parse_u64 (trim lineage);
    Some (timeline, lineage).

Definition show_ip (a : SocketAddr) : bytes :=
  match sock_ip a with V4 ip => show_ipv4 ip | V6 ip => show_ipv6 ip end.

(** What the writers of a node's files take from its configuration. *)
Inductive WalLevel := Replica | Logical.
Inductive PgAuthMode := Trust | Scram | Md5 | Peer.
Record SupervisorConfig := SupervisorConfig_ {
  pg_port : Z;
  pg_user : bytes;
  wal_level : WalLevel;
  node_id : Z;
  pg_auth_mode : PgAuthMode;
  wal_archive_dir : option bytes;
}.

Definition primary_conninfo_for (leader_addr : SocketAddr) (cfg : SupervisorConfig) : bytes :=
  lit "host=" ++ show_ip leader_addr ++ lit " port=" ++ show_u64 (sock_port leader_addr)
  ++ lit " user=" ++ pg_user cfg ++ lit " application_name=pgbattery_node_" ++ show_u64 (node_id cfg).

Definition quoted (v : bytes) : bytes := "'"%byte :: v ++ ["'"%byte].
Definition compute_standby_auto_conf (existing : bytes) (leader_addr : SocketAddr) (cfg : SupervisorConfig) : bytes :=
  let text := with_auto_conf_setting existing (lit "primary_conninfo")
                (Some (quoted (primary_conninfo_for leader_addr cfg))) in
  let text := with_auto_conf_setting text (lit "primary_slot_name")
                (Some (quoted (Slot.fmt (Slot.for_node (node_id cfg))))) in
  with_auto_conf_setting text (lit "synchronous_standby_names") None.

(** The block of [postgresql.conf] and of [pg_hba.conf]. *)
Definition archive_lines (dir : option bytes) : bytes :=
  match dir with
  | Some dir =>
      let d := double_quotes dir in
      lit "archive_mode = on
archive_command = 'test -f " ++ d ++ lit "/%f || cp %p " ++ d ++ lit "/%f'
# Force a segment at least once a minute so PITR has recent WAL even under light write load.
archive_timeout = 60
"
  | None => lit "archive_mode = off
"
  end.
Definition conf_block (cfg : SupervisorConfig) : bytes :=
  lit "
# BEGIN pgbattery managed config
listen_addresses = '*'
port = " ++ show_u64 (pg_port cfg) ++ lit "
wal_level = '" ++ (match wal_level cfg with Replica => lit "replica" | Logical => lit "logical" end) ++ lit "'
max_wal_senders = 10
max_replication_slots = 10
hot_standby = on
hot_standby_feedback = on
wal_keep_size = '1GB'
# Backstop against a stuck/orphaned replication slot pinning WAL until the
# disk fills: past this bound PG invalidates the slot (its consumer must
# rebuild) rather than retaining WAL without limit. The primary defense is
# dropping orphaned slots on demote (drop_inactive_replica_slots); this caps
# the damage from any slot that survives (e.g. a long-down member's slot on
# the live leader).
max_slot_wal_keep_size = '10GB'
synchronous_commit = on
" ++ archive_lines (wal_archive_dir cfg) ++ lit "wal_log_hints = on  # Required for pg_rewind

# Connection settings
max_connections = 200

# Performance tuning
shared_buffers = '128MB'
effective_cache_size = '512MB'
# END pgbattery managed config
".
Definition hba_block (auth_method user : bytes) : bytes :=
  lit "
# BEGIN pgbattery managed hba (auth_mode: " ++ auth_method ++ lit ")
host replication " ++ user ++ lit " 0.0.0.0/0 " ++ auth_method ++ lit "
host replication " ++ user ++ lit " ::/0 " ++ auth_method ++ lit "
host all all 0.0.0.0/0 " ++ auth_method ++ lit "
host all all ::/0 " ++ auth_method ++ lit "
# END pgbattery managed hba
".
Definition CONF_START : bytes := lit "# BEGIN pgbattery managed config".
Definition CONF_END : bytes := lit "# END pgbattery managed config".
Definition HBA_START : bytes := lit "# BEGIN pgbattery managed hba".
Definition HBA_END : bytes := lit "# END pgbattery managed hba".

(** * The settings pgbattery keeps in [postgresql.auto.conf]

    The writers of that file ([configure_standby], the start-time fence) each own
    some keys.  A file both have written is unchanged by either, and every line of
    another key is where it was. *)
Module AutoConf.
Abbreviation LF := "010"%byte.
Abbreviation CR := "013"%byte.

(** ** Lines *)
Lemma split_on_app sep a b : sep ∉ a → split_on sep (a ++ sep :: b) = a :: split_on sep b.
Proof.
  unfold byte_eqb. induction a as [|c a IH]; intros Ha; cbn; unfold byte_eqb.
  - by rewrite bool_decide_eq_true_2.
  - apply not_elem_of_cons in Ha as [Hc Ha]. rewrite bool_decide_eq_false_2 by done. by rewrite IH.
Qed.
Lemma split_on_cons sep l : ∃ p ps, split_on sep l = p :: ps.
Proof.
  induction l as [|c l (p & ps & IH)]; cbn; [eauto|]. destruct (byte_eqb c sep); [eauto|]. rewrite IH. eauto.
Qed.
Lemma split_on_piece sep l p x : p ∈ split_on sep l → x ∈ p → x ∈ l ∧ x ≠ sep.
Proof.
  revert p. induction l as [|c l IH]; intros p Hp Hx; cbn in Hp;
    [apply list_elem_of_singleton in Hp as ->; by apply elem_of_nil in Hx|].
  destruct (byte_eqb c sep) eqn:E.
  - apply elem_of_cons in Hp as [->|Hp]; [by apply elem_of_nil in Hx|]. destruct (IH p Hp Hx). split; [by right|done].
  - apply bool_decide_eq_false in E. destruct (split_on_cons sep l) as (q & ps & Eq). rewrite Eq in Hp, IH.
    apply elem_of_cons in Hp as [->|Hp].
    + apply elem_of_cons in Hx as [->|Hx]; [split; [by left|done]|].
      destruct (IH q ltac:(by left) Hx). split; [by right|done].
    + destruct (IH p ltac:(by right) Hx). split; [by right|done].
Qed.

Definition clean_line (l : bytes) : Prop := LF ∉ l ∧ last l ≠ Some CR.
Lemma strip_cr_clean l : last l ≠ Some CR → strip_cr l = l.
Proof.
  intros Hl. unfold strip_cr. destruct (reverse l) as [|c r] eqn:E; [done|].
  assert (Hc : l = reverse r ++ [c]) by (rewrite <-(reverse_involutive l), E; apply reverse_cons).
  destruct (byte_eqb c CR) eqn:Ec; [|done]. apply bool_decide_eq_true in Ec as ->.
  rewrite Hc, last_snoc in Hl. done.
Qed.
Lemma strip_cr_sub l x : x ∈ strip_cr l → x ∈ l.
Proof.
  unfold strip_cr. destruct (reverse l) as [|c r] eqn:E; [done|]. destruct (byte_eqb c CR); [|done].
  assert (Hc : l = reverse r ++ [c]) by (rewrite <-(reverse_involutive l), E; apply reverse_cons).
  rewrite Hc. set_solver.
Qed.

Lemma elem_of_removelast {A} (x : A) l : x ∈ removelast l → x ∈ l.
Proof.
  induction l as [|a [|b l] IH]; [done|cbn; intros H; by apply elem_of_nil in H|].
  change (removelast (a :: b :: l)) with (a :: removelast (b :: l)).
  intros [->|H]%elem_of_cons; [by left|right; by apply IH].
Qed.

Lemma lines_clean t : CR ∉ t → Forall clean_line (lines t).
Proof.
  intros Ht. unfold lines.
  assert (Hp : ∀ p, p ∈ split_on LF t → clean_line p).
  { intros p Hp. split; [intros Hx; by destruct (split_on_piece _ _ _ _ Hp Hx)|].
    intros Hl. apply last_Some_elem_of in Hl. destruct (split_on_piece _ _ _ _ Hp Hl). done. }
  apply Forall_app. split.
  - apply Forall_fmap, Forall_forall. intros p Hp'. cbn.
    assert (Hin : clean_line p) by (by apply Hp, elem_of_removelast).
    rewrite strip_cr_clean; [done|apply Hin].
  - destruct (last (split_on LF t)) as [[|c r]|] eqn:E; [done| |done].
    apply Forall_singleton. apply Hp. by apply last_Some_elem_of.
Qed.

Lemma split_unlines ls :
  Forall clean_line ls → ls ≠ [] → split_on LF (join_lines ls ++ [LF]) = ls ++ [[]].
Proof.
  induction ls as [|l [|l' ls] IH]; intros Hc Hne; [done| |]; apply Forall_cons in Hc as [[Hl _] Hc].
  - cbn. by rewrite split_on_app.
  - change (join_lines (l :: l' :: ls)) with (l ++ LF :: join_lines (l' :: ls)).
    rewrite <-app_assoc. cbn [app]. rewrite split_on_app by done. by rewrite IH.
Qed.
Lemma join_lines_nil ls : join_lines ls = [] → ls = [] ∨ ls = [[]].
Proof.
  destruct ls as [|l [|l' ls]]; cbn; [by left|intros ->; by right|]. by destruct l.
Qed.
Lemma lines_unlines ls : Forall clean_line ls → ls ≠ [[]] → lines (unlines ls) = ls.
Proof.
  intros Hc Hne. destruct (decide (ls = [])) as [->|Hnil]; [done|].
  unfold unlines. destruct (join_lines ls) as [|c t] eqn:E.
  { by destruct (join_lines_nil ls E). }
  rewrite <-E. unfold lines. rewrite split_unlines by done.
  rewrite removelast_last, last_snoc, app_nil_r.
  rewrite (Forall_fmap_ext_1 _ id); [by rewrite list_fmap_id|].
  eapply Forall_impl; [exact Hc|]. intros l [_ Hl]. by apply strip_cr_clean.
Qed.

(** ** Keys *)
Definition key_byte (b : byte) : bool := is_ascii_alphanumeric b || byte_eqb b "_"%byte.
Definition is_key (k : bytes) : Prop := k ≠ [] ∧ forallb key_byte k = true.
Definition same_key (k k' : bytes) : bool := eq_ignore_ascii_case k k'.

Lemma key_byte_lower b : key_byte (to_ascii_lower b) = key_byte b.
Proof. by destruct b. Qed.
Lemma key_byte_not_ws b l : key_byte b = true → trim_start (b :: l) = b :: l.
Proof.
  intros Hb. unfold key_byte in Hb. apply orb_prop in Hb as [Hb|Hb]; [by apply trim_start_alphanumeric|].
  apply bool_decide_eq_true in Hb as ->. by destruct l as [|? [|? ?]].
Qed.
Lemma same_key_prefix k k' t :
  eq_ignore_ascii_case (take (length k) t) k = true → eq_ignore_ascii_case (take (length k') t) k' = true →
  length k = length k' → same_key k k' = true.
Proof.
  unfold same_key. revert k' t. induction k as [|x k IH]; intros [|y k'] [|c t]; cbn; try done.
  intros [Hx Hk]%andb_prop [Hy Hk']%andb_prop [= Hl]. apply bool_decide_eq_true in Hx, Hy.
  rewrite bool_decide_eq_true_2 by congruence. by eapply IH.
Qed.
Lemma key_byte_at k t n :
  forallb key_byte k = true → eq_ignore_ascii_case (take (length k) t) k = true → (n < length k)%nat →
  ∃ c r, drop n t = c :: r ∧ key_byte c = true.
Proof.
  revert t n. induction k as [|x k IH]; intros [|c t] n; cbn; try (done || lia).
  intros [Hx Hk]%andb_prop [Hc Ht]%andb_prop Hn. apply bool_decide_eq_true in Hc.
  destruct n as [|n]; [|apply (IH t n); [done|done|lia]].
  exists c, t. split; [done|]. by rewrite <-key_byte_lower, Hc, key_byte_lower.
Qed.

Lemma names_key_split k l :
  names_key k l = true →
  eq_ignore_ascii_case (take (length k) (trim_start l)) k = true ∧
  ∃ r, trim_start (drop (length k) (trim_start l)) = "="%byte :: r.
Proof.
  intros [Hk Heq]%andb_prop. split; [done|]. destruct (trim_start (drop _ _)) as [|c r]; [done|].
  apply bool_decide_eq_true in Heq as ->. by exists r.
Qed.
(** A line names at most one key. *)
Lemma names_one_key k k' l :
  is_key k → is_key k' → names_key k l = true → names_key k' l = true → same_key k k' = true.
Proof.
  assert (Hlt : ∀ k k', is_key k' → names_key k l = true → names_key k' l = true → ¬ (length k < length k')%nat).
  { intros k1 k2 [_ Hk2] [_ (r & Hr)]%names_key_split [H2 _]%names_key_split Hn.
    destruct (key_byte_at k2 _ _ Hk2 H2 Hn) as (c & r' & Hd & Hc).
    rewrite Hd, key_byte_not_ws in Hr by done. by injection Hr as -> ->. }
  intros Hk Hk' H1 H2. pose proof (Hlt k k' Hk' H1 H2). pose proof (Hlt k' k Hk H2 H1).
  apply names_key_split in H1 as [H1 _], H2 as [H2 _]. eapply same_key_prefix; [done|done|lia].
Qed.

Lemma names_own_key k v : is_key k → names_key k (setting_line k v) = true.
Proof.
  intros [Hne Hk]. unfold names_key, setting_line. destruct k as [|c k]; [done|].
  assert (Hc : key_byte c = true) by (cbn in Hk; by apply andb_prop in Hk as [? _]).
  assert (E : trim_start ((c :: k) ++ lit " = " ++ v) = (c :: k) ++ lit " = " ++ v)
    by exact (key_byte_not_ws c _ Hc).
  rewrite E. unfold starts_with_ci. rewrite take_app_length, eq_ignore_ascii_case_refl, drop_app_length. by destruct v.
Qed.
Lemma names_other_key k k' v : is_key k → is_key k' → same_key k' k = false → names_key k' (setting_line k v) = false.
Proof.
  intros Hk Hk' Hs. destruct (names_key k' _) eqn:E; [|done].
  by rewrite (names_one_key k' k _ Hk' Hk E (names_own_key k v Hk)) in Hs.
Qed.

(** ** Setting a key *)
Definition keyed (k : bytes) (ls : list bytes) : list bytes := List.filter (names_key k) ls.

Lemma keyed_set_own k v placed ls :
  is_key k → keyed k (set_lines k (Some v) placed ls) = if placed then [] else [setting_line k v].
Proof.
  unfold keyed. intros Hk. revert placed. induction ls as [|l ls IH]; intros placed; cbn.
  - destruct placed; cbn; [done|]. by rewrite names_own_key.
  - destruct (names_key k l) eqn:E; cbn; [|by rewrite E; apply IH].
    destruct placed; cbn; [apply IH|]. rewrite names_own_key by done. by rewrite IH.
Qed.
Lemma keyed_removed k placed ls : keyed k (set_lines k None placed ls) = [].
Proof.
  unfold keyed. revert placed. induction ls as [|l ls IH]; intros placed; cbn; [done|].
  destruct (names_key k l) eqn:E; cbn; [apply IH|]. rewrite E. apply IH.
Qed.
(** Another key's lines keep their content and order. *)
Lemma keyed_set_other k k' v placed ls :
  is_key k → is_key k' → same_key k' k = false → keyed k' (set_lines k v placed ls) = keyed k' ls.
Proof.
  unfold keyed. intros Hk Hk' Hs. revert placed. induction ls as [|l ls IH]; intros placed; cbn.
  - destruct v, placed; try done. cbn. by rewrite names_other_key.
  - destruct (names_key k l) eqn:E; cbn; [|by rewrite IH].
    assert (El : names_key k' l = false).
    { destruct (names_key k' l) eqn:E'; [|done]. by rewrite (names_one_key k' k l Hk' Hk E' E) in Hs. }
    rewrite El. destruct v, placed; cbn; rewrite ?names_other_key by done; apply IH.
Qed.

Lemma set_lines_placed k v ls : keyed k ls = [] → set_lines k v true ls = ls.
Proof.
  unfold keyed. induction ls as [|l ls IH]; cbn; [by destruct v|]. destruct (names_key k l); cbn; [done|].
  intros H. by rewrite IH.
Qed.
Lemma set_lines_settled k v ls : keyed k ls = [setting_line k v] → set_lines k (Some v) false ls = ls.
Proof.
  unfold keyed. induction ls as [|l ls IH]; cbn; [done|]. destruct (names_key k l); cbn; intros H.
  - injection H as -> H. by rewrite set_lines_placed.
  - by rewrite IH.
Qed.
Lemma set_lines_absent k placed ls : keyed k ls = [] → set_lines k None placed ls = ls.
Proof.
  unfold keyed. revert placed. induction ls as [|l ls IH]; intros placed; cbn; [by destruct placed|].
  destruct (names_key k l); cbn; [done|]. intros H. by rewrite IH.
Qed.

Definition clean_text (ls : list bytes) : Prop := Forall clean_line ls ∧ ls ≠ [[]].
Lemma set_lines_clean k v placed ls :
  Forall clean_line ls → (∀ v0, v = Some v0 → clean_line (setting_line k v0)) →
  Forall clean_line (set_lines k v placed ls).
Proof.
  intros Hls Hv. revert placed. induction Hls as [|l ls Hl Hls IH]; intros placed; cbn.
  - destruct v, placed; try done. apply Forall_singleton. by apply Hv.
  - destruct (names_key k l); cbn; [|by constructor]. destruct v, placed; try apply IH.
    constructor; [by apply Hv|apply IH].
Qed.
Lemma keyed_not_blank k ls : keyed k ls ≠ [] → is_key k → ls ≠ [[]].
Proof.
  intros Hne [Hk _] ->. apply Hne. cbn. destruct k; [done|]. done.
Qed.

(** ** The writers together *)
Lemma with_unlines ls k v :
  Forall clean_line ls → ls ≠ [[]] → with_auto_conf_setting (unlines ls) k v = unlines (set_lines k v false ls).
Proof. intros Hc Hne. unfold with_auto_conf_setting. by rewrite lines_unlines. Qed.

Section Standby.
Context (leader_addr : SocketAddr) (cfg : SupervisorConfig).
Local Notation conninfo_key := (lit "primary_conninfo").
Local Notation slot_key := (lit "primary_slot_name").
Local Notation sync_key := (lit "synchronous_standby_names").
Local Notation conninfo := (quoted (primary_conninfo_for leader_addr cfg)).
Local Notation slot := (quoted (Slot.fmt (Slot.for_node (node_id cfg)))).
Local Notation fence_line := (setting_line READ_ONLY_KEY (lit "'on'")).

Definition standby_lines (ls : list bytes) : list bytes :=
  set_lines sync_key None false
    (set_lines slot_key (Some slot) false (set_lines conninfo_key (Some conninfo) false ls)).
Definition fenced_lines (ls : list bytes) : list bytes :=
  set_lines READ_ONLY_KEY (Some (lit "'on'")) false ls.

(** What a file holds once both writers have been over it. *)
Definition settled (ls : list bytes) : Prop :=
  keyed conninfo_key ls = [setting_line conninfo_key conninfo] ∧
  keyed slot_key ls = [setting_line slot_key slot] ∧
  keyed sync_key ls = [] ∧ keyed READ_ONLY_KEY ls = [fence_line].

Local Ltac key := split; [done|reflexivity].
Lemma both_settle ls : settled (fenced_lines (standby_lines ls)).
Proof.
  unfold settled, fenced_lines, standby_lines.
  repeat split; rewrite ?(keyed_set_other READ_ONLY_KEY) by (key || reflexivity);
    rewrite ?(keyed_set_other sync_key) by (key || reflexivity); rewrite ?keyed_removed;
    rewrite ?(keyed_set_other slot_key) by (key || reflexivity);
    by rewrite ?keyed_set_own by key.
Qed.
Lemma settled_fixed ls : settled ls → standby_lines ls = ls ∧ fenced_lines ls = ls.
Proof.
  intros (Hc & Hs & Hy & Hf). unfold standby_lines, fenced_lines.
  rewrite (set_lines_settled _ _ _ Hc), (set_lines_settled _ _ _ Hs), set_lines_absent, set_lines_settled; done.
Qed.
Lemma others_kept k ls :
  is_key k → same_key k conninfo_key = false → same_key k slot_key = false → same_key k sync_key = false →
  same_key k READ_ONLY_KEY = false → keyed k (fenced_lines (standby_lines ls)) = keyed k ls.
Proof.
  intros Hk H1 H2 H3 H4. unfold standby_lines, fenced_lines. by rewrite !keyed_set_other by (done || key).
Qed.

Lemma setting_line_clean k v :
  is_key k → LF ∉ v → last v ≠ Some CR → v ≠ [] → clean_line (setting_line k v).
Proof.
  intros [_ Hk] Hv Hl Hne. unfold setting_line. split.
  - rewrite !elem_of_app. intros [Hx|[Hx|Hx]]; [|cbn in Hx; set_solver|done].
    rewrite forallb_forall in Hk. specialize (Hk LF ltac:(by apply list_elem_of_In)). done.
  - rewrite !last_app. by destruct (last v) eqn:E; [|apply last_None in E].
Qed.
Lemma quoted_clean k v : is_key k → LF ∉ v → clean_line (setting_line k (quoted v)).
Proof.
  intros Hk Hv. apply setting_line_clean; [done| | |done]; unfold quoted.
  - set_solver.
  - rewrite app_comm_cons, last_snoc. done.
Qed.
Lemma show_u64_line n : is_u64 n → LF ∉ show_u64 n.
Proof.
  intros Hn Hin. pose proof (show_radix_graphic 10 20 n ltac:(lia) ltac:(unfold is_u64 in *; lia)) as HF.
  rewrite Forall_forall in HF. specialize (HF _ Hin). discriminate HF.
Qed.

Context (one_line : LF ∉ primary_conninfo_for leader_addr cfg) (node_u64 : is_u64 (node_id cfg)).

Lemma conninfo_clean : clean_line (setting_line conninfo_key conninfo).
Proof. apply quoted_clean; [key|done]. Qed.
Lemma slot_clean : clean_line (setting_line slot_key slot).
Proof.
  apply quoted_clean; [key|]. unfold Slot.fmt. rewrite elem_of_app. intros [H|H]; [cbn in H; set_solver|].
  by apply (show_u64_line (node_id cfg)).
Qed.
Lemma fence_clean : clean_line fence_line.
Proof. apply setting_line_clean; [key| | |done]; [cbn; set_solver|done]. Qed.

Lemma standby_text t :
  Forall clean_line (lines t) →
  compute_standby_auto_conf t leader_addr cfg = unlines (standby_lines (lines t)) ∧
  Forall clean_line (standby_lines (lines t)) ∧ standby_lines (lines t) ≠ [[]].
Proof.
  intros Hc. unfold compute_standby_auto_conf, standby_lines. set (ls := lines t) in *.
  set (A := set_lines conninfo_key (Some conninfo) false ls).
  assert (HA : Forall clean_line A).
  { apply set_lines_clean; [done|]. intros v [= <-]. apply conninfo_clean. }
  assert (KA : keyed conninfo_key A ≠ []) by (unfold A; by rewrite keyed_set_own by key).
  set (B := set_lines slot_key (Some slot) false A).
  assert (HB : Forall clean_line B).
  { apply set_lines_clean; [done|]. intros v [= <-]. apply slot_clean. }
  assert (KB : keyed conninfo_key B ≠ []) by (unfold B; rewrite keyed_set_other by (key || done); done).
  set (C := set_lines sync_key None false B).
  assert (KC : keyed conninfo_key C ≠ []) by (unfold C; rewrite keyed_set_other by (key || done); done).
  change (with_auto_conf_setting t conninfo_key (Some conninfo)) with (unlines A).
  rewrite with_unlines by (done || by eapply keyed_not_blank; [exact KA|key]).
  fold B. rewrite with_unlines by (done || by eapply keyed_not_blank; [exact KB|key]). fold C.
  split; [done|]. split; [by apply set_lines_clean|]. by eapply keyed_not_blank; [exact KC|key].
Qed.
Lemma fenced_clean ls : Forall clean_line ls → Forall clean_line (fenced_lines ls).
Proof. intros Hc. apply set_lines_clean; [done|]. intros v [= <-]. apply fence_clean. Qed.
End Standby.

(** A standby's settings and the start-time fence settle together: after one pass
    of both writers over any [postgresql.auto.conf], either writes it back as it is,
    so a configured standby is neither repointed nor restarted again; the four
    settings read as written; and the lines of every other setting are those of the
    original file, in order. *)
Lemma written_settings_settle t leader_addr cfg :
  CR ∉ t → LF ∉ primary_conninfo_for leader_addr cfg → is_u64 (node_id cfg) →
  let f := with_writes_fenced (compute_standby_auto_conf t leader_addr cfg) in
  compute_standby_auto_conf f leader_addr cfg = f ∧ with_writes_fenced f = f ∧
  settled leader_addr cfg (lines f) ∧
  ∀ k, is_key k →
    forallb (λ own, negb (same_key k own))
      [lit "primary_conninfo"; lit "primary_slot_name"; lit "synchronous_standby_names"; READ_ONLY_KEY] = true →
    keyed k (lines f) = keyed k (lines t).
Proof.
  intros Ht Hone Hid f.
  destruct (standby_text leader_addr cfg Hone Hid t (lines_clean t Ht)) as (Ec & Hcl & Hne).
  set (ls := fenced_lines (standby_lines leader_addr cfg (lines t))).
  pose proof (both_settle leader_addr cfg (lines t)) as Hset. fold ls in Hset.
  destruct (settled_fixed leader_addr cfg ls Hset) as [Hst Hfe].
  assert (Hls : Forall clean_line ls) by (by apply (fenced_clean leader_addr cfg)).
  assert (Hnb : ls ≠ [[]]).
  { destruct Hset as (Hk & _). apply (keyed_not_blank (lit "primary_conninfo")); [by rewrite Hk|by split]. }
  assert (Ef : f = unlines ls).
  { unfold f. rewrite Ec. by apply with_unlines. }
  assert (El : lines f = ls) by (rewrite Ef; by apply lines_unlines).
  destruct (standby_text leader_addr cfg Hone Hid f) as (Ec' & _); [by rewrite El|].
  split_and!.
  - by rewrite Ec', El, Hst.
  - rewrite Ef at 1. unfold with_writes_fenced. rewrite with_unlines by done. by fold (fenced_lines ls); rewrite Hfe.
  - by rewrite El.
  - intros k Hk Hs. rewrite El. cbn in Hs. rewrite !andb_true_iff, !negb_true_iff in Hs.
    destruct Hs as (H1 & H2 & H3 & H4 & _). by apply others_kept.
Qed.
Definition demo_leader : SocketAddr := SocketAddr_ (V4 1) 0 5432.
Definition demo_cfg : SupervisorConfig := SupervisorConfig_ 5432 (lit "postgres") Replica 2 Trust None.
Definition demo_auto_conf : bytes := lit "work_mem = '4MB'
Primary_Conninfo= 'old'
synchronous_standby_names = 'FIRST 1 (a)'
".
Lemma written_settings_settle_witness :
  with_writes_fenced (with_writes_fenced (compute_standby_auto_conf demo_auto_conf demo_leader demo_cfg))
  = with_writes_fenced (compute_standby_auto_conf demo_auto_conf demo_leader demo_cfg).
Proof.
  apply (written_settings_settle demo_auto_conf demo_leader demo_cfg).
  - vm_compute. intros H. repeat (apply elem_of_cons in H as [H|H]; [discriminate H|]). by apply elem_of_nil in H.
  - vm_compute. intros H. repeat (apply elem_of_cons in H as [H|H]; [discriminate H|]). by apply elem_of_nil in H.
  - unfold is_u64, u64_max. cbn. lia.
Defined.
End AutoConf.
