(* ===== verification/DurableWrite.v ===== *)
(** * Installing a file so that a crash leaves the old content or the new
    ([write_file_durably_in] of [process/config_files.rs])

    The program over the file system's operations, and what a crash may leave of
    them: [rename] replaces the entry at once, a file's data is certain once synced,
    the entry once its directory is. *)

From S2P Require Import Prelude Effects.
From Stdlib Require Import Strings.Byte.

(** ** The program *)
Inductive Req := ReadTarget | OpenTmp | WriteTmp (b : bytes) | SyncTmp | RenameTmp | SyncDir.
Section Decisions.
#[local] Existing Instance byte_code_dec | 0.
#[global] Instance Req_eq_dec : EqDecision Req.
Proof. solve_decision. Defined.
End Decisions.
(** An operation's success; a read's content. *)
Definition Answer (q : Req) : Type := match q with ReadTarget => option bytes | _ => bool end.
Abbreviation io := (prog Answer).
Definition try_op (q : Req) : Answer q → result () () :=
  match q with ReadTarget => λ _, Ok tt | _ => λ ok, if ok : bool then Ok tt else Err tt end.
Definition op (q : Req) : io (result () ()) := let* r := ask q in Ret (try_op q r).

(** [Ok true] when written, [Ok false] when the content was there already. *)
Definition write_file_durably_in (b : bytes) : io (result () bool) :=
  let* existing := ask ReadTarget in
  if bool_decide (existing = Some b) then Ret (Ok false)
  else
    let? _ := op OpenTmp in
    let? _ := op (WriteTmp b) in
    let? _ := op SyncTmp in
    let? _ := op RenameTmp in
    let? _ := op SyncDir in
    Ret (Ok true).

(** ** The file system *)
Record File := File_ { data : bytes; synced : bool }.
(** [pending] is a rename whose directory is not synced; [tmp] the staging file. *)
Record Fs := Fs_ { entry : option bytes; pending : option File; tmp : option File }.
Definition live (s : Fs) : option bytes := match pending s with Some f => Some (data f) | None => entry s end.

(** What may be at the path after a crash. *)
Definition survives (s : Fs) (c : option bytes) : Prop :=
  c = entry s ∨ ∃ f, pending s = Some f ∧ (synced f = true → c = Some (data f)).

Definition step (s : Fs) (ev : @event Req Answer) (s' : Fs) : Prop :=
  match ev with
  | existT ReadTarget r => (r = live s ∨ r = None) ∧ s' = s
  | existT OpenTmp ok => s' = Fs_ (entry s) (pending s) (Some (File_ [] false)) ∨ (ok = false ∧ s' = s)
  | existT (WriteTmp b) ok =>
      ∃ d, s' = Fs_ (entry s) (pending s) (Some (File_ d false)) ∧ (ok = true → d = b)
  | existT SyncTmp ok =>
      if ok : bool then s' = Fs_ (entry s) (pending s) ((λ f, File_ (data f) true) <$> tmp s) else s' = s
  | existT RenameTmp ok =>
      if ok : bool then is_Some (tmp s) ∧ s' = Fs_ (entry s) (tmp s) None else s' = s
  | existT SyncDir ok => if ok : bool then s' = Fs_ (live s) None (tmp s) else s' = s
  end.
Local Notation steps := (steps step).
Local Notation within := (within step).

(** ** The content at the path is always one of the two *)
Definition one_of (s0 : Fs) (b : bytes) (s : Fs) : Prop :=
  ∀ c, survives s c → c = entry s0 ∨ c = Some b.
(** Nothing staged has reached the path yet. *)
Definition staging (s0 s : Fs) : Prop := entry s = entry s0 ∧ pending s = None.

Lemma staging_one_of s0 b s : staging s0 s → one_of s0 b s.
Proof. intros [He Hp] c [->|(f & Hf & _)]; [by left; rewrite He|congruence]. Qed.

(** What is left when a run ends: with success, only the new content. *)
Definition installed (b : bytes) (r : result () bool) (s : Fs) : Prop :=
  is_ok r = true → ∀ c, survives s c → c = Some b.

Lemma write_within b s :
  pending s = None → within (one_of s b) (write_file_durably_in b) s (installed b).
Proof.
  intros Hp. assert (H0 : staging s s) by done.
  assert (Hfail : ∀ s', staging s s' → within (one_of s b) (Ret (Err tt) : io (result () bool)) s' (installed b))
    by (intros s' Hs'; split; [by apply staging_one_of|done]).
  split; [by apply staging_one_of|]. intros r s1 [Hr ->]. cbn [bind].
  destruct (bool_decide (r = Some b)) eqn:Er.
  { apply bool_decide_eq_true in Er as ->. split; [by apply staging_one_of|].
    intros _ c [->|(f & Hf & _)]; [|congruence]. destruct Hr as [Hr|]; [|done]. unfold live in Hr. by rewrite Hp in Hr. }
  split; [by apply staging_one_of|]. intros ok1 s2 H2.
  assert (G2 : staging s s2) by (by destruct H2 as [->|[_ ->]]).
  destruct ok1; [|by apply Hfail]. split; [by apply staging_one_of|]. intros ok2 s3 (d & -> & Hd).
  destruct ok2; [|by apply Hfail]. specialize (Hd eq_refl) as ->.
  split; [by apply staging_one_of|]. intros ok3 s4 H4.
  destruct ok3; cbn in H4; subst s4; [|by apply Hfail].
  destruct G2 as [Ge Gp]. split; [by apply staging_one_of|]. intros ok4 s5 H5.
  destruct ok4; cbn in H5; [|subst s5; by apply Hfail]. destruct H5 as [_ ->].
  assert (O5 : one_of s b (Fs_ (entry s2) (Some (File_ b true)) None)).
  { intros c [->|(f & [= <-] & Hc)]; [by left; rewrite <-Ge|by right; apply Hc]. }
  split; [done|]. intros ok5 s6 H6. destruct ok5; cbn in H6; [|by subst s6; split].
  subst s6. assert (E : ∀ c, survives (Fs_ (Some b) None None) c → c = Some b).
  { intros c [->|(f & Hf & _)]; [done|discriminate]. }
  split; [intros c Hc; right; by apply E|intros _; apply E].
Qed.

(** C34. A managed file is never torn: a crash at any point of the write, or after an
    operation of it failed, leaves at the path the whole old content or the whole
    new content, and once the write answered success only the new one. *)
Theorem a_managed_file_is_never_torn b s :
  pending s = None →
  (∀ t q s', issues (write_file_durably_in b) t q → steps s t s' →
     ∀ c, survives s' c → c = entry s ∨ c = Some b) ∧
  (∀ t r s', runs (write_file_durably_in b) t r → steps s t s' →
     (∀ c, survives s' c → c = entry s ∨ c = Some b) ∧
     (is_ok r = true → ∀ c, survives s' c → c = Some b)).
Proof.
  intros Hp. pose proof (write_within b s Hp) as Hw. split.
  - intros t q s' Hi Hs. exact (within_issues _ _ _ _ _ _ _ _ Hw Hi Hs).
  - intros t r s' Hr Hs. exact (within_runs _ _ _ _ _ _ _ _ Hw Hr Hs).
Qed.
Lemma a_managed_file_is_never_torn_witness :
  survives (Fs_ (Some [x61]) None None) (Some [x61]) ∧ (Some [x61] = Some [x61] ∨ Some [x61] = Some [x62]).
Proof.
  split; [by left|].
  apply (a_managed_file_is_never_torn [x62] (Fs_ (Some [x61]) None None) eq_refl) with (t := []) (q := ReadTarget)
    (s' := Fs_ (Some [x61]) None None); [by left|done|by left].
Defined.

(** The condition is needed: a write whose directory sync failed answered an error,
    and the retry finds its own content in place and answers success without
    syncing anything; a crash then brings the old content back. *)
Lemma a_retry_skips_the_sync :
  ∃ t1 t2 s1 s2,
    runs (write_file_durably_in [x62]) t1 (Err tt) ∧ steps (Fs_ (Some [x61]) None None) t1 s1 ∧
    runs (write_file_durably_in [x62]) t2 (Ok false) ∧ steps s1 t2 s2 ∧ survives s2 (Some [x61]).
Proof.
  exists [answered ReadTarget (Some [x61]); answered OpenTmp true; answered (WriteTmp [x62]) true;
          answered SyncTmp true; answered RenameTmp true; answered SyncDir false],
         [answered ReadTarget (Some [x62])],
         (Fs_ (Some [x61]) (Some (File_ [x62] true)) None), (Fs_ (Some [x61]) (Some (File_ [x62] true)) None).
  split_and!.
  - do 6 (eexists _, _; split; [reflexivity|]). by split.
  - exists (Fs_ (Some [x61]) None None). split; [by split; [left|]|].
    exists (Fs_ (Some [x61]) None (Some (File_ [] false))). split; [by left|].
    exists (Fs_ (Some [x61]) None (Some (File_ [x62] false))). split; [by eexists|].
    exists (Fs_ (Some [x61]) None (Some (File_ [x62] true))). split; [done|].
    exists (Fs_ (Some [x61]) (Some (File_ [x62] true)) None). split; [by split|]. by eexists.
  - eexists _, _. split; [reflexivity|]. by split.
  - eexists. split; [by split; [left|]|done].
  - by left.
Qed.
