(* ===== verification/Standby.v ===== *)
(** * The PostgreSQL process under this node: start, stop, promote, demote, rewind,
    rebuild ([crates/pgbattery-supervisor/src/process]: mod.rs, postmaster.rs, follow.rs,
    rewind.rs, controldata.rs, replication.rs, config_files.rs)

    The [Supervisor]'s operations as programs over what they do to the machine: files,
    child processes, SQL to the local server, one-shot queries to a peer.  [Sup] is
    the handle's own state, threaded through.

    An awaited request may be answered [None]: an enclosing timeout, or the caller,
    dropped the operation there.  [rounds] bounds the polls; [OutOfRounds] stands for
    a run cut there.  Error texts, metrics and log lines are left out. *)

From S2P Require Import Prelude Effects Text Net Core PgFiles.
From S2P Require DurableWrite.
From Stdlib Require Import Strings.Byte.

Abbreviation Duration := Z (only parsing).
Definition ms : Z := 1000000.
Definition secs : Z := 1000 * ms.

Definition PG_REWIND_BUDGET : Z := 300 * secs.
Definition PG_REWIND_REAP_BUDGET : Z := 5 * secs.
Definition PG_REWIND_MAX_RETRIES : nat := 10.
Definition PG_REWIND_RETRY_DELAY_MS : Z := 1000.
Definition PG_CTL_STOP_TIMEOUT_MS : Z := 30000.
Definition SYNC_WAIT_TIMEOUT_MS : Z := 5000.
Definition SYNC_CHECK_INTERVAL_MS : Z := 100.

Inductive Error :=
| Postgres | PostgresNotReady | PostgresRefusedToOpen | Promotion | InitDb | Io
| RewindFailed (target_intact : bool)
| RewindDataLossRisk (local_lsn fork_lsn divergence threshold : Z)
| ForeignDataDirectory.

(** ** What an operation asks of the machine *)
Inductive PgFile := PostgresqlConf | PgHbaConf | AutoConf.
Inductive Marker := DataDir | ConfMarker | StandbySignal | PidFile | PgControl.
Inductive ReadError := NotFound | Unreadable.
Inductive PgCtl := Promote | Stop | Reload.
Inductive CtlAnswer := CtlExit (success : bool) | CtlFailed | CtlTimedOut.
Inductive ChildState := StillRunning | Gone (code : option Z) | PollFailed.
Inductive RewindWait := Finished (success : bool) (stderr : bytes) | WaitFailed | Elapsed.
Inductive ProbeAnswer := Probed (success : bool) (stdout : bytes) | ProbeFailed | ProbeTimedOut.

Inductive LocalSql :=
| RecoverySql | ReportableLsn | CurrentLsn | ReplayLsn | StreamingCount | ReceiverTimeline
| SegmentsPast (needed : bytes) | InactiveSlots | DropSlot (name : bytes) | SlotCount (name : bytes)
| CreateSlot (name : bytes) | PhysicalSlots | SyncNamesNowAndOnReload | ShowSyncNames
| AlterSyncNames (names : bytes).
Inductive PeerSql := LeaderProbe | PeerLineage | PeerWal | PeerSegment (replay : bytes).

(** Answered at once. *)
Inductive SyncReq :=
| Now
| Exists (m : Marker)
| SpawnPostgres
| TryWait
| SpawnRewind (source : SocketAddr) (dry_run : bool)
| KillRewind
| SetPermissions
| OurPid.
(** Awaited. *)
Inductive AsyncReq :=
| Fs (f : PgFile) (q : DurableWrite.Req)
| ReadFile (f : PgFile)
| CreateArchiveDir
| OpenSignal | SyncSignal | SyncDataDir | RemoveSignal
| ListDir | RemoveEntry (name : bytes) (is_dir : bool)
| ReadPidFile | ProcDir (pid : Z) | ProcStatus (pid : Z) | ProcCmdline (pid : Z) | PkillPostgres | RemovePidFile
| InvalidateSql
| Sql (q : LocalSql)
| WriteReadonlyGuc (on : bool)
| QueryPeer (addr : SocketAddr) (q : PeerSql)
| RunPgCtl (c : PgCtl)
| PgIsReady
| RunInitDb
| PgControldata
| DrainRelay
| KillChild | ReapChild
| WaitRewind (remaining : Z) | ReapRewind
| ProbeSource (addr : SocketAddr)
| PgBasebackup (source : SocketAddr)
| Sleep (d : Z).
Inductive Req := Sync (q : SyncReq) | Async (q : AsyncReq).
Section Decisions.
#[local] Existing Instance byte_code_dec | 0.
#[global] Instance Marker_eq_dec : EqDecision Marker.
Proof. solve_decision. Defined.
#[global] Instance PgFile_eq_dec : EqDecision PgFile.
Proof. solve_decision. Defined.
#[global] Instance PgCtl_eq_dec : EqDecision PgCtl.
Proof. solve_decision. Defined.
#[global] Instance LocalSql_eq_dec : EqDecision LocalSql.
Proof. solve_decision. Defined.
#[global] Instance PeerSql_eq_dec : EqDecision PeerSql.
Proof. solve_decision. Defined.
#[global] Instance SyncReq_eq_dec : EqDecision SyncReq.
Proof. solve_decision. Defined.
#[global] Instance AsyncReq_eq_dec : EqDecision AsyncReq.
Proof. solve_decision. Defined.
#[global] Instance Req_eq_dec : EqDecision Req.
Proof. solve_decision. Defined.
End Decisions.

Definition SyncAnswer (q : SyncReq) : Type :=
  match q with
  | Now | OurPid => Z
  | Exists _ | SpawnPostgres | SpawnRewind _ _ | SetPermissions => bool
  | TryWait => ChildState
  | KillRewind => unit
  end.
(** Commands that cannot run, fail or time out alike answer [Err tt]. *)
Definition AsyncAnswer (q : AsyncReq) : Type :=
  match q with
  | Fs _ q => DurableWrite.Answer q
  | ReadFile _ | ReadPidFile => result ReadError bytes
  | CreateArchiveDir | OpenSignal | SyncSignal | SyncDataDir | RemoveSignal | RemoveEntry _ _ => bool
  | ListDir => result () (list (bytes * result () bool) * bool)
  | ProcDir _ => bool
  | ProcStatus _ | ProcCmdline _ => option bytes
  | PkillPostgres | RemovePidFile | InvalidateSql | ReapRewind | ReapChild | Sleep _ => unit
  | Sql _ => result bytes bytes                     (* an error with its text *)
  | WriteReadonlyGuc _ => result () ()
  | QueryPeer _ _ => option bytes
  | RunPgCtl _ => CtlAnswer
  | PgIsReady => result () (option Z)
  | RunInitDb | PgBasebackup _ => CtlAnswer
  | PgControldata => result () bytes
  | DrainRelay => option bytes
  | KillChild => bool
  | WaitRewind _ => RewindWait
  | ProbeSource _ => ProbeAnswer
  end.
Definition Answer (q : Req) : Type :=
  match q with Sync q => SyncAnswer q | Async q => option (AsyncAnswer q) end.

(** [Supervisor]: its child, the exit it reaped, the relay of the child's stderr. *)
Record Sup := Sup_ { child : bool; exited : option (option Z); relaying : bool }.
Definition Supervisor_new : Sup := Sup_ false None false.

Inductive Exit := Fail (e : Error) | Dropped | OutOfRounds | Panicked.
Definition io (A : Type) : Type := @prog Req Answer A.
Definition M (A : Type) : Type := Sup → io (Sup * result Exit A).
Definition ret {A} (a : A) : M A := λ s, Ret (s, Ok a).
Definition leave {A} (e : Exit) : M A := λ s, Ret (s, Err e).
Definition fail {A} (e : Error) : M A := leave (Fail e).
Definition then_ {A B} (m : M A) (f : A → M B) : M B := λ s,
  let* r := m s in match r.2 with Ok a => f a r.1 | Err e => Ret (r.1, Err e) end.
Notation "'let&' x ':=' p 'in' q" := (then_ p (λ x, q))
  (at level 10, x pattern, p at level 100, q at level 200) : prog_scope.
(** A [Result] looked at instead of passed on. *)
Definition attempt {A} (m : M A) : M (result Error A) := λ s,
  let* r := m s in
  Ret (r.1, match r.2 with Ok a => Ok (Ok a) | Err (Fail e) => Ok (Err e) | Err e => Err e end).
Definition get : M Sup := λ s, Ret (s, Ok s).
Definition put (s' : Sup) : M () := λ _, Ret (s', Ok tt).
Definition read (q : SyncReq) : M (SyncAnswer q) := λ s, let* r := ask (Sync q) in Ret (s, Ok r).
Definition await (q : AsyncReq) : M (AsyncAnswer q) := λ s,
  let* r := ask (Async q) in Ret (s, match r with Some a => Ok a | None => Err Dropped end).
Definition or_fail {A} (e : Error) (r : option A) : M A :=
  match r with Some a => ret a | None => fail e end.
Definition check (b : bool) (e : Error) : M () := if b then ret tt else fail e.
Definition from_result {E A} (e : Error) (r : result E A) : M A :=
  match r with Ok a => ret a | Err _ => fail e end.

(** [timeout(budget, body)]: a body dropped is a budget gone. *)
Definition within_budget {A} (e : Error) (body : M A) : M A := λ s,
  let* r := body s in
  Ret (r.1, match r.2 with Err Dropped => Err (Fail e) | x => x end).

(** ** Files *)
Fixpoint on_file {A} (f : PgFile) (p : @prog DurableWrite.Req DurableWrite.Answer (result () A)) : M A :=
  match p with
  | Ret (Ok a) => ret a
  | Ret (Err _) => fail Postgres
  | Do q k => let& r := await (Fs f q) in on_file f (k r)
  end.
Definition write_file_durably (f : PgFile) (b : bytes) : M () :=
  let& _ := on_file f (DurableWrite.write_file_durably_in b) in ret tt.

(** A read that failed is an empty file. *)
Definition read_or_default (f : PgFile) : M bytes :=
  let& r := await (ReadFile f) in ret (match r with Ok t => t | Err _ => [] end).

(** [clear_dir_contents]; the listing may end in an error. *)
Fixpoint remove_entries (entries : list (bytes * result () bool)) : M () :=
  match entries with
  | [] => ret tt
  | (name, file_type) :: entries =>
      let& is_dir := from_result Io file_type in
      let& ok := await (RemoveEntry name is_dir) in
      let& _ := check ok Io in
      remove_entries entries
  end.
Definition clear_dir_contents : M () :=
  let& exists_ := read (Exists DataDir) in
  if negb exists_ then ret tt
  else
    let& listing := await ListDir in
    let& l := from_result Io listing in
    let& _ := remove_entries l.1 in
    check l.2 Io.

(** Three results in order: created, synced, its directory synced. *)
Definition ensure_standby_signal : M () :=
  let& opened := await OpenSignal in
  let& _ := check opened Postgres in
  let& synced := await SyncSignal in
  let& _ := check synced Postgres in
  let& dir := await SyncDataDir in
  check dir Postgres.

Section Node.
Context (rounds : nat) (cfg : SupervisorConfig).

Definition configure_standby (leader_addr : SocketAddr) : M bool :=
  let& existing := read_or_default AutoConf in
  let new_config := compute_standby_auto_conf existing leader_addr cfg in
  if bool_decide (new_config = existing) then ret false
  else let& _ := write_file_durably AutoConf new_config in ret true.
Definition standby_config_would_change (leader_addr : SocketAddr) : M bool :=
  let& existing := read_or_default AutoConf in
  ret (negb (bool_decide (compute_standby_auto_conf existing leader_addr cfg = existing))).

Definition configure_postgresql : M () :=
  let& _ :=
    match wal_archive_dir cfg with
    | Some _ => let& ok := await CreateArchiveDir in check ok Postgres
    | None => ret tt
    end in
  let& conf := await (ReadFile PostgresqlConf) in
  let& conf := from_result Postgres conf in
  let& _ := write_file_durably PostgresqlConf (upsert_managed_block conf CONF_START CONF_END (conf_block cfg)) in
  let& auth_method :=
    match pg_auth_mode cfg with Trust => ret (lit "trust") | Scram | Md5 | Peer => fail Postgres end in
  let& hba := await (ReadFile PgHbaConf) in
  let& hba := from_result Postgres hba in
  write_file_durably PgHbaConf (upsert_managed_block hba HBA_START HBA_END (hba_block auth_method (pg_user cfg))).

Definition fence_writes_at_start : M () :=
  let& r := await (ReadFile AutoConf) in
  let& existing :=
    match r with Ok t => ret t | Err NotFound => ret [] | Err Unreadable => fail Postgres end in
  let fenced := with_writes_fenced existing in
  if bool_decide (fenced = existing) then ret tt else write_file_durably AutoConf fenced.

(** ** The local server *)
Definition execute_sql (q : LocalSql) : M bytes := let& r := await (Sql q) in from_result Postgres r.
Definition is_in_recovery : M bool :=
  let& raw := execute_sql RecoverySql in ret (bool_decide (trim raw = lit "t")).
Definition get_current_lsn : M bytes := let& raw := execute_sql CurrentLsn in ret (trim raw).
Definition get_reportable_lsn : M bytes := let& raw := execute_sql ReportableLsn in ret (trim raw).
Definition invalidate_sql_client : M () := await InvalidateSql.

(** ** The postmaster *)
Inductive PostmasterState := Running | Exited (code : option Z) | NotRunning.

Definition postmaster_state : M PostmasterState :=
  let& s := get in
  if negb (child s) then ret (match exited s with Some code => Exited code | None => NotRunning end)
  else
    let& st := read TryWait in
    match st with
    | Gone code => let& _ := put (Sup_ false (Some code) (relaying s)) in ret (Exited code)
    | StillRunning => ret Running
    | PollFailed => fail Postgres
    end.
Definition is_alive : M bool :=
  let& st := postmaster_state in ret (match st with Running => true | _ => false end).

Definition exit_refused (code : option Z) : M bool :=
  let& s := get in
  let& _ := put (Sup_ (child s) (exited s) false) in
  let& fault := if relaying s then await DrainRelay else ret None in
  ret (exit_was_a_refusal code fault).

Definition stop : M () :=
  let& _ := invalidate_sql_client in
  let& s := get in
  let& _ := put (Sup_ (child s) None (relaying s)) in
  if negb (child s) then ret tt
  else
    let& status := await (RunPgCtl Stop) in
    match status with
    | CtlFailed | CtlTimedOut => fail Postgres
    | CtlExit false =>
        let& st := read TryWait in
        match st with
        | Gone _ => put (Sup_ false None (relaying s))
        | _ => fail Postgres
        end
    | CtlExit true =>
        let& _ := put (Sup_ false None (relaying s)) in
        await ReapChild
    end.
Definition reload_config : M () :=
  let& status := await (RunPgCtl Reload) in
  match status with CtlExit true => ret tt | _ => fail Postgres end.

(** [parse::<i32>]. *)
Definition parse_i32 (l : bytes) : option Z :=
  z ← parse_i64 l; if (- 2 ^ 31 <=? z) && (z <=? 2 ^ 31 - 1) then Some z else None.
(** [replace('\0', " ")]. *)
Definition spaced (raw : bytes) : bytes := (λ c, if byte_eqb c "000"%byte then " "%byte else c) <$> raw.

Definition cleanup_stale_postgres : M () :=
  let& exists_ := read (Exists PidFile) in
  if negb exists_ then ret tt
  else
    let& content := await ReadPidFile in
    match content with
    | Err _ => ret tt
    | Ok content =>
        match head (lines content) with
        | None => ret tt
        | Some line =>
            match parse_i32 (trim line) with
            | None => ret tt
            | Some pid =>
                let& proc_dir_exists := await (ProcDir pid) in
                let& proc_status := await (ProcStatus pid) in
                let& cmdline := await (ProcCmdline pid) in
                let& our_pid := read OurPid in
                if negb (postmaster_pid_is_stale proc_dir_exists proc_status (spaced <$> cmdline) pid our_pid)
                then ret tt
                else let& _ := await PkillPostgres in await RemovePidFile
            end
        end
    end.

Definition RECOVERY_TIMEOUT_SECS : Z := 600.
(** The interval doubles to a second. *)
Fixpoint ready_loop (n : nat) (base_deadline recovery_deadline interval : Z) : M () :=
  match n with
  | O => leave OutOfRounds
  | S n =>
      let& r := await PgIsReady in
      let& code := from_result Postgres r in
      if bool_decide (code = Some 0) then ret tt
      else
        let& st := attempt postmaster_state in
        match st with
        | Ok (Exited exit_code) =>
            let& refused := exit_refused exit_code in
            fail (if refused : bool then PostgresRefusedToOpen else Postgres)
        | _ =>
            let deadline := if bool_decide (code = Some 1) then recovery_deadline else base_deadline in
            let& now := read Now in
            if deadline <=? now then fail PostgresNotReady
            else
              let& _ := await (Sleep (Z.min interval (deadline - now))) in
              ready_loop n base_deadline recovery_deadline (Z.min (interval * 2) secs)
        end
  end.
Definition wait_for_ready (timeout_secs : Z) : M () :=
  let& start := read Now in
  ready_loop rounds (start + timeout_secs * secs) (start + Z.max timeout_secs RECOVERY_TIMEOUT_SECS * secs)
    (100 * ms).

(** What is left of a start that was not ready. *)
Definition abandon_start (e : Error) : M () :=
  let& st := attempt postmaster_state in
  let& refused :=
    match e, st with
    | PostgresRefusedToOpen, _ => ret true
    | _, Ok (Exited code) => exit_refused code
    | _, _ => ret false
    end in
  let& stopped := attempt stop in
  let& _ :=
    match stopped with
    | Ok _ => ret tt
    | Err _ =>
        let& s := get in
        if child s then
          let& _ := put (Sup_ false (exited s) (relaying s)) in
          let& _ := await KillChild in ret tt
        else ret tt
    end in
  fail (if refused : bool then PostgresRefusedToOpen else e).

Definition start : M () :=
  let& _ := invalidate_sql_client in
  let& s := get in
  let& _ := put (Sup_ (child s) None (relaying s)) in
  let& _ := cleanup_stale_postgres in
  let& conf := read (Exists ConfMarker) in
  let& _ := check conf PostgresRefusedToOpen in
  let& _ := configure_postgresql in
  let& _ := fence_writes_at_start in
  let& _ := read SetPermissions in
  let& spawned := read SpawnPostgres in
  let& _ := check spawned Postgres in
  let& _ := put (Sup_ true None true) in
  let& ready := attempt (wait_for_ready 30) in
  match ready with
  | Err e => abandon_start e
  | Ok _ => let& _ := attempt is_in_recovery in ret tt
  end.

Definition initialize : M () :=
  let& _ := clear_dir_contents in
  let& status := await RunInitDb in
  match status with CtlExit true => ret tt | _ => fail InitDb end.

(** ** The control file *)
Definition read_system_identifier : M (option Z) :=
  let& exists_ := read (Exists PgControl) in
  if negb exists_ then ret None
  else
    let& stdout := await PgControldata in
    let& stdout := from_result Postgres stdout in
    let& id := or_fail Postgres (parse_controldata_fields stdout !! CONTROLDATA_SYSTEM_IDENTIFIER ≫= parse_u64) in
    ret (Some id).
Definition read_stopped_wal_end : M (option Z) :=
  let& exists_ := read (Exists PgControl) in
  if negb exists_ then ret None
  else
    let& stdout := await PgControldata in
    let& stdout := from_result Postgres stdout in
    ret (stopped_wal_end (parse_controldata_fields stdout)).

(** The receiver's timeline is only logged. *)
Definition get_wal_receiver_timeline : M Z :=
  let& answer := within_budget Postgres (execute_sql ReceiverTimeline) in
  or_fail Postgres (parse_u64 (trim answer)).
Definition verify_promotion_safe : M TimelineInfo :=
  let& stdout := await PgControldata in
  let& stdout := from_result Promotion stdout in
  let fields := parse_controldata_fields stdout in
  let& raw := or_fail Promotion (fields !! TIMELINE_FIELD) in
  let& timeline_id := or_fail Promotion (parse_u64 raw) in
  let info := TimelineInfo_ timeline_id (default [] (fields !! lit "REDO location"))
                (default [] (fields !! CHECKPOINT_FIELD)) in
  let& _ := attempt get_wal_receiver_timeline in
  ret info.
Definition get_local_timeline : M (option Z) :=
  let& stdout := await PgControldata in
  ret (match stdout with
       | Ok stdout => parse_controldata_fields stdout !! TIMELINE_FIELD ≫= parse_u64
       | Err _ => None
       end).

(** ** Following a leader *)
Inductive LineageTerm := Unenforced | Committed (lineage : option Z).
Record FollowTerms := FollowTerms_ { rewind_budget : RewindBudget; lineage : LineageTerm }.

Definition serves_cluster_lineage (term : LineageTerm) (source : option Z) : bool :=
  match term with
  | Unenforced => true
  | Committed committed =>
      match committed, source with Some c, Some s => c =? s | _, _ => false end
  end.

Inductive TimelineCheck := Match | Mismatch | Unknown | Foreign.
Inductive FormerPrimaryAction := RewindOnto | DeferDemote.
Definition former_primary_action (timeline : TimelineCheck) : FormerPrimaryAction :=
  match timeline with Match | Mismatch => RewindOnto | Unknown | Foreign => DeferDemote end.

Inductive StandbyAction := NoOp | Defer | Repoint | Rewind | Reprovision.
Definition streaming_gap_action (local_ahead can_continue : option bool) : StandbyAction :=
  match local_ahead, can_continue with
  | Some true, _ => Rewind
  | Some false, Some false => Reprovision
  | Some false, (Some true | None) | None, _ => Defer
  end.
Definition standby_action_for_mismatch (local_ahead : option bool) : StandbyAction :=
  match local_ahead with Some true => Rewind | Some false => Repoint | None => Defer end.

(** [query_peer]: one query, its output trimmed. *)
Definition query_peer (addr : SocketAddr) (q : PeerSql) : M (option bytes) :=
  let& r := await (QueryPeer addr q) in ret (trim <$> r).
Definition probe_leader (addr : SocketAddr) : M (option (Z * Z)) :=
  let& r := query_peer addr LeaderProbe in ret (r ≫= parse_leader_probe).
Definition peer_lineage (addr : SocketAddr) : M (option Z) :=
  let& r := query_peer addr PeerLineage in ret (r ≫= parse_u64).
Definition get_remote_lsn (addr : SocketAddr) : M (option Z) :=
  let& r := query_peer addr PeerWal in ret (r ≫= Lsn.parse_lsn_local).

Definition check_timeline_state (leader_addr : SocketAddr) (term : LineageTerm) : M TimelineCheck :=
  let& local := get_local_timeline in
  match local with
  | None => ret Unknown
  | Some local =>
      let& probe := probe_leader leader_addr in
      ret (match probe with
           | None => Unknown
           | Some (remote, remote_lineage) =>
               if negb (serves_cluster_lineage term (Some remote_lineage)) then Foreign
               else if local =? remote then Match else Mismatch
           end)
  end.

(** A probe that failed is [None]. *)
Definition sql_ok (q : LocalSql) : M (option bytes) :=
  let& r := attempt (execute_sql q) in ret (result_ok r).
Definition local_ahead_of_leader (leader_addr : SocketAddr) : M (option bool) :=
  let& local := sql_ok ReplayLsn in
  match local ≫= λ l, Lsn.parse_lsn_local (trim l) with
  | None => ret None
  | Some local =>
      let& remote := get_remote_lsn leader_addr in
      ret (match remote with Some remote => Some (remote <? local) | None => None end)
  end.
Definition streaming_active : M bool :=
  let& r := sql_ok StreamingCount in
  ret (match r with Some s => bool_decide (trim s = lit "1") | None => false end).

Definition replay_can_continue (leader_addr : SocketAddr) : M (option bool) :=
  let& replay := sql_ok ReplayLsn in
  match replay ≫= λ r, _ ← Lsn.parse_lsn_local (trim r); Some (trim r) with
  | None => ret None
  | Some replay =>
      let& answer := query_peer leader_addr (PeerSegment replay) in
      match answer ≫= split_once "|"%byte with
      | None => ret None
      | Some (needed, retained) =>
          if bool_decide (retained = lit "t") then ret (Some true)
          else
            let& local := sql_ok (SegmentsPast needed) in
            ret (match local with
                 | Some l => if bool_decide (trim l = lit "t") then Some true
                             else if bool_decide (trim l = lit "f") then Some false else None
                 | None => None
                 end)
      end
  end.
(** Asked only when the answer can change the action. *)
Definition classify_streaming_gap (leader_addr : SocketAddr) : M StandbyAction :=
  let& local_ahead := local_ahead_of_leader leader_addr in
  let& can_continue :=
    match local_ahead with Some false => replay_can_continue leader_addr | _ => ret None end in
  ret (match streaming_gap_action local_ahead can_continue with
       | Rewind => Rewind | Reprovision => Reprovision | _ => Defer end).

Definition decide_standby_action (leader_addr : SocketAddr) (term : LineageTerm) : M StandbyAction :=
  let& config_changed := standby_config_would_change leader_addr in
  if config_changed : bool then
    let& t := check_timeline_state leader_addr term in
    match t with
    | Match => ret Repoint
    | Mismatch => let& ahead := local_ahead_of_leader leader_addr in ret (standby_action_for_mismatch ahead)
    | Unknown | Foreign => ret Defer
    end
  else
    let& streaming := streaming_active in
    if streaming : bool then ret NoOp
    else
      let& t := check_timeline_state leader_addr term in
      match t with
      | Mismatch => ret Rewind
      | Unknown | Foreign => ret Defer
      | Match => classify_streaming_gap leader_addr
      end.

(** ** Slots and the synchronous list *)
Definition replication_slot_exists (slot_name : bytes) : M bool :=
  let& _ := from_result Postgres (Slot.validate_pg_identifier slot_name) in
  let& r := execute_sql (SlotCount slot_name) in
  let& count := or_fail Postgres (parse_u64 (trim r)) in
  ret (0 <? count).
Definition slot_of (id : Z) : bytes := Slot.fmt (Slot.for_node id).
Definition create_replication_slot (id : Z) : M () :=
  let slot_name := slot_of id in
  let& _ := from_result Postgres (Slot.validate_pg_identifier slot_name) in
  let& exists_ := replication_slot_exists slot_name in
  if exists_ : bool then ret tt
  else
    let& r := await (Sql (CreateSlot slot_name)) in
    match r with
    | Ok _ => ret tt
    | Err msg =>
        if contains_lower (lit "already exists") msg || contains_lower (lit "sqlstate 42710") msg
           || contains_lower (lit "(42710)") msg
        then
          let& again := attempt (replication_slot_exists slot_name) in
          match again with Ok true => ret tt | _ => fail Postgres end
        else fail Postgres
    end.
Definition drop_replication_slot (id : Z) : M () :=
  let slot_name := slot_of id in
  let& _ := from_result Postgres (Slot.validate_pg_identifier slot_name) in
  let& exists_ := replication_slot_exists slot_name in
  if negb exists_ then ret tt
  else let& _ := execute_sql (DropSlot slot_name) in ret tt.
Definition trimmed_lines (output : bytes) : list bytes :=
  List.filter (λ l, negb (bool_decide (l = []))) (trim <$> lines output).
Definition list_physical_replication_slots : M (gset bytes) :=
  let& output := execute_sql PhysicalSlots in ret (list_to_set (trimmed_lines output)).
(** A slot that does not drop is left for a later transition. *)
Fixpoint drop_each (slots : list bytes) : M () :=
  match slots with
  | [] => ret tt
  | slot_name :: slots =>
      if negb (Slot.is_sweepable_replica_slot slot_name) then drop_each slots
      else let& _ := attempt (execute_sql (DropSlot slot_name)) in drop_each slots
  end.
Definition drop_inactive_replica_slots : M () :=
  let& output := execute_sql InactiveSlots in drop_each (trimmed_lines output).

(** [char::to_lowercase] over a word. *)
Context (lowercase : bytes → bytes).

Fixpoint trim_byte (c : byte) (l : bytes) : bytes :=
  match l with d :: r => if byte_eqb d c then trim_byte c r else l | [] => [] end.
Definition trim_matches (c : byte) (l : bytes) : bytes := reverse (trim_byte c (reverse (trim_byte c l))).
Definition strip_names (s : bytes) : bytes := trim_matches "'"%byte (trim_matches "034"%byte (trim s)).
Definition sync_names_equivalent (a b : bytes) : bool :=
  bool_decide (lowercase <$> split_whitespace (strip_names a) = lowercase <$> split_whitespace (strip_names b)).

Definition get_sync_standby_names : M bytes := let& r := execute_sql ShowSyncNames in ret (trim r).
Definition sync_standby_names_now_and_on_reload : M (bytes * bytes) :=
  let& raw := execute_sql SyncNamesNowAndOnReload in
  let& p := or_fail Postgres (split_once "009"%byte raw) in
  ret (trim p.1, trim p.2).
Fixpoint sync_names_loop (n : nat) (expected : bytes) (deadline : Z) : M () :=
  match n with
  | O => leave OutOfRounds
  | S n =>
      let& observed := get_sync_standby_names in
      if sync_names_equivalent observed expected then ret tt
      else
        let& now := read Now in
        if deadline <=? now then fail Postgres
        else let& _ := await (Sleep (SYNC_CHECK_INTERVAL_MS * ms)) in sync_names_loop n expected deadline
  end.
Definition wait_for_sync_standby_names_effective (expected : bytes) : M () :=
  let& now := read Now in sync_names_loop rounds expected (now + SYNC_WAIT_TIMEOUT_MS * ms).
(** The names between the first [(] and the last [)], each an identifier; the slice
    between panics when they are the other way round. *)
Definition check_names (names : bytes) : M () :=
  match split_once "("%byte names, rsplit_once ")"%byte names with
  | Some (before, _), Some (upto, _) =>
      if (length upto <? S (length before))%nat then leave Panicked
      else
        check (forallb (λ name, bool_decide (trim name = []) || is_ok (Slot.validate_pg_identifier (trim name)))
                 (split_on ","%byte (drop (S (length before)) upto))) Postgres
  | _, _ => ret tt
  end.
Definition set_sync_standby_names (names : bytes) : M () :=
  let& _ := check_names names in
  let& now := attempt sync_standby_names_now_and_on_reload in
  if match now with
     | Ok (live, on_reload) => sync_names_equivalent live names && sync_names_equivalent on_reload names
     | Err _ => false
     end then ret tt
  else
    let& _ := execute_sql (AlterSyncNames names) in
    wait_for_sync_standby_names_effective names.

(** ** Promoting *)
Definition arm_promotion_write_gate (sync_standby_names : bytes) : M () :=
  let& _ := attempt (set_sync_standby_names sync_standby_names) in
  if bool_decide (sync_standby_names = []) then ret tt
  else let& _ := await (WriteReadonlyGuc true) in ret tt.
Definition confirm_promoted : M () :=
  let& r := is_in_recovery in check (negb r) Promotion.
Definition promote (sync_standby_names : bytes) : M () :=
  let& r := attempt is_in_recovery in
  let& in_recovery := from_result Promotion r in
  if negb in_recovery then ret tt
  else
    let& _ := arm_promotion_write_gate sync_standby_names in
    let& status := await (RunPgCtl Promote) in
    match status with
    | CtlExit true =>
        let& _ := confirm_promoted in
        let& signal := read (Exists StandbySignal) in
        if signal then let& removed := await RemoveSignal in check removed Promotion else ret tt
    | _ => fail Promotion
    end.

(** ** Rewinding *)
Definition capture_lsn_for_rewind_gate : M (option Z) :=
  let& r := attempt get_reportable_lsn in
  ret (result_ok r ≫= Lsn.parse_lsn_local).

Definition check_rewind_discard (pre_stop_local_lsn : option Z) (plan : option RewindPlan)
    (budget : RewindBudget) : M () :=
  let& local_lsn :=
    match pre_stop_local_lsn with
    | Some lsn => ret lsn
    | None => let& l := capture_lsn_for_rewind_gate in or_fail (RewindFailed true) l
    end in
  match plan with
  | Some NothingToDiscard => ret tt
  | None => fail (RewindFailed true)
  | Some (Diverged fork) =>
      match rewind_divergence_decision local_lsn fork budget with
      | Safe | WithinTolerance _ => ret tt
      | Refuse d =>
          fail (RewindDataLossRisk local_lsn fork d
                  (match budget with Bytes limit => limit | Unbounded => u64_max end))
      end
  end.

Definition rewind_failure_error (stderr : bytes) (dry_run : bool) : Error :=
  if contains_lower REWIND_FOREIGN_LINEAGE_MARKER stderr then ForeignDataDirectory
  else RewindFailed (dry_run || pg_rewind_failure_is_pre_copy stderr).

Inductive RewindOutcome := Rewound | Reprovisioned.
Inductive RewindRecovery := RestartInPlace | Rebuild.
Definition rewind_recovery (e : Error) : RewindRecovery :=
  match e with
  | RewindDataLossRisk _ _ _ _ => RestartInPlace
  | RewindFailed true => RestartInPlace
  | _ => Rebuild
  end.

Definition run_pg_rewind_attempt (source : SocketAddr) (budget_deadline : Z) (dry_run : bool)
    : M (bool * bytes) :=
  let& spawned := read (SpawnRewind source dry_run) in
  let& _ := check spawned (RewindFailed true) in
  let& now := read Now in
  let& w := await (WaitRewind (sat_sub budget_deadline now)) in
  match w with
  | Finished success stderr => ret (success, stderr)
  | WaitFailed => fail (RewindFailed false)
  | Elapsed =>
      let& _ := read KillRewind in
      let& _ := await ReapRewind in
      fail (RewindFailed false)
  end.

Fixpoint source_loop (n : nat) (source : SocketAddr) (deadline : Z) : M () :=
  match n with
  | O => leave OutOfRounds
  | S n =>
      let& p := await (ProbeSource source) in
      let& ready :=
        match p with
        | Probed success stdout =>
            ret (success && (bool_decide (trim stdout = lit "f") || bool_decide (trim stdout = lit "false")))
        | ProbeFailed => fail (RewindFailed true)
        | ProbeTimedOut => ret false
        end in
      if ready : bool then ret tt
      else
        let& now := read Now in
        if deadline <=? now then fail (RewindFailed true)
        else let& _ := await (Sleep (PG_REWIND_RETRY_DELAY_MS * ms)) in source_loop n source deadline
  end.
Definition wait_for_rewind_source (source : SocketAddr) : M () :=
  let& now := read Now in
  source_loop rounds source (now + PG_REWIND_RETRY_DELAY_MS * Z.of_nat PG_REWIND_MAX_RETRIES * ms).

(** [retries] come after this attempt. *)
Fixpoint rewind_attempts (retries : nat) (source : SocketAddr) (budget_deadline : Z) : M () :=
  let& r := run_pg_rewind_attempt source budget_deadline false in
  let '(success, stderr) := r in
  if success : bool then ensure_standby_signal
  else
    match retries with
    | S retries =>
        if bool_decide (classify_pg_rewind_failure stderr = Retryable) then
          let& _ := await (Sleep (PG_REWIND_RETRY_DELAY_MS * ms)) in
          rewind_attempts retries source budget_deadline
        else fail (rewind_failure_error stderr false)
    | O => fail (rewind_failure_error stderr false)
    end.

Definition run_pg_rewind (source : SocketAddr) (pre_stop_local_lsn : option Z) (budget : RewindBudget) : M () :=
  let& now := read Now in
  let budget_deadline := now + PG_REWIND_BUDGET in
  within_budget (RewindFailed false) (
    let& _ := wait_for_rewind_source source in
    let& r := run_pg_rewind_attempt source budget_deadline true in
    let '(success, output) := r in
    let& _ := check success (rewind_failure_error output true) in
    let& _ := check_rewind_discard pre_stop_local_lsn (parse_rewind_plan output) budget in
    rewind_attempts (PG_REWIND_MAX_RETRIES - 1) source budget_deadline).

(** ** Rebuilding *)
Definition run_pg_basebackup (source : SocketAddr) : M () :=
  let& status := await (PgBasebackup source) in
  match status with CtlExit true => ret tt | _ => fail Postgres end.

Definition reprovision_from (source : SocketAddr) (term : LineageTerm) : M () :=
  let& source_lineage := peer_lineage source in
  let& _ := check (serves_cluster_lineage term source_lineage) Postgres in
  let& _ := stop in
  let& _ := clear_dir_contents in
  let& copied := attempt (run_pg_basebackup source) in
  match copied with
  | Err e => let& _ := attempt clear_dir_contents in fail e
  | Ok _ =>
      let& _ := ensure_standby_signal in
      let& _ := configure_standby source in
      start
  end.

Definition rewind_onto_leader (leader_addr : SocketAddr) (pre_stop_lsn : option Z) (terms : FollowTerms)
    : M RewindOutcome :=
  let& r := attempt (run_pg_rewind leader_addr pre_stop_lsn (rewind_budget terms)) in
  match r with
  | Err e =>
      match rewind_recovery e with
      | RestartInPlace =>
          let& _ := ensure_standby_signal in
          let& _ := configure_standby leader_addr in
          let& started := attempt start in
          match started with
          | Err PostgresRefusedToOpen =>
              let& _ := reprovision_from leader_addr (lineage terms) in ret Reprovisioned
          | _ => fail e
          end
      | Rebuild => let& _ := reprovision_from leader_addr (lineage terms) in ret Reprovisioned
      end
  | Ok _ => let& _ := ensure_standby_signal in ret Rewound
  end.

(** ** Demoting *)
Definition repoint_standby (leader_addr : SocketAddr) (terms : FollowTerms) : M () :=
  let& action := decide_standby_action leader_addr (lineage terms) in
  let sweep := let& _ := attempt drop_inactive_replica_slots in ret tt in
  match action with
  | NoOp | Defer => ret tt
  | Reprovision => reprovision_from leader_addr (lineage terms)
  | Repoint =>
      let& _ := configure_standby leader_addr in
      let& _ := reload_config in
      sweep
  | Rewind =>
      let& pre_stop_lsn := capture_lsn_for_rewind_gate in
      let& _ := stop in
      let& outcome := rewind_onto_leader leader_addr pre_stop_lsn terms in
      match outcome with
      | Reprovisioned => ret tt
      | Rewound =>
          let& _ := configure_standby leader_addr in
          let& _ := start in
          sweep
      end
  end.

Definition restart_or_repair_standby (leader_addr : SocketAddr) (term : LineageTerm) : M () :=
  let& _ := configure_standby leader_addr in
  let& started := attempt start in
  match started with
  | Ok _ => ret tt
  | Err PostgresRefusedToOpen => reprovision_from leader_addr term
  | Err e => fail e
  end.

Definition demote (leader_addr : SocketAddr) (terms : FollowTerms) : M () :=
  let& st := postmaster_state in
  match st with
  | NotRunning => restart_or_repair_standby leader_addr (lineage terms)
  | _ =>
      let& in_recovery := is_in_recovery in
      if in_recovery : bool then repoint_standby leader_addr terms
      else
        let& t := check_timeline_state leader_addr (lineage terms) in
        match former_primary_action t with
        | DeferDemote => ret tt
        | RewindOnto =>
            let& pre_stop_lsn := capture_lsn_for_rewind_gate in
            let& _ := stop in
            let& rewound := attempt (run_pg_rewind leader_addr pre_stop_lsn (rewind_budget terms)) in
            match rewound with
            | Err e =>
                match rewind_recovery e with
                | RestartInPlace => fail e
                | Rebuild => reprovision_from leader_addr (lineage terms)
                end
            | Ok _ =>
                let& _ := ensure_standby_signal in
                let& _ := configure_standby leader_addr in
                let& _ := start in
                let& in_recovery_now := is_in_recovery in
                let& _ := check in_recovery_now Postgres in
                let& _ := attempt drop_inactive_replica_slots in
                ret tt
            end
        end
  end.
End Node.
