(* ===== verification/StandbyLogic.v ===== *)
(** * Reasoning about the supervisor's operations

    [spec ok h s m Q]: started at history [h] with the handle [s], the operation
    issues only requests [ok] allows, whatever is answered, and ends in [Q].
    [asks_only P m]: it issues only requests in [P] and leaves the handle alone. *)

From S2P Require Import Prelude Effects Text Net Core PgFiles Standby.
From S2P Require DurableWrite.

Abbreviation hist := (list (@event Req Answer)).
Abbreviation ev q r := (answered (R := Answer) q r).
Abbreviation saw := (saw (R := Answer)).

(** ** Later histories: what was seen stays seen *)
Definition after (h h' : hist) : Prop := ∃ t, h' = h ++ t.
Lemma after_refl h : after h h.
Proof. exists []. by rewrite app_nil_r. Qed.
Lemma after_trans h1 h2 h3 : after h1 h2 → after h2 h3 → after h1 h3.
Proof. intros (t1 & ->) (t2 & ->). exists (t1 ++ t2). by rewrite app_assoc. Qed.
Lemma after_snoc h e : after h (h ++ [e]).
Proof. by exists [e]. Qed.
Lemma after_saw h h' q P : after h h' → saw h q P → saw h' q P.
Proof. intros (t & ->). apply saw_app_l. Qed.

(** ... grown by requests in [P] alone. *)
Definition grew (P : Req → bool) (h h' : hist) : Prop :=
  ∃ t, h' = h ++ t ∧ Forall (λ e, P (projT1 e) = true) t.
Lemma grew_refl P h : grew P h h.
Proof. exists []. by rewrite app_nil_r. Qed.
Lemma grew_trans P h1 h2 h3 : grew P h1 h2 → grew P h2 h3 → grew P h1 h3.
Proof.
  intros (t1 & -> & F1) (t2 & -> & F2). exists (t1 ++ t2). rewrite app_assoc, Forall_app. by split.
Qed.
Lemma grew_snoc P h q r : P q = true → grew P h (h ++ [ev q r]).
Proof. intros H. exists [ev q r]. by repeat constructor. Qed.
Lemma grew_after P h h' : grew P h h' → after h h'.
Proof. intros (t & -> & _). by exists t. Qed.

(** ** Triples *)
Section Triples.
Context (ok : hist → Req → Prop).

Definition spec {A} (h : hist) (s : Sup) (m : M A) (Q : hist → Sup → result Exit A → Prop) : Prop :=
  safe any_answer ok h (m s) (λ h' x, Q h' x.1 x.2).

Lemma spec_post {A} h s (m : M A) (Q Q' : hist → Sup → result Exit A → Prop) :
  spec h s m Q → (∀ h' s' r, Q h' s' r → Q' h' s' r) → spec h s m Q'.
Proof. intros Hm HQ. eapply safe_post; [exact Hm|]. intros h' x. apply HQ. Qed.
Lemma spec_then {A B} h s (m : M A) (f : A → M B) Q :
  spec h s m (λ h' s' r, match r with Ok a => spec h' s' (f a) Q | Err e => Q h' s' (Err e) end) →
  spec h s (then_ m f) Q.
Proof. intros H. apply safe_bind. eapply safe_post; [exact H|]. by intros h' [s' [a|e]]. Qed.
Lemma spec_tried {A} h s (m : M A) Q :
  spec h s m (λ h' s' r, Q h' s' (match r with Ok a => Ok (Ok a) | Err (Fail e) => Ok (Err e) | Err e => Err e end)) →
  spec h s (attempt m) Q.
Proof. intros H. apply safe_bind. eapply safe_post; [exact H|]. by intros h' [s' [a|[]]]. Qed.
Lemma spec_budget {A} h s e (m : M A) Q :
  spec h s m (λ h' s' r, Q h' s' (match r with Err Dropped => Err (Fail e) | x => x end)) →
  spec h s (within_budget e m) Q.
Proof. intros H. apply safe_bind. eapply safe_post; [exact H|]. by intros h' [s' [a|[]]]. Qed.
Lemma spec_await {A} h s q (f : AsyncAnswer q → M A) (Q : hist → Sup → result Exit A → Prop) :
  ok h (Async q) → Q (h ++ [ev (Async q) None]) s (Err Dropped) →
  (∀ r, spec (h ++ [ev (Async q) (Some r)]) s (f r) Q) → spec h s (then_ (await q) f) Q.
Proof. intros Hq Hd Hf. split; [done|]. intros [r|] _; [apply Hf|exact Hd]. Qed.
Lemma spec_read {A} h s q (f : SyncAnswer q → M A) (Q : hist → Sup → result Exit A → Prop) :
  ok h (Sync q) → (∀ r, spec (h ++ [ev (Sync q) r]) s (f r) Q) → spec h s (then_ (read q) f) Q.
Proof. intros Hq Hf. split; [done|]. intros r _. apply Hf. Qed.

Lemma spec_get {A} h s (f : Sup → M A) (Q : hist → Sup → result Exit A → Prop) :
  spec h s (f s) Q → spec h s (then_ get f) Q.
Proof. done. Qed.
Lemma spec_put {A} h s s1 (f : () → M A) (Q : hist → Sup → result Exit A → Prop) :
  spec h s1 (f tt) Q → spec h s (then_ (put s1) f) Q.
Proof. done. Qed.
Lemma spec_pure {A B} h s (a : A) (f : A → M B) (Q : hist → Sup → result Exit B → Prop) :
  spec h s (f a) Q → spec h s (then_ (ret a) f) Q.
Proof. done. Qed.
Lemma spec_and {A} h s (m : M A) (Q1 Q2 : hist → Sup → result Exit A → Prop) :
  spec h s m Q1 → spec h s m Q2 → spec h s m (λ h' s' r, Q1 h' s' r ∧ Q2 h' s' r).
Proof.
  unfold spec, M in *. generalize (m s). intros p. revert h.
  induction p as [a|e k IH]; intros h; cbn; [done|]. intros [Hk1 H1] [_ H2]. split; [done|].
  intros r Hr. apply IH; [by apply H1|by apply H2].
Qed.
End Triples.

(** ** Programs that ask only so much *)
Definition asks_only (P : Req → bool) {A} (m : M A) : Prop :=
  ∀ (ok : hist → Req → Prop) h s, (∀ h' q, P q = true → ok h' q) →
  spec ok h s m (λ h' s' _, grew P h h' ∧ s' = s).

Section Asks.
Context (P : Req → bool).

Lemma asks_ret {A} (a : A) : asks_only P (ret a).
Proof. intros ok h s _. split; [apply grew_refl|done]. Qed.
Lemma asks_leave {A} e : asks_only P (@leave A e).
Proof. intros ok h s _. split; [apply grew_refl|done]. Qed.
Lemma asks_read q : P (Sync q) = true → asks_only P (read q).
Proof. intros Hq ok h s Hok. split; [by apply Hok|]. intros r _. split; [by apply grew_snoc|done]. Qed.
Lemma asks_await q : P (Async q) = true → asks_only P (await q).
Proof. intros Hq ok h s Hok. split; [by apply Hok|]. intros r _. split; [by apply grew_snoc|done]. Qed.
Lemma asks_then {A B} (m : M A) (f : A → M B) :
  asks_only P m → (∀ a, asks_only P (f a)) → asks_only P (then_ m f).
Proof.
  intros Hm Hf ok h s Hok. apply spec_then. eapply spec_post; [by apply Hm|]. intros h' s' [a|e] [Hi ->]; [|done].
  eapply spec_post; [by apply Hf|]. intros h2 s2 r [Hi2 ->]. split; [by eapply grew_trans|done].
Qed.
Lemma asks_attempt {A} (m : M A) : asks_only P m → asks_only P (attempt m).
Proof. intros Hm ok h s Hok. apply spec_tried. by apply Hm. Qed.
Lemma asks_budget {A} e (m : M A) : asks_only P m → asks_only P (within_budget e m).
Proof. intros Hm ok h s Hok. apply spec_budget. by apply Hm. Qed.
End Asks.
Lemma asks_weaken {A} (P P' : Req → bool) (m : M A) :
  (∀ q, P q = true → P' q = true) → asks_only P m → asks_only P' m.
Proof.
  intros HP Hm ok h s Hok. eapply spec_post; [apply Hm; auto|]. intros h' s' _ [(t & -> & F) ->]. split; [|done].
  exists t. split; [done|]. eapply Forall_impl; [exact F|]. intros e. apply HP.
Qed.

(** A prefix that asks only so much. *)
Lemma spec_asks {A B} (ok : hist → Req → Prop) P h s (m : M A) (f : A → M B) (Q : hist → Sup → result Exit B → Prop) :
  asks_only P m → (∀ h' q, P q = true → ok h' q) →
  (∀ h' e, grew P h h' → Q h' s (Err e)) →
  (∀ h' a, grew P h h' → spec ok h' s (f a) Q) → spec ok h s (then_ m f) Q.
Proof.
  intros Hm Hok He Hf. apply spec_then. eapply spec_post; [by apply Hm|].
  intros h' s' [a|e] [Hi ->]; [by apply Hf|by apply He].
Qed.

Create HintDb standby.
#[export] Hint Resolve asks_ret asks_leave : standby.
#[export] Hint Extern 1 (asks_only _ (await _)) => (by apply asks_await) : standby.
#[export] Hint Extern 1 (asks_only _ (read _)) => (by apply asks_read) : standby.
Ltac look :=
  repeat (intros;
    first
      [ solve [auto with standby]
      | lazymatch goal with
        | |- asks_only _ (then_ _ _) => apply asks_then
        | |- asks_only _ (attempt _) => apply asks_attempt
        | |- asks_only _ (within_budget _ _) => apply asks_budget
        | |- asks_only _ (fail _) => apply asks_leave
        | |- asks_only _ (check ?b _) => unfold check; destruct b
        | |- asks_only _ (from_result _ ?r) => unfold from_result; destruct r
        | |- asks_only _ (or_fail _ ?r) => unfold or_fail; destruct r
        | |- asks_only _ (if ?b then _ else _) => destruct b
        | |- asks_only _ (match ?x with _ => _ end) => destruct x
        end ]).

(** ** Requests that leave alone what runs and what [standby.signal] says *)
Definition quiet (q : Req) : bool :=
  match q with
  | Sync SpawnPostgres | Sync TryWait | Sync (SpawnRewind _ _) => false
  | Async (RunPgCtl Stop) | Async KillChild | Async OpenSignal | Async SyncSignal | Async SyncDataDir
  | Async (RemoveEntry _ _) | Async (PgBasebackup _) => false
  | _ => true
  end.
Abbreviation looks := (asks_only quiet).

Section Looks.
Context (cfg : SupervisorConfig).
Lemma looks_on_file {A} f (p : @prog DurableWrite.Req DurableWrite.Answer (result () A)) : looks (on_file f p).
Proof. induction p as [[a|e]|q k IH]; cbn [on_file]; look. Qed.
#[local] Hint Resolve looks_on_file : standby.
Lemma looks_write f b : looks (write_file_durably f b).
Proof. unfold write_file_durably. look. Qed.
Lemma looks_sql q : looks (execute_sql q).
Proof. unfold execute_sql. look. Qed.
#[local] Hint Resolve looks_write looks_sql : standby.
Lemma looks_recovery : looks is_in_recovery.
Proof. unfold is_in_recovery. look. Qed.
Lemma looks_configure addr : looks (configure_standby cfg addr).
Proof. unfold configure_standby, read_or_default. look. Qed.
Lemma looks_would_change addr : looks (standby_config_would_change cfg addr).
Proof. unfold standby_config_would_change, read_or_default. look. Qed.
Lemma looks_configure_postgresql : looks (configure_postgresql cfg).
Proof. unfold configure_postgresql. look. Qed.
Lemma looks_sql_ok q : looks (sql_ok q).
Proof. unfold sql_ok. look. Qed.
Lemma looks_peer a q : looks (query_peer a q).
Proof. unfold query_peer. look. Qed.
#[local] Hint Resolve looks_recovery looks_configure looks_would_change looks_configure_postgresql
  looks_sql_ok looks_peer : standby.
Lemma looks_timeline : looks get_local_timeline.
Proof. unfold get_local_timeline. look. Qed.
Lemma looks_ahead a : looks (local_ahead_of_leader a).
Proof. unfold local_ahead_of_leader, get_remote_lsn. look. Qed.
Lemma looks_continue a : looks (replay_can_continue a).
Proof. unfold replay_can_continue. look. Qed.
Lemma looks_streaming : looks streaming_active.
Proof. unfold streaming_active. look. Qed.
#[local] Hint Resolve looks_timeline looks_ahead looks_continue looks_streaming : standby.
Lemma looks_gap a : looks (classify_streaming_gap a).
Proof. unfold classify_streaming_gap. look. Qed.
Lemma looks_reload : looks reload_config.
Proof. unfold reload_config. look. Qed.
Lemma looks_stale : looks cleanup_stale_postgres.
Proof. unfold cleanup_stale_postgres. look. Qed.
Lemma looks_drop_each l : looks (drop_each l).
Proof. induction l as [|n l IH]; cbn [drop_each]; look; apply IH. Qed.
Lemma looks_sweep : looks drop_inactive_replica_slots.
Proof. unfold drop_inactive_replica_slots. apply asks_then; [look|]. intros a. apply looks_drop_each. Qed.
#[local] Hint Resolve looks_gap looks_reload looks_stale looks_sweep : standby.
End Looks.
#[export] Hint Resolve looks_on_file looks_write looks_sql looks_recovery looks_configure looks_would_change
  looks_configure_postgresql looks_sql_ok looks_peer looks_timeline looks_ahead looks_continue looks_streaming
  looks_gap looks_reload looks_stale looks_sweep : standby.
