(* ===== verification/StandbyProofs.v ===== *)
(** * What a demotion may stop, discard and start

    [demote] stops the server only for a leader it has reached, discards local data
    only past the gates, and starts a postmaster only behind the write fence and,
    once the directory was rewritten, only with [standby.signal] durably back. *)

From S2P Require Import Prelude Effects Text Net Core PgFiles Standby StandbyLogic.
From S2P Require DurableWrite.


(** ** What the history says of the machine *)

(** [up]: a postmaster may be running.  [sig]: how far [standby.signal] is, 3 when
    durable.  [auto]: the content of [postgresql.auto.conf], when known. *)
Record Mon := Mon_ { up : bool; sig : nat; auto : option bytes; staged : option bytes }.
Definition mon_step (m : Mon) (e : @event Req Answer) : Mon :=
  match e with
  | existT (Sync SpawnPostgres) true => Mon_ true (sig m) (auto m) (staged m)
  | existT (Sync TryWait) (Gone _) => Mon_ false (sig m) (auto m) (staged m)
  | existT (Async (RunPgCtl Stop)) (Some (CtlExit true)) => Mon_ false (sig m) (auto m) (staged m)
  | existT (Async KillChild) (Some true) => Mon_ false (sig m) (auto m) (staged m)
  | existT (Async OpenSignal) r =>
      Mon_ (up m) (match r with Some true => 1%nat | _ => 0%nat end) (auto m) (staged m)
  | existT (Async SyncSignal) r =>
      Mon_ (up m) (match r, sig m with Some true, 1%nat => 2%nat | _, _ => 0%nat end) (auto m) (staged m)
  | existT (Async SyncDataDir) r =>
      Mon_ (up m) (match r, sig m with Some true, 2%nat => 3%nat | _, _ => 0%nat end) (auto m) (staged m)
  | existT (Sync (SpawnRewind _ false)) _ | existT (Async (RemoveEntry _ _)) _
  | existT (Async (PgBasebackup _)) _ => Mon_ (up m) 0 None (staged m)
  | existT (Async (ReadFile AutoConf)) r =>
      Mon_ (up m) (sig m)
        (match r with Some (Ok t) => Some t | Some (Err NotFound) => Some [] | _ => auto m end) (staged m)
  | existT (Async (Fs AutoConf DurableWrite.ReadTarget)) (Some (Some t)) =>
      Mon_ (up m) (sig m) (Some t) (staged m)
  | existT (Async (Fs AutoConf (DurableWrite.WriteTmp b))) r =>
      Mon_ (up m) (sig m) (auto m) (match r with Some true => Some b | _ => None end)
  | existT (Async (Fs AutoConf DurableWrite.RenameTmp)) r =>
      Mon_ (up m) (sig m) (match r with Some true => staged m | Some false => auto m | None => None end) (staged m)
  | _ => m
  end.
Definition mon (up0 : bool) (h : hist) : Mon := foldl mon_step (Mon_ up0 3 None None) h.
Lemma mon_snoc up0 h e : mon up0 (h ++ [e]) = mon_step (mon up0 h) e.
Proof. apply foldl_snoc. Qed.

Section Demote.
Context (rounds : nat) (cfg : SupervisorConfig) (leader : SocketAddr) (terms : FollowTerms) (up0 : bool).
Local Notation mon := (mon up0).
Local Notation term := (lineage terms).

(** The leader's address answered, in this demotion, as the cluster's lineage. *)
Definition reached (h : hist) : Prop :=
  saw h (Async (QueryPeer leader LeaderProbe)) (λ r, ∃ o tl l,
    r = Some o ∧ (trim <$> o) ≫= parse_leader_probe = Some (tl, l) ∧
    serves_cluster_lineage term (Some l) = true).
Definition donor (h : hist) : Prop :=
  saw h (Async (QueryPeer leader PeerLineage)) (λ r, ∃ o,
    r = Some o ∧ serves_cluster_lineage term ((trim <$> o) ≫= parse_u64) = true).
Definition started (h : hist) : Prop := saw h (Sync SpawnPostgres) (λ r, r = true).

(** This node's WAL ended at [lsn], read from the server before it was stopped or,
    failing that, at the gate. *)
Definition read_lsn (h : hist) (lsn : Z) : Prop :=
  saw h (Async (Sql ReportableLsn)) (λ r, ∃ t, r = Some (Ok t) ∧ Lsn.parse_lsn_local (trim t) = Some lsn).
Definition planned (h : hist) (plan : RewindPlan) : Prop :=
  ∃ remaining, saw h (Async (WaitRewind remaining)) (λ r, ∃ out,
    r = Some (Finished true out) ∧ parse_rewind_plan out = Some plan).
(** What the rewind discards is within what the cluster allows. *)
Definition gated (h : hist) : Prop :=
  saw h (Sync (SpawnRewind leader true)) (λ r, r = true) ∧
  (planned h NothingToDiscard ∨
   ∃ fork lsn, planned h (Diverged fork) ∧ read_lsn h lsn ∧
     match rewind_budget terms with Unbounded => True | Bytes limit => lsn - fork ≤ limit ∨ lsn ≤ fork end).

Definition ok (h : hist) (q : Req) : Prop :=
  match q with
  | Async (RunPgCtl Stop) => reached h ∨ donor h ∨ started h
  | Sync (SpawnRewind source dry_run) =>
      source = leader ∧ reached h ∧ up (mon h) = false ∧ (dry_run = false → gated h)
  | Async (RemoveEntry _ _) => donor h ∧ up (mon h) = false
  | Async (PgBasebackup source) => source = leader ∧ donor h ∧ up (mon h) = false
  | Sync SpawnPostgres => sig (mon h) = 3%nat ∧ ∃ t, auto (mon h) = Some (with_writes_fenced t)
  | _ => True
  end.

(** ** Quiet requests *)
Lemma quiet_ok h q : quiet q = true → ok h q.
Proof. by destruct q as [[]|[]]; try destruct c. Qed.
Lemma quiet_mon m q r :
  quiet q = true → up (mon_step m (ev q r)) = up m ∧ sig (mon_step m (ev q r)) = sig m.
Proof.
  intros Hq. destruct q as [[]|[]]; try discriminate Hq; try done;
    try (destruct c; try discriminate Hq; done); destruct f; try done.
  cbn in r |- *. destruct q; try done. by destruct r as [[|]|].
Qed.

(** A later history, and the machine as it was. *)
Definition idle (h h' : hist) : Prop := after h h' ∧ up (mon h') = up (mon h) ∧ sig (mon h') = sig (mon h).

Lemma idle_refl h : idle h h.
Proof. split; [apply after_refl|done]. Qed.
Lemma idle_trans h1 h2 h3 : idle h1 h2 → idle h2 h3 → idle h1 h3.
Proof. intros (H1 & E1 & F1) (H2 & E2 & F2). split; [by eapply after_trans|]. split; congruence. Qed.
Lemma idle_snoc h q r : quiet q = true → idle h (h ++ [ev q r]).
Proof. intros Hq. split; [apply after_snoc|]. rewrite mon_snoc. by apply quiet_mon. Qed.

Lemma after_reached h h' : after h h' → reached h → reached h'.
Proof. apply after_saw. Qed.
Lemma after_donor h h' : after h h' → donor h → donor h'.
Proof. apply after_saw. Qed.
Lemma after_gated h h' : after h h' → gated h → gated h'.
Proof.
  intros Ha [Hs Hg]. split; [by eapply after_saw|]. destruct Hg as [(n & Hp)|(f & l & (n & Hp) & Hl & Hb)].
  - left. exists n. by eapply after_saw.
  - right. exists f, l. split; [exists n; by eapply after_saw|]. split; [by eapply after_saw|done].
Qed.

End Demote.

Section Steps.
Context (rounds : nat) (cfg : SupervisorConfig) (leader : SocketAddr) (terms : FollowTerms) (up0 : bool).
Local Notation mon := (mon up0).
Local Notation term := (lineage terms).
Local Notation ok := (ok leader terms up0).
Local Notation looks := (asks_only quiet).
Local Notation spec := (spec ok).
Local Notation idle := (idle up0).
Local Notation reached := (reached leader terms).
Local Notation donor := (donor leader terms).

Lemma grew_idle h h' : grew quiet h h' → idle h h'.
Proof.
  intros (t & -> & F). revert h. induction F as [|[q r] t Hq _ IH]; intros h.
  - rewrite app_nil_r. apply idle_refl.
  - eapply idle_trans; [exact (idle_snoc up0 h q r Hq)|]. change (existT q r :: t) with ([ev q r] ++ t).
    rewrite app_assoc. apply IH.
Qed.
Lemma looks_spec {A} h s (m : M A) : looks m → spec h s m (λ h' s' _, idle h h' ∧ s' = s).
Proof.
  intros Hm. eapply spec_post; [apply Hm; intros; by apply quiet_ok|]. intros h' s' _ [H ->]. by split; [apply grew_idle|].
Qed.
(** A looking prefix; [I] holds again after it. *)
Lemma spec_look {A B} h s (m : M A) (f : A → M B) (Q : hist → Sup → result Exit B → Prop) :
  looks m →
  (∀ h' e, idle h h' → Q h' s (Err e)) →
  (∀ h' a, idle h h' → spec h' s (f a) Q) → spec h s (then_ m f) Q.
Proof.
  intros Hm He Hf. apply spec_then. eapply spec_post; [by apply looks_spec|]. intros h' s' [a|e] [Hi ->]; [by apply Hf|by apply He].
Qed.

(** ** The signal file *)
Lemma signal_spec h s :
  spec h s ensure_standby_signal (λ h' s' r,
    after h h' ∧ s' = s ∧ up (mon h') = up (mon h) ∧ (is_ok r = true → sig (mon h') = 3%nat)).
Proof.
  assert (Hstep : ∀ h1 q r, quiet q = true ∨ q = Async OpenSignal ∨ q = Async SyncSignal ∨ q = Async SyncDataDir →
     after h h1 → up (mon h1) = up (mon h) → after h (h1 ++ [ev q r]) ∧ up (mon (h1 ++ [ev q r])) = up (mon h)).
  { intros h1 q r Hq Ha Hu. split; [eapply after_trans; [exact Ha|apply after_snoc]|].
    rewrite mon_snoc, <-Hu. destruct Hq as [Hq|[->|[->| ->]]]; [by apply quiet_mon|done..]. }
  unfold ensure_standby_signal. apply spec_await; [done| |].
  { destruct (Hstep h (Async OpenSignal) None ltac:(auto) (after_refl h) eq_refl). by split_and!. }
  intros b1. destruct (Hstep h (Async OpenSignal) (Some b1) ltac:(auto) (after_refl h) eq_refl) as [A1 U1].
  destruct b1; [|by split_and!]. apply spec_await; [done| |].
  { destruct (Hstep _ (Async SyncSignal) None ltac:(auto) A1 U1). by split_and!. }
  intros b2. destruct (Hstep _ (Async SyncSignal) (Some b2) ltac:(auto) A1 U1) as [A2 U2].
  destruct b2; [|by split_and!]. apply spec_await; [done| |].
  { destruct (Hstep _ (Async SyncDataDir) None ltac:(auto) A2 U2). by split_and!. }
  intros b3. destruct (Hstep _ (Async SyncDataDir) (Some b3) ltac:(auto) A2 U2) as [A3 U3].
  destruct b3; [|by split_and!]. split_and!; [done..|]. intros _. by rewrite !mon_snoc.
Qed.

(** ** The start-time fence *)
Lemma auto_write h b s :
  spec h s (write_file_durably AutoConf b) (λ h' _ r, is_ok r = true → auto (mon h') = Some b).
Proof.
  unfold write_file_durably, DurableWrite.write_file_durably_in. apply spec_then.
  cbn [bind ask on_file]. apply spec_await; [done..|]. intros r.
  case_bool_decide as Er.
  { subst r. cbn. intros _. by rewrite mon_snoc. }
  cbn [bind try_bind DurableWrite.op ask on_file]. apply spec_await; [done..|]. intros ok1.
  destruct ok1; [|done]. cbn [bind try_bind DurableWrite.op ask on_file DurableWrite.try_op].
  apply spec_await; [done..|]. intros ok2.
  destruct ok2; [|done]. cbn [bind try_bind DurableWrite.op ask on_file DurableWrite.try_op].
  apply spec_await; [done..|]. intros ok3.
  destruct ok3; [|done]. cbn [bind try_bind DurableWrite.op ask on_file DurableWrite.try_op].
  apply spec_await; [done..|]. intros ok4.
  destruct ok4; [|done]. cbn [bind try_bind DurableWrite.op ask on_file DurableWrite.try_op].
  apply spec_await; [done..|]. intros ok5.
  destruct ok5; [|done]. cbn. intros _. by rewrite !mon_snoc.
Qed.
Lemma looks_fence : looks fence_writes_at_start.
Proof. unfold fence_writes_at_start. look. Qed.
Lemma fence_spec h s :
  spec h s fence_writes_at_start (λ h' s' r,
    (idle h h' ∧ s' = s) ∧ (is_ok r = true → ∃ t, auto (mon h') = Some (with_writes_fenced t))).
Proof.
  apply spec_and; [apply looks_spec, looks_fence|].
  unfold fence_writes_at_start. apply spec_await; [done..|]. intros r. apply spec_then.
  assert (Hrest : ∀ t h1, auto (mon h1) = Some t →
    spec h1 s (if bool_decide (with_writes_fenced t = t) then ret tt else write_file_durably AutoConf (with_writes_fenced t))
      (λ h' _ r, is_ok r = true → ∃ t, auto (mon h') = Some (with_writes_fenced t))).
  { intros t h1 Ht. destruct (bool_decide _) eqn:E.
    - apply bool_decide_eq_true in E. cbn. intros _. exists t. by rewrite Ht, E.
    - eapply spec_post; [apply auto_write|]. intros h' s' r' H Hok. exists t. by apply H. }
  destruct r as [t|[]]; [refine (Hrest t _ _)|refine (Hrest [] _ _)|done]; by rewrite mon_snoc.
Qed.

(** ** The postmaster *)
(** The handle never claims less than what runs. *)
Definition W (h : hist) (s : Sup) : Prop := child s = false → up (mon h) = false.
Lemma idle_W h h' s : idle h h' → W h s → W h' s.
Proof. intros (_ & Hu & _) Hw Hc. rewrite Hu. by apply Hw. Qed.

Definition files (h h' : hist) : Prop := after h h' ∧ sig (mon h') = sig (mon h).
Lemma files_idle h1 h2 h3 : idle h1 h2 → files h2 h3 → files h1 h3.
Proof. intros (H1 & _ & E1) (H2 & E2). split; [by eapply after_trans|congruence]. Qed.
Lemma files_trans h1 h2 h3 : files h1 h2 → files h2 h3 → files h1 h3.
Proof. intros (H1 & E1) (H2 & E2). split; [by eapply after_trans|congruence]. Qed.
Lemma idle_files h h' : idle h h' → files h h'.
Proof. by intros (? & _ & ?). Qed.
Lemma files_refl h : files h h.
Proof. split; [apply after_refl|done]. Qed.

Lemma state_spec h s :
  W h s →
  spec h s postmaster_state (λ h' s' r, files h h' ∧ W h' s' ∧ (child s = false → child s' = false) ∧
    (∀ code, r = Ok (Exited code) → child s' = false)).
Proof.
  intros Hw. unfold postmaster_state. apply spec_then. cbn.
  destruct (child s) eqn:Ec; cbn.
  - split; [done|]. intros st _.
    assert (Hf : files h (h ++ [ev (Sync TryWait) st])).
    { split; [apply after_snoc|]. rewrite mon_snoc. by destruct st. }
    destruct st; cbn; split_and!; try done; intros Hc; try done.
    + by rewrite Ec in Hc.
    + by rewrite mon_snoc.
    + by rewrite Ec in Hc.
  - split_and!; [apply files_refl|done|done|]. by destruct (exited s).
Qed.

Lemma refused_spec h s code :
  spec h s (exit_refused code) (λ h' s' r, idle h h' ∧ child s' = child s).
Proof.
  unfold exit_refused. apply spec_get, spec_put. destruct (relaying s).
  - apply spec_await; [done| |].
    + split; [by apply idle_snoc|done].
    + intros f. split; [by apply idle_snoc|done].
  - apply spec_pure. split; [apply idle_refl|done].
Qed.

(** What lets this demotion stop the server. *)
Definition may_stop (h : hist) : Prop := reached h ∨ donor h ∨ started h.
Lemma after_may_stop h h' : after h h' → may_stop h → may_stop h'.
Proof. intros Ha [H|[H|H]]; [left|right; left|right; right]; by eapply after_saw. Qed.

Lemma files_snoc h q r :
  sig (mon_step (mon h) (ev q r)) = sig (mon h) → files h (h ++ [ev q r]).
Proof. intros E. split; [apply after_snoc|]. by rewrite mon_snoc. Qed.

Lemma stop_spec h s :
  W h s → may_stop h →
  spec h s stop (λ h' s' r, files h h' ∧ W h' s' ∧
    (is_ok r = true → child s' = false ∧ up (mon h') = false) ∧ (child s = false → child s' = false)).
Proof.
  intros Hw Hm. unfold stop. apply spec_look; [unfold invalidate_sql_client; look| |].
  { intros h' e Hi. split_and!; [by apply idle_files|by eapply idle_W|done|done]. }
  intros h1 [] Hi. apply spec_get, spec_put. pose proof (idle_W _ _ _ Hi Hw) as Hw1.
  destruct (child s) eqn:Ec; cbn [negb].
  2: { split_and!; [by apply idle_files|by intros _; apply Hw1|by intros _; split; [|apply Hw1]|done]. }
  apply spec_await.
  { apply (after_may_stop h); [apply Hi|done]. }
  { split_and!; [|done|done|done]. eapply files_idle; [exact Hi|]. by apply files_snoc. }
  intros c. assert (Hf : ∀ r, files h (h1 ++ [ev (Async (RunPgCtl Stop)) r])).
  { intros r. eapply files_idle; [exact Hi|]. apply files_snoc. by destruct r as [[[]| |]|]. }
  destruct c as [[]| |]; try (split_and!; [apply Hf|done|done|done]).
  - apply spec_put. split; [done|]. intros r _.
    assert (Hup : up (mon ((h1 ++ [ev (Async (RunPgCtl Stop)) (Some (CtlExit true))]) ++ [ev (Async ReapChild) r])) = false)
      by (by rewrite !mon_snoc).
    assert (Hf' : files h ((h1 ++ [ev (Async (RunPgCtl Stop)) (Some (CtlExit true))]) ++ [ev (Async ReapChild) r])).
    { eapply files_trans; [apply Hf|]. by apply files_snoc. }
    destruct r as [[]|]; split_and!; try done; intros _; (exact Hup || by split).
  - apply spec_read; [done|]. intros st.
    assert (Hf' : files h ((h1 ++ [ev (Async (RunPgCtl Stop)) (Some (CtlExit false))]) ++ [ev (Sync TryWait) st])).
    { eapply files_trans; [apply Hf|]. apply files_snoc. by destruct st. }
    destruct st; [split_and!; done| |split_and!; done].
    assert (Hup : up (mon ((h1 ++ [ev (Async (RunPgCtl Stop)) (Some (CtlExit false))]) ++ [ev (Sync TryWait) (Gone code)])) = false)
      by (by rewrite !mon_snoc).
    split_and!; try done; intros _; (exact Hup || by split).
Qed.

(** A start under way: its postmaster, its exit, the verdict. *)
Lemma ready_spec n b d i h s :
  W h s →
  spec h s (ready_loop n b d i) (λ h' s' r, files h h' ∧ W h' s' ∧
    (r = Err (Fail PostgresRefusedToOpen) → child s' = false)).
Proof.
  revert h s i. induction n as [|n IH]; intros h s i Hw; cbn [ready_loop].
  { by split_and!; [apply files_refl| |]. }
  apply spec_await; [done| |].
  { assert (Hi : idle h (h ++ [ev (Async PgIsReady) None])) by (by apply idle_snoc).
    split_and!; [by apply idle_files|by eapply idle_W|done]. }
  intros r. assert (Hi : idle h (h ++ [ev (Async PgIsReady) (Some r)])) by (by apply idle_snoc).
  set (h1 := h ++ _) in *. pose proof (idle_W _ _ _ Hi Hw) as Hw1.
  destruct r as [code|e]; [|by split_and!; [apply idle_files| |]]. cbn [from_result].
  apply spec_pure. case_bool_decide; [by split_and!; [apply idle_files| |]|].
  apply spec_then. apply spec_tried. eapply spec_post; [by apply state_spec|].
  intros h2 s2 st (Hf2 & Hw2 & _ & Hx). pose proof (files_idle _ _ _ Hi Hf2) as Hf.
  assert (Hrest : spec h2 s2
    (let deadline := if bool_decide (code = Some 1) then d else b in
     let& now := read Now in
     if deadline <=? now then fail PostgresNotReady
     else let& _ := await (Sleep (Z.min i (deadline - now))) in ready_loop n b d (Z.min (i * 2) secs))
    (λ h' s' r, files h h' ∧ W h' s' ∧ (r = Err (Fail PostgresRefusedToOpen) → child s' = false))).
  { cbv zeta. apply spec_read; [done|]. intros now.
    assert (Hi3 : idle h2 (h2 ++ [ev (Sync Now) now])) by (by apply idle_snoc). set (h3 := h2 ++ _) in *.
    pose proof (idle_W _ _ _ Hi3 Hw2) as Hw3. pose proof (files_trans _ _ _ Hf (idle_files _ _ Hi3)) as Hf3.
    destruct (_ <=? now); [by split_and!|]. apply spec_await; [done| |].
    - match goal with |- context [h3 ++ [?e]] => assert (Hi4 : idle h3 (h3 ++ [e])) by (by apply idle_snoc) end.
      split_and!; [eapply files_trans; [exact Hf3|by apply idle_files]|by eapply idle_W|done].
    - intros []. match goal with |- context [h3 ++ [?e]] => assert (Hi4 : idle h3 (h3 ++ [e])) by (by apply idle_snoc) end.
      eapply spec_post; [apply IH; by eapply idle_W|]. intros h5 s5 r5 (Hf5 & Hw5 & Hr5).
      split_and!; [|done|done]. eapply files_trans; [exact Hf3|]. by eapply files_idle. }
  destruct st as [[|code'|]|[]]; try exact Hrest; try (by split_and!).
  specialize (Hx code' eq_refl).
  apply spec_then. eapply spec_post; [apply refused_spec|]. intros h3 s3 v [Hi3 Hc3].
  assert (Hw3 : W h3 s3) by (intros _; destruct Hi3 as (_ & Hu & _); rewrite Hu; by apply Hw2).
  assert (Hf3 : files h h3) by (eapply files_trans; [exact Hf|by apply idle_files]).
  destruct v; split_and!; try done; intros _; exact (eq_trans Hc3 Hx).
Qed.

(** A start that gave up on the directory leaves nothing running. *)
Lemma verdict_spec h s e (st : result Error PostmasterState) :
  W h s → (e = PostgresRefusedToOpen → child s = false) → (∀ code, st = Ok (Exited code) → child s = false) →
  spec h s (match e, st with
            | PostgresRefusedToOpen, _ => ret true
            | _, Ok (Exited code) => exit_refused code
            | _, _ => ret false
            end : M bool)
    (λ h' s' r, idle h h' ∧ child s' = child s ∧
       (r = Ok true → child s = false) ∧ (r = Ok false → e ≠ PostgresRefusedToOpen)).
Proof.
  intros Hw He Hx.
  assert (Href : ∀ code, st = Ok (Exited code) → e ≠ PostgresRefusedToOpen → spec h s (exit_refused code)
    (λ h' s' r, idle h h' ∧ child s' = child s ∧ (r = Ok true → child s = false) ∧ (r = Ok false → e ≠ PostgresRefusedToOpen))).
  { intros code E Hne. eapply spec_post; [apply refused_spec|]. intros h' s' r [Hi Hc].
    split_and!; [done|done|intros _; by eapply Hx|done]. }
  destruct e; try (destruct st as [[|code|]|]; try (by apply Href); by split_and!; [apply idle_refl| | |]).
  split_and!; [apply idle_refl|done|intros _; by apply He|done].
Qed.

Lemma abandon_spec h s e :
  W h s → started h → (e = PostgresRefusedToOpen → child s = false) →
  spec h s (abandon_start e) (λ h' s' r, after h h' ∧
    is_ok r = false ∧ (r = Err (Fail PostgresRefusedToOpen) → W h' s')).
Proof.
  intros Hw Hst He. unfold abandon_start. apply spec_then, spec_tried.
  eapply spec_post; [by apply state_spec|]. intros h1 s1 st (Hf1 & Hw1 & Hc1 & Hx1). destruct Hf1 as [A1 _].
  assert (Hrest : ∀ st' : result Error PostmasterState, (∀ code, st' = Ok (Exited code) → child s1 = false) → spec h1 s1
    (let& refused := match e, st' with
       | PostgresRefusedToOpen, _ => ret true | _, Ok (Exited code) => exit_refused code | _, _ => ret false end in
     let& stopped := attempt stop in
     let& _ := match stopped with
       | Ok _ => ret tt
       | Err _ => let& s := get in
           if child s then let& _ := put (Sup_ false (exited s) (relaying s)) in let& _ := await KillChild in ret tt
           else ret tt end in
     fail (A := ()) (if refused : bool then PostgresRefusedToOpen else e))
    (λ h' s' r, after h h' ∧ is_ok r = false ∧ (r = Err (Fail PostgresRefusedToOpen) → W h' s'))).
  2: { destruct st as [st|[e'| | |]]; [|refine (Hrest (Err e') _); done|by split_and!..].
       refine (Hrest (Ok st) _). intros code [= ->]. by eapply Hx1. }
  intros st' Hx. apply spec_then. eapply spec_post; [apply verdict_spec; [done|by intros ->; apply Hc1, He|done]|].
  intros h2 s2 [refused|ex] (Hi2 & Hc2 & Ht & Hfa).
  { assert (Hw2 : W h2 s2) by (intros Hc; destruct Hi2 as (_ & Hu & _); rewrite Hu; apply Hw1; congruence).
    destruct Hi2 as [A2 _]. pose proof (after_trans _ _ _ A1 A2) as A02.
    assert (Hst2 : started h2) by (by eapply after_saw).
    apply spec_then, spec_tried. eapply spec_post; [apply stop_spec; [done|by right; right]|].
    intros h3 s3 stopped ((A3 & _) & Hw3 & _ & Hc3).
    pose proof (after_trans _ _ _ A02 A3) as A03.
    assert (Hend : ∀ h4 s4, after h h4 → (refused = true → W h4 s4) →
      spec h4 s4 (fail (A := ()) (if refused then PostgresRefusedToOpen else e))
        (λ h' s' r, after h h' ∧ is_ok r = false ∧ (r = Err (Fail PostgresRefusedToOpen) → W h' s'))).
    { intros h4 s4 A4 Hr. split_and!; [done|done|]. destruct refused; [intros _; by apply Hr|].
      intros [= E]. by specialize (Hfa eq_refl). }
    assert (Hkill : spec h3 s3
      (let& _ := (let& s := get in
           if child s then let& _ := put (Sup_ false (exited s) (relaying s)) in let& _ := await KillChild in ret tt
           else ret tt) in fail (A := ()) (if refused then PostgresRefusedToOpen else e))
      (λ h' s' r, after h h' ∧ is_ok r = false ∧ (r = Err (Fail PostgresRefusedToOpen) → W h' s'))).
    { apply spec_then, spec_get. destruct (child s3) eqn:E3; [|by apply Hend].
      apply spec_put, spec_await; [done| |].
      - split_and!; [eapply after_trans; [exact A03|apply after_snoc]|done|done].
      - intros k. apply Hend; [eapply after_trans; [exact A03|apply after_snoc]|].
        intros ->. specialize (Ht eq_refl). discriminate Hc3. congruence. }
    destruct stopped as [[]|[]]; [apply spec_pure, Hend; done|exact Hkill|by split_and!..]. }
  destruct Hi2 as (A2 & Hu & _). split_and!; [exact (after_trans _ _ _ A1 A2)|done|].
  intros _ Hc. rewrite Hu. apply Hw1. congruence.
Qed.

(** A spawn is behind the fence, on a directory whose signal is in place. *)
Definition start_ends (h : hist) (h' : hist) (s' : Sup) (r : result Exit ()) : Prop :=
  after h h' ∧ (r = Err (Fail PostgresRefusedToOpen) → W h' s').

Lemma launch_spec h s :
  W h s → sig (mon h) = 3%nat → (∃ t, auto (mon h) = Some (with_writes_fenced t)) →
  spec h s (let& _ := read SetPermissions in
            let& spawned := read SpawnPostgres in
            let& _ := check spawned Postgres in
            let& _ := put (Sup_ true None true) in
            let& ready := attempt (wait_for_ready rounds 30) in
            match ready with
            | Err e => abandon_start e
            | Ok _ => let& _ := attempt is_in_recovery in ret tt
            end) (start_ends h).
Proof.
  intros Hw Hs Ha. apply spec_read; [done|]. intros perms. set (h1 := h ++ _).
  assert (E1 : mon h1 = mon h) by apply mon_snoc.
  apply spec_read; [split; by rewrite E1|]. intros spawned. set (h2 := h1 ++ _).
  assert (A2 : after h h2) by (eapply after_trans; apply after_snoc).
  destruct spawned; cbn [check].
  2: { split; [done|intros [=]]. }
  apply spec_pure, spec_put, spec_then, spec_tried.
  assert (Hw2 : W h2 (Sup_ true None true)) by done.
  unfold wait_for_ready. apply spec_read; [done|]. intros now. set (h3 := h2 ++ _).
  assert (A3 : after h h3) by (exact (after_trans _ _ _ A2 (after_snoc _ _))).
  assert (Hst : started h3).
  { apply saw_app_l. unfold h2. by apply saw_here. }
  eapply spec_post; [by apply ready_spec|]. intros h4 s4 r ((A4 & _) & Hw4 & Hr).
  pose proof (after_trans _ _ _ A3 A4) as A04.
  destruct r as [[]|[e| | |]]; try (by split).
  - apply spec_look; [look| |].
    + intros h5 e [A5 Hu]. split; [exact (after_trans _ _ _ A04 A5)|]. intros _ Hc. rewrite (proj1 Hu). by apply Hw4.
    + intros h5 a [A5 Hu]. split; [exact (after_trans _ _ _ A04 A5)|done].
  - eapply spec_post; [apply abandon_spec; [done|exact (after_saw _ _ _ _ A4 Hst)|]|].
    + intros ->. by apply Hr.
    + intros h5 s5 r (A5 & _ & HW). split; [exact (after_trans _ _ _ A04 A5)|done].
Qed.

Lemma start_spec h s :
  W h s → sig (mon h) = 3%nat → spec h s (start rounds cfg) (start_ends h).
Proof.
  intros Hw Hs. unfold start.
  assert (Hend : ∀ h' s' e, idle h h' → child s' = child s → start_ends h h' s' (Err e)).
  { intros h' s' e (A & Hu & _) Hc. split; [done|]. intros _ Hc'. rewrite Hu. apply Hw. congruence. }
  apply spec_look; [unfold invalidate_sql_client; look|by intros; apply Hend|]. intros h1 [] I1.
  apply spec_get, spec_put.
  apply spec_look; [apply looks_stale|intros h' e I2; apply Hend; [by eapply idle_trans|done]|]. intros h2 [] I2.
  pose proof (idle_trans _ _ _ _ I1 I2) as I02.
  apply spec_read; [done|]. intros conf. pose proof (idle_snoc up0 h2 (Sync (Exists ConfMarker)) conf eq_refl) as I3.
  pose proof (idle_trans _ _ _ _ I02 I3) as I03. set (h3 := h2 ++ _) in *.
  destruct conf; cbn [check]; [|by apply Hend]. apply spec_pure.
  apply spec_look; [apply looks_configure_postgresql|intros h' e I4; apply Hend; [by eapply idle_trans|done]|].
  intros h4 [] I4. pose proof (idle_trans _ _ _ _ I03 I4) as I04.
  apply spec_then. eapply spec_post; [apply fence_spec|]. intros h5 s5 r [[I5 ->] Ha].
  pose proof (idle_trans _ _ _ _ I04 I5) as I05.
  destruct r as [[]|e]; [|by apply Hend]. specialize (Ha eq_refl).
  eapply spec_post; [apply launch_spec; [|destruct I05 as (_ & _ & E); by rewrite E|done]|].
  - intros Hc. destruct I05 as (_ & Hu & _). rewrite Hu. by apply Hw.
  - intros h6 s6 r (A6 & HW). split; [|done]. destruct I05 as [A5 _]. exact (after_trans _ _ _ A5 A6).
Qed.

(** ** Discarding *)
Definition unchanged (h h' : hist) : Prop := after h h' ∧ up (mon h') = up (mon h).
Lemma unchanged_idle h h' : idle h h' → unchanged h h'.
Proof. by intros (? & ? & _). Qed.
Lemma unchanged_refl h : unchanged h h.
Proof. split; [apply after_refl|done]. Qed.
Lemma unchanged_trans h1 h2 h3 : unchanged h1 h2 → unchanged h2 h3 → unchanged h1 h3.
Proof. intros [A1 E1] [A2 E2]. split; [exact (after_trans _ _ _ A1 A2)|congruence]. Qed.
Lemma unchanged_snoc h q r :
  up (mon_step (mon h) (ev q r)) = up (mon h) → unchanged h (h ++ [ev q r]).
Proof. intros E. split; [apply after_snoc|]. by rewrite mon_snoc. Qed.

Lemma entries_spec entries h s :
  donor h → up (mon h) = false →
  spec h s (remove_entries entries) (λ h' s' r, unchanged h h' ∧ s' = s).
Proof.
  revert h. induction entries as [|[name [d|e]] entries IH]; intros h Hd Hu; cbn [remove_entries].
  - by split; [apply unchanged_refl|].
  - apply spec_pure. apply spec_await; [by split| |].
    + split; [by apply unchanged_snoc|done].
    + intros b. assert (U : unchanged h (h ++ [ev (Async (RemoveEntry name d)) (Some b)])) by (by apply unchanged_snoc).
      destruct b; cbn [check]; [|done]. apply spec_pure.
      eapply spec_post; [apply IH; [eapply after_donor; [apply U|done]|destruct U as [_ U]; by rewrite U]|].
      intros h' s' r [U' ->]. split; [exact (unchanged_trans _ _ _ U U')|done].
  - by split; [apply unchanged_refl|].
Qed.
Lemma clear_spec h s :
  donor h → up (mon h) = false → spec h s clear_dir_contents (λ h' s' r, unchanged h h' ∧ s' = s).
Proof.
  intros Hd Hu. unfold clear_dir_contents. apply spec_read; [done|]. intros b.
  pose proof (idle_snoc up0 h (Sync (Exists DataDir)) b eq_refl) as I1. set (h1 := h ++ _) in *.
  destruct b; cbn [negb]; [|by split; [apply unchanged_idle|]].
  apply spec_await; [done| |].
  { split; [|done]. apply unchanged_idle. eapply idle_trans; [exact I1|by apply idle_snoc]. }
  intros listing. pose proof (idle_snoc up0 h1 (Async ListDir) (Some listing) eq_refl) as I2. set (h2 := h1 ++ _) in *.
  pose proof (idle_trans _ _ _ _ I1 I2) as I02.
  destruct listing as [[l ends]|]; cbn [from_result]; [|by split; [apply unchanged_idle|]]. apply spec_pure.
  apply spec_then. eapply spec_post; [apply entries_spec|].
  { eapply after_donor; [apply I02|done]. }
  { destruct I02 as (_ & E & _). by rewrite E. }
  intros h3 s3 r [U ->]. pose proof (unchanged_trans _ _ _ (unchanged_idle _ _ I02) U).
  by destruct r as [[]|]; [destruct ends|].
Qed.

Lemma peer_spec h s :
  spec h s (peer_lineage leader) (λ h' s' r, idle h h' ∧ s' = s ∧
    ∀ l, r = Ok l → serves_cluster_lineage term l = true → donor h').
Proof.
  unfold peer_lineage, query_peer. apply spec_then. apply spec_await; [done| |].
  { split_and!; [by apply idle_snoc|done|done]. }
  intros o. split_and!; [by apply idle_snoc|done|]. intros l [= <-] Hs.
  apply saw_here. by exists o.
Qed.

(** A rebuild: from the cluster's lineage, over a stopped server. *)
Lemma reprovision_spec h s :
  W h s → spec h s (reprovision_from rounds cfg leader term) (λ _ _ _, True).
Proof.
  intros Hw. unfold reprovision_from. apply spec_then. eapply spec_post; [apply peer_spec|].
  intros h1 s1 [l|e] (I1 & -> & Hd); [|done]. destruct (serves_cluster_lineage term l) eqn:El; cbn [check]; [|done].
  apply spec_pure. specialize (Hd l eq_refl El). pose proof (idle_W _ _ _ I1 Hw) as Hw1.
  apply spec_then. eapply spec_post; [apply stop_spec; [done|by right; left]|].
  intros h2 s2 [[]|e] ((A2 & _) & _ & Hs & _); [|done]. destruct (Hs eq_refl) as [Hc Hu].
  pose proof (after_donor _ _ _ _ A2 Hd) as Hd2.
  apply spec_then. eapply spec_post; [by apply clear_spec|].
  intros h3 s3 [[]|e] [[A3 U3] ->]; [|done]. pose proof (after_donor _ _ _ _ A3 Hd2) as Hd3. rewrite Hu in U3.
  apply spec_then, spec_tried. unfold run_pg_basebackup. apply spec_await; [by split_and!|done|].
  intros st. set (h4 := h3 ++ _).
  assert (U4 : unchanged h3 h4) by (by apply unchanged_snoc). destruct U4 as [A4 U4]. rewrite U3 in U4.
  pose proof (after_donor _ _ _ _ A4 Hd3) as Hd4.
  assert (Hfail : ∀ e, spec h4 s2 (let& _ := attempt clear_dir_contents in fail (A := ()) e) (λ _ _ _, True)).
  { intros e. apply spec_then, spec_tried. eapply spec_post; [by apply clear_spec|]. by intros h5 s5 [[]|[]] _. }
  destruct st as [[]| |]; try apply Hfail.
  apply spec_then. eapply spec_post; [apply signal_spec|].
  intros h5 s5 [[]|e] (A5 & -> & U5 & S5); [|done]. specialize (S5 eq_refl).
  apply spec_look; [apply looks_configure|done|]. intros h6 b I6.
  eapply spec_post; [apply start_spec|done].
  - intros _. destruct I6 as (_ & E & _). by rewrite E, U5, U4.
  - destruct I6 as (_ & _ & E). by rewrite E.
Qed.

(** ** Rewinding *)
Lemma capture_spec h s :
  spec h s capture_lsn_for_rewind_gate (λ h' s' r, idle h h' ∧ s' = s ∧
    ∀ l, r = Ok (Some l) → read_lsn h' l).
Proof.
  unfold capture_lsn_for_rewind_gate. apply spec_then, spec_tried. unfold get_reportable_lsn, execute_sql.
  apply spec_then, spec_await; [done|by split_and!; [apply idle_snoc| |]|].
  intros r. destruct r as [t|e]; (split_and!; [by apply idle_snoc|done|]); [|done].
  intros l [= Hl]. apply saw_here. by exists t.
Qed.

Lemma attempt_spec h s deadline dry :
  reached h → up (mon h) = false → (dry = false → gated leader terms h) →
  spec h s (run_pg_rewind_attempt leader deadline dry) (λ h' s' r, unchanged h h' ∧ s' = s ∧
    ∀ out, r = Ok (true, out) →
      saw h' (Sync (SpawnRewind leader dry)) (λ b, b = true) ∧
      ∀ plan, parse_rewind_plan out = Some plan → planned h' plan).
Proof.
  intros Hr Hu Hg. unfold run_pg_rewind_attempt. apply spec_read; [by split_and!|]. intros b.
  assert (U1 : unchanged h (h ++ [ev (Sync (SpawnRewind leader dry)) b])) by (apply unchanged_snoc; by destruct dry).
  destruct b; cbn [check]; [|done]. apply spec_pure. set (h1 := h ++ _) in *.
  assert (Hs : saw h1 (Sync (SpawnRewind leader dry)) (λ b, b = true)) by (by apply saw_here).
  apply spec_read; [done|]. intros now. set (h2 := h1 ++ _).
  assert (U2 : unchanged h h2).
  { eapply unchanged_trans; [exact U1|]. apply unchanged_idle. by apply idle_snoc. }
  assert (Hs2 : saw h2 (Sync (SpawnRewind leader dry)) (λ b, b = true)) by (by apply saw_app_l).
  assert (U3 : ∀ r, unchanged h (h2 ++ [ev (Async (WaitRewind (sat_sub deadline now))) r])).
  { intros r. eapply unchanged_trans; [exact U2|]. apply unchanged_idle. by apply idle_snoc. }
  apply spec_await; [done|done|]. intros w. destruct w as [success out| |]; [|done|].
  - split_and!; [done|done|]. intros out' [= -> ->]. split; [by apply saw_app_l|].
    intros plan Hp. exists (sat_sub deadline now). apply saw_here. by exists out'.
  - apply spec_read; [done|]. intros []. apply spec_await; [done| |].
    + split_and!; [|done|done]. eapply unchanged_trans; [apply U3|]. apply unchanged_idle.
      exact (idle_trans _ _ _ _ (idle_snoc up0 _ (Sync KillRewind) tt eq_refl)
               (idle_snoc up0 _ (Async ReapRewind) _ eq_refl)).
    + intros []. split_and!; [|done|done]. eapply unchanged_trans; [apply U3|]. apply unchanged_idle.
      exact (idle_trans _ _ _ _ (idle_snoc up0 _ (Sync KillRewind) tt eq_refl)
               (idle_snoc up0 _ (Async ReapRewind) _ eq_refl)).
Qed.

Lemma gate_spec h s pre plan :
  (∀ l, pre = Some l → read_lsn h l) → (∀ p, plan = Some p → planned h p) →
  saw h (Sync (SpawnRewind leader true)) (λ b, b = true) →
  spec h s (check_rewind_discard pre plan (rewind_budget terms)) (λ h' s' r,
    idle h h' ∧ s' = s ∧ (is_ok r = true → gated leader terms h')).
Proof.
  intros Hpre Hplan Hs. unfold check_rewind_discard.
  assert (Hrest : ∀ h1 lsn, idle h h1 → read_lsn h1 lsn → spec h1 s
    (match plan with
     | Some NothingToDiscard => ret tt
     | None => fail (RewindFailed true)
     | Some (Diverged fork) =>
         match rewind_divergence_decision lsn fork (rewind_budget terms) with
         | Safe | WithinTolerance _ => ret tt
         | Refuse d => fail (RewindDataLossRisk lsn fork d
             (match rewind_budget terms with Bytes limit => limit | Unbounded => u64_max end))
         end
     end) (λ h' s' r, idle h h' ∧ s' = s ∧ (is_ok r = true → gated leader terms h'))).
  { intros h1 lsn I1 Hl.
    assert (Hg : ∀ p, plan = Some p → (match p with
        | NothingToDiscard => True
        | Diverged fork => match rewind_budget terms with Unbounded => True | Bytes limit => lsn - fork ≤ limit ∨ lsn ≤ fork end
        end) → gated leader terms h1).
    { intros p -> Hp. destruct (Hplan p eq_refl) as (n & Hn). destruct I1 as [A1 _].
      split; [exact (after_saw _ _ _ _ A1 Hs)|].
      destruct p as [fork|]; [right; exists fork, lsn|left; exists n; exact (after_saw _ _ _ _ A1 Hn)].
      split; [exists n; exact (after_saw _ _ _ _ A1 Hn)|by split]. }
    destruct plan as [[fork|]|]; [|split_and!; [done|done|intros _; by apply (Hg NothingToDiscard)]|by split_and!].
    destruct (rewind_divergence_decision lsn fork (rewind_budget terms)) eqn:Ed; [| |by split_and!];
      (split_and!; [done|done|]; intros _; apply (Hg (Diverged fork)); [done|]); unfold rewind_divergence_decision in Ed;
      destruct (rewind_budget terms); try done; destruct (Z.leb_spec lsn fork); try (by right); try discriminate Ed;
      destruct (Z.ltb_spec limit (lsn - fork)); try discriminate Ed; by left. }
  destruct pre as [l|]; [apply spec_pure, Hrest; [apply idle_refl|by apply Hpre]|].
  apply spec_then. apply spec_then. eapply spec_post; [apply capture_spec|].
  intros h1 s1 [[l|]|e] (I1 & -> & Hl); [|by split_and!..]. refine (Hrest h1 l I1 _). by apply Hl.
Qed.

Lemma source_looks n a d : looks (source_loop n a d).
Proof. induction n as [|n IH]; cbn [source_loop]; look; apply IH. Qed.

Lemma attempts_spec n deadline h s :
  reached h → up (mon h) = false → gated leader terms h →
  spec h s (rewind_attempts n leader deadline) (λ h' s' r, unchanged h h' ∧ s' = s).
Proof.
  revert h. induction n as [|n IH]; intros h Hr Hu Hg; cbn [rewind_attempts]; apply spec_then;
    (eapply spec_post; [by apply attempt_spec|]); intros h1 s1 [[[] stderr]|e] (U1 & -> & _); try done.
  1, 2: eapply spec_post; [apply signal_spec|]; intros h2 s2 r (A2 & -> & U2 & _);
    (split; [|done]); eapply unchanged_trans; [exact U1|by split].
  destruct (bool_decide _); [|done]. apply spec_await; [done| |].
  { split; [|done]. eapply unchanged_trans; [exact U1|]. by apply unchanged_idle, idle_snoc. }
  intros []. match goal with |- context [h1 ++ [?e]] => assert (U2 : unchanged h (h1 ++ [e])) end.
  { eapply unchanged_trans; [exact U1|]. by apply unchanged_idle, idle_snoc. }
  destruct U2 as [A2 E2]. eapply spec_post; [apply IH|].
  - exact (after_reached _ _ _ _ A2 Hr).
  - by rewrite E2.
  - exact (after_gated _ _ _ _ A2 Hg).
  - intros h3 s3 r [U3 ->]. split; [|done]. by eapply unchanged_trans; [|exact U3].
Qed.

Lemma rewind_spec h s pre :
  reached h → up (mon h) = false → (∀ l, pre = Some l → read_lsn h l) →
  spec h s (run_pg_rewind rounds leader pre (rewind_budget terms)) (λ h' s' r, unchanged h h' ∧ s' = s).
Proof.
  intros Hr Hu Hpre. unfold run_pg_rewind. apply spec_read; [done|]. intros now.
  pose proof (idle_snoc up0 h (Sync Now) now eq_refl) as I1. set (h1 := h ++ _) in *.
  apply spec_budget.
  apply spec_look; [unfold wait_for_rewind_source; apply asks_then; [look|intros; apply source_looks]| |].
  { intros h' e I2. split; [|done]. apply unchanged_idle. by eapply idle_trans. }
  intros h2 [] I2. pose proof (idle_trans _ _ _ _ I1 I2) as I02.
  apply spec_then. eapply spec_post; [apply attempt_spec; [| |done]|].
  { destruct I02 as [A _]. exact (after_reached _ _ _ _ A Hr). }
  { destruct I02 as (_ & E & _). by rewrite E. }
  intros h3 s3 [[ok3 out]|e] (U3 & -> & Hout); pose proof (unchanged_trans _ _ _ (unchanged_idle _ _ I02) U3) as U03; [|done].
  destruct ok3; cbn [check]; [|done]. apply spec_pure. destruct (Hout out eq_refl) as [Hsp Hplan].
  pose proof U03 as [A03 E03].
  apply spec_then. eapply spec_post; [apply gate_spec; [|done|done]|].
  { intros l Hl. exact (after_saw _ _ _ _ A03 (Hpre l Hl)). }
  intros h4 s4 [[]|e] (I4 & -> & Hg); pose proof (unchanged_trans _ _ _ U03 (unchanged_idle _ _ I4)) as U04; [|done].
  destruct U04 as [A04 E04]. eapply spec_post; [apply attempts_spec; [|by rewrite E04|by apply Hg]|].
  { exact (after_reached _ _ _ _ A04 Hr). }
  intros h5 s5 r [U5 ->]. split; [|done]. eapply unchanged_trans; [|exact U5]. by split.
Qed.

(** ** Deciding *)
Lemma timeline_spec h s :
  spec h s (check_timeline_state leader term) (λ h' s' r, idle h h' ∧ s' = s ∧
    (r = Ok Match ∨ r = Ok Mismatch → reached h')).
Proof.
  unfold check_timeline_state. apply spec_look; [look|intros; split_and!; [done..|intros [[=]|[=]]]|].
  intros h1 [local|] I1; [|split_and!; [done|done|intros [[=]|[=]]]].
  unfold probe_leader, query_peer. apply spec_then. apply spec_then. apply spec_await; [done| |].
  { split_and!; [eapply idle_trans; [exact I1|by apply idle_snoc]|done|intros [[=]|[=]]]. }
  intros o. set (h2 := h1 ++ _).
  assert (I2 : idle h h2) by (eapply idle_trans; [exact I1|by apply idle_snoc]).
  apply spec_pure. unfold StandbyLogic.spec. cbn [safe ret fst snd].
  destruct ((trim <$> o) ≫= parse_leader_probe) as [[remote l]|] eqn:Eo; [|split_and!; [done|done|intros [[=]|[=]]]].
  destruct (serves_cluster_lineage term (Some l)) eqn:El; cbn [negb]; [|split_and!; [done|done|intros [[=]|[=]]]].
  split_and!; [done|done|]. intros _. apply saw_here. by exists o, remote, l.
Qed.

Lemma decide_spec h s :
  spec h s (decide_standby_action cfg leader term) (λ h' s' r, idle h h' ∧ s' = s ∧
    (r = Ok Rewind → reached h')).
Proof.
  unfold decide_standby_action. apply spec_look; [apply looks_would_change|by intros; split_and!|].
  intros h1 changed I1. destruct changed.
  - apply spec_then. eapply spec_post; [apply timeline_spec|]. intros h2 s2 [t|e] (I2 & -> & Ht);
      pose proof (idle_trans _ _ _ _ I1 I2) as I02; [|by split_and!].
    destruct t; [by split_and!| |by split_and!..].
    apply spec_look; [apply looks_ahead|intros h' e I3; split_and!; [by eapply idle_trans|done..]|].
    intros h3 ahead I3. split_and!; [by eapply idle_trans|done|]. intros _.
    destruct I3 as [A3 _]. eapply after_reached; [exact A3|]. apply Ht. by right.
  - apply spec_look; [apply looks_streaming|intros h' e I2; split_and!; [by eapply idle_trans|done..]|].
    intros h2 streaming I2. pose proof (idle_trans _ _ _ _ I1 I2) as I02. destruct streaming; [by split_and!|].
    apply spec_then. eapply spec_post; [apply timeline_spec|]. intros h3 s3 [t|e] (I3 & -> & Ht);
      pose proof (idle_trans _ _ _ _ I02 I3) as I03; [|by split_and!].
    destruct t; [|split_and!; [done|done|intros _; apply Ht; by right]|by split_and!..].
    eapply spec_post; [apply looks_spec, looks_gap|]. intros h4 s4 r [I4 ->].
    split_and!; [by eapply idle_trans|done|]. intros _.
    destruct I4 as [A4 _]. eapply after_reached; [exact A4|]. apply Ht. by left.
Qed.

(** ** Demoting *)
Lemma onto_spec h s pre :
  reached h → up (mon h) = false → (∀ l, pre = Some l → read_lsn h l) →
  spec h s (rewind_onto_leader rounds cfg leader pre terms) (λ h' s' r,
    r = Ok Rewound → up (mon h') = false ∧ sig (mon h') = 3%nat).
Proof.
  intros Hr Hu Hpre. unfold rewind_onto_leader. apply spec_then, spec_tried.
  eapply spec_post; [by apply rewind_spec|]. intros h1 s1 r [[A1 U1] ->]. rewrite Hu in U1.
  assert (Hw1 : W h1 s) by (intros _; exact U1).
  assert (Hrebuild : ∀ h2 s2, W h2 s2 → spec h2 s2
    (let& _ := reprovision_from rounds cfg leader term in ret Reprovisioned)
    (λ h' _ r, r = Ok Rewound → up (mon h') = false ∧ sig (mon h') = 3%nat)).
  { intros h2 s2 Hw2. apply spec_then. eapply spec_post; [by apply reprovision_spec|]. by intros ? ? [[]|?] _. }
  destruct r as [[]|[e| | |]]; try done.
  - apply spec_then. eapply spec_post; [apply signal_spec|]. intros h2 s2 [[]|e] (A2 & -> & U2 & S2); [|done].
    split; [by rewrite U2|by apply S2].
  - cbn match. destruct (rewind_recovery e); [|by apply Hrebuild].
    apply spec_then. eapply spec_post; [apply signal_spec|]. intros h2 s2 [[]|e2] (A2 & -> & U2 & S2); [|done].
    specialize (S2 eq_refl). apply spec_look; [apply looks_configure|done|]. intros h3 b (A3 & U3 & S3).
    apply spec_then, spec_tried. eapply spec_post; [apply start_spec; [intros _; congruence|congruence]|].
    intros h4 s4 [[]|[e4| | |]] [A4 Hw4]; try done. destruct e4; try done. apply Hrebuild. by apply Hw4.
Qed.

Lemma sweep_spec h s : spec h s (let& _ := attempt drop_inactive_replica_slots in ret tt) (λ _ _ _, True).
Proof. apply spec_look; [look|done..]. Qed.

Lemma repoint_spec h s : W h s → sig (mon h) = 3%nat →
  spec h s (repoint_standby rounds cfg leader terms) (λ _ _ _, True).
Proof.
  intros Hw Hs. unfold repoint_standby. apply spec_then. eapply spec_post; [apply decide_spec|].
  intros h1 s1 [a|e] (I1 & -> & Ha); [|done]. pose proof (idle_W _ _ _ I1 Hw) as Hw1. destruct a; try done.
  - apply spec_look; [apply looks_configure|done|]. intros h2 b I2.
    apply spec_look; [apply looks_reload|done|]. intros. apply sweep_spec.
  - specialize (Ha eq_refl). apply spec_then. eapply spec_post; [apply capture_spec|].
    intros h2 s2 [pre|e] (I2 & -> & Hpre); [|done]. pose proof (idle_W _ _ _ I2 Hw1) as Hw2.
    assert (Hr2 : reached h2) by (destruct I2 as [A _]; exact (after_reached _ _ _ _ A Ha)).
    apply spec_then. eapply spec_post; [apply stop_spec; [done|by left]|].
    intros h3 s3 [[]|e] ((A3 & _) & Hw3 & Hst & _); [|done]. destruct (Hst eq_refl) as [Hc3 Hu3].
    apply spec_then. eapply spec_post; [apply onto_spec; [exact (after_reached _ _ _ _ A3 Hr2)|done|]|].
    { intros l ->. exact (after_saw _ _ _ _ A3 (Hpre l eq_refl)). }
    intros h4 s4 [[]|e] Ho; [|done..]. destruct (Ho eq_refl) as [Hu4 Hs4].
    apply spec_look; [apply looks_configure|done|]. intros h5 b (A5 & U5 & S5).
    apply spec_then. eapply spec_post; [apply start_spec; [intros _; congruence|congruence]|].
    intros h6 s6 [[]|e] _; [|done]. apply sweep_spec.
  - by apply reprovision_spec.
Qed.

Lemma repair_spec h s : W h s → sig (mon h) = 3%nat →
  spec h s (restart_or_repair_standby rounds cfg leader term) (λ _ _ _, True).
Proof.
  intros Hw Hs. unfold restart_or_repair_standby. apply spec_look; [apply looks_configure|done|].
  intros h1 b I1. apply spec_then, spec_tried.
  eapply spec_post; [apply start_spec; [by eapply idle_W|destruct I1 as (_ & _ & E); by rewrite E]|].
  intros h2 s2 [[]|[e| | |]] [A2 Hw2]; try done. destruct e; try done. apply reprovision_spec. by apply Hw2.
Qed.

Lemma demote_spec s :
  (child s = false → up0 = false) → spec [] s (demote rounds cfg leader terms) (λ _ _ _, True).
Proof.
  intros H0. unfold demote. apply spec_then. eapply spec_post; [apply state_spec; exact H0|].
  intros h1 s1 [st|e] ((A1 & S1) & Hw1 & _ & _); [|done].
  assert (Hs1 : sig (mon h1) = 3%nat) by (by rewrite S1).
  assert (Hlive : spec h1 s1
    (let& in_recovery := is_in_recovery in
      if in_recovery : bool then repoint_standby rounds cfg leader terms
      else
        let& t := check_timeline_state leader term in
        match former_primary_action t with
        | DeferDemote => ret tt
        | RewindOnto =>
            let& pre_stop_lsn := capture_lsn_for_rewind_gate in
            let& _ := stop in
            let& rewound := attempt (run_pg_rewind rounds leader pre_stop_lsn (rewind_budget terms)) in
            match rewound with
            | Err e =>
                match rewind_recovery e with
                | RestartInPlace => fail e
                | Rebuild => reprovision_from rounds cfg leader term
                end
            | Ok _ =>
                let& _ := ensure_standby_signal in
                let& _ := configure_standby cfg leader in
                let& _ := start rounds cfg in
                let& in_recovery_now := is_in_recovery in
                let& _ := check in_recovery_now Postgres in
                let& _ := attempt drop_inactive_replica_slots in
                ret tt
            end
        end) (λ _ _ _, True)).
  { apply spec_look; [apply looks_recovery|done|]. intros h2 in_recovery I2.
    pose proof (idle_W _ _ _ I2 Hw1) as Hw2.
    assert (Hs2 : sig (mon h2) = 3%nat) by (destruct I2 as (_ & _ & E); congruence).
    destruct in_recovery; [by apply repoint_spec|].
    apply spec_then. eapply spec_post; [apply timeline_spec|]. intros h3 s3 [t|e] (I3 & -> & Ht); [|done].
    pose proof (idle_W _ _ _ I3 Hw2) as Hw3.
    assert (Hr3 : former_primary_action t = RewindOnto → reached h3)
      by (destruct t; try done; intros _; apply Ht; auto).
    destruct (former_primary_action t); [|done]. specialize (Hr3 eq_refl).
    apply spec_then. eapply spec_post; [apply capture_spec|]. intros h4 s4 [pre|e] (I4 & -> & Hpre); [|done].
    pose proof (idle_W _ _ _ I4 Hw3) as Hw4.
    assert (Hr4 : reached h4) by (destruct I4 as [A _]; exact (after_reached _ _ _ _ A Hr3)).
    apply spec_then. eapply spec_post; [apply stop_spec; [done|by left]|].
    intros h5 s5 [[]|e] ((A5 & _) & Hw5 & Hst & _); [|done]. destruct (Hst eq_refl) as [Hc5 Hu5].
    apply spec_then, spec_tried. eapply spec_post; [apply rewind_spec; [exact (after_reached _ _ _ _ A5 Hr4)|done|]|].
    { intros l ->. exact (after_saw _ _ _ _ A5 (Hpre l eq_refl)). }
    intros h6 s6 r [[A6 U6] ->]. rewrite Hu5 in U6. assert (Hw6 : W h6 s5) by (intros _; exact U6).
    destruct r as [[]|[e| | |]]; try done; [|cbn match; destruct (rewind_recovery e); [done|by apply reprovision_spec]].
    apply spec_then. eapply spec_post; [apply signal_spec|]. intros h7 s7 [[]|e] (A7 & -> & U7 & S7); [|done].
    specialize (S7 eq_refl). apply spec_look; [apply looks_configure|done|]. intros h8 b (A8 & U8 & S8).
    apply spec_then. eapply spec_post; [apply start_spec; [intros _; congruence|congruence]|].
    intros h9 s9 [[]|e] _; [|done].
    apply spec_look; [look|done|]. intros h10 now I10. destruct now; cbn [check]; [|done].
    apply spec_pure. apply sweep_spec. }
  destruct st; [exact Hlive|exact Hlive|by apply repair_spec].
Qed.
End Steps.


(** C9. Every postmaster a demotion starts is a fenced standby: the start follows a
    read or a durable write after which [postgresql.auto.conf] holds the read-only
    default, and if the demotion rewrote the directory (a rewind, a removal, a base
    backup), [standby.signal] was created, synced and its directory synced since. *)
Theorem every_demoted_start_is_a_fenced_standby rounds cfg leader terms s up0 t :
  (child s = false → up0 = false) → issues (demote rounds cfg leader terms s) t (Sync SpawnPostgres) →
  sig (mon up0 t) = 3%nat ∧ ∃ text, auto (mon up0 t) = Some (with_writes_fenced text).
Proof.
  intros H0 Hi.
  exact (safe_issues any_answer (ok leader terms up0) [] _ _ t (Sync SpawnPostgres)
           (demote_spec rounds cfg leader terms up0 s H0) Hi (relies_any _ _)).
Qed.

(** ** Runs: a node whose directory is gone is rebuilt; one that is down starts *)
Module Demo.
Definition leader : SocketAddr := SocketAddr_ (V4 1) 0 5432.
Definition cfg : SupervisorConfig := SupervisorConfig_ 5432 (lit "postgres") Replica 2 Trust None.
Definition terms : FollowTerms := FollowTerms_ (Bytes 1024) (Committed (Some 7)).
Definition configured : bytes := Eval vm_compute in with_writes_fenced (compute_standby_auto_conf [] leader cfg).
Definition conf : bytes := Eval vm_compute in upsert_managed_block [] CONF_START CONF_END (conf_block cfg).
Definition hba : bytes := Eval vm_compute in upsert_managed_block [] HBA_START HBA_END (hba_block (lit "trust") (lit "postgres")).
Definition down : Sup := Supervisor_new.
Definition wiped : hist :=
  [ev (Async (ReadFile AutoConf)) (Some (Ok configured)); ev (Async InvalidateSql) (Some tt);
   ev (Sync (Exists PidFile)) false; ev (Sync (Exists ConfMarker)) false;
   ev (Async (QueryPeer leader PeerLineage)) (Some (Some (lit "7")));
   ev (Async InvalidateSql) (Some tt); ev (Sync (Exists DataDir)) true;
   ev (Async ListDir) (Some (Ok ([(lit "base", Ok true)], true)))].
Definition restarted : hist :=
  [ev (Async (ReadFile AutoConf)) (Some (Ok configured)); ev (Async InvalidateSql) (Some tt);
   ev (Sync (Exists PidFile)) false; ev (Sync (Exists ConfMarker)) true;
   ev (Async (ReadFile PostgresqlConf)) (Some (Ok conf));
   ev (Async (Fs PostgresqlConf DurableWrite.ReadTarget)) (Some (Some conf));
   ev (Async (ReadFile PgHbaConf)) (Some (Ok hba));
   ev (Async (Fs PgHbaConf DurableWrite.ReadTarget)) (Some (Some hba));
   ev (Async (ReadFile AutoConf)) (Some (Ok configured)); ev (Sync SetPermissions) true].
End Demo.

Lemma demo_wiped :
  issues (demote 1 Demo.cfg Demo.leader Demo.terms Demo.down) Demo.wiped (Async (RemoveEntry (lit "base") true)).
Proof. apply replay_issues. by vm_compute. Qed.

Lemma demo_restarted :
  issues (demote 1 Demo.cfg Demo.leader Demo.terms Demo.down) Demo.restarted (Sync SpawnPostgres).
Proof. apply replay_issues. by vm_compute. Qed.


Lemma every_demoted_start_is_a_fenced_standby_witness :
  sig (mon false Demo.restarted) = 3%nat ∧ ∃ text, auto (mon false Demo.restarted) = Some (with_writes_fenced text).
Proof.
  apply (every_demoted_start_is_a_fenced_standby 1 Demo.cfg Demo.leader Demo.terms Demo.down false Demo.restarted);
    [done|apply demo_restarted].
Defined.

(** ** A dry run that never ends *)
(** [pg_rewind --dry-run] reads only, but one that outlives the budget fails as if
    it had written, and the directory is rebuilt without the discard having been
    measured. *)
Definition hung_dry_run (source : SocketAddr) : hist :=
  [ev (Sync Now) 0; ev (Sync Now) 0; ev (Async (ProbeSource source)) (Some (Probed true (lit "f")));
   ev (Sync (SpawnRewind source true)) true; ev (Sync Now) 0;
   ev (Async (WaitRewind PG_REWIND_BUDGET)) (Some Elapsed); ev (Sync KillRewind) tt;
   ev (Async ReapRewind) (Some tt)].
Lemma a_hung_dry_run_rebuilds source pre budget s :
  runs (run_pg_rewind 1 source pre budget s) (hung_dry_run source) (s, Err (Fail (RewindFailed false))) ∧
  rewind_recovery (RewindFailed false) = Rebuild.
Proof. split; [|done]. unfold hung_dry_run. repeat apply runs_do. by split. Qed.

(** ** A former primary whose rewind cannot begin *)
(** It is stopped, the source's probe fails, and it is left down; the next demotion
    starts it as it is, with no [standby.signal]. *)
Definition controldata_tli (tli : bytes) : bytes := lit "Latest checkpoint's TimeLineID: " ++ tli.
Definition former_primary : hist :=
  [ev (Sync TryWait) StillRunning; ev (Async (Sql RecoverySql)) (Some (Ok (lit "f")));
   ev (Async PgControldata) (Some (Ok (controldata_tli (lit "1"))));
   ev (Async (QueryPeer Demo.leader LeaderProbe)) (Some (Some (lit "000000020000000000000001|7")));
   ev (Async (Sql ReportableLsn)) (Some (Ok (lit "0/100"))); ev (Async InvalidateSql) (Some tt);
   ev (Async (RunPgCtl Stop)) (Some (CtlExit true)); ev (Async ReapChild) (Some tt);
   ev (Sync Now) 0; ev (Sync Now) 0; ev (Async (ProbeSource Demo.leader)) (Some ProbeFailed)].
Lemma a_former_primary_restarts_without_its_signal :
  runs (demote 1 Demo.cfg Demo.leader Demo.terms (Sup_ true None true)) former_primary
    (Sup_ false None true, Err (Fail (RewindFailed true))) ∧
  rewind_recovery (RewindFailed true) = RestartInPlace ∧
  issues (demote 1 Demo.cfg Demo.leader Demo.terms (Sup_ false None true)) Demo.restarted (Sync SpawnPostgres) ∧
  Forall (λ e, projT1 e ≠ Async OpenSignal) Demo.restarted.
Proof.
  split_and!; [apply replay_runs; by vm_compute|done|apply replay_issues; by vm_compute|].
  repeat constructor; done.
Qed.
