(* ===== verification/PromoteProofs.v ===== *)
(** * What a promotion does before, with and after [pg_ctl promote] *)

From S2P Require Import Prelude Effects Text Net Core PgFiles Standby StandbyLogic.
From Stdlib Require Import Strings.Byte.

Section Promote.
Context (rounds : nat) (lowercase : bytes → bytes) (names : bytes).

(** The server answered that it is in recovery; that it is not. *)
Definition in_recovery (h : hist) : Prop :=
  saw h (Async (Sql RecoverySql)) (λ r, ∃ t, r = Some (Ok t) ∧ trim t = lit "t").
Definition primary (h : hist) : Prop :=
  saw h (Async (Sql RecoverySql)) (λ r, ∃ t, r = Some (Ok t) ∧ trim t ≠ lit "t").
(** The synchronous list is [names] already, live and on reload, or was asked to be;
    or [names] is not one. *)
Definition list_armed (h : hist) : Prop :=
  saw h (Async (Sql SyncNamesNowAndOnReload)) (λ r, ∃ t p, r = Some (Ok t) ∧ split_once "009"%byte t = Some p ∧
    sync_names_equivalent lowercase (trim p.1) names = true ∧ sync_names_equivalent lowercase (trim p.2) names = true) ∨
  saw h (Async (Sql (AlterSyncNames names))) (λ r, r ≠ None) ∨
  (∀ s, ∃ e, check_names names s = Ret (s, Err (Fail e))).
Definition fenced (h : hist) : Prop := names ≠ [] → saw h (Async (WriteReadonlyGuc true)) (λ r, r ≠ None).
Definition pg_ctl_promoted (h : hist) : Prop := saw h (Async (RunPgCtl Promote)) (λ r, r = Some (CtlExit true)).
Definition signal_gone (h : hist) : Prop :=
  saw h (Sync (Exists StandbySignal)) (λ r, r = false) ∨ saw h (Async RemoveSignal) (λ r, r = Some true).

Definition promotion_allows (h : hist) (q : Req) : Prop :=
  match q with
  | Async (RunPgCtl Promote) => in_recovery h ∧ list_armed h ∧ fenced h
  | Async (Sql (AlterSyncNames l)) => l = names ∧ in_recovery h
  | Async (WriteReadonlyGuc on) => on = true ∧ in_recovery h
  | Async RemoveSignal => pg_ctl_promoted h ∧ primary h
  | Async (Sql _) | Async (Sleep _) | Sync Now | Sync (Exists StandbySignal) => True
  | _ => False
  end.
Local Notation spec := (spec promotion_allows).

(** Reading, waiting: of no consequence here. *)
Definition idles (q : Req) : bool :=
  match q with
  | Async (Sql (AlterSyncNames _)) => false
  | Async (Sql _) | Async (Sleep _) | Sync Now => true
  | _ => false
  end.
Lemma idles_allowed h q : idles q = true → promotion_allows h q.
Proof. destruct q as [[]|[]]; try done. by destruct q. Qed.
Lemma asks_sql P q : P (Async (Sql q)) = true → asks_only P (execute_sql q).
Proof. intros. unfold execute_sql. look. Qed.
#[local] Hint Extern 1 (asks_only _ (execute_sql _)) => (by apply asks_sql) : standby.

Lemma recovery_asks : asks_only idles is_in_recovery.
Proof. unfold is_in_recovery. look. Qed.
Lemma wait_asks n l d : asks_only idles (sync_names_loop lowercase n l d).
Proof.
  induction n as [|n IH]; cbn [sync_names_loop]; [apply asks_leave|].
  unfold get_sync_standby_names. look.
Qed.
Lemma wait_effective_asks l : asks_only idles (wait_for_sync_standby_names_effective rounds lowercase l).
Proof. unfold wait_for_sync_standby_names_effective. apply asks_then; [look|]. intros. apply wait_asks. Qed.

(** What [is_in_recovery] answered is what the server said. *)
Lemma recovery_spec h s :
  spec h s is_in_recovery (λ h' s' r, s' = s ∧ ∃ a, h' = h ++ [ev (Async (Sql RecoverySql)) a] ∧
    match r with
    | Ok b => ∃ t, a = Some (Ok t) ∧ b = bool_decide (trim t = lit "t")
    | Err _ => True
    end).
Proof.
  unfold is_in_recovery, execute_sql. apply spec_then, spec_await; [done| |].
  { split; [done|]. by eexists. }
  intros [t|e]; cbn [from_result]; (split; [done|eexists; split; [done|]]); [|done]. by exists t.
Qed.

Lemma names_check_spec h s :
  spec h s (check_names names) (λ h' s' r, h' = h ∧ s' = s ∧ check_names names s = Ret (s, r)).
Proof.
  unfold check_names. destruct (split_once _ _) as [[b1 a1]|]; [|by split_and!].
  destruct (rsplit_once _ _) as [[b2 a2]|]; [|by split_and!].
  destruct (_ <? _)%nat; [by split_and!|]. unfold check. destruct (forallb _ _); by split_and!.
Qed.
Lemma names_check_same (l : bytes) s1 s2 e :
  check_names l s1 = Ret (s1, Err (Fail e)) → check_names l s2 = Ret (s2, Err (Fail e)).
Proof.
  unfold check_names. destruct (split_once _ _) as [[b1 a1]|]; [|done].
  destruct (rsplit_once _ _) as [[b2 a2]|]; [|done].
  destruct (_ <? _)%nat; [done|]. unfold check, ret, fail, leave. destruct (forallb _ _); [done|]. by intros [= ->].
Qed.

Lemma names_now_spec h s :
  spec h s sync_standby_names_now_and_on_reload (λ h' s' r, s' = s ∧
    ∃ a, h' = h ++ [ev (Async (Sql SyncNamesNowAndOnReload)) a] ∧
    match r with
    | Ok l => ∃ t p, a = Some (Ok t) ∧ split_once "009"%byte t = Some p ∧ l = (trim p.1, trim p.2)
    | Err _ => True
    end).
Proof.
  unfold sync_standby_names_now_and_on_reload, execute_sql. apply spec_then, spec_await; [done| |].
  { split; [done|]. by eexists. }
  intros [t|e]; cbn [from_result]; [|by split; [done|eexists]].
  change (spec (h ++ [ev (Async (Sql SyncNamesNowAndOnReload)) (Some (Ok t))]) s
    (let& p := or_fail Postgres (split_once "009"%byte t) in ret (trim p.1, trim p.2)) (λ h' s' r, s' = s ∧
    ∃ a, h' = h ++ [ev (Async (Sql SyncNamesNowAndOnReload)) a] ∧
    match r with
    | Ok l => ∃ t p, a = Some (Ok t) ∧ split_once "009"%byte t = Some p ∧ l = (trim p.1, trim p.2)
    | Err _ => True
    end)).
  destruct (split_once _ t) as [p|] eqn:Ep; (split; [done|eexists; split; [done|]]); [|done]. by exists t, p.
Qed.

Lemma set_names_spec h s :
  in_recovery h →
  spec h s (attempt (set_sync_standby_names rounds lowercase names)) (λ h' s' r, after h h' ∧ s' = s ∧
    (is_ok r = true → list_armed h')).
Proof.
  intros Hrec. apply spec_tried. unfold set_sync_standby_names.
  apply spec_then. eapply spec_post; [apply names_check_spec|]. intros ? ? r (-> & -> & Er).
  destruct r as [[]|e].
  2: { split_and!; [apply after_refl|done|]. destruct e as [e| | |]; try done. intros _. right. right.
       intros s'. exists e. by eapply names_check_same. }
  unfold execute_sql. apply spec_then, spec_tried. eapply spec_post; [apply names_now_spec|].
  intros h1 s1 now (-> & a & Eh1 & Hnow). assert (A1 : after h h1) by (rewrite Eh1; apply after_snoc).
  assert (Halter : spec h1 s (let& _ := (let& r := await (Sql (AlterSyncNames names)) in from_result Postgres r) in
      wait_for_sync_standby_names_effective rounds lowercase names)
    (λ h' s' r, after h h' ∧ s' = s ∧
       (is_ok (match r with Ok a => Ok (Ok a) | Err (Fail e) => Ok (Err e) | Err e => Err e end) = true → list_armed h'))).
  { apply spec_then, spec_await; [split; [done|exact (after_saw _ _ _ _ A1 Hrec)]| |].
    { split_and!; [exact (after_trans _ _ _ A1 (after_snoc _ _))|done|done]. }
    intros r2. set (h2 := h1 ++ _). assert (A2 : after h h2) by (exact (after_trans _ _ _ A1 (after_snoc _ _))).
    assert (Hl : list_armed h2) by (right; left; by apply saw_here).
    destruct r2 as [x|x]; [|by split_and!].
    eapply (spec_post _ h2 s (wait_for_sync_standby_names_effective rounds lowercase names));
      [apply wait_effective_asks; apply idles_allowed|].
    intros h3 s3 r [G3 ->]. apply grew_after in G3. split_and!; [by eapply after_trans|done|].
    intros _. destruct G3 as (t & ->). right; left. by apply saw_app_l, saw_here. }
  destruct now as [[l1 l2]|[e| | |]]; [|exact Halter|by split_and!..].
  destruct (sync_names_equivalent lowercase l1 names && sync_names_equivalent lowercase l2 names) eqn:Eq; [|exact Halter].
  apply andb_true_iff in Eq as [E1 E2]. destruct Hnow as (t & p & -> & Ep & [= -> ->]).
  split_and!; [done|done|]. intros _. left. rewrite Eh1. apply saw_here. by exists t, p.
Qed.

Lemma arm_spec h s :
  in_recovery h →
  spec h s (arm_promotion_write_gate rounds lowercase names) (λ h' s' r, after h h' ∧ s' = s ∧
    (is_ok r = true → list_armed h' ∧ fenced h')).
Proof.
  intros Hrec. unfold arm_promotion_write_gate. apply spec_then. eapply spec_post; [by apply set_names_spec|].
  intros h1 s1 [r|e] (A1 & -> & Hl); [|by split_and!]. specialize (Hl eq_refl). case_bool_decide as En.
  { split_and!; [done|done|]. intros _. split; [done|]. by intros ?. }
  apply spec_await; [split; [done|exact (after_saw _ _ _ _ A1 Hrec)]| |].
  { split_and!; [exact (after_trans _ _ _ A1 (after_snoc _ _))|done|done]. }
  intros r2. split_and!; [exact (after_trans _ _ _ A1 (after_snoc _ _))|done|]. intros _. split.
  - destruct Hl as [H|[H|H]]; [left; by apply saw_app_l|right; left; by apply saw_app_l|by right; right].
  - intros _. by apply saw_here.
Qed.

Lemma promote_spec s :
  spec [] s (promote rounds lowercase names) (λ h' s' r, s' = s ∧
    (r = Ok tt → (∃ t, h' = [ev (Async (Sql RecoverySql)) (Some (Ok t))] ∧ trim t ≠ lit "t") ∨
                 pg_ctl_promoted h' ∧ primary h' ∧ signal_gone h')).
Proof.
  unfold promote. apply spec_then, spec_tried. eapply spec_post; [apply recovery_spec|].
  intros h1 s1 r (-> & a & -> & Hr). destruct r as [b|[]]; try (by split).
  destruct Hr as (t & -> & ->). cbn [from_result]. apply spec_pure. case_bool_decide as Et; cbn [negb].
  2: { split; [done|]. intros _. left. by exists t. }
  set (h1 := [] ++ _). assert (Hrec : in_recovery h1) by (apply saw_here; by exists t).
  apply spec_then. eapply spec_post; [by apply arm_spec|].
  intros h2 s2 [[]|e] (A2 & -> & Hg); [|by split]. destruct (Hg eq_refl) as [Hl Hf].
  apply spec_await; [split_and!; [exact (after_saw _ _ _ _ A2 Hrec)|done|done]|by split|].
  intros c. set (h3 := h2 ++ _). destruct c as [[]| |]; try (by split).
  assert (Hp : pg_ctl_promoted h3) by by apply saw_here.
  unfold confirm_promoted. apply spec_then, spec_then. eapply spec_post; [apply recovery_spec|].
  intros h4 s4 r (-> & a & -> & Hr). destruct r as [b|e]; [|by split].
  destruct Hr as (t4 & -> & ->). case_bool_decide as Et4; cbn [negb check]; [by split|].
  set (h4 := h3 ++ _). assert (Hp4 : primary h4) by (apply saw_here; by exists t4).
  assert (Hp3 : pg_ctl_promoted h4) by by apply saw_app_l.
  apply spec_pure, spec_read; [done|]. intros signal. set (h5 := h4 ++ _).
  assert (Hp5 : primary h5) by by apply saw_app_l. assert (Hc5 : pg_ctl_promoted h5) by by apply saw_app_l.
  destruct signal.
  2: { split; [done|]. intros _. right. split_and!; [done|done|]. left. by apply saw_here. }
  apply spec_await; [by split|by split|]. intros removed. destruct removed; cbn [check]; [|by split].
  split; [done|]. intros _. right. split_and!; [by apply saw_app_l|by apply saw_app_l|]. right. by apply saw_here.
Qed.
End Promote.


(** A promotion that answers success left a primary that stays one: either the
    server already said it was not in recovery, and nothing else was asked of the
    machine, or [pg_ctl promote] succeeded, the server then said it is not in
    recovery, and [standby.signal] was found absent or removed. *)
Lemma a_promotion_that_succeeds_left_a_primary rounds lowercase names s t s' :
  runs (promote rounds lowercase names s) t (s', Ok tt) →
  s' = s ∧
  ((∃ a, t = [ev (Async (Sql RecoverySql)) (Some (Ok a))] ∧ trim a ≠ lit "t") ∨
   pg_ctl_promoted t ∧ primary t ∧ signal_gone t).
Proof.
  intros Hr.
  destruct (safe_runs any_answer (promotion_allows lowercase names) [] _ _ t (s', Ok tt)
              (promote_spec rounds lowercase names s) Hr (relies_any _ _)) as [E H].
  split; [exact E|by apply H].
Qed.

Module Promotion.
Definition names : bytes := lit "ANY 1 (replica_2)".
Definition armed : hist :=
  [ev (Async (Sql RecoverySql)) (Some (Ok (lit "t"))); ev (Async (Sql SyncNamesNowAndOnReload)) (Some (Err []));
   ev (Async (Sql (AlterSyncNames names))) (Some (Ok [])); ev (Sync Now) 0;
   ev (Async (Sql ShowSyncNames)) (Some (Ok names)); ev (Async (WriteReadonlyGuc true)) (Some (Ok tt))].
Definition done : hist :=
  armed ++ [ev (Async (RunPgCtl Promote)) (Some (CtlExit true)); ev (Async (Sql RecoverySql)) (Some (Ok (lit "f")));
            ev (Sync (Exists StandbySignal)) true; ev (Async RemoveSignal) (Some true)].
End Promotion.


Lemma a_promotion_that_succeeds_left_a_primary_witness :
  runs (promote 1 id Promotion.names Supervisor_new) Promotion.done (Supervisor_new, Ok tt) ∧
  Supervisor_new = Supervisor_new ∧
  ((∃ a, Promotion.done = [ev (Async (Sql RecoverySql)) (Some (Ok a))] ∧ trim a ≠ lit "t") ∨
   pg_ctl_promoted Promotion.done ∧ primary Promotion.done ∧ signal_gone Promotion.done).
Proof.
  assert (H : runs (promote 1 id Promotion.names Supervisor_new) Promotion.done (Supervisor_new, Ok tt))
    by (apply replay_runs; vm_compute; reflexivity).
  split; [exact H|]. by apply (a_promotion_that_succeeds_left_a_primary 1 id Promotion.names).
Defined.
