(* ===== verification/Backup.v ===== *)
(** * Backups of the data directory
    ([crates/pgbattery-supervisor/src/backup.rs] and the handlers of
    [observability/management_api/backup.rs])

    The [BackupManager]'s operations as programs over the file system, the
    subprocesses it runs and the clock.  A path is one the manager forms: under the
    data directory, beside it, or under the backup directory.  What [walkdir], [tar]
    and [flate2] do with a file is an answer.  Times are instants; [fmt] and
    [parse_ts] are chrono's, in the local zone. *)

From S2P Require Import Prelude Effects Text PgFiles.
From S2P Require Standby.
From Stdlib Require Import Strings.Byte.

(** ** Paths *)
Inductive Path :=
| Data (rel : list bytes)                   (* [pg_data_dir] and below *)
| Parent                                    (* its parent *)
| Beside (name : bytes)                     (* a sibling of it *)
| Backups (rel : list bytes)                (* [backup_dir] and below *)
| Temp (name : bytes).                      (* a temporary file in [backup_dir] *)
Section Decisions.
#[local] Existing Instance byte_code_dec | 0.
#[global] Instance Path_eq_dec : EqDecision Path.
Proof. solve_decision. Defined.
End Decisions.

Definition file_name (p : Path) : option bytes :=
  match p with Data rel | Backups rel => last rel | Beside n | Temp n => Some n | Parent => None end.
Definition under (p : Path) (rel : list bytes) : Path :=
  match p with Data r => Data (r ++ rel) | Backups r => Backups (r ++ rel) | _ => p end.

(** ** What it asks *)
Inductive BackupType := Full | Dump.
#[global] Instance BackupType_eq_dec : EqDecision BackupType.
Proof. solve_decision. Defined.
Inductive FileType := IsDir | IsFile | IsSymlink | IsOther.
Inductive Component := Normal (name : bytes) | ParentDir | CurDir.
Record LinkTarget := LinkTarget_ { absolute : bool; components : list Component }.
Inductive Subprocess :=
| PgBasebackup (tar : bool) (out : Path)
| PgVerifyBackup (skip_wal : bool) (backup : Path)
| CountTablespaces
| PgDumpAll (stdout : Path)
| Psql (database : bytes) (file : Path)
| PgIsReady.
(** [run_with_timeout]: over its budget, not run, or an exit code and stdout. *)
Inductive Output := OverBudget | CannotRun | Output_ (code : option Z) (stdout : bytes).

Inductive SysReq :=
| LocalNow | ProcessId | UnixNanos
| PathExists (p : Path) | PathIsDir (p : Path) | PathIsFile (p : Path)
| CreateDirAll (p : Path)
| ReadDir (p : Path)
| Walk (p : Path)
| Lstat (p : Path)
| FileLen (p : Path)
| Canonicalize (p : Path)
| ReadLink (p : Path)
| Symlink (target : LinkTarget) (p : Path)
| Rename (a b : Path)
| RemoveDirAll (p : Path) | RemoveFile (p : Path)
| FsyncDir (p : Path)
| CreateFile (p : Path) | SetMode (p : Path) (mode : Z) | OpenRead (p : Path)
| CopyInto (src dst : Path) | Flush (p : Path)
| GzInto (src dst : Path) | GzFinish (p : Path) | GunzipInto (src dst : Path)
| SyncFile (p : Path)
| TarEntries (p : Path) (gz : bool)
| UnpackIn (archive : Path) (entry : nat) (target : Path)
| SpawnBlocking.
Inductive AwaitReq :=
| LockOp
| Run (c : Subprocess)
| ReadPid | ProcExists (pid : Z) | ProcState (pid : Z) | ProcSelf.
Inductive Req := Sys (q : SysReq) | Await (q : AwaitReq).
Section Decisions.
#[local] Existing Instance byte_code_dec | 0.
#[global] Instance Component_eq_dec : EqDecision Component.
Proof. solve_decision. Defined.
#[global] Instance LinkTarget_eq_dec : EqDecision LinkTarget.
Proof. solve_decision. Defined.
#[global] Instance Subprocess_eq_dec : EqDecision Subprocess.
Proof. solve_decision. Defined.
#[global] Instance SysReq_eq_dec : EqDecision SysReq.
Proof. solve_decision. Defined.
#[global] Instance AwaitReq_eq_dec : EqDecision AwaitReq.
Proof. solve_decision. Defined.
#[global] Instance Req_eq_dec : EqDecision Req.
Proof. solve_decision. Defined.
End Decisions.

Definition SysAnswer (q : SysReq) : Type :=
  match q with
  | LocalNow | ProcessId | UnixNanos => Z
  | ReadDir _ => result () (list (result () bytes))       (* names, in listing order *)
  | Walk _ => list (result () (list bytes * FileType))    (* paths below, the root first *)
  | Lstat _ => result () FileType
  | FileLen _ => option Z
  | Canonicalize _ => option (list bytes)
  | ReadLink _ => option LinkTarget
  | TarEntries _ _ => result () (list (result () ()))
  | UnpackIn _ _ _ => result () bool
  | _ => bool
  end.
Definition AwaitAnswer (q : AwaitReq) : Type :=
  match q with
  | LockOp => unit
  | Run _ => Output
  | ReadPid => result Standby.ReadError bytes
  | ProcExists _ | ProcSelf => bool
  | ProcState _ => option bytes
  end.
(** [None]: the operation is dropped there. *)
Definition Answer (q : Req) : Type :=
  match q with Sys q => SysAnswer q | Await q => option (AwaitAnswer q) end.

(** [OutOfRounds]: a run cut by the bound on recursion. *)
Inductive Exit := Failed | Dropped | OutOfRounds.
Abbreviation io A := (prog Answer (result Exit A)).
Definition ok {A} (a : A) : io A := Ret (Ok a).
Definition failed {A} : io A := Ret (Err Failed).
Definition sys (q : SysReq) : io (SysAnswer q) := let* r := ask (Sys q) in ok r.
Definition await (q : AwaitReq) : io (AwaitAnswer q) :=
  let* r := ask (Await q) in Ret (match r with Some a => Ok a | None => Err Dropped end).
(** An error stops the operation, or is only logged. *)
Definition ensure (b : bool) : io () := if b then ok tt else failed.
Definition must (q : SysReq) (succeeded : SysAnswer q → bool) : io () := let? r := sys q in ensure (succeeded r).
Definition of_result {A} (r : result () A) : io A := match r with Ok a => ok a | Err _ => failed end.
Definition of_option {A} (r : option A) : io A := match r with Some a => ok a | None => failed end.
Definition logged (p : io ()) : io () :=
  let* r := p in Ret (match r with Err Failed => Ok tt | r => r end).
Fixpoint each {A} (f : A → io ()) (l : list A) : io () :=
  match l with [] => ok tt | a :: l => let? _ := f a in each f l end.
Definition yes (b : bool) : bool := b.
Definition remove_file (p : Path) : io () := let? _ := sys (RemoveFile p) in ok tt.

(** [spawn_blocking(work).await]: the work runs to its end even when the caller is
    dropped while it does, and that its answer says.  From a [true] on, the requests
    are the detached work's alone; what the caller held is released then, which its
    own caller writes out ([BackupApi.while_held]). *)
Definition run_blocking {A} (work : io A) : io A :=
  let? caller_gone := sys SpawnBlocking in
  let* r := work in
  Ret (if caller_gone : bool then Err Dropped else r).

(** ** Names *)
Definition strip_suffix (p l : bytes) : option bytes := reverse <$> strip_prefix (reverse p) (reverse l).
(** [Path::extension], [Path::file_stem] of a file name. *)
Definition split_extension (name : bytes) : bytes * option bytes :=
  match rsplit_once "."%byte name with
  | Some (stem, ext) => if bool_decide (stem = []) then (name, None) else (stem, Some ext)
  | None => (name, None)
  end.
Definition extension_is (ext name : bytes) : bool :=
  match (split_extension name).2 with Some e => eq_ignore_ascii_case e ext | None => false end.

Inductive BackupArchiveFormat := Tar | TarGz | Other.
Definition classify_archive_format (name : bytes) : BackupArchiveFormat :=
  if extension_is (lit "tar") name then Tar
  else if extension_is (lit "gz") name && extension_is (lit "tar") (split_extension name).1 then TarGz
  else Other.
Definition is_expected_bundle_member (name : bytes) : bool :=
  bool_decide (name ∈ [lit "base.tar"; lit "base.tar.gz"; lit "pg_wal.tar"; lit "pg_wal.tar.gz"]).

Fixpoint bytes_lt (a b : bytes) : bool :=
  match a, b with
  | _, [] => false
  | [], _ => true
  | x :: a, y :: b => (byte_z x <? byte_z y) || ((byte_z x =? byte_z y) && bytes_lt a b)
  end.
Fixpoint insert_name (n : bytes) (l : list bytes) : list bytes :=
  match l with [] => [n] | m :: l' => if bytes_lt m n then m :: insert_name n l' else n :: l end.
Definition sort_names : list bytes → list bytes := foldr insert_name [].

(** ** The manager *)
Record BackupConfig := BackupConfig_ { enabled : bool; retention_count : Z; backup_type : BackupType; compress : bool }.
Record BackupManager := BackupManager_ {
  config : BackupConfig;
  data_name : option bytes;                 (* [pg_data_dir.file_name()] *)
  has_parent : bool;                        (* [pg_data_dir.parent()] is [Some] *)
}.
Record BackupInfo := BackupInfo_ {
  info_path : Path; timestamp : Z; info_type : BackupType; size_bytes : option Z; compressed : bool;
}.
Definition data_dir_name (mgr : BackupManager) : bytes := default (lit "pg_data") (data_name mgr).
Definition STAGING : bytes := lit ".pre_restore_".
Definition staging_prefix (mgr : BackupManager) : bytes := "."%byte :: data_dir_name mgr ++ STAGING.

Section Manager.
Context (fmt : Z → bytes) (parse_ts : bytes → option Z).

Definition parse_backup_filename (name : bytes) (path : Path) : option BackupInfo :=
  '(ty, ts, compressed) ←
    match strip_prefix (lit "full_backup_") name, strip_prefix (lit "dump_") name with
    | Some rest, _ =>
        match strip_suffix (lit ".tar.gz") rest with
        | Some ts => Some (Full, ts, true)
        | None => Some (Full, rest, false)
        end
    | None, Some rest =>
        match strip_suffix (lit ".sql.gz") rest with
        | Some ts => Some (Dump, ts, true)
        | None => if extension_is (lit "sql") rest then ts ← strip_suffix (lit ".sql") rest; Some (Dump, ts, false) else None
        end
    | None, None => None
    end;
  timestamp ← parse_ts ts;
  Some (BackupInfo_ path timestamp ty None compressed).

(** ** Listing and rotating *)
Fixpoint sum_sizes (p : Path) (entries : list (result () (list bytes * FileType))) (total : Z) : io Z :=
  match entries with
  | [] => ok total
  | e :: entries =>
      let? e := of_result e in
      match e.2 with
      | IsFile => let? len := sys (FileLen (under p e.1)) in
                  let? len := of_option len in sum_sizes p entries (total + len)
      | _ => sum_sizes p entries total
      end
  end.
Definition get_path_size (p : Path) : io Z :=
  let? f := sys (PathIsFile p) in
  if f : bool then let? len := sys (FileLen p) in of_option len
  else
    let? d := sys (PathIsDir p) in
    if d : bool then let? entries := sys (Walk p) in sum_sizes p entries 0 else failed.
Definition or_none {A} (p : io A) : io (option A) :=
  let* r := p in Ret (match r with Ok a => Ok (Some a) | Err Failed => Ok None | Err e => Err e end).

(** [sort_by_key(Reverse(timestamp))], stable. *)
Fixpoint insert_newest (b : BackupInfo) (l : list BackupInfo) : list BackupInfo :=
  match l with [] => [b] | c :: l' => if timestamp c <=? timestamp b then b :: l else c :: insert_newest b l' end.
Definition newest_first : list BackupInfo → list BackupInfo := foldr insert_newest [].

Fixpoint scan_entries (compute_sizes : bool) (entries : list (result () bytes)) : io (list BackupInfo) :=
  match entries with
  | [] => ok []
  | e :: entries =>
      let? name := of_result e in
      let path := Backups [name] in
      match parse_backup_filename name path with
      | Some info =>
          let? size := if compute_sizes then or_none (get_path_size path) else ok None in
          let? rest := scan_entries compute_sizes entries in
          ok (BackupInfo_ path (timestamp info) (info_type info) size (compressed info) :: rest)
      | None => scan_entries compute_sizes entries
      end
  end.
Definition scan_backups (compute_sizes : bool) : io (list BackupInfo) :=
  let? present := sys (PathExists (Backups [])) in
  if negb present then ok []
  else
    let? r := sys (ReadDir (Backups [])) in
    let? entries := of_result r in
    let? backups := scan_entries compute_sizes entries in
    ok (newest_first backups).
Definition list_backups : io (list BackupInfo) := scan_backups true.

(** [kept]: full and dump backups kept so far. *)
Fixpoint victims_from (backups : list BackupInfo) (retention kept_full kept_dump : Z) : list Path :=
  match backups with
  | [] => []
  | b :: backups =>
      match info_type b with
      | Full => if kept_full <? retention then victims_from backups retention (kept_full + 1) kept_dump
                else info_path b :: victims_from backups retention kept_full kept_dump
      | Dump => if kept_dump <? retention then victims_from backups retention kept_full (kept_dump + 1)
                else info_path b :: victims_from backups retention kept_full kept_dump
      end
  end.
Definition select_rotation_victims (backups : list BackupInfo) (retention : Z) : list Path :=
  victims_from backups retention 0 0.

(** How many went, and how many did not. *)
Fixpoint delete_each (victims : list Path) (deleted failures : Z) : io (Z * Z) :=
  match victims with
  | [] => ok (deleted, failures)
  | p :: victims =>
      let? d := sys (PathIsDir p) in
      let? gone := if d : bool then sys (RemoveDirAll p) else sys (RemoveFile p) in
      if gone : bool then delete_each victims (deleted + 1) failures else delete_each victims deleted (failures + 1)
  end.
Definition rotate_backups_in (retention : Z) : io () :=
  let? backups := scan_backups false in
  let? counts := delete_each (select_rotation_victims backups retention) 0 0 in
  ensure ((counts.2 =? 0) || negb (counts.1 =? 0)).

(** ** Subprocesses *)
Definition run_with_timeout (c : Subprocess) (cleanup : io ()) : io (option Z * bytes) :=
  let? out := await (Run c) in
  match out with
  | OverBudget => let? _ := cleanup in failed
  | CannotRun => failed
  | Output_ code stdout => ok (code, stdout)
  end.
Definition success (out : option Z * bytes) : bool := bool_decide (out.1 = Some 0).
Definition remove_path (p : Path) : io () :=
  let? d := sys (PathIsDir p) in
  if d : bool then let? _ := sys (RemoveDirAll p) in ok tt
  else let? e := sys (PathExists p) in if e : bool then remove_file p else ok tt.
Definition remove_backup_artifact (p : Path) : io () := run_blocking (remove_path p).

(** ** Creating *)
Definition ensure_no_custom_tablespaces : io () :=
  let? out := run_with_timeout CountTablespaces (ok tt) in
  let? _ := ensure (success out) in
  ensure (bool_decide (trim out.2 = lit "0")).
(** An output that is an error or not a success goes, then stops the operation. *)
Definition verify_full_backup (mgr : BackupManager) (path : Path) : io () :=
  let* out := run_with_timeout (PgVerifyBackup (compress (config mgr)) path) (ok tt) in
  match out with
  | Err Dropped => Ret (Err Dropped)
  | Err e => let? _ := remove_backup_artifact path in Ret (Err e)
  | Ok out => if success out then ok tt else let? _ := remove_backup_artifact path in failed
  end.
Definition full_name (mgr : BackupManager) (ts : bytes) : bytes :=
  lit "full_backup_" ++ ts ++ (if compress (config mgr) then lit ".tar.gz" else []).
Definition create_full_backup (mgr : BackupManager) (ts : bytes) (at_ : Z) : io BackupInfo :=
  let? _ := ensure_no_custom_tablespaces in
  let path := Backups [full_name mgr ts] in
  let* out := run_with_timeout (PgBasebackup (compress (config mgr)) path) (ok tt) in
  let? out :=
    match out with
    | Err Dropped => Ret (Err Dropped)
    | Err e => let? _ := remove_backup_artifact path in Ret (Err e)
    | Ok out => ok out
    end in
  let? _ := ensure (success out) in
  let? _ := verify_full_backup mgr path in
  let? size := or_none (get_path_size path) in
  ok (BackupInfo_ path at_ Full size (compress (config mgr))).

(** [PartialFileGuard]: any error removes the output. *)
Definition guarded (out : Path) (body : io ()) : io () :=
  let* r := body in
  match r with Ok _ => ok tt | Err e => let? _ := remove_file out in Ret (Err e) end.
Definition SECRET_MODE : Z := 384.                                       (* 0o600 *)
Definition apply_secret_file_perms (p : Path) : io () := must (SetMode p SECRET_MODE) yes.
Definition compress_file_to_gzip (input output : Path) : io () :=
  guarded output (
    let? _ := must (OpenRead input) yes in
    let? _ := must (CreateFile output) yes in
    let? _ := apply_secret_file_perms output in
    let? _ := must (GzInto input output) yes in
    let? _ := must (GzFinish output) yes in
    let? _ := must (Flush output) yes in
    must (SyncFile output) yes).
Definition decompress_gzip_to_file (input output : Path) : io () :=
  guarded output (
    let? _ := must (OpenRead input) yes in
    let? _ := must (CreateFile output) yes in
    let? _ := must (GunzipInto input output) yes in
    must (Flush output) yes).
Definition sync_file_and_dir (p : Path) : io () :=
  let? _ := must (OpenRead p) yes in
  let? _ := must (SyncFile p) yes in
  let? _ := sys (FsyncDir (Backups [])) in ok tt.

Definition temp_name (prefix : bytes) (pid nanos : Z) : bytes :=
  prefix ++ show_u64 pid ++ "_"%byte :: show_u64 nanos ++ lit ".sql.tmp".
Definition dump_name (mgr : BackupManager) (ts : bytes) : bytes :=
  lit "dump_" ++ ts ++ lit ".sql" ++ (if compress (config mgr) then lit ".gz" else []).
Definition create_dump_backup (mgr : BackupManager) (ts : bytes) (at_ : Z) : io BackupInfo :=
  let path := Backups [dump_name mgr ts] in
  let? _ :=
    if compress (config mgr) then
      let? pid := sys ProcessId in
      let? nanos := sys UnixNanos in
      let temp := Temp (temp_name (lit ".dump_" ++ ts ++ ["_"%byte]) pid nanos) in
      let? _ := must (CreateFile temp) yes in
      let? _ := apply_secret_file_perms temp in
      let? out := run_with_timeout (PgDumpAll temp) (remove_file temp) in
      if negb (success out) then let? _ := remove_file temp in failed
      else
        let* r := run_blocking (compress_file_to_gzip temp path) in
        match r with
        | Err Dropped => Ret (Err Dropped)
        | Err e => let? _ := remove_file temp in Ret (Err e)
        | Ok _ => remove_file temp
        end
    else
      let? _ := must (CreateFile path) yes in
      let? _ := apply_secret_file_perms path in
      let? out := run_with_timeout (PgDumpAll path) (remove_file path) in
      let? _ := ensure (success out) in
      run_blocking (sync_file_and_dir path) in
  let? size := sys (FileLen path) in
  ok (BackupInfo_ path at_ Dump size (compress (config mgr))).

Definition create_backup_with_type (mgr : BackupManager) (ty : BackupType) : io BackupInfo :=
  if negb (enabled (config mgr)) then failed
  else
    let? _ := await LockOp in
    let? _ := must (CreateDirAll (Backups [])) yes in
    let? now := sys LocalNow in
    let ts := fmt now in
    let? info := match ty with Full => create_full_backup mgr ts now | Dump => create_dump_backup mgr ts now end in
    let? _ := logged (run_blocking (rotate_backups_in (retention_count (config mgr)))) in
    ok info.
Definition create_backup (mgr : BackupManager) : io BackupInfo := create_backup_with_type mgr (backup_type (config mgr)).

(** ** What a restore reads *)
Definition check_members (entries : list (result () bytes)) : io () :=
  each (λ e,
    let? name := of_result e in
    ensure (match classify_archive_format name with Other => true | _ => is_expected_bundle_member name end)) entries.
Definition validate_full_backup_bundle (path : Path) (compressed : bool) : io () :=
  if negb compressed then ok tt
  else
    let? d := sys (PathIsDir path) in
    if negb d then ok tt
    else
      let? r := sys (ReadDir path) in
      let? entries := of_result r in
      check_members entries.

(** ** The staged copy *)
Definition candidate (prefix ts : bytes) (suffix : Z) : Path :=
  Beside (prefix ++ ts ++ "_"%byte :: show_u64 suffix).
(** The suffixes [start .. start + 2^k - 1], in order. *)
Fixpoint first_free (k : nat) (prefix ts : bytes) (start : Z) : io (option Path) :=
  match k with
  | O =>
      let c := candidate prefix ts start in
      let? taken := sys (PathExists c) in
      ok (if taken : bool then None else Some c)
  | S k =>
      let? r := first_free k prefix ts start in
      match r with Some c => ok (Some c) | None => first_free k prefix ts (start + 2 ^ Z.of_nat k) end
  end.
Definition make_staged_data_dir_path (mgr : BackupManager) : io Path :=
  let? _ := ensure (has_parent mgr) in
  let? now := sys LocalNow in
  let? c := first_free 32 (staging_prefix mgr) (fmt now) 0 in
  of_option c.
Definition stage_existing_data_dir (mgr : BackupManager) : io (option Path) :=
  let? present := sys (PathExists (Data [])) in
  if negb present then ok None
  else
    let? staged := make_staged_data_dir_path mgr in
    let? _ := must (Rename (Data []) staged) yes in
    let? synced := sys (FsyncDir Parent) in
    if synced : bool then ok (Some staged)
    else let? _ := sys (Rename staged (Data [])) in failed.

(** ** Copying a plain backup *)
Definition parent_dir (rel : list bytes) : list bytes := removelast rel.
Definition escapes (t : LinkTarget) : bool :=
  absolute t || existsb (λ c, match c with ParentDir => true | _ => false end) (components t).
Definition copy_file_buffered (src dst : Path) : io () :=
  let? _ := must (OpenRead src) yes in
  let? _ := must (CreateFile dst) yes in
  let? _ := must (CopyInto src dst) yes in
  must (Flush dst) yes.
Definition copy_entry (source target : Path) (e : result () (list bytes * FileType)) : io () :=
  let? e := of_result e in
  let '(rel, file_type) := e in
  if bool_decide (rel = []) then ok tt
  else
    match file_type with
    | IsDir => must (CreateDirAll (under target rel)) yes
    | IsSymlink =>
        let? _ := must (CreateDirAll (under target (parent_dir rel))) yes in
        let? t := sys (ReadLink (under source rel)) in
        let? t := of_option t in
        let? _ := ensure (negb (escapes t)) in
        must (Symlink t (under target rel)) yes
    | IsFile =>
        let? _ := must (CreateDirAll (under target (parent_dir rel))) yes in
        copy_file_buffered (under source rel) (under target rel)
    | IsOther =>
        let? _ := must (CreateDirAll (under target (parent_dir rel))) yes in failed
    end.
Definition copy_directory_contents (source target : Path) : io () :=
  let? entries := sys (Walk source) in each (copy_entry source target) entries.

(** ** Unpacking a tar backup *)
Fixpoint unpack_entries (archive target : Path) (i : nat) (entries : list (result () ())) : io () :=
  match entries with
  | [] => ok tt
  | e :: entries =>
      let? _ := of_result e in
      let? r := sys (UnpackIn archive i target) in
      let? unpacked := of_result r in
      let? _ := ensure unpacked in
      unpack_entries archive target (S i) entries
  end.
Definition extract_tar (gz : bool) (archive target : Path) : io () :=
  let? _ := must (OpenRead archive) yes in
  let? r := sys (TarEntries archive gz) in
  let? entries := of_result r in
  unpack_entries archive target 0 entries.
Fixpoint tar_names (entries : list (result () bytes)) : io (list bytes) :=
  match entries with
  | [] => ok []
  | e :: entries =>
      let? name := of_result e in
      let? names := tar_names entries in
      ok (match classify_archive_format name with Other => names | _ => name :: names end)
  end.
Definition extract_tar_bundle_dir (bundle target : Path) : io () :=
  let? r := sys (ReadDir bundle) in
  let? entries := of_result r in
  let? names := tar_names entries in
  let names := sort_names names in
  let? _ := ensure (negb (bool_decide (names = []))) in
  each (λ name,
    match classify_archive_format name with
    | TarGz => extract_tar true (under bundle [name]) target
    | Tar => extract_tar false (under bundle [name]) target
    | Other => ok tt
    end) names.
Definition restore_compressed_full_backup (path target : Path) : io () :=
  let? f := sys (PathIsFile path) in
  if f : bool then extract_tar true path target
  else let? d := sys (PathIsDir path) in if d : bool then extract_tar_bundle_dir path target else failed.

(** ** Making it durable *)
Fixpoint fsync_restored_tree (depth : nat) (p : Path) : io () :=
  match depth with
  | O => Ret (Err OutOfRounds)
  | S depth =>
      let? meta := sys (Lstat p) in
      let? meta := of_result meta in
      match meta with
      | IsSymlink | IsOther => ok tt
      | IsDir =>
          let? r := sys (ReadDir p) in
          let? entries := of_result r in
          let? _ := each (λ e, let? name := of_result e in fsync_restored_tree depth (under p [name])) entries in
          let? _ := sys (FsyncDir p) in ok tt
      | IsFile => let? _ := must (OpenRead p) yes in must (SyncFile p) yes
      end
  end.
Definition PGDATA_MODE : Z := 448.                                       (* 0o700 *)
Definition finalize_restored_data_dir (depth : nat) : io () :=
  let? _ := must (SetMode (Data []) PGDATA_MODE) yes in
  fsync_restored_tree depth (Data []).

(** ** Before and after *)
Definition is_dead_state (status : bytes) : bool :=
  match find (starts_with (lit "State:")) (lines status) with
  | Some l => bool_decide ("Z"%byte ∈ l) || bool_decide ("X"%byte ∈ l)
  | None => false
  end.
Definition confirm_no_live_postmaster : io () :=
  let? r := await ReadPid in
  match r with
  | Err Standby.NotFound => ok tt
  | Err _ => failed
  | Ok content =>
      let? pid := of_option (line ← head (lines content); Standby.parse_i32 (trim line)) in
      let? proc_dir_exists := await (ProcExists pid) in
      let? proc_status := await (ProcState pid) in
      let? positively_dead :=
        if proc_dir_exists : bool then ok (match proc_status with Some s => is_dead_state s | None => false end)
        else await ProcSelf in
      ensure positively_dead
  end.
Definition ensure_postgres_stopped : io () :=
  let? out := run_with_timeout PgIsReady (ok tt) in
  let? code := of_option out.1 in
  if (code =? 0) || (code =? 1) then failed
  else if code =? 2 then confirm_no_live_postmaster
  else failed.

Definition remove_staged_pre_restore (mgr : BackupManager) (staged : Path) : io () :=
  let* removal := run_blocking (must (RemoveDirAll staged) yes) in
  match removal with
  | Ok _ => if has_parent mgr then let? _ := sys (FsyncDir Parent) in ok tt else ok tt
  | Err Failed => ok tt
  | Err e => Ret (Err e)
  end.
(** The restore's error is the answer, whatever the rollback's. *)
Definition rollback_failed_restore (mgr : BackupManager) (staged : option Path) : io () :=
  let* r := run_blocking (
    let? present := sys (PathExists (Data [])) in
    let? _ := if present : bool then let? _ := sys (RemoveDirAll (Data [])) in ok tt else ok tt in
    match staged with
    | Some staged =>
        let? _ := must (Rename staged (Data [])) yes in
        if has_parent mgr then let? _ := sys (FsyncDir Parent) in ok tt else ok tt
    | None => ok tt
    end) in
  Ret (match r with Err Dropped => Err Dropped | _ => Err Failed end).

Definition write_restored (depth : nat) (path : Path) (compressed : bool) : io () :=
  let? _ :=
    if compressed then restore_compressed_full_backup path (Data [])
    else
      let? d := sys (PathIsDir path) in
      if d : bool then copy_directory_contents path (Data []) else failed in
  finalize_restored_data_dir depth.
Definition restore_full_backup (depth : nat) (mgr : BackupManager) (path : Path) (compressed : bool) : io () :=
  let? _ := validate_full_backup_bundle path compressed in
  let? _ := ensure_postgres_stopped in
  let? _ := if has_parent mgr then must (CreateDirAll Parent) yes else ok tt in
  let? staged := stage_existing_data_dir mgr in
  let? _ := must (CreateDirAll (Data [])) yes in
  let* r := run_blocking (write_restored depth path compressed) in
  match r with
  | Ok _ => match staged with Some staged => remove_staged_pre_restore mgr staged | None => ok tt end
  | Err Failed => rollback_failed_restore mgr staged
  | Err e => Ret (Err e)
  end.

Definition restore_dump_backup (path : Path) (compressed : bool) (database : option bytes) : io () :=
  let? temp :=
    if compressed then
      let? pid := sys ProcessId in
      let? nanos := sys UnixNanos in
      let temp := Temp (temp_name (lit ".restore_") pid nanos) in
      let* r := run_blocking (decompress_gzip_to_file path temp) in
      match r with
      | Ok _ => ok (Some temp)
      | Err Dropped => Ret (Err Dropped)
      | Err e => let? _ := remove_file temp in Ret (Err e)
      end
    else ok None in
  let? out := run_with_timeout (Psql (default (lit "postgres") database) (default path temp)) (ok tt) in
  let? _ := match temp with Some t => remove_file t | None => ok tt end in
  ensure (success out).

Fixpoint is_prefix (p l : list bytes) : bool :=
  match p, l with [], _ => true | a :: p, b :: l => bool_decide (a = b) && is_prefix p l | _, [] => false end.
Definition restore_backup (depth : nat) (mgr : BackupManager) (filename : bytes) (database : option bytes) : io () :=
  if bool_decide ("/"%byte ∈ filename) || bool_decide ("\"%byte ∈ filename) || str_contains (lit "..") filename then failed
  else
    let path := Backups [filename] in
    let? backup := sys (Canonicalize path) in
    let? backup := of_option backup in
    let? dir := sys (Canonicalize (Backups [])) in
    let? dir := of_option dir in
    let? _ := ensure (is_prefix dir backup) in
    let? _ := must (PathExists path) yes in
    let? info := of_option (parse_backup_filename filename path) in
    match info_type info with
    | Dump => restore_dump_backup path (compressed info) database
    | Full => restore_full_backup depth mgr path (compressed info)
    end.

(** ** At the next start *)
Definition pgdata_looks_valid : io bool :=
  let? v := sys (PathIsFile (Data [lit "PG_VERSION"])) in
  if negb v then ok false else sys (PathIsFile (Data [lit "global"; lit "pg_control"])).
Fixpoint newest_staging (prefix : bytes) (entries : list (result () bytes)) (newest : option bytes) : io (option bytes) :=
  match entries with
  | [] => ok newest
  | e :: entries =>
      let? name := of_result e in
      let? d := if starts_with prefix name then sys (PathIsDir (Beside name)) else ok false in
      let newer := d && match newest with Some cur => bytes_lt cur name | None => true end in
      newest_staging prefix entries (if newer : bool then Some name else newest)
  end.
Definition find_pre_restore_staging (mgr : BackupManager) : io (option bytes) :=
  if negb (has_parent mgr) then ok None
  else
    let? present := sys (PathExists Parent) in
    if negb present then ok None
    else
      let? r := sys (ReadDir Parent) in
      let? entries := of_result r in
      newest_staging (staging_prefix mgr) entries None.
Definition recover_interrupted_restore (mgr : BackupManager) : io () :=
  let? found := find_pre_restore_staging mgr in
  match found with
  | None => ok tt
  | Some staged =>
      let? valid := pgdata_looks_valid in
      if valid : bool then ok tt
      else
        let? present := sys (PathExists (Data [])) in
        let? _ := if present : bool then must (RemoveDirAll (Data [])) yes else ok tt in
        let? _ := must (Rename (Beside staged) (Data [])) yes in
        if has_parent mgr then must (FsyncDir Parent) yes else ok tt
  end.
End Manager.
