(* ===== verification/BackupProofs.v ===== *)
(** * What a restore may leave of the data directory

    The data directory and its siblings as trees, the requests' effect on them, and
    the restore of a full backup with the recovery at the next start.  A process
    death leaves the trees as they are. *)

From S2P Require Import Prelude Effects Text PgFiles Backup.

(** ** The directories *)
(** A file's content is unknown while it is being written. *)
Inductive Node := NDir | NLink (t : LinkTarget) | NFile (content : option bytes) (synced : bool).
Abbreviation Tree := (gmap (list bytes) Node).
(** [data]: below [pg_data_dir], when it is there.  [beside]: the directories next to
    it.  [writer]: what a buffered writer has been given. *)
Record Disk := Disk_ { data : option Tree; beside : gmap bytes Tree; writer : option (list bytes * bytes) }.
Definition put_data (t : option Tree) (s : Disk) : Disk := Disk_ t (beside s) None.

Definition is_regular (n : option Node) : Prop := ∃ c y, n = Some (NFile c y).
Definition dirs_made (t t' : Tree) : Prop := ∀ q, t' !! q = t !! q ∨ (t !! q = None ∧ t' !! q = Some NDir).
Definition type_of (n : Node) : FileType := match n with NDir => IsDir | NLink _ => IsSymlink | NFile _ _ => IsFile end.
(** Every node is in a directory. *)
Definition is_tree (t : Tree) : Prop :=
  t !! [] = None ∧ ∀ rel name, is_Some (t !! (rel ++ [name])) → rel = [] ∨ t !! rel = Some NDir.
Definition is_disk (s : Disk) : Prop := ∀ t, data s = Some t → is_tree t.

(** ** Requests that only add to the data directory, or leave everything alone *)
Definition builds (q : Req) : bool :=
  match q with Sys (Rename _ _) | Sys (RemoveDirAll _) => false | _ => true end.
(** What blocking work asks. *)
Definition works (q : Req) : bool :=
  match q with Await _ | Sys (SpawnBlocking | Rename _ _ | RemoveDirAll _) => false | _ => true end.
Definition harmless (q : Req) : bool :=
  match q with
  | Await _ | Sys (LocalNow | ProcessId | UnixNanos | PathExists _ | PathIsDir _ | PathIsFile _ | ReadDir _ | Walk _
    | Lstat _ | FileLen _ | Canonicalize _ | ReadLink _ | OpenRead _ | SetMode _ _ | TarEntries _ _
    | SpawnBlocking | FsyncDir _ | CreateDirAll Parent) => true
  | _ => false
  end.
(** ** Which programs ask only such requests *)
Section Asking.
Context (P : Req → bool).
Lemma asks_sys q : P (Sys q) = true → asks P (sys q).
Proof. by split. Qed.
Lemma asks_awaited q : P (Await q) = true → asks P (Backup.await q).
Proof. by split. Qed.
Lemma asks_must q f : P (Sys q) = true → asks P (must q f).
Proof. intros H. split; [done|]. intros r. cbn. by destruct (f r). Qed.
Lemma asks_each {A} (f : A → io ()) l : (∀ a, asks P (f a)) → asks P (each f l).
Proof. intros Hf. induction l as [|a l IH]; cbn [each]; [done|]. by apply asks_try. Qed.
Lemma asks_run c : P (Await (Run c)) = true → asks P (run_with_timeout c (ok tt)).
Proof. intros H. apply asks_try; [by apply asks_awaited|]. by intros [| |]. Qed.
Lemma asks_blocking {A} (w : io A) : P (Sys SpawnBlocking) = true → asks P w → asks P (run_blocking w).
Proof. intros H Hw. apply asks_try; [by apply asks_sys|]. intros g. apply asks_bind; [done|]. intros r. by destruct g. Qed.
End Asking.
Lemma asks_mono {A} (P P' : Req → bool) (p : io A) : (∀ q, P q = true → P' q = true) → asks P p → asks P' p.
Proof. intros HP. induction p as [r|q k IH]; [done|]. intros [Hq Hk]. split; [by apply HP|]. intros r. by apply IH. Qed.
Ltac asking :=
  repeat (intros; lazymatch goal with
    | |- True => exact I
    | |- asks _ (let _ := _ in _) => cbv zeta
    | |- asks _ (if ?b then _ else _) => destruct b
    | |- asks _ (match ?x with _ => _ end) => destruct x
    | |- asks _ (try_bind _ _) => apply asks_try
    | |- asks _ (bind _ _) => apply asks_bind
    | |- asks _ (Ret _) => exact I
    | |- asks _ (ok _) => exact I
    | |- asks _ failed => exact I
    | |- asks _ (sys _) => apply asks_sys; reflexivity
    | |- asks _ (Backup.await _) => apply asks_awaited; reflexivity
    | |- asks _ (must _ _) => apply asks_must; reflexivity
    | |- asks _ (run_with_timeout _ _) => apply asks_run; reflexivity
    | |- asks _ (run_blocking _) => apply asks_blocking; [reflexivity|]
    | |- asks _ (each _ _) => apply asks_each
    | |- asks _ (ensure ?b) => unfold ensure
    | |- asks _ (of_result ?r) => unfold of_result
    | |- asks _ (of_option ?r) => unfold of_option
    end).

Lemma unpack_asks a i l : asks works (unpack_entries a (Data []) i l).
Proof. revert i. induction l as [|e l IH]; intros i; cbn [unpack_entries]; [done|]. asking; intros; apply IH. Qed.
Lemma tar_names_asks l : asks works (tar_names l).
Proof. induction l as [|e l IH]; cbn [tar_names]; asking; done. Qed.
Lemma extract_asks gz a : asks works (extract_tar gz a (Data [])).
Proof. unfold extract_tar. asking; intros; apply unpack_asks. Qed.
Lemma fsync_asks n rel : asks works (fsync_restored_tree n (Data rel)).
Proof. revert rel. induction n as [|n IH]; intros rel; cbn [fsync_restored_tree]; asking; intros; apply IH. Qed.
Lemma copy_entry_asks src rel e : asks works (copy_entry src (Data rel) e).
Proof. unfold copy_entry, copy_file_buffered. asking. Qed.
Lemma write_restored_asks n p c : asks works (write_restored n p c).
Proof.
  unfold write_restored, restore_compressed_full_backup, extract_tar_bundle_dir, copy_directory_contents,
    finalize_restored_data_dir.
  asking; intros; first [apply extract_asks | apply tar_names_asks | apply fsync_asks | apply copy_entry_asks].
Qed.
Lemma bundle_asks p c : asks harmless (validate_full_backup_bundle p c).
Proof. unfold validate_full_backup_bundle, check_members. asking. Qed.
Lemma stopped_asks : asks harmless ensure_postgres_stopped.
Proof. unfold ensure_postgres_stopped, confirm_no_live_postmaster. asking. Qed.

(** What lies in the backup directory: what its files read as, how walkdir lists a
    plain backup, what the entries of each archive are, and what a compressed backup
    is, a file or a directory and how it is listed. *)
Record Shelf := Shelf_ {
  contents : Path → bytes;
  listing : list (result () (list bytes * FileType));
  packed : Path → list (list bytes * Node);
  bundle : option (list (result () bytes));
}.

(** An archive's entry is unpacked: its node is there, directories may have been made
    for it, and nothing else is touched, unless the way to it goes through a link. *)
Definition clear_way (rel : list bytes) (t : Tree) : Prop :=
  ∀ q x k, rel = q ++ x → x ≠ [] → t !! q ≠ Some (NLink k).
Definition lands (rel : list bytes) (n : Node) (t t' : Tree) : Prop :=
  clear_way rel t → t' !! rel = Some n ∧ ∀ q, q ≠ rel → t' !! q = t !! q ∨ (t !! q = None ∧ t' !! q = Some NDir).

Section Disk.
Context (shelf : Shelf).

Definition effect (s : Disk) (e : @event Req Answer) (s' : Disk) : Prop :=
  match e with
  | existT (Sys (PathExists (Data []))) r => (r = true ↔ is_Some (data s)) ∧ s' = s
  | existT (Sys (PathExists Parent)) r => r = true ∧ s' = s
  | existT (Sys (PathExists (Beside n))) r => (is_Some (beside s !! n) → r = true) ∧ s' = s
  | existT (Sys (PathIsDir (Beside n))) r => (r = true ↔ is_Some (beside s !! n)) ∧ s' = s
  | existT (Sys (PathIsFile (Data rel))) r =>
      s' = s ∧ (is_regular (data s ≫= lookup rel) → r = true) ∧
      (r = true → is_regular (data s ≫= lookup rel) ∨ ∃ l, data s ≫= lookup rel = Some (NLink l))
  | existT (Sys (Lstat (Data rel))) r =>
      s' = s ∧ ∀ ft, r = Ok ft → (rel = [] ∧ ft = IsDir ∧ is_Some (data s)) ∨ type_of <$> (data s ≫= lookup rel) = Some ft
  | existT (Sys (ReadDir (Data rel))) r =>
      s' = s ∧ ∀ l, r = Ok l → Err tt ∈ l ∨ ∀ name, is_Some (data s ≫= lookup (rel ++ [name])) → Ok name ∈ l
  | existT (Sys (ReadDir Parent)) r =>
      s' = s ∧ ∀ l, r = Ok l → Err tt ∈ l ∨ ∀ name, is_Some (beside s !! name) → Ok name ∈ l
  | existT (Sys (PathIsFile (Backups _))) r => s' = s ∧ (r = true → bundle shelf = None)
  | existT (Sys (PathIsDir (Backups _))) r => s' = s ∧ (r = true → is_Some (bundle shelf))
  | existT (Sys (ReadDir (Backups _))) r => s' = s ∧ ∀ l, r = Ok l → bundle shelf = Some l
  | existT (Sys (Walk _)) r => s' = s ∧ r = listing shelf
  | existT (Sys (CreateDirAll (Data rel))) r =>
      (r = false ∧ s' = s) ∨
      ∃ t', s' = put_data (Some t') s ∧ dirs_made (default ∅ (data s)) t' ∧
        (r = true → ∀ a b, rel = a ++ b → a ≠ [] → t' !! a = Some NDir)
  | existT (Sys (CreateFile (Data rel))) r =>
      if r : bool then ∃ t, data s = Some t ∧
        ((t !! rel = None ∨ is_regular (t !! rel)) ∧ s' = put_data (Some (<[rel := NFile (Some []) false]> t)) s ∨
         ∃ l t', t !! rel = Some (NLink l) ∧ s' = put_data (Some t') s)
      else s' = s
  | existT (Sys (CopyInto src (Data rel))) r =>
      ∃ t, data s = Some t ∧ is_regular (t !! rel) ∧
        s' = Disk_ (Some (<[rel := NFile None false]> t)) (beside s) (if r : bool then Some (rel, contents shelf src) else None)
  | existT (Sys (Flush (Data rel))) r =>
      match r, writer s with
      | true, Some (rel', b) =>
          rel' = rel ∧ ∃ t, data s = Some t ∧ s' = put_data (Some (<[rel := NFile (Some b) false]> t)) s
      | _, _ => s' = s
      end
  | existT (Sys (SyncFile (Data rel))) r =>
      if r : bool then ∃ t c y, data s = Some t ∧ t !! rel = Some (NFile c y) ∧ s' = put_data (Some (<[rel := NFile c true]> t)) s
      else s' = s
  | existT (Sys (Symlink l (Data rel))) r =>
      if r : bool then ∃ t, data s = Some t ∧ t !! rel = None ∧ s' = put_data (Some (<[rel := NLink l]> t)) s else s' = s
  | existT (Sys (TarEntries a _)) r =>
      s' = s ∧ ∀ l, r = Ok l → Err tt ∈ l ∨ length l = length (packed shelf a)
  | existT (Sys (UnpackIn a i (Data _))) r =>
      ∃ t', s' = put_data t' s ∧ (is_Some (data s) → is_Some t') ∧
        (r = Ok true → ∃ rel n, packed shelf a !! i = Some (rel, n) ∧
           if bool_decide (rel = []) then t' = data s
           else ∃ t1 t2, data s = Some t1 ∧ t' = Some t2 ∧ lands rel n t1 t2)
  | existT (Sys (Rename (Data []) (Beside n))) r =>
      if r : bool then ∃ t, data s = Some t ∧ beside s !! n = None ∧ s' = Disk_ None (<[n := t]> (beside s)) None else s' = s
  | existT (Sys (Rename (Beside n) (Data []))) r =>
      if r : bool then ∃ t, beside s !! n = Some t ∧ (data s = None ∨ data s = Some ∅) ∧
                            s' = Disk_ (Some t) (delete n (beside s)) None
      else s' = s
  | existT (Sys (RemoveDirAll (Data []))) r =>
      if r : bool then s' = put_data None s
      else s' = s ∨ ∃ t t', data s = Some t ∧ t' ⊆ t ∧ s' = put_data (Some t') s
  | existT (Sys (RemoveDirAll (Beside n))) r =>
      if r : bool then s' = Disk_ (data s) (delete n (beside s)) None
      else s' = s ∨ ∃ t t', beside s !! n = Some t ∧ t' ⊆ t ∧ s' = Disk_ (data s) (<[n := t']> (beside s)) None
  | _ => s' = s
  end.
Definition step (s : Disk) (e : @event Req Answer) (s' : Disk) : Prop := effect s e s' ∧ is_disk s'.
Abbreviation steps := (steps step).
Abbreviation within := (within step).
Definition anywhere (s : Disk) : Prop := True.

(** ** What such requests do *)
Lemma builds_step s q r s' : builds q = true → step s (answered q r) s' →
  beside s' = beside s ∧ (is_Some (data s) → is_Some (data s')).
Proof.
  intros Hq [H _]. destruct q as [q|q]; [|cbn in H; by subst].
  destruct q; cbn in H; try discriminate Hq; try (by subst s');
    try destruct p as [[]| | | |]; try destruct dst; try destruct target; try discriminate Hq;
    cbn in H; try (by subst s'); destruct_and?; try (by subst s').
  all: repeat (first [ by subst | match goal with
    | H : ∃ _, _ |- _ => destruct H
    | H : _ ∧ _ |- _ => destruct H
    | H : _ ∨ _ |- _ => destruct H
    | H : context [if ?b then _ else _] |- _ => destruct b
    | H : context [match writer ?d with _ => _ end] |- _ => destruct (writer d) as [[]|]
    | H : context [match ?r with true => _ | _ => _ end] |- _ => destruct r
    end ]).
Qed.
Lemma harmless_step s q r s' : harmless q = true → step s (answered q r) s' → s' = s.
Proof.
  intros Hq [H _]. destruct q as [q|q]; [|exact H].
  destruct q; try discriminate Hq; cbn in H; try exact H;
    destruct p as [[]| | | |]; cbn in H; try discriminate Hq; try exact H; by destruct_and?.
Qed.

(** ** Steps of a program on the disk *)
Lemma at_sys (I : Disk → Prop) q {A} (f : SysAnswer q → io A) s (Q : result Exit A → Disk → Prop) :
  I s → (∀ r s', step s (answered (Sys q) r) s' → within I (f r) s' Q) →
  within I (let? r := sys q in f r) s Q.
Proof. intros Hs H. split; [done|]. intros r s' Hst. by apply H. Qed.
Lemma at_must (I : Disk → Prop) q (g : SysAnswer q → bool) {A} (f : io A) s (Q : result Exit A → Disk → Prop) :
  I s → (∀ r s', step s (answered (Sys q) r) s' → I s') →
  (∀ r s', step s (answered (Sys q) r) s' → g r = false → Q (Err Failed) s') →
  (∀ r s', step s (answered (Sys q) r) s' → g r = true → within I f s' Q) →
  within I (let? _ := must q g in f) s Q.
Proof.
  intros Hs HI Hf Ht. split; [done|]. intros r s' Hst. cbn. destruct (g r) eqn:E; cbn.
  - eapply Ht; eauto.
  - split; [by eapply HI|by eapply Hf].
Qed.
Lemma at_end_must (I : Disk → Prop) q (g : SysAnswer q → bool) s (Q : result Exit () → Disk → Prop) :
  I s → (∀ r s', step s (answered (Sys q) r) s' → I s' ∧ Q (if g r then Ok tt else Err Failed) s') →
  within I (must q g) s Q.
Proof.
  intros Hs H. split; [done|]. intros r s' Hst. cbn. destruct (H r s' Hst) as [HI HQ]. destruct (g r); by split.
Qed.

(** ** Syncing the tree *)
(** The same nodes, some files synced since. *)
Definition syncs (t t' : Tree) : Prop :=
  ∀ q, t' !! q = t !! q ∨ ∃ c y, t !! q = Some (NFile c y) ∧ t' !! q = Some (NFile c true).
Definition synced_under (rel : list bytes) (t : Tree) : Prop :=
  ∀ q c y, t !! (rel ++ q) = Some (NFile c y) → y = true.
Lemma syncs_refl t : syncs t t.
Proof. by left. Qed.
Lemma syncs_trans t1 t2 t3 : syncs t1 t2 → syncs t2 t3 → syncs t1 t3.
Proof.
  intros H1 H2 q. destruct (H1 q) as [E1|(c & y & E1 & E1')], (H2 q) as [E2|(c2 & y2 & E2 & E2')].
  - left. congruence.
  - right. exists c2, y2. split; congruence.
  - right. exists c, y. split; congruence.
  - right. exists c, y. split; [done|]. congruence.
Qed.
Lemma synced_under_mono rel t t' : syncs t t' → synced_under rel t → synced_under rel t'.
Proof.
  intros Hs Hy q c y Hq. destruct (Hs (rel ++ q)) as [E|(c' & y' & E & E')].
  - rewrite E in Hq. by eapply Hy.
  - rewrite E' in Hq. by simplify_eq.
Qed.
Lemma is_tree_above t a b : is_tree t → is_Some (t !! (a ++ b)) → is_Some (t !! a) ∨ a = [].
Proof.
  intros [_ Ht]. revert a. induction b as [|x b IH]; intros a H; [left; by rewrite app_nil_r in H|].
  rewrite cons_middle, app_assoc in H. destruct (IH _ H) as [H'|H']; [|by apply app_eq_nil in H' as []].
  destruct (Ht _ _ H') as [->|E]; [by right|left; by eexists].
Qed.

Definition kept_tree (s : Disk) (r : result Exit ()) (P : Tree → Prop) (s' : Disk) : Prop :=
  ∀ t, data s = Some t → ∃ t', data s' = Some t' ∧ syncs t t' ∧ (r = Ok tt → P t').

Lemma sync_each rel (f : result () bytes → io ()) l s :
  (∀ e s, is_disk s → within anywhere (f e) s (λ r s', is_disk s' ∧
     kept_tree s r (λ t, match e with Ok name => synced_under (rel ++ [name]) t | Err _ => False end) s')) →
  is_disk s →
  within anywhere (each f l) s (λ r s', is_disk s' ∧ kept_tree s r
    (λ t, ∀ e, e ∈ l → match e with Ok name => synced_under (rel ++ [name]) t | Err _ => False end) s').
Proof.
  intros Hf. revert s. induction l as [|e l IH]; intros s Hd; cbn [each].
  - split; [done|]. split; [done|]. intros t Ht. exists t. split_and!; [done|apply syncs_refl|].
    intros _ e He. by apply elem_of_nil in He.
  - apply within_try. eapply within_mono; [by apply Hf|done|]. intros [[]|x] s1 _ [Hd1 H1].
    2: { split; [done|]. intros t Ht. destruct (H1 t Ht) as (t1 & E1 & S1 & _). by exists t1. }
    eapply within_mono; [by apply IH|done|]. intros r s2 _ [Hd2 H2]. split; [done|].
    intros t Ht. destruct (H1 t Ht) as (t1 & E1 & S1 & P1). destruct (H2 t1 E1) as (t2 & E2 & S2 & P2).
    exists t2. split_and!; [done|by eapply syncs_trans|]. intros Hr e' [->|He]%elem_of_cons.
    + specialize (P1 eq_refl). destruct e; [by eapply synced_under_mono|done].
    + by apply P2.
Qed.

Lemma leaf_synced t rel n :
  is_tree t → t !! rel = Some n → n ≠ NDir → (∀ c y, n = NFile c y → y = true) → synced_under rel t.
Proof.
  intros Ht Hn Hd Hy [|x q] c y Hq.
  - rewrite app_nil_r in Hq. apply (Hy c). congruence.
  - rewrite cons_middle, app_assoc in Hq. destruct (is_tree_above t (rel ++ [x]) q Ht) as [H|H];
      [by eexists| |by apply app_eq_nil in H as []].
    destruct Ht as [H0 Ht]. destruct (Ht _ _ H) as [->|E]; congruence.
Qed.
Lemma dir_synced t t' rel (l : list (result () bytes)) :
  is_tree t' → syncs t t' → (rel = [] ∨ t !! rel = Some NDir) →
  (Err tt ∈ l ∨ ∀ name, is_Some (t !! (rel ++ [name])) → Ok name ∈ l) →
  (∀ e, e ∈ l → match e with Ok name => synced_under (rel ++ [name]) t' | Err _ => False end) →
  synced_under rel t'.
Proof.
  intros Ht Hs Hrel Hl HP. destruct Hl as [He|Hl]; [by destruct (HP _ He)|]. intros [|x q] c y Hq.
  - rewrite app_nil_r in Hq. destruct Hrel as [->|E].
    + destruct Ht as [H0 _]. congruence.
    + destruct (Hs rel) as [E'|(c' & y' & E' & _)]; congruence.
  - rewrite cons_middle, app_assoc in Hq.
    destruct (is_tree_above t' (rel ++ [x]) q Ht) as [[n Hn]|H]; [by eexists| |by apply app_eq_nil in H as []].
    assert (Hx : is_Some (t !! (rel ++ [x]))).
    { destruct (Hs (rel ++ [x])) as [E|(c' & y' & E & _)]; [rewrite <-E; by eexists|by eexists]. }
    exact (HP _ (Hl x Hx) q c y Hq).
Qed.

Lemma fsync_within n rel s :
  is_disk s →
  within anywhere (fsync_restored_tree n (Data rel)) s (λ r s', is_disk s' ∧ kept_tree s r (synced_under rel) s').
Proof.
  revert rel s. induction n as [|n IH]; intros rel s Hd; cbn [fsync_restored_tree].
  { split; [done|]. split; [done|]. intros t Ht. exists t. split_and!; [done|apply syncs_refl|done]. }
  assert (Hsame : ∀ r, r ≠ Ok tt → is_disk s ∧ kept_tree s r (synced_under rel) s).
  { intros r Hr. split; [done|]. intros t Ht. exists t. split_and!; [done|apply syncs_refl|done]. }
  apply at_sys; [done|]. intros meta s1 [[-> Hm] _].
  destruct meta as [ft|e]; cbn [of_result]; [|split; [done|by apply Hsame]].
  specialize (Hm ft eq_refl). cbn [try_bind bind ok].
  assert (Hleaf : ft ≠ IsDir → ft ≠ IsFile → is_disk s ∧ kept_tree s (Ok tt) (synced_under rel) s).
  { intros N1 N2. split; [done|]. intros t Ht. exists t. split_and!; [done|apply syncs_refl|]. intros _.
    destruct Hm as [(_ & -> & _)|Hm]; [done|]. rewrite Ht in Hm. cbn in Hm.
    destruct (t !! rel) as [nd|] eqn:En; [|done]. injection Hm as Hm.
    eapply leaf_synced; [by apply Hd|exact En|destruct nd; by subst|]. intros c y ->. by subst. }
  destruct ft; try (split; [done|by apply Hleaf]).
  - apply at_sys; [done|]. intros r s1 [[-> Hl] _]. destruct r as [l|e]; cbn [of_result]; [|split; [done|by apply Hsame]].
    specialize (Hl l eq_refl). cbn [try_bind bind ok].
    apply within_try. eapply within_mono; [apply (sync_each rel)|done|].
    + intros e s1 Hd1. destruct e as [name|e]; cbn [of_result try_bind bind ok].
      * apply (IH (rel ++ [name])). done.
      * split; [done|]. split; [done|]. intros t Ht. exists t. split_and!; [done|apply syncs_refl|done].
    + done.
    + intros [[]|x] s1 _ [Hd1 H1].
      2: { split; [done|]. intros t Ht. destruct (H1 t Ht) as (t' & E & S & _). by exists t'. }
      apply at_sys; [done|]. intros r s2 [-> _]. split; [done|]. split; [done|].
      intros t Ht. destruct (H1 t Ht) as (t' & E & S & P). exists t'. split_and!; [done..|]. intros _.
      eapply dir_synced; [by apply Hd1|exact S| | |exact (P eq_refl)].
      * destruct Hm as [(-> & _ & _)|Hm]; [by left|right]. rewrite Ht in Hm. cbn in Hm.
        destruct (t !! rel) as [[]|]; done.
      * destruct Hl as [He|Hl]; [by left|right]. intros name Hn. apply Hl. by rewrite Ht.
  - apply at_must; [done..| |].
    + intros r s1 [-> _] _. by apply Hsame.
    + intros r s1 [-> _] _. apply at_end_must; [done|]. intros [] s1 [He Hd1]; cbn; (split; [done|]).
      * destruct He as (t & c & y & Et & En & ->). split; [done|]. intros t0 Ht0. rewrite Et in Ht0. injection Ht0 as <-.
        eexists. split_and!; [done| |].
        { intros q. destruct (decide (q = rel)) as [->|Hq]; [right; exists c, y; by rewrite lookup_insert_eq|].
          left. by rewrite lookup_insert_ne. }
        intros _. eapply leaf_synced; [by apply Hd1|by apply lookup_insert_eq|done|]. by intros c' y' [= _ <-].
      * cbn in He. subst s1. by apply Hsame.
Qed.

(** ** Copying the tree *)
Section Copy.
Context (src : Path).
Definition node_copied (t : Tree) (rel : list bytes) (ft : FileType) : Prop :=
  match ft with
  | IsDir => t !! rel = Some NDir
  | IsFile => ∃ y, t !! rel = Some (NFile (Some (contents shelf (under src rel))) y)
  | IsSymlink => ∃ l, t !! rel = Some (NLink l)
  | IsOther => False
  end.
Definition copied (l : list (list bytes * FileType)) (t : Tree) : Prop :=
  ∀ rel ft, (rel, ft) ∈ l → rel ≠ [] → node_copied t rel ft.
(** So far; a link is one of the entries copied. *)
Definition copying (l : list (list bytes * FileType)) (s : Disk) : Prop :=
  ∃ t, data s = Some t ∧ copied l t ∧ ∀ q k, t !! q = Some (NLink k) → q ∈ l.*1.

Lemma node_copied_dirs t t' rel ft : dirs_made t t' → node_copied t rel ft → node_copied t' rel ft.
Proof.
  intros Hd H. unfold node_copied. destruct (Hd rel) as [E|[E _]]; [by rewrite E|].
  destruct ft; cbn in H; [congruence|by destruct H as [? H]; rewrite H in E|by destruct H as [? H]; rewrite H in E|done].
Qed.
Lemma copying_dirs l s t t' : data s = Some t → dirs_made t t' → copying l s → copying l (put_data (Some t') s).
Proof.
  intros Et Hd (t0 & E & Hc & Hl). rewrite Et in E. injection E as <-. exists t'. split_and!; [done| |].
  - intros rel ft Hin Hr. eapply node_copied_dirs; [exact Hd|by apply Hc].
  - intros q k Hq. destruct (Hd q) as [E|[_ E]]; [rewrite E in Hq; by eapply Hl|congruence].
Qed.
Lemma copying_insert l s t rel n w :
  data s = Some t → rel ∉ l.*1 → (∀ k, n ≠ NLink k) → copying l s →
  copying l (Disk_ (Some (<[rel := n]> t)) (beside s) w).
Proof.
  intros Et Hr Hn (t0 & E & Hc & Hl). rewrite Et in E. injection E as <-. eexists. split_and!; [done| |].
  - intros rel' ft Hin Hr'. assert (Hne : rel ≠ rel') by (intros ->; apply Hr, list_elem_of_fmap; by exists (rel', ft)).
    unfold node_copied. rewrite lookup_insert_ne by done. by apply Hc.
  - intros q k Hq. apply lookup_insert_Some in Hq as [[_ E]|[_ E]]; [by destruct (Hn k)|by eapply Hl].
Qed.
Lemma copying_mkdir l s rel (r : Answer (Sys (CreateDirAll (Data rel)))) s' :
  copying l s → step s (answered (Sys (CreateDirAll (Data rel))) r) s' → copying l s'.
Proof.
  intros Hc [[[_ ->]|(t' & -> & Hd & _)] _]; [done|]. pose proof Hc as (t & Et & _). rewrite Et in Hd.
  by eapply copying_dirs.
Qed.
Lemma copying_now l s rel ft t :
  data s = Some t → node_copied t rel ft → copying l s → copying (l ++ [(rel, ft)]) s.
Proof.
  intros Et Hn (t0 & E & Hc & Hl). rewrite Et in E. injection E as <-. exists t. split_and!; [done| |].
  - intros rel' ft' [Hin|Hin]%elem_of_app Hr; [by apply Hc|].
    apply list_elem_of_singleton in Hin. by simplify_eq.
  - intros q k Hq. rewrite fmap_app. apply elem_of_app. left. by eapply Hl.
Qed.

(** A file is whole once its writer is flushed. *)
Lemma copy_file_within l rel s :
  rel ∉ l.*1 → copying l s →
  within anywhere (copy_file_buffered (under src rel) (Data rel)) s
    (λ r s', r = Ok tt → copying (l ++ [(rel, IsFile)]) s').
Proof.
  intros Hr Hc. unfold copy_file_buffered. apply at_must; [done|done|done|]. intros ok0 s0 [-> _] _.
  apply at_must; [done|done|done|]. intros ok1 s1 [H1 _] E1. unfold yes in E1. subst ok1. cbn in H1.
  destruct H1 as (t & Et & [[_ ->]|(k & t' & Ek & ->)]).
  2: { destruct Hc as (t0 & Et0 & _ & Hl). rewrite Et in Et0. injection Et0 as <-. by destruct Hr; eapply Hl. }
  assert (C1 : copying l (put_data (Some (<[rel := NFile (Some []) false]> t)) s)) by (by eapply copying_insert).
  apply at_must; [done|done|done|]. intros ok2 s2 [H2 _] E2. unfold yes in E2. subst ok2.
  destruct H2 as (t2 & Et2 & _ & ->).
  assert (C2 := copying_insert _ _ t2 rel (NFile None false) (Some (rel, contents shelf (under src rel))) Et2 Hr ltac:(done) C1).
  apply at_end_must; [done|]. intros ok3 s3 [H3 _]. split; [done|]. destruct ok3; [|done]. intros _. cbn in H3.
  destruct H3 as (_ & t3 & Et3 & ->). injection Et3 as <-.
  eapply copying_now; [done| |].
  - cbn. exists false. by rewrite lookup_insert_eq.
  - eapply copying_insert; [reflexivity|done|done|exact C2].
Qed.

Lemma copy_entry_within l e s :
  (∀ rel ft, e = Ok (rel, ft) → rel ≠ [] → rel ∉ l.*1) → copying l s →
  within anywhere (copy_entry src (Data []) e) s
    (λ r s', r = Ok tt → ∃ rel ft, e = Ok (rel, ft) ∧ copying (l ++ [(rel, ft)]) s').
Proof.
  intros He Hc. unfold copy_entry. destruct e as [[rel ft]|x]; cbn [of_result try_bind bind ok]; [|done].
  case_bool_decide as Er.
  { split; [done|]. intros _. exists rel, ft. split; [done|]. destruct Hc as (t & Et & Hc & Hl). exists t.
    split_and!; [done| |].
    - intros rel' ft' [Hin|Hin]%elem_of_app Hr; [by apply Hc|]. apply list_elem_of_singleton in Hin. by simplify_eq.
    - intros q k Hq. rewrite fmap_app. apply elem_of_app. left. by eapply Hl. }
  specialize (He rel ft eq_refl Er).
  assert (Hout : ∀ (r : result Exit ()) s', (r = Ok tt → copying (l ++ [(rel, ft)]) s') →
    (r = Ok tt → ∃ rel' ft', @Ok () _ (rel, ft) = Ok (rel', ft') ∧ copying (l ++ [(rel', ft')]) s') ) by eauto.
  destruct ft; cbn [under app].
  - apply at_end_must; [done|]. intros r s1 Hst. split; [done|]. apply Hout. destruct r; [|done]. intros _.
    pose proof (copying_mkdir _ _ _ _ _ Hc Hst) as C1. destruct Hst as [[[? _]|(t' & -> & _ & Hd)] _]; [done|].
    eapply copying_now; [done| |done]. cbn. apply (Hd eq_refl rel []); [by rewrite app_nil_r|done].
  - apply at_must; [done|done|done|]. intros r s1 Hst _. pose proof (copying_mkdir _ _ _ _ _ Hc Hst) as C1.
    eapply within_mono; [by apply (copy_file_within l)|done|]. intros r2 s2 _ H. by apply Hout.
  - apply at_must; [done|done|done|]. intros r s1 Hst _. pose proof (copying_mkdir _ _ _ _ _ Hc Hst) as C1.
    apply at_sys; [done|]. intros t s2 [-> _]. destruct t as [t|]; cbn [of_option try_bind bind ok failed]; [|done].
    unfold ensure. destruct (negb (escapes t)); [|done]. cbn [try_bind bind ok].
    apply at_end_must; [done|]. intros ok2 s3 [H3 _]. split; [done|]. apply Hout. destruct ok2; [|done]. intros _.
    destruct H3 as (t3 & Et & En & ->).
    destruct C1 as (t4 & Et4 & Hc4 & Hl4). rewrite Et in Et4. injection Et4 as <-. eexists. split_and!; [done| |].
    + intros rel' ft' [Hin|Hin]%elem_of_app Hr.
      * assert (Hne : rel ≠ rel') by (intros ->; apply He, list_elem_of_fmap; by exists (rel', ft')).
        unfold node_copied. rewrite lookup_insert_ne by done. by apply Hc4.
      * apply list_elem_of_singleton in Hin. injection Hin as -> ->. cbn. rewrite lookup_insert_eq. by exists t.
    + intros q k Hq. rewrite fmap_app. apply elem_of_app. apply lookup_insert_Some in Hq as [[<- _]|[_ Hq]].
      * right. by left.
      * left. by eapply Hl4.
  - by apply at_must.
Qed.

(** Every entry, each path once. *)
Lemma copy_each_within l todo s :
  NoDup (l.*1 ++ (omap (λ e, match e with Ok x => Some x.1 | Err _ => None end) todo)) → copying l s →
  within anywhere (each (copy_entry src (Data [])) todo) s
    (λ r s', r = Ok tt → ∃ l', Ok <$> l' = todo ∧ copying (l ++ l') s').
Proof.
  revert l s. induction todo as [|e todo IH]; intros l s Hnd Hc; cbn [each].
  { split; [done|]. intros _. exists []. by rewrite app_nil_r. }
  apply within_try. eapply within_mono; [apply (copy_entry_within l e); [|done]|done|].
  - intros rel ft -> _ Hin. cbn in Hnd. apply NoDup_app in Hnd as (_ & Hd & _). apply (Hd rel Hin). by left.
  - intros [[]|x] s1 _ H1; [|done]. destruct (H1 eq_refl) as (rel & ft & -> & C1).
    eapply within_mono; [apply (IH (l ++ [(rel, ft)])); [|done]|done|].
    + rewrite fmap_app, <-app_assoc. exact Hnd.
    + intros r s2 _ H Hr. destruct (H Hr) as (l' & <- & C). exists ((rel, ft) :: l'). split; [done|].
      by rewrite <-app_assoc in C.
Qed.
End Copy.

(** ** Unpacking archives *)
Definition named_archives (l : list (result () bytes)) : list bytes :=
  omap (λ e, match e with
             | Ok name => match classify_archive_format name with Other => None | _ => Some name end
             | Err _ => None
             end) l.
(** The archives of a compressed backup, in the order they are unpacked. *)
Definition archives (path : Path) : list Path :=
  match bundle shelf with
  | None => [path]
  | Some l => (λ name, under path [name]) <$> sort_names (named_archives l)
  end.
Definition entries_of (path : Path) : list (list bytes * Node) := archives path ≫= packed shelf.
Definition plain (l : list (list bytes * Node)) : Prop :=
  NoDup (filter (λ q, q ≠ []) l.*1) ∧
  ∀ q k rel n x, (q, NLink k) ∈ l → (rel, n) ∈ l → rel = q ++ x → x = [].
Definition landed (t : Tree) (rel : list bytes) (n : Node) : Prop :=
  match n with NFile c _ => ∃ y, t !! rel = Some (NFile c y) | _ => t !! rel = Some n end.
Definition unpacked (l : list (list bytes * Node)) (t : Tree) : Prop :=
  ∀ rel n, (rel, n) ∈ l → rel ≠ [] → landed t rel n.
(** So far; a link is one of the entries unpacked. *)
Definition unpacking (l : list (list bytes * Node)) (s : Disk) : Prop :=
  ∃ t, data s = Some t ∧ unpacked l t ∧ ∀ q k, t !! q = Some (NLink k) → (q, NLink k) ∈ l.

Lemma unpacking_same l s w : unpacking l s → unpacking l (Disk_ (data s) (beside s) w).
Proof. done. Qed.
Lemma unpacking_root l n s : unpacking l s → is_disk s → unpacking (l ++ [([], n)]) s.
Proof.
  intros (t & Et & Hu & Hl) Hd. exists t. split_and!; [done| |].
  - intros rel m [Hin|Hin]%elem_of_app Hr; [by apply Hu|]. apply list_elem_of_singleton in Hin. by simplify_eq.
  - intros q k Hq. apply elem_of_app. left. by apply Hl.
Qed.
Lemma unpacking_next l rest rel n t t2 s s' :
  plain (l ++ (rel, n) :: rest) → rel ≠ [] → data s = Some t → data s' = Some t2 → lands rel n t t2 →
  unpacking l s → unpacking (l ++ [(rel, n)]) s'.
Proof.
  intros [Hnd Hpl] Hr Et Et2 Hlands (t0 & E & Hu & Hl). rewrite Et in E. injection E as <-.
  assert (rel ∉ l.*1) as Hnew.
  { rewrite fmap_app, filter_app, fmap_cons in Hnd. cbn [fst] in Hnd. rewrite filter_cons_True in Hnd by done.
    intros Hin. apply NoDup_app in Hnd as (_ & Hd & _). apply (Hd rel); [by apply list_elem_of_filter|by left]. }
  destruct Hlands as [Hn Ho].
  { intros q x k -> Hx Hq. apply Hx. apply (Hpl q k (q ++ x) n x); [|apply elem_of_app; right; by left|done].
    apply elem_of_app. left. by apply Hl. }
  exists t2. split_and!; [done| |].
  - intros rel' m [Hin|Hin]%elem_of_app Hr'.
    + assert (rel' ≠ rel) as Hne by (intros ->; apply Hnew, list_elem_of_fmap; by exists (rel, m)).
      specialize (Hu rel' m Hin Hr'). unfold landed in *. destruct (Ho rel' Hne) as [E|[E _]]; [by rewrite E|].
      rewrite E in Hu. by destruct m as [| |c y]; [..|destruct Hu as [? Hu]].
    + apply list_elem_of_singleton in Hin. injection Hin as -> ->. unfold landed. destruct n; eauto.
  - intros q k Hq. apply elem_of_app. destruct (decide (q = rel)) as [->|Hne].
    + right. rewrite Hn in Hq. injection Hq as ->. by left.
    + left. apply Hl. destruct (Ho q Hne) as [E|[_ E]]; congruence.
Qed.

Lemma unpack_within a i entries l rest s :
  plain (l ++ drop i (packed shelf a) ++ rest) →
  Err tt ∈ entries ∨ (i + length entries)%nat = length (packed shelf a) → is_disk s → unpacking l s →
  within anywhere (unpack_entries a (Data []) i entries) s
    (λ r s', r = Ok tt → is_disk s' ∧ unpacking (l ++ drop i (packed shelf a)) s').
Proof.
  revert i l s. induction entries as [|e entries IH]; intros i l s Hp Hlen Hd Hu; cbn [unpack_entries].
  - split; [done|]. intros _. destruct Hlen as [?%elem_of_nil|Hlen]; [done|]. cbn in Hlen.
    rewrite drop_ge by lia. by rewrite app_nil_r.
  - destruct e as [[]|[]]; cbn [of_result try_bind bind ok failed]; [|done].
    apply at_sys; [done|]. intros r s1 [(t' & -> & _ & Hr) Hd1].
    destruct r as [b|]; cbn [of_result try_bind bind ok failed]; [|done].
    unfold ensure. destruct b; cbn [try_bind bind ok failed]; [|done].
    destruct (Hr eq_refl) as (rel & n & En & Hl). clear Hr.
    pose proof (drop_S (packed shelf a) (rel, n) i En) as Edrop. rewrite Edrop in Hp |- *.
    assert (unpacking (l ++ [(rel, n)]) (put_data t' s)) as Hu1.
    { case_bool_decide as Er.
      - subst t' rel. change (put_data (data s) s) with (Disk_ (data s) (beside s) None). by apply unpacking_root.
      - destruct Hl as (t1 & t2 & E1 & -> & Hl). by eapply (unpacking_next l _ rel n t1 t2 s). }
    rewrite cons_middle, app_assoc.
    apply (IH (S i) (l ++ [(rel, n)])); [by rewrite <-app_assoc| |done|done].
    destruct Hlen as [[?|Hin]%elem_of_cons|Hlen]; [done|by left|right]. cbn in Hlen. lia.
Qed.
Lemma extract_within gz a l rest s :
  plain (l ++ packed shelf a ++ rest) → is_disk s → unpacking l s →
  within anywhere (extract_tar gz a (Data [])) s
    (λ r s', r = Ok tt → is_disk s' ∧ unpacking (l ++ packed shelf a) s').
Proof.
  intros Hp Hd Hu. unfold extract_tar. apply at_must; [done|done|done|]. intros o s1 [-> _] _.
  apply at_sys; [done|]. intros r s1 [[-> Hr] _]. destruct r as [entries|]; cbn [of_result try_bind bind ok failed]; [|done].
  apply (unpack_within a 0 entries l rest); [done|by apply Hr|done|done].
Qed.
Lemma tar_names_within l s :
  within anywhere (tar_names l) s (λ r s', s' = s ∧ ∀ names, r = Ok names → names = named_archives l).
Proof.
  induction l as [|e l IH]; cbn [tar_names]; [split; [done|]; split; [done|]; by intros names [= <-]|].
  destruct e as [name|]; cbn [of_result try_bind bind ok failed]; [|by split].
  apply within_try. eapply within_mono; [exact IH|done|]. intros [names|x] s' _ [-> H]; [|by split].
  split; [done|]. split; [done|]. intros names' [= <-]. rewrite (H names eq_refl). unfold named_archives. cbn.
  by destruct (classify_archive_format name).
Qed.
Lemma bundle_each_within path names l rest s :
  Forall (λ name, classify_archive_format name ≠ Other) names →
  plain (l ++ (((λ name, under path [name]) <$> names) ≫= packed shelf) ++ rest) → is_disk s → unpacking l s →
  within anywhere (each (λ name,
    match classify_archive_format name with
    | TarGz => extract_tar true (under path [name]) (Data [])
    | Tar => extract_tar false (under path [name]) (Data [])
    | Other => ok tt
    end) names) s
    (λ r s', r = Ok tt → is_disk s' ∧ unpacking (l ++ (((λ name, under path [name]) <$> names) ≫= packed shelf)) s').
Proof.
  intros F. revert l s. induction F as [|name names Hn F IH]; intros l s Hp Hd Hu; cbn [each].
  - split; [done|]. intros _. cbn. by rewrite app_nil_r.
  - cbn [fmap list_fmap mbind list_bind] in Hp |- *. rewrite <-app_assoc in Hp.
    assert (∀ gz, within anywhere (extract_tar gz (under path [name]) (Data [])) s
      (λ r s', r = Ok tt → is_disk s' ∧ unpacking (l ++ packed shelf (under path [name])) s')) as Hx.
    { intros gz. by eapply extract_within. }
    apply within_try. eapply within_mono; [by destruct (classify_archive_format name); [apply Hx|apply Hx|]|done|].
    intros [[]|x] s1 _ H1; [|done]. destruct (H1 eq_refl) as [Hd1 Hu1].
    rewrite (app_assoc l). apply IH; [by rewrite <-app_assoc|done|done].
Qed.
Lemma sort_names_elem name l : name ∈ sort_names l → name ∈ l.
Proof.
  induction l as [|a l IH]; [done|]. cbn [sort_names foldr]. intros H.
  assert (∀ k, name ∈ insert_name a k → name = a ∨ name ∈ k) as Hi.
  { induction k as [|b k IHk]; cbn [insert_name]; [by intros [->|?]%elem_of_cons; [left|right]|].
    case_match; rewrite ?elem_of_cons in *; naive_solver. }
  apply Hi in H as [->|H]; [by left|right]. by apply IH.
Qed.
Lemma compressed_within path s :
  match path with Backups _ => True | _ => False end →
  plain (entries_of path) → is_disk s → unpacking [] s →
  within anywhere (restore_compressed_full_backup path (Data [])) s
    (λ r s', r = Ok tt → is_disk s' ∧ unpacking (entries_of path) s').
Proof.
  intros Hpath Hp Hd Hu. destruct path as [|rel| | |]; try done. unfold restore_compressed_full_backup.
  apply at_sys; [done|]. intros f s1 [[-> Hf] _]. destruct f.
  - revert Hp. unfold entries_of, archives. rewrite (Hf eq_refl). cbn. rewrite app_nil_r. intros Hp.
    apply (extract_within true _ [] []); [by rewrite app_nil_r|done|done].
  - apply at_sys; [done|]. intros d s1 [[-> _] _]. destruct d; [|done].
    unfold extract_tar_bundle_dir. apply at_sys; [done|]. intros r s1 [[-> Hb] _].
    destruct r as [l|]; cbn [of_result try_bind bind ok failed]; [|done]. specialize (Hb l eq_refl).
    apply within_try. eapply within_mono; [apply tar_names_within|done|]. intros [names|x] s1 _ [-> H1]; [|done].
    rewrite (H1 names eq_refl). cbv zeta. unfold ensure. destruct (negb _); cbn [try_bind bind ok failed]; [|done].
    revert Hp. unfold entries_of, archives. rewrite Hb. intros Hp.
    apply (bundle_each_within (Backups rel) _ [] []); [|by rewrite app_nil_r|done|done].
    apply Forall_forall. intros name Hin%sort_names_elem.
    apply list_elem_of_omap in Hin as (e & _ & He). destruct e as [nm|]; [|done].
    destruct (classify_archive_format nm) eqn:Ec; [injection He as ->; congruence..|done].
Qed.

(** ** Writing the restored tree *)
Definition complete (path : Path) (compressed : bool) (t : Tree) : Prop :=
  if compressed then unpacked (entries_of path) t else ∃ l, Ok <$> l = listing shelf ∧ copied path l t.
Definition restored (path : Path) (compressed : bool) (s : Disk) : Prop :=
  ∃ t, data s = Some t ∧ synced_under [] t ∧ complete path compressed t.
Definition listing_paths : list (list bytes) :=
  omap (λ e, match e with Ok x => Some x.1 | Err _ => None end) (listing shelf).
(** The backup names each path once, and has no entry below a link of its own. *)
Definition distinct (path : Path) (compressed : bool) : Prop :=
  if compressed then plain (entries_of path) else NoDup listing_paths.

Lemma copied_syncs src l t t' : syncs t t' → copied src l t → copied src l t'.
Proof.
  intros Hs Hc rel ft Hin Hr. specialize (Hc rel ft Hin Hr). unfold node_copied in *.
  destruct (Hs rel) as [E|(c & y & E & E')]; [by rewrite E|]. rewrite E in Hc. destruct ft; try done.
  - destruct Hc as (y' & [= -> _]). rewrite E'. eauto.
  - by destruct Hc.
Qed.
Lemma finalize_within n s :
  is_Some (data s) →
  within anywhere (finalize_restored_data_dir n) s (λ r s', ∀ t, data s = Some t →
    ∃ t', data s' = Some t' ∧ syncs t t' ∧ (r = Ok tt → synced_under [] t')).
Proof.
  intros _. unfold finalize_restored_data_dir. apply at_must; [done|done| |].
  - intros r s1 [H _] _ t Ht. cbn in H. subst s1. exists t. split_and!; [done|apply syncs_refl|done].
  - intros r s' [-> Hd] _. eapply within_mono; [by apply fsync_within|done|]. intros r' s2 _ [_ H]. exact H.
Qed.
Lemma builds_within {A} (p : io A) s :
  asks builds p → is_Some (data s) →
  within (λ s', beside s' = beside s ∧ is_Some (data s')) p s (λ _ s', beside s' = beside s ∧ is_Some (data s')).
Proof.
  intros Hp Hs. apply (within_asks step builds); [done| |done].
  intros s1 q r s2 Hq [E1 D1] Hst. destruct (builds_step _ _ _ _ Hq Hst) as [E2 D2]. split; [congruence|auto].
Qed.
Lemma unpacked_syncs l t t' : syncs t t' → unpacked l t → unpacked l t'.
Proof.
  intros Hs Hu rel n Hin Hr. specialize (Hu rel n Hin Hr). unfold landed in *.
  destruct (Hs rel) as [E|(c & y & E & E')]; [by rewrite E|]. rewrite E in Hu. destruct n; try done.
  destruct Hu as (y' & [= -> _]). eauto.
Qed.
Lemma write_restored_within n rel c s :
  distinct (Backups rel) c → is_disk s → is_Some (data s) → (∀ t q k, data s = Some t → t !! q ≠ Some (NLink k)) →
  within anywhere (write_restored n (Backups rel) c) s (λ r s', r = Ok tt → restored (Backups rel) c s').
Proof.
  intros Hnd Hd [t Ht] Hl. unfold write_restored. apply within_try. destruct c.
  - eapply within_mono; [apply compressed_within; [done|done|done|]|done|].
    { exists t. split_and!; [done|by intros ? ? ?%elem_of_nil|]. intros q k Hq. by destruct (Hl t q k Ht). }
    intros [[]|x] s1 _ H1; [|done]. destruct (H1 eq_refl) as [_ (t1 & E1 & Hu & _)].
    eapply within_mono; [by apply finalize_within; eexists|done|]. intros r s2 _ H Hr.
    destruct (H t1 E1) as (t2 & E2 & Hs & H2). exists t2. split_and!; [done|by apply H2|].
    by eapply unpacked_syncs.
  - apply at_sys; [done|]. intros d s1 [[-> _] _]. destruct d; [|done].
    unfold copy_directory_contents. apply at_sys; [done|]. intros l s1 [[-> ->] _].
    eapply within_mono; [apply (copy_each_within (Backups rel) [])|done|].
    + done.
    + exists t. split_and!; [done| |]; [by intros ? ? ?%elem_of_nil|]. intros q k Hq. by destruct (Hl t q k Ht).
    + intros [[]|x] s1 _ H1; [|done]. destruct (H1 eq_refl) as (l' & El & (t1 & E1 & Hc & _)).
      eapply within_mono; [by apply finalize_within; eexists|done|]. intros r s2 _ H Hr.
      destruct (H t1 E1) as (t2 & E2 & Hs & H2). exists t2. split_and!; [done|by apply H2|].
      exists l'. split; [done|by eapply copied_syncs].
Qed.

(** ** Where the old tree is *)
Section Restore.
Context (fmt : Z → bytes) (parse_ts : bytes → option Z) (mgr : BackupManager) (old : Tree).
Local Notation prefix := (staging_prefix mgr).
Definition staging_name (n : bytes) : Prop := starts_with prefix n = true.
(** In place, with nothing staged; or staged, alone. *)
Definition at_home (s : Disk) : Prop :=
  data s = Some old ∧ ∀ m, is_Some (beside s !! m) → ¬ staging_name m.
Definition staged_as (n : bytes) (s : Disk) : Prop :=
  staging_name n ∧ beside s !! n = Some old ∧ ∀ m, is_Some (beside s !! m) → staging_name m → m = n.
Definition kept (s : Disk) : Prop := at_home s ∨ ∃ n, staged_as n s.

Lemma staged_beside n s s' : beside s' = beside s → staged_as n s → staged_as n s'.
Proof. unfold staged_as. by intros ->. Qed.
Lemma stage_step s n :
  at_home s → staging_name n → staged_as n (Disk_ None (<[n := old]> (beside s)) None).
Proof.
  intros [_ Hn] H. split_and!; [done|by apply lookup_insert_eq|]. intros m Hm Hs.
  destruct (decide (m = n)) as [|Hne]; [done|]. cbn in Hm. rewrite lookup_insert_ne in Hm by done. by destruct (Hn m).
Qed.
Lemma unstage_step s n w : staged_as n s → at_home (Disk_ (Some old) (delete n (beside s)) w).
Proof.
  intros (_ & _ & Ha). split; [done|]. cbn. intros m Hm Hs. destruct (decide (m = n)) as [->|Hne].
  - rewrite lookup_delete_eq in Hm. by destruct Hm.
  - rewrite lookup_delete_ne in Hm by done. apply Hne. by apply Ha.
Qed.

Lemma first_free_within k ts start s :
  at_home s →
  within kept (first_free k prefix ts start) s (λ r s', s' = s ∧
    ∀ c, r = Ok (Some c) → ∃ n, c = Beside n ∧ staging_name n ∧ beside s !! n = None).
Proof.
  intros Hs. revert start. induction k as [|k IH]; intros start; cbn [first_free].
  - apply at_sys; [by left|]. intros r s' [[Hr ->] _]. split; [by left|]. split; [done|].
    destruct r; [by intros c [=]|]. intros c [= <-]. eexists. split_and!; [done| |].
    + unfold staging_name. apply bool_decide_eq_true. rewrite strip_prefix_app. by eexists.
    + apply eq_None_not_Some. intros H. by specialize (Hr H).
  - apply within_try. eapply within_mono; [apply IH|done|]. intros [[c|]|e] s' _ [-> H]; cbn [ok].
    + split; [by left|]. split; [done|]. intros c' [= <-]. by apply H.
    + apply IH.
    + split; [done|]. by intros c [=].
Qed.
Lemma stage_within s :
  at_home s →
  within kept (stage_existing_data_dir fmt mgr) s (λ r s',
    match r with Ok (Some p) => ∃ n, p = Beside n ∧ staged_as n s' ∧ data s' = None | Ok None => False | Err _ => True end).
Proof.
  intros Hs. pose proof Hs as [Hd _]. unfold stage_existing_data_dir. apply at_sys; [by left|].
  intros present s1 [[Hp ->] _]. destruct present; [|by rewrite Hd in Hp; destruct Hp as [_ Hp]; specialize (Hp ltac:(by eexists))].
  cbn [negb]. apply within_try. unfold make_staged_data_dir_path, ensure.
  destruct (has_parent mgr); [|by split; [left|]]. cbn [try_bind bind ok].
  apply at_sys; [by left|]. intros now s1 [-> _]. apply within_try.
  eapply within_mono; [by apply first_free_within|done|]. intros [[c|]|e] s1 _ [-> Hc]; [|by split; [left|]|done].
  destruct (Hc c eq_refl) as (n & -> & Hn & Hb). cbn [of_option ok]. split; [by left|].
  apply at_must; [by left| |done|].
  - intros r s1 [H _]. cbn in H. destruct r; [|subst; by left]. destruct H as (t & Et & _ & ->). rewrite Hd in Et.
    injection Et as <-. right. exists n. by apply stage_step.
  - intros r s1 [H _] E. unfold yes in E. subst r. cbn in H. destruct H as (t & Et & _ & ->). rewrite Hd in Et.
    injection Et as <-. pose proof (stage_step s n Hs Hn) as Hst.
    apply at_sys; [right; by exists n|]. intros synced s2 [-> _]. destruct synced.
    + split; [right; by exists n|]. exists n. by split_and!.
    + apply at_sys; [right; by exists n|]. intros back s3 [H _]. cbn in H. split; [|done].
      destruct back; [|subst s3; right; by exists n]. destruct H as (t & Et & _ & ->).
      cbn in Et. rewrite lookup_insert_eq in Et. injection Et as <-. left. by apply (unstage_step (Disk_ None _ None) n None).
Qed.

Lemma rollback_within n s :
  staged_as n s → within kept (rollback_failed_restore mgr (Some (Beside n))) s (λ r s', r ≠ Ok tt).
Proof.
  intros Hs. unfold rollback_failed_restore, run_blocking. apply within_bind. apply at_sys; [right; by exists n|].
  intros gone s1 [-> _]. apply within_bind. apply at_sys; [right; by exists n|]. intros present s1 [[_ ->] _].
  assert (Hrest : ∀ s1, staged_as n s1 → within kept
    (let? _ := must (Rename (Beside n) (Data [])) yes in
     if has_parent mgr then let? _ := sys (FsyncDir Parent) in ok tt else ok tt) s1
    (λ r s', within kept (Ret (if gone then Err Dropped else r)) s'
       (λ r s', within kept (Ret (match r with Err Dropped => Err Dropped | _ => Err Failed end)) s' (λ r _, r ≠ Ok tt)))).
  { intros s2 H2. assert (Hend : ∀ (r : result Exit ()) s3, kept s3 → within kept (Ret (if gone then Err Dropped else r)) s3
       (λ r s', within kept (Ret (match r with Err Dropped => Err Dropped | _ => Err Failed end)) s' (λ r _, r ≠ (Ok tt : result Exit ())))).
    { intros r s3 H3. split; [done|]. split; [done|]. by destruct gone, r as [|[]]. }
    assert (Hmove : ∀ (r : Answer (Sys (Rename (Beside n) (Data [])))) s3,
              step s2 (answered (Sys (Rename (Beside n) (Data []))) r) s3 → kept s3).
    { intros r s3 [H _]. cbn in H. destruct r; [|subst; right; by exists n]. destruct H as (t & Et & _ & ->).
      left. destruct H2 as (Hn & Eo & Ha). rewrite Eo in Et. injection Et as <-. by apply unstage_step. }
    apply at_must; [right; by exists n|by apply Hmove| |].
    - intros r s3 H _. by eapply Hend, Hmove.
    - intros r s3 H _. apply Hmove in H. destruct (has_parent mgr); [|by split; [|apply Hend]].
      apply at_sys; [done|]. intros f s4 [-> _]. by split; [|apply Hend]. }
  apply within_try. destruct present.
  - apply at_sys; [right; by exists n|]. intros r s2 [H _].
    assert (H2 : staged_as n s2).
    { apply (staged_beside n s); [|done]. cbn in H. destruct r; [by subst|]. destruct H as [->|(t & t' & _ & _ & ->)]; done. }
    split; [right; by exists n|]. by apply Hrest.
  - split; [right; by exists n|]. by apply Hrest.
Qed.

Lemma harmless_within {A} (p : io A) s : asks harmless p → kept s → within kept p s (λ _ s', s' = s).
Proof.
  intros Hp Hs. eapply within_mono; [apply (within_asks step harmless (λ s', s' = s)); [done| |done]| |].
  - intros s1 q r s2 Hq -> Hst. by eapply harmless_step.
  - by intros s' ->.
  - by intros ? s' _ ->.
Qed.

(** The old tree, or the whole new one. *)
Definition whole (path : Path) (c : bool) (s : Disk) : Prop := kept s ∨ restored path c s.
Lemma restore_within depth rel c s :
  distinct (Backups rel) c → at_home s →
  within (whole (Backups rel) c) (restore_full_backup fmt depth mgr (Backups rel) c) s
    (λ r s', r = Ok tt → restored (Backups rel) c s').
Proof.
  intros Hnd Hs. assert (Hk : ∀ s, kept s → whole (Backups rel) c s) by (by left).
  unfold restore_full_backup.
  apply within_try. eapply within_mono; [apply harmless_within; [apply bundle_asks|by left]|done|].
  intros [[]|x] s1 _ ->; [|done].
  apply within_try. eapply within_mono; [apply harmless_within; [apply stopped_asks|by left]|done|].
  intros [[]|x] s1 _ ->; [|done].
  apply within_try. eapply within_mono; [apply harmless_within; [|by left]|done|].
  { destruct (has_parent mgr); asking. }
  intros [[]|x] s1 _ ->; [|done].
  apply within_try. eapply within_mono; [by apply stage_within|done|].
  intros [[p|]|x] s1 _ Hst; [|done..]. destruct Hst as (n & -> & Hst & Ed).
  assert (Hb : ∀ s', beside s' = beside s1 → whole (Backups rel) c s').
  { intros s' E. left. right. exists n. by eapply staged_beside. }
  apply at_must; [by apply Hb| |done|].
  { intros r s2 [H _]. apply Hb. cbn in H. destruct H as [[_ ->]|(t' & -> & _)]; done. }
  intros r s2 [H2 Hd2] E. unfold yes in E. subst r. cbn in H2. destruct H2 as [[? _]|(t & -> & Hmk & _)]; [done|].
  rewrite Ed in Hmk. set (s2 := put_data _ _). apply within_bind. unfold run_blocking.
  apply at_sys; [by apply Hb|]. intros gone s3 [-> _]. apply within_bind.
  assert (Hw : within (λ s', (beside s' = beside s2 ∧ is_Some (data s')) ∧ anywhere s') (write_restored depth (Backups rel) c) s2
    (λ r s', (beside s' = beside s2 ∧ is_Some (data s')) ∧ (r = Ok tt → restored (Backups rel) c s'))).
  { apply within_and; [apply builds_within; [eapply asks_mono; [|apply write_restored_asks]; by intros [[]|[]]|by eexists]|].
    apply write_restored_within; [done|done|by eexists|]. intros t0 q k [= <-] Hq.
    destruct (Hmk q) as [E|[_ E]]; rewrite E in Hq; [|done]. change ((∅ : Tree) !! q = Some (NLink k)) in Hq.
    by rewrite lookup_empty in Hq. }
  eapply within_mono; [exact Hw|intros s' [[E _] _]; by apply Hb|].
  intros r s3 _ [[Eb _] Hr]. assert (H3 : whole (Backups rel) c s3) by by apply Hb.
  split; [done|]. destruct gone; [by split|].
  assert (Hst3 : staged_as n s3) by by eapply staged_beside.
  destruct r as [[]|[]]; [|eapply within_mono; [by apply (rollback_within n)|done|done]|by split|by split].
  specialize (Hr eq_refl). unfold remove_staged_pre_restore, run_blocking.
  assert (Hd : ∀ s', data s' = data s3 → restored (Backups rel) c s').
  { intros s' E. destruct Hr as (t' & Et & Hr). exists t'. by rewrite E. }
  apply within_bind. apply at_sys; [done|]. intros gone s4 [-> _]. apply within_bind.
  apply at_end_must; [done|]. intros removed s4 [H4 _].
  assert (R4 : restored (Backups rel) c s4).
  { apply Hd. cbn in H4. destruct removed; [by subst|]. destruct H4 as [->|(? & ? & _ & _ & ->)]; done. }
  split; [by right|]. split; [by right|].
  destruct gone; [by split; [right|]|]. destruct (yes removed); [|by split; [right|]].
  destruct (has_parent mgr); [|by split; [right|]]. apply at_sys; [by right|]. intros f s5 [-> _]. by split; [right|].
Qed.

(** ** At the next start *)
Definition looks_complete (s : Disk) : Prop :=
  ∀ rel, rel ∈ [[lit "PG_VERSION"]; [lit "global"; lit "pg_control"]] →
    is_regular (data s ≫= lookup rel) ∨ ∃ l, data s ≫= lookup rel = Some (NLink l).
Definition a_staging (s : Disk) (m : bytes) : Prop := is_Some (beside s !! m) ∧ staging_name m.

Lemma newest_within s entries newest :
  kept s →
  within kept (newest_staging prefix entries newest) s (λ r s', s' = s ∧ ∀ o, r = Ok o →
    Err tt ∉ entries ∧ (∀ m, o = Some m → newest = Some m ∨ a_staging s m) ∧
    (newest ≠ None → o ≠ None) ∧ (∀ m, a_staging s m → Ok m ∈ entries → o ≠ None)).
Proof.
  intros Hk. revert newest. induction entries as [|e entries IH]; intros newest; cbn [newest_staging].
  - split; [done|]. split; [done|]. intros o [= <-]. split_and!; [by intros ?%elem_of_nil|by left|done|by intros m _ ?%elem_of_nil].
  - destruct e as [name|e]; cbn [of_result try_bind bind ok]; [|by split].
    assert (Hgo : ∀ d : bool, (d = true ↔ a_staging s name) →
      within kept (newest_staging prefix entries
        (if d && match newest with Some cur => bytes_lt cur name | None => true end then Some name else newest)) s
      (λ r s', s' = s ∧ ∀ o, r = Ok o →
        Err tt ∉ Ok name :: entries ∧ (∀ m, o = Some m → newest = Some m ∨ a_staging s m) ∧
        (newest ≠ None → o ≠ None) ∧ (∀ m, a_staging s m → Ok m ∈ Ok name :: entries → o ≠ None))).
    { intros d Hd. eapply within_mono; [apply IH|done|]. intros r s' _ [-> H]. split; [done|]. intros o Ho.
      destruct (H o Ho) as (H1 & H2 & H3 & H4). split_and!.
      - intros [?|?]%elem_of_cons; done.
      - intros m Hm. destruct (H2 m Hm) as [E|E]; [|by right].
        destruct (d && _) eqn:En; [|by left]. injection E as <-. right. apply Hd. by apply andb_true_iff in En as [-> _].
      - intros Hn. apply H3. by destruct (d && _).
      - intros m Hm [E|Hin]%elem_of_cons; [|by eapply H4]. injection E as ->. apply H3.
        rewrite (proj2 Hd Hm). cbn. destruct newest; [by destruct (bytes_lt _ _)|done]. }
    destruct (starts_with prefix name) eqn:Ep; cbn [try_bind bind ok sys ask].
    + split; [done|]. intros d s1 [[Hd ->] _]. apply Hgo. rewrite Hd. split; [by split|by intros [? _]].
    + apply (Hgo false). unfold a_staging, staging_name. split; [done|]. intros [_ ?]. congruence.
Qed.
Lemma find_within s :
  has_parent mgr = true → kept s →
  within kept (find_pre_restore_staging mgr) s (λ r s', s' = s ∧
    ∀ o, r = Ok o → (o = None ∧ at_home s) ∨ ∃ n, o = Some n ∧ staged_as n s).
Proof.
  intros Hp Hk. unfold find_pre_restore_staging. rewrite Hp. cbn [negb].
  apply at_sys; [done|]. intros present s1 [[-> ->] _]. cbn [negb].
  apply at_sys; [done|]. intros r s1 [[-> Hl] _]. destruct r as [l|e]; cbn [of_result try_bind bind ok]; [|by split].
  specialize (Hl l eq_refl). eapply within_mono; [by apply newest_within|done|]. intros r s' _ [-> H].
  split; [done|]. intros o Ho. destruct (H o Ho) as (H1 & H2 & _ & H4). destruct Hl as [?|Hl]; [done|].
  destruct Hk as [Hh|(n & Hst)].
  - left. split; [|done]. destruct o as [m|]; [|done]. destruct (H2 m eq_refl) as [?|[Hm Hs]]; [done|].
    by destruct Hh as [_ Hh]; destruct (Hh m Hm).
  - right. pose proof Hst as (Hn & Eo & Ha). destruct o as [m|].
    + destruct (H2 m eq_refl) as [?|[Hm Hs]]; [done|]. rewrite (Ha m Hm Hs). by exists n.
    + assert (Hst' : a_staging s n) by (split; [rewrite Eo; by eexists|done]).
      by destruct (H4 n Hst' (Hl n (proj1 Hst'))).
Qed.

Lemma valid_within s :
  kept s →
  within kept pgdata_looks_valid s (λ r s', s' = s ∧ (r = Ok true → looks_complete s)).
Proof.
  intros Hk. unfold pgdata_looks_valid. apply at_sys; [done|]. intros v s1 [(-> & _ & Hv) _].
  destruct v; cbn [negb]; [|by split]. split; [done|]. intros g s1 [(-> & _ & Hg) _]. split; [done|].
  split; [done|]. intros [= ->]. intros rel [->|[->|[]%elem_of_nil]%elem_of_cons]%elem_of_cons; auto.
Qed.
Lemma recover_within s :
  has_parent mgr = true → kept s →
  within kept (recover_interrupted_restore mgr) s
    (λ r s', r = Ok tt → data s' = Some old ∨ (looks_complete s ∧ s' = s)).
Proof.
  intros Hp Hk. unfold recover_interrupted_restore. apply within_try.
  eapply within_mono; [by apply find_within|done|]. intros [o|e] s1 _ [-> Ho]; [|done].
  destruct (Ho o eq_refl) as [[-> Hh]|(n & -> & Hst)]; [split; [done|]; intros _; left; apply Hh|].
  apply within_try. eapply within_mono; [by apply valid_within|done|]. intros [v|e] s1 _ [-> Hv]; [|done].
  destruct v; [split; [done|]; intros _; right; auto|].
  apply at_sys; [done|]. intros present s1 [[_ ->] _].
  assert (Hmove : ∀ s1, staged_as n s1 → within kept
    (let? _ := must (Rename (Beside n) (Data [])) yes in
     if has_parent mgr then must (FsyncDir Parent) yes else ok tt) s1
    (λ r s', r = Ok tt → data s' = Some old ∨ (looks_complete s ∧ s' = s))).
  { intros s1 H1. assert (Hs1 : ∀ (r : Answer (Sys (Rename (Beside n) (Data [])))) s2,
        step s1 (answered (Sys (Rename (Beside n) (Data []))) r) s2 → if r : bool then at_home s2 else s2 = s1).
    { intros r s2 [H _]. cbn in H. destruct r; [|done]. destruct H as (t & Et & _ & ->).
      pose proof H1 as (_ & Eo & _). rewrite Eo in Et. injection Et as <-. by eapply unstage_step. }
    apply at_must; [right; by exists n| |done|].
    - intros r s2 H. apply Hs1 in H. destruct r; [by left|subst; right; by exists n].
    - intros r s2 H E. unfold yes in E. subst r. apply Hs1 in H. rewrite Hp.
      apply at_end_must; [by left|]. intros f s3 [-> _]. split; [by left|]. intros _. left. apply H. }
  apply within_try. destruct present.
  - apply at_end_must; [done|]. intros r s1 [H _]. cbn in H.
    assert (H1 : staged_as n s1).
    { apply (staged_beside n s); [|done]. destruct r; [by subst|]. destruct H as [->|(? & ? & _ & _ & ->)]; done. }
    split; [right; by exists n|]. destruct (yes r); [by apply Hmove|done].
  - split; [done|]. by apply Hmove.
Qed.
End Restore.
End Disk.

(** C23. An interrupted restore loses nothing.  Let the data directory have a parent
    and be in place with no staging of an earlier restore beside it ([at_home]), and
    let the backup name each path once and have no entry below a link of its own
    ([distinct]).  Wherever a full restore of it, plain or compressed, is cut, and
    whatever failed or was dropped before, the old data directory is whole, in place
    or staged beside it alone, or the new one is: every file of it synced and every
    entry of the backup there, with its content, as a plain backup lists it or as the
    archives of a compressed one pack it.  And whenever the old one is still there, so
    it is at every point of the recovery the next start runs, which ends with it back
    in place unless the directory it found there looks complete, and then it changes
    nothing. *)
Theorem an_interrupted_restore_loses_nothing shelf fmt mgr depth rel compressed old s0 t s :
  has_parent mgr = true → distinct shelf (Backups rel) compressed → at_home mgr old s0 →
  reaches (restore_full_backup fmt depth mgr (Backups rel) compressed) t →
  steps (step shelf) s0 t s →
  (kept mgr old s ∨ restored shelf (Backups rel) compressed s) ∧
  (kept mgr old s → ∀ t' s', steps (step shelf) s t' s' →
     (reaches (recover_interrupted_restore mgr) t' → kept mgr old s') ∧
     (runs (recover_interrupted_restore mgr) t' (Ok tt) →
        data s' = Some old ∨ (looks_complete s ∧ s' = s))).
Proof.
  intros Hp Hnd Hs Hr Ht. split.
  - exact (within_reaches _ _ _ _ _ _ _ (restore_within shelf fmt mgr old depth rel compressed s0 Hnd Hs) Hr Ht).
  - intros Hk t' s' Hst. pose proof (recover_within shelf mgr old s Hp Hk) as Hw. split; intros Hr'.
    + exact (within_reaches _ _ _ _ _ _ _ Hw Hr' Hst).
    + by apply (within_runs _ _ _ _ _ _ _ _ Hw Hr' Hst).
Qed.

(** ** A restore cut once the old directory is staged, and the next start *)
Abbreviation ev q r := (answered (R := Answer) q r).
Abbreviation hist := (list (@event Req Answer)).
Module Cut.
Definition mgr : BackupManager := BackupManager_ (BackupConfig_ true 7 Full false) (Some (lit "data")) true.
Definition fmt (t : Z) : bytes := lit "20250102_030405".
Definition backup : list bytes := [lit "full_backup_20250101_000000"].
Definition staging : bytes := Eval vm_compute in lit ".data.pre_restore_20250102_030405_0".
Definition shelf : Shelf := Shelf_ (λ _, []) [] (λ _, []) (Some []).
Definition old : Tree := {[ [lit "PG_VERSION"] := NFile (Some (lit "18")) true ]}.
Definition before : Disk := Disk_ (Some old) ∅ None.
Definition after : Disk := Disk_ None {[ staging := old ]} None.
Definition checked : hist :=
  [ev (Await (Run PgIsReady)) (Some (Output_ (Some 2) [])); ev (Await ReadPid) (Some (Err Standby.NotFound));
   ev (Sys (CreateDirAll Parent)) true; ev (Sys (PathExists (Data []))) true; ev (Sys LocalNow) 0;
   ev (Sys (PathExists (Beside staging))) false].
Definition staged : hist := [ev (Sys (Rename (Data []) (Beside staging))) true; ev (Sys (FsyncDir Parent)) true].
Definition found : hist :=
  [ev (Sys (PathExists Parent)) true; ev (Sys (ReadDir Parent)) (Ok [Ok staging]);
   ev (Sys (PathIsDir (Beside staging))) true; ev (Sys (PathIsFile (Data [lit "PG_VERSION"]))) false;
   ev (Sys (PathExists (Data []))) false].
Definition moved : hist := [ev (Sys (Rename (Beside staging) (Data []))) true; ev (Sys (FsyncDir Parent)) true].
End Cut.

Lemma steps_still b s t :
  is_disk s → Forall (λ e, effect b s e s) t → steps (step b) s t s.
Proof. intros Hd F. induction F as [|e t H _ IH]; [done|]. exists s. by split. Qed.
Lemma old_is_disk b w : is_disk (Disk_ (Some Cut.old) b w).
Proof.
  intros t [= <-]. split; [done|]. intros rel name [n H]. unfold Cut.old in H.
  apply lookup_singleton_Some in H as [E _]. left. destruct rel as [|a [|]]; by try injection E.
Qed.
Lemma cut_steps b : steps (step b) Cut.before (Cut.checked ++ Cut.staged) Cut.after.
Proof.
  apply steps_app. exists Cut.before. split.
  - apply steps_still; [apply old_is_disk|]. repeat constructor; cbn; try done. by intros [? ?].
  - exists Cut.after. split; [|exists Cut.after; done].
    split; [|done]. cbn. exists Cut.old. by split_and!.
Qed.
Lemma staged_old : beside Cut.after !! Cut.staging = Some Cut.old.
Proof. apply lookup_singleton_eq. Qed.
Lemma staged_alone m : is_Some (beside Cut.after !! m) → m = Cut.staging.
Proof.
  intros [t H]. change (({[Cut.staging := Cut.old]} : gmap bytes Tree) !! m = Some t) in H.
  by apply lookup_singleton_Some in H as [<- _].
Qed.
Lemma cut_kept : kept Cut.mgr Cut.old Cut.after.
Proof. right. exists Cut.staging. split_and!; [done|exact staged_old|]. intros m H _. by apply staged_alone. Qed.
Lemma back_steps b : steps (step b) Cut.after (Cut.found ++ Cut.moved) Cut.before.
Proof.
  apply steps_app. exists Cut.after. split.
  - apply steps_still; [done|]. unfold Cut.found.
    repeat (apply Forall_cons_2; [cbn|]); [done| | | | |apply Forall_nil_2].
    + split; [done|]. intros names [= <-]. right. intros name H. apply staged_alone in H as ->. by left.
    + split; [|done]. split; [|done]. intros _. exists Cut.old. exact staged_old.
    + split_and!; [done| |done]. by intros (? & ? & ?).
    + split; [|done]. split; [done|]. by intros [? ?].
  - exists Cut.before. split; [|exists Cut.before; split; [split; [done|apply old_is_disk]|done]].
    split; [|apply old_is_disk]. cbn. exists Cut.old. by split_and!; [|left|].
Qed.
Lemma cut_at_home : at_home Cut.mgr Cut.old Cut.before.
Proof. split; [done|]. intros m [t H]. destruct (lookup_empty_Some (M := gmap bytes) m t H). Qed.

Lemma an_interrupted_restore_loses_nothing_witness :
  (kept Cut.mgr Cut.old Cut.after ∨ restored Cut.shelf (Backups Cut.backup) false Cut.after) ∧
  (data Cut.before = Some Cut.old ∨ (looks_complete Cut.after ∧ Cut.before = Cut.after)).
Proof.
  destruct (an_interrupted_restore_loses_nothing Cut.shelf Cut.fmt Cut.mgr 1 Cut.backup false Cut.old Cut.before
              (Cut.checked ++ Cut.staged) Cut.after eq_refl NoDup_nil_2 cut_at_home) as [H1 H2].
  - left. exists (Sys (CreateDirAll (Data []))). apply replay_issues. vm_compute. reflexivity.
  - apply cut_steps.
  - split; [exact H1|]. apply (H2 cut_kept (Cut.found ++ Cut.moved) Cut.before (back_steps _)).
    apply replay_runs. vm_compute. reflexivity.
Defined.
