(* ===== verification/BackupRotation.v ===== *)
(** * Which backups a rotation deletes, and the names backups go by

    The newest backups of each type stay, by the timestamps in their names; and the
    name a backup is created under is read back with its type and format. *)

From S2P Require Import Prelude Effects Text PgFiles Backup.
From S2P Require Standby.
From Stdlib Require Import Strings.Byte.

(** ** What a rotation's run shows *)
Definition removal (ev : @event Req Answer) : option Path :=
  match ev with existT (Sys (RemoveDirAll p)) _ | existT (Sys (RemoveFile p)) _ => Some p | _ => None end.
Definition removed (t : list (@event Req Answer)) : list Path := omap removal t.
Definition names_of (ev : @event Req Answer) : option (list bytes) :=
  match ev with existT (Sys (ReadDir (Backups []))) (Ok l) => mapM result_ok l | _ => None end.
(** The names read in the backup directory; none when one could not be read. *)
Definition listed (t : list (@event Req Answer)) : list bytes := default [] (head (omap names_of t)).

Definition of_type (ty : BackupType) (l : list BackupInfo) : list BackupInfo := filter (λ b, info_type b = ty) l.
Definition newer (b c : BackupInfo) : Prop := timestamp c ≤ timestamp b.
#[global] Instance newer_trans : Transitive newer.
Proof. intros a b c. unfold newer. lia. Qed.

(** ** Sorting *)
Lemma insert_newest_perm b l : insert_newest b l ≡ₚ b :: l.
Proof.
  induction l as [|c l IH]; cbn [insert_newest]; [done|]. case (timestamp c <=? timestamp b); [done|].
  rewrite IH. apply Permutation_swap.
Qed.
Lemma newest_first_perm l : newest_first l ≡ₚ l.
Proof. induction l as [|b l IH]; [done|]. cbn. rewrite insert_newest_perm. by f_equiv. Qed.
Lemma insert_newest_sorted b l : StronglySorted newer l → StronglySorted newer (insert_newest b l).
Proof.
  induction l as [|c l IH]; intros Hl; cbn [insert_newest]; [by repeat constructor|].
  apply StronglySorted_inv in Hl as [Hl Hc]. destruct (Z.leb_spec (timestamp c) (timestamp b)) as [H|H].
  - constructor; [by constructor|]. constructor; [done|]. eapply Forall_impl; [exact Hc|]. intros d Hd. by transitivity c.
  - constructor; [by apply IH|]. rewrite insert_newest_perm. constructor; [unfold newer; lia|done].
Qed.
Lemma newest_first_sorted l : StronglySorted newer (newest_first l).
Proof. induction l as [|b l IH]; cbn; [constructor|by apply insert_newest_sorted]. Qed.

(** ** Selecting *)
Definition room (ty : BackupType) (retention full dump : Z) : Z :=
  retention - match ty with Full => full | Dump => dump end.
(** [keep] and [doomed] split [l], the newest [n ty] of each type kept. *)
Definition splits (n : BackupType → Z) (l keep doomed : list BackupInfo) : Prop :=
  l ≡ₚ keep ++ doomed ∧
  ∀ ty, Z.of_nat (length (of_type ty keep)) = Z.min (n ty) (Z.of_nat (length (of_type ty l))) ∧
        ∀ k d, k ∈ of_type ty keep → d ∈ of_type ty doomed → newer k d.

Lemma of_type_perm ty l l' : l ≡ₚ l' → of_type ty l ≡ₚ of_type ty l'.
Proof. unfold of_type. by intros ->. Qed.
Lemma of_type_cons ty b l : of_type ty (b :: l) = if decide (info_type b = ty) then b :: of_type ty l else of_type ty l.
Proof. reflexivity. Qed.
Lemma victims_split l retention full dump :
  StronglySorted newer l → full ≤ retention → dump ≤ retention →
  ∃ keep doomed, victims_from l retention full dump = info_path <$> doomed ∧
    splits (λ ty, room ty retention full dump) l keep doomed.
Proof.
  revert full dump. induction l as [|b l IH]; intros full dump Hl Hf Hd.
  - exists [], []. split; [done|]. split; [done|]. intros ty. split; [|by intros k d ?%elem_of_nil].
    change (0 = Z.min (room ty retention full dump) 0). destruct ty; unfold room; lia.
  - apply StronglySorted_inv in Hl as [Hl Hb]. rewrite Forall_forall in Hb. cbn [victims_from].
    (* a kept backup goes in front; a doomed one leaves no room behind it *)
    assert (Hkeep : ∀ full' dump' keep doomed,
      (∀ ty, room ty retention full dump = room ty retention full' dump' + (if decide (info_type b = ty) then 1 else 0)) →
      (∀ ty, 0 ≤ room ty retention full' dump') →
      splits (λ ty, room ty retention full' dump') l keep doomed → splits (λ ty, room ty retention full dump) (b :: l) (b :: keep) doomed).
    { intros full' dump' keep doomed Hr H0 [Hp H]. split; [cbn; by f_equiv|]. intros ty. destruct (H ty) as [Hn Ho]. rewrite Hr, !of_type_cons.
      case_decide as E; [|split; [lia|done]]. cbn [length]. split; [specialize (H0 ty); lia|].
      intros k d [->|Hk]%elem_of_cons Hdm; [|by apply Ho]. apply Hb. rewrite Hp. apply elem_of_app. right.
      by apply list_elem_of_filter in Hdm as [_ ?]. }
    assert (Hdoom : ∀ keep doomed, room (info_type b) retention full dump = 0 →
      splits (λ ty, room ty retention full dump) l keep doomed → splits (λ ty, room ty retention full dump) (b :: l) keep (b :: doomed)).
    { intros keep doomed Hr [Hp H]. split; [rewrite Hp; apply Permutation_middle|]. intros ty. destruct (H ty) as [Hn Ho].
      rewrite !of_type_cons. case_decide as E; [|done]. subst ty. cbn [length]. split; [lia|].
      intros k d Hk. rewrite Hr in Hn. destruct (of_type _ keep); [by apply elem_of_nil in Hk|cbn in Hn; lia]. }
    destruct (info_type b) eqn:Et.
    + destruct (Z.ltb_spec full retention) as [Hlt|Hge].
      * destruct (IH (full + 1) dump Hl) as (keep & doomed & E & Hs); [lia|done|]. exists (b :: keep), doomed. split; [done|].
        apply (Hkeep (full + 1) dump); [unfold room; intros [|]; destruct (decide _); congruence || lia|unfold room; intros [|]; lia|done].
      * destruct (IH full dump Hl) as (keep & doomed & E & Hs); [done..|]. exists keep, (b :: doomed).
        split; [by cbn; rewrite E|]. apply Hdoom; [unfold room; lia|done].
    + destruct (Z.ltb_spec dump retention) as [Hlt|Hge].
      * destruct (IH full (dump + 1) Hl) as (keep & doomed & E & Hs); [done|lia|]. exists (b :: keep), doomed. split; [done|].
        apply (Hkeep full (dump + 1)); [unfold room; intros [|]; destruct (decide _); congruence || lia|unfold room; intros [|]; lia|done].
      * destruct (IH full dump Hl) as (keep & doomed & E & Hs); [done..|]. exists keep, (b :: doomed).
        split; [by cbn; rewrite E|]. apply Hdoom; [unfold room; lia|done].
Qed.
Lemma newest_split l retention :
  0 ≤ retention → ∃ keep doomed, select_rotation_victims (newest_first l) retention = info_path <$> doomed ∧
    splits (λ _, retention) l keep doomed.
Proof.
  intros Hr. destruct (victims_split (newest_first l) retention 0 0 (newest_first_sorted l) Hr Hr) as (keep & doomed & E & Hp & H).
  exists keep, doomed. split; [done|]. split; [by rewrite <-newest_first_perm|]. intros ty. specialize (H ty). unfold room in H.
  rewrite (Permutation_length (of_type_perm _ _ _ (newest_first_perm _))) in H.
  by replace (retention - _) with retention in H by (destruct ty; lia).
Qed.

(** ** A rotation's requests *)
Section Rotation.
Context (parse_ts : bytes → option Z).
#[local] Arguments parse_backup_filename : simpl never.
Abbreviation info_of n := (parse_backup_filename parse_ts n (Backups [n])).

Lemma parsed_at n p b : parse_backup_filename parse_ts n p = Some b → info_path b = p ∧ size_bytes b = None.
Proof.
  unfold parse_backup_filename. intros ([[ty ts] c] & _ & H)%bind_Some. apply bind_Some in H as (t & _ & [= <-]). done.
Qed.
Lemma scan_entries_run entries t r :
  runs (scan_entries parse_ts false entries) t r →
  t = [] ∧ r = match mapM result_ok entries with Some names => Ok (omap (λ n, info_of n) names) | None => Err Failed end.
Proof.
  revert t r. induction entries as [|[n|e] entries IH]; intros t r; cbn; [done| |done].
  destruct (info_of n) as [info|] eqn:En; cbn.
  - destruct (parsed_at _ _ _ En) as [E1 E2]. assert (BackupInfo_ (Backups [n]) (timestamp info) (info_type info) None (compressed info) = info)
      as -> by by destruct info; cbn in *; subst.
    intros [(t1 & t2 & l & -> & H1 & H2)|(x & H & ->)]%runs_try.
    + apply IH in H1 as [-> H1]. destruct H2 as [-> ->]. split; [done|].
      destruct (mapM result_ok entries) as [names|]; [|done]. injection H1 as ->. cbn. by rewrite En.
    + apply IH in H as [-> H]. split; [done|]. by destruct (mapM result_ok entries).
  - intros H. apply IH in H as [-> ->]. split; [done|]. destruct (mapM result_ok entries); [|done]. cbn. by rewrite En.
Qed.
Lemma scan_run t r :
  runs (scan_backups parse_ts false) t r →
  removed t = [] ∧ (r = Ok (newest_first (omap (λ n, info_of n) (listed t))) ∨ r = Err Failed ∧ listed t = []).
Proof.
  cbn. intros (present & t1 & -> & H). destruct present; cbn in H.
  - destruct H as ([entries|e] & t2 & -> & H); cbn in H.
    + unfold listed. apply runs_try in H as [(t3 & t4 & l & -> & H1 & H2)|(x & H & ->)].
      * destruct H2 as [-> ->]. apply scan_entries_run in H1 as [-> H1]. split; [done|]. left. cbn.
        destruct (mapM result_ok entries) as [names|]; [|done]. by injection H1 as ->.
      * apply scan_entries_run in H as [-> H]. split; [done|]. right. cbn.
        destruct (mapM result_ok entries) as [names|]; [done|]. by injection H as ->.
    + destruct H as [-> ->]. split; [done|]. by right.
  - destruct H as [-> ->]. split; [done|]. by left.
Qed.
Lemma delete_run victims m n t r :
  0 ≤ m → runs (delete_each victims m n) t r → removed t = victims ∧
  omap names_of t = [] ∧ ∃ d f, r = Ok (d, f) ∧ d + f = m + n + Z.of_nat (length victims) ∧ m ≤ d.
Proof.
  revert m n t. induction victims as [|p victims IH]; intros m n t Hm; cbn [delete_each].
  - intros [-> ->]. split; [done|]. split; [done|]. exists m, n. cbn. split; [done|lia].
  - intros (dir & t1 & -> & H).
    assert (Hgo : ∃ q (b : Answer q) t2, t1 = answered q b :: t2 ∧ removal (answered q b) = Some p ∧
        names_of (answered q b) = None ∧
        (runs (delete_each victims (m + 1) n) t2 r ∨ runs (delete_each victims m (n + 1)) t2 r)).
    { destruct dir; destruct H as ([|] & t2 & -> & H);
        [exists (Sys (RemoveDirAll p)), true, t2|exists (Sys (RemoveDirAll p)), false, t2
        |exists (Sys (RemoveFile p)), true, t2|exists (Sys (RemoveFile p)), false, t2]; auto. }
    destruct Hgo as (q & b & t2 & -> & Eq & En & Ht). cbn [length].
    assert (Hc : ∀ t, removed (answered (R := Answer) (Sys (PathIsDir p)) dir :: answered q b :: t) = p :: removed t ∧
        omap names_of (answered (R := Answer) (Sys (PathIsDir p)) dir :: answered q b :: t) = omap names_of t).
    { intros t3. unfold removed. cbn [omap list_omap]. rewrite Eq, En. by destruct dir. }
    destruct (Hc t2) as [-> ->]. destruct Ht as [Ht|Ht]; apply IH in Ht as (-> & -> & d & f & -> & ? & ?); try lia;
      (split; [done|]; split; [done|]; exists d, f; split; [done|lia]).
Qed.

(** Rotation keeps the newest of each type.  What a rotation's run asks to
    remove is decided by the names it read: of the backups these parse to, it removes
    some, each once, and keeps of each type exactly the smaller of the retention and
    how many there are; and no backup it removes is newer, by its name's timestamp,
    than one of its type it keeps.  It fails only when it read no listing or removed nothing that
    it should have. *)
Lemma rotation_keeps_the_newest retention t r :
  0 ≤ retention → runs (rotate_backups_in parse_ts retention) t r →
  ∃ keep doomed, removed t = info_path <$> doomed ∧
    splits (λ _, retention) (omap (λ n, info_of n) (listed t)) keep doomed ∧
    (r = Ok tt ∨ (r = Err Failed ∧ (listed t = [] ∨ doomed ≠ []))).
Proof.
  intros Hr H. unfold rotate_backups_in in H. apply runs_try in H as [(t1 & t2 & l & -> & H1 & H2)|(x & H & ->)].
  - apply scan_run in H1 as [E1 [[= ->]|[? _]]]; [|done].
    destruct (newest_split (omap (λ n, info_of n) (listed t1)) retention Hr) as (keep & doomed & Ev & Hsp).
    apply runs_try in H2 as [(t3 & t4 & [d f] & -> & H2 & H3)|(x & H2 & ->)];
      apply delete_run in H2 as (E2 & E3 & d' & f' & E & Hdf & Hd); [|done..].
    injection E as <- <-. assert (Ht4 : t4 = [] ∧ r = if (f =? 0) || negb (d =? 0) then Ok tt else Err Failed)
      by by cbn in H3; destruct ((f =? 0) || negb (d =? 0)).
    destruct Ht4 as [-> ->]. exists keep, doomed. rewrite app_nil_r.
    assert (listed (t1 ++ t3) = listed t1) as -> by by (unfold listed; rewrite omap_app, E3, app_nil_r).
    split; [|split; [done|]].
    + unfold removed in *. by rewrite omap_app, E1, E2, Ev.
    + destruct (Z.eqb_spec f 0) as [->|Hf]; [by left|]. destruct (Z.eqb_spec d 0) as [->|]; [|by left].
      right. split; [done|]. right. intros ->. rewrite Ev in Hdf. cbn in Hdf. lia.
  - apply scan_run in H as [E [?|[[= ->] El]]]; [done|]. exists [], []. rewrite El. split_and!; [done| |by auto].
    split; [done|]. intros ty. split; [cbn; lia|]. by intros k d ?%elem_of_nil.
Qed.
End Rotation.

(** Three dumps and a retention of two, and a created backup that goes at once. *)
Abbreviation io q r := (answered (R := Answer) (Sys q) r).
Abbreviation aw q r := (answered (R := Answer) (Await q) (Some r)).
Module Kept.
Definition dump (day : string) : bytes := lit ("dump_2025010" ++ day ++ "_000000.sql").
Definition parse (ts : bytes) : option Z := match drop 7 ts with d :: _ => Some (byte_z d) | [] => None end.
Definition run : list (@event Req Answer) :=
  [io (PathExists (Backups [])) true; io (ReadDir (Backups [])) (Ok [Ok (dump "2"); Ok (lit "notes"); Ok (dump "1"); Ok (dump "3")]);
   io (PathIsDir (Backups [dump "1"])) false; io (RemoveFile (Backups [dump "1"])) true].
Definition name : bytes := lit "full_backup_20250109_000000".
Definition manager (retention : Z) : BackupManager := BackupManager_ (BackupConfig_ true retention Full false) (Some (lit "data")) true.
Definition fmt (t : Z) : bytes := lit "20250109_000000".
Definition created : list (@event Req Answer) :=
  [aw LockOp tt; io (CreateDirAll (Backups [])) true; io LocalNow 57; aw (Run CountTablespaces) (Output_ (Some 0) (lit "0"));
   aw (Run (PgBasebackup false (Backups [name]))) (Output_ (Some 0) []);
   aw (Run (PgVerifyBackup false (Backups [name]))) (Output_ (Some 0) []); io (PathIsFile (Backups [name])) false;
   io (PathIsDir (Backups [name])) true; io (Walk (Backups [name])) []].
Definition deleted : list (@event Req Answer) :=
  [io SpawnBlocking false; io (PathExists (Backups [])) true; io (ReadDir (Backups [])) (Ok [Ok name]);
   io (PathIsDir (Backups [name])) true; io (RemoveDirAll (Backups [name])) true].
Definition info : BackupInfo := BackupInfo_ (Backups [name]) 57 Full (Some 0) false.
End Kept.

Lemma rotation_keeps_the_newest_witness :
  ∃ keep doomed, [Backups [Kept.dump "1"]] = info_path <$> doomed ∧
    splits (λ _, 2) (omap (λ n, parse_backup_filename Kept.parse n (Backups [n])) (listed Kept.run)) keep doomed.
Proof.
  destruct (rotation_keeps_the_newest Kept.parse 2 Kept.run (Ok tt)) as (keep & doomed & H1 & H2 & _).
  - lia.
  - apply replay_runs. vm_compute. reflexivity.
  - exists keep, doomed. split; [exact H1|exact H2].
Defined.

(** A retention of zero, which no check refuses: the backup just created and verified
    is deleted, and its creation answers success. *)
Lemma a_zero_retention_deletes_what_it_created :
  runs (create_backup Kept.fmt Kept.parse (Kept.manager 0)) (Kept.created ++ Kept.deleted) (Ok Kept.info).
Proof. apply replay_runs. vm_compute. reflexivity. Qed.

(** A creation dropped while [pg_basebackup] runs cleans nothing up, and what is there
    by then is listed as a backup. *)
Lemma a_dropped_backup_is_listed :
  runs (create_backup Kept.fmt Kept.parse (Kept.manager 7))
    (take 4 Kept.created ++ [answered (R := Answer) (Await (Run (PgBasebackup false (Backups [Kept.name])))) None]) (Err Dropped) ∧
  runs (scan_backups Kept.parse false)
    [io (PathExists (Backups [])) true; io (ReadDir (Backups [])) (Ok [Ok Kept.name])]
    (Ok [BackupInfo_ (Backups [Kept.name]) 57 Full None false]).
Proof. split; apply replay_runs; vm_compute; reflexivity. Qed.

(** A plain dump that fails leaves what it wrote under the name it would be listed by. *)
Lemma a_failed_plain_dump_is_listed :
  let path := Backups [Kept.dump "9"] in
  runs (create_backup_with_type Kept.fmt Kept.parse (Kept.manager 7) Dump)
    ([aw LockOp tt; io (CreateDirAll (Backups [])) true; io LocalNow 57; io (CreateFile path) true;
      io (SetMode path SECRET_MODE) true; aw (Run (PgDumpAll path)) (Output_ (Some 1) [])]) (Err Failed) ∧
  runs (scan_backups Kept.parse false) [io (PathExists (Backups [])) true; io (ReadDir (Backups [])) (Ok [Ok (Kept.dump "9")])]
    (Ok [BackupInfo_ path 57 Dump None false]).
Proof. cbv zeta. split; apply replay_runs; vm_compute; reflexivity. Qed.

(** An empty directory under a full backup's name restores: the old data directory is
    staged, the new one is empty, and the staged one is removed. *)
Lemma an_empty_backup_replaces_the_data :
  let staged := Beside (lit ".data.pre_restore_20250109_000000_0") in
  runs (restore_full_backup Kept.fmt 3 (Kept.manager 7) (Backups [Kept.name]) false)
    ([aw (Run PgIsReady) (Output_ (Some 2) []); aw ReadPid (Err Standby.NotFound); io (CreateDirAll Parent) true;
      io (PathExists (Data [])) true; io LocalNow 0; io (PathExists staged) false; io (Rename (Data []) staged) true;
      io (FsyncDir Parent) true; io (CreateDirAll (Data [])) true; io SpawnBlocking false; io (PathIsDir (Backups [Kept.name])) true;
      io (Walk (Backups [Kept.name])) [Ok ([], IsDir)]; io (SetMode (Data []) PGDATA_MODE) true; io (Lstat (Data [])) (Ok IsDir);
      io (ReadDir (Data [])) (Ok []); io (FsyncDir (Data [])) true; io SpawnBlocking false; io (RemoveDirAll staged) true;
      io (FsyncDir Parent) true]) (Ok tt).
Proof. cbv zeta. apply replay_runs. vm_compute. reflexivity. Qed.

(** A replay that outlives its budget leaves its decompressed dump behind. *)
Lemma a_slow_replay_leaves_its_dump :
  let temp := Temp (temp_name (lit ".restore_") 1 2) in
  runs (restore_dump_backup (Backups [lit "dump_20250109_000000.sql.gz"]) true None)
    [io ProcessId 1; io UnixNanos 2; io SpawnBlocking false; io (OpenRead (Backups [lit "dump_20250109_000000.sql.gz"])) true;
     io (CreateFile temp) true; io (GunzipInto (Backups [lit "dump_20250109_000000.sql.gz"]) temp) true; io (Flush temp) true;
     aw (Run (Psql (lit "postgres") temp)) OverBudget] (Err Failed).
Proof. cbv zeta. apply replay_runs. vm_compute. reflexivity. Qed.
