(* ===== verification/BackupApi.v ===== *)
(** * The backup endpoints ([observability/management_api/backup.rs])

    The handlers over the backup manager and, for a full restore, the supervisor of
    the PostgreSQL process: what they ask is their own requests, the manager's and the
    supervisor's.  A handler's future is dropped when its client goes away, and with
    it the guards of the locks it holds, while blocking work it awaited runs on. *)

From S2P Require Import Prelude Effects Text PgFiles Backup.
From S2P Require Standby.
From Stdlib Require Import Strings.Byte.

(** ** What a handler asks *)
Inductive Req :=
| TryBackupLock | UnlockBackup | CurrentLeader | LockSupervisor
| UnlockSupervisor (s : Standby.Sup)      (* the guard dropped, the handle as it is *)
| Mgr (q : Backup.Req)
| Pg (q : Standby.Req).
Section Decisions.
#[local] Existing Instance byte_code_dec | 0.
#[global] Instance Sup_eq_dec : EqDecision Standby.Sup.
Proof. solve_decision. Defined.
#[global] Instance Req_eq_dec : EqDecision Req.
Proof. solve_decision. Defined.
End Decisions.
Definition Answer (q : Req) : Type :=
  match q with
  | TryBackupLock => bool
  | CurrentLeader => option Z
  | LockSupervisor => option Standby.Sup  (* [None]: dropped while it waits *)
  | UnlockBackup | UnlockSupervisor _ => unit
  | Mgr q => Backup.Answer q
  | Pg q => Standby.Answer q
  end.
Abbreviation api A := (prog Answer A).
Definition on_manager {A} (p : Backup.io A) : api (result Backup.Exit A) := embed Mgr (λ _ r, r) p.
Definition on_supervisor {A} (m : Standby.M A) (s : Standby.Sup) : api (Standby.Sup * result Standby.Exit A) :=
  embed Pg (λ _ r, r) (m s).

(** The manager's operation by a caller that holds guards: when the caller is dropped
    while blocking work runs, the guards are dropped ([release]) and the work goes on
    without them (at the earliest; it may get further before).  The caller is then
    gone ([None]). *)
Definition detaches (q : Backup.Req) : Backup.Answer q → bool :=
  match q with Backup.Sys SpawnBlocking => λ gone, gone | _ => λ _, false end.
Fixpoint while_held {A} (release : api ()) (p : prog Backup.Answer A) : api (option A) :=
  match p with
  | Ret a => Ret (Some a)
  | Do q k =>
      Do (Mgr q : Req) (λ r,
        if detaches q r then let* _ := release in let* _ := embed Mgr (λ _ r, r) (k r) in Ret None
        else while_held release (k r))
  end.
(** What a handler returns goes with the backup lock's guard; one that is gone has
    none. *)
Definition with_backup_lock {A} (body : api (option A)) : api (option A) :=
  let* r := body in
  match r with Some a => let* _ := ask UnlockBackup in Ret (Some a) | None => Ret None end.

(** ** Answers to the client *)
Inductive StatusCode := OK | BAD_REQUEST | CONFLICT | INTERNAL_SERVER_ERROR.
#[global] Instance StatusCode_eq_dec : EqDecision StatusCode.
Proof. solve_decision. Defined.
(** [None]: the handler went with its client, or a bound cut the run. *)
Abbreviation Response A := (option (StatusCode * A)).
Definition flatten {A} (p : api (option (Response A))) : api (Response A) := let* r := p in Ret (mjoin r).

Record ManagementApiState := ManagementApiState_ {
  node_id : Z;
  backup_manager : option BackupManager;
  has_postgres_manager : bool;
}.
Record BackupRestoreQuery := BackupRestoreQuery_ { filename : bytes; database : option bytes; allow_primary : bool }.

Section Handlers.
Context (fmt : Z → bytes) (parse_ts : bytes → option Z) (depth rounds : nat) (cfg : SupervisorConfig).

Definition create_backup (state : ManagementApiState) (backup_type : option BackupType) : api (Response (option BackupInfo)) :=
  let* guard := ask TryBackupLock in
  if negb guard then Ret (Some (CONFLICT, None))
  else
    flatten (with_backup_lock (
      let backup_type := default Full backup_type in
      match backup_manager state with
      | None => Ret (Some (Some (BAD_REQUEST, None)))
      | Some mgr =>
          let* r := while_held (ask UnlockBackup) (create_backup_with_type fmt parse_ts mgr backup_type) in
          Ret (r ← r;
               Some (match r with
                     | Ok info => Some (OK, Some info)
                     | Err Failed => Some (INTERNAL_SERVER_ERROR, None)
                     | Err _ => None
                     end))
      end)).
(** The listing, and the retention it is answered with. *)
Definition list_backups (state : ManagementApiState) : api (Response (list BackupInfo * Z)) :=
  match backup_manager state with
  | None => Ret (Some (BAD_REQUEST, ([], 0)))
  | Some mgr =>
      let* r := on_manager (run_blocking (Backup.list_backups parse_ts)) in
      Ret (match r with
           | Ok backups => Some (OK, (backups, retention_count (config mgr)))
           | Err Failed => Some (INTERNAL_SERVER_ERROR, ([], retention_count (config mgr)))
           | Err _ => None
           end)
  end.

Definition validate_backup_filename (filename : bytes) : bool :=
  negb (bool_decide (filename = [])) && negb (255 <? Z.of_nat (length filename))
  && negb (bool_decide ("/"%byte ∈ filename) || bool_decide ("\"%byte ∈ filename)
           || str_contains (lit "..") filename || bool_decide ("000"%byte ∈ filename))
  && (starts_with (lit "full_backup_") filename || starts_with (lit "dump_") filename).
Definition is_full_name (filename : bytes) : bool := starts_with (lit "full_backup_") filename.
(** The manager and whether this is a full restore, or a rejection. *)
Definition resolve_restore (state : ManagementApiState) (filename : bytes) (allow_primary : bool)
    : api (result StatusCode (BackupManager * bool)) :=
  if negb (validate_backup_filename filename) then Ret (Err BAD_REQUEST)
  else
    match backup_manager state with
    | None => Ret (Err BAD_REQUEST)
    | Some mgr =>
        let is_full := is_full_name filename in
        let* leader := ask CurrentLeader in
        let is_leader := bool_decide (leader = Some (node_id state)) in
        Ret (if is_full && is_leader then Err CONFLICT
             else if negb is_full && negb is_leader then Err CONFLICT
             else if negb is_full && negb allow_primary then Err CONFLICT
             else Ok (mgr, is_full))
    end.
Definition restore_response (r : result Backup.Exit ()) : Response () :=
  match r with Ok _ => Some (OK, tt) | Err Failed => Some (INTERNAL_SERVER_ERROR, tt) | Err _ => None end.

(** An operation of the supervisor's; a cut one ends the handler. *)
Definition pg_failed {A} (r : result Standby.Exit A) : bool := match r with Err (Standby.Fail _) => true | _ => false end.
(** After the manager's restore. *)
Definition after_restore (s : Standby.Sup) (restored : result Backup.Exit ()) : api (Standby.Sup * Response ()) :=
  match restored with
  | Err (Dropped | OutOfRounds) => Ret (s, None)
  | _ =>
      let* signalled := if is_ok restored then on_supervisor Standby.ensure_standby_signal s else Ret (s, Ok tt) in
      let '(s, r) := signalled in
      match r with
      | Err (Standby.Fail _) => Ret (s, Some (INTERNAL_SERVER_ERROR, tt))
      | Err _ => Ret (s, None)
      | Ok _ =>
          let* started := on_supervisor (Standby.start rounds cfg) s in
          let '(s, r) := started in
          match r with
          | Err (Standby.Fail _) => Ret (s, Some (INTERNAL_SERVER_ERROR, tt))
          | Err _ => Ret (s, None)
          | Ok _ => Ret (s, restore_response restored)
          end
      end
  end.
(** Both guards, in the order a dropped handler drops them. *)
Definition drop_guards (s : Standby.Sup) : api () := let* _ := ask (UnlockSupervisor s) in ask UnlockBackup.
(** Under the supervisor's lock: the handle after, and the answer; [None] when the
    handler was dropped during the manager's blocking work. *)
Definition full_restore_locked (state : ManagementApiState) (mgr : BackupManager) (query : BackupRestoreQuery) (s : Standby.Sup)
    : api (option (Standby.Sup * Response ())) :=
  let* leader := ask CurrentLeader in
  if bool_decide (leader = Some (node_id state)) then Ret (Some (s, Some (CONFLICT, tt)))
  else
    let* stopped := on_supervisor Standby.stop s in
    let '(s, r) := stopped in
    match r with
    | Err (Standby.Fail _) => Ret (Some (s, Some (INTERNAL_SERVER_ERROR, tt)))
    | Err _ => Ret (Some (s, None))
    | Ok _ =>
        let* restored := while_held (drop_guards s)
          (Backup.restore_backup fmt parse_ts depth mgr (filename query) (database query)) in
        match restored with
        | Some restored => let* done := after_restore s restored in Ret (Some done)
        | None => Ret None
        end
    end.
Definition execute_full_restore (state : ManagementApiState) (mgr : BackupManager) (query : BackupRestoreQuery)
    : api (option (Response ())) :=
  let* pg := ask LockSupervisor in
  match pg with
  | None => Ret (Some None)
  | Some s =>
      let* done := full_restore_locked state mgr query s in
      match done with
      | None => Ret None
      | Some (s, r) => let* _ := ask (UnlockSupervisor s) in Ret (Some r)
      end
  end.
Definition restore_backup (state : ManagementApiState) (query : BackupRestoreQuery) : api (Response ()) :=
  let* guard := ask TryBackupLock in
  if negb guard then Ret (Some (CONFLICT, tt))
  else
    flatten (with_backup_lock (
      let* ready := resolve_restore state (filename query) (allow_primary query) in
      match ready with
      | Err status => Ret (Some (Some (status, tt)))
      | Ok (mgr, is_full) =>
          if has_postgres_manager state && is_full then execute_full_restore state mgr query
          else
            let* r := while_held (ask UnlockBackup)
              (Backup.restore_backup fmt parse_ts depth mgr (filename query) (database query)) in
            Ret (restore_response <$> r)
      end)).
End Handlers.
