(* ===== verification/BackupApiProofs.v ===== *)
(** * What a restore request does, and which it refuses

    A full restore as its parts' runs in order, under the locks until the handler is
    dropped in the middle of blocking work, and what runs on then; the names of created
    backups against the endpoint's and the manager's checks. *)

From S2P Require Import Prelude Effects Text PgFiles Backup BackupApi.
From S2P Require Standby BackupProofs.
From Stdlib Require Import Strings.Byte.

Abbreviation hist := (list (@event Req Answer)).
Abbreviation ev q r := (answered (R := Answer) q r).

(** The manager's requests in a history, and the histories of the parts in one. *)
Definition by_manager (e : @event Req Answer) : option Backup.Req :=
  match projT1 e with Mgr q => Some q | _ => None end.
Definition on_disk (t : hist) : list Backup.Req := omap by_manager t.
Definition mgr : list (@event Backup.Req Backup.Answer) → hist := fmap (embed_event (R2 := Answer) Mgr (λ _ r, r)).
Definition pg : list (@event Standby.Req Standby.Answer) → hist := fmap (embed_event (R2 := Answer) Pg (λ _ r, r)).

Lemma on_disk_app t1 t2 : on_disk (t1 ++ t2) = on_disk t1 ++ on_disk t2.
Proof. apply omap_app. Qed.
Lemma on_disk_pg t : on_disk (pg t) = [].
Proof. induction t as [|e t IH]; [done|]. exact IH. Qed.

Lemma runs_supervisor {A B} (m : Standby.M A) s (f : Standby.Sup * result Standby.Exit A → prog Answer B) t b :
  runs (bind (on_supervisor m s) f) t b →
  ∃ t1 t2 s' a, t = pg t1 ++ t2 ∧ runs (m s) t1 (s', a) ∧ runs (f (s', a)) t2 b.
Proof.
  intros (t1 & t2 & [s' a] & -> & H1 & H2)%runs_bind. apply (embed_runs (R2 := Answer) Pg (λ _ r, r) (λ _ r, r)) in H1 as (t1' & -> & H1); [|done].
  by exists t1', t2, s', a.
Qed.

(** ** Work that outlives its caller *)
Abbreviation gone_caller := (answered (R := Backup.Answer) (Sys SpawnBlocking) true).
Definition stays (e : @event Backup.Req Backup.Answer) : Prop := detaches (projT1 e) (projT2 e) = false.
(** Asked by one piece of blocking work: nothing is awaited, nothing else started. *)
Definition blocking (q : Backup.Req) : bool :=
  match q with Await _ | Sys SpawnBlocking => false | _ => true end.
Definition by_work (e : @event Backup.Req Backup.Answer) : Prop := blocking (projT1 e) = true.

(** A program that runs on as one piece of work, its outcome dropped; and one that
    does nothing else after its caller is gone. *)
Fixpoint detached {A} (p : Backup.io A) : Prop :=
  match p with Ret r => r = Err Dropped | Do q k => blocking q = true ∧ ∀ r, detached (k r) end.
Fixpoint leaves {A} (p : Backup.io A) : Prop :=
  match p with Ret _ => True | Do q k => ∀ r, if detaches q r then detached (k r) else leaves (k r) end.

Lemma detached_bind {A B} (p : Backup.io A) (f : result Exit A → Backup.io B) :
  f (Err Dropped) = Ret (Err Dropped) → detached p → detached (bind p f).
Proof. intros Hf. induction p as [r|q k IH]; cbn; [by intros ->; rewrite Hf|]. intros [Hq Hk]. split; auto. Qed.
Lemma leaves_bind {A B} (p : Backup.io A) (f : result Exit A → Backup.io B) :
  f (Err Dropped) = Ret (Err Dropped) → leaves p → (∀ r, leaves (f r)) → leaves (bind p f).
Proof.
  intros Hf Hp Hk. induction p as [r|q k IH]; cbn; [apply Hk|]. intros r. specialize (Hp r).
  destruct (detaches q r); [by apply detached_bind|]. by apply IH.
Qed.
Lemma leaves_try {A B} (p : Backup.io A) (f : A → Backup.io B) :
  leaves p → (∀ a, leaves (f a)) → leaves (try_bind p f).
Proof. intros Hp Hf. apply leaves_bind; [done..|]. by intros []. Qed.
Lemma leaves_asks {A} (p : Backup.io A) : asks (λ q, negb (bool_decide (q = Sys SpawnBlocking))) p → leaves p.
Proof.
  induction p as [r|q k IH]; [done|]. intros [Hq Hk] r. replace (detaches q r) with false by by destruct q as [[]|].
  by apply IH.
Qed.
Lemma leaves_blocking {A} (w : Backup.io A) : asks blocking w → leaves (run_blocking w).
Proof.
  intros Hw. assert (leaves (let* r := w in Ret r)) as Hl.
  { apply leaves_asks. revert Hw. induction w as [r|q k IH]; [done|]. intros [Hq Hk]. split; [|intros r; by apply IH].
    apply negb_true_iff, bool_decide_eq_false. by intros ->. }
  intros [|]; [|exact Hl]. cbn. clear Hl. revert Hw. induction w as [r|q k IH]; [done|]. intros [Hq Hk]. split; auto.
Qed.
Lemma detached_runs {A} (p : Backup.io A) t r : detached p → runs p t r → r = Err Dropped ∧ Forall by_work t.
Proof.
  revert t. induction p as [a|q k IH]; intros t Hp; cbn; [by intros [-> ->]|]. destruct Hp as [Hq Hk].
  intros (a & t' & -> & H). destruct (IH a t' (Hk a) H) as [-> F]. split; [done|]. by constructor.
Qed.

(** A guarded operation of the manager: it ends under its guards, or they are released
    in the middle and it runs on as one piece of work. *)
Lemma while_held_runs {A B} (rel : prog Answer ()) (p : Backup.io A) (f : option (result Exit A) → prog Answer B) t b :
  leaves p → runs (bind (while_held rel p) f) t b →
  (∃ t1 t2 a, t = mgr t1 ++ t2 ∧ Forall stays t1 ∧ runs p t1 a ∧ runs (f (Some a)) t2 b) ∨
  (∃ t1 tr t2 t3, t = mgr (t1 ++ [gone_caller]) ++ tr ++ mgr t2 ++ t3 ∧ Forall stays t1 ∧ runs rel tr tt ∧
     runs p (t1 ++ gone_caller :: t2) (Err Dropped) ∧ Forall by_work t2 ∧ runs (f None) t3 b).
Proof.
  revert t. induction p as [a|q k IH]; intros t Hl; cbn [while_held].
  - intros H. left. by exists [], t, a.
  - cbn [bind]. intros (r & t' & -> & H). specialize (Hl r). destruct (detaches q r) eqn:Ed.
    + right. apply runs_bind in H as (t0 & t3 & o & -> & H & H3).
      apply runs_bind in H as (tr & t5 & [] & -> & Hrel & H).
      apply runs_bind in H as (t6 & t7 & x & -> & H6 & [-> ->]).
      apply (embed_runs (R2 := Answer) Mgr (λ _ r, r) (λ _ r, r)) in H6 as (t2 & -> & H2); [|done].
      destruct (detached_runs _ _ _ Hl H2) as [-> F]. destruct q as [[]|]; try done. cbn in Ed. subst r.
      exists [], tr, t2, t3. split_and!; [|done|done|by exists true, t2|done|done].
      cbn. by rewrite app_nil_r, <-!app_assoc.
    + destruct (IH r t' Hl H) as [(t1 & t2 & a & -> & F & H1 & H2)|(t1 & tr & t2 & t3 & -> & F & Hr & H1 & F2 & H3)].
      * left. exists (answered q r :: t1), t2, a. split_and!; [done|by constructor|by exists r, t1|done].
      * right. exists (answered q r :: t1), tr, t2, t3. split_and!; [done|by constructor|done|by exists r, (t1 ++ gone_caller :: t2)|done|done].
Qed.

(** *** The manager's restore is such a program *)
Lemma works_blocking q : BackupProofs.works q = true → blocking q = true.
Proof. by destruct q as [[]|]. Qed.
Lemma first_free_leaves k prefix ts start : leaves (first_free k prefix ts start).
Proof.
  revert start. induction k as [|k IH]; intros start; cbn [first_free].
  - apply leaves_asks. BackupProofs.asking.
  - apply leaves_try; [apply IH|]. intros [c|]; [done|apply IH].
Qed.
Ltac leaving :=
  repeat (intros; lazymatch goal with
    | |- leaves (run_blocking _) => apply leaves_blocking
    | |- leaves (try_bind _ _) => apply leaves_try
    | |- leaves (let _ := _ in _) => cbv zeta
    | |- leaves (if ?b then _ else _) => destruct b
    | |- leaves (match ?x with _ => _ end) => destruct x
    | |- leaves (each _ _) => apply leaves_asks
    | |- leaves (first_free _ _ _ _) => apply first_free_leaves
    | |- leaves (sys _) => apply leaves_asks, BackupProofs.asks_sys; reflexivity
    | |- leaves (must _ _) => apply leaves_asks, BackupProofs.asks_must; reflexivity
    | |- leaves (run_with_timeout _ _) => apply leaves_asks, BackupProofs.asks_run; reflexivity
    | |- leaves _ => apply leaves_asks; BackupProofs.asking
    end).
Lemma staging_leaves fmt m : leaves (stage_existing_data_dir fmt m).
Proof. unfold stage_existing_data_dir, make_staged_data_dir_path. leaving. Qed.
Lemma rollback_leaves m p : leaves (rollback_failed_restore m p).
Proof.
  apply leaves_bind; [done| |by intros [|[]]]. apply leaves_blocking. BackupProofs.asking.
Qed.
Lemma unstage_leaves m p : leaves (remove_staged_pre_restore m p).
Proof.
  apply leaves_bind; [done|apply leaves_blocking; BackupProofs.asking|]. intros [[]|[]]; leaving.
Qed.
Lemma full_leaves fmt depth m p c : leaves (restore_full_backup fmt depth m p c).
Proof.
  unfold restore_full_backup. apply leaves_try; [|intros _].
  { unfold validate_full_backup_bundle, check_members. apply leaves_asks. BackupProofs.asking. }
  apply leaves_try; [|intros _].
  { unfold ensure_postgres_stopped, confirm_no_live_postmaster. apply leaves_asks. BackupProofs.asking. }
  apply leaves_try; [leaving|intros _]. apply leaves_try; [apply staging_leaves|intros staged].
  apply leaves_try; [leaving|intros _]. apply leaves_bind; [done| |].
  - apply leaves_blocking. eapply BackupProofs.asks_mono; [apply works_blocking|].
    apply BackupProofs.write_restored_asks.
  - intros [[]|[]]; [|apply rollback_leaves|done..]. destruct staged; [apply unstage_leaves|done].
Qed.
Lemma dump_leaves p c db : leaves (restore_dump_backup p c db).
Proof.
  unfold restore_dump_backup. apply leaves_try.
  - destruct c; [|done]. do 2 (apply leaves_try; [leaving|intros ?]). cbv zeta. apply leaves_bind; [done| |].
    + apply leaves_blocking. unfold decompress_gzip_to_file, Backup.guarded, remove_file. BackupProofs.asking.
    + intros [[]|[]]; unfold remove_file; leaving.
  - intros temp. unfold remove_file, ensure. leaving.
Qed.
Lemma restore_leaves fmt parse_ts depth m name db : leaves (Backup.restore_backup fmt parse_ts depth m name db).
Proof.
  unfold Backup.restore_backup. destruct (_ || _); [done|]. cbv zeta.
  repeat (apply leaves_try; [unfold of_option, ensure; leaving|intros ?]).
  case_match; [apply full_leaves|apply dump_leaves].
Qed.

#[local] Arguments full_restore_locked : simpl never.
#[local] Arguments on_supervisor : simpl never.
Section Restore.
Context (fmt : Z → bytes) (parse_ts : bytes → option Z) (depth rounds : nat) (cfg : SupervisorConfig).
Context (state : ManagementApiState) (query : BackupRestoreQuery).
Abbreviation restore m := (Backup.restore_backup fmt parse_ts depth m (filename query) (database query)).

(** The rest after it: the signal when the restore succeeded, then the start. *)
Definition finished (s1 : Standby.Sup) (r2 : result Exit ()) (t : hist) (r : Response ()) : Prop :=
  on_disk t = [] ∧
  (r = Some (OK, tt) → r2 = Ok tt ∧ ∃ t3 s2 t4 s3, t = pg t3 ++ pg t4 ∧
     runs (Standby.ensure_standby_signal s1) t3 (s2, Ok tt) ∧ runs (Standby.start rounds cfg s2) t4 (s3, Ok tt)) ∧
  (r2 ≠ Ok tt → t = [] ∨ ∃ t4 a, t = pg t4 ∧ runs (Standby.start rounds cfg s1) t4 a).

Lemma after_restored s1 r2 t s' r : runs (after_restore rounds cfg s1 r2) t (s', r) → finished s1 r2 t r.
Proof.
  unfold finished, after_restore. destruct r2 as [[]|[]]; cbn [is_ok].
  - intros (t3 & t' & s2 & a & -> & H3 & H)%runs_supervisor. rewrite on_disk_app, on_disk_pg.
    destruct a as [[]|[]]; try by destruct H as [-> [= -> ->]].
    apply runs_supervisor in H as (t4 & t'' & s3 & b & -> & H4 & H). rewrite on_disk_app, on_disk_pg.
    destruct b as [[]|[]]; try by destruct H as [-> [= -> ->]].
    destruct H as [-> [= -> ->]]. split; [done|]. split; [|done]. intros _. split; [done|].
    exists t3, s2, t4, s3. by rewrite app_nil_r.
  - cbn [bind]. intros (t4 & t'' & s3 & b & -> & H4 & H)%runs_supervisor. rewrite on_disk_app, on_disk_pg.
    assert (Hr : t'' = [] ∧ r ≠ Some (OK, tt)).
    { destruct b as [[]|[]]; destruct H as [-> [= -> ->]]; (split; [done|by intros [= ]]). }
    destruct Hr as [-> Hr]. split_and!; [done|done|]. intros _. right. exists t4, (s3, b). by rewrite app_nil_r.
  - intros [-> [= -> ->]]. split_and!; [done|done|by left].
  - intros [-> [= -> ->]]. split_and!; [done|done|by left].
Qed.

(** What follows the stop: the manager's restore under both locks to its end, or its
    last piece of blocking work left running when the handler was dropped. *)
Definition under_the_locks (m : BackupManager) (s1 : Standby.Sup) (t : hist) (r : Response ()) : Prop :=
  ∃ t2 r2 t3 s3, t = mgr t2 ++ t3 ++ [ev (UnlockSupervisor s3) tt; ev UnlockBackup tt] ∧
    Forall stays t2 ∧ runs (restore m) t2 r2 ∧ finished s1 r2 t3 r.
Definition left_running (m : BackupManager) (s1 : Standby.Sup) (t : hist) (r : Response ()) : Prop :=
  r = None ∧ ∃ t2 t2', t = mgr (t2 ++ [gone_caller]) ++ [ev (UnlockSupervisor s1) tt; ev UnlockBackup tt] ++ mgr t2' ∧
    Forall stays t2 ∧ Forall by_work t2' ∧ runs (restore m) (t2 ++ gone_caller :: t2') (Err Dropped).

Lemma locked_runs m s t r :
  runs (flatten (with_backup_lock (
    let* done := full_restore_locked fmt parse_ts depth rounds cfg state m query s in
    match done with None => Ret None | Some (s, r) => let* _ := ask (UnlockSupervisor s) in Ret (Some r) end)))
    t r →
  (on_disk t = [] ∧ r ≠ Some (OK, tt)) ∨
  (∃ leader t1 s1 rest, t = ev CurrentLeader leader :: pg t1 ++ rest ∧ leader ≠ Some (node_id state) ∧
   runs (Standby.stop s) t1 (s1, Ok tt) ∧ (under_the_locks m s1 rest r ∨ left_running m s1 rest r)).
Proof.
  unfold flatten, with_backup_lock. intros (t0 & tz & x & -> & H & [-> ->])%runs_bind. rewrite app_nil_r.
  apply runs_bind in H as (ta & tb & y & -> & H & Hend).
  apply runs_bind in H as (tc & td & done & -> & H & Hun).
  unfold full_restore_locked in H. destruct H as (leader & te & -> & H). cbn [bind] in H.
  case_bool_decide as El.
  { left. destruct H as [-> ->]. destruct Hun as ([] & ? & -> & [-> ->]). destruct Hend as ([] & ? & -> & [-> ->]). done. }
  apply runs_supervisor in H as (t1 & t2 & s1 & a & -> & Hs & H).
  assert (Hno : ∀ s' r', t2 = [] → done = Some (s', r') → r' ≠ Some (OK, tt) →
    on_disk (((ev CurrentLeader leader :: pg t1 ++ t2) ++ td) ++ tb) = [] ∧ mjoin x ≠ Some (OK, tt)).
  { intros s' r' -> -> Hr. destruct Hun as ([] & ? & -> & [-> ->]). destruct Hend as ([] & ? & -> & [-> ->]).
    split; [|done]. rewrite app_nil_r. change (on_disk ((pg t1 ++ [ev (UnlockSupervisor s') tt]) ++ [ev UnlockBackup tt]) = []).
    by rewrite !on_disk_app, on_disk_pg. }
  destruct a as [[]|e]; [|left; destruct e; destruct H as [-> ->]; by eapply Hno]. clear Hno.
  right. exists leader, t1, s1, (t2 ++ td ++ tb). split; [by cbn; rewrite <-!app_assoc|]. split; [done|]. split; [done|].
  apply while_held_runs in H as [(u1 & u2 & r2 & -> & F & Hm & H)|(u1 & tr & u2 & u3 & -> & F & Hr & Hm & Fw & [-> ->])];
    [| |apply restore_leaves].
  - left. apply runs_bind in H as (v1 & v2 & [s3 r3] & -> & Hf%after_restored & [-> ->]).
    destruct Hun as ([] & ? & -> & [-> ->]). destruct Hend as ([] & ? & -> & [-> ->]).
    exists u1, r2, v1, s3. split_and!; [by rewrite ?app_nil_r, <-?app_assoc|done|done|done].
  - right. destruct Hun as [-> ->]. destruct Hend as [-> ->]. split; [done|]. exists u1, u2.
    destruct Hr as ([] & ? & -> & ([] & ? & -> & [-> _])). split_and!; [by rewrite ?app_nil_r, <-?app_assoc|done|done|done].
Qed.

(** A request answered before anything was done, the backup lock released. *)
Ltac refused H := cbn in H; destruct H as ([] & ? & -> & H); cbn in H; destruct H as [-> ->].

(** C22. A restore overwrites only a stopped standby, on a node that manages PostgreSQL
    ([has_postgres_manager]).  A full restore request that reaches backups or the data
    directory does so after this node was seen not to lead under the backup lock and
    the supervisor's, and PostgreSQL was stopped, as one run of the manager's restore.
    If the handler lasts, all of it is under both locks, and the handler then answers
    success only when the restore succeeded, the standby signal was written after it
    and PostgreSQL started after that; a restore that failed writes no signal.  If the
    handler is dropped while the manager's blocking work runs, the locks are released
    and that one piece of work runs on outside them to its end: it awaits nothing and
    starts nothing else, the supervisor is asked nothing more and nobody is answered.
    A dump is replayed only on the leader, as the request asked. *)
Theorem a_full_restore_overwrites_a_stopped_standby t r :
  has_postgres_manager state = true → runs (restore_backup fmt parse_ts depth rounds cfg state query) t r →
  (on_disk t = [] ∧ r ≠ Some (OK, tt)) ∨
  (ev TryBackupLock true ∈ t ∧ validate_backup_filename (filename query) = true ∧ ∃ m, backup_manager state = Some m ∧
   if is_full_name (filename query) then
     ∃ h s leader t1 s1 rest,
       t = h ++ [ev LockSupervisor (Some s); ev CurrentLeader leader] ++ pg t1 ++ rest ∧
       ev TryBackupLock true ∈ h ∧ on_disk h = [] ∧ leader ≠ Some (node_id state) ∧
       runs (Standby.stop s) t1 (s1, Ok tt) ∧ (under_the_locks m s1 rest r ∨ left_running m s1 rest r)
   else allow_primary query = true ∧ ev CurrentLeader (Some (node_id state)) ∈ t).
Proof.
  intros Hpg. unfold restore_backup. intros (guard & t1 & -> & H).
  destruct guard; cbn [negb] in H; [|left; by destruct H as [-> ->]].
  unfold resolve_restore in H. destruct (validate_backup_filename _) eqn:Ev; cbn [negb] in H;
    [|left; by refused H].
  destruct (backup_manager state) as [m|] eqn:Em; [|left; by refused H].
  destruct H as (leader & t2 & -> & H). cbn [bind] in H. rewrite Hpg in H. cbn [andb] in H.
  destruct (is_full_name (filename query)) eqn:Ef; cbn [negb andb] in H.
  - destruct (bool_decide (leader = _)) eqn:El; [left; by refused H|].
    destruct H as ([s|] & t3 & -> & H); [|left; by refused H].
    apply (locked_runs m s t3 r) in H as [[Hd Hr]|(leader' & u1 & s1 & rest & -> & Hl & Hs & Hrest)]; [by left|].
    right. split; [by left|]. split; [done|]. exists m. split; [done|].
    exists [ev TryBackupLock true; ev CurrentLeader leader], s, leader', u1, s1, rest. split_and!; [done|by left|done..].
  - destruct (bool_decide (leader = _)) eqn:El; cbn [negb] in H; [|left; by refused H].
    apply bool_decide_eq_true in El as ->.
    destruct (allow_primary query) eqn:Ea; cbn [negb] in H; [|left; by refused H].
    right. split; [by left|]. split; [done|]. exists m. split; [done|]. split; [done|]. right. by left.
Qed.
End Restore.

(** A restore of an empty backup directory onto a standby with no data directory,
    whose start is then refused. *)
Module Once.
Definition name : bytes := lit "full_backup_20250101_000000".
Definition fmt (t : Z) : bytes := lit "20250102_030405".
Definition parse (b : bytes) : option Z := Some 0.
Definition manager : BackupManager := BackupManager_ (BackupConfig_ true 7 Full false) (Some (lit "data")) true.
Definition state : ManagementApiState := ManagementApiState_ 2 (Some manager) true.
Definition query : BackupRestoreQuery := BackupRestoreQuery_ name None false.
Definition cfg : SupervisorConfig := SupervisorConfig_ 5432 (lit "postgres") Replica 2 Trust None.
Definition handle : Standby.Sup := Standby.Supervisor_new.
Definition io q r : @event Req Answer := ev (Mgr (Sys q)) r.
Definition aw q r : @event Req Answer := ev (Mgr (Await q)) (Some r).
Definition gates : hist :=
  [ev TryBackupLock true; ev CurrentLeader (Some 1); ev LockSupervisor (Some handle); ev CurrentLeader (Some 1);
   ev (Pg (Standby.Async Standby.InvalidateSql)) (Some tt)].
Definition restored : hist :=
  [io (Canonicalize (Backups [name])) (Some [lit "backups"; name]); io (Canonicalize (Backups [])) (Some [lit "backups"]);
   io (PathExists (Backups [name])) true; aw (Run PgIsReady) (Output_ (Some 2) []); aw ReadPid (Err Standby.NotFound);
   io (CreateDirAll Parent) true; io (PathExists (Data [])) false; io (CreateDirAll (Data [])) true; io SpawnBlocking false;
   io (PathIsDir (Backups [name])) true; io (Walk (Backups [name])) [Ok ([], IsDir)]; io (SetMode (Data []) PGDATA_MODE) true;
   io (Lstat (Data [])) (Ok IsDir); io (ReadDir (Data [])) (Ok []); io (FsyncDir (Data [])) true].
Definition started : hist :=
  [ev (Pg (Standby.Async Standby.OpenSignal)) (Some true); ev (Pg (Standby.Async Standby.SyncSignal)) (Some true);
   ev (Pg (Standby.Async Standby.SyncDataDir)) (Some true); ev (Pg (Standby.Async Standby.InvalidateSql)) (Some tt);
   ev (Pg (Standby.Sync (Standby.Exists Standby.PidFile))) false; ev (Pg (Standby.Sync (Standby.Exists Standby.ConfMarker))) false;
   ev (UnlockSupervisor handle) tt; ev UnlockBackup tt].
End Once.
Lemma a_full_restore_overwrites_a_stopped_standby_witness :
  ∃ s1 rest, under_the_locks Once.fmt Once.parse 3 1 Once.cfg Once.query Once.manager s1 rest (Some (INTERNAL_SERVER_ERROR, tt)) ∨
    left_running Once.fmt Once.parse 3 Once.query Once.manager s1 rest (Some (INTERNAL_SERVER_ERROR, tt)).
Proof.
  destruct (a_full_restore_overwrites_a_stopped_standby Once.fmt Once.parse 3 1 Once.cfg Once.state Once.query
    (Once.gates ++ Once.restored ++ Once.started) (Some (INTERNAL_SERVER_ERROR, tt))) as [[H _]|(_ & _ & m & Hm & H)].
  - reflexivity.
  - apply replay_runs. vm_compute. reflexivity.
  - exfalso. vm_compute in H. discriminate H.
  - injection Hm as <-. destruct H as (h & s & leader & t1 & s1 & rest & _ & _ & _ & _ & _ & H). by exists s1, rest.
Defined.

(** The same restore, its client gone while the copy runs: the locks are free and the
    data directory is still written. *)
Definition unattended : hist :=
  Once.gates ++ take 8 Once.restored ++ [Once.io SpawnBlocking true; ev (UnlockSupervisor Once.handle) tt; ev UnlockBackup tt] ++
  drop 9 Once.restored.
Lemma a_dropped_restore_writes_without_its_locks :
  runs (restore_backup Once.fmt Once.parse 3 1 Once.cfg Once.state Once.query) unattended None ∧
  ∃ t1 t2, unattended = t1 ++ [ev (UnlockSupervisor Once.handle) tt; ev UnlockBackup tt] ++ t2 ∧
    Sys (SetMode (Data []) PGDATA_MODE) ∈ on_disk t2.
Proof.
  split; [apply replay_runs; vm_compute; reflexivity|].
  exists (Once.gates ++ take 8 Once.restored ++ [Once.io SpawnBlocking true]), (drop 9 Once.restored).
  split; [by rewrite <-!app_assoc|]. vm_compute. right. right. left.
Qed.

(** ** The names of created backups *)
(** What chrono prints for [%Y%m%d_%H%M%S]. *)
Definition stamp (ts : bytes) : Prop :=
  ts ≠ [] ∧ (length ts <= 200)%nat ∧ Forall (λ b, is_ascii_digit b || byte_eqb b "_"%byte = true) ts.
Definition created_name (m : BackupManager) (ty : BackupType) (ts : bytes) : bytes :=
  match ty with Full => full_name m ts | Dump => dump_name m ts end.
Definition name_head (ty : BackupType) : bytes := match ty with Full => lit "full_backup_" | Dump => lit "dump_" end.
Definition name_tail (ty : BackupType) (c : bool) : bytes :=
  match ty with Full => if c then lit ".tar.gz" else [] | Dump => lit ".sql" ++ (if c then lit ".gz" else []) end.
Lemma created_name_parts m ty ts : created_name m ty ts = name_head ty ++ ts ++ name_tail ty (compress (config m)).
Proof. by destruct ty. Qed.

Lemma stamp_without c ts : is_ascii_digit c || byte_eqb c "_"%byte = false → stamp ts → c ∉ ts.
Proof. intros Hc (_ & _ & F) Hin. rewrite Forall_forall in F. specialize (F c Hin). cbn in F. congruence. Qed.
Lemma strip_suffix_app s l : strip_suffix s (l ++ s) = Some l.
Proof. unfold strip_suffix. rewrite reverse_app, strip_prefix_app. cbn. by rewrite reverse_involutive. Qed.
Lemma strip_suffix_other c s ts : is_ascii_digit c || byte_eqb c "_"%byte = false → stamp ts → strip_suffix (s ++ [c]) ts = None.
Proof.
  intros Hc Hts. unfold strip_suffix. rewrite reverse_snoc.
  destruct (reverse ts) as [|d l] eqn:E; cbn; [done|]. destruct (byte_eqb c d) eqn:Ed; [|done].
  apply bool_decide_eq_true in Ed as <-. destruct (stamp_without c ts Hc Hts). rewrite <-elem_of_reverse, E. by left.
Qed.
Lemma no_dots_before a b : "."%byte ∉ a → str_contains (lit "..") (a ++ b) = str_contains (lit "..") b.
Proof.
  induction a as [|x a IH]; intros H; [done|]. rewrite not_elem_of_cons in H. destruct H as [Hx Ha].
  rewrite <-(IH Ha). unfold str_contains. cbn [app after_first].
  change (strip_prefix (lit "..") (x :: a ++ b)) with (if byte_eqb "."%byte x then strip_prefix (lit ".") (a ++ b) else None).
  by rewrite (bool_decide_eq_false_2 _ Hx : byte_eqb "."%byte x = false).
Qed.
Lemma sql_extension ts : stamp ts → extension_is (lit "sql") (ts ++ lit ".sql") = true.
Proof.
  intros (Hne & _ & _). unfold extension_is, split_extension, rsplit_once. rewrite reverse_app.
  change (split_once "."%byte (reverse (lit ".sql") ++ reverse ts)) with (Some (lit "lqs", reverse ts)). cbn [mbind option_bind].
  rewrite reverse_involutive, bool_decide_false by done. reflexivity.
Qed.

Ltac absent := lazymatch goal with |- ?P => refine (proj1 (bool_decide_eq_true P) _); vm_compute; reflexivity end.

(** Every created backup can be named.  The name a backup is created under, with a
    timestamp chrono reads back, parses to the backup's type, time and format, passes
    the endpoint's check of a restore request, and is routed there as a full restore
    exactly when the backup is a full one. *)
Lemma created_names_are_accepted parse_ts m ty ts time path :
  stamp ts → parse_ts ts = Some time →
  parse_backup_filename parse_ts (created_name m ty ts) path = Some (BackupInfo_ path time ty None (compress (config m))) ∧
  validate_backup_filename (created_name m ty ts) = true ∧
  is_full_name (created_name m ty ts) = bool_decide (ty = Full).
Proof.
  intros Hts Ht. rewrite created_name_parts. pose proof Hts as (Hne & Hlen & _).
  assert (Hno : ∀ c, c ∉ name_head ty → c ∉ name_tail ty (compress (config m)) → is_ascii_digit c || byte_eqb c "_"%byte = false →
    bool_decide (c ∈ name_head ty ++ ts ++ name_tail ty (compress (config m))) = false).
  { intros c H1 H2 Hc. apply bool_decide_eq_false. rewrite !elem_of_app. pose proof (stamp_without c ts Hc Hts). tauto. }
  split_and!.
  - unfold parse_backup_filename. destruct ty; cbn [name_head name_tail].
    + rewrite strip_prefix_app. destruct (compress (config m)).
      * rewrite strip_suffix_app. cbn. by rewrite Ht.
      * rewrite app_nil_r. change (lit ".tar.gz") with (lit ".tar.g" ++ ["z"%byte]).
        rewrite strip_suffix_other by done. cbn. by rewrite Ht.
    + rewrite strip_prefix_app. change (strip_prefix (lit "full_backup_") (lit "dump_" ++ _)) with (@None bytes). cbn [mbind option_bind].
      destruct (compress (config m)).
      * change (lit ".sql" ++ lit ".gz") with (lit ".sql.gz"). rewrite strip_suffix_app. cbn. by rewrite Ht.
      * rewrite app_nil_r. replace (strip_suffix (lit ".sql.gz") (ts ++ lit ".sql")) with (@None bytes)
          by (unfold strip_suffix; by rewrite reverse_app).
        rewrite sql_extension, strip_suffix_app by done. cbn. by rewrite Ht.
  - unfold validate_backup_filename. rewrite !Hno by (first [reflexivity | destruct ty, (compress (config m)); absent]).
    rewrite bool_decide_false by by destruct ty.
    replace (255 <? _) with false by (symmetry; apply Z.ltb_ge; rewrite !length_app; destruct ty, (compress (config m)); cbn; lia).
    rewrite app_assoc, no_dots_before.
    + by destruct ty, (compress (config m)).
    + rewrite elem_of_app. pose proof (stamp_without "."%byte ts eq_refl Hts). assert ("."%byte ∉ name_head ty) by (destruct ty; absent). tauto.
  - by destruct ty.
Qed.
Lemma created_names_are_accepted_witness :
  validate_backup_filename (created_name Once.manager Dump (lit "20250101_000000")) = true.
Proof.
  apply (created_names_are_accepted Once.parse Once.manager Dump (lit "20250101_000000") 0 (Backups [])).
  - split; [done|]. split; [cbn; lia|]. by repeat constructor.
  - reflexivity.
Defined.
