(* ===== verification/MgmtGate.v ===== *)
(** * Who may call the management API ([observability/management_api/mod.rs])

    The token a request carries, its comparison with the configured one, the count of
    failures that throttles guessing, and the route table with what wraps each route.
    The theorems: the comparison against equality, the requests that reach a handler,
    and how many wrong tokens are answered as such in a second. *)

From S2P Require Import Prelude Text.
From S2P Require BackupApi.
From Stdlib Require Import Strings.Byte.

Definition MGMT_API_RATE_LIMIT_RPS : Z := 100.

(** ** The token of a request *)
(** Bytes of equal length, their differences or-ed together. *)
Fixpoint fold_diff (diff : Z) (a b : bytes) : Z :=
  match a, b with x :: a, y :: b => fold_diff (Z.lor diff (Z.lxor (byte_z x) (byte_z y))) a b | _, _ => diff end.
Definition constant_time_eq (a b : bytes) : bool :=
  if negb (length a =? length b)%nat then false else fold_diff 0 a b =? 0.

Definition parse_bearer_token (header_value : bytes) : option bytes :=
  '(scheme, token) ← split_once " "%byte (trim header_value);
  if negb (eq_ignore_ascii_case scheme (lit "bearer")) then None
  else if bool_decide (token = []) then None
  else Some token.
(** [HeaderValue::to_str]: visible ASCII and tabs, or none. *)
Definition to_str (raw : bytes) : option bytes :=
  if forallb (λ c, in_range 32 126 c || byte_eqb c "009"%byte) raw then Some raw else None.
(** The first value of each header. *)
Record Headers := Headers_ { x_pgbattery_token : option bytes; authorization : option bytes }.
Definition request_token (headers : Headers) : option bytes :=
  match (raw ← x_pgbattery_token headers; to_str raw) with
  | Some (c :: value) => Some (c :: value)
  | _ => raw ← authorization headers; value ← to_str raw; parse_bearer_token value
  end.

(** ** The gate *)
Inductive Verdict := Pass | ServiceUnavailable | TooManyRequests | Unauthorized.
#[global] Instance Verdict_eq_dec : EqDecision Verdict.
Proof. solve_decision. Defined.
(** The window's start and how many failures it has seen. *)
Definition Window : Type := Z * Z.
Definition count_failure (now : Z) (w : Window) : Window :=
  let w := if 1000000000 <=? Z.max 0 (now - w.1) then (now, 0) else w in
  (w.1, sat_add_u64 w.2 1).
Definition require_management_token (expected : option bytes) (headers : Headers) (now : Z) (w : Window) : Verdict * Window :=
  match expected with
  | None => (ServiceUnavailable, w)
  | Some expected =>
      if match request_token headers with Some p => constant_time_eq p expected | None => false end then (Pass, w)
      else
        let w := count_failure now w in
        (if MGMT_API_RATE_LIMIT_RPS <? w.2 then TooManyRequests else Unauthorized, w)
  end.

(** ** The routes *)
Inductive Method := Get | Post.
#[global] Instance Method_eq_dec : EqDecision Method.
Proof. solve_decision. Defined.
Record Route := Route_ { method : Method; path : string; gated : bool; timed : bool }.
Definition protected_routes : list Route :=
  (λ r, Route_ r.1 r.2 true true) <$>
  [(Post, "/api/v1/cluster/transfer-leadership/{target_node_id}"); (Post, "/internal/elect-readiness");
   (Post, "/internal/trigger-elect"); (Post, "/api/v1/cluster/join"); (Post, "/api/v1/cluster/report-lsn");
   (Post, "/api/v1/cluster/promote/{node_id}"); (Post, "/api/v1/cluster/remove/{node_id}"); (Get, "/api/v1/backup/list");
   (Get, "/api/v1/postgres/bins"); (Get, "/api/v1/postgres/status"); (Get, "/debug/events"); (Get, "/debug/state")]%string.
Definition backup_routes : list Route :=
  (λ r, Route_ r.1 r.2 true false) <$>
  [(Post, "/api/v1/backup/create"); (Post, "/api/v1/backup/restore"); (Post, "/api/v1/admin/self-upgrade");
   (Post, "/api/v1/cluster/finalize-upgrade"); (Post, "/api/v1/admin/postgres-upgrade/preflight");
   (Post, "/api/v1/admin/postgres-upgrade/blue-green/preflight"); (Post, "/api/v1/admin/cutover/arm");
   (Post, "/api/v1/admin/cutover/seal"); (Post, "/api/v1/admin/cutover/drain-observed");
   (Post, "/api/v1/admin/cutover/transfer"); (Post, "/api/v1/admin/cutover/abort");
   (Post, "/api/v1/admin/cutover/force-transfer"); (Post, "/api/v1/admin/cutover/receive-authority");
   (Post, "/api/v1/admin/cutover/seed"); (Get, "/api/v1/cutover/subscription-progress");
   (Get, "/api/v1/cutover/donor-retention"); (Get, "/api/v1/cutover/schema-digest"); (Get, "/api/v1/cutover/sequence-values");
   (Post, "/api/v1/admin/cutover/advance-sequences"); (Post, "/api/v1/admin/postgres-upgrade/record");
   (Get, "/api/v1/admin/postgres-upgrade/record"); (Post, "/api/v1/admin/postgres/stop");
   (Post, "/api/v1/admin/postgres-upgrade/apply"); (Post, "/api/v1/admin/postgres-upgrade/rejoin");
   (Post, "/api/v1/admin/postgres-upgrade/confirm"); (Post, "/api/v1/admin/postgres-upgrade/rollback")]%string.
Definition public_routes : list Route :=
  (λ p, Route_ Get p false true) <$>
  ["/health"; "/api/v1/version"; "/api/v1/cutover/status"; "/api/v1/cluster/leader"; "/api/v1/cluster/nodes";
   "/api/v1/cluster/identity"; "/api/v1/cluster/join-info"; "/api/v1/cluster/node/{node_id}/lag"; "/api/v1/cluster/members"]%string.
Definition routes : list Route := public_routes ++ protected_routes ++ backup_routes.
Definition find_route (m : Method) (p : string) : option Route :=
  find (λ r, bool_decide (method r = m) && String.eqb (path r) p) routes.
(** A request to a route: past its gate, or answered by it.  No route: [None]. *)
Definition admit_request (expected : option bytes) (m : Method) (p : string) (headers : Headers) (now : Z) (w : Window)
    : option (Verdict * Window) :=
  r ← find_route m p;
  Some (if gated r then require_management_token expected headers now w else (Pass, w)).

Lemma fold_diff_zero diff a b :
  0 ≤ diff → length a = length b → fold_diff diff a b = 0 ↔ diff = 0 ∧ a = b.
Proof.
  revert diff b. induction a as [|x a IH]; intros diff [|y b] Hd Hl; try discriminate Hl; cbn [fold_diff]; [by split; [|intros [? _]]|].
  injection Hl as Hl. rewrite IH, Z.lor_eq_0_iff, Z.lxor_eq_0_iff; [|apply Z.lor_nonneg; split; [done|apply Z.lxor_nonneg]|done].
  - split; [intros [[-> E%byte_z_inj] ->]; by subst|intros [-> [= -> ->]]; done].
  - pose proof (byte_z_bounds x). pose proof (byte_z_bounds y). lia.
Qed.
(** The comparison is equality. *)
Lemma constant_time_eq_spec a b : constant_time_eq a b = bool_decide (a = b).
Proof.
  unfold constant_time_eq. destruct (Nat.eqb_spec (length a) (length b)) as [Hl|Hl]; cbn [negb].
  - destruct (bool_decide_reflect (a = b)) as [E|E].
    + by apply Z.eqb_eq, (fold_diff_zero 0 a b).
    + apply Z.eqb_neq. intros H. apply E, (fold_diff_zero 0 a b); [lia|done|done].
  - symmetry. apply bool_decide_eq_false. by intros ->.
Qed.
Lemma bearer_not_empty v t : parse_bearer_token v = Some t → t ≠ [].
Proof.
  unfold parse_bearer_token. intros ([s k] & _ & H)%bind_Some.
  destruct (negb _); [done|]. by case_bool_decide; [|injection H as ->].
Qed.
Lemma token_not_empty h t : request_token h = Some t → t ≠ [].
Proof.
  unfold request_token. destruct (raw ← _; _) as [[|c v]|]; [|by intros [= <-]|];
    intros (raw & _ & (v' & _ & H)%bind_Some)%bind_Some; by eapply bearer_not_empty.
Qed.

(** The routes that need no token are read-only discovery. *)
Definition public (m : Method) (p : string) : Prop := m = Get ∧ p ∈ path <$> public_routes.
Lemma ungated_public m p r : find_route m p = Some r → gated r = false → public m p.
Proof.
  unfold find_route. intros H Hg. apply List.find_some in H as [Hin H]. apply andb_true_iff in H as [Hm Hp].
  apply bool_decide_eq_true in Hm as <-. apply String.eqb_eq in Hp as <-. unfold routes in Hin.
  rewrite !List.in_app_iff in Hin. destruct Hin as [Hin|[Hin|Hin]].
  - split; [|by apply list_elem_of_fmap_2, list_elem_of_In].
    apply list_elem_of_In, list_elem_of_fmap in Hin as (q & -> & _). done.
  - apply list_elem_of_In, list_elem_of_fmap in Hin as (q & -> & _). done.
  - apply list_elem_of_In, list_elem_of_fmap in Hin as (q & -> & _). done.
Qed.

(** C29. Only the token passes.  A request reaches a handler only on a read-only
    discovery route or with the node's configured token, which is not empty, in
    [x-pgbattery-token] or as a bearer; with the token it always does, whatever
    failures came before; and a request that passes counts no failure. *)
Theorem only_the_token_passes expected m p h now w w' :
  admit_request expected m p h now w = Some (Pass, w') ↔
  w' = w ∧ is_Some (find_route m p) ∧
  (public m p ∧ (∀ r, find_route m p = Some r → gated r = false) ∨
   ∃ t, t ≠ [] ∧ expected = Some t ∧ request_token h = Some t).
Proof.
  unfold admit_request. destruct (find_route m p) as [r|] eqn:Er; cbn; [|split; [done|by intros (_ & [? ?] & _)]].
  destruct (gated r) eqn:Eg.
  - assert (Hno : ∀ P, P ∧ (∀ r', Some r = Some r' → gated r' = false) ↔ False).
    { intros P. split; [|done]. intros [_ H]. specialize (H r eq_refl). congruence. }
    unfold require_management_token. destruct expected as [t|].
    + destruct (request_token h) as [q|] eqn:Eq.
      * rewrite constant_time_eq_spec. destruct (bool_decide_reflect (q = t)) as [->|Hne].
        -- split; [intros [= <-]|by intros (-> & _)]. split_and!; [done|done|]. right. exists t. split_and!; [by eapply token_not_empty|done..].
        -- split; [by destruct (_ <? _)|]. intros (_ & _ & [[_ H]|(t' & _ & [= <-] & [= <-])]); [|done]. specialize (H r eq_refl). congruence.
      * split; [by destruct (_ <? _)|]. intros (_ & _ & [[_ H]|(t' & _ & _ & [=])]). specialize (H r eq_refl). congruence.
    + split; [done|]. intros (_ & _ & [[_ H]|(t' & _ & [=] & _)]). specialize (H r eq_refl). congruence.
  - split; [intros [= <-]|by intros (-> & _)]. split_and!; [done|done|]. left.
    split; [by eapply ungated_public|]. by intros r' [= <-].
Qed.

(** ** How fast a token can be guessed *)
Fixpoint verdicts (expected : option bytes) (l : list (Headers * Z)) (w : Window) : list Verdict :=
  match l with
  | [] => []
  | (h, now) :: l => let r := require_management_token expected h now w in r.1 :: verdicts expected l r.2
  end.
Definition refusals (l : list Verdict) : Z := Z.of_nat (length (filter (λ v, v = Unauthorized) l)).
Lemma refusals_cons v l : refusals (v :: l) = (if bool_decide (v = Unauthorized) then 1 else 0) + refusals l.
Proof. unfold refusals. rewrite filter_cons. case_bool_decide; [rewrite decide_True by done; cbn [length]; lia|by rewrite decide_False]. Qed.
Definition second : Z := 1000000000.
(** What a window still answers for, in the second from [T]. *)
Definition left_in (T : Z) (w : Window) : Z :=
  (if T <=? w.1 then 0 else MGMT_API_RATE_LIMIT_RPS) + Z.max 0 (MGMT_API_RATE_LIMIT_RPS - w.2).

Lemma count_failure_left T now w :
  0 ≤ w.2 → T ≤ now < T + second →
  0 ≤ (count_failure now w).2 ∧
  left_in T (count_failure now w) + (if MGMT_API_RATE_LIMIT_RPS <? (count_failure now w).2 then 0 else 1) ≤ left_in T w.
Proof.
  destruct w as [start n]. intros Hn Hnow. cbn [snd] in Hn. assert (100 < u64_max) by done.
  assert (Hs : 0 ≤ sat_add_u64 n 1 ∧ (n < 100 → sat_add_u64 n 1 = n + 1) ∧ (100 ≤ n → 100 < sat_add_u64 n 1)) by (unfold sat_add; lia).
  assert (H1 : sat_add_u64 0 1 = 1) by done.
  unfold count_failure, left_in, second, MGMT_API_RATE_LIMIT_RPS in *. cbn [fst snd].
  destruct (Z.leb_spec 1000000000 (Z.max 0 (now - start))); cbn [fst snd]; [rewrite H1|generalize dependent (sat_add_u64 n 1); intros k Hk].
  - destruct (Z.leb_spec T now), (Z.leb_spec T start), (Z.ltb_spec 100 1); lia.
  - destruct (Z.leb_spec T start), (Z.ltb_spec 100 k); lia.
Qed.

(** Guessing is bounded.  However many requests without the token arrive within a
    second, and whatever came before them, at most twice the limit are answered as a
    wrong token; the rest are told to slow down. *)
Lemma guesses_per_second_are_bounded expected T l w :
  0 ≤ w.2 → Forall (λ r, T ≤ r.2 < T + second) l →
  refusals (verdicts expected l w) ≤ 2 * MGMT_API_RATE_LIMIT_RPS.
Proof.
  intros Hw F. assert (H : refusals (verdicts expected l w) ≤ left_in T w).
  { revert w Hw. induction l as [|[h now] l IH]; intros w Hw.
    - unfold refusals, left_in, MGMT_API_RATE_LIMIT_RPS. destruct (T <=? w.1); cbn [verdicts filter list_filter length]; lia.
    - apply Forall_cons in F as [Hn F]. cbn in Hn. specialize (IH F). cbn [verdicts]. unfold require_management_token.
      destruct expected as [t|]; [|by apply IH]. destruct (match request_token h with Some p => _ | None => _ end); [by apply IH|].
      assert (Hc : 0 ≤ (count_failure now w).2 ∧
        left_in T (count_failure now w) + (if MGMT_API_RATE_LIMIT_RPS <? (count_failure now w).2 then 0 else 1) ≤ left_in T w).
      { by apply count_failure_left. }
      destruct Hc as [Hc1 Hc2]. specialize (IH _ Hc1). cbn [fst snd]. rewrite refusals_cons.
      destruct (MGMT_API_RATE_LIMIT_RPS <? _); [rewrite bool_decide_false by done|rewrite bool_decide_true by done]; lia. }
  etransitivity; [exact H|]. unfold left_in, MGMT_API_RATE_LIMIT_RPS. destruct (T <=? w.1); lia.
Qed.
Lemma guesses_per_second_are_bounded_witness :
  refusals (verdicts (Some (lit "s3cret")) (replicate 150 (Headers_ (Some (lit "guess")) None, 5)) (0, 0)) ≤ 200.
Proof.
  apply (guesses_per_second_are_bounded (Some (lit "s3cret")) 0 (replicate 150 (Headers_ (Some (lit "guess")) None, 5)) (0, 0)).
  - done.
  - apply Forall_replicate. unfold second. cbn. lia.
Defined.
