(* ===== verification/Config.v ===== *)
(** * A node's configuration ([config/types.rs], [config/constants.rs])

    The loaded settings, their validation in the order of the checks, and what is
    derived from them.  Paths are their bytes; [is_file] is what the file system
    answers while the configuration is checked. *)

From S2P Require Import Prelude Text Net PgFiles.
From S2P Require Backup Governor Handoff Members.
From Stdlib Require Import Strings.Byte.

Definition DEFAULT_MGMT_PORT : Z := 9091.
Definition DEFAULT_METRICS_PORT : Z := 9090.
Definition REPLICA_CHECK_INTERVAL_MS : Z := 1000.
Definition u16_max : Z := 65535.

Inductive SslModeConfig := Disable | Terminate | Passthrough.
Record PeerConfig := PeerConfig_ {
  peer_id : Z;
  peer_raft_addr : SocketAddr;
  peer_pg_addr : SocketAddr;
  peer_mgmt_addr : option SocketAddr;
  peer_metrics_addr : option SocketAddr;
}.
Record Config := Config_ {
  node_id : Z;
  listen_addr : SocketAddr;
  raft_addr : SocketAddr;
  advertise_raft_addr : option SocketAddr;
  metrics_addr : SocketAddr;
  mgmt_addr : option SocketAddr;
  advertise_mgmt_addr : option SocketAddr;
  management_api_token : option bytes;
  peers : list PeerConfig;
  cluster_id : bytes;
  awaits_write_authority_from : option bytes;
  client_fence_roles : list bytes;
  pg_bin_dir : bytes;
  pg_bin_dirs : list (bytes * bytes);       (* in the order of the keys *)
  pg_data_dir : bytes;
  raft_data_dir : bytes;
  pg_internal_port : Z;
  advertise_pg_addr : option SocketAddr;
  pg_user : bytes;
  pg_auth_mode : PgAuthMode;
  ssl_mode : SslModeConfig;
  ssl_cert_path : option bytes;
  ssl_key_path : option bytes;
  raft_tls_enabled : bool;
  raft_tls_cert_path : option bytes;
  raft_tls_key_path : option bytes;
  raft_tls_ca_path : option bytes;
  election_timeout_ms : Z;
  heartbeat_interval_ms : Z;
  connection_timeout_ms : Z;
  idle_timeout_ms : Z;
  upgrade_hold_timeout_ms : Z;
  max_connections : Z;
  replica_disconnect_timeout_ms : Z;
  wal_level : WalLevel;
  wal_archive_dir : option bytes;           (* [backup.wal_archive_dir] *)
}.

(** One per check, with what it names. *)
Inductive ConfigError :=
| NodeIdUnset
| ZeroTimeout (i : nat) | AbsurdTimeout (i : nat)
| DisconnectBelowCheck | HeartbeatTooSlow | HeartbeatPastWatchdog | ElectionWithinLameDuck | NoConnections
| MgmtPortOverflow | ZeroPort (i : nat) | BindsCollide (a b : nat) | TokenRequired
| PeerZero | DuplicatePeer (id : Z) | PeerIsSelf (id : Z)
| PgBinDirRequired | ClusterIdEmpty | ClusterIdMalformed | AwaitsItself | FenceRolesRequired
| BadFenceRole (role : bytes)
| BadMajor (key : bytes) | EmptyBinDir (key : bytes)
| PgDataDirRequired | AuthPeer | AuthUnprovisioned
| RaftTlsPathMissing (i : nat) | RaftTlsNotAFile (i : nat)
| SslPathMissing (i : nat) | SslNotAFile (i : nat).
Abbreviation Check := (result ConfigError ()).
Definition bail_if (b : bool) (e : ConfigError) : Check := if b then Err e else Ok tt.
(** The checks of a [for] loop over an indexed list. *)
Fixpoint for_each {A} (i : nat) (l : list A) (f : nat → A → Check) : Check :=
  match l with [] => Ok tt | a :: l => let! _ := f i a in for_each (S i) l f end.

(** ** Derived addresses *)
Definition is_loopback (ip : IpAddr) : bool := match ip with V4 a => a / 2 ^ 24 =? 127 | V6 a => a =? 1 end.
Definition next_port (a : SocketAddr) : option Z :=
  if u16_max <? sock_port a + 1 then None else Some (sock_port a + 1).
Definition at_port (ip : IpAddr) (port : Z) : SocketAddr := SocketAddr_ ip 0 port.

Definition PeerConfig_get_mgmt_addr (p : PeerConfig) : SocketAddr :=
  default (at_port (sock_ip (peer_raft_addr p)) DEFAULT_MGMT_PORT) (peer_mgmt_addr p).
Definition PeerConfig_get_metrics_addr (p : PeerConfig) : SocketAddr :=
  default (at_port (sock_ip (peer_raft_addr p)) DEFAULT_METRICS_PORT) (peer_metrics_addr p).

Section Derived.
Context (c : Config).
Definition get_mgmt_addr : SocketAddr :=
  match mgmt_addr c with
  | Some a => a
  | None => at_port (sock_ip (metrics_addr c)) (default (sock_port (metrics_addr c)) (next_port (metrics_addr c)))
  end.
Definition get_advertise_raft_addr : SocketAddr := default (raft_addr c) (advertise_raft_addr c).
Definition get_advertise_mgmt_addr : SocketAddr := default get_mgmt_addr (advertise_mgmt_addr c).
Definition get_advertise_pg_addr : SocketAddr :=
  default (at_port (sock_ip get_advertise_raft_addr) (pg_internal_port c)) (advertise_pg_addr c).
Definition get_advertise_metrics_addr : SocketAddr :=
  at_port (sock_ip get_advertise_raft_addr) (sock_port (metrics_addr c)).
(** [parent] and [join] are [Path]'s. *)
Definition get_raft_data_dir (parent : bytes → option bytes) (join : bytes → bytes → bytes) : bytes :=
  if negb (bool_decide (raft_data_dir c = [])) then raft_data_dir c
  else match parent (pg_data_dir c) with Some p => join p (lit "raft") | None => lit "/var/lib/pgbattery/raft" end.

Definition pg_bin_dir_for_major (major : Z) : option bytes :=
  snd <$> find (λ e, bool_decide (e.1 = show_u64 major)) (pg_bin_dirs c).
Definition supervisor_config : SupervisorConfig :=
  SupervisorConfig_ (pg_internal_port c) (pg_user c) (wal_level c) (node_id c) (pg_auth_mode c) (wal_archive_dir c).
End Derived.

(** ** Validation *)
Definition ONE_HOUR_MS : Z := 60 * 60 * 1000.
Definition timeouts (c : Config) : list Z :=
  [election_timeout_ms c; heartbeat_interval_ms c; connection_timeout_ms c; idle_timeout_ms c; upgrade_hold_timeout_ms c;
   replica_disconnect_timeout_ms c].
Definition validate_timeouts (c : Config) : Check :=
  let! _ := for_each 0 (timeouts c) (λ i v,
    let! _ := bail_if (v =? 0) (ZeroTimeout i) in bail_if (ONE_HOUR_MS <? v) (AbsurdTimeout i)) in
  let! _ := bail_if (replica_disconnect_timeout_ms c <? REPLICA_CHECK_INTERVAL_MS) DisconnectBelowCheck in
  let! _ := bail_if (election_timeout_ms c <=? Z.min u64_max (heartbeat_interval_ms c * 2)) HeartbeatTooSlow in
  let! _ := bail_if (Governor.METRICS_WATCHDOG_TIMEOUT_MS / 2 <=? heartbeat_interval_ms c) HeartbeatPastWatchdog in
  let! _ := bail_if (election_timeout_ms c <=? Members.lame_duck_budget_after_drain_ms) ElectionWithinLameDuck in
  bail_if (max_connections c =? 0) NoConnections.

(** An IPv6 address may be unspecified too. *)
Definition binds (c : Config) (mgmt_ip : IpAddr) (mgmt_port : Z) : list (IpAddr * Z) :=
  [(sock_ip (listen_addr c), sock_port (listen_addr c)); (sock_ip (raft_addr c), sock_port (raft_addr c));
   (sock_ip (metrics_addr c), sock_port (metrics_addr c)); (mgmt_ip, mgmt_port); (V4 0, pg_internal_port c)].
Definition collide (a b : IpAddr * Z) : bool :=
  (a.2 =? b.2) && (bool_decide (a.1 = b.1) || Members.is_unspecified a.1 || Members.is_unspecified b.1).
Definition validate_network_binds (c : Config) : Check :=
  let! derived_mgmt_port :=
    match mgmt_addr c with Some a => Ok (sock_port a) | None => ok_or (next_port (metrics_addr c)) MgmtPortOverflow end in
  let mgmt_ip := sock_ip (default (metrics_addr c) (mgmt_addr c)) in
  let binds := binds c mgmt_ip derived_mgmt_port in
  let! _ := for_each 0 binds (λ i b, bail_if (b.2 =? 0) (ZeroPort i)) in
  let! _ := for_each 0 binds (λ i a, for_each 0 (take i binds) (λ j b, bail_if (collide a b) (BindsCollide i j))) in
  bail_if (negb (is_loopback mgmt_ip) && bool_decide (management_api_token c = None)) TokenRequired.

Fixpoint validate_peers_from (self : Z) (seen : gset Z) (peers : list PeerConfig) : Check :=
  match peers with
  | [] => Ok tt
  | p :: peers =>
      let! _ := bail_if (peer_id p =? 0) PeerZero in
      let! _ := bail_if (bool_decide (peer_id p ∈ seen)) (DuplicatePeer (peer_id p)) in
      let! _ := bail_if (peer_id p =? self) (PeerIsSelf (peer_id p)) in
      validate_peers_from self ({[peer_id p]} ∪ seen) peers
  end.
Definition validate_peers (c : Config) : Check := validate_peers_from (node_id c) ∅ (peers c).

Definition id_char (b : byte) : bool := is_ascii_alphanumeric b || byte_eqb b "_"%byte || byte_eqb b "-"%byte.
Definition validate_cluster_identity (c : Config) : Check :=
  let! _ := bail_if (bool_decide (trim (cluster_id c) = [])) ClusterIdEmpty in
  let! _ := bail_if (negb (forallb id_char (cluster_id c))) ClusterIdMalformed in
  match awaits_write_authority_from c with
  | None => Ok tt
  | Some donor =>
      let! _ := bail_if (bool_decide (donor = cluster_id c)) AwaitsItself in
      bail_if (bool_decide (client_fence_roles c = [])) FenceRolesRequired
  end.
Definition validate_fence_role_names (c : Config) : Check :=
  for_each 0 (client_fence_roles c) (λ _ role, bail_if (negb (Handoff.is_valid_pg_role_name role)) (BadFenceRole role)).

Section Files.
Context (is_file : bytes → bool).
Definition check_files (l : list (option bytes)) (missing not_a_file : nat → ConfigError) : Check :=
  for_each 0 l (λ i p, match p with None => Err (missing i) | Some p => bail_if (negb (is_file p)) (not_a_file i) end).
Definition validate_storage_and_tls (c : Config) : Check :=
  let! _ := bail_if (bool_decide (pg_bin_dir c = [])) PgBinDirRequired in
  let! _ := validate_cluster_identity c in
  let! _ := validate_fence_role_names c in
  let! _ := for_each 0 (pg_bin_dirs c) (λ _ e,
    let! _ := bail_if (bool_decide (parse_u32 e.1 = None)) (BadMajor e.1) in
    bail_if (bool_decide (e.2 = [])) (EmptyBinDir e.1)) in
  let! _ := bail_if (bool_decide (pg_data_dir c = [])) PgDataDirRequired in
  let! _ := match pg_auth_mode c with Peer => Err AuthPeer | Scram | Md5 => Err AuthUnprovisioned | Trust => Ok tt end in
  let! _ := if raft_tls_enabled c then
              check_files [raft_tls_cert_path c; raft_tls_key_path c; raft_tls_ca_path c] RaftTlsPathMissing RaftTlsNotAFile
            else Ok tt in
  match ssl_mode c with
  | Terminate => check_files [ssl_cert_path c; ssl_key_path c] SslPathMissing SslNotAFile
  | _ => Ok tt
  end.
Definition validate (c : Config) : Check :=
  let! _ := validate_timeouts c in
  let! _ := validate_network_binds c in
  let! _ := validate_peers c in
  validate_storage_and_tls c.
End Files.
Definition validate_node_id_for_run (c : Config) : Check := bail_if (node_id c =? 0) NodeIdUnset.

(** [load] and [load_from]: what the file extracts to, with the environment's token
    over it when it is set and not empty. *)
Definition with_token (c : Config) (t : bytes) : Config :=
  Config_ (node_id c) (listen_addr c) (raft_addr c) (advertise_raft_addr c) (metrics_addr c) (mgmt_addr c)
    (advertise_mgmt_addr c) (Some t) (peers c) (cluster_id c) (awaits_write_authority_from c) (client_fence_roles c)
    (pg_bin_dir c) (pg_bin_dirs c) (pg_data_dir c) (raft_data_dir c) (pg_internal_port c) (advertise_pg_addr c) (pg_user c)
    (pg_auth_mode c) (ssl_mode c) (ssl_cert_path c) (ssl_key_path c) (raft_tls_enabled c) (raft_tls_cert_path c)
    (raft_tls_key_path c) (raft_tls_ca_path c) (election_timeout_ms c) (heartbeat_interval_ms c) (connection_timeout_ms c)
    (idle_timeout_ms c) (upgrade_hold_timeout_ms c) (max_connections c) (replica_disconnect_timeout_ms c) (wal_level c)
    (wal_archive_dir c).
Definition load_from (is_file : bytes → bool) (extracted : option Config) (env_token : option bytes) : option Config :=
  c ← extracted;
  let c := match env_token with Some t => if bool_decide (t = []) then c else with_token c t | None => c end in
  match validate is_file c with Ok _ => Some c | Err _ => None end.
