(* ===== verification/ConfigProofs.v ===== *)
(** * What an accepted configuration guarantees

    Validation against its declarative reading, and what the other parts of the node
    rest on: the timing of heartbeats, the watchdog, elections and transfers, the
    fence's role list, and the addresses services bind. *)

From S2P Require Import Prelude Text Net PgFiles Config.
From S2P Require Governor Handoff Lease Members MgmtGate.
From Stdlib Require Import Strings.Byte.

(** ** Sequences of checks *)
Create HintDb config.
Lemma ok_unit {E} (r : result E ()) : (∃ u, r = Ok u) ↔ r = Ok tt.
Proof. split; [by intros [[] ->]|eauto]. Qed.
Lemma check_then {A} (a : result ConfigError A) (f : A → Check) :
  result_bind f a = Ok tt ↔ ∃ x, a = Ok x ∧ f x = Ok tt.
Proof. destruct a as [x|e]; cbn; [|split; [done|by intros (x & ? & _)]]. split; [eauto|by intros (y & [= ->] & ?)]. Qed.
Lemma check_and (a : Check) (f : () → Check) : result_bind f a = Ok tt ↔ a = Ok tt ∧ f tt = Ok tt.
Proof. rewrite check_then. split; [by intros ([] & ? & ?)|intros [? ?]; by exists tt]. Qed.
Lemma bail_ok b e : bail_if b e = Ok tt ↔ b = false.
Proof. by destruct b. Qed.
Lemma for_each_ok {A} i (l : list A) f :
  for_each i l f = Ok tt ↔ ∀ j a, l !! j = Some a → f (i + j)%nat a = Ok tt.
Proof.
  revert i. induction l as [|a l IH]; intros i; cbn [for_each].
  - split; [by intros _ j a|done].
  - rewrite check_and, IH. split.
    + intros [H1 H2] [|j] b; cbn; [intros [= <-]; by rewrite Nat.add_0_r|]. intros Hj. rewrite Nat.add_succ_r. by apply H2.
    + intros H. split; [by rewrite <-(Nat.add_0_r i); apply H|]. intros j b Hj.
      replace (S i + j)%nat with (i + S j)%nat by lia. by apply H.
Qed.
Lemma for_all_ok {A} i (l : list A) (f : nat → A → Check) (P : A → Prop) :
  (∀ i a, f i a = Ok tt ↔ P a) → for_each i l f = Ok tt ↔ Forall P l.
Proof. intros Hf. rewrite for_each_ok, Forall_lookup. split; intros H j a Ha; [by eapply Hf, H|by apply Hf, (H j)]. Qed.

(** ** The declarative reading *)
(** The addresses the node binds; PostgreSQL binds every interface. *)
Definition services (c : Config) : list (IpAddr * Z) :=
  binds c (sock_ip (get_mgmt_addr c)) (sock_port (get_mgmt_addr c)).
Definition overlap (a b : IpAddr * Z) : Prop :=
  a.2 = b.2 ∧ (a.1 = b.1 ∨ Members.is_unspecified a.1 = true ∨ Members.is_unspecified b.1 = true).
Definition distinct_services (l : list (IpAddr * Z)) : Prop :=
  ∀ i j a b, l !! i = Some a → l !! j = Some b → i ≠ j → ¬ overlap a b.
Definition on_disk (is_file : bytes → bool) (p : option bytes) : Prop := ∃ f, p = Some f ∧ is_file f = true.

Record timed (c : Config) : Prop := {
  timeouts_sane : Forall (λ v, v ≠ 0 ∧ v ≤ ONE_HOUR_MS) (timeouts c);
  disconnects_probed : REPLICA_CHECK_INTERVAL_MS ≤ replica_disconnect_timeout_ms c;
  two_heartbeats : heartbeat_interval_ms c * 2 < election_timeout_ms c;
  heartbeats_watched : heartbeat_interval_ms c < Governor.METRICS_WATCHDOG_TIMEOUT_MS / 2;
  transfers_fit : Members.lame_duck_budget_after_drain_ms < election_timeout_ms c;
  connections : max_connections c ≠ 0;
}.
Record bound (c : Config) : Prop := {
  mgmt_port : mgmt_addr c = None → sock_port (metrics_addr c) < u16_max;
  ports : Forall (λ b, b.2 ≠ 0) (services c);
  services_distinct : distinct_services (services c);
  token_set : is_loopback (sock_ip (get_mgmt_addr c)) = true ∨ management_api_token c ≠ None;
}.
Record peered (c : Config) : Prop := {
  peers_distinct : NoDup (peer_id <$> peers c);
  peers_named : Forall (λ p, peer_id p ≠ 0 ∧ peer_id p ≠ node_id c) (peers c);
}.
Record stored (is_file : bytes → bool) (c : Config) : Prop := {
  bin_dir : pg_bin_dir c ≠ [];
  named : cluster_id c ≠ [] ∧ Forall (λ b, id_char b = true) (cluster_id c);
  recipient : ∀ donor, awaits_write_authority_from c = Some donor → donor ≠ cluster_id c ∧ client_fence_roles c ≠ [];
  roles : Forall (λ r, Handoff.is_valid_pg_role_name r = true) (client_fence_roles c);
  majors : Forall (λ e, is_Some (parse_u32 e.1) ∧ e.2 ≠ []) (pg_bin_dirs c);
  data_dir : pg_data_dir c ≠ [];
  auth : pg_auth_mode c = Trust;
  raft_tls : raft_tls_enabled c = true →
    Forall (on_disk is_file) [raft_tls_cert_path c; raft_tls_key_path c; raft_tls_ca_path c];
  ssl : ssl_mode c = Terminate → Forall (on_disk is_file) [ssl_cert_path c; ssl_key_path c];
}.
Definition accepted (is_file : bytes → bool) (c : Config) : Prop := timed c ∧ bound c ∧ peered c ∧ stored is_file c.

Lemma timed_ok c : validate_timeouts c = Ok tt ↔ timed c.
Proof.
  unfold validate_timeouts. rewrite !check_and, !bail_ok.
  rewrite (for_all_ok 0 (timeouts c) _ (λ v, v ≠ 0 ∧ v ≤ ONE_HOUR_MS))
    by (intros i v; rewrite check_and, !bail_ok, Z.eqb_neq, Z.ltb_ge; done).
  rewrite !Z.leb_gt, Z.ltb_ge, Z.eqb_neq.
  assert (Hm : Forall (λ v, v ≠ 0 ∧ v ≤ ONE_HOUR_MS) (timeouts c) →
    (Z.min u64_max (heartbeat_interval_ms c * 2) < election_timeout_ms c ↔ heartbeat_interval_ms c * 2 < election_timeout_ms c)).
  { intros F. unfold timeouts in F. decompose_Forall_hyps. unfold ONE_HOUR_MS, u64_max in *. lia. }
  split; [intros (H1 & H2 & H3 & H4 & H5 & H6); apply Hm in H3; [by constructor|done]|].
  intros []. split_and!; try done. by apply Hm.
Qed.
Lemma collide_overlap a b : collide a b = true ↔ overlap a b.
Proof. unfold collide, overlap. rewrite andb_true_iff, !orb_true_iff, Z.eqb_eq, bool_decide_eq_true. tauto. Qed.
Lemma overlap_sym a b : overlap a b → overlap b a.
Proof. intros [E H]. split; [done|]. destruct H as [H|[?|?]]; auto. Qed.
Lemma distinct_ok l :
  for_each 0 l (λ i a, for_each 0 (take i l) (λ j b, bail_if (collide a b) (BindsCollide i j))) = Ok tt ↔ distinct_services l.
Proof.
  rewrite for_each_ok. split.
  - intros H i j a b Hi Hj Hne Ho. destruct (decide (j < i)%nat) as [Hlt|Hge].
    + specialize (H i a Hi). rewrite for_each_ok in H. specialize (H j b). rewrite lookup_take_lt, bail_ok in H by done.
      specialize (H Hj). apply collide_overlap in Ho. congruence.
    + specialize (H j b Hj). rewrite for_each_ok in H. specialize (H i a). rewrite lookup_take_lt, bail_ok in H by lia.
      specialize (H Hi). apply overlap_sym, collide_overlap in Ho. congruence.
  - intros H i a Hi. rewrite for_each_ok. intros j b [Hj Hlt]%lookup_take_Some. apply bail_ok.
    destruct (collide a b) eqn:E; [|done]. apply collide_overlap in E. by destruct (H i j a b Hi Hj); [lia|].
Qed.
Lemma next_port_ok a p : next_port a = Some p ↔ sock_port a < u16_max ∧ p = sock_port a + 1.
Proof. unfold next_port. destruct (Z.ltb_spec u16_max (sock_port a + 1)); split; [done|lia|intros [= <-]; lia|intros [_ ->]; done]. Qed.
Lemma bound_ok c : validate_network_binds c = Ok tt ↔ bound c.
Proof.
  unfold validate_network_binds.
  assert (Hrest : ∀ ip port, let l := binds c ip port in
    (let! _ := for_each 0 l (λ i b, bail_if (b.2 =? 0) (ZeroPort i)) in
     let! _ := for_each 0 l (λ i a, for_each 0 (take i l) (λ j b, bail_if (collide a b) (BindsCollide i j))) in
     bail_if (negb (is_loopback ip) && bool_decide (management_api_token c = None)) TokenRequired) = Ok tt ↔
    Forall (λ b, b.2 ≠ 0) l ∧ distinct_services l ∧ (is_loopback ip = true ∨ management_api_token c ≠ None)).
  { intros ip port l. rewrite !check_and, distinct_ok, bail_ok, (for_all_ok 0 l _ (λ b, b.2 ≠ 0))
      by (intros i b; by rewrite bail_ok, Z.eqb_neq).
    rewrite andb_false_iff, negb_false_iff, bool_decide_eq_false. done. }
  rewrite check_then. unfold services, get_mgmt_addr in *. split.
  - intros (port & Hp & H). apply Hrest in H as (H1 & H2 & H3).
    destruct (mgmt_addr c) as [a|] eqn:Em; cbn in Hp, H1, H2, H3.
    + injection Hp as <-. constructor; unfold services, get_mgmt_addr; rewrite Em; done.
    + destruct (next_port (metrics_addr c)) as [q|] eqn:Eq; [|done]. injection Hp as ->.
      constructor; unfold services, get_mgmt_addr; rewrite ?Em, ?Eq; try done. intros _. by apply next_port_ok in Eq as [? _].
  - intros [H0 H1 H2 H3]. unfold services, get_mgmt_addr in *. destruct (mgmt_addr c) as [a|] eqn:Em.
    + exists (sock_port a). split; [done|]. by apply Hrest.
    + exists (sock_port (metrics_addr c) + 1). rewrite (proj2 (next_port_ok _ _) (conj (H0 eq_refl) eq_refl)) in *.
      split; [done|]. by apply Hrest.
Qed.
Lemma peers_from_ok self seen l :
  validate_peers_from self seen l = Ok tt ↔
  NoDup (peer_id <$> l) ∧ Forall (λ p, peer_id p ≠ 0 ∧ peer_id p ≠ self) l ∧ ∀ p, p ∈ l → peer_id p ∉ seen.
Proof.
  revert seen. induction l as [|p l IH]; intros seen; cbn [validate_peers_from fmap list_fmap].
  - split; [|done]. intros _. split_and!; [constructor|constructor|by intros p ?%elem_of_nil].
  - rewrite !check_and, !bail_ok, IH, !Z.eqb_neq, bool_decide_eq_false, NoDup_cons, Forall_cons. split.
    + intros (H1 & H2 & H3 & H4 & H5 & H6). split_and!; try done.
      * intros (q & E & Hq)%list_elem_of_fmap. apply (H6 q Hq). rewrite E. set_solver.
      * intros q [->|Hq]%elem_of_cons; [done|]. specialize (H6 q Hq). set_solver.
    + intros ([H1 H2] & [[H3 H4] H5] & H6). split_and!; try done.
      * apply H6. by left.
      * intros q Hq. rewrite not_elem_of_union, not_elem_of_singleton. split; [|apply H6; by right].
        intros E. apply H1. rewrite <-E. by apply list_elem_of_fmap_2.
Qed.
Lemma peered_ok c : validate_peers c = Ok tt ↔ peered c.
Proof. unfold validate_peers. rewrite peers_from_ok. split; [intros (? & ? & _); by constructor|intros []; split_and!; set_solver]. Qed.

Lemma id_visible b : id_char b = true → visible b = true.
Proof.
  unfold id_char. rewrite !orb_true_iff. intros [[H|H]|H]; [by apply alphanumeric_visible|by apply bool_decide_eq_true in H as ->..].
Qed.
Lemma identity_ok c :
  validate_cluster_identity c = Ok tt ↔
  (cluster_id c ≠ [] ∧ Forall (λ b, id_char b = true) (cluster_id c)) ∧
  ∀ donor, awaits_write_authority_from c = Some donor → donor ≠ cluster_id c ∧ client_fence_roles c ≠ [].
Proof.
  unfold validate_cluster_identity. rewrite !check_and, !bail_ok, bool_decide_eq_false, negb_false_iff.
  assert (Hid : trim (cluster_id c) ≠ [] ∧ forallb id_char (cluster_id c) = true ↔
                cluster_id c ≠ [] ∧ Forall (λ b, id_char b = true) (cluster_id c)).
  { rewrite forallb_forall, <-List.Forall_forall. destruct (cluster_id c) as [|b l]; [by split; intros [? _]|]. split; intros [_ F]; (split; [|done]); [done|].
    rewrite trim_visible; [done|]. eapply Forall_impl; [exact F|]. apply id_visible. }
  assert (Hrest : match awaits_write_authority_from c with
     | None => Ok tt
     | Some donor => let! _ := bail_if (bool_decide (donor = cluster_id c)) AwaitsItself in
                     bail_if (bool_decide (client_fence_roles c = [])) FenceRolesRequired
     end = Ok tt ↔ ∀ donor, awaits_write_authority_from c = Some donor → donor ≠ cluster_id c ∧ client_fence_roles c ≠ []).
  { destruct (awaits_write_authority_from c) as [d|]; [|split; [by intros _ ?|done]]. rewrite check_and, !bail_ok, !bool_decide_eq_false.
    split; [intros H donor [= <-]; done|intros H; by apply H]. }
  rewrite Hrest. tauto.
Qed.
Lemma files_ok is_file l missing not_a_file :
  check_files is_file l missing not_a_file = Ok tt ↔ Forall (on_disk is_file) l.
Proof.
  apply for_all_ok. intros i [p|]; [|split; [done|by intros (f & ? & _)]]. rewrite bail_ok, negb_false_iff.
  split; [by exists p|by intros (f & [= ->] & ?)].
Qed.
Lemma stored_ok is_file c : validate_storage_and_tls is_file c = Ok tt ↔ stored is_file c.
Proof.
  unfold validate_storage_and_tls, validate_fence_role_names.
  rewrite !check_and, !bail_ok, !bool_decide_eq_false, identity_ok.
  rewrite (for_all_ok 0 (client_fence_roles c) _ (λ r, Handoff.is_valid_pg_role_name r = true))
    by (intros i r; by rewrite bail_ok, negb_false_iff).
  rewrite (for_all_ok 0 (pg_bin_dirs c) _ (λ e, is_Some (parse_u32 e.1) ∧ e.2 ≠ []))
    by (intros i e; by rewrite check_and, !bail_ok, !bool_decide_eq_false, <-not_eq_None_Some).
  assert (Ha : (match pg_auth_mode c with Peer => Err AuthPeer | Scram | Md5 => Err AuthUnprovisioned | Trust => Ok tt end : Check)
               = Ok tt ↔ pg_auth_mode c = Trust) by by destruct (pg_auth_mode c).
  rewrite Ha. clear Ha.
  assert (Ht : ∀ l, (if raft_tls_enabled c then check_files is_file l RaftTlsPathMissing RaftTlsNotAFile else Ok tt) = Ok tt ↔
    (raft_tls_enabled c = true → Forall (on_disk is_file) l)).
  { intros l. destruct (raft_tls_enabled c); [rewrite files_ok; tauto|by split]. }
  rewrite Ht. clear Ht.
  assert (Hs : ∀ l, (match ssl_mode c with Terminate => check_files is_file l SslPathMissing SslNotAFile | _ => Ok tt end) = Ok tt ↔
    (ssl_mode c = Terminate → Forall (on_disk is_file) l)).
  { intros l. destruct (ssl_mode c); [by split|rewrite files_ok; tauto|by split]. }
  rewrite Hs. clear Hs. split; [intros; destruct_and!; by constructor|intros []; split_and!; done || tauto].
Qed.

(** Validation accepts exactly the sane configurations.  It answers success if and
    only if every timeout is set, within an hour and in the order the protocol needs,
    the addresses the node will bind are distinct ports or interfaces with a token on
    any management API that leaves the host, the peers are named once each and not by
    this node's own id, and the storage, identity, fence roles and TLS files are
    there. *)
Lemma validation_accepts_exactly_the_sane is_file c : validate is_file c = Ok tt ↔ accepted is_file c.
Proof. unfold validate, accepted. by rewrite !check_and, timed_ok, bound_ok, peered_ok, stored_ok. Qed.

(** ** What the other parts rest on *)
Lemma roles_fence c : Forall (λ r, Handoff.is_valid_pg_role_name r = true) (client_fence_roles c) →
  Handoff.quoted_role_list (client_fence_roles c) = Ok tt.
Proof. induction 1 as [|r l Hr _ IH]; [done|]. cbn. by rewrite Hr. Qed.
(** One more rank waits one more stagger, while the counts fit. *)
Lemma threshold_step rank e :
  0 ≤ rank < 2 ^ 28 → 0 ≤ e ≤ ONE_HOUR_MS →
  Governor.leaderless_threshold (rank + 1) e =
    Governor.leaderless_threshold rank e + Governor.LEADERLESS_RECOVERY_STAGGER_TIMEOUTS * e * Lease.ms.
Proof.
  intros Hr He. unfold Governor.leaderless_threshold, Governor.sat_mul, sat_add, u32_max, u64_max, ONE_HOUR_MS,
    Governor.LEADERLESS_RECOVERY_STAGGER_TIMEOUTS, Governor.LEADERLESS_RECOVERY_BASE_TIMEOUTS in *.
  change (2 ^ 28) with 268435456 in Hr. change (2 ^ 32 - 1) with 4294967295. change (2 ^ 64 - 1) with 18446744073709551615.
  rewrite !(Z.min_r 4294967295) by lia. rewrite !Z.min_r by nia. lia.
Qed.

(** C32. A loaded configuration meets what the node's parts assume. The environment's
    token wins; two heartbeats fit in an election timeout and in the metrics watchdog,
    which fires within a lease; what a transfer stays silent after its drain is less
    than an election timeout; successive voters' forced elections are a full stagger
    apart, without overflow; the client fence's role list is never refused; the local
    server is configured without a credential; the management gate never answers that
    it has no token when its address is not loopback (on loopback a configuration
    without one loads, and the gate then refuses); and no two services the node binds
    overlap. *)
Theorem a_loaded_configuration_meets_its_parts is_file extracted env c :
  load_from is_file extracted env = Some c →
  (∀ t, env = Some t → t ≠ [] → management_api_token c = Some t) ∧
  2 * heartbeat_interval_ms c < election_timeout_ms c ∧
  2 * heartbeat_interval_ms c < Governor.METRICS_WATCHDOG_TIMEOUT_MS ∧
  Governor.METRICS_WATCHDOG_TIMEOUT_MS * Lease.ms < Lease.DEFAULT_LEASE_DURATION ∧
  Members.lame_duck_budget_after_drain_ms < election_timeout_ms c ∧
  (∀ rank, 0 ≤ rank < 2 ^ 28 →
     Governor.leaderless_threshold (rank + 1) (election_timeout_ms c) =
     Governor.leaderless_threshold rank (election_timeout_ms c)
       + Governor.LEADERLESS_RECOVERY_STAGGER_TIMEOUTS * election_timeout_ms c * Lease.ms) ∧
  Handoff.quoted_role_list (client_fence_roles c) = Ok tt ∧
  PgFiles.pg_auth_mode (supervisor_config c) = Trust ∧
  (is_loopback (sock_ip (get_mgmt_addr c)) = false → ∀ h now w,
     (MgmtGate.require_management_token (management_api_token c) h now w).1 ≠ MgmtGate.ServiceUnavailable) ∧
  distinct_services (services c).
Proof.
  unfold load_from. intros (c0 & _ & H)%bind_Some. set (c1 := match env with Some t => _ | None => _ end) in H.
  destruct (validate is_file c1) as [u|] eqn:Ev; [|done]. injection H as <-. destruct u.
  assert (Ha : accepted is_file c1).
  { unfold validate in Ev. by rewrite !check_and, timed_ok, bound_ok, peered_ok, stored_ok in Ev. }
  destruct Ha as ([Ht _ Hh Hw Hl _] & [_ _ Hd Htok] & _ & [_ _ _ Hr _ _ Hau _ _]).
  unfold Governor.METRICS_WATCHDOG_TIMEOUT_MS in *. change (1500 / 2) with 750 in Hw.
  assert (He : 0 ≤ election_timeout_ms c1 ≤ ONE_HOUR_MS).
  { unfold timeouts in Ht. apply Forall_cons in Ht as [[_ ?] _]. assert (700 < election_timeout_ms c1) by exact Hl. lia. }
  split_and!; try done; try lia.
  - intros t -> Hne. subst c1. cbn. by rewrite bool_decide_false.
  - intros rank Hrank. by apply threshold_step.
  - by apply roles_fence.
  - intros Hlo h now w. destruct Htok as [?|Htok]; [congruence|]. destruct (management_api_token c1) as [t|]; [|done].
    unfold MgmtGate.require_management_token. destruct (match MgmtGate.request_token h with Some p => _ | None => _ end); [done|].
    by cbn [fst]; destruct (_ <? _).
Qed.

(** A standby on its own host, the environment's token over the file's. *)
Module Sane.
Definition local (port : Z) : SocketAddr := SocketAddr_ (V4 (127 * 2 ^ 24 + 1)) 0 port.
Definition config : Config :=
  Config_ 2 (local 5432) (SocketAddr_ (V4 (10 * 2 ^ 24 + 2)) 0 5433) None (SocketAddr_ (V4 (10 * 2 ^ 24 + 2)) 0 9090) None None None
    [PeerConfig_ 1 (local 6433) (local 6434) None None] (lit "green") (Some (lit "blue")) [lit "app"] (lit "/usr/bin")
    [(lit "018", lit "/usr/lib/18/bin")] (lit "/data/pg") [] 5434 None (lit "postgres") Trust Disable None None false None None None
    1000 250 5000 300000 60000 5000 30000 Replica None.
Definition no_file (p : bytes) : bool := false.
End Sane.
Lemma a_loaded_configuration_meets_its_parts_witness :
  ∃ c, load_from Sane.no_file (Some Sane.config) (Some (lit "token")) = Some c ∧ management_api_token c = Some (lit "token").
Proof.
  exists (with_token Sane.config (lit "token")). split; [vm_compute; reflexivity|].
  apply (a_loaded_configuration_meets_its_parts Sane.no_file (Some Sane.config) (Some (lit "token"))); [|reflexivity|discriminate].
  vm_compute. reflexivity.
Defined.

(** A major's key is checked as a number and looked up as its digits. *)
Lemma a_padded_major_is_accepted_and_never_found :
  validate Sane.no_file (with_token Sane.config (lit "token")) = Ok tt ∧ pg_bin_dir_for_major Sane.config 18 = None.
Proof. split; vm_compute; reflexivity. Qed.
