(* ===== verification/Upgrade.v ===== *)
(** * A major upgrade on one node ([commands/upgrade/postgres.rs], the node's side)

    What [pg_upgrade] does to one node's data directories: the probe that decides from
    what is on disk, the apply on the primary, the confirm that deletes the old
    directory, the rollback, the rebuild of a standby.  Everything the flow touches lies
    beside the data directory: a directory is its name there, a binary directory its
    path.  Names and outputs are UTF-8; the data directory has a name and a parent.

    A [Node] is the supervisor's handle and the paths it runs on.  What the supervisor
    asks is tagged with those paths.  [rounds] bounds its polls.  Error texts and log
    lines are left out. *)

From S2P Require Import Prelude Effects Text Core PgFiles.
From S2P Require Standby.
From Stdlib Require Import Strings.Byte.

(** ** How the files move *)
Inductive TransferMode := Clone | Copy | Link.
#[global] Instance TransferMode_eq_dec : EqDecision TransferMode.
Proof. solve_decision. Defined.
Definition as_pg_upgrade_flag (m : TransferMode) : bytes :=
  match m with Clone => lit "--clone" | Copy => lit "--copy" | Link => lit "--link" end.
Definition TransferMode_parse (s : bytes) : result () TransferMode :=
  let s := to_ascii_lowercase (trim s) in
  if bool_decide (s = lit "clone") then Ok Clone
  else if bool_decide (s = lit "copy") then Ok Copy
  else if bool_decide (s = lit "link") then Ok Link
  else Err tt.

(** ** Majors in text *)
Fixpoint take_digits (l : bytes) : bytes :=
  match l with c :: l' => if is_ascii_digit c then c :: take_digits l' else [] | [] => [] end.
(** The digits the first token that starts with one starts with. *)
Fixpoint major_among (tokens : list bytes) : option Z :=
  match tokens with
  | [] => None
  | token :: tokens =>
      match take_digits token with [] => major_among tokens | major => parse_u32 major end
  end.
Definition regex_lite_major (s : bytes) : option Z := major_among (split_whitespace s).
Definition parse_postgres_major (version_stdout : bytes) : option Z := regex_lite_major version_stdout.

Definition parse_u16 (l : bytes) : option Z := from_str_radix 65535 10 l.
Definition parse_lsn_bytes (text : bytes) : option Z :=
  '(upper, lower) ← split_once "/"%byte text;
  hi ← from_str_radix u64_max 16 (trim upper);
  lo ← from_str_radix u64_max 16 (trim lower);
  Some (Z.lor (Lsn.shl32_u64 hi) lo).

(** ** The parameters initdb must reuse *)
Record InitdbParams := InitdbParams_ {
  data_checksums : bool;
  wal_segsize_mb : option Z;
  encoding : bytes;
  lc_collate : bytes;
  lc_ctype : bytes;
  locale_provider : bytes;
  icu_locale : option bytes;
}.
(** A later line with a key replaces an earlier one. *)
Definition insert_kv (fields : gmap bytes bytes) (line : bytes) : gmap bytes bytes :=
  match split_once ":"%byte line with
  | Some (key, value) => <[trim key := trim value]> fields
  | None => fields
  end.
Definition parse_kv_colon (output : bytes) : gmap bytes bytes := foldl insert_kv ∅ (lines output).
Definition initdb_params_from_controldata (controldata : bytes) : bool * option Z :=
  let fields := parse_kv_colon controldata in
  (match fields !! lit "Data page checksum version" with Some v => negb (bool_decide (v = lit "0")) | None => false end,
   v ← fields !! lit "Bytes per WAL segment"; b ← parse_u64 v; Some (Z.min (b / (1024 * 1024)) u32_max)).

(** ** What an operation asks *)
(** The binaries and the data directory in use. *)
Record Home := Home_ { bin_dir : bytes; data_dir : bytes }.
(** A file, a directory's listing, or neither; [None] where the walk fails. *)
Inductive Tree := AFile (len : option Z) | ADir (entries : option (list (option Tree))) | Neither.

Inductive Tool :=
| PgControldata (bin data : bytes)
| Initdb (bin data : bytes) (params : InitdbParams)
| PgUpgrade (old_data new_data old_bin new_bin : bytes) (mode : TransferMode)
| PsqlScript (bin : bytes) (port : Z) (script : bytes)
| BashScript (script : bytes)
| Vacuumdb (bin : bytes) (port : Z)
| PsqlVersion (bin host : bytes) (port : Z) (user : bytes)
| PsqlCreateSlot (bin host : bytes) (port : Z) (user slot : bytes)
| PgBasebackup (bin host : bytes) (port : Z) (user data slot : bytes).
(** Past its budget, not run, or an exit with its output. *)
Inductive Output := OverBudget | CannotRun | Exited (success : bool) (stdout stderr : bytes).
Inductive LocalQuery := DatabaseRow | FlushLsn | WriteProbe | CountCatalog.

Inductive SysReq :=
| ReadParent
| IsDir (name : bytes) | PathExists (name : bytes)
| ReadVersion (name : bytes)               (* [<name>/PG_VERSION] *)
| HasControl (name : bytes)                (* [<name>/global/pg_control] is a file *)
| ReadPidFile (name : bytes)
| Measure (name : bytes)
| RemoveDirAll (name : bytes) | RenameDir (a b : bytes)
| WatermarkExists | ReadWatermark | WriteWatermark (text : bytes) | RemoveWatermark
| UnixSecs
| ScriptIsFile (script : bytes) | VacuumdbIsFile (bin : bytes)
| ListDir (name : bytes) | RemoveEntry (name entry : bytes) (is_dir : bool) | CreateDirAll (name : bytes)
| ReadConfig | CreateTemp | WriteTemp (text : bytes) | SyncTemp | RenameTemp | SyncConfigDir.
Inductive AwaitReq :=
| Run (c : Tool)
| Query (h : Home) (q : LocalQuery)
| Sleep (d : Z).
Inductive Req := Sys (q : SysReq) | Await (q : AwaitReq) | Pg (h : Home) (q : Standby.Req).
(** Decided so that the equality itself computes. *)
Definition option_code_dec {A} `{EqDecision A} : EqDecision (option A).
Proof.
  intros [a|] [b|]; [|right; discriminate..|by left].
  destruct (decide (a = b)) as [H|H]; [left; exact (f_equal Some H)|right; congruence].
Defined.
Section Decisions.
#[local] Existing Instance byte_code_dec | 0.
#[local] Existing Instance option_code_dec | 0.
#[global] Instance InitdbParams_eq_dec : EqDecision InitdbParams.
Proof. solve_decision. Defined.
#[global] Instance Home_eq_dec : EqDecision Home.
Proof. solve_decision. Defined.
#[global] Instance Tool_eq_dec : EqDecision Tool.
Proof. solve_decision. Defined.
#[global] Instance LocalQuery_eq_dec : EqDecision LocalQuery.
Proof. solve_decision. Defined.
#[global] Instance SysReq_eq_dec : EqDecision SysReq.
Proof. solve_decision. Defined.
#[global] Instance AwaitReq_eq_dec : EqDecision AwaitReq.
Proof. solve_decision. Defined.
#[global] Instance Req_eq_dec : EqDecision Req.
Proof. solve_decision. Defined.
End Decisions.

Definition SysAnswer (q : SysReq) : Type :=
  match q with
  | ReadParent => result () (list (result () bytes))
  | ReadVersion _ | ReadPidFile _ | ReadWatermark | ReadConfig => option bytes
  | Measure _ => option Tree
  | UnixSecs => Z
  | ListDir _ => result () (list (result () (bytes * result () bool)))
  | _ => bool
  end.
Definition AwaitAnswer (q : AwaitReq) : Type :=
  match q with Run _ => Output | Query _ _ => result () bytes | Sleep _ => unit end.
(** [None]: the operation is dropped there. *)
Definition Answer (q : Req) : Type :=
  match q with Sys q => SysAnswer q | Await q => option (AwaitAnswer q) | Pg _ q => Standby.Answer q end.

Inductive Exit := Failed | Dropped | OutOfRounds | Panicked.
Abbreviation io A := (prog Answer (result Exit A)).
Definition ok {A} (a : A) : io A := Ret (Ok a).
Definition bail {A} : io A := Ret (Err Failed).
Definition sys (q : SysReq) : io (SysAnswer q) := let* r := ask (Sys q) in ok r.
Definition await (q : AwaitReq) : io (AwaitAnswer q) :=
  let* r := ask (Await q) in Ret (match r with Some a => Ok a | None => Err Dropped end).
Definition need {A} (r : option A) : io A := match r with Some a => ok a | None => bail end.
Definition need_ok {A} (r : result () A) : io A := match r with Ok a => ok a | Err _ => bail end.
Definition check (b : bool) : io () := if b then ok tt else bail.
(** A command that ran: whether it succeeded, and what it wrote. *)
Definition run (c : Tool) : io (bool * bytes * bytes) :=
  let? o := await (Run c) in
  match o with Exited success stdout stderr => ok (success, stdout, stderr) | _ => bail end.

(** With the supervisor's handle threaded. *)
Record Node := Node_ { sup : Standby.Sup; home : Home }.
Definition M (A : Type) : Type := Node → prog Answer (Node * result Exit A).
Definition ret {A} (a : A) : M A := λ n, Ret (n, Ok a).
Definition fail {A} : M A := λ n, Ret (n, Err Failed).
Definition then_ {A B} (m : M A) (f : A → M B) : M B := λ n,
  let* r := m n in match r.2 with Ok a => f a r.1 | Err e => Ret (r.1, Err e) end.
Notation "'let@' x ':=' p 'in' q" := (then_ p (λ x, q))
  (at level 10, x pattern, p at level 100, q at level 200) : prog_scope.
(** An error looked at instead of passed on. *)
Definition attempt {A} (m : M A) : M (result () A) := λ n,
  let* r := m n in
  Ret (r.1, match r.2 with Ok a => Ok (Ok a) | Err Failed => Ok (Err tt) | Err e => Err e end).
Definition lift {A} (p : io A) : M A := λ n, let* r := p in Ret (n, r).
Definition get : M Node := λ n, Ret (n, Ok n).
Definition retarget_paths (h : Home) : M () := λ n, Ret (Node_ (sup n) h, Ok tt).
Definition exit_of (e : Standby.Exit) : Exit :=
  match e with
  | Standby.Fail _ => Failed
  | Standby.Dropped => Dropped
  | Standby.OutOfRounds => OutOfRounds
  | Standby.Panicked => Panicked
  end.
Definition on_supervisor {A} (m : Standby.M A) : M A := λ n,
  let* r := embed (Pg (home n)) (λ _ r, r) (m (sup n)) in
  Ret (Node_ r.1 (home n), match r.2 with Ok a => Ok a | Err e => Err (exit_of e) end).
Definition query (q : LocalQuery) : M bytes :=
  let@ n := get in
  lift (let? r := await (Query (home n) q) in need_ok r).

(** ** The probe *)
Definition data_dir_major (data : bytes) : io Z :=
  let? raw := sys (ReadVersion data) in
  let? raw := need raw in
  need (parse_u32 (trim raw)).

Record UpgradeSite := UpgradeSite_ {
  old_data_dir : option bytes;
  old_major : option Z;
  new_data_dir : option bytes;
  old_control_intact : bool;
}.
Definition upgrade_site_base_name (data_dir_name : bytes) : bytes :=
  match rsplit_once "_"%byte data_dir_name with
  | Some (base, suffix) => if bool_decide (is_Some (parse_u32 suffix)) then base else data_dir_name
  | None => data_dir_name
  end.
(** The name the flow gives the data directory of a major. *)
Definition flow_name (base : bytes) (major : Z) : bytes := base ++ lit "_" ++ show_u64 major.
Definition is_flow_sibling (base name : bytes) : bool :=
  match strip_prefix base name with
  | Some rest =>
      match strip_prefix (lit "_") rest with Some suffix => bool_decide (is_Some (parse_u32 suffix)) | None => false end
  | None => false
  end.
Definition recognised (configured name : bytes) : bool :=
  let base := upgrade_site_base_name configured in
  bool_decide (name = configured) || bool_decide (name = base) || is_flow_sibling base name.

(** [BTreeMap<u32, Vec<PathBuf>>]: [entry(major).or_default().push(name)]. *)
Abbreviation ByMajor := (list (Z * list bytes)).
Fixpoint push (major : Z) (name : bytes) (m : ByMajor) : ByMajor :=
  match m with
  | [] => [(major, [name])]
  | (k, names) :: m' =>
      if major <? k then (major, [name]) :: m
      else if major =? k then (k, names ++ [name]) :: m'
      else (k, names) :: push major name m'
  end.
Fixpoint scan (configured : bytes) (entries : list (result () bytes)) (by_major : ByMajor) : io ByMajor :=
  match entries with
  | [] => ok by_major
  | entry :: entries =>
      let? name := need_ok entry in
      let? is_dir := sys (IsDir name) in
      if negb is_dir || negb (recognised configured name) then scan configured entries by_major
      else
        let* major := data_dir_major name in
        scan configured entries (match major with Ok major => push major name by_major | Err _ => by_major end)
  end.
Definition ambiguous (by_major : ByMajor) : bool := existsb (λ e, (1 <? length e.2)%nat) by_major.
Fixpoint settle (to_major : Z) (by_major : ByMajor) (site : UpgradeSite) : io UpgradeSite :=
  match by_major with
  | [] => ok site
  | (_, []) :: by_major => settle to_major by_major site
  | (major, path :: _) :: by_major =>
      if major =? to_major then
        settle to_major by_major (UpgradeSite_ (old_data_dir site) (old_major site) (Some path) (old_control_intact site))
      else if (major <? to_major) && match old_major site with None => true | Some m => m <? major end then
        let? intact := sys (HasControl path) in
        settle to_major by_major (UpgradeSite_ (Some path) (Some major) (new_data_dir site) intact)
      else settle to_major by_major site
  end.
Definition no_site : UpgradeSite := UpgradeSite_ None None None false.
Definition probe (data : bytes) (to_major : Z) : io UpgradeSite :=
  let? entries := sys ReadParent in
  let? entries := need_ok entries in
  let? by_major := scan data entries [] in
  let? _ := check (negb (ambiguous by_major)) in
  settle to_major by_major no_site.
Definition rollback_available (site : UpgradeSite) : bool :=
  bool_decide (is_Some (old_data_dir site)) && old_control_intact site.

Definition bin_dir_for_major (major : option Z) (bin_dirs : gmap bytes bytes) (configured : bytes) : bytes :=
  default configured (m ← major; bin_dirs !! show_u64 m).
Definition rejoin_bindir_for_primary (probed_primary_major : Z) (bin_dirs : gmap bytes bytes) : option bytes :=
  bin_dirs !! show_u64 probed_primary_major.

(** ** The watermark *)
Definition write_unfreeze_watermark (lsn : Z) : io () :=
  let? written := sys (WriteWatermark (show_u64 lsn)) in check written.
Definition read_unfreeze_watermark : io (option Z) :=
  let? raw := sys ReadWatermark in ok (raw ← raw; parse_u64 (trim raw)).
Definition flush_lsn_bytes : M Z :=
  let@ raw := query FlushLsn in lift (need (parse_lsn_bytes (trim raw))).
Definition rollback_may_discard_writes (watermark final_lsn : option Z) : bool :=
  match watermark, final_lsn with Some mark, Some now => mark <? now | _, _ => true end.
Definition interrupted_target_is_discardable (old_control_intact unfreeze_watermark_exists : bool) : bool :=
  old_control_intact && negb unfreeze_watermark_exists.

(** ** The apply *)
Section Node.
Context (rounds : nat) (cfg : SupervisorConfig) (node_id : Z).

Definition collect_initdb_params (old_bindir data : bytes) : M InitdbParams :=
  let@ out := lift (run (PgControldata old_bindir data)) in
  let '(success, controldata, _) := out in
  let@ _ := lift (check success) in
  let '(data_checksums, wal_segsize_mb) := initdb_params_from_controldata controldata in
  let@ row := query DatabaseRow in
  match split_on "|"%byte (trim row) with
  | [encoding; lc_collate; lc_ctype; locale_provider; icu] =>
      if bool_decide (encoding = []) || bool_decide (lc_collate = []) || bool_decide (lc_ctype = []) then fail
      else ret (InitdbParams_ data_checksums wal_segsize_mb encoding lc_collate lc_ctype locale_provider
                  (if bool_decide (icu = []) then None else Some icu))
  | _ => fail
  end.

Fixpoint walk (t : Tree) (total : Z) : option Z :=
  match t with
  | AFile len => l ← len; Some (sat_add_u64 total l)
  | ADir None => None
  | ADir (Some entries) =>
      (fix each (es : list (option Tree)) (total : Z) : option Z :=
         match es with
         | [] => Some total
         | None :: _ => None
         | Some e :: es => total ← walk e total; each es total
         end) entries total
  | Neither => Some total
  end.
Definition dir_size_approx (name : bytes) : io Z :=
  let? tree := sys (Measure name) in
  let? tree := need tree in
  need (walk tree 0).
(** In seconds. *)
Definition pg_upgrade_budget (old_data : bytes) : io Z :=
  let? bytes := dir_size_approx old_data in
  ok (Z.max 600 (bytes / (10 * 1024 * 1024))).

Definition read_postmaster_port (data : bytes) : io Z :=
  let? raw := sys (ReadPidFile data) in
  let? raw := need raw in
  let? port_line := need (lines raw !! 3%nat) in
  need (parse_u16 (trim port_line)).

Inductive PostUpgradeScriptKind := Sql | Shell.
(** [Path::extension]: what follows the last dot that is not the first byte. *)
Definition extension (name : bytes) : option bytes :=
  match rsplit_once "."%byte name with Some ([], _) | None => None | Some (_, ext) => Some ext end.
Definition post_upgrade_script_kind (name : bytes) : PostUpgradeScriptKind :=
  match extension name with Some e => if eq_ignore_ascii_case e (lit "sql") then Sql else Shell | None => Shell end.
Fixpoint run_scripts (names : list bytes) (new_bindir : bytes) (port : Z) : io () :=
  match names with
  | [] => ok tt
  | name :: names =>
      let? present := sys (ScriptIsFile name) in
      if negb present then run_scripts names new_bindir port
      else
        let? out := run (match post_upgrade_script_kind name with
                         | Sql => PsqlScript new_bindir port name
                         | Shell => BashScript name
                         end) in
        let? _ := check out.1.1 in
        run_scripts names new_bindir port
  end.
Definition run_post_upgrade_scripts (new_bindir : bytes) (port : Z) : io () :=
  run_scripts [lit "update_extensions.sql"; lit "analyze_new_cluster.sh"] new_bindir port.
(** Gating below 18. *)
Definition analyze_in_stages (new_bindir new_data : bytes) (to_major : Z) : io () :=
  let? present := sys (VacuumdbIsFile new_bindir) in
  if present then
    let? port := read_postmaster_port new_data in
    let? o := await (Run (Vacuumdb new_bindir port)) in
    match o with
    | Exited true _ _ => ok tt
    | _ => check (negb (to_major <? 18))
    end
  else check (negb (to_major <? 18)).

Record PreflightReport := PreflightReport_ { from_major : Z; upgraded_to : Z; transfer_mode : TransferMode; reflink_ok : bool }.

Definition run_apply_after_stop (old new : Home) (initdb : InitdbParams) (from to_major : Z) (mode : TransferMode)
    : M PreflightReport :=
  let@ out := lift (run (Initdb (bin_dir new) (data_dir new) initdb)) in
  let@ _ := lift (check out.1.1) in
  let@ _ := lift (pg_upgrade_budget (data_dir old)) in
  let@ out := lift (run (PgUpgrade (data_dir old) (data_dir new) (bin_dir old) (bin_dir new) mode)) in
  let@ _ := lift (check out.1.1) in
  let@ _ := retarget_paths new in
  let@ _ := on_supervisor (Standby.start rounds cfg) in
  let@ _ := query WriteProbe in
  let@ port := lift (read_postmaster_port (data_dir new)) in
  let@ _ := lift (run_post_upgrade_scripts (bin_dir new) port) in
  let@ _ := lift (analyze_in_stages (bin_dir new) (data_dir new) to_major) in
  let@ _ := lift (probe (data_dir new) to_major) in
  let@ watermark := flush_lsn_bytes in
  let@ _ := lift (write_unfreeze_watermark watermark) in
  ret (PreflightReport_ from to_major mode (bool_decide (mode = Clone))).

Definition has_postmaster (n : Node) : bool := Standby.child (sup n).
(** The step's own error is what it answers, whatever came of the recovery. *)
Definition recover_old_cluster_after_failed_apply (old : Home) : M () :=
  let@ recoverable := lift (sys (HasControl (data_dir old))) in
  if negb recoverable then ret tt
  else
    let@ n := get in
    let@ _ := if has_postmaster n then let@ _ := attempt (on_supervisor Standby.stop) in ret tt else ret tt in
    let@ _ := retarget_paths old in
    let@ _ := attempt (on_supervisor (Standby.start rounds cfg)) in
    ret tt.

Definition run_primary_pg_upgrade_apply (bin_dirs : gmap bytes bytes) (to_major : Z) (mode : TransferMode)
    : M PreflightReport :=
  let@ n := get in
  let old_data := data_dir (home n) in
  let@ from := lift (data_dir_major old_data) in
  if negb (to_major =? (from + 1) mod 2 ^ 32) then fail
  else
    let old := Home_ (default (bin_dir (home n)) (bin_dirs !! show_u64 from)) old_data in
    let@ new_bindir := lift (need (bin_dirs !! show_u64 to_major)) in
    let new := Home_ new_bindir (flow_name (upgrade_site_base_name old_data) to_major) in
    let@ exists_ := lift (sys (PathExists (data_dir new))) in
    let@ _ :=
      if exists_ then
        let@ intact := lift (sys (HasControl old_data)) in
        let@ marked := lift (sys WatermarkExists) in
        let@ _ := lift (check (interrupted_target_is_discardable intact marked)) in
        let@ removed := lift (sys (RemoveDirAll (data_dir new))) in
        lift (check removed)
      else ret tt in
    let@ initdb := collect_initdb_params (bin_dir old) old_data in
    let@ _ := on_supervisor Standby.stop in
    let@ r := attempt (run_apply_after_stop old new initdb from to_major mode) in
    match r with
    | Ok report => ret report
    | Err _ => let@ _ := recover_old_cluster_after_failed_apply old in fail
    end.

(** ** Confirm *)
(** [Ok false]: nothing to delete. *)
Definition confirm_local (data : bytes) (to_major : Z) : io bool :=
  let? site := probe data to_major in
  match old_data_dir site with
  | None => ok false
  | Some old =>
      let? live := data_dir_major data in
      if negb (live =? to_major) then bail
      else
        let? removed := sys (RemoveDirAll old) in
        let? _ := check removed in
        let? _ := sys RemoveWatermark in
        ok true
  end.

(** ** Rollback *)
Record RollbackReport := RollbackReport_ {
  rolled_back_to : Z;
  rolled_back_dir : bytes;
  unfreeze_watermark_lsn : option Z;
  new_cluster_final_lsn : option Z;
}.
Fixpoint probe_rounds (n : nat) : M () :=
  match n with
  | O => fail
  | S n =>
      let@ r := attempt (query WriteProbe) in
      match r with
      | Ok _ => ret tt
      | Err _ => let@ _ := lift (await (Sleep 500)) in probe_rounds n
      end
  end.
Definition probe_rollback_write : M () := probe_rounds 20.
Definition discarded_name (name : bytes) (epoch_secs : Z) : bytes := name ++ lit ".discarded." ++ show_u64 epoch_secs.
Definition move_aside_discarded_target (new_data : bytes) : io bytes :=
  let? epoch_secs := sys UnixSecs in
  let aside := discarded_name new_data epoch_secs in
  let? renamed := sys (RenameDir new_data aside) in
  let? _ := check renamed in
  ok aside.
Definition rollback_local (bin_dirs : gmap bytes bytes) (to_major : Z) (accept_write_loss : bool) : M RollbackReport :=
  let@ n := get in
  let@ site := lift (probe (data_dir (home n)) to_major) in
  match old_data_dir site, old_major site with
  | Some old_data, Some from =>
      if negb (old_control_intact site) then fail
      else
        let@ final := attempt flush_lsn_bytes in
        let final := match final with Ok lsn => Some lsn | Err _ => None end in
        let@ watermark := lift read_unfreeze_watermark in
        if rollback_may_discard_writes watermark final && negb accept_write_loss then fail
        else
          let@ old_bindir := lift (need (bin_dirs !! show_u64 from)) in
          let@ _ := on_supervisor Standby.stop in
          let@ _ := retarget_paths (Home_ old_bindir old_data) in
          let@ _ := on_supervisor (Standby.start rounds cfg) in
          let@ _ := probe_rollback_write in
          let@ catalog := query CountCatalog in
          if default 0 (parse_u64 (trim catalog)) =? 0 then fail
          else
            let@ live := lift (data_dir_major old_data) in
            if negb (live =? from) then fail
            else
              let@ _ := match new_data_dir site with
                        | Some new_dir => let@ _ := lift (move_aside_discarded_target new_dir) in ret tt
                        | None => ret tt
                        end in
              let@ _ := lift (sys RemoveWatermark) in
              ret (RollbackReport_ from old_data watermark final)
  | _, _ => fail
  end.

(** ** Rejoin *)
Definition probe_primary_major (bin host : bytes) (port : Z) (user : bytes) : io Z :=
  let? out := run (PsqlVersion bin host port user) in
  let '(success, stdout, _) := out in
  let? _ := check success in
  need (parse_postgres_major stdout).
Fixpoint clear_entries (name : bytes) (entries : list (result () (bytes * result () bool))) : io () :=
  match entries with
  | [] => ok tt
  | entry :: entries =>
      let? e := need_ok entry in
      let? is_dir := need_ok e.2 in
      let? removed := sys (RemoveEntry name e.1 is_dir) in
      let? _ := check removed in
      clear_entries name entries
  end.
Definition clear_or_create (data : bytes) : io () :=
  let? exists_ := sys (PathExists data) in
  if exists_ then
    let? entries := sys (ListDir data) in
    let? entries := need_ok entries in
    clear_entries data entries
  else let? created := sys (CreateDirAll data) in check created.
Definition run_standby_rebasebackup (bin_dirs : gmap bytes bytes) (leader_host : bytes) (leader_port : Z) (pg_user : bytes)
    : M () :=
  let@ n := get in
  let@ primary_major := lift (probe_primary_major (bin_dir (home n)) leader_host leader_port pg_user) in
  let@ new_bindir := lift (need (rejoin_bindir_for_primary primary_major bin_dirs)) in
  let@ _ := on_supervisor Standby.stop in
  let data := data_dir (home n) in
  let@ _ := lift (clear_or_create data) in
  let@ _ := retarget_paths (Home_ new_bindir data) in
  let slot := Standby.slot_of node_id in
  let@ out := lift (run (PsqlCreateSlot new_bindir leader_host leader_port pg_user slot)) in
  let '(success, _, err) := out in
  let@ _ := lift (check (success || str_contains (lit "already exists") (to_ascii_lowercase err))) in
  let@ out := lift (run (PgBasebackup new_bindir leader_host leader_port pg_user data slot)) in
  let@ _ := lift (check out.1.1) in
  on_supervisor (Standby.start rounds cfg).
End Node.

(** ** The node's configuration file *)
Section ConfigFile.
(** [toml_edit]: the document with its root keys set, [None] where it does not parse. *)
Context (with_keys : bytes → list (bytes * bytes) → option bytes).
(** [parent]: the directory everything lies in. *)
Context (parent : bytes).
Definition join (name : bytes) : bytes :=
  if bool_decide (last parent = Some "/"%byte) then parent ++ name else parent ++ lit "/" ++ name.

Definition rewrite_config_pg_paths (h : Home) : io () :=
  let? raw := sys ReadConfig in
  let? raw := need raw in
  let? doc := need (with_keys raw [(lit "pg_bin_dir", bin_dir h); (lit "pg_data_dir", join (data_dir h))]) in
  let? created := sys CreateTemp in
  let? _ := check created in
  let? written := sys (WriteTemp doc) in
  let? _ := check written in
  let? synced := sys SyncTemp in
  let? _ := check synced in
  let? renamed := sys RenameTemp in
  let? _ := check renamed in
  let? synced := sys SyncConfigDir in
  check synced.
End ConfigFile.
