(* ===== verification/UpgradeApi.v ===== *)
(** * The upgrade endpoints ([observability/management_api/upgrade.rs])

    The handlers over [Upgrade]'s operations, the committed upgrade record and the
    paths the node runs on.  What they ask is their own requests, the node's
    ([Local]) and the Raft log's ([Raft]).  A handler's future is dropped when its
    client goes away; the apply runs in a task of its own. *)

From S2P Require Import Prelude Effects Text PgFiles ClusterState Upgrade.
From S2P Require Standby Handoff.
From Stdlib Require Import Strings.Byte.

Record PgPaths := PgPaths_ { at_ : Home; bin_dirs : gmap bytes bytes; wal_archive_dir : option bytes }.
Record SelfUpgradeHttpRequest := SelfUpgradeHttpRequest_ {
  version : bytes;
  url : option bytes;
  allow_insecure_http : bool;
  insecure_no_verify : bool;
  allow_downgrade : bool;
  identity : option bytes;
}.
(** What [postgres] in a directory is: a file, executable, its [--version]. *)
Record BinaryProbe := BinaryProbe_ { is_file : bool; executable : bool; version_out : option bytes }.

Inductive Req :=
| GetPaths | SetPaths (p : PgPaths)
| TryUpgradeLock | TryBackupLock
| CurrentLeader | VoterCount
| ReadRecord
| LockSupervisor | UnlockSupervisor (n : Node)
| ReadRecovery                             (* lock and query, within two seconds *)
| SpawnBlocking
| ProbeBinary (bin : bytes)
| PerformSelfUpgrade (r : SelfUpgradeHttpRequest) | SignalShutdown
| Raft (q : Handoff.Req)
| Local (q : Upgrade.Req).
Definition Answer (q : Req) : Type :=
  match q with
  | GetPaths => option PgPaths
  | CurrentLeader => option Z
  | VoterCount => Z
  | ReadRecord => PgUpgradeState
  | LockSupervisor => option Node          (* [None]: dropped while it waits *)
  | ReadRecovery => option bytes
  | ProbeBinary _ => BinaryProbe
  | PerformSelfUpgrade _ => result () bytes
  | SetPaths _ | UnlockSupervisor _ => unit
  | TryUpgradeLock | TryBackupLock | SpawnBlocking | SignalShutdown => bool
  | Raft q => Handoff.Answer q
  | Local q => Upgrade.Answer q
  end.
Abbreviation api A := (prog Answer A).
Definition on_disk {A} (p : io A) : api (result Exit A) := embed Local (λ _ r, r) p.
Definition on_node {A} (m : M A) (n : Node) : api (Node * result Exit A) := embed Local (λ _ r, r) (m n).

Inductive StatusCode := OK | BAD_REQUEST | FORBIDDEN | NOT_FOUND | CONFLICT | INTERNAL_SERVER_ERROR | SERVICE_UNAVAILABLE.
#[global] Instance StatusCode_eq_dec : EqDecision StatusCode.
Proof. solve_decision. Defined.
(** An error is a handler that ends without an answer. *)
Abbreviation Response A := (result Exit (StatusCode * A)).
Definition answer {A} (c : StatusCode) (a : A) : api (Response A) := Ret (Ok (c, a)).

Record ManagementApiState := ManagementApiState_ {
  node_id : Z;
  has_config_path : bool;
  has_postgres_manager : bool;
  accept_unverified_self_upgrade : bool;
}.

(** ** Replacing the node's own binary *)
Definition self_upgrade_refused_on_leader (is_leader : bool) (voters : Z) : bool := is_leader && (1 <? voters).
Definition unverified_without_consent (body : SelfUpgradeHttpRequest) (accepted : bool) : bool :=
  negb accepted && (insecure_no_verify body || bool_decide (is_Some (identity body))).
(** The backup path, where there is one. *)
Definition self_upgrade (state : ManagementApiState) (body : SelfUpgradeHttpRequest) : api (Response (option bytes)) :=
  if unverified_without_consent body (accept_unverified_self_upgrade state) then answer FORBIDDEN None
  else
    let* guard := ask TryUpgradeLock in
    if negb guard then answer CONFLICT None
    else
      let* backup_guard := ask TryBackupLock in
      if negb backup_guard then answer CONFLICT None
      else
        let* leader := ask CurrentLeader in
        let* voters := ask VoterCount in
        if self_upgrade_refused_on_leader (bool_decide (leader = Some (node_id state))) voters then answer CONFLICT None
        else
          let* joined := ask SpawnBlocking in
          if negb joined then answer INTERNAL_SERVER_ERROR None
          else
            let* outcome := ask (PerformSelfUpgrade body) in
            match outcome with
            | Ok backup_path =>
                let* sent := ask SignalShutdown in
                answer (if sent : bool then OK else INTERNAL_SERVER_ERROR) (Some backup_path)
            | Err _ => answer BAD_REQUEST None
            end.

(** ** The upgrade record *)
Inductive UpgradeRecordStep :=
| Freeze (standbys : list NodeId)
| Serve (lineage : option Z)
| Rejoined (node : NodeId)
| Abort.
Section Decisions.
#[local] Existing Instance option_code_dec | 0.
#[global] Instance UpgradeRecordStep_eq_dec : EqDecision UpgradeRecordStep.
Proof. solve_decision. Defined.
End Decisions.
Definition command (s : UpgradeRecordStep) : ClusterCommand :=
  match s with
  | Freeze standbys => PgUpgradeFreeze standbys
  | Serve lineage => PgUpgradeServe lineage
  | Rejoined node => PgUpgradeRejoined node
  | Abort => PgUpgradeAbort
  end.
Definition get_upgrade_record : api (Response PgUpgradeState) :=
  let* record := ask ReadRecord in answer OK record.
(** Answered with the record as this node has it then. *)
Definition commit_upgrade_step (step : UpgradeRecordStep) : api (Response PgUpgradeState) :=
  let* outcome := embed Raft (λ _ r, r) (Handoff.propose (command step)) in
  let code := match outcome with
              | Ok o => if applied o then OK else CONFLICT
              | Err _ => SERVICE_UNAVAILABLE
              end in
  let* record := ask ReadRecord in
  answer code record.

Inductive ApplyRefusal := NotFrozen | NotLeader | ListedStandby.
Definition apply_refusal (record : PgUpgradeState) (is_leader : bool) (node : NodeId) : option ApplyRefusal :=
  if negb (frozen record) then Some NotFrozen
  else if negb is_leader then Some NotLeader
  else if ClusterState.Upgrade.leaves_stopped record node then Some ListedStandby
  else None.
Definition rejoin_refusal (record : PgUpgradeState) (node : NodeId) : bool :=
  negb (ClusterState.Upgrade.leaves_stopped record node).

(** ** What the node answers *)
Record PostgresBinDirInfo := PostgresBinDirInfo_ {
  bin_path : bytes; postgres_executable : bool; reported_major : option Z }.
Definition probe_one_bindir (path : bytes) : api PostgresBinDirInfo :=
  let* p := ask (ProbeBinary path) in
  let executable := is_file p && executable p in
  Ret (PostgresBinDirInfo_ path executable (if executable then version_out p ≫= parse_postgres_major else None)).
Fixpoint probe_each (dirs : list (bytes * bytes)) (m : gmap bytes PostgresBinDirInfo) : api (gmap bytes PostgresBinDirInfo) :=
  match dirs with
  | [] => Ret m
  | (major, path) :: dirs => let* info := probe_one_bindir path in probe_each dirs (<[major := info]> m)
  end.
Definition probe_local_bins (active_bin_dir : bytes) (dirs : gmap bytes bytes) : api (gmap bytes PostgresBinDirInfo) :=
  let* m := probe_each (map_to_list dirs) ∅ in
  let* info := probe_one_bindir active_bin_dir in
  Ret (match reported_major info with
       | Some major => match m !! show_u64 major with Some _ => m | None => <[show_u64 major := info]> m end
       | None => m
       end).
Definition get_postgres_bins : api (Response (bytes * gmap bytes PostgresBinDirInfo)) :=
  let* paths := ask GetPaths in
  match paths with
  | None => answer NOT_FOUND ([], ∅)
  | Some paths =>
      let* joined := ask SpawnBlocking in
      if negb joined then answer INTERNAL_SERVER_ERROR ([], ∅)
      else
        let* m := probe_local_bins (bin_dir (at_ paths)) (bin_dirs paths) in
        answer OK (bin_dir (at_ paths), m)
  end.

Record PostgresStatusResponse := PostgresStatusResponse_ {
  status_node : NodeId;
  active_major : option Z;
  active_bin_dir : bytes;
  active_data_dir : bytes;
  can_roll_back : bool;
  in_recovery : option bool;
}.
Definition probe_in_recovery (state : ManagementApiState) : api (option bool) :=
  if negb (has_postgres_manager state) then Ret None
  else
    let* raw := ask ReadRecovery in
    Ret (raw ← raw;
         if bool_decide (trim raw = lit "t") then Some true
         else if bool_decide (trim raw = lit "f") then Some false
         else None).
Definition get_postgres_status (state : ManagementApiState) : api (Response PostgresStatusResponse) :=
  let nothing := PostgresStatusResponse_ (node_id state) None [] [] false in
  let* paths := ask GetPaths in
  match paths with
  | None => answer NOT_FOUND (nothing None)
  | Some paths =>
      let* recovering := probe_in_recovery state in
      let* joined := ask SpawnBlocking in
      if negb joined then answer INTERNAL_SERVER_ERROR (nothing recovering)
      else
        let* major := on_disk (data_dir_major (data_dir (at_ paths))) in
        let major := match major with Ok m => Some m | Err _ => None end in
        let* available :=
          match major with
          | Some m =>
              let* site := on_disk (probe (data_dir (at_ paths)) m) in
              Ret (match site with Ok s => rollback_available s | Err _ => false end)
          | None => Ret false
          end in
        answer OK (PostgresStatusResponse_ (node_id state) major (bin_dir_for_major major (bin_dirs paths) (bin_dir (at_ paths)))
                     (data_dir (at_ paths)) available recovering)
  end.

(** ** What changes the node *)
Section Handlers.
Context (rounds : nat) (cfg : SupervisorConfig).
Context (with_keys : bytes → list (bytes * bytes) → option bytes) (parent : bytes).

(** Whether the new paths survive a restart. *)
Definition persist_retarget (state : ManagementApiState) (h : Home) : api bool :=
  if negb (has_config_path state) then Ret false
  else
    let* r := on_disk (rewrite_config_pg_paths with_keys parent h) in
    Ret (is_ok r).
(** The paths in use follow the supervisor's. *)
Definition retarget (paths : PgPaths) (n : Node) : api () :=
  ask (SetPaths (PgPaths_ (home n) (bin_dirs paths) (wal_archive_dir paths))).
Definition adopt (state : ManagementApiState) (paths : PgPaths) (n : Node) : api bool :=
  let* _ := retarget paths n in
  persist_retarget state (home n).

(** Neither the record nor leadership is asked. *)
Definition stop_postgres (state : ManagementApiState) : api (Response ()) :=
  if negb (has_postgres_manager state) then answer BAD_REQUEST tt
  else
    let* guard := ask LockSupervisor in
    match guard with
    | None => Ret (Err Dropped)
    | Some n =>
        let* r := on_node (on_supervisor Standby.stop) n in
        let* _ := ask (UnlockSupervisor r.1) in
        match r.2 with
        | Ok _ => answer OK tt
        | Err Failed => answer INTERNAL_SERVER_ERROR tt
        | Err e => Ret (Err e)
        end
    end.

Record PostgresUpgradeApplyRequest := PostgresUpgradeApplyRequest_ { to_major : Z; mode : bytes }.
(** The majors, and whether the retarget is durable. *)
Abbreviation ApplyResponse := (option (Z * Z * bool)).
Definition postgres_upgrade_apply_inner (state : ManagementApiState) (body : PostgresUpgradeApplyRequest)
    : api (Response ApplyResponse) :=
  let* paths := ask GetPaths in
  match paths with
  | None => answer BAD_REQUEST None
  | Some paths =>
      let* leader := ask CurrentLeader in
      let* record := ask ReadRecord in
      match apply_refusal record (bool_decide (leader = Some (node_id state))) (node_id state) with
      | Some _ => answer CONFLICT None
      | None =>
          if negb (has_postgres_manager state) then answer BAD_REQUEST None
          else
            let* lock := ask TryUpgradeLock in
            if negb lock then answer CONFLICT None
            else
              match TransferMode_parse (mode body) with
              | Err _ => answer BAD_REQUEST None
              | Ok mode =>
                  let* guard := ask LockSupervisor in
                  match guard with
                  | None => Ret (Err Dropped)
                  | Some n =>
                      let* r := on_node (run_primary_pg_upgrade_apply rounds cfg (bin_dirs paths) (to_major body) mode) n in
                      let '(n, r) := r in
                      let* response :=
                        match r with
                        | Ok report =>
                            let* durable := adopt state paths n in
                            answer OK (Some (from_major report, upgraded_to report, durable))
                        | Err Failed => answer BAD_REQUEST None
                        | Err e => Ret (Err e)
                        end in
                      let* _ := ask (UnlockSupervisor n) in
                      Ret response
                  end
              end
      end
  end.
(** Its own task: what ends it without an answer is a [JoinError]. *)
Definition postgres_upgrade_apply (state : ManagementApiState) (body : PostgresUpgradeApplyRequest)
    : api (Response ApplyResponse) :=
  let* r := postgres_upgrade_apply_inner state body in
  match r with
  | Ok _ | Err OutOfRounds => Ret r
  | Err _ => answer INTERNAL_SERVER_ERROR None
  end.

Record PostgresUpgradeRejoinRequest := PostgresUpgradeRejoinRequest_ {
  leader_pg_host : bytes; leader_pg_port : Z; pg_user : bytes }.
Definition postgres_upgrade_rejoin (state : ManagementApiState) (body : PostgresUpgradeRejoinRequest)
    : api (Response bool) :=
  let* paths := ask GetPaths in
  match paths with
  | None => answer BAD_REQUEST false
  | Some paths =>
      if negb (has_postgres_manager state) then answer BAD_REQUEST false
      else
        let* record := ask ReadRecord in
        if rejoin_refusal record (node_id state) then answer CONFLICT false
        else
          let* lock := ask TryUpgradeLock in
          if negb lock then answer CONFLICT false
          else
            let* guard := ask LockSupervisor in
            match guard with
            | None => Ret (Err Dropped)
            | Some n =>
                let* r := on_node (run_standby_rebasebackup rounds cfg (node_id state) (bin_dirs paths)
                                     (leader_pg_host body) (leader_pg_port body) (pg_user body)) n in
                let '(n, r) := r in
                let* response :=
                  match r with
                  | Ok _ => let* durable := adopt state paths n in answer OK durable
                  | Err Failed => answer BAD_REQUEST false
                  | Err e => Ret (Err e)
                  end in
                let* _ := ask (UnlockSupervisor n) in
                Ret response
            end
  end.

(** Under the upgrade lock, not the supervisor's. *)
Definition postgres_upgrade_confirm (to_major : Z) : api (Response ()) :=
  let* paths := ask GetPaths in
  match paths with
  | None => answer BAD_REQUEST tt
  | Some paths =>
      let* lock := ask TryUpgradeLock in
      if negb lock then answer CONFLICT tt
      else
        let* r := on_disk (confirm_local (data_dir (at_ paths)) to_major) in
        match r with
        | Ok _ => answer OK tt
        | Err Failed => answer BAD_REQUEST tt
        | Err e => Ret (Err e)
        end
  end.

Definition postgres_upgrade_rollback (state : ManagementApiState) (to_major : Z) (accept_write_loss : bool)
    : api (Response (option (RollbackReport * bool))) :=
  if negb (has_postgres_manager state) then answer BAD_REQUEST None
  else
    let* lock := ask TryUpgradeLock in
    if negb lock then answer CONFLICT None
    else
      let* paths := ask GetPaths in
      let dirs := match paths with Some p => bin_dirs p | None => ∅ end in
      let* guard := ask LockSupervisor in
      match guard with
      | None => Ret (Err Dropped)
      | Some n =>
          let* r := on_node (rollback_local rounds cfg dirs to_major accept_write_loss) n in
          let '(n, r) := r in
          let* response :=
            match r with
            | Ok report =>
                let* paths := ask GetPaths in
                let* _ := match paths with
                          | Some p => retarget p n
                          | None => Ret tt
                          end in
                let* durable := persist_retarget state (home n) in
                answer OK (Some (report, durable))
            | Err Failed => answer BAD_REQUEST None
            | Err e => Ret (Err e)
            end in
          let* _ := ask (UnlockSupervisor n) in
          Ret response
      end.
End Handlers.
