(* ===== verification/UpgradePreflight.v ===== *)
(** * What must hold before a major upgrade ([commands/upgrade/postgres.rs], the preflight)

    The primary's own checks, while it serves: the majors, the disk, the extensions and
    collations, a backup proved by starting it, and [pg_upgrade --check] on a copy.
    Everything it makes lies under one scratch directory beside the data directory
    ([Work]).  [depth] bounds the recursion of the copy. *)

From S2P Require Import Prelude Effects Text PgFiles Upgrade.
From S2P Require Standby Backup UpgradeApi.
From Stdlib Require Import Strings.Byte.

(** ** What it asks *)
Inductive Place := Work (rel : list bytes) | Live.
Inductive Source := FromBackup (p : Backup.Path) | FromWork (rel : list bytes).
Inductive Probe :=
| VerifyBackup (bin : bytes) (p : Backup.Path)
| InitdbSimple (bin : bytes) (rel : list bytes)
| InitdbLike (bin : bytes) (rel : list bytes) (params : InitdbParams)
| StartTemp (bin : bytes) (rel : list bytes) (port : Z) (settings : list bytes)   (* what [-c] sets *)
| StopTemp (bin : bytes) (rel : list bytes)
| Gunzip (p : Backup.Path)
| PsqlFrom (bin : bytes) (port : Z) (s : Source)
| PsqlWrite (bin : bytes) (port : Z)
| PsqlSelect (bin : bytes) (port : Z)
| Basebackup (bin : bytes) (port : Z) (rel : list bytes)
| UpgradeCheck (old_bin new_bin : bytes) (old_rel new_rel : list bytes) (mode : TransferMode).
Inductive CatalogQuery := InRecovery | Extensions | CollationMismatches.
Inductive Req :=
| RemoveWork | CreateDir (rel : list bytes) | RemoveFile (rel : list bytes) | WriteFile (rel : list bytes) (content : bytes)
| CopyFile (src : Backup.Path) (rel : list bytes)
| Device (p : Place)
| CpReflink (src dst : list bytes)
| DfParent
| VersionOf (bin : bytes)
| SharedirOf (bin : bytes)
| ControlFile (sharedir ext : bytes)
| VerifyBackupIsFile (bin : bytes)
| FreePort
| RunProbe (c : Probe)
| Catalog (q : CatalogQuery)
| Local (q : Upgrade.Req)
| Bk (q : Backup.Req)
| Api (q : UpgradeApi.Req).
(** A command run at once: [None] not run, then its success and output. *)
Definition Answer (q : Req) : Type :=
  match q with
  | RemoveWork | RemoveFile _ => unit
  | CreateDir _ | WriteFile _ _ | CopyFile _ _ | CpReflink _ _ | ControlFile _ _ | VerifyBackupIsFile _ => bool
  | Device _ | FreePort => option Z
  | DfParent | VersionOf _ | SharedirOf _ => option (bool * bytes)
  | RunProbe _ => option Output
  | Catalog _ => option (result () bytes)
  | Local q => Upgrade.Answer q
  | Bk q => Backup.Answer q
  | Api q => UpgradeApi.Answer q
  end.
Abbreviation pre A := (prog Answer (result Exit A)).
Definition done {A} (a : A) : pre A := Ret (Ok a).
Definition refuse {A} : pre A := Ret (Err Failed).
Definition require {A} (r : option A) : pre A := match r with Some a => done a | None => refuse end.
Definition demand (b : bool) : pre () := if b then done tt else refuse.
Definition act (q : Req) : pre (Answer q) := let* r := ask q in done r.
Definition on_node {A} (p : io A) : pre A := embed Local (λ _ r, r) p.
Definition backup_exit (e : Backup.Exit) : Exit :=
  match e with Backup.Failed => Failed | Backup.Dropped => Dropped | Backup.OutOfRounds => OutOfRounds end.
Definition on_backup {A} (p : Backup.io A) : pre A :=
  let* r := embed Bk (λ _ r, r) p in Ret (match r with Ok a => Ok a | Err e => Err (backup_exit e) end).
Definition probe_run (c : Probe) : pre (bool * bytes) :=
  let? o := act (RunProbe c) in
  match o with
  | None => Ret (Err Dropped)
  | Some (Exited success out _) => done (success, out)
  | Some _ => refuse
  end.
Definition catalog (q : CatalogQuery) : pre bytes :=
  let? r := act (Catalog q) in
  match r with None => Ret (Err Dropped) | Some (Ok out) => done out | Some (Err _) => refuse end.

(** ** The binaries and the disk *)
Definition postgres_major_from_bin (bin : bytes) : pre Z :=
  let? out := act (VersionOf bin) in
  let? out := require out in
  let? _ := demand out.1 in
  require (parse_postgres_major out.2).
Definition same_filesystem (a b : Place) : pre bool :=
  let? ma := act (Device a) in
  let? ma := require ma in
  let? mb := act (Device b) in
  let? mb := require mb in
  done (ma =? mb).
Definition REFLINK_SRC : bytes := lit ".pgbattery_reflink_probe_src".
Definition REFLINK_DST : bytes := lit ".pgbattery_reflink_probe_dst".
Definition probe_reflink : pre bool :=
  let? created := act (CreateDir []) in
  let? _ := demand created in
  let? _ := act (RemoveFile [REFLINK_SRC]) in
  let? _ := act (RemoveFile [REFLINK_DST]) in
  let? written := act (WriteFile [REFLINK_SRC] (lit "pgbattery-reflink-probe")) in
  let? _ := demand written in
  let? ok := act (CpReflink [REFLINK_SRC] [REFLINK_DST]) in
  let? _ := act (RemoveFile [REFLINK_SRC]) in
  let? _ := act (RemoveFile [REFLINK_DST]) in
  done ok.
Definition resolve_transfer_mode (requested : TransferMode) (reflink_ok accept_no_rollback : bool) : option TransferMode :=
  match requested with
  | Link => if negb accept_no_rollback then None else Some Link
  | Clone => Some (if reflink_ok then Clone else Copy)
  | Copy => Some Copy
  end.
Definition transfer_mode_headroom_hint (mode : TransferMode) (data_dir_bytes : Z) : Z :=
  match mode with
  | Clone | Link => Z.max (data_dir_bytes / 20) (2 ^ 30)
  | Copy => sat_add_u64 data_dir_bytes (data_dir_bytes / 10)
  end.
Definition filesystem_free_bytes : pre Z :=
  let? out := act DfParent in
  let? out := require out in
  let? _ := demand out.1 in
  let? line := require (lines out.2 !! 1%nat) in
  let? avail := require (split_whitespace line !! 3%nat) in
  let? avail_kb := require (parse_u64 avail) in
  done (Z.min (avail_kb * 1024) u64_max).

(** ** The catalogs *)
Definition list_extensions : pre (list bytes) :=
  let? out := catalog Extensions in
  done (filter (λ s, s ≠ []) (trim <$> lines out)).
Definition pg_config_sharedir (bin : bytes) : pre bytes :=
  let? out := act (SharedirOf bin) in
  let? out := require out in
  let? _ := demand out.1 in
  done (trim out.2).
Fixpoint missing_controls_in_sharedir (sharedir : bytes) (extensions : list bytes) : pre (list bytes) :=
  match extensions with
  | [] => done []
  | ext :: extensions =>
      let? present := act (ControlFile sharedir ext) in
      let? missing := missing_controls_in_sharedir sharedir extensions in
      done (if present : bool then missing else ext :: missing)
  end.
Definition missing_extension_controls (new_bindir : bytes) (extensions : list bytes) : pre (list bytes) :=
  let? sharedir := pg_config_sharedir new_bindir in
  missing_controls_in_sharedir sharedir extensions.
Definition count_collation_mismatches : pre Z :=
  let? out := catalog CollationMismatches in
  require (parse_u64 (trim out)).
Definition refuse_collation_mismatches (count : Z) : bool := negb (0 <? count).

(** ** A backup proved by starting it *)
Definition free_local_port : pre Z := let? p := act FreePort in require p.
Definition initdb_simple (bin : bytes) (rel : list bytes) : pre () :=
  let? out := probe_run (InitdbSimple bin rel) in demand out.1.
Definition start_postgres_temp (bin : bytes) (rel : list bytes) (port : Z) : pre () :=
  let? out := probe_run (StartTemp bin rel port [lit "listen_addresses"]) in demand out.1.
(** Its outcome is dropped. *)
Definition stop_postgres_temp (bin : bytes) (rel : list bytes) : pre () :=
  let? o := act (RunProbe (StopTemp bin rel)) in
  match o with None => Ret (Err Dropped) | Some _ => done tt end.

Section Proofs.
Context (fmt : Z → bytes) (parse_ts : bytes → option Z) (depth : nat).

Definition SCRATCH : list bytes := [lit "backup_proof"].
Definition SCRATCH_DATA : list bytes := [lit "backup_proof"; lit "data"].
Definition DUMP_SQL : list bytes := [lit "backup_proof"; lit "dump.sql"].
Definition is_gz (p : Backup.Path) : bool :=
  match Backup.file_name p ≫= extension with Some e => eq_ignore_ascii_case e (lit "gz") | None => false end.
Definition prove_dump_restore (bindir : bytes) (dump_path : Backup.Path) : pre () :=
  let? _ := initdb_simple bindir SCRATCH_DATA in
  let? port := free_local_port in
  let? _ := start_postgres_temp bindir SCRATCH_DATA port in
  let? restored :=
    if is_gz dump_path then
      let? gunzip := probe_run (Gunzip dump_path) in
      let? _ := demand gunzip.1 in
      let? written := act (WriteFile DUMP_SQL gunzip.2) in
      let? _ := demand written in
      probe_run (PsqlFrom bindir port (FromWork DUMP_SQL))
    else probe_run (PsqlFrom bindir port (FromBackup dump_path)) in
  if negb restored.1 then let? _ := stop_postgres_temp bindir SCRATCH_DATA in refuse
  else
    let? write := probe_run (PsqlWrite bindir port) in
    let? _ := stop_postgres_temp bindir SCRATCH_DATA in
    demand write.1.

Inductive BackupProof := RestoredAndStarted | ExistenceOnly.
Definition bk (q : Backup.SysReq) : pre (Backup.SysAnswer q) := act (Bk (Backup.Sys q)).
Fixpoint copy_dir (depth : nat) (src : Backup.Path) (dst : list bytes) : pre () :=
  match depth with
  | O => Ret (Err OutOfRounds)
  | S depth =>
      let? created := act (CreateDir dst) in
      let? _ := demand created in
      let? entries := bk (Backup.ReadDir src) in
      match entries with
      | Err _ => refuse
      | Ok entries =>
          (fix each (es : list (result () bytes)) : pre () :=
             match es with
             | [] => done tt
             | Err _ :: _ => refuse
             | Ok name :: es =>
                 let? ty := bk (Backup.Lstat (Backup.under src [name])) in
                 match ty with
                 | Err _ => refuse
                 | Ok Backup.IsDir =>
                     let? _ := copy_dir depth (Backup.under src [name]) (dst ++ [name]) in each es
                 | Ok _ =>
                     let? copied := act (CopyFile (Backup.under src [name]) (dst ++ [name])) in
                     let? _ := demand copied in each es
                 end
             end) entries
      end
  end.
Definition copy_dir_recursive (src : Backup.Path) (dst : list bytes) : pre () := copy_dir depth src dst.
Definition prove_full_backup_start (bindir : bytes) (backup_path : Backup.Path) : pre BackupProof :=
  let? is_dir := bk (Backup.PathIsDir backup_path) in
  let? has_version := if is_dir : bool then bk (Backup.PathExists (Backup.under backup_path [lit "PG_VERSION"])) else done false in
  if has_version : bool then
    let? _ := copy_dir_recursive backup_path SCRATCH_DATA in
    let? _ := act (RemoveFile (SCRATCH_DATA ++ [lit "standby.signal"])) in
    let? port := free_local_port in
    let? _ := start_postgres_temp bindir SCRATCH_DATA port in
    let? write := probe_run (PsqlSelect bindir port) in
    let? _ := stop_postgres_temp bindir SCRATCH_DATA in
    let? _ := demand write.1 in
    done RestoredAndStarted
  else
    let? exists_ := bk (Backup.PathExists backup_path) in
    let? _ := demand exists_ in
    done ExistenceOnly.
Definition prove_backup_restore_and_start (mgr : Backup.BackupManager) (old_bindir : bytes) : pre () :=
  let? created := on_backup (Backup.create_backup fmt parse_ts mgr) in
  let? scratch := act (CreateDir SCRATCH) in
  let? _ := demand scratch in
  let path := Backup.info_path created in
  match Backup.info_type created with
  | Backup.Dump => prove_dump_restore old_bindir path
  | Backup.Full =>
      let? exists_ := bk (Backup.PathExists path) in
      let? _ := demand exists_ in
      let? verify := act (VerifyBackupIsFile old_bindir) in
      let? verify := if verify : bool then bk (Backup.PathIsDir path) else done false in
      let? _ := if verify : bool then let? out := probe_run (VerifyBackup old_bindir path) in demand out.1 else done tt in
      let? _ := prove_full_backup_start old_bindir path in
      done tt
  end.

(** ** The check on a copy *)
Definition CHECK_OLD : list bytes := [lit "check_old"].
Definition CHECK_NEW : list bytes := [lit "check_new"].
Definition run_pg_upgrade_check (old_bindir new_bindir live_data : bytes) (initdb : InitdbParams) (mode : TransferMode) : pre () :=
  let? port := on_node (read_postmaster_port live_data) in
  let? out := probe_run (Basebackup old_bindir port CHECK_OLD) in
  let? _ := demand out.1 in
  let? _ := act (RemoveFile (CHECK_OLD ++ [lit "standby.signal"])) in
  let? check_port := free_local_port in
  let? sockets := act (CreateDir [lit "check_sockets"]) in
  let? _ := demand sockets in
  let? start := probe_run (StartTemp old_bindir CHECK_OLD check_port [lit "listen_addresses"; lit "unix_socket_directories"]) in
  let? _ := demand start.1 in
  let? stop := probe_run (StopTemp old_bindir CHECK_OLD) in
  let? _ := demand stop.1 in
  let? out := probe_run (InitdbLike new_bindir CHECK_NEW initdb) in
  let? _ := demand out.1 in
  let? out := probe_run (UpgradeCheck old_bindir new_bindir CHECK_OLD CHECK_NEW mode) in
  demand out.1.

(** ** The preflight *)
Record PreflightRequest := PreflightRequest_ {
  to_major : Z;
  requested_mode : bytes;
  allow_no_backup : bool;
  accept_no_rollback : bool;
  accept_write_loss : bool;
}.
Record Report := Report_ { report_from : Z; report_to : Z; resolved : TransferMode; reflink : bool; extensions_ok : nat }.
Definition run_local_preflight (n : Node) (active_bin_dir data : bytes) (bin_dirs : gmap bytes bytes)
    (wal_archive_dir : option bytes) (backup_manager : option Backup.BackupManager) (req : PreflightRequest) : pre Report :=
  let to := to_major req in
  let? from := on_node (data_dir_major data) in
  let? _ := demand (negb (to <=? from)) in
  let? _ := demand (to =? (from + 1) mod 2 ^ 32) in
  let old_bindir := default active_bin_dir (bin_dirs !! show_u64 from) in
  let? new_bindir := require (bin_dirs !! show_u64 to) in
  let? active_major := postgres_major_from_bin active_bin_dir in
  let? _ := demand (active_major =? from) in
  let? new_reported := postgres_major_from_bin new_bindir in
  let? _ := demand (new_reported =? to) in
  let wal_archiving := match wal_archive_dir with Some p => negb (bool_decide (p = [])) | None => false end in
  let? _ := demand (wal_archiving || accept_write_loss req) in
  let? _ := demand (negb (accept_no_rollback req && allow_no_backup req)) in
  let? requested := on_node (need_ok (TransferMode_parse (requested_mode req))) in
  let? _ := demand (negb (bool_decide (requested = Link) && negb (accept_no_rollback req))) in
  let? _ := act RemoveWork in
  let? created := act (CreateDir []) in
  let? _ := demand created in
  let? same_fs := same_filesystem Live (Work []) in
  let? _ := demand (same_fs || bool_decide (requested = Copy)) in
  let? reflink_ok := probe_reflink in
  let? transfer_mode := require (resolve_transfer_mode requested reflink_ok (accept_no_rollback req)) in
  let? data_bytes := on_node (dir_size_approx data) in
  let need := transfer_mode_headroom_hint transfer_mode data_bytes in
  let? free := filesystem_free_bytes in
  let? _ := demand (negb (free <? need)) in
  let? recovery := catalog InRecovery in
  let? _ := demand (negb (eq_ignore_ascii_case (trim recovery) (lit "t"))) in
  let? extensions := list_extensions in
  let? missing := missing_extension_controls new_bindir extensions in
  let? _ := demand (bool_decide (missing = [])) in
  let? mismatches := count_collation_mismatches in
  let? _ := demand (refuse_collation_mismatches mismatches) in
  let? initdb := on_node (let* r := collect_initdb_params old_bindir data n in Ret r.2) in
  let? _ :=
    if allow_no_backup req then done tt
    else
      let? mgr := require backup_manager in
      prove_backup_restore_and_start mgr old_bindir in
  let? _ := run_pg_upgrade_check old_bindir new_bindir data initdb transfer_mode in
  let? _ := act RemoveWork in
  done (Report_ from to transfer_mode reflink_ok (length extensions)).

(** ** Its endpoint *)
Definition postgres_upgrade_preflight (state : UpgradeApi.ManagementApiState) (backup_manager : option Backup.BackupManager)
    (body : PreflightRequest) : prog Answer (UpgradeApi.Response (option Report)) :=
  let api {A} (c : UpgradeApi.StatusCode) (a : A) : prog Answer (UpgradeApi.Response A) := Ret (Ok (c, a)) in
  let* paths := ask (Api UpgradeApi.GetPaths) in
  match paths : option UpgradeApi.PgPaths with
  | None => api UpgradeApi.BAD_REQUEST None
  | Some paths =>
      if negb (UpgradeApi.has_postgres_manager state) then api UpgradeApi.BAD_REQUEST None
      else
        let* lock := ask (Api UpgradeApi.TryUpgradeLock) in
        if negb (lock : bool) then api UpgradeApi.CONFLICT None
        else
          let* guard := ask (Api UpgradeApi.LockSupervisor) in
          match guard : option Node with
          | None => Ret (Err Dropped)
          | Some n =>
              let* r := run_local_preflight n (bin_dir (UpgradeApi.at_ paths)) (data_dir (UpgradeApi.at_ paths))
                          (UpgradeApi.bin_dirs paths) (UpgradeApi.wal_archive_dir paths) backup_manager body in
              let* response :=
                match r with
                | Ok report => api UpgradeApi.OK (Some report)
                | Err Failed => api UpgradeApi.BAD_REQUEST None
                | Err e => Ret (Err e)
                end in
              let* _ := ask (Api (UpgradeApi.UnlockSupervisor n)) in
              Ret response
          end
  end.
End Proofs.
