(* ===== verification/UpgradePreflightProofs.v ===== *)
(** * What a passed preflight has seen *)

From S2P Require Import Prelude Effects Text PgFiles Upgrade UpgradePreflight.
From S2P Require Standby Backup UpgradeApi.
From Stdlib Require Import Strings.Byte.

Abbreviation hist := (list (@event Req Answer)).
Abbreviation ev q r := (answered (R := Answer) q r).
Abbreviation saw := (Effects.saw (R := Answer)).

(** ** Runs that answer *)
Lemma passed_act q t r : runs (act q) t (Ok r) → t = [ev q r].
Proof. by intros (r' & t' & -> & -> & [= ->]). Qed.
Lemma passed_demand b t u : runs (demand b) t (Ok u) → b = true ∧ t = [].
Proof. destruct b; by intros [-> [=]]. Qed.
Lemma passed_require {A} (x : option A) t a : runs (require x) t (Ok a) → x = Some a ∧ t = [].
Proof. destruct x; [by intros [-> [= ->]]|by intros [_ [=]]]. Qed.
Lemma passed_done {A} (a : A) t b : runs (done a) t (Ok b) → a = b ∧ t = [].
Proof. by intros [-> [= ->]]. Qed.
Lemma passed_refuse {A} t (b : A) : ¬ runs refuse t (Ok b).
Proof. by intros [_ [=]]. Qed.
Lemma passed_probe c t o : runs (probe_run c) t (Ok o) → ∃ err, t = [ev (RunProbe c) (Some (Exited o.1 o.2 err))].
Proof.
  intros (t1 & t2 & a & -> & ->%passed_act & H)%runs_try_ok.
  destruct a as [[| |b out err]|]; try by destruct H as [_ [=]].
  destruct H as [-> [= ->]]. by exists err.
Qed.
Lemma passed_catalog q t out : runs (catalog q) t (Ok out) → t = [ev (Catalog q) (Some (Ok out))].
Proof.
  intros (t1 & t2 & a & -> & ->%passed_act & H)%runs_try_ok.
  destruct a as [[a|]|]; try by destruct H as [_ [=]]. by destruct H as [-> [= ->]].
Qed.

(** Down a run that answers, one step at a time. *)
Ltac passed :=
  repeat match goal with
  | H : runs (let _ := _ in _) _ (Ok _) |- _ => cbv zeta in H
  | H : runs (try_bind _ _) _ (Ok _) |- _ =>
      let H1 := fresh "R" in
      apply runs_try_ok in H as (? & ? & ? & -> & H1 & H)
  | H : runs (act _) _ (Ok _) |- _ => apply passed_act in H as ->
  | H : runs (demand _) _ (Ok _) |- _ => apply passed_demand in H as [? ->]
  | H : runs (require _) _ (Ok _) |- _ => apply passed_require in H as [? ->]
  | H : runs (done _) _ (Ok _) |- _ => apply passed_done in H as [? ->]
  | H : runs refuse _ (Ok _) |- _ => by apply passed_refuse in H
  | H : runs (probe_run _) _ (Ok _) |- _ => apply passed_probe in H as [? ->]
  | H : runs (catalog _) _ (Ok _) |- _ => apply passed_catalog in H as ->
  | H : runs (if ?b then _ else _) _ (Ok _) |- _ =>
      lazymatch b with allow_no_backup _ => fail | _ => destruct b eqn:? end
  end; subst.
Ltac exits := repeat match goal with x : bool * bytes |- _ => destruct x as [? ?] end; cbn [fst snd] in *; subst.
(** Among what was seen. *)
Ltac seen :=
  first [eassumption | apply saw_one | apply saw_app_l; seen | apply saw_app_r; seen].

(** A part of the run that answered [a]. *)
Definition ran {A} (p : pre A) (a : A) (t : hist) : Prop := ∃ t1 tb t2, t = t1 ++ tb ++ t2 ∧ runs p tb (Ok a).
Lemma ran_self {A} (p : pre A) a t : runs p t (Ok a) → ran p a t.
Proof. intros H. exists [], t, []. by rewrite app_nil_r. Qed.
Lemma ran_app_l {A} (p : pre A) a t t' : ran p a t → ran p a (t ++ t').
Proof. intros (t1 & tb & t2 & -> & H). exists t1, tb, (t2 ++ t'). by rewrite <-!app_assoc. Qed.
Lemma ran_app_r {A} (p : pre A) a t t' : ran p a t → ran p a (t' ++ t).
Proof. intros (t1 & tb & t2 & -> & H). exists (t' ++ t1), tb, t2. by rewrite <-!app_assoc. Qed.
#[local] Hint Resolve ran_self : core.
(** Among what the parts of the run have shown. *)
Ltac shown :=
  repeat first
    [ eassumption
    | apply ran_self; eassumption
    | apply saw_app_l; eassumption
    | apply ran_app_l; first [eassumption | apply ran_self; eassumption]
    | apply saw_app_r
    | apply ran_app_r ].

Lemma reported_major bin t m : runs (postgres_major_from_bin bin) t (Ok m) →
  saw t (VersionOf bin) (λ o, ∃ out, o = Some (true, out) ∧ parse_postgres_major out = Some m).
Proof.
  unfold postgres_major_from_bin. intros H. passed.
  exits. seen. eauto.
Qed.
Lemma on_one_filesystem a b t same : runs (same_filesystem a b) t (Ok same) → same = true →
  ∃ d, saw t (Device a) (λ o, o = Some d) ∧ saw t (Device b) (λ o, o = Some d).
Proof.
  unfold same_filesystem. intros H Hs. passed. subst. apply Z.eqb_eq in Hs as ->. eexists. split; by seen.
Qed.

(** ** The gates *)
Section Gates.
Context (fmt : Z → bytes) (parse_ts : bytes → option Z) (depth : nat).
Definition succeeded (o : option Output) : Prop := ∃ out err, o = Some (Exited true out err).
(** A server started under [bindir] from what was in the backup, and asked something. *)
Definition proved_by_starting (bindir : bytes) (asked : Z → Probe) (t : hist) : Prop :=
  ∃ port, saw t (RunProbe (StartTemp bindir SCRATCH_DATA port [lit "listen_addresses"])) succeeded ∧
          saw t (RunProbe (asked port)) succeeded.
Definition proved_backup (bindir : bytes) (info : Backup.BackupInfo) (t : hist) : Prop :=
  let path := Backup.info_path info in
  match Backup.info_type info with
  | Backup.Dump =>
      proved_by_starting bindir (PsqlWrite bindir) t ∧
      ∃ port s, saw t (RunProbe (PsqlFrom bindir port s)) succeeded
  | Backup.Full =>
      proved_by_starting bindir (PsqlSelect bindir) t ∨
      saw t (Bk (Backup.Sys (Backup.PathIsDir path))) (λ b, b = false) ∨
      saw t (Bk (Backup.Sys (Backup.PathExists (Backup.under path [lit "PG_VERSION"])))) (λ b, b = false)
  end.
Lemma proved_app_l bindir asked t1 t2 : proved_by_starting bindir asked t1 → proved_by_starting bindir asked (t1 ++ t2).
Proof. intros (port & H1 & H2). exists port. split; by apply saw_app_l. Qed.
Lemma proved_app_r bindir asked t1 t2 : proved_by_starting bindir asked t2 → proved_by_starting bindir asked (t1 ++ t2).
Proof. intros (port & H1 & H2). exists port. split; by apply saw_app_r. Qed.

Lemma ran_well (o : bool * bytes) err : o.1 = true → succeeded (Some (Exited o.1 o.2 err)).
Proof. intros ->. by eexists _, _. Qed.
#[local] Hint Resolve ran_well : core.
Lemma dump_proved bindir path t u : runs (prove_dump_restore bindir path) t (Ok u) →
  proved_by_starting bindir (PsqlWrite bindir) t ∧ ∃ port s, saw t (RunProbe (PsqlFrom bindir port s)) succeeded.
Proof.
  unfold prove_dump_restore, start_postgres_temp. intros H. passed.
  all: repeat match goal with H : negb _ = false |- _ => apply negb_false_iff in H end.
  all: split; [eexists; split; seen; eauto|eexists _, _; seen; eauto].
Qed.

Lemma full_proved bindir path t r : runs (prove_full_backup_start depth bindir path) t (Ok r) →
  proved_by_starting bindir (PsqlSelect bindir) t ∨
  saw t (Bk (Backup.Sys (Backup.PathIsDir path))) (λ b, b = false) ∨
  saw t (Bk (Backup.Sys (Backup.PathExists (Backup.under path [lit "PG_VERSION"])))) (λ b, b = false).
Proof.
  unfold prove_full_backup_start, start_postgres_temp, bk. intros H.
  apply runs_try_ok in H as (? & ? & [] & -> & ->%passed_act & H); [|right; left; by seen].
  apply runs_try_ok in H as (? & ? & [] & -> & ->%passed_act & H); [|right; right; by seen].
  passed. left. eexists. split; seen; eauto.
Qed.
Lemma backup_proved mgr bindir t u : runs (prove_backup_restore_and_start fmt parse_ts depth mgr bindir) t (Ok u) →
  ∃ info, ran (on_backup (Backup.create_backup fmt parse_ts mgr)) info t ∧ proved_backup bindir info t.
Proof.
  unfold prove_backup_restore_and_start, bk. intros H. passed; eexists; (split; [by shown|]).
  all: unfold proved_backup;
    match goal with E : Backup.info_type _ = _ |- _ => rewrite E end;
    match goal with
    | R : runs (prove_full_backup_start _ _ _) _ _ |- _ =>
        apply full_proved in R; destruct_or! R; [left|right; left|right; right]
    | R : runs (prove_dump_restore _ _) _ _ |- _ =>
        apply dump_proved in R as [R (port & s & Hs)]; split; [|exists port, s]
    end.
  all: repeat first [apply proved_app_l; eassumption | apply saw_app_l; eassumption | apply proved_app_r | apply saw_app_r]; eassumption.
Qed.
Lemma proved_backup_app_l bindir info t1 t2 : proved_backup bindir info t1 → proved_backup bindir info (t1 ++ t2).
Proof.
  unfold proved_backup. destruct (Backup.info_type _).
  - intros [H|[H|H]]; [left; by apply proved_app_l|right; left|right; right]; by apply saw_app_l.
  - intros [H (port & s & Hs)]. split; [by apply proved_app_l|exists port, s; by apply saw_app_l].
Qed.
Lemma proved_backup_app_r bindir info t1 t2 : proved_backup bindir info t2 → proved_backup bindir info (t1 ++ t2).
Proof.
  unfold proved_backup. destruct (Backup.info_type _).
  - intros [H|[H|H]]; [left; by apply proved_app_r|right; left|right; right]; by apply saw_app_r.
  - intros [H (port & s & Hs)]. split; [by apply proved_app_r|exists port, s; by apply saw_app_r].
Qed.
Lemma check_ran old_bindir new_bindir live initdb mode t u :
  runs (run_pg_upgrade_check old_bindir new_bindir live initdb mode) t (Ok u) →
  saw t (RunProbe (UpgradeCheck old_bindir new_bindir CHECK_OLD CHECK_NEW mode)) succeeded.
Proof. unfold run_pg_upgrade_check. intros H. passed. seen; eauto. Qed.
Lemma controls_present sharedir extensions t missing : runs (missing_controls_in_sharedir sharedir extensions) t (Ok missing) →
  missing = [] → Forall (λ ext, saw t (ControlFile sharedir ext) (λ b, b = true)) extensions.
Proof.
  revert t missing. induction extensions as [|ext extensions IH]; intros t missing H Hm; [done|]. cbn [missing_controls_in_sharedir] in H.
  apply runs_try_ok in H as (? & ? & b & -> & ->%passed_act & H).
  apply runs_try_ok in H as (? & ? & rest & -> & R & H). apply passed_done in H as [<- ->].
  destruct b; [|done]. subst. constructor; [by seen|]. eapply Forall_impl; [by eapply IH|]. intros e He. by seen.
Qed.
Lemma extensions_present bindir extensions t : runs (missing_extension_controls bindir extensions) t (Ok []) →
  ∃ sharedir, saw t (SharedirOf bindir) (λ o, ∃ out, o = Some (true, out) ∧ sharedir = trim out) ∧
  Forall (λ ext, saw t (ControlFile sharedir ext) (λ b, b = true)) extensions.
Proof.
  unfold missing_extension_controls, pg_config_sharedir. intros H. passed.
  exits. eexists. split; [seen; eauto|].
  eapply Forall_impl; [by eapply controls_present|]. intros e He. by seen.
Qed.
Lemma room_for need_ t free : runs filesystem_free_bytes t (Ok free) → need_ ≤ free →
  saw t DfParent (λ o, ∃ out line avail kb, o = Some (true, out) ∧ lines out !! 1%nat = Some line ∧
    split_whitespace line !! 3%nat = Some avail ∧ parse_u64 avail = Some kb ∧ need_ ≤ kb * 1024).
Proof.
  unfold filesystem_free_bytes. intros H Hn. passed.
  exits. seen.
  eexists _, _, _, _. repeat split; [eassumption..|]. lia.
Qed.
Lemma mode_resolved requested reflink accept mode : resolve_transfer_mode requested reflink accept = Some mode →
  (mode = Link → accept = true) ∧ (mode = Clone → reflink = true) ∧ (requested = Copy → mode = Copy).
Proof. destruct requested, reflink, accept; by intros [= <-]. Qed.
Lemma archived_or_accepted (dir : option bytes) (accepted : bool) :
  match dir with Some p => negb (bool_decide (p = [])) | None => false end || accepted = true →
  (∃ p, dir = Some p ∧ p ≠ []) ∨ accepted = true.
Proof.
  intros [H|H]%orb_true_iff; [left|by right]. destruct dir as [p|]; [|done].
  exists p. split; [done|]. by apply negb_true_iff, bool_decide_eq_false in H.
Qed.
Lemma not_both (a b : bool) : negb (a && b) = true → ¬ (a = true ∧ b = true).
Proof. by destruct a, b; intros ? [].  Qed.
End Gates.

(** ** The preflight *)
Section Preflight.
Context (fmt : Z → bytes) (parse_ts : bytes → option Z) (depth : nat).
Context (n : Node) (active_bin_dir data : bytes) (bin_dirs : gmap bytes bytes) (wal_archive_dir : option bytes).
Context (backups : option Backup.BackupManager) (req : PreflightRequest).

Definition says (t : hist) (bin : bytes) (m : Z) : Prop :=
  saw t (VersionOf bin) (λ o, ∃ out, o = Some (true, out) ∧ parse_postgres_major out = Some m).
Record Passed (report : Report) (t : hist) : Prop := Passed_ {
  gate_majors :
    ran (on_node (data_dir_major data)) (report_from report) t ∧
    report_from report < to_major req ∧ to_major req = (report_from report + 1) mod 2 ^ 32;
  gate_consent :
    ((∃ dir, wal_archive_dir = Some dir ∧ dir ≠ []) ∨ accept_write_loss req = true) ∧
    ¬ (accept_no_rollback req = true ∧ allow_no_backup req = true) ∧
    (resolved report = Link → accept_no_rollback req = true);
  gate_disk :
    (resolved report = Copy ∨ ∃ d, saw t (Device Live) (λ o, o = Some d) ∧ saw t (Device (Work [])) (λ o, o = Some d)) ∧
    (resolved report = Clone → ran probe_reflink true t) ∧
    ∃ size, ran (on_node (dir_size_approx data)) size t ∧
      saw t DfParent (λ o, ∃ out line avail kb, o = Some (true, out) ∧ lines out !! 1%nat = Some line ∧
        split_whitespace line !! 3%nat = Some avail ∧ parse_u64 avail = Some kb ∧
        transfer_mode_headroom_hint (resolved report) size ≤ kb * 1024);
  gate_catalog :
    saw t (Catalog InRecovery) (λ o, ∃ out, o = Some (Ok out) ∧ eq_ignore_ascii_case (trim out) (lit "t") = false) ∧
    saw t (Catalog CollationMismatches) (λ o, ∃ out m, o = Some (Ok out) ∧ parse_u64 (trim out) = Some m ∧ m ≤ 0);
  gate_binaries : ∃ new_bindir,
    let old_bindir := default active_bin_dir (bin_dirs !! show_u64 (report_from report)) in
    bin_dirs !! show_u64 (to_major req) = Some new_bindir ∧
    says t active_bin_dir (report_from report) ∧ says t new_bindir (to_major req) ∧
    (∃ sharedir extensions, saw t (SharedirOf new_bindir) (λ o, ∃ out, o = Some (true, out) ∧ sharedir = trim out) ∧
      ran list_extensions extensions t ∧ Forall (λ ext, saw t (ControlFile sharedir ext) (λ b, b = true)) extensions) ∧
    (allow_no_backup req = true ∨ ∃ mgr info, backups = Some mgr ∧
      ran (on_backup (Backup.create_backup fmt parse_ts mgr)) info t ∧ proved_backup old_bindir info t) ∧
    saw t (RunProbe (UpgradeCheck old_bindir new_bindir CHECK_OLD CHECK_NEW (resolved report))) succeeded;
}.

Lemma no_mismatch t m : runs count_collation_mismatches t (Ok m) → refuse_collation_mismatches m = true →
  saw t (Catalog CollationMismatches) (λ o, ∃ out m, o = Some (Ok out) ∧ parse_u64 (trim out) = Some m ∧ m ≤ 0).
Proof.
  unfold count_collation_mismatches, refuse_collation_mismatches. intros H Hm%negb_true_iff%Z.ltb_ge. passed. seen. eauto.
Qed.
Lemma backup_or_waived old_bindir t u :
  runs (if allow_no_backup req then done tt
        else let? mgr := require backups in prove_backup_restore_and_start fmt parse_ts depth mgr old_bindir) t (Ok u) →
  allow_no_backup req = true ∨ ∃ mgr info, backups = Some mgr ∧
    ran (on_backup (Backup.create_backup fmt parse_ts mgr)) info t ∧ proved_backup old_bindir info t.
Proof.
  destruct (allow_no_backup req); [by left|]. intros H. passed. right.
  apply backup_proved in H as (info & H). by eexists _, info.
Qed.
(** The conditions as propositions. *)
Ltac conditions :=
  repeat match goal with
  | H : negb _ = true |- _ => apply negb_true_iff in H
  | H : (_ && _) = false |- _ => apply andb_false_iff in H
  | H : (_ || _) = true |- _ => apply orb_true_iff in H
  | H : (_ <=? _) = false |- _ => apply Z.leb_gt in H
  | H : (_ <? _) = false |- _ => apply Z.ltb_ge in H
  | H : (_ =? _) = true |- _ => apply Z.eqb_eq in H
  | H : bool_decide _ = true |- _ => apply bool_decide_eq_true in H
  end; subst.
(** What each part of the run has shown. *)
Ltac learn :=
  repeat match goal with
  | R : runs (postgres_major_from_bin _) _ _ |- _ => apply reported_major in R
  | R : runs (same_filesystem _ _) _ _ |- _ => pose proof (on_one_filesystem _ _ _ _ R); clear R
  | R : runs filesystem_free_bytes _ _, L : _ ≤ _ |- _ => apply (room_for _ _ _ R) in L; clear R
  | R : runs (missing_extension_controls _ _) _ _ |- _ => apply extensions_present in R as (sharedir & ? & ?)
  | R : runs count_collation_mismatches _ _, L : refuse_collation_mismatches _ = true |- _ => apply (no_mismatch _ _ R) in L; clear R
  | R : runs (if allow_no_backup _ then _ else _) _ _ |- _ => apply backup_or_waived in R
  | R : runs (run_pg_upgrade_check _ _ _ _ _) _ _ |- _ => apply check_ran in R
  | R : resolve_transfer_mode _ _ _ = _ |- _ => apply mode_resolved in R as (? & ? & ?)
  | R : _ || accept_write_loss _ = true |- _ => apply archived_or_accepted in R
  | R : negb (accept_no_rollback _ && allow_no_backup _) = true |- _ => apply not_both in R
  end.

(** A preflight that passes has seen every gate it names: the next major and its
    binaries reporting it; the write loss or a WAL archive, and a way back, consented
    to; one filesystem, a working reflink for clone and the mode's room; a primary whose
    databases have no collation mismatch and whose extensions the new binaries carry; a
    backup made and started under the old binaries, unless waived; and [pg_upgrade
    --check] succeeding in the mode it reports. *)
Lemma a_passed_preflight_saw_every_gate t report :
  runs (run_local_preflight fmt parse_ts depth n active_bin_dir data bin_dirs wal_archive_dir backups req) t (Ok report) →
  Passed report t.
Proof.
  unfold run_local_preflight. intros H.
  passed.
  learn. conditions. learn. constructor; cbn [report_from report_to resolved].
  - split; [by shown|done].
  - by split_and!.
  - split_and!.
    + match goal with H : _ ∨ bool_decide (_ = Copy) = true |- _ => destruct H as [H | H%bool_decide_eq_true] end; [right|left; auto].
      match goal with H : _ → ∃ d, _ |- _ => destruct H as (d & ? & ?); [done|] end. exists d. split; by shown.
    + intros Hc. match goal with H : _ = Clone → _ |- _ => specialize (H Hc); subst end. by shown.
    + match goal with R : runs (on_node (dir_size_approx _)) _ (Ok ?s) |- _ => exists s end. split; by shown.
  - split; [|by shown]. seen. eauto.
  - eexists. cbv zeta. split_and!; [done|unfold says; by shown..| | |by shown].
    + eexists _, _. split_and!; [by shown..|]. eapply Forall_impl; [eassumption|]. intros e He. by shown.
    + match goal with H : allow_no_backup _ = true ∨ _ |- _ => destruct H as [H|(mgr & info & ? & ? & ?)] end; [by left|right].
      exists mgr, info. split_and!; [done|by shown|].
      repeat first [apply proved_backup_app_l; eassumption | apply proved_backup_app_r]; eassumption.
Qed.
End Preflight.

(** A dry run: PostgreSQL 17 to 18 by clone, the backup a dump. *)
Module DryRun.
Definition data := lit "data".
Definition old := lit "/usr/lib/postgresql/17/bin".
Definition new := lit "/usr/lib/postgresql/18/bin".
Definition bins : gmap bytes bytes := {[ lit "17" := old; lit "18" := new ]}.
Definition req := PreflightRequest_ 18 (lit "clone") false false true.
Definition backups := Backup.BackupManager_ (Backup.BackupConfig_ true 3 Backup.Dump false) (Some data) true.
Definition fmt (at_ : Z) : bytes := lit "20260101_000000".
Definition parse_ts (ts : bytes) : option Z := Some 0.
Definition line2 : bytes := [x0a].
Definition local_sys (q : Upgrade.SysReq) : option (Upgrade.SysAnswer q) :=
  match q with
  | ReadVersion _ => Some (Some (lit "17"))
  | Measure _ => Some (Some (ADir (Some [Some (AFile (Some 4096))])))
  | ReadPidFile _ => Some (Some (lit "1" ++ line2 ++ lit "data" ++ line2 ++ lit "0" ++ line2 ++ lit "5432"))
  | _ => None
  end.
Definition local_await (q : Upgrade.AwaitReq) : option (option (Upgrade.AwaitAnswer q)) :=
  match q with
  | Run (PgControldata _ _) => Some (Some (Exited true (lit "Data page checksum version: 1") []))
  | Query _ _ => Some (Some (Ok (lit "UTF8|C|C|c|")))
  | _ => None
  end.
Definition backup_sys (q : Backup.SysReq) : option (Backup.SysAnswer q) :=
  match q with
  | Backup.LocalNow => Some 0
  | Backup.ReadDir _ => Some (Ok [])
  | Backup.FileLen _ => Some (Some 1)
  | Backup.CreateDirAll _ | Backup.PathExists _ | Backup.PathIsFile _ | Backup.CreateFile _ | Backup.SetMode _ _
  | Backup.OpenRead _ | Backup.CopyInto _ _ | Backup.Flush _ | Backup.SyncFile _ | Backup.FsyncDir _ | Backup.Rename _ _ => Some true
  | Backup.SpawnBlocking => Some false
  | _ => None
  end.
Definition backup_await (q : Backup.AwaitReq) : option (option (Backup.AwaitAnswer q)) :=
  match q with
  | Backup.LockOp => Some (Some tt)
  | Backup.Run _ => Some (Some (Backup.Output_ (Some 0) (lit "0")))
  | _ => None
  end.
Definition answers (q : Req) : option (Answer q) :=
  match q with
  | RemoveWork | RemoveFile _ => Some tt
  | CreateDir _ | WriteFile _ _ | CopyFile _ _ | CpReflink _ _ | ControlFile _ _ => Some true
  | Device _ => Some (Some 1)
  | FreePort => Some (Some 50001)
  | DfParent => Some (Some (true, lit "Filesystem 1K-blocks Used Available" ++ line2 ++ lit "/dev/sda 9 1 80000000"))
  | VersionOf bin => Some (Some (true, lit "postgres (PostgreSQL) " ++ (if bool_decide (bin = old) then lit "17.5" else lit "18.0")))
  | SharedirOf _ => Some (Some (true, lit "/usr/share/postgresql/18"))
  | RunProbe _ => Some (Some (Exited true [] []))
  | Catalog q => Some (Some (Ok (match q with InRecovery => lit "f" | Extensions => lit "plpgsql" | CollationMismatches => lit "0" end)))
  | Local (Sys q) => local_sys q
  | Local (Await q) => local_await q
  | Bk (Backup.Sys q) => backup_sys q
  | Bk (Backup.Await q) => backup_await q
  | _ => None
  end.
Definition node := Node_ Standby.Supervisor_new (Home_ old data).
Definition preflight := run_local_preflight fmt parse_ts 3 node old data bins None (Some backups) req.
Definition run := drive answers preflight.
Definition trace : hist := match run with Some (t, _) => t | None => [] end.
Definition report := Report_ 17 18 Clone true 1.
Lemma passes : run = Some (trace, Ok report).
Proof. vm_compute. reflexivity. Qed.
End DryRun.
Lemma a_passed_preflight_saw_every_gate_witness :
  Passed DryRun.fmt DryRun.parse_ts DryRun.old DryRun.data DryRun.bins None (Some DryRun.backups) DryRun.req DryRun.report DryRun.trace.
Proof.
  apply (a_passed_preflight_saw_every_gate DryRun.fmt DryRun.parse_ts 3 DryRun.node), (drive_runs DryRun.answers), DryRun.passes.
Defined.

(** A dump that does not unzip ends the proof with its server still running: the early
    return is past the start and before the stop. *)
Module LeftRunning.
Definition answers (q : Req) : option (Answer q) :=
  match q with RunProbe (Gunzip _) => Some (Some (Exited false [] [])) | q => DryRun.answers q end.
Definition dump := Backup.Backups [lit "dump_20260101_000000.sql.gz"].
Definition trace : hist := match drive answers (prove_dump_restore DryRun.old dump) with Some (t, _) => t | None => [] end.
Definition stops (e : @event Req Answer) : bool := match projT1 e with RunProbe (StopTemp _ _) => true | _ => false end.
End LeftRunning.
Lemma a_failed_gunzip_leaves_its_server :
  runs (prove_dump_restore DryRun.old LeftRunning.dump) LeftRunning.trace (Err Failed) ∧
  saw LeftRunning.trace (RunProbe (StartTemp DryRun.old SCRATCH_DATA 50001 [lit "listen_addresses"])) succeeded ∧
  existsb LeftRunning.stops LeftRunning.trace = false.
Proof.
  split; [apply (drive_runs LeftRunning.answers); vm_compute; reflexivity|]. split; [|vm_compute; reflexivity].
  exists (Some (Exited true [] [])). split; [|by eexists _, _]. right. right. left.
Qed.
