(* ===== verification/UpgradeLogic.v ===== *)
(** * Reasoning about the upgrade's operations

    [spec ok h n m Q] as in [StandbyLogic], over a node.  [keeps P m]: the operation
    asks only what [P] allows and leaves the node as it was. *)

From S2P Require Import Prelude Effects Text PgFiles Upgrade.
From S2P Require Standby.

Abbreviation hist := (list (@event Req Answer)).
Abbreviation ev q r := (answered (R := Answer) q r).
Abbreviation saw := (Effects.saw (R := Answer)).

(** The supervisor's part of a run, on the paths it had. *)
Definition pg (h : Home) : list (@event Standby.Req Standby.Answer) → hist := fmap (embed_event (R2 := Answer) (Pg h) (λ _ r, r)).

(** ** Histories grown by requests in [P] alone *)
Definition since (P : Req → bool) (h h' : hist) : Prop := ∃ t, h' = h ++ t ∧ Forall (λ e, P (projT1 e) = true) t.
Lemma since_refl P h : since P h h.
Proof. exists []. by rewrite app_nil_r. Qed.
Lemma since_trans P h1 h2 h3 : since P h1 h2 → since P h2 h3 → since P h1 h3.
Proof. intros (t1 & -> & F1) (t2 & -> & F2). exists (t1 ++ t2). rewrite app_assoc, Forall_app. by split. Qed.
Lemma since_one P h q r : P q = true → since P h (h ++ [ev q r]).
Proof. intros H. exists [ev q r]. by repeat constructor. Qed.
Lemma since_saw P h h' q (X : Answer q → Prop) : since P h h' → saw h q X → saw h' q X.
Proof. intros (t & -> & _). apply saw_app_l. Qed.
Lemma since_weaken (P P' : Req → bool) h h' : (∀ q, P q = true → P' q = true) → since P h h' → since P' h h'.
Proof. intros HP (t & -> & F). exists t. split; [done|]. eapply Forall_impl; [exact F|]. intros e. apply HP. Qed.
Abbreviation later := (since (λ _, true)).
Lemma later_any P h h' : since P h h' → later h h'.
Proof. by apply since_weaken. Qed.

Lemma safe_asked {A} (rely : hist → @event Req Answer → Prop) P (ok : hist → Req → Prop) h (p : prog Answer A) :
  asks P p → (∀ h q, P q = true → ok h q) → safe rely ok h p (λ h' _, since P h h').
Proof.
  intros Hp Hok. revert h. induction p as [a|q k IH]; intros h; [apply since_refl|].
  destruct Hp as [Hq Hk]. split; [by apply Hok|]. intros r _. eapply safe_post; [by apply IH, Hk|].
  intros h' a Hs. eapply since_trans; [by apply since_one|exact Hs].
Qed.
Lemma safe_ok {A} (rely : hist → @event Req Answer → Prop) (ok1 ok2 : hist → Req → Prop) h (p : prog Answer A) Q1 Q2 :
  safe rely ok1 h p Q1 → safe rely ok2 h p Q2 → safe rely ok1 h p (λ h a, Q1 h a ∧ Q2 h a).
Proof.
  revert h. induction p as [a|q k IH]; intros h; cbn [safe]; [done|]. intros [H1 K1] [_ K2]. split; [done|].
  intros r Hr. apply IH; [by apply K1|by apply K2].
Qed.
(** A program inside a larger one: what it may ask, after what both have seen. *)
Lemma safe_inside {E1 E2} {R1 : E1 → Type} {R2 : E2 → Type} {A} (inj : E1 → E2) (down : ∀ q, R2 (inj q) → R1 q) (up : ∀ q, R1 q → R2 (inj q))
    (ok1 : list (@event E1 R1) → E1 → Prop) (ok2 : list (@event E2 R2) → E2 → Prop) h0 h (p : prog R1 A) Q1 (Q2 : list (@event E2 R2) → A → Prop) :
  (∀ q r, up q (down q r) = r) →
  safe any_answer ok1 h p Q1 → (∀ t q, ok1 t q → ok2 (h0 ++ (embed_event inj up <$> t)) (inj q)) →
  (∀ t a, Q1 t a → Q2 (h0 ++ (embed_event inj up <$> t)) a) →
  safe any_answer ok2 (h0 ++ (embed_event inj up <$> h)) (embed inj down p) Q2.
Proof.
  intros Hud Hp Hok HQ. revert h Hp. induction p as [a|q k IH]; intros h; [apply HQ|].
  intros [Hq Hk]. split; [by apply Hok|]. intros r _. specialize (IH (down q r) (h ++ [answered q (down q r)]) (Hk _ I)).
  rewrite fmap_app, app_assoc in IH.
  assert (embed_event (R2 := R2) inj up (answered q (down q r)) = answered (inj q) r) as E by (unfold embed_event; cbn; by rewrite Hud).
  cbn [fmap list_fmap] in IH. by rewrite E in IH.
Qed.

(** ** Triples *)
Section Triples.
Context (ok : hist → Req → Prop).
Definition spec {A} (h : hist) (n : Node) (m : M A) (Q : hist → Node → result Exit A → Prop) : Prop :=
  safe any_answer ok h (m n) (λ h' x, Q h' x.1 x.2).

Lemma u_post {A} h n (m : M A) (Q Q' : hist → Node → result Exit A → Prop) :
  spec h n m Q → (∀ h' n' r, Q h' n' r → Q' h' n' r) → spec h n m Q'.
Proof. intros Hm HQ. eapply safe_post; [exact Hm|]. intros h' x. apply HQ. Qed.
Lemma u_then {A B} h n (m : M A) (f : A → M B) Q :
  spec h n m (λ h' n' r, match r with Ok a => spec h' n' (f a) Q | Err e => Q h' n' (Err e) end) →
  spec h n (then_ m f) Q.
Proof. intros H. apply safe_bind. eapply safe_post; [exact H|]. by intros h' [n' [a|e]]. Qed.
Lemma u_attempt {A} h n (m : M A) Q :
  spec h n m (λ h' n' r, Q h' n' (match r with Ok a => Ok (Ok a) | Err Failed => Ok (Err tt) | Err e => Err e end)) →
  spec h n (attempt m) Q.
Proof. intros H. apply safe_bind. eapply safe_post; [exact H|]. by intros h' [n' [a|[]]]. Qed.
Lemma u_lift {A} h n (p : io A) (Q : hist → Node → result Exit A → Prop) :
  safe any_answer ok h p (λ h' r, Q h' n r) → spec h n (lift p) Q.
Proof. intros H. apply safe_bind. exact H. Qed.
Lemma u_sys {A} h n q (f : SysAnswer q → M A) (Q : hist → Node → result Exit A → Prop) :
  ok h (Sys q) → (∀ r, spec (h ++ [ev (Sys q) r]) n (f r) Q) → spec h n (then_ (lift (sys q)) f) Q.
Proof. intros Hq Hf. split; [done|]. intros r _. apply Hf. Qed.
Lemma u_await h q (Q : hist → result Exit (AwaitAnswer q) → Prop) :
  ok h (Await q) → Q (h ++ [ev (Await q) None]) (Err Dropped) → (∀ r, Q (h ++ [ev (Await q) (Some r)]) (Ok r)) →
  safe any_answer ok h (await q) Q.
Proof. intros Hq Hd HQ. split; [done|]. intros [r|] _; [apply HQ|exact Hd]. Qed.
Lemma u_run h c (Q : hist → result Exit (bool * bytes * bytes) → Prop) :
  ok h (Await (Run c)) → (∀ r e, Q (h ++ [ev (Await (Run c)) r]) (Err e)) →
  (∀ b o e, Q (h ++ [ev (Await (Run c)) (Some (Exited b o e))]) (Ok (b, o, e))) → safe any_answer ok h (run c) Q.
Proof. intros Hq He HQ. apply safe_try_bind, u_await; [done|apply He|]. intros [| |b o e]; cbn; auto. Qed.
Lemma u_get {A} h n (f : Node → M A) (Q : hist → Node → result Exit A → Prop) : spec h n (f n) Q → spec h n (then_ get f) Q.
Proof. done. Qed.
Lemma u_retarget {A} h n p (f : () → M A) (Q : hist → Node → result Exit A → Prop) :
  spec h (Node_ (sup n) p) (f tt) Q → spec h n (then_ (retarget_paths p) f) Q.
Proof. done. Qed.
Lemma u_pure {A B} h n (a : A) (f : A → M B) (Q : hist → Node → result Exit B → Prop) :
  spec h n (f a) Q → spec h n (then_ (ret a) f) Q.
Proof. done. Qed.
Lemma u_need {A B} h n (x : option A) (f : A → M B) (Q : hist → Node → result Exit B → Prop) :
  (x = None → Q h n (Err Failed)) → (∀ a, x = Some a → spec h n (f a) Q) → spec h n (then_ (lift (need x)) f) Q.
Proof. intros Hn Hf. destruct x as [a|]; [by apply Hf|by apply Hn]. Qed.
Lemma u_check {B} h n b (f : () → M B) (Q : hist → Node → result Exit B → Prop) :
  (b = false → Q h n (Err Failed)) → (b = true → spec h n (f tt) Q) → spec h n (then_ (lift (check b)) f) Q.
Proof. intros Hn Hf. destruct b; [by apply Hf|by apply Hn]. Qed.
(** A postcondition also knows its history is a later one. *)
Lemma u_later {A} h n (m : M A) (Q : hist → Node → result Exit A → Prop) :
  spec h n m Q → spec h n m (λ h' n' r, later h h' ∧ Q h' n' r).
Proof.
  intros H. eapply safe_post; [by apply safe_trace|]. intros h' x [(t & -> & _) HQ]. split; [|done].
  exists t. split; [done|]. by apply Forall_true.
Qed.
(** The supervisor's operations by their runs. *)
Lemma u_supervisor {A} h n (m : Standby.M A) (Q : hist → Node → result Exit A → Prop) :
  (∀ t q, ok (h ++ t) (Pg (home n) q)) →
  (∀ t s' r, runs (m (sup n)) t (s', r) →
     Q (h ++ pg (home n) t) (Node_ s' (home n)) (match r with Ok a => Ok a | Err e => Err (exit_of e) end)) →
  spec h n (on_supervisor m) Q.
Proof.
  intros Hok HQ. apply safe_bind. apply (safe_embedded (Pg (home n)) (λ _ r, r) (λ _ r, r)); [done..|].
  intros t [s' r] Hr. cbn. by apply HQ.
Qed.
End Triples.

(** ** Operations that ask only so much and leave the node alone *)
Definition keeps (P : Req → bool) {A} (m : M A) : Prop :=
  ∀ (ok : hist → Req → Prop) h n, (∀ h' q, P q = true → ok h' q) → spec ok h n m (λ h' n' _, since P h h' ∧ n' = n).
Section Keeps.
Context (P : Req → bool).
Lemma kept_ret {A} (a : A) : keeps P (ret a).
Proof. intros ok h n _. split; [apply since_refl|done]. Qed.
Lemma keeps_fail {A} : keeps P (@fail A).
Proof. intros ok h n _. split; [apply since_refl|done]. Qed.
Lemma keeps_get : keeps P get.
Proof. intros ok h n _. split; [apply since_refl|done]. Qed.
Lemma keeps_lift {A} (p : io A) : asks P p → keeps P (lift p).
Proof.
  intros Hp ok h n Hok. apply u_lift. eapply safe_post; [by apply safe_asked|]. by intros h' r.
Qed.
Lemma keeps_then {A B} (m : M A) (f : A → M B) : keeps P m → (∀ a, keeps P (f a)) → keeps P (then_ m f).
Proof.
  intros Hm Hf ok h n Hok. apply u_then. eapply u_post; [by apply Hm|]. intros h' n' [a|e] [Hi ->]; [|done].
  eapply u_post; [by apply Hf|]. intros h2 n2 r [Hi2 ->]. split; [by eapply since_trans|done].
Qed.
Lemma kept_attempt {A} (m : M A) : keeps P m → keeps P (attempt m).
Proof. intros Hm ok h n Hok. apply u_attempt. by apply Hm. Qed.
End Keeps.
(** A prefix of the kind. *)
Lemma u_kept {A B} (ok : hist → Req → Prop) P h n (m : M A) (f : A → M B) (Q : hist → Node → result Exit B → Prop) :
  keeps P m → (∀ h' q, P q = true → ok h' q) → (∀ h' e, since P h h' → Q h' n (Err e)) →
  (∀ h' a, since P h h' → spec ok h' n (f a) Q) → spec ok h n (then_ m f) Q.
Proof.
  intros Hm Hok He Hf. apply u_then. eapply u_post; [by apply Hm|].
  intros h' n' [a|e] [Hi ->]; [by apply Hf|by apply He].
Qed.

Create HintDb upgrade.
#[export] Hint Resolve kept_ret keeps_fail keeps_get since_refl since_one : upgrade.
Ltac keep :=
  repeat (intros;
    first
      [ exact I
      | solve [auto with upgrade]
      | lazymatch goal with
        | |- keeps _ (then_ _ _) => apply keeps_then
        | |- keeps _ (attempt _) => apply kept_attempt
        | |- keeps _ (lift _) => apply keeps_lift
        | |- keeps _ (if ?b then _ else _) => destruct b
        | |- keeps _ (match ?x with _ => _ end) => destruct x
        | |- asks _ (bind _ _) => apply asks_bind
        | |- asks _ (try_bind _ _) => apply asks_try
        | |- asks _ (sys _) => split; [reflexivity|]
        | |- asks _ (await _) => split; [reflexivity|]
        | |- asks _ (run _) => apply asks_try
        | |- asks _ (ok _) => exact I
        | |- asks _ bail => exact I
        | |- asks _ (Ret _) => exact I
        | |- asks _ (need ?x) => destruct x
        | |- asks _ (need_ok ?x) => destruct x
        | |- asks _ (check ?b) => destruct b
        | |- asks _ (if ?b then _ else _) => destruct b
        | |- asks _ (match ?x with _ => _ end) => destruct x
        | |- asks _ ((if ?b then _ else _) _) => destruct b
        end ]).
