(* ===== verification/UpgradeProofs.v ===== *)
(** * What a major upgrade does to a node's directories

    The apply: what it may remove, when [pg_upgrade] runs, where it leaves the node. *)

From S2P Require Import Prelude Effects Text PgFiles Upgrade UpgradeLogic.
From S2P Require Standby.
From Stdlib Require Import Strings.Byte.

(** ** Requests by what they do to a data directory *)
(** What the supervisor may be asked about a directory that is to be left alone: to
    look, to write the three configuration files it manages, to clear a stale pid file,
    to set permissions, and to start and stop the server. *)
Definition serving (q : Standby.Req) : bool :=
  match q with
  | Standby.Sync (Standby.Now | Standby.Exists _ | Standby.SpawnPostgres | Standby.TryWait | Standby.SetPermissions
    | Standby.OurPid) => true
  | Standby.Async (Standby.Fs _ _ | Standby.ReadFile _ | Standby.CreateArchiveDir | Standby.ReadPidFile | Standby.ProcDir _
    | Standby.ProcStatus _ | Standby.ProcCmdline _ | Standby.PkillPostgres | Standby.RemovePidFile | Standby.InvalidateSql
    | Standby.Sql Standby.RecoverySql | Standby.RunPgCtl Standby.Stop | Standby.PgIsReady | Standby.DrainRelay
    | Standby.KillChild | Standby.ReapChild | Standby.Sleep _) => true
  | _ => false
  end.
Definition alters (d : bytes) (q : Req) : bool :=
  match q with
  | Pg p q => bool_decide (data_dir p = d) && negb (serving q)
  | Sys (RemoveDirAll x | RemoveEntry x _ _ | CreateDirAll x) => bool_decide (x = d)
  | Sys (RenameDir x y) => bool_decide (x = d) || bool_decide (y = d)
  | Await (Run (Initdb _ x _ | PgBasebackup _ _ _ _ x _)) => bool_decide (x = d)
  | Await (Run (PgUpgrade o x _ _ m)) => bool_decide (x = d) || (bool_decide (o = d) && bool_decide (m = Link))
  | _ => false
  end.
(** Those that alter none and are not the supervisor's. *)
Definition tame (q : Req) : bool :=
  match q with
  | Sys (RemoveDirAll _ | RemoveEntry _ _ _ | CreateDirAll _ | RenameDir _ _) => false
  | Await (Run (Initdb _ _ _ | PgBasebackup _ _ _ _ _ _ | PgUpgrade _ _ _ _ _)) => false
  | Pg _ _ => false
  | _ => true
  end.
Definition no_pg (q : Req) : bool := match q with Pg _ _ => false | _ => true end.
Lemma tame_alters d q : tame q = true → alters d q = false.
Proof. by destruct q as [[]|[[]| |]|]. Qed.
Lemma tame_no_pg q : tame q = true → no_pg q = true.
Proof. by destruct q. Qed.

Lemma serving_alters d p q : serving q = true → alters d (Pg p q) = false.
Proof. intros Hq. cbn. rewrite Hq. apply andb_false_r. Qed.

(** *** A start and a stop ask no more *)
Definition served {A} (m : Standby.M A) : Prop := ∀ s, asks serving (m s).
Lemma served_then {A B} (m : Standby.M A) (f : A → Standby.M B) :
  served m → (∀ a, served (f a)) → served (Standby.then_ m f).
Proof. intros Hm Hf s. apply asks_bind; [apply Hm|]. intros [s' [a|e]]; [apply Hf|done]. Qed.
Lemma served_attempt {A} (m : Standby.M A) : served m → served (Standby.attempt m).
Proof. intros Hm s. apply asks_bind; [apply Hm|done]. Qed.
Lemma served_read q : serving (Standby.Sync q) = true → served (Standby.read q).
Proof. by split. Qed.
Lemma served_await q : serving (Standby.Async q) = true → served (Standby.await q).
Proof. by split. Qed.
Ltac serve :=
  repeat (intros; cbv zeta; lazymatch goal with
    | |- served (Standby.then_ _ _) => apply served_then
    | |- served (Standby.attempt _) => apply served_attempt
    | |- served (Standby.read _) => apply served_read; reflexivity
    | |- served (Standby.await _) => apply served_await; reflexivity
    | |- served (Standby.ret _) => by intros ?
    | |- served (Standby.put _) => by intros ?
    | |- served Standby.get => by intros ?
    | |- served (Standby.fail _) => by intros ?
    | |- served (Standby.leave _) => by intros ?
    | |- served (Standby.check ?b _) => unfold Standby.check; destruct b
    | |- served (Standby.from_result _ ?r) => unfold Standby.from_result; destruct r
    | |- served (if ?b then _ else _) => destruct b
    | |- served (match ?x with _ => _ end) => destruct x
    end).
Lemma served_stop : served Standby.stop.
Proof. unfold Standby.stop, Standby.invalidate_sql_client. serve. Qed.
Lemma served_state : served Standby.postmaster_state.
Proof. unfold Standby.postmaster_state. serve. Qed.
Lemma served_refused code : served (Standby.exit_refused code).
Proof. unfold Standby.exit_refused. serve. Qed.
Lemma served_write f b : served (Standby.write_file_durably f b).
Proof.
  unfold Standby.write_file_durably. apply served_then; [|by intros ? ?].
  generalize (DurableWrite.write_file_durably_in b). intros p.
  induction p as [[a|e]|q k IH]; cbn [Standby.on_file]; serve; intros; apply IH.
Qed.
Lemma served_ready n a b i : served (Standby.ready_loop n a b i).
Proof.
  revert i. induction n as [|n IH]; intros i; cbn [Standby.ready_loop]; serve; intros;
    first [apply served_state | apply served_refused | apply IH].
Qed.
Lemma served_start rounds cfg : served (Standby.start rounds cfg).
Proof.
  unfold Standby.start, Standby.invalidate_sql_client, Standby.cleanup_stale_postgres, Standby.configure_postgresql,
    Standby.fence_writes_at_start, Standby.abandon_start, Standby.wait_for_ready, Standby.is_in_recovery, Standby.execute_sql.
  serve; intros; first [apply served_write | apply served_ready | apply served_state | apply served_refused | apply served_stop].
Qed.
(** The supervisor's operations by their runs, when they only serve. *)
Lemma u_served (ok : hist → Req → Prop) {A} h n (m : Standby.M A) (Q : hist → Node → result Exit A → Prop) :
  served m → (∀ t q, serving q = true → ok (h ++ t) (Pg (home n) q)) →
  (∀ t s' r, runs (m (sup n)) t (s', r) →
     Q (h ++ pg (home n) t) (Node_ s' (home n)) (match r with Ok a => Ok a | Err e => Err (exit_of e) end)) →
  spec ok h n (on_supervisor m) Q.
Proof.
  intros Hm Hok HQ. apply safe_bind. specialize (Hm (sup n)). revert Hm h Hok HQ. unfold spec, Standby.M in *.
  generalize (m (sup n)). intros p. induction p as [a|q k IH]; intros Hm h Hok HQ.
  - destruct a as [s' r]. specialize (HQ [] s' r). cbn in HQ. rewrite app_nil_r in HQ. by apply HQ.
  - destruct Hm as [Hq Hk]. split; [specialize (Hok [] q Hq); by rewrite app_nil_r in Hok|]. intros r _.
    apply IH; [apply Hk|intros t q' Hq'; rewrite <-app_assoc; by apply Hok|].
    intros t s' x Hr. specialize (HQ (answered q r :: t) s' x). cbn in HQ. rewrite <-app_assoc. apply HQ. by exists r, t.
Qed.

Lemma tame_major d : asks tame (data_dir_major d).
Proof. unfold data_dir_major. keep. Qed.
#[export] Hint Resolve tame_major : upgrade.
Lemma tame_scan d es m : asks tame (scan d es m).
Proof. revert m. induction es as [|e es IH]; intros m; cbn [scan]; keep; apply IH. Qed.
Lemma tame_settle to m site : asks tame (settle to m site).
Proof.
  revert site. induction m as [|[k [|p ps]] m IH]; intros site; cbn [settle]; [exact I|apply IH|].
  keep; apply IH.
Qed.
#[export] Hint Resolve tame_scan tame_settle : upgrade.
Lemma tame_probe d to : asks tame (probe d to).
Proof. unfold probe. keep. Qed.
Lemma tame_budget d : asks tame (pg_upgrade_budget d).
Proof. unfold pg_upgrade_budget, dir_size_approx. keep. Qed.
Lemma tame_port d : asks tame (read_postmaster_port d).
Proof. unfold read_postmaster_port. keep. Qed.
Lemma tame_query q : keeps tame (query q).
Proof. unfold query. keep. Qed.
#[export] Hint Resolve tame_probe tame_budget tame_port tame_query : upgrade.
Lemma tame_initdb b d : keeps tame (collect_initdb_params b d).
Proof. unfold collect_initdb_params. keep. Qed.
Lemma tame_scripts b p : asks tame (run_post_upgrade_scripts b p).
Proof.
  unfold run_post_upgrade_scripts. generalize [lit "update_extensions.sql"; lit "analyze_new_cluster.sh"].
  intros l. induction l as [|x l IH]; cbn [run_scripts]; [exact I|].
  keep; try apply IH. all: destruct (post_upgrade_script_kind x); keep; apply IH.
Qed.
Lemma tame_analyze b d m : asks tame (analyze_in_stages b d m).
Proof. unfold analyze_in_stages. keep. Qed.
Lemma tame_flush : keeps tame flush_lsn_bytes.
Proof. unfold flush_lsn_bytes. keep. Qed.
#[export] Hint Resolve tame_initdb tame_scripts tame_analyze tame_flush : upgrade.

Lemma major_found (P : hist → Req → Prop) h d : P h (Sys (ReadVersion d)) →
  safe any_answer P h (data_dir_major d) (λ h' r, since tame h h' ∧
    match r with
    | Ok m => saw h' (Sys (ReadVersion d)) (λ raw : option bytes, (raw ← raw; parse_u32 (trim raw)) = Some m)
    | Err e => e = Failed
    end).
Proof.
  intros HP. split; [done|]. intros [raw|] _; [|split; [by apply since_one|done]]. unfold need.
  cbn [try_bind bind ok safe ask sys].
  destruct (parse_u32 (trim raw)) as [m|] eqn:Em; (split; [by apply since_one|]); [by apply saw_here|done].
Qed.

(** ** The apply *)
Section Apply.
Context (rounds : nat) (cfg : SupervisorConfig) (bin_dirs : gmap bytes bytes) (to_major : Z) (mode : TransferMode) (n0 : Node).
Definition old_data : bytes := data_dir (home n0).
Definition new_data : bytes := flow_name (upgrade_site_base_name old_data) to_major.
Definition old_bin (from : Z) : bytes := default (bin_dir (home n0)) (bin_dirs !! show_u64 from).

(** The server stopped, the supervisor not called since. *)
Definition stopped (h : hist) : Prop :=
  ∃ h1 ts h2 s, h = h1 ++ pg (home n0) ts ++ h2 ∧ runs (Standby.stop (sup n0)) ts (s, Ok tt) ∧
    Forall (λ e, no_pg (projT1 e) = true) h2.
Definition found_major (h : hist) (from : Z) : Prop :=
  saw h (Sys (ReadVersion old_data)) (λ raw : option bytes, (raw ← raw; parse_u32 (trim raw)) = Some from).

(** What it may ask. *)
Definition apply_may (h : hist) (q : Req) : Prop :=
  (∀ d, q = Sys (RemoveDirAll d) →
     d = new_data ∧ saw h (Sys (HasControl old_data)) (λ b : bool, b = true) ∧ saw h (Sys WatermarkExists) (λ b : bool, b = false)) ∧
  (∀ o x bo bn m, q = Await (Run (PgUpgrade o x bo bn m)) → stopped h) ∧
  (mode ≠ Link → new_data ≠ old_data → alters old_data q = false).
(** Where it leaves the node. *)
Inductive fate (h : hist) (n : Node) : result Exit PreflightReport → Prop :=
| Upgraded report bin raw lsn h0 :
    bin_dirs !! show_u64 to_major = Some bin → home n = Home_ bin new_data →
    parse_lsn_bytes (trim raw) = Some lsn →
    h = h0 ++ [ev (Await (Query (home n) FlushLsn)) (Some (Ok raw)); ev (Sys (WriteWatermark (show_u64 lsn))) true] →
    fate h n (Ok report)
| Untouched e : n = n0 → Forall (λ e, no_pg (projT1 e) = true) h → fate h n (Err e)
| StopFailed h0 ts s e :
    h = h0 ++ pg (home n0) ts → runs (Standby.stop (sup n0)) ts (s, Err e) → n = Node_ s (home n0) → fate h n (Err (exit_of e))
| Unrecoverable h0 : h = h0 ++ [ev (Sys (HasControl old_data)) false] → fate h n (Err Failed)
| Restarted h0 from ts s s' r :
    found_major h0 from → h = h0 ++ pg (Home_ (old_bin from) old_data) ts →
    runs (Standby.start rounds cfg s) ts (s', r) → r = Ok tt ∨ (∃ e, r = Err (Standby.Fail e)) →
    n = Node_ s' (Home_ (old_bin from) old_data) → fate h n (Err Failed)
| Cut e : e ≠ Failed → fate h n (Err e).

Lemma tame_may h q : tame q = true → apply_may h q.
Proof. intros Hq. split; [by intros d ->|]. split; [by intros o x bo bn m ->|]. intros _ _. by apply tame_alters. Qed.
Lemma pg_may h p q : serving q = true → apply_may h (Pg p q).
Proof. intros Hq. split; [done|]. split; [done|]. intros _ _. by apply serving_alters. Qed.
Lemma stopped_since h h' : stopped h → since no_pg h h' → stopped h'.
Proof.
  intros (h1 & ts & h2 & s & -> & Hr & F) (t & -> & Ft). exists h1, ts, (h2 ++ t), s.
  rewrite <-!app_assoc. split; [done|]. split; [done|]. by apply Forall_app.
Qed.
Hint Resolve tame_may pg_may stopped_since : core.

Lemma apply_after_stop h n old new initdb from :
  data_dir old = old_data → data_dir new = new_data → bin_dirs !! show_u64 to_major = Some (bin_dir new) → stopped h →
  spec apply_may h n (run_apply_after_stop rounds cfg old new initdb from to_major mode)
    (λ h' n' r, match r with Ok _ => fate h' n' r | Err _ => True end).
Proof.
  intros Eo En Hbin Hst. destruct old as [bo dold], new as [bn dnew]. cbn [bin_dir data_dir] in Eo, En, Hbin. subst dold dnew.
  unfold run_apply_after_stop. cbn [bin_dir data_dir].
  apply u_then, u_lift, u_run; [|done|].
  { split; [done|]. split; [done|]. intros _ Hne. by apply bool_decide_eq_false_2. }
  intros b1 o1 e1. apply u_check; [done|]. intros _.
  apply (u_kept _ tame); [keep|auto|done|]. intros h1 budget Hs1.
  apply u_then, u_lift, u_run; [|done|].
  { split; [done|]. split.
    - intros o x b0 b2 m _. eapply stopped_since; [exact Hst|].
      destruct Hs1 as (t & -> & F). eexists (_ :: t). rewrite <-app_assoc. split; [reflexivity|].
      constructor; [done|]. eapply Forall_impl; [exact F|]. intros e. apply tame_no_pg.
    - intros Hm Hne. apply orb_false_iff. split; [by apply bool_decide_eq_false_2|].
      apply andb_false_iff. right. by apply bool_decide_eq_false_2. }
  intros b2 o2 e2. apply u_check; [done|]. intros _. apply u_retarget, u_then, u_served; [apply served_start|auto|].
  intros ts s [[]|e] _; [|done]. cbn [home].
  do 5 (apply (u_kept _ tame); [keep|auto|done|]; intros ? ? _).
  set (n1 := Node_ s (Home_ bn new_data)).
  apply u_then, u_then, u_get, u_lift, safe_try_bind, u_await; [auto|done|].
  intros [raw|e]; [|done]. destruct (parse_lsn_bytes (trim raw)) as [lsn|] eqn:El; cbn [need_ok ok safe]; apply u_lift; rewrite El; [|done].
  apply u_then, u_lift. split; [auto|]. intros [|] _; [|done].
  eapply (Upgraded _ _ _ bn raw lsn); [done..|]. rewrite <-app_assoc. reflexivity.
Qed.
Lemma exit_of_failed e : exit_of e = Failed → ∃ e', e = Standby.Fail e'.
Proof. destruct e as [e'| | |]; [by exists e'|done..]. Qed.
Lemma recovery h n from : found_major h from →
  spec apply_may h n (recover_old_cluster_after_failed_apply rounds cfg (Home_ (old_bin from) old_data))
    (λ h' n' r, match r with Ok _ => fate h' n' (Err Failed) | Err e => e ≠ Failed end).
Proof.
  intros Hf. unfold recover_old_cluster_after_failed_apply. cbn [data_dir]. apply u_sys; [auto|].
  intros [|]; cbn [negb]; [|by eapply Unrecoverable].
  apply u_get. set (h1 := h ++ _). assert (found_major h1 from) as Hf1 by (by apply saw_app_l).
  apply u_then. eapply u_post with (Q := λ h' n' r, match r with Ok _ => found_major h' from | Err e => e ≠ Failed end).
  { destruct (has_postmaster n); [|done]. apply u_then, u_attempt, u_served; [apply served_stop|auto|].
    intros t s' [[]|[]] _; try done. all: by apply saw_app_l. }
  intros h2 n2 [[]|e]; [|done]. intros Hf2. apply u_retarget, u_then, u_attempt, u_served; [apply served_start|auto|].
  intros t s' r Hr. cbn [home sup] in *.
  assert (r = Ok tt ∨ (∃ e, r = Err (Standby.Fail e)) → fate (h2 ++ pg (Home_ (old_bin from) old_data) t)
    (Node_ s' (Home_ (old_bin from) old_data)) (Err Failed)) as Hfate by (intros; by eapply Restarted).
  destruct r as [[]|[]]; cbn; try done; apply Hfate; eauto.
Qed.

Lemma apply_runs :
  spec apply_may [] n0 (run_primary_pg_upgrade_apply rounds cfg bin_dirs to_major mode) fate.
Proof.
  unfold run_primary_pg_upgrade_apply. apply u_get.
  assert (∀ h e, since no_pg [] h → fate h n0 (Err e)) as Huntouched.
  { intros h e (t & -> & F). by apply Untouched. }
  assert (∀ h h', since tame h h' → since no_pg h h') as Htame by (intros h h'; apply since_weaken, tame_no_pg).
  apply u_then, u_lift. eapply safe_post; [by apply major_found, tame_may|].
  intros h1 [from|e] [Hs1 Hf]; [|by apply Huntouched, Htame].
  destruct (to_major =? _); cbn [negb]; [|by apply Huntouched, Htame].
  fold old_data. fold (old_bin from). apply u_need; [intros _; by apply Huntouched, Htame|]. intros bin Hbin. cbv zeta. fold new_data.
  cbn [data_dir bin_dir].
  apply u_sys; [auto|]. intros exists_. set (h2 := h1 ++ _).
  assert (since no_pg [] h2 ∧ found_major h2 from) as [Hs2 Hf2].
  { split; [|by apply saw_app_l]. eapply since_trans; [by apply Htame|]. by apply since_one. }
  apply u_then. eapply u_post with (Q := λ h' n' r, n' = n0 ∧ since no_pg [] h' ∧ found_major h' from).
  { destruct exists_; [|done].
    apply u_sys; [auto|]. intros intact. apply u_sys; [auto|]. intros marked.
    set (h3 := (h2 ++ _) ++ _). assert (since no_pg [] h3 ∧ found_major h3 from) as [Hs3 Hf3].
    { split; [|by apply saw_app_l, saw_app_l]. do 2 (eapply since_trans; [|by apply since_one]). done. }
    apply u_check; [done|]. intros (Hi & Hm)%andb_true_iff. apply negb_true_iff in Hm as ->. subst intact.
    apply u_sys.
    - split; [|split; [done|]].
      + intros d [= <-]. split; [done|]. split; [by apply saw_app_l, saw_here|by apply saw_here].
      + intros _ Hne. by apply bool_decide_eq_false_2.
    - intros removed. set (h4 := h3 ++ _). assert (since no_pg [] h4 ∧ found_major h4 from) as [Hs4 Hf4].
      { split; [|by apply saw_app_l]. eapply since_trans; [exact Hs3|]. by apply since_one. }
      apply u_lift. by destruct removed. }
  intros h3 n3 [[]|e] (-> & Hs3 & Hf3); [|by apply Huntouched].
  apply (u_kept _ tame); [keep|auto|intros h' e Hs; eapply Huntouched, since_trans; [exact Hs3|by apply Htame]|].
  intros h4 initdb Hs4.
  apply u_then, u_served; [apply served_stop|auto|]. intros ts s [[]|e] Hstop; [|by eapply StopFailed].
  assert (stopped (h4 ++ pg (home n0) ts)) as Hst.
  { exists h4, ts, [], s. by rewrite app_nil_r. }
  apply u_then, u_attempt. eapply u_post; [apply u_later, apply_after_stop; [done..|exact Hbin|exact Hst]|].
  intros h5 n5 [report|[]] [Hl Hup]; [exact Hup| |by apply Cut..].
  apply u_then. eapply u_post; [apply recovery|].
  - eapply since_saw; [exact Hl|]. apply saw_app_l. by eapply since_saw.
  - intros h6 n6 [[]|e] H6; [exact H6|by apply Cut].
Qed.
End Apply.

(** Major 17 in [data], 18 its target, the leftovers of an earlier run beside it. *)
Module Site.
Definition cfg : SupervisorConfig := SupervisorConfig_ 5432 (lit "postgres") Replica 2 Trust None.
Definition dirs : gmap bytes bytes := <[lit "17" := lit "/usr/17/bin"]> {[lit "18" := lit "/usr/18/bin"]}.
Definition node (name : bytes) : Node := Node_ Standby.Supervisor_new (Home_ (lit "/usr/17/bin") name).
Definition home17 (name : bytes) : Home := Home_ (lit "/usr/17/bin") name.
Definition leftovers (name : bytes) : hist :=
  [ev (Sys (ReadVersion name)) (Some (lit "17")); ev (Sys (PathExists (lit "data_18"))) true;
   ev (Sys (HasControl name)) true; ev (Sys WatermarkExists) false].
Definition initdb : InitdbParams := InitdbParams_ false None (lit "UTF8") (lit "C") (lit "C") (lit "libc") None.
Definition refused_start (h : Home) : hist :=
  [ev (Pg h (Standby.Async Standby.InvalidateSql)) (Some tt); ev (Pg h (Standby.Sync (Standby.Exists Standby.PidFile))) false;
   ev (Pg h (Standby.Sync (Standby.Exists Standby.ConfMarker))) false].
(** initdb fails; the old cluster will not open either. *)
Definition failing : hist :=
  leftovers (lit "data") ++
  [ev (Sys (RemoveDirAll (lit "data_18"))) true;
   ev (Await (Run (PgControldata (lit "/usr/17/bin") (lit "data")))) (Some (Exited true [] []));
   ev (Await (Query (home17 (lit "data")) DatabaseRow)) (Some (Ok (lit "UTF8|C|C|libc|")));
   ev (Pg (home17 (lit "data")) (Standby.Async Standby.InvalidateSql)) (Some tt);
   ev (Await (Run (Initdb (lit "/usr/18/bin") (lit "data_18") initdb))) (Some (Exited false [] []));
   ev (Sys (HasControl (lit "data"))) true] ++ refused_start (home17 (lit "data")).
End Site.

(** C25. The apply on the primary removes one directory, the target it is about to
    create, and that only after seeing the old cluster's control file in place and no
    watermark of clients on the new one; it runs [pg_upgrade] only once PostgreSQL was
    stopped, with nothing of the supervisor's since; and short of link mode, and of a
    data directory already named for the target, nothing it asks alters the old data
    directory ([alters]): no request of its own removes, renames, creates or fills it,
    and the supervisor is asked nothing there but what [serving] lists, for the stop
    and for the start of a recovery, which does write the managed configuration files,
    clear a stale pid file and run the server again. *)
Theorem an_apply_alters_only_its_target rounds cfg bin_dirs to_major mode n t q :
  issues (run_primary_pg_upgrade_apply rounds cfg bin_dirs to_major mode n) t q →
  apply_may to_major mode n t q.
Proof.
  intros Hi. change t with ([] ++ t). eapply safe_issues; [apply apply_runs|exact Hi|apply relies_any].
Qed.
Lemma an_apply_alters_only_its_target_witness :
  lit "data_18" = new_data 18 (Site.node (lit "data")) ∧
  saw (Site.leftovers (lit "data")) (Sys (HasControl (old_data (Site.node (lit "data"))))) (λ b : bool, b = true) ∧
  saw (Site.leftovers (lit "data")) (Sys WatermarkExists) (λ b : bool, b = false).
Proof.
  refine (proj1 (an_apply_alters_only_its_target 1 Site.cfg Site.dirs 18 Copy (Site.node (lit "data"))
    (Site.leftovers (lit "data")) (Sys (RemoveDirAll (lit "data_18"))) _) (lit "data_18") eq_refl).
  apply replay_issues. vm_compute. reflexivity.
Defined.

(** The exclusion is needed: a directory named for the target it has not reached is
    taken for a leftover, and removed while PostgreSQL runs in it. *)
Lemma a_directory_named_for_its_target_is_removed :
  issues (run_primary_pg_upgrade_apply 1 Site.cfg Site.dirs 18 Clone (Site.node (lit "data_18")))
    (Site.leftovers (lit "data_18")) (Sys (RemoveDirAll (data_dir (home (Site.node (lit "data_18")))))).
Proof. apply replay_issues. vm_compute. reflexivity. Qed.

(** C27. A run of the apply ends in one of these: the new cluster serves from its own
    directory, and its last act, after every maintenance step, was to record the flush
    position it read then; the node is as it was and the supervisor was never called;
    the stop itself failed; the old cluster's control file is gone; or the last thing
    was a start of the old cluster, under the binaries of the major its directory
    holds, whatever came of it.  Anything else is a run cut short. *)
Theorem a_failed_apply_restarts_the_old_cluster rounds cfg bin_dirs to_major mode n t n' r :
  runs (run_primary_pg_upgrade_apply rounds cfg bin_dirs to_major mode n) t (n', r) →
  fate rounds cfg bin_dirs to_major n t n' r.
Proof.
  intros Hr. pose proof (safe_runs _ _ _ _ _ _ _ (apply_runs rounds cfg bin_dirs to_major mode n) Hr) as H.
  apply H, relies_any.
Qed.
Lemma a_failed_apply_restarts_the_old_cluster_witness :
  fate 1 Site.cfg Site.dirs 18 (Site.node (lit "data")) Site.failing (Site.node (lit "data")) (Err Failed).
Proof.
  apply (a_failed_apply_restarts_the_old_cluster 1 Site.cfg Site.dirs 18 Copy).
  apply replay_runs. vm_compute. reflexivity.
Defined.
