(* ===== verification/UpgradeSites.v ===== *)
(** * Which data directories the upgrade flow sees

    The probe against a reference reading of the disk, the names it recognises, and
    what a confirm deletes. *)

From S2P Require Import Prelude Effects Text PgFiles Upgrade UpgradeLogic UpgradeProofs.
From S2P Require Standby.
From Stdlib Require Import Strings.Byte.

(** ** A disk that holds still *)
Record Disk := Disk_ {
  entries : list bytes;
  directory : bytes → bool;
  version_file : bytes → option bytes;
  control_file : bytes → bool;
}.
Definition shows (D : Disk) (h : hist) (e : @event Req Answer) : Prop :=
  match projT1 e as q return Answer q → Prop with
  | Sys ReadParent => λ r, r = Ok (Ok <$> entries D)
  | Sys (IsDir n) => λ r, r = directory D n
  | Sys (ReadVersion n) => λ r, r = version_file D n
  | Sys (HasControl n) => λ r, r = control_file D n
  | _ => λ _, True
  end (projT2 e).
Definition major_of (D : Disk) (n : bytes) : option Z := raw ← version_file D n; parse_u32 (trim raw).

(** ** The reference: every recognised directory with the major it claims *)
Definition claim (D : Disk) (configured n : bytes) : option (bytes * Z) :=
  if directory D n && recognised configured n then (n,.) <$> major_of D n else None.
Definition claims (D : Disk) (configured : bytes) : list (bytes * Z) := omap (claim D configured) (entries D).
Definition of_major (k : Z) (cs : list (bytes * Z)) : list bytes := fst <$> filter (λ c, c.2 = k) cs.
Definition clear (cs : list (bytes * Z)) : Prop := ∀ k, (length (of_major k cs) <= 1)%nat.
(** The target's directory, and the highest major below it. *)
Definition is_site (D : Disk) (cs : list (bytes * Z)) (to : Z) (site : UpgradeSite) : Prop :=
  (∀ n, new_data_dir site = Some n ↔ (n, to) ∈ cs) ∧
  match old_data_dir site, old_major site with
  | Some n, Some k => (n, k) ∈ cs ∧ k < to ∧ (∀ n' k', (n', k') ∈ cs → k' < to → k' ≤ k) ∧ old_control_intact site = control_file D n
  | None, None => (∀ n' k', (n', k') ∈ cs → to ≤ k') ∧ old_control_intact site = false
  | _, _ => False
  end.

(** ** Grouping by major *)
Definition grouped (m : ByMajor) (cs : list (bytes * Z)) : Prop :=
  StronglySorted (λ a b, a.1 < b.1) m ∧
  (∀ k names, (k, names) ∈ m → names = of_major k cs ∧ names ≠ []) ∧ (∀ n k, (n, k) ∈ cs → k ∈ m.*1).

Lemma of_major_snoc k cs n j : of_major k (cs ++ [(n, j)]) = of_major k cs ++ (if decide (j = k) then [n] else []).
Proof. unfold of_major. rewrite filter_app, fmap_app. f_equal. cbn. by destruct (decide (j = k)). Qed.
Lemma elem_of_major k cs n : n ∈ of_major k cs ↔ (n, k) ∈ cs.
Proof.
  unfold of_major. rewrite list_elem_of_fmap. split.
  - intros ([n' k'] & -> & [Hk H]%list_elem_of_filter). by cbn in *; subst.
  - intros H. exists (n, k). split; [done|]. by apply list_elem_of_filter.
Qed.
Lemma push_keys k n m : ∀ j, j ∈ (push k n m).*1 ↔ j = k ∨ j ∈ m.*1.
Proof.
  intros j. induction m as [|[k' ns] m IH]; cbn [push]; [set_solver|].
  destruct (k <? k') eqn:E1; [set_solver|]. destruct (k =? k') eqn:E2; [|set_solver].
  apply Z.eqb_eq in E2 as ->. set_solver.
Qed.
Lemma sorted_above a m k : StronglySorted (λ a b : Z * list bytes, a.1 < b.1) (a :: m) → k ∈ m.*1 → a.1 < k.
Proof.
  intros [_ F]%StronglySorted_inv ([k' ns] & -> & H)%list_elem_of_fmap. by eapply (proj1 (Forall_forall _ _) F) in H.
Qed.
Lemma push_sorted k n m : StronglySorted (λ a b, a.1 < b.1) m → StronglySorted (λ a b, a.1 < b.1) (push k n m).
Proof.
  induction m as [|[k' ns] m IH]; intros Hs; cbn [push]; [by repeat constructor|].
  destruct (Z.ltb_spec k k') as [E1|E1].
  - constructor; [done|]. constructor; [done|]. apply Forall_forall. intros [j l] Hj.
    assert (k' < j) by (apply (sorted_above _ _ _ Hs); apply list_elem_of_fmap; by exists (j, l)). cbn. lia.
  - destruct (Z.eqb_spec k k') as [->|E2].
    + apply StronglySorted_inv in Hs as [Hs F]. by constructor.
    + constructor; [apply IH; by apply StronglySorted_inv in Hs as [? _]|].
      apply Forall_forall. intros [j l] Hj.
      assert (j ∈ (push k n m).*1) as [->|Hj']%push_keys by (apply list_elem_of_fmap; by exists (j, l)).
      * cbn. lia.
      * exact (sorted_above _ _ _ Hs Hj').
Qed.
Lemma push_groups k n m cs : grouped m cs → grouped (push k n m) (cs ++ [(n, k)]).
Proof.
  intros (Hs & Hg & Hc). split; [by apply push_sorted|]. split.
  - assert (k ∉ m.*1 → of_major k cs = []) as Hno.
    { intros Hk. destruct (of_major k cs) as [|x l] eqn:E; [done|]. exfalso. apply Hk, (Hc x), elem_of_major. rewrite E. by left. }
    clear Hc. induction m as [|[k' ns] m IH]; intros j l; cbn [push].
    + intros H%list_elem_of_singleton. injection H as -> ->. rewrite of_major_snoc, decide_True, Hno by (done || set_solver). done.
    + assert (∀ j l, (j, l) ∈ (k', ns) :: m → j ≠ k → l = of_major j (cs ++ [(n, k)]) ∧ l ≠ []) as Hold.
      { intros j1 l1 [-> Hl]%Hg Hne. rewrite of_major_snoc, decide_False, app_nil_r by congruence. done. }
      destruct (Z.ltb_spec k k') as [E1|E1].
      * intros [H|H]%elem_of_cons.
        -- injection H as -> ->. rewrite of_major_snoc, decide_True, Hno; [done| |done].
           intros [E|H]%elem_of_cons; [cbn in E; lia|]. apply (sorted_above _ _ _ Hs) in H. cbn in H. lia.
        -- apply Hold; [done|]. intros ->. apply elem_of_cons in H as [H|H]; [injection H; lia|].
           assert (k ∈ m.*1) as H' by (apply list_elem_of_fmap; by exists (k, l)).
           apply (sorted_above _ _ _ Hs) in H'. cbn in H'. lia.
      * destruct (Z.eqb_spec k k') as [->|E2].
        -- intros [H|H]%elem_of_cons.
           ++ injection H as -> ->. destruct (Hg k' ns) as [-> Hn]; [by left|].
              rewrite of_major_snoc, decide_True by done. split; [done|]. by destruct (of_major k' cs).
           ++ apply Hold; [by right|]. intros ->. assert (k' ∈ m.*1) as H' by (apply list_elem_of_fmap; by exists (k', l)).
              apply (sorted_above _ _ _ Hs) in H'. cbn in H'. lia.
        -- intros [H|H]%elem_of_cons; [injection H as -> ->; apply Hold; [by left|done]|].
           apply IH; [by apply StronglySorted_inv in Hs as [? _]| |intros Hk; apply Hno; set_solver|exact H].
           intros j1 l1 H1. apply Hg. by right.
  - intros n' k' [H|H]%elem_of_app; apply push_keys; [right; by eapply Hc|].
    apply list_elem_of_singleton in H. injection H as -> ->. by left.
Qed.

Lemma ask_shown {A} D h q (k : SysAnswer q → io A) Q :
  (∀ r, shows D h (ev (Sys q) r) → safe (shows D) any_request (h ++ [ev (Sys q) r]) (k r) Q) →
  safe (shows D) any_request h (try_bind (sys q) k) Q.
Proof. intros H. by split. Qed.
Lemma major_read D h n (Q : hist → result Exit Z → Prop) :
  (∀ h', Q h' (match major_of D n with Some m => Ok m | None => Err Failed end)) →
  safe (shows D) any_request h (data_dir_major n) Q.
Proof.
  intros HQ. apply ask_shown. cbn. intros r ->. unfold major_of in HQ.
  destruct (version_file D n) as [raw|]; cbn in *; [|apply HQ]. destruct (parse_u32 (trim raw)); apply HQ.
Qed.
Lemma scan_reads D d es h m cs : grouped m cs →
  safe (shows D) any_request h (scan d (Ok <$> es) m) (λ _ r, ∃ m', r = Ok m' ∧ grouped m' (cs ++ omap (claim D d) es)).
Proof.
  revert h m cs. induction es as [|n es IH]; intros h m cs Hg; cbn [scan fmap list_fmap omap list_omap].
  - exists m. by rewrite app_nil_r.
  - cbn [need_ok ok try_bind bind]. apply ask_shown. intros b Hb. cbn in Hb. subst b. unfold claim at 1.
    destruct (directory D n); cbn [negb orb andb]; [|by apply IH].
    destruct (recognised d n); cbn [negb]; [|by apply IH].
    apply safe_bind, major_read. intros h'. destruct (major_of D n) as [k|]; cbn [fmap option_fmap option_map]; [|by apply IH].
    replace (cs ++ (n, k) :: omap (claim D d) es) with ((cs ++ [(n, k)]) ++ omap (claim D d) es) by (by rewrite <-app_assoc).
    by apply IH, push_groups.
Qed.

Definition settled (D : Disk) (to : Z) (m : ByMajor) (site site' : UpgradeSite) : Prop :=
  (∀ n, new_data_dir site' = Some n ↔ (∃ l, (to, n :: l) ∈ m) ∨ (new_data_dir site = Some n ∧ to ∉ m.*1)) ∧
  ((∃ k n l, (k, n :: l) ∈ m ∧ k < to ∧ (∀ k', k' ∈ m.*1 → k' < to → k' ≤ k) ∧
      old_data_dir site' = Some n ∧ old_major site' = Some k ∧ old_control_intact site' = control_file D n) ∨
   ((∀ k, k ∈ m.*1 → to ≤ k) ∧ old_data_dir site' = old_data_dir site ∧ old_major site' = old_major site ∧
      old_control_intact site' = old_control_intact site)).
Lemma settled_step D to k p ps m site1 site site' :
  (∀ j, j ∈ m.*1 → k < j) → settled D to m site1 site' →
  new_data_dir site1 = (if k =? to then Some p else new_data_dir site) →
  (if k <? to then old_data_dir site1 = Some p ∧ old_major site1 = Some k ∧ old_control_intact site1 = control_file D p
   else old_data_dir site1 = old_data_dir site ∧ old_major site1 = old_major site ∧ old_control_intact site1 = old_control_intact site) →
  settled D to ((k, p :: ps) :: m) site site'.
Proof.
  intros Hk [Hn Ho] En Eo. split.
  - intros n. rewrite Hn, En. destruct (Z.eqb_spec k to) as [->|Hne].
    + split.
      * intros [(l & Hl)|[[= ->] _]]; [|left; exists ps; by left].
        assert (to ∈ m.*1) as H%Hk by (apply list_elem_of_fmap; by exists (to, n :: l)). lia.
      * intros [(l & [H|H]%elem_of_cons)|[_ H]]; [|left; by exists l|exfalso; apply H; by left].
        injection H as -> ->. right. split; [done|]. intros H%Hk. lia.
    + split; (intros [(l & Hl)|[H1 H2]]; [left; exists l|right; split; [done|]]).
      * by right.
      * intros [H|H]%elem_of_cons; [by subst|done].
      * apply elem_of_cons in Hl as [H|H]; [congruence|done].
      * intros H. apply H2. by right.
  - destruct Ho as [(j & n & l & Hj & Hlt & Hmax & E)|(Hge & E1 & E2 & E3)].
    + left. exists j, n, l. split; [by right|]. split; [done|]. split; [|done].
      intros k' [->|H]%elem_of_cons; [|by apply Hmax]. intros _. cbn.
      assert (j ∈ m.*1) as H%Hk by (apply list_elem_of_fmap; by exists (j, n :: l)). lia.
    + destruct (Z.ltb_spec k to) as [Hlt|Hlt]; destruct Eo as (F1 & F2 & F3).
      * left. exists k, p, ps. split; [by left|]. split; [done|]. split; [|split_and!; congruence].
        intros k' [->|H]%elem_of_cons Hk'; [cbn; lia|]. apply Hge in H. lia.
      * right. split; [|split_and!; congruence]. intros k' [->|H]%elem_of_cons; [done|by apply Hge].
Qed.
Lemma settle_reads D to m h site :
  StronglySorted (λ a b, a.1 < b.1) m → (∀ k names, (k, names) ∈ m → names ≠ []) →
  match old_major site with Some j => ∀ k, k ∈ m.*1 → j < k | None => True end →
  safe (shows D) any_request h (settle to m site) (λ _ r, ∃ site', r = Ok site' ∧ settled D to m site site').
Proof.
  revert h site. induction m as [|[k [|p ps]] m IH]; intros h site Hs Hn Hj; cbn [settle].
  - exists site. split; [done|]. split; [|by right; split; [set_solver|]].
    intros n. split; [intros ->; right; set_solver|]. intros [(l & H)|[H _]]; [set_solver|done].
  - exfalso. eapply Hn; [by left|done].
  - assert (∀ j, j ∈ m.*1 → k < j) as Hk by (intros j; exact (sorted_above _ _ _ Hs)).
    apply StronglySorted_inv in Hs as [Hs _].
    assert (∀ k names, (k, names) ∈ m → names ≠ []) as Hn' by (intros; eapply Hn; by right).
    assert (match old_major site with Some j => ∀ k, k ∈ m.*1 → j < k | None => True end) as Hj'.
    { destruct (old_major site); [|done]. intros j H. apply Hj. by right. }
    destruct (Z.eqb_spec k to) as [->|Hne].
    + eapply safe_post; [by apply IH|]. intros _ r (site' & -> & H). exists site'. split; [done|].
      eapply settled_step; [done|exact H|by rewrite Z.eqb_refl|]. by rewrite Z.ltb_irrefl.
    + destruct (Z.ltb_spec k to) as [Hlt|Hlt]; cbn [andb].
      * assert (match old_major site with None => true | Some j => j <? k end = true) as ->.
        { destruct (old_major site) as [j|]; [|done]. apply Z.ltb_lt, Hj. by left. }
        apply ask_shown. intros b Hb. cbn in Hb. subst b. eapply safe_post; [by apply IH|].
        intros _ r (site' & -> & H). exists site'. split; [done|].
        eapply settled_step; [done|exact H|by rewrite (proj2 (Z.eqb_neq _ _) Hne)|].
        by rewrite (proj2 (Z.ltb_lt _ _) Hlt).
      * eapply safe_post; [by apply IH|]. intros _ r (site' & -> & H). exists site'. split; [done|].
        eapply settled_step; [done|exact H|by rewrite (proj2 (Z.eqb_neq _ _) Hne)|].
        by rewrite (proj2 (Z.ltb_ge _ _) Hlt).
Qed.

Lemma grouped_key m cs k : grouped m cs → k ∈ m.*1 ↔ ∃ n, (n, k) ∈ cs.
Proof.
  intros (_ & Hg & Hc). split; [|by intros (n & H%Hc)].
  intros ([k' l] & -> & H)%list_elem_of_fmap. apply Hg in H as [-> Hn]. cbn in *.
  destruct (of_major k' cs) as [|n l] eqn:E; [done|]. exists n. apply elem_of_major. rewrite E. by left.
Qed.
Lemma grouped_entry m cs k : grouped m cs → (∃ n, (n, k) ∈ cs) → (k, of_major k cs) ∈ m.
Proof.
  intros Hg Hk. apply (grouped_key _ _ _ Hg), list_elem_of_fmap in Hk as ([k' l] & -> & H).
  destruct Hg as (_ & Hg & _). by destruct (Hg _ _ H) as [-> _].
Qed.
Lemma ambiguous_not_clear m cs : grouped m cs → ambiguous m = true → ¬ clear cs.
Proof.
  intros Hg ([k l] & Hl & Hlen)%existsb_exists Hc. apply list_elem_of_In, (proj1 (proj2 Hg)) in Hl as [-> _].
  apply Nat.ltb_lt in Hlen. cbn in Hlen. specialize (Hc k). lia.
Qed.
Lemma unambiguous_clear m cs : grouped m cs → ambiguous m = false → clear cs.
Proof.
  intros Hg E k. destruct (Nat.leb_spec (length (of_major k cs)) 1) as [?|Hlt]; [done|]. exfalso.
  assert (ambiguous m = true) as Ht; [|congruence]. apply existsb_exists. exists (k, of_major k cs).
  split; [|by apply Nat.ltb_lt]. apply list_elem_of_In, grouped_entry; [done|].
  destruct (of_major k cs) as [|n l] eqn:Eo; [cbn in Hlt; lia|]. exists n. apply elem_of_major. rewrite Eo. by left.
Qed.
Lemma clear_one cs k n l : clear cs → of_major k cs = n :: l → ∀ n', (n', k) ∈ cs ↔ n' = n.
Proof.
  intros Hc E n'. rewrite <-elem_of_major, E. specialize (Hc k). rewrite E in Hc. destruct l; [|cbn in Hc; lia].
  apply list_elem_of_singleton.
Qed.
Lemma settled_is_site D to m cs site : grouped m cs → clear cs → settled D to m no_site site → is_site D cs to site.
Proof.
  intros Hg Hc [Hn Ho]. split.
  - intros n. rewrite Hn. split.
    + intros [(l & Hl)|[Hx _]]; [|done]. apply Hg in Hl as [Hl _]. apply elem_of_major. rewrite <-Hl. by left.
    + intros Hk. left. pose proof (grouped_entry _ _ to Hg (ex_intro (λ n, (n, to) ∈ cs) n Hk)) as He.
      destruct (of_major to cs) as [|p l] eqn:E.
      { apply elem_of_major in Hk. rewrite E in Hk. by apply elem_of_nil in Hk. }
      apply (clear_one _ _ _ _ Hc E) in Hk as ->. by exists l.
  - destruct Ho as [(k & n & l & Hk & Hlt & Hmax & E1 & E2 & E3)|(Hge & E1 & E2 & E3)].
    + rewrite E1, E2. apply Hg in Hk as [Hk _]. split; [apply elem_of_major; rewrite <-Hk; by left|].
      split; [done|]. split; [|done]. intros n' k' H. apply Hmax, (grouped_key _ _ _ Hg). by exists n'.
    + rewrite E1, E2, E3. split; [|done]. intros n' k' H. apply Hge, (grouped_key _ _ _ Hg). by exists n'.
Qed.
Lemma probe_reads D d to h :
  safe (shows D) any_request h (probe d to) (λ _ r,
    match r with
    | Ok site => clear (claims D d) ∧ is_site D (claims D d) to site
    | Err e => e = Failed ∧ ¬ clear (claims D d)
    end).
Proof.
  apply ask_shown. intros es Hes. cbn in Hes. subst es. cbn [need_ok ok try_bind bind].
  apply safe_try_bind. eapply safe_post; [apply (scan_reads D d (entries D) _ [] [])|].
  { split; [constructor|]. split; intros ? ? H; by apply elem_of_nil in H. }
  intros h1 r (m & -> & Hg). fold (claims D d) in Hg. rewrite app_nil_l in Hg.
  destruct (ambiguous m) eqn:E; cbn [negb check bail ok try_bind bind].
  - split; [done|]. by eapply ambiguous_not_clear.
  - assert (clear (claims D d)) as Hc by (by eapply unambiguous_clear).
    eapply safe_post; [apply settle_reads|].
    + apply Hg.
    + intros k names H. by apply Hg in H as [_ H].
    + done.
    + intros h2 r (site & -> & Hs). split; [done|]. by eapply settled_is_site.
Qed.

(** ** The theorems *)
(** A disk with major 17 in [data], 18 in [data_18] and a copy the flow must not see. *)
Module Beside.
Definition version (n : bytes) : option bytes :=
  if bool_decide (n = lit "data") then Some (lit "17")
  else if bool_decide (n = lit "data_18") then Some (lit "18")
  else if bool_decide (n = lit "data_backup") then Some (lit "17") else None.
Definition disk : Disk := Disk_ [lit "data_backup"; lit "data"; lit "data_18"] (λ _, true) version (λ _, true).
Definition scanned : hist :=
  [ev (Sys ReadParent) (Ok [Ok (lit "data_backup"); Ok (lit "data"); Ok (lit "data_18")]);
   ev (Sys (IsDir (lit "data_backup"))) true;
   ev (Sys (IsDir (lit "data"))) true; ev (Sys (ReadVersion (lit "data"))) (Some (lit "17"));
   ev (Sys (IsDir (lit "data_18"))) true; ev (Sys (ReadVersion (lit "data_18"))) (Some (lit "18"));
   ev (Sys (HasControl (lit "data"))) true].
Definition found : UpgradeSite := UpgradeSite_ (Some (lit "data")) (Some 17) (Some (lit "data_18")) true.
Lemma shown : relies (shows disk) [] scanned.
Proof. repeat (apply relies_cons_2; [vm_compute; reflexivity|]). apply relies_nil. Qed.
End Beside.

(** The probe of a data directory's neighbourhood, on a disk that holds still while
    it reads, is the reference reading: it refuses exactly when two recognised
    directories claim one major, and otherwise answers the directory of the target
    major, the directory of the highest major below the target, and whether that one's
    control file is in place. *)
Lemma the_probe_is_the_reference_reading D d to t r :
  relies (shows D) [] t → runs (probe d to) t r →
  match r with
  | Ok site => clear (claims D d) ∧ is_site D (claims D d) to site
  | Err e => e = Failed ∧ ¬ clear (claims D d)
  end.
Proof. intros Ht Hr. exact (safe_runs _ _ _ _ _ _ _ (probe_reads D d to []) Hr Ht). Qed.
Lemma the_probe_is_the_reference_reading_witness :
  clear (claims Beside.disk (lit "data_18")) ∧ is_site Beside.disk (claims Beside.disk (lit "data_18")) 18 Beside.found.
Proof.
  apply (the_probe_is_the_reference_reading Beside.disk (lit "data_18") 18 Beside.scanned (Ok Beside.found) Beside.shown).
  apply replay_runs. vm_compute. reflexivity.
Defined.

(** What a confirm is about to delete. *)
Definition confirm_may (D : Disk) (d : bytes) (to : Z) (h : hist) (q : Req) : Prop :=
  match q with
  | Sys (RemoveDirAll x) =>
      x ≠ d ∧ major_of D d = Some to ∧ clear (claims D d) ∧
      ∃ k, (x, k) ∈ claims D d ∧ k < to ∧ ∀ n' k', (n', k') ∈ claims D d → k' < to → k' ≤ k
  | _ => alters d q = false
  end.
Lemma confirm_asks D d to : safe (shows D) (confirm_may D d to) [] (confirm_local d to) (λ _ _, True).
Proof.
  unfold confirm_local. apply safe_try_bind. eapply safe_post; [eapply safe_ok; [|apply probe_reads]|].
  - apply safe_asked with (P := tame); [auto with upgrade|]. intros h q Hq. pose proof (tame_alters d q Hq).
    by destruct q as [[]|[[]| |]|].
  - intros h [site|e] [_ H]; [|done]. destruct H as [Hc [_ Ho]].
    destruct (old_data_dir site) as [x|]; [|done]. destruct (old_major site) as [k|]; [|done].
    destruct Ho as (Hx & Hlt & Hmax & _).
    apply safe_try_bind. split; [done|]. cbn. intros raw ->.
    assert (major_of D d = (raw ← version_file D d; parse_u32 (trim raw))) as Em by done.
    destruct (version_file D d) as [raw|]; cbn in *; [|done].
    destruct (parse_u32 (trim raw)) as [live|]; cbn; [|done].
    destruct (Z.eqb_spec live to) as [->|?]; cbn; [|done]. split.
    + split; [|by eauto 10]. intros ->.
      assert (major_of D d = Some k); [|by simplify_eq; lia].
      unfold claims in Hx. apply list_elem_of_omap in Hx as (n & _ & Hn). unfold claim in Hn.
      destruct (_ && _); [|done]. destruct (major_of D n) eqn:E; [|done]. cbn in Hn. congruence.
    + intros [|] _; cbn; [|done]. by split.
Qed.

(** A confirm deletes one directory: not the live one, whose [PG_VERSION] is by
    then the confirmed major, but the recognised directory of the highest major below
    it, with no other claiming the same; nothing else it asks alters the live
    directory. *)
Lemma a_confirm_deletes_only_the_anchor D d to t q :
  relies (shows D) [] t → issues (confirm_local d to) t q → confirm_may D d to t q.
Proof. intros Ht Hi. exact (safe_issues _ _ _ _ _ _ _ (confirm_asks D d to) Hi Ht). Qed.
Lemma a_confirm_deletes_only_the_anchor_witness :
  confirm_may Beside.disk (lit "data_18") 18 (Beside.scanned ++ [ev (Sys (ReadVersion (lit "data_18"))) (Some (lit "18"))])
    (Sys (RemoveDirAll (lit "data"))).
Proof.
  apply a_confirm_deletes_only_the_anchor.
  - repeat (apply relies_cons_2; [vm_compute; reflexivity|]). apply relies_nil.
  - apply replay_issues. vm_compute. reflexivity.
Defined.

(** ** Names *)
Lemma strip_prefix_refl l : strip_prefix l l = Some [].
Proof. apply strip_prefix_Some. by rewrite app_nil_r. Qed.
Lemma rsplit_once_Some sep l a b : rsplit_once sep l = Some (a, b) ↔ l = a ++ sep :: b ∧ sep ∉ b.
Proof.
  unfold rsplit_once. rewrite split_once_split. split.
  - destruct (split_at_byte sep (reverse l)) as [[x y]|] eqn:E; [|done]. intros [= <- <-].
    apply split_at_byte_Some in E as [E Hx]. split; [|by rewrite elem_of_reverse].
    rewrite <-(reverse_involutive l), E, reverse_app, reverse_cons, <-app_assoc. done.
  - intros [-> Hb]. assert (split_at_byte sep (reverse (a ++ sep :: b)) = Some (reverse b, reverse a)) as ->.
    { apply split_at_byte_Some. rewrite reverse_app, reverse_cons, <-app_assoc. split; [done|]. by rewrite elem_of_reverse. }
    cbn. by rewrite !reverse_involutive.
Qed.
Lemma digits_checked_not max radix c l acc : to_digit radix c = None → c ∈ l → digits_checked max radix l acc = None.
Proof.
  intros Hc. revert acc. induction l as [|x l IH]; intros acc; [by intros ?%elem_of_nil|].
  intros [<-|H]%elem_of_cons; cbn; [by rewrite Hc|]. destruct (to_digit radix x); [|done]. cbn. destruct (_ <=? _); [|done]. by apply IH.
Qed.
Lemma parse_dotted l : "."%byte ∈ l → parse_u32 l = None.
Proof.
  intros H. destruct l as [|c [|c2 l]]; [by apply elem_of_nil in H|by apply list_elem_of_singleton in H as <-|].
  assert (∀ l, "."%byte ∈ l → digits_checked u32_max 10 l 0 = None) as Hd by (intros l0 Hl0; by apply (digits_checked_not _ _ "."%byte)).
  unfold from_str_radix. destruct (byte_eqb c "+") eqn:E; apply Hd; [|done].
  apply bool_decide_eq_true in E as ->. by apply elem_of_cons in H as [H|H].
Qed.
Lemma show_no_underscore k : 0 ≤ k → "_"%byte ∉ show_u64 k.
Proof.
  intros Hk H. pose proof (show_radix_graphic 10 20 k ltac:(lia) Hk) as F.
  by apply (proj1 (Forall_forall _ _) F) in H.
Qed.
Lemma parse_shown k : 0 ≤ k ≤ u32_max → parse_u32 (show_u64 k) = Some k.
Proof. intros Hk. apply from_str_radix_show; unfold u32_max in *; lia. Qed.
Lemma flow_name_base base k : 0 ≤ k ≤ u32_max → upgrade_site_base_name (flow_name base k) = base.
Proof.
  intros Hk. unfold upgrade_site_base_name, flow_name.
  assert (rsplit_once "_"%byte (base ++ lit "_" ++ show_u64 k) = Some (base, show_u64 k)) as ->.
  { apply rsplit_once_Some. split; [done|]. apply show_no_underscore. lia. }
  apply parse_shown in Hk as ->. by rewrite bool_decide_eq_true_2.
Qed.
Lemma flow_name_sibling base k : 0 ≤ k ≤ u32_max → is_flow_sibling base (flow_name base k) = true.
Proof.
  intros Hk. unfold is_flow_sibling, flow_name. rewrite !strip_prefix_app.
  rewrite parse_shown by done. by apply bool_decide_eq_true_2.
Qed.
(** A name is its base or a sibling of it. *)
Lemma base_or_sibling d : d = upgrade_site_base_name d ∨ is_flow_sibling (upgrade_site_base_name d) d = true.
Proof.
  unfold upgrade_site_base_name. destruct (rsplit_once "_"%byte d) as [[a b]|] eqn:E; [|by left].
  case_bool_decide as Hb; [|by left]. right. apply rsplit_once_Some in E as [-> _].
  unfold is_flow_sibling. rewrite strip_prefix_app. cbn. by apply bool_decide_eq_true_2.
Qed.

(** The flow's names keep faith with each other: from the target directory's name
    the base is the one the source's name has, so that after the retarget the source is
    recognised beside the target, as the target is beside the source, and the next
    upgrade starts from the same base; and a target moved aside after a rollback is
    recognised from nowhere, unless it is itself the configured directory. *)
Lemma the_flow_recognises_its_own_names d k secs c n :
  0 ≤ k ≤ u32_max → recognised c n = true → discarded_name n secs ≠ c →
  upgrade_site_base_name (flow_name (upgrade_site_base_name d) k) = upgrade_site_base_name d ∧
  recognised (flow_name (upgrade_site_base_name d) k) d = true ∧
  recognised d (flow_name (upgrade_site_base_name d) k) = true ∧
  recognised c (discarded_name n secs) = false.
Proof.
  intros Hk Hn Hc. unfold recognised. rewrite flow_name_base by done. split; [done|]. split.
  { destruct (base_or_sibling d) as [<- | ->]; [|by rewrite orb_true_r]. rewrite (bool_decide_eq_true_2 (d = d)) by done.
    by rewrite orb_true_r. }
  rewrite flow_name_sibling by done. split; [by rewrite orb_true_r|].
  set (base := upgrade_site_base_name c) in *.
  assert (∃ rest, n = base ++ rest) as (rest & ->).
  { unfold recognised in Hn. fold base in Hn. apply orb_prop in Hn as [Hn|Hn]; [apply orb_prop in Hn as [Hn|Hn]|].
    - apply bool_decide_eq_true in Hn as ->. destruct (base_or_sibling c) as [E|E]; fold base in E.
      + exists []. by rewrite app_nil_r.
      + unfold is_flow_sibling in E. destruct (strip_prefix base c) as [rest|] eqn:Es; [|done].
        exists rest. by apply strip_prefix_Some.
    - apply bool_decide_eq_true in Hn as ->. exists []. by rewrite app_nil_r.
    - unfold is_flow_sibling in Hn. destruct (strip_prefix base n) as [rest|] eqn:Es; [|done].
      exists rest. by apply strip_prefix_Some. }
  unfold discarded_name in *. rewrite bool_decide_eq_false_2 by done.
  rewrite bool_decide_eq_false_2.
  - unfold is_flow_sibling. rewrite <-app_assoc, strip_prefix_app.
    destruct (strip_prefix (lit "_") _) as [suffix|] eqn:Es; [|done]. apply strip_prefix_Some in Es.
    rewrite parse_dotted; [by apply bool_decide_eq_false_2; intros [? ?]|].
    assert ("."%byte ∈ lit "_" ++ suffix) as [H|H]%elem_of_app; [|by apply list_elem_of_singleton in H|done].
    rewrite <-Es. apply elem_of_app. right. by left.
  - intros E. rewrite <-app_assoc in E. assert (length (rest ++ lit ".discarded." ++ show_u64 secs) = 0%nat) as Hl.
    { apply (f_equal length) in E. rewrite length_app in E. lia. }
    rewrite !length_app in Hl. cbn in Hl. lia.
Qed.
Lemma the_flow_recognises_its_own_names_witness :
  recognised (flow_name (upgrade_site_base_name (lit "data_17")) 18) (lit "data_17") = true ∧
  recognised (lit "data") (discarded_name (lit "data_18") 1700000000) = false.
Proof.
  destruct (the_flow_recognises_its_own_names (lit "data_17") 18 1700000000 (lit "data") (lit "data_18")) as (_ & H & _ & H2).
  - unfold u32_max. lia.
  - vm_compute. reflexivity.
  - apply (bool_decide_unpack _). vm_compute. exact I.
  - by split.
Defined.
