(* ===== verification/UpgradeRollback.v ===== *)
(** * Going back to the old major, and rebuilding a standby

    What a rollback asks and where it leaves the node; what a rejoin wipes, at the
    operation and at its endpoint. *)

From S2P Require Import Prelude Effects Text PgFiles Upgrade UpgradeLogic UpgradeProofs.
From S2P Require Standby StandbyProofs ClusterState UpgradeApi.
From Stdlib Require Import Strings.Byte.

(** ** What a probe that found an intact old directory has seen *)
Definition intact_seen (h : hist) (site : UpgradeSite) : Prop :=
  old_control_intact site = true → ∃ old, old_data_dir site = Some old ∧ saw h (Sys (HasControl old)) (λ b : bool, b = true).
Lemma settle_intact (may : hist → Req → Prop) h to m site :
  (∀ h q, tame q = true → may h q) → intact_seen h site →
  safe any_answer may h (settle to m site) (λ h' r, match r with Ok s => intact_seen h' s | Err _ => True end).
Proof.
  intros Hok. revert h site. induction m as [|[k [|p ps]] m IH]; intros h site Hs; cbn [settle]; [done|by apply IH|].
  destruct (k =? to).
  - apply IH. intros H. by apply Hs.
  - destruct (_ && _); [|by apply IH].
    split; [by apply Hok|]. intros b _. apply IH. intros H. cbn [old_control_intact] in H. subst b.
    exists p. split; [done|]. by apply saw_here.
Qed.
Lemma probe_intact (may : hist → Req → Prop) h d to :
  (∀ h q, tame q = true → may h q) →
  safe any_answer may h (probe d to) (λ h' r, since tame h h' ∧ match r with Ok s => intact_seen h' s | Err _ => True end).
Proof.
  intros Hok. eapply safe_ok; [by apply safe_asked; [auto with upgrade|]|].
  instantiate (1 := may). unfold probe. apply safe_try_bind. split; [by apply Hok|]. intros [es|] _; [|done].
  apply safe_try_bind. cbn [need_ok ok safe]. apply safe_try_bind. eapply safe_post; [apply safe_asked; [apply tame_scan|done]|].
  intros h1 [m|e] _; [|done]. apply safe_try_bind. destruct (negb _); [|done]. by apply settle_intact.
Qed.

(** ** The rollback *)
Section Rollback.
Context (rounds : nat) (cfg : SupervisorConfig) (bin_dirs : gmap bytes bytes) (to_major : Z) (accept_write_loss : bool) (n0 : Node).

(** What may be lost was accepted, or nothing was written past the mark. *)
Definition loss_covered (h : hist) : Prop :=
  accept_write_loss = true ∨
  ∃ mark now, now <= mark ∧
    saw h (Sys ReadWatermark) (λ raw : option bytes, (raw ← raw; parse_u64 (trim raw)) = Some mark) ∧
    saw h (Await (Query (home n0) FlushLsn)) (λ r : option (result () bytes), ∃ raw, r = Some (Ok raw) ∧ parse_lsn_bytes (trim raw) = Some now).
(** The old directory, its control file seen, under its major's binaries. *)
Definition old_home (h : hist) (p : Home) : Prop :=
  saw h (Sys (HasControl (data_dir p))) (λ b : bool, b = true) ∧ ∃ from, bin_dirs !! show_u64 from = Some (bin_dir p).
Definition accepted_write (h : hist) (p : Home) : Prop :=
  saw h (Await (Query p WriteProbe)) (λ r : option (result () bytes), ∃ out, r = Some (Ok out)).

Definition was_stopped (h : hist) : Prop :=
  ∃ h1 ts h2 s, h = h1 ++ pg (home n0) ts ++ h2 ∧ runs (Standby.stop (sup n0)) ts (s, Ok tt).

Definition rollback_may (h : hist) (q : Req) : Prop :=
  match q with
  | Pg p _ => loss_covered h ∧ (∃ old, saw h (Sys (HasControl old)) (λ b : bool, b = true)) ∧ (p = home n0 ∨ was_stopped h ∧ old_home h p)
  | Sys (RenameDir a b) => (∃ secs, b = discarded_name a secs) ∧ ∃ p, old_home h p ∧ accepted_write h p
  | _ => ∀ d, alters d q = false
  end.
Inductive rolled (h : hist) (n : Node) : result Exit RollbackReport → Prop :=
| RolledBack report h0 ts h1 s s' :
    h = h0 ++ pg (home n) ts ++ h1 → runs (Standby.start rounds cfg s) ts (s', Ok tt) → sup n = s' →
    Forall (λ e, no_pg (projT1 e) = true) h1 →
    data_dir (home n) = rolled_back_dir report → bin_dirs !! show_u64 (rolled_back_to report) = Some (bin_dir (home n)) →
    old_home h (home n) → accepted_write h (home n) → rolled h n (Ok report)
| Refused e : n = n0 → Forall (λ e, no_pg (projT1 e) = true) h → rolled h n (Err e)
| NotStopped h0 ts s e :
    h = h0 ++ pg (home n0) ts → runs (Standby.stop (sup n0)) ts (s, Err e) → n = Node_ s (home n0) → rolled h n (Err (exit_of e))
| NotStarted h0 ts s s' e :
    h = h0 ++ pg (home n) ts → runs (Standby.start rounds cfg s) ts (s', Err e) → sup n = s' → old_home h (home n) →
    rolled h n (Err (exit_of e))
| LeftRolledBack h0 ts h1 s s' e :
    h = h0 ++ pg (home n) ts ++ h1 → runs (Standby.start rounds cfg s) ts (s', Ok tt) → sup n = s' →
    Forall (λ e, no_pg (projT1 e) = true) h1 → old_home h (home n) → rolled h n (Err e).

Lemma tame_rollback h q : tame q = true → rollback_may h q.
Proof. intros Hq. pose proof (λ d, tame_alters d q Hq). by destruct q as [[]|[[]| |]|]. Qed.
Hint Resolve tame_rollback : core.
Lemma covered_since h h' : loss_covered h → since no_pg h h' → loss_covered h'.
Proof.
  intros [Ha|(mark & now & Hle & Hm & Hn)] Hs; [by left|right]. exists mark, now.
  split; [done|]. by split; eapply since_saw.
Qed.
Lemma old_home_since P h h' p : old_home h p → since P h h' → old_home h' p.
Proof. intros [H1 H2] Hs. split; [by eapply since_saw|done]. Qed.
Lemma tame_watermark : asks tame read_unfreeze_watermark.
Proof. unfold read_unfreeze_watermark. keep. Qed.

Lemma write_probed h n k :
  spec rollback_may h n (probe_rounds k)
    (λ h' n' r, n' = n ∧ since tame h h' ∧ match r with Ok _ => accepted_write h' (home n) | Err _ => True end).
Proof.
  revert h. induction k as [|k IH]; intros h; cbn [probe_rounds]; [by split; [|split; [apply since_refl|]]|].
  assert (∀ r, since tame h (h ++ [ev (Await (Query (home n) WriteProbe)) r])) as Hone by (intros; by apply since_one).
  apply u_then, u_attempt, u_get, u_lift, safe_try_bind, u_await; [done|by split_and!|].
  intros [out|[]]; cbn [need_ok ok bail safe].
  - split_and!; [done|apply Hone|]. apply saw_here. by exists out.
  - assert (∀ r, since tame h ((h ++ [ev (Await (Query (home n) WriteProbe)) (Some (Err ()))]) ++ [ev (Await (Sleep 500)) r])) as Htwo.
    { intros r. eapply since_trans; [apply Hone|]. by apply since_one. }
    apply u_then, u_lift, u_await; [done|by split_and!|].
    intros []. eapply u_post; [apply IH|]. intros h' n' r (-> & Hs & Hr). split_and!; [done| |done].
    eapply since_trans; [apply Htwo|exact Hs].
Qed.
Lemma flushed h n :
  spec rollback_may h n flush_lsn_bytes
    (λ h' n' r, n' = n ∧ since tame h h' ∧
       match r with
       | Ok now => saw h' (Await (Query (home n) FlushLsn))
                     (λ r : option (result () bytes), ∃ raw, r = Some (Ok raw) ∧ parse_lsn_bytes (trim raw) = Some now)
       | Err _ => True
       end).
Proof.
  assert (∀ r, since tame h (h ++ [ev (Await (Query (home n) FlushLsn)) r])) as Hone by (intros; by apply since_one).
  unfold flush_lsn_bytes. apply u_then, u_get, u_lift, safe_try_bind, u_await; [done|by split_and!|].
  intros [raw|[]]; cbn [need_ok ok bail safe]; [|by split_and!].
  apply u_lift. destruct (parse_lsn_bytes (trim raw)) as [now|] eqn:E; (split_and!; [done|apply Hone|]); [|done].
  apply saw_here. by exists raw.
Qed.
(** The old cluster started, nothing of the supervisor's since. *)
Definition serving_old (h : hist) (n : Node) : Prop :=
  ∃ h0 ts h1 s, h = h0 ++ pg (home n) ts ++ h1 ∧ runs (Standby.start rounds cfg s) ts (sup n, Ok tt) ∧
    Forall (λ e, no_pg (projT1 e) = true) h1 ∧ old_home h (home n).
Lemma serving_since h h' n : serving_old h n → since no_pg h h' → serving_old h' n.
Proof.
  intros (h0 & ts & h1 & s & E & Hr & F & Ho) Hs. pose proof Hs as (t & Et & Ft). exists h0, ts, (h1 ++ t), s.
  split; [by rewrite Et, E, <-!app_assoc|]. split; [done|]. split; [by apply Forall_app|]. by eapply old_home_since.
Qed.
Lemma serving_left h n e : serving_old h n → rolled h n (Err e).
Proof. intros (h0 & ts & h1 & s & E & Hr & F & Ho). by eapply LeftRolledBack. Qed.
Lemma tame_since h h' : since tame h h' → since no_pg h h'.
Proof. apply since_weaken, tame_no_pg. Qed.
Hint Resolve serving_left : core.

Lemma after_start h n site from old watermark final :
  serving_old h n → data_dir (home n) = old → bin_dirs !! show_u64 from = Some (bin_dir (home n)) →
  spec rollback_may h n
    (let@ _ := probe_rollback_write in
     let@ catalog := query CountCatalog in
     if default 0 (parse_u64 (trim catalog)) =? 0 then fail
     else
       let@ live := lift (data_dir_major old) in
       if negb (live =? from) then fail
       else
         let@ _ := match new_data_dir site with
                   | Some new_dir => let@ _ := lift (move_aside_discarded_target new_dir) in ret tt
                   | None => ret tt
                   end in
         let@ _ := lift (sys RemoveWatermark) in
         ret (RollbackReport_ from old watermark final)) rolled.
Proof.
  intros Hs Hd Hb.
  assert (∀ h h', serving_old h n → since tame h h' → serving_old h' n) as Hkeep.
  { intros h1 h2 H1 H2. eapply serving_since; [exact H1|by apply tame_since]. }
  apply u_then. eapply u_post; [apply write_probed|]. intros h1 n1 [[]|e] (-> & Hs1 & Hw); [|by eapply serving_left, Hkeep].
  apply (Hkeep _ _ Hs) in Hs1 as Hv1.
  apply (u_kept _ tame); [keep|auto|intros; by eapply serving_left, Hkeep|]. intros h2 catalog Hs2. apply (Hkeep _ _ Hv1) in Hs2 as Hv2.
  destruct (_ =? 0); [by apply serving_left|].
  apply (u_kept _ tame); [keep|auto|intros; by eapply serving_left, Hkeep|]. intros h3 live Hs3. apply (Hkeep _ _ Hv2) in Hs3 as Hv3.
  destruct (negb _); [by apply serving_left|].
  assert (accepted_write h3 (home n)) as Hw3 by (eapply since_saw; [exact Hs3|]; by eapply since_saw).
  apply u_then. eapply u_post with (Q := λ h' n' r, n' = n ∧ serving_old h' n ∧ accepted_write h' (home n)).
  { destruct (new_data_dir site) as [new|]; [|by split_and!].
    apply u_then, u_lift. split; [done|]. intros secs _. split.
    - split; [by exists secs|]. exists (home n). split; [|by apply saw_app_l].
      destruct Hv3 as (? & ? & ? & ? & _ & _ & _ & Ho). eapply (old_home_since no_pg); [exact Ho|by apply since_one].
    - intros renamed _. set (h5 := (h3 ++ _) ++ _). assert (since no_pg h3 h5) as Hs5.
      { eapply (since_trans no_pg); [|by apply since_one]. by apply since_one. }
      assert (serving_old h5 n ∧ accepted_write h5 (home n)) as [? ?].
      { split; [by eapply serving_since|]. by eapply since_saw. }
      by destruct renamed. }
  intros h4 n4 [[]|e] (-> & Hv4 & Hw4); [|by apply serving_left].
  apply u_sys; [done|]. intros removed. set (h5 := h4 ++ _). assert (since no_pg h4 h5) as Hs5 by (by apply since_one).
  apply (serving_since _ _ _ Hv4) in Hs5 as (h0 & ts & h6 & s & E & Hr & F & Ho).
  apply (RolledBack _ _ _ h0 ts h6 s (sup n)); try done. by apply saw_app_l.
Qed.
Lemma refused_still h e : since tame [] h → rolled h n0 (Err e).
Proof. intros (t & -> & F)%tame_since. by apply Refused. Qed.
Definition flush_seen (h : hist) (now : Z) : Prop :=
  saw h (Await (Query (home n0) FlushLsn)) (λ r : option (result () bytes), ∃ raw, r = Some (Ok raw) ∧ parse_lsn_bytes (trim raw) = Some now).
Lemma covered_by h watermark final :
  match watermark with Some mark => saw h (Sys ReadWatermark) (λ raw : option bytes, (raw ← raw; parse_u64 (trim raw)) = Some mark) | None => True end →
  match final with Some now => flush_seen h now | None => True end →
  rollback_may_discard_writes watermark final && negb accept_write_loss = false → loss_covered h.
Proof.
  intros Hw Hf [Hd|Ha%negb_false_iff]%andb_false_iff; [|by left].
  destruct watermark as [mark|], final as [now|]; try done. right. exists mark, now.
  split; [by apply Z.ltb_ge in Hd|by split].
Qed.

Lemma going_back h site from old final :
  since tame [] h → saw h (Sys (HasControl old)) (λ b : bool, b = true) →
  match final with Some now => flush_seen h now | None => True end →
  spec rollback_may h n0
    (let@ watermark := lift read_unfreeze_watermark in
     if rollback_may_discard_writes watermark final && negb accept_write_loss then fail
     else
       let@ old_bindir := lift (need (bin_dirs !! show_u64 from)) in
       let@ _ := on_supervisor Standby.stop in
       let@ _ := retarget_paths (Home_ old_bindir old) in
       let@ _ := on_supervisor (Standby.start rounds cfg) in
       let@ _ := probe_rollback_write in
       let@ catalog := query CountCatalog in
       if default 0 (parse_u64 (trim catalog)) =? 0 then fail
       else
         let@ live := lift (data_dir_major old) in
         if negb (live =? from) then fail
         else
           let@ _ := match new_data_dir site with
                     | Some new_dir => let@ _ := lift (move_aside_discarded_target new_dir) in ret tt
                     | None => ret tt
                     end in
           let@ _ := lift (sys RemoveWatermark) in
           ret (RollbackReport_ from old watermark final)) rolled.
Proof.
  intros Hs Hc Hf. unfold read_unfreeze_watermark. apply u_then, u_lift, safe_try_bind. split; [done|]. intros raw _. cbn [bind ok safe].
  set (h1 := h ++ _). assert (since tame [] h1) as Hs1 by (eapply (since_trans tame); [exact Hs|by apply since_one]).
  set (watermark := raw ≫= λ raw, parse_u64 (trim raw)).
  assert (match watermark with Some mark => saw h1 (Sys ReadWatermark) (λ raw : option bytes, (raw ← raw; parse_u64 (trim raw)) = Some mark) | None => True end) as Hw.
  { destruct watermark as [mark|] eqn:E; [|done]. by apply saw_here. }
  assert (match final with Some now => flush_seen h1 now | None => True end) as Hf1 by (destruct final; [by apply saw_app_l|done]).
  clearbody watermark.
  destruct (rollback_may_discard_writes watermark final && negb accept_write_loss) eqn:Ed; [by apply refused_still|]. apply (covered_by h1) in Ed; [|done..].
  apply u_need; [intros _; by apply refused_still|]. intros old_bindir Hbin.
  assert (saw h1 (Sys (HasControl old)) (λ b : bool, b = true)) as Hc1 by (by apply saw_app_l).
  apply u_then, u_supervisor.
  { intros t q. split; [|split; [exists old; by apply saw_app_l|by left]].
    destruct Ed as [Ha|(mark & now & Hle & H1 & H2)]; [by left|]. right. exists mark, now. split; [done|].
    split; by apply saw_app_l. }
  intros ts s [[]|e] Hstop; [|by eapply NotStopped].
  set (old_h := Home_ old_bindir old). set (h2 := h1 ++ _).
  assert (∀ t, old_home (h2 ++ t) old_h) as Hold.
  { intros t. split; [by apply saw_app_l, saw_app_l|by exists from]. }
  apply u_retarget, u_then, u_supervisor; cbn [home sup].
  { intros t q. split; [|split; [exists old; by apply saw_app_l, saw_app_l|]].
    - destruct Ed as [Ha|(mark & now & Hle & H1 & H2)]; [by left|]. right. exists mark, now. split; [done|].
      split; by apply saw_app_l, saw_app_l.
    - right. split; [|apply Hold]. exists h1, ts, t, s. unfold h2. by rewrite <-app_assoc. }
  intros ts2 s2 [[]|e] Hstart; [|eapply (NotStarted _ (Node_ s2 old_h)); [done..|]; apply Hold].
  apply after_start; [|done..]. exists h2, ts2, [], s. rewrite app_nil_r. split_and!; [done..|apply Hold].
Qed.
Lemma rollback_runs : spec rollback_may [] n0 (rollback_local rounds cfg bin_dirs to_major accept_write_loss) rolled.
Proof.
  unfold rollback_local. apply u_get, u_then, u_lift. eapply safe_post; [by apply probe_intact, tame_rollback|].
  intros h1 [site|e] [Hs1 Hi]; [|by apply refused_still].
  destruct (old_data_dir site) as [old|] eqn:Eo; [|by apply refused_still]. destruct (old_major site) as [from|]; [|by apply refused_still].
  destruct (old_control_intact site) eqn:Ec; cbn [negb]; [|by apply refused_still].
  destruct (Hi Ec) as (old' & Eo' & Hcontrol). rewrite Eo in Eo'. injection Eo' as <-. clear Hi.
  apply u_then, u_attempt. eapply u_post; [apply flushed|]. intros h2 n2 r2 (-> & Hs2 & Hf).
  assert (since tame [] h2) as Ht2 by (by eapply since_trans).
  assert (saw h2 (Sys (HasControl old)) (λ b : bool, b = true)) as Hc2 by exact (since_saw _ _ _ _ _ Hs2 Hcontrol).
  destruct r2 as [now|[]]; try by apply refused_still.
  - exact (going_back h2 site from old (Some now) Ht2 Hc2 Hf).
  - exact (going_back h2 site from old None Ht2 Hc2 I).
Qed.
End Rollback.

(** A rollback of [data_18] to [data], each step answered as it hopes. *)
Module Back.
Abbreviation sev q r := (answered (R := Standby.Answer) q r).
Definition now : Home := Home_ (lit "/usr/18/bin") (lit "data_18").
Definition before : Home := Home_ (lit "/usr/17/bin") (lit "data").
Definition node : Node := Node_ Standby.Supervisor_new now.
Definition stopping : list (@event Standby.Req Standby.Answer) := [sev (Standby.Async Standby.InvalidateSql) (Some tt)].
Definition starting : list (@event Standby.Req Standby.Answer) :=
  [sev (Standby.Async Standby.InvalidateSql) (Some tt);
   sev (Standby.Sync (Standby.Exists Standby.PidFile)) false; sev (Standby.Sync (Standby.Exists Standby.ConfMarker)) true;
   sev (Standby.Async (Standby.ReadFile Standby.PostgresqlConf)) (Some (Ok StandbyProofs.Demo.conf));
   sev (Standby.Async (Standby.Fs Standby.PostgresqlConf DurableWrite.ReadTarget)) (Some (Some StandbyProofs.Demo.conf));
   sev (Standby.Async (Standby.ReadFile Standby.PgHbaConf)) (Some (Ok StandbyProofs.Demo.hba));
   sev (Standby.Async (Standby.Fs Standby.PgHbaConf DurableWrite.ReadTarget)) (Some (Some StandbyProofs.Demo.hba));
   sev (Standby.Async (Standby.ReadFile Standby.AutoConf)) (Some (Ok StandbyProofs.Demo.configured));
   sev (Standby.Sync Standby.SetPermissions) true; sev (Standby.Sync Standby.SpawnPostgres) true;
   sev (Standby.Sync Standby.Now) 0; sev (Standby.Async Standby.PgIsReady) (Some (Ok (Some 0)));
   sev (Standby.Async (Standby.Sql Standby.RecoverySql)) (Some (Ok (lit "f")))].
Definition found : hist :=
  [ev (Sys ReadParent) (Ok [Ok (lit "data"); Ok (lit "data_18")]);
   ev (Sys (IsDir (lit "data"))) true; ev (Sys (ReadVersion (lit "data"))) (Some (lit "17"));
   ev (Sys (IsDir (lit "data_18"))) true; ev (Sys (ReadVersion (lit "data_18"))) (Some (lit "18"));
   ev (Sys (HasControl (lit "data"))) true;
   ev (Await (Query now FlushLsn)) (Some (Ok (lit "0/64"))); ev (Sys ReadWatermark) (Some (lit "100"))].
Definition serving : hist :=
  found ++ pg now stopping ++ pg before starting ++
  [ev (Await (Query before WriteProbe)) (Some (Ok [])); ev (Await (Query before CountCatalog)) (Some (Ok (lit "400")));
   ev (Sys (ReadVersion (lit "data"))) (Some (lit "17")); ev (Sys UnixSecs) 1700000000].
Definition moved (renamed : bool) : hist :=
  serving ++ [ev (Sys (RenameDir (lit "data_18") (lit "data_18.discarded.1700000000"))) renamed].
Definition up : Node := Node_ (Standby.Sup_ true None true) before.
Definition rollback : M RollbackReport := rollback_local 3 Site.cfg Site.dirs 18 false.
End Back.

(** A rollback deletes nothing: of the data directories it alters none but the
    abandoned target, which it renames aside, and that only once the old cluster has
    taken a write.  It calls the supervisor, to stop the new cluster and then to start
    the old one, only after seeing an old directory's control file in place, and only
    where losing writes was accepted or the new cluster's flush position, read while it
    ran, was not past the recorded watermark. *)
Lemma a_rollback_discards_only_what_was_accepted rounds cfg bin_dirs to_major accept n t q :
  issues (rollback_local rounds cfg bin_dirs to_major accept n) t q → rollback_may bin_dirs accept n t q.
Proof.
  intros Hi. change t with ([] ++ t). eapply safe_issues; [apply rollback_runs|exact Hi|apply relies_any].
Qed.
Lemma a_rollback_discards_only_what_was_accepted_witness :
  (∃ secs, lit "data_18.discarded.1700000000" = discarded_name (lit "data_18") secs) ∧
  ∃ p, old_home Site.dirs Back.serving p ∧ accepted_write Back.serving p.
Proof.
  apply (a_rollback_discards_only_what_was_accepted 3 Site.cfg Site.dirs 18 false Back.node Back.serving
    (Sys (RenameDir (lit "data_18") (lit "data_18.discarded.1700000000")))).
  apply replay_issues. vm_compute. reflexivity.
Defined.

(** A rollback that answers leaves the old cluster started under the binaries of
    its major, a write taken, nothing of the supervisor's after the start.  One that
    fails left the node as it was, or failed to stop the new cluster, or to start the
    old one, or left the old one started; it never goes back to the new. *)
Lemma a_rollback_ends_on_one_side rounds cfg bin_dirs to_major accept n t n' r :
  runs (rollback_local rounds cfg bin_dirs to_major accept n) t (n', r) → rolled rounds cfg bin_dirs n t n' r.
Proof.
  intros Hr. pose proof (safe_runs _ _ _ _ _ _ _ (rollback_runs rounds cfg bin_dirs to_major accept n) Hr) as H.
  apply H, relies_any.
Qed.
Lemma a_rollback_ends_on_one_side_witness :
  rolled 3 Site.cfg Site.dirs Back.node (Back.moved true ++ [ev (Sys RemoveWatermark) true]) Back.up
    (Ok (RollbackReport_ 17 (lit "data") (Some 100) (Some 100))).
Proof.
  apply (a_rollback_ends_on_one_side 3 Site.cfg Site.dirs 18 false). apply replay_runs. vm_compute. reflexivity.
Defined.
(** A rollback that only failed to move the target aside is an error, with the old
    cluster serving. *)
Lemma a_failed_rollback_may_serve_the_old_major : runs (Back.rollback Back.node) (Back.moved false) (Back.up, Err Failed).
Proof. apply replay_runs. vm_compute. reflexivity. Qed.

(** ** The rejoin *)
Section Rejoin.
Context (rounds : nat) (cfg : SupervisorConfig) (id : Z) (bin_dirs : gmap bytes bytes) (host : bytes) (port : Z) (user : bytes) (n0 : Node).
(** The primary answered its major, whose binaries are configured. *)
Definition primary_known (h : hist) : Prop :=
  ∃ major bin, bin_dirs !! show_u64 major = Some bin ∧
    saw h (Await (Run (PsqlVersion (bin_dir (home n0)) host port user)))
      (λ r : option Output, ∃ out err, r = Some (Exited true out err) ∧ parse_postgres_major out = Some major).
Definition rejoin_may (h : hist) (q : Req) : Prop :=
  ∀ d, alters d q = true → d = data_dir (home n0) ∧ primary_known h ∧ was_stopped n0 h.
Lemma tame_rejoin h q : tame q = true → rejoin_may h q.
Proof. intros Hq d. by rewrite tame_alters. Qed.
Lemma alters_own h q : (∀ d, alters d q = true → d = data_dir (home n0)) → primary_known h → was_stopped n0 h → rejoin_may h q.
Proof. intros Hd Hp Hs d Ha. by split; [apply Hd|]. Qed.
Lemma known_app h t : primary_known h → primary_known (h ++ t).
Proof. intros (m & b & Hb & Hs). exists m, b. split; [done|]. by apply saw_app_l. Qed.
Lemma was_stopped_app h t : was_stopped n0 h → was_stopped n0 (h ++ t).
Proof. intros (h1 & ts & h2 & s & -> & Hr). exists h1, ts, (h2 ++ t), s. by rewrite <-!app_assoc. Qed.
Definition ready (h : hist) : Prop := primary_known h ∧ was_stopped n0 h.
Lemma ready_app h t : ready h → ready (h ++ t).
Proof. intros [? ?]. split; [by apply known_app|by apply was_stopped_app]. Qed.
Lemma ready_since P h h' : ready h → since P h h' → ready h'.
Proof. intros Hr (t & -> & _). by apply ready_app. Qed.
Hint Resolve tame_rejoin ready_app : core.

Lemma cleared h : ready h →
  safe any_answer rejoin_may h (clear_or_create (data_dir (home n0))) (λ h' _, ready h').
Proof.
  assert (∀ h q, ready h → (∀ d, alters d q = true → d = data_dir (home n0)) → rejoin_may h q) as Hmay.
  { intros h1 q [? ?] Hd. by apply alters_own. }
  intros Hr. apply safe_try_bind. split; [auto|]. intros [|] _; cbn [bind ok safe].
  - apply safe_try_bind. split; [auto|]. intros es _. cbn [bind ok safe]. destruct es as [es|]; cbn [need_ok bail try_bind bind ok safe]; [|auto].
    set (h1 := (h ++ _) ++ _). assert (ready h1) as Hr1 by (by apply ready_app, ready_app). clearbody h1.
    revert h1 Hr1. induction es as [|[[name ty]|] es IH]; intros h1 Hr1; cbn [clear_entries]; [done| |done].
    apply safe_try_bind. cbn [need_ok ok safe fst snd]. apply safe_try_bind. destruct ty as [is_dir|]; cbn [need_ok ok bail safe]; [|done].
    apply safe_try_bind. split; [apply Hmay; [done|]; intros d Hd; by apply bool_decide_eq_true in Hd|].
    intros [|] _; cbn [check ok bail bind try_bind safe]; [by apply IH, ready_app|by apply ready_app].
  - apply safe_try_bind. split; [apply Hmay; [auto|]; intros d Hd; by apply bool_decide_eq_true in Hd|].
    intros [|] _; cbn; by apply ready_app, ready_app.
Qed.
Lemma rejoin_asks :
  spec rejoin_may [] n0 (run_standby_rebasebackup rounds cfg id bin_dirs host port user) (λ _ _ _, True).
Proof.
  unfold run_standby_rebasebackup. apply u_get, u_then, u_lift. unfold probe_primary_major. apply safe_try_bind, u_run; [auto|done|].
  intros success out err. cbn [fst snd]. apply safe_try_bind. destruct success; [|done]. cbn [check ok safe].
  set (h1 := [] ++ _). destruct (parse_postgres_major out) as [major|] eqn:Em; [|done]. cbn [need ok safe].
  apply u_need; [done|]. intros bin Hbin.
  assert (primary_known h1) as Hk.
  { exists major, bin. split; [done|]. apply saw_here. by exists out, err. }
  apply u_then, u_served; [apply served_stop|intros t q Hq d; by rewrite serving_alters|]. intros ts s [[]|e] Hstop; [|done].
  set (h2 := h1 ++ _). assert (ready h2) as Hr2.
  { split; [by apply known_app|]. exists h1, ts, [], s. by rewrite app_nil_r. }
  apply u_then, u_lift. eapply safe_post; [by apply cleared|]. intros h3 [[]|e] Hr3; [|done].
  apply u_retarget, u_then, u_lift, u_run; [auto|done|]. intros b1 o1 e1. set (h4 := h3 ++ _).
  assert (ready h4) as [? ?] by (by apply ready_app).
  apply u_check; [done|]. intros _. apply u_then, u_lift, u_run; [|done|].
  { apply alters_own; [|done..]. intros d Hd. by apply bool_decide_eq_true in Hd. }
  intros b2 o2 e2. apply u_check; [done|]. intros _. apply u_served; [apply served_start|intros t q Hq d; by rewrite serving_alters|done].
Qed.
End Rejoin.

(** ** The rejoin's endpoint *)
Module Api := UpgradeApi.
Abbreviation api_hist := (list (@event Api.Req Api.Answer)).
Abbreviation api_ev q r := (answered (R := Api.Answer) q r).
Definition local : hist → api_hist := fmap (embed_event (R2 := Api.Answer) Api.Local (λ _ r, r)).
Section RejoinApi.
Context (rounds : nat) (cfg : SupervisorConfig).
Context (with_keys : bytes → list (bytes * bytes) → option bytes) (parent : bytes).
Context (state : Api.ManagementApiState) (body : Api.PostgresUpgradeRejoinRequest).

(** Before anything of a data directory is altered. *)
Definition endpoint_may (h : api_hist) (q : Api.Req) : Prop :=
  match q with
  | Api.Local q =>
      ∀ d, alters d q = true →
      ∃ h0 t n dirs, h = h0 ++ local t ∧
        Effects.saw (R := Api.Answer) h0 Api.ReadRecord
          (λ record : ClusterState.PgUpgradeState, ClusterState.Upgrade.leaves_stopped record (Api.node_id state) = true) ∧
        Effects.saw (R := Api.Answer) h0 Api.TryUpgradeLock (λ b : bool, b = true) ∧
        Effects.saw (R := Api.Answer) h0 Api.LockSupervisor (λ g : option Node, g = Some n) ∧
        d = data_dir (home n) ∧
        primary_known dirs (Api.leader_pg_host body) (Api.leader_pg_port body) (Api.pg_user body) n t ∧ was_stopped n t
  | _ => True
  end.
Lemma tame_rewrite h : asks tame (rewrite_config_pg_paths with_keys parent h).
Proof. unfold rewrite_config_pg_paths. keep. Qed.
Lemma endpoint_tame h q : tame q = true → endpoint_may h (Api.Local q).
Proof. intros Hq d. by rewrite tame_alters. Qed.
Lemma adopted h paths n (Q : api_hist → bool → Prop) :
  (∀ h' b, Q h' b) → safe any_answer endpoint_may h (Api.adopt with_keys parent state paths n) Q.
Proof.
  intros HQ. split; [done|]. intros [] _. cbn [bind]. unfold Api.persist_retarget. destruct (negb _); [apply HQ|].
  apply safe_bind. set (h1 := h ++ _). replace h1 with (h1 ++ local []) by apply app_nil_r.
  eapply (safe_inside Api.Local (λ _ r, r) (λ _ r, r) (λ _ q, tame q = true)); [done| |intros; by apply endpoint_tame|].
  - by apply (safe_asked any_answer tame); [apply tame_rewrite|].
  - intros t r _. apply HQ.
Qed.
Lemma endpoint_asks : safe any_answer endpoint_may [] (Api.postgres_upgrade_rejoin rounds cfg with_keys parent state body) (λ _ _, True).
Proof.
  unfold Api.postgres_upgrade_rejoin. safe_ask paths. destruct paths as [paths|]; [|done].
  destruct (negb (Api.has_postgres_manager state)); [done|]. safe_ask record.
  destruct (Api.rejoin_refusal record (Api.node_id state)) eqn:Er; [done|]. apply negb_false_iff in Er.
  safe_ask lock. destruct lock; cbn [negb]; [|done]. safe_ask guard. destruct guard as [n|]; [|done].
  set (h := (((_ ++ _) ++ _) ++ _) ++ _). apply safe_bind. replace h with (h ++ local []) by apply app_nil_r.
  eapply (safe_inside Api.Local (λ _ r, r) (λ _ r, r)); [done|apply rejoin_asks| |].
  - intros t q Hq d (Hd & Hk & Hs)%Hq. exists h, t, n, (Api.bin_dirs paths). split; [done|].
    split; [by do 2 apply saw_app_l; apply saw_here|]. split; [by apply saw_app_l, saw_here|]. split; [by apply saw_here|]. done.
  - intros t [n' r] _. apply safe_bind.
    eapply (safe_post _ _ _ _ (λ _ _, True)); [|intros h' resp _; by safe_ask u].
    destruct r as [[]|[]]; try done. apply safe_bind, adopted. done.
Qed.

(** The rejoin endpoint alters a data directory only where the committed record, as
    this node has it, lists the node as awaiting rejoin; under the upgrade lock and the
    supervisor's; only that supervisor's own directory; and only after the primary it is
    to join answered its major, for which binaries are configured, and PostgreSQL here
    was stopped. *)
Lemma a_rejoin_wipes_only_an_awaited_standby t q :
  issues (Api.postgres_upgrade_rejoin rounds cfg with_keys parent state body) t q → endpoint_may t q.
Proof.
  intros Hi. change t with ([] ++ t). eapply safe_issues; [apply endpoint_asks|exact Hi|apply relies_any].
Qed.
End RejoinApi.

(** Node 2 awaits rejoin; the primary answers 18. *)
Module Awaited.
Definition state : Api.ManagementApiState := Api.ManagementApiState_ 2 false true false.
Definition body : Api.PostgresUpgradeRejoinRequest := Api.PostgresUpgradeRejoinRequest_ (lit "db1") 5432 (lit "postgres").
Definition node : Node := Node_ Standby.Supervisor_new Back.before.
Definition paths : Api.PgPaths := Api.PgPaths_ Back.before Site.dirs None.
Definition probed : hist :=
  [ev (Await (Run (PsqlVersion (lit "/usr/17/bin") (lit "db1") 5432 (lit "postgres")))) (Some (Exited true (lit "18.1") []))] ++
  pg Back.before Back.stopping ++
  [ev (Sys (PathExists (lit "data"))) true; ev (Sys (ListDir (lit "data"))) (Ok [Ok (lit "base", Ok true)])].
Definition gates : api_hist :=
  [api_ev Api.GetPaths (Some paths); api_ev Api.ReadRecord (ClusterState.PgUpgradeState_ false [2; 3]);
   api_ev Api.TryUpgradeLock true; api_ev Api.LockSupervisor (Some node)].
End Awaited.
Lemma issues_first {A B} (p : prog Upgrade.Answer A) (f : A → prog Api.Answer B) t q :
  issues p t q → issues (bind (embed Api.Local (λ _ r, r) p) f) (local t) (Api.Local q).
Proof.
  revert t. induction p as [a|e k IH]; intros t; [done|].
  intros [[-> ->]|(r & t' & -> & H)]; [by left|]. right. exists r, (local t'). split; [done|]. by apply IH.
Qed.
Lemma a_rejoin_wipes_only_an_awaited_standby_witness :
  endpoint_may Awaited.state Awaited.body (Awaited.gates ++ local Awaited.probed)
    (Api.Local (Sys (RemoveEntry (lit "data") (lit "base") true))).
Proof.
  apply (a_rejoin_wipes_only_an_awaited_standby 1 Site.cfg (λ _ _, None) [] Awaited.state Awaited.body).
  do 4 issue_step. apply issues_first, replay_issues. vm_compute. reflexivity.
Defined.
