(* ===== verification/UpgradeCli.v ===== *)
(** * The major upgrade across the cluster ([commands/upgrade/postgres.rs], the command)

    [pgbattery upgrade postgres]: the orchestrator that freezes the record, stops the
    standbys, has the primary apply, releases the clients and rejoins each standby; its
    confirm, rollback, abort and resume.  It holds no state of its own between
    invocations: everything it asks goes to a node by its management address, and an
    answer of [None] is a node that could not be reached or refused.  [rounds] bounds
    its waits. *)

From S2P Require Import Prelude Effects Text ClusterState.
From S2P Require Upgrade UpgradeApi.
From Stdlib Require Import Strings.Byte.

Record NodeInfo := NodeInfo_ { id : NodeId; mgmt_addr : bytes }.
Record LeaderInfo := LeaderInfo_ { leader_id : option NodeId; leader_mgmt_addr : option bytes; leader_pg_addr : option bytes }.
Record PreflightRequest := PreflightRequest_ {
  preflight_to : Z; preflight_mode : bytes; preflight_no_backup : bool; preflight_no_rollback : bool; preflight_write_loss : bool }.
Record PreflightResponse := PreflightResponse_ { preflight_ok : bool; preflight_resolved : bytes }.

Inductive Req :=
| Now | Sleep (d : Z)
| DoctorStrict (node : option bytes)
| ResolveEntry (node : option bytes)
| BlueGreen
| GetNodes (addr : bytes) | GetLeader (addr : bytes)
| GetBins (addr : bytes) | Preflight (addr : bytes) (r : PreflightRequest)
| CommitStep (addr : bytes) (step : UpgradeApi.UpgradeRecordStep)
| GetRecord (addr : bytes)
| StopPostgres (addr : bytes)
| Apply (addr : bytes) (to : Z) (mode : bytes)
| Rejoin (addr : bytes) (to : Z) (host : bytes) (port : Z)
| Confirm (addr : bytes) (to : Z)
| Rollback (addr : bytes) (to : Z) (accept_write_loss : bool)
| GetLineage (addr : bytes)
| GetLag (addr : bytes) (node : NodeId)
| GetStatus (addr : bytes).
Section Decisions.
#[local] Existing Instance byte_code_dec | 0.
#[local] Existing Instance Upgrade.option_code_dec | 0.
#[global] Instance PreflightRequest_eq_dec : EqDecision PreflightRequest.
Proof. solve_decision. Defined.
#[global] Instance Req_eq_dec : EqDecision Req.
Proof. solve_decision. Defined.
End Decisions.
Definition Answer (q : Req) : Type :=
  match q with
  | Now => Z
  | Sleep _ => unit
  | DoctorStrict _ | BlueGreen | StopPostgres _ => bool
  | ResolveEntry _ => option bytes
  | GetNodes _ => option (list NodeInfo)
  | GetLeader _ => option LeaderInfo
  | GetBins _ => option (gmap bytes UpgradeApi.PostgresBinDirInfo)
  | Preflight _ _ => option PreflightResponse
  | CommitStep _ _ => option (UpgradeApi.StatusCode * PgUpgradeState)
  | GetRecord _ => option PgUpgradeState
  | Apply _ _ _ | Rejoin _ _ _ _ | Confirm _ _ => option bool
  | Rollback _ _ _ => option (bool * Z)     (* success, the major gone back to *)
  | GetLineage _ => option (option Z)
  | GetLag _ _ => option bool               (* whether it is synced *)
  | GetStatus _ => option UpgradeApi.PostgresStatusResponse
  end.
Inductive Exit := Bail | OutOfRounds.
Abbreviation io A := (prog Answer (result Exit A)).
Definition ok {A} (a : A) : io A := Ret (Ok a).
Definition bail {A} : io A := Ret (Err Bail).
Definition need {A} (r : option A) : io A := match r with Some a => ok a | None => bail end.
Definition check (b : bool) : io () := if b then ok tt else bail.
Definition call (q : Req) : io (Answer q) := let* r := ask q in ok r.

(** ** Flags *)
Inductive RecordAction := ActAbort | ActResume | ActConfirm | ActRollback.
Record PostgresUpgradeParams := PostgresUpgradeParams_ {
  to_major : Z;
  check_only : bool;
  experimental : bool;
  confirm : bool;
  rollback : bool;
  abort : bool;
  resume : bool;
  node : option bytes;
  allow_no_backup : bool;
  accept_no_rollback : bool;
  accept_write_loss : bool;
  transfer_mode : option Upgrade.TransferMode;
  blue_green : bool;
}.
Definition RecordAction_of (p : PostgresUpgradeParams) : result () (option RecordAction) :=
  let chosen :=
    omap (λ a : bool * RecordAction, if a.1 then Some a.2 else None)
      [(abort p, ActAbort); (resume p, ActResume); (confirm p, ActConfirm); (rollback p, ActRollback)] in
  if (1 <? length chosen)%nat then Err tt else Ok (head chosen).
Definition require_backup_when_no_rollback (no_rollback no_backup : bool) : bool := negb (no_rollback && no_backup).
Definition resolve_transfer_mode_cli (requested : option Upgrade.TransferMode) (no_rollback : bool) : option Upgrade.TransferMode :=
  match requested with
  | Some Upgrade.Link => if negb no_rollback then None else Some Upgrade.Link
  | Some m => Some m
  | None => Some (if no_rollback then Upgrade.Link else Upgrade.Clone)
  end.
Definition require_target_bin_on_node (bins : gmap bytes UpgradeApi.PostgresBinDirInfo) (to : Z) : bool :=
  match bins !! show_u64 to with
  | None => false
  | Some info =>
      UpgradeApi.postgres_executable info &&
      match UpgradeApi.reported_major info with Some m => m =? to | None => true end
  end.
(** [trim_start_matches('-')]. *)
Fixpoint trim_dashes (l : bytes) : bytes :=
  match l with c :: l' => if byte_eqb c "-"%byte then trim_dashes l' else l | [] => [] end.
Definition split_host_port (addr : bytes) : option (bytes * Z) :=
  '(h, p) ← rsplit_once ":"%byte addr; p ← Upgrade.parse_u16 p; Some (h, p).

Section Cluster.
Context (rounds : nat).
Definition secs : Z := 1000000000.

(** ** The record *)
Fixpoint commit_step (nodes : list NodeInfo) (step : UpgradeApi.UpgradeRecordStep) : io () :=
  match nodes with
  | [] => bail
  | n :: nodes =>
      let* r := ask (CommitStep (mgmt_addr n) step) in
      match r with
      | Some (UpgradeApi.OK, _) => ok tt
      | Some (UpgradeApi.CONFLICT, _) => bail
      | _ => commit_step nodes step
      end
  end.

(** ** The primary *)
Definition confirms_serving_primary (status : UpgradeApi.PostgresStatusResponse) (leader : NodeId) : bool :=
  (UpgradeApi.status_node status =? leader) && bool_decide (UpgradeApi.in_recovery status = Some false).
(** One leader probe a round, of the first leader a node names. *)
Fixpoint probe_round (nodes : list NodeInfo) : prog Answer bool :=
  match nodes with
  | [] => Ret false
  | n :: nodes =>
      let* leader := ask (GetLeader (mgmt_addr n)) in
      match leader with
      | Some (LeaderInfo_ (Some leader) (Some mgmt) _) =>
          let* status := ask (GetStatus mgmt) in
          Ret (match status with Some s => confirms_serving_primary s leader | None => false end)
      | _ => probe_round nodes
      end
  end.
Fixpoint wait_rounds (n : nat) (nodes : list NodeInfo) (deadline : Z) : io () :=
  match n with
  | O => Ret (Err OutOfRounds)
  | S n =>
      let* serving := probe_round nodes in
      if serving then ok tt
      else
        let* now := ask Now in
        if deadline <=? now then bail
        else let* _ := ask (Sleep (2 * secs)) in wait_rounds n nodes deadline
  end.
Definition wait_for_serving_primary (nodes : list NodeInfo) : io () :=
  let* now := ask Now in wait_rounds rounds nodes (now + 180 * secs).
(** Its own failure is only told. *)
Definition abort_after_serving_primary (nodes : list NodeInfo) : prog Answer () :=
  let* _ := let? _ := wait_for_serving_primary nodes in commit_step nodes UpgradeApi.Abort in
  Ret tt.
Definition serve_swapped_primary (nodes : list NodeInfo) (leader_mgmt : bytes) : io () :=
  let? lineage := call (GetLineage leader_mgmt) in
  let? lineage := need lineage in
  let? lineage := need lineage in
  commit_step nodes (UpgradeApi.Serve (Some lineage)).

(** ** The standbys *)
Fixpoint lag_rounds (n : nat) (leader_mgmt : bytes) (node : NodeId) (deadline : Z) : io () :=
  match n with
  | O => Ret (Err OutOfRounds)
  | S n =>
      let* lag := ask (GetLag leader_mgmt node) in
      if bool_decide (lag = Some true) then ok tt
      else
        let* now := ask Now in
        if deadline <=? now then bail
        else let* _ := ask (Sleep (2 * secs)) in lag_rounds n leader_mgmt node deadline
  end.
Definition wait_standby_streaming (leader_mgmt : bytes) (node : NodeId) : io () :=
  let* now := ask Now in lag_rounds rounds leader_mgmt node (now + 180 * secs).
Fixpoint rejoin_each (nodes : list NodeInfo) (leader_mgmt host : bytes) (port : Z) (standbys : list NodeInfo) (major : Z) : io () :=
  match standbys with
  | [] => ok tt
  | n :: standbys =>
      let? r := call (Rejoin (mgmt_addr n) major host port) in
      let? success := need r in
      let? _ := check success in
      let? _ := wait_standby_streaming leader_mgmt (id n) in
      let? _ := commit_step nodes (UpgradeApi.Rejoined (id n)) in
      rejoin_each nodes leader_mgmt host port standbys major
  end.
Definition rejoin_standbys (nodes : list NodeInfo) (leader_mgmt : bytes) (standbys : list NodeInfo) (major : Z) : io () :=
  let? leader := call (GetLeader leader_mgmt) in
  let? leader := need leader in
  let? leader_pg := need (leader_pg_addr leader) in
  let? hp := need (split_host_port leader_pg) in
  rejoin_each nodes leader_mgmt hp.1 hp.2 standbys major.

(** ** The gate at the end *)
Fixpoint verify_lag (nodes : list NodeInfo) (leader_mgmt : bytes) : io () :=
  match nodes with
  | [] => ok tt
  | n :: nodes =>
      let? leader := call (GetLeader leader_mgmt) in
      let? leader := need leader in
      if id n =? default u64_max (leader_id leader) then verify_lag nodes leader_mgmt
      else
        let? lag := call (GetLag leader_mgmt (id n)) in
        let? synced := need lag in
        let? _ := check synced in
        verify_lag nodes leader_mgmt
  end.
Fixpoint verify_majors (nodes : list NodeInfo) (to : Z) : io () :=
  match nodes with
  | [] => ok tt
  | n :: nodes =>
      let? st := call (GetStatus (mgmt_addr n)) in
      let? st := need st in
      let? major := need (UpgradeApi.active_major st) in
      let? _ := check (major =? to) in
      verify_majors nodes to
  end.
Definition verify_post_upgrade (nodes : list NodeInfo) (leader_mgmt : bytes) (to : Z) : io () :=
  let? green := call (DoctorStrict (Some leader_mgmt)) in
  let? _ := check green in
  let? _ := verify_lag nodes leader_mgmt in
  verify_majors nodes to.

(** ** The apply *)
Definition standbys_of (nodes : list NodeInfo) (leader : option NodeId) : list NodeInfo :=
  filter (λ n, Some (id n) ≠ leader) nodes.
Fixpoint stop_standbys (nodes standbys : list NodeInfo) : io () :=
  match standbys with
  | [] => ok tt
  | n :: standbys =>
      let* stopped := ask (StopPostgres (mgmt_addr n)) in
      if stopped : bool then stop_standbys nodes standbys
      else let* _ := abort_after_serving_primary nodes in bail
  end.
Definition apply_experimental (nodes : list NodeInfo) (leader : option NodeId) (leader_mgmt : bytes) (to : Z) (mode : bytes) : io () :=
  let standbys := standbys_of nodes leader in
  let? _ := commit_step nodes (UpgradeApi.Freeze (id <$> standbys)) in
  let? _ := stop_standbys nodes standbys in
  let* applied := ask (Apply leader_mgmt to mode) in
  match applied with
  | Some true =>
      let? _ := wait_for_serving_primary nodes in
      let? _ := serve_swapped_primary nodes leader_mgmt in
      let? _ := rejoin_standbys nodes leader_mgmt standbys to in
      verify_post_upgrade nodes leader_mgmt to
  | _ => let* _ := abort_after_serving_primary nodes in bail
  end.

(** ** What an invocation does to an upgrade under way *)
Fixpoint confirm_each (nodes : list NodeInfo) (to : Z) : io () :=
  match nodes with
  | [] => ok tt
  | n :: nodes =>
      let? r := call (Confirm (mgmt_addr n) to) in
      let? success := need r in
      let? _ := check success in
      confirm_each nodes to
  end.
Definition entered {A} (p : PostgresUpgradeParams) (f : bytes → list NodeInfo → io A) : io A :=
  let? entry := call (ResolveEntry (node p)) in
  let? entry := need entry in
  let? nodes := call (GetNodes entry) in
  let? nodes := need nodes in
  f entry nodes.
Definition led {A} (entry : bytes) (f : LeaderInfo → bytes → io A) : io A :=
  let? leader := call (GetLeader entry) in
  let? leader := need leader in
  let? leader_mgmt := need (leader_mgmt_addr leader) in
  f leader leader_mgmt.
Definition run_confirm (p : PostgresUpgradeParams) : io () :=
  entered p (λ entry nodes, led entry (λ _ leader_mgmt,
    let? _ := verify_post_upgrade nodes leader_mgmt (to_major p) in
    confirm_each nodes (to_major p))).

Fixpoint stop_quietly (standbys : list NodeInfo) : prog Answer () :=
  match standbys with
  | [] => Ret tt
  | n :: standbys => let* _ := ask (StopPostgres (mgmt_addr n)) in stop_quietly standbys
  end.
Definition run_rollback (p : PostgresUpgradeParams) : io () :=
  let? _ := check (negb (accept_no_rollback p)) in
  entered p (λ entry nodes, led entry (λ leader leader_mgmt,
    let standbys := standbys_of nodes (leader_id leader) in
    let? _ := commit_step nodes (UpgradeApi.Freeze (id <$> standbys)) in
    let* _ := stop_quietly standbys in
    let* r := ask (Rollback leader_mgmt (to_major p) (accept_write_loss p)) in
    match r with
    | Some (true, from_major) =>
        let? _ := wait_for_serving_primary nodes in
        let? _ := serve_swapped_primary nodes leader_mgmt in
        let? _ := rejoin_standbys nodes leader_mgmt standbys from_major in
        let? green := call (DoctorStrict (Some leader_mgmt)) in
        check green
    | _ => let* _ := abort_after_serving_primary nodes in bail
    end)).
Definition run_abort (p : PostgresUpgradeParams) : io () :=
  entered p (λ _ nodes,
    let? _ := wait_for_serving_primary nodes in
    commit_step nodes UpgradeApi.Abort).
Definition resume_targets (record : PgUpgradeState) (nodes : list NodeInfo) : result () (list NodeInfo) :=
  if frozen record then Err tt else Ok (filter (λ n, id n ∈ awaiting_rejoin record) nodes).
Definition run_resume (p : PostgresUpgradeParams) : io () :=
  entered p (λ entry nodes,
    let? _ := wait_for_serving_primary nodes in
    led entry (λ _ leader_mgmt,
      let? record := call (GetRecord leader_mgmt) in
      let? record := need record in
      match resume_targets record nodes with
      | Err _ => bail
      | Ok [] => ok tt
      | Ok standbys =>
          let? _ := rejoin_standbys nodes leader_mgmt standbys (to_major p) in
          verify_post_upgrade nodes leader_mgmt (to_major p)
      end)).

Fixpoint require_bins (nodes : list NodeInfo) (to : Z) : io () :=
  match nodes with
  | [] => ok tt
  | n :: nodes =>
      let? bins := call (GetBins (mgmt_addr n)) in
      let? bins := need bins in
      let? _ := check (require_target_bin_on_node bins to) in
      require_bins nodes to
  end.
Definition run_postgres_upgrade (p : PostgresUpgradeParams) : io () :=
  if blue_green p then let? done := call BlueGreen in check done
  else
    match RecordAction_of p with
    | Err _ => bail
    | Ok (Some ActAbort) => run_abort p
    | Ok (Some ActResume) => run_resume p
    | Ok (Some ActConfirm) => run_confirm p
    | Ok (Some ActRollback) => run_rollback p
    | Ok None =>
        let? _ := check (check_only p || experimental p) in
        let? _ := check (require_backup_when_no_rollback (accept_no_rollback p) (allow_no_backup p)) in
        let? green := call (DoctorStrict (node p)) in
        let? _ := check green in
        entered p (λ entry nodes,
          let? _ := check (negb (bool_decide (nodes = []))) in
          let? _ := require_bins nodes (to_major p) in
          led entry (λ leader leader_mgmt,
            let? mode := need (resolve_transfer_mode_cli (transfer_mode p) (accept_no_rollback p)) in
            let? resp := call (Preflight leader_mgmt (PreflightRequest_ (to_major p) (trim_dashes (Upgrade.as_pg_upgrade_flag mode))
                                 (allow_no_backup p) (accept_no_rollback p) (accept_write_loss p))) in
            let? resp := need resp in
            let? _ := check (preflight_ok resp) in
            if check_only p then ok tt
            else apply_experimental nodes (leader_id leader) leader_mgmt (to_major p) (preflight_resolved resp)))
    end.
End Cluster.
