(* ===== verification/UpgradeCliProofs.v ===== *)
(** * What the upgrade command does to the cluster

    When clients are released; what the committed record says at each of the command's
    steps and at its end; the order in which standbys are rejoined. *)

From S2P Require Import Prelude Effects Text ClusterState UpgradeCli.
From S2P Require Upgrade UpgradeApi.
From Stdlib Require Import Strings.Byte.

Abbreviation hist := (list (@event Req Answer)).
Abbreviation cev q r := (answered (R := Answer) q r).
Abbreviation seen := (Effects.saw (R := Answer)).

(** ** Releases *)
Definition releases (q : Req) : bool :=
  match q with CommitStep _ (UpgradeApi.Abort | UpgradeApi.Serve _) => true | _ => false end.
Definition mild (q : Req) : bool := negb (releases q).
(** The step commits and the read of the lineage to commit. *)
Definition bookkeeping (q : Req) : bool := match q with GetLineage _ | CommitStep _ _ => true | _ => false end.
(** No step of the upgrade: neither a commit, nor an apply, nor a rejoin. *)
Definition idle (q : Req) : bool :=
  match q with CommitStep _ _ | Apply _ _ _ | Rejoin _ _ _ _ => false | _ => true end.
(** The last thing heard was the leader, by its own status, serving as primary. *)
Definition probed (h : hist) : Prop :=
  ∃ h1 addr leader mgmt pg status h2,
    h = h1 ++ [cev (GetLeader addr) (Some (LeaderInfo_ (Some leader) (Some mgmt) pg)); cev (GetStatus mgmt) (Some status)] ++ h2 ∧
    UpgradeApi.status_node status = leader ∧ UpgradeApi.in_recovery status = Some false ∧
    Forall (λ e, bookkeeping (projT1 e) = true) h2.
Definition released (h : hist) (q : Req) : Prop := releases q = true → probed h.

Lemma probed_since h q r : probed h → bookkeeping q = true → probed (h ++ [cev q r]).
Proof.
  intros (h1 & addr & leader & mgmt & pg & status & h2 & -> & Hn & Hr & F) Hq.
  exists h1, addr, leader, mgmt, pg, status, (h2 ++ [cev q r]). split; [by rewrite <-!app_assoc|].
  split; [done|]. split; [done|]. apply Forall_app. by repeat constructor.
Qed.
Lemma commit_released h nodes step : probed h → safe any_answer released h (commit_step nodes step) (λ _ _, True).
Proof.
  revert h. induction nodes as [|n nodes IH]; intros h Hp; cbn [commit_step]; [done|].
  split; [by intros _|]. intros r _. cbn [bind]. assert (probed (h ++ [cev (CommitStep (mgmt_addr n) step) r])) as Hp1 by (by apply probed_since).
  destruct r as [[[] u]|]; try done; by apply IH.
Qed.
Lemma round_released h nodes : safe any_answer released h (probe_round nodes) (λ h' serving, serving = true → probed h').
Proof.
  revert h. induction nodes as [|n nodes IH]; intros h; cbn [probe_round]; [done|].
  split; [done|]. intros [[[leader|] [mgmt|] pg]|] _; try by apply IH. cbn [bind ask]. split; [done|].
  intros [status|] _; [|done]. cbn. intros [Hn Hr]%andb_true_iff.
  exists h, (mgmt_addr n), leader, mgmt, pg, status, []. rewrite <-app_assoc. split; [done|].
  apply bool_decide_eq_true in Hr. split_and!; [by apply Z.eqb_eq|done|constructor].
Qed.
Lemma wait_released rounds h nodes :
  safe any_answer released h (wait_for_serving_primary rounds nodes) (λ h' r, r = Ok tt → probed h').
Proof.
  unfold wait_for_serving_primary. split; [done|]. intros now _. cbn [bind ask]. generalize (h ++ [cev Now now]). clear h. generalize (now + 180 * secs). intros deadline.
  induction rounds as [|k IH]; intros h; cbn [wait_rounds]; [done|].
  apply safe_bind. eapply safe_post; [apply round_released|]. intros h1 [] Hs; [intros _; by apply Hs|].
  split; [done|]. intros now1 _. cbn [bind ask]. destruct (deadline <=? now1); [done|]. split; [done|]. intros [] _. apply IH.
Qed.
Lemma abort_released rounds h nodes : safe any_answer released h (abort_after_serving_primary rounds nodes) (λ _ _, True).
Proof.
  apply safe_bind, safe_try_bind. eapply safe_post; [apply wait_released|]. intros h1 [[]|e] Hp; [|done].
  eapply safe_post; [by apply commit_released, Hp|]. done.
Qed.
Lemma serve_released h nodes leader : probed h → safe any_answer released h (serve_swapped_primary nodes leader) (λ _ _, True).
Proof.
  intros Hp. apply safe_try_bind. split; [done|]. intros r _. cbn [bind ok safe].
  assert (probed (h ++ [cev (GetLineage leader) r])) as Hp1 by (by apply probed_since).
  destruct r as [[lineage|]|]; cbn; try done. by apply commit_released.
Qed.
(** The rest releases nobody. *)
Lemma mild_released {A} h (p : prog Answer A) : asks mild p → safe any_answer released h p (λ _ _, True).
Proof.
  intros Hp. revert h. induction p as [a|q k IH]; intros h; [done|]. destruct Hp as [Hq Hk]. split.
  - unfold mild in Hq. apply negb_true_iff in Hq. intros E. congruence.
  - intros r _. apply IH, Hk.
Qed.
Ltac mildly :=
  repeat (intros;
    first
      [ exact I
      | solve [auto with upgrade_cli]
      | lazymatch goal with
        | |- asks _ (bind (ask _) _) => split; [reflexivity|]
        | |- asks _ (bind _ _) => apply asks_bind
        | |- asks _ (try_bind (call _) _) => apply asks_try; [split; [reflexivity|]|]
        | |- asks _ (try_bind _ _) => apply asks_try
        | |- asks _ (call _) => split; [reflexivity|]
        | |- asks _ (need ?x) => destruct x
        | |- asks _ (check ?b) => destruct b
        | |- asks _ (if ?b then _ else _) => destruct b
        | |- asks _ (match ?x with _ => _ end) => destruct x
        | |- asks _ ((λ _, _) _) => cbv beta
        end ]).
Create HintDb upgrade_cli.
Lemma mild_commit nodes step : (∀ a, mild (CommitStep a step) = true) → asks mild (commit_step nodes step).
Proof.
  intros Hs. induction nodes as [|n nodes IH]; cbn [commit_step]; [exact I|]. split; [apply Hs|].
  intros [[[] u]|]; exact I || exact IH.
Qed.
Lemma idle_mild {A} (p : prog Answer A) : asks idle p → asks mild p.
Proof. induction p as [a|q k IH]; [done|]. intros [Hq Hk]. split; [by destruct q|]. intros r. apply IH, Hk. Qed.
Lemma idle_streaming rounds leader node : asks idle (wait_standby_streaming rounds leader node).
Proof.
  split; [done|]. intros now. cbn [bind]. generalize (now + 180 * secs). intros d.
  induction rounds as [|k IH]; cbn; [exact I|]. split; [done|]. intros lag. case_bool_decide; [exact I|]. split; [done|].
  intros now1. destruct (d <=? now1); [exact I|]. by split.
Qed.
Lemma idle_verify nodes leader to : asks idle (verify_post_upgrade nodes leader to).
Proof.
  unfold verify_post_upgrade. mildly; intros.
  - induction nodes as [|n nodes IH]; cbn [verify_lag]; [exact I|]. mildly; exact IH.
  - induction nodes as [|n nodes IH]; cbn [verify_majors]; [exact I|]. mildly; exact IH.
Qed.
Lemma idle_round nodes : asks idle (probe_round nodes).
Proof.
  induction nodes as [|n nodes IH]; cbn [probe_round]; [exact I|]. split; [done|].
  intros [[[leader|] [mgmt|] pg]|]; try exact IH. by split.
Qed.
Lemma idle_wait rounds nodes : asks idle (wait_for_serving_primary rounds nodes).
Proof.
  split; [done|]. intros now. cbn [bind]. generalize (now + 180 * secs). intros d.
  induction rounds as [|k IH]; cbn [wait_rounds]; [exact I|]. apply asks_bind; [apply idle_round|].
  intros []; [exact I|]. split; [done|]. intros now1. cbn [bind]. destruct (d <=? now1); [exact I|]. by split.
Qed.
#[export] Hint Resolve idle_streaming idle_verify idle_wait : upgrade_cli.
#[export] Hint Extern 2 (asks mild _) => (apply idle_mild) : upgrade_cli.
#[export] Hint Extern 1 (asks _ (commit_step _ _)) => (by apply mild_commit) : upgrade_cli.
Lemma mild_rejoin rounds nodes leader standbys major : asks mild (rejoin_standbys rounds nodes leader standbys major).
Proof.
  unfold rejoin_standbys. mildly. intros hp. induction standbys as [|n standbys IH]; cbn [rejoin_each]; [exact I|]. mildly; exact IH.
Qed.
#[export] Hint Resolve mild_rejoin : upgrade_cli.

Section Released.
Context (rounds : nat).
Abbreviation rel h p := (safe any_answer released h p (λ _ _, True)).
Lemma then_released {A B} h (p : io A) (f : A → io B) : asks mild p → (∀ h' a, rel h' (f a)) → rel h (try_bind p f).
Proof.
  intros Hp Hf. apply safe_try_bind. eapply safe_post; [by apply mild_released|]. intros h' [a|e] _; [apply Hf|done].
Qed.
Lemma waited_released {B} h nodes (f : () → io B) :
  (∀ h', probed h' → rel h' (f tt)) → rel h (try_bind (wait_for_serving_primary rounds nodes) f).
Proof.
  intros Hf. apply safe_try_bind. eapply safe_post; [apply wait_released|]. intros h' [[]|e] Hp; [|done]. by apply Hf, Hp.
Qed.
Lemma failed_released {A} h nodes : rel h (let* _ := abort_after_serving_primary rounds nodes in (bail : io A)).
Proof. apply safe_bind. by eapply safe_post; [apply abort_released|]. Qed.
Lemma swapped_released h nodes leader standbys major (q : io ()) :
  (∀ h', rel h' q) →
  rel h (let? _ := wait_for_serving_primary rounds nodes in
         let? _ := serve_swapped_primary nodes leader in
         let? _ := rejoin_standbys rounds nodes leader standbys major in q).
Proof.
  intros Hf. apply waited_released. intros h1 Hp. apply safe_try_bind. eapply safe_post; [by apply serve_released|].
  intros h2 [[]|e] _; [|done]. apply then_released; [auto with upgrade_cli|]. intros h3 a. apply Hf.
Qed.
Lemma stops_released h nodes standbys : rel h (stop_standbys rounds nodes standbys).
Proof.
  revert h. induction standbys as [|n standbys IH]; intros h; cbn [stop_standbys]; [done|].
  split; [done|]. intros [] _; [apply IH|apply failed_released].
Qed.
Lemma apply_released h nodes leader mgmt to mode : rel h (apply_experimental rounds nodes leader mgmt to mode).
Proof.
  unfold apply_experimental. apply then_released; [mildly|]. intros h1 []. apply safe_try_bind.
  eapply safe_post; [apply stops_released|]. intros h2 [[]|e] _; [|done].
  split; [done|]. intros [[]|] _; [|apply failed_released..]. apply swapped_released. intros h'.
  apply mild_released. auto with upgrade_cli.
Qed.
Lemma entered_released {A} h p (f : bytes → list NodeInfo → io A) : (∀ h' e ns, rel h' (f e ns)) → rel h (entered p f).
Proof. intros Hf. unfold entered. do 4 (apply then_released; [mildly|]; intros). apply Hf. Qed.
Lemma led_released {A} h entry (f : LeaderInfo → bytes → io A) : (∀ h' l m, rel h' (f l m)) → rel h (led entry f).
Proof. intros Hf. unfold led. do 3 (apply then_released; [mildly|]; intros). apply Hf. Qed.
Lemma rollback_released h p : rel h (run_rollback rounds p).
Proof.
  unfold run_rollback. apply then_released; [mildly|]. intros h0 _. apply entered_released. intros h1 entry nodes.
  apply led_released. intros h2 leader mgmt. cbv zeta. apply then_released; [mildly|]. intros h3 _.
  apply safe_bind. eapply safe_post.
  { apply mild_released. generalize (standbys_of nodes (leader_id leader)). intros l. induction l as [|n l IH]; [exact I|]. by split. }
  intros h4 [] _. split; [done|]. intros [[[] major]|] _; [|apply failed_released..].
  apply swapped_released. intros h'. apply mild_released. mildly.
Qed.
Lemma mild_confirm nodes to : asks mild (confirm_each nodes to).
Proof. induction nodes as [|n nodes IH]; cbn [confirm_each]; [exact I|]. mildly; exact IH. Qed.
Lemma mild_bins nodes to : asks mild (require_bins nodes to).
Proof. induction nodes as [|n nodes IH]; cbn [require_bins]; [exact I|]. mildly; exact IH. Qed.
Lemma resume_released h p : rel h (run_resume rounds p).
Proof.
  apply entered_released. intros h1 entry nodes. apply waited_released. intros h2 _. apply led_released.
  intros h3 leader mgmt. apply mild_released. mildly.
Qed.
Lemma run_released p : rel [] (run_postgres_upgrade rounds p).
Proof.
  unfold run_postgres_upgrade. destruct (blue_green p); [by apply mild_released; mildly|].
  destruct (RecordAction_of p) as [[[]|]|]; [| | | | |done].
  - apply entered_released. intros h1 entry nodes. apply waited_released. intros h2 Hp. by apply commit_released.
  - apply resume_released.
  - apply entered_released. intros h1 entry nodes. apply led_released. intros h2 leader mgmt.
    apply then_released; [auto with upgrade_cli|]. intros h3 _. apply mild_released, mild_confirm.
  - apply rollback_released.
  - do 4 (apply then_released; [mildly|]; intros). apply entered_released. intros h1 entry nodes.
    apply then_released; [mildly|]. intros h2 _. apply then_released; [apply mild_bins|]. intros h3 _.
    apply led_released. intros h4 leader mgmt. do 4 (apply then_released; [mildly|]; intros).
    destruct (check_only p); [done|]. apply apply_released.
Qed.
End Released.

(** ** The record under the command's steps *)
(** A step committed moved the record as the state machine does; one refused left it;
    one unanswered may have done either. *)
Definition moved (u : PgUpgradeState) (s : UpgradeApi.UpgradeRecordStep) : PgUpgradeState :=
  (Upgrade.apply u (UpgradeApi.command s)).1.
Definition record_step (u : PgUpgradeState) (e : @event Req Answer) (u' : PgUpgradeState) : Prop :=
  match projT1 e as q return Answer q → Prop with
  | CommitStep _ s => λ r,
      match r with
      | Some (UpgradeApi.OK, _) => Upgrade.apply u (UpgradeApi.command s) = (u', Applied)
      | Some (UpgradeApi.CONFLICT, _) => Upgrade.apply u (UpgradeApi.command s) = (u, OutOfOrder) ∧ u' = u
      | _ => u' = u ∨ u' = moved u s
      end
  | GetRecord _ => λ r, (∀ v, r = Some v → v = u) ∧ u' = u
  | _ => λ _, u' = u
  end (projT2 e).

(** Every request is asked where [ok] holds; the end is in [Q]. *)
Section Holds.
Context (ok : PgUpgradeState → Req → Prop).
Fixpoint holds {A} (p : prog Answer A) (u : PgUpgradeState) (Q : A → PgUpgradeState → Prop) : Prop :=
  match p with
  | Ret a => Q a u
  | Do q k => ok u q ∧ ∀ r u', record_step u (answered q r) u' → holds (k r) u' Q
  end.
Lemma holds_issues {A} (p : prog Answer A) u Q t q u' : holds p u Q → issues p t q → steps record_step u t u' → ok u' q.
Proof.
  revert u t. induction p as [a|e k IH]; intros u t; [done|]. intros [Hq Hk] [[-> ->]|(r & t' & -> & Hi)] Hs.
  - cbn in Hs. by subst.
  - destruct Hs as (u1 & H1 & Hs). eapply IH; [by apply Hk|exact Hi|exact Hs].
Qed.
Lemma holds_runs {A} (p : prog Answer A) u Q t a u' : holds p u Q → runs p t a → steps record_step u t u' → Q a u'.
Proof.
  revert u t. induction p as [a'|e k IH]; intros u t.
  - intros HQ [-> ->] Hs. cbn in Hs. by subst.
  - intros [_ Hk] (r & t' & -> & Hr) (u1 & H1 & Hs). eapply IH; [by apply Hk|exact Hr|exact Hs].
Qed.
Lemma holds_mono {A} (p : prog Answer A) u (Q Q' : A → PgUpgradeState → Prop) :
  holds p u Q → (∀ a u', Q a u' → Q' a u') → holds p u Q'.
Proof.
  intros H HQ. revert u H. induction p as [a|e k IH]; intros u; [apply HQ|]. intros [Hq Hk]. split; [done|].
  intros r u' Hs. by apply IH, Hk.
Qed.
Lemma holds_bind {A B} (p : prog Answer A) (f : A → prog Answer B) u Q :
  holds p u (λ a u', holds (f a) u' Q) → holds (bind p f) u Q.
Proof.
  revert u. induction p as [a|e k IH]; intros u; [done|]. intros [Hq Hk]. split; [done|].
  intros r u' Hs. by apply IH, Hk.
Qed.
Lemma holds_try {A B} (p : io A) (f : A → io B) u Q :
  holds p u (λ x u', match x with Ok a => holds (f a) u' Q | Err e => Q (Err e) u' end) → holds (try_bind p f) u Q.
Proof. intros H. apply holds_bind. eapply holds_mono; [exact H|]. by intros [a|e] u'. Qed.
End Holds.

(** A step's goal is kept by the step. *)
Lemma moved_twice u s : moved (moved u s) s = moved u s.
Proof.
  unfold moved. destruct s as [l|x|n|]; cbn [UpgradeApi.command Upgrade.apply].
  - destruct (frozen u && bool_decide (awaiting_rejoin u = l)) eqn:E; cbn [fst]; [by rewrite E|].
    destruct (frozen u || negb (bool_decide (awaiting_rejoin u = []))) eqn:E2; cbn [fst frozen awaiting_rejoin].
    + by rewrite E, E2.
    + rewrite bool_decide_eq_true_2 by done. done.
  - done.
  - cbn. f_equal. unfold Upgrade.retain_ne. apply list_filter_filter_l. done.
  - destruct (negb (frozen u) && negb (bool_decide (awaiting_rejoin u = []))) eqn:E; cbn [fst]; [by rewrite E|done].
Qed.
Lemma refused_stays u s : (Upgrade.apply u (UpgradeApi.command s)).2 = OutOfOrder → moved u s = u.
Proof.
  unfold moved. destruct s; cbn [UpgradeApi.command Upgrade.apply]; repeat case_match; done.
Qed.

(** What the nodes would answer to the step asked of them now: the primary's own
    refusal to apply, a standby's own refusal to rejoin. *)
Definition granted (nodes : list NodeInfo) (leader : NodeId) (u : PgUpgradeState) (q : Req) : Prop :=
  match q with
  | Apply _ _ _ => UpgradeApi.apply_refusal u true leader = None
  | Rejoin addr _ _ _ => ∃ n, n ∈ nodes ∧ mgmt_addr n = addr ∧ UpgradeApi.rejoin_refusal u (id n) = false
  | _ => True
  end.
Section Record.
Context (rounds : nat) (nodes : list NodeInfo) (leader : NodeId).
Abbreviation follows p u Q := (holds (granted nodes leader) p u Q).

Lemma idle_stays {A} (p : prog Answer A) u : asks idle p → follows p u (λ _ u', u' = u).
Proof.
  intros Hp. induction p as [a|q k IH]; [done|]. destruct Hp as [Hq Hk].
  split; [by destruct q|]. intros r u' Hs. assert (u' = u) as -> by (destruct q; try discriminate Hq; first [exact Hs|apply Hs]).
  apply IH, Hk.
Qed.
Lemma idle_then {A B} (p : io A) (f : A → io B) u Q :
  asks idle p → (∀ e, Q (Err e) u) → (∀ a, follows (f a) u Q) → follows (try_bind p f) u Q.
Proof. intros Hp He Hf. apply holds_try. eapply holds_mono; [by apply idle_stays|]. by intros [a|e] u' ->. Qed.

Lemma commit_follows ns s u :
  follows (commit_step ns s) u (λ r u',
    match r with
    | Ok _ => Upgrade.apply u (UpgradeApi.command s) = (u', Applied)
    | Err _ => u' = u ∨ u' = moved u s
    end).
Proof.
  assert (∀ v, v = u ∨ v = moved u s → follows (commit_step ns s) v (λ r u',
    match r with Ok _ => Upgrade.apply u (UpgradeApi.command s) = (u', Applied) | Err _ => u' = u ∨ u' = moved u s end)) as H; [|apply H; by left].
  induction ns as [|n ns IH]; intros v Hv; cbn [commit_step]; [exact Hv|].
  assert (moved v s = moved u s) as Em by (destruct Hv as [->| ->]; [done|apply moved_twice]).
  split; [done|]. intros r u' Hs. cbn [bind].
  assert (∀ v', v' = v ∨ v' = moved v s → v' = u ∨ v' = moved u s) as Hin.
  { intros v' [->| ->]; [exact Hv|right; exact Em]. }
  destruct r as [[[] w]|]; cbn in Hs; try (apply IH, Hin; exact Hs).
  - assert (u' = moved u s) as E1 by (rewrite <-Em; unfold moved; by rewrite Hs).
    destruct (Upgrade.apply u (UpgradeApi.command s)) as [a []] eqn:Ea.
    + cbn. unfold moved in E1. rewrite Ea in E1. cbn in E1. by subst.
    + exfalso. pose proof (refused_stays u s) as Hr. rewrite Ea in Hr. specialize (Hr eq_refl).
      destruct Hv as [->| ->]; [|rewrite Hr in Hs]; rewrite Ea in Hs; discriminate Hs.
  - destruct Hs as [_ ->]. exact Hv.
Qed.
End Record.

Section Steps.
Context (rounds : nat) (nodes : list NodeInfo) (leader : NodeId).
Abbreviation follows p u Q := (holds (granted nodes leader) p u Q).

Lemma failing_follows {A} ns u (Q : result Exit A → PgUpgradeState → Prop) :
  (∀ e u', Q (Err e) u') → follows (let* _ := abort_after_serving_primary rounds ns in (bail : io A)) u Q.
Proof.
  intros HQ. apply holds_bind, holds_bind. apply idle_then; [apply idle_wait| |].
  - intros e. apply HQ.
  - intros []. eapply holds_mono; [apply commit_follows|]. intros r u' _. apply HQ.
Qed.
Lemma stops_follow ns standbys u : follows (stop_standbys rounds ns standbys) u (λ r u', r = Ok tt → u' = u).
Proof.
  induction standbys as [|n standbys IH]; cbn [stop_standbys]; [done|].
  split; [done|]. intros stopped u' ->. cbn [bind]. destruct stopped; [exact IH|]. by apply failing_follows.
Qed.
Lemma serve_follows mgmt u : follows (serve_swapped_primary nodes mgmt) u (λ r u', r = Ok tt → u' = PgUpgradeState_ false (awaiting_rejoin u)).
Proof.
  unfold serve_swapped_primary. do 3 (apply idle_then; [mildly|done|]; intros).
  eapply holds_mono; [apply commit_follows|]. intros [[]|e] u' H; [|done]. intros _. cbn in H. by injection H as <-.
Qed.
Definition remaining (standbys : list NodeInfo) (l : list NodeId) : list NodeId := filter (λ i, i ∉ id <$> standbys) l.
Lemma remaining_cons n standbys l : remaining standbys (Upgrade.retain_ne (id n) l) = remaining (n :: standbys) l.
Proof.
  unfold remaining, Upgrade.retain_ne. rewrite list_filter_filter. apply list_filter_iff. intros i.
  rewrite fmap_cons, not_elem_of_cons. tauto.
Qed.
Lemma rejoins_follow mgmt host port standbys major u :
  frozen u = false → NoDup (id <$> standbys) → (∀ n, n ∈ standbys → n ∈ nodes ∧ id n ∈ awaiting_rejoin u) →
  follows (rejoin_each rounds nodes mgmt host port standbys major) u
    (λ r u', r = Ok tt → u' = PgUpgradeState_ false (remaining standbys (awaiting_rejoin u))).
Proof.
  revert u. induction standbys as [|n standbys IH]; intros u Hf Hd Hin; cbn [rejoin_each].
  - intros _. destruct u as [f l]. cbn in Hf |- *. subst f. f_equal. unfold remaining. symmetry. apply filter_all.
    intros i _. apply not_elem_of_nil.
  - apply holds_try. split.
    { destruct (Hin n) as [? ?]; [by left|]. exists n. split_and!; [done..|]. unfold UpgradeApi.rejoin_refusal, Upgrade.leaves_stopped.
      by rewrite bool_decide_eq_true_2. }
    intros r u' ->. cbn [bind ok holds]. do 3 (apply idle_then; [mildly|done|]; intros).
    apply holds_try. eapply holds_mono; [apply commit_follows|]. intros [[]|e] u' H; [|done].
    cbn in H. injection H as <-. rewrite fmap_cons in Hd. apply NoDup_cons in Hd as [Hn Hd].
    eapply holds_mono; [apply IH; [done..|]|].
    + intros m Hm. destruct (Hin m) as [? Hw]; [by right|]. split; [done|]. apply list_elem_of_filter. split; [|done].
      intros E. apply Hn. rewrite <-E. by apply list_elem_of_fmap_2.
    + intros r2 u2 Hr -> %Hr. cbn [awaiting_rejoin]. by rewrite remaining_cons.
Qed.
Lemma rejoin_follows mgmt standbys major u :
  frozen u = false → NoDup (id <$> standbys) → (∀ n, n ∈ standbys → n ∈ nodes ∧ id n ∈ awaiting_rejoin u) →
  follows (rejoin_standbys rounds nodes mgmt standbys major) u
    (λ r u', r = Ok tt → u' = PgUpgradeState_ false (remaining standbys (awaiting_rejoin u))).
Proof.
  intros Hf Hd Hin. unfold rejoin_standbys. do 4 (apply idle_then; [mildly|done|]; intros). by apply rejoins_follow.
Qed.

Lemma ids_nodup (P : NodeInfo → Prop) `{∀ n, Decision (P n)} l : NoDup (id <$> l) → NoDup (id <$> filter P l).
Proof.
  induction l as [|n l IH]; [done|]. rewrite fmap_cons, filter_cons. intros [Hn Hd]%NoDup_cons.
  destruct (decide (P n)); [|by apply IH]. rewrite fmap_cons. apply NoDup_cons. split; [|by apply IH].
  intros (m & E & Hm)%list_elem_of_fmap. apply list_elem_of_filter in Hm as [_ Hm]. apply Hn.
  rewrite E. by apply list_elem_of_fmap_2.
Qed.
Lemma apply_follows mgmt to mode u :
  NoDup (id <$> nodes) →
  follows (apply_experimental rounds nodes (Some leader) mgmt to mode) u (λ r u', r = Ok tt → u' = pg_upgrade_default).
Proof.
  intros Hd. unfold apply_experimental. set (standbys := standbys_of nodes (Some leader)).
  assert (NoDup (id <$> standbys)) as Hds.
  { by apply ids_nodup. }
  assert (leader ∉ id <$> standbys) as Hl.
  { intros (n & -> & H)%list_elem_of_fmap. by apply list_elem_of_filter in H as [H _]. }
  apply holds_try. eapply holds_mono; [apply commit_follows|]. intros [[]|e] u1 H1; [|done].
  assert (u1 = PgUpgradeState_ true (id <$> standbys)) as ->.
  { cbn in H1. destruct (frozen u && bool_decide _) eqn:E.
    - injection H1 as <-. apply andb_true_iff in E as [Ef El%bool_decide_eq_true]. destruct u as [f l]. cbn in *. by subst.
    - destruct (frozen u || _); [discriminate H1|]. by injection H1 as <-. }
  apply holds_try. eapply holds_mono; [apply stops_follow|]. intros [[]|e] u2 H2; [|done]. specialize (H2 eq_refl) as ->.
  split.
  { cbn. unfold UpgradeApi.apply_refusal, Upgrade.leaves_stopped. cbn. by rewrite bool_decide_eq_false_2. }
  intros r u3 ->. cbn [bind]. destruct r as [[]|]; [|by apply failing_follows..].
  apply idle_then; [apply idle_wait|done|]. intros []. apply holds_try. eapply holds_mono; [apply serve_follows|].
  intros [[]|e] u4 H4; [|done]. specialize (H4 eq_refl) as ->. cbn [awaiting_rejoin].
  apply holds_try. eapply holds_mono; [apply rejoin_follows; [done..|]|].
  - intros n Hn. split; [|by apply list_elem_of_fmap_2]. unfold standbys, standbys_of in Hn. by apply list_elem_of_filter in Hn as [_ Hn].
  - intros [[]|e] u5 H5; [|done]. specialize (H5 eq_refl) as ->. cbn [awaiting_rejoin].
    eapply holds_mono; [apply idle_stays, idle_verify|]. intros r u6 -> _. unfold pg_upgrade_default. f_equal.
    unfold remaining. destruct (filter _ _) as [|i l] eqn:E; [done|].
    assert (i ∈ i :: l) as Hi by (by left). rewrite <-E in Hi. by apply list_elem_of_filter in Hi as [? ?].
Qed.
End Steps.

(** ** One standby at a time *)
(** Everything before [n] in the list streams again, and the record says so. *)
Definition rejoined (leader_mgmt : bytes) (h : hist) (n : NodeInfo) : Prop :=
  seen h (GetLag leader_mgmt (id n)) (λ lag : option bool, lag = Some true) ∧
  ∃ addr, seen h (CommitStep addr (UpgradeApi.Rejoined (id n))) (λ r : option (UpgradeApi.StatusCode * PgUpgradeState), ∃ u, r = Some (UpgradeApi.OK, u)).
Definition in_turn (leader_mgmt : bytes) (standbys : list NodeInfo) (h : hist) (q : Req) : Prop :=
  match q with
  | Rejoin addr _ _ _ => ∃ before n after, standbys = before ++ n :: after ∧ addr = mgmt_addr n ∧ Forall (rejoined leader_mgmt h) before
  | _ => True
  end.
Lemma rejoined_app leader h t n : rejoined leader h n → rejoined leader (h ++ t) n.
Proof. intros [H1 (a & H2)]. split; [by apply saw_app_l|]. exists a. by apply saw_app_l. Qed.
Section Turns.
Context (rounds : nat) (nodes : list NodeInfo) (mgmt host : bytes) (port major : Z) (all : list NodeInfo).
Abbreviation turns h p Q := (safe any_answer (in_turn mgmt all) h p Q).
Lemma streaming_turn h n : turns h (wait_standby_streaming rounds mgmt n)
  (λ h' r, (∃ t, h' = h ++ t) ∧ (r = Ok tt → seen h' (GetLag mgmt n) (λ lag : option bool, lag = Some true))).
Proof.
  split; [done|]. intros now _. cbn [bind]. generalize (now + 180 * secs). intros d.
  assert (∃ t, h ++ [cev Now now] = h ++ t) as Hx by eauto. revert Hx. generalize (h ++ [cev Now now]). intros h1.
  revert h1. induction rounds as [|k IH]; intros h1 Hx; cbn [lag_rounds]; [by split|].
  split; [done|]. intros lag _. cbn [bind]. assert (∃ t, h1 ++ [cev (GetLag mgmt n) lag] = h ++ t) as Hx1.
  { destruct Hx as (t & ->). rewrite <-app_assoc. eauto. }
  case_bool_decide as Hl; [split; [done|]; intros _; by apply saw_here|].
  split; [done|]. intros now1 _. cbn [bind]. assert (∀ r, ∃ t, (h1 ++ [cev (GetLag mgmt n) lag]) ++ [cev Now r] = h ++ t) as Hx2.
  { intros r. destruct Hx1 as (t & ->). rewrite <-app_assoc. eauto. }
  destruct (d <=? now1); [by split|]. split; [done|]. intros [] _. apply IH. destruct (Hx2 now1) as (t & ->). rewrite <-app_assoc. eauto.
Qed.
Lemma commit_turn h ns s : turns h (commit_step ns s)
  (λ h' r, (∃ t, h' = h ++ t) ∧ (r = Ok tt → ∃ addr, seen h' (CommitStep addr s) (λ r : option (UpgradeApi.StatusCode * PgUpgradeState), ∃ u, r = Some (UpgradeApi.OK, u)))).
Proof.
  assert (∀ h1, (∃ t, h1 = h ++ t) → turns h1 (commit_step ns s)
    (λ h' r, (∃ t, h' = h ++ t) ∧ (r = Ok tt → ∃ addr, seen h' (CommitStep addr s) (λ r : option (UpgradeApi.StatusCode * PgUpgradeState), ∃ u, r = Some (UpgradeApi.OK, u))))) as H.
  { induction ns as [|n ns IH]; intros h1 Hx; cbn [commit_step]; [done|]. split; [done|]. intros r _. cbn [bind].
    assert (∃ t, h1 ++ [cev (CommitStep (mgmt_addr n) s) r] = h ++ t) as Hx1.
    { destruct Hx as (t & ->). rewrite <-app_assoc. eauto. }
    destruct r as [[[] u]|]; try (by apply IH); [|done]. split; [done|]. intros _. exists (mgmt_addr n). apply saw_here. by exists u. }
  apply H. exists []. by rewrite app_nil_r.
Qed.
Lemma rejoins_in_turn h before standbys :
  all = before ++ standbys → Forall (rejoined mgmt h) before →
  turns h (rejoin_each rounds nodes mgmt host port standbys major) (λ _ _, True).
Proof.
  revert h before. induction standbys as [|n standbys IH]; intros h before Ha Hb; cbn [rejoin_each]; [done|].
  apply safe_try_bind. split; [by exists before, n, standbys|]. intros r _. cbn [bind ok safe].
  apply safe_try_bind. destruct r as [[]|]; cbn [need check ok bail safe]; [|by apply safe_try_bind|done].
  apply safe_try_bind. cbn [check ok safe]. apply safe_try_bind. eapply safe_post; [apply streaming_turn|]. intros h1 [[]|e] [(t1 & ->) Hl]; [|done]. specialize (Hl eq_refl).
  apply safe_try_bind. eapply safe_post; [apply commit_turn|]. intros h2 [[]|e] [(t2 & ->) Hc]; [|done]. specialize (Hc eq_refl).
  apply (IH _ (before ++ [n])); [by rewrite <-app_assoc|]. apply Forall_app. split.
  - eapply Forall_impl; [exact Hb|]. intros m Hm. by do 3 apply rejoined_app.
  - constructor; [|constructor]. split; [by apply saw_app_l|done].
Qed.
End Turns.

(** Two nodes, node 1 leading. *)
Module Pair.
Definition nodes : list NodeInfo := [NodeInfo_ 1 (lit "a"); NodeInfo_ 2 (lit "b")].
Definition leading : LeaderInfo := LeaderInfo_ (Some 1) (Some (lit "a")) (Some (lit "db1:5432")).
Definition serving (major : Z) : UpgradeApi.PostgresStatusResponse :=
  UpgradeApi.PostgresStatusResponse_ 1 (Some major) [] [] true (Some false).
Definition params : PostgresUpgradeParams :=
  PostgresUpgradeParams_ 18 false true false false true false None false false false None false.
Definition aborting : hist :=
  [cev (ResolveEntry None) (Some (lit "a")); cev (GetNodes (lit "a")) (Some nodes); cev Now 0;
   cev (GetLeader (lit "a")) (Some leading); cev (GetStatus (lit "a")) (Some (serving 17))].
Definition frozen : PgUpgradeState := PgUpgradeState_ true [2].
Definition served : PgUpgradeState := PgUpgradeState_ false [2].
Definition freezing : hist :=
  [cev (CommitStep (lit "a") (UpgradeApi.Freeze [2])) (Some (UpgradeApi.OK, frozen)); cev (StopPostgres (lit "b")) true].
Definition upgrading : hist :=
  freezing ++
  [cev (Apply (lit "a") 18 (lit "clone")) (Some true); cev Now 0; cev (GetLeader (lit "a")) (Some leading);
   cev (GetStatus (lit "a")) (Some (serving 18)); cev (GetLineage (lit "a")) (Some (Some 7));
   cev (CommitStep (lit "a") (UpgradeApi.Serve (Some 7))) (Some (UpgradeApi.OK, served)); cev (GetLeader (lit "a")) (Some leading)].
Definition rejoining : hist :=
  [cev (Rejoin (lit "b") 18 (lit "db1") 5432) (Some true); cev Now 0; cev (GetLag (lit "a") 2) (Some true);
   cev (CommitStep (lit "a") (UpgradeApi.Rejoined 2)) (Some (UpgradeApi.OK, pg_upgrade_default))].
Definition status2 : UpgradeApi.PostgresStatusResponse :=
  UpgradeApi.PostgresStatusResponse_ 2 (Some 18) [] [] false (Some true).
Definition verifying : hist :=
  [cev (DoctorStrict (Some (lit "a"))) true; cev (GetLeader (lit "a")) (Some leading);
   cev (GetLeader (lit "a")) (Some leading); cev (GetLag (lit "a") 2) (Some true);
   cev (GetStatus (lit "a")) (Some (serving 18)); cev (GetStatus (lit "b")) (Some status2)].
(** The apply outlives the command's patience and succeeds: the leader serves the new major. *)
Definition outlived : hist :=
  freezing ++
  [cev (Apply (lit "a") 18 (lit "clone")) None; cev Now 0; cev (GetLeader (lit "a")) (Some leading);
   cev (GetStatus (lit "a")) (Some (serving 18))].
Ltac walk := repeat (eexists; split; [vm_compute; reflexivity|]); try reflexivity.
Lemma upgraded : steps record_step pg_upgrade_default upgrading served.
Proof. walk. Qed.
Definition last : PgUpgradeState := moved served (UpgradeApi.Rejoined 2).
Lemma completed : steps record_step pg_upgrade_default (upgrading ++ rejoining ++ verifying) last.
Proof. walk. Qed.
End Pair.

(** Whatever the invocation, clients held by the record are released, by an abort or
    by serving, only where the last thing the command heard before its release's own
    bookkeeping was the node named leader answering, itself, that its PostgreSQL is not
    in recovery. *)
Lemma clients_are_released_only_to_a_serving_primary rounds p t q :
  issues (run_postgres_upgrade rounds p) t q → releases q = true → probed t.
Proof. intros Hi. change t with ([] ++ t). exact (safe_issues _ _ _ _ _ _ _ (run_released rounds p) Hi (relies_any _ _)). Qed.
Lemma clients_are_released_only_to_a_serving_primary_witness : probed Pair.aborting.
Proof.
  apply (clients_are_released_only_to_a_serving_primary 1 Pair.params Pair.aborting (CommitStep (lit "a") UpgradeApi.Abort)); [|done].
  apply replay_issues. vm_compute. reflexivity.
Defined.

(** An apply's steps against the record as the state machine moves it, its commits
    unanswered or refused as they may be, whatever the record was when it began: when
    the primary is asked to apply, its own refusal does not hold, the record being
    frozen and not listing it; when a standby is asked to rejoin, the record lists it;
    and an apply that succeeds leaves nothing frozen and no standby awaiting rejoin. *)
Lemma the_record_grants_each_step rounds nodes leader mgmt to mode u t u' :
  NoDup (id <$> nodes) → steps record_step u t u' →
  (∀ q, issues (apply_experimental rounds nodes (Some leader) mgmt to mode) t q → granted nodes leader u' q) ∧
  (runs (apply_experimental rounds nodes (Some leader) mgmt to mode) t (Ok tt) → u' = pg_upgrade_default).
Proof.
  intros Hd Hs. pose proof (apply_follows rounds nodes leader mgmt to mode u Hd) as H. split.
  - intros q Hi. exact (holds_issues _ _ _ _ _ _ _ H Hi Hs).
  - intros Hr. by apply (holds_runs _ _ _ _ _ _ _ H Hr Hs).
Qed.
Lemma the_record_grants_each_step_witness :
  (∃ n, n ∈ Pair.nodes ∧ mgmt_addr n = lit "b" ∧ UpgradeApi.rejoin_refusal Pair.served (id n) = false) ∧
  Pair.last = pg_upgrade_default.
Proof.
  split.
  - refine (proj1 (the_record_grants_each_step 1 Pair.nodes 1 (lit "a") 18 (lit "clone") pg_upgrade_default Pair.upgrading
      Pair.served _ Pair.upgraded) (Rejoin (lit "b") 18 (lit "db1") 5432) _).
    + apply (bool_decide_unpack _). vm_compute. exact I.
    + apply replay_issues. vm_compute. reflexivity.
  - refine (proj2 (the_record_grants_each_step 1 Pair.nodes 1 (lit "a") 18 (lit "clone") pg_upgrade_default
      (Pair.upgrading ++ Pair.rejoining ++ Pair.verifying) Pair.last _ Pair.completed) _).
    + apply (bool_decide_unpack _). vm_compute. exact I.
    + apply replay_runs. vm_compute. reflexivity.
Defined.

(** Standbys are rebuilt one at a time: a node is asked to rejoin only when each one
    before it in the list was seen streaming in step with the primary and its rejoin
    was committed. *)
Lemma standbys_rejoin_in_turn rounds nodes mgmt host port standbys major t q :
  issues (rejoin_each rounds nodes mgmt host port standbys major) t q → in_turn mgmt standbys t q.
Proof.
  intros Hi. change t with ([] ++ t).
  eapply safe_issues; [by apply (rejoins_in_turn rounds nodes mgmt host port major standbys [] [] standbys)|exact Hi|apply relies_any].
Qed.
Lemma standbys_rejoin_in_turn_witness :
  in_turn (lit "a") [NodeInfo_ 2 (lit "b"); NodeInfo_ 3 (lit "c")] Pair.rejoining (Rejoin (lit "c") 18 (lit "db1") 5432).
Proof.
  apply (standbys_rejoin_in_turn 1 Pair.nodes (lit "a") (lit "db1") 5432 [NodeInfo_ 2 (lit "b"); NodeInfo_ 3 (lit "c")] 18).
  apply replay_issues. vm_compute. reflexivity.
Defined.

(** The command waits ten minutes for the apply, which runs on in the node's own task.
    If it succeeds while the command looks for a serving primary, the upgrade is
    aborted after the swap: the standbys of the old major are released against a
    primary of the new one, whose lineage is never committed. *)
Lemma an_apply_that_outlives_the_command_is_aborted :
  issues (apply_experimental 1 Pair.nodes (Some 1) (lit "a") 18 (lit "clone")) Pair.outlived (CommitStep (lit "a") UpgradeApi.Abort) ∧
  UpgradeApi.active_major (Pair.serving 18) = Some 18.
Proof. split; [|done]. apply replay_issues. vm_compute. reflexivity. Qed.
