(* ===== verification/BlueGreen.v ===== *)
(** * The cutover across two clusters, the command ([commands/upgrade/blue_green.rs])

    [pgbattery upgrade postgres --blue-green]: it arms and seals the donor, waits for
    the recipient to drain, carries the sequences over, transfers, has the recipient
    receive, and verifies that exactly one cluster holds authority; and its [--check].
    Everything it asks goes to a node of one of the two clusters, with that cluster's
    token; [None] is a node that could not be reached or refused.  [rounds] bounds its
    two waits. *)

From S2P Require Import Prelude Effects Text ClusterState Handoff.
From S2P Require UpgradeApi UpgradeCli.
From Stdlib Require Import Strings.Byte.

Inductive Side := Blue | Green.
Inductive CutoverStep :=
| StepArm (target : bytes)
| StepSeal (app_roles accepted_security_definer : list bytes)
| StepDrainObserved
| StepTransfer (target : bytes) (target_pg_addr : bytes)
| StepReceive (epoch : Z) (from_cluster_id : bytes) (donor_mgmt_addrs : list bytes) (donor_sequences : list SequenceValue).

(** The fields of [SubscriptionProgressResponse] the gate reads. *)
Record SubscriptionProgress := SubscriptionProgress_ {
  enabled_subscription_count : Z; tables_total : Z; tables_ready : Z }.

Record BlueGreenPreflightRequest := BlueGreenPreflightRequest_ {
  pre_to_major : Z; pre_app_roles : list bytes; pre_accept_empty_unlogged : bool; pre_accepted_secdef : list bytes }.

Inductive Req :=
| Now | Sleep (d : Z)
| DoctorStrict (node : option bytes)
| ResolveEntry (node : option bytes)              (* cluster_client_and_entry *)
| GetNodes (side : Side) (addr : bytes)
| GetLeader (side : Side) (addr : bytes)
| GetBins (addr : bytes)
| Preflight (addr : bytes) (r : BlueGreenPreflightRequest)
| GetStatus (side : Side) (addr : bytes)
| GetSchemaDigest (side : Side) (addr : bytes)
| Step (side : Side) (addr : bytes) (step : CutoverStep)
| GetProgress (addr : bytes)                      (* of the recipient *)
| GetRetention (addr : bytes)                     (* of the donor *)
| GetSequences (addr : bytes)
| AdvanceSequences (addr : bytes) (sequences : list SequenceValue) (margin : Z).
Definition Answer (q : Req) : Type :=
  match q with
  | Now => Z
  | Sleep _ => unit
  | DoctorStrict _ => bool
  | ResolveEntry _ => option bytes
  | GetNodes _ _ => option (list UpgradeCli.NodeInfo)
  | GetLeader _ _ => option UpgradeCli.LeaderInfo
  | GetBins _ => option (gmap bytes UpgradeApi.PostgresBinDirInfo)
  | Preflight _ _ => option ()
  | GetStatus _ _ => option CutoverStatusResponse
  | GetSchemaDigest _ _ => option bytes
  | Step _ _ _ => bool
  | GetProgress _ => option SubscriptionProgress
  | GetRetention _ => option DonorRetentionResponse
  | GetSequences _ => option (list SequenceValue)
  | AdvanceSequences _ _ _ => bool
  end.
Inductive Exit := Bail | OutOfRounds.
Abbreviation io A := (prog Answer (result Exit A)).
Abbreviation ask := (@Effects.ask Req Answer).
Definition ok {A} (a : A) : io A := Ret (Ok a).
Definition bail {A} : io A := Ret (Err Bail).
Definition need {A} (r : option A) : io A := match r with Some a => ok a | None => bail end.
Definition check (b : bool) : io () := if b then ok tt else bail.
Definition call (q : Req) : io (Answer q) := let* r := ask q in ok r.

(** ** Decisions *)
Definition DONOR_WAL_RETENTION_BUDGET_BYTES : Z := 8 * 1024 * 1024 * 1024.
Definition SEQUENCE_ADVANCE_MARGIN : Z := 10000.
Definition RETENTION_FAILURE_ABORT_THRESHOLD : Z := 3.

(** [schema_digests_agree]. *)
Definition schema_digests_agree (donor recipient : bytes) : bool :=
  negb (bool_decide (trim donor = [])) && bool_decide (trim donor = trim recipient).

Inductive DonorRisk := RiskContinue | RiskAbort.
#[global] Instance DonorRisk_eq_dec : EqDecision DonorRisk.
Proof. solve_decision. Defined.
Definition donor_wal_risk (retained_bytes budget_bytes : Z) : DonorRisk :=
  if budget_bytes <=? retained_bytes then RiskAbort else RiskContinue.

Inductive Reason := NoSubscription | NoTables | CopyIncomplete | NothingConfirmed | ConfirmsOnly (confirmed : Z).
Inductive DrainGate := Drained | Waiting (why : Reason).
Definition drain_gate (confirmed : option Z) (sealed_final_lsn enabled total ready : Z) : DrainGate :=
  if enabled =? 0 then Waiting NoSubscription
  else if total =? 0 then Waiting NoTables
  else if ready <? total then Waiting CopyIncomplete
  else match confirmed with
       | None => Waiting NothingConfirmed
       | Some c => if c <? sealed_final_lsn then Waiting (ConfirmsOnly c) else Drained
       end.
Definition retention_failures_abort (consecutive : Z) : bool := RETENTION_FAILURE_ABORT_THRESHOLD <=? consecutive.

Record AuthorityObservation := AuthorityObservation_ {
  ob_addr : bytes; ob_holds : bool; ob_epoch : Z; ob_authority : option bytes }.
Inductive Mismatch :=
| DonorHolds (addr : bytes) (epoch : Z)
| RecipientDoesNot (addr : bytes)
| WrongEpoch (addr : bytes) (epoch : Z)
| WrongAuthority (addr : bytes) (named : option bytes).
Definition recipient_mismatch (cluster : bytes) (epoch : Z) (r : AuthorityObservation) : option Mismatch :=
  if negb (ob_holds r) then Some (RecipientDoesNot (ob_addr r))
  else if negb (ob_epoch r =? epoch) then Some (WrongEpoch (ob_addr r) (ob_epoch r))
  else if bool_decide (ob_authority r ≠ Some cluster) then Some (WrongAuthority (ob_addr r) (ob_authority r))
  else None.
Definition authority_mismatches (donors recipients : list AuthorityObservation) (recipient_cluster : bytes) (epoch : Z)
    : list Mismatch :=
  omap (λ d, if ob_holds d then Some (DonorHolds (ob_addr d) (ob_epoch d)) else None) donors ++
  omap (recipient_mismatch recipient_cluster epoch) recipients.

(** [unaccepted_secdef_paths]: a path reads [role -> schema.func()]. *)
Fixpoint rsplit_arrow (text : bytes) : option bytes :=
  match text with
  | [] => None
  | c :: rest =>
      match rsplit_arrow rest with
      | Some func => Some func
      | None => strip_prefix (lit " -> ") text
      end
  end.
Fixpoint trim_calls (fuel : nat) (rev_name : bytes) : bytes :=
  match fuel with
  | O => rev_name
  | S fuel => match strip_prefix (lit ")(") rev_name with Some rest => trim_calls fuel rest | None => rev_name end
  end.
(** [trim_end_matches("()")]. *)
Definition bare_name (name : bytes) : bytes := reverse (trim_calls (length name) (reverse name)).
Definition unaccepted_secdef_paths (paths accepted : list bytes) : list bytes :=
  filter (λ path,
    let func := bare_name (default path (rsplit_arrow path)) in
    ¬ existsb (λ a, bool_decide (bare_name a = func)) accepted) paths.

Section Command.
Context (rounds : nat).
Definition secs : Z := 1000000000.

(** ** The plan *)
Record BlueGreenParams := BlueGreenParams_ {
  check_only : bool; experimental : bool; confirm : bool; rollback : bool;
  to_major : Z; node : option bytes; app_roles : list bytes; accept_empty_unlogged : bool;
  green_node : option bytes; green_cluster_id : option bytes; accepted_security_definer : list bytes;
}.
Record CutoverPlan := CutoverPlan_ {
  blue : list UpgradeCli.NodeInfo; green : list UpgradeCli.NodeInfo;
  blue_mgmt : bytes; green_mgmt : bytes; green_pg : bytes; plan_cluster : bytes;
}.

Definition resolve (p : BlueGreenParams) : io CutoverPlan :=
  let? _ := check (experimental p) in
  let? _ := check (negb (bool_decide (app_roles p = []))) in
  let? green_entry := need (green_node p) in
  let? cluster := need (green_cluster_id p) in
  let? entry := call (ResolveEntry (node p)) in
  let? entry := need entry in
  let? blue := call (GetNodes Blue entry) in
  let? blue := need blue in
  let? leader := call (GetLeader Blue entry) in
  let? leader := need leader in
  let? blue_mgmt := need (UpgradeCli.leader_mgmt_addr leader) in
  let? green := call (GetNodes Green green_entry) in
  let? green := need green in
  let? leader := call (GetLeader Green green_entry) in
  let? leader := need leader in
  let? green_mgmt := need (UpgradeCli.leader_mgmt_addr leader) in
  let? green_pg := need (UpgradeCli.leader_pg_addr leader) in
  let? status := call (GetStatus Green green_mgmt) in
  let? status := need status in
  let? _ := check (bool_decide (st_cluster_id status = cluster)) in
  let? _ := check (negb (st_holds_client_write_authority status)) in
  ok (CutoverPlan_ blue green blue_mgmt green_mgmt green_pg cluster).

(** ** The drain *)
Definition DRAIN_BUDGET : Z := 30 * 60 * secs.
Definition DRAIN_INTERVAL : Z := 2 * secs.

(** Why the drain is not over yet, or that it is. *)
Definition drain_look (green_mgmt blue_mgmt : bytes) (final_lsn failures : Z) : io (option Z) :=
  let? progress := call (GetProgress green_mgmt) in
  let? progress := need progress in
  let? retention := call (GetRetention blue_mgmt) in
  match retention with
  | Some r =>
      if bool_decide (donor_wal_risk (retained_bytes r) DONOR_WAL_RETENTION_BUDGET_BYTES = RiskAbort) then bail
      else
        match drain_gate (min_confirmed_flush_lsn r) final_lsn (enabled_subscription_count progress)
                (tables_total progress) (tables_ready progress) with
        | Drained => ok None
        | Waiting _ => ok (Some 0)
        end
  | None => if retention_failures_abort (failures + 1) then bail else ok (Some (failures + 1))
  end.
Fixpoint drain_wait (n : nat) (green_mgmt blue_mgmt : bytes) (final_lsn deadline failures : Z) : io () :=
  match n with
  | O => Ret (Err OutOfRounds)
  | S n =>
      let? look := drain_look green_mgmt blue_mgmt final_lsn failures in
      match look with
      | None => ok tt
      | Some failures =>
          let? now := call Now in
          if deadline <=? now then bail
          else let? _ := call (Sleep DRAIN_INTERVAL) in drain_wait n green_mgmt blue_mgmt final_lsn deadline failures
      end
  end.
Definition await_recipient_drain (green_mgmt blue_mgmt : bytes) (final_lsn : Z) : io () :=
  let? now := call Now in
  drain_wait rounds green_mgmt blue_mgmt final_lsn (now + DRAIN_BUDGET) 0.

(** ** Sequences *)
Definition advance_recipient_sequences (blue_mgmt green_mgmt : bytes) : io (list SequenceValue) :=
  let? sequences := call (GetSequences blue_mgmt) in
  let? sequences := need sequences in
  if bool_decide (length sequences = 0%nat) then ok sequences
  else
    let? advanced := call (AdvanceSequences green_mgmt sequences SEQUENCE_ADVANCE_MARGIN) in
    let? _ := check advanced in
    ok sequences.

(** ** Single authority *)
Definition AUTHORITY_VERIFY_BUDGET : Z := 30 * secs.
Definition AUTHORITY_VERIFY_INTERVAL : Z := 1 * secs.

Fixpoint observe_nodes (side : Side) (nodes : list UpgradeCli.NodeInfo) : io (list AuthorityObservation) :=
  match nodes with
  | [] => ok []
  | n :: rest =>
      let? status := call (GetStatus side (UpgradeCli.mgmt_addr n)) in
      let? s := need status in
      let? seen := observe_nodes side rest in
      ok (AuthorityObservation_ (UpgradeCli.mgmt_addr n) (st_holds_client_write_authority s) (st_epoch s)
            (st_authority_cluster_id s) :: seen)
  end.
Fixpoint verify_wait (n : nat) (blue green : list UpgradeCli.NodeInfo) (cluster : bytes) (epoch deadline : Z) : io () :=
  match n with
  | O => Ret (Err OutOfRounds)
  | S n =>
      let? donors := observe_nodes Blue blue in
      let? recipients := observe_nodes Green green in
      if bool_decide (length (authority_mismatches donors recipients cluster epoch) = 0%nat) then ok tt
      else
        let? now := call Now in
        if deadline <=? now then bail
        else let? _ := call (Sleep AUTHORITY_VERIFY_INTERVAL) in verify_wait n blue green cluster epoch deadline
  end.
Definition verify_single_authority (blue green : list UpgradeCli.NodeInfo) (cluster : bytes) (epoch : Z) : io () :=
  let? now := call Now in
  verify_wait rounds blue green cluster epoch (now + AUTHORITY_VERIFY_BUDGET).

(** ** The cutover *)
Definition step (side : Side) (addr : bytes) (s : CutoverStep) : io () :=
  let? done := call (Step side addr s) in check done.

Definition same_schema (blue_mgmt green_mgmt : bytes) : io () :=
  let? donor := call (GetSchemaDigest Blue blue_mgmt) in
  let? donor := need donor in
  let? recipient := call (GetSchemaDigest Green green_mgmt) in
  let? recipient := need recipient in
  check (schema_digests_agree donor recipient).

Definition status_of (side : Side) (addr : bytes) : io CutoverStatusResponse :=
  let? s := call (GetStatus side addr) in need s.

Definition run_blue_green_cutover (p : BlueGreenParams) : io () :=
  let? plan := resolve p in
  let? _ := same_schema (blue_mgmt plan) (green_mgmt plan) in
  let? _ := step Blue (blue_mgmt plan) (StepArm (plan_cluster plan)) in
  let? _ := step Blue (blue_mgmt plan) (StepSeal (app_roles p) (accepted_security_definer p)) in
  let? sealed := status_of Blue (blue_mgmt plan) in
  let? final_lsn := need (st_sealed_final_lsn sealed) in
  let? _ := await_recipient_drain (green_mgmt plan) (blue_mgmt plan) final_lsn in
  let? _ := step Blue (blue_mgmt plan) StepDrainObserved in
  let? sequences := advance_recipient_sequences (blue_mgmt plan) (green_mgmt plan) in
  let? _ := step Blue (blue_mgmt plan) (StepTransfer (plan_cluster plan) (green_pg plan)) in
  let? transferred := status_of Blue (blue_mgmt plan) in
  let? _ := step Green (green_mgmt plan)
    (StepReceive (st_epoch transferred) (st_cluster_id sealed) (UpgradeCli.mgmt_addr <$> blue plan) sequences) in
  verify_single_authority (blue plan) (green plan) (plan_cluster plan) (st_epoch transferred).

(** ** The check *)
Fixpoint require_bins (nodes : list UpgradeCli.NodeInfo) (to : Z) : io () :=
  match nodes with
  | [] => ok tt
  | n :: rest =>
      let? bins := call (GetBins (UpgradeCli.mgmt_addr n)) in
      let? bins := need bins in
      let? _ := check (UpgradeCli.require_target_bin_on_node bins to) in
      require_bins rest to
  end.
Definition dispatch (p : BlueGreenParams) : io () :=
  if negb (check_only p) then run_blue_green_cutover p
  else
    let? _ := check (negb (experimental p || confirm p || rollback p)) in
    let? _ := check (negb (bool_decide (app_roles p = []))) in
    let? strict := call (DoctorStrict (node p)) in
    let? _ := check strict in
    let? entry := call (ResolveEntry (node p)) in
    let? entry := need entry in
    let? nodes := call (GetNodes Blue entry) in
    let? nodes := need nodes in
    let? _ := check (negb (bool_decide (length nodes = 0%nat))) in
    let? _ := require_bins nodes (to_major p) in
    let? leader := call (GetLeader Blue entry) in
    let? leader := need leader in
    let? leader_mgmt := need (UpgradeCli.leader_mgmt_addr leader) in
    let? report := call (Preflight leader_mgmt
      (BlueGreenPreflightRequest_ (to_major p) (app_roles p) (accept_empty_unlogged p) (accepted_security_definer p))) in
    let? _ := need report in
    ok tt.

End Command.
