(* ===== verification/BlueGreenProofs.v ===== *)
(** * What the cutover command hands over, and when

    [cut_ok] says, for each step of the protocol, what the command had seen by then;
    a command that ends well has seen every node of both clusters on the right side.
    With a clock that advances by what is slept, its waits end. *)

From S2P Require Import Prelude Effects Text ClusterState Handoff BlueGreen.
From S2P Require UpgradeApi UpgradeCli.
From Stdlib Require Import Strings.Byte.

Abbreviation hist := (list (@event BlueGreen.Req BlueGreen.Answer)).
Abbreviation ev q r := (answered (R := BlueGreen.Answer) q r).
Abbreviation seen := (Effects.saw (R := BlueGreen.Answer)).

(** ** Down the run *)
Lemma cut_done_call q (t : hist) r : runs (call q) t (Ok r) → t = [ev q r].
Proof. by intros (r' & t' & -> & -> & [= ->]). Qed.
Lemma cut_done_need {A} (x : option A) (t : hist) a : runs (need x) t (Ok a) → x = Some a ∧ t = [].
Proof. destruct x; [by intros [-> [= ->]]|by intros [_ [=]]]. Qed.
Lemma cut_done_check b (t : hist) u : runs (check b) t (Ok u) → b = true ∧ t = [].
Proof. destruct b; [by intros [-> _]|by intros [_ [=]]]. Qed.
Lemma cut_done_ok {A} (a : A) (t : hist) b : runs (ok a) t (Ok b) → a = b ∧ t = [].
Proof. by intros [-> [= ->]]. Qed.
Lemma done_step side addr s (t : hist) u : runs (step side addr s) t (Ok u) → t = [ev (Step side addr s) true].
Proof.
  unfold BlueGreen.step. intros (t1 & t2 & b & -> & ->%cut_done_call & [-> ->]%cut_done_check)%runs_try_ok. done.
Qed.
Ltac down :=
  repeat match goal with
  | H : runs (try_bind _ _) _ (Ok _) |- _ => let H1 := fresh "R" in apply runs_try_ok in H as (? & ? & ? & -> & H1 & H)
  | H : runs (call _) _ (Ok _) |- _ => apply cut_done_call in H as ->
  | H : runs (check _) _ (Ok _) |- _ => apply cut_done_check in H as [? ->]
  | H : runs (need _) _ (Ok _) |- _ => apply cut_done_need in H as [? ->]
  | H : runs (ok _) _ (Ok _) |- _ => apply cut_done_ok in H as [? ->]
  | H : runs (step _ _ _) _ (Ok _) |- _ => apply done_step in H as ->
  end; subst.
Ltac mem := first [apply list_elem_of_here | apply list_elem_of_further; mem].
Ltac look := first [eassumption | eexists; split; [mem|eauto; fail] | apply saw_app_l; look | apply saw_app_r; look].

(** ** What the parts ask *)
Definition no_step (q : BlueGreen.Req) : bool := match q with Step _ _ _ => false | _ => true end.
Ltac ask_all :=
  repeat (intros;
    first
      [ exact I
      | lazymatch goal with
        | |- asks _ (try_bind _ _) => apply asks_try
        | |- asks _ (call _) => split; [reflexivity|]
        | |- asks _ (need ?x) => destruct x
        | |- asks _ (check ?b) => destruct b
        | |- asks _ (if ?b then _ else _) => destruct b
        | |- asks _ (match ?x with _ => _ end) => destruct x
        end ]).
Lemma asks_resolve p : asks no_step (resolve p).
Proof. unfold resolve. ask_all. Qed.
Lemma asks_schema b g : asks no_step (same_schema b g).
Proof. unfold same_schema. ask_all. Qed.
Lemma asks_look P g b final n :
  (∀ a, P (GetProgress a) = true) → (∀ a, P (GetRetention a) = true) → asks P (drain_look g b final n).
Proof.
  intros H1 H2. unfold drain_look. apply asks_try; [split; [apply H1|done]|]. intros pr. apply asks_try; [by destruct pr|].
  intros pg. apply asks_try; [split; [apply H2|done]|]. intros r. by ask_all.
Qed.
Lemma asks_drain rounds g b final : asks no_step (await_recipient_drain rounds g b final).
Proof.
  unfold await_recipient_drain. apply asks_try; [by split|]. intros now. generalize 0. generalize (now + DRAIN_BUDGET). intros d.
  induction rounds as [|n IH]; intros f; cbn [drain_wait]; [done|]. apply asks_try; [by apply asks_look|].
  intros [f'|]; [|exact I]. ask_all; intros; apply IH.
Qed.
Lemma asks_sequences b g : asks no_step (advance_recipient_sequences b g).
Proof. unfold advance_recipient_sequences. ask_all. Qed.
Lemma asks_status side a : asks no_step (status_of side a).
Proof. unfold status_of. ask_all. Qed.
Lemma asks_observe P side nodes : (∀ a, P (GetStatus side a) = true) → asks P (observe_nodes side nodes).
Proof.
  intros HP. induction nodes as [|n nodes IH]; cbn [observe_nodes]; [exact I|].
  apply asks_try; [split; [apply HP|done]|]. intros s. apply asks_try; [by destruct s|]. intros x. apply asks_try; [exact IH|done].
Qed.
Lemma asks_verify rounds blue green cl e : asks no_step (verify_single_authority rounds blue green cl e).
Proof.
  unfold verify_single_authority. apply asks_try; [by split|]. intros now. generalize (now + AUTHORITY_VERIFY_BUDGET). intros d.
  induction rounds as [|n IH]; cbn [verify_wait]; [done|]. apply asks_try; [by apply asks_observe|]. intros ds.
  apply asks_try; [by apply asks_observe|]. intros rs. ask_all; intros; exact IH.
Qed.

(** ** What the parts leave seen *)
Definition named_recipient (p : BlueGreenParams) (t : hist) (plan : CutoverPlan) : Prop :=
  green_cluster_id p = Some (plan_cluster plan) ∧ app_roles p ≠ [] ∧
  (∃ a, seen t (GetNodes Blue a) (λ r, r = Some (blue plan))) ∧
  (∃ a, seen t (GetNodes Green a) (λ r, r = Some (green plan))) ∧
  ∃ s, seen t (GetStatus Green (green_mgmt plan)) (λ r, r = Some s) ∧ st_cluster_id s = plan_cluster plan ∧
    st_holds_client_write_authority s = false.
Lemma resolved p t plan : runs (resolve p) t (Ok plan) → named_recipient p t plan.
Proof.
  unfold resolve. intros H. down. unfold named_recipient. cbn.
  match goal with H : negb (bool_decide (app_roles p = [])) = true |- _ => apply negb_true_iff, bool_decide_eq_false in H end.
  repeat match goal with H : bool_decide _ = true |- _ => apply bool_decide_eq_true in H end.
  match goal with H : negb (st_holds_client_write_authority _) = true |- _ => apply negb_true_iff in H end.
  split_and!; [congruence|done|eexists; look|eexists; look|]. eexists. split; [look|done].
Qed.

(** The last look found the recipient drained: its subscription enabled and copied, the
    donor's slots confirmed past the sealed position within the retention budget. *)
Definition drained (t : hist) (green_mgmt blue_mgmt : bytes) (final_lsn : Z) : Prop :=
  ∃ t1 pr r c,
    t = t1 ++ [ev (GetProgress green_mgmt) (Some pr); ev (GetRetention blue_mgmt) (Some r)] ∧
    enabled_subscription_count pr ≠ 0 ∧ tables_total pr ≠ 0 ∧ tables_total pr ≤ tables_ready pr ∧
    min_confirmed_flush_lsn r = Some c ∧ final_lsn ≤ c ∧ retained_bytes r < DONOR_WAL_RETENTION_BUDGET_BYTES.

Lemma gate_drained c final enabled total ready :
  drain_gate c final enabled total ready = Drained →
  enabled ≠ 0 ∧ total ≠ 0 ∧ total ≤ ready ∧ ∃ n, c = Some n ∧ final ≤ n.
Proof.
  unfold drain_gate. destruct (Z.eqb_spec enabled 0), (Z.eqb_spec total 0), (Z.ltb_spec ready total); try done.
  destruct c as [c|]; [|done]. destruct (Z.ltb_spec c final); [done|]. intros _. eauto 6.
Qed.
Lemma looked g b final n (t : hist) : runs (drain_look g b final n) t (Ok None) → drained t g b final.
Proof.
  unfold drain_look. intros (t1 & t2 & pr & -> & ->%cut_done_call & H)%runs_try_ok.
  apply runs_try_ok in H as (t3 & t4 & pr' & -> & [-> ->]%cut_done_need & H).
  apply runs_try_ok in H as (t5 & t6 & r & -> & ->%cut_done_call & H). destruct r as [r|].
  - case_bool_decide as Hr; [by destruct H as [_ [=]]|]. destruct (drain_gate _ _ _ _ _) eqn:Eg; [|by destruct H as [_ [=]]].
    destruct H as [-> _]. apply gate_drained in Eg as (H1 & H2 & H3 & c & Ec & Hc).
    exists [], pr', r, c. split; [done|]. split_and!; try done. unfold donor_wal_risk in Hr.
    by destruct (Z.leb_spec DONOR_WAL_RETENTION_BUDGET_BYTES (retained_bytes r)).
  - destruct (retention_failures_abort _); by destruct H as [_ [=]].
Qed.
Lemma drained_before t0 t g b final : drained t g b final → drained (t0 ++ t) g b final.
Proof. intros (t1 & pr & r & c & -> & H). exists (t0 ++ t1), pr, r, c. by rewrite <-app_assoc. Qed.
Lemma waited n g b final deadline f (t : hist) u : runs (drain_wait n g b final deadline f) t (Ok u) → drained t g b final.
Proof.
  revert f t. induction n as [|n IH]; intros f t; cbn [drain_wait]; [by intros [_ [=]]|].
  intros (t1 & t2 & look & -> & Hl & H)%runs_try_ok. destruct look as [f'|].
  - apply drained_before. apply runs_try_ok in H as (t3 & t4 & now & -> & ->%cut_done_call & H).
    destruct (deadline <=? now); [by destruct H as [_ [=]]|]. apply runs_try_ok in H as (t5 & t6 & [] & -> & ->%cut_done_call & H).
    by apply drained_before, drained_before, (IH f').
  - destruct H as [-> _]. rewrite app_nil_r. by eapply looked.
Qed.
Lemma awaited rounds g b final (t : hist) u : runs (await_recipient_drain rounds g b final) t (Ok u) → drained t g b final.
Proof. intros (t1 & t2 & now & -> & ->%cut_done_call & H)%runs_try_ok. apply waited in H. by apply drained_before. Qed.

(** Every donor sequence was read, and, if any, the recipient moved past them. *)
Definition sequences_over (t : hist) (green_mgmt blue_mgmt : bytes) (seqs : list SequenceValue) : Prop :=
  seen t (GetSequences blue_mgmt) (λ r, r = Some seqs) ∧
  (seqs ≠ [] → seen t (AdvanceSequences green_mgmt seqs SEQUENCE_ADVANCE_MARGIN) (λ r, r = true)).
Lemma sequences_done b g (t : hist) seqs : runs (advance_recipient_sequences b g) t (Ok seqs) → sequences_over t g b seqs.
Proof.
  unfold advance_recipient_sequences. intros (t1 & t2 & s & -> & ->%cut_done_call & H)%runs_try_ok.
  apply runs_try_ok in H as (t3 & t4 & s' & -> & [-> ->]%cut_done_need & H). case_bool_decide as E.
  - apply cut_done_ok in H as [-> ->]. split; [look|]. intros Hn. destruct Hn. by apply length_zero_iff_nil.
  - down. split; [look|]. intros _. look.
Qed.

(** Each node of a list told its side, and no mismatch was found. *)
Definition told (side : Side) (t : hist) (n : UpgradeCli.NodeInfo) (o : AuthorityObservation) : Prop :=
  ∃ s, seen t (GetStatus side (UpgradeCli.mgmt_addr n)) (λ r, r = Some s) ∧
    o = AuthorityObservation_ (UpgradeCli.mgmt_addr n) (st_holds_client_write_authority s) (st_epoch s) (st_authority_cluster_id s).
Lemma observed side nodes (t : hist) os : runs (observe_nodes side nodes) t (Ok os) → Forall2 (told side t) nodes os.
Proof.
  revert t os. induction nodes as [|n nodes IH]; intros t os; cbn [observe_nodes]; [by intros [_ [=->]]|].
  intros (t1 & t2 & s & -> & ->%cut_done_call & H)%runs_try_ok. apply runs_try_ok in H as (t3 & t4 & s' & -> & [-> ->]%cut_done_need & H).
  apply runs_try_ok in H as (t5 & t6 & os' & -> & Hos & [<- ->]%cut_done_ok). rewrite app_nil_r. apply Forall2_cons. split.
  - exists s'. split; [look|done].
  - eapply Forall2_impl; [by apply IH|]. intros m o (x & Hx & ->). exists x. split; [|done]. cbn [app].
    change (?e :: ?l) with ([e] ++ l). by apply saw_app_r.
Qed.
(** The two sides agree exactly when every donor lets go and every recipient holds, at
    the transfer's epoch, under the recipient's name. *)
Lemma no_mismatches donors recipients cluster epoch :
  authority_mismatches donors recipients cluster epoch = [] ↔
  Forall (λ d, ob_holds d = false) donors ∧
  Forall (λ r, ob_holds r = true ∧ ob_epoch r = epoch ∧ ob_authority r = Some cluster) recipients.
Proof.
  unfold authority_mismatches. rewrite app_nil. f_equiv.
  - induction donors as [|d ds IH]; cbn; [by split|]. rewrite Forall_cons, <-IH. destruct (ob_holds d); (split; [done|]); [by intros [? _]|by intros [_ ?]].
  - induction recipients as [|r rs IH]; cbn; [by split|]. rewrite Forall_cons, <-IH. unfold recipient_mismatch.
    destruct (ob_holds r); cbn; [|split; [done|by intros [[? _] _]]].
    destruct (Z.eqb_spec (ob_epoch r) epoch); cbn; [|split; [done|by intros [(_ & ? & _) _]]].
    case_bool_decide as E; [split; [done|by intros [(_ & _ & ?) _]]|]. split; [done|by intros [_ ?]].
Qed.
Definition single_authority (t : hist) (blue green : list UpgradeCli.NodeInfo) (cluster : bytes) (epoch : Z) : Prop :=
  (∀ n, n ∈ blue → ∃ s, seen t (GetStatus Blue (UpgradeCli.mgmt_addr n)) (λ r, r = Some s) ∧
    st_holds_client_write_authority s = false) ∧
  (∀ n, n ∈ green → ∃ s, seen t (GetStatus Green (UpgradeCli.mgmt_addr n)) (λ r, r = Some s) ∧
    st_holds_client_write_authority s = true ∧ st_epoch s = epoch ∧ st_authority_cluster_id s = Some cluster).
Lemma single_before t0 t blue green cl e : single_authority t blue green cl e → single_authority (t0 ++ t) blue green cl e.
Proof.
  intros [H1 H2]. split; intros n Hn; [destruct (H1 n Hn) as (s & Hs & H)|destruct (H2 n Hn) as (s & Hs & H)];
    exists s; (split; [by apply saw_app_r|done]).
Qed.
Lemma verified rounds blue green cl e (t : hist) u :
  runs (verify_single_authority rounds blue green cl e) t (Ok u) → single_authority t blue green cl e.
Proof.
  intros (t1 & t2 & now & -> & ->%cut_done_call & H)%runs_try_ok. apply single_before. revert t2 H. generalize (now + AUTHORITY_VERIFY_BUDGET). intros d.
  induction rounds as [|n IH]; intros t; cbn [verify_wait]; [by intros [_ [=]]|].
  intros (t1 & t2 & ds & -> & Hd & H)%runs_try_ok. apply runs_try_ok in H as (t3 & t4 & rs & -> & Hr & H).
  case_bool_decide as E.
  - destruct H as [-> _]. rewrite app_nil_r. apply length_zero_iff_nil, no_mismatches in E as [F1 F2].
    apply observed in Hd. apply observed in Hr. rewrite Forall_forall in F1, F2. split; intros m Hm.
    + apply list_elem_of_lookup in Hm as [i Hi]. destruct (Forall2_lookup_l _ _ _ _ _ Hd Hi) as (o & Ho & s & Hs & ->).
      apply list_elem_of_lookup_2 in Ho. exists s. split; [by apply saw_app_l|]. exact (F1 _ Ho).
    + apply list_elem_of_lookup in Hm as [i Hi]. destruct (Forall2_lookup_l _ _ _ _ _ Hr Hi) as (o & Ho & s & Hs & ->).
      apply list_elem_of_lookup_2 in Ho. exists s. split; [by apply saw_app_r|]. exact (F2 _ Ho).
  - apply single_before, single_before. apply runs_try_ok in H as (t5 & t6 & x & -> & ->%cut_done_call & H).
    destruct (d <=? x); [by destruct H as [_ [=]]|]. apply runs_try_ok in H as (t7 & t8 & [] & -> & ->%cut_done_call & H).
    by apply single_before, single_before, IH.
Qed.

(** ** The protocol *)
Definition accepted (t : hist) (side : Side) (addr : bytes) (s : CutoverStep) : Prop :=
  seen t (Step side addr s) (λ r, r = true).
(** The schemas of the two leaders were read and agree. *)
Definition schemas_agree (t : hist) (blue_mgmt green_mgmt : bytes) : Prop :=
  ∃ d r, seen t (GetSchemaDigest Blue blue_mgmt) (λ x, x = Some d) ∧
    seen t (GetSchemaDigest Green green_mgmt) (λ x, x = Some r) ∧ schema_digests_agree d r = true.
(** The donor sealed at [final_lsn], by its own status. *)
Definition sealed_at (p : BlueGreenParams) (t : hist) (blue_mgmt : bytes) (final_lsn : Z) : Prop :=
  accepted t Blue blue_mgmt (StepSeal (app_roles p) (accepted_security_definer p)) ∧
  ∃ s, seen t (GetStatus Blue blue_mgmt) (λ r, r = Some s) ∧ st_sealed_final_lsn s = Some final_lsn.
(** The donor accepted the drain right after the look that found it over. *)
Definition drain_accepted (p : BlueGreenParams) (t : hist) (g b : bytes) : Prop :=
  ∃ t1 t2 final, t = t1 ++ ev (Step Blue b StepDrainObserved) true :: t2 ∧ sealed_at p t1 b final ∧ drained t1 g b final.

Definition cut_ok (p : BlueGreenParams) (t : hist) (q : BlueGreen.Req) : Prop :=
  match q with
  | Step side addr s => ∃ plan, named_recipient p t plan ∧
      let b := blue_mgmt plan in let g := green_mgmt plan in
      match s with
      | StepArm target => side = Blue ∧ addr = b ∧ target = plan_cluster plan ∧ schemas_agree t b g
      | StepSeal roles _ => side = Blue ∧ addr = b ∧ roles = app_roles p ∧ accepted t Blue b (StepArm (plan_cluster plan))
      | StepDrainObserved => side = Blue ∧ addr = b ∧ ∃ final, sealed_at p t b final ∧ drained t g b final
      | StepTransfer target pg =>
          side = Blue ∧ addr = b ∧ target = plan_cluster plan ∧ pg = green_pg plan ∧ schemas_agree t b g ∧
          drain_accepted p t g b ∧ ∃ seqs, sequences_over t g b seqs
      | StepReceive _ _ donors seqs =>
          side = Green ∧ addr = g ∧ donors = UpgradeCli.mgmt_addr <$> blue plan ∧ sequences_over t g b seqs ∧
          accepted t Blue b (StepTransfer (plan_cluster plan) (green_pg plan))
      end
  | _ => True
  end.

Lemma named_app p t t' plan : named_recipient p t plan → named_recipient p (t ++ t') plan.
Proof.
  intros (H1 & H2 & [a Ha] & [a' Ha'] & s & Hs & H). split_and!; [done|done|exists a; by apply saw_app_l|exists a'; by apply saw_app_l|].
  exists s. split; [by apply saw_app_l|done].
Qed.
Lemma schema_seen b g (t : hist) u : runs (same_schema b g) t (Ok u) → schemas_agree t b g.
Proof. unfold same_schema. intros H. down. eexists _, _. split; [look|]. split; [look|done]. Qed.
Lemma status_seen side a (t : hist) s : runs (status_of side a) t (Ok s) → t = [ev (GetStatus side a) (Some s)].
Proof. unfold status_of. intros H. down. done. Qed.
Lemma schemas_app t t' b g : schemas_agree t b g → schemas_agree (t ++ t') b g.
Proof. intros (d & r & H1 & H2 & H3). exists d, r. split_and!; [by apply saw_app_l..|done]. Qed.
Lemma schemas_after t0 t b g : schemas_agree t b g → schemas_agree (t0 ++ t) b g.
Proof. intros (d & r & H1 & H2 & H3). exists d, r. split_and!; [by apply saw_app_r..|done]. Qed.
Lemma sequences_app t t' g b s : sequences_over t g b s → sequences_over (t ++ t') g b s.
Proof. intros [H1 H2]. split; [by apply saw_app_l|]. intros H. by apply saw_app_l, H2. Qed.
Lemma sequences_after t0 t g b s : sequences_over t g b s → sequences_over (t0 ++ t) g b s.
Proof. intros [H1 H2]. split; [by apply saw_app_r|]. intros H. by apply saw_app_r, H2. Qed.
Lemma issues_step side addr s t q : issues (step side addr s) t q → t = [] ∧ q = Step side addr s.
Proof. intros [[-> ->]|(r & t' & -> & H)]; [done|]. exfalso. destruct r; exact H. Qed.
Lemma issues_need {A} (x : option A) t q : ¬ issues (need x : BlueGreen.io A) t q.
Proof. destruct x; exact (λ H, H). Qed.
Lemma quiet_cut p t q : no_step q = true → cut_ok p t q.
Proof. by destruct q. Qed.

(** Past a part that takes no step, and past a step. *)
Ltac part lemma := match goal with H : issues (try_bind _ _) _ _ |- _ =>
  apply issues_try in H as [H|(? & ? & ? & -> & ?R & H)]; [by apply quiet_cut; eapply asks_issues; [apply lemma|exact H]|] end.
Ltac at_step := match goal with H : issues (try_bind (BlueGreen.step _ _ _) _) _ _ |- _ =>
  apply issues_try in H as [[-> ->]%issues_step|(? & ? & ? & -> & ->%done_step & H)] end.
Ltac status s := match goal with H : issues (try_bind (status_of _ _) _) _ _ |- _ =>
  apply issues_try in H as [H|(? & ? & s & -> & ->%status_seen & H)]; [by apply quiet_cut; eapply asks_issues; [apply asks_status|exact H]|] end.
(** Evidence of an earlier part of the history. *)
Ltac earlier := first
  [ eassumption | look
  | apply schemas_after; earlier | apply schemas_app; earlier
  | apply sequences_after; earlier | apply sequences_app; earlier | apply drained_before; earlier ].
Ltac plan_so_far plan := exists plan; split; [by apply named_app|]; cbv beta zeta iota; rewrite ?app_nil_r; split_and!; try reflexivity.

Ltac seal sealed := split; [unfold accepted; look|exists sealed; split; [look|assumption]].

Lemma drain_accepted_app p t t' g b : drain_accepted p t g b → drain_accepted p (t ++ t') g b.
Proof. intros (t1 & t2 & f & -> & H). exists t1, (t2 ++ t'), f. split; [by rewrite <-app_assoc|done]. Qed.
Lemma drain_accepted_last p t g b final :
  sealed_at p t b final → drained t g b final → drain_accepted p (t ++ [ev (Step Blue b StepDrainObserved) true]) g b.
Proof. intros H1 H2. by exists t, [], final. Qed.

Lemma cutover_asks rounds p t q : issues (run_blue_green_cutover rounds p) t q → cut_ok p t q.
Proof.
  unfold run_blue_green_cutover. intros H. part asks_resolve. apply resolved in R.
  match type of R with named_recipient _ _ ?pl => rename pl into plan end.
  part asks_schema. apply schema_seen in R0.
  at_step; [plan_so_far plan; earlier|].
  at_step; [plan_so_far plan; unfold accepted; look|].
  status sealed.
  apply issues_try in H as [H|(? & ? & final & -> & [Hfinal ->]%cut_done_need & H)]; [by apply issues_need in H|].
  part asks_drain. apply awaited in R1.
  at_step; [plan_so_far plan; exists final; split; [seal sealed|earlier]|].
  part asks_sequences. apply sequences_done in R2.
  at_step.
  { plan_so_far plan; [earlier| |eexists; earlier]. rewrite !app_assoc. apply drain_accepted_app.
    apply drain_accepted_last with final; [seal sealed|earlier]. }
  status transferred.
  at_step; [plan_so_far plan; [earlier|unfold accepted; look]|].
  apply quiet_cut. eapply asks_issues; [apply asks_verify|exact H].
Qed.
Lemma cutover_ends rounds p t :
  runs (run_blue_green_cutover rounds p) t (Ok tt) →
  ∃ plan epoch, named_recipient p t plan ∧ single_authority t (blue plan) (green plan) (plan_cluster plan) epoch.
Proof.
  unfold run_blue_green_cutover. intros (t1 & t2 & plan & -> & H1%resolved & H)%runs_try_ok. exists plan.
  repeat match goal with H : runs (try_bind _ _) _ (Ok tt) |- _ => apply runs_try_ok in H as (? & ? & ? & -> & _ & H) end.
  eexists. split; [by apply named_app|]. apply verified in H. do 13 (try apply single_before). exact H.
Qed.

(** C2. A cutover transfers only a drained donor, and ends with one authority: the
    command arms only between agreeing schemas, after the recipient proved to be the
    cluster named and to hold no authority; it reports the drain, and transfers only
    after the donor accepted it, right after a look that found the recipient's
    subscription enabled and copied and the donor's slots confirmed past the position
    the donor sealed at, and with every donor sequence passed; the recipient receives
    only after the donor accepted the transfer; and when the command ends well every
    donor node reported letting go and every recipient node reported holding, at the
    transfer's epoch and under the recipient's name. *)
Theorem a_cutover_transfers_only_a_drained_donor rounds p t :
  (∀ q, issues (run_blue_green_cutover rounds p) t q → cut_ok p t q) ∧
  (runs (run_blue_green_cutover rounds p) t (Ok tt) →
   ∃ plan epoch, named_recipient p t plan ∧ single_authority t (blue plan) (green plan) (plan_cluster plan) epoch).
Proof. split; [apply cutover_asks|apply cutover_ends]. Qed.

(** ** Witness: one node on each side *)
Module Pair.
Definition params : BlueGreenParams :=
  BlueGreenParams_ false true false false 18 None [lit "app"] false (Some (lit "g:1")) (Some (lit "green")) [].
Definition status (holds : bool) (cluster : bytes) : CutoverStatusResponse :=
  CutoverStatusResponse_ 4 cluster (Some (lit "green")) (lit "sealed") holds (Some 100) None false false.
Definition leader (addr : bytes) : UpgradeCli.LeaderInfo := UpgradeCli.LeaderInfo_ (Some 1) (Some addr) (Some (lit "10.0.0.2:5432")).
Definition answers (h : hist) (q : BlueGreen.Req) : BlueGreen.Answer q :=
  match q with
  | Now => 0
  | Sleep _ => tt
  | DoctorStrict _ => true
  | ResolveEntry _ => Some (lit "b:1")
  | GetNodes Blue _ => Some [UpgradeCli.NodeInfo_ 1 (lit "b:1")]
  | GetNodes Green _ => Some [UpgradeCli.NodeInfo_ 1 (lit "g:1")]
  | GetLeader Blue _ => Some (leader (lit "b:1"))
  | GetLeader Green _ => Some (leader (lit "g:1"))
  | GetBins _ => None
  | Preflight _ _ => Some tt
  | GetStatus Blue _ => Some (status false (lit "blue"))
  | GetStatus Green _ =>
      (* it holds once it has received *)
      Some (status (existsb (λ e, match projT1 e with Step Green _ _ => true | _ => false end) h) (lit "green"))
  | GetSchemaDigest _ _ => Some (lit "d41d")
  | Step _ _ _ => true
  | GetProgress _ => Some (SubscriptionProgress_ 1 2 2)
  | GetRetention _ => Some (DonorRetentionResponse_ 10 1 (Some 120) [lit "bg"])
  | GetSequences _ => Some [SequenceValue_ (lit "public") (lit "s") 7]
  | AdvanceSequences _ _ _ => true
  end.
Definition cutover := run_blue_green_cutover 3 params.
Definition trace : hist := (exec answers [] cutover).1.
Lemma a_pair_cuts_over : runs cutover trace (Ok tt).
Proof.
  destruct (exec_runs answers [] cutover) as (t & Et & Hr). change ([] ++ t) with t in Et. unfold trace. rewrite Et.
  assert ((exec answers [] cutover).2 = Ok tt) as E by (vm_compute; reflexivity). by rewrite <-E.
Qed.
End Pair.
Lemma a_cutover_transfers_only_a_drained_donor_witness :
  ∃ plan epoch, single_authority Pair.trace (blue plan) (green plan) (plan_cluster plan) epoch ∧ plan_cluster plan = lit "green".
Proof.
  destruct (proj2 (a_cutover_transfers_only_a_drained_donor 3 Pair.params Pair.trace) Pair.a_pair_cuts_over) as (plan & epoch & (Hn & _) & H).
  exists plan, epoch. split; [exact H|]. injection Hn as Hn. symmetry. exact Hn.
Defined.

(** ** Termination *)
Definition slept (h : hist) : Z := foldr (λ e s, match projT1 e with Sleep d => d + s | _ => s end) 0 h.
(** A clock that advances by what was slept. *)
Definition ticks (h : hist) (e : event BlueGreen.Answer) : Prop :=
  match e with existT Now r => ∀ h1 r1 h2, h = h1 ++ ev Now r1 :: h2 → r1 + slept h2 ≤ r | _ => True end.
Definition awake (q : BlueGreen.Req) : bool := match q with Sleep _ => false | _ => true end.
Lemma slept_sum h t : slept (h ++ t) = slept h + slept t.
Proof. unfold slept. induction h as [|e h IH]; cbn; [done|]. destruct (projT1 e); lia. Qed.
Lemma slept_none t : Forall (λ e, awake (projT1 e) = true) t → slept t = 0.
Proof. induction 1 as [|e t He _ IH]; cbn; [done|]. by destruct (projT1 e). Qed.

Section Ends.
Context (rounds : nat) (Hrounds : (901 ≤ rounds)%nat).
Abbreviation ends p := (∀ h, safe ticks any_request h p (λ _ r, r ≠ Err OutOfRounds)).

Lemma drain_ends n g b final h1 r0 h2 f :
  (1 ≤ n ≤ rounds)%nat → DRAIN_INTERVAL * (Z.of_nat rounds - Z.of_nat n) ≤ slept h2 →
  safe ticks any_request (h1 ++ ev Now r0 :: h2) (drain_wait n g b final (r0 + DRAIN_BUDGET) f) (λ _ r, r ≠ Err OutOfRounds).
Proof.
  revert h2 f. induction n as [|n IH]; intros h2 f Hn Hs; [lia|]. cbn [drain_wait].
  apply safe_try_bind. eapply safe_post; [apply (asked_run awake); [by apply asks_look|done]|].
  intros h' [look|[]] (t & -> & F & Hr); [|done|].
  2: { exfalso. unfold drain_look in Hr. assert (∀ t q k, runs (try_bind (call q) k : BlueGreen.io (option Z)) t (Err OutOfRounds) → ∃ a t', runs (k a) t' (Err OutOfRounds)) as Hc
         by (intros t0 q k (a & t' & -> & H); by exists a, t').
       apply Hc in Hr as (pr & t1 & Hr). destruct pr as [pr|]; [|by destruct Hr as [_ [=]]]. cbn [need ok try_bind bind] in Hr.
       apply Hc in Hr as (r & t2 & Hr). destruct r as [r|]; repeat (case_match; try by destruct Hr as [_ [=]]). }
  destruct look as [f'|]; [|done]. split; [done|]. intros now Hnow. cbn [call bind try_bind ok Effects.ask].
  destruct (Z.leb_spec (r0 + DRAIN_BUDGET) now) as [|Hlt]; [done|]. split; [done|]. intros [] _. cbn [bind try_bind ok Effects.ask].
  assert (r0 + slept (h2 ++ t) ≤ now) as Hle by (apply (Hnow h1 r0 (h2 ++ t)); by rewrite <-app_assoc).
  rewrite slept_sum, (slept_none t F) in Hle. rewrite <-!app_assoc. cbn [app]. apply IH.
  - split; [|lia]. destruct n; [|lia]. exfalso. unfold DRAIN_BUDGET, DRAIN_INTERVAL, secs in *. lia.
  - rewrite !slept_sum, (slept_none t F). cbn. unfold DRAIN_INTERVAL, secs in *. lia.
Qed.
(** With a clock that advances by what is slept, 901 looks outlast the drain's budget. *)
Lemma a_drain_wait_ends g b final t r :
  relies ticks [] t → runs (await_recipient_drain rounds g b final) t r → r ≠ Err OutOfRounds.
Proof.
  intros Ht Hr. refine (safe_runs ticks any_request [] (await_recipient_drain rounds g b final) (λ _ r, r ≠ Err OutOfRounds) t r _ Hr Ht).
  split; [done|]. intros now _. cbn [call bind try_bind ok Effects.ask app].
  apply (drain_ends rounds g b final [] now [] 0); [lia|]. cbn. lia.
Qed.
End Ends.

(** ** The coverage check *)

(** An accepted name covers that function and no other: a path is left exactly when no
    acceptance names its function. *)
Lemma unaccepted_left paths accepted path :
  path ∈ unaccepted_secdef_paths paths accepted ↔
  path ∈ paths ∧ ∀ a, a ∈ accepted → bare_name a ≠ bare_name (default path (rsplit_arrow path)).
Proof.
  unfold unaccepted_secdef_paths. rewrite list_elem_of_filter. rewrite (and_comm (path ∈ paths)). f_equiv. split.
  - intros Hn a Ha E. apply Hn, Is_true_true, existsb_exists. exists a. split; [by apply list_elem_of_In|by apply bool_decide_eq_true].
  - intros H (a & Ha & E)%Is_true_true%existsb_exists. apply (H a); [by apply list_elem_of_In|by apply bool_decide_eq_true in E].
Qed.
