(* ===== verification/BlueGreenCheck.v ===== *)
(** * What must hold before a cutover ([commands/upgrade/blue_green.rs], the catalog preflight)

    The primary's own checks for a cutover by logical replication: no other database
    holds user relations, nothing in this one escapes logical replication, the
    client-write fence can hold the application's roles, and the new major has the
    extensions.  [require_fence_covers_roles] is also the gate of SEAL.  The queries are
    the source's texts; what PostgreSQL answers is the answer of a request.

    The theorems: a preflight that succeeds has read, of the primary's own catalogs,
    that nothing in them would be left behind: [admitted].  [held] is what it has read
    of one role the fence is to hold. *)

From stdpp Require Import sorting.
From S2P Require Import Prelude Effects Text Handoff Sql BlueGreen.
From S2P Require UpgradePreflight UpgradePreflightProofs BlueGreenProofs.
From Stdlib Require Import Strings.Byte.

Module CheckSql.
Definition PUBLIC_WRITE_GRANTS_SQL : bytes :=
  lit "SELECT format('%I.%I', n.nspname, c.relname) || '|' || a.privilege_type FROM " ++
  lit "pg_class c JOIN pg_namespace n ON n.oid = c.relnamespace CROSS JOIN LATERAL " ++
  lit "aclexplode(c.relacl) a WHERE a.grantee = 0 AND ( (c.relkind IN ('r','p') AND " ++
  lit "a.privilege_type IN ('INSERT','UPDATE','DELETE','TRUNCATE')) OR (c.relkind = 'S' " ++
  lit "AND a.privilege_type IN ('UPDATE','USAGE')) ) AND n.nspname NOT IN " ++
  lit "('pg_catalog','information_schema','pgbattery') AND n.nspname NOT LIKE 'pg_toast%' " ++
  lit "AND n.nspname NOT LIKE 'pg_temp%' ORDER BY 1;".
Definition inherited_write_paths_sql (quoted_fenced_roles : bytes) : bytes :=
  lit "WITH RECURSIVE reach AS ( SELECT r.rolname AS fenced, m.roleid AS parent FROM " ++
  lit "pg_auth_members m JOIN pg_roles r ON r.oid = m.member WHERE r.rolname IN (" ++ quoted_fenced_roles ++
  lit ") UNION SELECT g.fenced, m.roleid FROM reach g JOIN pg_auth_members m ON m.member = " ++
  lit "g.parent ) SELECT DISTINCT g.fenced || '|' || p.rolname || '|' || rel || '|' || " ++
  lit "priv FROM reach g JOIN pg_roles p ON p.oid = g.parent CROSS JOIN LATERAL ( SELECT " ++
  lit "format('%I.%I', n.nspname, c.relname) AS rel, a.privilege_type AS priv FROM " ++
  lit "pg_class c JOIN pg_namespace n ON n.oid = c.relnamespace CROSS JOIN LATERAL " ++
  lit "aclexplode(c.relacl) a WHERE a.grantee = g.parent AND ( (c.relkind IN ('r','p') AND " ++
  lit "a.privilege_type IN ('INSERT','UPDATE','DELETE','TRUNCATE')) OR (c.relkind = 'S' " ++
  lit "AND a.privilege_type IN ('UPDATE','USAGE')) ) AND n.nspname NOT IN " ++
  lit "('pg_catalog','information_schema','pgbattery') AND n.nspname NOT LIKE 'pg_toast%' " ++
  lit "AND n.nspname NOT LIKE 'pg_temp%' UNION ALL SELECT format('%I.%I', n.nspname, " ++
  lit "c.relname), 'OWNER' FROM pg_class c JOIN pg_namespace n ON n.oid = c.relnamespace " ++
  lit "WHERE c.relowner = g.parent AND c.relkind IN ('r','p') AND n.nspname NOT IN " ++
  lit "('pg_catalog','information_schema','pgbattery') AND n.nspname NOT LIKE 'pg_toast%' " ++
  lit "AND n.nspname NOT LIKE 'pg_temp%' UNION ALL SELECT '(all relations)', 'SUPERUSER' " ++
  lit "WHERE p.rolsuper ) w WHERE p.rolname NOT IN (" ++ quoted_fenced_roles ++
  lit ") ORDER BY 1;".
Definition role_exists_sql (escaped : bytes) : bytes :=
  lit "SELECT 1 FROM pg_roles WHERE rolname = '" ++ escaped ++
  lit "';".
Definition role_superuser_sql (escaped : bytes) : bytes :=
  lit "SELECT rolsuper::text FROM pg_roles WHERE rolname = '" ++ escaped ++
  lit "';".
Definition role_owned_sql (escaped : bytes) : bytes :=
  lit "SELECT format('%I.%I', n.nspname, c.relname) FROM pg_class c JOIN pg_namespace n ON " ++
  lit "n.oid = c.relnamespace JOIN pg_roles r ON r.oid = c.relowner WHERE r.rolname = '" ++ escaped ++
  lit "' AND c.relkind IN ('r', 'p') AND n.nspname NOT IN ('pg_catalog', " ++
  lit "'information_schema') ORDER BY 1;".
Definition role_secdef_sql (escaped : bytes) : bytes :=
  lit "SELECT format('%I.%I()', n.nspname, p.proname) FROM pg_proc p JOIN pg_namespace n " ++
  lit "ON n.oid = p.pronamespace JOIN pg_roles owner ON owner.oid = p.proowner WHERE " ++
  lit "p.prosecdef AND owner.rolname IS DISTINCT FROM '" ++ escaped ++
  lit "' AND has_function_privilege('" ++ escaped ++
  lit "', p.oid, 'EXECUTE') AND n.nspname NOT IN ('pg_catalog', 'information_schema') " ++
  lit "ORDER BY 1;".
Definition role_owned_secdef_sql (escaped : bytes) : bytes :=
  lit "SELECT format('%I.%I()', n.nspname, p.proname) FROM pg_proc p JOIN pg_namespace n " ++
  lit "ON n.oid = p.pronamespace JOIN pg_roles owner ON owner.oid = p.proowner WHERE " ++
  lit "p.prosecdef AND owner.rolname = '" ++ escaped ++
  lit "' ORDER BY 1;".
Definition OTHER_DATABASES_SQL : bytes :=
  lit "SELECT datname FROM pg_database WHERE datallowconn AND NOT datistemplate AND " ++
  lit "datname <> current_database() ORDER BY 1;".
Definition USER_RELATIONS_COUNT_SQL : bytes :=
  lit "SELECT count(*)::text FROM pg_class c JOIN pg_namespace n ON n.oid = c.relnamespace " ++
  lit "WHERE c.relkind IN ('r','p','S','m','f') AND n.nspname NOT IN " ++
  lit "('pg_catalog','information_schema') AND n.nspname NOT LIKE 'pg_toast%' AND " ++
  lit "n.nspname NOT LIKE 'pg_temp%';".
Definition large_objects_sql : bytes :=
  lit "SELECT count(*)::text FROM pg_largeobject_metadata;".
Definition sequences_sql : bytes :=
  lit "SELECT format('%I.%I', n.nspname, c.relname) FROM pg_class c JOIN pg_namespace n ON " ++
  lit "n.oid = c.relnamespace WHERE c.relkind = 'S' AND n.nspname NOT IN ('pg_catalog', " ++
  lit "'information_schema') AND n.nspname NOT LIKE 'pg_toast%' AND n.nspname NOT LIKE " ++
  lit "'pg_temp%' ORDER BY 1;".
Definition unlogged_sql : bytes :=
  lit "SELECT format('%I.%I', n.nspname, c.relname) FROM pg_class c JOIN pg_namespace n ON " ++
  lit "n.oid = c.relnamespace WHERE c.relkind IN ('r', 'p') AND c.relpersistence = 'u' AND " ++
  lit "n.nspname NOT IN ('pg_catalog', 'information_schema') AND n.nspname NOT LIKE " ++
  lit "'pg_toast%' ORDER BY 1;".
Definition no_identity_sql : bytes :=
  lit "SELECT format('%I.%I', n.nspname, c.relname) FROM pg_class c JOIN pg_namespace n ON " ++
  lit "n.oid = c.relnamespace WHERE c.relkind IN ('r', 'p') AND n.nspname NOT IN " ++
  lit "('pg_catalog', 'information_schema') AND n.nspname NOT LIKE 'pg_toast%' AND " ++
  lit "n.nspname NOT LIKE 'pg_temp%' AND ( c.relreplident = 'n' OR ( c.relreplident = 'd' " ++
  lit "AND NOT EXISTS ( SELECT 1 FROM pg_index i WHERE i.indrelid = c.oid AND " ++
  lit "i.indisprimary AND i.indisvalid ) ) OR ( c.relreplident = 'i' AND NOT EXISTS ( " ++
  lit "SELECT 1 FROM pg_index i WHERE i.indrelid = c.oid AND i.indisreplident AND " ++
  lit "i.indisvalid ) ) ) ORDER BY 1;".
Definition weak_full_identity_sql : bytes :=
  lit "SELECT format('%I.%I', n.nspname, c.relname) FROM pg_class c JOIN pg_namespace n ON " ++
  lit "n.oid = c.relnamespace WHERE c.relkind IN ('r', 'p') AND c.relreplident = 'f' AND " ++
  lit "n.nspname NOT IN ('pg_catalog', 'information_schema') AND n.nspname NOT LIKE " ++
  lit "'pg_toast%' AND EXISTS ( SELECT 1 FROM pg_attribute a JOIN pg_type t ON a.atttypid " ++
  lit "= t.oid WHERE a.attrelid = c.oid AND a.attnum > 0 AND NOT a.attisdropped AND NOT " ++
  lit "EXISTS ( SELECT 1 FROM pg_opclass op JOIN pg_am am ON am.oid = op.opcmethod WHERE " ++
  lit "op.opcintype = t.oid AND am.amname IN ('btree', 'hash') ) ) ORDER BY 1;".
Definition extensions_sql : bytes :=
  lit "SELECT extname FROM pg_extension WHERE extname <> 'plpgsql' ORDER BY 1;".
Definition recovery_sql : bytes :=
  lit "SELECT pg_is_in_recovery();".
End CheckSql.
Import CheckSql.

(** ** What it asks *)
Inductive CatReq :=
| Sql (text : bytes)                              (* [Supervisor::execute_sql] *)
| PsqlCount (psql conninfo : bytes)               (* [psql -c USER_RELATIONS_COUNT_SQL] *)
| Pf (q : UpgradePreflight.Req).
Definition CatAnswer (q : CatReq) : Type :=
  match q with
  | Sql _ => option bytes
  | PsqlCount _ _ => option (bool * bytes)
  | Pf q => UpgradePreflight.Answer q
  end.
Inductive Refused := Failing.
Abbreviation chk A := (prog CatAnswer (result Refused A)).
Abbreviation cask := (@Effects.ask CatReq CatAnswer).
Definition fine {A} (a : A) : chk A := Ret (Ok a).
Definition fail {A} : chk A := Ret (Err Failing).
Definition the {A} (r : option A) : chk A := match r with Some a => fine a | None => fail end.
Definition assert (b : bool) : chk () := if b then fine tt else fail.
Definition sql (text : bytes) : chk bytes := let* r := cask (Sql text) in the r.
Definition content_lines (out : bytes) : list bytes := filter (λ s, s ≠ []) (trim <$> lines out).
Definition sql_lines (text : bytes) : chk (list bytes) := let? out := sql text in fine (content_lines out).
Definition sql_u64 (text : bytes) : chk Z := let? out := sql text in the (parse_u64 (trim out)).

(** ** What the fence can hold *)
Inductive Failure :=
| NoRole (role : bytes)
| SuperuserRole (role : bytes)
| OwnsTables (role : bytes) (tables : list bytes)
| OwnsSecdef (role : bytes) (functions : list bytes)
| PublicGrant (rel privilege : bytes)
| BadPublicRow (row : bytes)
| InheritedGrant (fenced parent rel privilege : bytes)
| BadInheritedRow (row : bytes)
| SecdefReachable (paths : list bytes).

(** [quoted_role_literals]. *)
Fixpoint quoted_literals (app_roles : list bytes) : option (list bytes) :=
  match app_roles with
  | [] => Some []
  | role :: rest => if is_valid_pg_role_name role then (FenceSql.quote role ::.) <$> quoted_literals rest else None
  end.
Fixpoint join_with (sep : bytes) (parts : list bytes) : bytes :=
  match parts with [] => [] | [p] => p | p :: rest => p ++ sep ++ join_with sep rest end.
Definition quoted_role_literals (app_roles : list bytes) : option bytes := join_with (lit ",") <$> quoted_literals app_roles.

Definition public_failure (row : bytes) : Failure :=
  match split_once "|"%byte row with Some (rel, privilege) => PublicGrant rel privilege | None => BadPublicRow row end.
Definition inherited_failure (row : bytes) : Failure :=
  match splitn 4 "|"%byte row with
  | [fenced; parent; rel; privilege] => InheritedGrant fenced parent rel privilege
  | _ => BadInheritedRow row
  end.
Definition coverage_gap_failures (public_rows inherited_rows : list bytes) : list Failure :=
  (public_failure <$> public_rows) ++ (inherited_failure <$> inherited_rows).

Definition unless_nil (l : list bytes) (f : Failure) : list Failure := if bool_decide (l = []) then [] else [f].
(** What one role adds to the failures, and its SECURITY DEFINER paths. *)
Definition check_one_app_role (role : bytes) : chk (list Failure * list bytes) :=
  let? _ := assert (is_valid_pg_role_name role) in
  let escaped := FenceSql.escape role in
  let? exists_ := sql_lines (role_exists_sql escaped) in
  if bool_decide (exists_ = []) then fine ([NoRole role], [])
  else
    let? superuser := sql (role_superuser_sql escaped) in
    let? owned := sql_lines (role_owned_sql escaped) in
    let? paths := sql_lines (role_secdef_sql escaped) in
    let? owned_secdef := sql_lines (role_owned_secdef_sql escaped) in
    fine ((if eq_ignore_ascii_case (trim superuser) (lit "t") then [SuperuserRole role] else []) ++
          unless_nil owned (OwnsTables role owned) ++ unless_nil owned_secdef (OwnsSecdef role owned_secdef),
          (λ p, role ++ lit " -> " ++ p) <$> paths).
Fixpoint check_app_roles (app_roles : list bytes) : chk (list Failure * list bytes) :=
  match app_roles with
  | [] => fine ([], [])
  | role :: rest =>
      let? one := check_one_app_role role in
      let? more := check_app_roles rest in
      fine (one.1 ++ more.1, one.2 ++ more.2)
  end.
Definition collect_fence_feasibility (app_roles accepted_security_definer : list bytes) : chk (list Failure * list bytes) :=
  let? per_role := check_app_roles app_roles in
  let? public_rows := sql_lines PUBLIC_WRITE_GRANTS_SQL in
  let? quoted := the (quoted_role_literals app_roles) in
  let? inherited_rows := sql_lines (inherited_write_paths_sql quoted) in
  let unaccepted := unaccepted_secdef_paths per_role.2 accepted_security_definer in
  fine (per_role.1 ++ coverage_gap_failures public_rows inherited_rows ++ unless_nil unaccepted (SecdefReachable unaccepted),
        per_role.2).
Definition require_fence_covers_roles (app_roles accepted_security_definer : list bytes) : chk () :=
  let? found := collect_fence_feasibility app_roles accepted_security_definer in
  assert (bool_decide (found.1 = [])).

(** ** What logical replication carries *)
(** [Vec::sort] on strings, [Vec::dedup]. *)
Fixpoint bytes_le (a b : bytes) : bool :=
  match a, b with
  | [], _ => true
  | _ :: _, [] => false
  | x :: a, y :: b => (byte_z x <? byte_z y) || (byte_eqb x y && bytes_le a b)
  end.
Fixpoint dedup (l : list bytes) : list bytes :=
  match l with
  | a :: (b :: _) as rest => if bool_decide (a = b) then dedup rest else a :: dedup rest
  | _ => l
  end.
Definition collect_replica_identity_failures : chk (list bytes) :=
  let? bad := sql_lines no_identity_sql in
  let? full_bad := sql_lines weak_full_identity_sql in
  fine (dedup (merge_sort bytes_le (bad ++ full_bad))).

Record BlueGreenPreflightReport := BlueGreenPreflightReport_ {
  rep_to_major : Z; rep_sequences : list bytes; rep_unlogged_tables : list bytes; rep_large_object_count : Z;
  rep_replica_identity_failures : list bytes; rep_fence_failures : list Failure; rep_security_definer_paths : list bytes;
  rep_extensions_ok : nat; rep_schema_digest : bytes }.

Section Primary.
(** [Supervisor::local_psql_params]. *)
Context (psql : bytes) (port : Z) (user : bytes).

Definition conninfo_value (value : bytes) : bytes :=
  [x27] ++ concat ((λ b, if byte_eqb b x5c then [x5c; x5c] else if byte_eqb b x27 then [x5c; x27] else [b]) <$> value) ++ [x27].
Definition conninfo_of (db : bytes) : bytes :=
  lit "host=127.0.0.1 port=" ++ show_u64 port ++ lit " user=" ++ user ++ lit " dbname=" ++ conninfo_value db.
Definition unmanaged_database_findings (rows : list (bytes * Z)) : list (bytes * Z) := filter (λ row, 0 < row.2) rows.
Fixpoint probe_databases (dbs : list bytes) : chk (list (bytes * Z)) :=
  match dbs with
  | [] => fine []
  | db :: rest =>
      let* out := cask (PsqlCount psql (conninfo_of db)) in
      let? out := the out in
      let? _ := assert out.1 in
      let? count := the (parse_u64 (trim out.2)) in
      let? probed := probe_databases rest in
      fine ((db, count) :: probed)
  end.
Definition refuse_unmanaged_databases : chk () :=
  let? others := sql_lines OTHER_DATABASES_SQL in
  let? probed := probe_databases others in
  assert (bool_decide (unmanaged_database_findings probed = [])).

Definition schema_digest : chk bytes := let? raw := sql FenceSql.SCHEMA_DIGEST_SQL in fine (trim raw).

Definition fill_logical_gaps (req : BlueGreenPreflightRequest) (digest : bytes) : chk BlueGreenPreflightReport :=
  let? lo := sql_u64 large_objects_sql in
  let? _ := assert (negb (0 <? lo)) in
  let? sequences := sql_lines sequences_sql in
  let? unlogged := sql_lines unlogged_sql in
  let? _ := assert (bool_decide (unlogged = []) || pre_accept_empty_unlogged req) in
  let? identity := collect_replica_identity_failures in
  let? _ := assert (bool_decide (identity = [])) in
  let? fence := collect_fence_feasibility (pre_app_roles req) (pre_accepted_secdef req) in
  let? _ := assert (bool_decide (fence.1 = [])) in
  fine (BlueGreenPreflightReport_ (pre_to_major req) sequences unlogged lo identity fence.1 fence.2 0 digest).

Definition on_preflight {A} (p : UpgradePreflight.pre A) : chk A :=
  let* r := embed Pf (λ _ r, r) p in Ret (match r with Ok a => Ok a | Err _ => Err Failing end).
(** The number of extensions the new major has. *)
Definition audit_green_extensions (bin_dirs : gmap bytes bytes) (to_major : Z) : chk nat :=
  let? extensions := sql_lines extensions_sql in
  let? new_bindir := the (bin_dirs !! show_u64 to_major) in
  let? missing := on_preflight (UpgradePreflight.missing_extension_controls new_bindir extensions) in
  let? _ := assert (bool_decide (missing = [])) in
  fine (length extensions).

Definition run_local_blue_green_preflight (bin_dirs : gmap bytes bytes) (req : BlueGreenPreflightRequest)
    : chk BlueGreenPreflightReport :=
  let? recovering := sql recovery_sql in
  let? _ := assert (negb (eq_ignore_ascii_case (trim recovering) (lit "t"))) in
  let? _ := refuse_unmanaged_databases in
  let? digest := schema_digest in
  let? report := fill_logical_gaps req digest in
  let? extensions := audit_green_extensions bin_dirs (pre_to_major req) in
  fine (BlueGreenPreflightReport_ (rep_to_major report) (rep_sequences report) (rep_unlogged_tables report)
    (rep_large_object_count report) (rep_replica_identity_failures report) (rep_fence_failures report)
    (rep_security_definer_paths report) extensions (rep_schema_digest report)).

End Primary.

#[local] Opaque PUBLIC_WRITE_GRANTS_SQL inherited_write_paths_sql role_exists_sql role_superuser_sql role_owned_sql
  role_secdef_sql role_owned_secdef_sql OTHER_DATABASES_SQL USER_RELATIONS_COUNT_SQL large_objects_sql sequences_sql
  unlogged_sql no_identity_sql weak_full_identity_sql extensions_sql recovery_sql FenceSql.SCHEMA_DIGEST_SQL lit.

Abbreviation reads := (list (@event CatReq CatAnswer)).
Abbreviation read q r := (answered (R := CatAnswer) q r).
Abbreviation was := (Effects.saw (R := CatAnswer)).

(** ** Down the run *)
Lemma went_sql text (t : reads) out : runs (sql text) t (Ok out) → t = [read (Sql text) (Some out)].
Proof. intros (r & t' & -> & H). destruct r; [by destruct H as [-> [= ->]]|by destruct H as [_ [=]]]. Qed.
Lemma went_the {A} (x : option A) (t : reads) a : runs (the x) t (Ok a) → x = Some a ∧ t = [].
Proof. destruct x; [by intros [-> [= ->]]|by intros [_ [=]]]. Qed.
Lemma went_assert b (t : reads) u : runs (assert b) t (Ok u) → b = true ∧ t = [].
Proof. destruct b; [by intros [-> _]|by intros [_ [=]]]. Qed.
Lemma went_fine {A} (a : A) (t : reads) b : runs (fine a) t (Ok b) → a = b ∧ t = [].
Proof. by intros [-> [= ->]]. Qed.
Lemma went_lines text (t : reads) l : runs (sql_lines text) t (Ok l) →
  ∃ out, t = [read (Sql text) (Some out)] ∧ l = content_lines out.
Proof. intros (t1 & t2 & out & -> & ->%went_sql & [<- ->]%went_fine)%runs_try_ok. by exists out. Qed.
Lemma went_u64 text (t : reads) n : runs (sql_u64 text) t (Ok n) →
  ∃ out, t = [read (Sql text) (Some out)] ∧ parse_u64 (trim out) = Some n.
Proof. intros (t1 & t2 & out & -> & ->%went_sql & [H ->]%went_the)%runs_try_ok. by exists out. Qed.
Ltac went :=
  repeat match goal with
  | H : runs (try_bind _ _) _ (Ok _) |- _ => let H1 := fresh "R" in apply runs_try_ok in H as (? & ? & ? & -> & H1 & H)
  | H : runs (sql _) _ (Ok _) |- _ => apply went_sql in H as ->
  | H : runs (sql_lines _) _ (Ok _) |- _ => apply went_lines in H as (? & -> & ->)
  | H : runs (sql_u64 _) _ (Ok _) |- _ => apply went_u64 in H as (? & -> & ?)
  | H : runs (assert _) _ (Ok _) |- _ => apply went_assert in H as [? ->]
  | H : runs (the _) _ (Ok _) |- _ => apply went_the in H as [? ->]
  | H : runs (fine _) _ (Ok _) |- _ => apply went_fine in H as [? ->]
  end.
Ltac among := first [apply list_elem_of_here | apply list_elem_of_further; among].
Ltac find := first [eassumption | eexists; split; [among|eauto; fail] | apply saw_app_l; find | apply saw_app_r; find].

(** What a query answered: its text, or its lines. *)
Definition answer_was (t : reads) (text : bytes) (P : bytes → Prop) : Prop :=
  was t (Sql text) (λ r, ∃ out, r = Some out ∧ P out).
Definition lines_were (t : reads) (text : bytes) (P : list bytes → Prop) : Prop :=
  answer_was t text (λ out, P (content_lines out)).
Definition none_were (t : reads) (text : bytes) : Prop := lines_were t text (λ l, l = []).
Lemma answer_l t t' text P : answer_was t text P → answer_was (t ++ t') text P.
Proof. apply saw_app_l. Qed.
Lemma answer_r t t' text P : answer_was t text P → answer_was (t' ++ t) text P.
Proof. apply saw_app_r. Qed.
Ltac answer := first
  [ eexists; split; [among|eexists; split; [reflexivity|first [assumption | reflexivity]]]
  | eassumption | apply answer_l; answer | apply answer_r; answer ].

(** ** The roles *)
(** The role exists, is no superuser by its [rolsuper::text], owns no table and no
    SECURITY DEFINER function, and reaches none that was not accepted. *)
Definition held (accepted : list bytes) (t : reads) (role : bytes) : Prop :=
  is_valid_pg_role_name role = true ∧
  let e := FenceSql.escape role in
  lines_were t (role_exists_sql e) (λ l, l ≠ []) ∧
  answer_was t (role_superuser_sql e) (λ out, eq_ignore_ascii_case (trim out) (lit "t") = false) ∧
  none_were t (role_owned_sql e) ∧ none_were t (role_owned_secdef_sql e) ∧
  lines_were t (role_secdef_sql e) (λ l, ∀ f, f ∈ l →
    ∃ a, a ∈ accepted ∧ bare_name a = bare_name (default (role ++ lit " -> " ++ f) (rsplit_arrow (role ++ lit " -> " ++ f)))).
(** What the role's own check leaves for the acceptances. *)
Definition unfenced (t : reads) (role : bytes) (paths : list bytes) : Prop :=
  is_valid_pg_role_name role = true ∧
  let e := FenceSql.escape role in
  lines_were t (role_exists_sql e) (λ l, l ≠ []) ∧
  answer_was t (role_superuser_sql e) (λ out, eq_ignore_ascii_case (trim out) (lit "t") = false) ∧
  none_were t (role_owned_sql e) ∧ none_were t (role_owned_secdef_sql e) ∧
  lines_were t (role_secdef_sql e) (λ l, paths = (λ p, role ++ lit " -> " ++ p) <$> l).
Lemma unless_nil_nil l f : unless_nil l f = [] → l = [].
Proof. unfold unless_nil. by case_bool_decide. Qed.
Lemma one_role role (t : reads) paths : runs (check_one_app_role role) t (Ok ([], paths)) → unfenced t role paths.
Proof.
  unfold check_one_app_role. intros H.
  apply runs_try_ok in H as (t1 & t2 & u & -> & [Hv ->]%went_assert & H).
  apply runs_try_ok in H as (t3 & t4 & l & -> & (out & -> & ->)%went_lines & H). case_bool_decide as E; [by destruct H as [_ [=]]|].
  went. match goal with H : (_, _) = _ |- _ => injection H as Hf Hp end.
  apply app_nil in Hf as [Hs [Ho%unless_nil_nil Hd%unless_nil_nil]%app_nil].
  split; [done|]. cbv zeta. unfold none_were, lines_were. split_and!; [answer| |answer|answer|].
  - destruct (eq_ignore_ascii_case _ _) eqn:Es; [done|]. answer.
  - eexists. split; [among|]. eexists. split; [reflexivity|done].
Qed.
Lemma unfenced_l t t' role paths : unfenced t role paths → unfenced (t ++ t') role paths.
Proof. intros (H & H1 & H2 & H3 & H4 & H5). split; [done|]. cbv zeta. split_and!; by apply answer_l. Qed.
Lemma unfenced_r t t' role paths : unfenced t role paths → unfenced (t' ++ t) role paths.
Proof. intros (H & H1 & H2 & H3 & H4 & H5). split; [done|]. cbv zeta. split_and!; by apply answer_r. Qed.
Lemma all_roles roles (t : reads) paths : runs (check_app_roles roles) t (Ok ([], paths)) →
  ∀ role, role ∈ roles → ∃ own, unfenced t role own ∧ own ⊆ paths.
Proof.
  revert t paths. induction roles as [|r roles IH]; intros t paths; cbn [check_app_roles].
  { intros _ role Hr. by apply not_elem_of_nil in Hr. }
  intros (t1 & t2 & [f1 p1] & -> & H1 & H)%runs_try_ok. apply runs_try_ok in H as (t3 & t4 & [f2 p2] & -> & H2 & H).
  apply went_fine in H as [[= [-> ->]%app_nil <-] ->]. intros role [->|Hr]%elem_of_cons.
  - exists p1. split; [by apply unfenced_l, one_role|]. set_solver.
  - destruct (IH _ _ H2 role Hr) as (own & Ho & Hs). exists own. split; [by apply unfenced_r, unfenced_l|]. set_solver.
Qed.
(** PUBLIC holds no write, and no role of the list reaches one through another. *)
Definition no_other_way (t : reads) (app_roles : list bytes) : Prop :=
  none_were t PUBLIC_WRITE_GRANTS_SQL ∧
  ∃ quoted, quoted_role_literals app_roles = Some quoted ∧ none_were t (inherited_write_paths_sql quoted).
Definition fence_covers (accepted : list bytes) (t : reads) (app_roles : list bytes) : Prop :=
  (∀ role, role ∈ app_roles → held accepted t role) ∧ no_other_way t app_roles.
Lemma accepted_paths paths accepted role l : unaccepted_secdef_paths paths accepted = [] →
  ((λ p, role ++ lit " -> " ++ p) <$> l) ⊆ paths → ∀ f, f ∈ l →
  ∃ a, a ∈ accepted ∧ bare_name a = bare_name (default (role ++ lit " -> " ++ f) (rsplit_arrow (role ++ lit " -> " ++ f))).
Proof.
  intros Hu Hs f Hf. set (path := role ++ lit " -> " ++ f).
  destruct (decide (Exists (λ a, bare_name a = bare_name (default path (rsplit_arrow path))) accepted)) as [(a & Ha & E)%Exists_exists|Hn].
  - by exists a.
  - exfalso. assert (path ∈ unaccepted_secdef_paths paths accepted) as Hin; [|rewrite Hu in Hin; by apply not_elem_of_nil in Hin].
    apply BlueGreenProofs.unaccepted_left. split; [apply Hs, list_elem_of_fmap; by exists f|].
    intros a Ha E. apply Hn, Exists_exists. by exists a.
Qed.
Lemma unfenced_held accepted t role own paths : unaccepted_secdef_paths paths accepted = [] →
  unfenced t role own → own ⊆ paths → held accepted t role.
Proof.
  intros Hu (Hv & H1 & H2 & H3 & H4 & H5) Hs. split; [done|]. cbv zeta. split_and!; try done.
  eapply saw_mono; [exact H5|]. intros r (out & -> & ->). eexists. split; [done|]. by eapply accepted_paths.
Qed.
Lemma feasible roles accepted (t : reads) secdef :
  runs (collect_fence_feasibility roles accepted) t (Ok ([], secdef)) → fence_covers accepted t roles.
Proof.
  unfold collect_fence_feasibility. intros (t1 & t2 & [fs ps] & -> & Hr & H)%runs_try_ok. went.
  match goal with H : (_, _) = _ |- _ => injection H as Hf _ end.
  apply app_nil in Hf as [-> [[Hp%fmap_nil_inv Hi%fmap_nil_inv]%app_nil Hu%unless_nil_nil]%app_nil]. split.
  - intros role Hrole. destruct (all_roles _ _ _ Hr role Hrole) as (own & Ho & Hs).
    eapply unfenced_held; [exact Hu|by apply unfenced_l|done].
  - split; [unfold none_were, lines_were; answer|]. eexists. split; [eassumption|]. unfold none_were, lines_were. answer.
Qed.

(** ** The rest of the catalog *)
Lemma databases_probed psql port user dbs (t : reads) rows : runs (probe_databases psql port user dbs) t (Ok rows) →
  unmanaged_database_findings rows = [] →
  ∀ db, db ∈ dbs → was t (PsqlCount psql (conninfo_of port user db)) (λ r, ∃ out, r = Some (true, out) ∧ parse_u64 (trim out) = Some 0).
Proof.
  revert t rows. induction dbs as [|d dbs IH]; intros t rows; cbn [probe_databases].
  { intros _ _ db Hd. by apply not_elem_of_nil in Hd. }
  intros (r & t0 & -> & H) Hf. cbn [bind] in H. went. subst. unfold unmanaged_database_findings in Hf. rewrite filter_cons in Hf.
  case_decide as Hpos; [done|]. cbn [snd] in Hpos.
  match goal with H : parse_u64 _ = Some ?n |- _ =>
    pose proof H as Hn; apply from_str_radix_bounds in Hn; [|done..]; assert (n = 0) as -> by lia end.
  intros db [->|Hdb]%elem_of_cons.
  - eexists. split; [among|]. match goal with o : bool * bytes |- _ => destruct o as [[] out] end; [by exists out|done].
  - match goal with |- context [?e :: _ ++ _] => apply (saw_app_r [e]) end. cbn [app]. apply saw_app_l. by eapply IH.
Qed.
Lemma dedup_nil l : dedup l = [] → l = [].
Proof. induction l as [|a [|b l] IH]; [done|done|]. cbn [dedup]. case_bool_decide; [|done]. intros H1. by apply IH in H1. Qed.
Lemma identities (t : reads) : runs collect_replica_identity_failures t (Ok []) →
  none_were t no_identity_sql ∧ none_were t weak_full_identity_sql.
Proof.
  unfold collect_replica_identity_failures. intros H. went.
  match goal with H : dedup _ = [] |- _ => apply dedup_nil in H end.
  match goal with H : merge_sort _ ?l = [] |- _ => pose proof (merge_sort_Permutation bytes_le l) as Hp; rewrite H in Hp end.
  symmetry in Hp. apply Permutation_nil_r, app_nil in Hp as [Ha Hb]. unfold none_were, lines_were. split; answer.
Qed.
Lemma embedded (t : list (@event _ UpgradePreflight.Answer)) q P :
  Effects.saw t q P → was (embed_event Pf (λ _ r, r) <$> t) (Pf q) P.
Proof. intros (r & Hr & HP). exists r. split; [|done]. apply list_elem_of_fmap. by exists (answered q r). Qed.
Lemma extensions_there new_bindir extensions (t : reads) :
  runs (on_preflight (UpgradePreflight.missing_extension_controls new_bindir extensions)) t (Ok []) →
  ∃ sharedir, Forall (λ e, was t (Pf (UpgradePreflight.ControlFile sharedir e)) (λ b, b = true)) extensions.
Proof.
  unfold on_preflight. intros (t1 & t2 & r & -> & H & [-> Hr])%runs_bind.
  rewrite app_nil_r. apply (embed_runs Pf _ (λ _ r, r)) in H as (t3 & -> & H); [|done]. destruct r as [m|]; [|done]. injection Hr as <-.
  apply UpgradePreflightProofs.extensions_present in H as (sharedir & _ & H). exists sharedir.
  eapply Forall_impl; [exact H|]. intros e. apply embedded.
Qed.

(** ** What is admitted *)
Section Catalog.
Context (psql : bytes) (port : Z) (user : bytes) (bin_dirs : gmap bytes bytes).

(** On a primary; no other database holds a user relation; no large objects, no
    unlogged table that was not accepted, no table without a usable identity; the fence
    covers the roles; and the new major has every extension. *)
Record admitted (req : BlueGreenPreflightRequest) (t : reads) : Prop := {
  on_primary : answer_was t recovery_sql (λ out, eq_ignore_ascii_case (trim out) (lit "t") = false);
  one_database : lines_were t OTHER_DATABASES_SQL (λ dbs, ∀ db, db ∈ dbs →
    was t (PsqlCount psql (conninfo_of port user db)) (λ r, ∃ out, r = Some (true, out) ∧ parse_u64 (trim out) = Some 0));
  no_large_object : answer_was t large_objects_sql (λ out, parse_u64 (trim out) = Some 0);
  unlogged_accepted : lines_were t unlogged_sql (λ l, l = [] ∨ pre_accept_empty_unlogged req = true);
  identity : none_were t no_identity_sql ∧ none_were t weak_full_identity_sql;
  covered : fence_covers (pre_accepted_secdef req) t (pre_app_roles req);
  extended : lines_were t extensions_sql (λ exts, ∃ bindir sharedir, bin_dirs !! show_u64 (pre_to_major req) = Some bindir ∧
    Forall (λ e, was t (Pf (UpgradePreflight.ControlFile sharedir e)) (λ b, b = true)) exts);
}.

Lemma held_l accepted t t' role : held accepted t role → held accepted (t ++ t') role.
Proof. intros (H & H1 & H2 & H3 & H4 & H5). split; [done|]. cbv zeta. split_and!; by apply answer_l. Qed.
Lemma held_r accepted t t' role : held accepted t role → held accepted (t' ++ t) role.
Proof. intros (H & H1 & H2 & H3 & H4 & H5). split; [done|]. cbv zeta. split_and!; by apply answer_r. Qed.
Lemma covers_l accepted t t' roles : fence_covers accepted t roles → fence_covers accepted (t ++ t') roles.
Proof.
  intros [H [H1 (q & Hq & H2)]]. split; [intros role Hr; by apply held_l, H|]. split; [by apply answer_l|].
  exists q. split; [done|by apply answer_l].
Qed.
Lemma covers_r accepted t t' roles : fence_covers accepted t roles → fence_covers accepted (t' ++ t) roles.
Proof.
  intros [H [H1 (q & Hq & H2)]]. split; [intros role Hr; by apply held_r, H|]. split; [by apply answer_r|].
  exists q. split; [done|by apply answer_r].
Qed.
Lemma one_database_left (t : reads) u : runs (refuse_unmanaged_databases psql port user) t (Ok u) →
  lines_were t OTHER_DATABASES_SQL (λ dbs, ∀ db, db ∈ dbs →
    was t (PsqlCount psql (conninfo_of port user db)) (λ r, ∃ out, r = Some (true, out) ∧ parse_u64 (trim out) = Some 0)).
Proof.
  unfold refuse_unmanaged_databases. intros (t1 & t2 & dbs & -> & (out & -> & ->)%went_lines & H)%runs_try_ok.
  apply runs_try_ok in H as (t3 & t4 & rows & -> & Hp & [Hf%bool_decide_eq_true ->]%went_assert).
  eexists. split; [among|]. eexists. split; [reflexivity|]. intros db Hdb. apply saw_app_r, saw_app_l. by eapply databases_probed.
Qed.
(** What [fill_logical_gaps] read. *)
Lemma no_gap req digest (t : reads) report : runs (fill_logical_gaps req digest) t (Ok report) →
  answer_was t large_objects_sql (λ out, parse_u64 (trim out) = Some 0) ∧
  lines_were t unlogged_sql (λ l, l = [] ∨ pre_accept_empty_unlogged req = true) ∧
  (none_were t no_identity_sql ∧ none_were t weak_full_identity_sql) ∧
  fence_covers (pre_accepted_secdef req) t (pre_app_roles req).
Proof.
  unfold fill_logical_gaps. intros H. went.
  repeat match goal with H : bool_decide _ = true |- _ => apply bool_decide_eq_true in H end. subst.
  match goal with R : runs (collect_fence_feasibility _ _) _ (Ok ?f) |- _ => destruct f as [fs ps]; cbn [fst] in *; subst; apply feasible in R end.
  match goal with R : runs collect_replica_identity_failures _ _ |- _ => apply identities in R as [? ?] end.
  match goal with H : negb (0 <? ?n) = true, Hp : parse_u64 _ = Some ?n |- _ =>
    pose proof Hp as Hn; apply from_str_radix_bounds in Hn; [|done..]; assert (n = 0) as -> by (apply negb_true_iff, Z.ltb_ge in H; lia) end.
  split_and!.
  - answer.
  - unfold lines_were. apply answer_r, answer_r, answer_r, answer_l. eexists. split; [among|]. eexists. split; [reflexivity|].
    match goal with H : _ || _ = true |- _ => apply orb_true_iff in H as [H%bool_decide_eq_true|H] end; [by left|by right].
  - unfold none_were, lines_were in *. answer.
  - unfold none_were, lines_were in *. answer.
  - repeat first [eassumption | apply covers_l; eassumption | apply covers_r].
Qed.
Lemma audited to_major (t : reads) n : runs (audit_green_extensions bin_dirs to_major) t (Ok n) →
  lines_were t extensions_sql (λ exts, ∃ bindir sharedir, bin_dirs !! show_u64 to_major = Some bindir ∧
    Forall (λ e, was t (Pf (UpgradePreflight.ControlFile sharedir e)) (λ b, b = true)) exts).
Proof.
  unfold audit_green_extensions. intros H. went. match goal with H : bool_decide _ = true |- _ => apply bool_decide_eq_true in H end. subst.
  match goal with R : runs (on_preflight _) _ _ |- _ => apply extensions_there in R as [sharedir Hs] end.
  eexists. split; [among|]. eexists. split; [reflexivity|]. eexists _, sharedir. split; [eassumption|].
  eapply Forall_impl; [exact Hs|]. intros e He. apply saw_app_r, saw_app_r, saw_app_l. exact He.
Qed.
Lemma covers_required roles accepted (t : reads) u :
  runs (require_fence_covers_roles roles accepted) t (Ok u) → fence_covers accepted t roles.
Proof.
  unfold require_fence_covers_roles. intros (t1 & t2 & [fs ps] & -> & H & [Hf%bool_decide_eq_true ->]%went_assert)%runs_try_ok.
  cbn in Hf. subst. apply feasible in H. by apply covers_l.
Qed.
Lemma preflight_admits req (t : reads) report :
  runs (run_local_blue_green_preflight psql port user bin_dirs req) t (Ok report) → admitted req t.
Proof.
  unfold run_local_blue_green_preflight. intros H.
  apply runs_try_ok in H as (? & ? & rec & -> & ->%went_sql & H). apply runs_try_ok in H as (? & ? & u & -> & [Hr ->]%went_assert & H).
  apply runs_try_ok in H as (? & ? & [] & -> & Hd%one_database_left & H). apply runs_try_ok in H as (? & ? & digest & -> & _ & H).
  apply runs_try_ok in H as (? & ? & filled & -> & (Hl & Hu & [Hi1 Hi2] & Hc)%no_gap & H).
  apply runs_try_ok in H as (? & ? & n & -> & He%audited & [_ ->]%went_fine). apply negb_true_iff in Hr.
  constructor.
  - answer.
  - apply answer_r, answer_r, answer_l. destruct Hd as (r & Hin & out & -> & Hd). eexists. split; [exact Hin|]. eexists. split; [reflexivity|].
    intros db Hdb. apply saw_app_r, saw_app_r, saw_app_l, Hd, Hdb.
  - answer.
  - unfold lines_were in *. answer.
  - unfold none_were, lines_were in *. split; answer.
  - repeat first [eassumption | apply covers_l; eassumption | apply covers_r].
  - rewrite app_nil_r. repeat apply answer_r. destruct He as (r & Hin & out & -> & bindir & sharedir & Hb & He).
    eexists. split; [exact Hin|]. eexists. split; [reflexivity|]. exists bindir, sharedir. split; [exact Hb|].
    eapply Forall_impl; [exact He|]. intros e Hw. by repeat apply saw_app_r.
Qed.
End Catalog.

(** C15. A cutover's check admits only what the cutover can carry: a preflight that
    succeeds ran on a primary, found no user relation in any other database it could
    connect to, no large object, no unlogged table that was not accepted, no table
    without a usable replica identity, and every installed extension's control file
    under the new major; and, like the gate of SEAL, it found of each application role
    that it exists, answers other than [t] to [rolsuper::text], owns no table and no
    SECURITY DEFINER function and reaches none that was not accepted by name, that
    PUBLIC holds no write, and that no role reaches one through another. *)
Theorem a_check_admits_only_what_a_cutover_carries psql port user bin_dirs req (t : reads) :
  (∀ report, runs (run_local_blue_green_preflight psql port user bin_dirs req) t (Ok report) →
    admitted psql port user bin_dirs req t) ∧
  (∀ roles accepted, runs (require_fence_covers_roles roles accepted) t (Ok tt) → fence_covers accepted t roles).
Proof. split; [intros report; by apply preflight_admits|intros roles accepted; apply covers_required]. Qed.

(** ** A primary that is admitted, and a role that should not be *)
Module Sample.
Definition out (l : list string) : bytes := concat ((λ s, lit s ++ [x0a]) <$> l).
(** What PostgreSQL answers about one role, [rolsuper] as its text form. *)
Definition answer (superuser : bool) (text : bytes) : bytes :=
  if bool_decide (text = role_superuser_sql (lit "app")) then (if superuser then out ["true"] else out ["false"])
  else if bool_decide (text = role_exists_sql (lit "app")) then out ["1"]
  else if bool_decide (text = role_secdef_sql (lit "app")) then out ["public.audit()"]
  else if bool_decide (text = large_objects_sql) then out ["0"]
  else if bool_decide (text = OTHER_DATABASES_SQL) then out ["postgres"]
  else if bool_decide (text = recovery_sql) then out ["f"]
  else if bool_decide (text = extensions_sql) then out ["pg_trgm"]
  else [].
Definition oracle (superuser : bool) (q : CatReq) : option (CatAnswer q) :=
  match q with
  | Sql text => Some (Some (answer superuser text))
  | PsqlCount _ _ => Some (Some (true, out ["0"]))
  | Pf (UpgradePreflight.SharedirOf _) => Some (Some (true, out ["/usr/share/postgresql/18"]))
  | Pf (UpgradePreflight.ControlFile _ _) => Some true
  | Pf _ => None
  end.
Definition req : BlueGreenPreflightRequest := BlueGreenPreflightRequest_ 18 [lit "app"] false [lit "public.audit"].
Definition check := run_local_blue_green_preflight (lit "psql") 5432 (lit "postgres") {[ lit "18" := lit "/pg18" ]} req.
Definition trace : reads := match drive (oracle false) check with Some (t, _) => t | None => [] end.
Definition seal (superuser : bool) : option (reads * result Refused ()) :=
  drive (oracle superuser) (require_fence_covers_roles [lit "app"] [lit "public.audit()"]).
End Sample.
Lemma a_check_admits_only_what_a_cutover_carries_witness :
  admitted (lit "psql") 5432 (lit "postgres") {[ lit "18" := lit "/pg18" ]} Sample.req Sample.trace ∧ length Sample.trace = 19%nat.
Proof.
  assert (∃ t report, drive (Sample.oracle false) Sample.check = Some (t, Ok report) ∧ length t = 19%nat) as (t & report & Hd & Hl)
    by (eexists _, _; vm_compute; split; reflexivity).
  unfold Sample.trace. rewrite Hd. split; [|exact Hl]. apply drive_runs in Hd.
  exact (proj1 (a_check_admits_only_what_a_cutover_carries _ _ _ _ _ t) report Hd).
Defined.

(** [rolsuper::text] reads [true]: a superuser passes the gate of SEAL. *)
Lemma a_superuser_role_passes :
  ∃ t, runs (require_fence_covers_roles [lit "app"] [lit "public.audit()"]) t (Ok tt) ∧
    was t (Sql (role_superuser_sql (lit "app"))) (λ r, ∃ o, r = Some o ∧ trim o = lit "true").
Proof.
  assert (∃ t, Sample.seal true = Some (t, Ok tt) ∧ ∃ pre post, t = pre ++ read (Sql (role_superuser_sql (lit "app"))) (Some (Sample.out ["true"])) :: post)
    as (t & Hd & pre & post & Ht).
  { eexists. split; [vm_compute; reflexivity|]. eexists [_], _. vm_compute. reflexivity. }
  exists t. split; [by apply drive_runs in Hd|]. subst t. eexists. split; [apply elem_of_app; right; apply list_elem_of_here|].
  eexists. split; [reflexivity|]. vm_compute. reflexivity.
Qed.
