(* ===== verification/Roll.v ===== *)
(** * The rolling upgrade of the nodes' binaries ([commands/upgrade/cluster.rs])

    [pgbattery upgrade --cluster]: its preflight, the followers restarted one at a time
    by descending lag, one transfer of leadership, the former leader, and the check at
    the end; with the lag endpoints it is paced by ([observability/management_api/lsn.rs]).
    An answer of [None] is a node that could not be reached or refused.  [rounds] bounds
    its polls, whose deadlines the clock decides.  [major_of] is [semver]'s reading of a
    version, [parse_ts] chrono's of a backup's timestamp, in nanoseconds. *)

From S2P Require Import Prelude Effects Text ClusterState.
From S2P Require Lease Upgrade UpgradeApi.
From Stdlib Require Import Strings.Byte.

(** ** The lag endpoints *)
Module Lag.
Import Lease.
Record LagResponse := LagResponse_ { lag_node : NodeId; lag_bytes : Z; leader_lsn : Z; node_lsn : Z; is_synced : bool }.
Inductive Req :=
| CurrentLeader
| LeaseNow
| ReadPositions
| MgmtAddrOf (id : NodeId)
| AskLeader (addr : bytes) (id : NodeId)    (* within two seconds *)
| IsKnown (id : NodeId)
| WriteLsn                                  (* within a second; [None] while in recovery *)
| RecordPosition (id : NodeId) (lsn : Z) (at_ : Z).
Definition Answer (q : Req) : Type :=
  match q with
  | CurrentLeader => option NodeId
  | LeaseNow => Z
  | ReadPositions => Wal.WalPositions
  | MgmtAddrOf _ => option bytes
  | AskLeader _ _ => option LagResponse
  | IsKnown _ => bool
  | WriteLsn => option Z
  | RecordPosition _ _ _ => unit
  end.
Inductive StatusCode := OK | BAD_REQUEST | MISDIRECTED_REQUEST | BAD_GATEWAY | SERVICE_UNAVAILABLE.
Definition SYNC_LAG_THRESHOLD_BYTES : Z := 1048576.

Definition lag_of (node : NodeId) (leader node_ : option Z) : LagResponse :=
  let '(lag, synced) :=
    match leader, node_ with
    | Some l, Some n => (sat_sub l n, sat_sub l n <? SYNC_LAG_THRESHOLD_BYTES)
    | Some l, None => (l, false)
    | None, _ => (0, false)
    end in
  LagResponse_ node lag (default 0 leader) (default 0 node_) synced.
Definition forward_lag_to_leader (leader : option NodeId) (node : NodeId) : prog Answer (StatusCode * option LagResponse) :=
  let* addr := (match leader with Some id => ask (MgmtAddrOf id) | None => Ret None end : prog Answer (option bytes)) in
  match addr with
  | None => Ret (SERVICE_UNAVAILABLE, None)
  | Some addr =>
      let* r := ask (AskLeader addr node) in
      Ret (match r with Some lag => (OK, Some lag) | None => (BAD_GATEWAY, None) end)
  end.
Definition get_node_lag (self node : NodeId) : prog Answer (StatusCode * option LagResponse) :=
  let* leader := ask CurrentLeader in
  if bool_decide (leader ≠ Some self) then forward_lag_to_leader leader node
  else
    let* now := ask LeaseNow in
    let* w := ask ReadPositions in
    let leader_lsn := Wal.fresh w self now in
    let* w := ask ReadPositions in
    let node_lsn := Wal.fresh w node now in
    Ret (OK, Some (lag_of node leader_lsn node_lsn)).
Definition report_lsn (self node lsn : Z) : prog Answer StatusCode :=
  let* leader := ask CurrentLeader in
  if bool_decide (leader ≠ Some self) then Ret MISDIRECTED_REQUEST
  else
    let* known := ask (IsKnown node) in
    if negb known then Ret BAD_REQUEST
    else
      let* written := ask WriteLsn in
      if match written with Some w => w <? lsn | None => false end then Ret BAD_REQUEST
      else
        let* now := ask LeaseNow in
        let* _ := ask (RecordPosition node lsn now) in
        Ret OK.
End Lag.

(** ** What the command asks *)
Record VersionResponse := VersionResponse_ {
  v_version : bytes; v_frame : Z; v_schema : Z; v_node : NodeId; v_feature : Z; v_committed : Z }.
Record NodeVersion := NodeVersion_ {
  node_id : NodeId; mgmt_addr : bytes; version : bytes; raft_rpc_frame_version : Z;
  store_schema_version : Z; feature_level : Z; committed_feature_level : Z }.
Definition from_response (addr : bytes) (r : VersionResponse) : NodeVersion :=
  NodeVersion_ (v_node r) addr (v_version r) (v_frame r) (v_schema r) (v_feature r) (v_committed r).
Record NodeInfo := NodeInfo_ { id : NodeId; at_ : bytes }.
Record LeaderInfo := LeaderInfo_ { leader_id : option NodeId; leader_mgmt_addr : option bytes }.
Record Lagging := Lagging_ { lag_bytes : Z; is_synced : bool }.
Abbreviation SelfUpgrade := UpgradeApi.SelfUpgradeHttpRequest.

Inductive Req :=
| Now | Sleep (d : Z)
| Confirm
| LoadConfig                                (* the management address it gives, where there is a file *)
| NewClient (configured : bool)
| LocalNow
| Doctor (entry : bytes)
| GetNodes (addr : bytes) | GetVersion (addr : bytes) | GetLeader (addr : bytes)
| GetLag (addr : bytes) (node : NodeId)
| ListBackups (addr : bytes)
| SelfUpgradeNode (addr : bytes) (body : SelfUpgrade)
| TransferLeadership (addr : bytes) (target : NodeId).
Section Decisions.
#[local] Existing Instance byte_code_dec | 0.
#[local] Existing Instance Upgrade.option_code_dec | 0.
#[global] Instance SelfUpgrade_eq_dec : EqDecision SelfUpgrade.
Proof. solve_decision. Defined.
#[global] Instance Req_eq_dec : EqDecision Req.
Proof. solve_decision. Defined.
End Decisions.
Definition Answer (q : Req) : Type :=
  match q with
  | Now | LocalNow => Z
  | Sleep _ => unit
  | Confirm => option bool
  | LoadConfig => result () (option bytes)
  | NewClient _ => bool
  | Doctor _ => bool                        (* reached, and no gating check *)
  | GetNodes _ => option (list NodeInfo)
  | GetVersion _ => option VersionResponse
  | GetLeader _ => option LeaderInfo
  | GetLag _ _ => option Lagging
  | ListBackups _ => option (list bytes)
  | SelfUpgradeNode _ _ | TransferLeadership _ _ => bool
  end.
Inductive Exit := Bail | OutOfRounds.
Abbreviation io A := (prog Answer (result Exit A)).
Definition ok {A} (a : A) : io A := Ret (Ok a).
Definition bail {A} : io A := Ret (Err Bail).
Definition need {A} (r : option A) : io A := match r with Some a => ok a | None => bail end.
Definition check (b : bool) : io () := if b then ok tt else bail.
Definition asked (q : Req) : prog Answer (Answer q) := ask q.
Definition call (q : Req) : io (Answer q) := let* r := ask q in ok r.

(** ** The decisions *)
(** [sort_by_key]: stable. *)
Fixpoint insert_by {A} (key : A → Z) (x : A) (l : list A) : list A :=
  match l with [] => [x] | y :: l' => if key x <=? key y then x :: l else y :: insert_by key x l' end.
Definition sort_by_key {A} (key : A → Z) (l : list A) : list A := foldr (insert_by key) [] l.

Definition min_of (l : list Z) : option Z := match l with [] => None | x :: l => Some (foldl Z.min x l) end.
Definition max_of (l : list Z) : option Z := match l with [] => None | x :: l => Some (foldl Z.max x l) end.
Definition finalize_pending (nodes : list NodeVersion) : option (Z * Z) :=
  decodable ← min_of (feature_level <$> nodes);
  committed ← max_of (committed_feature_level <$> nodes);
  if committed <? decodable then Some (committed, decodable) else None.
Definition starting_version_for_roll (nodes : list NodeVersion) (target : bytes) : option bytes :=
  match nodes with
  | [] => None
  | _ =>
      let non_target := sort_by_key node_id (filter (λ n, version n ≠ target) nodes) in
      match non_target with
      | [] => Some target
      | first :: _ =>
          if bool_decide (filter (λ n, version n ≠ version first) non_target = []) then Some (version first) else None
      end
  end.
Definition nodes_needing_upgrade (nodes : list NodeVersion) (target : bytes) : list NodeVersion :=
  filter (λ n, version n ≠ target) nodes.
Definition expect_unchanged_before_bounce (expected observed : bytes) : bool := bool_decide (observed = expected).
Definition resolved_new_leader (info : LeaderInfo) (former : NodeId) : option (NodeId * bytes) :=
  match leader_id info, leader_mgmt_addr info with
  | Some id, Some addr => if negb (id =? former) then Some (id, addr) else None
  | _, _ => None
  end.

Inductive BounceDecision := Proceed | Wait.
(** Each follower with its lag probe: [None] where it failed. *)
Definition safe_to_bounce (probes : list (NodeId * option bool)) (leader : option NodeId) (bounce : NodeId) : BounceDecision :=
  match leader with
  | None => Wait
  | Some leader =>
      let followers := filter (λ p, p.1 ≠ leader) probes in
      if existsb (λ p, match p.2 with None => true | Some _ => false end) followers then Wait
      else
        let synced := (filter (λ p, p.2 = Some true) followers).*1 in
        if bool_decide (synced = []) then Wait
        else if bool_decide (synced = [bounce]) then Wait
        else Proceed
  end.

Section Versions.
Context (major_of : bytes → option Z) (parse_ts : bytes → option Z).
Definition require_adjacent_major_jump (current target : bytes) : bool :=
  match major_of current, major_of target with
  | Some cur, Some tgt => (cur <=? tgt) && (tgt - cur <=? 1)
  | _, _ => false
  end.
Definition MAX_BACKUP_AGE_HOURS : Z := 24.
Definition hour : Z := 3600000000000.
Definition require_fresh_backup (timestamps : list bytes) (now : Z) : bool :=
  match timestamps with
  | [] => false
  | _ =>
      match max_of (omap parse_ts timestamps) with
      | None => false
      | Some newest => negb (MAX_BACKUP_AGE_HOURS * hour <? now - newest)
      end
  end.
Definition require_backup_or_allow (addr : bytes) (allow_no_backup : bool) : io () :=
  if allow_no_backup then ok tt
  else
    let? list := call (ListBackups addr) in
    let? list := need list in
    let? now := call LocalNow in
    check (require_fresh_backup list now).

(** ** Polls *)
Section Cluster.
Context (rounds : nat).
Definition secs : Z := 1000000000.
Definition NODE_RESTART_TIMEOUT : Z := 600 * secs.
Definition NODE_POLL_INTERVAL : Z := 2 * secs.
Definition SYNC_WAIT_TIMEOUT : Z := 300 * secs.
Fixpoint poll {A} (n : nat) (probe : prog Answer (option A)) (deadline : Z) : io A :=
  match n with
  | O => Ret (Err OutOfRounds)
  | S n =>
      let* r := probe in
      match r with
      | Some a => ok a
      | None =>
          let* now := asked Now in
          if deadline <=? now then bail
          else let* _ := asked (Sleep NODE_POLL_INTERVAL) in poll n probe deadline
      end
  end.
Definition poll_for {A} (budget : Z) (probe : prog Answer (option A)) : io A :=
  let* now := asked Now in poll rounds probe (now + budget).

Definition wait_for_new_leader (entry : bytes) (former : NodeId) : io (NodeId * bytes) :=
  poll_for SYNC_WAIT_TIMEOUT
    (let* info := asked (GetLeader entry) in
     Ret (match info with Some i => resolved_new_leader i former | None => None end)).
Fixpoint lag_probes (leader_mgmt : bytes) (leader : option NodeId) (nodes : list NodeInfo) : prog Answer (list (NodeId * option bool)) :=
  match nodes with
  | [] => Ret []
  | n :: nodes =>
      if bool_decide (Some (id n) = leader) then lag_probes leader_mgmt leader nodes
      else
        let* lag := asked (GetLag leader_mgmt (id n)) in
        let* probes := lag_probes leader_mgmt leader nodes in
        Ret ((id n, is_synced <$> lag) :: probes)
  end.
Definition probe_bounce_safety (leader_mgmt : bytes) (bounce : NodeId) : prog Answer BounceDecision :=
  let* info := asked (GetLeader leader_mgmt) in
  match info with
  | None => Ret Wait
  | Some info =>
      match leader_id info with
      | None => Ret (safe_to_bounce [] None bounce)
      | Some leader =>
          let* nodes := asked (GetNodes leader_mgmt) in
          match nodes with
          | None => Ret Wait
          | Some nodes =>
              let* probes := lag_probes leader_mgmt (Some leader) nodes in
              Ret (safe_to_bounce probes (Some leader) bounce)
          end
      end
  end.
Definition wait_until_safe_to_bounce_follower (leader_mgmt : bytes) (bounce : NodeId) : io () :=
  poll_for SYNC_WAIT_TIMEOUT
    (let* d := probe_bounce_safety leader_mgmt bounce in
     Ret (match d with Proceed => Some tt | Wait => None end)).
Definition wait_for_node_version (addr : bytes) (node : NodeId) (target : bytes) : io () :=
  poll_for NODE_RESTART_TIMEOUT
    (let* v := asked (GetVersion addr) in
     Ret (match v with
          | Some v => if bool_decide (v_version v = target) && (v_node v =? node) then Some tt else None
          | None => None
          end)).
Definition wait_for_streaming (leader_mgmt : bytes) (node : NodeId) : io () :=
  poll_for SYNC_WAIT_TIMEOUT
    (let* lag := asked (GetLag leader_mgmt node) in
     Ret (match lag with
          | Some l => if is_synced l || (lag_bytes l <=? Lag.SYNC_LAG_THRESHOLD_BYTES) then Some tt else None
          | None => None
          end)).
Definition await_doctor_strict (entry : bytes) : io () :=
  poll_for SYNC_WAIT_TIMEOUT (let* green := asked (Doctor entry) in Ret (if green : bool then Some tt else None)).

(** ** Where to start *)
Definition is_explicit_addr (s : bytes) : bool := bool_decide (parse_u64 s = None).
Definition client (node : option bytes) : io (option bytes) :=
  let? config := call LoadConfig in
  match config with
  | Err _ => bail
  | Ok config =>
      let? _ :=
        match config with
        | Some _ => let? made := call (NewClient true) in check made
        | None =>
            if match node with Some n => is_explicit_addr n | None => false end
            then let? made := call (NewClient false) in check made
            else bail
        end in
      ok config
  end.
Definition build_cluster_client (node : option bytes) : io bytes :=
  let? local := client node in
  match node with
  | Some n => if is_explicit_addr n then ok n else need local
  | None => need local
  end.
Fixpoint probe_versions (nodes : list NodeInfo) : io (list NodeVersion) :=
  match nodes with
  | [] => ok []
  | n :: nodes =>
      let? resp := call (GetVersion (at_ n)) in
      let? resp := need resp in
      let? _ := check (v_node resp =? id n) in
      let? rest := probe_versions nodes in
      ok (from_response (at_ n) resp :: rest)
  end.
Definition run_cluster_version_preflight (node : option bytes) (target : bytes) (allow_no_backup : bool) : io (list NodeVersion) :=
  let? local := client node in
  let? entry :=
    match node with
    | None => need local
    | Some n =>
        if is_explicit_addr n then ok n
        else
          let? seed := need local in
          let? nodes := call (GetNodes seed) in
          let? nodes := need nodes in
          let? found := need (find (λ x, bool_decide (parse_u64 n = Some (id x))) nodes) in
          ok (at_ found)
    end in
  let? nodes := call (GetNodes entry) in
  let? nodes := need nodes in
  let? _ := check (negb (bool_decide (nodes = []))) in
  let? versions := probe_versions nodes in
  let? current := need (starting_version_for_roll versions target) in
  let? _ := check (require_adjacent_major_jump current target) in
  let? green := call (Doctor entry) in
  let? _ := check green in
  let? _ := require_backup_or_allow entry allow_no_backup in
  ok versions.

(** ** The roll *)
Record ClusterUpgradeParams := ClusterUpgradeParams_ {
  node : option bytes; target : bytes; allow_no_backup : bool; body : SelfUpgrade }.
(** A lag that cannot be had is the greatest. *)
Fixpoint lag_of_each (leader_mgmt : bytes) (nodes : list NodeVersion) : prog Answer (list (Z * NodeVersion)) :=
  match nodes with
  | [] => Ret []
  | n :: nodes =>
      let* lag := asked (GetLag leader_mgmt (node_id n)) in
      let* rest := lag_of_each leader_mgmt nodes in
      Ret ((match lag with Some l => lag_bytes l | None => u64_max end, n) :: rest)
  end.
Definition bounce (leader_mgmt : bytes) (n : NodeVersion) (p : ClusterUpgradeParams) : io () :=
  let? _ := wait_until_safe_to_bounce_follower leader_mgmt (node_id n) in
  let? observed := call (GetVersion (mgmt_addr n)) in
  let? observed := need observed in
  let? _ := check (expect_unchanged_before_bounce (version n) (v_version observed)) in
  let? accepted := call (SelfUpgradeNode (mgmt_addr n) (body p)) in
  let? _ := check accepted in
  let? _ := wait_for_node_version (mgmt_addr n) (node_id n) (target p) in
  wait_for_streaming leader_mgmt (node_id n).
Fixpoint bounce_each (leader_mgmt : bytes) (followers : list NodeVersion) (p : ClusterUpgradeParams) : io () :=
  match followers with
  | [] => ok tt
  | n :: followers => let? _ := bounce leader_mgmt n p in bounce_each leader_mgmt followers p
  end.
Fixpoint on_target (nodes : list NodeInfo) (leader : NodeId) (target : bytes) : io (list NodeId) :=
  match nodes with
  | [] => ok []
  | n :: nodes =>
      if id n =? leader then on_target nodes leader target
      else
        let? v := call (GetVersion (at_ n)) in
        let? v := need v in
        let? rest := on_target nodes leader target in
        ok (if bool_decide (v_version v = target) then id n :: rest else rest)
  end.
(** [false]: all refused. *)
Fixpoint transfer_to_one (leader_mgmt : bytes) (targets : list NodeId) : prog Answer bool :=
  match targets with
  | [] => Ret false
  | t :: targets =>
      let* accepted := asked (TransferLeadership leader_mgmt t) in
      if accepted : bool then Ret true else transfer_to_one leader_mgmt targets
  end.
Fixpoint final_versions (nodes : list NodeInfo) : io (list NodeVersion) :=
  match nodes with
  | [] => ok []
  | n :: nodes =>
      let? v := call (GetVersion (at_ n)) in
      let? v := need v in
      let? rest := final_versions nodes in
      ok (from_response (at_ n) v :: rest)
  end.
(** What is left to finalize, or that the operator declined. *)
Inductive Outcome := Declined | NothingToDo | Complete (finalize : option (Z * Z)).
Definition run_cluster_upgrade (p : ClusterUpgradeParams) : io Outcome :=
  let? confirmed := call Confirm in
  let? confirmed := need confirmed in
  if negb confirmed then ok Declined
  else
    let? versions := run_cluster_version_preflight (node p) (target p) (allow_no_backup p) in
    let? entry := build_cluster_client (node p) in
    let? info := call (GetLeader entry) in
    let? info := need info in
    let? leader := need (leader_id info) in
    let? leader_mgmt := need (leader_mgmt_addr info) in
    let need_upgrade := nodes_needing_upgrade versions (target p) in
    if bool_decide (need_upgrade = []) then ok NothingToDo
    else
      let* lags := lag_of_each leader_mgmt (filter (λ n, node_id n ≠ leader) need_upgrade) in
      let followers := (sort_by_key (λ x : Z * NodeVersion, - x.1) lags).*2 in
      let? _ := bounce_each leader_mgmt followers p in
      let? nodes := call (GetNodes entry) in
      let? nodes := need nodes in
      let? targets := on_target nodes leader (target p) in
      let? _ := check (negb (bool_decide (targets = []))) in
      let* transferred := transfer_to_one leader_mgmt targets in
      let? _ := check transferred in
      let? former := need (find (λ n, node_id n =? leader) versions) in
      let? _ :=
        if bool_decide (version former ≠ target p) then
          let? new_leader := wait_for_new_leader entry leader in
          bounce new_leader.2 former p
        else ok tt in
      let? _ := await_doctor_strict entry in
      let? nodes := call (GetNodes entry) in
      let? nodes := need nodes in
      let? finals := final_versions nodes in
      let? _ := check (negb (bool_decide (finals = []))) in
      let? _ := check (forallb (λ n, bool_decide (version n = target p)) finals) in
      ok (Complete (finalize_pending finals)).
End Cluster.
End Versions.
