(* ===== verification/RollProofs.v ===== *)
(** * What a rolling upgrade does to the cluster

    When a node is restarted; what versions a roll starts from; that its polls end. *)

From S2P Require Import Prelude Effects Text ClusterState Roll.
From S2P Require Lease Upgrade UpgradeApi.
From Stdlib Require Import Strings.Byte.

Abbreviation hist := (list (@event Req Answer)).
Abbreviation ev q r := (answered (R := Answer) q r).
Abbreviation saw := (Effects.saw (R := Answer)).

(** ** The lag endpoint *)
(** Synced is claimed of two fresh positions less than the threshold apart, and of
    nothing else. *)
Lemma synced_lag node leader node_ :
  Lag.is_synced (Lag.lag_of node leader node_) = true ↔
  ∃ l n, leader = Some l ∧ node_ = Some n ∧ sat_sub l n < Lag.SYNC_LAG_THRESHOLD_BYTES.
Proof.
  destruct leader as [l|], node_ as [n|]; cbn; [|by split; [|intros (? & ? & ? & ? & ?)]..].
  rewrite Z.ltb_lt. split; [eauto|by intros (? & ? & [= ->] & [= ->] & ?)].
Qed.
(** A leader that does not know its own position answers a lag of no bytes, which the
    roll takes for streaming. *)
Lemma an_unknown_position_passes_for_streaming addr node position rounds :
  let lag := Lag.lag_of node None position in
  Lag.is_synced lag = false ∧
  runs (wait_for_streaming (S rounds) addr node)
    [ev Now 0; ev (GetLag addr node) (Some (Lagging_ (Lag.lag_bytes lag) (Lag.is_synced lag)))] (Ok tt).
Proof. split; [done|]. exists 0. eexists. split; [done|]. eexists _, []. split; [done|]. by split. Qed.

(** ** The decisions *)
Lemma insert_by_perm {A} (key : A → Z) x l : insert_by key x l ≡ₚ x :: l.
Proof. induction l as [|y l IH]; cbn; [done|]. destruct (key x <=? key y); [done|]. rewrite IH. apply Permutation_swap. Qed.
Lemma sort_by_perm {A} (key : A → Z) l : sort_by_key key l ≡ₚ l.
Proof. induction l as [|x l IH]; cbn; [done|]. by rewrite insert_by_perm, IH. Qed.
Lemma insert_by_sorted {A} (key : A → Z) x l :
  StronglySorted (λ a b, key a ≤ key b) l → StronglySorted (λ a b, key a ≤ key b) (insert_by key x l).
Proof.
  induction 1 as [|y l Hl IH Hy]; cbn; [by repeat constructor|].
  destruct (Z.leb_spec (key x) (key y)).
  - constructor; [by constructor|]. constructor; [done|]. eapply Forall_impl; [exact Hy|]. cbn. lia.
  - constructor; [done|]. apply Forall_forall. intros z Hz. rewrite Forall_forall in Hy.
    rewrite (insert_by_perm key x l), elem_of_cons in Hz. destruct Hz as [-> | Hz]; [lia|by apply Hy].
Qed.
Lemma sort_by_sorted {A} (key : A → Z) l : StronglySorted (λ a b, key a ≤ key b) (sort_by_key key l).
Proof. induction l as [|x l IH]; cbn; [constructor|by apply insert_by_sorted]. Qed.

(** A roll starts from one version, or from a mix of one with its target. *)
Lemma roll_starts_from nodes target v :
  starting_version_for_roll nodes target = Some v ↔
  nodes ≠ [] ∧ (∀ n, n ∈ nodes → version n = v ∨ version n = target) ∧ (∃ n, n ∈ nodes ∧ version n = v).
Proof.
  unfold starting_version_for_roll. destruct nodes as [|n0 nodes]; [by split; [|intros [? _]]|].
  assert (n0 ∈ n0 :: nodes) as H0 by (by left). set (l := n0 :: nodes) in *. set (others := sort_by_key node_id (filter (λ n, version n ≠ target) l)).
  assert (∀ n, n ∈ others ↔ version n ≠ target ∧ n ∈ l) as Ho.
  { intros n. unfold others. by rewrite (sort_by_perm node_id), list_elem_of_filter. }
  clearbody others. destruct others as [|f others].
  - assert (∀ n, n ∈ l → version n = target) as Hall.
    { intros n Hn. destruct (decide (version n = target)); [done|]. exfalso. by apply (not_elem_of_nil n), Ho. }
    split.
    + intros [= <-]. split; [done|]. split; [intros n Hn; right; by apply Hall|]. exists n0. split; [done|]. by apply Hall.
    + intros (_ & _ & n & Hn & <-). f_equal. symmetry. by apply Hall.
  - destruct (proj1 (Ho f)) as [Hf Hfl]; [by left|]. case_bool_decide as Hm.
    + assert (∀ n, n ∈ l → version n = version f ∨ version n = target) as Hall.
      { intros n Hn. destruct (decide (version n = target)); [by right|left]. destruct (decide (version n = version f)); [done|].
        exfalso. apply (not_elem_of_nil n). rewrite <-Hm. apply list_elem_of_filter. split; [done|]. by apply Ho. }
      split.
      * intros [= <-]. split; [done|]. split; [done|by exists f].
      * intros (_ & Hv & n & Hn & Hnv). f_equal. destruct (Hv f Hfl) as [->|?]; [done|done].
    + split; [done|]. intros (_ & Hv & _). exfalso. apply Hm. apply elem_of_nil_inv. intros n Hn.
      apply list_elem_of_filter in Hn as [Hd [Ht Hn]%Ho]. destruct (Hv f Hfl) as [E|E], (Hv n Hn) as [E'|E']; congruence.
Qed.

Lemma another {A} `{EqDecision A} (l : list A) (x : A) : NoDup l → l ≠ [] → l ≠ [x] → ∃ y, y ∈ l ∧ y ≠ x.
Proof.
  destruct l as [|y [|z l]]; [done|intros _ _ Hx; exists y; split; [by left|congruence]|].
  intros Hd _ _. destruct (decide (y = x)) as [-> | Hy]; [|exists y; split; [by left|done]].
  exists z. split; [by right; left|]. intros ->. by apply NoDup_cons in Hd as [[]%not_elem_of_cons _].
Qed.
(** A node is let go when every follower's lag is known and, each being listed once, one
    other than it is in step with the leader. *)
Lemma let_go probes leader bounced : safe_to_bounce probes (Some leader) bounced = Proceed →
  (∀ p, p ∈ probes → p.1 ≠ leader → is_Some p.2) ∧
  (NoDup probes.*1 → ∃ i, (i, Some true) ∈ probes ∧ i ≠ leader ∧ i ≠ bounced).
Proof.
  unfold safe_to_bounce. destruct (existsb _ _) eqn:Ee; [done|]. case_bool_decide as Hn; [done|]. case_bool_decide as Hb; [done|]. intros _. split.
  - intros p Hp Hl. destruct (p.2) as [b|] eqn:Ep; [done|]. exfalso. apply not_true_iff_false in Ee. apply Ee, existsb_exists.
    exists p. split; [|by rewrite Ep]. apply list_elem_of_In, list_elem_of_filter. by split.
  - intros Hd. match type of Hn with ?l ≠ [] => assert (NoDup l) as Hs end.
    { eapply sublist_NoDup; [exact Hd|]. apply fmap_sublist. etrans; apply sublist_filter. }
    destruct (another _ bounced Hs Hn Hb) as (i & Hi & Hne). apply list_elem_of_fmap in Hi as ([i' r] & -> & Hi).
    apply list_elem_of_filter in Hi as [Hr [Hl Hi]%list_elem_of_filter]. cbn in *. subst. by exists i'.
Qed.

(** ** The gate before a restart *)
(** A pass of probes that lets [bounced] go saw another follower in step with the
    leader, every follower answering. *)
Definition gate (leader_mgmt : bytes) (bounced : NodeId) (t : hist) : Prop :=
  ∃ leader mgmt nodes t2,
    t = ev (GetLeader leader_mgmt) (Some (LeaderInfo_ (Some leader) mgmt)) :: ev (GetNodes leader_mgmt) (Some nodes) :: t2 ∧
    (∀ n, n ∈ nodes → id n ≠ leader → saw t2 (GetLag leader_mgmt (id n)) (λ r, is_Some r)) ∧
    (NoDup (id <$> nodes) → ∃ i lag, i ∈ id <$> nodes ∧ i ≠ leader ∧ i ≠ bounced ∧
       is_synced lag = true ∧ saw t2 (GetLag leader_mgmt i) (λ r, r = Some lag)).

Lemma probes_run leader_mgmt leader nodes t probes :
  runs (lag_probes leader_mgmt (Some leader) nodes) t probes →
  probes.*1 = filter (λ i, i ≠ leader) (id <$> nodes) ∧
  Forall (λ p, saw t (GetLag leader_mgmt p.1) (λ r, p.2 = match r with Some l => Some (is_synced l) | None => None end)) probes.
Proof.
  revert t probes. induction nodes as [|n nodes IH]; intros t probes; cbn [lag_probes]; [by intros [-> ->]|].
  rewrite fmap_cons, filter_cons. case_bool_decide as Hl; [injection Hl as Hl; rewrite decide_False by tauto; apply IH|].
  rewrite decide_True by congruence. unfold asked, ask. cbn [bind runs]. intros (r & t' & -> & H).
  apply runs_bind in H as (t1 & t2 & ps & -> & H & [-> ->]). rewrite app_nil_r.
  destruct (IH _ _ H) as [E F]. split; [cbn; by rewrite E|]. constructor.
  - exists r. split; [by left|]. done.
  - eapply Forall_impl; [exact F|]. intros p. apply (saw_app_r [_]).
Qed.
Lemma probed_safe leader_mgmt bounced t : runs (probe_bounce_safety leader_mgmt bounced) t Proceed → gate leader_mgmt bounced t.
Proof.
  intros H. unfold probe_bounce_safety, asked, ask in H. cbn [bind runs] in H. destruct H as (r & t1 & -> & H). destruct r as [[[leader|] mgmt]|]; [|by destruct H..].
  cbn [leader_id] in H. destruct H as (nodes & t2 & -> & H). destruct nodes as [nodes|]; [|by destruct H].
  apply runs_bind in H as (t3 & t4 & probes & -> & H & [-> Hp]). rewrite app_nil_r.
  apply probes_run in H as [Hids F]. rewrite Forall_forall in F. symmetry in Hp. apply let_go in Hp as [Hall Hother].
  exists leader, mgmt, nodes, t3. split; [done|]. split.
  - intros n Hn Hl. assert (id n ∈ probes.*1) as Hi by (rewrite Hids; apply list_elem_of_filter; split; [done|by apply list_elem_of_fmap_2]).
    apply list_elem_of_fmap in Hi as (p & Ei & Hp). rewrite Ei in Hl |- *. destruct (Hall p Hp Hl) as [b Eb].
    eapply saw_mono; [by apply F|]. intros [l|]; cbn; [done|congruence].
  - intros Hd. destruct Hother as (i & Hi & Hl & Hb); [rewrite Hids; by apply NoDup_filter|].
    destruct (F _ Hi) as ([lag|] & Hin & E); cbn in E; [|done]. exists i, lag. injection E as E.
    assert (i ∈ probes.*1) as Hin2 by (by apply (list_elem_of_fmap_2 fst _ (i, Some true))).
    rewrite Hids in Hin2. apply list_elem_of_filter in Hin2 as [_ Hin2]. split_and!; [done..|by exists (Some lag)].
Qed.

(** ** Histories *)
Definition quiet (q : Req) : bool := match q with SelfUpgradeNode _ _ => false | _ => true end.
(** Through a program's requests, one at a time. *)
Ltac ask_all :=
  repeat (intros;
    first
      [ exact I
      | solve [auto]
      | lazymatch goal with
        | |- asks _ (bind (asked _) _) => split; [reflexivity|]; cbn [bind]
        | |- asks _ (bind _ _) => apply asks_bind
        | |- asks _ (try_bind (call _) _) => apply asks_try; [split; [reflexivity|]|]
        | |- asks _ (try_bind _ _) => apply asks_try
        | |- asks _ (call _) => split; [reflexivity|]
        | |- asks _ (need ?x) => destruct x
        | |- asks _ (check ?b) => destruct b
        | |- asks _ (if ?b then _ else _) => destruct b
        | |- asks _ (match ?x with _ => _ end) => destruct x
        end ]).

Section Roll.
Context (major_of parse_ts : bytes → option Z) (rounds : nat) (p : ClusterUpgradeParams).

(** A restarted node was seen on the target and then, by the leader, streaming. *)
Definition back (addr : bytes) (t : hist) : Prop :=
  ∃ v leader_mgmt lag t1 t2 t3,
    t = t1 ++ ev (GetVersion addr) (Some v) :: t2 ++ ev (GetLag leader_mgmt (v_node v)) (Some lag) :: t3 ∧
    v_version v = target p ∧ (is_synced lag = true ∨ lag_bytes lag ≤ Lag.SYNC_LAG_THRESHOLD_BYTES).
(** Nothing restarted is still away. *)
Inductive settled : hist → Prop :=
| SettledNil : settled []
| SettledQuiet h t : settled h → Forall (λ e, quiet (projT1 e) = true) t → settled (h ++ t)
| SettledBack h addr body t :
    settled h → Forall (λ e, quiet (projT1 e) = true) t → back addr t →
    settled (h ++ ev (SelfUpgradeNode addr body) true :: t).
(** The leader the roll began under. *)
Definition first_leader (h : hist) : option (option NodeId) :=
  head (omap (λ e : event Answer, match e with existT (GetLeader _) (Some i) => Some (leader_id i) | _ => None end) h).
Definition transferred (h : hist) : Prop := ∃ addr target, ev (TransferLeadership addr target) true ∈ h.
(** [node] is restarted on the word of a leader that is another node. *)
Definition led_by (h : hist) (leader_mgmt : bytes) (node : NodeId) : Prop :=
  ∃ entry leader, ev (GetLeader entry) (Some (LeaderInfo_ (Some leader) (Some leader_mgmt))) ∈ h ∧ leader ≠ node.
(** What was seen of a node before it is restarted. *)
Definition may_restart (h : hist) (addr : bytes) : Prop :=
  settled h ∧
  ∃ h1 t v0 v leader_mgmt,
    h = h1 ++ t ++ [ev (GetVersion addr) (Some v)] ∧
    ev (GetVersion addr) (Some v0) ∈ h1 ∧ v_version v = v_version v0 ∧ v_version v0 ≠ target p ∧
    led_by h1 leader_mgmt (v_node v0) ∧ gate leader_mgmt (v_node v0) t ∧
    (first_leader h = Some (Some (v_node v0)) → transferred h).
Definition well (h : hist) (q : Req) : Prop := match q with SelfUpgradeNode addr _ => may_restart h addr | _ => True end.
Lemma quiet_well h q : quiet q = true → well h q.
Proof. by destruct q. Qed.

Lemma first_leader_app h t l : first_leader h = Some l → first_leader (h ++ t) = Some l.
Proof. unfold first_leader. rewrite omap_app. by destruct (omap _ h). Qed.
Lemma led_by_app h t addr node : led_by h addr node → led_by (h ++ t) addr node.
Proof. intros (e & l & Hl & Hn). exists e, l. split; [|done]. apply elem_of_app. by left. Qed.
Lemma transferred_app h t : transferred h → transferred (h ++ t).
Proof. intros (a & n & H). exists a, n. apply elem_of_app. by left. Qed.

(** ** Polls *)
Lemma quiet_poll {A} n (probe : prog Answer (option A)) deadline : asks quiet probe → asks quiet (poll n probe deadline).
Proof.
  intros Hp. induction n as [|n IH]; cbn [poll]; [exact I|]. apply asks_bind; [done|]. intros [a|]; [exact I|].
  split; [done|]. intros now. cbn [bind ask]. destruct (deadline <=? now); [exact I|]. by split.
Qed.
Lemma poll_found {A} n (probe : prog Answer (option A)) deadline t a :
  runs (poll n probe deadline) t (Ok a) → ∃ t1 t2, t = t1 ++ t2 ∧ runs probe t2 (Some a).
Proof.
  revert t. induction n as [|n IH]; intros t; cbn [poll]; [by intros [_ [=]]|].
  intros (t1 & t2 & [a'|] & -> & H1 & H2)%runs_bind.
  - destruct H2 as [-> [= ->]]. exists [], t1. by rewrite app_nil_r.
  - unfold asked, ask in H2. cbn [bind runs] in H2. destruct H2 as (now & t' & -> & H2).
    destruct (deadline <=? now); [by destruct H2 as [_ [=]]|].
    destruct H2 as (u & t3 & -> & H2). apply IH in H2 as (t4 & t5 & -> & H2). exists (t1 ++ ev Now now :: ev (Sleep NODE_POLL_INTERVAL) u :: t4), t5.
    rewrite <-app_assoc. done.
Qed.
Lemma poll_for_found {A} budget (probe : prog Answer (option A)) t a :
  runs (poll_for rounds budget probe) t (Ok a) → ∃ t1 t2, t = t1 ++ t2 ∧ runs probe t2 (Some a).
Proof. intros (now & t' & -> & (t1 & t2 & -> & H)%poll_found). by exists (ev Now now :: t1), t2. Qed.
Lemma quiet_poll_for {A} budget (probe : prog Answer (option A)) : asks quiet probe → asks quiet (poll_for rounds budget probe).
Proof. intros Hp. split; [done|]. intros now. by apply quiet_poll. Qed.

Lemma quiet_probes leader_mgmt leader nodes : asks quiet (lag_probes leader_mgmt leader nodes).
Proof.
  induction nodes as [|n nodes IH]; cbn [lag_probes]; [exact I|]. case_bool_decide; [exact IH|].
  split; [done|]. intros lag. cbn [bind]. apply asks_bind; [exact IH|]. by intros probes.
Qed.
Lemma quiet_gate leader_mgmt bounced : asks quiet (probe_bounce_safety leader_mgmt bounced).
Proof.
  split; [done|]. intros [[[leader|] mgmt]|]; [|exact I..]. split; [done|]. intros [nodes|]; [|exact I].
  cbn [bind]. apply asks_bind; [apply quiet_probes|]. by intros probes.
Qed.
Lemma quiet_wait_gate leader_mgmt bounced : asks quiet (wait_until_safe_to_bounce_follower rounds leader_mgmt bounced).
Proof. apply quiet_poll_for, asks_bind; [apply quiet_gate|]. by intros []. Qed.
Lemma quiet_wait_version addr node t : asks quiet (wait_for_node_version rounds addr node t).
Proof. by apply quiet_poll_for. Qed.
Lemma quiet_wait_streaming addr node : asks quiet (wait_for_streaming rounds addr node).
Proof. by apply quiet_poll_for. Qed.
Lemma quiet_wait_leader entry node : asks quiet (wait_for_new_leader rounds entry node).
Proof. by apply quiet_poll_for. Qed.
Lemma quiet_doctor entry : asks quiet (await_doctor_strict rounds entry).
Proof. by apply quiet_poll_for. Qed.

(** What a wait that succeeds has last heard. *)
Lemma gate_passed leader_mgmt bounced t : runs (wait_until_safe_to_bounce_follower rounds leader_mgmt bounced) t (Ok tt) →
  ∃ t1 t2, t = t1 ++ t2 ∧ gate leader_mgmt bounced t2.
Proof.
  intros (t1 & t2 & -> & H)%poll_for_found. exists t1, t2. split; [done|]. apply runs_bind in H as (t3 & t4 & [] & -> & H & E).
  - destruct E as [-> _]. rewrite app_nil_r. by apply probed_safe.
  - by destruct E as [_ [=]].
Qed.
Lemma version_seen addr node to t : runs (wait_for_node_version rounds addr node to) t (Ok tt) →
  ∃ t1 v, t = t1 ++ [ev (GetVersion addr) (Some v)] ∧ v_version v = to ∧ v_node v = node.
Proof.
  intros (t1 & t2 & -> & H)%poll_for_found. destruct H as (r & t' & -> & H). destruct r as [v|]; [|by destruct H as [_ [=]]]. cbn [bind runs] in H.
  case_bool_decide as Hv; cbn [andb] in H; [|by destruct H as [_ [=]]].
  destruct (Z.eqb_spec (v_node v) node) as [Hn|Hn]; [|by destruct H as [_ [=]]]. destruct H as [-> _]. by exists t1, v.
Qed.
Lemma streaming_seen addr node t : runs (wait_for_streaming rounds addr node) t (Ok tt) →
  ∃ t1 lag, t = t1 ++ [ev (GetLag addr node) (Some lag)] ∧ (is_synced lag = true ∨ lag_bytes lag ≤ Lag.SYNC_LAG_THRESHOLD_BYTES).
Proof.
  intros (t1 & t2 & -> & H)%poll_for_found. destruct H as (r & t' & -> & H). destruct r as [lag|]; [|by destruct H as [_ [=]]]. cbn [bind runs] in H.
  destruct (is_synced lag || _) eqn:El; [|by destruct H as [_ [=]]]. destruct H as [-> _]. exists t1, lag. split; [done|].
  apply orb_true_iff in El as [?|?%Z.leb_le]; auto.
Qed.
Lemma leader_seen entry former t new : runs (wait_for_new_leader rounds entry former) t (Ok new) →
  ∃ t1 t2, t = t1 ++ t2 ∧ ev (GetLeader entry) (Some (LeaderInfo_ (Some new.1) (Some new.2))) ∈ t2 ∧ new.1 ≠ former.
Proof.
  intros (t1 & t2 & -> & H)%poll_for_found. destruct H as (r & t' & -> & H). destruct r as [[[l|] [a|]]|]; try by destruct H as [_ [=]].
  unfold resolved_new_leader in H. cbn in H. destruct (Z.eqb_spec l former); [by destruct H as [_ [=]]|].
  destruct H as [-> [= ->]]. eexists t1, _. split; [done|]. split; [by left|done].
Qed.

(** ** A restart *)
Lemma then_asked P {A B} h (q : io A) (f : A → io B) (Q : hist → result Exit B → Prop) :
  asks P q → (∀ q, P q = true → quiet q = true) →
  (∀ t e, Q (h ++ t) (Err e)) →
  (∀ t a, Forall (λ e, P (projT1 e) = true) t → runs q t (Ok a) → safe any_answer well (h ++ t) (f a) Q) →
  safe any_answer well h (try_bind q f) Q.
Proof.
  intros Hq HP He Hf. apply safe_try_bind. eapply safe_post; [apply (asked_run P any_answer well); [done|]|].
  - intros h' q' Hq'. by apply quiet_well, HP.
  - intros h' [a|e] (t & -> & F & H); [by apply Hf|by apply He].
Qed.
Definition grown (h h' : hist) (r : result Exit ()) : Prop := (∃ t, h' = h ++ t) ∧ (r = Ok tt → settled h').
Lemma grown_err h t e : grown h (h ++ t) (Err e).
Proof. split; [by eexists|done]. Qed.
Lemma then_ask {B} h q (f : Answer q → io B) (Q : hist → result Exit B → Prop) :
  well h q → (∀ r, safe any_answer well (h ++ [ev q r]) (f r) Q) → safe any_answer well h (try_bind (call q) f) Q.
Proof. intros Hq Hf. split; [done|]. intros r _. apply Hf. Qed.
Lemma then_need {A B} h (x : option A) (f : A → io B) (Q : hist → result Exit B → Prop) :
  Q h (Err Bail) → (∀ a, x = Some a → safe any_answer well h (f a) Q) → safe any_answer well h (try_bind (need x) f) Q.
Proof. intros Hn Hf. destruct x as [a|]; [by apply Hf|done]. Qed.
Lemma then_check {B} h b (f : () → io B) (Q : hist → result Exit B → Prop) :
  Q h (Err Bail) → (b = true → safe any_answer well h (f tt) Q) → safe any_answer well h (try_bind (check b) f) Q.
Proof. intros Hn Hf. destruct b; [by apply Hf|done]. Qed.

Lemma restarted_well h leader_mgmt n :
  settled h → let h' := h ++ [ev (SelfUpgradeNode (mgmt_addr n) (body p)) true] in
  safe any_answer well h'
    (let? _ := wait_for_node_version rounds (mgmt_addr n) (node_id n) (target p) in wait_for_streaming rounds leader_mgmt (node_id n))
    (grown h).
Proof.
  intros Hs h'. unfold h'. apply (then_asked quiet); [apply quiet_wait_version|done|intros; rewrite <-app_assoc; apply grown_err|].
  intros t1 [] F1 (ta & v & -> & Hv & Hn)%version_seen.
  eapply safe_post; [apply (asked_run quiet any_answer well); [apply quiet_wait_streaming|apply quiet_well]|].
  intros h2 [[]|e] (t2 & -> & F2 & H); [|rewrite <-!app_assoc; apply grown_err].
  apply streaming_seen in H as (tb & lag & -> & Hl). split; [rewrite <-!app_assoc; by eexists|]. intros _.
  rewrite <-!app_assoc. apply SettledBack; [done|by rewrite app_assoc; apply Forall_app|].
  exists v, leader_mgmt, lag, ta, tb, []. by rewrite Hn.
Qed.
Lemma bounced_well h leader_mgmt n v0 :
  settled h → ev (GetVersion (mgmt_addr n)) (Some v0) ∈ h → v_node v0 = node_id n → v_version v0 = version n → version n ≠ target p →
  led_by h leader_mgmt (node_id n) → (first_leader h = Some (Some (node_id n)) → transferred h) → first_leader h ≠ None →
  safe any_answer well h (bounce rounds leader_mgmt n p) (grown h).
Proof.
  intros Hs Hv0 Hid Hver Hold Hled Hfirst Hsome. unfold bounce.
  apply (then_asked quiet); [apply quiet_wait_gate|done|intros; apply grown_err|]. intros t1 [] F1 (ta & tb & -> & Hg)%gate_passed.
  apply then_ask; [done|]. intros r. apply then_need; [rewrite <-app_assoc; apply grown_err|]. intros v ->.
  apply then_check; [rewrite <-app_assoc; apply grown_err|]. intros Hv%bool_decide_eq_true.
  assert (settled ((h ++ ta ++ tb) ++ [ev (GetVersion (mgmt_addr n)) (Some v)])) as Hs2.
  { rewrite <-app_assoc. apply SettledQuiet; [done|]. apply Forall_app. by repeat constructor. }
  apply then_ask.
  - split; [done|]. exists (h ++ ta), tb, v0, v, leader_mgmt. split; [by rewrite <-!app_assoc|]. rewrite Hid, Hver.
    split; [apply elem_of_app; by left|]. split_and!; [done|done|by apply led_by_app|done|].
    intros E. rewrite <-!app_assoc in E |- *. apply transferred_app, Hfirst.
    destruct (first_leader h) as [l|] eqn:El; [|done]. by rewrite (first_leader_app _ _ _ El) in E.
  - intros accepted. apply then_check; [rewrite <-!app_assoc; apply grown_err|]. intros ->.
    eapply safe_post; [by apply restarted_well|]. intros h' r [(t & ->) Hr]. split; [|done].
    rewrite <-!app_assoc. by eexists.
Qed.
Lemma each_well h leader_mgmt followers :
  settled h →
  Forall (λ n, ∃ v0, ev (GetVersion (mgmt_addr n)) (Some v0) ∈ h ∧ v_node v0 = node_id n ∧ v_version v0 = version n ∧ version n ≠ target p ∧
     led_by h leader_mgmt (node_id n) ∧ first_leader h ≠ Some (Some (node_id n))) followers →
  first_leader h ≠ None →
  safe any_answer well h (bounce_each rounds leader_mgmt followers p) (grown h).
Proof.
  revert h. induction followers as [|n followers IH]; intros h Hs F Hfirst; cbn [bounce_each]; [split; [exists []; by rewrite app_nil_r|done]|].
  apply Forall_cons in F as [(v0 & ? & ? & ? & ? & ? & ?) F]. apply safe_try_bind.
  eapply safe_post; [by eapply bounced_well|]. intros h1 [[]|e] [(t & ->) Hr]; [|apply grown_err].
  eapply safe_post; [apply IH; [by apply Hr| |]|].
  - eapply Forall_impl; [exact F|]. intros m (v1 & ? & ? & ? & ? & ? & Hf). exists v1. split; [apply elem_of_app; by left|].
    split_and!; [done..|by apply led_by_app|]. destruct (first_leader h) as [l|] eqn:El; [|done].
    rewrite (first_leader_app _ _ _ El). congruence.
  - destruct (first_leader h) as [l|] eqn:El; [|done]. by rewrite (first_leader_app _ _ _ El).
  - intros h2 r [(t2 & ->) Hr2]. split; [|done]. rewrite <-app_assoc. by eexists.
Qed.

(** ** The roll *)
(** Before the roll names a leader. *)
Definition calm (q : Req) : bool := match q with SelfUpgradeNode _ _ | GetLeader _ => false | _ => true end.
Lemma calm_quiet q : calm q = true → quiet q = true.
Proof. by destruct q. Qed.
Lemma calm_leaderless t : Forall (λ e, calm (projT1 e) = true) t → first_leader t = None.
Proof. unfold first_leader. induction 1 as [|[[] r] t He _ IH]; cbn; [done|try exact IH..]; done. Qed.
Lemma calm_client node : asks calm (client node).
Proof. unfold client. ask_all. Qed.
Lemma calm_probes nodes : asks calm (probe_versions nodes).
Proof. induction nodes as [|n nodes IH]; cbn [probe_versions]; ask_all. Qed.
Lemma calm_backup addr allow : asks calm (require_backup_or_allow parse_ts addr allow).
Proof. unfold require_backup_or_allow. ask_all. Qed.
#[local] Hint Resolve calm_client calm_probes calm_backup : core.
Lemma calm_preflight node to allow : asks calm (run_cluster_version_preflight major_of parse_ts node to allow).
Proof. unfold run_cluster_version_preflight. ask_all. Qed.
Lemma calm_build node : asks calm (build_cluster_client node).
Proof. unfold build_cluster_client. ask_all. Qed.

(** A version the preflight reports was read from the node at its address. *)
Definition read_from (t : hist) (n : NodeVersion) : Prop :=
  ∃ v, ev (GetVersion (mgmt_addr n)) (Some v) ∈ t ∧ v_node v = node_id n ∧ v_version v = version n.
Lemma read_from_app_l t t' n : read_from t n → read_from (t ++ t') n.
Proof. intros (v & H & E). exists v. split; [apply elem_of_app; by left|done]. Qed.
Lemma read_from_app_r t t' n : read_from t n → read_from (t' ++ t) n.
Proof. intros (v & H & E). exists v. split; [apply elem_of_app; by right|done]. Qed.
Lemma ok_call q t r : runs (call q) t (Ok r) → t = [ev q r].
Proof. by intros (r' & t' & -> & -> & [= ->]). Qed.
Lemma ok_need {A} (x : option A) t a : runs (need x) t (Ok a) → x = Some a ∧ t = [].
Proof. destruct x; [by intros [-> [= ->]]|by intros [_ [=]]]. Qed.
Lemma ok_check b t u : runs (check b) t (Ok u) → b = true ∧ t = [].
Proof. destruct b; [by intros [-> _]|by intros [_ [=]]]. Qed.
Lemma versions_read nodes t versions : runs (probe_versions nodes) t (Ok versions) → Forall (read_from t) versions.
Proof.
  revert t versions. induction nodes as [|n nodes IH]; intros t versions; cbn [probe_versions]; [by intros [-> [= ->]]|].
  intros (? & ? & r & -> & ->%ok_call & H)%runs_try_ok. apply runs_try_ok in H as (? & ? & v & -> & [-> ->]%ok_need & H).
  apply runs_try_ok in H as (? & ? & ? & -> & [Hi ->]%ok_check & H). apply runs_try_ok in H as (t1 & ? & rest & -> & H & [-> [= ->]]).
  apply IH in H. constructor.
  - exists v. split; [by left|done].
  - eapply Forall_impl; [exact H|]. intros m Hm. rewrite app_nil_r. by apply (read_from_app_r _ [_]).
Qed.
Lemma preflight_read node to allow t versions :
  runs (run_cluster_version_preflight major_of parse_ts node to allow) t (Ok versions) → Forall (read_from t) versions.
Proof.
  unfold run_cluster_version_preflight.
  do 5 (intros (? & ? & ? & -> & _ & H)%runs_try_ok; revert H). intros (t1 & ? & vs & -> & H1 & H)%runs_try_ok. revert H.
  do 5 (intros (? & ? & ? & -> & _ & H)%runs_try_ok; revert H). intros [-> [= ->]].
  apply versions_read in H1. eapply Forall_impl; [exact H1|]. intros n Hn. by repeat first [apply read_from_app_l; exact Hn | apply read_from_app_r].
Qed.

Lemma lags_run leader_mgmt nodes t lags : runs (lag_of_each leader_mgmt nodes) t lags → lags.*2 = nodes.
Proof.
  revert t lags. induction nodes as [|n nodes IH]; intros t lags; cbn [lag_of_each]; [by intros [-> ->]|].
  unfold asked, ask. cbn [bind runs]. intros (r & t' & -> & (? & ? & rest & -> & H & [-> ->])%runs_bind). cbn. by rewrite (IH _ _ H).
Qed.
Lemma quiet_lags leader_mgmt nodes : asks quiet (lag_of_each leader_mgmt nodes).
Proof. induction nodes as [|n nodes IH]; cbn [lag_of_each]; [exact I|]. ask_all. Qed.
Lemma quiet_targets nodes leader to : asks quiet (on_target nodes leader to).
Proof. induction nodes as [|n nodes IH]; cbn [on_target]; [exact I|]. ask_all. Qed.
Lemma quiet_transfer leader_mgmt targets : asks quiet (transfer_to_one leader_mgmt targets).
Proof. induction targets as [|n targets IH]; cbn [transfer_to_one]; [exact I|]. ask_all. Qed.
Lemma transfer_ran leader_mgmt targets t : runs (transfer_to_one leader_mgmt targets) t true → transferred t.
Proof.
  revert t. induction targets as [|n targets IH]; intros t; cbn [transfer_to_one]; [by intros [_ [=]]|].
  unfold asked, ask. cbn [bind runs]. intros ([] & t' & -> & H).
  - exists leader_mgmt, n. by left.
  - destruct (IH _ H) as (a & m & Hm). exists a, m. by right.
Qed.
Lemma quiet_finals nodes : asks quiet (final_versions nodes).
Proof. induction nodes as [|n nodes IH]; cbn [final_versions]; [exact I|]. ask_all. Qed.
#[local] Hint Resolve quiet_targets quiet_transfer quiet_finals quiet_doctor quiet_wait_leader : core.

(** A step that restarts nothing keeps the roll settled. *)
Definition complete_settled (h : hist) (r : result Exit Outcome) : Prop := ∀ f, r = Ok (Complete f) → settled h.
Lemma finish_well h entry :
  settled h →
  safe any_answer well h
    (let? _ := await_doctor_strict rounds entry in
     let? nodes := call (GetNodes entry) in
     let? nodes := need nodes in
     let? finals := final_versions nodes in
     let? _ := check (negb (bool_decide (finals = []))) in
     let? _ := check (forallb (λ n, bool_decide (version n = target p)) finals) in
     ok (Complete (finalize_pending finals))) complete_settled.
Proof.
  intros Hs. eapply safe_post; [apply (asked_run quiet any_answer well); [|apply quiet_well]|].
  - ask_all.
  - intros h' r (t & -> & F & _) f _. by apply SettledQuiet.
Qed.
Lemma former_well h entry former :
  settled h → read_from h former → (version former = target p ∨ transferred h) → first_leader h = Some (Some (node_id former)) →
  safe any_answer well h
    (if bool_decide (version former ≠ target p) then
       let? new_leader := wait_for_new_leader rounds entry (node_id former) in bounce rounds new_leader.2 former p
     else ok tt) (grown h).
Proof.
  intros Hs (v0 & Hv0 & Hid & Hver) Ht Hf. case_bool_decide as Hv; [|split; [exists []; by rewrite app_nil_r|done]].
  apply (then_asked quiet); [auto|done|intros; apply grown_err|]. intros t new F (t1 & t2 & -> & Hl & Hne)%leader_seen.
  eapply safe_post; [apply (bounced_well _ new.2 former v0); try done|].
  - by apply SettledQuiet.
  - apply elem_of_app. by left.
  - exists entry, new.1. split; [|done]. rewrite !elem_of_app. by right; right.
  - intros _. apply transferred_app. by destruct Ht.
  - by rewrite (first_leader_app _ _ _ Hf).
  - intros h' r [(t & ->) Hr]. split; [|done]. rewrite <-app_assoc. by eexists.
Qed.
Lemma hand_over_well h entry leader leader_mgmt versions :
  settled h → Forall (read_from h) versions → first_leader h = Some (Some leader) →
  safe any_answer well h
    (let? nodes := call (GetNodes entry) in
     let? nodes := need nodes in
     let? targets := on_target nodes leader (target p) in
     let? _ := check (negb (bool_decide (targets = []))) in
     let* transferred := transfer_to_one leader_mgmt targets in
     let? _ := check transferred in
     let? former := need (find (λ n, node_id n =? leader) versions) in
     let? _ :=
       if bool_decide (version former ≠ target p) then
         let? new_leader := wait_for_new_leader rounds entry leader in bounce rounds new_leader.2 former p
       else ok tt in
     let? _ := await_doctor_strict rounds entry in
     let? nodes := call (GetNodes entry) in
     let? nodes := need nodes in
     let? finals := final_versions nodes in
     let? _ := check (negb (bool_decide (finals = []))) in
     let? _ := check (forallb (λ n, bool_decide (version n = target p)) finals) in
     ok (Complete (finalize_pending finals))) complete_settled.
Proof.
  intros Hs F Hf. apply then_ask; [done|]. intros nodes. apply then_need; [done|]. intros nodes' ->.
  apply (then_asked quiet); [auto|done|done|]. intros t1 targets F1 _. apply then_check; [done|]. intros _.
  apply safe_bind. eapply safe_post; [apply (asked_run quiet any_answer well); [auto|apply quiet_well]|].
  intros h2 moved (t2 & -> & F2 & Hm). apply then_check; [done|]. intros ->. apply transfer_ran in Hm.
  apply then_need; [done|]. intros former [Hin Hl%Z.eqb_eq]%find_some. apply list_elem_of_In in Hin. subst leader.
  apply safe_try_bind. eapply safe_post; [apply former_well|].
  - rewrite <-!app_assoc. apply SettledQuiet; [done|]. apply Forall_app. split; [by constructor|by apply Forall_app].
  - rewrite <-!app_assoc. apply read_from_app_l. by rewrite Forall_forall in F; apply F.
  - right. destruct Hm as (a & m & Hm). exists a, m. apply elem_of_app. by right.
  - rewrite <-!app_assoc. by apply first_leader_app.
  - intros h' [[]|e] [(t & ->) Hr]; [|done]. apply finish_well. by apply Hr.
Qed.
Lemma run_well : safe any_answer well [] (run_cluster_upgrade major_of parse_ts rounds p) complete_settled.
Proof.
  unfold run_cluster_upgrade. apply then_ask; [done|]. intros confirmed. apply then_need; [done|]. intros go _.
  destruct go; cbn [negb]; [|by intros f].
  apply (then_asked calm); [apply calm_preflight|apply calm_quiet|done|]. intros t1 versions C1 R1%preflight_read.
  apply (then_asked calm); [apply calm_build|apply calm_quiet|done|]. intros t2 entry C2 _.
  apply then_ask; [done|]. intros info. apply then_need; [done|]. intros i ->.
  apply then_need; [done|]. intros leader El. apply then_need; [done|]. intros leader_mgmt Em. cbv zeta.
  case_bool_decide as Hn; [by intros f|].
  set (h1 := (([] ++ [ev Confirm confirmed]) ++ t1) ++ t2). assert (Forall (λ e, calm (projT1 e) = true) h1) as C3.
  { unfold h1. rewrite !Forall_app. repeat split; [by constructor..|by constructor|done|done]. }
  set (h2 := h1 ++ [ev (GetLeader entry) (Some i)]).
  assert (first_leader h2 = Some (Some leader)) as Hf.
  { unfold h2, first_leader. rewrite omap_app. apply calm_leaderless in C3. unfold first_leader in C3. destruct (omap _ h1); [|done]. cbn. by rewrite El. }
  assert (led : ∀ node, leader ≠ node → led_by h2 leader_mgmt node).
  { intros node Hne. exists entry, leader. split; [|done]. unfold h2. apply elem_of_app. right. destruct i as [l m]; cbn in El, Em; subst. by left. }
  apply safe_bind. eapply safe_post; [apply (asked_run quiet any_answer well); [apply quiet_lags|apply quiet_well]|].
  intros h3 lags (t3 & -> & F3 & Hl). apply lags_run in Hl.
  assert (Forall (read_from (h2 ++ t3)) versions) as R2.
  { eapply Forall_impl; [exact R1|]. intros n Hv. apply read_from_app_l. unfold h2, h1. by apply read_from_app_l, read_from_app_l, read_from_app_r. }
  assert (first_leader (h2 ++ t3) = Some (Some leader)) as Hf3 by (by apply first_leader_app).
  apply safe_try_bind. eapply safe_post; [apply each_well|].
  - change (h2 ++ t3) with ([] ++ (h2 ++ t3)). apply SettledQuiet; [constructor|]. unfold h2. rewrite !Forall_app. repeat split; [|by constructor|done].
    eapply Forall_impl; [exact C3|]. intros e. apply calm_quiet.
  - apply Forall_forall. intros n Hin. rewrite (sort_by_perm (λ x : Z * NodeVersion, - x.1)), Hl in Hin.
    apply list_elem_of_filter in Hin as [Hne [Hold Hin]%list_elem_of_filter]. rewrite Forall_forall in R2.
    destruct (R2 _ Hin) as (v0 & Hv & Hi & Hver). exists v0. split_and!; [done..| |congruence].
    apply led_by_app, led. congruence.
  - by rewrite Hf3.
  - intros h4 [[]|e] [(t4 & ->) Hr]; [|done]. eapply hand_over_well; [by apply Hr| |by apply first_leader_app].
    eapply Forall_impl; [exact R2|]. intros n. apply read_from_app_l.
Qed.

(** C31. A roll restarts a node only when every node it restarted before was seen on
    the target and then answered by the leader as in step or within the lag threshold
    (a leader that does not know its own position answers a lag of 0, and passes:
    [an_unknown_position_passes_for_streaming]); when the last pass of probes, asked
    of a leader that is another node, had every follower's lag and one other follower
    in step; when the node still reports the version the preflight read, which is not
    the target; and, if it is the node the roll found leading, after a transfer was
    accepted. A roll that completes left none of its restarts unseen. *)
Theorem a_roll_restarts_one_settled_node_at_a_time t :
  (∀ addr body, issues (run_cluster_upgrade major_of parse_ts rounds p) t (SelfUpgradeNode addr body) → may_restart t addr) ∧
  (∀ f, runs (run_cluster_upgrade major_of parse_ts rounds p) t (Ok (Complete f)) → settled t).
Proof.
  split.
  - intros addr body Hi. change t with ([] ++ t). exact (safe_issues _ _ _ _ _ _ _ run_well Hi (relies_any _ _)).
  - intros f Hr. change t with ([] ++ t). by eapply (safe_runs _ _ _ _ _ _ _ run_well Hr (relies_any _ _)).
Qed.
End Roll.

(** Three nodes rolled from 0.1.0 to 0.2.0, the first leading until it is transferred. *)
Module Trio.
Definition old := lit "0.1.0".
Definition new := lit "0.2.0".
Definition body := UpgradeApi.SelfUpgradeHttpRequest_ new None false false false None.
Definition params := ClusterUpgradeParams_ (Some (lit "a:1")) new true body.
Definition nodes := [NodeInfo_ 1 (lit "a:1"); NodeInfo_ 2 (lit "b:1"); NodeInfo_ 3 (lit "c:1")].
Definition restarted (h : hist) (addr : bytes) : bool :=
  existsb (λ e : event Answer, match projT1 e with SelfUpgradeNode a _ => bool_decide (a = addr) | _ => false end) h.
Definition moved (h : hist) : bool :=
  existsb (λ e : event Answer, match projT1 e with TransferLeadership _ _ => true | _ => false end) h.
Definition answers (h : hist) (q : Req) : Answer q :=
  match q with
  | Now | LocalNow => 0
  | Sleep _ => tt
  | Confirm => Some true
  | LoadConfig => Ok None
  | NewClient _ | Doctor _ | SelfUpgradeNode _ _ | TransferLeadership _ _ => true
  | GetNodes _ => Some nodes
  | GetVersion a =>
      Some (VersionResponse_ (if restarted h a then new else old) 1 1
              (if bool_decide (a = lit "a:1") then 1 else if bool_decide (a = lit "b:1") then 2 else 3) 1 1)
  | GetLeader _ => Some (if moved h then LeaderInfo_ (Some 3) (Some (lit "c:1")) else LeaderInfo_ (Some 1) (Some (lit "a:1")))
  | GetLag _ n => Some (Lagging_ (n * 100) true)
  | ListBackups _ => None
  end.
Definition roll := run_cluster_upgrade (λ _, Some 0) (λ _, None) 1 params.
Definition trace : hist := (exec answers [] roll).1.
Fixpoint until (addr : bytes) (t : hist) : hist :=
  match t with
  | [] => []
  | e :: t => match projT1 e with
              | SelfUpgradeNode a _ => if bool_decide (a = addr) then [] else e :: until addr t
              | _ => e :: until addr t
              end
  end.
Lemma completes : runs roll trace (Ok (Complete None)).
Proof.
  destruct (exec_runs answers [] roll) as (t & Et & Hr). change ([] ++ t) with t in Et. unfold trace. rewrite Et.
  assert ((exec answers [] roll).2 = Ok (Complete None)) as E by (vm_compute; reflexivity). by rewrite <-E.
Qed.
End Trio.
Lemma a_roll_restarts_one_settled_node_at_a_time_witness :
  may_restart Trio.params (Trio.until (lit "a:1") Trio.trace) (lit "a:1") ∧ settled Trio.params Trio.trace.
Proof.
  split.
  - refine (proj1 (a_roll_restarts_one_settled_node_at_a_time (λ _, Some 0) (λ _, None) 1 Trio.params (Trio.until (lit "a:1") Trio.trace)) (lit "a:1") Trio.body _).
    apply replay_issues. vm_compute. reflexivity.
  - refine (proj2 (a_roll_restarts_one_settled_node_at_a_time (λ _, Some 0) (λ _, None) 1 Trio.params Trio.trace) None _).
    exact Trio.completes.
Defined.

(** ** Resuming *)
(** Wherever a roll stopped, each node as it was or on the target, the next one starts,
    from the same version or with nothing left to do. *)
Lemma an_interrupted_roll_resumes major_of nodes nodes' target v :
  starting_version_for_roll nodes target = Some v → require_adjacent_major_jump major_of v target = true →
  Forall2 (λ n n', version n' = version n ∨ version n' = target) nodes nodes' →
  ∃ v', starting_version_for_roll nodes' target = Some v' ∧ require_adjacent_major_jump major_of v' target = true ∧
    (v' = v ∨ nodes_needing_upgrade nodes' target = []).
Proof.
  intros (Hne & Hall & n & Hn & Hv)%roll_starts_from Hj F.
  assert (∀ n', n' ∈ nodes' → version n' = v ∨ version n' = target) as Hall'.
  { intros n' Hn'. apply list_elem_of_lookup in Hn' as (i & Hi). destruct (Forall2_lookup_r _ _ _ _ _ F Hi) as (m & Hm & [E|E]); [|by right].
    rewrite E. by apply Hall, list_elem_of_lookup_2 with i. }
  assert (nodes' ≠ []) as Hne' by (intros ->; by inversion F; subst).
  destruct (decide (Exists (λ n', version n' = v) nodes')) as [He|He]; rewrite Exists_exists in He.
  - exists v. split; [by apply roll_starts_from|]. auto.
  - assert (∀ n', n' ∈ nodes' → version n' = target) as Ht.
    { intros n' Hn'. destruct (Hall' _ Hn'); [|done]. exfalso. eauto. }
    exists target. split; [apply roll_starts_from; split; [done|]; split; [auto|]|split].
    + destruct nodes' as [|m nodes']; [done|]. exists m. split; [by left|]. apply Ht. by left.
    + unfold require_adjacent_major_jump in *. destruct (major_of v), (major_of target) as [tgt|]; try done.
      rewrite Z.leb_refl, Z.sub_diag. done.
    + right. apply elem_of_nil_inv. intros n' [Hd Hn']%list_elem_of_filter. by apply Hd, Ht.
Qed.

(** ** Termination *)
Definition slept (h : hist) : Z := foldr (λ e s, match projT1 e with Sleep d => d + s | _ => s end) 0 h.
(** A clock that advances by what was slept. *)
Definition ticks (h : hist) (e : event Answer) : Prop :=
  match e with existT Now r => ∀ h1 r1 h2, h = h1 ++ ev Now r1 :: h2 → r1 + slept h2 ≤ r | _ => True end.
Definition awake (q : Req) : bool := match q with Sleep _ => false | _ => true end.
Lemma slept_over h t : slept (h ++ t) = slept h + slept t.
Proof. unfold slept. induction h as [|e h IH]; cbn; [done|]. destruct (projT1 e); lia. Qed.
Lemma slept_awake t : Forall (λ e, awake (projT1 e) = true) t → slept t = 0.
Proof. induction 1 as [|e t He _ IH]; cbn; [done|]. by destruct (projT1 e). Qed.

Section Ends.
Context (major_of parse_ts : bytes → option Z) (rounds : nat) (Hrounds : (301 ≤ rounds)%nat).
Definition finished {A} (r : result Exit A) : Prop := r ≠ Err OutOfRounds.
Definition ends {A} (q : io A) : Prop := ∀ h, safe ticks any_request h q (λ _ r, finished r).
Lemma ends_try {A B} (q : io A) (f : A → io B) : ends q → (∀ a, ends (f a)) → ends (try_bind q f).
Proof.
  intros Hq Hf h. apply safe_try_bind. eapply safe_post; [apply Hq|]. intros h' [a|e] Hr; [apply Hf|by intros [= ->]].
Qed.
Lemma ends_bind {A B} (q : prog Answer A) (f : A → io B) : (∀ a, ends (f a)) → ends (bind q f).
Proof. intros Hf h. apply safe_bind. eapply safe_post; [apply safe_any|]. intros h' a _. apply Hf. Qed.
Lemma ends_ret {A} (r : result Exit A) : finished r → ends (Ret r).
Proof. by intros Hr h. Qed.
Lemma ends_poll {A} n (probe : prog Answer (option A)) h1 r0 h2 budget :
  asks awake probe → budget ≤ 600 * secs → (1 ≤ n ≤ rounds)%nat → 2 * secs * (Z.of_nat rounds - Z.of_nat n) ≤ slept h2 →
  safe ticks any_request (h1 ++ ev Now r0 :: h2) (poll n probe (r0 + budget)) (λ _ r, finished r).
Proof.
  intros Hp Hb. revert h2. induction n as [|n IH]; intros h2 Hn Hs; [lia|]. cbn [poll].
  apply safe_bind. eapply safe_post; [apply (asked_run awake); [done|by intros]|].
  intros h' [a|] (t & -> & F & _); [done|]. split; [done|]. intros now Hnow. cbn [bind ask asked].
  destruct (Z.leb_spec (r0 + budget) now) as [|Hlt]; [done|]. split; [done|]. intros [] _.
  assert (r0 + slept (h2 ++ t) ≤ now) as Hle by (apply (Hnow h1 r0 (h2 ++ t)); by rewrite <-app_assoc).
  rewrite slept_over, (slept_awake t F) in Hle. rewrite <-!app_assoc. cbn [bind]. apply IH.
  - split; [|lia]. destruct n; [|lia]. exfalso. change (Z.of_nat 1) with 1 in *. unfold secs in *. lia.
  - rewrite !slept_over, (slept_awake t F). cbn. unfold NODE_POLL_INTERVAL, secs in *. lia.
Qed.
Lemma ends_poll_for {A} budget (probe : prog Answer (option A)) :
  asks awake probe → budget ≤ 600 * secs → ends (poll_for rounds budget probe).
Proof.
  intros Hp Hb h. split; [done|]. intros now _. cbn [bind ask asked].
  apply (ends_poll rounds probe h now [] budget); [done|done|lia|]. cbn. lia.
Qed.

Lemma awake_gate leader_mgmt bounced : asks awake (probe_bounce_safety leader_mgmt bounced).
Proof.
  split; [done|]. intros [[[leader|] mgmt]|]; [|exact I..]. split; [done|]. intros [nodes|]; [|exact I].
  cbn [bind]. apply asks_bind; [|by intros]. induction nodes as [|n nodes IH]; cbn [lag_probes]; [exact I|].
  case_bool_decide; [exact IH|]. ask_all.
Qed.
Lemma within_budget : SYNC_WAIT_TIMEOUT ≤ 600 * secs ∧ NODE_RESTART_TIMEOUT ≤ 600 * secs.
Proof. done. Qed.
Lemma ends_call q : ends (call q).
Proof. by intros h; split. Qed.
Lemma ends_need {A} (x : option A) : ends (need x).
Proof. by destruct x; intros h. Qed.
Lemma ends_check b : ends (check b).
Proof. by destruct b; intros h. Qed.
Ltac finish :=
  repeat (intros;
    first
      [ lazymatch goal with
        | |- ends (try_bind _ _) => apply ends_try
        | |- ends (bind _ _) => apply ends_bind
        | |- ends (call _) => apply ends_call
        | |- ends (need _) => apply ends_need
        | |- ends (check _) => apply ends_check
        | |- ends (ok _) => by apply ends_ret
        | |- ends bail => by apply ends_ret
        | |- ends (poll_for _ _ _) => apply ends_poll_for; [ask_all|done]
        | |- ends (if ?b then _ else _) => destruct b
        | |- ends (match ?x with _ => _ end) => destruct x
        end ]).
Lemma ends_gate leader_mgmt bounced : ends (wait_until_safe_to_bounce_follower rounds leader_mgmt bounced).
Proof. apply ends_poll_for; [|done]. apply asks_bind; [apply awake_gate|]. by intros []. Qed.
Lemma ends_bounce leader_mgmt n p : ends (bounce rounds leader_mgmt n p).
Proof.
  unfold bounce. apply ends_try; [apply ends_gate|]. unfold wait_for_node_version, wait_for_streaming. finish.
Qed.
Lemma ends_client node : ends (client node).
Proof. unfold client. finish. Qed.
Lemma ends_versions nodes : ends (probe_versions nodes).
Proof. induction nodes as [|n nodes IH]; cbn [probe_versions]; finish; exact IH. Qed.
Lemma ends_targets nodes leader to : ends (on_target nodes leader to).
Proof. induction nodes as [|n nodes IH]; cbn [on_target]; finish; exact IH. Qed.
Lemma ends_finals nodes : ends (final_versions nodes).
Proof. induction nodes as [|n nodes IH]; cbn [final_versions]; finish; exact IH. Qed.
Lemma ends_each leader_mgmt followers p : ends (bounce_each rounds leader_mgmt followers p).
Proof. induction followers as [|n followers IH]; cbn [bounce_each]; [finish|]. apply ends_try; [apply ends_bounce|by intros]. Qed.
Lemma ends_preflight node to allow : ends (run_cluster_version_preflight major_of parse_ts node to allow).
Proof.
  unfold run_cluster_version_preflight, require_backup_or_allow. apply ends_try; [apply ends_client|]. finish. apply ends_versions.
Qed.
(** With a clock that advances by what is slept, 301 rounds outlast every deadline: a
    roll answers, it does not run out. *)
Lemma a_roll_ends p t r :
  relies ticks [] t → runs (run_cluster_upgrade major_of parse_ts rounds p) t r → r ≠ Err OutOfRounds.
Proof.
  intros Ht Hr. assert (ends (run_cluster_upgrade major_of parse_ts rounds p)) as He.
  - unfold run_cluster_upgrade, build_cluster_client, wait_for_new_leader, await_doctor_strict.
    finish; intros; first [apply ends_preflight|apply ends_client|apply ends_each|apply ends_targets|apply ends_bounce|apply ends_finals].
  - exact (safe_runs _ _ _ _ _ _ _ (He []) Hr Ht).
Qed.
End Ends.
