(* ===== verification/Cosign.v ===== *)
(** * Whether a release is this repository's ([commands/upgrade/cosign.rs])

    The trust policy over what sigstore, x509, base64, regex and SHA-256 answer, which
    are parameters: [new_verified] checks a bundle's signed entry timestamp against the
    log's keys, [blob_verifies] a signature over a blob, [chain_verifies] that a leaf
    chains to a root at an instant.  Texts are bytes known to be UTF-8. *)

From S2P Require Import Prelude Text Utf8.
From Stdlib Require Import Strings.Byte.

Definition hex_digit (d : Z) : byte := z_byte (if d <? 10 then 48 + d else 87 + d).
Definition hex_sha256_of (digest : bytes) : bytes :=
  concat ((λ b, [hex_digit (byte_z b / 16); hex_digit (byte_z b mod 16)]) <$> digest).

(** What the source reads of a parsed bundle, log entry and subject name. *)
Record Bundle := Bundle_ { cert : bytes; base64_signature : bytes; body : bytes; integrated_time : Z }.
Record RekorBody := RekorBody_ { algorithm : bytes; hash_value : bytes; signature_content : bytes; key_content : bytes }.
Inductive GeneralName := Uri (s : bytes) | Rfc822 (s : bytes) | OtherName.
Record CosignVerifier := CosignVerifier_ { expected_issuer : bytes; identity_regex : bytes }.

Definition DEFAULT_OIDC_ISSUER : bytes := lit "https://token.actions.githubusercontent.com".
Definition BEGIN : bytes := lit "-----BEGIN".

Section Cosign.
Context (base64_decode : bytes → option bytes) (sha256 : bytes → bytes).
Context (escape : bytes → bytes) (compiles : bytes → bool) (is_match : bytes → bytes → bool).
Context {Cert Keys Roots : Type}.
Context (from_pem : bytes → option Cert) (to_der : Cert → option bytes).
Context (not_before : Cert → Z) (extensions : Cert → option (list (bytes * bytes))) (san_of_der : bytes → option (list GeneralName)).
Context (SIGSTORE_OIDC_ISSUER_OID SUBJECT_ALT_NAME_OID : bytes).
Context (no_keys : Keys → bool) (new_verified : bytes → Keys → option Bundle) (parse_body : bytes → option RekorBody).
Context (blob_verifies : bytes → bytes → bytes → bool) (chain_verifies : Roots → bytes → Z → bool).

Definition pinned_identity_regex (version : bytes) : bytes :=
  lit "^https://github\.com/electricapp/pgbattery/\.github/workflows/release\.yml@refs/tags/v" ++ escape version ++ lit "$".
(** The variables as they are set; a blank one is not. *)
Definition set_ (v : option bytes) : option bytes := v ← v; if bool_decide (trim v = []) then None else Some v.
Definition new (issuer pattern : bytes) : option CosignVerifier :=
  if compiles pattern then Some (CosignVerifier_ issuer pattern) else None.
Definition from_env (env_issuer env_identity override : option bytes) (target : bytes) : option CosignVerifier :=
  new (default DEFAULT_OIDC_ISSUER (set_ env_issuer))
      (match override with Some p => p | None => default (pinned_identity_regex target) (set_ env_identity) end).

Definition hex_sha256 (data : bytes) : bytes := hex_sha256_of (sha256 data).
Definition normalize_cert_to_pem (c : bytes) : option bytes :=
  let trimmed := trim c in
  if starts_with BEGIN trimmed then Some trimmed
  else decoded ← base64_decode trimmed; from_utf8 decoded.
Definition parse_leaf_pem (pem : bytes) : option Cert :=
  let trimmed := trim pem in
  if starts_with BEGIN trimmed then from_pem trimmed
  else decoded ← base64_decode trimmed; from_pem decoded.

Definition find_extension (oid : bytes) (l : list (bytes * bytes)) : option bytes :=
  snd <$> find (λ e, bool_decide (e.1 = oid)) l.
Definition extract_oidc_issuer (leaf : Cert) : option bytes :=
  exts ← extensions leaf; value ← find_extension SIGSTORE_OIDC_ISSUER_OID exts; from_utf8 value.
Fixpoint first_identity (names : list GeneralName) : option bytes :=
  match names with
  | [] => None
  | Uri s :: _ | Rfc822 s :: _ => Some s
  | OtherName :: names => first_identity names
  end.
Definition extract_san_identity (leaf : Cert) : option bytes :=
  exts ← extensions leaf; value ← find_extension SUBJECT_ALT_NAME_OID exts; names ← san_of_der value; first_identity names.
Definition check_issuer_and_identity (v : CosignVerifier) (leaf : Cert) : bool :=
  match extract_oidc_issuer leaf with
  | Some issuer =>
      bool_decide (issuer = expected_issuer v) &&
      match extract_san_identity leaf with Some identity => is_match (identity_regex v) identity | None => false end
  | None => false
  end.

Definition verify_fulcio_chain_at (roots : Roots) (leaf : Cert) (at_ : Z) : bool :=
  match to_der leaf with Some der => chain_verifies roots der at_ | None => false end.
Definition integrated_time_to_unix (t : Z) : option Z := if t <? 0 then None else Some t.
Definition is_true (b : bool) : option () := if b then Some tt else None.

Definition verify_rekor_body_binds_artifact (bundle : Bundle) (blob : bytes) : bool :=
  bool_decide (is_Some (
    body_bytes ← base64_decode (trim (body bundle));
    b ← parse_body body_bytes;
    _ ← is_true (eq_ignore_ascii_case (algorithm b) (lit "sha256"));
    _ ← is_true (bool_decide (to_ascii_lowercase (trim (hash_value b)) = hex_sha256 blob));
    _ ← is_true (bool_decide (trim (signature_content b) = trim (base64_signature bundle)));
    key ← base64_decode (trim (key_content b));
    logged_pem ← from_utf8 key;
    logged ← parse_leaf_pem logged_pem;
    logged_der ← to_der logged;
    pem ← normalize_cert_to_pem (cert bundle);
    leaf ← parse_leaf_pem pem;
    leaf_der ← to_der leaf;
    is_true (bool_decide (logged_der = leaf_der)))).

Record TrustMaterial := TrustMaterial_ { fulcio_roots : Roots; rekor_keys : Keys }.
Definition verify_bundle_with_trust (v : CosignVerifier) (blob bundle_json : bytes) (trust : TrustMaterial) : bool :=
  bool_decide (is_Some (
    _ ← is_true (negb (no_keys (rekor_keys trust)));
    bundle ← new_verified bundle_json (rekor_keys trust);
    _ ← is_true (verify_rekor_body_binds_artifact bundle blob);
    pem ← normalize_cert_to_pem (cert bundle);
    _ ← is_true (blob_verifies pem (base64_signature bundle) blob);
    leaf ← parse_leaf_pem pem;
    at_ ← integrated_time_to_unix (integrated_time bundle);
    _ ← is_true (verify_fulcio_chain_at (fulcio_roots trust) leaf at_);
    is_true (check_issuer_and_identity v leaf))).
Definition verify_blob_with_roots (v : CosignVerifier) (blob signature_b64 certificate_pem : bytes) (roots : Roots) : bool :=
  bool_decide (is_Some (
    _ ← is_true (blob_verifies certificate_pem signature_b64 blob);
    leaf ← parse_leaf_pem certificate_pem;
    _ ← is_true (verify_fulcio_chain_at roots leaf (not_before leaf));
    is_true (check_issuer_and_identity v leaf))).

(** ** What an acceptance means *)
(** A certificate whose key signed the blob, which chains to a root at [at_], issued for
    this workflow by the expected issuer. *)
Definition signed (v : CosignVerifier) (roots : Roots) (blob pem signature : bytes) (leaf : Cert) (at_ : Z) : Prop :=
  blob_verifies pem signature blob = true ∧ parse_leaf_pem pem = Some leaf ∧
  (∃ der, to_der leaf = Some der ∧ chain_verifies roots der at_ = true) ∧
  extract_oidc_issuer leaf = Some (expected_issuer v) ∧
  ∃ identity, extract_san_identity leaf = Some identity ∧ is_match (identity_regex v) identity = true.
(** A log entry for this blob, signature and certificate. *)
Definition logged (bundle : Bundle) (blob : bytes) (leaf : Cert) : Prop :=
  ∃ raw b key pem logged_leaf der,
    base64_decode (trim (body bundle)) = Some raw ∧ parse_body raw = Some b ∧
    to_ascii_lowercase (trim (hash_value b)) = hex_sha256 blob ∧
    trim (signature_content b) = trim (base64_signature bundle) ∧
    base64_decode (trim (key_content b)) = Some key ∧ from_utf8 key = Some pem ∧
    parse_leaf_pem pem = Some logged_leaf ∧ to_der logged_leaf = Some der ∧ to_der leaf = Some der.

Lemma issued v leaf : check_issuer_and_identity v leaf = true →
  extract_oidc_issuer leaf = Some (expected_issuer v) ∧
  ∃ identity, extract_san_identity leaf = Some identity ∧ is_match (identity_regex v) identity = true.
Proof.
  unfold check_issuer_and_identity. destruct (extract_oidc_issuer leaf) as [i|]; [|done].
  intros [Hi%bool_decide_eq_true Hm]%andb_true_iff. destruct (extract_san_identity leaf) as [s|]; [|done]. subst. eauto.
Qed.
Lemma chained roots leaf at_ : verify_fulcio_chain_at roots leaf at_ = true → ∃ der, to_der leaf = Some der ∧ chain_verifies roots der at_ = true.
Proof. unfold verify_fulcio_chain_at. destruct (to_der leaf); [eauto|done]. Qed.
(** The steps of a check that succeeded. *)
Ltac checked H :=
  repeat match type of H with
  | is_Some (mbind _ (is_true ?b)) => let E := fresh "C" in destruct b eqn:E; [|by destruct H]; cbn [is_true mbind option_bind] in H
  | is_Some (mbind _ ?x) => let E := fresh "E" in destruct x eqn:E; [|by destruct H]; cbn [mbind option_bind] in H
  | is_Some (is_true ?b) => let E := fresh "C" in destruct b eqn:E; [clear H|by destruct H]
  end.
Lemma binding bundle blob : verify_rekor_body_binds_artifact bundle blob = true →
  ∃ pem leaf, normalize_cert_to_pem (cert bundle) = Some pem ∧ parse_leaf_pem pem = Some leaf ∧ logged bundle blob leaf.
Proof.
  intros H%bool_decide_eq_true. checked H.
  repeat match goal with C : bool_decide _ = true |- _ => apply bool_decide_eq_true in C end. subst.
  eexists _, _. split; [done|]. split; [done|]. eexists _, _, _, _, _, _. by split_and!.
Qed.
(** An accepted bundle was logged for this blob under its own certificate, which is
    judged at the log's time. *)
Lemma accepted_bundle v blob json trust : verify_bundle_with_trust v blob json trust = true →
  ∃ bundle pem leaf, new_verified json (rekor_keys trust) = Some bundle ∧ 0 ≤ integrated_time bundle ∧
    signed v (fulcio_roots trust) blob pem (base64_signature bundle) leaf (integrated_time bundle) ∧ logged bundle blob leaf.
Proof.
  intros H%bool_decide_eq_true. checked H. unfold integrated_time_to_unix in *.
  match goal with C : verify_rekor_body_binds_artifact _ _ = true |- _ => apply binding in C as (pem & leaf & En & Ep & Hl) end.
  match goal with C : check_issuer_and_identity _ _ = true |- _ => apply issued in C as [Hi Hs] end.
  match goal with C : verify_fulcio_chain_at _ _ _ = true |- _ => apply chained in C end.
  simplify_eq. destruct (Z.ltb_spec (integrated_time b) 0); [done|]. simplify_eq.
  exists b, pem, leaf. by split_and!.
Qed.
Lemma accepted_blob v blob signature pem roots : verify_blob_with_roots v blob signature pem roots = true →
  ∃ leaf, signed v roots blob pem signature leaf (not_before leaf).
Proof.
  intros H%bool_decide_eq_true. checked H.
  match goal with C : check_issuer_and_identity _ _ = true |- _ => apply issued in C as [Hi Hs] end.
  match goal with C : verify_fulcio_chain_at _ _ _ = true |- _ => apply chained in C end.
  eexists. by split_and!.
Qed.
End Cosign.
