(* ===== verification/SelfUpgrade.v ===== *)
(** * Replacing the running binary ([commands/upgrade/mod.rs])

    [pgbattery upgrade]: the release fetched, checked and put in the executable's place,
    as a program over the release server and the three files it moves: the executable,
    [<exe>.new] and [<exe>.old], which are taken to be three (the executable's own
    extension is neither).  [VERSION] is the running version; [semver]'s order, SHA-256
    and the trust policy's inputs ([Cosign]) are parameters. *)

From S2P Require Import Prelude Effects Text Utf8.
From S2P Require PgFiles Cosign Roll UpgradeApi.
From Stdlib Require Import Strings.Byte.

(** A response: its status, the length it declares, and its body as it arrives, [None]
    where the stream fails. *)
Record Response := Response_ { status : Z; content_length : option Z; chunks : list (option bytes) }.
Definition is_success (r : Response) : bool := (200 <=? status r) && (status r <? 300).
Definition NOT_FOUND : Z := 404.

Record SelfUpgradeRequest := SelfUpgradeRequest_ {
  version : bytes; url : option bytes; allow_insecure_http : bool; insecure_no_verify : bool;
  allow_downgrade : bool; identity : option bytes }.

Section Trust.
Context {Keys Roots : Type}.
Inductive Req :=
| HttpClient
| Get (url : bytes)
| EnvIssuer | EnvIdentity
| TrustRoot
| CurrentExe
| ExeHasParent
| WriteTest | RemoveTest
| RemoveTemp | WriteTemp (content : bytes) | Chmod
| ExeExists | RenameExeToOld | RenameTempToExe | RenameOldToExe
| FsyncParent
| Confirm | Exit10
| Cluster (q : Roll.Req).
Definition Answer (q : Req) : Type :=
  match q with
  | Get _ => option Response
  | EnvIssuer | EnvIdentity => option bytes
  | TrustRoot => option (@Cosign.TrustMaterial Keys Roots)
  | Confirm => option bool
  | RemoveTest | RemoveTemp => unit
  | Cluster q => Roll.Answer q
  | _ => bool
  end.
End Trust.
Arguments Answer : clear implicits.

Inductive Exit := Bail | RollbackFailed | OutOfRounds.

Section SelfUpgrade.
Context {Cert Keys Roots : Type}.
Abbreviation io A := (prog (Answer Keys Roots) (result Exit A)).
Definition ok {A} (a : A) : io A := Ret (Ok a).
Definition bail {A} : io A := Ret (Err Bail).
Definition need {A} (r : option A) : io A := match r with Some a => ok a | None => bail end.
Definition check (b : bool) : io () := if b then ok tt else bail.
Definition call (q : Req) : io (Answer Keys Roots q) := let* r := ask q in ok r.

Context (VERSION OS ARCH : bytes) (precedence : bytes → bytes → option comparison).
Context (base64_decode : bytes → option bytes) (sha256 : bytes → bytes).
Context (escape : bytes → bytes) (compiles : bytes → bool) (is_match : bytes → bytes → bool).
Context (from_pem : bytes → option Cert) (to_der : Cert → option bytes).
Context (not_before : Cert → Z) (extensions : Cert → option (list (bytes * bytes))) (san_of_der : bytes → option (list Cosign.GeneralName)).
Context (ISSUER_OID SAN_OID : bytes).
Context (no_keys : Keys → bool) (new_verified : bytes → Keys → option Cosign.Bundle) (parse_body : bytes → option Cosign.RekorBody).
Context (blob_verifies : bytes → bytes → bytes → bool) (chain_verifies : Roots → bytes → Z → bool).

(** ** The release server *)
Definition DEFAULT_UPGRADE_URL : bytes := lit "https://pgbattery.io/releases".
Definition MAX_UPGRADE_BINARY_BYTES : Z := 512 * 1024 * 1024.
Definition MAX_UPGRADE_TEXT_BYTES : Z := 1024 * 1024.
(** The body up to [cap] bytes; an error past it, or where the stream fails. *)
Fixpoint collect (cap : Z) (acc : bytes) (l : list (option bytes)) : option bytes :=
  match l with
  | [] => Some acc
  | None :: _ => None
  | Some chunk :: l => if cap <? Z.of_nat (length acc + length chunk) then None else collect cap (acc ++ chunk) l
  end.
Definition read_text_capped (r : Response) : option bytes := text ← collect MAX_UPGRADE_TEXT_BYTES [] (chunks r); from_utf8 text.
Definition download_binary_capped (url : bytes) : io bytes :=
  let? r := call (Get url) in
  let? r := need r in
  let? _ := check (is_success r) in
  let? _ := check (match content_length r with Some len => negb (MAX_UPGRADE_BINARY_BYTES <? len) | None => true end) in
  need (collect MAX_UPGRADE_BINARY_BYTES [] (chunks r)).
Definition fetch_text (url : bytes) : io bytes :=
  let? r := call (Get url) in
  let? r := need r in
  let? _ := check (is_success r) in
  need (read_text_capped r).
Definition fetch_optional_text (url : bytes) : io (option bytes) :=
  let? r := call (Get url) in
  let? r := need r in
  if status r =? NOT_FOUND then ok None
  else
    let? _ := check (is_success r) in
    let? text := need (read_text_capped r) in
    ok (Some text).
Definition is_ascii_hexdigit (c : byte) : bool := match to_digit 16 c with Some _ => true | None => false end.
Definition parse_checksum (text : bytes) : option bytes :=
  first ← PgFiles.first_word text;
  let checksum := to_ascii_lowercase first in
  if (length checksum =? 64)%nat && forallb is_ascii_hexdigit checksum then Some checksum else None.
Definition fetch_checksum (url : bytes) : io bytes :=
  let? r := call (Get url) in
  let? r := need r in
  let? _ := check (is_success r) in
  let? text := need (read_text_capped r) in
  need (parse_checksum text).
Definition compute_sha256 (data : bytes) : bytes := Cosign.hex_sha256_of (sha256 data).
Definition fetch_latest_version (base_url : bytes) : io bytes :=
  let? made := call HttpClient in
  let? _ := check made in
  let? text := fetch_text (base_url ++ lit "/latest") in
  ok (trim text).
Definition needs_latest_fetch (version : option bytes) : bool := bool_decide (version = None).

(** ** The trust policy *)
Abbreviation trusts_bundle := (Cosign.verify_bundle_with_trust base64_decode sha256 is_match from_pem to_der extensions san_of_der
  ISSUER_OID SAN_OID no_keys new_verified parse_body blob_verifies chain_verifies).
Abbreviation trusts_blob := (Cosign.verify_blob_with_roots base64_decode is_match from_pem to_der not_before extensions san_of_der
  ISSUER_OID SAN_OID blob_verifies chain_verifies).
Definition verify_release_signature (v : Cosign.CosignVerifier) (content bundle_url signature_url certificate_url : bytes) : io () :=
  let? bundle := fetch_optional_text bundle_url in
  match bundle with
  | Some json =>
      let? trust := call TrustRoot in
      let? trust := need trust in
      check (trusts_bundle v content (trim json) trust)
  | None =>
      let? signature := fetch_text signature_url in
      let? certificate := fetch_text certificate_url in
      let? trust := call TrustRoot in
      let? trust := need trust in
      check (trusts_blob v content (trim signature) certificate (Cosign.fulcio_roots trust))
  end.

(** ** The replacement *)
Definition install (content : bytes) : io () :=
  let* _ := ask RemoveTemp in
  let? written := call (WriteTemp content) in
  if negb (written : bool) then let* _ := ask RemoveTemp in bail
  else
    let? executable := call Chmod in
    if negb (executable : bool) then let* _ := ask RemoveTemp in bail
    else
      let? exists_ := call ExeExists in
      let? saved := if exists_ : bool then call RenameExeToOld else ok true in
      if negb (saved : bool) then let* _ := ask RemoveTemp in bail
      else
        let? moved := call RenameTempToExe in
        if negb (moved : bool) then
          let* _ := ask RemoveTemp in
          let? restored := call RenameOldToExe in
          if restored : bool then bail else Ret (Err RollbackFailed)
        else
          let? parent := call ExeHasParent in
          let? _ := if parent : bool then call FsyncParent else ok true in
          ok tt.
Definition download_verify_replace (binary_url : bytes) (verifier : option Cosign.CosignVerifier) : io () :=
  let? made := call HttpClient in
  let? _ := check made in
  let? expected := fetch_checksum (binary_url ++ lit ".sha256") in
  let? content := download_binary_capped binary_url in
  let? _ := check (negb (bool_decide (content = []))) in
  let? _ := check (bool_decide (compute_sha256 content = expected)) in
  let? _ :=
    match verifier with
    | Some v => verify_release_signature v content (binary_url ++ lit ".bundle") (binary_url ++ lit ".sig") (binary_url ++ lit ".pem")
    | None => ok tt
    end in
  install content.

Definition check_write_permissions : io () :=
  let? parent := call ExeHasParent in
  let? _ := check parent in
  let? written := call WriteTest in
  if written : bool then let* _ := ask RemoveTest in ok tt else bail.
Definition ensure_not_downgrade (current target : bytes) : bool :=
  match precedence target current with
  | None | Some Lt => false
  | Some Eq => bool_decide (target = current)
  | Some Gt => true
  end.
(** [trim_end_matches('/')]. *)
Fixpoint trim_slashes_rev (l : bytes) : bytes :=
  match l with c :: l' => if byte_eqb c "/"%byte then trim_slashes_rev l' else l | [] => [] end.
Definition trim_slashes (l : bytes) : bytes := reverse (trim_slashes_rev (reverse l)).
Definition platform_binary_name : bytes := lit "pgbattery-" ++ OS ++ lit "-" ++ ARCH.
Definition base_of (url : option bytes) : bytes := trim_slashes (default DEFAULT_UPGRADE_URL url).
Definition plain_http_refused (base_url : bytes) (allow : bool) : bool := starts_with (lit "http://") base_url && negb allow.
Definition release_url (base_url target : bytes) : bytes := base_url ++ lit "/v" ++ target ++ lit "/" ++ platform_binary_name.
Definition perform_self_upgrade (req : SelfUpgradeRequest) : io () :=
  let base_url := base_of (url req) in
  let? _ := check (negb (plain_http_refused base_url (allow_insecure_http req))) in
  let target := version req in
  let? _ := check (negb (bool_decide (target = VERSION))) in
  let? _ := check (allow_downgrade req || ensure_not_downgrade VERSION target) in
  let? verifier :=
    if insecure_no_verify req then ok None
    else
      let? issuer := call EnvIssuer in
      let? env_identity := match identity req with Some _ => ok None | None => call EnvIdentity end in
      let? v := need (Cosign.from_env escape compiles issuer env_identity (identity req) target) in
      ok (Some v) in
  let? resolved := call CurrentExe in
  let? _ := check resolved in
  let? _ := check_write_permissions in
  download_verify_replace (release_url base_url target) verifier.

(** ** The command *)
Inductive Outcome := AlreadyThere | UpdateAvailable | Aborted | Upgraded | Rolled (o : Roll.Outcome) | WouldRoll (nodes : nat).
Definition roll_exit (e : Roll.Exit) : Exit := match e with Roll.Bail => Bail | Roll.OutOfRounds => OutOfRounds end.
Definition on_cluster {A} (p : Roll.io A) : io A :=
  let* r := embed (R2 := Answer Keys Roots) Cluster (λ _ r, r) p in
  Ret (match r with Ok a => Ok a | Err e => Err (roll_exit e) end).
Definition run_upgrade (major_of parse_ts : bytes → option Z) (rounds : nat)
    (check_ cluster : bool) (node : option bytes) (version_ : option bytes) (allow_no_backup : bool) (req : SelfUpgradeRequest) : io Outcome :=
  let base_url := base_of (url req) in
  let? _ := check (negb (plain_http_refused base_url (allow_insecure_http req))) in
  let? target := match version_ with Some v => ok v | None => fetch_latest_version base_url end in
  let asked := SelfUpgradeRequest_ target (Some base_url) (allow_insecure_http req) (insecure_no_verify req) (allow_downgrade req) (identity req) in
  if cluster then
    if check_ then
      let? versions := on_cluster (Roll.run_cluster_version_preflight major_of parse_ts node target allow_no_backup) in
      ok (WouldRoll (length (Roll.nodes_needing_upgrade versions target)))
    else
      let body := UpgradeApi.SelfUpgradeHttpRequest_ target (Some base_url) (allow_insecure_http req) (insecure_no_verify req) (allow_downgrade req) (identity req) in
      let? o := on_cluster (Roll.run_cluster_upgrade major_of parse_ts rounds (Roll.ClusterUpgradeParams_ node target allow_no_backup body)) in
      ok (Rolled o)
  else if check_ then
    if bool_decide (target = VERSION) then ok AlreadyThere
    else let* _ := ask Exit10 in ok UpdateAvailable
  else if bool_decide (target = VERSION) then ok AlreadyThere
  else
    let? resolved := call CurrentExe in
    let? _ := check resolved in
    let? confirmed := call Confirm in
    let? confirmed := need confirmed in
    if negb confirmed then ok Aborted
    else
      let? _ := perform_self_upgrade asked in
      ok Upgraded.
End SelfUpgrade.
