(* ===== verification/SelfUpgradeProofs.v ===== *)
(** * What replaces the running binary, and what is left when it fails *)

From S2P Require Import Prelude Effects Text Utf8 SelfUpgrade.
From S2P Require Cosign.
From Stdlib Require Import Strings.Byte.

(** A body within its cap is what arrived. *)
Lemma collected cap acc l r : collect cap acc l = Some r → (Z.of_nat (length acc) ≤ cap → Z.of_nat (length r) ≤ cap) ∧ ∃ parts, l = Some <$> parts ∧ r = acc ++ concat parts.
Proof.
  revert acc. induction l as [|[chunk|] l IH]; intros acc; cbn [collect]; [|destruct (cap <? _) eqn:Ec; [done|]|done].
  - intros [= <-]. split; [done|]. exists []. cbn. by rewrite app_nil_r.
  - apply Z.ltb_ge in Ec. intros (Hl & parts & -> & ->)%IH. split.
    + intros _. apply Hl. rewrite length_app. lia.
    + exists (chunk :: parts). split; [done|]. cbn. by rewrite app_assoc.
Qed.

Section Proofs.
Context {Cert Keys Roots : Type}.
Context (VERSION OS ARCH : bytes) (precedence : bytes → bytes → option comparison).
Context (base64_decode : bytes → option bytes) (sha256 : bytes → bytes).
Context (escape : bytes → bytes) (compiles : bytes → bool) (is_match : bytes → bytes → bool).
Context (from_pem : bytes → option Cert) (to_der : Cert → option bytes).
Context (not_before : Cert → Z) (extensions : Cert → option (list (bytes * bytes))) (san_of_der : bytes → option (list Cosign.GeneralName)).
Context (ISSUER_OID SAN_OID : bytes).
Context (no_keys : Keys → bool) (new_verified : bytes → Keys → option Cosign.Bundle) (parse_body : bytes → option Cosign.RekorBody).
Context (blob_verifies : bytes → bytes → bytes → bool) (chain_verifies : Roots → bytes → Z → bool).
Abbreviation hist := (list (@event Req (Answer Keys Roots))).
Abbreviation ev q r := (answered (R := Answer Keys Roots) q r).
Abbreviation saw := (Effects.saw (R := Answer Keys Roots)).
Abbreviation perform := (perform_self_upgrade VERSION OS ARCH precedence base64_decode sha256 escape compiles is_match from_pem to_der
  not_before extensions san_of_der ISSUER_OID SAN_OID no_keys new_verified parse_body blob_verifies chain_verifies).
Abbreviation signed := (Cosign.signed base64_decode is_match from_pem to_der extensions san_of_der ISSUER_OID SAN_OID blob_verifies chain_verifies).
Abbreviation logged := (Cosign.logged base64_decode sha256 from_pem to_der parse_body).

(** ** What a release is checked for *)
(** The release server answered [text] at [url]. *)
Definition served (t : hist) (url text : bytes) : Prop :=
  saw t (Get url) (λ r, ∃ resp, r = Some resp ∧ is_success resp = true ∧ read_text_capped resp = Some text).
Definition trusted (req : SelfUpgradeRequest) (t : hist) (url content : bytes) : Prop :=
  ∃ env_issuer env_identity v trust pem signature leaf at_,
    saw t EnvIssuer (λ r, r = env_issuer) ∧ (identity req = None → saw t EnvIdentity (λ r, r = env_identity)) ∧
    Cosign.from_env escape compiles env_issuer env_identity (identity req) (version req) = Some v ∧
    saw t TrustRoot (λ r, r = Some trust) ∧ signed v (Cosign.fulcio_roots trust) content pem signature leaf at_ ∧
    ((∃ bundle, logged bundle content leaf ∧ at_ = Cosign.integrated_time bundle) ∨
     at_ = not_before leaf ∧ saw t (Get (url ++ lit ".bundle")) (λ r, ∃ resp, r = Some resp ∧ status resp = NOT_FOUND)).
Record Vetted (req : SelfUpgradeRequest) (t : hist) (content : bytes) : Prop := Vetted_ {
  vetted_request :
    version req ≠ VERSION ∧ (allow_downgrade req = true ∨ precedence (version req) VERSION = Some Gt) ∧
    (starts_with (lit "http://") (base_of (url req)) = true → allow_insecure_http req = true);
  vetted_content : let url := release_url OS ARCH (base_of (url req)) (version req) in
    content ≠ [] ∧ Z.of_nat (length content) ≤ MAX_UPGRADE_BINARY_BYTES ∧
    (saw t (Get url) (λ r, ∃ resp, r = Some resp ∧ is_success resp = true ∧ collect MAX_UPGRADE_BINARY_BYTES [] (chunks resp) = Some content)) ∧
    (∃ text, served t (url ++ lit ".sha256") text ∧ parse_checksum text = Some (compute_sha256 sha256 content)) ∧
    (insecure_no_verify req = true ∨ trusted req t url content);
}.

(** ** Down the run *)
Lemma done_call q (t : hist) r : runs (call q) t (Ok r) → t = [ev q r].
Proof. by intros (r' & t' & -> & -> & [= ->]). Qed.
Lemma done_need {A} (x : option A) (t : hist) a : runs (need x) t (Ok a) → x = Some a ∧ t = [].
Proof. destruct x; [by intros [-> [= ->]]|by intros [_ [=]]]. Qed.
Lemma done_check b (t : hist) u : runs (check b) t (Ok u) → b = true ∧ t = [].
Proof. destruct b; [by intros [-> _]|by intros [_ [=]]]. Qed.
Lemma done_ok {A} (a : A) (t : hist) b : runs (ok a) t (Ok b) → a = b ∧ t = [].
Proof. by intros [-> [= ->]]. Qed.
Ltac down :=
  repeat match goal with
  | H : runs (let _ := _ in _) _ (Ok _) |- _ => cbv zeta in H
  | H : runs (try_bind _ _) _ (Ok _) |- _ => let H1 := fresh "R" in apply runs_try_ok in H as (? & ? & ? & -> & H1 & H)
  | H : runs (call _) _ (Ok _) |- _ => apply done_call in H as ->
  | H : runs (check _) _ (Ok _) |- _ => apply done_check in H as [? ->]
  | H : runs (need _) _ (Ok _) |- _ => apply done_need in H as [? ->]
  | H : runs (ok _) _ (Ok _) |- _ => apply done_ok in H as [? ->]
  | H : runs (if ?b then _ else _) _ (Ok _) |- _ => destruct b eqn:?
  end; subst.
Ltac seen := first [eassumption | apply saw_one | apply saw_app_l; seen | apply saw_app_r; seen].

Lemma text_served url (t : hist) text : runs (fetch_text url) t (Ok text) → served t url text.
Proof. unfold fetch_text, served. intros H. down. seen. eauto. Qed.
Lemma checksum_served url (t : hist) sum : runs (fetch_checksum url) t (Ok sum) → ∃ text, served t url text ∧ parse_checksum text = Some sum.
Proof. unfold fetch_checksum. intros H. down. eexists. split; [|eassumption]. unfold served. seen. eauto. Qed.
Lemma binary_served url (t : hist) content : runs (download_binary_capped url) t (Ok content) →
  saw t (Get url) (λ r, ∃ resp, r = Some resp ∧ is_success resp = true ∧ collect MAX_UPGRADE_BINARY_BYTES [] (chunks resp) = Some content) ∧
  Z.of_nat (length content) ≤ MAX_UPGRADE_BINARY_BYTES.
Proof.
  unfold download_binary_capped. intros H. down. split; [seen; eauto|].
  match goal with H : collect _ _ _ = Some _ |- _ => apply collected in H as [Hl _]; by apply Hl end.
Qed.

Abbreviation verify := (verify_release_signature base64_decode sha256 is_match from_pem to_der not_before extensions san_of_der ISSUER_OID SAN_OID
  no_keys new_verified parse_body blob_verifies chain_verifies).
Lemma signature_checked v content url (t : hist) u :
  runs (verify v content (url ++ lit ".bundle") (url ++ lit ".sig") (url ++ lit ".pem")) t (Ok u) →
  ∃ trust pem signature leaf at_, saw t TrustRoot (λ r, r = Some trust) ∧ signed v (Cosign.fulcio_roots trust) content pem signature leaf at_ ∧
    ((∃ bundle, logged bundle content leaf ∧ at_ = Cosign.integrated_time bundle) ∨
     at_ = not_before leaf ∧ saw t (Get (url ++ lit ".bundle")) (λ r, ∃ resp, r = Some resp ∧ status resp = NOT_FOUND)).
Proof.
  unfold verify_release_signature. intros (t1 & t2 & bundle & -> & R & H)%runs_try_ok. unfold fetch_optional_text in R. destruct bundle as [json|].
  - down; [done|]. match goal with H : Cosign.verify_bundle_with_trust _ _ _ _ _ _ _ _ _ _ _ _ _ _ _ _ _ _ = true |- _ => apply Cosign.accepted_bundle in H as (bundle & pem & leaf & _ & _ & Hs & Hl) end.
    eexists _, pem, _, leaf, _. split; [by seen|]. split; [exact Hs|]. left. by exists bundle.
  - assert (saw t1 (Get (url ++ lit ".bundle")) (λ r, ∃ resp, r = Some resp ∧ status resp = NOT_FOUND)) as Hn.
    { down; [|by match goal with H : Some _ = None |- _ => inversion H end]. seen. apply Z.eqb_eq in Heqb. eauto. }
    clear R. down. match goal with H : Cosign.verify_blob_with_roots _ _ _ _ _ _ _ _ _ _ _ _ _ _ _ _ = true |- _ => apply Cosign.accepted_blob in H as (leaf & Hs) end.
    eexists _, _, _, leaf, _. split; [by seen|]. split; [exact Hs|]. right. split; [done|]. by apply saw_app_l.
Qed.

Lemma trusted_app req t t' url content : trusted req t url content → trusted req (t ++ t') url content.
Proof.
  intros (i & e & v & trust & pem & sig & leaf & at_ & Hi & He & Hv & Ht & Hs & Hl). exists i, e, v, trust, pem, sig, leaf, at_.
  split_and!; [by apply saw_app_l|intros; by apply saw_app_l, He|done|by apply saw_app_l|done|].
  destruct Hl as [Hl|[Ea Hn]]; [by left|right]. split; [done|by apply saw_app_l].
Qed.
Lemma vetted_app req t t' content : Vetted req t content → Vetted req (t ++ t') content.
Proof.
  intros [Hr (Hn & Hl & Hd & (text & Hc & Hp) & Ht)]. split; [done|]. cbv zeta. split_and!; [done|done|by apply saw_app_l| |].
  - exists text. split; [by apply saw_app_l|done].
  - destruct Ht as [Ht|Ht]; [by left|right]. by apply trusted_app.
Qed.

(** ** Before the files are moved *)
Definition tame (q : @Req) : bool := match q with RenameTempToExe | WriteTemp _ => false | _ => true end.
(** The executable is replaced by what was last written, which was vetted before. *)
Definition replaced_well (req : SelfUpgradeRequest) (h : hist) (q : Req) : Prop :=
  match q with
  | RenameTempToExe => ∃ content t1 t2, h = t1 ++ ev (WriteTemp content) true :: t2 ∧ Forall (λ e, tame (projT1 e) = true) t2 ∧ Vetted req t1 content
  | _ => True
  end.
Section Request.
Context (req : SelfUpgradeRequest).
Abbreviation ok_ := (replaced_well req).
Abbreviation fine h p := (safe any_answer ok_ h p (λ _ _, True)).
Lemma tame_well h q : tame q = true → ok_ h q.
Proof. by destruct q. Qed.
Lemma then_tame {A B} h (q : prog (Answer Keys Roots) (result Exit A)) (f : A → prog (Answer Keys Roots) (result Exit B)) :
  asks tame q → (∀ t a, runs q t (Ok a) → fine (h ++ t) (f a)) → fine h (try_bind q f).
Proof.
  intros Hq Hf. apply safe_try_bind. eapply safe_post; [apply (asked_run tame); [done|apply tame_well]|].
  intros h' [a|e] (t & -> & _ & H); [by apply Hf|done].
Qed.
Ltac ask_all :=
  repeat (intros;
    first
      [ exact I
      | lazymatch goal with
        | |- asks _ (bind (ask _) _) => split; [reflexivity|]
        | |- asks _ (bind _ _) => apply asks_bind
        | |- asks _ (try_bind _ _) => apply asks_try
        | |- asks _ (call _) => split; [reflexivity|]
        | |- asks _ (need ?x) => destruct x
        | |- asks _ (check ?b) => destruct b
        | |- asks _ (if ?b then _ else _) => destruct b
        | |- asks _ (match ?x with _ => _ end) => destruct x
        end ]).
Lemma install_well h content : Vetted req h content → fine h (install content).
Proof.
  intros Hv. unfold install. split; [done|]. intros [] _. cbn [bind].
  split; [done|]. intros [] _; [|by split]. cbn [negb bind ok call ask].
  assert (∀ t, Forall (λ e, tame (projT1 e) = true) t → ∃ c t1 t2,
    (((h ++ [ev RemoveTemp tt]) ++ [ev (WriteTemp content) true]) ++ t) = t1 ++ ev (WriteTemp c) true :: t2 ∧
    Forall (λ e, tame (projT1 e) = true) t2 ∧ Vetted req t1 c) as Hw.
  { intros t F. exists content, (h ++ [ev RemoveTemp tt]), t. split; [by rewrite <-!app_assoc|]. split; [done|].
    by apply vetted_app. }
  split; [done|]. intros [] _; [|by split]. cbn [negb bind]. split; [done|].
  assert (∀ t, Forall (λ e, tame (projT1 e) = true) t →
    fine (((h ++ [ev RemoveTemp tt]) ++ [ev (WriteTemp content) true]) ++ t)
      (let? moved := call RenameTempToExe in
       if negb (moved : bool) then
         let* _ := ask RemoveTemp in
         let? restored := call RenameOldToExe in
         if restored : bool then bail else Ret (Err RollbackFailed)
       else
         let? parent := call ExeHasParent in
         let? _ := if parent : bool then call FsyncParent else ok true in
         ok tt)) as Hlast.
  { intros t F. split; [by apply Hw|]. intros [] _; cbn [negb bind].
    - split; [done|]. intros [] _; [|done]. cbn [bind]. by split.
    - split; [done|]. intros [] _. split; [done|]. by intros [] _. }
  intros [] _; cbn [bind].
  - split; [done|]. intros [] _; cbn [bind negb]; [|by split]. rewrite <-!(app_assoc (_ ++ [ev (WriteTemp content) true])). apply Hlast. by repeat constructor.
  - cbn [negb]. rewrite <-!(app_assoc (_ ++ [ev (WriteTemp content) true])). apply Hlast. by repeat constructor.
Qed.
Lemma tame_fetch url : asks tame (fetch_checksum (Keys := Keys) (Roots := Roots) url).
Proof. unfold fetch_checksum. ask_all. Qed.
Lemma tame_download url : asks tame (download_binary_capped (Keys := Keys) (Roots := Roots) url).
Proof. unfold download_binary_capped. ask_all. Qed.
Lemma tame_verify v content a b c : asks tame (verify v content a b c).
Proof. unfold verify_release_signature, fetch_optional_text, fetch_text. ask_all. Qed.

Definition verifier_of (h : hist) (verifier : option Cosign.CosignVerifier) : Prop :=
  match verifier with
  | None => insecure_no_verify req = true
  | Some v => ∃ env_issuer env_identity, saw h EnvIssuer (λ r, r = env_issuer) ∧
      (identity req = None → saw h EnvIdentity (λ r, r = env_identity)) ∧
      Cosign.from_env escape compiles env_issuer env_identity (identity req) (version req) = Some v
  end.
Lemma download_well h verifier :
  version req ≠ VERSION ∧ (allow_downgrade req = true ∨ precedence (version req) VERSION = Some Gt) ∧
    (starts_with (lit "http://") (base_of (url req)) = true → allow_insecure_http req = true) →
  verifier_of h verifier →
  fine h (download_verify_replace base64_decode sha256 is_match from_pem to_der not_before extensions san_of_der ISSUER_OID SAN_OID
            no_keys new_verified parse_body blob_verifies chain_verifies (release_url OS ARCH (base_of (url req)) (version req)) verifier).
Proof.
  intros Hreq Hv. unfold download_verify_replace. set (u := release_url _ _ _ _).
  apply then_tame; [ask_all|]. intros t0 made _. apply then_tame; [ask_all|]. intros t1 [] _.
  apply then_tame; [apply tame_fetch|]. intros t2 sum (text & Hs & Hp)%checksum_served.
  apply then_tame; [apply tame_download|]. intros t3 content [Hd Hl]%binary_served.
  apply then_tame; [ask_all|]. intros t4 [] [He ->]%done_check. apply then_tame; [ask_all|]. intros t5 [] [Hc ->]%done_check.
  apply negb_true_iff, bool_decide_eq_false in He. apply bool_decide_eq_true in Hc.
  apply then_tame; [destruct verifier; [apply tame_verify|exact I]|]. intros t6 [] Hver. apply install_well.
  rewrite !app_nil_r. split; [done|]. cbv zeta. fold u. split_and!; [done|done|by apply saw_app_l, saw_app_r| |].
  - exists text. split; [by apply saw_app_l, saw_app_l, saw_app_r|by rewrite Hc].
  - destruct verifier as [v|]; [right|by left]. destruct Hv as (i & e & Hi & He' & Hf).
    apply signature_checked in Hver as (trust & pem & sig & leaf & at_ & Ht & Hsig & Hlog).
    exists i, e, v, trust, pem, sig, leaf, at_. split_and!; [by do 5 apply saw_app_l|intros; by do 5 apply saw_app_l; apply He'|done|by apply saw_app_r|done|].
    destruct Hlog as [Hlog|[Ea Hn]]; [by left|right]. split; [done|by apply saw_app_r].
Qed.
Lemma perform_well : fine [] (perform req).
Proof.
  unfold perform_self_upgrade. cbv zeta.
  apply then_tame; [ask_all|]. intros t0 [] [Hhttp ->]%done_check. apply then_tame; [ask_all|]. intros t1 [] [Hne ->]%done_check.
  apply then_tame; [ask_all|]. intros t2 [] [Hdown ->]%done_check.
  apply then_tame; [ask_all|]. intros t3 verifier Hv.
  assert (verifier_of t3 verifier) as Hver.
  { destruct (insecure_no_verify req) eqn:Ei; [by apply done_ok in Hv as [<- _]|].
    apply runs_try_ok in Hv as (ta & tb & i & -> & ->%done_call & Hv). apply runs_try_ok in Hv as (tc & td & e & -> & He & Hv).
    apply runs_try_ok in Hv as (te & tf & v & -> & [Hf ->]%done_need & [<- ->]%done_ok). exists i, e. split; [by apply saw_app_l, saw_one|].
    split; [|by destruct (identity req)]. intros En. rewrite En in He. apply done_call in He as ->. by apply saw_app_r, saw_app_l, saw_one. }
  apply then_tame; [ask_all|]. intros t4 made _. apply then_tame; [ask_all|]. intros t5 [] _.
  apply then_tame; [unfold check_write_permissions; ask_all|]. intros t6 [] _. apply download_well.
  - apply negb_true_iff, bool_decide_eq_false in Hne. split; [done|]. split.
    + apply orb_true_iff in Hdown as [?|Hd]; [by left|right]. unfold ensure_not_downgrade in Hd.
      destruct (precedence _ _) as [[]|]; [|done..]. by apply bool_decide_eq_true in Hd.
    + intros Hs. unfold plain_http_refused in Hhttp. rewrite Hs in Hhttp. by destruct (allow_insecure_http req).
  - destruct verifier as [v|]; [|done]. destruct Hver as (i & e & Hi & He & Hf). exists i, e.
    split_and!; [by do 3 apply saw_app_l; apply saw_app_r|intros; by do 3 apply saw_app_l; apply saw_app_r; apply He|done].
Qed.
End Request.

(** C30. What is moved into the executable's place is what was last written beside it,
    and that was vetted before: asked for as another version, newer unless a downgrade
    is allowed, and not from a base URL that begins with the literal [http://] unless
    that is (another spelling of the scheme passes:
    [an_upper_case_scheme_passes_for_secure]); within the size cap, with the hash the
    server published; and, unless verification is waived, signed under a certificate
    that chains to the trust root and names the expected issuer and workflow, with its
    entry in the transparency log binding the content, or no bundle published. *)
Theorem only_a_vetted_release_replaces_the_binary req t :
  issues (perform req) t RenameTempToExe →
  ∃ content t1 t2, t = t1 ++ ev (WriteTemp content) true :: t2 ∧ Forall (λ e, tame (projT1 e) = true) t2 ∧ Vetted req t1 content.
Proof. intros Hi. change t with ([] ++ t). exact (safe_issues _ _ _ _ _ _ _ (perform_well req) Hi (relies_any _ _)). Qed.

(** Where a pinned pattern matches only the tag it names, the default policy accepts this
    repository's release workflow at exactly the version asked for. *)
Definition WORKFLOW : bytes := lit "https://github.com/electricapp/pgbattery/.github/workflows/release.yml@refs/tags/v".
Lemma the_identity_is_the_version_asked_for env_issuer version_ v roots content pem signature leaf at_ :
  (∀ version_ s, is_match (Cosign.pinned_identity_regex escape version_) s = true → s = WORKFLOW ++ version_) →
  Cosign.from_env escape compiles env_issuer None None version_ = Some v →
  signed v roots content pem signature leaf at_ →
  Cosign.extract_san_identity extensions san_of_der SAN_OID leaf = Some (WORKFLOW ++ version_).
Proof.
  intros Hpin Hv (_ & _ & _ & _ & identity & Hid & Hm). unfold Cosign.from_env, Cosign.new in Hv. cbn in Hv.
  destruct (compiles _); [|done]. injection Hv as <-. apply Hpin in Hm as ->. exact Hid.
Qed.
End Proofs.

(** A release 2.0.0 over 1.0.0, its bundle logged. *)
Module Release.
Definition digest (_ : bytes) : bytes := replicate 32 x00.
Definition issuer := Cosign.DEFAULT_OIDC_ISSUER.
Definition bundle := Cosign.Bundle_ (lit "-----BEGIN CERTIFICATE") (lit "sig") [] 0.
Definition body (_ : bytes) := Some (Cosign.RekorBody_ (lit "sha256") (Cosign.hex_sha256_of (digest [])) (lit "sig") []).
Definition req := SelfUpgradeRequest_ (lit "2.0.0") None false false false None.
Definition text (l : bytes) := Some (Response_ 200 None [Some l]).
Definition answers (q : @Req) : option (Answer unit unit q) :=
  match q with
  | Get u => Some (if str_contains (lit ".sha256") u then text (Cosign.hex_sha256_of (digest []))
                   else if str_contains (lit ".bundle") u then text (lit "{}") else text (lit "ELF"))
  | EnvIssuer | EnvIdentity => Some None
  | TrustRoot => Some (Some (Cosign.TrustMaterial_ tt tt))
  | HttpClient | CurrentExe | ExeHasParent | WriteTest | WriteTemp _ | Chmod | ExeExists | RenameExeToOld | RenameTempToExe | FsyncParent => Some true
  | RemoveTest | RemoveTemp => Some tt
  | _ => None
  end.
Definition precedence (a b : bytes) : option comparison := Some Gt.
Definition run := perform_self_upgrade (Keys := unit) (Roots := unit) (lit "1.0.0") (lit "linux") (lit "x86_64") precedence
  (λ _, Some (lit "-----BEGIN")) digest (λ v, v) (λ _, true) (λ _ _, true)
  (λ _, Some tt) (λ _, Some []) (λ _, 0) (λ _, Some [(lit "iss", issuer); (lit "san", [])]) (λ _, Some [Cosign.Uri []]) (lit "iss") (lit "san")
  (λ _, false) (λ _ _, Some bundle) body (λ _ _ _, true) (λ _ _ _, true) req.
Definition moves (q : Req) : bool := match q with RenameTempToExe => true | _ => false end.
Definition trace : list (@event Req (Answer unit unit)) := match drive_to answers moves run with Some (t, _) => t | None => [] end.
Lemma reached : drive_to answers moves run = Some (trace, RenameTempToExe).
Proof. vm_compute. reflexivity. Qed.
End Release.
Lemma only_a_vetted_release_replaces_the_binary_witness :
  ∃ content t1 t2, Release.trace = t1 ++ answered (WriteTemp content) true :: t2 ∧ content ≠ [].
Proof.
  pose proof (only_a_vetted_release_replaces_the_binary (lit "1.0.0") (lit "linux") (lit "x86_64") Release.precedence
    (λ _, Some (lit "-----BEGIN")) Release.digest (λ v, v) (λ _, true) (λ _ _, true)
    (λ _, Some tt) (λ _, Some []) (λ _, 0) (λ _, Some [(lit "iss", Release.issuer); (lit "san", [])]) (λ _, Some [Cosign.Uri []]) (lit "iss") (lit "san")
    (λ _, false) (λ _ _, Some Release.bundle) Release.body (λ _ _ _, true) (λ _ _ _, true) Release.req Release.trace
    (drive_to_issues _ _ _ _ _ Release.reached)) as (c & t1 & t2 & E & F & V).
  exists c, t1, t2. split; [exact E|]. by destruct V as [_ [Hne _]].
Defined.

(** The scheme is compared as it is written: another case of it is not plain http. *)
Lemma an_upper_case_scheme_passes_for_secure :
  plain_http_refused (base_of (Some (lit "http://mirror/"))) false = true ∧
  plain_http_refused (base_of (Some (lit "HTTP://mirror/"))) false = false.
Proof. split; vm_compute; reflexivity. Qed.

(** ** What is left *)
(** A file, or what a failed write left of one. *)
Inductive File := Whole (content : bytes) | Torn.
Record Files := Files_ { exe : option File; temp : option File; old : option File }.
Section Left.
Context {Keys Roots : Type}.
Definition step (s : Files) (e : @event Req (Answer Keys Roots)) (s' : Files) : Prop :=
  match e with
  | existT RemoveTemp _ => s' = Files_ (exe s) None (old s) ∨ s' = s
  | existT (WriteTemp content) r =>
      if r : bool then s' = Files_ (exe s) (Some (Whole content)) (old s) else ∃ f, s' = Files_ (exe s) f (old s)
  | existT ExeExists r => s' = s ∧ r = bool_decide (is_Some (exe s))
  | existT RenameExeToOld r => if r : bool then is_Some (exe s) ∧ s' = Files_ None (temp s) (exe s) else s' = s
  | existT RenameTempToExe r => if r : bool then is_Some (temp s) ∧ s' = Files_ (temp s) None (old s) else s' = s
  | existT RenameOldToExe r => if r : bool then is_Some (old s) ∧ s' = Files_ (old s) (temp s) None else s' = s
  | _ => s' = s
  end.
(** The old binary is in place, or set aside with nothing or a whole new one in place. *)
Definition kept (was : File) (s : Files) : Prop :=
  exe s = Some was ∨ old s = Some was ∧ (exe s = None ∨ ∃ content, exe s = Some (Whole content)).
Definition left_ (was : File) (r : result Exit ()) (s : Files) : Prop :=
  match r with
  | Ok _ => old s = Some was ∧ ∃ content, exe s = Some (Whole content)
  | Err RollbackFailed => old s = Some was ∧ exe s = None
  | Err _ => exe s = Some was
  end.
Abbreviation within := (within (R := Answer Keys Roots) step).

Definition still (q : @Req) : bool :=
  match q with
  | RemoveTemp | WriteTemp _ | RenameExeToOld | RenameTempToExe | RenameOldToExe | ExeExists => false
  | _ => true
  end.
Lemma still_step s q r s' : still q = true → step s (answered q r) s' → s' = s.
Proof. by destruct q. Qed.
Lemma within_still {A} was (p : prog (Answer Keys Roots) A) s : asks still p → kept was s → within (kept was) p s (λ _ s', s' = s).
Proof.
  intros Hp Hk. induction p as [a|q k IH]; [by split|]. destruct Hp as [Hq Hkk]. split; [done|].
  intros r s' ->%still_step; [|done]. by apply IH.
Qed.
Lemma within_refused was s e : kept was s → left_ was (Err e) s → within (kept was) (Ret (Err e)) s (left_ was).
Proof. by split. Qed.
Lemma within_cleared was s (r : result Exit ()) : (∀ s', exe s' = exe s → old s' = old s → kept was s' ∧ left_ was r s') → kept was s →
  within (kept was) (let* _ := ask RemoveTemp in Ret r) s (left_ was).
Proof. intros Hl Hk. split; [done|]. intros [] s' Hs. by destruct Hs as [-> | ->]; apply Hl. Qed.
Lemma install_left was s content : exe s = Some was → within (kept was) (install content) s (left_ was).
Proof.
  intros He. unfold install. split; [by left|]. intros [] s1 Hs1.
  assert (exe s1 = Some was) as He1 by (by destruct Hs1 as [-> | ->]). clear s He Hs1. cbn [bind].
  split; [by left|]. intros r s2 Hs2. cbn [bind ok]. destruct r; cbn [negb].
  2:{ destruct Hs2 as [f ->]. apply within_cleared; [|by left]. intros s' Ee _. cbn in Ee. split; [left|]; cbn; congruence. }
  cbn in Hs2. subst s2. split; [by left|]. intros r s3 ->. cbn [bind ok]. destruct r; cbn [negb].
  2:{ apply within_cleared; [|by left]. intros s' Ee _. cbn in Ee. split; [left|]; cbn; congruence. }
  split; [by left|]. intros r s4 [-> Hr]. assert (r = true) as -> by (rewrite Hr; apply bool_decide_eq_true_2; cbn; by rewrite He1). clear Hr. cbn [bind ok].
  split; [by left|]. intros r s5 Hs5. cbn [bind ok]. destruct r; cbn [negb].
  2:{ cbn in Hs5. subst. apply within_cleared; [|by left]. intros s' Ee _. cbn in Ee. split; [left|]; cbn; congruence. }
  destruct Hs5 as [_ ->]. cbn [exe temp old]. rewrite He1. split; [by right; split; [|left]|].
  intros r s6 Hs6. cbn [bind ok]. destruct r; cbn [negb].
  - destruct Hs6 as [_ ->]. cbn [exe temp old].
    assert (kept was (Files_ (Some (Whole content)) None (Some was))) as Hk by (right; split; [done|right; by exists content]).
    assert (left_ was (Ok tt) (Files_ (Some (Whole content)) None (Some was))) as Hl by (split; [done|by exists content]).
    split; [done|]. intros r s7 ->. destruct r; cbn [bind ok].
    + split; [done|]. intros r s8 ->. by split.
    + by split.
  - cbn in Hs6. subst s6. split; [right; split; [done|by left]|]. intros [] s7 Hs7.
    assert (old s7 = Some was ∧ exe s7 = None) as [Ho7 He7] by (by destruct Hs7 as [-> | ->]). clear Hs7. cbn [bind].
    split; [right; split; [done|by left]|]. intros r s8 Hs8. cbn [bind ok]. destruct r.
    + destruct Hs8 as [_ ->]. cbn [exe temp old]. rewrite Ho7. split; [by left|done].
    + cbn in Hs8. subst. split; [right; split; [done|by left]|done].
Qed.

(** What leaves the three files alone and fails no rollback. *)
Fixpoint careful {A} (p : prog (Answer Keys Roots) (result Exit A)) : Prop :=
  match p with
  | Ret (Err RollbackFailed) => False
  | Ret _ => True
  | Do q k => still q = true ∧ ∀ r, careful (k r)
  end.
Lemma careful_try {A B} (p : prog (Answer Keys Roots) (result Exit A)) (f : A → prog (Answer Keys Roots) (result Exit B)) :
  careful p → (∀ a, careful (f a)) → careful (try_bind p f).
Proof.
  intros Hp Hf. unfold try_bind. induction p as [[a|[]]|q k IH]; cbn [bind]; [apply Hf|done..|].
  destruct Hp as [Hq Hk]. split; [done|]. intros r. apply IH, Hk.
Qed.
Lemma within_then {A} was (p : prog (Answer Keys Roots) (result Exit A)) (f : A → prog (Answer Keys Roots) (result Exit ())) s :
  careful p → exe s = Some was → (∀ a, within (kept was) (f a) s (left_ was)) → within (kept was) (try_bind p f) s (left_ was).
Proof.
  intros Hp He Hf. apply within_bind. assert (kept was s) as Hk by (by left).
  induction p as [[a|[]]|q k IH]; [split; [done|]; apply Hf|by repeat split|done|by repeat split|].
  destruct Hp as [Hq Hkk]. split; [done|]. intros r s' ->%still_step; [|done]. by apply IH.
Qed.
Ltac carefully :=
  repeat (intros;
    first
      [ exact I
      | lazymatch goal with
        | |- careful (bind (ask _) _) => split; [reflexivity|]; intros ?; cbn [bind]
        | |- careful (try_bind _ _) => apply careful_try
        | |- careful (call _) => split; [reflexivity|]
        | |- careful (need ?x) => destruct x
        | |- careful (check ?b) => destruct b
        | |- careful (if ?b then _ else _) => destruct b
        | |- careful (match ?x with _ => _ end) => destruct x
        end ]).
Context {Cert : Type} (VERSION OS ARCH : bytes) (precedence : bytes → bytes → option comparison).
Context (base64_decode : bytes → option bytes) (sha256 : bytes → bytes).
Context (escape : bytes → bytes) (compiles : bytes → bool) (is_match : bytes → bytes → bool).
Context (from_pem : bytes → option Cert) (to_der : Cert → option bytes).
Context (not_before : Cert → Z) (extensions : Cert → option (list (bytes * bytes))) (san_of_der : bytes → option (list Cosign.GeneralName)).
Context (ISSUER_OID SAN_OID : bytes).
Context (no_keys : Keys → bool) (new_verified : bytes → Keys → option Cosign.Bundle) (parse_body : bytes → option Cosign.RekorBody).
Context (blob_verifies : bytes → bytes → bytes → bool) (chain_verifies : Roots → bytes → Z → bool).
Lemma perform_left was s req : exe s = Some was →
  within (kept was) (perform_self_upgrade VERSION OS ARCH precedence base64_decode sha256 escape compiles is_match from_pem to_der
    not_before extensions san_of_der ISSUER_OID SAN_OID no_keys new_verified parse_body blob_verifies chain_verifies req) s (left_ was).
Proof.
  intros He. unfold perform_self_upgrade, download_verify_replace. cbv zeta.
  repeat (apply within_then; [|done|intros]); [..|by apply install_left].
  all: unfold check_write_permissions, fetch_checksum, download_binary_capped, verify_release_signature, fetch_optional_text, fetch_text; carefully.
Qed.

(** Wherever an upgrade is cut, the old binary is in place or whole beside it; one
    that fails leaves it in place, unless it answers that its rollback failed, when it
    is the one set aside; one that succeeds leaves the new binary whole in its place and
    the old one beside it. *)
Lemma an_upgrade_always_leaves_the_old_binary was s req t s' :
  let p := perform_self_upgrade VERSION OS ARCH precedence base64_decode sha256 escape compiles is_match from_pem to_der
    not_before extensions san_of_der ISSUER_OID SAN_OID no_keys new_verified parse_body blob_verifies chain_verifies req in
  exe s = Some was → steps step s t s' → (reaches p t → kept was s') ∧ (∀ r, runs p t r → left_ was r s').
Proof.
  intros p He Hs. pose proof (perform_left was s req He) as Hw. split.
  - intros Hr. by eapply within_reaches.
  - intros r Hr. by destruct (within_runs _ _ _ _ _ _ _ _ Hw Hr Hs).
Qed.
End Left.

(** The last move fails and is undone. *)
Module Undone.
Definition answers (q : Req) : option (Answer unit unit q) :=
  match q with RenameTempToExe => Some false | RenameOldToExe => Some true | q => Release.answers q end.
Definition was := Whole (lit "1.0.0").
Definition before := Files_ (Some was) None None.
Definition trace := match drive answers Release.run with Some (t, _) => t | None => [] end.
Lemma ran : drive answers Release.run = Some (trace, Err Bail).
Proof. vm_compute. reflexivity. Qed.
Lemma moved : steps step before trace (Files_ (Some was) None None).
Proof.
  vm_compute.
  repeat (eexists; split; [first [reflexivity | left; reflexivity | split; [first [reflexivity | eexists; reflexivity] | reflexivity]]|]).
  reflexivity.
Qed.
End Undone.
Lemma an_upgrade_always_leaves_the_old_binary_witness : left_ Undone.was (Err Bail) (Files_ (Some Undone.was) None None).
Proof.
  refine (proj2 (an_upgrade_always_leaves_the_old_binary (lit "1.0.0") (lit "linux") (lit "x86_64") Release.precedence
    (λ _, Some (lit "-----BEGIN")) Release.digest (λ v, v) (λ _, true) (λ _ _, true)
    (λ _, Some tt) (λ _, Some []) (λ _, 0) (λ _, Some [(lit "iss", Release.issuer); (lit "san", [])]) (λ _, Some [Cosign.Uri []]) (lit "iss") (lit "san")
    (λ _, false) (λ _ _, Some Release.bundle) Release.body (λ _ _ _, true) (λ _ _ _, true)
    Undone.was Undone.before Release.req Undone.trace _ eq_refl Undone.moved) _ _).
  exact (drive_runs _ _ _ _ Undone.ran).
Defined.
